(* ===== verification/_CoqProject ===== *)
-Q . S2P
Prelude.v
ByteOrder.v
MyIsamPack.v
MyBit.v
Acl.v
SqlList.v
PList.v
ILists.v
Structs.v
Lex.v
Arrays.v
LifoBuffer.v
HashFilo.v
Bitmap.v
Semisync.v
Doubles.v
Statistics.v
SqlString.v
WindowFunc.v
TypeInt.v
Spatial.v
RangeOpt.v
Mdl.v
Diagnostics.v
BoundedQueue.v
KeyPack.v
LexInput.v
JoinCache.v
Handler.v
Trans.v
Temporal.v
TypeAttr.v
Xid.v
BinlogFlags.v
InCompare.v
ProfileQueue.v
SessionClock.v
Session.v
FieldRec.v
Decimal.v
Items.v
Cte.v
LooseScan.v
AckSockets.v
QueryTables.v
Tables.v
Equalities.v
Gcalc.v
LogEvent.v
StoredProgram.v
Trackers.v
Subselect.v
Streams.v
Statements.v
AuditEvents.v
