(* ===== verification/Prelude.v ===== *)
(** * MariaDB server headers: a verification library

    ** The program

    The repository bundles the development headers of the MariaDB server 10.3
    for Windows (src/MariaDB/include/mysql/server and its directory private)
    with Java, TypeScript and batch programs that use the database.  The C and
    C++ code of the repository is in these headers.  They hold containers,
    codecs, bit manipulation, small state machines and arithmetic as macros and
    inline functions; other code of the server is only declared.  This library
    models the parts whose code is in the headers.  Code the headers call but do
    not contain is an interface: a type class of operations, with a second class
    of laws that say what is documented of them.  The theorems hold for every
    instance, and an instance shows that the laws can hold.

    ** The files

    - Prelude.v: machine integers ([wrapu], [wraps] and their notations), bit
      lemmas, shared list facts, tactics.
    - Doubles.v: binary64 arithmetic, the exact integers, the order of doubles.
    - ByteOrder.v: byte_order_generic.h and byte_order_generic_x86_64.h, modules
      [Generic] and [X86_64].
    - MyIsamPack.v: myisampack.h, module [Mi].
    - MyBit.v: my_bit.h.
    - Acl.v: the privilege masks of sql_acl.h.
    - SqlList.v: base_list, its iterator and the algorithms over it in sql_list.h,
      module [BaseList].
    - PList.v: I_P_List and its policies in sql_plist.h, module [PList].
    - ILists.v: SQL_I_List and base_ilist of sql_list.h, modules [SqlIList] and
      [ILink].
    - Structs.v: intervals, options and parser structures of structs.h and the
      sequence arithmetic of sql_sequence.h.
    - Lex.v: the symbol tables of lex.h.
    - Arrays.v: mem_root_array.h and sql_array.h.
    - LifoBuffer.v: sql_lifo_buffer.h, modules [Forward] and [Backward].
    - HashFilo.v: the cache of hash_filo.h, over an interface of the hash table.
    - Bitmap.v: my_bitmap.h and sql_bitmap.h.
    - Semisync.v: the node allocator of semisync_master.h, module [Tranx].
    - Statistics.v: histograms and column statistics of sql_statistics.h.
    - SqlString.v: the class String of sql_string.h, module [Str].
    - WindowFunc.v: the window functions of item_windowfunc.h.
    - TypeInt.v: Longlong_hybrid of sql_type_int.h.
    - Spatial.v: MBR and the bounds checks of spatial.h.
    - RangeOpt.v: SEL_ARG and QUICK_RANGE of opt_range.h, module [SelArg].
    - Mdl.v: lock keys and requests of mdl.h.
    - Diagnostics.v: SQL states, conditions, warning areas and the diagnostics area
      of sql_error.h, module [SqlError]; its lists are those of PList.v and
      SqlList.v.
    - BoundedQueue.v: the macros of queues.h and Bounded_queue of bounded_queue.h.
    - KeyPack.v: key lengths and bit fields of my_compare.h, sizes and big-endian
      integers of field.h.
    - LexInput.v: Lex_input_stream of sql_lex.h.
    - JoinCache.v: the references in the join buffers of sql_join_cache.h.
    - Handler.v: the scans of handler and Cost_estimate of handler.h, over an
      interface of storage engines.
    - Trans.v: THD_TRANS and Ha_trx_info of handler.h.
    - Temporal.v: my_time.h, the conversions of sql_time.h and Time, Date and
      Datetime of sql_type.h.
    - TypeAttr.v: collations, attributes and limits of types in sql_type.h.
    - Xid.v: xid_t of handler.h.
    - BinlogFlags.v: the statement flags of Query_tables_list of sql_lex.h.
    - InCompare.v: the comparators of IN and CASE in item_cmpfunc.h.
    - ProfileQueue.v: the queue of sql_profile.h.
    - SessionClock.v: the times of THD in sql_class.h.
    - Session.v: kill states, insert ids, the binary log format, quotes, waiting
      commits and transaction flags of THD in sql_class.h, a module each; the
      transaction contexts are those of Trans.v.
    - FieldRec.v: fields in the bytes of a record, field.h; bit fields are those of
      KeyPack.v.
    - Decimal.v: my_decimal.h, over the functions of the decimal library.
    - Items.v: arguments, cached tables and walks of expressions in item.h and
      item_func.h, over an interface of the items that are not functions.
    - Cte.v: the elements of WITH clauses, sql_cte.h.
    - LooseScan.v: Loose_scan_opt of opt_subselect.h.
    - AckSockets.v: the socket listeners of semisync_master_ack_receiver.h.
    - QueryTables.v: the list of the tables of a statement, placeholders for
      prelocking and the nodes of the parse tree, sql_lex.h.
    - Tables.v: table shares, column maps, table references and join tabs of
      table.h and sql_select.h.
    - Equalities.v: Item_equal and its iterators in item_cmpfunc.h and the contexts
      of name resolution in item.h, over the lists of SqlList.v.
    - Gcalc.v: the free list, the shape protocol and the slices of
      gcalc_slicescan.h, the states of gcalc_tools.h, the reader of gstream.h.
    - LogEvent.v: types, flags, sizes and validity of the events of log_event.h.
    - StoredProgram.v: contexts, routines and jumps of sp_pcontext.h and sp_head.h.
    - Trackers.v: the counters of sql_analyze_stmt.h, the targets of my_apc.h, the
      digests of sql_digest.h.
    - Subselect.v: strategies and ordered keys of item_subselect.h, the key stores
      of sql_select.h, uncacheable selects of sql_lex.h; its NULL maps are those of
      Bitmap.v.
    - Streams.v: IO_CACHE of my_sys.h over the functions that fill and flush it, the
      end of the binary log (log.h), injected transactions (rpl_injector.h), the
      counter of partitions (ha_partition.h), prepared statements and waits
      (sql_class.h).
    - Statements.v: declarations and options (sql_lex.h, over Structs.v), system
      variables (set_var.h), table keys (table_cache.h, over Tables.v),
      setup_table_map (sql_base.h), table maps and partition elements.
    - AuditEvents.v: the events of sql_audit.h.

    ** How the code is represented

    An integer is a [Z] and every conversion to a C type of width [w] is written
    [wrapu w] or [wraps w] ([u32], [s64] and so on).  Where the width of [ulong]
    matters it is a parameter: my_config.h sets it to 32 bits, other systems use
    64.  Linked structures live in an explicit store, a finite map from addresses
    to nodes, 0 being the null pointer, so that aliasing, dangling links and what
    an operation leaves alone are part of the statements.  Buffers are lists of
    bytes with offsets.  A function that C leaves undefined on an input (reading
    outside of a buffer, a null pointer, a freed block, an impossible shift,
    division by zero, an impossible conversion of a double) returns [None]
    there, as does one whose assertion fails where the definition has it; a theorem
    that gives a result thereby shows that none of this happens.
    Allocation failure is an argument of the operations that allocate.  Errors
    the code reports are values.

    Loops are structural recursion on fuel.  The fuel is the number of bits, of
    elements, of blocks or of key parts, as the definition says, and each theorem
    about a result shows that it is enough: none is of the form that a result is
    right if there is one.

    ** What the theorems show

    - Containers: histories of operations without a failing append on base_list,
      I_P_List, the LRU cache,
      the transaction node allocator, String and Mem_root_array refine the same
      histories on sequences, with exact frames; iterators survive the removals
      the comments promise; bubble_sort sorts and terminates; LIFO buffers are
      stacks; bitmaps are sets and their iterator enumerates them; a bounded queue
      keeps the best keys of what is pushed.
    - Codecs: stores and reads are inverse, the portable and the x86-64 variants
      agree, high-byte-first images compare as the numbers; privilege masks,
      histogram values and metadata lock keys are read back; key buffers get
      exactly the key parts that were counted.
    - Arithmetic: bit counts and sequence increments at machine width, comparison
      of signed with unsigned 64-bit values, distribution of NTILE, percentiles,
      the buckets of a histogram.
    - Orders: lock keys are ordered as triples, SEL_ARG operations are
      intersection, splitting and hull of intervals, MBR predicates are relations
      of point sets.
    - Diagnostics: SQL states fall into exactly one class; an area pushed on the
      stack of warning areas shields those below until it is popped; the optional
      clearing of warnings loses no condition of the current statement.
    - Statements and engines: histories of the lexer's input stream, of the
      transaction contexts and of the binary log flags refine a zipper, sequences
      and sets; a handler calls its engine only in the states it allows and can
      always be released; IN and CASE compare each pair as on its own when the
      predicant is null in all types or in none; join buffers are maps from places
      to positions.
    - Sessions: a killed connection stays killed; statement times increase; the
      list of waiting commits loses exactly the one that is removed; the
      transaction flags and timeouts agree with the abstract contexts; the
      profiling queue is first in first out while its allocations succeed.
    - Expressions and plans: updating an expression of functions that inherit the
      update from Item_func ends and makes every cache exact, also when items are
      shared; walks are post-order; the maps of WITH
      clauses are sets and the ring of recursive elements is gone around once; the
      loose scan that is saved is the first of the cheapest that were admissible;
      each slave socket is watched by its own entry.
    - Records: NULL flags are a set that bit fields do not disturb; minima are kept
      over a scan; decimal objects behave as independent numbers, converted from numbers with
      space for all digits.
    - Tables of a statement: histories of the list of query tables refine two
      sequences, and prelocking can be undone; the flags of a derived table stand
      for its kind; a table key is read back by the share; a table is marked as
      NULL-complemented exactly when it is nested in an outer join; the
      iterators over a multiple equality visit its items once; nested changes of a
      name resolution context are undone.
    - Subqueries: the strategy byte is a set with a mark; marking the selects of a
      tree uncacheable ends at the statement and touches no other select; a key filled
      with rows is scanned in order; copying a key restores the modes of the
      session, and constants are evaluated once.
    - Files and logs: reading and writing through an IO_CACHE is reading and writing
      the file; the end of the binary log moves with its file under its mutex; log
      events have the sizes and layouts the constants say; injected transactions
      have tables before rows; the audit plugins are told of exactly the happenings
      in their mask.
    - Geometry and programs: the free list never hands out an item in use; the
      calls a shape transporter accepts are lines and polygons; labels, case
      expressions and cursors of nested blocks are found as declared; declarations
      are accepted in order; every option is registered once.
    - Threads: calls into a thread are served when its target is disabled; waiting
      holds one mutex at a time; the counters of ANALYZE are sums.
    - Values: times, dates and datetimes made by the conversions are valid; bit
      fields, key lengths, XA identifiers, fractions of seconds and lengths in
      characters are read back, within the bounds stated.
    - Defects of the code that modelling showed are theorems too: the failing
      push_back of base_list, push_front and move_elements_to of the intrusive
      lists, the overruns of find_bucket at widths 0 and 2, the 32-bit counters, the
      asymmetry of touches, the full range copy_min never reports, the index pop
      of a bounded queue passes, the remaining space of a join buffer that is not
      clamped, the costs add drops, the undefined conversion of
      double_to_datetime, the unchecked hour of a valid time, the items a cleared
      profiling queue still points at and its push without a test of the allocation,
      the flag of another type that hides a value from IN, the missing carry of event times, the digits
      read past a shorter decimal, the function whose restore marks its arguments
      again, the five arguments counted without an array, the socket one past the
      set of select, the stale back links of move_node, the default type
      versioned_write asserts against, the quick select another plan reads, the
      inverted is_part_of_group of row events, the keywords that are prefixes, the
      cycle lost when the timer wraps, the shared counter that goes back to 0, the
      condition of setup_table_map without effect.

    ** Not modelled

    - Classes whose methods are declared in the headers and defined elsewhere:
      evaluation of items, most field types, rows of handlers, most of the parse
      tree and of THD, reading and applying log events, and most of replication; of
      the modelled classes, the methods that are only declared
      (base_list::copy, add of the rank functions, real_alloc and realloc_raw of
      String, the red-black tree of SEL_ARG, granting of metadata locks, the
      setters of the status of a diagnostics area).
    - The functions that override how the tables an expression uses are updated
      (Item_func_isnull, Item_udf_func, Item_func_last_value), and items that give
      another value when they are evaluated again in the same type.
    - Inputs and outputs, locking primitives other than the mutex of the cache,
      instrumentation (psi), the client API and the third-party headers.
    - The Java, TypeScript and batch programs, which share no code with the
      headers.

    - What is left of the inline code: accessors and constructors that only copy
      members, tables of names, and functions of a few lines that pass their
      arguments to code that is declared only (the methods of items that forward to
      their arguments, the choice of copy functions of fields, the locks and
      statistics of sessions).  They keep no state of their own. *)

From Stdlib Require Import ZArith Lia.
From stdpp Require Import base numbers list gmap.

(** ** Machine integers

    A C integer of width [w] is a [Z]; a conversion to it is explicit.
    [wrapu w] is the conversion to the unsigned type (reduction modulo
    [2^w]) and [wraps w] the two's complement conversion to the signed one. *)

Declare Scope cint_scope.
Delimit Scope cint_scope with cint.

Definition wrapu (w z : Z) : Z := z mod 2 ^ w.
Definition wraps (w z : Z) : Z := (z + 2 ^ (w - 1)) mod 2 ^ w - 2 ^ (w - 1).

Abbreviation u8 := (wrapu 8).
Abbreviation u16 := (wrapu 16).
Abbreviation u32 := (wrapu 32).
Abbreviation u64 := (wrapu 64).
Abbreviation s8 := (wraps 8).
Abbreviation s16 := (wraps 16).
Abbreviation s32 := (wraps 32).
Abbreviation s64 := (wraps 64).

Notation "x '.&' y" := (Z.land x y) (at level 40, left associativity) : cint_scope.
Notation "x '.|' y" := (Z.lor x y) (at level 50, left associativity) : cint_scope.
Notation "x '.^' y" := (Z.lxor x y) (at level 50, left associativity) : cint_scope.

Open Scope Z_scope.
Open Scope cint_scope.

(** Whether a value fits the unsigned, respectively signed, type of width [w]. *)
Definition in_u (w z : Z) : Prop := 0 ≤ z < 2 ^ w.
Definition in_s (w z : Z) : Prop := - 2 ^ (w - 1) ≤ z < 2 ^ (w - 1).

#[global] Instance in_u_dec w z : Decision (in_u w z).
Proof. unfold in_u. apply _. Defined.
#[global] Instance in_s_dec w z : Decision (in_s w z).
Proof. unfold in_s. apply _. Defined.

Create HintDb cint discriminated.

Section wrap_lemmas.
Context (w : Z) (Hw : 0 ≤ w).

Lemma wrapu_range z : in_u w (wrapu w z).
Proof using Hw. apply Z.mod_pos_bound, Z.pow_pos_nonneg; lia. Qed.

Lemma wrapu_small z : in_u w z → wrapu w z = z.
Proof using Type. intros H. by apply Z.mod_small. Qed.

Lemma wrapu_wrapu z : wrapu w (wrapu w z) = wrapu w z.
Proof using Hw. apply wrapu_small, wrapu_range. Qed.

Lemma wrapu_testbit z i :
  Z.testbit (wrapu w z) i = bool_decide (i < w) && Z.testbit z i.
Proof using Hw.
  unfold wrapu. case_bool_decide.
  - by rewrite Z.mod_pow2_bits_low.
  - by rewrite Z.mod_pow2_bits_high by lia.
Qed.

Lemma wrapu_land x y : wrapu w (x .& y) = wrapu w x .& wrapu w y.
Proof using Hw.
  apply Z.bits_inj'. intros i _. rewrite !Z.land_spec, !wrapu_testbit, Z.land_spec.
  by destruct (bool_decide _), (Z.testbit x i), (Z.testbit y i).
Qed.

Lemma in_u_land x y : in_u w x → 0 ≤ y → in_u w (x .& y).
Proof using Hw.
  intros Hx Hy. rewrite <- (wrapu_small x Hx).
  replace (wrapu w x .& y) with (wrapu w (x .& y)); [apply wrapu_range|].
  apply Z.bits_inj'. intros i _. rewrite Z.land_spec, !wrapu_testbit, Z.land_spec.
  by destruct (bool_decide _), (Z.testbit x i), (Z.testbit y i).
Qed.

Lemma in_u_lor x y : in_u w x → in_u w y → in_u w (x .| y).
Proof using Hw.
  intros Hx Hy. rewrite <- (wrapu_small x Hx), <- (wrapu_small y Hy).
  replace (wrapu w x .| wrapu w y) with (wrapu w (x .| y)); [apply wrapu_range|].
  apply Z.bits_inj'. intros i _. rewrite Z.lor_spec, !wrapu_testbit, Z.lor_spec.
  by destruct (bool_decide _), (Z.testbit x i), (Z.testbit y i).
Qed.

Lemma in_u_testbit_high x i : in_u w x → w ≤ i → Z.testbit x i = false.
Proof using Hw.
  intros Hx Hi. rewrite <- (wrapu_small x Hx), wrapu_testbit.
  by rewrite bool_decide_eq_false_2 by lia.
Qed.
End wrap_lemmas.

#[export] Hint Resolve wrapu_range in_u_land in_u_lor : cint.

Section signed_lemmas.
Context (w : Z) (Hw : 0 < w).

Lemma wraps_range z : in_s w (wraps w z).
Proof using Hw.
  unfold in_s, wraps.
  assert (2 ^ w = 2 * 2 ^ (w - 1)) as E.
  { rewrite <- Z.pow_succ_r by lia. f_equal. lia. }
  pose proof (Z.mod_pos_bound (z + 2 ^ (w - 1)) (2 ^ w) ltac:(apply Z.pow_pos_nonneg; lia)).
  lia.
Qed.

Lemma wraps_small z : in_s w z → wraps w z = z.
Proof using Hw.
  unfold in_s, wraps. intros H.
  assert (2 ^ w = 2 * 2 ^ (w - 1)) as E.
  { rewrite <- Z.pow_succ_r by lia. f_equal. lia. }
  rewrite Z.mod_small by lia. lia.
Qed.

(** Two values congruent modulo [2^w] have the same signed representation. *)
Lemma wraps_congr x y : x mod 2 ^ w = y mod 2 ^ w → wraps w x = wraps w y.
Proof using Hw.
  intros H. unfold wraps. f_equal.
  rewrite (Z.add_mod x), (Z.add_mod y) by (apply Z.pow_nonzero; lia). by rewrite H.
Qed.

Lemma wraps_mod z : (wraps w z) mod 2 ^ w = z mod 2 ^ w.
Proof using Hw.
  unfold wraps. rewrite Zminus_mod_idemp_l. f_equal. lia.
Qed.
End signed_lemmas.

#[export] Hint Resolve wraps_range : cint.

(** Strip every conversion whose argument is already in range. *)
Ltac unwrap_small :=
  repeat match goal with
  | |- context [wrapu ?w ?z] => rewrite (wrapu_small w z) by (unfold in_u; lia)
  | |- context [wraps ?w ?z] => rewrite (wraps_small w ltac:(lia) z) by (unfold in_s; lia)
  end.

(** Turn shifts by constants into multiplications and divisions for [lia]. *)
Ltac shifts_to_arith :=
  rewrite ?Z.shiftl_mul_pow2, ?Z.shiftr_div_pow2 by lia;
  repeat match goal with
  | |- context [2 ^ Zpos ?p] => let v := eval compute in (2 ^ Zpos p) in change (2 ^ Zpos p) with v
  end.

(** Bitwise extensionality on [Z]. *)
Ltac zbits i := apply Z.bits_inj'; intros i ?Hi.

(** The number of the bit [b]: C's conversion of [bool] to an integer. *)
Definition b2z (b : bool) : Z := if b then 1 else 0.

(** A disjunction of disjoint bit fields is their sum. *)
Lemma lor_add_shift x y k : 0 ≤ k → 0 ≤ x < 2 ^ k → x .| (y ≪ k) = x + y * 2 ^ k.
Proof.
  intros Hk Hx. rewrite <- Z.shiftl_mul_pow2 by done. symmetry.
  apply Z.add_nocarry_lor. zbits i.
  rewrite Z.land_spec, Z.bits_0, Z.shiftl_spec by lia.
  destruct (decide (i < k)).
  - rewrite (Z.testbit_neg_r y) by lia. apply andb_false_r.
  - by rewrite (in_u_testbit_high k ltac:(lia) x) by (done || lia).
Qed.

(** Masking a number given as a high part above [k] bits and a low part. *)
Lemma land_split k x m c :
  0 ≤ k → 0 ≤ c < 2 ^ k →
  x .& (2 ^ k * m + c) = 2 ^ k * (x / 2 ^ k .& m) + (x mod 2 ^ k .& c).
Proof.
  intros Hk Hc.
  assert (in_u k (x mod 2 ^ k .& c)) as Hl.
  { apply in_u_land; [done| |lia]. apply (wrapu_range k Hk x). }
  rewrite (Z.add_comm (_ * m)), (Z.add_comm (_ * (_ .& _))), !(Z.mul_comm (2 ^ k)).
  rewrite <- !lor_add_shift by done. zbits i.
  rewrite !Z.lor_spec, !Z.land_spec, !Z.lor_spec, !Z.shiftl_spec, !Z.land_spec by lia.
  rewrite <- Z.shiftr_div_pow2 by lia.
  fold (wrapu k x). rewrite wrapu_testbit by done.
  destruct (decide (i < k)).
  - rewrite bool_decide_eq_true_2, (Z.testbit_neg_r m), !andb_false_r, !orb_false_r by lia. done.
  - rewrite bool_decide_eq_false_2, (in_u_testbit_high k Hk c) by (done || lia).
    rewrite Z.shiftr_spec by lia. by replace (i - k + k) with i by lia.
Qed.

Lemma in_fmap {X Y} (f : X → Y) (xs : list X) x : x ∈ xs → f x ∈ f <$> xs.
Proof. intros H. apply list_elem_of_fmap. eauto. Qed.

(** ** Counters and chains *)

Lemma u32_succ n : u32 (u32 (Z.of_nat n) + 1) = u32 (Z.of_nat (S n)).
Proof. unfold wrapu. rewrite Zplus_mod_idemp_l. f_equal. lia. Qed.

Lemma u32_pred n : u32 (u32 (Z.of_nat (S n)) - 1) = u32 (Z.of_nat n).
Proof. unfold wrapu. rewrite Zminus_mod_idemp_l. f_equal. lia. Qed.

Lemma u32_add n k : u32 (u32 (Z.of_nat n) + u32 (Z.of_nat k)) = u32 (Z.of_nat (n + k)).
Proof. unfold wrapu. rewrite <- Zplus_mod. f_equal. lia. Qed.

(** The first address of a chain of nodes that ends at [q]. *)
Definition hd_addr (ns : list N) (q : N) : N := match ns with [] => q | a :: _ => a end.

Lemma hd_addr_app ps qs q : hd_addr (ps ++ qs) q = hd_addr ps (hd_addr qs q).
Proof. by destruct ps. Qed.

Lemma filter_ne_id (a : N) (xs : list N) : a ∉ xs → filter (.≠ a) xs = xs.
Proof.
  induction xs as [|x xs IH]; [done|]. intros [Hx Hn]%not_elem_of_cons.
  rewrite filter_cons_True by done. by rewrite IH.
Qed.
