(* ===== verification/ByteOrder.v ===== *)
(** * Little-endian access: byte_order_generic.h and byte_order_generic_x86_64.h

    A pointer into a buffer is the buffer with an offset; a read or a write
    outside the buffer has no value ([None]).  [le_val]/[le_bytes] and
    [be_val]/[be_bytes] are the reference encodings. *)

From S2P Require Import Prelude.
From Stdlib Require Import ZArith Lia.
From stdpp Require Import base numbers list option.
Open Scope Z_scope.
Open Scope cint_scope.

(** ** Memory accesses *)

(** [A[i]] with [A] the pointer at offset [p] of the buffer [m]. *)
Definition rd (m : list Z) (p i : nat) : option Z := m !! (p + i)%nat.

(** [T[i]= (uchar) v] with [T] the pointer at offset [p]. *)
Definition wr (p i : nat) (v : Z) (m : list Z) : option (list Z) :=
  match m !! (p + i)%nat with
  | Some _ => Some (<[(p + i)%nat := u8 v]> m)
  | None => None
  end.

(** The native load and store of an [n]-byte little-endian object. *)
Fixpoint le_val (l : list Z) : Z :=
  match l with
  | [] => 0
  | b :: r => b + 256 * le_val r
  end.

Fixpoint le_bytes (n : nat) (z : Z) : list Z :=
  match n with
  | O => []
  | S n => z mod 256 :: le_bytes n (z / 256)
  end.

Definition be_val (l : list Z) : Z := le_val (rev l).
Definition be_bytes (n : nat) (z : Z) : list Z := rev (le_bytes n z).

Definition load_le (n : nat) (m : list Z) (p : nat) : option Z :=
  if decide (p + n ≤ length m)%nat then Some (le_val (take n (drop p m))) else None.

Definition store_le (n : nat) (m : list Z) (p : nat) (v : Z) : option (list Z) :=
  if decide (p + n ≤ length m)%nat
  then Some (take p m ++ le_bytes n v ++ drop (p + n) m) else None.

(** ** byte_order_generic.h *)
Module Generic.

Definition sint2korr (m : list Z) (p : nat) : option Z :=
  a0 ← rd m p 0; a1 ← rd m p 1;
  Some (s16 (s16 (u8 a0) + s16 a1 ≪ 8)).

Definition sint3korr (m : list Z) (p : nat) : option Z :=
  a0 ← rd m p 0; a1 ← rd m p 1; a2 ← rd m p 2;
  Some (s32 (if decide (u8 a2 .& 128 ≠ 0)
             then u32 (255 ≪ 24) .| u32 (u8 a2 ≪ 16) .| u32 (u8 a1 ≪ 8) .| u8 a0
             else u32 (u8 a2 ≪ 16) .| u32 (u8 a1 ≪ 8) .| u8 a0)).

Definition sint4korr (m : list Z) (p : nat) : option Z :=
  a0 ← rd m p 0; a1 ← rd m p 1; a2 ← rd m p 2; a3 ← rd m p 3;
  Some (s32 (s32 (u8 a0) + s32 (s32 (u8 a1) ≪ 8) + s32 (s32 (u8 a2) ≪ 16)
             + s32 (s16 a3 ≪ 24))).

Definition uint2korr (m : list Z) (p : nat) : option Z :=
  a0 ← rd m p 0; a1 ← rd m p 1;
  Some (u16 (u16 (u8 a0) + u16 (u8 a1) ≪ 8)).

Definition uint3korr (m : list Z) (p : nat) : option Z :=
  a0 ← rd m p 0; a1 ← rd m p 1; a2 ← rd m p 2;
  Some (u32 (u8 a0 + u32 (u8 a1 ≪ 8) + u32 (u8 a2 ≪ 16))).

Definition uint4korr (m : list Z) (p : nat) : option Z :=
  a0 ← rd m p 0; a1 ← rd m p 1; a2 ← rd m p 2; a3 ← rd m p 3;
  Some (u32 (u8 a0 + u32 (u8 a1 ≪ 8) + u32 (u8 a2 ≪ 16) + u32 (u8 a3 ≪ 24))).

Definition uint5korr (m : list Z) (p : nat) : option Z :=
  a0 ← rd m p 0; a1 ← rd m p 1; a2 ← rd m p 2; a3 ← rd m p 3; a4 ← rd m p 4;
  Some (u64 (u64 (u32 (u8 a0 + u32 (u8 a1 ≪ 8) + u32 (u8 a2 ≪ 16) + u32 (u8 a3 ≪ 24)))
             + u64 (u8 a4 ≪ 32))).

Definition uint6korr (m : list Z) (p : nat) : option Z :=
  a0 ← rd m p 0; a1 ← rd m p 1; a2 ← rd m p 2; a3 ← rd m p 3; a4 ← rd m p 4;
  a5 ← rd m p 5;
  Some (u64 (u64 (u32 (u8 a0 + u32 (u8 a1 ≪ 8) + u32 (u8 a2 ≪ 16) + u32 (u8 a3 ≪ 24)))
             + u64 (u8 a4 ≪ 32) + u64 (u8 a5 ≪ 40))).

Definition uint8korr (m : list Z) (p : nat) : option Z :=
  a0 ← rd m p 0; a1 ← rd m p 1; a2 ← rd m p 2; a3 ← rd m p 3;
  a4 ← rd m p 4; a5 ← rd m p 5; a6 ← rd m p 6; a7 ← rd m p 7;
  Some (u64 (u64 (u32 (u8 a0 + u32 (u8 a1 ≪ 8) + u32 (u8 a2 ≪ 16) + u32 (u8 a3 ≪ 24)))
             + u64 (u64 (u32 (u8 a4 + u32 (u8 a5 ≪ 8) + u32 (u8 a6 ≪ 16)
                              + u32 (u8 a7 ≪ 24))) ≪ 32))).

Definition sint8korr (m : list Z) (p : nat) : option Z :=
  v ← uint8korr m p; Some (s64 v).

Definition int2store (m : list Z) (p : nat) (A : Z) : option (list Z) :=
  let def_temp := u32 A in
  m ← wr p 0 def_temp m; wr p 1 (def_temp ≫ 8) m.

Definition int3store (m : list Z) (p : nat) (A : Z) : option (list Z) :=
  m ← wr p 0 A m; m ← wr p 1 (A ≫ 8) m; wr p 2 (A ≫ 16) m.

Definition int4store (m : list Z) (p : nat) (A : Z) : option (list Z) :=
  m ← wr p 0 A m; m ← wr p 1 (A ≫ 8) m; m ← wr p 2 (A ≫ 16) m; wr p 3 (A ≫ 24) m.

Definition int5store (m : list Z) (p : nat) (A : Z) : option (list Z) :=
  m ← wr p 0 A m; m ← wr p 1 (A ≫ 8) m; m ← wr p 2 (A ≫ 16) m; m ← wr p 3 (A ≫ 24) m;
  wr p 4 (A ≫ 32) m.

Definition int6store (m : list Z) (p : nat) (A : Z) : option (list Z) :=
  m ← wr p 0 A m; m ← wr p 1 (A ≫ 8) m; m ← wr p 2 (A ≫ 16) m; m ← wr p 3 (A ≫ 24) m;
  m ← wr p 4 (A ≫ 32) m; wr p 5 (A ≫ 40) m.

Definition int8store (m : list Z) (p : nat) (A : Z) : option (list Z) :=
  let def_temp := u32 A in
  let def_temp2 := u32 (A ≫ 32) in
  m ← int4store m p def_temp; int4store m (p + 4) def_temp2.

End Generic.

(** ** byte_order_generic_x86_64.h *)
Module X86_64.

Definition sint2korr (m : list Z) (p : nat) : option Z := s16 <$> load_le 2 m p.

Definition sint3korr (m : list Z) (p : nat) : option Z :=
  a0 ← rd m p 0; a1 ← rd m p 1; a2 ← rd m p 2;
  Some (s32 (if decide (u8 a2 .& 128 ≠ 0)
             then u32 (255 ≪ 24) .| u32 (u8 a2 ≪ 16) .| u32 (u8 a1 ≪ 8) .| u8 a0
             else u32 (u8 a2 ≪ 16) .| u32 (u8 a1 ≪ 8) .| u8 a0)).

Definition sint4korr (m : list Z) (p : nat) : option Z := s32 <$> load_le 4 m p.
Definition uint2korr (m : list Z) (p : nat) : option Z := u16 <$> load_le 2 m p.

Definition uint3korr (m : list Z) (p : nat) : option Z :=
  a0 ← rd m p 0; a1 ← rd m p 1; a2 ← rd m p 2;
  Some (u32 (u8 a0 + u32 (u8 a1 ≪ 8) + u32 (u8 a2 ≪ 16))).

Definition uint4korr (m : list Z) (p : nat) : option Z := u32 <$> load_le 4 m p.

Definition uint5korr (m : list Z) (p : nat) : option Z :=
  a ← load_le 4 m p; b ← rd m p 4;
  Some (a .| u64 (b ≪ 32)).

Definition uint6korr (m : list Z) (p : nat) : option Z :=
  a ← load_le 4 m p; b ← load_le 2 m (p + 4);
  Some (a .| u64 (b ≪ 32)).

Definition uint8korr (m : list Z) (p : nat) : option Z := u64 <$> load_le 8 m p.
Definition sint8korr (m : list Z) (p : nat) : option Z := s64 <$> load_le 8 m p.

Definition int2store (m : list Z) (p : nat) (A : Z) : option (list Z) :=
  store_le 2 m p (u16 A).

Definition int3store (m : list Z) (p : nat) (A : Z) : option (list Z) :=
  m ← wr p 0 A m; m ← wr p 1 (u32 A ≫ 8) m; wr p 2 (A ≫ 16) m.

Definition int4store (m : list Z) (p : nat) (A : Z) : option (list Z) :=
  store_le 4 m p (u32 A).

Definition int5store (m : list Z) (p : nat) (A : Z) : option (list Z) :=
  m ← store_le 4 m p (u32 A); wr p 4 (A ≫ 32) m.

Definition int6store (m : list Z) (p : nat) (A : Z) : option (list Z) :=
  m ← store_le 4 m p (u32 A); store_le 2 m (p + 4) (u16 (A ≫ 32)).

Definition int8store (m : list Z) (p : nat) (A : Z) : option (list Z) :=
  store_le 8 m p (u64 A).

(** The [bswapq] instruction: the eight bytes of a 64-bit register reversed. *)
Definition bswapq (v : Z) : Z := be_val (le_bytes 8 v).

Definition mi_uint5korr (m : list Z) (p : nat) : option Z :=
  a ← load_le 4 m p; b ← rd m p 4;
  Some (bswapq (u64 ((a .| u64 (b ≪ 32)) ≪ 24))).

Definition mi_uint6korr (m : list Z) (p : nat) : option Z :=
  a ← load_le 4 m p; b ← load_le 2 m (p + 4);
  Some (bswapq (u64 ((a .| u64 (b ≪ 32)) ≪ 16))).

Definition mi_uint7korr (m : list Z) (p : nat) : option Z :=
  a ← load_le 4 m p; b ← load_le 2 m (p + 4); c ← rd m p 6;
  Some (bswapq (u64 ((a .| u64 (b ≪ 32) .| u64 (c ≪ 48)) ≪ 8))).

Definition mi_uint8korr (m : list Z) (p : nat) : option Z :=
  v ← load_le 8 m p; Some (bswapq v).

End X86_64.

(** ** Facts on the reference encodings *)

Definition bytes_ok (l : list Z) : Prop := Forall (λ b, 0 ≤ b < 256) l.

#[global] Instance bytes_ok_dec l : Decision (bytes_ok l).
Proof. unfold bytes_ok. apply _. Defined.

Lemma le_val_bound l : bytes_ok l → 0 ≤ le_val l < 256 ^ Z.of_nat (length l).
Proof.
  induction 1 as [|b l Hb Hl IH]; simpl; [lia|].
  rewrite Nat2Z.inj_succ, Z.pow_succ_r by lia. lia.
Qed.

Lemma le_val_app l k : le_val (l ++ k) = le_val l + 256 ^ Z.of_nat (length l) * le_val k.
Proof.
  induction l as [|b l IH]; [by rewrite Z.mul_1_l|].
  simpl length. rewrite Nat2Z.inj_succ, Z.pow_succ_r by lia.
  change ((b :: l) ++ k) with (b :: (l ++ k)). simpl. rewrite IH. lia.
Qed.

Lemma length_le_bytes n z : length (le_bytes n z) = n.
Proof. revert z. induction n as [|n IH]; intros z; simpl; [done|]. by rewrite IH. Qed.

Lemma length_be_bytes n z : length (be_bytes n z) = n.
Proof. unfold be_bytes. by rewrite length_rev, length_le_bytes. Qed.

Lemma bytes_ok_le_bytes n z : bytes_ok (le_bytes n z).
Proof.
  revert z. induction n as [|n IH]; intros z; simpl; constructor; [|apply IH].
  by apply Z.mod_pos_bound.
Qed.

Lemma bytes_ok_be_bytes n z : bytes_ok (be_bytes n z).
Proof. unfold bytes_ok, be_bytes. apply Forall_rev, bytes_ok_le_bytes. Qed.

Lemma le_val_bytes n z : le_val (le_bytes n z) = z mod 256 ^ Z.of_nat n.
Proof.
  revert z. induction n as [|n IH]; intros z.
  { change (256 ^ Z.of_nat 0) with 1. by rewrite Z.mod_1_r. }
  cbn [le_val le_bytes]. rewrite IH, Nat2Z.inj_succ, Z.pow_succ_r by lia.
  rewrite Z.rem_mul_r by lia. lia.
Qed.

Lemma le_bytes_val l : bytes_ok l → le_bytes (length l) (le_val l) = l.
Proof.
  induction 1 as [|b l Hb Hl IH]; simpl; [done|].
  f_equal; [rewrite Z.mul_comm, Z_mod_plus_full; by apply Z.mod_small|].
  rewrite Z.mul_comm, Z.div_add, Z.div_small, Z.add_0_l by lia. done.
Qed.

Lemma be_val_bytes n z : be_val (be_bytes n z) = z mod 256 ^ Z.of_nat n.
Proof. unfold be_val, be_bytes. by rewrite rev_involutive, le_val_bytes. Qed.

Lemma le_bytes_mod n k z : (n ≤ k)%nat → le_bytes n (z mod 256 ^ Z.of_nat k) = le_bytes n z.
Proof.
  revert k z. induction n as [|n IH]; intros k z Hk; [done|].
  destruct k as [|k]; [lia|].
  rewrite Nat2Z.inj_succ, Z.pow_succ_r by lia. cbn [le_bytes].
  rewrite Z.rem_mul_r by lia.
  rewrite (Z.mul_comm 256), Z_mod_plus_full, Z.mod_mod by lia. f_equal.
  rewrite Z.div_add, Z.div_small, Z.add_0_l by (try apply Z.mod_pos_bound; lia).
  apply IH. lia.
Qed.

(** ** Proof support for the macros *)

Lemma drop_split {A} (m : list A) p n :
  (p + n ≤ length m)%nat → ∃ pre l r,
    m = pre ++ l ++ r ∧ length pre = p ∧ length l = n.
Proof.
  intros H. exists (take p m), (take n (drop p m)), (drop n (drop p m)).
  rewrite take_drop, take_drop, !length_take, length_drop. split_and!; [done|lia|lia].
Qed.

Lemma rd_app pre l r i : rd (pre ++ l ++ r) (length pre) i = (l ++ r) !! i.
Proof. unfold rd. by rewrite lookup_app_r, Nat.add_comm, Nat.add_sub by lia. Qed.

Lemma rd_none m p i : (length m ≤ p + i)%nat → rd m p i = None.
Proof. apply lookup_ge_None_2. Qed.

Lemma wr_app pre l i v : wr (length pre) i v (pre ++ l) = (λ l', pre ++ l') <$> wr 0 i v l.
Proof.
  unfold wr. rewrite lookup_app_r, insert_app_r by lia.
  rewrite Nat.add_comm, Nat.add_sub. by destruct (_ !! _).
Qed.

Lemma load_le_app pre l r p n :
  length pre = p → length l = n → load_le n (pre ++ l ++ r) p = Some (le_val l).
Proof.
  intros <- <-. unfold load_le. rewrite decide_True by (rewrite !length_app; lia).
  by rewrite drop_app_length, take_app_length.
Qed.

Lemma store_le_app pre l r p n v :
  length pre = p → length l = n →
  store_le n (pre ++ l ++ r) p v = Some (pre ++ le_bytes n v ++ r).
Proof.
  intros <- <-. unfold store_le. rewrite decide_True by (rewrite !length_app; lia).
  rewrite take_app_length, <- drop_drop, drop_app_length, drop_app_length. done.
Qed.

(** Shape of the [n]-byte window at [p] of a buffer long enough. *)
Ltac window H :=
  let pre := fresh "pre" in let l := fresh "l" in let r := fresh "r" in
  let Hp := fresh "Hp" in let Hl := fresh "Hl" in
  destruct (drop_split _ _ _ H) as (pre & l & r & -> & Hp & Hl);
  repeat (destruct l as [|? l]; try (simpl in Hl; lia); simpl in Hl);
  clear Hl; subst.

Lemma wr_0_0 b l v : wr 0 0 v (b :: l) = Some (u8 v :: l).
Proof. done. Qed.

Lemma wr_0_S i b l v : wr 0 (S i) v (b :: l) = (λ l', b :: l') <$> wr 0 i v l.
Proof. unfold wr. simpl. by destruct (_ !! _). Qed.

Lemma wr_none m p i v : (length m ≤ p + i)%nat → wr p i v m = None.
Proof. intros H. unfold wr. by rewrite lookup_ge_None_2. Qed.

Lemma wr_length m p i v m' : wr p i v m = Some m' → length m' = length m.
Proof. unfold wr. destruct (_ !! _); intros [= <-]. by rewrite length_insert. Qed.


(** ** Reads

    Every read macro is the reference read of its window. *)

Ltac korr_none n :=
  unfold load_le; rewrite decide_False by lia;
  rewrite (rd_none _ _ n) by lia;
  repeat (match goal with |- context [rd ?m ?p ?i] => destruct (rd m p i); simpl end); done.

Ltac bytes_pure Hm :=
  apply Forall_app in Hm as [_ Hm]; simpl in Hm;
  repeat match goal with
  | H : Forall _ (_ :: _) |- _ => apply Forall_cons_1 in H as [? H]
  end.

(** [korr_open n f] reduces to arithmetic that an unsigned [n]-byte read macro is [load_le n]. *)
Ltac korr_open n f :=
  intros Hm; unfold f;
  match goal with |- context [rd ?m ?p 0] =>
    destruct (decide (p + n ≤ length m)%nat) as [H|H];
      [window H; rewrite !rd_app; erewrite load_le_app by done; cbn; bytes_pure Hm
      | match n with S ?k => korr_none k end]
  end.

Lemma uint2korr_load m p : bytes_ok m → Generic.uint2korr m p = load_le 2 m p.
Proof.
  korr_open 2%nat Generic.uint2korr. f_equal. shifts_to_arith. unwrap_small. lia.
Qed.

Lemma uint3korr_load m p : bytes_ok m → Generic.uint3korr m p = load_le 3 m p.
Proof.
  korr_open 3%nat Generic.uint3korr. f_equal. shifts_to_arith. unwrap_small. lia.
Qed.

Lemma uint4korr_load m p : bytes_ok m → Generic.uint4korr m p = load_le 4 m p.
Proof.
  korr_open 4%nat Generic.uint4korr. f_equal. shifts_to_arith. unwrap_small. lia.
Qed.

Lemma uint5korr_load m p : bytes_ok m → Generic.uint5korr m p = load_le 5 m p.
Proof.
  korr_open 5%nat Generic.uint5korr. f_equal. shifts_to_arith. unwrap_small. lia.
Qed.

Lemma uint6korr_load m p : bytes_ok m → Generic.uint6korr m p = load_le 6 m p.
Proof.
  korr_open 6%nat Generic.uint6korr. f_equal. shifts_to_arith. unwrap_small. lia.
Qed.

Lemma uint8korr_load m p : bytes_ok m → Generic.uint8korr m p = load_le 8 m p.
Proof.
  korr_open 8%nat Generic.uint8korr. f_equal. shifts_to_arith. unwrap_small. lia.
Qed.

Lemma sint2korr_load m p : bytes_ok m → Generic.sint2korr m p = s16 <$> load_le 2 m p.
Proof.
  korr_open 2%nat Generic.sint2korr. f_equal. shifts_to_arith. unwrap_small.
  f_equal. lia.
Qed.

Lemma byte_sign a : 0 ≤ a < 256 → a .& 128 ≠ 0 ↔ 128 ≤ a.
Proof.
  intros Ha. change 128 with (2 ^ 7) at 1.
  assert (a .& 2 ^ 7 = if Z.testbit a 7 then 2 ^ 7 else 0) as ->.
  { zbits i. rewrite Z.land_spec, Z.pow2_bits_eqb by lia.
    destruct (Z.testbit a 7) eqn:E; rewrite ?Z.pow2_bits_eqb, ?Z.bits_0 by lia;
      destruct (Z.eqb_spec 7 i) as [<-|]; rewrite ?E, ?andb_false_r, ?andb_true_r; done. }
  destruct (Z.testbit a 7) eqn:E.
  - apply Z.testbit_true in E; [|lia]. split; [Z.div_mod_to_equations; lia|done].
  - apply Z.testbit_false in E; [|lia]. split; [done|Z.div_mod_to_equations; lia].
Qed.

Lemma sint3_value a0 a1 a2 :
  0 ≤ a0 < 256 → 0 ≤ a1 < 256 → 0 ≤ a2 < 256 →
  s32 (if decide (u8 a2 .& 128 ≠ 0)
       then u32 (255 ≪ 24) .| u32 (u8 a2 ≪ 16) .| u32 (u8 a1 ≪ 8) .| u8 a0
       else u32 (u8 a2 ≪ 16) .| u32 (u8 a1 ≪ 8) .| u8 a0)
  = wraps 24 (le_val [a0; a1; a2]).
Proof.
  intros H0 H1 H2. rewrite !(wrapu_small 8) by done.
  assert ((a2 ≪ 16) .| (a1 ≪ 8) .| a0 = a0 + a1 * 256 + a2 * 65536) as E.
  { rewrite <- Z.lor_assoc, (Z.lor_comm (a1 ≪ 8)), (lor_add_shift a0 a1) by lia.
    rewrite Z.lor_comm, lor_add_shift by lia. done. }
  replace (u32 (a2 ≪ 16)) with (a2 ≪ 16) by (shifts_to_arith; unwrap_small; done).
  replace (u32 (a1 ≪ 8)) with (a1 ≪ 8) by (shifts_to_arith; unwrap_small; done).
  replace (u32 (255 ≪ 24)) with (255 ≪ 24) by done.
  case_decide as Hs.
  - apply byte_sign in Hs; [|done]. rewrite <- !Z.lor_assoc, (Z.lor_assoc (a2 ≪ 16)), E.
    rewrite Z.lor_comm, lor_add_shift by lia. cbn [le_val]. unfold wraps.
    Z.div_mod_to_equations; lia.
  - assert (¬ 128 ≤ a2) by (intros Hc; by apply byte_sign in Hc). rewrite E. cbn [le_val]. unfold wraps.
    Z.div_mod_to_equations; lia.
Qed.

Lemma sint3korr_load m p : bytes_ok m → Generic.sint3korr m p = wraps 24 <$> load_le 3 m p.
Proof. korr_open 3%nat Generic.sint3korr. f_equal. by apply sint3_value. Qed.

Lemma sint4korr_load m p : bytes_ok m → Generic.sint4korr m p = s32 <$> load_le 4 m p.
Proof.
  korr_open 4%nat Generic.sint4korr. f_equal. shifts_to_arith. unwrap_small.
  apply wraps_congr; [lia|].
  rewrite <- Zplus_mod_idemp_r, wraps_mod, Zplus_mod_idemp_r by lia. f_equal. lia.
Qed.

Lemma sint8korr_load m p : bytes_ok m → Generic.sint8korr m p = s64 <$> load_le 8 m p.
Proof. intros Hm. unfold Generic.sint8korr. rewrite uint8korr_load by done. by destruct (load_le _ _ _). Qed.

(** The x86_64 read macros are the reference reads too. *)
Lemma load_le_bound n m p v :
  bytes_ok m → load_le n m p = Some v → 0 ≤ v < 256 ^ Z.of_nat n.
Proof.
  unfold load_le. intros Hm. case_decide as H; intros [= <-].
  destruct (drop_split _ _ _ H) as (pre & l & r & -> & <- & <-).
  rewrite drop_app_length, take_app_length. apply le_val_bound.
  by apply Forall_app in Hm as [_ [? _]%Forall_app].
Qed.

Lemma load_le_wrap n m p (f : Z → Z) :
  bytes_ok m → (∀ v, 0 ≤ v < 256 ^ Z.of_nat n → f v = v) → f <$> load_le n m p = load_le n m p.
Proof.
  intros Hm Hf. destruct (load_le n m p) as [v|] eqn:E; simpl; [|done].
  f_equal. apply Hf. by eapply load_le_bound.
Qed.

Lemma load_le_none n m p : (length m < p + n)%nat → load_le n m p = None.
Proof. intros H. unfold load_le. by rewrite decide_False by lia. Qed.

(** A read split at a byte: low part, then high part. *)
Lemma load_le_split n k m p :
  load_le (n + k) m p =
  a ← load_le n m p; b ← load_le k m (p + n); Some (a + 256 ^ Z.of_nat n * b).
Proof.
  destruct (decide (p + (n + k) ≤ length m)%nat) as [H|H].
  - destruct (drop_split _ _ _ H) as (pre & l & r & -> & Hp & Hl).
    rewrite <- (take_drop n l).
    assert (length (take n l) = n) as Hn by (rewrite length_take; lia).
    assert (length (drop n l) = k) as Hk by (rewrite length_drop; lia).
    rewrite (load_le_app pre _ r p (n + k)) by (rewrite ?length_app; lia).
    rewrite <- (app_assoc (take n l)). rewrite (load_le_app pre (take n l) _ p n) by done.
    rewrite (app_assoc pre). rewrite (load_le_app (pre ++ take n l) _ _ (p + n) k) by (rewrite ?length_app; lia).
    cbn. by rewrite le_val_app, Hn.
  - rewrite (load_le_none (n + k)), (load_le_none k) by lia. by destruct (load_le n m p).
Qed.

Lemma rd_load m p i : rd m p i = load_le 1 m (p + i).
Proof.
  unfold rd, load_le. case_decide as H.
  - destruct (drop_split _ _ _ H) as (pre & l & r & -> & <- & Hl).
    destruct l as [|b [|? ?]]; try (simpl in Hl; lia).
    rewrite lookup_app_r, Nat.sub_diag, drop_app_length by lia.
    cbn [app take le_val]. by rewrite Z.mul_0_r, Z.add_0_r.
  - apply lookup_ge_None_2. lia.
Qed.

Lemma x64_load_join n k m p :
  bytes_ok m → (n + k ≤ 8)%nat →
  (a ← load_le n m p; b ← load_le k m (p + n); Some (a .| u64 (b ≪ (8 * Z.of_nat n))))
  = load_le (n + k) m p.
Proof.
  intros Hm Hnk. rewrite load_le_split.
  destruct (load_le n m p) as [a|] eqn:Ea; simpl; [|done].
  destruct (load_le k m (p + n)) as [b|] eqn:Eb; simpl; [|done]. f_equal.
  apply load_le_bound in Ea, Eb; [|done..].
  assert (∀ i : nat, 256 ^ Z.of_nat i = 2 ^ (8 * Z.of_nat i)) as E
    by (intros i; by rewrite Z.pow_mul_r by lia).
  rewrite E in *. rewrite wrapu_small.
  - rewrite lor_add_shift by lia. lia.
  - unfold in_u. rewrite Z.shiftl_mul_pow2 by lia.
    assert (2 ^ 64 = 2 ^ (8 * Z.of_nat k) * 2 ^ (8 * Z.of_nat n)
                     * 2 ^ (64 - 8 * Z.of_nat k - 8 * Z.of_nat n)) as ->.
    { rewrite <- !Z.pow_add_r by lia. f_equal. lia. }
    assert (0 < 2 ^ (64 - 8 * Z.of_nat k - 8 * Z.of_nat n)) by (apply Z.pow_pos_nonneg; lia).
    assert (0 < 2 ^ (8 * Z.of_nat n)) by (apply Z.pow_pos_nonneg; lia).
    split; [nia|]. apply Z.lt_le_trans with (2 ^ (8 * Z.of_nat k) * 2 ^ (8 * Z.of_nat n)); nia.
Qed.

Lemma x64_uint5korr_load m p : bytes_ok m → X86_64.uint5korr m p = load_le 5 m p.
Proof.
  intros Hm. unfold X86_64.uint5korr.
  rewrite (rd_load m p 4). apply (x64_load_join 4 1); [done|lia].
Qed.

Lemma x64_uint6korr_load m p : bytes_ok m → X86_64.uint6korr m p = load_le 6 m p.
Proof. intros Hm. apply (x64_load_join 4 2); [done|lia]. Qed.

Ltac load_wrap := apply load_le_wrap; [done | intros; apply wrapu_small; unfold in_u; simpl in *; lia].

(** Reading little-endian integers: on every buffer of bytes and at every
    offset, the portable macros of byte_order_generic.h and the word-sized
    loads of byte_order_generic_x86_64.h return the same value (or both run
    out of the buffer), for each of the ten widths and signs. *)
Theorem korr_generic_x86_64 m p :
  bytes_ok m →
  Generic.uint2korr m p = X86_64.uint2korr m p ∧
  Generic.uint3korr m p = X86_64.uint3korr m p ∧
  Generic.uint4korr m p = X86_64.uint4korr m p ∧
  Generic.uint5korr m p = X86_64.uint5korr m p ∧
  Generic.uint6korr m p = X86_64.uint6korr m p ∧
  Generic.uint8korr m p = X86_64.uint8korr m p ∧
  Generic.sint2korr m p = X86_64.sint2korr m p ∧
  Generic.sint3korr m p = X86_64.sint3korr m p ∧
  Generic.sint4korr m p = X86_64.sint4korr m p ∧
  Generic.sint8korr m p = X86_64.sint8korr m p.
Proof.
  intros Hm.
  rewrite uint2korr_load, uint4korr_load, uint5korr_load, uint6korr_load, uint8korr_load,
    sint2korr_load, sint4korr_load, sint8korr_load, x64_uint5korr_load, x64_uint6korr_load
    by done.
  split_and!; try done; symmetry; load_wrap.
Qed.

Lemma korr_generic_x86_64_witness :
  bytes_ok [1; 2; 3; 255; 254; 0; 7; 200] ∧
  Generic.sint4korr [1; 2; 3; 255; 254; 0; 7; 200] 0 =
  X86_64.sint4korr [1; 2; 3; 255; 254; 0; 7; 200] 0.
Proof.
  assert (bytes_ok [1; 2; 3; 255; 254; 0; 7; 200]) as H by (apply (bool_decide_unpack _); vm_compute; done).
  split; [exact H|]. apply (korr_generic_x86_64 _ 0 H).
Defined.

(** ** Writes *)

Lemma store_le_none n m p v : (length m < p + n)%nat → store_le n m p v = None.
Proof. intros H. unfold store_le. by rewrite decide_False by lia. Qed.

Lemma store_le_mod n k m p v : (n ≤ k)%nat → store_le n m p (v mod 256 ^ Z.of_nat k) = store_le n m p v.
Proof. intros H. unfold store_le. by rewrite le_bytes_mod. Qed.

Lemma store_le_ok n m p v m' : bytes_ok m → store_le n m p v = Some m' → bytes_ok m'.
Proof.
  unfold store_le. intros Hm. case_decide; intros [= <-].
  apply Forall_app; split; [by apply Forall_take|].
  apply Forall_app; split; [apply bytes_ok_le_bytes|by apply Forall_drop].
Qed.

Lemma store_load n m p v m' :
  store_le n m p v = Some m' → load_le n m' p = Some (v mod 256 ^ Z.of_nat n).
Proof.
  unfold store_le. case_decide; intros [= <-].
  rewrite load_le_app by (rewrite ?length_take, ?length_le_bytes; lia).
  by rewrite le_val_bytes.
Qed.

(** Bytes written one by one into a window. *)
Fixpoint wr_all (p i : nat) (vs : list Z) (m : list Z) : option (list Z) :=
  match vs with
  | [] => Some m
  | v :: vs => m' ← wr p i v m; wr_all p (S i) vs m'
  end.

Lemma wr_all_none p i vs m :
  vs ≠ [] → (length m < p + i + length vs)%nat → wr_all p i vs m = None.
Proof.
  revert i m. induction vs as [|v vs IH]; intros i m Hne Hlen; [done|]. simpl in *.
  destruct (wr p i v m) as [m'|] eqn:E; simpl; [|done].
  destruct vs as [|v' vs]; [|apply IH; [done|apply wr_length in E; lia]].
  simpl in Hlen. rewrite wr_none in E by lia. done.
Qed.

Lemma wr_all_app pre k l r vs :
  length l = length vs →
  wr_all (length pre) (length k) vs (pre ++ k ++ l ++ r) = Some (pre ++ k ++ (u8 <$> vs) ++ r).
Proof.
  revert k l. induction vs as [|v vs IH]; intros k l Hl; destruct l as [|b l]; try done.
  simpl in Hl. cbn [wr_all].
  assert (wr (length pre) (length k) v (pre ++ k ++ (b :: l) ++ r)
          = Some (pre ++ (k ++ [u8 v]) ++ l ++ r)) as ->.
  { unfold wr. rewrite lookup_app_r, Nat.add_comm, Nat.add_sub by lia.
    rewrite lookup_app_r, Nat.sub_diag by lia. cbn [app lookup list_lookup].
    rewrite insert_app_r_alt, Nat.add_sub by lia.
    rewrite insert_app_r_alt, Nat.sub_diag by lia. by rewrite <- (app_assoc k). }
  cbn [mbind option_bind]. specialize (IH (k ++ [u8 v]) l ltac:(lia)).
  rewrite length_app, Nat.add_comm in IH. cbn in IH |- *. rewrite IH.
  by rewrite <- !app_assoc.
Qed.

(** A sequence of byte writes is the reference write of its width when the
    bytes are those of the value. *)
Lemma wr_all_store m p vs v :
  vs ≠ [] → (u8 <$> vs) = le_bytes (length vs) v →
  wr_all p 0 vs m = store_le (length vs) m p v.
Proof.
  intros Hne Hvs. destruct (decide (p + length vs ≤ length m)%nat) as [H|H].
  - destruct (drop_split _ _ _ H) as (pre & l & r & -> & <- & Hl).
    pose proof (wr_all_app pre [] l r vs Hl) as E. cbn [length app] in E. rewrite E.
    rewrite store_le_app by done. by rewrite Hvs.
  - rewrite wr_all_none, store_le_none by (done || lia). done.
Qed.

Lemma le_bytes_shift_S n z k :
  0 ≤ k → le_bytes (S n) (z ≫ k) = u8 (z ≫ k) :: le_bytes n (z ≫ (k + 8)).
Proof.
  intros Hk. cbn [le_bytes]. f_equal. f_equal.
  by rewrite <- Z.shiftr_shiftr, (Z.shiftr_div_pow2 _ 8) by lia.
Qed.

Lemma le_bytes_start n z : le_bytes n z = le_bytes n (z ≫ 0).
Proof. by rewrite Z.shiftr_0_r. Qed.

Ltac le_bytes_chain :=
  cbn [length fmap list_fmap]; rewrite le_bytes_start;
  repeat (rewrite le_bytes_shift_S by lia; cbn [Z.add Pos.add Pos.succ]);
  rewrite ?Z.shiftr_0_r; reflexivity.

Ltac store_tac vs :=
  unfold Generic.int3store, Generic.int4store, Generic.int5store, Generic.int6store;
  match goal with |- ?lhs = store_le ?n ?m ?p ?v =>
    transitivity (wr_all p 0 vs m);
      [cbn [wr_all]; repeat (case_match || destruct (wr _ _ _ _); cbn; try done)
      | apply (wr_all_store m p vs v); [done | le_bytes_chain] ]
  end.

Lemma int3store_le m p A : Generic.int3store m p A = store_le 3 m p A.
Proof. store_tac [A; A ≫ 8; A ≫ 16]. Qed.

Lemma int4store_le m p A : Generic.int4store m p A = store_le 4 m p A.
Proof. store_tac [A; A ≫ 8; A ≫ 16; A ≫ 24]. Qed.

Lemma int5store_le m p A : Generic.int5store m p A = store_le 5 m p A.
Proof. store_tac [A; A ≫ 8; A ≫ 16; A ≫ 24; A ≫ 32]. Qed.

Lemma int6store_le m p A : Generic.int6store m p A = store_le 6 m p A.
Proof. store_tac [A; A ≫ 8; A ≫ 16; A ≫ 24; A ≫ 32; A ≫ 40]. Qed.

Lemma store_le_u32 n m p v : (n ≤ 4)%nat → store_le n m p (u32 v) = store_le n m p v.
Proof. apply (store_le_mod n 4). Qed.

Lemma int2store_le m p A : Generic.int2store m p A = store_le 2 m p A.
Proof.
  rewrite <- (store_le_u32 2) by lia. unfold Generic.int2store.
  store_tac [u32 A; u32 A ≫ 8].
Qed.

Lemma le_bytes_app n k z :
  le_bytes (n + k) z = le_bytes n z ++ le_bytes k (z / 256 ^ Z.of_nat n).
Proof.
  revert z. induction n as [|n IH]; intros z.
  { change (256 ^ Z.of_nat 0) with 1. by rewrite Z.div_1_r. }
  cbn [Nat.add le_bytes app]. f_equal. rewrite IH. f_equal.
  rewrite Nat2Z.inj_succ, Z.pow_succ_r, Z.div_div by lia. done.
Qed.

(** A write split at a byte: low part, then high part. *)
Lemma store_le_split n k m p v :
  (m' ← store_le n m p v; store_le k m' (p + n) (v / 256 ^ Z.of_nat n))
  = store_le (n + k) m p v.
Proof.
  destruct (decide (p + (n + k) ≤ length m)%nat) as [H|H].
  - destruct (drop_split _ _ _ H) as (pre & l & r & -> & Hp & Hl).
    rewrite (store_le_app pre l r p (n + k)) by done. rewrite <- (take_drop n l), <- app_assoc.
    rewrite store_le_app by (rewrite ?length_take; lia). cbn [mbind option_bind].
    rewrite (app_assoc pre).
    rewrite store_le_app by (rewrite ?length_app, ?length_le_bytes, ?length_drop; lia).
    by rewrite le_bytes_app, <- !app_assoc.
  - rewrite (store_le_none (n + k)) by lia.
    destruct (store_le n m p v) as [m'|] eqn:E; cbn [mbind option_bind]; [|done].
    apply store_le_none. revert E. unfold store_le. case_decide; intros [= <-].
    rewrite !length_app, length_le_bytes, length_take, length_drop. lia.
Qed.

Lemma int8store_le m p A : Generic.int8store m p A = store_le 8 m p A.
Proof.
  unfold Generic.int8store. rewrite int4store_le, store_le_u32 by lia.
  rewrite <- (store_le_split 4 4). destruct (store_le 4 m p A) as [m'|]; [|done].
  cbn [mbind option_bind]. rewrite int4store_le, store_le_u32 by lia.
  by rewrite Z.shiftr_div_pow2 by lia.
Qed.

(** The byte at offset [p + i], written as [(uchar) v]. *)
Lemma wr_store m p i v : wr p i v m = store_le 1 m (p + i) v.
Proof.
  pose proof (wr_all_store m (p + i) [v] v ltac:(done) eq_refl) as E. cbn in E.
  rewrite <- E. unfold wr. rewrite Nat.add_0_r. by destruct (_ !! _).
Qed.

(** Writing little-endian integers: the portable store macros and the
    word-sized x86_64 stores leave exactly the same buffer for every value, and
    fail on the same (too short) buffers. *)
Theorem store_generic_x86_64 m p A :
  Generic.int2store m p A = X86_64.int2store m p A ∧
  Generic.int3store m p A = X86_64.int3store m p A ∧
  Generic.int4store m p A = X86_64.int4store m p A ∧
  Generic.int5store m p A = X86_64.int5store m p A ∧
  Generic.int6store m p A = X86_64.int6store m p A ∧
  Generic.int8store m p A = X86_64.int8store m p A.
Proof.
  rewrite int2store_le, int4store_le, int5store_le, int6store_le, int8store_le.
  split_and!.
  - symmetry. by apply (store_le_mod 2 2).
  - rewrite int3store_le. symmetry. unfold X86_64.int3store.
    transitivity (wr_all p 0 [A; u32 A ≫ 8; A ≫ 16] m).
    { cbn [wr_all]. repeat (destruct (wr _ _ _ _); cbn; try done). }
    apply (wr_all_store m p [A; u32 A ≫ 8; A ≫ 16] A); [done|].
    transitivity (u8 <$> [A; A ≫ 8; A ≫ 16]); [|le_bytes_chain].
    cbn [fmap list_fmap]. do 2 f_equal. zbits i. rewrite !wrapu_testbit, !Z.shiftr_spec, wrapu_testbit by lia.
    repeat case_bool_decide; done || lia.
  - symmetry. by apply (store_le_mod 4 4).
  - unfold X86_64.int5store. rewrite (store_le_u32 4) by lia.
    rewrite <- (store_le_split 4 1). destruct (store_le 4 m p A) as [m'|]; [|done].
    cbn [mbind option_bind]. rewrite wr_store. by rewrite Z.shiftr_div_pow2 by lia.
  - unfold X86_64.int6store. rewrite (store_le_u32 4) by lia.
    rewrite <- (store_le_split 4 2). destruct (store_le 4 m p A) as [m'|]; [|done].
    cbn [mbind option_bind]. rewrite Z.shiftr_div_pow2 by lia. symmetry.
    by apply (store_le_mod 2 2).
  - symmetry. by apply (store_le_mod 8 8).
Qed.

Lemma roundtrip_le n m p A (st : list Z → nat → Z → option (list Z))
    (ld : list Z → nat → option Z) :
  bytes_ok m →
  (∀ m p A, st m p A = store_le n m p A) →
  (∀ m p, bytes_ok m → ld m p = load_le n m p) →
  (m' ← st m p A; ld m' p) =
  (if decide (p + n ≤ length m)%nat then Some (A mod 256 ^ Z.of_nat n) else None).
Proof.
  intros Hm Hst Hld. rewrite Hst. case_decide.
  - destruct (store_le n m p A) as [m'|] eqn:E.
    + cbn. rewrite Hld by (by eapply store_le_ok). by eapply store_load.
    + unfold store_le in E. by rewrite decide_True in E.
  - by rewrite store_le_none by lia.
Qed.

(** Round trip: writing a value with [intNstore] and reading it back with
    [uintNkorr] at the same place gives the value modulo [2^(8N)] whenever the
    buffer has room for the [N] bytes, for every width the macros support. *)
Theorem store_korr_roundtrip m p A :
  bytes_ok m →
  let fits n := decide (p + n ≤ length m)%nat in
  (m' ← Generic.int2store m p A; Generic.uint2korr m' p) =
    (if fits 2%nat then Some (u16 A) else None) ∧
  (m' ← Generic.int3store m p A; Generic.uint3korr m' p) =
    (if fits 3%nat then Some (wrapu 24 A) else None) ∧
  (m' ← Generic.int4store m p A; Generic.uint4korr m' p) =
    (if fits 4%nat then Some (u32 A) else None) ∧
  (m' ← Generic.int5store m p A; Generic.uint5korr m' p) =
    (if fits 5%nat then Some (wrapu 40 A) else None) ∧
  (m' ← Generic.int6store m p A; Generic.uint6korr m' p) =
    (if fits 6%nat then Some (wrapu 48 A) else None) ∧
  (m' ← Generic.int8store m p A; Generic.uint8korr m' p) =
    (if fits 8%nat then Some (u64 A) else None).
Proof.
  intros Hm fits. split_and!; apply roundtrip_le; try done;
    eauto using int2store_le, int3store_le, int4store_le, int5store_le, int6store_le,
      int8store_le, uint2korr_load, uint3korr_load, uint4korr_load, uint5korr_load,
      uint6korr_load, uint8korr_load.
Qed.

Lemma store_korr_roundtrip_witness :
  (m' ← Generic.int3store (replicate 5 9) 1 (-2); Generic.uint3korr m' 1)
  = Some 16777214.
Proof.
  assert (bytes_ok (replicate 5 9)) as H by (apply (bool_decide_unpack _); vm_compute; done).
  destruct (store_korr_roundtrip (replicate 5 9) 1 (-2) H) as (_ & E & _).
  rewrite E. vm_compute. reflexivity.
Defined.
