(* ===== verification/MyIsamPack.v ===== *)
(** * High-byte-first storage: myisampack.h

    The [mi_] macros store key values and row pointers with the high byte
    first.  Reads and writes are related to the reference encoding [be_val] /
    [be_bytes] of [ByteOrder]; the order theorem says that comparing the stored
    bytes is comparing the numbers. *)

From S2P Require Import Prelude.
From S2P Require Import ByteOrder.
From Stdlib Require Import ZArith Lia.
From stdpp Require Import base numbers list option.
Open Scope Z_scope.
Open Scope cint_scope.

Module Mi.

(** ** Reads *)

Definition mi_sint1korr (m : list Z) (p : nat) : option Z := a ← rd m p 0; Some (s8 a).
Definition mi_uint1korr (m : list Z) (p : nat) : option Z := a ← rd m p 0; Some (u8 a).

Definition mi_sint2korr (m : list Z) (p : nat) : option Z :=
  a1 ← rd m p 1; a0 ← rd m p 0;
  Some (s16 (s16 a1 + s16 (s8 a0) ≪ 8)).

Definition mi_sint3korr (m : list Z) (p : nat) : option Z :=
  a0 ← rd m p 0; a1 ← rd m p 1; a2 ← rd m p 2;
  Some (s32 (if decide (a0 .& 128 ≠ 0)
             then u32 (255 ≪ 24) .| u32 (a0 ≪ 16) .| u32 (a1 ≪ 8) .| u32 a2
             else u32 (a0 ≪ 16) .| u32 (a1 ≪ 8) .| u32 a2)).

Definition mi_sint4korr (m : list Z) (p : nat) : option Z :=
  a3 ← rd m p 3; a2 ← rd m p 2; a1 ← rd m p 1; a0 ← rd m p 0;
  Some (s32 (s32 a3 + s32 (s32 a2 ≪ 8) + s32 (s32 a1 ≪ 16) + s32 (s16 (s8 a0) ≪ 24))).

Definition mi_uint2korr (m : list Z) (p : nat) : option Z :=
  a1 ← rd m p 1; a0 ← rd m p 0;
  Some (u16 (u16 a1 + u16 a0 ≪ 8)).

Definition mi_uint3korr (m : list Z) (p : nat) : option Z :=
  a2 ← rd m p 2; a1 ← rd m p 1; a0 ← rd m p 0;
  Some (u32 (u32 a2 + u32 (a1 ≪ 8) + u32 (a0 ≪ 16))).

Definition mi_uint4korr (m : list Z) (p : nat) : option Z :=
  a3 ← rd m p 3; a2 ← rd m p 2; a1 ← rd m p 1; a0 ← rd m p 0;
  Some (u32 (u32 a3 + u32 (a2 ≪ 8) + u32 (a1 ≪ 16) + u32 (a0 ≪ 24))).

Definition mi_uint5korr (m : list Z) (p : nat) : option Z :=
  a4 ← rd m p 4; a3 ← rd m p 3; a2 ← rd m p 2; a1 ← rd m p 1; a0 ← rd m p 0;
  Some (u64 (u64 (u32 (u32 a4 + u32 (a3 ≪ 8) + u32 (a2 ≪ 16) + u32 (a1 ≪ 24)))
             + u64 (a0 ≪ 32))).

Definition mi_uint6korr (m : list Z) (p : nat) : option Z :=
  a5 ← rd m p 5; a4 ← rd m p 4; a3 ← rd m p 3; a2 ← rd m p 2; a1 ← rd m p 1; a0 ← rd m p 0;
  Some (u64 (u64 (u32 (u32 a5 + u32 (a4 ≪ 8) + u32 (a3 ≪ 16) + u32 (a2 ≪ 24)))
             + u64 (u64 (u32 (u32 a1 + u32 (a0 ≪ 8))) ≪ 32))).

Definition mi_uint7korr (m : list Z) (p : nat) : option Z :=
  a6 ← rd m p 6; a5 ← rd m p 5; a4 ← rd m p 4; a3 ← rd m p 3; a2 ← rd m p 2;
  a1 ← rd m p 1; a0 ← rd m p 0;
  Some (u64 (u64 (u32 (u32 a6 + u32 (a5 ≪ 8) + u32 (a4 ≪ 16) + u32 (a3 ≪ 24)))
             + u64 (u64 (u32 (u32 a2 + u32 (a1 ≪ 8) + u32 (a0 ≪ 16))) ≪ 32))).

Definition mi_uint8korr (m : list Z) (p : nat) : option Z :=
  a7 ← rd m p 7; a6 ← rd m p 6; a5 ← rd m p 5; a4 ← rd m p 4; a3 ← rd m p 3;
  a2 ← rd m p 2; a1 ← rd m p 1; a0 ← rd m p 0;
  Some (u64 (u64 (u32 (u32 a7 + u32 (a6 ≪ 8) + u32 (a5 ≪ 16) + u32 (a4 ≪ 24)))
             + u64 (u64 (u32 (u32 a3 + u32 (a2 ≪ 8) + u32 (a1 ≪ 16) + u32 (a0 ≪ 24))) ≪ 32))).

Definition mi_sint8korr (m : list Z) (p : nat) : option Z :=
  v ← mi_uint8korr m p; Some (s64 v).

(** ** Writes

    [ulong] has [lw] bits: 32 on Windows, 64 on the other 64-bit systems. *)
Section stores.
Context (lw ow : Z).
Abbreviation ulong := (wrapu lw).

Definition mi_int1store (m : list Z) (p : nat) (A : Z) : option (list Z) := wr p 0 A m.

Definition mi_int2store (m : list Z) (p : nat) (A : Z) : option (list Z) :=
  let def_temp := u32 A in
  m ← wr p 1 def_temp m; wr p 0 (def_temp ≫ 8) m.

Definition mi_int3store (m : list Z) (p : nat) (A : Z) : option (list Z) :=
  let def_temp := ulong A in
  m ← wr p 2 def_temp m; m ← wr p 1 (def_temp ≫ 8) m; wr p 0 (def_temp ≫ 16) m.

Definition mi_int4store (m : list Z) (p : nat) (A : Z) : option (list Z) :=
  let def_temp := ulong A in
  m ← wr p 3 def_temp m; m ← wr p 2 (def_temp ≫ 8) m; m ← wr p 1 (def_temp ≫ 16) m;
  wr p 0 (def_temp ≫ 24) m.

Definition mi_int5store (m : list Z) (p : nat) (A : Z) : option (list Z) :=
  let def_temp := ulong A in
  let def_temp2 := ulong (A ≫ 32) in
  m ← wr p 4 def_temp m; m ← wr p 3 (def_temp ≫ 8) m; m ← wr p 2 (def_temp ≫ 16) m;
  m ← wr p 1 (def_temp ≫ 24) m; wr p 0 def_temp2 m.

Definition mi_int6store (m : list Z) (p : nat) (A : Z) : option (list Z) :=
  let def_temp := ulong A in
  let def_temp2 := ulong (A ≫ 32) in
  m ← wr p 5 def_temp m; m ← wr p 4 (def_temp ≫ 8) m; m ← wr p 3 (def_temp ≫ 16) m;
  m ← wr p 2 (def_temp ≫ 24) m; m ← wr p 1 def_temp2 m; wr p 0 (def_temp2 ≫ 8) m.

Definition mi_int7store (m : list Z) (p : nat) (A : Z) : option (list Z) :=
  let def_temp := ulong A in
  let def_temp2 := ulong (A ≫ 32) in
  m ← wr p 6 def_temp m; m ← wr p 5 (def_temp ≫ 8) m; m ← wr p 4 (def_temp ≫ 16) m;
  m ← wr p 3 (def_temp ≫ 24) m; m ← wr p 2 def_temp2 m; m ← wr p 1 (def_temp2 ≫ 8) m;
  wr p 0 (def_temp2 ≫ 16) m.

Definition mi_int8store (m : list Z) (p : nat) (A : Z) : option (list Z) :=
  let def_temp3 := ulong A in
  let def_temp4 := ulong (A ≫ 32) in
  m ← mi_int4store m (p + 0) def_temp4; mi_int4store m (p + 4) def_temp3.

(** Row counts and file offsets: the [BIG_TABLES] and the 4-byte variants. *)
Definition mi_rowstore (big_tables : bool) (m : list Z) (p : nat) (A : Z) : option (list Z) :=
  if big_tables then mi_int8store m p A
  else m ← mi_int4store m p 0; mi_int4store m (p + 4) A.

Definition mi_rowkorr (big_tables : bool) (m : list Z) (p : nat) : option Z :=
  if big_tables then mi_uint8korr m p else mi_uint4korr m (p + 4).

Definition bfill (m : list Z) (p n : nat) (c : Z) : option (list Z) :=
  if decide (p + n ≤ length m)%nat
  then Some (take p m ++ replicate n c ++ drop (p + n) m) else None.

(** [~(my_off_t) 0], with [ow] the bits of [my_off_t]. *)
Definition HA_OFFSET_ERROR : Z := wrapu ow (-1).

Definition mi_sizestore (off_t_8 : bool) (m : list Z) (p : nat) (A : Z) : option (list Z) :=
  if off_t_8 then mi_int8store m p A
  else if decide (A = HA_OFFSET_ERROR) then bfill m p 8 255
  else m ← mi_int4store m p 0; mi_int4store m (p + 4) A.

Definition mi_sizekorr (off_t_8 : bool) (m : list Z) (p : nat) : option Z :=
  if off_t_8 then mi_uint8korr m p else mi_uint4korr m (p + 4).

End stores.

(** ** Floating point values

    [V] is the object representation (the bytes in memory) of the value. *)

(** [T[i]= V[idx i]] for [i] from 0. *)
Fixpoint copy_out (idx : list nat) (p i : nat) (V m : list Z) : option (list Z) :=
  match idx with
  | [] => Some m
  | j :: idx => v ← V !! j; m ← wr p i v m; copy_out idx p (S i) V m
  end.

(** [def_temp[i]= M[idx i]] for [i] from 0. *)
Fixpoint copy_in (idx : list nat) (m : list Z) (p : nat) : option (list Z) :=
  match idx with
  | [] => Some []
  | j :: idx => v ← rd m p j; r ← copy_in idx m p; Some (v :: r)
  end.

Inductive float_order := WordsBigEndian | FloatWordsBigEndian | AllLittleEndian.

Definition float8_index (o : float_order) : list nat :=
  match o with
  | WordsBigEndian => [0; 1; 2; 3; 4; 5; 6; 7]
  | FloatWordsBigEndian => [3; 2; 1; 0; 7; 6; 5; 4]
  | AllLittleEndian => [7; 6; 5; 4; 3; 2; 1; 0]
  end%nat.

Definition float4_index (o : float_order) : list nat :=
  match o with
  | WordsBigEndian => [0; 1; 2; 3]
  | FloatWordsBigEndian | AllLittleEndian => [3; 2; 1; 0]
  end%nat.

Definition mi_float4store (o : float_order) (m : list Z) (p : nat) (A : list Z) :=
  copy_out (float4_index o) p 0 A m.
Definition mi_float4get (o : float_order) (m : list Z) (p : nat) :=
  copy_in (float4_index o) m p.
Definition mi_float8store (o : float_order) (m : list Z) (p : nat) (V : list Z) :=
  copy_out (float8_index o) p 0 V m.
Definition mi_float8get (o : float_order) (m : list Z) (p : nat) :=
  copy_in (float8_index o) m p.

End Mi.

(** ** Reference reads and writes *)

Definition load_be (n : nat) (m : list Z) (p : nat) : option Z :=
  if decide (p + n ≤ length m)%nat then Some (be_val (take n (drop p m))) else None.

Definition store_be (n : nat) (m : list Z) (p : nat) (v : Z) : option (list Z) :=
  if decide (p + n ≤ length m)%nat
  then Some (take p m ++ be_bytes n v ++ drop (p + n) m) else None.

Lemma load_be_app pre l r p n :
  length pre = p → length l = n → load_be n (pre ++ l ++ r) p = Some (be_val l).
Proof.
  intros <- <-. unfold load_be. rewrite decide_True by (rewrite !length_app; lia).
  by rewrite drop_app_length, take_app_length.
Qed.

Lemma store_be_app pre l r p n v :
  length pre = p → length l = n →
  store_be n (pre ++ l ++ r) p v = Some (pre ++ be_bytes n v ++ r).
Proof.
  intros <- <-. unfold store_be. rewrite decide_True by (rewrite !length_app; lia).
  rewrite take_app_length, <- drop_drop, drop_app_length, drop_app_length. done.
Qed.

Lemma store_be_none n m p v : (length m < p + n)%nat → store_be n m p v = None.
Proof. intros H. unfold store_be. by rewrite decide_False by lia. Qed.

Lemma store_load_be n m p v m' :
  store_be n m p v = Some m' → load_be n m' p = Some (v mod 256 ^ Z.of_nat n).
Proof.
  unfold store_be. case_decide; intros [= <-].
  rewrite load_be_app by (rewrite ?length_take, ?length_be_bytes; lia).
  by rewrite be_val_bytes.
Qed.

Lemma store_be_ok n m p v m' : bytes_ok m → store_be n m p v = Some m' → bytes_ok m'.
Proof.
  unfold store_be. intros Hm. case_decide; intros [= <-].
  apply Forall_app; split; [by apply Forall_take|].
  apply Forall_app; split; [apply bytes_ok_be_bytes|by apply Forall_drop].
Qed.

Lemma store_be_length n m p v m' : store_be n m p v = Some m' → length m' = length m.
Proof.
  unfold store_be. case_decide; intros [= <-].
  rewrite !length_app, length_be_bytes, length_take, length_drop. lia.
Qed.

(** ** Reads against the reference *)

Ltac be_open n f :=
  intros Hm; unfold f;
  match goal with |- context [rd ?m ?p _] =>
    destruct (decide (p + n ≤ length m)%nat) as [H|H];
      [window H; rewrite !rd_app; erewrite load_be_app by done;
       cbn [mbind option_bind fmap option_fmap option_map lookup list_lookup app]; bytes_pure Hm
      | unfold load_be; rewrite decide_False by lia;
        match n with S ?k => rewrite (rd_none _ _ k) by lia end;
        repeat (match goal with |- context [rd ?m ?p ?i] => destruct (rd m p i); simpl end);
        done]
  end.

Ltac be_read n f := be_open n f; unfold be_val; cbn [rev app le_val]; f_equal; shifts_to_arith;
  unwrap_small; lia.

Lemma mi_uint1korr_load m p : bytes_ok m → Mi.mi_uint1korr m p = load_be 1 m p.
Proof. be_read 1%nat Mi.mi_uint1korr. Qed.
Lemma mi_uint2korr_load m p : bytes_ok m → Mi.mi_uint2korr m p = load_be 2 m p.
Proof. be_read 2%nat Mi.mi_uint2korr. Qed.
Lemma mi_uint3korr_load m p : bytes_ok m → Mi.mi_uint3korr m p = load_be 3 m p.
Proof. be_read 3%nat Mi.mi_uint3korr. Qed.
Lemma mi_uint4korr_load m p : bytes_ok m → Mi.mi_uint4korr m p = load_be 4 m p.
Proof. be_read 4%nat Mi.mi_uint4korr. Qed.
Lemma mi_uint5korr_load m p : bytes_ok m → Mi.mi_uint5korr m p = load_be 5 m p.
Proof. be_read 5%nat Mi.mi_uint5korr. Qed.
Lemma mi_uint6korr_load m p : bytes_ok m → Mi.mi_uint6korr m p = load_be 6 m p.
Proof. be_read 6%nat Mi.mi_uint6korr. Qed.
Lemma mi_uint7korr_load m p : bytes_ok m → Mi.mi_uint7korr m p = load_be 7 m p.
Proof. be_read 7%nat Mi.mi_uint7korr. Qed.
Lemma mi_uint8korr_load m p : bytes_ok m → Mi.mi_uint8korr m p = load_be 8 m p.
Proof. be_read 8%nat Mi.mi_uint8korr. Qed.

Lemma mi_sint1korr_load m p : bytes_ok m → Mi.mi_sint1korr m p = s8 <$> load_be 1 m p.
Proof. be_open 1%nat Mi.mi_sint1korr. unfold be_val. cbn [rev app le_val]. do 2 f_equal. lia. Qed.

Lemma mi_sint2korr_load m p : bytes_ok m → Mi.mi_sint2korr m p = s16 <$> load_be 2 m p.
Proof.
  be_open 2%nat Mi.mi_sint2korr. unfold be_val. cbn [rev app le_val]. f_equal.
  shifts_to_arith. apply wraps_congr; [lia|]. unfold wraps. Z.div_mod_to_equations. lia.
Qed.

Lemma mi_sint3korr_load m p : bytes_ok m → Mi.mi_sint3korr m p = wraps 24 <$> load_be 3 m p.
Proof.
  be_open 3%nat Mi.mi_sint3korr. unfold be_val. cbn [rev app]. f_equal.
  rewrite <- sint3_value by done. rewrite !(wrapu_small 8) by done.
  by rewrite (wrapu_small 32 z1) by (unfold in_u; lia).
Qed.

Lemma mi_sint4korr_load m p : bytes_ok m → Mi.mi_sint4korr m p = s32 <$> load_be 4 m p.
Proof.
  be_open 4%nat Mi.mi_sint4korr. unfold be_val. cbn [rev app le_val]. f_equal.
  shifts_to_arith. rewrite !(wraps_small 32 ltac:(lia) (_ * _)) by (unfold in_s; unwrap_small; lia).
  apply wraps_congr; [lia|]. unfold wraps. Z.div_mod_to_equations. lia.
Qed.

(** ** Writes against the reference *)

Lemma u8_wrapu_shift w z k : 0 ≤ k → k + 8 ≤ w → u8 (wrapu w z ≫ k) = u8 (z ≫ k).
Proof.
  intros Hk Hw. zbits i.
  rewrite !wrapu_testbit, !Z.shiftr_spec, wrapu_testbit by lia.
  repeat case_bool_decide; done || lia.
Qed.

Lemma u8_wrapu w z : 8 ≤ w → u8 (wrapu w z) = u8 z.
Proof.
  intros Hw. rewrite <- (Z.shiftr_0_r (wrapu w z)), u8_wrapu_shift by lia.
  by rewrite Z.shiftr_0_r.
Qed.

Ltac wr_step :=
  rewrite wr_app;
  cbn [wr lookup list_lookup insert list_insert Nat.add fmap option_fmap option_map
       mbind option_bind app].

Ltac be_store n f :=
  unfold f;
  match goal with |- ?lhs = store_be _ ?m ?p ?v =>
    destruct (decide (p + n ≤ length m)%nat) as [H|H];
      [window H; erewrite store_be_app by done; repeat wr_step; do 2 f_equal;
       unfold be_bytes; rewrite le_bytes_start;
       repeat (rewrite le_bytes_shift_S by lia; cbn [Z.add Pos.add Pos.succ]);
       cbn [le_bytes rev app]; rewrite ?Z.shiftr_0_r;
       rewrite ?u8_wrapu_shift, ?u8_wrapu by lia;
       rewrite ?Z.shiftr_shiftr by lia; reflexivity
      | rewrite store_be_none by lia; match n with S ?k => by rewrite (wr_none _ _ k) by lia end ]
  end.

Section store_spec.
Context (lw : Z) (Hlw : 32 ≤ lw).

Lemma mi_int1store_be m p A : Mi.mi_int1store m p A = store_be 1 m p A.
Proof using Type. be_store 1%nat Mi.mi_int1store. Qed.
Lemma mi_int2store_be m p A : Mi.mi_int2store m p A = store_be 2 m p A.
Proof using Type. be_store 2%nat Mi.mi_int2store. Qed.
Lemma mi_int3store_be m p A : Mi.mi_int3store lw m p A = store_be 3 m p A.
Proof using Hlw. be_store 3%nat Mi.mi_int3store. Qed.
Lemma mi_int4store_be m p A : Mi.mi_int4store lw m p A = store_be 4 m p A.
Proof using Hlw. be_store 4%nat Mi.mi_int4store. Qed.
Lemma mi_int5store_be m p A : Mi.mi_int5store lw m p A = store_be 5 m p A.
Proof using Hlw. be_store 5%nat Mi.mi_int5store. Qed.
Lemma mi_int6store_be m p A : Mi.mi_int6store lw m p A = store_be 6 m p A.
Proof using Hlw. be_store 6%nat Mi.mi_int6store. Qed.
Lemma mi_int7store_be m p A : Mi.mi_int7store lw m p A = store_be 7 m p A.
Proof using Hlw. be_store 7%nat Mi.mi_int7store. Qed.

(** A write split at a byte: high part first, then low part. *)
Lemma store_be_split n k m p v :
  (m' ← store_be n m p (v / 256 ^ Z.of_nat k); store_be k m' (p + n) v) = store_be (n + k) m p v.
Proof using Type.
  destruct (decide (p + (n + k) ≤ length m)%nat) as [H|H].
  - destruct (drop_split _ _ _ H) as (pre & l & r & -> & Hp & Hl).
    rewrite (store_be_app pre l r p (n + k)) by done. rewrite <- (take_drop n l), <- app_assoc.
    rewrite (store_be_app pre) by (rewrite ?length_take; lia). cbn [mbind option_bind].
    rewrite (app_assoc pre).
    rewrite store_be_app by (rewrite ?length_app, ?length_be_bytes, ?length_drop; lia).
    unfold be_bytes. by rewrite (Nat.add_comm n k), le_bytes_app, rev_app_distr, <- !app_assoc.
  - rewrite (store_be_none (n + k)) by lia.
    destruct (store_be n m p _) as [m'|] eqn:E; cbn [mbind option_bind]; [|done].
    apply store_be_none. revert E. unfold store_be. case_decide; intros [= <-].
    rewrite !length_app, length_be_bytes, length_take, length_drop. lia.
Qed.

Lemma store_be_wrap n m p v w :
  8 * Z.of_nat n ≤ w → store_be n m p (wrapu w v) = store_be n m p v.
Proof using Type.
  intros Hw. unfold store_be, be_bytes. case_decide; [|done]. do 4 f_equal.
  rewrite <- (le_bytes_mod n n (wrapu w v)), <- (le_bytes_mod n n v) by done. f_equal.
  assert (256 ^ Z.of_nat n = 2 ^ (8 * Z.of_nat n)) as -> by (by rewrite Z.pow_mul_r by lia).
  fold (wrapu (8 * Z.of_nat n) (wrapu w v)). fold (wrapu (8 * Z.of_nat n) v).
  zbits i. rewrite !wrapu_testbit by lia. repeat case_bool_decide; done || lia.
Qed.

Lemma mi_int8store_be m p A : Mi.mi_int8store lw m p A = store_be 8 m p A.
Proof using Hlw.
  unfold Mi.mi_int8store. rewrite Nat.add_0_r, mi_int4store_be, store_be_wrap by lia.
  rewrite <- (store_be_split 4 4), Z.shiftr_div_pow2 by lia.
  change (256 ^ Z.of_nat 4) with (2 ^ 32).
  destruct (store_be 4 m p (A / 2 ^ 32)) as [m'|]; [|done].
  cbn [mbind option_bind]. by rewrite mi_int4store_be, store_be_wrap by lia.
Qed.
End store_spec.

(** The store and the read macro of each width. *)
Definition mi_macros (lw : Z) :
    list (nat * (list Z → nat → Z → option (list Z)) * (list Z → nat → option Z)) :=
  [ (1%nat, Mi.mi_int1store, Mi.mi_uint1korr); (2%nat, Mi.mi_int2store, Mi.mi_uint2korr);
    (3%nat, Mi.mi_int3store lw, Mi.mi_uint3korr); (4%nat, Mi.mi_int4store lw, Mi.mi_uint4korr);
    (5%nat, Mi.mi_int5store lw, Mi.mi_uint5korr); (6%nat, Mi.mi_int6store lw, Mi.mi_uint6korr);
    (7%nat, Mi.mi_int7store lw, Mi.mi_uint7korr); (8%nat, Mi.mi_int8store lw, Mi.mi_uint8korr) ].

Lemma mi_macros_spec lw n st ld :
  32 ≤ lw → (n, st, ld) ∈ mi_macros lw →
  (∀ m p A, st m p A = store_be n m p A) ∧ (∀ m p, bytes_ok m → ld m p = load_be n m p).
Proof.
  intros Hlw Hin. unfold mi_macros in Hin.
  repeat (apply elem_of_cons in Hin as [[= -> -> ->]|Hin]); [..|by apply elem_of_nil in Hin];
    split; eauto using mi_int1store_be, mi_int2store_be, mi_int3store_be, mi_int4store_be,
      mi_int5store_be, mi_int6store_be, mi_int7store_be, mi_int8store_be, mi_uint1korr_load,
      mi_uint2korr_load, mi_uint3korr_load, mi_uint4korr_load, mi_uint5korr_load,
      mi_uint6korr_load, mi_uint7korr_load, mi_uint8korr_load.
Qed.

(** Round trip: for every width [N] from 1 to 8 bytes, whether [ulong] has
    32 or 64 bits, [mi_uintNkorr] after [mi_intNstore] gives the value modulo
    [2^(8N)]; the store fails exactly when the buffer is too short. *)
Theorem mi_roundtrip lw n st ld m p A :
  32 ≤ lw → (n, st, ld) ∈ mi_macros lw → bytes_ok m →
  (m' ← st m p A; ld m' p) =
  (if decide (p + n ≤ length m)%nat then Some (wrapu (8 * Z.of_nat n) A) else None).
Proof.
  intros Hlw Hin Hm. destruct (mi_macros_spec lw n st ld Hlw Hin) as [Hst Hld].
  rewrite Hst. unfold wrapu. rewrite Z.pow_mul_r by lia. case_decide.
  - destruct (store_be n m p A) as [m'|] eqn:E.
    + cbn [mbind option_bind]. rewrite Hld by (by eapply store_be_ok). by eapply store_load_be.
    + unfold store_be in E. by rewrite decide_True in E.
  - by rewrite store_be_none by lia.
Qed.

Lemma mi_roundtrip_witness :
  (m' ← Mi.mi_int7store 32 [1;2;3;4;5;6;7;8] 1 (-1); Mi.mi_uint7korr m' 1) = Some (2 ^ 56 - 1).
Proof.
  assert (bytes_ok [1;2;3;4;5;6;7;8]) as H by (apply (bool_decide_unpack _); vm_compute; done).
  rewrite (mi_roundtrip 32 7 (Mi.mi_int7store 32) Mi.mi_uint7korr [1;2;3;4;5;6;7;8] 1 (-1));
    [vm_compute; reflexivity | lia | do 6 right; left | exact H].
Defined.

(** ** Order *)

(** The C library's [memcmp] on two byte sequences, as an order. *)
Fixpoint memcmp (l k : list Z) : comparison :=
  match l, k with
  | a :: l, b :: k => match a ?= b with Eq => memcmp l k | c => c end
  | [], [] => Eq
  | [], _ => Lt
  | _, [] => Gt
  end.

Lemma memcmp_app_same l k k' : memcmp (l ++ k) (l ++ k') = memcmp k k'.
Proof. induction l as [|a l IH]; [done|]. simpl. by rewrite Z.compare_refl. Qed.

Lemma memcmp_app_eqlen l l' k k' :
  length l = length l' → memcmp l l' ≠ Eq → memcmp (l ++ k) (l' ++ k') = memcmp l l'.
Proof.
  revert l'. induction l as [|a l IH]; intros [|a' l'] Hl Hne; try done.
  simpl in *. destruct (a ?= a'); [apply IH; [lia|done]|done|done].
Qed.

Lemma memcmp_refl l : memcmp l l = Eq.
Proof. induction l as [|a l IH]; [done|]. simpl. by rewrite Z.compare_refl. Qed.

(** Comparing equally long byte sequences is comparing the numbers they encode
    with the high byte first. *)
Lemma memcmp_be_val l k :
  length l = length k → bytes_ok l → bytes_ok k →
  memcmp l k = (be_val l ?= be_val k).
Proof.
  revert k. induction l as [|a l IH]; intros [|b k] Hlen Hl Hk; try done.
  apply Forall_cons_1 in Hl as [Ha Hl], Hk as [Hb Hk]. simpl in Hlen.
  simpl memcmp. rewrite IH by (done || lia). unfold be_val. cbn [rev].
  rewrite !le_val_app, !length_rev. cbn [le_val].
  pose proof (le_val_bound (rev l) ltac:(by apply Forall_rev)) as Hl'.
  pose proof (le_val_bound (rev k) ltac:(by apply Forall_rev)) as Hk'.
  rewrite !length_rev in *. replace (length k) with (length l) in * by lia.
  set (P := 256 ^ Z.of_nat (length l)) in *.
  destruct (Z.compare_spec a b) as [->|Hab|Hab].
  - destruct (Z.compare_spec (le_val (rev l)) (le_val (rev k))); symmetry;
      [apply Z.compare_eq_iff|apply Z.compare_lt_iff|apply Z.compare_gt_iff]; lia.
  - symmetry. apply Z.compare_lt_iff. nia.
  - symmetry. apply Z.compare_gt_iff. nia.
Qed.

(** Key order: two integers of [N] bytes stored with the same [mi_intNstore]
    macro at the same place of the same buffer compare, byte by byte, exactly
    as the integers do.  This is what lets MyISAM keys be compared and prefix
    compressed as raw bytes. *)
Theorem mi_store_order lw n st ld m p a b ma mb :
  32 ≤ lw → (n, st, ld) ∈ mi_macros lw →
  in_u (8 * Z.of_nat n) a → in_u (8 * Z.of_nat n) b →
  st m p a = Some ma → st m p b = Some mb →
  memcmp ma mb = (a ?= b).
Proof.
  intros Hlw Hin Ha Hb Hma Hmb.
  destruct (mi_macros_spec lw n st ld Hlw Hin) as [Hst _]. rewrite Hst in Hma, Hmb.
  unfold in_u in Ha, Hb. rewrite Z.pow_mul_r in Ha, Hb by lia.
  unfold store_be in Hma, Hmb. case_decide; [|done].
  injection Hma as <-. injection Hmb as <-. rewrite memcmp_app_same.
  assert (memcmp (be_bytes n a) (be_bytes n b) = (a ?= b)) as E.
  { rewrite memcmp_be_val by (rewrite ?length_be_bytes; auto using bytes_ok_be_bytes).
    by rewrite !be_val_bytes, !Z.mod_small. }
  destruct (decide (a = b)) as [->|Hne].
  { by rewrite memcmp_refl, Z.compare_refl. }
  rewrite memcmp_app_eqlen; [done|by rewrite !length_be_bytes|].
  rewrite E. by rewrite Z.compare_eq_iff.
Qed.

Lemma mi_store_order_witness : memcmp [9; 0; 1; 255; 7] [9; 0; 2; 0; 7] = Lt.
Proof.
  apply (mi_store_order 64 3 (Mi.mi_int3store 64) Mi.mi_uint3korr [9; 9; 9; 9; 7] 1 511 512);
    [lia | do 2 right; left | | | reflexivity | reflexivity]; vm_compute; split; congruence.
Defined.

(** ** Byte-swapped reads of x86_64 *)

Lemma le_val_shift_bytes k l :
  le_val (replicate k 0 ++ l) = 256 ^ Z.of_nat k * le_val l.
Proof.
  rewrite le_val_app, length_replicate.
  assert (le_val (replicate k 0) = 0) as -> by (induction k as [|k IH]; [done|]; cbn [replicate le_val]; lia).
  lia.
Qed.

Lemma be_val_app0 l k : be_val (replicate k 0 ++ l) = be_val l.
Proof.
  unfold be_val. rewrite rev_app_distr, le_val_app.
  assert (rev (replicate k 0) = replicate k 0) as ->.
  { induction k as [|k IH]; [done|]. cbn [replicate rev]. rewrite IH.
    by rewrite <- replicate_cons_app. }
  rewrite <- (app_nil_r (replicate k 0)), le_val_shift_bytes. cbn [le_val]. lia.
Qed.

(** The idiom of the x86_64 reads: load [n] bytes low byte first, shift them to
    the top of the register, swap. *)
Lemma bswapq_be l k :
  bytes_ok l → (length l + k = 8)%nat →
  X86_64.bswapq (u64 (le_val l ≪ (8 * Z.of_nat k))) = be_val l.
Proof.
  intros Hl Hk. unfold X86_64.bswapq.
  rewrite Z.shiftl_mul_pow2, Z.mul_comm, Z.pow_mul_r by lia. change (2 ^ 8) with 256.
  rewrite <- le_val_shift_bytes.
  assert (bytes_ok (replicate k 0 ++ l)) as Hok.
  { apply Forall_app. split; [|done]. apply Forall_replicate. lia. }
  assert (length (replicate k 0 ++ l) = 8%nat) as Hlen by (rewrite length_app, length_replicate; lia).
  pose proof (le_val_bound _ Hok) as Hb. rewrite Hlen in Hb.
  rewrite wrapu_small by exact Hb. rewrite <- Hlen, le_bytes_val by done. apply be_val_app0.
Qed.

Lemma x64_mi_korr n k m p (f : list Z → nat → option Z) :
  bytes_ok m → (n + k = 8)%nat →
  (∀ v, load_le n m p = Some v → f m p = Some (X86_64.bswapq (u64 (v ≪ (8 * Z.of_nat k))))) →
  (load_le n m p = None → f m p = None) →
  f m p = load_be n m p.
Proof.
  intros Hm Hnk Hs Hn. unfold load_be. case_decide as H.
  - destruct (drop_split _ _ _ H) as (pre & l & r & -> & <- & <-).
    rewrite drop_app_length, take_app_length.
    rewrite (Hs (le_val l)) by (by apply load_le_app).
    f_equal. apply bswapq_be; [|done]. by apply Forall_app in Hm as [_ [? _]%Forall_app].
  - apply Hn. by apply load_le_none; lia.
Qed.

(** The four high-byte-first reads that byte_order_generic_x86_64.h
    implements with a word load, a shift and the [bswapq] instruction return
    what the portable macros of myisampack.h return, on every buffer. *)
Theorem mi_korr_x86_64 m p :
  bytes_ok m →
  X86_64.mi_uint5korr m p = Mi.mi_uint5korr m p ∧
  X86_64.mi_uint6korr m p = Mi.mi_uint6korr m p ∧
  X86_64.mi_uint7korr m p = Mi.mi_uint7korr m p ∧
  X86_64.mi_uint8korr m p = Mi.mi_uint8korr m p.
Proof.
  intros Hm. rewrite mi_uint5korr_load, mi_uint6korr_load, mi_uint7korr_load,
    mi_uint8korr_load by done.
  split_and!.
  - pose proof (x64_uint5korr_load m p Hm) as E. unfold X86_64.uint5korr in E.
    apply (x64_mi_korr 5 3); [done|done|rewrite <- E; unfold X86_64.mi_uint5korr ..].
    + intros v. destruct (load_le 4 m p), (rd m p 4); cbn [mbind option_bind]; intros [= <-]; reflexivity.
    + destruct (load_le 4 m p), (rd m p 4); done.
  - pose proof (x64_uint6korr_load m p Hm) as E. unfold X86_64.uint6korr in E.
    apply (x64_mi_korr 6 2); [done|done|rewrite <- E; unfold X86_64.mi_uint6korr ..].
    + intros v. destruct (load_le 4 m p), (load_le 2 m (p + 4)); cbn [mbind option_bind]; intros [= <-]; reflexivity.
    + destruct (load_le 4 m p), (load_le 2 m (p + 4)); done.
  - pose proof (x64_uint6korr_load m p Hm) as E6. unfold X86_64.uint6korr in E6.
    pose proof (x64_load_join 6 1 m p Hm ltac:(lia)) as E. rewrite <- E6, <- rd_load in E. cbn [Nat.add] in E.
    apply (x64_mi_korr 7 1); [done|done|rewrite <- E; unfold X86_64.mi_uint7korr ..].
    + intros v. destruct (load_le 4 m p), (load_le 2 m (p + 4)), (rd m p 6); cbn [mbind option_bind]; intros [= <-]; reflexivity.
    + destruct (load_le 4 m p), (load_le 2 m (p + 4)), (rd m p 6); done.
  - apply (x64_mi_korr 8 0); [done|done| |]; unfold X86_64.mi_uint8korr.
    + intros v Hv. rewrite Hv. cbn [mbind option_bind]. rewrite Z.shiftl_0_r, wrapu_small; [done|].
      by eapply load_le_bound in Hv.
    + by intros ->.
Qed.

Lemma mi_korr_x86_64_witness :
  X86_64.mi_uint7korr [1; 2; 3; 4; 5; 6; 7; 255] 1 = Mi.mi_uint7korr [1; 2; 3; 4; 5; 6; 7; 255] 1.
Proof.
  assert (bytes_ok [1; 2; 3; 4; 5; 6; 7; 255]) as H by (apply (bool_decide_unpack _); vm_compute; done).
  apply (mi_korr_x86_64 _ 1 H).
Defined.

(** ** Floating point values *)

Lemma rd_cat pre l i : rd (pre ++ l) (length pre) i = l !! i.
Proof. apply (rd_app pre [] l). Qed.

(** Floating point keys: for each of the three memory orders the header
    distinguishes, [mi_float8get] reads back the very bytes [mi_float8store]
    wrote, and likewise for 4-byte floats. *)
Theorem mi_float_roundtrip o m p V :
  bytes_ok V →
  (length V = 8%nat → (p + 8 ≤ length m)%nat →
     (m' ← Mi.mi_float8store o m p V; Mi.mi_float8get o m' p) = Some V) ∧
  (length V = 4%nat → (p + 4 ≤ length m)%nat →
     (m' ← Mi.mi_float4store o m p V; Mi.mi_float4get o m' p) = Some V).
Proof.
  intros HV. split; intros HlV Hm; window Hm;
    repeat (destruct V as [|? V]; try (simpl in HlV; lia); simpl in HlV);
    repeat match goal with H : bytes_ok (_ :: _) |- _ => apply Forall_cons_1 in H as [? H]
                         | H : Forall _ (_ :: _) |- _ => apply Forall_cons_1 in H as [? H] end;
    destruct o; unfold Mi.mi_float8store, Mi.mi_float8get, Mi.mi_float4store, Mi.mi_float4get;
    cbn [Mi.copy_out Mi.float8_index Mi.float4_index lookup list_lookup mbind option_bind];
    repeat wr_step; unfold Mi.copy_in; rewrite ?rd_cat;
    cbn [mbind option_bind lookup list_lookup app];
    rewrite !(wrapu_small 8) by done; done.
Qed.

Lemma mi_float_roundtrip_witness :
  (m' ← Mi.mi_float8store Mi.FloatWordsBigEndian (replicate 9 0) 1 [1;2;3;4;5;6;7;8];
   Mi.mi_float8get Mi.FloatWordsBigEndian m' 1) = Some [1;2;3;4;5;6;7;8].
Proof.
  apply (mi_float_roundtrip Mi.FloatWordsBigEndian (replicate 9 0) 1 [1;2;3;4;5;6;7;8]);
    [apply (bool_decide_unpack _); vm_compute; done | reflexivity | simpl; lia].
Defined.

(** ** Row counts and file offsets *)

(** Row counts and file offsets: [mi_rowkorr] reads back what [mi_rowstore]
    stored, modulo the width of the variant (8 bytes with [BIG_TABLES], the low
    4 otherwise); [mi_sizestore]/[mi_sizekorr] do the same for file offsets,
    and in the 4-byte variant the error offset is read back as the all-ones
    32-bit value. *)
Theorem mi_row_size_roundtrip lw ow big m p A :
  32 ≤ lw → bytes_ok m → (p + 8 ≤ length m)%nat →
  (m' ← Mi.mi_rowstore lw big m p A; Mi.mi_rowkorr big m' p)
    = Some (if big then u64 A else u32 A) ∧
  (m' ← Mi.mi_sizestore lw ow big m p A; Mi.mi_sizekorr big m' p)
    = Some (if big then u64 A
            else if decide (A = Mi.HA_OFFSET_ERROR ow) then 2 ^ 32 - 1 else u32 A).
Proof.
  intros Hlw Hm Hlen.
  assert ((m' ← Mi.mi_int8store lw m p A; Mi.mi_uint8korr m' p) = Some (u64 A)) as E8.
  { assert ((8%nat, Mi.mi_int8store lw, Mi.mi_uint8korr) ∈ mi_macros lw) as Hin
      by (do 7 right; left).
    destruct (mi_macros_spec _ _ _ _ Hlw Hin) as [Hst Hld]. rewrite Hst.
    destruct (store_be 8 m p A) as [m'|] eqn:E; cbn [mbind option_bind].
    - rewrite Hld by (by eapply store_be_ok). by eapply store_load_be in E.
    - unfold store_be in E. by rewrite decide_True in E. }
  assert ((m' ← (m1 ← Mi.mi_int4store lw m p 0; Mi.mi_int4store lw m1 (p + 4) A);
           Mi.mi_uint4korr m' (p + 4)) = Some (u32 A)) as E4.
  { rewrite mi_int4store_be by done.
    destruct (store_be 4 m p 0) as [m1|] eqn:E1;
      [|unfold store_be in E1; rewrite decide_True in E1 by lia; done].
    cbn [mbind option_bind]. rewrite mi_int4store_be by done.
    pose proof (store_be_length _ _ _ _ _ E1) as Hl1.
    destruct (store_be 4 m1 (p + 4) A) as [m2|] eqn:E2;
      [|unfold store_be in E2; rewrite decide_True in E2 by lia; done].
    cbn [mbind option_bind].
    rewrite mi_uint4korr_load by eauto using store_be_ok.
    by eapply store_load_be in E2. }
  destruct big; [split; exact E8|]. split; [exact E4|].
  unfold Mi.mi_sizestore, Mi.mi_sizekorr. case_decide; [|exact E4].
  unfold Mi.bfill. rewrite decide_True by done. cbn [mbind option_bind].
  rewrite mi_uint4korr_load.
  - change (replicate 8 255) with (replicate 4 255 ++ replicate 4 255).
    rewrite <- app_assoc, app_assoc.
    rewrite load_be_app by (rewrite ?length_app, ?length_take, ?length_replicate; lia). done.
  - apply Forall_app; split; [by apply Forall_take|].
    apply Forall_app; split; [apply Forall_replicate; lia|by apply Forall_drop].
Qed.

Lemma mi_row_size_roundtrip_witness :
  (m' ← Mi.mi_rowstore 32 false (replicate 8 1) 0 (2 ^ 32 + 5); Mi.mi_rowkorr false m' 0)
  = Some 5.
Proof.
  rewrite (proj1 (mi_row_size_roundtrip 32 64 false (replicate 8 1) 0 (2 ^ 32 + 5)
    ltac:(lia) ltac:(apply (bool_decide_unpack _); vm_compute; done) ltac:(simpl; lia))).
  reflexivity.
Defined.
