(* ===== verification/MyBit.v ===== *)
(** * Bit functions: my_bit.h *)

From S2P Require Import Prelude.
From Stdlib Require Import ZArith Lia.
From stdpp Require Import base numbers list.
Open Scope Z_scope.
Open Scope cint_scope.

(** [for (bit=0 ; value > 1 ; value>>=1, bit++) ;]: one iteration of fuel per
    bit of the argument. *)
Fixpoint my_bit_log2_loop (fuel : nat) (value bit : Z) : Z :=
  match fuel with
  | O => bit
  | S fuel => if decide (1 < value) then my_bit_log2_loop fuel (value ≫ 1) (bit + 1) else bit
  end.

Definition my_bit_log2 (value : Z) : Z := my_bit_log2_loop 64 value 0.

Definition my_count_bits_uint32 (v : Z) : Z :=
  let v := u32 (v - ((v ≫ 1) .& 0x55555555)) in
  let v := u32 ((v .& 0x33333333) + ((v ≫ 2) .& 0x33333333)) in
  u32 ((u32 (v + (v ≫ 4)) .& 0xF0F0F0F) * 0x1010101) ≫ 24.

Definition my_count_bits (x : Z) : Z :=
  u32 (my_count_bits_uint32 (u32 x) + my_count_bits_uint32 (u32 (x ≫ 32))).

Definition my_round_up_to_next_power (v : Z) : Z :=
  let v := u32 (v - 1) in
  let v := v .| v ≫ 1 in
  let v := v .| v ≫ 2 in
  let v := v .| v ≫ 4 in
  let v := v .| v ≫ 8 in
  let v := v .| v ≫ 16 in
  u32 (v + 1).

Definition my_clear_highest_bit (v : Z) : Z :=
  let w := v ≫ 1 in
  let w := w .| w ≫ 1 in
  let w := w .| w ≫ 2 in
  let w := w .| w ≫ 4 in
  let w := w .| w ≫ 8 in
  let w := w .| w ≫ 16 in
  v .& w.

(** [_my_bits_reverse_table] is defined outside the headers: the table is an
    argument. *)
Definition my_reverse_bits (table : Z → Z) (key : Z) : Z :=
  u32 (table (key .& 255) ≪ 24) .|
  u32 (table ((key ≫ 8) .& 255) ≪ 16) .|
  u32 (table ((key ≫ 16) .& 255) ≪ 8) .|
  table (key ≫ 24).

Definition my_set_bits (n : Z) : Z :=
  u64 (u64 (u64 (1 ≪ (n - 1)) - 1) ≪ 1) .| 1.

(** ** Logarithm *)

Lemma my_bit_log2_loop_spec fuel value bit :
  1 ≤ value < 2 ^ (Z.of_nat fuel + 1) → my_bit_log2_loop fuel value bit = bit + Z.log2 value.
Proof.
  revert value bit. induction fuel as [|fuel IH]; intros value bit Hv; cbn [my_bit_log2_loop].
  { change (2 ^ (Z.of_nat 0 + 1)) with 2 in Hv. assert (value = 1) as -> by lia.
    change (Z.log2 1) with 0. lia. }
  case_decide as H1.
  - rewrite IH.
    + assert (value ≫ 1 = value / 2) as -> by (by rewrite Z.shiftr_div_pow2 by lia).
      pose proof (Z.log2_shiftr value 1 ltac:(lia)) as E.
      rewrite Z.shiftr_div_pow2 in E by lia. change (2 ^ 1) with 2 in E. rewrite E.
      pose proof (Z.log2_pos value ltac:(lia)). lia.
    + rewrite Z.shiftr_div_pow2 by lia. change (2 ^ 1) with 2.
      rewrite Nat2Z.inj_succ in Hv.
      replace (Z.succ (Z.of_nat fuel) + 1) with (Z.succ (Z.of_nat fuel + 1)) in Hv by lia.
      rewrite Z.pow_succ_r in Hv by lia. split; [|apply Z.div_lt_upper_bound; lia].
      apply Z.div_le_lower_bound; lia.
  - assert (value = 1) as -> by lia. change (Z.log2 1) with 0. lia.
Qed.

(** [my_bit_log2] terminates within one iteration per bit and returns the
    floor of the binary logarithm (0 for an argument of 0); the header's
    comment promises the ceiling instead. *)
Theorem my_bit_log2_floor value :
  in_u 64 value → my_bit_log2 value = Z.log2 value.
Proof.
  intros Hv. unfold my_bit_log2. destruct (decide (value = 0)) as [->|]; [done|].
  unfold in_u in Hv. rewrite my_bit_log2_loop_spec; [lia|].
  split; [lia|]. eapply Z.lt_trans; [apply Hv|]. apply Z.pow_lt_mono_r; lia.
Qed.

Lemma my_bit_log2_floor_witness : my_bit_log2 5 = 2.
Proof. rewrite my_bit_log2_floor; [reflexivity | vm_compute; split; congruence]. Defined.

(** The comment of [my_bit_log2] ("smallest X in 2^X >= value") is not what
    it computes: for 5 the smallest such X is 3 and the function returns 2. *)
Theorem my_bit_log2_not_ceiling :
  ∃ value, in_u 64 value ∧ ¬ (value ≤ 2 ^ my_bit_log2 value).
Proof. exists 5. split; [vm_compute; split; congruence|]. vm_compute. intros H. by apply H. Qed.

(** ** Population count *)

(** Reference: the number of set bits among the low [n]. *)
Fixpoint popcnt (n : nat) (x : Z) : Z :=
  match n with
  | O => 0
  | S n => b2z (Z.testbit x 0) + popcnt n (x ≫ 1)
  end.

Lemma popcnt_add n k x : popcnt (n + k) x = popcnt n x + popcnt k (x ≫ Z.of_nat n).
Proof.
  revert x. induction n as [|n IH]; intros x; [by rewrite Z.shiftr_0_r|].
  cbn [Nat.add popcnt]. rewrite IH, Z.shiftr_shiftr by lia.
  replace (1 + Z.of_nat n) with (Z.of_nat (S n)) by lia. lia.
Qed.

Lemma popcnt_ext n x y :
  (∀ i, 0 ≤ i < Z.of_nat n → Z.testbit x i = Z.testbit y i) → popcnt n x = popcnt n y.
Proof.
  revert x y. induction n as [|n IH]; intros x y H; [done|]. cbn [popcnt].
  rewrite H by lia. f_equal. apply IH. intros i Hi. rewrite !Z.shiftr_spec by lia.
  apply H. lia.
Qed.

Lemma popcnt_range n x : 0 ≤ popcnt n x ≤ Z.of_nat n.
Proof.
  revert x. induction n as [|n IH]; intros x; [done|]. cbn [popcnt].
  specialize (IH (x ≫ 1)). destruct (Z.testbit x 0); cbn [b2z]; lia.
Qed.

(** The three steps of the parallel count, on one byte. *)
Definition swar1 (b : Z) : Z := b - (b / 2 .& 0x55).
Definition swar2 (b : Z) : Z := (b .& 0x33) + (b / 4 .& 0x33).
Definition swar3 (b : Z) : Z := (b + b / 16) mod 16.

Lemma swar_byte b :
  0 ≤ b < 256 →
  0 ≤ swar1 b < 256 ∧ 0 ≤ swar2 (swar1 b) ≤ 0x44 ∧ swar2 (swar1 b) mod 16 ≤ 4 ∧
  swar3 (swar2 (swar1 b)) = popcnt 8 b.
Proof.
  intros Hb.
  assert (Forall (λ b, 0 ≤ swar1 b < 256 ∧ 0 ≤ swar2 (swar1 b) ≤ 0x44 ∧
     swar2 (swar1 b) mod 16 ≤ 4 ∧ swar3 (swar2 (swar1 b)) = popcnt 8 b) (seqZ 0 256)) as H
    by (apply (bool_decide_unpack _); vm_compute; done).
  rewrite Forall_forall in H. apply H. apply elem_of_seqZ. lia.
Qed.

Lemma swar1_step q r m :
  0 ≤ r < 256 →
  (256 * q + r) - ((256 * q + r) / 2 .& (256 * m + 0x55)) = 256 * (q - (q / 2 .& m)) + swar1 r.
Proof.
  intros Hr. rewrite (land_split 8) by lia. change (2 ^ 8) with 256.
  replace ((256 * q + r) / 2 / 256) with (q / 2) by (Z.div_mod_to_equations; lia).
  change 0x55 with (2 ^ 7 * 0 + 0x55) at 1. rewrite (land_split 7) by lia.
  rewrite Z.land_0_r. change (2 ^ 7) with 128.
  replace (((256 * q + r) / 2) mod 256 mod 128) with (r / 2) by (Z.div_mod_to_equations; lia).
  unfold swar1. lia.
Qed.

Lemma swar2_step q r m :
  0 ≤ r < 256 →
  ((256 * q + r) .& (256 * m + 0x33)) + ((256 * q + r) / 4 .& (256 * m + 0x33))
  = 256 * ((q .& m) + (q / 4 .& m)) + swar2 r.
Proof.
  intros Hr. rewrite !(land_split 8) by lia. change (2 ^ 8) with 256.
  replace ((256 * q + r) / 4 / 256) with (q / 4) by (Z.div_mod_to_equations; lia).
  replace ((256 * q + r) / 256) with q by (Z.div_mod_to_equations; lia).
  replace ((256 * q + r) mod 256) with r by (Z.div_mod_to_equations; lia).
  change 0x33 with (2 ^ 6 * 0 + 0x33) at 2. rewrite (land_split 6 ((_ / 4) mod _)) by lia.
  rewrite Z.land_0_r. change (2 ^ 6) with 64.
  replace (((256 * q + r) / 4) mod 256 mod 64) with (r / 4) by (Z.div_mod_to_equations; lia).
  unfold swar2. lia.
Qed.

Lemma swar3_step q r m :
  0 ≤ r ≤ 0x44 → 0 ≤ q → q mod 16 ≤ 4 →
  ((256 * q + r) + (256 * q + r) / 16) .& (256 * m + 0xF)
  = 256 * ((q + q / 16) .& m) + swar3 r.
Proof.
  intros Hr Hq Hq4. rewrite (land_split 8) by lia. change (2 ^ 8) with 256.
  replace (((256 * q + r) + (256 * q + r) / 16) / 256) with (q + q / 16)
    by (Z.div_mod_to_equations; lia).
  change 0xF with (Z.ones 4). rewrite Z.land_ones by lia. change (2 ^ 4) with 16.
  unfold swar3. f_equal. Z.div_mod_to_equations; lia.
Qed.

(** The multiplication adds the four byte counts into the top byte. *)
Lemma swar_mul s0 s1 s2 s3 :
  0 ≤ s0 < 16 → 0 ≤ s1 < 16 → 0 ≤ s2 < 16 → 0 ≤ s3 < 16 →
  s0 + s1 + s2 + s3
  = u32 ((256 * (256 * (256 * s3 + s2) + s1) + s0) * 0x1010101) / 16777216.
Proof.
  intros H0 H1 H2 H3.
  apply Z.div_unique with (s0 + 256 * (s0 + s1) + 65536 * (s0 + s1 + s2)); [lia|].
  symmetry. unfold wrapu. change (2 ^ 32) with 4294967296.
  apply Z.mod_unique with (s1 + s2 + s3 + 256 * (s2 + s3) + 65536 * s3); lia.
Qed.

Lemma swar_bytes b0 b1 b2 b3 :
  0 ≤ b0 < 256 → 0 ≤ b1 < 256 → 0 ≤ b2 < 256 → 0 ≤ b3 < 256 →
  my_count_bits_uint32 (256 * (256 * (256 * b3 + b2) + b1) + b0)
  = popcnt 8 b0 + popcnt 8 b1 + popcnt 8 b2 + popcnt 8 b3.
Proof.
  intros H0 H1 H2 H3.
  destruct (swar_byte b0 H0) as (A0 & B0 & C0 & <-), (swar_byte b1 H1) as (A1 & B1 & C1 & <-),
    (swar_byte b2 H2) as (A2 & B2 & C2 & <-), (swar_byte b3 H3) as (A3 & B3 & C3 & <-).
  unfold my_count_bits_uint32. rewrite !Z.shiftr_div_pow2 by lia.
  change (2 ^ 1) with 2. change (2 ^ 2) with 4. change (2 ^ 4) with 16. change (2 ^ 24) with 16777216.
  change 0x55555555 with (256 * (256 * (256 * 0x55 + 0x55) + 0x55) + 0x55).
  rewrite !swar1_step by done. fold (swar1 b3).
  rewrite (wrapu_small 32 (256 * (256 * (256 * swar1 b3 + _) + _) + _)) by (unfold in_u; lia).
  change 0x33333333 with (256 * (256 * (256 * 0x33 + 0x33) + 0x33) + 0x33).
  rewrite !swar2_step by done. fold (swar2 (swar1 b3)).
  rewrite (wrapu_small 32 (256 * (256 * (256 * swar2 _ + _) + _) + _)) by (unfold in_u; lia).
  set (y0 := swar2 (swar1 b0)) in *. set (y1 := swar2 (swar1 b1)) in *.
  set (y2 := swar2 (swar1 b2)) in *. set (y3 := swar2 (swar1 b3)) in *.
  rewrite (wrapu_small 32 (_ + _ / 16)) by (unfold in_u; Z.div_mod_to_equations; lia).
  change 0xF0F0F0F with (256 * (256 * (256 * 0xF + 0xF) + 0xF) + 0xF).
  rewrite !swar3_step by (try done; Z.div_mod_to_equations; lia).
  assert ((y3 + y3 / 16) .& 15 = swar3 y3) as ->.
  { change 15 with (Z.ones 4). by rewrite Z.land_ones by lia. }
  assert (0 ≤ swar3 y0 < 16 ∧ 0 ≤ swar3 y1 < 16 ∧ 0 ≤ swar3 y2 < 16 ∧ 0 ≤ swar3 y3 < 16)
    as (D0 & D1 & D2 & D3) by (split_and!; apply Z.mod_pos_bound; lia).
  generalize dependent (swar3 y0). generalize dependent (swar3 y1).
  generalize dependent (swar3 y2). generalize dependent (swar3 y3). clear.
  intros s3 ? s2 ? s1 ? s0 ?. symmetry. apply swar_mul; lia.
Qed.

Lemma my_count_bits_uint32_spec v : in_u 32 v → my_count_bits_uint32 v = popcnt 32 v.
Proof.
  intros Hv. unfold in_u in Hv. change (2 ^ 32) with 4294967296 in Hv.
  set (b0 := v mod 256). set (b1 := v / 256 mod 256).
  set (b2 := v / 65536 mod 256). set (b3 := v / 16777216).
  assert (v = 256 * (256 * (256 * b3 + b2) + b1) + b0) as E
    by (subst b0 b1 b2 b3; Z.div_mod_to_equations; lia).
  rewrite E at 1.
  rewrite swar_bytes by (subst b0 b1 b2 b3; Z.div_mod_to_equations; lia).
  change 32%nat with (8 + (8 + (8 + 8)))%nat. rewrite !popcnt_add, !Z.shiftr_shiftr by lia.
  assert (∀ x k, 0 ≤ k → popcnt 8 (x / 2 ^ k mod 256) = popcnt 8 (x ≫ k)) as Hb.
  { intros x k Hk. apply popcnt_ext. intros i Hi. change 256 with (2 ^ 8).
    rewrite Z.mod_pow2_bits_low, Z.shiftr_div_pow2 by lia. done. }
  rewrite <- !Hb by lia.
  assert (popcnt 8 v = popcnt 8 b0) as ->.
  { pose proof (Hb v 0 ltac:(lia)) as E0. change (2 ^ 0) with 1 in E0.
    rewrite Z.div_1_r, Z.shiftr_0_r in E0. done. }
  assert (v / 2 ^ (Z.of_nat 8 + Z.of_nat 8 + Z.of_nat 8) mod 256 = b3) as ->.
  { subst b3. change (2 ^ (Z.of_nat 8 + Z.of_nat 8 + Z.of_nat 8)) with 16777216.
    Z.div_mod_to_equations; lia. }
  subst b1 b2. change (2 ^ Z.of_nat 8) with 256.
  change (2 ^ (Z.of_nat 8 + Z.of_nat 8)) with 65536. lia.
Qed.

(** [my_count_bits] (the parallel bit count of two 32-bit halves) returns the
    number of set bits of its 64-bit argument. *)
Theorem my_count_bits_popcount x : in_u 64 x → my_count_bits x = popcnt 64 x.
Proof.
  intros Hx. unfold my_count_bits.
  rewrite !my_count_bits_uint32_spec by (apply wrapu_range; lia).
  change 64%nat with (32 + 32)%nat. rewrite popcnt_add.
  assert (∀ y, popcnt 32 (u32 y) = popcnt 32 y) as E.
  { intros y. apply popcnt_ext. intros i Hi. rewrite wrapu_testbit by lia.
    by rewrite bool_decide_eq_true_2 by lia. }
  rewrite !E. change (Z.of_nat 32) with 32. apply wrapu_small. unfold in_u.
  pose proof (popcnt_range 32 x). pose proof (popcnt_range 32 (x ≫ 32)). lia.
Qed.

Lemma my_count_bits_popcount_witness : my_count_bits 0xF00000000000001 = 5.
Proof. rewrite my_count_bits_popcount; vm_compute; [reflexivity | split; congruence]. Defined.

(** ** Smearing the highest bit downwards *)

(** [y] has bit [i] set iff [x] has a bit set among [i], ..., [i + k - 1]. *)
Definition smeared (k x y : Z) : Prop :=
  ∀ i, 0 ≤ i → Z.testbit y i = true ↔ ∃ j, i ≤ j < i + k ∧ Z.testbit x j = true.

Lemma smeared_1 x : smeared 1 x x.
Proof.
  intros i Hi. split; [intros H; exists i; split; [lia|done]|].
  intros (j & Hj & H). by replace i with j by lia.
Qed.

Lemma smeared_step k x y : 0 ≤ k → smeared k x y → smeared (k + k) x (y .| y ≫ k).
Proof.
  intros Hk H i Hi. rewrite Z.lor_spec, Z.shiftr_spec, orb_true_iff by lia.
  rewrite (H i), (H (i + k)) by lia. split.
  - intros [(j & ? & ?)|(j & ? & ?)]; exists j; (split; [lia|done]).
  - intros (j & ? & ?). destruct (decide (j < i + k)); [left|right]; exists j; (split; [lia|done]).
Qed.

Definition smear32 (v : Z) : Z :=
  let v := v .| v ≫ 1 in
  let v := v .| v ≫ 2 in
  let v := v .| v ≫ 4 in
  let v := v .| v ≫ 8 in
  v .| v ≫ 16.

Lemma smear32_spec x : in_u 32 x → smear32 x = if decide (x = 0) then 0 else Z.ones (Z.log2 x + 1).
Proof.
  intros Hx.
  assert (smeared 32 x (smear32 x)) as H.
  { unfold smear32. apply (smeared_step 16); [lia|]. apply (smeared_step 8); [lia|].
    apply (smeared_step 4); [lia|]. apply (smeared_step 2); [lia|].
    apply (smeared_step 1); [lia|]. apply smeared_1. }
  case_decide as Hz; [by subst|]. unfold in_u in Hx.
  pose proof (Z.log2_nonneg x). zbits i.
  destruct (Z.testbit (smear32 x) i) eqn:E; symmetry.
  - apply H in E as (j & Hj & Hb); [|done]. apply Z.ones_spec_low.
    destruct (decide (j ≤ Z.log2 x)); [lia|].
    by rewrite Z.bits_above_log2 in Hb by lia.
  - apply Z.ones_spec_high. split; [lia|]. destruct (decide (Z.log2 x < i)); [lia|].
    assert (Z.testbit (smear32 x) i = true); [|congruence].
    apply H; [done|]. exists (Z.log2 x). split; [|apply Z.bit_log2; lia].
    pose proof (Z.log2_lt_pow2 x 32 ltac:(lia)). lia.
Qed.

(** [my_round_up_to_next_power] returns the least power of two that is not
    below its argument; for 0, and for an argument above [2^31], whose next
    power does not fit 32 bits, it returns 0. *)
Theorem my_round_up_to_next_power_spec v :
  in_u 32 v →
  my_round_up_to_next_power v =
    if decide (v = 0 ∨ 2 ^ 31 < v) then 0 else 2 ^ Z.log2_up v.
Proof.
  intros Hv. unfold my_round_up_to_next_power.
  fold (smear32 (u32 (v - 1))). rewrite smear32_spec by (apply wrapu_range; lia).
  unfold in_u in Hv. destruct (decide (v = 0)) as [->|Hv0]; [done|].
  rewrite !(wrapu_small 32 (v - 1)) by (unfold in_u; lia).
  destruct (decide (v = 1)) as [->|Hv1]; [done|].
  rewrite (decide_False (P := v - 1 = 0)) by lia. rewrite Z.ones_equiv.
  replace (Z.pred (2 ^ (Z.log2 (v - 1) + 1)) + 1) with (2 ^ (Z.log2 (v - 1) + 1)) by lia.
  assert (Z.log2_up v = Z.log2 (v - 1) + 1) as E.
  { rewrite Z.log2_up_eqn by lia. unfold Z.pred. replace (v + -1) with (v - 1) by lia. lia. }
  rewrite E. destruct (decide (v = 0 ∨ 2 ^ 31 < v)) as [[?|Hbig]|Hsmall]; [done| |].
  - assert (Z.log2 (v - 1) = 31) as ->; [|done].
    apply Z.log2_unique; lia.
  - apply wrapu_small. unfold in_u. split; [apply Z.pow_nonneg; lia|].
    assert (Z.log2 (v - 1) < 31) by (apply Z.log2_lt_pow2; lia).
    apply Z.pow_lt_mono_r; lia.
Qed.

Lemma my_round_up_to_next_power_spec_witness :
  my_round_up_to_next_power 0x6000000B = 0x80000000.
Proof.
  rewrite my_round_up_to_next_power_spec; [vm_compute; reflexivity | vm_compute; split; congruence].
Defined.

(** [my_clear_highest_bit] clears exactly the most significant set bit. *)
Theorem my_clear_highest_bit_spec v :
  in_u 32 v → my_clear_highest_bit v = if decide (v = 0) then 0 else v - 2 ^ Z.log2 v.
Proof.
  intros Hv. unfold in_u in Hv. unfold my_clear_highest_bit.
  assert (in_u 32 (v ≫ 1)) as Hw.
  { unfold in_u. rewrite Z.shiftr_div_pow2 by lia. change (2 ^ 1) with 2.
    Z.div_mod_to_equations; lia. }
  fold (smear32 (v ≫ 1)). rewrite smear32_spec by done.
  destruct (decide (v = 0)) as [->|Hv0]; [done|].
  case_decide as Hz.
  { rewrite Z.land_0_r. rewrite Z.shiftr_div_pow2 in Hz by lia. change (2 ^ 1) with 2 in Hz.
    assert (v = 1) as -> by (Z.div_mod_to_equations; lia). done. }
  assert (2 ≤ v) as H2.
  { rewrite Z.shiftr_div_pow2 in Hz by lia. change (2 ^ 1) with 2 in Hz.
    Z.div_mod_to_equations; lia. }
  pose proof (Z.log2_pos v ltac:(lia)) as Hpos.
  rewrite Z.log2_shiftr, Z.max_r by lia. replace (Z.log2 v - 1 + 1) with (Z.log2 v) by lia.
  rewrite Z.land_ones by lia.
  pose proof (Z.log2_spec v ltac:(lia)) as [Hlo Hhi].
  rewrite Z.pow_succ_r in Hhi by lia.
  symmetry. apply Z.mod_unique with 1; lia.
Qed.

Lemma my_clear_highest_bit_spec_witness : my_clear_highest_bit 13 = 5.
Proof. rewrite my_clear_highest_bit_spec; [reflexivity | vm_compute; split; congruence]. Defined.

(** [my_set_bits n] is the number with the [n] lowest bits set, also for
    [n = 64], where [(1 << n) - 1] would overflow. *)
Theorem my_set_bits_spec n : 1 ≤ n ≤ 64 → my_set_bits n = Z.ones n.
Proof.
  intros Hn. unfold my_set_bits.
  assert (2 ^ n = 2 * 2 ^ (n - 1)) as E by (rewrite <- Z.pow_succ_r by lia; f_equal; lia).
  assert (2 ^ n ≤ 2 ^ 64) by (apply Z.pow_le_mono_r; lia).
  assert (0 < 2 ^ (n - 1)) by (apply Z.pow_pos_nonneg; lia).
  rewrite !Z.shiftl_mul_pow2, Z.mul_1_l by lia. change (2 ^ 1) with 2.
  rewrite (wrapu_small 64 (2 ^ (n - 1))) by (unfold in_u; lia).
  rewrite (wrapu_small 64 (2 ^ (n - 1) - 1)) by (unfold in_u; lia).
  rewrite (wrapu_small 64) by (unfold in_u; lia).
  rewrite Z.lor_comm. change 2 with (2 ^ 1) at 2.
  rewrite <- (Z.shiftl_mul_pow2 _ 1) by lia. rewrite lor_add_shift by lia.
  rewrite Z.ones_equiv. lia.
Qed.

Lemma my_set_bits_spec_witness : my_set_bits 64 = 2 ^ 64 - 1.
Proof. rewrite my_set_bits_spec; [reflexivity | lia]. Defined.

(** ** Bit reversal *)

(** What the code relies on: the table reverses the bits of a byte. *)
Definition reverses_bytes (table : Z → Z) : Prop :=
  ∀ b, 0 ≤ b < 256 → in_u 8 (table b) ∧
    ∀ i, 0 ≤ i < 8 → Z.testbit (table b) i = Z.testbit b (7 - i).

Lemma reversed_field table b k i :
  reverses_bytes table → 0 ≤ b < 256 → 0 ≤ k ≤ 24 → 0 ≤ i < 32 →
  Z.testbit (u32 (table b ≪ k)) i =
  bool_decide (k ≤ i < k + 8) && Z.testbit b (k + 7 - i).
Proof.
  intros Ht Hb Hk Hi. destruct (Ht b Hb) as [Hr Hbit].
  rewrite wrapu_testbit, Z.shiftl_spec, bool_decide_eq_true_2, andb_true_l by lia.
  case_bool_decide.
  - rewrite Hbit by lia. by replace (7 - (i - k)) with (k + 7 - i) by lia.
  - destruct (decide (i < k)); [by rewrite Z.testbit_neg_r by lia|].
    apply (in_u_testbit_high 8); [lia|done|lia].
Qed.

(** Given a table that reverses the bits of every byte (the documented
    content of the external [_my_bits_reverse_table]), [my_reverse_bits]
    reverses the 32 bits of its argument. *)
Theorem my_reverse_bits_spec table key i :
  reverses_bytes table → in_u 32 key → 0 ≤ i < 32 →
  Z.testbit (my_reverse_bits table key) i = Z.testbit key (31 - i).
Proof.
  intros Ht Hkey Hi. unfold my_reverse_bits.
  assert (∀ z, 0 ≤ z .& 255 < 256) as Hm
    by (intros z; change 255 with (Z.ones 8); rewrite Z.land_ones by lia; by apply Z.mod_pos_bound).
  assert (0 ≤ key ≫ 24 < 256) as H24.
  { unfold in_u in Hkey. rewrite Z.shiftr_div_pow2 by lia. Z.div_mod_to_equations; lia. }
  assert (table (key ≫ 24) = u32 (table (key ≫ 24) ≪ 0)) as ->.
  { rewrite Z.shiftl_0_r, wrapu_small; [done|]. destruct (Ht _ H24) as [Hr _].
    unfold in_u in *. lia. }
  rewrite !Z.lor_spec, !reversed_field by (done || lia).
  assert (∀ z j, Z.testbit (z .& 255) j = bool_decide (j < 8) && Z.testbit z j) as Hlow.
  { intros z j. change 255 with (Z.ones 8). rewrite Z.land_ones by lia. by apply (wrapu_testbit 8). }
  rewrite !Hlow. repeat case_bool_decide; try lia; simpl; rewrite ?orb_false_r;
    rewrite ?Z.shiftr_spec by lia; f_equal; lia.
Qed.

Definition reverse_byte (b : Z) : Z :=
  foldr (λ i acc, (if Z.testbit b (7 - i) then 2 ^ i else 0) + acc) 0 (seqZ 0 8).

Lemma my_reverse_bits_spec_witness :
  reverses_bytes reverse_byte ∧ Z.testbit (my_reverse_bits reverse_byte 1) 31 = true.
Proof.
  assert (reverses_bytes reverse_byte) as Hr.
  { assert (Forall (λ b, in_u 8 (reverse_byte b) ∧ Forall (λ i, Z.testbit (reverse_byte b) i = Z.testbit b (7 - i)) (seqZ 0 8)) (seqZ 0 256)) as H
      by (apply (bool_decide_unpack _); vm_compute; done).
    intros b Hb. rewrite Forall_forall in H.
    destruct (H b ltac:(apply elem_of_seqZ; lia)) as [H1 H2]. split; [done|].
    intros i Hi. rewrite Forall_forall in H2. apply H2. apply elem_of_seqZ. lia. }
  split; [exact Hr|]. rewrite (my_reverse_bits_spec _ 1 31 Hr); [reflexivity| |lia].
  vm_compute; split; congruence.
Defined.
