(* ===== verification/Acl.v ===== *)
(** * Privilege masks: sql_acl.h

    The privileges a user holds are a bit mask; the grant tables store the same
    privileges in consecutive columns.  The [fix_rights_]/[get_rights_] macros
    move the bits between the two layouts. *)

From S2P Require Import Prelude.
From Stdlib Require Import ZArith Lia.
From stdpp Require Import base numbers list.
Open Scope Z_scope.
Open Scope cint_scope.

Module Acl.

Definition SELECT_ACL : Z := 1 ≪ 0.
Definition INSERT_ACL : Z := 1 ≪ 1.
Definition UPDATE_ACL : Z := 1 ≪ 2.
Definition DELETE_ACL : Z := 1 ≪ 3.
Definition CREATE_ACL : Z := 1 ≪ 4.
Definition DROP_ACL : Z := 1 ≪ 5.
Definition RELOAD_ACL : Z := 1 ≪ 6.
Definition SHUTDOWN_ACL : Z := 1 ≪ 7.
Definition PROCESS_ACL : Z := 1 ≪ 8.
Definition FILE_ACL : Z := 1 ≪ 9.
Definition GRANT_ACL : Z := 1 ≪ 10.
Definition REFERENCES_ACL : Z := 1 ≪ 11.
Definition INDEX_ACL : Z := 1 ≪ 12.
Definition ALTER_ACL : Z := 1 ≪ 13.
Definition SHOW_DB_ACL : Z := 1 ≪ 14.
Definition SUPER_ACL : Z := 1 ≪ 15.
Definition CREATE_TMP_ACL : Z := 1 ≪ 16.
Definition LOCK_TABLES_ACL : Z := 1 ≪ 17.
Definition EXECUTE_ACL : Z := 1 ≪ 18.
Definition REPL_SLAVE_ACL : Z := 1 ≪ 19.
Definition REPL_CLIENT_ACL : Z := 1 ≪ 20.
Definition CREATE_VIEW_ACL : Z := 1 ≪ 21.
Definition SHOW_VIEW_ACL : Z := 1 ≪ 22.
Definition CREATE_PROC_ACL : Z := 1 ≪ 23.
Definition ALTER_PROC_ACL : Z := 1 ≪ 24.
Definition CREATE_USER_ACL : Z := 1 ≪ 25.
Definition EVENT_ACL : Z := 1 ≪ 26.
Definition TRIGGER_ACL : Z := 1 ≪ 27.
Definition CREATE_TABLESPACE_ACL : Z := 1 ≪ 28.
Definition DELETE_HISTORY_ACL : Z := 1 ≪ 29.
Definition NO_ACCESS : Z := 1 ≪ 30.

Definition DB_ACLS : Z :=
  UPDATE_ACL .| SELECT_ACL .| INSERT_ACL .| DELETE_ACL .| CREATE_ACL .| DROP_ACL .|
  GRANT_ACL .| REFERENCES_ACL .| INDEX_ACL .| ALTER_ACL .| CREATE_TMP_ACL .|
  LOCK_TABLES_ACL .| EXECUTE_ACL .| CREATE_VIEW_ACL .| SHOW_VIEW_ACL .| CREATE_PROC_ACL .|
  ALTER_PROC_ACL .| EVENT_ACL .| TRIGGER_ACL .| DELETE_HISTORY_ACL.

Definition TABLE_ACLS : Z :=
  SELECT_ACL .| INSERT_ACL .| UPDATE_ACL .| DELETE_ACL .| CREATE_ACL .| DROP_ACL .|
  GRANT_ACL .| REFERENCES_ACL .| INDEX_ACL .| ALTER_ACL .| CREATE_VIEW_ACL .|
  SHOW_VIEW_ACL .| TRIGGER_ACL .| DELETE_HISTORY_ACL.

Definition COL_ACLS : Z :=
  SELECT_ACL .| INSERT_ACL .| UPDATE_ACL .| REFERENCES_ACL.

Definition PROC_ACLS : Z :=
  ALTER_PROC_ACL .| EXECUTE_ACL .| GRANT_ACL.

Definition SHOW_PROC_ACLS : Z :=
  ALTER_PROC_ACL .| EXECUTE_ACL .| CREATE_PROC_ACL.

Definition GLOBAL_ACLS : Z :=
  SELECT_ACL .| INSERT_ACL .| UPDATE_ACL .| DELETE_ACL .| CREATE_ACL .| DROP_ACL .|
  RELOAD_ACL .| SHUTDOWN_ACL .| PROCESS_ACL .| FILE_ACL .| GRANT_ACL .| REFERENCES_ACL .|
  INDEX_ACL .| ALTER_ACL .| SHOW_DB_ACL .| SUPER_ACL .| CREATE_TMP_ACL .| LOCK_TABLES_ACL
  .| REPL_SLAVE_ACL .| REPL_CLIENT_ACL .| EXECUTE_ACL .| CREATE_VIEW_ACL .| SHOW_VIEW_ACL
  .| CREATE_PROC_ACL .| ALTER_PROC_ACL .| CREATE_USER_ACL .| EVENT_ACL .| TRIGGER_ACL .|
  CREATE_TABLESPACE_ACL .| DELETE_HISTORY_ACL.

Definition DEFAULT_CREATE_PROC_ACLS : Z :=
  ALTER_PROC_ACL .| EXECUTE_ACL.

Definition SHOW_CREATE_TABLE_ACLS : Z :=
  SELECT_ACL .| INSERT_ACL .| UPDATE_ACL .| DELETE_ACL .| CREATE_ACL .| DROP_ACL .|
  ALTER_ACL .| INDEX_ACL .| TRIGGER_ACL .| REFERENCES_ACL .| GRANT_ACL .| CREATE_VIEW_ACL
  .| SHOW_VIEW_ACL.

Definition TMP_TABLE_ACLS : Z :=
  SELECT_ACL .| INSERT_ACL .| UPDATE_ACL .| DELETE_ACL .| CREATE_ACL .| DROP_ACL .|
  INDEX_ACL .| ALTER_ACL.

(** Privileges moved together, in contiguous chunks. *)
Definition DB_CHUNK0 : Z :=
  SELECT_ACL .| INSERT_ACL .| UPDATE_ACL .| DELETE_ACL .| CREATE_ACL .| DROP_ACL.
Definition DB_CHUNK1 : Z :=
  GRANT_ACL .| REFERENCES_ACL .| INDEX_ACL .| ALTER_ACL.
Definition DB_CHUNK2 : Z :=
  CREATE_TMP_ACL .| LOCK_TABLES_ACL.
Definition DB_CHUNK3 : Z :=
  CREATE_VIEW_ACL .| SHOW_VIEW_ACL .| CREATE_PROC_ACL .| ALTER_PROC_ACL.
Definition DB_CHUNK4 : Z :=
  EXECUTE_ACL.
Definition DB_CHUNK5 : Z :=
  EVENT_ACL .| TRIGGER_ACL.
Definition DB_CHUNK6 : Z :=
  DELETE_HISTORY_ACL.

Definition TBL_CHUNK0 : Z := DB_CHUNK0.
Definition TBL_CHUNK1 : Z := DB_CHUNK1.
Definition TBL_CHUNK2 : Z := CREATE_VIEW_ACL .| SHOW_VIEW_ACL.
Definition TBL_CHUNK3 : Z := TRIGGER_ACL.
Definition TBL_CHUNK4 : Z := DELETE_HISTORY_ACL.

(** Masks are [ulong] values of [lw] bits. *)
Section rights.
Context (lw : Z).
Abbreviation ulong := (wrapu lw).

Definition fix_rights_for_db (A : Z) : Z :=
  (A .& DB_CHUNK0) .| (ulong (A ≪ 4) .& DB_CHUNK1) .| (ulong (A ≪ 6) .& DB_CHUNK2) .|
  (ulong (A ≪ 9) .& DB_CHUNK3) .| (ulong (A ≪ 2) .& DB_CHUNK4) .|
  (ulong (A ≪ 9) .& DB_CHUNK5) .| (ulong (A ≪ 10) .& DB_CHUNK6).

Definition get_rights_for_db (A : Z) : Z :=
  (A .& DB_CHUNK0) .| ((A .& DB_CHUNK1) ≫ 4) .| ((A .& DB_CHUNK2) ≫ 6) .|
  ((A .& DB_CHUNK3) ≫ 9) .| ((A .& DB_CHUNK4) ≫ 2) .|
  ((A .& DB_CHUNK5) ≫ 9) .| ((A .& DB_CHUNK6) ≫ 10).

Definition fix_rights_for_table (A : Z) : Z :=
  (A .& TBL_CHUNK0) .| (ulong (A ≪ 4) .& TBL_CHUNK1) .| (ulong (A ≪ 11) .& TBL_CHUNK2) .|
  (ulong (A ≪ 15) .& TBL_CHUNK3) .| (ulong (A ≪ 16) .& TBL_CHUNK4).

Definition get_rights_for_table (A : Z) : Z :=
  (A .& TBL_CHUNK0) .| ((A .& TBL_CHUNK1) ≫ 4) .| ((A .& TBL_CHUNK2) ≫ 11) .|
  ((A .& TBL_CHUNK3) ≫ 15) .| ((A .& TBL_CHUNK4) ≫ 16).

Definition fix_rights_for_column (A : Z) : Z :=
  (A .& 7) .| ulong ((A .& ulong (Z.lnot 7)) ≪ 8).

Definition get_rights_for_column (A : Z) : Z := (A .& 7) .| (A ≫ 8).

Definition fix_rights_for_procedure (A : Z) : Z :=
  (ulong (A ≪ 18) .& EXECUTE_ACL) .| (ulong (A ≪ 23) .& ALTER_PROC_ACL) .|
  (ulong (A ≪ 8) .& GRANT_ACL).

Definition get_rights_for_procedure (A : Z) : Z :=
  ((A .& EXECUTE_ACL) ≫ 18) .| ((A .& ALTER_PROC_ACL) ≫ 23) .| ((A .& GRANT_ACL) ≫ 8).
End rights.

Inductive mysql_db_table_field :=
  | MYSQL_DB_FIELD_HOST
  | MYSQL_DB_FIELD_DB
  | MYSQL_DB_FIELD_USER
  | MYSQL_DB_FIELD_SELECT_PRIV
  | MYSQL_DB_FIELD_INSERT_PRIV
  | MYSQL_DB_FIELD_UPDATE_PRIV
  | MYSQL_DB_FIELD_DELETE_PRIV
  | MYSQL_DB_FIELD_CREATE_PRIV
  | MYSQL_DB_FIELD_DROP_PRIV
  | MYSQL_DB_FIELD_GRANT_PRIV
  | MYSQL_DB_FIELD_REFERENCES_PRIV
  | MYSQL_DB_FIELD_INDEX_PRIV
  | MYSQL_DB_FIELD_ALTER_PRIV
  | MYSQL_DB_FIELD_CREATE_TMP_TABLE_PRIV
  | MYSQL_DB_FIELD_LOCK_TABLES_PRIV
  | MYSQL_DB_FIELD_CREATE_VIEW_PRIV
  | MYSQL_DB_FIELD_SHOW_VIEW_PRIV
  | MYSQL_DB_FIELD_CREATE_ROUTINE_PRIV
  | MYSQL_DB_FIELD_ALTER_ROUTINE_PRIV
  | MYSQL_DB_FIELD_EXECUTE_PRIV
  | MYSQL_DB_FIELD_EVENT_PRIV
  | MYSQL_DB_FIELD_TRIGGER_PRIV
  | MYSQL_DB_FIELD_DELETE_VERSIONING_ROWS_PRIV.

(** The enumeration's values: the column's position in [mysql.db]. *)
Definition field_index (f : mysql_db_table_field) : Z :=
  match f with
  | MYSQL_DB_FIELD_HOST => 0
  | MYSQL_DB_FIELD_DB => 1
  | MYSQL_DB_FIELD_USER => 2
  | MYSQL_DB_FIELD_SELECT_PRIV => 3
  | MYSQL_DB_FIELD_INSERT_PRIV => 4
  | MYSQL_DB_FIELD_UPDATE_PRIV => 5
  | MYSQL_DB_FIELD_DELETE_PRIV => 6
  | MYSQL_DB_FIELD_CREATE_PRIV => 7
  | MYSQL_DB_FIELD_DROP_PRIV => 8
  | MYSQL_DB_FIELD_GRANT_PRIV => 9
  | MYSQL_DB_FIELD_REFERENCES_PRIV => 10
  | MYSQL_DB_FIELD_INDEX_PRIV => 11
  | MYSQL_DB_FIELD_ALTER_PRIV => 12
  | MYSQL_DB_FIELD_CREATE_TMP_TABLE_PRIV => 13
  | MYSQL_DB_FIELD_LOCK_TABLES_PRIV => 14
  | MYSQL_DB_FIELD_CREATE_VIEW_PRIV => 15
  | MYSQL_DB_FIELD_SHOW_VIEW_PRIV => 16
  | MYSQL_DB_FIELD_CREATE_ROUTINE_PRIV => 17
  | MYSQL_DB_FIELD_ALTER_ROUTINE_PRIV => 18
  | MYSQL_DB_FIELD_EXECUTE_PRIV => 19
  | MYSQL_DB_FIELD_EVENT_PRIV => 20
  | MYSQL_DB_FIELD_TRIGGER_PRIV => 21
  | MYSQL_DB_FIELD_DELETE_VERSIONING_ROWS_PRIV => 22
  end.
Definition MYSQL_DB_FIELD_COUNT : Z := 23.

Definition ER_ACCESS_DENIED_ERROR : Z := 1045.
Definition ER_ACCESS_DENIED_NO_PASSWORD_ERROR : Z := 1698.

Definition access_denied_error_code (passwd_used : Z) : Z :=
  if decide (passwd_used = 2) then ER_ACCESS_DENIED_NO_PASSWORD_ERROR
  else ER_ACCESS_DENIED_ERROR.

End Acl.

(** The privilege a column of [mysql.db] records, by its name. *)
Definition field_privilege (f : Acl.mysql_db_table_field) : option Z :=
  match f with
  | Acl.MYSQL_DB_FIELD_HOST => None
  | Acl.MYSQL_DB_FIELD_DB => None
  | Acl.MYSQL_DB_FIELD_USER => None
  | Acl.MYSQL_DB_FIELD_SELECT_PRIV => Some Acl.SELECT_ACL
  | Acl.MYSQL_DB_FIELD_INSERT_PRIV => Some Acl.INSERT_ACL
  | Acl.MYSQL_DB_FIELD_UPDATE_PRIV => Some Acl.UPDATE_ACL
  | Acl.MYSQL_DB_FIELD_DELETE_PRIV => Some Acl.DELETE_ACL
  | Acl.MYSQL_DB_FIELD_CREATE_PRIV => Some Acl.CREATE_ACL
  | Acl.MYSQL_DB_FIELD_DROP_PRIV => Some Acl.DROP_ACL
  | Acl.MYSQL_DB_FIELD_GRANT_PRIV => Some Acl.GRANT_ACL
  | Acl.MYSQL_DB_FIELD_REFERENCES_PRIV => Some Acl.REFERENCES_ACL
  | Acl.MYSQL_DB_FIELD_INDEX_PRIV => Some Acl.INDEX_ACL
  | Acl.MYSQL_DB_FIELD_ALTER_PRIV => Some Acl.ALTER_ACL
  | Acl.MYSQL_DB_FIELD_CREATE_TMP_TABLE_PRIV => Some Acl.CREATE_TMP_ACL
  | Acl.MYSQL_DB_FIELD_LOCK_TABLES_PRIV => Some Acl.LOCK_TABLES_ACL
  | Acl.MYSQL_DB_FIELD_CREATE_VIEW_PRIV => Some Acl.CREATE_VIEW_ACL
  | Acl.MYSQL_DB_FIELD_SHOW_VIEW_PRIV => Some Acl.SHOW_VIEW_ACL
  | Acl.MYSQL_DB_FIELD_CREATE_ROUTINE_PRIV => Some Acl.CREATE_PROC_ACL
  | Acl.MYSQL_DB_FIELD_ALTER_ROUTINE_PRIV => Some Acl.ALTER_PROC_ACL
  | Acl.MYSQL_DB_FIELD_EXECUTE_PRIV => Some Acl.EXECUTE_ACL
  | Acl.MYSQL_DB_FIELD_EVENT_PRIV => Some Acl.EVENT_ACL
  | Acl.MYSQL_DB_FIELD_TRIGGER_PRIV => Some Acl.TRIGGER_ACL
  | Acl.MYSQL_DB_FIELD_DELETE_VERSIONING_ROWS_PRIV => Some Acl.DELETE_HISTORY_ACL
  end.

(** ** Chunked bit moves

    Both layouts are unions of chunks: a mask of privilege bits and the
    distance they move down in the stored layout. *)

Section chunks.
Context (lw : Z) (Hlw : 0 ≤ lw).

Fixpoint get_chunks (cs : list (Z * Z)) (A : Z) : Z :=
  match cs with
  | [] => 0
  | (M, k) :: cs => ((A .& M) ≫ k) .| get_chunks cs A
  end.

Fixpoint fix_chunks (cs : list (Z * Z)) (A : Z) : Z :=
  match cs with
  | [] => 0
  | (M, k) :: cs => (wrapu lw (A ≪ k) .& M) .| fix_chunks cs A
  end.

(** Pairwise disjoint masks. *)
Fixpoint disjoint_masks (ms : list Z) : Prop :=
  match ms with
  | [] => True
  | m :: ms => Forall (λ m', m .& m' = 0) ms ∧ disjoint_masks ms
  end.

Definition union_masks (ms : list Z) : Z := foldr Z.lor 0 ms.

(** A well-formed chunk table: masks fit the word, move down without losing a
    bit, and do not overlap in either layout. *)
Definition chunks_ok (cs : list (Z * Z)) : Prop :=
  Forall (λ c, in_u lw c.1 ∧ 0 ≤ c.2 ∧ (c.1 ≫ c.2) ≪ c.2 = c.1) cs ∧
  disjoint_masks (fst <$> cs) ∧ disjoint_masks ((λ c, c.1 ≫ c.2) <$> cs).

Lemma get_chunks_bit cs A i :
  Forall (λ c, 0 ≤ c.2) cs → 0 ≤ i →
  Z.testbit (get_chunks cs A) i = true ↔
  ∃ c, c ∈ cs ∧ Z.testbit (c.1 ≫ c.2) i = true ∧ Z.testbit A (i + c.2) = true.
Proof using Type.
  intros Hcs Hi. induction Hcs as [|[M k] cs Hk Hcs IH]; cbn [get_chunks].
  { rewrite Z.bits_0. split; [done|]. intros (c & Hc & _). by apply elem_of_nil in Hc. }
  rewrite Z.lor_spec, orb_true_iff, IH. simpl in Hk.
  rewrite Z.shiftr_spec, Z.land_spec, andb_true_iff by done. split.
  - intros [[HA HM]|(c & Hc & H)].
    + exists (M, k). split; [left|]. simpl. by rewrite Z.shiftr_spec.
    + exists c. split; [by right|done].
  - intros (c & Hc & HM & HA). apply elem_of_cons in Hc as [->|Hc].
    + left. simpl in *. by rewrite Z.shiftr_spec in HM.
    + right. eauto.
Qed.

Lemma fix_chunks_bit cs A i :
  Forall (λ c, in_u lw c.1 ∧ 0 ≤ c.2) cs → 0 ≤ i →
  Z.testbit (fix_chunks cs A) i = true ↔
  ∃ c, c ∈ cs ∧ Z.testbit c.1 i = true ∧ Z.testbit A (i - c.2) = true.
Proof using Hlw.
  intros Hcs Hi. induction Hcs as [|[M k] cs [HM Hk] Hcs IH]; cbn [fix_chunks].
  { rewrite Z.bits_0. split; [done|]. intros (c & Hc & _). by apply elem_of_nil in Hc. }
  simpl in HM, Hk.
  rewrite Z.lor_spec, orb_true_iff, IH, Z.land_spec, wrapu_testbit, Z.shiftl_spec by done.
  rewrite !andb_true_iff, bool_decide_eq_true. split.
  - intros [[[_ HA] HMi]|(c & Hc & H)].
    + exists (M, k). split; [left|done].
    + exists c. split; [by right|done].
  - intros (c & Hc & HMi & HA). apply elem_of_cons in Hc as [->|Hc]; [|right; eauto].
    left. simpl in *. split; [|done]. split; [|done].
    destruct (decide (i < lw)); [done|]. by rewrite (in_u_testbit_high lw Hlw M) in HMi by (done || lia).
Qed.

Lemma union_masks_bit ms i :
  Z.testbit (union_masks ms) i = true ↔ ∃ m, m ∈ ms ∧ Z.testbit m i = true.
Proof using Type.
  induction ms as [|m ms IH]; cbn.
  { rewrite Z.bits_0. split; [done|]. intros (c & Hc & _). by apply elem_of_nil in Hc. }
  rewrite Z.lor_spec, orb_true_iff, IH. split.
  - intros [H|(m' & ? & ?)]; [exists m; split; [left|done]|exists m'; split; [by right|done]].
  - intros (m' & [->|Hm]%elem_of_cons & H); [by left|right; eauto].
Qed.

(** In a table of disjoint masks, a bit belongs to one entry only. *)
Lemma disjoint_masks_bit {X} (f : X → Z) xs x y i :
  disjoint_masks (f <$> xs) → x ∈ xs → y ∈ xs →
  Z.testbit (f x) i = true → Z.testbit (f y) i = true → x = y.
Proof using Type.
  intros Hd Hx Hy Hi Hj. induction xs as [|z xs IH]; [by apply elem_of_nil in Hx|].
  cbn in Hd. destruct Hd as [Hz Hd].
  assert (∀ w, w ∈ xs → Z.testbit (f z) i = true → Z.testbit (f w) i = true → False) as Hno.
  { intros w Hw H1 H2. rewrite Forall_forall in Hz.
    assert (Z.testbit (f z .& f w) i = true) as H3 by (by rewrite Z.land_spec, H1, H2).
    rewrite (Hz (f w)), Z.bits_0 in H3; [done|]. by apply in_fmap. }
  apply elem_of_cons in Hx as [->|Hx], Hy as [->|Hy]; eauto; exfalso; eauto.
Qed.

Lemma chunks_ok_moves cs : chunks_ok cs → Forall (λ c, 0 ≤ c.2) cs.
Proof using Type. intros (H & _). eapply Forall_impl; [exact H|]. by intros c (_ & ? & _). Qed.

Lemma chunks_ok_ranges cs : chunks_ok cs → Forall (λ c, in_u lw c.1 ∧ 0 ≤ c.2) cs.
Proof using Type. intros (H & _). eapply Forall_impl; [exact H|]. by intros c (? & ? & _). Qed.

Lemma chunks_ok_shift cs c i :
  chunks_ok cs → c ∈ cs → Z.testbit c.1 i = true →
  c.2 ≤ i ∧ Z.testbit (c.1 ≫ c.2) (i - c.2) = true.
Proof using Type.
  intros [Hcs _] Hc Hi. rewrite Forall_forall in Hcs. destruct (Hcs c Hc) as (_ & Hk & E).
  destruct (decide (i < 0)); [by rewrite Z.testbit_neg_r in Hi by lia|].
  rewrite <- E, Z.shiftl_spec in Hi by lia.
  destruct (decide (i < c.2)); [by rewrite Z.testbit_neg_r in Hi by lia|]. split; [lia|done].
Qed.

Lemma fix_get_chunks cs A :
  chunks_ok cs → fix_chunks cs (get_chunks cs A) = A .& union_masks (fst <$> cs).
Proof using Hlw.
  intros Hok. pose proof Hok as (Hcs & Hd1 & Hd2).
  pose proof (chunks_ok_moves cs Hok) as Hk. pose proof (chunks_ok_ranges cs Hok) as Hk'.
  zbits i. apply Bool.eq_iff_eq_true.
  rewrite fix_chunks_bit by done.
  rewrite Z.land_spec, andb_true_iff, union_masks_bit. split.
  - intros (c & Hc & HM & Hg). destruct (chunks_ok_shift cs c i Hok Hc HM) as [Hge HMs].
    apply get_chunks_bit in Hg as (c' & Hc' & HM' & HA); [|done|lia].
    assert (c' = c) as -> by (eapply (disjoint_masks_bit (λ c, c.1 ≫ c.2)); eauto).
    replace (i - c.2 + c.2) with i in HA by lia. split; [done|].
    exists c.1. split; [by apply in_fmap|done].
  - intros (HA & m & Hm & HMi). apply list_elem_of_fmap in Hm as (c & -> & Hc).
    destruct (chunks_ok_shift cs c i Hok Hc HMi) as [Hge HMs].
    exists c. split_and!; [done..|]. apply get_chunks_bit; [done|lia|].
    exists c. split_and!; [done..|]. by replace (i - c.2 + c.2) with i by lia.
Qed.

Lemma get_fix_chunks cs A :
  chunks_ok cs → get_chunks cs (fix_chunks cs A) = A .& union_masks ((λ c, c.1 ≫ c.2) <$> cs).
Proof using Hlw.
  intros Hok. pose proof Hok as (Hcs & Hd1 & Hd2).
  pose proof (chunks_ok_moves cs Hok) as Hk. pose proof (chunks_ok_ranges cs Hok) as Hk'.
  zbits i. apply Bool.eq_iff_eq_true. rewrite get_chunks_bit by done.
  rewrite Z.land_spec, andb_true_iff, union_masks_bit. split.
  - intros (c & Hc & HM & Hf). rewrite Forall_forall in Hk.
    apply fix_chunks_bit in Hf as (c' & Hc' & HM' & HA); [|done|specialize (Hk c Hc); lia].
    rewrite Z.shiftr_spec in HM by done.
    assert (c' = c) as -> by (eapply (disjoint_masks_bit fst); eauto).
    replace (i + c.2 - c.2) with i in HA by lia. split; [done|].
    exists (c.1 ≫ c.2). split; [by apply (in_fmap (λ c, c.1 ≫ c.2))|].
    by rewrite Z.shiftr_spec.
  - intros (HA & m & Hm & HMi). apply list_elem_of_fmap in Hm as (c & -> & Hc).
    exists c. split_and!; [done..|]. rewrite Forall_forall in Hk. specialize (Hk c Hc).
    apply fix_chunks_bit; [done|lia|]. exists c. rewrite Z.shiftr_spec in HMi by done.
    split_and!; [done..|]. by replace (i + c.2 - c.2) with i by lia.
Qed.
End chunks.

#[global] Instance disjoint_masks_dec ms : Decision (disjoint_masks ms).
Proof. induction ms; cbn; apply _. Defined.
#[global] Instance chunks_ok_dec lw cs : Decision (chunks_ok lw cs).
Proof. unfold chunks_ok. apply _. Defined.

(** ** The tables of sql_acl.h *)

Definition db_chunks : list (Z * Z) :=
  [(Acl.DB_CHUNK0, 0); (Acl.DB_CHUNK1, 4); (Acl.DB_CHUNK2, 6); (Acl.DB_CHUNK3, 9);
   (Acl.DB_CHUNK4, 2); (Acl.DB_CHUNK5, 9); (Acl.DB_CHUNK6, 10)].
Definition table_chunks : list (Z * Z) :=
  [(Acl.TBL_CHUNK0, 0); (Acl.TBL_CHUNK1, 4); (Acl.TBL_CHUNK2, 11); (Acl.TBL_CHUNK3, 15);
   (Acl.TBL_CHUNK4, 16)].
Definition procedure_chunks : list (Z * Z) :=
  [(Acl.EXECUTE_ACL, 18); (Acl.ALTER_PROC_ACL, 23); (Acl.GRANT_ACL, 8)].

(** A table that is well formed for 32-bit words is well formed for wider ones. *)
Lemma chunks_ok_mono lw cs : 32 ≤ lw → chunks_ok 32 cs → chunks_ok lw cs.
Proof.
  intros Hlw (H & Hd). split; [|done]. eapply Forall_impl; [exact H|].
  intros c ([? ?] & ? & ?). split_and!; try done; unfold in_u in *.
  - assert (2 ^ 32 ≤ 2 ^ lw) by (apply Z.pow_le_mono_r; lia). lia.
Qed.

Lemma db_chunks_ok lw : 32 ≤ lw → chunks_ok lw db_chunks.
Proof. intros H. apply chunks_ok_mono; [done|]. apply (bool_decide_unpack _). by vm_compute. Qed.
Lemma table_chunks_ok lw : 32 ≤ lw → chunks_ok lw table_chunks.
Proof. intros H. apply chunks_ok_mono; [done|]. apply (bool_decide_unpack _). by vm_compute. Qed.
Lemma procedure_chunks_ok lw : 32 ≤ lw → chunks_ok lw procedure_chunks.
Proof. intros H. apply chunks_ok_mono; [done|]. apply (bool_decide_unpack _). by vm_compute. Qed.

Lemma get_db_chunks A : Acl.get_rights_for_db A = get_chunks db_chunks A.
Proof.
  unfold Acl.get_rights_for_db. cbn [get_chunks db_chunks].
  by rewrite Z.shiftr_0_r, Z.lor_0_r, <- !Z.lor_assoc.
Qed.

Lemma fix_db_chunks lw A : in_u lw A → Acl.fix_rights_for_db lw A = fix_chunks lw db_chunks A.
Proof.
  intros HA. unfold Acl.fix_rights_for_db. cbn [fix_chunks db_chunks].
  by rewrite Z.shiftl_0_r, (wrapu_small lw A), Z.lor_0_r, <- !Z.lor_assoc.
Qed.

Lemma get_table_chunks A : Acl.get_rights_for_table A = get_chunks table_chunks A.
Proof.
  unfold Acl.get_rights_for_table. cbn [get_chunks table_chunks].
  by rewrite Z.shiftr_0_r, Z.lor_0_r, <- !Z.lor_assoc.
Qed.

Lemma fix_table_chunks lw A :
  in_u lw A → Acl.fix_rights_for_table lw A = fix_chunks lw table_chunks A.
Proof.
  intros HA. unfold Acl.fix_rights_for_table. cbn [fix_chunks table_chunks].
  by rewrite Z.shiftl_0_r, (wrapu_small lw A), Z.lor_0_r, <- !Z.lor_assoc.
Qed.

Lemma get_procedure_chunks A : Acl.get_rights_for_procedure A = get_chunks procedure_chunks A.
Proof.
  unfold Acl.get_rights_for_procedure. cbn [get_chunks procedure_chunks].
  by rewrite Z.lor_0_r, <- !Z.lor_assoc.
Qed.

Lemma fix_procedure_chunks lw A :
  Acl.fix_rights_for_procedure lw A = fix_chunks lw procedure_chunks A.
Proof.
  unfold Acl.fix_rights_for_procedure. cbn [fix_chunks procedure_chunks].
  by rewrite Z.lor_0_r, <- !Z.lor_assoc.
Qed.

Lemma get_chunks_range lw cs A :
  chunks_ok lw cs → 0 ≤ lw → in_u lw (get_chunks cs A).
Proof.
  intros (Hcs & _) Hlw. revert Hcs. induction cs as [|[M k] cs IH]; intros Hcs; cbn [get_chunks].
  { unfold in_u. split; [done|]. apply Z.pow_pos_nonneg; lia. }
  apply Forall_cons_1 in Hcs as [(HM & Hk & _) Hcs]. simpl in *.
  apply in_u_lor; [done| |by apply IH].
  assert (in_u lw (A .& M)) as HAM.
  { rewrite Z.land_comm. destruct (decide (0 ≤ A)); [by apply in_u_land|].
    rewrite <- (wrapu_small lw M HM). replace (wrapu lw M .& A) with (wrapu lw (M .& A)).
    - by apply wrapu_range.
    - zbits i. rewrite Z.land_spec, !wrapu_testbit, Z.land_spec by done. by rewrite andb_assoc. }
  unfold in_u in *. rewrite Z.shiftr_div_pow2 by done.
  assert (0 < 2 ^ k) by (apply Z.pow_pos_nonneg; lia).
  split; [apply Z.div_pos; lia|]. eapply Z.le_lt_trans; [|apply HAM].
  apply Z.div_le_upper_bound; nia.
Qed.

(** Database privileges: unpacking what [get_rights_for_db] packs gives
    back exactly the database-level privileges of the mask, and packing what
    [fix_rights_for_db] unpacks gives back the 20 stored bits.  In particular
    no two privileges share a stored bit and [DB_ACLS] is exactly the set that
    survives. *)
Theorem db_rights_roundtrip lw A :
  32 ≤ lw → in_u lw A →
  Acl.fix_rights_for_db lw (Acl.get_rights_for_db A) = A .& Acl.DB_ACLS ∧
  Acl.get_rights_for_db (Acl.fix_rights_for_db lw A) = A .& Z.ones 20.
Proof.
  intros Hlw HA. pose proof (db_chunks_ok lw Hlw) as Hok.
  rewrite !get_db_chunks, !fix_db_chunks by (done || (apply get_chunks_range; [done|lia])).
  rewrite fix_get_chunks, get_fix_chunks by (done || lia). split; reflexivity.
Qed.

Lemma db_rights_roundtrip_witness :
  Acl.get_rights_for_db (Acl.fix_rights_for_db 32 0xFFFFFFFF) = 0xFFFFF.
Proof.
  destruct (db_rights_roundtrip 32 0xFFFFFFFF) as [_ E]; [lia | vm_compute; split; congruence|].
  rewrite E. reflexivity.
Defined.

(** Table and routine privileges: the same two round trips, with
    [TABLE_ACLS] (14 stored bits) and [PROC_ACLS] (3 stored bits). *)
Theorem table_procedure_rights_roundtrip lw A :
  32 ≤ lw → in_u lw A →
  Acl.fix_rights_for_table lw (Acl.get_rights_for_table A) = A .& Acl.TABLE_ACLS ∧
  Acl.get_rights_for_table (Acl.fix_rights_for_table lw A) = A .& Z.ones 14 ∧
  Acl.fix_rights_for_procedure lw (Acl.get_rights_for_procedure A) = A .& Acl.PROC_ACLS ∧
  Acl.get_rights_for_procedure (Acl.fix_rights_for_procedure lw A) = A .& Z.ones 3.
Proof.
  intros Hlw HA. pose proof (table_chunks_ok lw Hlw). pose proof (procedure_chunks_ok lw Hlw).
  rewrite !get_table_chunks, !fix_table_chunks, !get_procedure_chunks, !fix_procedure_chunks
    by (done || (apply get_chunks_range; [done|lia])).
  rewrite !fix_get_chunks, !get_fix_chunks by (done || lia). split_and!; reflexivity.
Qed.

Lemma table_procedure_rights_roundtrip_witness :
  Acl.fix_rights_for_procedure 64 (Acl.get_rights_for_procedure Acl.GLOBAL_ACLS) = Acl.PROC_ACLS.
Proof.
  destruct (table_procedure_rights_roundtrip 64 Acl.GLOBAL_ACLS) as (_ & _ & E & _);
    [lia | vm_compute; split; congruence | rewrite E; reflexivity].
Defined.

Lemma low3_bit x i : 0 ≤ i → Z.testbit (x .& 7) i = bool_decide (i < 3) && Z.testbit x i.
Proof.
  intros Hi. change 7 with (Z.ones 3). rewrite Z.land_ones by lia. by apply (wrapu_testbit 3).
Qed.

Lemma get_column_bit A i :
  0 ≤ i → Z.testbit (Acl.get_rights_for_column A) i
          = bool_decide (i < 3) && Z.testbit A i || Z.testbit A (i + 8).
Proof.
  intros Hi. unfold Acl.get_rights_for_column. by rewrite Z.lor_spec, low3_bit, Z.shiftr_spec by lia.
Qed.

Lemma not7_bit lw j : 3 ≤ lw → Z.testbit (wrapu lw (Z.lnot 7)) j = bool_decide (3 ≤ j < lw).
Proof.
  intros Hlw. rewrite wrapu_testbit by lia. destruct (decide (j < 0)).
  { rewrite (Z.testbit_neg_r _ j), andb_false_r by lia. by rewrite bool_decide_eq_false_2 by lia. }
  rewrite Z.lnot_spec by lia. change 7 with (Z.ones 3). destruct (decide (j < 3)).
  - rewrite Z.ones_spec_low, andb_false_r by lia. by rewrite bool_decide_eq_false_2 by lia.
  - rewrite Z.ones_spec_high, andb_true_r by lia. apply bool_decide_ext. lia.
Qed.

Lemma fix_column_bit lw A i :
  3 ≤ lw → 0 ≤ i →
  Z.testbit (Acl.fix_rights_for_column lw A) i
  = bool_decide (i < 3) && Z.testbit A i || bool_decide (11 ≤ i < lw) && Z.testbit A (i - 8).
Proof.
  intros Hlw Hi. unfold Acl.fix_rights_for_column.
  rewrite Z.lor_spec, low3_bit, wrapu_testbit, Z.shiftl_spec, Z.land_spec, not7_bit by lia.
  f_equal. rewrite (andb_comm (Z.testbit A _)), andb_assoc. f_equal.
  repeat case_bool_decide; done || lia.
Qed.

Lemma col_acls_bit j : Z.testbit Acl.COL_ACLS j = bool_decide (0 ≤ j < 3 ∨ j = 11).
Proof.
  change Acl.COL_ACLS with (Z.ones 3 .| (1 ≪ 11)).
  destruct (decide (j < 0)).
  { rewrite Z.testbit_neg_r by lia. by rewrite bool_decide_eq_false_2 by lia. }
  rewrite Z.lor_spec, Z.shiftl_1_l, Z.pow2_bits_eqb by lia. destruct (decide (j < 3)).
  - rewrite Z.ones_spec_low by lia. by rewrite bool_decide_eq_true_2 by lia.
  - rewrite Z.ones_spec_high by lia. destruct (Z.eqb_spec 11 j);
      [by rewrite bool_decide_eq_true_2 by lia|by rewrite bool_decide_eq_false_2 by lia].
Qed.

(** Column privileges: a mask of column privileges survives the round trip
    through the stored layout, and a stored value that fits comes back
    unchanged.  Outside [COL_ACLS] packing is not injective: [PROCESS_ACL]
    packs to the stored [SELECT] bit. *)
Theorem column_rights_roundtrip lw A :
  32 ≤ lw → 0 ≤ A →
  (A .& Acl.COL_ACLS = A → Acl.fix_rights_for_column lw (Acl.get_rights_for_column A) = A) ∧
  (A < 2 ^ (lw - 8) → Acl.get_rights_for_column (Acl.fix_rights_for_column lw A) = A) ∧
  Acl.get_rights_for_column Acl.PROCESS_ACL = Acl.get_rights_for_column Acl.SELECT_ACL.
Proof.
  intros Hlw HA. split_and!; [| |done].
  - intros E.
    assert (∀ j, ¬ (0 ≤ j < 3 ∨ j = 11) → Z.testbit A j = false) as Hout.
    { intros j Hj. by rewrite <- E, Z.land_spec, col_acls_bit, bool_decide_eq_false_2, andb_false_r. }
    zbits i. rewrite fix_column_bit by lia. destruct (decide (i < 11)).
    + rewrite (bool_decide_eq_false_2 (11 ≤ i < lw)), orb_false_r by lia.
      case_bool_decide; [|symmetry; apply Hout; lia].
      rewrite get_column_bit, (Hout (i + 8)), orb_false_r by lia.
      by rewrite bool_decide_eq_true_2.
    + rewrite (get_column_bit _ (i - 8)) by lia. replace (i - 8 + 8) with i by lia.
      rewrite (bool_decide_eq_false_2 (i < 3)), (bool_decide_eq_false_2 (i - 8 < 3)) by lia. simpl.
      case_bool_decide; [done|]. symmetry. apply Hout. lia.
  - intros Hlt. zbits i. rewrite get_column_bit, !fix_column_bit by lia.
    replace (i + 8 - 8) with i by lia. destruct (decide (i < 3)).
    + rewrite (bool_decide_eq_true_2 (i < 3)), (bool_decide_eq_false_2 (i + 8 < 3)) by lia.
      rewrite (bool_decide_eq_false_2 (11 ≤ i < lw)), (bool_decide_eq_false_2 (11 ≤ i + 8 < lw)) by lia.
      simpl. by rewrite !orb_false_r.
    + rewrite (bool_decide_eq_false_2 (i < 3)), (bool_decide_eq_false_2 (i + 8 < 3)) by lia. simpl.
      case_bool_decide; [done|]. symmetry. apply (in_u_testbit_high (lw - 8)); [lia|done|lia].
Qed.

Lemma column_rights_roundtrip_witness :
  Acl.fix_rights_for_column 32 (Acl.get_rights_for_column (Acl.SELECT_ACL .| Acl.REFERENCES_ACL))
  = (Acl.SELECT_ACL .| Acl.REFERENCES_ACL).
Proof.
  apply (column_rights_roundtrip 32 (Acl.SELECT_ACL .| Acl.REFERENCES_ACL)); [lia | | reflexivity].
  vm_compute; congruence.
Defined.

(** The stored bit of each database privilege is the position, counted from
    the first privilege column, of the column of [mysql.db] that holds it. *)
Theorem db_privilege_column f p :
  field_privilege f = Some p →
  Acl.get_rights_for_db p
  = 1 ≪ (Acl.field_index f - Acl.field_index Acl.MYSQL_DB_FIELD_SELECT_PRIV).
Proof. destruct f; intros [= <-]; reflexivity. Qed.

Lemma db_privilege_column_witness : Acl.get_rights_for_db Acl.EVENT_ACL = 1 ≪ 17.
Proof. apply (db_privilege_column Acl.MYSQL_DB_FIELD_EVENT_PRIV). reflexivity. Defined.
