(* ===== verification/SqlList.v ===== *)
(** * Pointer lists: the base_list family of sql_list.h

    The store has the nodes, by address, and the list headers, by identity.  A
    [list_node**] is the address of a header's [first] member or of a node's
    [next] member; dereferencing an address that holds no object has no
    result.  [rep] is the representation invariant; the theorems say that each
    operation refines the corresponding operation on lists of elements. *)

From S2P Require Import Prelude.
From Stdlib Require Import ZArith Lia.
From stdpp Require Import base numbers list gmap fin_maps option sorting.
Open Scope Z_scope.
Open Scope cint_scope.

Module BaseList.

Abbreviation NULL := 0%N.
(** The address of the global [end_of_list] node. *)
Abbreviation END := 1%N.

Record list_node := ListNode { next : N; info : N }.

(** A [list_node**]. *)
Inductive node_ref :=
  | FirstOf (l : nat)
  | NextOf (a : N).

Record base_list := Header { first : N; last : node_ref; elements : Z }.

Record store := Store { nodes : gmap N list_node; lists : gmap nat base_list }.

#[global] Instance node_ref_eq_dec : EqDecision node_ref.
Proof. solve_decision. Defined.
#[global] Instance list_node_eq_dec : EqDecision list_node.
Proof. solve_decision. Defined.
#[global] Instance base_list_eq_dec : EqDecision base_list.
Proof. solve_decision. Defined.

(** ** Memory accesses *)

Definition set_node (s : store) (a : N) (n : list_node) : store :=
  Store (<[a := n]> (nodes s)) (lists s).
Definition set_list (s : store) (l : nat) (L : base_list) : store :=
  Store (nodes s) (<[l := L]> (lists s)).

(** [*r] *)
Definition load (s : store) (r : node_ref) : option N :=
  match r with
  | FirstOf l => first <$> lists s !! l
  | NextOf a => next <$> nodes s !! a
  end.

(** [*r= v] *)
Definition assign (s : store) (r : node_ref) (v : N) : option store :=
  match r with
  | FirstOf l => L ← lists s !! l; Some (set_list s l (Header v (last L) (elements L)))
  | NextOf a => n ← nodes s !! a; Some (set_node s a (ListNode v (info n)))
  end.

(** [new list_node(info, next)]: the address is the allocator's answer, and
    [None] is a failed allocation. *)
Definition new_node (s : store) (alloc : option N) (inf nxt : N) : store :=
  match alloc with
  | Some a => set_node s a (ListNode nxt inf)
  | None => s
  end.

(** ** base_list *)

Definition operator_eq (s : store) (l rhs : nat) : option bool :=
  L ← lists s !! l; R ← lists s !! rhs;
  Some (bool_decide (elements L = elements R) && bool_decide (first L = first R)
        && bool_decide (last L = last R)).

Definition operator_assign (s : store) (l rhs : nat) : option store :=
  R ← lists s !! rhs;
  Some (set_list s l (Header (first R)
          (if decide (elements R ≠ 0) then last R else FirstOf l) (elements R))).

Definition empty (s : store) (l : nat) : store := set_list s l (Header END (FirstOf l) 0).

Definition is_empty (s : store) (l : nat) : option bool :=
  L ← lists s !! l; Some (bool_decide (first L = END)).

Definition push_back (s : store) (l : nat) (inf : N) (alloc : option N) : option (store * bool) :=
  L ← lists s !! l;
  let s := new_node s alloc inf END in
  s ← assign s (last L) (default NULL alloc);
  match alloc with
  | Some a =>
      L ← lists s !! l;
      Some (set_list s l (Header (first L) (NextOf a) (u32 (elements L + 1))), false)
  | None => Some (s, true)
  end.

Definition push_front_impl (s : store) (l : nat) (node : N) : option (store * bool) :=
  if decide (node ≠ NULL) then
    L ← lists s !! l;
    let lst := if decide (last L = FirstOf l) then NextOf node else last L in
    Some (set_list s l (Header node lst (u32 (elements L + 1))), false)
  else Some (s, true).

Definition push_front (s : store) (l : nat) (inf : N) (alloc : option N) : option (store * bool) :=
  L ← lists s !! l;
  push_front_impl (new_node s alloc inf (first L)) l (default NULL alloc).

Definition remove (s : store) (l : nat) (prev : node_ref) : option store :=
  a ← load s prev;
  n ← nodes s !! a;
  let node := next n in
  L ← lists s !! l;
  let e := u32 (elements L - 1) in
  let lst := if decide (e = 0) then FirstOf l
             else if decide (last L = NextOf a) then prev else last L in
  let s := set_list s l (Header (first L) lst e) in
  let s := Store (delete a (nodes s)) (lists s) in
  assign s prev node.

Definition append (s : store) (l l2 : nat) : option store :=
  e2 ← is_empty s l2;
  if e2 : bool then Some s else
  e ← is_empty s l;
  if e : bool then operator_assign s l l2 else
  L ← lists s !! l; L2 ← lists s !! l2;
  s ← assign s (last L) (first L2);
  L ← lists s !! l;
  Some (set_list s l (Header (first L) (last L2) (u32 (elements L + elements L2)))).

Definition pop (s : store) (l : nat) : option (store * N) :=
  L ← lists s !! l;
  if decide (first L = END) then Some (s, NULL) else
  n ← nodes s !! first L;
  let e := u32 (elements L - 1) in
  let lst := if decide (e = 0) then FirstOf l else last L in
  Some (set_list s l (Header (next n) lst e), info n).

(** The loop of [disjoin]: [Some (prev, elements)] with the flag of the early
    return. *)
Fixpoint disjoin_loop (fuel : nat) (s : store) (list_first : N) (prev : node_ref) (node : N)
    (e : Z) : option (bool * node_ref * Z) :=
  match fuel with
  | O => None
  | S fuel =>
      if decide (node ≠ END ∧ node ≠ list_first) then
        n ← nodes s !! node;
        let e := u32 (e + 1) in
        if decide (next n = END) then Some (true, NextOf node, e)
        else disjoin_loop fuel s list_first (NextOf node) (next n) e
      else Some (false, prev, e)
  end.

Definition disjoin (fuel : nat) (s : store) (l l2 : nat) : option store :=
  L ← lists s !! l; L2 ← lists s !! l2;
  '(returned, prev, e) ← disjoin_loop fuel s (first L2) (FirstOf l) (first L) 0;
  let s := set_list s l (Header (first L) (last L) e) in
  if returned : bool then Some s else
  s ← assign s prev END;
  L ← lists s !! l;
  Some (set_list s l (Header (first L) prev (elements L))).

Definition prepend (s : store) (l l2 : nat) : option store :=
  e2 ← is_empty s l2;
  if e2 : bool then Some s else
  e ← is_empty s l;
  L ← lists s !! l; L2 ← lists s !! l2;
  let lst := if e : bool then last L2 else last L in
  let s := set_list s l (Header (first L) lst (elements L)) in
  s ← assign s (last L2) (first L);
  L ← lists s !! l; L2 ← lists s !! l2;
  Some (set_list s l (Header (first L2) (last L) (u32 (elements L + elements L2)))).

Definition swap (s : store) (l r : nat) : option store :=
  L ← lists s !! l; R ← lists s !! r;
  let rhs_last := last R in
  let rlast := if decide (last L = FirstOf l) then FirstOf r else last L in
  let llast := if decide (rhs_last = FirstOf r) then FirstOf l else rhs_last in
  let s := set_list s r (Header (first L) rlast (elements L)) in
  Some (set_list s l (Header (first R) llast (elements R))).

Definition head (s : store) (l : nat) : option N :=
  L ← lists s !! l; info <$> nodes s !! first L.

Fixpoint add_unique_loop (fuel : nat) (s : store) (eq : N → N → bool) (inf node : N) : option N :=
  match fuel with
  | O => None
  | S fuel =>
      if decide (node = END) then Some node else
      n ← nodes s !! node;
      if eq (info n) inf then Some node else add_unique_loop fuel s eq inf (next n)
  end.

Definition add_unique (fuel : nat) (s : store) (l : nat) (inf : N) (eq : N → N → bool)
    (alloc : option N) : option (store * bool) :=
  L ← lists s !! l;
  node ← add_unique_loop fuel s eq inf (first L);
  if decide (node = END) then push_back s l inf alloc else Some (s, true).

Fixpoint elem_loop (k : nat) (s : store) (node data : N) : option N :=
  match k with
  | O => Some data
  | S k => if decide (node = END) then Some NULL
           else n ← nodes s !! node; elem_loop k s (next n) (info n)
  end.

(** [for (i= 0; i <= n; i++)]: [n + 1] iterations. *)
Definition elem (s : store) (l : nat) (n : nat) : option N :=
  L ← lists s !! l; elem_loop (S n) s (first L) NULL.

Fixpoint check_list_loop (fuel : nat) (s : store) (node : N) (cnt : Z) : option (bool * N * Z) :=
  match fuel with
  | O => None
  | S fuel =>
      n ← nodes s !! node;
      if decide (next n = END) then Some (true, node, cnt)
      else if decide (info n = NULL) then Some (false, node, cnt)
      else check_list_loop fuel s (next n) (u32 (cnt + 1))
  end.

Definition check_list (fuel : nat) (s : store) (l : nat) : option bool :=
  L ← lists s !! l;
  '(ok, node, cnt) ← check_list_loop fuel s (first L) 0;
  Some (ok && bool_decide (last L = NextOf node) && bool_decide (u32 (cnt + 1) = elements L)).

(** [after(info, node)]: the code does not test the result of [new]. *)
Definition after (s : store) (l : nat) (inf node : N) (alloc : option N) : option store :=
  n ← nodes s !! node;
  let s := new_node s alloc inf (next n) in
  s ← assign s (NextOf node) (default NULL alloc);
  L ← lists s !! l;
  let lst := if decide (last L = NextOf node) then NextOf (default NULL alloc) else last L in
  Some (set_list s l (Header (first L) lst (u32 (elements L + 1)))).

(** [List<T>::delete_elements]: the elements destroyed, in order. *)
Fixpoint delete_elements_loop (fuel : nat) (s : store) (element : N) : option (list N) :=
  match fuel with
  | O => None
  | S fuel =>
      if decide (element = END) then Some [] else
      n ← nodes s !! element;
      r ← delete_elements_loop fuel s (next n); Some (info n :: r)
  end.

Definition delete_elements (fuel : nat) (s : store) (l : nat) : option (store * list N) :=
  L ← lists s !! l;
  ds ← delete_elements_loop fuel s (first L);
  Some (empty s l, ds).

(** ** base_list_iterator *)

Record iterator := Iter { it_list : nat; el : node_ref; prev : option node_ref; current : N }.

Definition it_init (l : nat) : iterator := Iter l (FirstOf l) None NULL.

Definition it_next (s : store) (it : iterator) : option (iterator * N) :=
  cur ← load s (el it);
  n ← nodes s !! cur;
  Some (Iter (it_list it) (NextOf cur) (Some (el it)) cur, info n).

Definition it_peek (s : store) (it : iterator) : option N :=
  cur ← load s (el it); info <$> nodes s !! cur.

Definition it_next_fast (s : store) (it : iterator) : option (iterator * N) :=
  tmp ← load s (el it);
  n ← nodes s !! tmp;
  Some (Iter (it_list it) (NextOf tmp) (prev it) (current it), info n).

Definition it_rewind (it : iterator) : iterator :=
  Iter (it_list it) (FirstOf (it_list it)) (prev it) (current it).

Definition it_replace (s : store) (it : iterator) (element : N) : option (store * N) :=
  n ← nodes s !! current it;
  Some (set_node s (current it) (ListNode (next n) element), info n).

Definition it_replace_list (s : store) (it : iterator) (new_list : nat) : option (store * N) :=
  n ← nodes s !! current it;
  let ret_value := info n in
  e ← is_empty s new_list;
  if e : bool then Some (s, ret_value) else
  NL ← lists s !! new_list;
  s ← assign s (last NL) (next n);
  NL ← lists s !! new_list;
  f ← nodes s !! first NL;
  let s := set_node s (current it) (ListNode (next f) (info f)) in
  L ← lists s !! it_list it;
  let lst := if decide (last L = NextOf (current it) ∧ 1 < elements NL) then last NL else last L in
  Some (set_list s (it_list it) (Header (first L) lst (u32 (elements L + (elements NL - 1)))),
        ret_value).

Definition it_remove (s : store) (it : iterator) : option (store * iterator) :=
  p ← prev it;
  s ← remove s (it_list it) p;
  Some (s, Iter (it_list it) p (prev it) NULL).

Definition it_after (s : store) (it : iterator) (element : N) (alloc : option N)
    : option (store * iterator) :=
  s ← after s (it_list it) element (current it) alloc;
  n ← nodes s !! current it;
  Some (s, Iter (it_list it) (NextOf (next n)) (prev it) (next n)).

Definition it_is_last (it : iterator) : bool := bool_decide (el it = NextOf END).
Definition it_at_end (it : iterator) : bool := bool_decide (current it = END).

Definition it_sublist (s : store) (it : iterator) (ls : nat) (elm : Z) : option store :=
  f ← load s (el it);
  L ← lists s !! it_list it;
  Some (set_list s ls (Header f (last L) (u32 elm))).

(** [list_copy_and_replace_each_value]: [while ((el= it++)) it.replace(clone(el))]. *)
Fixpoint copy_values_loop (fuel : nat) (clone : N → N) (s : store) (it : iterator) : option store :=
  match fuel with
  | O => None
  | S fuel =>
      '(it, e) ← it_next s it;
      if decide (e = NULL) then Some s else
      '(s, _) ← it_replace s it (clone e);
      copy_values_loop fuel clone s it
  end.

Definition list_copy_and_replace_each_value (fuel : nat) (clone : N → N) (s : store) (l : nat)
    : option store := copy_values_loop fuel clone s (it_init l).

(** ** bubble_sort *)

(** [*ref= v] for a reference [&node->info]. *)
Definition set_info (s : store) (a v : N) : option store :=
  n ← nodes s !! a; Some (set_node s a (ListNode (next n) v)).

(** The inner loop: [ref1] and [last_ref] are the nodes whose [info] the C
    references designate ([NULL] for the null reference). *)
Fixpoint bubble_pass (fuel : nat) (sort_func : N → N → Z) (s : store) (it : iterator)
    (item1 ref1 last_ref : N) (swapped : bool) : option (store * iterator * N * bool) :=
  match fuel with
  | O => None
  | S fuel =>
      '(it, item2) ← it_next s it;
      if decide (item2 = NULL) then Some (s, it, ref1, swapped) else
      let ref2 := current it in
      if decide (ref2 = last_ref) then Some (s, it, ref1, swapped) else
      if decide (0 < sort_func item1 item2) then
        s ← set_info s ref1 item2;
        s ← set_info s ref2 item1;
        bubble_pass fuel sort_func s it item1 ref2 last_ref true
      else bubble_pass fuel sort_func s it item2 ref2 last_ref swapped
  end.

Fixpoint bubble_loop (fuel pass_fuel : nat) (sort_func : N → N → Z) (s : store) (it : iterator)
    (ref1 : N) : option store :=
  match fuel with
  | O => None
  | S fuel =>
      let last_ref := ref1 in
      '(it, item1) ← it_next s it;
      let ref1 := current it in
      '(s, it, ref1, swapped) ← bubble_pass pass_fuel sort_func s it item1 ref1 last_ref false;
      let it := it_rewind it in
      if swapped : bool then bubble_loop fuel pass_fuel sort_func s it ref1 else Some s
  end.

Definition bubble_sort (fuel : nat) (sort_func : N → N → Z) (s : store) (l : nat) : option store :=
  bubble_loop fuel fuel sort_func s (it_init l) NULL.

End BaseList.

(** ** Representation *)

Section rep.
Import BaseList.

(** The nodes [ps] (address, element) are linked in order and the last one
    points to [q]. *)
Fixpoint seg (h : gmap N list_node) (ps : list (N * N)) (q : N) : Prop :=
  match ps with
  | [] => True
  | (a, x) :: ps => h !! a = Some (ListNode (hd_addr ps.*1 q) x) ∧ seg h ps q
  end.

(** The address of the pointer that designates what follows [ps]. *)
Definition last_of (l : nat) (ps : list (N * N)) : node_ref :=
  match list.last ps with Some (a, _) => NextOf a | None => FirstOf l end.

Definition end_ok (s : store) : Prop := nodes s !! END = Some (ListNode END NULL).

(** [list_nodes ps] : the addresses are distinct, real nodes. *)
Definition nodes_ok (ps : list (N * N)) : Prop :=
  NoDup ps.*1 ∧ Forall (λ a, a ≠ NULL ∧ a ≠ END) ps.*1.

Definition rep (s : store) (l : nat) (ps : list (N * N)) : Prop :=
  end_ok s ∧ nodes_ok ps ∧ seg (nodes s) ps END ∧
  lists s !! l = Some (Header (hd_addr ps.*1 END) (last_of l ps) (u32 (Z.of_nat (length ps)))).

(** What an operation on the list [l] whose nodes are among [A] leaves alone. *)
Definition frame (s s' : store) (l : nat) (A : list N) : Prop :=
  (∀ l', l' ≠ l → lists s' !! l' = lists s !! l') ∧
  (∀ a, a ∉ A → nodes s' !! a = nodes s !! a).

Lemma last_of_nil l : last_of l [] = FirstOf l.
Proof. done. Qed.

Lemma last_of_snoc l ps a x : last_of l (ps ++ [(a, x)]) = NextOf a.
Proof. unfold last_of. by rewrite last_snoc. Qed.

Lemma last_of_cons2 l a x ps : ps ≠ [] → last_of l ((a, x) :: ps) = last_of l ps.
Proof. intros H. unfold last_of. destruct ps as [|p ps]; [done|]. by rewrite last_cons_cons. Qed.

Lemma last_of_first l ps : last_of l ps = FirstOf l ↔ ps = [].
Proof.
  split; [|by intros ->]. destruct ps as [|p ps] using rev_ind; [done|]. destruct p.
  by rewrite last_of_snoc.
Qed.

Lemma seg_app h ps qs q : seg h (ps ++ qs) q ↔ seg h ps (hd_addr qs.*1 q) ∧ seg h qs q.
Proof.
  induction ps as [|[a x] ps IH]; simpl; [tauto|].
  rewrite IH, fmap_app, hd_addr_app. tauto.
Qed.

Lemma seg_frame h h' ps q :
  (∀ a, a ∈ ps.*1 → h' !! a = h !! a) → seg h ps q → seg h' ps q.
Proof.
  induction ps as [|[a x] ps IH]; simpl; [done|]. intros Hf [Ha Hs]. split.
  - by rewrite Hf by left.
  - apply IH; [|done]. intros b Hb. apply Hf. by right.
Qed.

Lemma seg_insert_ne h ps q a n : a ∉ ps.*1 → seg h ps q → seg (<[a := n]> h) ps q.
Proof.
  intros Ha. apply seg_frame. intros b Hb. apply lookup_insert_ne. intros ->. done.
Qed.

Lemma seg_delete_ne h ps q a : a ∉ ps.*1 → seg h ps q → seg (delete a h) ps q.
Proof.
  intros Ha. apply seg_frame. intros b Hb. apply lookup_delete_ne. intros ->. done.
Qed.

Lemma seg_lookup h ps q a x :
  seg h ps q → (a, x) ∈ ps → ∃ n, h !! a = Some (ListNode n x).
Proof.
  induction ps as [|[b y] ps IH]; intros Hs Hin; [by apply elem_of_nil in Hin|].
  destruct Hs as [Hb Hs]. apply elem_of_cons in Hin as [[= -> ->]|Hin]; eauto.
Qed.

Lemma nodes_ok_app ps qs :
  nodes_ok (ps ++ qs) ↔ nodes_ok ps ∧ nodes_ok qs ∧ (∀ a, a ∈ ps.*1 → a ∉ qs.*1).
Proof.
  unfold nodes_ok. rewrite fmap_app, NoDup_app, Forall_app. naive_solver.
Qed.

Lemma nodes_ok_cons a x ps :
  nodes_ok ((a, x) :: ps) ↔ a ≠ NULL ∧ a ≠ END ∧ a ∉ ps.*1 ∧ nodes_ok ps.
Proof.
  unfold nodes_ok. rewrite fmap_cons, NoDup_cons, Forall_cons. simpl. naive_solver.
Qed.

Lemma nodes_ok_nil : nodes_ok [].
Proof. split; constructor. Qed.

Lemma nodes_ok_notin_end ps : nodes_ok ps → END ∉ ps.*1.
Proof. intros [_ H] Hin. rewrite Forall_forall in H. by destruct (H _ Hin). Qed.

Lemma nodes_ok_notin_null ps : nodes_ok ps → NULL ∉ ps.*1.
Proof. intros [_ H] Hin. rewrite Forall_forall in H. by destruct (H _ Hin). Qed.

Lemma hd_addr_end ps : nodes_ok ps → (hd_addr ps.*1 END = END ↔ ps = []).
Proof.
  destruct ps as [|[a x] ps]; [done|]. rewrite nodes_ok_cons. simpl. naive_solver.
Qed.

Lemma rep_is_empty s l ps : rep s l ps → is_empty s l = Some (bool_decide (ps = [])).
Proof.
  intros (_ & Hok & _ & HL). unfold is_empty. rewrite HL. cbn. f_equal.
  apply bool_decide_ext. by apply hd_addr_end.
Qed.

Lemma rep_frame s s' l l' ps A :
  rep s l' ps → frame s s' l A → l' ≠ l → (∀ a, a ∈ ps.*1 → a ∉ A) → END ∉ A → rep s' l' ps.
Proof.
  intros (He & Hok & Hs & HL) [Hl Hn] Hne Hd HE. split_and!; [|done| |].
  - unfold end_ok. by rewrite Hn.
  - eapply seg_frame; [|exact Hs]. intros a Ha. apply Hn. by apply Hd.
  - by rewrite Hl.
Qed.

(** Writing through the last reference relinks the whole segment. *)
Lemma assign_last s l ps q v lst e :
  nodes_ok ps → seg (nodes s) ps q →
  lists s !! l = Some (Header (hd_addr ps.*1 q) lst e) →
  ∃ s', assign s (last_of l ps) v = Some s' ∧ nodes_ok ps ∧ seg (nodes s') ps v ∧
    lists s' !! l = Some (Header (hd_addr ps.*1 v) lst e) ∧
    frame s s' l ps.*1.
Proof.
  intros Hok Hs HL. destruct ps as [|[a x] ps _] using rev_ind.
  - rewrite last_of_nil in *. simpl. rewrite HL. simpl. eexists. split_and!; [done..| |].
    + simpl. by rewrite lookup_insert_eq.
    + split; [|done]. intros l' Hne. simpl. by rewrite lookup_insert_ne.
  - rewrite last_of_snoc in *. apply seg_app in Hs as [Hs [Ha _]]. simpl in Ha.
    cbn [assign]. rewrite Ha. cbn. eexists. split_and!; [done..| | |].
    + apply seg_app. apply nodes_ok_app in Hok as (_ & _ & Hd). cbn. split; [|split; [|done]].
      * apply seg_insert_ne; [|done]. intros Hin. apply (Hd a Hin). by left.
      * by rewrite lookup_insert_eq.
    + cbn [lists set_node]. rewrite HL. by rewrite !fmap_app, !hd_addr_app.
    + split; [done|]. intros b Hb. simpl. rewrite lookup_insert_ne; [done|].
      intros <-. apply Hb. rewrite fmap_app. apply elem_of_app. right. by left.
Qed.

Lemma frame_refl s l A : frame s s l A.
Proof. done. Qed.

Lemma frame_trans s1 s2 s3 l A B C :
  frame s1 s2 l A → frame s2 s3 l B → A ⊆ C → B ⊆ C → frame s1 s3 l C.
Proof.
  intros [Hl1 Hn1] [Hl2 Hn2] HA HB. split.
  - intros l' Hne. by rewrite Hl2, Hl1.
  - intros a Ha. rewrite Hn2, Hn1; set_solver.
Qed.

End rep.

(** ** Refinement of the list operations *)

Section ops.
Import BaseList.

(** The allocator's answer: an address that holds no node. *)
Definition fresh (s : store) (a : N) : Prop := a ≠ NULL ∧ nodes s !! a = None.

Lemma fresh_notin s l ps a : rep s l ps → fresh s a → a ∉ ps.*1 ∧ a ≠ END.
Proof.
  intros (He & _ & Hs & _) [_ Ha]. split.
  - intros Hin. apply list_elem_of_fmap in Hin as ([b x] & -> & Hin).
    destruct (seg_lookup _ _ _ _ _ Hs Hin) as [n Hn]. simpl in Ha. congruence.
  - intros ->. unfold end_ok in He. congruence.
Qed.

Lemma new_node_seg s a x n ps q :
  a ∉ ps.*1 → seg (nodes s) ps q → seg (nodes (new_node s (Some a) x n)) ps q.
Proof. intros. by apply seg_insert_ne. Qed.

Lemma push_back_rep s l ps x a :
  rep s l ps → fresh s a →
  ∃ s', push_back s l x (Some a) = Some (s', false) ∧ rep s' l (ps ++ [(a, x)]) ∧
        frame s s' l (a :: ps.*1).
Proof.
  intros Hrep Hf. destruct (fresh_notin _ _ _ _ Hrep Hf) as [Hnot Hend].
  destruct Hf as [Hnull Hfresh]. pose proof Hrep as (He & Hok & Hs & HL).
  unfold push_back. rewrite HL. cbn [mbind option_bind last].
  destruct (assign_last (new_node s (Some a) x END) l ps END a _ _ Hok (new_node_seg _ _ _ _ _ _ Hnot Hs) HL)
    as (s' & Has & _ & Hs' & HL' & [Hfl Hfn]).
  cbn [from_option id] in Has |- *. rewrite Has. cbn [mbind option_bind].
  rewrite HL'. cbn [mbind option_bind first elements].
  eexists. split; [done|].
  assert (nodes s' !! a = Some (ListNode END x)) as Ha.
  { rewrite Hfn by done. cbn. by rewrite lookup_insert_eq. }
  assert (END ∉ ps.*1) as HE by by apply nodes_ok_notin_end.
  split; [|split].
  - split_and!.
    + unfold end_ok. cbn. rewrite Hfn by done. cbn. rewrite lookup_insert_ne by done. done.
    + apply nodes_ok_app. split_and!; [done| |].
      * apply nodes_ok_cons. split_and!; [done|done|by apply not_elem_of_nil|apply nodes_ok_nil].
      * intros b Hb Hin. apply list_elem_of_singleton in Hin. simpl in Hin. by subst.
    + apply seg_app. split; [exact Hs'|]. cbn. split; [done|done].
    + cbn [lists set_list]. rewrite lookup_insert_eq, last_of_snoc, fmap_app, hd_addr_app.
      do 2 f_equal. rewrite u32_succ. do 2 f_equal. rewrite length_app. simpl. lia.
  - intros l' Hne. cbn [lists set_list]. rewrite lookup_insert_ne by done. by rewrite Hfl.
  - intros b Hb. apply not_elem_of_cons in Hb as [Hba Hb]. cbn [nodes set_list].
    rewrite Hfn by done. cbn. by rewrite lookup_insert_ne by done.
Qed.

Lemma push_front_rep s l ps x a :
  rep s l ps → fresh s a →
  ∃ s', push_front s l x (Some a) = Some (s', false) ∧ rep s' l ((a, x) :: ps) ∧
        frame s s' l [a].
Proof.
  intros Hrep Hf. destruct (fresh_notin _ _ _ _ Hrep Hf) as [Hnot Hend].
  destruct Hf as [Hnull Hfresh]. pose proof Hrep as (He & Hok & Hs & HL).
  unfold push_front. rewrite HL. cbn [mbind option_bind first].
  unfold push_front_impl. cbn [from_option id].
  rewrite decide_True by done. cbn [lists new_node set_node]. rewrite HL.
  cbn [mbind option_bind last elements]. eexists. split; [done|]. split; [|split].
  - split_and!.
    + unfold end_ok. cbn. by rewrite lookup_insert_ne.
    + by apply nodes_ok_cons.
    + cbn. rewrite lookup_insert_eq. split; [done|]. by apply seg_insert_ne.
    + cbn [lists set_list]. rewrite lookup_insert_eq. do 2 f_equal; [|apply u32_succ].
      destruct ps as [|p ps]; [by rewrite decide_True|]. rewrite last_of_cons2 by done.
      rewrite decide_False; [done|]. by rewrite last_of_first.
  - intros l' Hne. cbn. by rewrite lookup_insert_ne.
  - intros b Hb. apply not_elem_of_cons in Hb as [Hba _]. cbn. by rewrite lookup_insert_ne.
Qed.

Lemma pop_rep s l ps :
  rep s l ps →
  Z.of_nat (length ps) < 2 ^ 32 →
  ∃ s', pop s l = Some (s', default NULL (ps.*2 !! 0%nat)) ∧ rep s' l (drop 1 ps) ∧
        frame s s' l [].
Proof.
  intros Hrep Hlen. pose proof Hrep as (He & Hok & Hs & HL).
  unfold pop. rewrite HL. cbn [mbind option_bind first].
  destruct ps as [|[a x] ps].
  { exists s. split_and!; [done..|]. split; done. }
  apply nodes_ok_cons in Hok as (Hnull & Hend & Hnot & Hok).
  cbn [hd_addr fmap list_fmap fst]. rewrite decide_False by done.
  destruct Hs as [Ha Hs]. rewrite Ha. cbn [mbind option_bind elements next info last].
  cbn [length]. rewrite u32_pred. eexists. split; [done|]. split; [|split].
  - cbn [drop]. rewrite drop_0. split_and!; [done..|]. cbn [lists set_list].
    rewrite lookup_insert_eq. do 2 f_equal. simpl in Hlen.
    rewrite wrapu_small by (unfold in_u; lia). destruct ps as [|p ps].
    + rewrite decide_True by done. done.
    + rewrite decide_False by (simpl; lia). by rewrite last_of_cons2.
  - intros l' Hne. cbn. by rewrite lookup_insert_ne.
  - done.
Qed.

(** Two lists [l] and [l2] without common nodes. *)
Definition disjoint_nodes (ps qs : list (N * N)) : Prop := ∀ a, a ∈ ps.*1 → a ∉ qs.*1.

Lemma rep_app s l ps qs e v :
  end_ok s → nodes_ok ps → nodes_ok qs → disjoint_nodes ps qs →
  seg (nodes s) ps (hd_addr qs.*1 END) → seg (nodes s) qs END →
  v = last_of l (ps ++ qs) → e = u32 (Z.of_nat (length ps + length qs)) →
  lists s !! l = Some (Header (hd_addr ps.*1 (hd_addr qs.*1 END)) v e) →
  rep s l (ps ++ qs).
Proof.
  intros He Hps Hqs Hd Hs Hs2 -> -> HL. split_and!; [done| | |].
  - by apply nodes_ok_app.
  - by apply seg_app.
  - by rewrite HL, fmap_app, hd_addr_app, length_app.
Qed.

Lemma last_of_app l ps qs : qs ≠ [] → last_of l (ps ++ qs) = last_of l qs.
Proof.
  intros H. destruct qs as [|[b y] qs _] using rev_ind; [done|].
  by rewrite app_assoc, !last_of_snoc.
Qed.

Lemma last_of_any l l2 ps : ps ≠ [] → last_of l ps = last_of l2 ps.
Proof.
  intros H. destruct ps as [|[b y] qs _] using rev_ind; [done|]. by rewrite !last_of_snoc.
Qed.

Lemma append_rep s l l2 ps qs :
  rep s l ps → rep s l2 qs → l ≠ l2 → disjoint_nodes ps qs →
  Z.of_nat (length qs) < 2 ^ 32 →
  ∃ s', append s l l2 = Some s' ∧ rep s' l (ps ++ qs) ∧ frame s s' l ps.*1.
Proof.
  intros Hrep Hrep2 Hne Hd Hlen. unfold append.
  rewrite (rep_is_empty _ _ _ Hrep2). cbn [mbind option_bind].
  pose proof Hrep as (He & Hok & Hs & HL). pose proof Hrep2 as (_ & Hok2 & Hs2 & HL2).
  case_bool_decide as Hq.
  { subst qs. rewrite app_nil_r. exists s. split_and!; [done..|]. split; done. }
  rewrite (rep_is_empty _ _ _ Hrep). cbn [mbind option_bind]. case_bool_decide as Hp.
  - subst ps. unfold operator_assign. rewrite HL2. cbn [mbind option_bind first last elements].
    eexists. split; [done|]. split; [|split].
    + split_and!; [done..|]. cbn [lists set_list app]. rewrite lookup_insert_eq. do 2 f_equal.
      rewrite wrapu_small by (unfold in_u; lia).
      rewrite decide_True by (destruct qs; simpl in *; [done|lia]). by apply last_of_any.
    + intros l' Hne'. cbn. by rewrite lookup_insert_ne.
    + done.
  - rewrite HL, HL2. cbn [mbind option_bind first last].
    destruct (assign_last s l ps END (hd_addr qs.*1 END) _ _ Hok Hs HL)
      as (s' & Has & _ & Hs' & HL' & [Hfl Hfn]).
    rewrite Has. cbn [mbind option_bind]. rewrite HL'. cbn [mbind option_bind first elements].
    eexists. split; [done|]. split; [|split].
    + eapply rep_app; [| exact Hok | exact Hok2 | exact Hd | exact Hs' | | | | ].
      * unfold end_ok. cbn. rewrite Hfn; [done|by apply nodes_ok_notin_end].
      * cbn. eapply seg_frame; [|exact Hs2]. intros b Hb. apply Hfn. intros Hb'. by apply (Hd b).
      * rewrite last_of_app by done. by apply last_of_any.
      * apply u32_add.
      * cbn [lists set_list]. by rewrite lookup_insert_eq.
    + intros l' Hne'. cbn. rewrite lookup_insert_ne by done. by rewrite Hfl.
    + intros b Hb. cbn. by rewrite Hfn.
Qed.

Lemma prepend_rep s l l2 ps qs :
  rep s l ps → rep s l2 qs → l ≠ l2 → disjoint_nodes ps qs →
  ∃ s', prepend s l l2 = Some s' ∧ rep s' l (qs ++ ps) ∧ frame s s' l qs.*1.
Proof.
  intros Hrep Hrep2 Hne Hd. unfold prepend.
  rewrite (rep_is_empty _ _ _ Hrep2). cbn [mbind option_bind].
  pose proof Hrep as (He & Hok & Hs & HL). pose proof Hrep2 as (_ & Hok2 & Hs2 & HL2).
  case_bool_decide as Hq.
  { subst qs. exists s. split_and!; [done..|]. split; done. }
  rewrite (rep_is_empty _ _ _ Hrep), HL, HL2. cbn [mbind option_bind first last elements].
  match goal with |- context [assign (set_list s l ?H) _ _] => set (s1 := set_list s l H) end.
  assert (lists s1 !! l2 = lists s !! l2) as El2 by (cbn; by rewrite lookup_insert_ne).
  destruct (assign_last s1 l2 qs END (hd_addr ps.*1 END) _ _ Hok2 Hs2 (eq_trans El2 HL2))
    as (s' & Has & _ & Hs' & HL' & [Hfl Hfn]).
  rewrite Has. cbn [mbind option_bind]. rewrite HL', Hfl by done. cbn [lists set_list s1].
  rewrite lookup_insert_eq. cbn [mbind option_bind first last elements].
  eexists. split; [done|]. split; [|split].
  - eapply rep_app; [|exact Hok2|exact Hok| |exact Hs'| | | |].
    + unfold end_ok. cbn. rewrite Hfn; [done|by apply nodes_ok_notin_end].
    + intros a Ha Ha'. by apply (Hd a).
    + cbn. eapply seg_frame; [|exact Hs]. intros b Hb. rewrite Hfn; [done|]. by apply Hd.
    + reflexivity.
    + reflexivity.
    + cbn [lists set_list]. rewrite lookup_insert_eq. do 2 f_equal.
      * case_bool_decide as Hp; [subst ps; rewrite app_nil_r; by apply last_of_any|].
        by rewrite last_of_app.
      * rewrite u32_add. do 2 f_equal. lia.
  - intros l' Hne'. cbn. rewrite lookup_insert_ne by done. destruct (decide (l' = l2)) as [->|].
    + rewrite HL'. rewrite HL2. f_equal. destruct qs; done.
    + rewrite Hfl by done. cbn. by rewrite lookup_insert_ne.
  - intros b Hb. cbn. by rewrite Hfn.
Qed.

(** [prev] designates the node [a], which is in the middle of the list. *)
Lemma remove_rep s l ps a x qs :
  rep s l (ps ++ (a, x) :: qs) →
  Z.of_nat (length (ps ++ (a, x) :: qs)) < 2 ^ 32 →
  ∃ s', remove s l (last_of l ps) = Some s' ∧ rep s' l (ps ++ qs) ∧
        frame s s' l (a :: ps.*1).
Proof.
  intros (He & Hok & Hs & HL) Hlen.
  apply nodes_ok_app in Hok as (Hok & Hok2 & Hd).
  apply nodes_ok_cons in Hok2 as (Hnull & Hend & Hnot & Hok2).
  apply seg_app in Hs as [Hs [Ha Hs2]]. cbn [hd_addr fmap list_fmap fst] in Hs.
  assert (a ∉ ps.*1) as Haps. { intros Hin. apply (Hd a Hin). by left. }
  rewrite fmap_app, hd_addr_app in HL. cbn [hd_addr fmap list_fmap fst] in HL.
  assert (load s (last_of l ps) = Some a) as Hload.
  { destruct ps as [|[b y] ps _] using rev_ind.
    - rewrite last_of_nil. cbn. by rewrite HL.
    - rewrite last_of_snoc. apply seg_app in Hs as [_ [Hb _]]. cbn in Hb |- *. by rewrite Hb. }
  unfold remove. rewrite Hload. cbn [mbind option_bind]. rewrite Ha. cbn [mbind option_bind].
  rewrite HL. cbn [mbind option_bind first last elements next nodes lists set_list].
  match goal with |- context [assign ?t] => set (s1 := t) end.
  assert (seg (nodes s1) ps a) as Hs1 by by apply seg_delete_ne.
  edestruct (assign_last s1 l ps a (hd_addr qs.*1 END)) as (s' & Has & _ & Hs' & HL' & [Hfl Hfn]);
    [done|exact Hs1|cbn; apply lookup_insert_eq|].
  exists s'. split; [exact Has|]. split; [|split].
  - eapply rep_app; [|exact Hok|exact Hok2| |exact Hs'| | | |exact HL'].
    + unfold end_ok. rewrite Hfn by by apply nodes_ok_notin_end. cbn.
      by rewrite lookup_delete_ne.
    + intros b Hb Hin. apply (Hd b Hb). by right.
    + eapply seg_frame; [|apply (seg_delete_ne _ _ _ a Hnot Hs2)]. intros b Hb.
      rewrite Hfn; [done|]. intros Hin. apply (Hd b Hin). by right.
    + rewrite length_app in Hlen |- *. cbn [length] in Hlen |- *.
      rewrite Nat.add_succ_r, u32_pred, wrapu_small by (unfold in_u; lia).
      destruct (decide (ps ++ qs = [])) as [[-> ->]%app_eq_nil|Hn]; [done|].
      rewrite decide_False by (destruct ps, qs; cbn in *; [done|lia..]).
      destruct qs as [|[b y] qs].
      * rewrite last_of_snoc, decide_True by done. by rewrite app_nil_r.
      * rewrite !last_of_app, last_of_cons2 by done. apply decide_False.
        destruct qs as [|[c z] qs _] using rev_ind; [intros [= ->]; apply Hnot; by left|].
        rewrite app_comm_cons, last_of_snoc. intros [= ->]. apply Hnot.
        rewrite app_comm_cons, fmap_app. apply elem_of_app. right. by left.
    + rewrite length_app. cbn [length]. rewrite Nat.add_succ_r. apply u32_pred.
  - intros l' Hne. rewrite Hfl by done. cbn. by rewrite lookup_insert_ne.
  - intros b [Hba Hb]%not_elem_of_cons. rewrite Hfn by done. cbn. by rewrite lookup_delete_ne.
Qed.

Lemma swap_rep s l r ps qs :
  rep s l ps → rep s r qs → l ≠ r →
  ∃ s', swap s l r = Some s' ∧ rep s' l qs ∧ rep s' r ps ∧
        nodes s' = nodes s ∧ (∀ k, k ≠ l → k ≠ r → lists s' !! k = lists s !! k).
Proof.
  intros (He & Hok & Hs & HL) (_ & Hok2 & Hs2 & HL2) Hne. unfold swap. rewrite HL, HL2.
  cbn [mbind option_bind first last elements]. eexists. split; [done|].
  split; [split_and!; [done..|]|split; [split_and!; [done..|]|split; [done|]]].
  - cbn [lists set_list]. rewrite lookup_insert_eq. do 2 f_equal.
    destruct (decide (qs = [])) as [->|Hq]; [by rewrite last_of_nil, decide_True|].
    rewrite decide_False by (by rewrite last_of_first). by apply last_of_any.
  - cbn [lists set_list]. rewrite lookup_insert_ne, lookup_insert_eq by done. do 2 f_equal.
    destruct (decide (ps = [])) as [->|Hq]; [by rewrite last_of_nil, decide_True|].
    rewrite decide_False by (by rewrite last_of_first). by apply last_of_any.
  - intros k Hk Hk'. cbn. by rewrite !lookup_insert_ne.
Qed.

End ops.

(** ** Traversals *)

Section traversal.
Import BaseList.

(** The cursor [last_of l ps] of an iterator that has passed [ps]. *)
Lemma load_last_of s l ps qs :
  rep s l (ps ++ qs) → load s (last_of l ps) = Some (hd_addr qs.*1 END).
Proof.
  intros (_ & _ & Hs & HL). apply seg_app in Hs as [Hs _].
  destruct ps as [|[b y] ps _] using rev_ind.
  - rewrite last_of_nil. cbn. by rewrite HL.
  - rewrite last_of_snoc. apply seg_app in Hs as [_ [Hb _]]. cbn in Hb |- *. by rewrite Hb.
Qed.

Lemma rep_node s l ps qs :
  rep s l (ps ++ qs) →
  nodes s !! hd_addr qs.*1 END =
    Some (ListNode (hd_addr (drop 1 qs).*1 END) (default NULL (qs.*2 !! 0%nat))).
Proof.
  intros (He & _ & Hs & _). apply seg_app in Hs as [_ Hs].
  destruct qs as [|[a x] qs]; [exact He|]. destruct Hs as [Ha _]. cbn. by rewrite drop_0.
Qed.

Lemma it_next_rep s l ps qs it :
  rep s l (ps ++ qs) → el it = last_of l ps →
  it_next s it = Some (Iter (it_list it) (NextOf (hd_addr qs.*1 END)) (Some (last_of l ps))
                         (hd_addr qs.*1 END), default NULL (qs.*2 !! 0%nat)).
Proof.
  intros Hrep Hel. unfold it_next. rewrite Hel, (load_last_of _ _ _ _ Hrep).
  cbn [mbind option_bind]. by rewrite (rep_node _ _ _ _ Hrep).
Qed.

Lemma elem_loop_rep s l ps qs n d :
  rep s l (ps ++ qs) →
  elem_loop (S n) s (hd_addr qs.*1 END) d = Some (default NULL (qs.*2 !! n)).
Proof.
  revert ps qs d. induction n as [|n IH]; intros ps qs d Hrep; cbn [elem_loop];
    pose proof Hrep as (_ & Hok & _); apply nodes_ok_app in Hok as (_ & Hok & _).
  - case_decide as E; [apply hd_addr_end in E as ->; done|].
    by rewrite (rep_node _ _ _ _ Hrep).
  - case_decide as E; [apply hd_addr_end in E as ->; done|].
    rewrite (rep_node _ _ _ _ Hrep). cbn [mbind option_bind next info].
    destruct qs as [|q qs]; [done|]. cbn [drop]. rewrite drop_0.
    apply (IH (ps ++ [q]) qs NULL). by rewrite <- app_assoc.
Qed.

Lemma elem_rep s l ps n : rep s l ps → elem s l n = Some (default NULL (ps.*2 !! n)).
Proof.
  intros Hrep. unfold elem. pose proof Hrep as (_ & _ & _ & HL). rewrite HL.
  by apply (elem_loop_rep s l []).
Qed.

Lemma add_unique_loop_rep s l eq x ps qs fuel :
  rep s l (ps ++ qs) → (length qs < fuel)%nat →
  add_unique_loop fuel s eq x (hd_addr qs.*1 END) =
    Some (hd_addr (filter (λ p, eq p.2 x) qs).*1 END).
Proof.
  revert ps qs. induction fuel as [|fuel IH]; intros ps qs Hrep Hlt; [lia|]. cbn [add_unique_loop].
  pose proof Hrep as (_ & Hok & _). apply nodes_ok_app in Hok as (_ & Hok & _).
  destruct qs as [|[a y] qs]; [by rewrite decide_True|].
  apply nodes_ok_cons in Hok as (_ & Hend & _). rewrite decide_False by done.
  rewrite (rep_node _ _ _ _ Hrep). cbn [mbind option_bind info next fmap list_fmap snd lookup].
  cbn [list_lookup from_option id drop]. rewrite filter_cons. cbn [snd].
  destruct (eq y x) eqn:E; [by rewrite decide_True|].
  rewrite decide_False by (by intros []). rewrite drop_0. apply (IH (ps ++ [(a, y)])).
  - by rewrite <- app_assoc.
  - simpl in Hlt. lia.
Qed.

Lemma disjoin_loop_rep s l ps rest qs fuel :
  rep s l (ps ++ rest ++ qs) → (length rest < fuel)%nat →
  disjoin_loop fuel s (hd_addr qs.*1 END) (last_of l ps) (hd_addr (rest ++ qs).*1 END)
    (u32 (Z.of_nat (length ps))) =
  Some (bool_decide (rest ≠ [] ∧ qs = []), last_of l (ps ++ rest),
        u32 (Z.of_nat (length (ps ++ rest)))).
Proof.
  revert ps rest. induction fuel as [|fuel IH]; intros ps rest Hrep Hlt; [lia|]. cbn [disjoin_loop].
  pose proof Hrep as (_ & Hok & _). apply nodes_ok_app in Hok as (_ & Hok & _).
  destruct rest as [|[a y] rest].
  { rewrite app_nil_r, decide_False by naive_solver. by rewrite bool_decide_eq_false_2 by naive_solver. }
  rewrite <- app_comm_cons in Hok. apply nodes_ok_cons in Hok as (_ & Hend & Hnot & Hok).
  assert (a ≠ hd_addr qs.*1 END) as Hne.
  { destruct qs as [|[b z] qs]; [done|]. cbn. intros ->. apply Hnot. rewrite fmap_app.
    apply elem_of_app. right. by left. }
  cbn [app fmap list_fmap hd_addr fst]. rewrite decide_True by done.
  pose proof (rep_node _ _ _ _ Hrep) as Ha. cbn [app fmap list_fmap hd_addr fst drop] in Ha.
  rewrite Ha. cbn [mbind option_bind next]. rewrite drop_0, u32_succ.
  assert (rep s l ((ps ++ [(a, y)]) ++ rest ++ qs)) as Hrep' by by rewrite <- app_assoc.
  case_decide as E.
  - apply hd_addr_end in E as [-> ->]%app_eq_nil; [|done].
    rewrite last_of_snoc, bool_decide_eq_true_2 by done. do 3 f_equal.
    rewrite length_app. cbn. f_equal. lia.
  - specialize (IH (ps ++ [(a, y)]) rest Hrep'). rewrite last_of_snoc in IH.
    replace (S (length ps)) with (length (ps ++ [(a, y)])) by (rewrite length_app; cbn; lia).
    rewrite IH by (simpl in Hlt; lia). rewrite <- app_assoc. cbn [app].
    do 3 f_equal. apply bool_decide_ext. split; [naive_solver|]. intros [_ ->]. split; [|done].
    intros ->. done.
Qed.

(** [list] is a tail of [this]. *)
Lemma disjoin_rep s l l2 ps qs lst e fuel :
  rep s l (ps ++ qs) → l ≠ l2 → lists s !! l2 = Some (Header (hd_addr qs.*1 END) lst e) →
  (length ps < fuel)%nat →
  ∃ s', disjoin fuel s l l2 = Some s' ∧ rep s' l ps ∧ frame s s' l ps.*1.
Proof.
  intros Hrep Hne HL2 Hfuel. pose proof Hrep as (He & Hok & Hs & HL). unfold disjoin.
  rewrite HL, HL2. cbn [mbind option_bind first].
  pose proof (disjoin_loop_rep s l [] ps qs fuel Hrep Hfuel) as Hloop.
  rewrite last_of_nil in Hloop. cbn [app length] in Hloop. change (u32 (Z.of_nat 0)) with 0 in Hloop.
  rewrite Hloop. cbn [mbind option_bind]. clear Hloop.
  apply nodes_ok_app in Hok as (Hok & _ & _). apply seg_app in Hs as [Hs _].
  case_bool_decide as Hb.
  - destruct Hb as [_ ->]. rewrite app_nil_r. eexists. split; [done|]. split; [|split].
    + split_and!; [done..|]. cbn [lists set_list]. by rewrite lookup_insert_eq.
    + intros l' Hl'. cbn. by rewrite lookup_insert_ne.
    + done.
  - rewrite fmap_app, hd_addr_app.
    match goal with |- context [assign (set_list s l ?H) _ _] => set (s1 := set_list s l H) end.
    edestruct (assign_last s1 l ps (hd_addr qs.*1 END) END) as (s' & Has & _ & Hs' & HL' & [Hfl Hfn]);
      [done|exact Hs|cbn; apply lookup_insert_eq|].
    rewrite Has. cbn [mbind option_bind]. rewrite HL'. cbn [mbind option_bind first elements].
    eexists. split; [done|]. split; [|split].
    + split_and!; [|done|done|].
      * unfold end_ok. cbn. rewrite Hfn; [done|by apply nodes_ok_notin_end].
      * cbn [lists set_list]. by rewrite lookup_insert_eq.
    + intros l' Hl'. cbn. rewrite lookup_insert_ne, Hfl by done. cbn. by rewrite lookup_insert_ne.
    + intros b Hb'. cbn. by rewrite Hfn.
Qed.

Lemma set_info_rep s l ps a x qs y :
  rep s l (ps ++ (a, x) :: qs) →
  ∃ s', set_info s a y = Some s' ∧ rep s' l (ps ++ (a, y) :: qs) ∧ frame s s' l [a].
Proof.
  intros (He & Hok & Hs & HL). apply seg_app in Hs as [Hs [Ha Hs2]].
  unfold set_info. rewrite Ha. cbn [mbind option_bind next]. eexists. split; [done|].
  pose proof Hok as (_ & Hok2 & Hd)%nodes_ok_app.
  apply nodes_ok_cons in Hok2 as (Hnull & Hend & Hnot & Hok2). split; [|split].
  - split_and!.
    + unfold end_ok. cbn. by rewrite lookup_insert_ne.
    + unfold nodes_ok in *. by rewrite fmap_app in *.
    + apply seg_app. cbn. split; [|split].
      * apply seg_insert_ne; [|done]. intros Hin. apply (Hd a Hin). by left.
      * by rewrite lookup_insert_eq.
      * by apply seg_insert_ne.
    + cbn [lists set_node]. rewrite HL, !fmap_app, !length_app. cbn [fmap list_fmap fst length].
      do 2 f_equal. rewrite !last_of_app by done.
      destruct (decide (qs = [])) as [->|]; [done|]. by rewrite !last_of_cons2.
  - done.
  - intros b Hb%not_elem_of_cons. cbn. rewrite lookup_insert_ne; [done|]. naive_solver.
Qed.

End traversal.

(** ** Bubble sort *)

Section bubble.
Import BaseList.
Context (f : N → N → Z).

(** The inner loop on the nodes [(a, x) :: mid] of the current window. *)
Fixpoint bub (a x : N) (mid : list (N * N)) : list (N * N) :=
  match mid with
  | [] => [(a, x)]
  | (b, y) :: mid => if decide (0 < f x y) then (a, y) :: bub b x mid else (a, x) :: bub b y mid
  end.

(** Whether it exchanges anything. *)
Fixpoint bub_swapped (x : N) (ys : list N) : bool :=
  match ys with
  | [] => false
  | y :: ys => if decide (0 < f x y) then true else bub_swapped y ys
  end.

Definition last_addr (a : N) (mid : list (N * N)) : N := default a (list.last mid.*1).

Lemma last_addr_cons a b y mid : last_addr a ((b, y) :: mid) = last_addr b mid.
Proof. unfold last_addr. rewrite fmap_cons, last_cons. by destruct (list.last mid.*1). Qed.

Lemma bub_addrs a x mid : (bub a x mid).*1 = a :: mid.*1.
Proof.
  revert a x. induction mid as [|[b y] mid IH]; intros a x; [done|]. cbn [bub].
  case_decide; rewrite fmap_cons, IH; done.
Qed.

Lemma bub_perm a x mid : (bub a x mid).*2 ≡ₚ x :: mid.*2.
Proof.
  revert a x. induction mid as [|[b y] mid IH]; intros a x; [done|]. cbn [bub].
  case_decide; rewrite fmap_cons, IH; cbn; [apply Permutation_swap|done].
Qed.

Lemma bub_notswapped a x mid : bub_swapped x mid.*2 = false → bub a x mid = (a, x) :: mid.
Proof.
  revert a x. induction mid as [|[b y] mid IH]; intros a x; [done|]. cbn [bub bub_swapped fmap list_fmap snd].
  case_decide; [done|]. intros Hs. by rewrite IH.
Qed.

Lemma it_next_at s l pre a x rest it :
  rep s l (pre ++ (a, x) :: rest) → el it = NextOf a →
  it_next s it = Some (Iter (it_list it) (NextOf (hd_addr rest.*1 END)) (Some (NextOf a))
                         (hd_addr rest.*1 END), default NULL (rest.*2 !! 0%nat)).
Proof.
  intros Hrep Hel. assert (rep s l ((pre ++ [(a, x)]) ++ rest)) as Hrep' by by rewrite <- app_assoc.
  erewrite it_next_rep; [|exact Hrep'|by rewrite last_of_snoc]. by rewrite last_of_snoc.
Qed.

Lemma bubble_pass_rep mid : ∀ fuel s l pre a x post it sw,
  rep s l (pre ++ (a, x) :: mid ++ post) → el it = NextOf a → it_list it = l →
  Forall (λ y, y ≠ NULL) mid.*2 → Forall (λ y, y ≠ NULL) post.*2 → x ≠ NULL →
  (length mid < fuel)%nat →
  ∃ s' it', bubble_pass fuel f s it x a (hd_addr post.*1 NULL) sw =
      Some (s', it', last_addr a mid, sw || bub_swapped x mid.*2) ∧
    it_list it' = l ∧ rep s' l (pre ++ bub a x mid ++ post) ∧ frame s s' l (a :: mid.*1).
Proof.
  induction mid as [|[b y] mid IH]; intros fuel s l pre a x post it sw Hrep Hel Hl Hm Hp Hx Hf;
    (destruct fuel as [|fuel]; [simpl in Hf; lia|]); cbn [bubble_pass];
    rewrite (it_next_at _ _ _ _ _ _ _ Hrep Hel); cbn [mbind option_bind].
  { destruct post as [|[c z] post].
    - rewrite decide_True by done. eexists _, _. rewrite orb_false_r. split_and!; [done..|apply frame_refl].
    - apply Forall_cons in Hp as [Hz Hp]. cbn [app fmap list_fmap snd lookup list_lookup from_option id].
      rewrite decide_False by done. cbn [current]. rewrite decide_True by done.
      eexists _, _. rewrite orb_false_r. split_and!; [done..|apply frame_refl]. }
  apply Forall_cons in Hm as [Hy Hm]. cbn [snd] in Hy.
  cbn [app fmap list_fmap fst snd lookup list_lookup from_option id hd_addr current].
  rewrite decide_False by done.
  pose proof Hrep as (_ & Hok & _). apply nodes_ok_app in Hok as (_ & Hok & _).
  rewrite <- app_comm_cons in Hok. apply nodes_ok_cons in Hok as (Hanull & _ & Hna & Hok).
  apply nodes_ok_cons in Hok as (Hbnull & _ & Hnb & Hok).
  rewrite decide_False.
  2: { destruct post as [|[c z] post]; [done|]. cbn. intros ->. apply Hnb. rewrite fmap_app.
       apply elem_of_app. right. by left. }
  cbn [bub bub_swapped fmap list_fmap snd]. case_decide as Hc.
  - destruct (set_info_rep _ _ _ _ _ _ y Hrep) as (s1 & -> & Hrep1 & Hf1). cbn [mbind option_bind].
    assert (rep s1 l ((pre ++ [(a, y)]) ++ (b, y) :: mid ++ post)) as Hrep1' by by rewrite <- app_assoc.
    destruct (set_info_rep _ _ _ _ _ _ x Hrep1') as (s2 & -> & Hrep2 & Hf2). cbn [mbind option_bind].
    edestruct (IH fuel s2 l (pre ++ [(a, y)]) b x post) as (s3 & it' & -> & Hl' & Hrep3 & Hf3);
      [exact Hrep2|reflexivity|exact Hl|done..|simpl in Hf; lia|].
    eexists _, _. split; [|split; [done|split]].
    + rewrite orb_true_r. by rewrite last_addr_cons.
    + by rewrite <- app_assoc in Hrep3.
    + assert (frame s1 s3 l (b :: mid.*1)) as Hf4
        by (eapply frame_trans; [exact Hf2|exact Hf3|set_solver..]).
      eapply frame_trans; [exact Hf1|exact Hf4|set_solver..].
  - assert (rep s l ((pre ++ [(a, x)]) ++ (b, y) :: mid ++ post)) as Hrep1' by by rewrite <- app_assoc.
    edestruct (IH fuel s l (pre ++ [(a, x)]) b y post) as (s3 & it' & -> & Hl' & Hrep3 & Hf3);
      [exact Hrep1'|reflexivity|exact Hl|done..|simpl in Hf; lia|].
    eexists _, _. split; [|split; [done|split]].
    + by rewrite last_addr_cons.
    + by rewrite <- app_assoc in Hrep3.
    + eapply frame_trans; [apply (frame_refl _ _ [])|exact Hf3|set_solver..].
Qed.

(** The order [sort_func(a, b) <= 0]. *)
Definition le (x y : N) : Prop := f x y ≤ 0.

Context (Htotal : ∀ x y, le x y ∨ le y x) (Htrans : Transitive le).

Lemma bub_last a x mid :
  ∃ w z, bub a x mid = w ++ [(last_addr a mid, z)] ∧ length w = length mid ∧
         Forall (λ y, le y z) (x :: mid.*2).
Proof using Htotal Htrans.
  revert a x. induction mid as [|[b y] mid IH]; intros a x.
  { exists [], x. split_and!; [done..|]. constructor; [|constructor]. by destruct (Htotal x x). }
  cbn [bub]. case_decide as Hc.
  - destruct (IH b x) as (w & z & -> & Hlen & Hf). exists ((a, y) :: w), z.
    rewrite last_addr_cons. split_and!; [done|cbn; lia|]. apply Forall_cons in Hf as [Hx Hf].
    cbn. constructor; [done|]. constructor; [|done]. apply Htrans with x; [|done].
    destruct (Htotal x y); unfold le in *; [lia|done].
  - destruct (IH b y) as (w & z & -> & Hlen & Hf). exists ((a, x) :: w), z.
    rewrite last_addr_cons. split_and!; [done|cbn; lia|]. pose proof Hf as [Hy _]%Forall_cons.
    cbn. constructor; [|done]. apply Htrans with y; [|done]. unfold le. lia.
Qed.

Lemma bub_notswapped_sorted x ys : bub_swapped x ys = false → StronglySorted le (x :: ys).
Proof using Htrans.
  intros H. apply Sorted_StronglySorted; [done|]. revert x H.
  induction ys as [|y ys IH]; intros x; cbn [bub_swapped]; [by repeat constructor|].
  case_decide as Hc; [done|]. intros Hs. constructor; [by apply IH|]. constructor. unfold le. lia.
Qed.

Lemma StronglySorted_app_intro (xs ys : list N) :
  StronglySorted le xs → StronglySorted le ys → (∀ x y, x ∈ xs → y ∈ ys → le x y) →
  StronglySorted le (xs ++ ys).
Proof using Type.
  induction 1 as [|x xs Hs IH Hx]; intros Hys Hle; [done|]. cbn. constructor.
  - apply IH; [done|]. intros. apply Hle; [by right|done].
  - apply Forall_app. split; [done|]. apply Forall_forall. intros y Hy. apply Hle; [by left|done].
Qed.

Lemma bubble_loop_rep pf : ∀ fuel s l a x mid post it,
  rep s l ((a, x) :: mid ++ post) → el it = FirstOf l → it_list it = l →
  Forall (λ y, y ≠ NULL) (x :: mid.*2) → Forall (λ y, y ≠ NULL) post.*2 →
  StronglySorted le post.*2 → (∀ y z, y ∈ x :: mid.*2 → z ∈ post.*2 → le y z) →
  (length mid < fuel)%nat → (length mid < pf)%nat →
  ∃ s' qs, bubble_loop fuel pf f s it (hd_addr post.*1 NULL) = Some s' ∧ rep s' l qs ∧
    qs.*1 = a :: (mid ++ post).*1 ∧ qs.*2 ≡ₚ x :: (mid ++ post).*2 ∧ StronglySorted le qs.*2 ∧
    frame s s' l (a :: (mid ++ post).*1).
Proof using Htotal Htrans.
  induction fuel as [|fuel IH]; intros s l a x mid post it Hrep Hel Hl Hw Hp Hsort Hle Hf Hpf; [lia|].
  cbn [bubble_loop].
  rewrite (it_next_rep s l [] ((a, x) :: mid ++ post) it Hrep Hel). cbn [mbind option_bind current].
  pose proof Hw as [Hx Hm]%Forall_cons.
  destruct (bubble_pass_rep mid pf s l [] a x post
              (Iter (it_list it) (NextOf a) (Some (last_of l [])) a) false)
    as (s1 & it1 & Hpass & Hl1 & Hrep1 & Hf1); [done..|].
  cbn [hd_addr fmap list_fmap fst snd lookup list_lookup from_option id]. rewrite Hpass.
  cbn [mbind option_bind orb]. clear Hpass. cbn [app] in Hrep1.
  destruct (bub_swapped x mid.*2) eqn:Hsw.
  - destruct (bub_last a x mid) as (w & z & Hbub & Hlen & Hz).
    pose proof (bub_addrs a x mid) as Haddr. pose proof (bub_perm a x mid) as Hperm.
    rewrite Hbub in Hrep1, Haddr, Hperm. rewrite <- app_assoc in Hrep1. cbn [app] in Hrep1.
    destruct w as [|[b y] w]; [destruct mid; done|]. rewrite <- app_comm_cons in Hrep1.
    rewrite fmap_app in Haddr, Hperm. cbn [fmap list_fmap fst snd] in Haddr, Hperm.
    assert (∀ v, v ∈ y :: w.*2 → v ∈ x :: mid.*2) as Hin.
    { intros v Hv. rewrite <- Hperm. apply elem_of_app. by left. }
    assert (z ∈ x :: mid.*2) as Hzin. { rewrite <- Hperm. apply elem_of_app. right. by left. }
    assert (∀ v, v ∈ x :: mid.*2 → v ≠ NULL ∧ le v z) as Hnn.
    { intros v Hv. rewrite Forall_forall in Hw, Hz. auto. }
    edestruct (IH s1 l b y w ((last_addr a mid, z) :: post) (it_rewind it1))
      as (s' & qs & Hrun & Hrep' & Hadr & Hpm & Hsrt & Hf2);
      [exact Hrep1|cbn; by rewrite Hl1|done| | | | |simpl in Hlen; lia|simpl in Hlen; lia|].
    + apply Forall_forall. intros v Hv. by apply Hnn, Hin.
    + constructor; [by apply Hnn|done].
    + constructor; [done|]. apply Forall_forall. intros v Hv. by apply Hle.
    + intros v u Hv Hu. apply elem_of_cons in Hu as [->|Hu]; [by apply Hnn, Hin|].
      apply Hle; [by apply Hin|done].
    + exists s', qs. split; [exact Hrun|]. split; [done|].
      assert (b :: (w ++ (last_addr a mid, z) :: post).*1 = a :: (mid ++ post).*1) as Ea.
      { rewrite !fmap_app. cbn. change (a :: mid.*1 ++ post.*1) with ((a :: mid.*1) ++ post.*1).
        rewrite <- Haddr. cbn. by rewrite <- app_assoc. }
      rewrite Ea in Hadr, Hf2. split_and!; [done| |done|].
      * rewrite Hpm, !fmap_app. cbn. change (x :: mid.*2 ++ post.*2) with ((x :: mid.*2) ++ post.*2).
        rewrite <- Hperm. cbn. by rewrite <- app_assoc.
      * eapply frame_trans; [exact Hf1|exact Hf2|rewrite fmap_app; set_solver|done].
  - rewrite (bub_notswapped _ _ _ Hsw) in Hrep1. eexists s1, _. split; [done|].
    split; [exact Hrep1|]. cbn [app fmap list_fmap fst snd]. split_and!; [done..| |].
    + rewrite fmap_app. apply (StronglySorted_app_intro (x :: mid.*2)); [|done|done].
      by apply bub_notswapped_sorted.
    + eapply frame_trans; [exact Hf1|apply (frame_refl _ _ [])|..]; [|set_solver].
      rewrite fmap_app. set_solver.
Qed.

Lemma bubble_sort_rep s l ps fuel :
  rep s l ps → Forall (λ y, y ≠ NULL) ps.*2 → (length ps < fuel)%nat →
  ∃ s' qs, bubble_sort fuel f s l = Some s' ∧ rep s' l qs ∧ qs.*1 = ps.*1 ∧
    qs.*2 ≡ₚ ps.*2 ∧ StronglySorted le qs.*2 ∧ frame s s' l ps.*1.
Proof using Htotal Htrans.
  intros Hrep Hnn Hf. unfold bubble_sort. destruct ps as [|[a x] ps].
  - exists s, []. split; [|split; [done|split; [done|split; [done|split; [constructor|done]]]]].
    destruct fuel as [|fuel]; [lia|].
    cbn [bubble_loop]. rewrite (it_next_rep s l [] [] (it_init l) Hrep) by done.
    cbn [mbind option_bind current bubble_pass]. destruct Hrep as (He & _).
    unfold it_next. cbn. rewrite He. cbn. by rewrite He.
  - destruct (bubble_loop_rep fuel fuel s l a x ps [] (it_init l)) as (s' & qs & Hrun & Hr & Ha & Hp & Hs & Hfr);
      [by rewrite app_nil_r|done|done|done|constructor|constructor|..].
    + intros y z _ Hz. by apply elem_of_nil in Hz.
    + simpl in Hf. lia.
    + simpl in Hf. lia.
    + rewrite app_nil_r in *. exists s', qs. split_and!; done.
Qed.
End bubble.

(** ** Histories of one list

    The operations a client performs on one list, with the addresses its
    allocations return. *)

Section history.
Import BaseList.

(** An insertion comes with the answer of the allocator, [None] when it fails. *)
Inductive op :=
  | PushBack (x : N) (a : option N)
  | PushFront (x : N) (a : option N)
  | AddUnique (x : N) (a : option N)
  | Pop
  | Elem (n : nat).

Definition op_alloc (o : op) : list N :=
  match o with PushBack _ a | PushFront _ a | AddUnique _ a => option_list a | _ => [] end.

Definition eqb (x y : N) : bool := bool_decide (x = y).

(** The result of an operation: the failure flag or the element returned. *)
Definition exec (s : store) (l : nat) (o : op) (fuel : nat) : option (store * N) :=
  match o with
  | PushBack x a => '(s, r) ← push_back s l x a; Some (s, if r : bool then 1%N else 0%N)
  | PushFront x a => '(s, r) ← push_front s l x a; Some (s, if r : bool then 1%N else 0%N)
  | AddUnique x a =>
      '(s, r) ← add_unique fuel s l x eqb a; Some (s, if r : bool then 1%N else 0%N)
  | Pop => pop s l
  | Elem n => r ← elem s l n; Some (s, r)
  end.

Fixpoint exec_all (s : store) (l : nat) (os : list op) (fuel : nat) : option (store * list N) :=
  match os with
  | [] => Some (s, [])
  | o :: os =>
      '(s, r) ← exec s l o fuel;
      '(s, rs) ← exec_all s l os fuel;
      Some (s, r :: rs)
  end.

(** The same operations on a sequence of elements.  A [push_front] whose allocation fails reports it and does nothing, and so does
    an [add_unique] of an element that is there; an append whose allocation fails has no counterpart: it breaks the list. *)
Definition spec (xs : list N) (o : op) : option (list N * N) :=
  match o with
  | PushBack x (Some _) => Some (xs ++ [x], 0%N)
  | PushBack _ None => None
  | PushFront x (Some _) => Some (x :: xs, 0%N)
  | PushFront _ None => Some (xs, 1%N)
  | AddUnique x a => if decide (x ∈ xs) then Some (xs, 1%N) else match a with Some _ => Some (xs ++ [x], 0%N) | None => None end
  | Pop => Some (drop 1 xs, default NULL (xs !! 0%nat))
  | Elem n => Some (xs, default NULL (xs !! n))
  end.

Fixpoint spec_all (xs : list N) (os : list op) : option (list N * list N) :=
  match os with
  | [] => Some (xs, [])
  | o :: os => '(xs, r) ← spec xs o; '(xs, rs) ← spec_all xs os; Some (xs, r :: rs)
  end.

Lemma push_front_fails s l ps x : rep s l ps → push_front s l x None = Some (s, true).
Proof. intros (_ & _ & _ & HL). unfold push_front. by rewrite HL. Qed.

Lemma add_unique_rep s l ps x a fuel :
  rep s l ps → Forall (fresh s) (option_list a) → (length ps < fuel)%nat → (x ∈ ps.*2 ∨ is_Some a) →
  ∃ s' qs r, add_unique fuel s l x eqb a = Some (s', r) ∧ rep s' l qs ∧
    spec ps.*2 (AddUnique x a) = Some (qs.*2, if r : bool then 1%N else 0%N) ∧
    (length qs ≤ S (length ps))%nat ∧ qs.*1 ⊆ option_list a ++ ps.*1 ∧ frame s s' l (option_list a ++ ps.*1).
Proof.
  intros Hrep Hf Hlen Hsome. unfold add_unique. pose proof Hrep as (_ & Hok & _ & HL). rewrite HL.
  cbn [mbind option_bind first].
  rewrite (add_unique_loop_rep s l eqb x [] ps fuel Hrep Hlen). cbn [mbind option_bind].
  assert (hd_addr (filter (λ p : N * N, eqb p.2 x) ps).*1 END = END ↔ x ∉ ps.*2) as Hend.
  { assert (∀ p, p ∈ filter (λ p : N * N, eqb p.2 x) ps ↔ p.2 = x ∧ p ∈ ps) as Hin.
    { intros p. rewrite list_elem_of_filter. unfold eqb. by rewrite bool_decide_spec. }
    destruct (filter (λ p : N * N, eqb p.2 x) ps) as [|[b y] qs].
    - split; [|done]. intros _ ([b y] & -> & Hb)%list_elem_of_fmap.
      by apply (not_elem_of_nil (b, y)), Hin.
    - assert (y = x ∧ (b, y) ∈ ps) as [<- Hb] by (apply (Hin (b, y)); by left). cbn. split.
      + intros ->. exfalso. apply (nodes_ok_notin_end _ Hok). apply list_elem_of_fmap. by exists (END, y).
      + intros Hn. exfalso. apply Hn, list_elem_of_fmap. by exists (b, y). }
  case_decide as Hc.
  - apply Hend in Hc. destruct Hsome as [?|[b ->]]; [done|]. apply Forall_cons in Hf as [Hf _].
    destruct (push_back_rep s l ps x b Hrep Hf) as (s' & -> & Hr & Hfr). rename b into a.
    exists s', (ps ++ [(a, x)]), false. split_and!; [done..| | | |done].
    + cbn. rewrite decide_False by done. by rewrite fmap_app.
    + rewrite length_app. cbn. lia.
    + rewrite fmap_app. set_solver.
  - exists s, ps, true. split_and!; [done..| |lia|set_solver|done]. cbn. rewrite decide_True; [done|].
    destruct (decide (x ∈ ps.*2)); naive_solver.
Qed.

Lemma exec_rep s l ps o fuel :
  rep s l ps → Forall (fresh s) (op_alloc o) → (length ps < fuel)%nat →
  Z.of_nat (length ps) < 2 ^ 32 → is_Some (spec ps.*2 o) →
  ∃ s' qs r, exec s l o fuel = Some (s', r) ∧ rep s' l qs ∧ spec ps.*2 o = Some (qs.*2, r) ∧
    (length qs ≤ S (length ps))%nat ∧ qs.*1 ⊆ op_alloc o ++ ps.*1 ∧
    frame s s' l (op_alloc o ++ ps.*1).
Proof.
  intros Hrep Hf Hfuel Hlen Hsome. destruct o as [x [a|]|x [a|]|x a| |n]; cbn [exec op_alloc option_list] in *.
  all: try (destruct Hsome as [? Hsome]; discriminate Hsome).
  - apply Forall_cons in Hf as [Hf _]. destruct (push_back_rep s l ps x a Hrep Hf) as (s' & -> & Hr & Hfr).
    exists s', (ps ++ [(a, x)]), 0%N. split_and!; [done..| | | |done].
    + by rewrite fmap_app.
    + rewrite length_app. cbn. lia.
    + rewrite fmap_app. set_solver.
  - apply Forall_cons in Hf as [Hf _]. destruct (push_front_rep s l ps x a Hrep Hf) as (s' & -> & Hr & Hfr).
    exists s', ((a, x) :: ps), 0%N. split_and!; [done..|set_solver|].
    eapply frame_trans; [exact Hfr|apply (frame_refl _ _ [])|set_solver..].
  - rewrite (push_front_fails s l ps x Hrep). exists s, ps, 1%N. split_and!; [done..|lia|set_solver|done].
  - destruct (add_unique_rep s l ps x a fuel Hrep Hf Hfuel) as (s' & qs & r & -> & ? & ? & ? & ? & ?).
    { cbn in Hsome. case_decide; [by left|right]. destruct a; [done|destruct Hsome as [? Hsome]; discriminate Hsome]. }
    by exists s', qs, (if r : bool then 1%N else 0%N).
  - destruct (pop_rep s l ps Hrep Hlen) as (s' & -> & Hr & Hfr).
    eexists s', (drop 1 ps), _. split_and!; [done..| | | |].
    + cbn. by rewrite fmap_drop.
    + rewrite length_drop. lia.
    + destruct ps as [|p ps]; [done|]. cbn. rewrite drop_0. set_solver.
    + eapply frame_trans; [exact Hfr|apply (frame_refl _ _ [])|set_solver..].
  - rewrite (elem_rep s l ps n Hrep). exists s, ps, (default NULL (ps.*2 !! n)).
    split_and!; [done..|lia|set_solver|done].
Qed.

Lemma fresh_frame s s' l A b : frame s s' l A → b ∉ A → fresh s b → fresh s' b.
Proof. intros [_ Hn] Hb [Hnull Hf]. split; [done|]. by rewrite Hn. Qed.

(** The allocations of the history: distinct fresh addresses. *)
Definition allocs (os : list op) : list N := mjoin (op_alloc <$> os).

Lemma exec_all_rep os : ∀ s l ps fuel,
  rep s l ps → NoDup (allocs os) → Forall (fresh s) (allocs os) →
  (length ps + length os < fuel)%nat → Z.of_nat (length ps + length os) < 2 ^ 32 → is_Some (spec_all ps.*2 os) →
  ∃ s' qs rs, exec_all s l os fuel = Some (s', rs) ∧ rep s' l qs ∧
              spec_all ps.*2 os = Some (qs.*2, rs) ∧ frame s s' l (allocs os ++ ps.*1).
Proof.
  induction os as [|o os IH]; intros s l ps fuel Hrep Hnd Hf Hfuel Hlen Hsome.
  { by exists s, ps, []. }
  unfold allocs in *. cbn [fmap list_fmap mjoin list_join] in *.
  apply NoDup_app in Hnd as (Hnd1 & Hdis & Hnd2). apply Forall_app in Hf as [Hf1 Hf2].
  cbn [length spec_all] in *. destruct Hsome as [? ([xs1 r0] & Ho & ([xs2 rs0] & Hos & _)%bind_Some)%bind_Some].
  destruct (exec_rep s l ps o fuel Hrep Hf1 ltac:(lia) ltac:(lia) ltac:(eauto))
    as (s1 & qs1 & r1 & Hex & Hrep1 & Hspec1 & Hlen1 & Hsub & Hfr1).
  assert (∀ b, fresh s b → b ∉ ps.*1) as Hps.
  { intros b Hb. by apply (fresh_notin _ _ _ _ Hrep Hb). }
  destruct (IH s1 l qs1 fuel Hrep1 Hnd2) as (s2 & qs2 & rs & Hall & Hrep2 & Hspec & Hfr2); [|lia|lia|rewrite Ho in Hspec1; simplify_eq; eauto|].
  { rewrite Forall_forall in *. intros b Hb. eapply fresh_frame; [exact Hfr1| |by apply Hf2].
    rewrite elem_of_app. intros [Hin|Hin]; [by apply (Hdis b)|]. by apply (Hps b); [apply Hf2|]. }
  exists s2, qs2, (r1 :: rs). cbn [exec_all spec_all]. rewrite Hex. cbn [mbind option_bind].
  rewrite Hall, Hspec1. cbn [mbind option_bind]. rewrite Hspec. split_and!; [done..|].
  eapply frame_trans; [exact Hfr1|exact Hfr2|set_solver..].
Qed.
End history.

(** ** Properties *)

Section properties.
Import BaseList.

(** [C1] Every history of [push_back], [push_front], [add_unique], [pop] and
    [elem] on a well-formed list in which no append fails to allocate its node,
    while [push_front], and [add_unique] of an element that is there, may fail,
    runs without touching an invalid pointer: its results are those of the same
    history on the sequence of elements, the list is well formed at the end, and
    neither the other list headers nor the other nodes change.  An append that
    fails breaks the list. *)
Theorem base_list_history_refines (s : store) (l : nat) (ps : list (N * N)) (os : list op) (fuel : nat) :
  rep s l ps → NoDup (allocs os) → Forall (fresh s) (allocs os) →
  (length ps + length os < fuel)%nat → Z.of_nat (length ps + length os) < 2 ^ 32 → is_Some (spec_all ps.*2 os) →
  ∃ s' qs rs, exec_all s l os fuel = Some (s', rs) ∧ rep s' l qs ∧
              spec_all ps.*2 os = Some (qs.*2, rs) ∧ frame s s' l (allocs os ++ ps.*1).
Proof. apply exec_all_rep. Qed.

(** The store with the global [end_of_list] and one empty list. *)
Definition store0 : store := empty (Store {[ END := ListNode END NULL ]} ∅) 0.

Lemma store0_rep : rep store0 0 [].
Proof. split_and!; [done|apply nodes_ok_nil|done|done]. Qed.

Lemma fresh_singleton (a : N) : a ≠ NULL → a ≠ END → fresh store0 a.
Proof. intros H1 H2. split; [done|]. cbn. by rewrite lookup_singleton_ne. Qed.

Lemma base_list_history_refines_witness :
  ∃ s' qs rs, exec_all store0 0 [PushBack 7 (Some 10); PushFront 6 None; PushFront 5 (Some 11); AddUnique 7 None; Elem 1; Pop]%N 9 = Some (s', rs) ∧
    rep s' 0 qs ∧ (qs.*2, rs) = ([7%N], [0; 1; 0; 1; 7; 5]%N).
Proof.
  destruct (base_list_history_refines store0 0 []
    [PushBack 7 (Some 10); PushFront 6 None; PushFront 5 (Some 11); AddUnique 7 None; Elem 1; Pop]%N 9) as (s' & qs & rs & H1 & H2 & H3 & _).
  - apply store0_rep.
  - by apply (bool_decide_unpack _).
  - repeat constructor; by apply fresh_singleton.
  - simpl. lia.
  - simpl. lia.
  - by eexists.
  - exists s', qs, rs. split_and!; [exact H1|exact H2|]. change (Some ([7%N], [0; 1; 0; 1; 7; 5]%N) = Some (qs.*2, rs)) in H3. congruence.
Defined.

Definition it_walk (s : store) : nat → iterator → option iterator :=
  fix go n it := match n with O => Some it | S n => '(it, _) ← it_next s it; go n it end.

Lemma it_walk_rep s l qs : ∀ n ps it,
  rep s l (ps ++ qs) → el it = last_of l ps → it_list it = l → (n ≤ length qs)%nat →
  ∃ it', it_walk s n it = Some it' ∧ it_list it' = l ∧ el it' = last_of l (ps ++ take n qs).
Proof.
  induction qs as [|[a x] qs IH]; intros n ps it Hrep Hel Hl Hn.
  { destruct n; [|simpl in Hn; lia]. exists it. rewrite app_nil_r. split_and!; auto. }
  destruct n as [|n]; [exists it; rewrite app_nil_r; split_and!; auto|].
  cbn [it_walk]. rewrite (it_next_rep _ _ _ _ _ Hrep Hel). cbn [mbind option_bind].
  edestruct (IH n (ps ++ [(a, x)])) as (it' & -> & Hl' & Hel').
  - by rewrite <- app_assoc.
  - cbn. by rewrite last_of_snoc.
  - done.
  - simpl in Hn. lia.
  - exists it'. rewrite <- app_assoc in Hel'. done.
Qed.

(** Walking a list with an iterator to its [i]-th element and calling
    [remove] takes exactly this element out, keeps the header ([last], the
    element count) and every other node right, and leaves the iterator so that
    the next call returns the element that followed the removed one. *)
Theorem iterator_remove_deletes (s : store) (l i : nat) (ps : list (N * N)) (a x : N) :
  rep s l ps → ps !! i = Some (a, x) → Z.of_nat (length ps) < 2 ^ 32 →
  ∃ it0 it s' it', it_walk s i (it_init l) = Some it0 ∧ it_next s it0 = Some (it, x) ∧
    it_remove s it = Some (s', it') ∧ rep s' l (delete i ps) ∧ frame s s' l ps.*1 ∧
    ∃ it'', it_next s' it' = Some (it'', default NULL (ps.*2 !! S i)).
Proof.
  intros Hrep Hi Hlen. pose proof (take_drop_middle _ _ _ Hi) as Eps.
  pose proof (lookup_lt_Some _ _ _ Hi) as Hlt.
  destruct (it_walk_rep s l ps i [] (it_init l)) as (it0 & Hw & Hl0 & Hel0); [done..|lia|].
  cbn [app] in Hel0. rewrite <- Eps in Hrep. rewrite <- Eps in Hlen.
  pose proof (it_next_rep _ _ _ _ _ Hrep Hel0) as Hnext. cbn in Hnext.
  destruct (remove_rep _ _ _ _ _ _ Hrep Hlen) as (s' & Hrem & Hrep' & Hfr).
  eexists it0, _, s', _. split; [done|]. split; [exact Hnext|]. split_and!.
  - unfold it_remove. cbn. rewrite Hl0, Hrem. cbn. reflexivity.
  - by rewrite delete_take_drop.
  - eapply frame_trans; [exact Hfr|apply (frame_refl _ _ [])| |set_solver].
    rewrite <- Eps at 2. rewrite fmap_app. set_solver.
  - eexists. erewrite it_next_rep; [|exact Hrep'|done]. by rewrite !list_lookup_fmap, lookup_drop, Nat.add_0_r.
Qed.

Definition store1 : store :=
  Store {[ END := ListNode END NULL; 10%N := ListNode 11 7; 11%N := ListNode 12 8; 12%N := ListNode END 9 ]}
        {[ 0%nat := Header 10 (NextOf 12) 3; 1%nat := Header END (FirstOf 1) 0 ]}.

Lemma store1_rep : rep store1 0 [(10, 7); (11, 8); (12, 9)]%N.
Proof.
  split; [done|split; [|by repeat split]].
  split; [by apply (bool_decide_unpack _)|by repeat constructor].
Qed.

Lemma iterator_remove_deletes_witness :
  ∃ it0 it s' it', it_walk store1 2 (it_init 0) = Some it0 ∧ it_next store1 it0 = Some (it, 9%N) ∧
    it_remove store1 it = Some (s', it') ∧ rep s' 0 [(10, 7); (11, 8)]%N.
Proof.
  destruct (iterator_remove_deletes store1 0 2 [(10, 7); (11, 8); (12, 9)]%N 12 9 store1_rep eq_refl)
    as (it0 & it & s' & it' & H1 & H2 & H3 & H4 & _); [simpl; lia|].
  exists it0, it, s', it'. split_and!; [exact H1|exact H2|exact H3|exact H4].
Defined.

(** [append] makes the list the concatenation of the two, and [disjoin]
    with the appended list undoes it. *)
Theorem append_disjoin_roundtrip (s : store) (l l2 : nat) (ps qs : list (N * N)) (fuel : nat) :
  rep s l ps → rep s l2 qs → l ≠ l2 → disjoint_nodes ps qs →
  Z.of_nat (length qs) < 2 ^ 32 → (length ps < fuel)%nat →
  ∃ s1 s2, append s l l2 = Some s1 ∧ rep s1 l (ps ++ qs) ∧ rep s1 l2 qs ∧
           disjoin fuel s1 l l2 = Some s2 ∧ rep s2 l ps ∧ rep s2 l2 qs.
Proof.
  intros Hrep Hrep2 Hne Hd Hlen Hfuel.
  destruct (append_rep s l l2 ps qs) as (s1 & Happ & Hr1 & Hf1); [done..|].
  assert (∀ a, a ∈ qs.*1 → a ∉ ps.*1) as Hd' by (intros a Ha Hp; by apply (Hd a)).
  assert (END ∉ ps.*1) as HE by (apply nodes_ok_notin_end, Hrep).
  assert (rep s1 l2 qs) as Hr12 by (by eapply rep_frame).
  pose proof Hr12 as (_ & _ & _ & HL2).
  edestruct (disjoin_rep s1 l l2 ps qs) as (s2 & Hdis & Hr2 & Hf2); [done..|].
  exists s1, s2. split_and!; try done. by eapply rep_frame.
Qed.

Lemma append_disjoin_roundtrip_witness :
  ∃ s1 s2, append store1 1 0 = Some s1 ∧ rep s1 1 [(10, 7); (11, 8); (12, 9)]%N ∧
           disjoin 1 s1 1 0 = Some s2 ∧ rep s2 1 [].
Proof.
  destruct (append_disjoin_roundtrip store1 1 0 [] [(10, 7); (11, 8); (12, 9)]%N 1)
    as (s1 & s2 & H1 & H2 & _ & H3 & H4 & _).
  - split_and!; [done|apply nodes_ok_nil|done|done].
  - apply store1_rep.
  - done.
  - intros a Ha. by apply elem_of_nil in Ha.
  - simpl. lia.
  - simpl. lia.
  - exists s1, s2. split_and!; [exact H1|exact H2|exact H3|exact H4].
Defined.

(** [C4] [bubble_sort] terminates within one pass more than the list has
    elements; the nodes stay where they are, the elements in them become a
    permutation that is sorted by the comparison function, whenever this is a
    total preorder. *)
Theorem bubble_sort_sorts (sort_func : N → N → Z) (s : store) (l : nat) (ps : list (N * N)) (fuel : nat) :
  (∀ x y, le sort_func x y ∨ le sort_func y x) → Transitive (le sort_func) →
  rep s l ps → Forall (λ y, y ≠ NULL) ps.*2 → (length ps < fuel)%nat →
  ∃ s' qs, bubble_sort fuel sort_func s l = Some s' ∧ rep s' l qs ∧ qs.*1 = ps.*1 ∧
    qs.*2 ≡ₚ ps.*2 ∧ StronglySorted (le sort_func) qs.*2 ∧ frame s s' l ps.*1.
Proof. intros Ht Htr. by apply bubble_sort_rep. Qed.

Lemma bubble_sort_sorts_witness :
  ∃ s' qs, bubble_sort 4 (λ x y, Z.of_N y - Z.of_N x) store1 0 = Some s' ∧ rep s' 0 qs ∧
    qs.*2 ≡ₚ [7; 8; 9]%N ∧ StronglySorted (λ x y : N, Z.of_N y - Z.of_N x ≤ 0) qs.*2.
Proof.
  destruct (bubble_sort_sorts (λ x y, Z.of_N y - Z.of_N x) store1 0 [(10, 7); (11, 8); (12, 9)]%N 4)
    as (s' & qs & H1 & H2 & _ & H3 & H4 & _).
  - intros x y. unfold le. lia.
  - intros x y z. unfold le. lia.
  - apply store1_rep.
  - by repeat constructor.
  - simpl. lia.
  - exists s', qs. split_and!; [exact H1|exact H2|exact H3|exact H4].
Defined.

(** [C40] When the allocation of the node fails, [push_back] reports the error
    but has already overwritten the terminator of the list with a null pointer:
    the elements before it can still be read, and the next access after the
    last one dereferences it. *)
Theorem push_back_failure_breaks_list (s : store) (l : nat) (ps : list (N * N)) (x : N) :
  rep s l ps → nodes s !! NULL = None →
  ∃ s', push_back s l x None = Some (s', true) ∧ load s' (last_of l ps) = Some NULL ∧
        ∀ it, el it = last_of l ps → it_next s' it = None.
Proof.
  intros (He & Hok & Hs & HL) Hnull. unfold push_back. rewrite HL. cbn [mbind option_bind last new_node].
  destruct (assign_last s l ps END NULL _ _ Hok Hs HL) as (s' & Has & _ & Hs' & HL' & [Hfl Hfn]).
  cbn [from_option id]. rewrite Has. exists s'. split; [done|].
  assert (load s' (last_of l ps) = Some NULL) as Hload.
  { destruct ps as [|[b y] ps _] using rev_ind.
    - rewrite last_of_nil. cbn. by rewrite HL'.
    - rewrite last_of_snoc. apply seg_app in Hs' as [_ [Hb _]]. cbn in Hb |- *. by rewrite Hb. }
  split; [done|]. intros it Hel. unfold it_next. rewrite Hel, Hload. cbn [mbind option_bind].
  rewrite Hfn by (by apply nodes_ok_notin_null). by rewrite Hnull.
Qed.

Lemma push_back_failure_breaks_list_witness :
  ∃ s', push_back store1 0 5 None = Some (s', true) ∧ load s' (NextOf 12) = Some NULL.
Proof.
  destruct (push_back_failure_breaks_list store1 0 _ 5 store1_rep eq_refl) as (s' & H1 & H2 & _).
  exists s'. split; [exact H1|exact H2].
Defined.

Lemma check_list_loop_rep s l qs : ∀ ps a x fuel cnt,
  rep s l (ps ++ (a, x) :: qs) → Forall (λ y, y ≠ NULL) (x :: qs.*2) → (length qs < fuel)%nat →
  cnt = u32 (Z.of_nat (length ps)) →
  check_list_loop fuel s a cnt =
    Some (true, last_addr a qs, u32 (Z.of_nat (length ps + length qs))).
Proof.
  induction qs as [|[b y] qs IH]; intros ps a x fuel cnt Hrep Hnn Hf ->;
    (destruct fuel as [|fuel]; [simpl in Hf; lia|]); cbn [check_list_loop];
    pose proof (rep_node _ _ _ _ Hrep) as Ha; cbn in Ha; rewrite Ha; cbn [mbind option_bind next info].
  - rewrite decide_True by done. by rewrite Nat.add_0_r.
  - pose proof Hrep as (_ & Hok & _). apply nodes_ok_app in Hok as (_ & Hok & _).
    apply nodes_ok_cons in Hok as (_ & _ & _ & Hok). apply nodes_ok_cons in Hok as (_ & Hb & _).
    rewrite decide_False by done. apply Forall_cons in Hnn as [Hx Hnn]. rewrite decide_False by done.
    rewrite (IH (ps ++ [(a, x)]) b y); [|by rewrite <- app_assoc|done|simpl in Hf; lia|].
    + rewrite last_addr_cons, length_app. cbn. do 4 f_equal. lia.
    + rewrite length_app, u32_succ. cbn. do 2 f_equal. lia.
Qed.

(** [check_list] accepts every well-formed list of non-null elements but
    the empty one, which it reports as broken although it is well formed. *)
Theorem check_list_spec (s : store) (l : nat) (ps : list (N * N)) (fuel : nat) :
  rep s l ps → Forall (λ y, y ≠ NULL) ps.*2 → (length ps < fuel)%nat →
  check_list fuel s l = Some (bool_decide (ps ≠ [])).
Proof.
  intros Hrep Hnn Hf. pose proof Hrep as (He & _ & _ & HL). unfold check_list. rewrite HL.
  cbn [mbind option_bind first last elements]. destruct ps as [|[a x] ps].
  - destruct fuel as [|fuel]; [simpl in Hf; lia|]. cbn. by rewrite He.
  - cbn [hd_addr fmap list_fmap fst].
    rewrite (check_list_loop_rep s l ps [] a x fuel 0 Hrep Hnn) by (simpl in Hf |- *; lia || done).
    cbn [mbind option_bind app length andb]. rewrite u32_succ, (bool_decide_eq_true_2 (_ = _)).
    + by rewrite !bool_decide_eq_true_2.
    + unfold last_addr. destruct ps as [|[b y] ps _] using rev_ind; [done|].
      rewrite app_comm_cons, last_of_snoc, fmap_app. cbn. by rewrite last_snoc.
Qed.

Lemma check_list_spec_witness : check_list 4 store1 0 = Some true ∧ check_list 1 store1 1 = Some false.
Proof.
  split.
  - rewrite (check_list_spec store1 0 _ 4 store1_rep); [done|by repeat constructor|simpl; lia].
  - rewrite (check_list_spec store1 1 [] 1); [done| |constructor|simpl; lia].
    split_and!; [done|apply nodes_ok_nil|done|done].
Defined.
End properties.
