(* ===== verification/PList.v ===== *)
(** * Intrusive lists with policies: I_P_List of sql_plist.h

    The template arguments [C] (element counting) and [I] (insertion policy) of
    the class are two type classes with the operations the list calls; their
    laws say what the list relies on.  The theorems are proved against these
    interfaces, and the four policy classes of the source are instances. *)

From S2P Require Import Prelude.
From Stdlib Require Import ZArith Lia.
From stdpp Require Import base numbers gmap fin_maps option list.
Open Scope Z_scope.
Open Scope cint_scope.

(** ** Policies *)

Module PList.

(** A [T**]: the [m_first] member of a list or the next member of an element. *)
Inductive tref :=
  | FirstOf (l : nat)
  | NextOf (a : N).

#[global] Instance tref_eq_dec : EqDecision tref.
Proof. solve_decision. Defined.

Abbreviation NULL := 0%N.

(** The counting policy [C]. *)
Class Counter (C : Type) := {
  c_reset : C → C;
  c_inc : C → C;
  c_dec : C → C;
}.

(** The insertion policy [I]; [get_last] is [None] where the class does not have
    the method. *)
Class Insertion (I : Type) := {
  i_init : tref → I;
  i_set_last : tref → I → I;
  i_get_last : I → option tref;
}.

Record null_counter := NullCounter {}.
#[global] Instance I_P_List_null_counter : Counter null_counter := {
  c_reset c := c; c_inc c := c; c_dec c := c }.

Record counter := MkCounter { m_counter : Z }.
#[global] Instance I_P_List_counter : Counter counter := {
  c_reset c := MkCounter 0;
  c_inc c := MkCounter (u32 (m_counter c + 1));
  c_dec c := MkCounter (u32 (m_counter c - 1)) }.

Record no_push_back := NoPushBack {}.
#[global] Instance I_P_List_no_push_back : Insertion no_push_back := {
  i_init r := NoPushBack; i_set_last r i := i; i_get_last i := None }.

Record fast_push_back := FastPushBack { m_last : tref }.
#[global] Instance I_P_List_fast_push_back : Insertion fast_push_back := {
  i_init r := FastPushBack r; i_set_last r i := FastPushBack r; i_get_last i := Some (m_last i) }.

(** ** The list *)

(** An element: the members that [B::next_ptr] and [B::prev_ptr] select. *)
Record elem := Elem { next : N; prev : tref }.

Section list.
Context {C I : Type} `{!Counter C} `{!Insertion I}.

Record plist := PL { m_first : N; cnt : C; ins : I }.

Record store := Store { elems : gmap N elem; lists : gmap nat plist }.

Definition set_elem (s : store) (a : N) (e : elem) : store := Store (<[a := e]> (elems s)) (lists s).
Definition set_list (s : store) (l : nat) (L : plist) : store := Store (elems s) (<[l := L]> (lists s)).

(** [*B::next_ptr(a)] and [*B::prev_ptr(a)]. *)
Definition next_ptr (s : store) (a : N) : option N := next <$> elems s !! a.
Definition prev_ptr (s : store) (a : N) : option tref := prev <$> elems s !! a.
Definition set_next (s : store) (a v : N) : option store :=
  e ← elems s !! a; Some (set_elem s a (Elem v (prev e))).
Definition set_prev (s : store) (a : N) (r : tref) : option store :=
  e ← elems s !! a; Some (set_elem s a (Elem (next e) r)).

(** [*r] and [*r= v]. *)
Definition load (s : store) (r : tref) : option N :=
  match r with
  | FirstOf l => m_first <$> lists s !! l
  | NextOf a => next_ptr s a
  end.
Definition assign (s : store) (r : tref) (v : N) : option store :=
  match r with
  | FirstOf l => L ← lists s !! l; Some (set_list s l (PL v (cnt L) (ins L)))
  | NextOf a => set_next s a v
  end.

Definition set_last (s : store) (l : nat) (r : tref) : option store :=
  L ← lists s !! l; Some (set_list s l (PL (m_first L) (cnt L) (i_set_last r (ins L)))).
Definition inc (s : store) (l : nat) : option store :=
  L ← lists s !! l; Some (set_list s l (PL (m_first L) (c_inc (cnt L)) (ins L))).
Definition dec (s : store) (l : nat) : option store :=
  L ← lists s !! l; Some (set_list s l (PL (m_first L) (c_dec (cnt L)) (ins L))).

Definition empty (s : store) (l : nat) : option store :=
  L ← lists s !! l;
  Some (set_list s l (PL NULL (c_reset (cnt L)) (i_set_last (FirstOf l) (ins L)))).

Definition front (s : store) (l : nat) : option N := m_first <$> lists s !! l.

Definition is_empty (s : store) (l : nat) : option bool :=
  f ← front s l; Some (bool_decide (f = NULL)).

Definition push_front (s : store) (l : nat) (a : N) : option store :=
  f ← front s l;
  s ← set_next s a f;
  s ← (if decide (f ≠ NULL) then set_prev s f (NextOf a) else set_last s l (NextOf a));
  s ← assign s (FirstOf l) a;
  s ← set_prev s a (FirstOf l);
  inc s l.

Definition push_back (s : store) (l : nat) (a : N) : option store :=
  L ← lists s !! l;
  last ← i_get_last (ins L);
  v ← load s last;
  s ← set_next s a v;
  s ← assign s last a;
  s ← set_prev s a last;
  s ← set_last s l (NextOf a);
  inc s l.

Definition insert_after (s : store) (l : nat) (pos a : N) : option store :=
  if decide (pos = NULL) then push_front s l a else
  v ← next_ptr s pos;
  s ← set_next s a v;
  s ← set_prev s a (NextOf pos);
  s ← set_next s pos a;
  v ← next_ptr s a;
  s ← (if decide (v ≠ NULL) then set_prev s v (NextOf a) else set_last s l (NextOf a));
  inc s l.

Definition remove (s : store) (l : nat) (a : N) : option store :=
  nxt ← next_ptr s a;
  p ← prev_ptr s a;
  s ← (if decide (nxt ≠ NULL) then set_prev s nxt p else set_last s l p);
  p ← prev_ptr s a;
  s ← assign s p nxt;
  dec s l.

Definition pop_front (s : store) (l : nat) : option (store * N) :=
  result ← front s l;
  if decide (result ≠ NULL) then s ← remove s l result; Some (s, result) else Some (s, result).

(** [swap]: both [set_last] calls are on this list's own policy, as written. *)
Definition swap (s : store) (l r : nat) : option store :=
  L ← lists s !! l; R ← lists s !! r;
  let s := set_list s r (PL (m_first L) (cnt R) (ins L)) in
  let s := set_list s l (PL (m_first R) (cnt L) (ins R)) in
  s ← (if decide (m_first R ≠ NULL) then set_prev s (m_first R) (FirstOf l) else set_last s l (FirstOf l));
  s ← (if decide (m_first L ≠ NULL) then set_prev s (m_first L) (FirstOf r) else set_last s l (FirstOf r));
  L ← lists s !! l; R ← lists s !! r;
  let s := set_list s r (PL (m_first R) (cnt L) (ins R)) in
  Some (set_list s l (PL (m_first L) (cnt R) (ins L))).

(** ** I_P_List_iterator *)

Record iterator := Iter { it_list : nat; current : N }.

Definition it_init (s : store) (l : nat) : option iterator := f ← front s l; Some (Iter l f).

(** [it++] *)
Definition it_next (s : store) (it : iterator) : option (iterator * N) :=
  if decide (current it ≠ NULL) then
    n ← next_ptr s (current it); Some (Iter (it_list it) n, current it)
  else Some (it, current it).

(** [++it] *)
Definition it_pre_next (s : store) (it : iterator) : option (iterator * N) :=
  n ← next_ptr s (current it); Some (Iter (it_list it) n, n).

Definition it_rewind (s : store) (it : iterator) : option iterator := it_init s (it_list it).

End list.
Arguments plist : clear implicits.
Arguments store : clear implicits.
End PList.

(** ** What the list relies on in its policies *)

Section laws.
Import PList.

Class CounterLaws (C : Type) `{!Counter C} := {
  counts : C → nat → Prop;
  counts_reset c : counts (c_reset c) 0;
  counts_inc c n : counts c n → counts (c_inc c) (S n);
  counts_dec c n : counts c (S n) → counts (c_dec c) n;
}.

Class InsertionLaws (I : Type) `{!Insertion I} := {
  tracks : I → tref → Prop;
  tracks_init r : tracks (i_init r) r;
  tracks_set_last r i : tracks (i_set_last r i) r;
  tracks_get_last r r' i : tracks i r → i_get_last i = Some r' → r' = r;
}.

#[global] Instance null_counter_laws : CounterLaws null_counter := {
  counts _ _ := True; counts_reset _ := I; counts_inc _ _ _ := I; counts_dec _ _ _ := I }.

#[global] Instance counter_laws : CounterLaws counter.
Proof.
  refine {| counts c n := m_counter c = u32 (Z.of_nat n) |}.
  - done.
  - intros c n H. cbn. rewrite H. apply u32_succ.
  - intros c n H. cbn. rewrite H. apply u32_pred.
Defined.

#[global] Instance no_push_back_laws : InsertionLaws no_push_back := {
  tracks _ _ := True; tracks_init _ := I; tracks_set_last _ _ := I; tracks_get_last _ _ _ _ H := match H with eq_refl => I end }.

#[global] Instance fast_push_back_laws : InsertionLaws fast_push_back.
Proof.
  refine {| tracks i r := m_last i = r |}; [done..|].
  intros r r' i Hr. cbn. congruence.
Defined.

End laws.

(** ** Representation *)

Section rep.
Import PList.
Context {C I : Type} `{HC : !Counter C, HCL : !CounterLaws C} `{HI : !Insertion I, HIL : !InsertionLaws I}.
Implicit Types (s : store C I) (l : nat) (p : tref).

(** The reference that designates what follows the elements [xs], which begin
    at the reference [p]. *)
Definition end_ref p (xs : list N) : tref :=
  match list.last xs with Some a => NextOf a | None => p end.

(** The elements [xs] are chained in both directions from [p] to [q]. *)
Fixpoint dseg (h : gmap N elem) p (xs : list N) (q : N) : Prop :=
  match xs with
  | [] => True
  | a :: xs => h !! a = Some (Elem (hd_addr xs q) p) ∧ dseg h (NextOf a) xs q
  end.

Definition rep s l (xs : list N) : Prop :=
  NoDup xs ∧ NULL ∉ xs ∧ dseg (elems s) (FirstOf l) xs NULL ∧
  ∃ c i, lists s !! l = Some (PL (hd_addr xs NULL) c i) ∧
         counts c (length xs) ∧ tracks i (end_ref (FirstOf l) xs).

(** Only the list [l] and the elements of [A] change. *)
Definition frame s s' l (A : list N) : Prop :=
  (∀ k, k ≠ l → lists s' !! k = lists s !! k) ∧
  (∀ a, a ∉ A → elems s' !! a = elems s !! a).

Lemma end_ref_snoc p xs a : end_ref p (xs ++ [a]) = NextOf a.
Proof. unfold end_ref. by rewrite last_snoc. Qed.

Lemma end_ref_cons p a xs : end_ref p (a :: xs) = end_ref (NextOf a) xs.
Proof. unfold end_ref. rewrite last_cons. by destruct (list.last xs). Qed.

Lemma end_ref_app p xs ys : end_ref p (xs ++ ys) = end_ref (end_ref p xs) ys.
Proof.
  revert p. induction xs as [|a xs IH]; intros p; [done|].
  rewrite <- app_comm_cons, !end_ref_cons. apply IH.
Qed.

Lemma dseg_app h p xs ys q :
  dseg h p (xs ++ ys) q ↔ dseg h p xs (hd_addr ys q) ∧ dseg h (end_ref p xs) ys q.
Proof.
  revert p. induction xs as [|a xs IH]; intros p; cbn [dseg app]; [tauto|].
  rewrite IH, hd_addr_app, end_ref_cons. tauto.
Qed.

Lemma dseg_frame h h' p xs q :
  (∀ a, a ∈ xs → h' !! a = h !! a) → dseg h p xs q → dseg h' p xs q.
Proof.
  revert p. induction xs as [|a xs IH]; intros p Hf; cbn [dseg]; [done|]. intros [Ha Hs]. split.
  - by rewrite Hf by left.
  - apply IH; [|done]. intros b Hb. apply Hf. by right.
Qed.

Lemma dseg_insert_ne h p xs q a e : a ∉ xs → dseg h p xs q → dseg (<[a := e]> h) p xs q.
Proof. intros Ha. apply dseg_frame. intros b Hb. apply lookup_insert_ne. by intros ->. Qed.

(** [*r= v] through the end reference of [xs] relinks the chain to [v]. *)
Lemma assign_end s l xs q v c i :
  NoDup xs → dseg (elems s) (FirstOf l) xs q → lists s !! l = Some (PL (hd_addr xs q) c i) →
  ∃ s', assign s (end_ref (FirstOf l) xs) v = Some s' ∧ dseg (elems s') (FirstOf l) xs v ∧
    lists s' !! l = Some (PL (hd_addr xs v) c i) ∧ frame s s' l xs ∧
    (∀ a, a ∉ xs → elems s' !! a = elems s !! a).
Proof.
  intros Hnd Hs HL. destruct xs as [|a xs _] using rev_ind.
  - cbn. rewrite HL. cbn. eexists. split_and!; [done..| | |done].
    + cbn. by rewrite lookup_insert_eq.
    + split; [|done]. intros k Hk. cbn. by rewrite lookup_insert_ne.
  - apply dseg_app in Hs as [Hs [Ha _]]. rewrite end_ref_snoc. cbn. unfold set_next. rewrite Ha. cbn.
    apply NoDup_app in Hnd as (_ & Hd & _).
    assert (∀ b, b ∉ xs ++ [a] → <[a := Elem v (end_ref (FirstOf l) xs)]> (elems s) !! b = elems s !! b).
    { intros b Hb. rewrite lookup_insert_ne; [done|]. intros ->. apply Hb. apply elem_of_app. right. by left. }
    eexists. split_and!; [done| | | |done].
    + apply dseg_app. cbn. split; [|split; [|done]].
      * apply dseg_insert_ne; [|done]. intros Hin. apply (Hd a Hin). by left.
      * by rewrite lookup_insert_eq.
    + cbn. by rewrite HL, !hd_addr_app.
    + split; done.
Qed.

Lemma load_end s l xs q c i :
  dseg (elems s) (FirstOf l) xs q → lists s !! l = Some (PL (hd_addr xs q) c i) →
  load s (end_ref (FirstOf l) xs) = Some q.
Proof.
  intros Hs HL. destruct xs as [|a xs _] using rev_ind; [cbn; by rewrite HL|].
  apply dseg_app in Hs as [_ [Ha _]]. rewrite end_ref_snoc. cbn. unfold next_ptr. by rewrite Ha.
Qed.

(** Changing the back link of the first element, when there is one, moves the
    chain to another reference. *)
Definition relink_head (h : gmap N elem) (xs : list N) (p : tref) : gmap N elem :=
  match xs with
  | [] => h
  | a :: xs => <[a := Elem (hd_addr xs NULL) p]> h
  end.

Lemma relink_head_dseg h p p' xs :
  NoDup xs → dseg h p xs NULL → dseg (relink_head h xs p') p' xs NULL.
Proof.
  destruct xs as [|a xs]; [done|]. cbn. intros [Ha _]%NoDup_cons [_ Hs]. split.
  - by rewrite lookup_insert_eq.
  - by apply dseg_insert_ne.
Qed.

Lemma relink_head_ne h xs p a : a ∉ xs → relink_head h xs p !! a = h !! a.
Proof.
  destruct xs as [|b xs]; [done|]. intros Hn. cbn. rewrite lookup_insert_ne; [done|].
  intros ->. apply Hn. by left.
Qed.

Lemma set_prev_head s p0 b xs p :
  dseg (elems s) p0 (b :: xs) NULL →
  set_prev s b p = Some (Store (relink_head (elems s) (b :: xs) p) (lists s)).
Proof. intros [Hb _]. unfold set_prev. by rewrite Hb. Qed.

(** The pointwise description of a heap in which [a] was linked between [pre]
    and [post]. *)
Lemma dseg_link h h' l pre a post :
  NoDup (pre ++ a :: post) →
  dseg h' (FirstOf l) pre a →
  h' !! a = Some (Elem (hd_addr post NULL) (end_ref (FirstOf l) pre)) →
  dseg h (end_ref (FirstOf l) pre) post NULL →
  (∀ b, b ∈ post → h' !! b = relink_head h post (NextOf a) !! b) →
  dseg h' (FirstOf l) (pre ++ a :: post) NULL.
Proof.
  intros Hnd Hpre Ha Hpost Hb. apply dseg_app. split; [done|]. split; [done|].
  apply NoDup_app in Hnd as (_ & _ & [_ Hnd]%NoDup_cons).
  eapply dseg_frame; [exact Hb|]. by eapply relink_head_dseg.
Qed.

(** A list is kept by what changes neither its header nor its elements. *)
Lemma pl_rep_frame s s' l xs :
  rep s l xs → lists s' !! l = lists s !! l → (∀ a, a ∈ xs → elems s' !! a = elems s !! a) → rep s' l xs.
Proof using Type.
  intros (Hnd & Hz & Hs & Hl) El Ee. split_and!; [done..| |by rewrite El]. by eapply dseg_frame.
Qed.

(** The back links lead from an element to its own list: two lists have no
    element in common. *)
Lemma rep_disjoint s l k xs ys a : rep s l xs → rep s k ys → l ≠ k → a ∈ xs → a ∉ ys.
Proof using Type.
  intros (_ & _ & Hx & _) (_ & _ & Hy & _) Hlk (pre & post & ->)%list_elem_of_split.
  revert a post Hx. induction pre as [|b pre IH] using rev_ind; intros a post Hx Hin;
    pose proof Hin as (pre2 & post2 & Ey)%list_elem_of_split; pose proof Hy as Hy';
    rewrite Ey in Hy'; pose proof Hx as [_ [Ha _]]%dseg_app; apply dseg_app in Hy' as [_ [Ha' _]]; rewrite Ha in Ha'.
  - destruct pre2 as [|b pre2 _] using rev_ind; [|rewrite end_ref_snoc in Ha'; done]. by injection Ha' as _ ->.
  - rewrite end_ref_snoc in Ha'.
    destruct pre2 as [|b2 pre2 _] using rev_ind; [done|]. rewrite end_ref_snoc in Ha'. injection Ha' as _ <-.
    apply (IH b (a :: post)); [by rewrite <- app_assoc in Hx|]. rewrite Ey. set_solver.
Qed.
End rep.

(** ** Refinement of the operations *)

Section ops.
Import PList.
Context {C I : Type} `{HC : !Counter C, HCL : !CounterLaws C} `{HI : !Insertion I, HIL : !InsertionLaws I}.
Implicit Types (s : store C I) (l : nat) (p : tref).

(** [a] is an element object that is not in the list. *)
Definition unlinked s (a : N) (xs : list N) : Prop := is_Some (elems s !! a) ∧ a ≠ NULL ∧ a ∉ xs.

Lemma set_next_some s a e v : elems s !! a = Some e → set_next s a v = Some (set_elem s a (Elem v (prev e))).
Proof using Type. intros H. unfold set_next. by rewrite H. Qed.

Lemma set_prev_some s a e r : elems s !! a = Some e → set_prev s a r = Some (set_elem s a (Elem (next e) r)).
Proof using Type. intros H. unfold set_prev. by rewrite H. Qed.

Lemma next_ptr_some s a e : elems s !! a = Some e → next_ptr s a = Some (next e).
Proof using Type. intros H. unfold next_ptr. by rewrite H. Qed.

Lemma prev_ptr_some s a e : elems s !! a = Some e → prev_ptr s a = Some (prev e).
Proof using Type. intros H. unfold prev_ptr. by rewrite H. Qed.

(** Look an address up after a series of updates. *)
Ltac lookup_done :=
  cbn [elems lists set_elem set_list];
  repeat (rewrite lookup_insert_eq || rewrite lookup_insert_ne by (done || set_solver)); done.
(** Run one memory access of a command. *)
Ltac step_mem :=
  first [erewrite set_next_some by lookup_done | erewrite set_prev_some by lookup_done
        |erewrite next_ptr_some by lookup_done | erewrite prev_ptr_some by lookup_done];
  cbn [mbind option_bind next prev].

Lemma link_rep s s' l pre a post c i i' :
  rep s l (pre ++ post) → a ≠ NULL → a ∉ pre ++ post →
  lists s !! l = Some (PL (hd_addr (pre ++ post) NULL) c i) →
  dseg (elems s') (FirstOf l) pre a →
  elems s' !! a = Some (Elem (hd_addr post NULL) (end_ref (FirstOf l) pre)) →
  (∀ b, b ∈ post → elems s' !! b = relink_head (elems s) post (NextOf a) !! b) →
  lists s' !! l = Some (PL (hd_addr pre a) (c_inc c) i') →
  i' = match post with [] => i_set_last (NextOf a) i | _ => i end →
  rep s' l (pre ++ a :: post).
Proof using All.
  intros (Hnd & Hnull & Hs & c0 & i0 & HL0 & Hc & Hi) Ha Hna HL Hpre Hea Hpost HL' ->.
  rewrite HL in HL0. injection HL0 as <- <-. apply dseg_app in Hs as [_ Hs].
  assert (NoDup (pre ++ a :: post)) as Hnd'.
  { apply NoDup_app in Hnd as (H1 & H2 & H3). apply NoDup_app. split_and!; [done| |].
    - intros b Hb. apply not_elem_of_cons. split; [|by apply H2]. intros ->.
      apply Hna, elem_of_app. by left.
    - apply NoDup_cons. split; [|done]. intros Hin. apply Hna, elem_of_app. by right. }
  split_and!; [done| | |].
  - intros [Hin|[Hin|Hin]%elem_of_cons]%elem_of_app; [|done|]; apply Hnull, elem_of_app; auto.
  - by eapply dseg_link.
  - eexists _, _. split; [by rewrite hd_addr_app|]. split.
    + rewrite length_app in *. cbn. rewrite Nat.add_succ_r. by apply counts_inc.
    + rewrite end_ref_app, end_ref_cons in *. destruct post as [|b post]; [apply tracks_set_last|].
      rewrite end_ref_cons in *. done.
Qed.

Lemma pl_push_front_rep s l xs a :
  rep s l xs → unlinked s a xs →
  ∃ s', push_front s l a = Some s' ∧ rep s' l (a :: xs) ∧ frame s s' l (a :: xs).
Proof using All.
  intros Hrep ([e He] & Ha & Hna). pose proof Hrep as (Hnd & Hnull & Hs & c & i & HL & _).
  unfold push_front, front. rewrite HL. cbn [fmap option_fmap option_map mbind option_bind m_first].
  step_mem.
  destruct xs as [|b xs]; cbn [hd_addr].
  - rewrite decide_False by (intros H; by apply H). unfold set_last. cbn [lists set_elem]. rewrite HL.
    cbn. rewrite lookup_insert_eq. cbn. step_mem.
    unfold inc. cbn. rewrite lookup_insert_eq. cbn. eexists. split; [done|]. split.
    + eapply (link_rep s _ l [] a []); [done..| | | |cbn; by rewrite lookup_insert_eq|done].
      * done.
      * cbn. by rewrite lookup_insert_eq.
      * intros b Hb. by apply elem_of_nil in Hb.
    + split.
      * intros k Hk. cbn. by rewrite !lookup_insert_ne by done.
      * intros b Hb%not_elem_of_cons. cbn. rewrite !lookup_insert_ne by naive_solver. done.
  - apply not_elem_of_cons in Hna as [Hab Hna]. apply not_elem_of_cons in Hnull as [Hb Hnull].
    rewrite decide_True by done. destruct Hs as [Heb Hs].
    step_mem. cbn. rewrite HL. cbn. step_mem.
    unfold inc. cbn. rewrite lookup_insert_eq. cbn. eexists. split; [done|]. split.
    + eapply (link_rep s _ l [] a (b :: xs)); [exact Hrep|done| |exact HL|done| | |cbn; by rewrite lookup_insert_eq|done].
      * by apply not_elem_of_cons.
      * cbn. by rewrite lookup_insert_eq.
      * intros d Hd. cbn. assert (d ≠ a) by set_solver.
        rewrite lookup_insert_ne by done. destruct (decide (d = b)) as [->|].
        -- by rewrite !lookup_insert_eq.
        -- by rewrite !lookup_insert_ne.
    + split.
      * intros k Hk. cbn. by rewrite !lookup_insert_ne by done.
      * intros d Hd. cbn. rewrite !lookup_insert_ne by set_solver. done.
Qed.

Lemma pl_push_back_rep s l xs a :
  rep s l xs → unlinked s a xs →
  (∀ i : I, is_Some (i_get_last i)) →
  ∃ s', push_back s l a = Some s' ∧ rep s' l (xs ++ [a]) ∧ frame s s' l (a :: xs).
Proof using All.
  intros Hrep ([e He] & Ha & Hna) Hlast. pose proof Hrep as (Hnd & Hnull & Hs & c & i & HL & Hc & Hi).
  unfold push_back. rewrite HL. cbn [mbind option_bind ins].
  destruct (Hlast i) as [r Hr]. rewrite Hr. cbn [mbind option_bind].
  apply (tracks_get_last _ _ _ Hi) in Hr as ->. rewrite (load_end _ _ _ _ _ _ Hs HL). cbn [mbind option_bind].
  step_mem.
  set (s1 := set_elem s a (Elem NULL (prev e))).
  destruct (assign_end s1 l xs NULL a c i Hnd) as (s2 & -> & Hs2 & HL2 & Hf2 & He2).
  { by apply dseg_insert_ne. } { done. }
  cbn [mbind option_bind]. erewrite set_prev_some by (rewrite He2 by done; unfold s1; lookup_done).
  cbn [mbind option_bind next]. unfold set_last. cbn [lists set_elem].
  rewrite HL2. cbn [mbind option_bind]. unfold inc. cbn [lists set_list]. rewrite lookup_insert_eq.
  cbn. eexists. split; [done|]. split.
  - eapply (link_rep s _ l xs a []); rewrite ?app_nil_r; [done..| | | | |done].
    + cbn. by apply dseg_insert_ne.
    + cbn. by rewrite lookup_insert_eq.
    + intros b Hb. by apply elem_of_nil in Hb.
    + cbn. by rewrite lookup_insert_eq.
  - split.
    + intros k Hk. cbn. rewrite !lookup_insert_ne by done. by rewrite (proj1 Hf2) by done.
    + intros b [Hb Hb']%not_elem_of_cons. cbn. rewrite lookup_insert_ne, He2 by done. cbn.
      by rewrite lookup_insert_ne.
Qed.

Lemma insert_after_rep s l pre pos post a :
  rep s l (pre ++ pos :: post) → unlinked s a (pre ++ pos :: post) →
  ∃ s', insert_after s l pos a = Some s' ∧ rep s' l (pre ++ pos :: a :: post) ∧
        frame s s' l (a :: pre ++ pos :: post).
Proof using All.
  intros Hrep ([e He] & Ha & Hna). pose proof Hrep as (Hnd & Hnull & Hs & c & i & HL & Hc & Hi).
  assert (pos ≠ NULL ∧ pos ≠ a) as [Hpos Hpa] by set_solver.
  pose proof Hs as Hs0. apply dseg_app in Hs0 as [Hs1 [Hep Hs2]].
  unfold insert_after. rewrite decide_False by done. do 5 step_mem.
  assert (NoDup pre ∧ pos ∉ pre ∧ pos ∉ post ∧ a ∉ pre ∧ a ∉ post ∧ NULL ∉ post) as (?&?&?&?&?&?).
  { apply NoDup_app in Hnd as (Hnd1 & Hnd2 & [Hnd3 _]%NoDup_cons). set_solver. }
  replace (pre ++ pos :: a :: post) with ((pre ++ [pos]) ++ a :: post) by by rewrite <- app_assoc.
  assert (rep s l ((pre ++ [pos]) ++ post)) as Hrep' by by rewrite <- app_assoc.
  destruct post as [|b post]; cbn [hd_addr].
  - rewrite decide_False by (intros H'; by apply H'). unfold set_last. cbn [lists set_elem]. rewrite HL.
    cbn [mbind option_bind]. unfold inc. cbn [lists set_list]. rewrite lookup_insert_eq. cbn.
    eexists. split; [done|]. split.
    + eapply (link_rep s _ l (pre ++ [pos]) a []); [exact Hrep'|done| | | | | | |done]; rewrite ?end_ref_snoc, ?hd_addr_app.
      * by rewrite app_nil_r.
      * rewrite HL. by rewrite !hd_addr_app.
      * apply dseg_app. split; [|split; [|done]]; cbn.
        -- by do 3 (apply dseg_insert_ne; [done|]).
        -- by rewrite lookup_insert_eq.
      * cbn. by rewrite lookup_insert_ne, lookup_insert_eq by done.
      * intros b Hb. by apply elem_of_nil in Hb.
      * cbn. by rewrite lookup_insert_eq, ?hd_addr_app.
    + split.
      * intros k Hk. cbn. by rewrite !lookup_insert_ne.
      * intros b Hb. cbn. rewrite !lookup_insert_ne by set_solver. done.
  - assert (b ≠ a ∧ b ≠ pos ∧ b ∉ pre ∧ b ≠ NULL) as (?&?&?&?).
    { apply NoDup_app in Hnd as (Hnd1 & Hnd2 & _). set_solver. }
    rewrite decide_True by done. destruct Hs2 as [Heb _]. step_mem. unfold inc. cbn [lists set_elem].
    rewrite HL. cbn. eexists. split; [done|]. split.
    + eapply (link_rep s _ l (pre ++ [pos]) a (b :: post)); [exact Hrep'|done| | | | | | |done]; rewrite ?end_ref_snoc.
      * by rewrite <- app_assoc.
      * rewrite HL. by rewrite !hd_addr_app.
      * apply dseg_app. split; [|split; [|done]]; cbn.
        -- by do 4 (apply dseg_insert_ne; [done|]).
        -- by rewrite lookup_insert_ne, lookup_insert_eq by done.
      * cbn. by rewrite !lookup_insert_ne, lookup_insert_eq by done.
      * intros d Hd. cbn. destruct (decide (d = b)) as [->|]; [by rewrite !lookup_insert_eq|].
        rewrite !lookup_insert_ne by set_solver. done.
      * cbn. by rewrite lookup_insert_eq, ?hd_addr_app.
    + split.
      * intros k Hk. cbn. by rewrite !lookup_insert_ne.
      * intros d Hd. cbn. rewrite !lookup_insert_ne by set_solver. done.
Qed.

Lemma pl_remove_rep s l pre a post :
  rep s l (pre ++ a :: post) →
  ∃ s', remove s l a = Some s' ∧ rep s' l (pre ++ post) ∧ frame s s' l (pre ++ post).
Proof using All.
  intros (Hnd & Hnull & Hs & c & i & HL & Hc & Hi).
  apply dseg_app in Hs as [Hs1 [Hea Hs2]].
  apply NoDup_app in Hnd as (Hnd1 & Hd & [Hnd3 Hnd2]%NoDup_cons).
  assert (NoDup (pre ++ post)) as Hnd'.
  { apply NoDup_app. split_and!; [done| |done]. intros b Hb Hp. apply (Hd b Hb). by right. }
  assert (a ∉ pre) as Hapre by (intros Hb; apply (Hd a Hb); by left).
  rewrite hd_addr_app in HL. cbn [hd_addr] in HL, Hs1.
  set (i' := match post with [] => i_set_last (end_ref (FirstOf l) pre) i | _ => i end).
  set (s1 := Store (relink_head (elems s) post (end_ref (FirstOf l) pre))
                   (<[l := PL (hd_addr pre a) c i']> (lists s))).
  unfold remove. rewrite (next_ptr_some _ _ _ Hea), (prev_ptr_some _ _ _ Hea).
  cbn [mbind option_bind next prev].
  assert ((if decide (hd_addr post NULL ≠ NULL) then set_prev s (hd_addr post NULL) (end_ref (FirstOf l) pre)
           else set_last s l (end_ref (FirstOf l) pre)) = Some s1) as ->.
  { destruct post as [|b post]; cbn [hd_addr].
    - rewrite decide_False by (intros H; by apply H). unfold set_last. by rewrite HL.
    - rewrite decide_True by set_solver. rewrite (set_prev_head _ _ _ _ _ Hs2). f_equal. unfold s1, i'.
      by rewrite insert_id. }
  cbn [mbind option_bind].
  assert (elems s1 !! a = elems s !! a) as Ea by (cbn; by rewrite relink_head_ne).
  rewrite (prev_ptr_some s1 a _ (eq_trans Ea Hea)). cbn [mbind option_bind prev].
  destruct (assign_end s1 l pre a (hd_addr post NULL) c i' Hnd1) as (s2 & -> & Hs3 & HL2 & Hf2 & He2).
  { eapply dseg_frame; [|exact Hs1]. intros b Hb. cbn. apply relink_head_ne. intros Hp.
    apply (Hd b Hb). by right. }
  { cbn. by rewrite lookup_insert_eq. }
  cbn [mbind option_bind]. unfold dec. rewrite HL2. cbn. eexists. split; [done|]. split.
  - split_and!; [done|set_solver| |].
    + cbn. apply dseg_app. split; [done|]. eapply dseg_frame; [|by eapply (relink_head_dseg _ _ _ post)].
      intros b Hb. rewrite He2; [done|]. intros Hp. apply (Hd b Hp). by right.
    + eexists _, _. cbn. rewrite lookup_insert_eq, hd_addr_app. split; [done|]. split.
      * apply counts_dec. rewrite length_app in *. cbn [length] in Hc. by rewrite Nat.add_succ_r in Hc.
      * unfold i'. rewrite end_ref_app, end_ref_cons in *. destruct post as [|b post]; [apply tracks_set_last|].
        by rewrite end_ref_cons in *.
  - split.
    + intros k Hk. cbn. rewrite lookup_insert_ne by done. rewrite (proj1 Hf2) by done. cbn.
      by rewrite lookup_insert_ne.
    + intros b Hb. cbn. rewrite He2 by set_solver. cbn. apply relink_head_ne. set_solver.
Qed.

Lemma pop_front_rep s l xs :
  rep s l xs →
  ∃ s', pop_front s l = Some (s', hd_addr xs NULL) ∧ rep s' l (drop 1 xs) ∧ frame s s' l (drop 1 xs).
Proof using All.
  intros Hrep. pose proof Hrep as (Hnd & Hnull & Hs & c & i & HL & _).
  unfold pop_front, front. rewrite HL. cbn [fmap option_fmap option_map mbind option_bind m_first].
  destruct xs as [|a xs]; cbn [hd_addr drop].
  - rewrite decide_False by (intros H; by apply H). by exists s.
  - rewrite decide_True by set_solver. destruct (pl_remove_rep s l [] a xs Hrep) as (s' & -> & Hr & Hf).
    exists s'. by rewrite drop_0.
Qed.

(** An empty list of the class: what [empty] and the constructor establish. *)
Lemma empty_rep s l L : lists s !! l = Some L →
  ∃ s', empty s l = Some s' ∧ rep s' l [] ∧ frame s s' l [].
Proof using All.
  intros HL. unfold empty. rewrite HL. cbn. eexists. split; [done|]. split.
  - split_and!; [constructor|set_solver|done|]. eexists _, _. cbn. rewrite lookup_insert_eq.
    split; [done|]. split; [apply counts_reset|apply tracks_set_last].
  - split; [|done]. intros k Hk. cbn. by rewrite lookup_insert_ne.
Qed.
End ops.

(** ** Histories

    The operations of a list whose policies support all of them. *)

Section history.
Import PList.
Context {C I : Type} `{HC : !Counter C, HCL : !CounterLaws C} `{HI : !Insertion I, HIL : !InsertionLaws I}.
Context (Hlast : ∀ i : I, is_Some (i_get_last i)).
Implicit Types (s : store C I) (l : nat).

Inductive op :=
  | PushFront (a : N)
  | PushBack (a : N)
  | InsertAfter (pos a : N)
  | Remove (a : N)
  | PopFront.

Definition exec s l (o : op) : option (store C I * N) :=
  match o with
  | PushFront a => s ← push_front s l a; Some (s, NULL)
  | PushBack a => s ← push_back s l a; Some (s, NULL)
  | InsertAfter pos a => s ← insert_after s l pos a; Some (s, NULL)
  | Remove a => s ← remove s l a; Some (s, NULL)
  | PopFront => pop_front s l
  end.

(** What the operations mean for the sequence of the elements; [None] when the
    caller breaks the contract (linking an element twice, removing one that is
    not linked). *)
Fixpoint insert_behind (pos a : N) (xs : list N) : list N :=
  match xs with
  | [] => []
  | x :: xs => if decide (x = pos) then x :: a :: xs else x :: insert_behind pos a xs
  end.

Definition spec (xs : list N) (o : op) : option (list N * N) :=
  match o with
  | PushFront a => if decide (a ∈ xs) then None else Some (a :: xs, NULL)
  | PushBack a => if decide (a ∈ xs) then None else Some (xs ++ [a], NULL)
  | InsertAfter pos a =>
      if decide (a ∈ xs) then None else
      if decide (pos = NULL) then Some (a :: xs, NULL)
      else if decide (pos ∈ xs) then Some (insert_behind pos a xs, NULL) else None
  | Remove a => if decide (a ∈ xs) then Some (filter (.≠ a) xs, NULL) else None
  | PopFront => Some (drop 1 xs, hd_addr xs NULL)
  end.

Fixpoint exec_all s l (os : list op) : option (store C I * list N) :=
  match os with
  | [] => Some (s, [])
  | o :: os => '(s, r) ← exec s l o; '(s, rs) ← exec_all s l os; Some (s, r :: rs)
  end.

Fixpoint spec_all (xs : list N) (os : list op) : option (list N * list N) :=
  match os with
  | [] => Some (xs, [])
  | o :: os => '(xs, r) ← spec xs o; '(xs, rs) ← spec_all xs os; Some (xs, r :: rs)
  end.

Definition op_args (o : op) : list N :=
  match o with PushFront a | PushBack a | InsertAfter _ a => [a] | _ => [] end.

(** The objects the history links exist. *)
Definition objects s (os : list op) : Prop :=
  ∀ a, a ∈ mjoin (op_args <$> os) → a ≠ NULL ∧ is_Some (elems s !! a).

Lemma insert_behind_app pre pos a post :
  pos ∉ pre → insert_behind pos a (pre ++ pos :: post) = pre ++ pos :: a :: post.
Proof using Type.
  induction pre as [|x pre IH]; cbn; intros Hn; [by rewrite decide_True|].
  apply not_elem_of_cons in Hn as [Hx Hn]. rewrite decide_False by done. by rewrite IH.
Qed.

Lemma frame_ext s s' l (A B : list N) : (∀ a, a ∈ A → a ∈ B) → frame s s' l A → frame s s' l B.
Proof using Type. intros HAB [Hl He]. split; [done|]. intros a Ha. apply He. auto. Qed.

Lemma rep_lookup s l xs b : rep s l xs → b ∈ xs → is_Some (elems s !! b).
Proof using Type.
  intros (_ & _ & Hs & _). generalize (FirstOf l) Hs. clear Hs.
  induction xs as [|x xs IH]; intros p Hs Hb; [by apply elem_of_nil in Hb|]. destruct Hs as [Hx Hs].
  apply elem_of_cons in Hb as [->|Hb]; [by eexists|]. by eapply IH.
Qed.

Lemma spec_args xs o ys r b : spec xs o = Some (ys, r) → b ∈ ys → b ∈ op_args o ++ xs.
Proof using Type.
  clear dependent C. clear dependent I. destruct o as [a|a|pos a|a|]; cbn; repeat case_decide; intros [= <- <-]; try set_solver.
  - apply list_elem_of_split in H1 as (pre & post & ->). 
    revert H. induction pre as [|y pre IH]; cbn; [rewrite decide_True by done; set_solver|].
    case_decide; set_solver.
  - intros [_ Hb]%list_elem_of_filter. done.
  - intros Hb. eapply elem_of_subseteq; [|exact Hb]. apply subseteq_drop.
Qed.

Lemma pl_exec_rep s l xs o ys r :
  rep s l xs → (∀ a, a ∈ op_args o → a ≠ NULL ∧ is_Some (elems s !! a)) →
  spec xs o = Some (ys, r) →
  ∃ s', exec s l o = Some (s', r) ∧ rep s' l ys ∧ frame s s' l ys.
Proof using All.
  intros Hrep Hobj Hspec. pose proof Hrep as (Hnd & _). destruct o as [a|a|pos a|a|]; cbn in Hspec |- *.
  - case_decide; [done|]. injection Hspec as <- <-. destruct (Hobj a) as [Hn He]; [by left|].
    destruct (pl_push_front_rep s l xs a Hrep) as (s' & -> & ? & ?); [by split|]. by exists s'.
  - case_decide; [done|]. injection Hspec as <- <-. destruct (Hobj a) as [Hn He]; [by left|].
    destruct (pl_push_back_rep s l xs a Hrep) as (s' & -> & ? & ?); [by split|done|].
    exists s'. split_and!; [done..|]. by eapply frame_ext; [|done]; set_solver.
  - case_decide; [done|]. destruct (Hobj a) as [Hn He]; [by left|]. case_decide as Hpos.
    + injection Hspec as <- <-. unfold insert_after. rewrite decide_True by done.
      destruct (pl_push_front_rep s l xs a Hrep) as (s' & -> & ? & ?); [by split|]. by exists s'.
    + case_decide as Hin; [|done]. injection Hspec as <- <-.
      apply list_elem_of_split in Hin as (pre & post & ->).
      destruct (insert_after_rep s l pre pos post a Hrep) as (s' & -> & ? & ?); [by split|].
      exists s'. rewrite insert_behind_app.
      { split_and!; [done..|]. eapply frame_ext; [|done]. set_solver. }
      apply NoDup_app in Hnd as (_ & Hd & _). intros Hb. apply (Hd pos Hb). by left.
  - case_decide as Hin; [|done]. injection Hspec as <- <-.
    apply list_elem_of_split in Hin as (pre & post & ->).
    destruct (pl_remove_rep s l pre a post Hrep) as (s' & -> & ? & ?). exists s'.
    apply NoDup_app in Hnd as (_ & Hd & [Hnd3 _]%NoDup_cons).
    rewrite filter_app, filter_cons_False by (intros Hx; by apply Hx).
    rewrite !filter_ne_id; [done|done|intros Hb; apply (Hd a Hb); by left].
  - injection Hspec as <- <-. apply pop_front_rep; done.
Qed.

Lemma pl_exec_all_rep os : ∀ s l xs ys rs,
  rep s l xs → objects s os → spec_all xs os = Some (ys, rs) →
  ∃ s', exec_all s l os = Some (s', rs) ∧ rep s' l ys ∧
        frame s s' l (mjoin (op_args <$> os) ++ xs).
Proof using All.
  induction os as [|o os IH]; intros s l xs ys rs Hrep Hobj Hspec; cbn in Hspec |- *.
  { injection Hspec as <- <-. by exists s. }
  unfold objects in Hobj. cbn in Hobj.
  destruct (spec xs o) as [[zs r]|] eqn:Eo; [|done]. cbn in Hspec.
  destruct (spec_all zs os) as [[ys' rs']|] eqn:Eos; [|done]. cbn in Hspec. injection Hspec as <- <-.
  destruct (pl_exec_rep s l xs o zs r Hrep) as (s1 & -> & Hrep1 & Hf1); [|done|].
  { intros a Ha. apply Hobj, elem_of_app. by left. }
  cbn. destruct (IH s1 l zs ys' rs' Hrep1) as (s2 & -> & Hrep2 & Hf2); [|done|].
  { intros a Ha. destruct (Hobj a) as [Hn He]; [apply elem_of_app; by right|]. split; [done|].
    destruct (decide (a ∈ zs)) as [Hz|Hz]; [by eapply rep_lookup|]. by rewrite (proj2 Hf1). }
  cbn. exists s2. split_and!; [done..|]. split.
  - intros k Hk. by rewrite (proj1 Hf2), (proj1 Hf1).
  - intros b Hb. assert (b ∉ zs). { intros Hz. apply (spec_args _ _ _ _ _ Eo) in Hz. set_solver. }
    rewrite (proj2 Hf2), (proj2 Hf1) by set_solver. done.
Qed.
End history.

(** ** Properties *)

Section properties.
Import PList.

(** [C3] For every counting and insertion policy that satisfies its interface
    and supports [push_back], a history of [push_front], [push_back],
    [insert_after], [remove] and [pop_front] that respects the callers' contract
    runs without an invalid access, has the results of the same history on the
    sequence of elements, and changes nothing but the list and the elements
    involved; forward links, back links, counter and last pointer are right at
    the end. *)
Theorem plist_history_refines {C I : Type} `{!Counter C} `{!CounterLaws C} `{!Insertion I}
    `{!InsertionLaws I} (s : store C I) (l : nat) (xs ys rs : list N) (os : list op) :
  (∀ i : I, is_Some (i_get_last i)) → rep s l xs → objects s os → spec_all xs os = Some (ys, rs) →
  ∃ s', exec_all s l os = Some (s', rs) ∧ rep s' l ys ∧
        frame s s' l (mjoin (op_args <$> os) ++ xs).
Proof. intros Hlast. by apply pl_exec_all_rep. Qed.

(** Three objects that are in no list and an empty counting list. *)
Definition plist0 : store counter fast_push_back :=
  Store {[ 1%N := Elem 0 (FirstOf 9); 2%N := Elem 0 (FirstOf 9); 3%N := Elem 0 (FirstOf 9) ]}
        {[ 0%nat := PL 0 (MkCounter 0) (FastPushBack (FirstOf 0)) ]}.

Lemma plist0_rep : rep plist0 0 [].
Proof. split_and!; [constructor|set_solver|done|]. by eexists _, _. Qed.

Lemma plist_history_refines_witness :
  ∃ s', exec_all plist0 0 [PushBack 1; PushFront 2; InsertAfter 1 3; Remove 1; PopFront]
          = Some (s', [0; 0; 0; 0; 2]%N) ∧ rep s' 0 [3%N].
Proof.
  destruct (plist_history_refines plist0 0 [] [3%N] [0; 0; 0; 0; 2]%N
    [PushBack 1; PushFront 2; InsertAfter 1 3; Remove 1; PopFront]) as (s' & H1 & H2 & _).
  - intros i. by eexists.
  - apply plist0_rep.
  - intros a Ha. cbn in Ha. repeat (apply elem_of_cons in Ha as [->|Ha]; [split; [done|by eexists]|]).
    by apply elem_of_nil in Ha.
  - reflexivity.
  - exists s'. split; [exact H1|exact H2].
Defined.

(** The iterator has saved the next element when it returns one, so the
    caller may remove the element it got: the following call returns the next
    element of the list. *)
Theorem plist_iterator_survives_remove {C I : Type} `{!Counter C} `{!CounterLaws C} `{!Insertion I}
    `{!InsertionLaws I} (s : store C I) (l : nat) (pre post : list N) (a : N) (it : iterator) :
  rep s l (pre ++ a :: post) → current it = a →
  ∃ it' s', it_next s it = Some (it', a) ∧ remove s l a = Some s' ∧ rep s' l (pre ++ post) ∧
            ∃ it'', it_next s' it' = Some (it'', hd_addr post NULL).
Proof.
  intros Hrep Hcur. destruct (pl_remove_rep s l pre a post Hrep) as (s' & Hrem & Hrep' & Hf).
  pose proof Hrep as (_ & Hnull & Hs & _). apply dseg_app in Hs as [_ [Ha _]].
  unfold it_next. rewrite Hcur. rewrite decide_True by set_solver.
  rewrite (next_ptr_some _ _ _ Ha). cbn. eexists _, s'. split_and!; [done..|].
  cbn. destruct post as [|b post]; cbn.
  - rewrite decide_False by (intros H; by apply H). by eexists.
  - rewrite decide_True by set_solver. pose proof Hrep' as (_ & _ & Hs' & _).
    apply dseg_app in Hs' as [_ [Hb _]]. rewrite (next_ptr_some _ _ _ Hb). cbn. by eexists.
Qed.

(** The list [2; 3] of the objects of [plist0]. *)
Definition plist1 : store counter fast_push_back :=
  Store {[ 2%N := Elem 3 (FirstOf 0); 3%N := Elem 0 (NextOf 2) ]}
        {[ 0%nat := PL 2 (MkCounter 2) (FastPushBack (NextOf 3)) ]}.

Lemma plist1_rep : rep plist1 0 [2; 3]%N.
Proof.
  split_and!; [by apply (bool_decide_unpack _)|by apply (bool_decide_unpack _)|done|]. by eexists _, _.
Qed.

Lemma plist_iterator_survives_remove_witness :
  ∃ it' s', it_next plist1 (Iter 0 2) = Some (it', 2%N) ∧ remove plist1 0 2 = Some s' ∧ rep s' 0 [3%N] ∧
            ∃ it'', it_next s' it' = Some (it'', 3%N).
Proof. apply (plist_iterator_survives_remove plist1 0 [] [3%N] 2 (Iter 0 2)); [apply plist1_rep|done]. Defined.

Lemma relink_store {C I : Type} `{!Counter C} `{!Insertion I} (s : store C I) l p xs r :
  dseg (elems s) p xs NULL → NULL ∉ xs → (∀ i : I, ∀ r, i_set_last r i = i) → is_Some (lists s !! l) →
  (if decide (hd_addr xs NULL ≠ NULL) then set_prev s (hd_addr xs NULL) r else set_last s l r) =
    Some (Store (relink_head (elems s) xs r) (lists s)).
Proof.
  intros Hs Hnull Hset [L HL]. destruct xs as [|a xs]; cbn [hd_addr].
  - rewrite decide_False by (intros H; by apply H). unfold set_last. rewrite HL. cbn.
    rewrite Hset. unfold set_list. destruct s as [h ls], L as [f c i]. cbn in *. by rewrite insert_id.
  - rewrite decide_True by set_solver. by rewrite (set_prev_head _ _ _ _ _ Hs).
Qed.

(** [swap] exchanges the elements of two lists and their counters, for
    every counting policy and an insertion policy without a last pointer (the
    only one its parameter type admits). *)
Theorem plist_swap_exchanges {C I : Type} `{!Counter C} `{!CounterLaws C} `{!Insertion I}
    `{!InsertionLaws I} (s : store C I) (l r : nat) (xs ys : list N) :
  (∀ i : I, ∀ p, i_set_last p i = i) → l ≠ r → rep s l xs → rep s r ys → (∀ a, a ∈ xs → a ∉ ys) →
  ∃ s', swap s l r = Some s' ∧ rep s' l ys ∧ rep s' r xs ∧
        (∀ k, k ≠ l → k ≠ r → lists s' !! k = lists s !! k).
Proof.
  intros Hset Hne (Hnx & Hzx & Hsx & cx & ix & HLx & Hcx & Hix) (Hny & Hzy & Hsy & cy & iy & HLy & Hcy & Hiy) Hd.
  assert (∀ (i : I) p, tracks i p) as Htr by (intros i p; rewrite <- (Hset i p); apply tracks_set_last).
  unfold swap. rewrite HLx, HLy. cbn [mbind option_bind m_first cnt ins].
  match goal with |- context [set_list ?t l _] => set (s1 := t) end.
  match goal with |- context [set_prev ?t (hd_addr ys _) _] => set (s2 := t) end.
  rewrite (relink_store s2 l (FirstOf r) ys (FirstOf l)); [|done..|cbn; rewrite lookup_insert_eq; by eexists].
  cbn [mbind option_bind]. set (s3 := Store _ _).
  assert (dseg (elems s3) (FirstOf l) xs NULL) as Hsx3.
  { eapply dseg_frame; [|exact Hsx]. intros b Hb. cbn. apply relink_head_ne. by apply Hd. }
  rewrite (relink_store s3 l (FirstOf l) xs (FirstOf r)); [|done..|cbn; rewrite lookup_insert_eq; by eexists].
  cbn [mbind option_bind lists s3 s2 s1 set_list]. rewrite lookup_insert_eq, lookup_insert_ne, lookup_insert_eq by done.
  cbn. eexists. split; [done|]. split_and!; [| |].
  - split_and!; [done..| |].
    + cbn. eapply dseg_frame; [|by apply (relink_head_dseg (elems s) (FirstOf r) (FirstOf l) ys)].
      intros b Hb. rewrite relink_head_ne; [done|]. intros Hx. by apply (Hd b).
    + eexists _, _. cbn. rewrite lookup_insert_eq. by split_and!.
  - split_and!; [done..| |].
    + cbn. by eapply relink_head_dseg.
    + eexists _, _. cbn. rewrite lookup_insert_ne, lookup_insert_eq by done. by split_and!.
  - intros k Hl Hr. cbn. by rewrite !lookup_insert_ne.
Qed.

Lemma plist_swap_exchanges_witness :
  ∃ s', swap (Store {[ 2%N := Elem 3 (FirstOf 0); 3%N := Elem 0 (NextOf 2) ]}
          {[ 0%nat := PL 2 (MkCounter 2) NoPushBack; 1%nat := PL 0 (MkCounter 0) NoPushBack ]}) 0 1 = Some s' ∧
    rep s' 0 [] ∧ rep s' 1 [2; 3]%N.
Proof.
  match goal with |- context [swap ?t] => set (s := t) end.
  destruct (plist_swap_exchanges s 0 1 [2; 3]%N []) as (s' & H1 & H2 & H3 & _).
  - done.
  - done.
  - split_and!; [by apply (bool_decide_unpack _)|by apply (bool_decide_unpack _)|done|]. by eexists _, _.
  - split_and!; [constructor|set_solver|done|]. by eexists _, _.
  - intros a _. apply not_elem_of_nil.
  - exists s'. split_and!; [exact H1|exact H2|exact H3].
Defined.
End properties.
