(* ===== verification/ILists.v ===== *)
(** * Intrusive lists: SQL_I_List and base_ilist of sql_list.h

    Both are lists whose links are members of the elements.  [SQL_I_List] keeps
    a reference to the last next pointer; [base_ilist] is circular through a
    sentinel that is a member of the list object. *)

From S2P Require Import Prelude.
From Stdlib Require Import ZArith Lia.
From stdpp Require Import base numbers gmap fin_maps option list.
Open Scope Z_scope.
Open Scope cint_scope.

(** ** SQL_I_List *)

Module SqlIList.

Abbreviation NULL := 0%N.

(** A [T**]. *)
Inductive tref :=
  | FirstOf (l : nat)
  | NextOf (a : N).

Record SQL_I_List := IL { elements : Z; first : N; next : tref }.

(** The next pointers of the elements, and the list objects. *)
Record store := Store { nexts : gmap N N; lists : gmap nat SQL_I_List }.

Definition set_list (s : store) (l : nat) (L : SQL_I_List) : store :=
  Store (nexts s) (<[l := L]> (lists s)).

Definition assign (s : store) (r : tref) (v : N) : option store :=
  match r with
  | FirstOf l => L ← lists s !! l; Some (set_list s l (IL (elements L) v (next L)))
  | NextOf a => _ ← nexts s !! a; Some (Store (<[a := v]> (nexts s)) (lists s))
  end.

(** The copy constructor. *)
Definition copy_construct (s : store) (l tmp : nat) : option store :=
  T ← lists s !! tmp;
  Some (set_list s l (IL (elements T) (first T)
          (if decide (elements T ≠ 0) then next T else FirstOf l))).

Definition empty (s : store) (l : nat) : store := set_list s l (IL 0 NULL (FirstOf l)).

Definition link_in_list (s : store) (l : nat) (element : N) (next_ptr : tref) : option store :=
  L ← lists s !! l;
  let s := set_list s l (IL (u32 (elements L + 1)) (first L) (next L)) in
  s ← assign s (next L) element;
  L ← lists s !! l;
  let s := set_list s l (IL (elements L) (first L) next_ptr) in
  assign s next_ptr NULL.

(** [*save= *this] is the implicit member-wise assignment. *)
Definition save_and_clear (s : store) (l save : nat) : option store :=
  L ← lists s !! l;
  Some (empty (set_list s save (IL (elements L) (first L) (next L))) l).

Definition push_front (s : store) (l save : nat) : option store :=
  L ← lists s !! l; S ← lists s !! save;
  s ← assign s (next S) (first L);
  L ← lists s !! l; S ← lists s !! save;
  Some (set_list s l (IL (u32 (elements L + elements S)) (first S) (next L))).

Definition push_back (s : store) (l save : nat) : option store :=
  S ← lists s !! save;
  if decide (first S ≠ NULL) then
    L ← lists s !! l;
    s ← assign s (next L) (first S);
    L ← lists s !! l; S ← lists s !! save;
    Some (set_list s l (IL (u32 (elements L + elements S)) (first L) (next S)))
  else Some s.

End SqlIList.

Section sql_i_list.
Import SqlIList.

Definition i_end_ref (l : nat) (xs : list N) : tref :=
  match list.last xs with Some a => NextOf a | None => FirstOf l end.

Fixpoint i_seg (h : gmap N N) (xs : list N) (q : N) : Prop :=
  match xs with
  | [] => True
  | a :: xs => h !! a = Some (hd_addr xs q) ∧ i_seg h xs q
  end.

Definition i_rep (s : store) (l : nat) (xs : list N) : Prop :=
  NoDup xs ∧ NULL ∉ xs ∧ i_seg (nexts s) xs NULL ∧
  lists s !! l = Some (IL (u32 (Z.of_nat (length xs))) (hd_addr xs NULL) (i_end_ref l xs)).

Lemma i_seg_app h xs ys q : i_seg h (xs ++ ys) q ↔ i_seg h xs (hd_addr ys q) ∧ i_seg h ys q.
Proof. induction xs as [|a xs IH]; cbn; [tauto|]. rewrite IH, hd_addr_app. tauto. Qed.

Lemma i_seg_frame h h' xs q : (∀ a, a ∈ xs → h' !! a = h !! a) → i_seg h xs q → i_seg h' xs q.
Proof.
  induction xs as [|a xs IH]; intros Hf; cbn; [done|]. intros [Ha Hs]. split.
  - by rewrite Hf by left.
  - apply IH; [|done]. intros b Hb. apply Hf. by right.
Qed.

Lemma i_end_ref_snoc l xs a : i_end_ref l (xs ++ [a]) = NextOf a.
Proof. unfold i_end_ref. by rewrite last_snoc. Qed.

Lemma i_end_ref_app l k xs ys : ys ≠ [] → i_end_ref l (xs ++ ys) = i_end_ref k ys.
Proof.
  intros H. destruct ys as [|b ys _] using rev_ind; [done|]. by rewrite app_assoc, !i_end_ref_snoc.
Qed.

Lemma i_assign_end s l xs q v e n :
  NoDup xs → i_seg (nexts s) xs q → lists s !! l = Some (IL e (hd_addr xs q) n) →
  ∃ s', assign s (i_end_ref l xs) v = Some s' ∧ i_seg (nexts s') xs v ∧
    lists s' !! l = Some (IL e (hd_addr xs v) n) ∧
    (∀ k, k ≠ l → lists s' !! k = lists s !! k) ∧ (∀ a, a ∉ xs → nexts s' !! a = nexts s !! a).
Proof.
  intros Hnd Hs HL. destruct xs as [|a xs _] using rev_ind.
  - cbn. rewrite HL. cbn. eexists. split_and!; [done..| | |done].
    + cbn. by rewrite lookup_insert_eq.
    + intros k Hk. cbn. by rewrite lookup_insert_ne.
  - apply i_seg_app in Hs as [Hs [Ha _]]. rewrite i_end_ref_snoc. cbn. rewrite Ha. cbn.
    apply NoDup_app in Hnd as (_ & Hd & _). eexists. split_and!; [done| | |done|].
    + apply i_seg_app. cbn. split; [|split; [|done]].
      * eapply i_seg_frame; [|exact Hs]. intros b Hb. apply lookup_insert_ne. intros ->. apply (Hd b Hb). by left.
      * by rewrite lookup_insert_eq.
    + cbn. by rewrite HL, !hd_addr_app.
    + intros b Hb. cbn. apply lookup_insert_ne. intros ->. apply Hb, elem_of_app. right. by left.
Qed.

Lemma link_in_list_rep s l xs a :
  i_rep s l xs → a ≠ NULL → a ∉ xs → is_Some (nexts s !! a) →
  ∃ s', link_in_list s l a (NextOf a) = Some s' ∧ i_rep s' l (xs ++ [a]).
Proof.
  intros (Hnd & Hnull & Hs & HL) Ha Hna [v Hv]. unfold link_in_list. rewrite HL.
  cbn [mbind option_bind elements first next]. rewrite u32_succ.
  match goal with |- context [assign ?t _ _] => set (s1 := t) end.
  edestruct (i_assign_end s1 l xs NULL a) as (s2 & -> & Hs2 & HL2 & Hl2 & Hn2);
    [done|exact Hs|cbn; apply lookup_insert_eq|].
  cbn [mbind option_bind]. rewrite HL2. cbn. rewrite Hn2 by done. cbn. rewrite Hv. cbn.
  eexists. split; [done|]. split_and!.
  - apply NoDup_app. split_and!; [done| |apply NoDup_singleton]. set_solver.
  - set_solver.
  - cbn. apply i_seg_app. cbn. split; [|by rewrite lookup_insert_eq].
    eapply i_seg_frame; [|exact Hs2]. intros b Hb. apply lookup_insert_ne. by intros ->.
  - cbn. rewrite lookup_insert_eq, i_end_ref_snoc, hd_addr_app, length_app. cbn. do 3 f_equal. lia.
Qed.

Lemma push_back_list_rep s l k xs ys :
  i_rep s l xs → i_rep s k ys → l ≠ k → (∀ a, a ∈ xs → a ∉ ys) →
  ∃ s', push_back s l k = Some s' ∧ i_rep s' l (xs ++ ys).
Proof.
  intros (Hnd & Hnull & Hs & HL) (Hnd2 & Hnull2 & Hs2 & HL2) Hne Hd. unfold push_back.
  rewrite HL2. cbn [mbind option_bind first]. destruct ys as [|b ys].
  { rewrite decide_False by (intros X; by apply X). exists s. by rewrite app_nil_r. }
  rewrite decide_True by (cbn; set_solver). rewrite HL. cbn [mbind option_bind next hd_addr].
  edestruct (i_assign_end s l xs NULL b) as (s1 & -> & Hs1 & HL1 & Hl1 & Hn1); [done..|].
  cbn [mbind option_bind]. rewrite HL1, Hl1, HL2 by done. cbn [mbind option_bind elements first next].
  rewrite u32_add. eexists. split; [done|]. split_and!.
  - apply NoDup_app. done.
  - set_solver.
  - cbn. apply i_seg_app. split; [done|]. eapply i_seg_frame; [|exact Hs2]. intros c Hc. apply Hn1.
    intros Hx. by apply (Hd c).
  - cbn [lists set_list]. by rewrite lookup_insert_eq, hd_addr_app, length_app, (i_end_ref_app l k).
Qed.

(** Saving a non-empty list with [save_and_clear] and pushing the saved
    list back restores it. *)
Theorem save_and_clear_roundtrip (s : store) (l save : nat) (xs : list N) :
  i_rep s l xs → l ≠ save → xs ≠ [] →
  ∃ s1 s2, save_and_clear s l save = Some s1 ∧ i_rep s1 l [] ∧ i_rep s1 save xs ∧
           push_back s1 l save = Some s2 ∧ i_rep s2 l xs.
Proof.
  intros (Hnd & Hnull & Hs & HL) Hne Hxs. unfold save_and_clear. rewrite HL. cbn [mbind option_bind].
  eexists. cbn [elements first next]. set (s1 := empty _ l).
  assert (i_rep s1 l []) as H1.
  { split_and!; [constructor|set_solver|done|]. cbn. by rewrite lookup_insert_eq. }
  assert (i_rep s1 save xs) as H2.
  { split_and!; [done..|]. cbn. rewrite lookup_insert_ne, lookup_insert_eq by done. do 2 f_equal.
    by apply (i_end_ref_app l save []). }
  destruct (push_back_list_rep s1 l save [] xs H1 H2 Hne) as (s2 & H3 & H4); [set_solver|].
  by exists s2.
Qed.

Lemma save_and_clear_roundtrip_witness :
  ∃ s1 s2, save_and_clear (Store {[ 5%N := 0%N ]} {[ 0%nat := IL 1 5 (NextOf 5) ]}) 0 1 = Some s1 ∧
    i_rep s1 0 [] ∧ push_back s1 0 1 = Some s2 ∧ i_rep s2 0 [5%N].
Proof.
  destruct (save_and_clear_roundtrip (Store {[ 5%N := 0%N ]} {[ 0%nat := IL 1 5 (NextOf 5) ]}) 0 1 [5%N])
    as (s1 & s2 & H1 & H2 & _ & H3 & H4).
  - split_and!; [apply NoDup_singleton|by apply (bool_decide_unpack _)|done|done].
  - done.
  - done.
  - exists s1, s2. split_and!; [exact H1|exact H2|exact H3|exact H4].
Defined.

(** The same sequence with an empty saved list loses the elements: the saved
    copy keeps a reference to [first] of the list it was made from, so after
    elements were linked there, [push_front] of the (empty) copy sets [first] to
    null while the counter still has the number of elements. *)
Theorem push_front_of_empty_saved_list_loses_elements :
  ∃ s1 s2 s3,
    save_and_clear (Store {[ 5%N := 0%N ]} {[ 0%nat := IL 0 0 (FirstOf 0); 1%nat := IL 0 0 (FirstOf 1) ]}) 0 1
      = Some s1 ∧
    link_in_list s1 0 5 (NextOf 5) = Some s2 ∧ i_rep s2 0 [5%N] ∧
    push_front s2 0 1 = Some s3 ∧
    lists s3 !! 0%nat = Some (IL 1 NULL (NextOf 5)).
Proof.
  eexists _, _, _. split; [reflexivity|]. split; [reflexivity|]. split; [|split; reflexivity].
  split_and!; [apply NoDup_singleton|by apply (bool_decide_unpack _)|done|done].
Qed.

(** [push_front] into an empty list does not move [next] behind the new
    elements: the next [link_in_list] overwrites [first]. *)
Lemma push_front_into_empty_list_keeps_next :
  ∃ s1 s2,
    push_front (Store {[ 5%N := 0%N; 6%N := 0%N ]}
      {[ 0%nat := IL 0 0 (FirstOf 0); 1%nat := IL 1 5 (NextOf 5) ]}) 0 1 = Some s1 ∧
    link_in_list s1 0 6 (NextOf 6) = Some s2 ∧
    lists s2 !! 0%nat = Some (IL 2 6 (NextOf 6)) ∧ nexts s2 !! 6%N = Some NULL.
Proof. eexists _, _. split; [reflexivity|]. split; [reflexivity|]. split; reflexivity. Qed.
End sql_i_list.

(** ** base_ilist *)

Module ILink.

(** An [ilink*]: null, an element, or the [last] member of a list. *)
Inductive link :=
  | Null
  | Obj (a : N)
  | Sent (l : nat).

(** An [ilink**]. *)
Inductive lref :=
  | FirstOf (l : nat)
  | NextOf (k : link).

#[global] Instance link_eq_dec : EqDecision link.
Proof. solve_decision. Defined.
#[global] Instance lref_eq_dec : EqDecision lref.
Proof. solve_decision. Defined.

Record ilink := Ilink { prev : option lref; next : link }.
Record base_ilist := BI { first : link; last : ilink }.
Record store := Store { objs : gmap N ilink; lists : gmap nat base_ilist }.

(** The constructor [ilink()]. *)
Definition new_ilink : ilink := Ilink None Null.

Definition get_link (s : store) (k : link) : option ilink :=
  match k with
  | Null => None
  | Obj a => objs s !! a
  | Sent l => last <$> lists s !! l
  end.

Definition set_link (s : store) (k : link) (i : ilink) : option store :=
  match k with
  | Null => None
  | Obj a => _ ← objs s !! a; Some (Store (<[a := i]> (objs s)) (lists s))
  | Sent l => L ← lists s !! l; Some (Store (objs s) (<[l := BI (first L) i]> (lists s)))
  end.

Definition set_prev (s : store) (k : link) (r : option lref) : option store :=
  i ← get_link s k; set_link s k (Ilink r (next i)).
Definition set_next (s : store) (k : link) (v : link) : option store :=
  i ← get_link s k; set_link s k (Ilink (prev i) v).
Definition set_first (s : store) (l : nat) (v : link) : option store :=
  L ← lists s !! l; Some (Store (objs s) (<[l := BI v (last L)]> (lists s))).

Definition assign (s : store) (r : lref) (v : link) : option store :=
  match r with FirstOf l => set_first s l v | NextOf k => set_next s k v end.
Definition load (s : store) (r : lref) : option link :=
  match r with FirstOf l => first <$> lists s !! l | NextOf k => next <$> get_link s k end.

Definition unlink (s : store) (k : link) : option store :=
  i ← get_link s k;
  s ← match prev i with Some p => assign s p (next i) | None => Some s end;
  i ← get_link s k;
  s ← (if decide (next i ≠ Null) then set_prev s (next i) (prev i) else Some s);
  set_link s k (Ilink None Null).

Definition empty (s : store) (l : nat) : option store :=
  s ← set_first s l (Sent l); set_prev s (Sent l) (Some (FirstOf l)).

Definition is_empty (s : store) (l : nat) : option bool :=
  L ← lists s !! l; Some (bool_decide (first L = Sent l)).

Definition is_last (s : store) (l : nat) (p : link) : option bool :=
  i ← get_link s p; Some (bool_decide (next i = Null) || bool_decide (next i = Sent l)).

Definition append (s : store) (l : nat) (a : link) : option store :=
  L ← lists s !! l;
  s ← set_prev s (first L) (Some (NextOf a));
  s ← set_next s a (first L);
  s ← set_prev s a (Some (FirstOf l));
  set_first s l a.

Definition push_back (s : store) (l : nat) (a : link) : option store :=
  L ← lists s !! l;
  p ← prev (last L);
  s ← assign s p a;
  s ← set_next s a (Sent l);
  L ← lists s !! l;
  s ← set_prev s a (prev (last L));
  set_prev s (Sent l) (Some (NextOf a)).

Definition get (s : store) (l : nat) : option (store * link) :=
  L ← lists s !! l;
  if decide (first L = Sent l) then Some (s, Null)
  else s ← unlink s (first L); Some (s, first L).

Definition head (s : store) (l : nat) : option link :=
  L ← lists s !! l; Some (if decide (first L ≠ Sent l) then first L else Null).

Definition move_elements_to (s : store) (l new_owner : nat) : option store :=
  L ← lists s !! l;
  empty (Store (objs s) (<[new_owner := BI (first L) (last L)]> (lists s))) l.

(** [base_ilist_iterator]. *)
Record iterator := Iter { it_list : nat; el : lref; current : link }.

Definition it_init (l : nat) : iterator := Iter l (FirstOf l) Null.

Definition it_next (s : store) (it : iterator) : option (iterator * link) :=
  cur ← load s (el it);
  if decide (cur = Sent (it_list it)) then Some (Iter (it_list it) (el it) cur, Null)
  else Some (Iter (it_list it) (NextOf cur) cur, cur).

End ILink.

Section base_ilist.
Import ILink.

Definition d_end (p : lref) (xs : list N) : lref :=
  match list.last xs with Some a => NextOf (Obj a) | None => p end.
Definition d_hd (xs : list N) (q : link) : link := match xs with [] => q | a :: _ => Obj a end.

Fixpoint d_seg (h : gmap N ilink) (p : lref) (xs : list N) (q : link) : Prop :=
  match xs with
  | [] => True
  | a :: xs => h !! a = Some (Ilink (Some p) (d_hd xs q)) ∧ d_seg h (NextOf (Obj a)) xs q
  end.

Definition d_rep (s : store) (l : nat) (xs : list N) : Prop :=
  NoDup xs ∧ d_seg (objs s) (FirstOf l) xs (Sent l) ∧
  ∃ n, lists s !! l = Some (BI (d_hd xs (Sent l)) (Ilink (Some (d_end (FirstOf l) xs)) n)).

Lemma d_end_snoc p xs a : d_end p (xs ++ [a]) = NextOf (Obj a).
Proof. unfold d_end. by rewrite last_snoc. Qed.

Lemma d_end_cons p a xs : d_end p (a :: xs) = d_end (NextOf (Obj a)) xs.
Proof. unfold d_end. rewrite last_cons. by destruct (list.last xs). Qed.

Lemma d_end_app p xs ys : d_end p (xs ++ ys) = d_end (d_end p xs) ys.
Proof.
  revert p. induction xs as [|a xs IH]; intros p; [done|]. rewrite <- app_comm_cons, !d_end_cons. apply IH.
Qed.

Lemma d_hd_app xs ys q : d_hd (xs ++ ys) q = d_hd xs (d_hd ys q).
Proof. by destruct xs. Qed.

Lemma d_seg_app h p xs ys q :
  d_seg h p (xs ++ ys) q ↔ d_seg h p xs (d_hd ys q) ∧ d_seg h (d_end p xs) ys q.
Proof.
  revert p. induction xs as [|a xs IH]; intros p; cbn [d_seg app]; [tauto|].
  rewrite IH, d_hd_app, d_end_cons. tauto.
Qed.

Lemma d_seg_frame h h' p xs q : (∀ a, a ∈ xs → h' !! a = h !! a) → d_seg h p xs q → d_seg h' p xs q.
Proof.
  revert p. induction xs as [|a xs IH]; intros p Hf; cbn [d_seg]; [done|]. intros [Ha Hs]. split.
  - by rewrite Hf by left.
  - apply IH; [|done]. intros b Hb. apply Hf. by right.
Qed.

(** Writing through the end reference of a chain. *)
Lemma d_assign_end s l xs q v L :
  NoDup xs → d_seg (objs s) (FirstOf l) xs q → lists s !! l = Some (BI (d_hd xs q) L) →
  ∃ s', assign s (d_end (FirstOf l) xs) v = Some s' ∧ d_seg (objs s') (FirstOf l) xs v ∧
    lists s' !! l = Some (BI (d_hd xs v) L) ∧
    (∀ k, k ≠ l → lists s' !! k = lists s !! k) ∧ (∀ a, a ∉ xs → objs s' !! a = objs s !! a).
Proof.
  intros Hnd Hs HL. destruct xs as [|a xs _] using rev_ind.
  - cbn. unfold set_first. rewrite HL. cbn. eexists. split_and!; [done..| | |done].
    + cbn. by rewrite lookup_insert_eq.
    + intros k Hk. cbn. by rewrite lookup_insert_ne.
  - apply d_seg_app in Hs as [Hs [Ha _]]. rewrite d_end_snoc. cbn. unfold set_next. cbn. rewrite Ha. cbn.
    rewrite ?Ha. cbn. apply NoDup_app in Hnd as (_ & Hd & _). eexists. split_and!; [done| | |done|].
    + apply d_seg_app. cbn. split; [|split; [|done]].
      * eapply d_seg_frame; [|exact Hs]. intros b Hb. apply lookup_insert_ne. intros ->. apply (Hd b Hb). by left.
      * by rewrite lookup_insert_eq.
    + cbn. by rewrite HL, !d_hd_app.
    + intros b Hb. cbn. apply lookup_insert_ne. intros ->. apply Hb, elem_of_app. right. by left.
Qed.

(** Changing the back link of what follows a chain: the first element of the
    rest or the sentinel. *)
Lemma d_set_prev s l p ys r f pr n :
  NoDup ys → d_seg (objs s) p ys (Sent l) → lists s !! l = Some (BI f (Ilink pr n)) →
  ∃ s', set_prev s (d_hd ys (Sent l)) (Some r) = Some s' ∧ d_seg (objs s') r ys (Sent l) ∧
    lists s' !! l = Some (BI f (Ilink (match ys with [] => Some r | _ => pr end) n)) ∧
    (∀ k, k ≠ l → lists s' !! k = lists s !! k) ∧ (∀ a, a ∉ ys → objs s' !! a = objs s !! a).
Proof.
  intros Hnd Hs HL. unfold set_prev. destruct ys as [|a ys]; cbn.
  - rewrite HL. cbn. rewrite ?HL. cbn. eexists. split_and!; [done..| | |done].
    + cbn. by rewrite lookup_insert_eq.
    + intros k Hk. cbn. by rewrite lookup_insert_ne.
  - destruct Hs as [Ha Hs]. rewrite Ha. cbn. rewrite ?Ha. cbn. apply NoDup_cons in Hnd as [Hn _].
    eexists. split; [done|]. split; [|split; [exact HL|split; [done|]]].
    + cbn. split; [by rewrite lookup_insert_eq|]. eapply d_seg_frame; [|exact Hs].
      intros b Hb. apply lookup_insert_ne. by intros ->.
    + intros b Hb. cbn. apply lookup_insert_ne. set_solver.
Qed.

Lemma unlink_rep s l pre a post :
  d_rep s l (pre ++ a :: post) →
  ∃ s', unlink s (Obj a) = Some s' ∧ d_rep s' l (pre ++ post) ∧ objs s' !! a = Some new_ilink ∧
    (∀ k, k ≠ l → lists s' !! k = lists s !! k) ∧
    (∀ b, b ∉ pre ++ a :: post → objs s' !! b = objs s !! b).
Proof.
  intros (Hnd & Hs & n & HL). apply NoDup_app in Hnd as (Hnd1 & Hd & [Hn3 Hnd2]%NoDup_cons).
  assert (a ∉ pre) as Hap by (intros X; apply (Hd a X); by left).
  apply d_seg_app in Hs as [Hs1 [Ha Hs2]]. cbn [d_hd] in Hs1. rewrite d_hd_app, d_end_app, d_end_cons in HL.
  unfold unlink. cbn [get_link]. rewrite Ha. cbn [mbind option_bind prev next].
  destruct (d_assign_end s l pre (Obj a) (d_hd post (Sent l)) _ Hnd1 Hs1 HL)
    as (s1 & -> & Hs1' & HL1 & Hl1 & Ho1).
  cbn [mbind option_bind]. rewrite Ho1, Ha by done. cbn [mbind option_bind prev next].
  rewrite decide_True by (by destruct post).
  assert (d_seg (objs s1) (NextOf (Obj a)) post (Sent l)) as Hs2'.
  { eapply d_seg_frame; [|exact Hs2]. intros b Hb. apply Ho1. intros X. apply (Hd b X). by right. }
  destruct (d_set_prev s1 l (NextOf (Obj a)) post (d_end (FirstOf l) pre) _ _ _ Hnd2 Hs2' HL1)
    as (s2 & -> & Hs2'' & HL2 & Hl2 & Ho2).
  cbn. rewrite Ho2, Ho1, Ha by done. cbn. eexists. split; [done|]. split; [split_and!|split_and!].
  - apply NoDup_app. split_and!; [done| |done]. intros b Hb X. apply (Hd b Hb). by right.
  - cbn. apply d_seg_app. split.
    + eapply d_seg_frame; [|exact Hs1']. intros b Hb. rewrite lookup_insert_ne by (by intros ->).
      apply Ho2. intros X. apply (Hd b Hb). by right.
    + eapply d_seg_frame; [|exact Hs2'']. intros b Hb. apply lookup_insert_ne. by intros ->.
  - exists n. cbn. rewrite HL2, d_hd_app, d_end_app. destruct post; [done|]. by rewrite !d_end_cons.
  - cbn. by rewrite lookup_insert_eq.
  - intros k Hk. cbn. by rewrite Hl2, Hl1.
  - intros b Hb. cbn. rewrite lookup_insert_ne by set_solver. rewrite Ho2, Ho1 by set_solver. done.
Qed.

Lemma d_push_back_rep s l xs a :
  d_rep s l xs → a ∉ xs → is_Some (objs s !! a) →
  ∃ s', push_back s l (Obj a) = Some s' ∧ d_rep s' l (xs ++ [a]).
Proof.
  intros (Hnd & Hs & n & HL) Ha [i Hi]. unfold push_back. rewrite HL. cbn [mbind option_bind last prev].
  destruct (d_assign_end s l xs (Sent l) (Obj a) _ Hnd Hs HL) as (s1 & -> & Hs1 & HL1 & Hl1 & Ho1).
  cbn [mbind option_bind]. unfold set_next. cbn. rewrite Ho1, Hi by done. cbn. rewrite ?Ho1, ?Hi by done. cbn.
  rewrite HL1. cbn. unfold set_prev. cbn. rewrite lookup_insert_eq. cbn. rewrite ?lookup_insert_eq. cbn.
  rewrite ?HL1. cbn. rewrite ?HL1. cbn. eexists. split; [done|]. split_and!.
  - apply NoDup_app. split_and!; [done|set_solver|apply NoDup_singleton].
  - cbn. apply d_seg_app. cbn. split; [|by rewrite lookup_insert_eq].
    eapply d_seg_frame; [|exact Hs1]. intros b Hb. by rewrite !lookup_insert_ne by (intros ->; done).
  - exists n. cbn. by rewrite lookup_insert_eq, d_hd_app, d_end_snoc.
Qed.

Lemma d_append_rep s l xs a :
  d_rep s l xs → a ∉ xs → is_Some (objs s !! a) →
  ∃ s', append s l (Obj a) = Some s' ∧ d_rep s' l (a :: xs).
Proof.
  intros (Hnd & Hs & n & HL) Ha [i Hi]. unfold append. rewrite HL. cbn [mbind option_bind first].
  destruct (d_set_prev s l (FirstOf l) xs (NextOf (Obj a)) _ _ _ Hnd Hs HL) as (s1 & -> & Hs1 & HL1 & Hl1 & Ho1).
  cbn [mbind option_bind]. unfold set_next. cbn. rewrite Ho1, Hi by done. cbn. rewrite ?Ho1, ?Hi by done. cbn.
  unfold set_prev. cbn. rewrite lookup_insert_eq. cbn. rewrite ?lookup_insert_eq. cbn.
  unfold set_first. cbn. rewrite HL1. cbn. eexists. split; [done|]. split_and!.
  - by apply NoDup_cons.
  - cbn. rewrite lookup_insert_eq. split; [done|]. eapply d_seg_frame; [|exact Hs1].
    intros b Hb. by rewrite !lookup_insert_ne by (intros ->; done).
  - exists n. cbn. rewrite lookup_insert_eq, d_end_cons. destruct xs; [done|]. by rewrite !d_end_cons.
Qed.

(** The elements an iterator visits, up to the null pointer it returns at the end. *)
Fixpoint it_collect (fuel : nat) (s : store) (it : iterator) : option (list link) :=
  match fuel with
  | O => None
  | S fuel =>
      '(it, k) ← it_next s it;
      if decide (k = Null) then Some [] else r ← it_collect fuel s it; Some (k :: r)
  end.

Lemma d_load_end s l xs ys :
  d_rep s l (xs ++ ys) → load s (d_end (FirstOf l) xs) = Some (d_hd ys (Sent l)).
Proof.
  intros (_ & Hs & n & HL). apply d_seg_app in Hs as [Hs _]. destruct xs as [|b xs _] using rev_ind.
  - cbn. by rewrite HL.
  - apply d_seg_app in Hs as [_ [Hb _]]. rewrite d_end_snoc. cbn. by rewrite Hb.
Qed.

Lemma it_collect_rep s l ys : ∀ xs it fuel,
  d_rep s l (xs ++ ys) → el it = d_end (FirstOf l) xs → it_list it = l → (length ys < fuel)%nat →
  it_collect fuel s it = Some (Obj <$> ys).
Proof.
  induction ys as [|a ys IH]; intros xs it fuel Hrep Hel Hl Hf;
    (destruct fuel as [|fuel]; [simpl in Hf; lia|]); cbn [it_collect]; unfold it_next;
    rewrite Hel, (d_load_end _ _ _ _ Hrep); cbn [mbind option_bind d_hd].
  - by rewrite decide_True by (by rewrite Hl).
  - rewrite decide_False by done. cbn [mbind option_bind]. rewrite decide_False by done.
    rewrite (IH (xs ++ [a])); [done|by rewrite <- app_assoc|by rewrite d_end_snoc|done|].
    simpl in Hf. lia.
Qed.

(** An [ilink] unlinks itself from whatever list it is in: the list keeps
    the other elements in order (also for the iterator), the element is marked
    as not linked, and no other list or element changes. *)
Theorem ilist_unlink_removes (s : store) (l : nat) (pre post : list N) (a : N) :
  d_rep s l (pre ++ a :: post) →
  ∃ s', unlink s (Obj a) = Some s' ∧ d_rep s' l (pre ++ post) ∧ objs s' !! a = Some new_ilink ∧
    it_collect (S (length (pre ++ post))) s' (it_init l) = Some (Obj <$> pre ++ post) ∧
    (∀ k, k ≠ l → lists s' !! k = lists s !! k) ∧
    (∀ b, b ∉ pre ++ a :: post → objs s' !! b = objs s !! b).
Proof.
  intros Hrep. destruct (unlink_rep s l pre a post Hrep) as (s' & H1 & H2 & H3 & H4 & H5).
  exists s'. split_and!; [done..| |done|done]. by apply (it_collect_rep s' l _ []); [..|lia].
Qed.

Definition ilist1 : store :=
  Store {[ 3%N := Ilink (Some (FirstOf 0)) (Obj 4); 4%N := Ilink (Some (NextOf (Obj 3))) (Sent 0) ]}
        {[ 0%nat := BI (Obj 3) (Ilink (Some (NextOf (Obj 4))) Null);
           1%nat := BI (Sent 1) (Ilink (Some (FirstOf 1)) Null) ]}.

Lemma ilist1_rep : d_rep ilist1 0 [3; 4]%N.
Proof. split_and!; [by apply (bool_decide_unpack _)|done|]. by eexists. Qed.

Lemma ilist_unlink_removes_witness :
  ∃ s', unlink ilist1 (Obj 3) = Some s' ∧ d_rep s' 0 [4%N] ∧ objs s' !! 3%N = Some new_ilink.
Proof.
  destruct (ilist_unlink_removes ilist1 0 [] [4%N] 3 ilist1_rep) as (s' & H1 & H2 & H3 & _).
  exists s'. split_and!; [exact H1|exact H2|exact H3].
Defined.

(** [move_elements_to] copies the two ends but not the links of the elements
    and of the sentinel: from an empty list the new owner does not become empty,
    and a list with elements still ends at the sentinel of the old owner, so the
    iterator of the new owner walks on into the old list. *)
Theorem move_elements_to_keeps_old_sentinel :
  (∃ s', move_elements_to ilist1 1 0 = Some s' ∧ is_empty s' 0 = Some false) ∧
  (∃ s', move_elements_to ilist1 0 1 = Some s' ∧ is_empty s' 0 = Some true ∧
         it_collect 3 s' (it_init 1) = None ∧
         ∃ it k, (it_next s' (Iter 1 (NextOf (Obj 4)) (Obj 4))) = Some (it, k) ∧ k = Sent 0).
Proof.
  split; eexists; (split; [reflexivity|]); [reflexivity|]. split; [reflexivity|]. split; [reflexivity|].
  by eexists _, _.
Qed.
End base_ilist.
