(* ===== verification/Structs.v ===== *)
(** * Intervals, options and parser structures (structs.h), sequences (sql_sequence.h)

    [Discrete_interval] and its list carry the auto-increment values of a
    statement, [DDL_options_st] the clauses of a CREATE or DROP, the [Lex_*]
    structures what the grammar passes between its rules, and [SEQUENCE] the
    stepping of a sequence.  All integers wrap at their C width. *)

From S2P Require Import Prelude.
From Stdlib Require Import ZArith Lia.
From stdpp Require Import base numbers gmap fin_maps option list.
Open Scope Z_scope.
Open Scope cint_scope.

Module Interval.

Definition ULONGLONG_MAX : Z := 2 ^ 64 - 1.

Record Discrete_interval := DI {
  interval_min : Z; interval_values : Z; interval_max : Z; next : N }.

Definition replace (d : Discrete_interval) (start val incr : Z) : Discrete_interval :=
  DI start val (if decide (val = ULONGLONG_MAX) then val else u64 (start + u64 (val * incr))) (next d).

Definition new_interval (start val incr : Z) : Discrete_interval :=
  replace (DI 0 0 0 0%N) start val incr.
Definition new_interval0 : Discrete_interval := replace (DI 0 0 0 0%N) 0 0 0.

Definition minimum (d : Discrete_interval) : Z := interval_min d.
Definition values (d : Discrete_interval) : Z := interval_values d.
Definition maximum (d : Discrete_interval) : Z := interval_max d.

(** The flag is [false] when the interval was merged. *)
Definition merge_if_contiguous (d : Discrete_interval) (start val incr : Z) : Discrete_interval * bool :=
  if decide (interval_max d = start) then
    if decide (val = ULONGLONG_MAX) then (DI (interval_min d) val val (next d), false)
    else (DI (interval_min d) (u64 (interval_values d + val)) (u64 (start + u64 (val * incr))) (next d), false)
  else (d, true).

(** ** Discrete_intervals_list *)

Abbreviation NULL := 0%N.
Abbreviation heap := (gmap N Discrete_interval).

Record intervals := Intervals { head : N; tail : N; current : N; elements : Z }.

Definition set_members (h t c : N) (el : Z) : intervals := Intervals h t c el.

Definition empty_no_free : intervals := set_members NULL NULL NULL 0.

(** The loop of [empty]: the nodes freed, in order. *)
Fixpoint free_loop (fuel : nat) (H : heap) (i : N) : option heap :=
  match fuel with
  | O => None
  | S fuel =>
      if decide (i = NULL) then Some H else
      d ← H !! i; free_loop fuel (delete i H) (next d)
  end.

Definition empty (fuel : nat) (H : heap) (l : intervals) : option (heap * intervals) :=
  H ← free_loop fuel H (head l); Some (H, empty_no_free).

Definition copy_shallow (dli : intervals) : intervals :=
  Intervals (head dli) (tail dli) (current dli) (elements dli).

Definition swap (l dli : intervals) : intervals * intervals :=
  let '(h, t, c, el) := (head dli, tail dli, current dli, elements dli) in
  let dli := copy_shallow l in
  (set_members h t c el, dli).

(** The interval returned and the list with [current] advanced. *)
Definition get_next (H : heap) (l : intervals) : option (N * intervals) :=
  let tmp := current l in
  if decide (current l ≠ NULL) then
    d ← H !! current l; Some (tmp, Intervals (head l) (tail l) (next d) (elements l))
  else Some (tmp, l).

Definition list_minimum (H : heap) (l : intervals) : option Z :=
  if decide (head l ≠ NULL) then minimum <$> H !! head l else Some 0.
Definition list_maximum (H : heap) (l : intervals) : option Z :=
  if decide (head l ≠ NULL) then maximum <$> H !! tail l else Some 0.

End Interval.

Module Ddl.

Definition OPT_NONE : Z := 0.
Definition OPT_IF_NOT_EXISTS : Z := 2.
Definition OPT_LIKE : Z := 4.
Definition OPT_OR_REPLACE : Z := 16.
Definition OPT_OR_REPLACE_SLAVE_GENERATED : Z := 32.
Definition OPT_IF_EXISTS : Z := 64.

Record DDL_options_st := Ddl { m_options : Z }.

Definition nonzero (z : Z) : bool := bool_decide (z ≠ 0).

Definition create_like_options (o : DDL_options_st) : Z :=
  u32 (m_options o) .& (OPT_IF_NOT_EXISTS .| OPT_OR_REPLACE).
Definition init : DDL_options_st := Ddl OPT_NONE.
Definition init_with (options : Z) : DDL_options_st := Ddl options.
Definition set (o : DDL_options_st) (other : Z) : DDL_options_st := Ddl other.
Definition set_from (o other : DDL_options_st) : DDL_options_st := Ddl (m_options other).
Definition if_not_exists (o : DDL_options_st) : bool := nonzero (m_options o .& OPT_IF_NOT_EXISTS).
Definition or_replace (o : DDL_options_st) : bool := nonzero (m_options o .& OPT_OR_REPLACE).
Definition or_replace_slave_generated (o : DDL_options_st) : bool :=
  nonzero (m_options o .& OPT_OR_REPLACE_SLAVE_GENERATED).
Definition like (o : DDL_options_st) : bool := nonzero (m_options o .& OPT_LIKE).
Definition if_exists (o : DDL_options_st) : bool := nonzero (m_options o .& OPT_IF_EXISTS).
Definition add (o : DDL_options_st) (other : Z) : DDL_options_st := Ddl (u32 (m_options o) .| u32 other).
Definition add_from (o other : DDL_options_st) : DDL_options_st := add o (m_options other).
(** [a | b] changes [a]: the object after the call and the value. *)
Definition operator_or (o other : DDL_options_st) : DDL_options_st * DDL_options_st :=
  let o := add o (m_options other) in (o, o).
Definition operator_or_eq (o : DDL_options_st) (other : Z) : DDL_options_st * DDL_options_st :=
  let o := add o other in (o, o).

End Ddl.

Module LexStructs.

(** A pointer; [None] is null. *)
Abbreviation ptr := (option N).

Record Lex_length_and_dec_st := LengthDec { m_length : ptr; m_dec : ptr }.
Definition length_and_dec_set (length dec : ptr) : Lex_length_and_dec_st := LengthDec length dec.

Record Lex_field_type_st := FieldType { ft_base : Lex_length_and_dec_st; m_handler : ptr }.
Definition field_type_set (handler length dec : ptr) : Lex_field_type_st :=
  FieldType (length_and_dec_set length dec) handler.
Definition field_type_set_ld (handler : ptr) (ld : Lex_length_and_dec_st) : Lex_field_type_st :=
  FieldType ld handler.
Definition field_type_set_length (handler length : ptr) : Lex_field_type_st :=
  field_type_set handler length None.
Definition field_type_set_handler (handler : ptr) : Lex_field_type_st := field_type_set handler None None.

Record Lex_dyncol_type_st := DyncolType { dt_base : Lex_length_and_dec_st; m_type : Z }.
Definition dyncol_set (type : Z) (length dec : ptr) : Lex_dyncol_type_st :=
  DyncolType (length_and_dec_set length dec) type.
Definition dyncol_set_ld (type : Z) (ld : Lex_length_and_dec_st) : Lex_dyncol_type_st := DyncolType ld type.
Definition dyncol_set_length (type : Z) (length : ptr) : Lex_dyncol_type_st := dyncol_set type length None.
Definition dyncol_set_type (type : Z) : Lex_dyncol_type_st := dyncol_set type None None.

Record Lex_spblock_st := Spblock { hndlrs : Z; vars : Z; conds : Z; curs : Z }.
Definition handlers_init (b : Lex_spblock_st) (count : Z) : Lex_spblock_st :=
  Spblock count (vars b) (conds b) (curs b).
Definition spblock_init : Lex_spblock_st := Spblock 0 0 0 0.
Definition init_using_vars (nvars : Z) : Lex_spblock_st := Spblock 0 (s32 nvars) 0 0.
Definition join (b1 b2 : Lex_spblock_st) : Lex_spblock_st :=
  Spblock (s32 (hndlrs b1 + hndlrs b2)) (s32 (vars b1 + vars b2))
          (s32 (conds b1 + conds b2)) (s32 (curs b1 + curs b2)).
Definition spblock_of_handlers (other : Z) : Lex_spblock_st := Spblock other 0 0 0.

Record Lex_for_loop_bounds_st := Bounds {
  b_index : ptr; b_target_bound : ptr; b_direction : Z; b_implicit_cursor : bool }.
Definition bounds_is_for_loop_cursor (b : Lex_for_loop_bounds_st) : bool :=
  bool_decide (b_target_bound b = None).
Definition Lex_for_loop_bounds_intrange (direction : Z) (left_expr right_expr : ptr)
    : Lex_for_loop_bounds_st :=
  Bounds (if decide (0 < direction) then left_expr else right_expr)
         (if decide (0 < direction) then right_expr else left_expr) direction false.

Record Lex_for_loop_st := ForLoop {
  m_index : ptr; m_target_bound : ptr; m_cursor_offset : Z; m_direction : Z; m_implicit_cursor : bool }.
Definition for_loop_init (f : Lex_for_loop_st) : Lex_for_loop_st :=
  ForLoop None None (m_cursor_offset f) 0 false.
Definition for_loop_init_from (f other : Lex_for_loop_st) : Lex_for_loop_st := other.
Definition is_for_loop_cursor (f : Lex_for_loop_st) : bool := bool_decide (m_target_bound f = None).
Definition is_for_loop_explicit_cursor (f : Lex_for_loop_st) : bool :=
  is_for_loop_cursor f && negb (m_implicit_cursor f).

Inductive trim_spec := TRIM_LEADING | TRIM_TRAILING | TRIM_BOTH.
Record Lex_trim_st := Trim { m_remove : ptr; m_source : ptr; m_spec : trim_spec }.
Definition trim_set (spec : trim_spec) (remove source : ptr) : Lex_trim_st := Trim remove source spec.
Definition trim_set_source (spec : trim_spec) (source : ptr) : Lex_trim_st := trim_set spec None source.

Record Load_data_param := LoadParam {
  m_charset : ptr; m_fixed_length : Z; m_is_fixed_length : bool; m_use_blobs : bool }.
Definition new_load_data_param (cs : ptr) (is_fixed_length : bool) : Load_data_param :=
  LoadParam cs 0 is_fixed_length false.

End LexStructs.

Module Sequence.

Definition LONGLONG_MAX : Z := 2 ^ 63 - 1.

Record sequence_definition := SeqDef {
  reserved_until : Z; min_value : Z; max_value : Z; start : Z; increment : Z; cache : Z;
  round : Z; restart : Z; cycle : bool; used_fields : Z;
  real_increment : Z; next_free_value : Z }.

(** The constructor sets all members but [reserved_until], [real_increment] and
    [next_free_value], whose values are what the memory held. *)
Definition new_sequence_definition (r ri nf : Z) : sequence_definition :=
  SeqDef r 1 (LONGLONG_MAX - 1) 1 1 1000 0 0 false 0 ri nf.

Record SEQUENCE := Seq { def : sequence_definition; all_values_used : bool }.

(** [copy]; [adjust_values] is code outside of the headers. *)
Definition copy (adjust_values : sequence_definition → Z → sequence_definition)
    (s : SEQUENCE) (seq : sequence_definition) : SEQUENCE :=
  Seq (adjust_values seq (reserved_until seq)) false.

Definition increment_value (s : SEQUENCE) (value : Z) : Z :=
  let d := def s in
  if decide (0 < real_increment d) then
    if decide (max_value d < s64 (value + real_increment d) ∨ s64 (max_value d - real_increment d) < value)
    then s64 (max_value d + 1)
    else s64 (value + real_increment d)
  else
    if decide (s64 (value + real_increment d) < min_value d ∨ value < s64 (min_value d - real_increment d))
    then s64 (min_value d - 1)
    else s64 (value + real_increment d).

End Sequence.

(** ** Intervals *)

Section intervals.
Import Interval.

(** The values of an interval with the step [incr]. *)
Definition in_interval (incr : Z) (d : Discrete_interval) (x : Z) : Prop :=
  ∃ k, 0 ≤ k < interval_values d ∧ x = interval_min d + k * incr.

(** A bounded interval that does not run over the end of the type. *)
Definition bounded (incr : Z) (d : Discrete_interval) : Prop :=
  0 ≤ interval_min d ∧ 0 ≤ interval_values d < ULONGLONG_MAX ∧
  interval_max d = interval_min d + interval_values d * incr ∧ interval_max d < 2 ^ 64.

Lemma replace_bounded d start val incr :
  0 ≤ start → 0 ≤ val < ULONGLONG_MAX → 0 ≤ incr → start + val * incr < 2 ^ 64 →
  bounded incr (replace d start val incr).
Proof.
  intros Hs Hv Hi Hb. unfold bounded, replace. cbn. rewrite decide_False by (unfold ULONGLONG_MAX in *; lia).
  rewrite (wrapu_small 64 (val * incr)) by (unfold in_u; nia).
  rewrite wrapu_small by (unfold in_u; nia). lia.
Qed.

(** Merging a contiguous interval that fits into 64 bits succeeds and gives
    exactly the values of both; an interval that is not contiguous leaves the
    object as it was and is reported. *)
Theorem merge_if_contiguous_union (d : Discrete_interval) (start val incr : Z) :
  bounded incr d → 0 < incr → 0 ≤ start → 0 ≤ val < ULONGLONG_MAX → start + val * incr < 2 ^ 64 →
  interval_values d + val < ULONGLONG_MAX →
  let '(d', failed) := merge_if_contiguous d start val incr in
  failed = bool_decide (interval_max d ≠ start) ∧
  (failed = true → d' = d) ∧
  (failed = false → bounded incr d' ∧
     ∀ x, in_interval incr d' x ↔ in_interval incr d x ∨ in_interval incr (new_interval start val incr) x).
Proof.
  intros (Hm & Hv & Hmax & Hb) Hi Hs Hval Hfit Hsum. unfold merge_if_contiguous.
  assert (val ≠ ULONGLONG_MAX) as Hne by lia.
  case_decide as Hc; [|by rewrite bool_decide_eq_true_2].
  rewrite decide_False by done. split_and!; [by rewrite bool_decide_eq_false_2 by auto|done|intros _].
  unfold ULONGLONG_MAX in *.
  rewrite (wrapu_small 64 (val * incr)) by (unfold in_u; nia).
  rewrite (wrapu_small 64 (start + _)) by (unfold in_u; nia).
  rewrite (wrapu_small 64 (interval_values d + val)) by (unfold in_u; lia). split.
  - unfold bounded, ULONGLONG_MAX. cbn. split_and!; lia.
  - intros x. unfold in_interval. cbn. split.
    + intros (k & Hk & ->). destruct (decide (k < interval_values d)); [left; exists k; lia|].
      right. exists (k - interval_values d). lia.
    + intros [(k & Hk & ->)|(k & Hk & ->)]; [exists k; lia|]. exists (interval_values d + k). lia.
Qed.

Lemma merge_if_contiguous_union_witness :
  let '(d', failed) := merge_if_contiguous (new_interval 1 2 1) 3 3 1 in
  failed = false ∧ bounded 1 d' ∧
  ∀ x, in_interval 1 d' x ↔ in_interval 1 (new_interval 1 2 1) x ∨ in_interval 1 (new_interval 3 3 1) x.
Proof.
  assert (bounded 1 (new_interval 1 2 1)) as Hb by (unfold bounded; split_and!; vm_compute; congruence).
  pose proof (merge_if_contiguous_union (new_interval 1 2 1) 3 3 1 Hb) as H.
  change (merge_if_contiguous (new_interval 1 2 1) 3 3 1) with (DI 1 5 6 0%N, false) in *.
  destruct H as (_ & _ & H); [unfold ULONGLONG_MAX; cbn; lia..|]. split; [done|]. apply H. done.
Defined.

(** The nodes [ns] of the list, linked from [a]. *)
Fixpoint chain (H : heap) (a : N) (ns : list N) : Prop :=
  match ns with
  | [] => a = NULL
  | n :: ns => a = n ∧ n ≠ NULL ∧ ∃ d, H !! n = Some d ∧ chain H (next d) ns
  end.

(** [get_next] until it returns a null pointer. *)
Fixpoint drain (fuel : nat) (H : heap) (l : intervals) : option (list N) :=
  match fuel with
  | O => None
  | S fuel =>
      '(i, l) ← get_next H l;
      if decide (i = NULL) then Some [] else r ← drain fuel H l; Some (i :: r)
  end.

(** [get_next] hands the intervals out in the order of the list. *)
Lemma get_next_in_order (H : heap) (l : intervals) (ns : list N) (fuel : nat) :
  chain H (current l) ns → (length ns < fuel)%nat → drain fuel H l = Some ns.
Proof.
  revert l fuel. induction ns as [|n ns IH]; intros l fuel Hc Hf;
    (destruct fuel as [|fuel]; [simpl in Hf; lia|]); cbn [drain]; unfold get_next; cbn in Hc.
  - rewrite Hc, decide_False by (intros X; by apply X). cbn. by rewrite decide_True.
  - destruct Hc as (-> & Hn & d & Hd & Hc). rewrite decide_True by done. rewrite Hd. cbn.
    rewrite decide_False by done. rewrite (IH _ fuel); [done|done|simpl in Hf; lia].
Qed.
End intervals.

(** ** Options *)

Section options.
Import Ddl.

Lemma flag_add (o : DDL_options_st) (other b : Z) :
  in_u 32 (m_options o) → in_u 32 other →
  nonzero ((u32 (m_options o) .| u32 other) .& b) =
    nonzero (m_options o .& b) || nonzero (other .& b).
Proof.
  intros H1 H2. rewrite !wrapu_small by done. unfold nonzero.
  rewrite Z.land_lor_distr_l. 
  destruct (decide (m_options o .& b = 0)) as [E1|E1], (decide (other .& b = 0)) as [E2|E2].
  - by rewrite E1, E2.
  - by rewrite E1, Z.lor_0_l.
  - rewrite E2, Z.lor_0_r. by rewrite (bool_decide_eq_false_2 (0 ≠ 0)), orb_false_r by auto.
  - rewrite (bool_decide_eq_true_2 (m_options o .& b ≠ 0)) by done. apply bool_decide_eq_true_2.
    intros E. apply Z.lor_eq_0_iff in E. tauto.
Qed.

(** [add], [|=] and [|] of two option sets give every clause that one of them
    has; [|] and [|=] also change their left operand. *)
Lemma ddl_options_union (o other : DDL_options_st) :
  in_u 32 (m_options o) → in_u 32 (m_options other) →
  let r := add_from o other in
  operator_or o other = (r, r) ∧
  if_not_exists r = if_not_exists o || if_not_exists other ∧
  or_replace r = or_replace o || or_replace other ∧
  or_replace_slave_generated r = or_replace_slave_generated o || or_replace_slave_generated other ∧
  like r = like o || like other ∧
  if_exists r = if_exists o || if_exists other.
Proof. intros H1 H2 r. split; [done|]. split_and!; by apply flag_add. Qed.
End options.

(** ** Parser structures *)

Section parser.
Import LexStructs.

(** The bounds of an integer FOR loop: the first value is the left expression
    when the loop runs upwards and the right one when it runs downwards, and
    such a loop is not a cursor loop. *)
Lemma intrange_bounds (direction : Z) (l r : N) :
  let b := Lex_for_loop_bounds_intrange direction (Some l) (Some r) in
  bounds_is_for_loop_cursor b = false ∧
  (b_index b, b_target_bound b) = (if decide (0 < direction) then (Some l, Some r) else (Some r, Some l)).
Proof. unfold Lex_for_loop_bounds_intrange, bounds_is_for_loop_cursor. cbn. by case_decide. Qed.

Definition counts_ok (b : Lex_spblock_st) : Prop :=
  0 ≤ hndlrs b < 2 ^ 30 ∧ 0 ≤ vars b < 2 ^ 30 ∧ 0 ≤ conds b < 2 ^ 30 ∧ 0 ≤ curs b < 2 ^ 30.

(** Joining declaration blocks adds their counts, and is associative while they
    are in range. *)
Lemma join_sum (b1 b2 : Lex_spblock_st) :
  counts_ok b1 → counts_ok b2 →
  join b1 b2 = Spblock (hndlrs b1 + hndlrs b2) (vars b1 + vars b2) (conds b1 + conds b2) (curs b1 + curs b2).
Proof. intros H1 H2. unfold counts_ok, join in *. f_equal; apply wraps_small; unfold in_s; lia. Qed.
End parser.

(** ** Sequences *)

Section sequence.
Import Sequence.

(** What [check_and_adjust] guarantees of a sequence in use. *)
Definition sequence_ok (d : sequence_definition) : Prop :=
  - 2 ^ 63 < min_value d ∧ min_value d ≤ max_value d ∧ max_value d < LONGLONG_MAX ∧
  in_s 64 (real_increment d).

(** [increment_value] of a value inside the bounds is the next value when
    this is inside, and otherwise the first value outside (max_value + 1 upwards,
    min_value - 1 downwards): the wrap-around of the additions and subtractions
    never shows. *)
Theorem sequence_increment_saturates (s : SEQUENCE) (value : Z) :
  sequence_ok (def s) → min_value (def s) ≤ value ≤ max_value (def s) →
  increment_value s value =
    if decide (0 < real_increment (def s))
    then Z.min (value + real_increment (def s)) (max_value (def s) + 1)
    else Z.max (value + real_increment (def s)) (min_value (def s) - 1).
Proof.
  intros (Hmin & Hle & Hmax & Hinc) Hv. unfold increment_value, LONGLONG_MAX, in_s in *.
  set (d := def s) in *. clearbody d.
  destruct (decide (0 < real_increment d)) as [Hpos|Hpos].
  - destruct (decide (value + real_increment d ≤ max_value d)) as [Hin|Hout].
    + rewrite decide_False; [rewrite wraps_small by (unfold in_s; lia); lia|].
      rewrite wraps_small by (unfold in_s; lia). intros [H|H]; [lia|].
      rewrite wraps_small in H by (unfold in_s; lia). lia.
    + rewrite decide_True; [rewrite wraps_small by (unfold in_s; lia); lia|].
      destruct (decide (value + real_increment d < 2 ^ 63)) as [Hs|Hs].
      * left. rewrite wraps_small by (unfold in_s; lia). lia.
      * right. rewrite wraps_small by (unfold in_s; lia). lia.
  - destruct (decide (min_value d ≤ value + real_increment d)) as [Hin|Hout].
    + rewrite decide_False; [rewrite wraps_small by (unfold in_s; lia); lia|].
      rewrite wraps_small by (unfold in_s; lia). intros [H|H]; [lia|].
      rewrite wraps_small in H by (unfold in_s; lia). lia.
    + rewrite decide_True; [rewrite wraps_small by (unfold in_s; lia); lia|].
      destruct (decide (- 2 ^ 63 ≤ value + real_increment d)) as [Hs|Hs].
      * left. rewrite wraps_small by (unfold in_s; lia). lia.
      * right. rewrite wraps_small by (unfold in_s; lia). lia.
Qed.

Definition seq_demo (inc : Z) : SEQUENCE :=
  Seq (SeqDef 1 1 (2 ^ 63 - 2) 1 inc 1000 0 0 false 0 inc 1) false.

Lemma sequence_increment_saturates_witness :
  increment_value (seq_demo (2 ^ 62)) (2 ^ 62 + 5) = 2 ^ 63 - 1 ∧
  increment_value (seq_demo (-10)) 7 = 0.
Proof.
  split; (rewrite sequence_increment_saturates;
    [reflexivity | unfold sequence_ok, LONGLONG_MAX, in_s; cbn; lia | cbn; lia]).
Defined.
End sequence.
