(* ===== verification/Lex.v ===== *)
(** * The lexer's symbol tables (lex.h)

    The names and tokens of [symbols[]] and [sql_functions[]], the tables from
    which the keyword hash of the lexer is built.  The numbers of the tokens are
    generated from the grammar, so a token is its name here. *)

From S2P Require Import Prelude.
From Stdlib Require Import ZArith Lia.
From stdpp Require Import base numbers strings sorting list.
Open Scope Z_scope.

Module Lex.
Open Scope string_scope.

Record SYM_GROUP := SymGroup { group_name : string; needed_define : string }.

Definition sym_group_common : SYM_GROUP := SymGroup EmptyString EmptyString.
Definition sym_group_geom : SYM_GROUP := SymGroup "Spatial extentions" "HAVE_SPATIAL".
Definition sym_group_rtree : SYM_GROUP := SymGroup "RTree keys" "HAVE_RTREE_KEYS".

Record SYMBOL := Symbol { name : string; tok : string; sym_length : Z; group : SYM_GROUP }.

(** [{ "name", SYM(TOKEN) }] *)
Definition SYM (n t : string) : SYMBOL := Symbol n t 0 sym_group_common.

Definition symbols_1 : list SYMBOL := [
  SYM "&&" "AND_AND_SYM";
  SYM "<=" "LE";
  SYM "<>" "NE";
  SYM "!=" "NE";
  SYM ">=" "GE";
  SYM "<<" "SHIFT_LEFT";
  SYM ">>" "SHIFT_RIGHT";
  SYM "<=>" "EQUAL_SYM";
  SYM "ACCESSIBLE" "ACCESSIBLE_SYM";
  SYM "ACTION" "ACTION";
  SYM "ADD" "ADD";
  SYM "ADMIN" "ADMIN_SYM";
  SYM "AFTER" "AFTER_SYM";
  SYM "AGAINST" "AGAINST";
  SYM "AGGREGATE" "AGGREGATE_SYM";
  SYM "ALL" "ALL";
  SYM "ALGORITHM" "ALGORITHM_SYM";
  SYM "ALTER" "ALTER";
  SYM "ALWAYS" "ALWAYS_SYM";
  SYM "ANALYZE" "ANALYZE_SYM";
  SYM "AND" "AND_SYM";
  SYM "ANY" "ANY_SYM";
  SYM "AS" "AS";
  SYM "ASC" "ASC";
  SYM "ASCII" "ASCII_SYM";
  SYM "ASENSITIVE" "ASENSITIVE_SYM";
  SYM "AT" "AT_SYM";
  SYM "ATOMIC" "ATOMIC_SYM";
  SYM "AUTHORS" "AUTHORS_SYM";
  SYM "AUTO_INCREMENT" "AUTO_INC";
  SYM "AUTOEXTEND_SIZE" "AUTOEXTEND_SIZE_SYM";
  SYM "AUTO" "AUTO_SYM";
  SYM "AVG" "AVG_SYM";
  SYM "AVG_ROW_LENGTH" "AVG_ROW_LENGTH";
  SYM "BACKUP" "BACKUP_SYM";
  SYM "BEFORE" "BEFORE_SYM";
  SYM "BEGIN" "BEGIN_MARIADB_SYM";
  SYM "BETWEEN" "BETWEEN_SYM";
  SYM "BIGINT" "BIGINT";
  SYM "BINARY" "BINARY";
  SYM "BINLOG" "BINLOG_SYM";
  SYM "BIT" "BIT_SYM";
  SYM "BLOB" "BLOB_MARIADB_SYM";
  SYM "BLOCK" "BLOCK_SYM";
  SYM "BODY" "BODY_MARIADB_SYM";
  SYM "BOOL" "BOOL_SYM";
  SYM "BOOLEAN" "BOOLEAN_SYM";
  SYM "BOTH" "BOTH";
  SYM "BTREE" "BTREE_SYM";
  SYM "BY" "BY";
  SYM "BYTE" "BYTE_SYM";
  SYM "CACHE" "CACHE_SYM";
  SYM "CALL" "CALL_SYM";
  SYM "CASCADE" "CASCADE";
  SYM "CASCADED" "CASCADED";
  SYM "CASE" "CASE_SYM";
  SYM "CATALOG_NAME" "CATALOG_NAME_SYM";
  SYM "CHAIN" "CHAIN_SYM";
  SYM "CHANGE" "CHANGE";
  SYM "CHANGED" "CHANGED";
  SYM "CHAR" "CHAR_SYM";
  SYM "CHARACTER" "CHAR_SYM";
  SYM "CHARSET" "CHARSET";
  SYM "CHECK" "CHECK_SYM";
  SYM "CHECKPOINT" "CHECKPOINT_SYM";
  SYM "CHECKSUM" "CHECKSUM_SYM";
  SYM "CIPHER" "CIPHER_SYM";
  SYM "CLASS_ORIGIN" "CLASS_ORIGIN_SYM";
  SYM "CLIENT" "CLIENT_SYM";
  SYM "CLOB" "CLOB_MARIADB_SYM";
  SYM "CLOSE" "CLOSE_SYM";
  SYM "COALESCE" "COALESCE";
  SYM "CODE" "CODE_SYM";
  SYM "COLLATE" "COLLATE_SYM";
  SYM "COLLATION" "COLLATION_SYM";
  SYM "COLUMN" "COLUMN_SYM";
  SYM "COLUMN_NAME" "COLUMN_NAME_SYM";
  SYM "COLUMNS" "COLUMNS";
  SYM "COLUMN_ADD" "COLUMN_ADD_SYM";
  SYM "COLUMN_CHECK" "COLUMN_CHECK_SYM";
  SYM "COLUMN_CREATE" "COLUMN_CREATE_SYM";
  SYM "COLUMN_DELETE" "COLUMN_DELETE_SYM";
  SYM "COLUMN_GET" "COLUMN_GET_SYM";
  SYM "COMMENT" "COMMENT_SYM";
  SYM "COMMIT" "COMMIT_SYM";
  SYM "COMMITTED" "COMMITTED_SYM";
  SYM "COMPACT" "COMPACT_SYM";
  SYM "COMPLETION" "COMPLETION_SYM";
  SYM "COMPRESSED" "COMPRESSED_SYM";
  SYM "CONCURRENT" "CONCURRENT";
  SYM "CONDITION" "CONDITION_SYM";
  SYM "CONNECTION" "CONNECTION_SYM";
  SYM "CONSISTENT" "CONSISTENT_SYM";
  SYM "CONSTRAINT" "CONSTRAINT";
  SYM "CONSTRAINT_CATALOG" "CONSTRAINT_CATALOG_SYM";
  SYM "CONSTRAINT_NAME" "CONSTRAINT_NAME_SYM";
  SYM "CONSTRAINT_SCHEMA" "CONSTRAINT_SCHEMA_SYM";
  SYM "CONTAINS" "CONTAINS_SYM";
  SYM "CONTEXT" "CONTEXT_SYM";
  SYM "CONTINUE" "CONTINUE_MARIADB_SYM";
  SYM "CONTRIBUTORS" "CONTRIBUTORS_SYM";
  SYM "CONVERT" "CONVERT_SYM";
  SYM "CPU" "CPU_SYM";
  SYM "CREATE" "CREATE";
  SYM "CROSS" "CROSS";
  SYM "CUBE" "CUBE_SYM";
  SYM "CURRENT" "CURRENT_SYM";
  SYM "CURRENT_DATE" "CURDATE";
  SYM "CURRENT_POS" "CURRENT_POS_SYM";
  SYM "CURRENT_ROLE" "CURRENT_ROLE";
  SYM "CURRENT_TIME" "CURTIME";
  SYM "CURRENT_TIMESTAMP" "NOW_SYM";
  SYM "CURRENT_USER" "CURRENT_USER";
  SYM "CURSOR" "CURSOR_SYM";
  SYM "CURSOR_NAME" "CURSOR_NAME_SYM";
  SYM "CYCLE" "CYCLE_SYM";
  SYM "DATA" "DATA_SYM";
  SYM "DATABASE" "DATABASE";
  SYM "DATABASES" "DATABASES";
  SYM "DATAFILE" "DATAFILE_SYM";
  SYM "DATE" "DATE_SYM";
  SYM "DATETIME" "DATETIME";
  SYM "DAY" "DAY_SYM";
  SYM "DAY_HOUR" "DAY_HOUR_SYM";
  SYM "DAY_MICROSECOND" "DAY_MICROSECOND_SYM";
  SYM "DAY_MINUTE" "DAY_MINUTE_SYM";
  SYM "DAY_SECOND" "DAY_SECOND_SYM";
  SYM "DEALLOCATE" "DEALLOCATE_SYM";
  SYM "DEC" "DECIMAL_SYM";
  SYM "DECIMAL" "DECIMAL_SYM";
  SYM "DECLARE" "DECLARE_MARIADB_SYM";
  SYM "DEFAULT" "DEFAULT";
  SYM "DEFINER" "DEFINER_SYM";
  SYM "DELAYED" "DELAYED_SYM";
  SYM "DELAY_KEY_WRITE" "DELAY_KEY_WRITE_SYM";
  SYM "DELETE" "DELETE_SYM";
  SYM "DELETE_DOMAIN_ID" "DELETE_DOMAIN_ID_SYM";
  SYM "DESC" "DESC"].

Definition symbols_2 : list SYMBOL := [
  SYM "DESCRIBE" "DESCRIBE";
  SYM "DES_KEY_FILE" "DES_KEY_FILE";
  SYM "DETERMINISTIC" "DETERMINISTIC_SYM";
  SYM "DIAGNOSTICS" "DIAGNOSTICS_SYM";
  SYM "DIRECTORY" "DIRECTORY_SYM";
  SYM "DISABLE" "DISABLE_SYM";
  SYM "DISCARD" "DISCARD";
  SYM "DISK" "DISK_SYM";
  SYM "DISTINCT" "DISTINCT";
  SYM "DISTINCTROW" "DISTINCT";
  SYM "DIV" "DIV_SYM";
  SYM "DO" "DO_SYM";
  SYM "DOUBLE" "DOUBLE_SYM";
  SYM "DO_DOMAIN_IDS" "DO_DOMAIN_IDS_SYM";
  SYM "DROP" "DROP";
  SYM "DUAL" "DUAL_SYM";
  SYM "DUMPFILE" "DUMPFILE";
  SYM "DUPLICATE" "DUPLICATE_SYM";
  SYM "DYNAMIC" "DYNAMIC_SYM";
  SYM "EACH" "EACH_SYM";
  SYM "ELSE" "ELSE";
  SYM "ELSEIF" "ELSEIF_MARIADB_SYM";
  SYM "ELSIF" "ELSIF_MARIADB_SYM";
  SYM "ENABLE" "ENABLE_SYM";
  SYM "ENCLOSED" "ENCLOSED";
  SYM "END" "END";
  SYM "ENDS" "ENDS_SYM";
  SYM "ENGINE" "ENGINE_SYM";
  SYM "ENGINES" "ENGINES_SYM";
  SYM "ENUM" "ENUM";
  SYM "ERROR" "ERROR_SYM";
  SYM "ERRORS" "ERRORS";
  SYM "ESCAPE" "ESCAPE_SYM";
  SYM "ESCAPED" "ESCAPED";
  SYM "EVENT" "EVENT_SYM";
  SYM "EVENTS" "EVENTS_SYM";
  SYM "EVERY" "EVERY_SYM";
  SYM "EXAMINED" "EXAMINED_SYM";
  SYM "EXCEPT" "EXCEPT_SYM";
  SYM "EXCHANGE" "EXCHANGE_SYM";
  SYM "EXCLUDE" "EXCLUDE_SYM";
  SYM "EXECUTE" "EXECUTE_SYM";
  SYM "EXCEPTION" "EXCEPTION_MARIADB_SYM";
  SYM "EXISTS" "EXISTS";
  SYM "EXIT" "EXIT_MARIADB_SYM";
  SYM "EXPANSION" "EXPANSION_SYM";
  SYM "EXPORT" "EXPORT_SYM";
  SYM "EXPLAIN" "DESCRIBE";
  SYM "EXTENDED" "EXTENDED_SYM";
  SYM "EXTENT_SIZE" "EXTENT_SIZE_SYM";
  SYM "FALSE" "FALSE_SYM";
  SYM "FAST" "FAST_SYM";
  SYM "FAULTS" "FAULTS_SYM";
  SYM "FETCH" "FETCH_SYM";
  SYM "FIELDS" "COLUMNS";
  SYM "FILE" "FILE_SYM";
  SYM "FIRST" "FIRST_SYM";
  SYM "FIXED" "FIXED_SYM";
  SYM "FLOAT" "FLOAT_SYM";
  SYM "FLOAT4" "FLOAT_SYM";
  SYM "FLOAT8" "DOUBLE_SYM";
  SYM "FLUSH" "FLUSH_SYM";
  SYM "FOLLOWING" "FOLLOWING_SYM";
  SYM "FOLLOWS" "FOLLOWS_SYM";
  SYM "FOR" "FOR_SYM";
  SYM "FORCE" "FORCE_SYM";
  SYM "FOREIGN" "FOREIGN";
  SYM "FORMAT" "FORMAT_SYM";
  SYM "FOUND" "FOUND_SYM";
  SYM "FROM" "FROM";
  SYM "FULL" "FULL";
  SYM "FULLTEXT" "FULLTEXT_SYM";
  SYM "FUNCTION" "FUNCTION_SYM";
  SYM "GENERAL" "GENERAL";
  SYM "GENERATED" "GENERATED_SYM";
  SYM "GEOMETRY" "GEOMETRY_SYM";
  SYM "GEOMETRYCOLLECTION" "GEOMETRYCOLLECTION";
  SYM "GET_FORMAT" "GET_FORMAT";
  SYM "GET" "GET_SYM";
  SYM "GLOBAL" "GLOBAL_SYM";
  SYM "GOTO" "GOTO_MARIADB_SYM";
  SYM "GRANT" "GRANT";
  SYM "GRANTS" "GRANTS";
  SYM "GROUP" "GROUP_SYM";
  SYM "HANDLER" "HANDLER_SYM";
  SYM "HARD" "HARD_SYM";
  SYM "HASH" "HASH_SYM";
  SYM "HAVING" "HAVING";
  SYM "HELP" "HELP_SYM";
  SYM "HIGH_PRIORITY" "HIGH_PRIORITY";
  SYM "HISTORY" "HISTORY_SYM";
  SYM "HOST" "HOST_SYM";
  SYM "HOSTS" "HOSTS_SYM";
  SYM "HOUR" "HOUR_SYM";
  SYM "HOUR_MICROSECOND" "HOUR_MICROSECOND_SYM";
  SYM "HOUR_MINUTE" "HOUR_MINUTE_SYM";
  SYM "HOUR_SECOND" "HOUR_SECOND_SYM";
  SYM "ID" "ID_SYM";
  SYM "IDENTIFIED" "IDENTIFIED_SYM";
  SYM "IF" "IF_SYM";
  SYM "IGNORE" "IGNORE_SYM";
  SYM "IGNORE_DOMAIN_IDS" "IGNORE_DOMAIN_IDS_SYM";
  SYM "IGNORE_SERVER_IDS" "IGNORE_SERVER_IDS_SYM";
  SYM "IMMEDIATE" "IMMEDIATE_SYM";
  SYM "IMPORT" "IMPORT";
  SYM "INTERSECT" "INTERSECT_SYM";
  SYM "IN" "IN_SYM";
  SYM "INCREMENT" "INCREMENT_SYM";
  SYM "INDEX" "INDEX_SYM";
  SYM "INDEXES" "INDEXES";
  SYM "INFILE" "INFILE";
  SYM "INITIAL_SIZE" "INITIAL_SIZE_SYM";
  SYM "INNER" "INNER_SYM";
  SYM "INOUT" "INOUT_SYM";
  SYM "INSENSITIVE" "INSENSITIVE_SYM";
  SYM "INSERT" "INSERT";
  SYM "INSERT_METHOD" "INSERT_METHOD";
  SYM "INSTALL" "INSTALL_SYM";
  SYM "INT" "INT_SYM";
  SYM "INT1" "TINYINT";
  SYM "INT2" "SMALLINT";
  SYM "INT3" "MEDIUMINT";
  SYM "INT4" "INT_SYM";
  SYM "INT8" "BIGINT";
  SYM "INTEGER" "INT_SYM";
  SYM "INTERVAL" "INTERVAL_SYM";
  SYM "INVISIBLE" "INVISIBLE_SYM";
  SYM "INTO" "INTO";
  SYM "IO" "IO_SYM";
  SYM "IO_THREAD" "RELAY_THREAD";
  SYM "IPC" "IPC_SYM";
  SYM "IS" "IS";
  SYM "ISOLATION" "ISOLATION";
  SYM "ISOPEN" "ISOPEN_SYM";
  SYM "ISSUER" "ISSUER_SYM";
  SYM "ITERATE" "ITERATE_SYM";
  SYM "INVOKER" "INVOKER_SYM";
  SYM "JOIN" "JOIN_SYM"].

Definition symbols_3 : list SYMBOL := [
  SYM "JSON" "JSON_SYM";
  SYM "KEY" "KEY_SYM";
  SYM "KEYS" "KEYS";
  SYM "KEY_BLOCK_SIZE" "KEY_BLOCK_SIZE";
  SYM "KILL" "KILL_SYM";
  SYM "LANGUAGE" "LANGUAGE_SYM";
  SYM "LAST" "LAST_SYM";
  SYM "LAST_VALUE" "LAST_VALUE";
  SYM "LASTVAL" "LASTVAL_SYM";
  SYM "LEADING" "LEADING";
  SYM "LEAVE" "LEAVE_SYM";
  SYM "LEAVES" "LEAVES";
  SYM "LEFT" "LEFT";
  SYM "LESS" "LESS_SYM";
  SYM "LEVEL" "LEVEL_SYM";
  SYM "LIKE" "LIKE";
  SYM "LIMIT" "LIMIT";
  SYM "LINEAR" "LINEAR_SYM";
  SYM "LINES" "LINES";
  SYM "LINESTRING" "LINESTRING";
  SYM "LIST" "LIST_SYM";
  SYM "LOAD" "LOAD";
  SYM "LOCAL" "LOCAL_SYM";
  SYM "LOCALTIME" "NOW_SYM";
  SYM "LOCALTIMESTAMP" "NOW_SYM";
  SYM "LOCK" "LOCK_SYM";
  SYM "LOCKS" "LOCKS_SYM";
  SYM "LOGFILE" "LOGFILE_SYM";
  SYM "LOGS" "LOGS_SYM";
  SYM "LONG" "LONG_SYM";
  SYM "LONGBLOB" "LONGBLOB";
  SYM "LONGTEXT" "LONGTEXT";
  SYM "LOOP" "LOOP_SYM";
  SYM "LOW_PRIORITY" "LOW_PRIORITY";
  SYM "MASTER" "MASTER_SYM";
  SYM "MASTER_CONNECT_RETRY" "MASTER_CONNECT_RETRY_SYM";
  SYM "MASTER_DELAY" "MASTER_DELAY_SYM";
  SYM "MASTER_GTID_POS" "MASTER_GTID_POS_SYM";
  SYM "MASTER_HOST" "MASTER_HOST_SYM";
  SYM "MASTER_LOG_FILE" "MASTER_LOG_FILE_SYM";
  SYM "MASTER_LOG_POS" "MASTER_LOG_POS_SYM";
  SYM "MASTER_PASSWORD" "MASTER_PASSWORD_SYM";
  SYM "MASTER_PORT" "MASTER_PORT_SYM";
  SYM "MASTER_SERVER_ID" "MASTER_SERVER_ID_SYM";
  SYM "MASTER_SSL" "MASTER_SSL_SYM";
  SYM "MASTER_SSL_CA" "MASTER_SSL_CA_SYM";
  SYM "MASTER_SSL_CAPATH" "MASTER_SSL_CAPATH_SYM";
  SYM "MASTER_SSL_CERT" "MASTER_SSL_CERT_SYM";
  SYM "MASTER_SSL_CIPHER" "MASTER_SSL_CIPHER_SYM";
  SYM "MASTER_SSL_CRL" "MASTER_SSL_CRL_SYM";
  SYM "MASTER_SSL_CRLPATH" "MASTER_SSL_CRLPATH_SYM";
  SYM "MASTER_SSL_KEY" "MASTER_SSL_KEY_SYM";
  SYM "MASTER_SSL_VERIFY_SERVER_CERT" "MASTER_SSL_VERIFY_SERVER_CERT_SYM";
  SYM "MASTER_USER" "MASTER_USER_SYM";
  SYM "MASTER_USE_GTID" "MASTER_USE_GTID_SYM";
  SYM "MASTER_HEARTBEAT_PERIOD" "MASTER_HEARTBEAT_PERIOD_SYM";
  SYM "MATCH" "MATCH";
  SYM "MAX_CONNECTIONS_PER_HOUR" "MAX_CONNECTIONS_PER_HOUR";
  SYM "MAX_QUERIES_PER_HOUR" "MAX_QUERIES_PER_HOUR";
  SYM "MAX_ROWS" "MAX_ROWS";
  SYM "MAX_SIZE" "MAX_SIZE_SYM";
  SYM "MAX_STATEMENT_TIME" "MAX_STATEMENT_TIME_SYM";
  SYM "MAX_UPDATES_PER_HOUR" "MAX_UPDATES_PER_HOUR";
  SYM "MAX_USER_CONNECTIONS" "MAX_USER_CONNECTIONS_SYM";
  SYM "MAXVALUE" "MAXVALUE_SYM";
  SYM "MEDIUM" "MEDIUM_SYM";
  SYM "MEDIUMBLOB" "MEDIUMBLOB";
  SYM "MEDIUMINT" "MEDIUMINT";
  SYM "MEDIUMTEXT" "MEDIUMTEXT";
  SYM "MEMORY" "MEMORY_SYM";
  SYM "MERGE" "MERGE_SYM";
  SYM "MESSAGE_TEXT" "MESSAGE_TEXT_SYM";
  SYM "MICROSECOND" "MICROSECOND_SYM";
  SYM "MIDDLEINT" "MEDIUMINT";
  SYM "MIGRATE" "MIGRATE_SYM";
  SYM "MINUTE" "MINUTE_SYM";
  SYM "MINUTE_MICROSECOND" "MINUTE_MICROSECOND_SYM";
  SYM "MINUTE_SECOND" "MINUTE_SECOND_SYM";
  SYM "MINVALUE" "MINVALUE_SYM";
  SYM "MIN_ROWS" "MIN_ROWS";
  SYM "MOD" "MOD_SYM";
  SYM "MODE" "MODE_SYM";
  SYM "MODIFIES" "MODIFIES_SYM";
  SYM "MODIFY" "MODIFY_SYM";
  SYM "MONTH" "MONTH_SYM";
  SYM "MULTILINESTRING" "MULTILINESTRING";
  SYM "MULTIPOINT" "MULTIPOINT";
  SYM "MULTIPOLYGON" "MULTIPOLYGON";
  SYM "MUTEX" "MUTEX_SYM";
  SYM "MYSQL" "MYSQL_SYM";
  SYM "MYSQL_ERRNO" "MYSQL_ERRNO_SYM";
  SYM "NAME" "NAME_SYM";
  SYM "NAMES" "NAMES_SYM";
  SYM "NATIONAL" "NATIONAL_SYM";
  SYM "NATURAL" "NATURAL";
  SYM "NCHAR" "NCHAR_SYM";
  SYM "NEW" "NEW_SYM";
  SYM "NEXT" "NEXT_SYM";
  SYM "NEXTVAL" "NEXTVAL_SYM";
  SYM "NO" "NO_SYM";
  SYM "NOMAXVALUE" "NOMAXVALUE_SYM";
  SYM "NOMINVALUE" "NOMINVALUE_SYM";
  SYM "NOCACHE" "NOCACHE_SYM";
  SYM "NOCYCLE" "NOCYCLE_SYM";
  SYM "NO_WAIT" "NO_WAIT_SYM";
  SYM "NOWAIT" "NOWAIT_SYM";
  SYM "NODEGROUP" "NODEGROUP_SYM";
  SYM "NONE" "NONE_SYM";
  SYM "NOT" "NOT_SYM";
  SYM "NOTFOUND" "NOTFOUND_SYM";
  SYM "NO_WRITE_TO_BINLOG" "NO_WRITE_TO_BINLOG";
  SYM "NULL" "NULL_SYM";
  SYM "NUMBER" "NUMBER_MARIADB_SYM";
  SYM "NUMERIC" "NUMERIC_SYM";
  SYM "NVARCHAR" "NVARCHAR_SYM";
  SYM "OF" "OF_SYM";
  SYM "OFFSET" "OFFSET_SYM";
  SYM "OLD_PASSWORD" "OLD_PASSWORD_SYM";
  SYM "ON" "ON";
  SYM "ONE" "ONE_SYM";
  SYM "ONLINE" "ONLINE_SYM";
  SYM "ONLY" "ONLY_SYM";
  SYM "OPEN" "OPEN_SYM";
  SYM "OPTIMIZE" "OPTIMIZE";
  SYM "OPTIONS" "OPTIONS_SYM";
  SYM "OPTION" "OPTION";
  SYM "OPTIONALLY" "OPTIONALLY";
  SYM "OR" "OR_SYM";
  SYM "ORDER" "ORDER_SYM";
  SYM "OTHERS" "OTHERS_MARIADB_SYM";
  SYM "OUT" "OUT_SYM";
  SYM "OUTER" "OUTER";
  SYM "OUTFILE" "OUTFILE";
  SYM "OVER" "OVER_SYM";
  SYM "OWNER" "OWNER_SYM";
  SYM "PACKAGE" "PACKAGE_MARIADB_SYM";
  SYM "PACK_KEYS" "PACK_KEYS_SYM";
  SYM "PAGE" "PAGE_SYM"].

Definition symbols_4 : list SYMBOL := [
  SYM "PAGE_CHECKSUM" "PAGE_CHECKSUM_SYM";
  SYM "PARSER" "PARSER_SYM";
  SYM "PARSE_VCOL_EXPR" "PARSE_VCOL_EXPR_SYM";
  SYM "PERIOD" "PERIOD_SYM";
  SYM "PARTIAL" "PARTIAL";
  SYM "PARTITION" "PARTITION_SYM";
  SYM "PARTITIONING" "PARTITIONING_SYM";
  SYM "PARTITIONS" "PARTITIONS_SYM";
  SYM "PASSWORD" "PASSWORD_SYM";
  SYM "PERSISTENT" "PERSISTENT_SYM";
  SYM "PHASE" "PHASE_SYM";
  SYM "PLUGIN" "PLUGIN_SYM";
  SYM "PLUGINS" "PLUGINS_SYM";
  SYM "POINT" "POINT_SYM";
  SYM "POLYGON" "POLYGON";
  SYM "PORT" "PORT_SYM";
  SYM "PRECEDES" "PRECEDES_SYM";
  SYM "PRECEDING" "PRECEDING_SYM";
  SYM "PRECISION" "PRECISION";
  SYM "PREPARE" "PREPARE_SYM";
  SYM "PRESERVE" "PRESERVE_SYM";
  SYM "PREV" "PREV_SYM";
  SYM "PREVIOUS" "PREVIOUS_SYM";
  SYM "PRIMARY" "PRIMARY_SYM";
  SYM "PRIVILEGES" "PRIVILEGES";
  SYM "PROCEDURE" "PROCEDURE_SYM";
  SYM "PROCESS" "PROCESS";
  SYM "PROCESSLIST" "PROCESSLIST_SYM";
  SYM "PROFILE" "PROFILE_SYM";
  SYM "PROFILES" "PROFILES_SYM";
  SYM "PROXY" "PROXY_SYM";
  SYM "PURGE" "PURGE";
  SYM "QUARTER" "QUARTER_SYM";
  SYM "QUERY" "QUERY_SYM";
  SYM "QUICK" "QUICK";
  SYM "RAISE" "RAISE_MARIADB_SYM";
  SYM "RANGE" "RANGE_SYM";
  SYM "RAW" "RAW_MARIADB_SYM";
  SYM "READ" "READ_SYM";
  SYM "READ_ONLY" "READ_ONLY_SYM";
  SYM "READ_WRITE" "READ_WRITE_SYM";
  SYM "READS" "READS_SYM";
  SYM "REAL" "REAL";
  SYM "REBUILD" "REBUILD_SYM";
  SYM "RECOVER" "RECOVER_SYM";
  SYM "RECURSIVE" "RECURSIVE_SYM";
  SYM "REDO_BUFFER_SIZE" "REDO_BUFFER_SIZE_SYM";
  SYM "REDOFILE" "REDOFILE_SYM";
  SYM "REDUNDANT" "REDUNDANT_SYM";
  SYM "REFERENCES" "REFERENCES";
  SYM "REGEXP" "REGEXP";
  SYM "RELAY" "RELAY";
  SYM "RELAYLOG" "RELAYLOG_SYM";
  SYM "RELAY_LOG_FILE" "RELAY_LOG_FILE_SYM";
  SYM "RELAY_LOG_POS" "RELAY_LOG_POS_SYM";
  SYM "RELAY_THREAD" "RELAY_THREAD";
  SYM "RELEASE" "RELEASE_SYM";
  SYM "RELOAD" "RELOAD";
  SYM "REMOVE" "REMOVE_SYM";
  SYM "RENAME" "RENAME";
  SYM "REORGANIZE" "REORGANIZE_SYM";
  SYM "REPAIR" "REPAIR";
  SYM "REPEATABLE" "REPEATABLE_SYM";
  SYM "REPLACE" "REPLACE";
  SYM "REPLICATION" "REPLICATION";
  SYM "REPEAT" "REPEAT_SYM";
  SYM "REQUIRE" "REQUIRE_SYM";
  SYM "RESET" "RESET_SYM";
  SYM "RESIGNAL" "RESIGNAL_SYM";
  SYM "RESTART" "RESTART_SYM";
  SYM "RESTORE" "RESTORE_SYM";
  SYM "RESTRICT" "RESTRICT";
  SYM "RESUME" "RESUME_SYM";
  SYM "RETURNED_SQLSTATE" "RETURNED_SQLSTATE_SYM";
  SYM "RETURN" "RETURN_MARIADB_SYM";
  SYM "RETURNING" "RETURNING_SYM";
  SYM "RETURNS" "RETURNS_SYM";
  SYM "REUSE" "REUSE_SYM";
  SYM "REVERSE" "REVERSE_SYM";
  SYM "REVOKE" "REVOKE";
  SYM "RIGHT" "RIGHT";
  SYM "RLIKE" "REGEXP";
  SYM "ROLE" "ROLE_SYM";
  SYM "ROLLBACK" "ROLLBACK_SYM";
  SYM "ROLLUP" "ROLLUP_SYM";
  SYM "ROUTINE" "ROUTINE_SYM";
  SYM "ROW" "ROW_SYM";
  SYM "ROWCOUNT" "ROWCOUNT_SYM";
  SYM "ROWS" "ROWS_SYM";
  SYM "ROWTYPE" "ROWTYPE_MARIADB_SYM";
  SYM "ROW_COUNT" "ROW_COUNT_SYM";
  SYM "ROW_FORMAT" "ROW_FORMAT_SYM";
  SYM "RTREE" "RTREE_SYM";
  SYM "SAVEPOINT" "SAVEPOINT_SYM";
  SYM "SCHEDULE" "SCHEDULE_SYM";
  SYM "SCHEMA" "DATABASE";
  SYM "SCHEMA_NAME" "SCHEMA_NAME_SYM";
  SYM "SCHEMAS" "DATABASES";
  SYM "SECOND" "SECOND_SYM";
  SYM "SECOND_MICROSECOND" "SECOND_MICROSECOND_SYM";
  SYM "SECURITY" "SECURITY_SYM";
  SYM "SELECT" "SELECT_SYM";
  SYM "SENSITIVE" "SENSITIVE_SYM";
  SYM "SEPARATOR" "SEPARATOR_SYM";
  SYM "SEQUENCE" "SEQUENCE_SYM";
  SYM "SERIAL" "SERIAL_SYM";
  SYM "SERIALIZABLE" "SERIALIZABLE_SYM";
  SYM "SESSION" "SESSION_SYM";
  SYM "SERVER" "SERVER_SYM";
  SYM "SET" "SET";
  SYM "SETVAL" "SETVAL_SYM";
  SYM "SHARE" "SHARE_SYM";
  SYM "SHOW" "SHOW";
  SYM "SHUTDOWN" "SHUTDOWN";
  SYM "SIGNAL" "SIGNAL_SYM";
  SYM "SIGNED" "SIGNED_SYM";
  SYM "SIMPLE" "SIMPLE_SYM";
  SYM "SLAVE" "SLAVE";
  SYM "SLAVES" "SLAVES";
  SYM "SLAVE_POS" "SLAVE_POS_SYM";
  SYM "SLOW" "SLOW";
  SYM "SNAPSHOT" "SNAPSHOT_SYM";
  SYM "SMALLINT" "SMALLINT";
  SYM "SOCKET" "SOCKET_SYM";
  SYM "SOFT" "SOFT_SYM";
  SYM "SOME" "ANY_SYM";
  SYM "SONAME" "SONAME_SYM";
  SYM "SOUNDS" "SOUNDS_SYM";
  SYM "SOURCE" "SOURCE_SYM";
  SYM "STORED" "STORED_SYM";
  SYM "SPATIAL" "SPATIAL_SYM";
  SYM "SPECIFIC" "SPECIFIC_SYM";
  SYM "REF_SYSTEM_ID" "REF_SYSTEM_ID_SYM";
  SYM "SQL" "SQL_SYM";
  SYM "SQLEXCEPTION" "SQLEXCEPTION_SYM";
  SYM "SQLSTATE" "SQLSTATE_SYM";
  SYM "SQLWARNING" "SQLWARNING_SYM";
  SYM "SQL_BIG_RESULT" "SQL_BIG_RESULT"].

Definition symbols_5 : list SYMBOL := [
  SYM "SQL_BUFFER_RESULT" "SQL_BUFFER_RESULT";
  SYM "SQL_CACHE" "SQL_CACHE_SYM";
  SYM "SQL_CALC_FOUND_ROWS" "SQL_CALC_FOUND_ROWS";
  SYM "SQL_NO_CACHE" "SQL_NO_CACHE_SYM";
  SYM "SQL_SMALL_RESULT" "SQL_SMALL_RESULT";
  SYM "SQL_THREAD" "SQL_THREAD";
  SYM "SQL_TSI_SECOND" "SECOND_SYM";
  SYM "SQL_TSI_MINUTE" "MINUTE_SYM";
  SYM "SQL_TSI_HOUR" "HOUR_SYM";
  SYM "SQL_TSI_DAY" "DAY_SYM";
  SYM "SQL_TSI_WEEK" "WEEK_SYM";
  SYM "SQL_TSI_MONTH" "MONTH_SYM";
  SYM "SQL_TSI_QUARTER" "QUARTER_SYM";
  SYM "SQL_TSI_YEAR" "YEAR_SYM";
  SYM "SSL" "SSL_SYM";
  SYM "START" "START_SYM";
  SYM "STARTING" "STARTING";
  SYM "STARTS" "STARTS_SYM";
  SYM "STATEMENT" "STATEMENT_SYM";
  SYM "STATS_AUTO_RECALC" "STATS_AUTO_RECALC_SYM";
  SYM "STATS_PERSISTENT" "STATS_PERSISTENT_SYM";
  SYM "STATS_SAMPLE_PAGES" "STATS_SAMPLE_PAGES_SYM";
  SYM "STATUS" "STATUS_SYM";
  SYM "STOP" "STOP_SYM";
  SYM "STORAGE" "STORAGE_SYM";
  SYM "STRAIGHT_JOIN" "STRAIGHT_JOIN";
  SYM "STRING" "STRING_SYM";
  SYM "SUBCLASS_ORIGIN" "SUBCLASS_ORIGIN_SYM";
  SYM "SUBJECT" "SUBJECT_SYM";
  SYM "SUBPARTITION" "SUBPARTITION_SYM";
  SYM "SUBPARTITIONS" "SUBPARTITIONS_SYM";
  SYM "SUPER" "SUPER_SYM";
  SYM "SUSPEND" "SUSPEND_SYM";
  SYM "SWAPS" "SWAPS_SYM";
  SYM "SWITCHES" "SWITCHES_SYM";
  SYM "SYSTEM" "SYSTEM";
  SYM "SYSTEM_TIME" "SYSTEM_TIME_SYM";
  SYM "TABLE" "TABLE_SYM";
  SYM "TABLE_NAME" "TABLE_NAME_SYM";
  SYM "TABLES" "TABLES";
  SYM "TABLESPACE" "TABLESPACE";
  SYM "TABLE_CHECKSUM" "TABLE_CHECKSUM_SYM";
  SYM "TEMPORARY" "TEMPORARY";
  SYM "TEMPTABLE" "TEMPTABLE_SYM";
  SYM "TERMINATED" "TERMINATED";
  SYM "TEXT" "TEXT_SYM";
  SYM "THAN" "THAN_SYM";
  SYM "THEN" "THEN_SYM";
  SYM "TIES" "TIES_SYM";
  SYM "TIME" "TIME_SYM";
  SYM "TIMESTAMP" "TIMESTAMP";
  SYM "TIMESTAMPADD" "TIMESTAMP_ADD";
  SYM "TIMESTAMPDIFF" "TIMESTAMP_DIFF";
  SYM "TINYBLOB" "TINYBLOB";
  SYM "TINYINT" "TINYINT";
  SYM "TINYTEXT" "TINYTEXT";
  SYM "TO" "TO_SYM";
  SYM "TRAILING" "TRAILING";
  SYM "TRANSACTION" "TRANSACTION_SYM";
  SYM "TRANSACTIONAL" "TRANSACTIONAL_SYM";
  SYM "TRIGGER" "TRIGGER_SYM";
  SYM "TRIGGERS" "TRIGGERS_SYM";
  SYM "TRUE" "TRUE_SYM";
  SYM "TRUNCATE" "TRUNCATE_SYM";
  SYM "TYPE" "TYPE_SYM";
  SYM "TYPES" "TYPES_SYM";
  SYM "UNBOUNDED" "UNBOUNDED_SYM";
  SYM "UNCOMMITTED" "UNCOMMITTED_SYM";
  SYM "UNDEFINED" "UNDEFINED_SYM";
  SYM "UNDO_BUFFER_SIZE" "UNDO_BUFFER_SIZE_SYM";
  SYM "UNDOFILE" "UNDOFILE_SYM";
  SYM "UNDO" "UNDO_SYM";
  SYM "UNICODE" "UNICODE_SYM";
  SYM "UNION" "UNION_SYM";
  SYM "UNIQUE" "UNIQUE_SYM";
  SYM "UNKNOWN" "UNKNOWN_SYM";
  SYM "UNLOCK" "UNLOCK_SYM";
  SYM "UNINSTALL" "UNINSTALL_SYM";
  SYM "UNSIGNED" "UNSIGNED";
  SYM "UNTIL" "UNTIL_SYM";
  SYM "UPDATE" "UPDATE_SYM";
  SYM "UPGRADE" "UPGRADE_SYM";
  SYM "USAGE" "USAGE";
  SYM "USE" "USE_SYM";
  SYM "USER" "USER_SYM";
  SYM "USER_RESOURCES" "RESOURCES";
  SYM "USE_FRM" "USE_FRM";
  SYM "USING" "USING";
  SYM "UTC_DATE" "UTC_DATE_SYM";
  SYM "UTC_TIME" "UTC_TIME_SYM";
  SYM "UTC_TIMESTAMP" "UTC_TIMESTAMP_SYM";
  SYM "VALUE" "VALUE_SYM";
  SYM "VALUES" "VALUES";
  SYM "VARBINARY" "VARBINARY";
  SYM "VARCHAR" "VARCHAR";
  SYM "VARCHARACTER" "VARCHAR";
  SYM "VARCHAR2" "VARCHAR2_MARIADB_SYM";
  SYM "VARIABLES" "VARIABLES";
  SYM "VARYING" "VARYING";
  SYM "VIA" "VIA_SYM";
  SYM "VIEW" "VIEW_SYM";
  SYM "VIRTUAL" "VIRTUAL_SYM";
  SYM "VERSIONING" "VERSIONING_SYM";
  SYM "WAIT" "WAIT_SYM";
  SYM "WARNINGS" "WARNINGS";
  SYM "WEEK" "WEEK_SYM";
  SYM "WEIGHT_STRING" "WEIGHT_STRING_SYM";
  SYM "WHEN" "WHEN_SYM";
  SYM "WHERE" "WHERE";
  SYM "WHILE" "WHILE_SYM";
  SYM "WINDOW" "WINDOW_SYM";
  SYM "WITH" "WITH";
  SYM "WITHIN" "WITHIN";
  SYM "WITHOUT" "WITHOUT";
  SYM "WORK" "WORK_SYM";
  SYM "WRAPPER" "WRAPPER_SYM";
  SYM "WRITE" "WRITE_SYM";
  SYM "X509" "X509_SYM";
  SYM "XOR" "XOR";
  SYM "XA" "XA_SYM";
  SYM "XML" "XML_SYM";
  SYM "YEAR" "YEAR_SYM";
  SYM "YEAR_MONTH" "YEAR_MONTH_SYM";
  SYM "ZEROFILL" "ZEROFILL";
  SYM "||" "OR2_SYM"].

Definition sql_functions : list SYMBOL := [
  SYM "ADDDATE" "ADDDATE_SYM";
  SYM "BIT_AND" "BIT_AND";
  SYM "BIT_OR" "BIT_OR";
  SYM "BIT_XOR" "BIT_XOR";
  SYM "CAST" "CAST_SYM";
  SYM "COUNT" "COUNT_SYM";
  SYM "CUME_DIST" "CUME_DIST_SYM";
  SYM "CURDATE" "CURDATE";
  SYM "CURTIME" "CURTIME";
  SYM "DATE_ADD" "DATE_ADD_INTERVAL";
  SYM "DATE_SUB" "DATE_SUB_INTERVAL";
  SYM "DATE_FORMAT" "DATE_FORMAT_SYM";
  SYM "DECODE" "DECODE_MARIADB_SYM";
  SYM "DENSE_RANK" "DENSE_RANK_SYM";
  SYM "EXTRACT" "EXTRACT_SYM";
  SYM "FIRST_VALUE" "FIRST_VALUE_SYM";
  SYM "GROUP_CONCAT" "GROUP_CONCAT_SYM";
  SYM "LAG" "LAG_SYM";
  SYM "LEAD" "LEAD_SYM";
  SYM "MAX" "MAX_SYM";
  SYM "MEDIAN" "MEDIAN_SYM";
  SYM "MID" "SUBSTRING";
  SYM "MIN" "MIN_SYM";
  SYM "NOW" "NOW_SYM";
  SYM "NTH_VALUE" "NTH_VALUE_SYM";
  SYM "NTILE" "NTILE_SYM";
  SYM "POSITION" "POSITION_SYM";
  SYM "PERCENT_RANK" "PERCENT_RANK_SYM";
  SYM "PERCENTILE_CONT" "PERCENTILE_CONT_SYM";
  SYM "PERCENTILE_DISC" "PERCENTILE_DISC_SYM";
  SYM "RANK" "RANK_SYM";
  SYM "ROW_NUMBER" "ROW_NUMBER_SYM";
  SYM "SESSION_USER" "USER_SYM";
  SYM "STD" "STD_SYM";
  SYM "STDDEV" "STD_SYM";
  SYM "STDDEV_POP" "STD_SYM";
  SYM "STDDEV_SAMP" "STDDEV_SAMP_SYM";
  SYM "SUBDATE" "SUBDATE_SYM";
  SYM "SUBSTR" "SUBSTRING";
  SYM "SUBSTRING" "SUBSTRING";
  SYM "SUM" "SUM_SYM";
  SYM "SYSDATE" "SYSDATE";
  SYM "SYSTEM_USER" "USER_SYM";
  SYM "TRIM" "TRIM";
  SYM "TRIM_ORACLE" "TRIM_ORACLE";
  SYM "VARIANCE" "VARIANCE_SYM";
  SYM "VAR_POP" "VARIANCE_SYM";
  SYM "VAR_SAMP" "VAR_SAMP_SYM"].

Definition symbols : list SYMBOL := (symbols_1 ++ symbols_2 ++ symbols_3 ++ symbols_4 ++ symbols_5)%list.

End Lex.

(** ** Properties of the tables *)

Section tables.
Import Lex.
Open Scope list_scope.

(** A numeric key of a name, base 256. *)
Fixpoint name_key (acc : Z) (s : string) : Z :=
  match s with
  | EmptyString => acc
  | String c s => name_key (acc * 256 + Z.of_N (Ascii.N_of_ascii c)) s
  end.

(** Strict sortedness of adjacent elements. *)
Fixpoint increasing (ks : list Z) : bool :=
  match ks with
  | x :: (y :: _) as ks' => (x <? y)%Z && increasing ks'
  | _ => true
  end.

Lemma increasing_NoDup ks : increasing ks = true → NoDup ks.
Proof.
  intros H. assert (StronglySorted Z.lt ks) as Hs.
  { apply Sorted_StronglySorted; [intros x y z; lia|]. induction ks as [|x ks IH]; [constructor|].
    destruct ks as [|y ks]; [repeat constructor|]. cbn in H. apply andb_prop in H as [Hxy H].
    constructor; [by apply IH|]. constructor. lia. }
  induction Hs as [|x ks Hs IH Hx]; [constructor|]. constructor.
  - intros Hin. rewrite Forall_forall in Hx. specialize (Hx x Hin). lia.
  - apply IH. destruct ks; [done|]. cbn in H. by apply andb_prop in H as [_ H].
Qed.

(** Names are distinct when the sorted list of their keys increases. *)
Lemma keys_NoDup (ns : list string) :
  increasing (merge_sort Z.le (name_key 0 <$> ns)) = true → NoDup ns.
Proof.
  intros H%increasing_NoDup. rewrite merge_sort_Permutation in H. by eapply NoDup_fmap_1.
Qed.

(** A byte that upper-casing the identifier leaves as it is. *)
Definition upper_byte (c : Ascii.ascii) : bool :=
  let n := Z.of_N (Ascii.N_of_ascii c) in (negb ((97 <=? n) && (n <=? 122)) && (n <? 128))%Z.

Fixpoint upper_name (s : string) : bool :=
  match s with EmptyString => true | String c s => upper_byte c && upper_name s end.

(** No two entries of [symbols[]] and [sql_functions[]] have the same name,
    so the keyword hash built from the two tables has one token for a name; and
    every name is a non-empty string of ASCII characters without lower case
    letters, which the case-insensitive search of the lexer relies on. *)
Theorem lex_tables_unambiguous :
  NoDup (name <$> symbols ++ sql_functions) ∧
  Forall (λ s, upper_name (name s) = true ∧ name s ≠ EmptyString ∧ tok s ≠ EmptyString)
    (symbols ++ sql_functions).
Proof.
  split.
  - apply keys_NoDup. vm_compute. reflexivity.
  - apply (bool_decide_unpack _). vm_compute. exact I.
Qed.

(** The order that the comment above the tables announces is not kept: [ALL]
    comes before [ALGORITHM]. *)
Lemma symbols_not_sorted :
  ∃ i s1 s2, symbols !! i = Some s1 ∧ symbols !! S i = Some s2 ∧
    String.ltb (name s2) (name s1) = true.
Proof. exists 15%nat, (SYM "ALL" "ALL")%string, (SYM "ALGORITHM" "ALGORITHM_SYM")%string. by vm_compute. Qed.
End tables.
