(* ===== verification/Arrays.v ===== *)
(** * Arrays: Mem_root_array (mem_root_array.h) and Bounds_checked_array (sql_array.h)

    The storage of a [Mem_root_array] is a list of slots; a slot holds an object
    or raw memory.  Reading an object that is not there, or a slot outside of
    the allocated block, has no result. *)

From S2P Require Import Prelude.
From Stdlib Require Import ZArith Lia.
From stdpp Require Import base numbers option list.
Open Scope Z_scope.
Open Scope cint_scope.

Module MemRootArray.

Section array.
(** [has_trivial_destructor] and [sizeof(Element_type)]. *)
Context {A : Type} (trivial : bool) (element_size : Z).

Record Mem_root_array := MRA { m_array : list (option A); m_size : Z; m_capacity : Z }.

Definition new_array : Mem_root_array := MRA [] 0 0.

Definition size (a : Mem_root_array) : Z := m_size a.
Definition capacity (a : Mem_root_array) : Z := m_capacity a.
Definition is_empty (a : Mem_root_array) : bool := bool_decide (size a = 0).

(** [m_array[n]] *)
Definition slot (a : Mem_root_array) (n : Z) : option (option A) := m_array a !! Z.to_nat n.
Definition at_ (a : Mem_root_array) (n : Z) : option A := mjoin (slot a n).
Definition back (a : Mem_root_array) : option A := at_ a (u64 (size a - 1)).

(** [new (&m_array[n]) Element_type(x)] and [m_array[n].~Element_type()]. *)
Definition construct (m : list (option A)) (n : nat) (x : A) : option (list (option A)) :=
  _ ← m !! n; Some (<[n := Some x]> m).
Definition destroy (m : list (option A)) (n : nat) : option (list (option A)) :=
  _ ← mjoin (m !! n); Some (<[n := None]> m).

(** The loop of [chop]: [k] elements from [ix]. *)
Fixpoint chop_loop (k ix : nat) (m : list (option A)) : option (list (option A)) :=
  match k with
  | O => Some m
  | S k => m ← destroy m ix; chop_loop k (S ix) m
  end.

Definition chop (a : Mem_root_array) (pos : Z) : option Mem_root_array :=
  m ← (if trivial then Some (m_array a)
       else chop_loop (Z.to_nat (m_size a - pos)) (Z.to_nat pos) (m_array a));
  Some (MRA m pos (m_capacity a)).

Definition clear (a : Mem_root_array) : option Mem_root_array :=
  if is_empty a then Some a else chop a 0.

(** The copy loop of [reserve]. *)
Fixpoint copy_loop (k ix : nat) (old new : list (option A)) : option (list (option A)) :=
  match k with
  | O => Some new
  | S k =>
      x ← mjoin (old !! ix);
      new ← construct new ix x;
      copy_loop k (S ix) old new
  end.

(** [alloc_root]: whether it has a block of so many bytes; the block has room for
    the quotient of its size and the size of an element. *)
Definition reserve (alloc_root : Z → bool) (a : Mem_root_array) (n : Z) : option (Mem_root_array * bool) :=
  if decide (n ≤ m_capacity a) then Some (a, false) else
  let bytes := u64 (n * element_size) in
  if alloc_root bytes then
    let array := replicate (Z.to_nat (bytes / element_size)) None in
    array ← copy_loop (Z.to_nat (m_size a)) 0 (m_array a) array;
    Some (MRA array (m_size a) n, false)
  else Some (a, true).

Definition min_capacity : Z := 20.
Definition expansion_factor : Z := 2.

Definition push_back (alloc_root : Z → bool) (a : Mem_root_array) (element : A)
    : option (Mem_root_array * bool) :=
  '(a, oom) ← (if decide (0 = m_capacity a) then reserve alloc_root a min_capacity else Some (a, false));
  if oom : bool then Some (a, true) else
  '(a, oom) ← (if decide (m_size a = m_capacity a)
               then reserve alloc_root a (u64 (m_capacity a * expansion_factor)) else Some (a, false));
  if oom : bool then Some (a, true) else
  m ← construct (m_array a) (Z.to_nat (m_size a)) element;
  Some (MRA m (u64 (m_size a + 1)) (m_capacity a), false).

Definition pop_back (a : Mem_root_array) : option Mem_root_array :=
  m ← (if trivial then Some (m_array a) else destroy (m_array a) (Z.to_nat (u64 (size a - 1))));
  Some (MRA m (u64 (m_size a - 1)) (m_capacity a)).

(** [while (n != m_size) push_back(val)] and [while (n != m_size) pop_back()]. *)
Fixpoint grow_loop (fuel : nat) (alloc_root : Z → bool) (a : Mem_root_array) (n : Z) (val : A)
    : option Mem_root_array :=
  match fuel with
  | O => None
  | S fuel =>
      if decide (n ≠ m_size a) then
        '(a, _) ← push_back alloc_root a val; grow_loop fuel alloc_root a n val
      else Some a
  end.

Fixpoint shrink_loop (fuel : nat) (a : Mem_root_array) (n : Z) : option Mem_root_array :=
  match fuel with
  | O => None
  | S fuel => if decide (n ≠ m_size a) then a ← pop_back a; shrink_loop fuel a n else Some a
  end.

Definition resize (fuel : nat) (alloc_root : Z → bool) (a : Mem_root_array) (n : Z) (val : A)
    : option Mem_root_array :=
  if decide (n = m_size a) then Some a else
  if decide (m_size a < n) then
    '(a, oom) ← reserve alloc_root a n;
    if oom : bool then Some a else grow_loop fuel alloc_root a n val
  else
    a ← (if trivial then Some a else shrink_loop fuel a n);
    Some (MRA (m_array a) n (m_capacity a)).

End array.
Arguments Mem_root_array : clear implicits.
End MemRootArray.

Module BoundsArray.

Section array.
Context {A : Type}.

(** A pointer into an array object: [None] is null, [Some (block, i)] points at
    the element [i] of the block. *)
Record Bounds_checked_array := BCA { m_array : option (nat * nat); m_size : Z }.

(** The array objects in memory. *)
Abbreviation blocks := (list (list A)).

Definition new_bounds : Bounds_checked_array := BCA None 0.
Definition reset : Bounds_checked_array := BCA None 0.
Definition reset_to (array_arg : option (nat * nat)) (size_arg : Z) : Bounds_checked_array :=
  BCA array_arg size_arg.
Definition resize (b : Bounds_checked_array) (new_size : Z) : Bounds_checked_array :=
  BCA (m_array b) new_size.

(** [operator[]]: the assertion stops the program in a debug build only. *)
Definition index (debug : bool) (mem : blocks) (b : Bounds_checked_array) (n : Z) : option A :=
  if debug && negb (bool_decide (n < m_size b)) then None else
  '(blk, i) ← m_array b; arr ← mem !! blk; arr !! (i + Z.to_nat n)%nat.

Definition size (b : Bounds_checked_array) : Z := m_size b.
Definition is_null (b : Bounds_checked_array) : bool := bool_decide (m_array b = None).

Definition pop_front (b : Bounds_checked_array) : option Bounds_checked_array :=
  '(blk, i) ← m_array b; Some (BCA (Some (blk, S i)) (u64 (m_size b - 1))).

Definition operator_eq (a b : Bounds_checked_array) : bool :=
  bool_decide (m_array a = m_array b) && bool_decide (m_size a = m_size b).
Definition operator_ne (a b : Bounds_checked_array) : bool :=
  negb (bool_decide (m_array a = m_array b)) || negb (bool_decide (m_size a = m_size b)).

End array.
End BoundsArray.

(** ** Mem_root_array as a vector *)

Section vector.
Import MemRootArray.
Context {A : Type} (trivial : bool) (esize : Z) (Hesize : 0 < esize).
Implicit Types (a : Mem_root_array A) (xs : list A) (m : list (option A)).

(** The first [length xs] slots hold the objects [xs], and the block has as many
    slots as the capacity says. *)
Definition vec a xs : Prop :=
  take (length xs) (m_array a) = Some <$> xs ∧ m_size a = Z.of_nat (length xs) ∧
  m_capacity a = Z.of_nat (length (m_array a)) ∧ (length xs ≤ length (m_array a))%nat ∧
  m_capacity a * esize < 2 ^ 64.

Lemma filled_lookup m xs i x :
  take (length xs) m = Some <$> xs → xs !! i = Some x → m !! i = Some (Some x).
Proof using Type.
  intros Hm Hx. pose proof (lookup_lt_Some _ _ _ Hx). rewrite <- (lookup_take_lt m (length xs) i) by done.
  by rewrite Hm, list_lookup_fmap, Hx.
Qed.

Lemma construct_next m xs x :
  take (length xs) m = Some <$> xs → (length xs < length m)%nat →
  ∃ m', construct m (length xs) x = Some m' ∧ take (length (xs ++ [x])) m' = Some <$> (xs ++ [x]) ∧
        length m' = length m.
Proof using Type.
  intros Hm Hlt. unfold construct. destruct (lookup_lt_is_Some_2 m (length xs) Hlt) as [o ->]. cbn.
  eexists. split; [done|]. split; [|by rewrite length_insert]. rewrite length_app, Nat.add_comm. cbn.
  rewrite (take_S_r _ _ (Some x)) by (by apply list_lookup_insert_eq). rewrite take_insert_ge by done.
  by rewrite Hm, fmap_app.
Qed.

Lemma destroy_last m xs x :
  take (length (xs ++ [x])) m = Some <$> (xs ++ [x]) →
  ∃ m', destroy m (length xs) = Some m' ∧ take (length xs) m' = Some <$> xs ∧ length m' = length m.
Proof using Type.
  intros Hm. unfold destroy. rewrite (filled_lookup m (xs ++ [x]) (length xs) x) by
    (done || by rewrite lookup_app_r, Nat.sub_diag by done). cbn. eexists. split; [done|].
  split; [|by rewrite length_insert]. rewrite take_insert_ge by done.
  apply (f_equal (take (length xs))) in Hm. rewrite take_take in Hm.
  rewrite length_app, Nat.min_l in Hm by lia. rewrite Hm, fmap_app, take_app_length'; [done|].
  by rewrite length_fmap.
Qed.

Lemma copy_loop_filled old ys : ∀ xs new,
  take (length (xs ++ ys)) old = Some <$> (xs ++ ys) → take (length xs) new = Some <$> xs →
  (length (xs ++ ys) ≤ length new)%nat →
  ∃ new', copy_loop (length ys) (length xs) old new = Some new' ∧
    take (length (xs ++ ys)) new' = Some <$> (xs ++ ys) ∧ length new' = length new.
Proof using Type.
  induction ys as [|y ys IH]; intros xs new Hold Hnew Hlen.
  { rewrite app_nil_r. by exists new. }
  cbn [copy_loop length]. rewrite (filled_lookup old (xs ++ y :: ys) (length xs) y) by
    (done || by rewrite lookup_app_r, Nat.sub_diag by done). cbn [mjoin option_join mbind option_bind].
  destruct (construct_next new xs y Hnew) as (n1 & -> & Hn1 & Hl1).
  { rewrite length_app in Hlen. cbn in Hlen. lia. }
  cbn [mbind option_bind]. replace (S (length xs)) with (length (xs ++ [y])) by (rewrite length_app; cbn; lia).
  replace (xs ++ y :: ys) with ((xs ++ [y]) ++ ys) in * by by rewrite <- app_assoc.
  destruct (IH (xs ++ [y]) n1) as (n2 & Hrun & Hn2 & Hl2); [done|done|lia|].
  exists n2. rewrite Hrun, Hl2. done.
Qed.

(** [reserve] keeps the contents, and fails only by running out of memory. *)
Lemma reserve_vec alloc a xs n :
  vec a xs → n * esize < 2 ^ 64 → 0 ≤ n →
  ∃ a' oom, reserve esize alloc a n = Some (a', oom) ∧ vec a' xs ∧
    (oom = true → a' = a ∧ alloc (n * esize) = false) ∧ (oom = false → n ≤ m_capacity a') ∧
    (oom = false → m_capacity a < n → m_capacity a' = n) ∧
    (n ≤ m_capacity a → a' = a ∧ oom = false).
Proof using Hesize.
  intros (Hm & Hs & Hc & Hle & Hb) Hn Hn0. unfold reserve. case_decide as Hcap.
  { exists a, false. split_and!; try done. lia. }
  rewrite wrapu_small by (unfold in_u; nia). destruct (alloc (n * esize)) eqn:Ha.
  2: { exists a, true. split_and!; done || lia. }
  rewrite Z.div_mul by lia.
  destruct (copy_loop_filled (m_array a) xs [] (replicate (Z.to_nat n) None)) as (new & Hrun & Hnew & Hlen).
  - done.
  - done.
  - rewrite length_replicate. cbn. lia.
  - rewrite Hs, Nat2Z.id. cbn [length app] in Hrun. rewrite Hrun. cbn. rewrite length_replicate in Hlen.
    eexists _, false. split; [done|]. split; [|split_and!; done || (cbn; lia)].
    split_and!; cbn; [done|done|lia|lia|lia].
Qed.

Lemma construct_vec a xs x :
  vec a xs → m_size a < m_capacity a →
  ∃ m, construct (m_array a) (Z.to_nat (m_size a)) x = Some m ∧
       vec (MRA m (u64 (m_size a + 1)) (m_capacity a)) (xs ++ [x]).
Proof using Hesize.
  intros (Hm & Hs & Hc & Hle & Hb) Hlt.
  destruct (construct_next (m_array a) xs x Hm) as (m & Hr & Hm' & Hl); [lia|].
  exists m. rewrite Hs, Nat2Z.id. split; [done|]. split_and!; cbn [m_array m_size m_capacity]; [done| | | |done].
  - rewrite length_app. cbn. rewrite wrapu_small by (unfold in_u; nia). lia.
  - lia.
  - rewrite length_app. cbn. lia.
Qed.

(** [push_back] appends, or reports that the memory ran out and keeps the array. *)
Lemma push_back_vec alloc a xs x :
  vec a xs → 20 * esize < 2 ^ 64 → m_capacity a * 2 * esize < 2 ^ 64 →
  ∃ a' oom, push_back esize alloc a x = Some (a', oom) ∧
    vec a' (if oom then xs else xs ++ [x]) ∧
    (m_size a < m_capacity a → oom = false ∧ m_capacity a' = m_capacity a).
Proof using Hesize.
  intros Hv H20 H2. pose proof Hv as (Hm & Hs & Hc & Hle & Hb). unfold push_back, min_capacity, expansion_factor.
  assert (∀ a1, vec a1 xs → m_size a1 < m_capacity a1 →
    ∃ a' oom, (m ← construct (m_array a1) (Z.to_nat (m_size a1)) x;
               Some (MRA m (u64 (m_size a1 + 1)) (m_capacity a1), false)) = Some (a', oom) ∧
      vec a' (if oom : bool then xs else xs ++ [x]) ∧ oom = false ∧ m_capacity a' = m_capacity a1) as Hput.
  { intros a1 Hv1 Hlt. destruct (construct_vec a1 xs x Hv1 Hlt) as (m & -> & Hv2). cbn. by eexists _, false. }
  destruct (decide (0 = m_capacity a)) as [E|E].
  - destruct (reserve_vec alloc a xs 20 Hv) as (a1 & oom & -> & Hv1 & _ & _ & Hc1 & _); [lia|lia|]. cbn.
    destruct oom; [exists a1, true; split_and!; done || lia|].
    pose proof Hv1 as (_ & Hs1 & _). rewrite (decide_False (P := m_size a1 = _)) by (rewrite Hc1 by lia; lia). cbn.
    destruct (Hput a1 Hv1) as (a' & o & -> & ? & ? & ?); [rewrite Hc1 by lia; lia|]. exists a', o. split_and!; done || lia.
  - cbn. destruct (decide (m_size a = m_capacity a)) as [F|F].
    + rewrite wrapu_small by (unfold in_u; nia).
      destruct (reserve_vec alloc a xs (m_capacity a * 2) Hv) as (a1 & oom & -> & Hv1 & _ & _ & Hc1 & _); [lia|lia|]. cbn.
      destruct oom; [exists a1, true; split_and!; done || lia|].
      pose proof Hv1 as (_ & Hs1 & _).
      destruct (Hput a1 Hv1) as (a' & o & -> & ? & ? & ?); [rewrite Hc1 by lia; lia|]. exists a', o. split_and!; done || lia.
    + cbn. destruct (Hput a Hv) as (a' & o & -> & ? & ? & ?); [lia|]. exists a', o. by split_and!.
Qed.

Lemma pop_back_vec a xs x :
  vec a (xs ++ [x]) → ∃ a', pop_back trivial a = Some a' ∧ vec a' xs ∧ m_capacity a' = m_capacity a.
Proof using Hesize.
  intros (Hm & Hs & Hc & Hle & Hb). rewrite length_app in Hs, Hle. cbn in Hs, Hle. unfold pop_back, size.
  assert (u64 (m_size a - 1) = Z.of_nat (length xs)) as Hsz by (rewrite wrapu_small by (unfold in_u; nia); lia).
  rewrite Hsz, Nat2Z.id. destruct trivial; cbn.
  - eexists. split; [done|]. split; [|done]. split_and!; cbn; [|done|done|lia|done].
    apply (f_equal (take (length xs))) in Hm. rewrite take_take in Hm.
    rewrite length_app, Nat.min_l in Hm by lia. rewrite Hm, fmap_app, take_app_length'; [done|].
    by rewrite length_fmap.
  - destruct (destroy_last (m_array a) xs x Hm) as (m & -> & Hm' & Hl). cbn.
    eexists. split; [done|]. split; [|done]. split_and!; cbn; [done|done|lia|lia|done].
Qed.

Lemma grow_loop_vec alloc val : ∀ k fuel a xs,
  vec a xs → 20 * esize < 2 ^ 64 → m_capacity a * 2 * esize < 2 ^ 64 →
  Z.of_nat (length xs + k) ≤ m_capacity a → (k < fuel)%nat →
  ∃ a', grow_loop esize fuel alloc a (Z.of_nat (length xs + k)) val = Some a' ∧
        vec a' (xs ++ replicate k val).
Proof using Hesize.
  induction k as [|k IH]; intros fuel a xs Hv H20 H2 Hcap Hf; (destruct fuel as [|fuel]; [lia|]);
    pose proof Hv as (_ & Hs & _); cbn [grow_loop].
  - rewrite decide_False by lia. exists a. by rewrite app_nil_r.
  - rewrite decide_True by lia.
    destruct (push_back_vec alloc a xs val Hv H20 H2) as (a1 & oom & -> & Hv1 & Hok).
    destruct Hok as [-> Hc1]; [lia|]. cbn [mbind option_bind].
    replace (length xs + S k)%nat with (length (xs ++ [val]) + k)%nat by (rewrite length_app; cbn; lia).
    destruct (IH fuel a1 (xs ++ [val]) Hv1 H20) as (a2 & Hrun & Hv2); [lia|rewrite length_app; cbn; lia|lia|].
    exists a2. rewrite Hrun. split; [done|]. by rewrite <- app_assoc in Hv2.
Qed.

Lemma shrink_loop_vec ys : ∀ fuel a xs,
  vec a (xs ++ ys) → (length ys < fuel)%nat →
  ∃ a', shrink_loop trivial fuel a (Z.of_nat (length xs)) = Some a' ∧ vec a' xs ∧ m_capacity a' = m_capacity a.
Proof using Hesize.
  induction ys as [|y ys IH] using rev_ind; intros fuel a xs Hv Hf; (destruct fuel as [|fuel]; [lia|]);
    pose proof Hv as (_ & Hs & _); rewrite ?length_app in *; cbn [shrink_loop length] in *.
  - rewrite decide_False by lia. rewrite app_nil_r in Hv. by exists a.
  - rewrite decide_True by lia. rewrite app_assoc in Hv.
    destruct (pop_back_vec a (xs ++ ys) y Hv) as (a1 & -> & Hv1 & Hc1). cbn [mbind option_bind].
    destruct (IH fuel a1 xs Hv1) as (a2 & -> & Hv2 & Hc2); [lia|]. exists a2. split_and!; [done..|lia].
Qed.

(** The array behaves as a vector of objects at every capacity: [push_back]
    appends the element or, when the memory ran out, reports it and keeps the
    contents; [resize] keeps the first [n] elements and adds copies of the value
    until there are [n] (or changes nothing, when the memory ran out); and every
    object it reads was constructed before. *)
Theorem mem_root_array_vector alloc a xs x n val fuel :
  vec a xs → 20 * esize < 2 ^ 64 → m_capacity a * 2 * esize < 2 ^ 64 →
  0 ≤ n → n * 2 * esize < 2 ^ 64 → (Z.to_nat n + length xs < fuel)%nat →
  (∃ a' oom, push_back esize alloc a x = Some (a', oom) ∧ vec a' (if oom then xs else xs ++ [x])) ∧
  (∃ a' ys, resize trivial esize fuel alloc a n val = Some a' ∧ vec a' ys ∧
     (ys = take (Z.to_nat n) xs ++ replicate (Z.to_nat n - length xs) val ∨
      ys = xs ∧ alloc (n * esize) = false)).
Proof using Hesize.
  intros Hv H20 H2 Hn Hb Hf. split.
  { destruct (push_back_vec alloc a xs x Hv H20 H2) as (a' & oom & Hr & Hv' & _). by exists a', oom. }
  pose proof Hv as (Hm & Hs & Hc & Hle & Hbb). unfold resize. case_decide as E1.
  { exists a, xs. split_and!; [done..|]. left.
    rewrite take_ge, (proj2 (Nat.sub_0_le _ _)), app_nil_r by lia. done. }
  case_decide as E2.
  - destruct (reserve_vec alloc a xs n Hv) as (a1 & oom & -> & Hv1 & Ho & Hcap & Hc1 & Hsame); [nia|lia|].
    cbn [mbind option_bind]. destruct oom.
    { exists a1, xs. destruct (Ho eq_refl) as [-> Halloc]. split_and!; [done..|]. by right. }
    destruct (grow_loop_vec alloc val (Z.to_nat n - length xs) fuel a1 xs Hv1 H20) as (a2 & Hrun & Hv2).
    + destruct (decide (n ≤ m_capacity a)) as [Hx|Hx].
      * by destruct (Hsame Hx) as [-> _].
      * rewrite Hc1 by (done || lia). lia.
    + specialize (Hcap eq_refl). lia.
    + lia.
    + replace (Z.of_nat (length xs + (Z.to_nat n - length xs))) with n in Hrun by lia.
      exists a2, (xs ++ replicate (Z.to_nat n - length xs) val). split_and!; [done..|]. left.
      by rewrite take_ge by lia.
  - rewrite <- (take_drop (Z.to_nat n) xs) in Hv.
    assert (length (take (Z.to_nat n) xs) = Z.to_nat n) as Hlen by (rewrite length_take; lia).
    exists (MRA (A := A) (m_array (default a (if trivial then Some a else shrink_loop trivial fuel a n))) n (m_capacity a)).
    exists (take (Z.to_nat n) xs).
    rewrite (proj2 (Nat.sub_0_le (Z.to_nat n) (length xs))) by lia. cbn [replicate]. rewrite app_nil_r.
    destruct (shrink_loop_vec (drop (Z.to_nat n) xs) fuel a (take (Z.to_nat n) xs) Hv) as (a2 & Hrun & Hv2 & Hc2).
    { rewrite length_drop. lia. }
    rewrite Hlen, Z2Nat.id in Hrun by lia. destruct trivial.
    + cbn. split_and!; [done| |by left]. split_and!; cbn.
      * rewrite Hlen. apply (f_equal (take (Z.to_nat n))) in Hm. rewrite take_take, Nat.min_l in Hm by lia.
        by rewrite Hm, <- fmap_take.
      * lia.
      * done.
      * rewrite Hlen. lia.
      * done.
    + rewrite Hrun. cbn. rewrite Hc2. split_and!; [done| |by left].
      destruct Hv2 as (Hm2 & Hs2 & Hc3 & Hle2 & Hb2). split_and!; cbn; [done|lia|lia|done|lia].
Qed.
End vector.

Section vector_witness.
Import MemRootArray.

Lemma mem_root_array_vector_witness :
  (∃ a' oom, push_back 8 (λ _, true) (@new_array Z) 7 = Some (a', oom) ∧ vec 8 a' (if oom then [] else [7])) ∧
  (∃ a' ys, resize false 8 9 (λ _, true) (@new_array Z) 3 5 = Some a' ∧ vec 8 a' ys ∧
     (ys = [5; 5; 5] ∨ ys = [] ∧ true = false)).
Proof.
  apply (mem_root_array_vector false 8 ltac:(lia) (λ _, true) (@new_array Z) [] 7 3 5 9); try (cbn; lia).
  split_and!; cbn; done || lia.
Defined.
End vector_witness.
