(* ===== verification/LifoBuffer.v ===== *)
(** * LIFO buffers in user memory (sql_lifo_buffer.h)

    A buffer of fixed-size elements (one byte sequence, or a pair of them) that
    lives in a part of a memory block.  [Forward] and [Backward] are the two
    concrete classes; the class [LifoImpl] is the interface [Lifo_buffer] has
    for its clients, with the contract of a stack. *)

From S2P Require Import Prelude.
From Stdlib Require Import ZArith Lia.
From stdpp Require Import base numbers option list.
Open Scope Z_scope.
Open Scope cint_scope.

Module Lifo.

(** The data members; [start], [end_] and [pos] are offsets into the memory. *)
Record buffer := Buffer { size1 : Z; size2 : Z; start : Z; end_ : Z; pos : Z }.

Inductive enum_direction := BACKWARD | FORWARD.

Definition with_pos (b : buffer) (p : Z) : buffer := Buffer (size1 b) (size2 b) (start b) (end_ b) p.

(** [memcpy(&mem[p], data, n)] with [n] bytes of [data]. *)
Definition memcpy (mem : list Z) (p : Z) (data : list Z) (n : Z) : option (list Z) :=
  if decide (0 ≤ p ∧ 0 ≤ n ∧ p + n ≤ Z.of_nat (length mem) ∧ n ≤ Z.of_nat (length data)) then
    Some (take (Z.to_nat p) mem ++ take (Z.to_nat n) data ++ drop (Z.to_nat (p + n)) mem)
  else None.

Definition setup_writing (b : buffer) (len1 len2 : Z) : buffer :=
  Buffer len1 len2 (start b) (end_ b) (pos b).

End Lifo.

Module Forward.
Import Lifo.

Definition type : enum_direction := FORWARD.
Definition used_size (b : buffer) : Z := u64 (pos b - start b).
Definition reset (b : buffer) : buffer := with_pos b (start b).
Definition set_buffer_space (b : buffer) (start_arg end_arg : Z) : buffer :=
  reset (Buffer (size1 b) (size2 b) start_arg end_arg (pos b)).
Definition end_of_space (b : buffer) : Z := pos b.
Definition have_space_for (b : buffer) (bytes : Z) : bool := bool_decide (pos b + bytes < end_ b).
Definition can_write (b : buffer) : bool := have_space_for b (u64 (size1 b + size2 b)).
Definition is_empty (b : buffer) : bool := bool_decide (used_size b = 0).

(** With the assertion that there is space. *)
Definition write_bytes (b : buffer) (mem data : list Z) (bytes : Z) : option (buffer * list Z) :=
  if have_space_for b bytes then mem ← memcpy mem (pos b) data bytes; Some (with_pos b (pos b + bytes), mem) else None.

(** The arguments are what [write_ptr1] and [write_ptr2] point to. *)
Definition write (b : buffer) (mem write_ptr1 : list Z) (write_ptr2 : option (list Z))
    : option (buffer * list Z) :=
  '(b, mem) ← write_bytes b mem write_ptr1 (size1 b);
  if decide (size2 b ≠ 0) then d2 ← write_ptr2; write_bytes b mem d2 (size2 b) else Some (b, mem).

Definition have_data (b : buffer) (position bytes : Z) : bool :=
  bool_decide (s64 bytes ≤ position - start b).

(** The new position and the pointer returned; the data is asserted to be there. *)
Definition read_bytes (b : buffer) (position bytes : Z) : option (Z * Z) :=
  if have_data b position bytes then Some (position - bytes, position - bytes) else None.

(** [read(&position, &ptr1, &ptr2)]: [Some None] at the end of the data, otherwise
    the position and the two pointers ([None] where one is not set). *)
Definition read_at (b : buffer) (position : Z) : option (option (Z * Z * option Z)) :=
  if have_data b position (u64 (size1 b + size2 b)) then
    '(position, ptr2) ←
      (if decide (size2 b ≠ 0) then '(p, r) ← read_bytes b position (size2 b); Some (p, Some r)
       else Some (position, None));
    '(position, ptr1) ← read_bytes b position (size1 b);
    Some (Some (position, ptr1, ptr2))
  else Some None.

Definition read (b : buffer) : option (option (buffer * Z * option Z)) :=
  r ← read_at b (pos b);
  match r with Some (p, r1, r2) => Some (Some (with_pos b p, r1, r2)) | None => Some None end.

Definition grow (b : buffer) (unused_start unused_end : Z) : option buffer :=
  if decide (unused_start ≤ unused_end ∧ end_ b = unused_start)
  then Some (Buffer (size1 b) (size2 b) (start b) unused_end (pos b)) else None.
Definition used_area (b : buffer) : Z := start b.
Definition get_pos (b : buffer) : Z := pos b.

End Forward.

Module Backward.
Import Lifo.

Definition type : enum_direction := BACKWARD.
Definition used_size (b : buffer) : Z := u64 (end_ b - pos b).
Definition reset (b : buffer) : buffer := with_pos b (end_ b).
Definition set_buffer_space (b : buffer) (start_arg end_arg : Z) : buffer :=
  reset (Buffer (size1 b) (size2 b) start_arg end_arg (pos b)).
Definition end_of_space (b : buffer) : Z := end_ b.
Definition have_space_for (b : buffer) (bytes : Z) : bool := bool_decide (start b ≤ pos b - bytes).
Definition can_write (b : buffer) : bool := have_space_for b (u64 (size1 b + size2 b)).
Definition is_empty (b : buffer) : bool := bool_decide (used_size b = 0).

(** With the assertion that there is space. *)
Definition write_bytes (b : buffer) (mem data : list Z) (bytes : Z) : option (buffer * list Z) :=
  if have_space_for b bytes then mem ← memcpy mem (pos b - bytes) data bytes; Some (with_pos b (pos b - bytes), mem) else None.

(** The test is of the pointer [write_ptr2], not of [size2]. *)
Definition write (b : buffer) (mem write_ptr1 : list Z) (write_ptr2 : option (list Z))
    : option (buffer * list Z) :=
  '(b, mem) ← match write_ptr2 with Some d2 => write_bytes b mem d2 (size2 b) | None => Some (b, mem) end;
  write_bytes b mem write_ptr1 (size1 b).

Definition have_data (b : buffer) (position bytes : Z) : bool :=
  bool_decide (s64 bytes ≤ end_ b - position).

Definition read_bytes (b : buffer) (position bytes : Z) : option (Z * Z) :=
  if have_data b position bytes then Some (position + bytes, position) else None.

Definition read_at (b : buffer) (position : Z) : option (option (Z * Z * option Z)) :=
  if have_data b position (u64 (size1 b + size2 b)) then
    '(position, ptr1) ← read_bytes b position (size1 b);
    '(position, ptr2) ←
      (if decide (size2 b ≠ 0) then '(p, r) ← read_bytes b position (size2 b); Some (p, Some r)
       else Some (position, None));
    Some (Some (position, ptr1, ptr2))
  else Some None.

Definition read (b : buffer) : option (option (buffer * Z * option Z)) :=
  r ← read_at b (pos b);
  match r with Some (p, r1, r2) => Some (Some (with_pos b p, r1, r2)) | None => Some None end.

(** The buffer and the bounds of the space given back. *)
Definition remove_unused_space (b : buffer) : buffer * Z * Z :=
  (Buffer (size1 b) (size2 b) (pos b) (end_ b) (pos b), start b, pos b).
Definition used_area (b : buffer) : Z := pos b.
Definition get_pos (b : buffer) : Z := pos b.

End Backward.

(** ** Memory *)

Section memory.
Import Lifo.

(** The [n] bytes at [p]. *)
Definition slice (mem : list Z) (p n : Z) : list Z := take (Z.to_nat n) (drop (Z.to_nat p) mem).

Lemma memcpy_spec mem p data n :
  0 ≤ p → n = Z.of_nat (length data) → p + n ≤ Z.of_nat (length mem) →
  ∃ mem', memcpy mem p data n = Some mem' ∧ length mem' = length mem ∧ slice mem' p n = data ∧
    (∀ q k, 0 ≤ q → 0 ≤ k → q + k ≤ p ∨ p + n ≤ q → slice mem' q k = slice mem q k).
Proof.
  intros Hp -> Hb. unfold memcpy. rewrite decide_True by lia. eexists. split; [done|].
  rewrite Nat2Z.id, (take_ge data) by lia.
  assert (length (take (Z.to_nat p) mem) = Z.to_nat p) as Hl by (rewrite length_take; lia).
  split; [rewrite !length_app, Hl, length_drop; lia|]. split.
  - unfold slice. rewrite drop_app_length' by lia. rewrite Nat2Z.id. by rewrite take_app_length.
  - intros q k Hq Hk [Hlt|Hge]; unfold slice.
    + rewrite drop_app_le, take_app_le by (rewrite ?length_drop, Hl; lia).
      rewrite <- (take_drop (Z.to_nat p) mem) at 2. rewrite drop_app_le, take_app_le; [done| |lia].
      rewrite length_drop, Hl. lia.
    + rewrite app_assoc, drop_app_ge by (rewrite length_app, Hl; lia).
      rewrite drop_drop. f_equal. f_equal. rewrite length_app, Hl. lia.
Qed.

Lemma slice_app mem p n k :
  0 ≤ p → 0 ≤ n → 0 ≤ k → slice mem p (n + k) = slice mem p n ++ slice mem (p + n) k.
Proof.
  intros Hp Hn Hk. unfold slice. rewrite !Z2Nat.inj_add by lia. rewrite <- drop_drop.
  rewrite <- (take_drop (Z.to_nat n) (take (Z.to_nat n + Z.to_nat k) (drop (Z.to_nat p) mem))).
  rewrite take_take, Nat.min_l by lia. f_equal. symmetry. apply take_drop_commute.
Qed.
End memory.

(** ** The contract of a buffer *)

Section contract.
Import Lifo.

(** An element: the bytes behind the two pointers. *)
Abbreviation item := (list Z * list Z)%type.

Definition item_ok (b : buffer) (d : item) : Prop :=
  size1 b = Z.of_nat (length d.1) ∧ size2 b = Z.of_nat (length d.2).

(** The second argument of [write]: there is none when the elements are single. *)
Definition ptr2_ok (b : buffer) (w2 : option (list Z)) (d2 : list Z) : Prop :=
  w2 = Some d2 ∨ (w2 = None ∧ size2 b = 0).

(** Bounds and sizes that the operations do not change. *)
Definition same_space (b b' : buffer) : Prop :=
  size1 b' = size1 b ∧ size2 b' = size2 b ∧ start b' = start b ∧ end_ b' = end_ b.

Definition space_ok (b : buffer) (mem : list Z) (es : list item) : Prop :=
  0 < size1 b ∧ 0 ≤ size2 b ∧ size1 b + size2 b < 2 ^ 63 ∧
  0 ≤ start b ∧ end_ b ≤ Z.of_nat (length mem) ∧ Forall (item_ok b) es.

Definition cat (d : item) : list Z := d.1 ++ d.2.

Definition item_size (b : buffer) : Z := size1 b + size2 b.

(** What a client of [Lifo_buffer] relies on: the buffer is a stack, its memory
    stays inside the space, and there is room while the space is not used up. *)
Class LifoImpl (can_write : buffer → bool)
    (write : buffer → list Z → list Z → option (list Z) → option (buffer * list Z))
    (read : buffer → option (option (buffer * Z * option Z))) := {
  holds : buffer → list Z → list item → Prop;
  holds_space b mem es : holds b mem es → space_ok b mem es;
  can_write_ok b mem es :
    holds b mem es → item_size b * (Z.of_nat (length es) + 1) < end_ b - start b → can_write b = true;
  write_ok b mem es d w2 :
    holds b mem es → can_write b = true → item_ok b d → ptr2_ok b w2 d.2 →
    ∃ b' mem', write b mem d.1 w2 = Some (b', mem') ∧ holds b' mem' (d :: es) ∧ same_space b b' ∧
      (∀ q k, 0 ≤ q → 0 ≤ k → q + k ≤ start b ∨ end_ b ≤ q → slice mem' q k = slice mem q k);
  read_ok b mem es d :
    holds b mem (d :: es) →
    ∃ b' p1 p2, read b = Some (Some (b', p1, p2)) ∧ holds b' mem es ∧ same_space b b' ∧
      slice mem p1 (size1 b) = d.1 ∧
      (if decide (size2 b = 0) then p2 = None else ∃ q, p2 = Some q ∧ slice mem q (size2 b) = d.2);
  read_empty b mem : holds b mem [] → read b = Some None;
}.

Lemma concat_length b es :
  Forall (item_ok b) es → Z.of_nat (length (concat (cat <$> es))) = item_size b * Z.of_nat (length es).
Proof.
  induction 1 as [|d es [H1 H2] _ IH]; cbn [fmap list_fmap concat length]; [lia|].
  rewrite length_app. unfold cat at 1. rewrite length_app. unfold item_size in *. nia.
Qed.

(** The bytes of an element, split at the end of its first part. *)
Lemma slice_item mem p b d :
  0 ≤ p → item_ok b d → slice mem p (item_size b) = cat d →
  slice mem p (size1 b) = d.1 ∧ slice mem (p + size1 b) (size2 b) = d.2.
Proof.
  intros Hp [H1 H2] Hs. unfold item_size in Hs. rewrite slice_app in Hs by lia. unfold cat in Hs.
  apply app_inj_1 in Hs as [-> ->]; [done|].
  apply (f_equal length) in Hs. rewrite !length_app in Hs.
  assert (∀ q n, (length (slice mem q n) ≤ Z.to_nat n)%nat) as Hle by (intros; unfold slice; rewrite length_take; lia).
  pose proof (Hle p (size1 b)). pose proof (Hle (p + size1 b) (size2 b)). lia.
Qed.

Lemma item_ok_same b b' d : same_space b b' → item_ok b d → item_ok b' d.
Proof. unfold same_space, item_ok. intros (-> & -> & _ & _). done. Qed.

Lemma items_ok_same b b' es : same_space b b' → Forall (item_ok b) es → Forall (item_ok b') es.
Proof. intros Hs H. eapply Forall_impl; [exact H|]. intros d. by apply item_ok_same. Qed.
End contract.

(** ** The forward buffer *)

Section forward.
Import Lifo.

Definition forward_holds (b : buffer) (mem : list Z) (es : list (list Z * list Z)) : Prop :=
  space_ok b mem es ∧ pos b = start b + item_size b * Z.of_nat (length es) ∧ pos b ≤ end_ b ∧
  slice mem (start b) (pos b - start b) = concat (cat <$> reverse es).

Lemma forward_write_ok b mem es d w2 :
  forward_holds b mem es → Forward.can_write b = true → item_ok b d → ptr2_ok b w2 d.2 →
  ∃ b' mem', Forward.write b mem d.1 w2 = Some (b', mem') ∧ forward_holds b' mem' (d :: es) ∧
    same_space b b' ∧
    (∀ q k, 0 ≤ q → 0 ≤ k → q + k ≤ start b ∨ end_ b ≤ q → slice mem' q k = slice mem q k).
Proof.
  intros ((Hs1 & Hs2 & Hs & Hst & Hend & Hes) & Hpos & Hpe & Hsl) Hcan Hd Hw2.
  pose proof Hd as [Hd1 Hd2]. unfold item_size in *.
  unfold Forward.can_write, Forward.have_space_for in Hcan. apply bool_decide_eq_true in Hcan.
  rewrite wrapu_small in Hcan by (unfold in_u; lia).
  unfold Forward.write, Forward.write_bytes, Forward.have_space_for. rewrite (bool_decide_eq_true_2 (_ + size1 b < _)) by lia.
  destruct (memcpy_spec mem (pos b) d.1 (size1 b)) as (m1 & -> & Hl1 & Hsl1 & Hf1); [nia|done|lia|].
  cbn [mbind option_bind pos with_pos size2 end_].
  assert (∃ m2, (if decide (size2 b ≠ 0) then
      d2 ← w2; if bool_decide (pos b + size1 b + size2 b < end_ b) then m ← memcpy m1 (pos b + size1 b) d2 (size2 b);
      Some (with_pos (with_pos b (pos b + size1 b)) (pos b + size1 b + size2 b), m) else None
    else Some (with_pos b (pos b + size1 b), m1)) = Some (with_pos b (pos b + (size1 b + size2 b)), m2) ∧
    length m2 = length m1 ∧ slice m2 (pos b + size1 b) (size2 b) = d.2 ∧
    (∀ q k, 0 ≤ q → 0 ≤ k → q + k ≤ pos b + size1 b ∨ pos b + size1 b + size2 b ≤ q →
       slice m2 q k = slice m1 q k)) as (m2 & Hrun & Hl2 & Hsl2 & Hf2).
  { case_decide as E.
    - destruct Hw2 as [->|[_ ?]]; [|done]. cbn [mbind option_bind]. rewrite bool_decide_eq_true_2 by lia.
      destruct (memcpy_spec m1 (pos b + size1 b) d.2 (size2 b)) as (m2 & -> & Hl2 & Hsl2 & Hf2); [nia|done|lia|].
      cbn [mbind option_bind]. exists m2. split_and!; [|done..]. unfold with_pos. cbn. do 3 f_equal. lia.
    - assert (size2 b = 0) as E0 by lia. exists m1. rewrite E0, Z.add_0_r. split_and!; [done..| |done].
      assert (length d.2 = 0%nat) as El by lia. apply nil_length_inv in El. rewrite El. done. }
  rewrite Hrun. eexists _, _. split; [done|]. split; [|split; [done|]].
  - split; [|split; [|split]]; cbn [pos with_pos start end_ size1 size2].
    + split_and!; cbn [pos with_pos start end_ size1 size2]; [done..|lia|]. constructor; done.
    + unfold item_size. cbn [length size1 size2 with_pos]. lia.
    + lia.
    + replace (pos b + (size1 b + size2 b) - start b) with ((pos b - start b) + (size1 b + size2 b)) by lia.
      rewrite slice_app by nia. rewrite reverse_cons, fmap_app, concat_app. f_equal.
      * rewrite Hf2, Hf1 by nia. done.
      * replace (start b + (pos b - start b)) with (pos b) by lia. cbn. rewrite app_nil_r. unfold cat.
        rewrite slice_app, Hsl2 by nia. f_equal. rewrite Hf2 by nia. done.
  - intros q k Hq Hk Hout. rewrite Hf2, Hf1 by nia. done.
Qed.

Lemma forward_read_ok b mem es d :
  forward_holds b mem (d :: es) →
  ∃ b' p1 p2, Forward.read b = Some (Some (b', p1, p2)) ∧ forward_holds b' mem es ∧ same_space b b' ∧
    slice mem p1 (size1 b) = d.1 ∧
    (if decide (size2 b = 0) then p2 = None else ∃ q, p2 = Some q ∧ slice mem q (size2 b) = d.2).
Proof.
  intros ((Hs1 & Hs2 & Hs & Hst & Hend & [Hd Hes]%Forall_cons) & Hpos & Hpe & Hsl).
  unfold item_size in *. cbn [length] in Hpos.
  rewrite reverse_cons, fmap_app, concat_app in Hsl. cbn [fmap list_fmap concat] in Hsl. rewrite app_nil_r in Hsl.
  replace (pos b - start b) with (item_size b * Z.of_nat (length es) + item_size b) in Hsl by (unfold item_size; nia).
  assert (0 ≤ item_size b) as Hi by (unfold item_size; lia).
  rewrite slice_app in Hsl by nia.
  assert (length (slice mem (start b) (item_size b * Z.of_nat (length es))) = length (concat (cat <$> reverse es))) as Hlen.
  { apply Nat2Z.inj. rewrite (concat_length b) by (by apply Forall_reverse). rewrite length_reverse.
    unfold slice. rewrite length_take, length_drop. unfold item_size in *. nia. }
  apply app_inj_1 in Hsl as [Hsl1 Hsl2]; [|done].
  destruct (slice_item mem (start b + item_size b * Z.of_nat (length es)) b d) as [Hp1 Hp2]; [nia|done|done|].
  unfold Forward.read, Forward.read_at, Forward.have_data.
  rewrite wrapu_small by (unfold in_u; lia). rewrite wraps_small by (unfold in_s; lia).
  rewrite bool_decide_eq_true_2 by nia.
  assert (∀ p n, 0 ≤ n < 2 ^ 63 → start b + n ≤ p → Forward.read_bytes b p n = Some (p - n, p - n)) as Hrb.
  { intros p n Hn Hp. unfold Forward.read_bytes, Forward.have_data. rewrite wraps_small by (unfold in_s; lia).
    by rewrite bool_decide_eq_true_2 by lia. }
  assert (pos b - size2 b - size1 b = start b + item_size b * Z.of_nat (length es)) as Ep by (unfold item_size; nia).
  assert (forward_holds (with_pos b (pos b - size2 b - size1 b)) mem es) as Hh.
  { rewrite Ep. split; [split_and!; done|]. split; [done|]. split; [cbn; unfold item_size in *; nia|]. cbn.
    replace (start b + item_size b * Z.of_nat (length es) - start b) with (item_size b * Z.of_nat (length es)) by lia.
    exact Hsl1. }
  destruct (decide (size2 b ≠ 0)) as [E|E].
  - rewrite Hrb by (unfold item_size in *; nia). cbn [mbind option_bind]. rewrite Hrb by (unfold item_size in *; nia). cbn [mbind option_bind].
    eexists _, _, _. split; [done|]. split; [done|]. split; [done|].
    rewrite Ep. split; [done|]. rewrite decide_False by done. eexists. split; [done|].
    replace (pos b - size2 b) with (start b + item_size b * Z.of_nat (length es) + size1 b) by lia. done.
  - assert (size2 b = 0) as E0 by lia. cbn [mbind option_bind]. rewrite E0, Z.sub_0_r in *.
    rewrite Hrb by (unfold item_size in *; nia). cbn [mbind option_bind]. eexists _, _, _. split; [done|]. split; [done|]. split; [done|]. rewrite Ep. split; [done|]. by rewrite decide_True.
Qed.

#[global] Instance forward_impl : LifoImpl Forward.can_write Forward.write Forward.read.
Proof.
  refine {| holds := forward_holds |}.
  - by intros b mem es [H _].
  - intros b mem es ((Hs1 & Hs2 & Hs & _) & Hpos & _) Hroom. unfold item_size in *.
    unfold Forward.can_write, Forward.have_space_for. apply bool_decide_eq_true_2.
    rewrite wrapu_small by (unfold in_u; lia). nia.
  - apply forward_write_ok.
  - apply forward_read_ok.
  - intros b mem ((Hs1 & Hs2 & Hs & _) & Hpos & _). unfold Forward.read, Forward.read_at, Forward.have_data.
    rewrite wrapu_small by (unfold in_u; lia). rewrite wraps_small by (unfold in_s; lia).
    rewrite bool_decide_eq_false_2 by (cbn in Hpos; lia). done.
Defined.
End forward.

(** ** The backward buffer *)

Section backward.
Import Lifo.

Definition backward_holds (b : buffer) (mem : list Z) (es : list (list Z * list Z)) : Prop :=
  space_ok b mem es ∧ pos b = end_ b - item_size b * Z.of_nat (length es) ∧ start b ≤ pos b ∧
  slice mem (pos b) (end_ b - pos b) = concat (cat <$> es).

Lemma backward_write_ok b mem es d w2 :
  backward_holds b mem es → Backward.can_write b = true → item_ok b d → ptr2_ok b w2 d.2 →
  ∃ b' mem', Backward.write b mem d.1 w2 = Some (b', mem') ∧ backward_holds b' mem' (d :: es) ∧
    same_space b b' ∧
    (∀ q k, 0 ≤ q → 0 ≤ k → q + k ≤ start b ∨ end_ b ≤ q → slice mem' q k = slice mem q k).
Proof.
  intros ((Hs1 & Hs2 & Hs & Hst & Hend & Hes) & Hpos & Hpe & Hsl) Hcan Hd Hw2.
  pose proof Hd as [Hd1 Hd2]. unfold item_size in *.
  unfold Backward.can_write, Backward.have_space_for in Hcan. apply bool_decide_eq_true in Hcan.
  rewrite wrapu_small in Hcan by (unfold in_u; lia).
  unfold Backward.write, Backward.write_bytes, Backward.have_space_for.
  assert (∃ m1, match w2 with
      | Some d2 => if bool_decide (start b ≤ pos b - size2 b) then
          m ← memcpy mem (pos b - size2 b) d2 (size2 b); Some (with_pos b (pos b - size2 b), m) else None
      | None => Some (b, mem)
      end = Some (with_pos b (pos b - size2 b), m1) ∧
    length m1 = length mem ∧ slice m1 (pos b - size2 b) (size2 b) = d.2 ∧
    (∀ q k, 0 ≤ q → 0 ≤ k → q + k ≤ pos b - size2 b ∨ pos b ≤ q → slice m1 q k = slice mem q k))
    as (m1 & Hrun & Hl1 & Hsl1 & Hf1).
  { destruct Hw2 as [->|[-> E0]].
    - rewrite bool_decide_eq_true_2 by lia. destruct (memcpy_spec mem (pos b - size2 b) d.2 (size2 b)) as (m1 & -> & Hl1 & Hsl1 & Hf1); [lia|done|nia|].
      exists m1. split_and!; [done..|]. intros q k Hq Hk Hout. apply Hf1; [done|done|lia].
    - exists mem. rewrite E0, Z.sub_0_r. split_and!; [by destruct b|done| |done].
      assert (length d.2 = 0%nat) as El by lia. apply nil_length_inv in El. by rewrite El. }
  rewrite Hrun. cbn [mbind option_bind pos with_pos size1 start]. rewrite bool_decide_eq_true_2 by lia.
  destruct (memcpy_spec m1 (pos b - size2 b - size1 b) d.1 (size1 b)) as (m2 & -> & Hl2 & Hsl2 & Hf2); [lia|done|nia|].
  cbn [mbind option_bind]. eexists _, _. split; [done|]. split; [|split; [done|]].
  - split; [|split; [|split]]; cbn [pos with_pos start end_ size1 size2].
    + split_and!; cbn [pos with_pos start end_ size1 size2]; [done..|lia|]. constructor; done.
    + unfold item_size. cbn [length size1 size2 with_pos]. lia.
    + lia.
    + cbn [fmap list_fmap concat]. unfold cat at 1.
      replace (end_ b - (pos b - size2 b - size1 b)) with (size1 b + size2 b + (end_ b - pos b)) by lia.
      rewrite slice_app, slice_app by nia. rewrite Hsl2. f_equal; [f_equal|].
      * rewrite Hf2 by nia. replace (pos b - size2 b - size1 b + size1 b) with (pos b - size2 b) by lia. done.
      * replace (pos b - size2 b - size1 b + (size1 b + size2 b)) with (pos b) by lia.
        rewrite Hf2, Hf1 by nia. done.
  - intros q k Hq Hk Hout. rewrite Hf2, Hf1 by nia. done.
Qed.

Lemma backward_read_ok b mem es d :
  backward_holds b mem (d :: es) →
  ∃ b' p1 p2, Backward.read b = Some (Some (b', p1, p2)) ∧ backward_holds b' mem es ∧ same_space b b' ∧
    slice mem p1 (size1 b) = d.1 ∧
    (if decide (size2 b = 0) then p2 = None else ∃ q, p2 = Some q ∧ slice mem q (size2 b) = d.2).
Proof.
  intros ((Hs1 & Hs2 & Hs & Hst & Hend & [Hd Hes]%Forall_cons) & Hpos & Hpe & Hsl).
  cbn [length fmap list_fmap concat] in Hpos, Hsl.
  assert (0 ≤ item_size b) as Hi by (unfold item_size; lia).
  replace (end_ b - pos b) with (item_size b + item_size b * Z.of_nat (length es)) in Hsl by nia.
  rewrite slice_app in Hsl by nia.
  assert (length (slice mem (pos b) (item_size b)) = length (cat d)) as Hlen.
  { destruct Hd as [Hd1 Hd2]. unfold slice, cat, item_size in *. rewrite length_take, length_drop, length_app. nia. }
  apply app_inj_1 in Hsl as [Hsl1 Hsl2]; [|done].
  destruct (slice_item mem (pos b) b d) as [Hp1 Hp2]; [lia|done|done|].
  unfold Backward.read, Backward.read_at, Backward.have_data.
  rewrite wrapu_small by (unfold in_u; lia). rewrite wraps_small by (unfold in_s; lia).
  rewrite bool_decide_eq_true_2 by (unfold item_size in *; nia).
  assert (∀ p n, 0 ≤ n < 2 ^ 63 → p + n ≤ end_ b → Backward.read_bytes b p n = Some (p + n, p)) as Hrb.
  { intros p n Hn Hp. unfold Backward.read_bytes, Backward.have_data. rewrite wraps_small by (unfold in_s; lia).
    by rewrite bool_decide_eq_true_2 by lia. }
  assert (backward_holds (with_pos b (pos b + size1 b + size2 b)) mem es) as Hh.
  { replace (pos b + size1 b + size2 b) with (pos b + item_size b) by (unfold item_size; lia).
    split; [split_and!; done|]. split; [cbn; unfold item_size in *; cbn; nia|]. split; [cbn; lia|]. cbn.
    replace (end_ b - (pos b + item_size b)) with (item_size b * Z.of_nat (length es)) by nia. exact Hsl2. }
  rewrite Hrb by (unfold item_size in *; nia). cbn [mbind option_bind].
  destruct (decide (size2 b ≠ 0)) as [E|E]; [rewrite Hrb by (unfold item_size in *; nia)|]; cbn [mbind option_bind].
  - eexists _, _, _. split; [done|]. split; [done|]. split; [done|]. split; [done|].
    rewrite decide_False by done. by eexists.
  - assert (size2 b = 0) as E0 by lia. rewrite E0, Z.add_0_r in *.
    eexists _, _, _. split; [done|]. split; [done|]. split; [done|]. split; [done|]. by rewrite decide_True.
Qed.

#[global] Instance backward_impl : LifoImpl Backward.can_write Backward.write Backward.read.
Proof.
  refine {| holds := backward_holds |}.
  - by intros b mem es [H _].
  - intros b mem es ((Hs1 & Hs2 & Hs & _) & Hpos & _) Hroom. unfold item_size in *.
    unfold Backward.can_write, Backward.have_space_for. apply bool_decide_eq_true_2.
    rewrite wrapu_small by (unfold in_u; lia). nia.
  - apply backward_write_ok.
  - apply backward_read_ok.
  - intros b mem ((Hs1 & Hs2 & Hs & _) & Hpos & _). unfold Backward.read, Backward.read_at, Backward.have_data.
    rewrite wrapu_small by (unfold in_u; lia). rewrite wraps_small by (unfold in_s; lia).
    rewrite bool_decide_eq_false_2 by (cbn in Hpos; lia). done.
Defined.
End backward.

(** ** A client of the interface *)

Section client.
Import Lifo.
Context {can_write : buffer → bool}
  {write : buffer → list Z → list Z → option (list Z) → option (buffer * list Z)}
  {read : buffer → option (option (buffer * Z * option Z))} `{HI : !LifoImpl can_write write read}.

(** Write a sequence of elements, each after asking whether there is room. *)
Fixpoint write_all (b : buffer) (mem : list Z) (ds : list (list Z * list Z)) : option (buffer * list Z) :=
  match ds with
  | [] => Some (b, mem)
  | d :: ds =>
      if can_write b then '(b, mem) ← write b mem d.1 (Some d.2); write_all b mem ds else None
  end.

(** Read [n] elements and copy what the pointers designate. *)
Fixpoint read_all (n : nat) (b : buffer) (mem : list Z) : option (buffer * list (list Z * list Z)) :=
  match n with
  | O => Some (b, [])
  | S n =>
      r ← read b; '(b', p1, p2) ← r;
      let d := (slice mem p1 (size1 b), match p2 with Some q => slice mem q (size2 b) | None => [] end) in
      '(b, ds) ← read_all n b' mem; Some (b, d :: ds)
  end.

Lemma write_all_ok ds : ∀ b mem es,
  holds b mem es → Forall (item_ok b) ds →
  item_size b * (Z.of_nat (length es) + Z.of_nat (length ds)) < end_ b - start b →
  ∃ b' mem', write_all b mem ds = Some (b', mem') ∧ holds b' mem' (reverse ds ++ es) ∧ same_space b b' ∧
    (∀ q k, 0 ≤ q → 0 ≤ k → q + k ≤ start b ∨ end_ b ≤ q → slice mem' q k = slice mem q k).
Proof using All.
  induction ds as [|d ds IH]; intros b mem es Hh Hok Hroom; cbn [write_all].
  { exists b, mem. split_and!; done. }
  apply Forall_cons in Hok as [Hd Hok]. pose proof (holds_space b mem es Hh) as (H1 & H2 & _).
  rewrite (can_write_ok b mem es Hh) by (cbn [length] in Hroom; unfold item_size in *; nia).
  destruct (write_ok b mem es d (Some d.2) Hh) as (b1 & m1 & -> & Hh1 & Hs1 & Hf1);
    [apply (can_write_ok b mem es Hh); cbn [length] in Hroom; unfold item_size in *; nia|done|by left|].
  cbn [mbind option_bind]. pose proof Hs1 as (E1 & E2 & E3 & E4).
  destruct (IH b1 m1 (d :: es) Hh1) as (b2 & m2 & -> & Hh2 & Hs2 & Hf2).
  - by eapply items_ok_same.
  - unfold item_size in *. rewrite E1, E2, E3, E4. cbn [length] in *. lia.
  - exists b2, m2. rewrite reverse_cons, <- app_assoc. split_and!; [done..| |].
    + unfold same_space in *. destruct Hs2 as (-> & -> & -> & ->). done.
    + intros q k Hq Hk Hout. rewrite Hf2, Hf1; [done..|]. by rewrite E3, E4.
Qed.

Lemma read_all_ok es : ∀ b mem fs,
  holds b mem (es ++ fs) →
  ∃ b', read_all (length es) b mem = Some (b', es) ∧ holds b' mem fs ∧ same_space b b'.
Proof using All.
  induction es as [|d es IH]; intros b mem fs Hh; cbn [read_all length].
  { by exists b. }
  rewrite <- app_comm_cons in Hh. pose proof (holds_space _ _ _ Hh) as (_ & _ & _ & _ & _ & [[Hd1 Hd2] _]%Forall_cons).
  destruct (read_ok b mem (es ++ fs) d Hh) as (b1 & p1 & p2 & -> & Hh1 & Hs1 & Hp1 & Hp2).
  cbn [mbind option_bind]. destruct (IH b1 mem fs Hh1) as (b2 & -> & Hh2 & Hs2). cbn [mbind option_bind].
  exists b2. split_and!; [|done|].
  - do 3 f_equal. destruct d as [d1 d2]. cbn [fst snd] in *. f_equal; [done|].
    case_decide as E; [subst p2; destruct d2; [done|cbn in Hd2; lia]|]. by destruct Hp2 as (q & -> & ->).
  - unfold same_space in *. destruct Hs2 as (-> & -> & -> & ->). done.
Qed.
End client.

(** ** Properties *)

Section properties.
Import Lifo.

(** [C21] A forward and a backward buffer are both stacks over the memory they were
    given: elements written while the space has room are read back in the
    opposite order with the same bytes, the buffer then holds what it held
    before, the reads stop at the end of the data, and no byte outside of the
    space changes. *)
Theorem lifo_buffer_is_stack (b : buffer) (mem : list Z) (es ds : list (list Z * list Z)) :
  Forall (item_ok b) ds → item_size b * (Z.of_nat (length es) + Z.of_nat (length ds)) < end_ b - start b →
  (forward_holds b mem es →
   ∃ b1 mem1 b2, write_all (can_write := Forward.can_write) (write := Forward.write) b mem ds = Some (b1, mem1) ∧
     read_all (read := Forward.read) (length ds) b1 mem1 = Some (b2, reverse ds) ∧ forward_holds b2 mem1 es ∧
     (∀ q k, 0 ≤ q → 0 ≤ k → q + k ≤ start b ∨ end_ b ≤ q → slice mem1 q k = slice mem q k) ∧
     (es = [] → Forward.read b2 = Some None)) ∧
  (backward_holds b mem es →
   ∃ b1 mem1 b2, write_all (can_write := Backward.can_write) (write := Backward.write) b mem ds = Some (b1, mem1) ∧
     read_all (read := Backward.read) (length ds) b1 mem1 = Some (b2, reverse ds) ∧ backward_holds b2 mem1 es ∧
     (∀ q k, 0 ≤ q → 0 ≤ k → q + k ≤ start b ∨ end_ b ≤ q → slice mem1 q k = slice mem q k) ∧
     (es = [] → Backward.read b2 = Some None)).
Proof.
  intros Hok Hroom. split; intros Hh.
  - destruct (write_all_ok (HI := forward_impl) ds b mem es Hh Hok Hroom) as (b1 & m1 & Hw & Hh1 & Hs1 & Hf).
    destruct (read_all_ok (HI := forward_impl) (reverse ds) b1 m1 es Hh1) as (b2 & Hr & Hh2 & _).
    rewrite length_reverse in Hr. exists b1, m1, b2. split_and!; [done..|]. intros ->.
    by eapply (read_empty (LifoImpl := forward_impl)).
  - destruct (write_all_ok (HI := backward_impl) ds b mem es Hh Hok Hroom) as (b1 & m1 & Hw & Hh1 & Hs1 & Hf).
    destruct (read_all_ok (HI := backward_impl) (reverse ds) b1 m1 es Hh1) as (b2 & Hr & Hh2 & _).
    rewrite length_reverse in Hr. exists b1, m1, b2. split_and!; [done..|]. intros ->.
    by eapply (read_empty (LifoImpl := backward_impl)).
Qed.

Lemma lifo_buffer_is_stack_witness :
  let ds := [([1; 2], [3]); ([4; 5], [6])] in
  ∃ b1 mem1 b2,
    write_all (can_write := Backward.can_write) (write := Backward.write) (Buffer 2 1 0 8 8) (replicate 9 0) ds
      = Some (b1, mem1) ∧
    read_all (read := Backward.read) 2 b1 mem1 = Some (b2, reverse ds).
Proof.
  intros ds. destruct (lifo_buffer_is_stack (Buffer 2 1 0 8 8) (replicate 9 0) [] ds) as [_ H].
  - unfold ds. repeat constructor.
  - unfold ds, item_size. cbn. lia.
  - destruct H as (b1 & m1 & b2 & H1 & H2 & _).
    + split; [split_and!; cbn; lia || constructor|]. split; [done|]. split; [cbn; lia|done].
    + exists b1, m1, b2. split; [exact H1|exact H2].
Defined.

(** The forward buffer does not use the last byte of its space: an element that
    would exactly fill it is refused, where the backward buffer takes it. *)
Lemma forward_refuses_exact_fit (b : buffer) :
  0 ≤ size1 b → 0 ≤ size2 b → size1 b + size2 b < 2 ^ 64 → end_ b - pos b = size1 b + size2 b →
  Forward.can_write b = false ∧
  Backward.can_write (Buffer (size1 b) (size2 b) (pos b) (end_ b) (end_ b)) = true.
Proof.
  intros H1 H2 H3 H4. unfold Forward.can_write, Backward.can_write, Forward.have_space_for, Backward.have_space_for.
  cbn. rewrite !wrapu_small by (unfold in_u; lia). split; [apply bool_decide_eq_false_2|apply bool_decide_eq_true_2]; lia.
Qed.
End properties.
