(* ===== verification/HashFilo.v ===== *)
(** * The LRU cache of hash_filo.h

    A [HASH] and a doubly linked chain through its elements in the order of
    their last use.  The hash table is code outside of the headers: it is the
    type class [HASH] with the operations the class calls, and [HASH_laws] is
    what its documentation says of them.  The theorems hold for every instance;
    [list_hash] is one. *)

From S2P Require Import Prelude.
From Stdlib Require Import ZArith Lia.
From stdpp Require Import base numbers gmap fin_maps option list.
Open Scope Z_scope.
Open Scope cint_scope.

(** ** The hash table the cache relies on *)

Class HASH (K H : Type) := {
  my_hash_init : H;
  (** The records handed to the free function. *)
  my_hash_free : H → list N;
  my_hash_search : H → K → option N;
  (** [None]: the record could not be inserted. *)
  my_hash_insert : H → N → option H;
  my_hash_delete : H → N → H;
  records : H → Z;
}.

(** [get_key]: the key of an element. *)
Class HASH_laws (K H : Type) `{!HASH K H} (get_key : N → K) := {
  hash_elems : H → gset N;
  free_elems h e : e ∈ my_hash_free h ↔ e ∈ hash_elems h;
  init_elems : hash_elems my_hash_init = ∅;
  search_some h k e : my_hash_search h k = Some e → e ∈ hash_elems h ∧ get_key e = k;
  search_none h k : my_hash_search h k = None → ∀ e, e ∈ hash_elems h → get_key e ≠ k;
  insert_elems h e h' : my_hash_insert h e = Some h' → hash_elems h' = {[ e ]} ∪ hash_elems h;
  delete_elems h e : hash_elems (my_hash_delete h e) = hash_elems h ∖ {[ e ]};
  records_size h : records h = Z.of_nat (size (hash_elems h));
}.

Module HashFilo.

Abbreviation NULL := 0%N.

Record element := Element { next_used : N; prev_used : N }.

Section filo.
Context {K H : Type} `{!HASH K H}.

(** [free_element]: whether there is a free function.  [lock] is [None] before [mysql_mutex_init], then whether it is held. *)
Record hash_filo := Filo {
  m_size : Z; free_element : bool; init : bool; first_link : N; last_link : N; lock : option bool; cache : H;
  links : gmap N element }.

Definition new_hash_filo (size_arg : Z) (free_element_arg : bool) (zeroed : H) (mem : gmap N element) : hash_filo :=
  Filo size_arg free_element_arg false NULL NULL None zeroed mem.

Definition set_lock (f : hash_filo) (v : option bool) : hash_filo :=
  Filo (m_size f) (free_element f) (init f) (first_link f) (last_link f) v (cache f) (links f).
Definition set_ends (f : hash_filo) (a b : N) : hash_filo :=
  Filo (m_size f) (free_element f) (init f) a b (lock f) (cache f) (links f).
Definition set_cache (f : hash_filo) (c : H) : hash_filo :=
  Filo (m_size f) (free_element f) (init f) (first_link f) (last_link f) (lock f) c (links f).
Definition set_links (f : hash_filo) (m : gmap N element) : hash_filo :=
  Filo (m_size f) (free_element f) (init f) (first_link f) (last_link f) (lock f) (cache f) m.

(** The memory after the free function was called on the elements [es]. *)
Definition free (f : hash_filo) (es : list N) : hash_filo :=
  set_links f (if free_element f then foldr delete (links f) es else links f).

(** Locking a mutex that is not initialised, or that is held already, has no result. *)
Definition mutex_lock (f : hash_filo) : option hash_filo :=
  match lock f with Some false => Some (set_lock f (Some true)) | _ => None end.
Definition mutex_unlock (f : hash_filo) : option hash_filo :=
  match lock f with Some true => Some (set_lock f (Some false)) | _ => None end.

Definition set_next (f : hash_filo) (a v : N) : option hash_filo :=
  e ← links f !! a; Some (set_links f (<[a := Element v (prev_used e)]> (links f))).
Definition set_prev (f : hash_filo) (a v : N) : option hash_filo :=
  e ← links f !! a; Some (set_links f (<[a := Element (next_used e) v]> (links f))).

Definition clear (f : hash_filo) (locked : bool) : option hash_filo :=
  let f := if init f then f
           else Filo (m_size f) (free_element f) true (first_link f) (last_link f) (Some false) (cache f) (links f) in
  f ← (if locked then Some f else mutex_lock f);
  let f := free (set_ends f NULL NULL) (my_hash_free (cache f)) in
  let f := set_cache f my_hash_init in
  if locked then Some f else mutex_unlock f.

(** A failing assertion has no result.  The caller holds the mutex; [lock] says
    whether it is held, not by whom, so [mysql_mutex_assert_owner] is not one of
    them. *)
Definition assert (b : bool) : option unit := if b then Some tt else None.

Definition search (f : hash_filo) (key : K) : option (hash_filo * N) :=
  match my_hash_search (cache f) key with
  | None => Some (f, NULL)
  | Some entry =>
      _ ← assert (bool_decide (first_link f ≠ NULL));
      _ ← assert (bool_decide (last_link f ≠ NULL));
      if decide (entry ≠ first_link f) then
        e ← links f !! entry;
        f ← (if decide (entry = last_link f) then
               l ← links f !! last_link f;
               let f := set_ends f (first_link f) (prev_used l) in
               _ ← assert (bool_decide (last_link f ≠ NULL));
               set_next f (last_link f) NULL
             else
               _ ← assert (bool_decide (next_used e ≠ NULL));
               _ ← assert (bool_decide (prev_used e ≠ NULL));
               f ← set_prev f (next_used e) (prev_used e);
               set_next f (prev_used e) (next_used e));
        f ← set_prev f entry NULL;
        f ← set_next f entry (first_link f);
        f ← set_prev f (first_link f) entry;
        Some (set_ends f entry (last_link f), entry)
      else Some (f, entry)
  end.

(** The flag is [true] on failure; [my_hash_delete] frees the element it takes out. *)
Definition add (f : hash_filo) (entry : N) : option (hash_filo * bool) :=
  if decide (m_size f = 0) then Some (f, true) else
  f ← (if decide (records (cache f) = m_size f) then
         let tmp := last_link f in
         l ← links f !! last_link f;
         let f := set_ends f (first_link f) (prev_used l) in
         f ← (if decide (last_link f ≠ NULL) then set_next f (last_link f) NULL
              else Some (set_ends f NULL (last_link f)));
         Some (free (set_cache f (my_hash_delete (cache f) tmp)) [tmp])
       else Some f);
  match my_hash_insert (cache f) entry with
  | None => Some (free f [entry], true)
  | Some c =>
      let f := set_cache f c in
      f ← set_prev f entry NULL;
      f ← set_next f entry (first_link f);
      f ← (if decide (first_link f ≠ NULL) then set_prev f (first_link f) entry
           else Some (set_ends f (first_link f) entry));
      Some (set_ends f entry (last_link f), false)
  end.

Definition resize (f : hash_filo) (new_size : Z) : option hash_filo :=
  f ← mutex_lock f;
  let f := Filo new_size (free_element f) (init f) (first_link f) (last_link f) (lock f) (cache f) (links f) in
  f ← clear f true;
  mutex_unlock f.

End filo.
Arguments hash_filo : clear implicits.
End HashFilo.

(** ** Representation *)

Section rep.
Import HashFilo.
Context {K H : Type} `{HH : !HASH K H} {get_key : N → K} `{HL : !HASH_laws K H get_key}.
Implicit Types (f : hash_filo H) (m : gmap N element).

(** The elements [xs] are linked in both directions between [p] and [q]. *)
Fixpoint used m (p : N) (xs : list N) (q : N) : Prop :=
  match xs with
  | [] => True
  | a :: xs => m !! a = Some (Element (hd_addr xs q) p) ∧ used m a xs q
  end.

Definition tail_addr (p : N) (xs : list N) : N := default p (list.last xs).

(** The cache has the elements [xs], most recently used first. *)
Definition lru f (xs : list N) : Prop :=
  NoDup xs ∧ NULL ∉ xs ∧ used (links f) NULL xs NULL ∧
  first_link f = hd_addr xs NULL ∧ last_link f = tail_addr NULL xs ∧
  hash_elems (cache f) = list_to_set xs ∧ Z.of_nat (length xs) ≤ m_size f.

Lemma tail_addr_snoc p xs a : tail_addr p (xs ++ [a]) = a.
Proof using Type. unfold tail_addr. by rewrite last_snoc. Qed.

Lemma tail_addr_cons p a xs : tail_addr p (a :: xs) = tail_addr a xs.
Proof using Type. unfold tail_addr. rewrite last_cons. by destruct (list.last xs). Qed.

Lemma tail_addr_app p xs ys : tail_addr p (xs ++ ys) = tail_addr (tail_addr p xs) ys.
Proof using Type.
  revert p. induction xs as [|a xs IH]; intros p; [done|].
  rewrite <- app_comm_cons, !tail_addr_cons. apply IH.
Qed.

Lemma tail_addr_in p xs : xs ≠ [] → tail_addr p xs ∈ xs.
Proof using Type.
  intros Hx. destruct xs as [|a xs _] using rev_ind; [done|]. rewrite tail_addr_snoc. set_solver.
Qed.

Lemma used_app m p xs ys q :
  used m p (xs ++ ys) q ↔ used m p xs (hd_addr ys q) ∧ used m (tail_addr p xs) ys q.
Proof using Type.
  revert p. induction xs as [|a xs IH]; intros p; cbn [used app]; [tauto|].
  rewrite IH, hd_addr_app, tail_addr_cons. tauto.
Qed.

Lemma used_frame m m' p xs q : (∀ a, a ∈ xs → m' !! a = m !! a) → used m p xs q → used m' p xs q.
Proof using Type.
  revert p. induction xs as [|a xs IH]; intros p Hf; cbn [used]; [done|]. intros [Ha Hs]. split.
  - by rewrite Hf by left.
  - apply IH; [|done]. intros b Hb. apply Hf. by right.
Qed.

Lemma used_insert_ne m p xs q a e : a ∉ xs → used m p xs q → used (<[a := e]> m) p xs q.
Proof using Type. intros Ha. apply used_frame. intros b Hb. apply lookup_insert_ne. by intros ->. Qed.

(** Relinking the last element of a chain to [v]. *)
Lemma used_set_last m p xs q v e :
  NoDup xs → xs ≠ [] → used m p xs q → m !! tail_addr p xs = Some e →
  used (<[tail_addr p xs := Element v (prev_used e)]> m) p xs v.
Proof using Type.
  intros Hnd Hne Hs He. destruct xs as [|a xs _] using rev_ind; [done|].
  rewrite tail_addr_snoc in *. apply used_app in Hs as [Hs [Ha _]]. rewrite Ha in He. injection He as <-.
  apply used_app. cbn. split; [|by rewrite lookup_insert_eq]. apply used_insert_ne; [|done].
  apply NoDup_app in Hnd as (_ & Hd & _). intros Hin. apply (Hd a Hin). by left.
Qed.

(** Putting a new element [a] in front of a chain. *)
Definition push_links m (a : N) (xs : list N) : gmap N element :=
  match xs with
  | [] => <[a := Element NULL NULL]> m
  | b :: ys => <[b := Element (hd_addr ys NULL) a]> (<[a := Element b NULL]> m)
  end.

Lemma push_links_used m a xs :
  NoDup xs → a ∉ xs → used m NULL xs NULL → used (push_links m a xs) NULL (a :: xs) NULL.
Proof using Type.
  intros Hnd Ha Hs. destruct xs as [|b ys]; cbn.
  - by rewrite lookup_insert_eq.
  - destruct Hs as [Hb Hs]. apply not_elem_of_cons in Ha as [Hab Ha]. apply NoDup_cons in Hnd as [Hby _].
    rewrite lookup_insert_ne, !lookup_insert_eq by done. split_and!; [done..|].
    by do 2 (apply used_insert_ne; [done|]).
Qed.

Lemma push_links_ne m a xs b : b ≠ a → b ∉ xs → push_links m a xs !! b = m !! b.
Proof using Type. intros Hb Hx. destruct xs as [|c xs]; cbn; rewrite !lookup_insert_ne by set_solver; done. Qed.

(** The commands that do it, with and without the test of [first_link]. *)
Lemma push_commands f a xs e :
  NoDup xs → a ∉ xs → NULL ∉ xs → used (links f) NULL xs NULL → first_link f = hd_addr xs NULL →
  links f !! a = Some e →
  ∃ f2, (f1 ← set_prev f a NULL; set_next f1 a (first_link f1)) = Some f2 ∧
    first_link f2 = first_link f ∧ last_link f2 = last_link f ∧
    (if decide (first_link f2 ≠ NULL) then set_prev f2 (first_link f2) a
     else Some (set_ends f2 (first_link f2) a)) =
      Some (set_links (set_ends f (first_link f)
              (if decide (xs = []) then a else last_link f)) (push_links (links f) a xs)).
Proof using Type.
  intros Hnd Ha Hnull Hs Hf He. unfold set_prev at 1. rewrite He. cbn. unfold set_next. cbn.
  rewrite lookup_insert_eq. cbn. eexists. split; [done|]. cbn. split_and!; [done..|]. rewrite Hf.
  destruct xs as [|b ys]; cbn.
  - unfold set_links, set_ends. cbn. by rewrite insert_insert_eq, ?Hf.
  - destruct Hs as [Hb Hs]. apply not_elem_of_cons in Ha as [Hab Ha].
    rewrite decide_True by set_solver. unfold set_prev. cbn. rewrite !lookup_insert_ne, Hb by done. cbn.
    rewrite decide_False by done. unfold set_links, set_ends. cbn. by rewrite insert_insert_eq, ?Hf.
Qed.

(** Taking an element that is not the first out of the chain. *)
Lemma unchain f pre e post :
  NoDup (pre ++ e :: post) → NULL ∉ pre ++ e :: post → pre ≠ [] →
  used (links f) NULL (pre ++ e :: post) NULL → last_link f = tail_addr NULL (pre ++ e :: post) →
  ∃ el m', links f !! e = Some el ∧
    (if decide (e = last_link f) then
       l ← links f !! last_link f;
       _ ← assert (bool_decide (last_link (set_ends f (first_link f) (prev_used l)) ≠ NULL));
       set_next (set_ends f (first_link f) (prev_used l)) (last_link (set_ends f (first_link f) (prev_used l))) NULL
     else
       _ ← assert (bool_decide (next_used el ≠ NULL));
       _ ← assert (bool_decide (prev_used el ≠ NULL));
       f1 ← set_prev f (next_used el) (prev_used el);
       set_next f1 (prev_used el) (next_used el)) =
      Some (set_links (set_ends f (first_link f) (tail_addr NULL (pre ++ post))) m') ∧
    used m' NULL (pre ++ post) NULL ∧ m' !! e = Some el ∧
    (∀ a, a ∉ pre ++ post → m' !! a = links f !! a).
Proof using Type.
  intros Hnd Hnull Hpre Hs Hlast. apply NoDup_app in Hnd as (Hnd1 & Hd & [He Hnd2]%NoDup_cons).
  pose proof (tail_addr_in NULL pre Hpre) as Hp. set (p := tail_addr NULL pre) in *.
  assert (p ≠ e ∧ p ∉ post ∧ e ∉ pre) as (Hpe & Hpp & Hep) by set_solver. assert (p ≠ NULL) as Hp0 by (intros E; apply Hnull; rewrite <- E; apply elem_of_app; by left).
  apply used_app in Hs as [Hs1 [Hee Hs2]]. cbn [hd_addr] in Hs1.
  assert (∃ ep, links f !! p = Some ep) as [ep Hep'].
  { unfold p. destruct pre as [|a pre _] using rev_ind; [done|]. rewrite tail_addr_snoc.
    apply used_app in Hs1 as [_ [Ha _]]. eauto. }
  eexists _. rewrite tail_addr_app, tail_addr_cons in Hlast. destruct post as [|b post].
  - exists (<[p := Element NULL (prev_used ep)]> (links f)). split; [exact Hee|].
    rewrite Hlast. cbn [tail_addr list.last from_option id]. rewrite decide_True by done. rewrite Hee.
    cbn [mbind option_bind last_link set_ends prev_used]. fold p. rewrite bool_decide_eq_true_2 by done. cbn [assert mbind option_bind].
    unfold set_next. cbn. fold p. rewrite Hep'. cbn. rewrite app_nil_r. fold p. split_and!; [done| | |].
    + by apply (used_set_last (links f) NULL pre e NULL ep).
    + by rewrite lookup_insert_ne.
    + intros a Ha. rewrite lookup_insert_ne; [done|]. set_solver.
  - destruct Hs2 as [Hb Hs2].
    exists (<[p := Element b (prev_used ep)]> (<[b := Element (hd_addr post NULL) p]> (links f))).
    split; [exact Hee|]. rewrite decide_False.
    2: { rewrite Hlast, tail_addr_cons. intros X. apply He. rewrite X.
         rewrite <- (tail_addr_cons NULL b post). by apply tail_addr_in. }
    cbn [next_used prev_used hd_addr]. fold p.
    assert (b ≠ NULL) as Hb0 by (intros ->; apply Hnull; rewrite elem_of_app; right; right; left).
    rewrite !bool_decide_eq_true_2 by done. cbn [assert mbind option_bind].
    unfold set_prev. rewrite Hb. cbn. unfold set_next. cbn. fold p.
    rewrite lookup_insert_ne, Hep' by set_solver. cbn. rewrite tail_addr_app, tail_addr_cons.
    rewrite tail_addr_cons in Hlast. split_and!.
    + unfold set_links, set_ends. cbn. by rewrite Hlast.
    + apply used_app. split.
      * apply (used_set_last _ NULL pre e b ep); [done..| |].
        -- apply used_insert_ne; [set_solver|done].
        -- rewrite lookup_insert_ne by set_solver. done.
      * fold p. cbn. rewrite lookup_insert_ne, lookup_insert_eq by set_solver. split; [done|].
        apply NoDup_cons in Hnd2 as [Hbp _]. do 2 (apply used_insert_ne; [set_solver|]). done.
    + rewrite !lookup_insert_ne by set_solver. done.
    + intros a Ha. rewrite !lookup_insert_ne by set_solver. done.
Qed.

Lemma search_rep f xs k :
  lru f xs →
  ∃ f' e, search f k = Some (f', e) ∧ m_size f' = m_size f ∧
    ((e = NULL ∧ f' = f ∧ ∀ x, x ∈ xs → get_key x ≠ k) ∨
     (e ∈ xs ∧ get_key e = k ∧ lru f' (e :: filter (.≠ e) xs))) ∧
    (∀ a, a ∉ xs → links f' !! a = links f !! a).
Proof using All.
  intros (Hnd & Hnull & Hs & Hf & Hl & Hc & Hsz). unfold search.
  destruct (my_hash_search (cache f) k) as [e|] eqn:Es.
  2: { exists f, NULL. split_and!; [done..| |done]. left. split_and!; [done..|]. intros x Hx.
       eapply search_none; [exact Es|]. rewrite Hc. by apply elem_of_list_to_set. }
  apply search_some in Es as [Hin Hk]. rewrite Hc, elem_of_list_to_set in Hin.
  apply list_elem_of_split in Hin as (pre & post & ->).
  assert (e :: filter (.≠ e) (pre ++ e :: post) = e :: pre ++ post) as Efil.
  { rewrite filter_app, filter_cons_False by (intros X; by apply X).
    apply NoDup_app in Hnd as (_ & Hd & [He _]%NoDup_cons).
    rewrite !filter_ne_id; [done|done|intros Hx; apply (Hd e Hx); by left]. }
  assert (first_link f ≠ NULL ∧ last_link f ≠ NULL) as [Hf0 Hl0].
  { rewrite Hf, Hl. split; intros E; apply Hnull; rewrite <- E; [destruct pre; left|apply tail_addr_in; by destruct pre]. }
  rewrite !bool_decide_eq_true_2 by done. cbn [assert mbind option_bind].
  destruct (decide (pre = [])) as [->|Hpre].
  - rewrite Hf. cbn [app hd_addr]. rewrite decide_False by (intros X; by apply X).
    exists f, e. split_and!; [done..| |done]. right. cbn [app] in Efil. rewrite Efil.
    split_and!; [by left|done..].
  - assert (e ∉ pre ++ post ∧ NoDup (pre ++ post) ∧ NULL ∉ pre ++ post) as (Hepp & Hndp & Hnp).
    { apply NoDup_app in Hnd as (Hnd1 & Hd & [He Hnd2]%NoDup_cons). split_and!; [set_solver| |set_solver].
      apply NoDup_app. split_and!; [done|set_solver|done]. }
    rewrite decide_True.
    2: { rewrite Hf. destruct pre as [|a pre]; [done|]. cbn. intros ->. set_solver. }
    destruct (unchain f pre e post Hnd Hnull Hpre Hs Hl) as (el & m' & Hel & Hrun & Hm & Hme & Hfr).
    rewrite Hel. cbn [mbind option_bind]. cbn zeta. rewrite Hrun. cbn [mbind option_bind].
    set (f1 := set_links _ m').
    assert (first_link f1 = hd_addr (pre ++ post) NULL) as Hf1.
    { cbn. rewrite Hf. by destruct pre. }
    destruct (push_commands f1 e (pre ++ post) el Hndp Hepp Hnp Hm Hf1 Hme) as (f2 & Hr2 & Hf2 & Hl2 & Hr3).
    destruct (set_prev f1 e NULL) as [f1'|] eqn:E1; [|done]. cbn in Hr2 |- *. rewrite Hr2. cbn.
    rewrite decide_True in Hr3 by (rewrite Hf2, Hf1; destruct pre; [done|cbn; set_solver]).
    rewrite Hr3. cbn. eexists _, e. split; [done|]. cbn. split; [done|].
    assert (pre ++ post ≠ []) as Hne by (by destruct pre).
    rewrite (decide_False (P := pre ++ post = [])) by done. split.
    + right. split_and!; [set_solver|done|]. rewrite Efil. split_and!.
      * by apply NoDup_cons.
      * set_solver.
      * cbn. by apply push_links_used.
      * done.
      * cbn. rewrite tail_addr_cons. destruct (decide (pre ++ post = [])); [done|].
        unfold tail_addr. destruct (pre ++ post) as [|c cs _] using rev_ind; [done|]. by rewrite last_snoc.
      * cbn. rewrite Hc. apply leibniz_equiv. set_solver.
      * cbn. rewrite !length_app in *. cbn in *. lia.
    + intros a Ha. rewrite push_links_ne by set_solver. apply Hfr. set_solver.
Qed.

(** The elements that stay when the cache of size [n] makes room. *)
Definition evict (n : Z) (xs : list N) : list N :=
  if decide (Z.of_nat (length xs) = n) then take (length xs - 1) xs else xs.

Lemma evict_rep f xs :
  lru f xs → m_size f ≠ 0 →
  ∃ f1, (if decide (records (cache f) = m_size f) then
           l ← links f !! last_link f;
           f2 ← (if decide (last_link (set_ends f (first_link f) (prev_used l)) ≠ NULL)
                 then set_next (set_ends f (first_link f) (prev_used l))
                        (last_link (set_ends f (first_link f) (prev_used l))) NULL
                 else Some (set_ends (set_ends f (first_link f) (prev_used l)) NULL
                        (last_link (set_ends f (first_link f) (prev_used l)))));
           Some (free (set_cache f2 (my_hash_delete (cache f2) (last_link f))) [last_link f])
         else Some f) = Some f1 ∧
    lru f1 (evict (m_size f) xs) ∧ m_size f1 = m_size f ∧
    Z.of_nat (length (evict (m_size f) xs)) < m_size f ∧
    (∀ a, a ∉ xs → links f1 !! a = links f !! a).
Proof using All.
  intros (Hnd & Hnull & Hs & Hf & Hl & Hc & Hsz) Hne. unfold evict. rewrite records_size, Hc.
  rewrite size_list_to_set by done. case_decide as Hfull.
  2: { exists f. split_and!; [done..| |done]. lia. }
  destruct xs as [|e pre _] using rev_ind; [cbn in *; lia|].
  rewrite length_app, Nat.add_sub, take_app_length. rewrite tail_addr_snoc in Hl.
  apply NoDup_app in Hnd as (Hnd1 & Hd & _). apply used_app in Hs as [Hs [He _]]. cbn [hd_addr] in Hs, He.
  rewrite Hl, He. cbn [mbind option_bind prev_used last_link set_ends].
  assert (e ∉ pre) as Hep by (intros X; apply (Hd e X); by left).
  assert (∀ m', used m' NULL pre NULL → used (if free_element f then delete e m' else m') NULL pre NULL) as Hfree.
  { intros m' Hm. destruct (free_element f); [|done]. eapply used_frame; [|exact Hm].
    intros b Hb. apply lookup_delete_ne. by intros ->. }
  assert (∀ m' a, a ∉ pre ++ [e] → (if free_element f then delete e m' else m') !! a = m' !! a) as Hfree'.
  { intros m' a Ha. destruct (free_element f); [|done]. apply lookup_delete_ne. set_solver. }
  assert (hash_elems (my_hash_delete (cache f) e) = list_to_set pre) as Hdel.
  { rewrite delete_elems, Hc, list_to_set_app_L. apply leibniz_equiv. set_solver. }
  destruct (decide (pre = [])) as [->|Hpre].
  - cbn [tail_addr list.last from_option id]. rewrite decide_False by (intros X; by apply X). cbn.
    eexists. split; [done|]. split; [|split_and!]; [|done|cbn in *; lia|].
    + split_and!; [constructor|set_solver|done|done|done|done|]. cbn in *. lia.
    + intros a Ha. cbn. by apply Hfree'.
  - pose proof (tail_addr_in NULL pre Hpre) as Hp.
    assert (∃ ep, links f !! tail_addr NULL pre = Some ep) as [ep Hep'].
    { destruct pre as [|a pre _] using rev_ind; [done|]. rewrite tail_addr_snoc.
      apply used_app in Hs as [_ [Ha _]]. eauto. }
    assert (NULL ∉ pre) as Hnp by (intros X; apply Hnull, elem_of_app; by left).
    rewrite decide_True by (intros X; rewrite X in Hp; done). unfold set_next. cbn. rewrite Hep'. cbn. eexists. split; [done|].
    split; [split_and!|split_and!]; cbn.
    + done.
    + done.
    + apply Hfree. by apply (used_set_last (links f) NULL pre e NULL ep).
    + rewrite Hf. by destruct pre.
    + done.
    + done.
    + rewrite length_app in *. cbn in *. lia.
    + done.
    + rewrite length_app in *. cbn in *. lia.
    + intros a Ha. rewrite Hfree' by done. apply lookup_insert_ne.
      intros <-. apply Ha, elem_of_app. by left.
Qed.

Lemma add_rep f xs a :
  lru f xs → a ∉ xs → a ≠ NULL → is_Some (links f !! a) →
  ∃ f' failed, add f a = Some (f', failed) ∧ m_size f' = m_size f ∧
    lru f' (if decide (m_size f = 0) then xs else if failed then evict (m_size f) xs
            else a :: evict (m_size f) xs) ∧
    (m_size f = 0 → failed = true) ∧
    (∀ b, b ≠ a → b ∉ xs → links f' !! b = links f !! b).
Proof using All.
  intros Hlru Ha Hnull [el Hel]. unfold add. case_decide as Hz; [by exists f, true|].
  destruct (evict_rep f xs Hlru Hz) as (f1 & Hrun & Hlru1 & Hm1 & Hlen & Hfr). cbn zeta.
  rewrite Hrun. cbn [mbind option_bind]. clear Hrun.
  assert (∀ b, b ∈ evict (m_size f) xs → b ∈ xs) as Hsub.
  { unfold evict. case_decide; [|done]. intros b Hb. rewrite <- (take_drop (length xs - 1) xs). apply elem_of_app. by left. }
  pose proof Hlru1 as (Hnd & Hn & Hs & Hf & Hl & Hc & Hsz).
  destruct (my_hash_insert (cache f1) a) as [c|] eqn:Ei.
  - apply insert_elems in Ei.
    assert (a ∉ evict (m_size f) xs) as Ha' by auto. assert (links f1 !! a = Some el) as Hel1 by by rewrite Hfr.
    destruct (push_commands (set_cache f1 c) a (evict (m_size f) xs) el) as (f2 & Hr2 & Hf2 & Hl2 & Hr3); [done..|].
    destruct (set_prev (set_cache f1 c) a NULL) as [f1'|] eqn:E1; [|done]. cbn in Hr2 |- *. rewrite Hr2. cbn.
    rewrite Hr3. cbn. eexists _, false. split; [done|]. split; [done|]. split; [|split; [done|]].
    + split_and!; cbn.
      * by apply NoDup_cons.
      * set_solver.
      * by apply push_links_used.
      * done.
      * rewrite tail_addr_cons. destruct (decide (evict (m_size f) xs = [])) as [E|E]; [by rewrite E|]. rewrite Hl. unfold tail_addr.
        destruct (evict (m_size f) xs) as [|d ds _] using rev_ind; [done|]. by rewrite last_snoc.
      * rewrite Ei, Hc. apply leibniz_equiv. set_solver.
      * lia.
    + intros b Hb Hx. cbn. rewrite push_links_ne by auto. by apply Hfr.
  - eexists _, true. split; [done|]. split; [done|]. split; [|split; [done|]].
    + split_and!; [done|done| |done|done|done|cbn in *; lia]. cbn. destruct (free_element f1); [|done].
      eapply used_frame; [|exact Hs]. intros b Hb. apply lookup_delete_ne. intros ->. auto.
    + intros b Hb Hx. cbn. destruct (free_element f1); [|by apply Hfr]. rewrite lookup_delete_ne by done. by apply Hfr.
Qed.
End rep.

(** ** The least-recently-used policy *)

Section policy.
Import HashFilo.
Context {K H : Type} `{HH : !HASH K H} {get_key : N → K} `{HL : !HASH_laws K H get_key}.
Implicit Types (f : hash_filo H).

Inductive op :=
  | Search (k : K)
  | Add (a : N).

(** What an operation may do to a cache of size [n] with the elements [xs], most
    recently used first, and what it returns (an element, or the failure flag). *)
Inductive lru_step (n : Z) (xs : list N) : op → N → list N → Prop :=
  | lru_hit k e : e ∈ xs → get_key e = k → lru_step n xs (Search k) e (e :: filter (.≠ e) xs)
  | lru_miss k : (∀ x, x ∈ xs → get_key x ≠ k) → lru_step n xs (Search k) NULL xs
  | lru_add a : n ≠ 0 → lru_step n xs (Add a) 0 (a :: evict n xs)
  | lru_add_failed a : n ≠ 0 → lru_step n xs (Add a) 1 (evict n xs)
  | lru_add_zero a : n = 0 → lru_step n xs (Add a) 1 xs.

Inductive lru_run (n : Z) : list N → list op → list N → list N → Prop :=
  | run_nil xs : lru_run n xs [] [] xs
  | run_cons xs ys zs o os r rs :
      lru_step n xs o r ys → lru_run n ys os rs zs → lru_run n xs (o :: os) (r :: rs) zs.

Definition exec f (o : op) : option (hash_filo H * N) :=
  match o with
  | Search k => search f k
  | Add a => '(f, failed) ← add f a; Some (f, if failed : bool then 1%N else 0%N)
  end.

Fixpoint exec_all f (os : list op) : option (hash_filo H * list N) :=
  match os with
  | [] => Some (f, [])
  | o :: os => '(f, r) ← exec f o; '(f, rs) ← exec_all f os; Some (f, r :: rs)
  end.

Definition added (os : list op) : list N := omap (λ o, match o with Add a => Some a | _ => None end) os.

(** The elements a history adds are distinct objects outside of the cache. *)
Definition addable f (xs : list N) (os : list op) : Prop :=
  NoDup (added os) ∧ ∀ a, a ∈ added os → a ∉ xs ∧ a ≠ NULL ∧ is_Some (links f !! a).

Lemma lru_step_incl n xs o r ys b : lru_step n xs o r ys → b ∈ ys → b ∈ xs ∨ o = Add b.
Proof using Type.
  assert (∀ b, b ∈ evict n xs → b ∈ xs) as Hsub.
  { unfold evict. case_decide; [|done]. intros c Hc. rewrite <- (take_drop (length xs - 1) xs).
    apply elem_of_app. by left. }
  intros Hst Hb. inversion Hst; subst; try (by left); try (by left; apply Hsub).
  - apply elem_of_cons in Hb as [->|Hb]; [by left|]. apply list_elem_of_filter in Hb as [_ Hb]. by left.
  - apply elem_of_cons in Hb as [->|Hb]; [by right|]. left. by apply Hsub.
Qed.

Lemma exec_step f xs o :
  lru f xs → (∀ a, o = Add a → a ∉ xs ∧ a ≠ NULL ∧ is_Some (links f !! a)) →
  ∃ f' r ys, exec f o = Some (f', r) ∧ m_size f' = m_size f ∧ lru_step (m_size f) xs o r ys ∧
    lru f' ys ∧ (∀ b, o ≠ Add b → b ∉ xs → links f' !! b = links f !! b).
Proof using All.
  intros Hlru Hadd. destruct o as [k|a]; cbn [exec].
  - destruct (search_rep f xs k Hlru) as (f' & e & -> & Hm & [(-> & -> & Hmiss)|(Hin & Hk & Hl)] & Hfr).
    + eexists _, _, xs. split_and!; [done..|by apply lru_miss|done|auto].
    + eexists _, _, _. split_and!; [done..|by apply lru_hit|done|auto].
  - destruct (Hadd a eq_refl) as (Hx & Hn & Hs).
    destruct (add_rep f xs a Hlru Hx Hn Hs) as (f' & failed & -> & Hm & Hl & Hz & Hfr). cbn.
    assert (∀ b, Add a ≠ Add b → b ∉ xs → links f' !! b = links f !! b) as Hfr'.
    { intros b Hb. apply Hfr. congruence. }
    destruct (decide (m_size f = 0)) as [E|E].
    + rewrite (Hz E) in *. eexists _, _, xs. split_and!; [done..|by apply lru_add_zero|done|done].
    + destruct failed; eexists _, _, _.
      * split_and!; [done..|by apply lru_add_failed|exact Hl|done].
      * split_and!; [done..|by apply lru_add|exact Hl|done].
Qed.

Lemma exec_all_run os : ∀ f xs, lru f xs → addable f xs os →
  ∃ f' rs ys, exec_all f os = Some (f', rs) ∧ lru_run (m_size f) xs os rs ys ∧ lru f' ys.
Proof using All.
  induction os as [|o os IH]; intros f xs Hlru [Hnd Hadd].
  { exists f, [], xs. split_and!; [done|constructor|done]. }
  assert (∀ a, o = Add a → a ∈ added (o :: os) ∧ a ∉ added os) as Ho.
  { intros a ->. cbn in Hnd. apply NoDup_cons in Hnd as [Hn _]. split; [by left|done]. }
  assert (∀ a, a ∈ added os → a ∈ added (o :: os) ∧ o ≠ Add a) as Hos.
  { intros a Ha. split; [destruct o; [done|by right]|]. intros E. by apply (Ho a). }
  destruct (exec_step f xs o Hlru) as (f1 & r & ys & He & Hm & Hst & Hl1 & Hfr).
  { intros a E. by apply Hadd, Ho. }
  destruct (IH f1 ys Hl1) as (f2 & rs & zs & Hall & Hrun & Hl2).
  { split; [destruct o; [done|by apply NoDup_cons in Hnd as [_ ?]]|]. intros a Ha.
    destruct (Hos a Ha) as [Hin Hne]. destruct (Hadd a Hin) as (Hx & Hn & Hs). split_and!; [|done|].
    - intros Hy. by destruct (lru_step_incl _ _ _ _ _ _ Hst Hy).
    - by rewrite Hfr. }
  exists f2, (r :: rs), zs. cbn [exec_all]. rewrite He. cbn. rewrite Hall. cbn. split_and!; [done| |done].
  rewrite Hm in Hrun. by econstructor.
Qed.
End policy.

(** ** An instance of the hash table *)

Section instance.
Context (get_key : N → N).

(** The records in a list. *)
#[local] Instance list_hash : HASH N (list N) := {
  my_hash_init := [];
  my_hash_free h := h;
  my_hash_search h k := list_find (λ e, get_key e = k) h ≫= λ p, Some p.2;
  my_hash_insert h e := Some (e :: filter (.≠ e) h);
  my_hash_delete h e := filter (.≠ e) h;
  records h := Z.of_nat (size (list_to_set h : gset N)) }.

#[local] Instance list_hash_laws : HASH_laws N (list N) get_key.
Proof.
  refine {| hash_elems h := list_to_set h |}.
  - intros h e. by rewrite elem_of_list_to_set.
  - done.
  - intros h k e Hs. cbn in Hs. destruct (list_find _ h) as [[i x]|] eqn:E; [|done]. injection Hs as <-.
    apply list_find_Some in E as (Hi & Hk & _). split; [|done]. apply elem_of_list_to_set.
    by eapply list_elem_of_lookup_2.
  - intros h k Hs e He. cbn in Hs. destruct (list_find _ h) as [[i x]|] eqn:E; [done|].
    apply list_find_None in E. rewrite Forall_forall in E. apply E. by rewrite elem_of_list_to_set in He.
  - intros h e h' Hs. cbn in Hs. injection Hs as <-. apply leibniz_equiv. intros x.
    rewrite elem_of_union, elem_of_singleton, !elem_of_list_to_set, elem_of_cons, list_elem_of_filter.
    destruct (decide (x = e)); naive_solver.
  - intros h e. apply leibniz_equiv. intros x. cbn.
    rewrite elem_of_difference, elem_of_singleton, !elem_of_list_to_set, list_elem_of_filter. naive_solver.
  - done.
Defined.
End instance.

(** ** Properties *)

Section properties.
Import HashFilo.

(** [C2] For every hash table that satisfies [HASH_laws], the cache refines the
    least-recently-used policy: each history of [search] and [add] runs without
    an invalid access and returns what the policy allows, a hit moves the
    element to the front, a full cache evicts the least recently used element,
    and the number of elements never exceeds the size. *)
Theorem hash_filo_refines_lru {K H : Type} `{!HASH K H} (get_key : N → K) `{!HASH_laws K H get_key}
    (f : hash_filo H) (xs : list N) (os : list (op (K := K))) :
  lru f xs → addable f xs os →
  ∃ f' rs ys, exec_all f os = Some (f', rs) ∧ lru_run (get_key := get_key) (m_size f) xs os rs ys ∧
              lru f' ys.
Proof. apply exec_all_run. Qed.

#[local] Existing Instance list_hash.
#[local] Existing Instance list_hash_laws.

Definition demo_key (a : N) : N := (a * 10)%N.

Definition demo_ops : list (op (K := N)) := [Add 1; Add 2; Search 10%N; Add 3; Search 20%N].

(** A cache of size two, with three objects that can be added. *)
Definition demo_filo : hash_filo (list N) :=
  Filo 2 true true 0 0 (Some true) []
    {[ 1%N := Element 0 0; 2%N := Element 0 0; 3%N := Element 0 0 ]}.

Lemma demo_filo_lru : lru (get_key := demo_key) (HH := list_hash demo_key) demo_filo [].
Proof. split_and!; [constructor|set_solver|done|done|done|done|done]. Qed.

Lemma hash_filo_refines_lru_witness :
  ∃ f' rs ys,
    exec_all (HH := list_hash demo_key) demo_filo demo_ops = Some (f', rs) ∧
    lru_run (get_key := demo_key) 2 [] demo_ops rs ys ∧
    lru (get_key := demo_key) (HH := list_hash demo_key) f' ys ∧ rs = [0; 0; 1; 0; 0]%N.
Proof.
  destruct (hash_filo_refines_lru (HASH0 := list_hash demo_key) demo_key demo_filo []
    demo_ops demo_filo_lru) as (f' & rs & ys & H1 & H2 & H3).
  - split; [by apply (bool_decide_unpack _)|]. intros a Ha. cbn in Ha.
    repeat (apply elem_of_cons in Ha as [->|Ha]; [split_and!; [apply not_elem_of_nil|done|by eexists]|]).
    by apply elem_of_nil in Ha.
  - exists f', rs, ys. split_and!; [exact H1|exact H2|exact H3|].
    vm_compute in H1. by injection H1 as _ <-.
Defined.

(** [clear] empties the cache and initialises the mutex, so a later [resize]
    works; on an object for which [clear] was never called, [resize] locks a
    mutex that does not exist. *)
Lemma resize_needs_clear {K H : Type} `{!HASH K H} (get_key : N → K) `{!HASH_laws K H get_key}
    (size_arg new_size : Z) (fe : bool) (z : H) (mem : gmap N element) :
  0 ≤ size_arg → 0 ≤ new_size →
  resize (new_hash_filo size_arg fe z mem) new_size = None ∧
  ∃ f1 f2, clear (new_hash_filo size_arg fe z mem) false = Some f1 ∧ lru (get_key := get_key) f1 [] ∧
           resize f1 new_size = Some f2 ∧ lru (get_key := get_key) f2 [] ∧ m_size f2 = new_size.
Proof.
  assert (∀ f : hash_filo H, 0 ≤ m_size f → first_link f = NULL → last_link f = NULL →
    cache f = my_hash_init → lru (get_key := get_key) f []) as Hempty.
  { intros f Hm H1 H2 H3. split_and!; [constructor|apply not_elem_of_nil|exact I|done|done| |done].
    by rewrite H3, init_elems. }
  intros Hs Hn. split; [reflexivity|].
  unfold resize, clear, mutex_lock, mutex_unlock. cbn -[foldr]. eexists _, _. split; [reflexivity|].
  cbn -[foldr]. split; [by apply Hempty|]. split; [reflexivity|]. split; [by apply Hempty|reflexivity].
Qed.
End properties.
