(* ===== verification/Bitmap.v ===== *)
(** * Bitmaps: my_bitmap.h and sql_bitmap.h

    [MyBitmap] is the in-line part of MY_BITMAP, a bitmap in an array of bytes;
    [Bitmap64] is the specialisation [Bitmap<64>] in one word, and
    [TableMap] the iterator over the bits of a table map.  A shift by the width
    of the type or more, which C leaves undefined, has no result. *)

From S2P Require Import Prelude ByteOrder.
From Stdlib Require Import ZArith Lia.
From stdpp Require Import base numbers option list sorting.
Open Scope Z_scope.
Open Scope cint_scope.

Module MyBitmap.

(** [bitmap] as bytes; [last_word_ptr] as the number of its word. *)
Record MY_BITMAP := Map {
  bitmap : list Z; last_word_ptr : Z; last_word_mask : Z; n_bits : Z }.

Definition with_bytes (m : MY_BITMAP) (b : list Z) : MY_BITMAP :=
  Map b (last_word_ptr m) (last_word_mask m) (n_bits m).

Definition bitmap_buffer_size (bits : Z) : Z := u32 (u32 (bits + 31) / 32 * 4).
Definition no_bytes_in_map (m : MY_BITMAP) : Z := u32 (n_bits m + 7) / 8.
Definition no_words_in_map (m : MY_BITMAP) : Z := u32 (n_bits m + 31) / 32.
Definition bytes_word_aligned (bytes : Z) : Z := u32 (4 * (u32 (bytes + 3) / 4)).

(** An assignment operator on the byte [bit / 8] of the map. *)
Definition update (m : MY_BITMAP) (bit : Z) (f : Z → Z) : option MY_BITMAP :=
  b ← bitmap m !! Z.to_nat (bit / 8);
  Some (with_bytes m (<[Z.to_nat (bit / 8) := u8 (f b)]> (bitmap m))).

Definition _bitmap_set_bit (m : MY_BITMAP) (bit : Z) : option MY_BITMAP :=
  update m bit (λ b, b .| (1 ≪ (bit .& 7))).
Definition _bitmap_flip_bit (m : MY_BITMAP) (bit : Z) : option MY_BITMAP :=
  update m bit (λ b, b .^ (1 ≪ (bit .& 7))).
Definition _bitmap_clear_bit (m : MY_BITMAP) (bit : Z) : option MY_BITMAP :=
  update m bit (λ b, b .& Z.lnot (1 ≪ (bit .& 7))).
Definition _bitmap_is_set (m : MY_BITMAP) (bit : Z) : option Z :=
  b ← bitmap m !! Z.to_nat (bit / 8); Some (b .& (1 ≪ (bit .& 7))).

(** The functions of a debug build stop at a bit outside of the map. *)
Definition bitmap_set_bit (debug : bool) (m : MY_BITMAP) (bit : Z) : option MY_BITMAP :=
  if debug && negb (bool_decide (bit < n_bits m)) then None else _bitmap_set_bit m bit.
Definition bitmap_flip_bit (debug : bool) (m : MY_BITMAP) (bit : Z) : option MY_BITMAP :=
  if debug && negb (bool_decide (bit < n_bits m)) then None else _bitmap_flip_bit m bit.
Definition bitmap_clear_bit (debug : bool) (m : MY_BITMAP) (bit : Z) : option MY_BITMAP :=
  if debug && negb (bool_decide (bit < n_bits m)) then None else _bitmap_clear_bit m bit.
Definition bitmap_is_set (debug : bool) (m : MY_BITMAP) (bit : Z) : option Z :=
  if debug && negb (bool_decide (bit < n_bits m)) then None else _bitmap_is_set m bit.

Definition last_word (m : MY_BITMAP) : option Z := load_le 4 (bitmap m) (Z.to_nat (4 * last_word_ptr m)).

(** [memcmp] of the words before the last one, then the last words with the
    unused bits masked. *)
Definition bitmap_cmp (m1 m2 : MY_BITMAP) : option bool :=
  let n := Z.to_nat (u32 (4 * u32 (no_words_in_map m1 - 1))) in
  if decide (n ≤ length (bitmap m1) ∧ n ≤ length (bitmap m2))%nat then
    if decide (take n (bitmap m1) ≠ take n (bitmap m2)) then Some false else
    w1 ← last_word m1; w2 ← last_word m2;
    Some (bool_decide (w1 .| last_word_mask m1 = w2 .| last_word_mask m2))
  else None.

(** [memset(map->bitmap, c, 4 * no_words_in_map(map))] *)
Definition fill (m : MY_BITMAP) (c : Z) : option MY_BITMAP :=
  let n := Z.to_nat (4 * no_words_in_map m) in
  if decide (n ≤ length (bitmap m))%nat
  then Some (with_bytes m (replicate n c ++ drop n (bitmap m))) else None.
Definition bitmap_clear_all (m : MY_BITMAP) : option MY_BITMAP := fill m 0.
Definition bitmap_set_all (m : MY_BITMAP) : option MY_BITMAP := fill m 0xFF.

End MyBitmap.

Module TableMap.

Record Table_map_iterator := Iter { bmp : Z; no : Z }.

Definition BITMAP_END : Z := 64.

Definition last_bit : list Z := [32; 0; 1; 0; 2; 0; 1; 0; 3; 0; 1; 0; 2; 0; 1; 0].

(** The loop of [next_bit]: [None] is the return of [BITMAP_END]. *)
Fixpoint skip_loop (fuel : nat) (it : Table_map_iterator) : option (Table_map_iterator * option Z) :=
  match fuel with
  | O => None
  | S fuel =>
      bit ← last_bit !! Z.to_nat (bmp it .& 0xF);
      if decide (bit = 32) then
        let it := Iter (bmp it ≫ 4) (u32 (no it + 4)) in
        if decide (bmp it = 0) then Some (it, None) else skip_loop fuel it
      else Some (it, Some bit)
  end.

(** A 64-bit word has sixteen groups of four bits. *)
Definition next_bit (it : Table_map_iterator) : option (Table_map_iterator * Z) :=
  '(it, bit) ← skip_loop 17 it;
  match bit with
  | None => Some (it, BITMAP_END)
  | Some bit => Some (Iter (bmp it .& u64 (Z.lnot (u64 (1 ≪ bit)))) (no it), u32 (no it + bit))
  end.

End TableMap.

Module Bitmap64.

Definition length : Z := 64.
Definition ones : Z := u64 (Z.lnot 0).

(** [((ulonglong)1) << n] *)
Definition shl1 (n : Z) : option Z := if decide (0 ≤ n < 64) then Some (u64 (1 ≪ n)) else None.

Definition set_all (map : Z) : Z := ones.
Definition clear_all (map : Z) : Z := 0.
Definition set_bit (map n : Z) : option Z := s ← shl1 n; Some (map .| s).
Definition clear_bit (map n : Z) : option Z := s ← shl1 n; Some (map .& u64 (Z.lnot s)).
Definition set_prefix (map n : Z) : option Z :=
  if decide (length ≤ n) then Some (set_all map) else s ← shl1 n; Some (u64 (s - 1)).
Definition init (map : Z) : Z := map.
Definition init_prefix (map prefix_to_set : Z) : option Z := set_prefix map prefix_to_set.
Definition intersect (map map2 : Z) : Z := map .& map2.
Definition intersect_extended (map map2 : Z) : Z := map .& map2.
Definition subtract (map map2 : Z) : Z := map .& u64 (Z.lnot map2).
Definition merge (map map2 : Z) : Z := map .| map2.
Definition is_set (map n : Z) : option bool := s ← shl1 n; Some (bool_decide (map .& s ≠ 0)).
Definition is_prefix (map n : Z) : option bool := s ← shl1 n; Some (bool_decide (map = u64 (s - 1))).
Definition is_clear_all (map : Z) : bool := bool_decide (map = 0).
Definition is_set_all (map : Z) : bool := bool_decide (map = ones).
Definition is_subset (map map2 : Z) : bool := bool_decide (map .& u64 (Z.lnot map2) = 0).
Definition is_overlapping (map map2 : Z) : bool := bool_decide (map .& map2 ≠ 0).
Definition operator_eq (map map2 : Z) : bool := bool_decide (map = map2).
Definition to_ulonglong (map : Z) : Z := map.
Definition Iterator (map2 : Z) : TableMap.Table_map_iterator := TableMap.Iter map2 0.

(** The loop of [bits_set]: [k] iterations from [i]. *)
Fixpoint bits_set_loop (k : nat) (map i res : Z) : Z :=
  match k with
  | O => res
  | S k => bits_set_loop k map (i + 1) (if decide (map .& u64 (1 ≪ i) ≠ 0) then u32 (res + 1) else res)
  end.
Definition bits_set (map : Z) : Z := bits_set_loop 64 map 0 0.

End Bitmap64.

(** ** The byte map *)

Section bytes.
Import MyBitmap.

(** The bit [i] of a byte array. *)
Definition byte_bit (b : list Z) (i : Z) : bool :=
  match b !! Z.to_nat (i / 8) with Some x => Z.testbit x (i mod 8) | None => false end.

Lemma land7 i : 0 ≤ i → i .& 7 = i mod 8.
Proof. intros Hi. apply (Z.land_ones i 3). lia. Qed.

Lemma shl1_bit k j : 0 ≤ k → 0 ≤ j → Z.testbit (1 ≪ k) j = bool_decide (j = k).
Proof.
  intros Hk Hj. rewrite Z.shiftl_1_l. case_bool_decide as E; [subst; by apply Z.pow2_bits_true|].
  apply Z.pow2_bits_false. lia.
Qed.

Lemma land_shl1 x k : 0 ≤ k → (x .& (1 ≪ k) ≠ 0) ↔ Z.testbit x k = true.
Proof.
  intros Hk. split.
  - intros Hn. destruct (Z.testbit x k) eqn:E; [done|]. exfalso. apply Hn. zbits j.
    rewrite Z.land_spec, shl1_bit, Z.bits_0 by lia. case_bool_decide; subst; [by rewrite E|apply andb_false_r].
  - intros Ht Hz. assert (Z.testbit (x .& (1 ≪ k)) k = true) as Hb.
    { rewrite Z.land_spec, shl1_bit, Ht by lia. by rewrite bool_decide_eq_true_2. }
    by rewrite Hz, Z.bits_0 in Hb.
Qed.

Lemma update_bit m bit f g m' i :
  0 ≤ bit → 0 ≤ i →
  (∀ b k, 0 ≤ k < 8 → Z.testbit (f b) k = if decide (k = bit mod 8) then g (Z.testbit b k) else Z.testbit b k) →
  update m bit f = Some m' →
  byte_bit (bitmap m') i = if decide (i = bit) then g (byte_bit (bitmap m) i) else byte_bit (bitmap m) i.
Proof.
  intros Hbit Hi Hf Hu. unfold update in Hu.
  destruct (bitmap m !! Z.to_nat (bit / 8)) as [b|] eqn:Eb; [|done]. cbn in Hu. injection Hu as <-.
  unfold byte_bit. cbn. pose proof (Z.mod_pos_bound i 8 ltac:(lia)).
  destruct (decide (Z.to_nat (bit / 8) = Z.to_nat (i / 8))) as [E|E].
  - rewrite <- E, list_lookup_insert_eq, Eb by (by eapply lookup_lt_Some).
    rewrite wrapu_testbit, bool_decide_eq_true_2 by lia. cbn [andb]. rewrite Hf by lia.
    assert (i / 8 = bit / 8) by (pose proof (Z.div_pos i 8); pose proof (Z.div_pos bit 8); lia).
    pose proof (Z.div_mod i 8 ltac:(lia)). pose proof (Z.div_mod bit 8 ltac:(lia)).
    destruct (decide (i = bit)); destruct (decide (i mod 8 = bit mod 8)); subst; done || lia.
  - rewrite list_lookup_insert_ne by done. rewrite decide_False by congruence. done.
Qed.

Lemma update_some m bit f :
  0 ≤ bit < 8 * Z.of_nat (length (bitmap m)) → is_Some (update m bit f).
Proof.
  intros Hb. unfold update. destruct (lookup_lt_is_Some_2 (bitmap m) (Z.to_nat (bit / 8))) as [b ->].
  - pose proof (Z.div_lt_upper_bound bit 8 (Z.of_nat (length (bitmap m)))). lia.
  - by eexists.
Qed.

Lemma is_set_bit m bit :
  0 ≤ bit → (∃ v, _bitmap_is_set m bit = Some v ∧ v ≠ 0) ↔ byte_bit (bitmap m) bit = true.
Proof.
  intros Hb. unfold _bitmap_is_set, byte_bit. pose proof (Z.mod_pos_bound bit 8 ltac:(lia)).
  destruct (bitmap m !! Z.to_nat (bit / 8)) as [b|]; cbn; [|naive_solver].
  rewrite land7, <- land_shl1 by lia. naive_solver.
Qed.

(** Setting, flipping and clearing a bit of a MY_BITMAP changes this bit as
    named and no other, whatever bit is asked for afterwards; the bit is inside
    of the byte array. *)
Theorem my_bitmap_bit_operations (m : MY_BITMAP) (bit i : Z) :
  0 ≤ bit < n_bits m → n_bits m ≤ 8 * Z.of_nat (length (bitmap m)) → 0 ≤ i →
  ∃ ms mf mc, bitmap_set_bit true m bit = Some ms ∧ bitmap_flip_bit true m bit = Some mf ∧
    bitmap_clear_bit true m bit = Some mc ∧
    ((∃ v, _bitmap_is_set ms i = Some v ∧ v ≠ 0) ↔ i = bit ∨ byte_bit (bitmap m) i = true) ∧
    ((∃ v, _bitmap_is_set mc i = Some v ∧ v ≠ 0) ↔ i ≠ bit ∧ byte_bit (bitmap m) i = true) ∧
    ((∃ v, _bitmap_is_set mf i = Some v ∧ v ≠ 0) ↔ byte_bit (bitmap m) i = bool_decide (i ≠ bit)).
Proof.
  intros Hb Hn Hi. pose proof (Z.mod_pos_bound bit 8 ltac:(lia)) as Hm.
  unfold bitmap_set_bit, bitmap_flip_bit, bitmap_clear_bit. rewrite bool_decide_eq_true_2 by lia. cbn [andb negb].
  destruct (update_some m bit (λ b, b .| (1 ≪ (bit .& 7)))) as [ms Hs]; [lia|].
  destruct (update_some m bit (λ b, b .^ (1 ≪ (bit .& 7)))) as [mf Hf]; [lia|].
  destruct (update_some m bit (λ b, b .& Z.lnot (1 ≪ (bit .& 7)))) as [mc Hc]; [lia|].
  exists ms, mf, mc. split_and!; [done..| | |]; rewrite is_set_bit by done.
  - rewrite (update_bit m bit (λ b, b .| (1 ≪ (bit .& 7))) (λ _, true) ms i); [case_decide; naive_solver|lia|done| |done].
    intros b k Hk. rewrite land7, Z.lor_spec, shl1_bit by lia. case_decide as E.
    + by rewrite (bool_decide_eq_true_2 _ E), orb_true_r.
    + by rewrite (bool_decide_eq_false_2 _ E), orb_false_r.
  - rewrite (update_bit m bit (λ b, b .& Z.lnot (1 ≪ (bit .& 7))) (λ _, false) mc i); [case_decide; naive_solver|lia|done| |done].
    intros b k Hk. rewrite land7, Z.land_spec, Z.lnot_spec, shl1_bit by lia. case_decide as E.
    + by rewrite (bool_decide_eq_true_2 _ E), andb_false_r.
    + by rewrite (bool_decide_eq_false_2 _ E), andb_true_r.
  - rewrite (update_bit m bit (λ b, b .^ (1 ≪ (bit .& 7))) negb mf i); [|lia|done| |done].
    { case_decide; case_bool_decide; destruct (byte_bit (bitmap m) i); naive_solver. }
    intros b k Hk. rewrite land7, Z.lxor_spec, shl1_bit by lia. case_decide as E.
    + by rewrite (bool_decide_eq_true_2 _ E), xorb_true_r.
    + by rewrite (bool_decide_eq_false_2 _ E), xorb_false_r.
Qed.

Definition demo_map : MY_BITMAP := Map [0x81; 0; 0; 0] 0 0xFFFFFC00 10.

Lemma my_bitmap_bit_operations_witness :
  ∃ ms, bitmap_set_bit true demo_map 9 = Some ms ∧
    ((∃ v, _bitmap_is_set ms 9 = Some v ∧ v ≠ 0) ↔ 9 = 9 ∨ byte_bit [0x81; 0; 0; 0] 9 = true).
Proof.
  destruct (my_bitmap_bit_operations demo_map 9 9) as (ms & mf & mc & H1 & _ & _ & H2 & _); [cbn; lia..|].
  exists ms. split; [exact H1|exact H2].
Defined.

Lemma byte_bit_cons b l i :
  0 ≤ i → byte_bit (b :: l) i = if decide (i < 8) then Z.testbit b i else byte_bit l (i - 8).
Proof.
  intros Hi. unfold byte_bit. case_decide as E.
  - rewrite Z.div_small, Z.mod_small by lia. done.
  - replace (Z.to_nat (i / 8)) with (S (Z.to_nat ((i - 8) / 8))).
    + cbn. replace (i mod 8) with ((i - 8) mod 8); [done|].
      replace (i - 8) with (i + (-1) * 8) by lia. apply Z_mod_plus_full.
    + replace i with ((i - 8) + 1 * 8) at 2 by lia. rewrite Z.div_add by lia.
      pose proof (Z.div_pos (i - 8) 8). lia.
Qed.

Lemma testbit_le_val l i : bytes_ok l → 0 ≤ i → Z.testbit (le_val l) i = byte_bit l i.
Proof.
  intros Hl. revert i. induction Hl as [|b l Hb Hl IH]; intros i Hi; [by rewrite Z.bits_0|].
  rewrite byte_bit_cons by done. cbn [le_val]. rewrite Z.mul_comm.
  change 256 with (2 ^ 8). rewrite <- lor_add_shift by (cbn; lia).
  rewrite Z.lor_spec, Z.shiftl_spec by lia. case_decide as E.
  - by rewrite (Z.testbit_neg_r (le_val l)), orb_false_r by lia.
  - rewrite (in_u_testbit_high 8 ltac:(lia) b) by (unfold in_u; cbn; lia). cbn [orb]. apply IH. lia.
Qed.

Lemma bytes_eq_bits l k :
  bytes_ok l → bytes_ok k → length l = length k →
  l = k ↔ ∀ i, 0 ≤ i → byte_bit l i = byte_bit k i.
Proof.
  intros Hl Hk Hlen. split; [by intros ->|]. intros Hbits.
  rewrite <- (le_bytes_val l Hl), <- (le_bytes_val k Hk), Hlen. f_equal. zbits i.
  rewrite !testbit_le_val by done. by apply Hbits.
Qed.

Lemma byte_bit_take n l i :
  0 ≤ i → byte_bit (take n l) i = bool_decide (i < 8 * Z.of_nat n) && byte_bit l i.
Proof.
  intros Hi. unfold byte_bit. pose proof (Z.div_mod i 8 ltac:(lia)). pose proof (Z.mod_pos_bound i 8 ltac:(lia)).
  pose proof (Z.div_pos i 8 Hi ltac:(lia)). case_bool_decide as E.
  - rewrite lookup_take_lt by lia. done.
  - rewrite lookup_take_ge by lia. done.
Qed.

Lemma byte_bit_drop n l i : 0 ≤ i → byte_bit (drop n l) i = byte_bit l (i + 8 * Z.of_nat n).
Proof.
  intros Hi. unfold byte_bit. rewrite lookup_drop.
  replace (i + 8 * Z.of_nat n) with (i + Z.of_nat n * 8) by lia.
  rewrite Z.div_add, Z.mod_add by lia. pose proof (Z.div_pos i 8 Hi ltac:(lia)).
  replace (Z.to_nat (i / 8 + Z.of_nat n)) with (n + Z.to_nat (i / 8))%nat by lia. done.
Qed.

(** What [my_bitmap_init] establishes: a buffer of whole words, the number of the
    last one, and a mask of its bits that the map does not use. *)
Definition map_ok (m : MY_BITMAP) : Prop :=
  0 < n_bits m < 2 ^ 31 ∧ bytes_ok (bitmap m) ∧
  Z.of_nat (length (bitmap m)) = 4 * no_words_in_map m ∧ last_word_ptr m = no_words_in_map m - 1 ∧
  in_u 32 (last_word_mask m) ∧
  ∀ k, 0 ≤ k < 32 → Z.testbit (last_word_mask m) k = bool_decide (n_bits m - 32 * last_word_ptr m ≤ k).

Lemma words_bounds m : map_ok m →
  1 ≤ no_words_in_map m ∧ 32 * (no_words_in_map m - 1) < n_bits m ≤ 32 * no_words_in_map m.
Proof.
  intros (Hn & _). unfold no_words_in_map. rewrite wrapu_small by (unfold in_u; lia).
  pose proof (Z.div_mod (n_bits m + 31) 32 ltac:(lia)). pose proof (Z.mod_pos_bound (n_bits m + 31) 32 ltac:(lia)). lia.
Qed.

Lemma last_word_bits m i :
  map_ok m → 0 ≤ i →
  ∃ w, last_word m = Some w ∧ 0 ≤ w < 2 ^ 32 ∧ Z.testbit w i = byte_bit (bitmap m) (i + 32 * (no_words_in_map m - 1)).
Proof.
  intros Hok Hi. pose proof (words_bounds m Hok) as [Hw _]. pose proof Hok as (Hn & Hb & Hlen & Hptr & _).
  unfold last_word, load_le. rewrite decide_True by lia. eexists. split; [done|].
  assert (take 4 (drop (Z.to_nat (4 * last_word_ptr m)) (bitmap m)) = drop (Z.to_nat (4 * last_word_ptr m)) (bitmap m)) as ->.
  { apply take_ge. rewrite length_drop. lia. }
  assert (bytes_ok (drop (Z.to_nat (4 * last_word_ptr m)) (bitmap m))) as Hd by by apply Forall_drop.
  split.
  - pose proof (le_val_bound _ Hd) as Hbd. rewrite length_drop in Hbd.
    replace (length (bitmap m) - Z.to_nat (4 * last_word_ptr m))%nat with 4%nat in Hbd by lia. exact Hbd.
  - rewrite testbit_le_val, byte_bit_drop by done. f_equal. lia.
Qed.

(** [bitmap_cmp] of two maps of the same size says whether they have the
    same bits below [n_bits]: the bits of the last word that the map does not
    use do not count. *)
Theorem bitmap_cmp_same_bits (m1 m2 : MY_BITMAP) :
  map_ok m1 → map_ok m2 → n_bits m1 = n_bits m2 →
  ∃ r, bitmap_cmp m1 m2 = Some r ∧
    (r = true ↔ ∀ i, 0 ≤ i < n_bits m1 → byte_bit (bitmap m1) i = byte_bit (bitmap m2) i).
Proof.
  intros Hok1 Hok2 Hn. pose proof (words_bounds m1 Hok1) as [Hw Hwb].
  assert (no_words_in_map m2 = no_words_in_map m1) as Ew by (unfold no_words_in_map; by rewrite Hn).
  pose proof Hok1 as (Hn1 & Hb1 & Hlen1 & Hptr1 & Hm1 & Hmask1).
  pose proof Hok2 as (_ & Hb2 & Hlen2 & Hptr2 & Hm2 & Hmask2). rewrite Ew in *.
  unfold bitmap_cmp. rewrite (wrapu_small 32 (no_words_in_map m1 - 1)) by (unfold in_u; lia).
  rewrite wrapu_small by (unfold in_u; lia). set (n := Z.to_nat (4 * (no_words_in_map m1 - 1))).
  rewrite decide_True by lia.
  assert (∀ i, 0 ≤ i → take n (bitmap m1) = take n (bitmap m2) → i < 8 * Z.of_nat n →
    byte_bit (bitmap m1) i = byte_bit (bitmap m2) i) as Hlow.
  { intros i Hi E Hlt. apply (f_equal (λ l, byte_bit l i)) in E. rewrite !byte_bit_take in E by done.
    rewrite bool_decide_eq_true_2 in E by done. exact E. }
  case_decide as E.
  - exists false. split; [done|]. split; [done|]. intros Hall. exfalso. apply E.
    apply bytes_eq_bits; [by apply Forall_take..|rewrite !length_take; lia|]. intros i Hi.
    rewrite !byte_bit_take by done. case_bool_decide; [|done]. apply Hall. lia.
  -
    destruct (last_word_bits m1 0 Hok1 ltac:(lia)) as (w1 & E1 & Hr1 & _).
    destruct (last_word_bits m2 0 Hok2 ltac:(lia)) as (w2 & E2 & Hr2 & _).
    rewrite E1, E2. cbn [mbind option_bind]. eexists. split; [done|]. rewrite bool_decide_eq_true.
    assert (∀ i, 0 ≤ i → Z.testbit w1 i = byte_bit (bitmap m1) (i + 32 * (no_words_in_map m1 - 1)) ∧
                         Z.testbit w2 i = byte_bit (bitmap m2) (i + 32 * (no_words_in_map m1 - 1))) as Hbits.
    { intros i Hi. destruct (last_word_bits m1 i Hok1 Hi) as (w1' & E1' & _ & <-).
      destruct (last_word_bits m2 i Hok2 Hi) as (w2' & E2' & _ & Hb). rewrite Ew in Hb. rewrite <- Hb.
      split; congruence. }
    split.
    + intros Heq i Hi. destruct (decide (i < 8 * Z.of_nat n)) as [Hlt|Hge]; [by apply Hlow; [lia|..]|].
      set (k := i - 32 * (no_words_in_map m1 - 1)). replace i with (k + 32 * (no_words_in_map m1 - 1)) by lia.
      destruct (Hbits k ltac:(lia)) as [<- <-]. apply (f_equal (λ z, Z.testbit z k)) in Heq.
      rewrite !Z.lor_spec, Hmask1, Hmask2, !bool_decide_eq_false_2, !orb_false_r in Heq by lia. done.
    + intros Hall. zbits k. rewrite !Z.lor_spec. destruct (decide (k < 32)) as [Hk|Hk].
      * rewrite Hmask1, Hmask2, Hptr1, Hptr2, <- Hn by lia. case_bool_decide as Hc; [by rewrite !orb_true_r|].
        destruct (Hbits k ltac:(lia)) as [-> ->]. rewrite Hall by lia. done.
      * rewrite !(in_u_testbit_high 32 ltac:(lia)) by (done || lia). done.
Qed.

Lemma demo_map_ok b :
  bytes_ok b → length b = 4%nat → map_ok (Map b 0 0xFFFFFC00 10).
Proof.
  intros Hb Hlen. unfold map_ok, no_words_in_map. cbn [n_bits bitmap last_word_ptr last_word_mask]. rewrite Hlen.
  split; [lia|]. split; [done|]. split; [done|]. split; [done|]. split; [unfold in_u; lia|]. intros k Hk.
  rewrite <- (Z2Nat.id k) by lia. assert (Z.to_nat k < 32)%nat as Hj by lia. revert Hj.
  generalize (Z.to_nat k). intros j Hj. do 32 (destruct j as [|j]; [done|]). lia.
Qed.

Lemma bitmap_cmp_same_bits_witness :
  ∃ r, bitmap_cmp demo_map (Map [0x81; 0xFC; 1; 2] 0 0xFFFFFC00 10) = Some r ∧
    (r = true ↔ ∀ i, 0 ≤ i < 10 → byte_bit [0x81; 0; 0; 0] i = byte_bit [0x81; 0xFC; 1; 2] i).
Proof.
  apply (bitmap_cmp_same_bits demo_map (Map [0x81; 0xFC; 1; 2] 0 0xFFFFFC00 10));
    [apply demo_map_ok; [|reflexivity] | apply demo_map_ok; [|reflexivity] | reflexivity].
  all: unfold bytes_ok; rewrite !Forall_cons, Forall_nil; lia.
Defined.
End bytes.

(** ** The iterator over a table map *)

Section iterator.
Import TableMap.

(** The bits an iterator has still to return. *)
Definition pending (it : Table_map_iterator) (i : Z) : Prop := no it ≤ i ∧ Z.testbit (bmp it) (i - no it) = true.

Definition it_ok (it : Table_map_iterator) : Prop :=
  0 ≤ no it ∧ 0 ≤ bmp it ∧ (bmp it = 0 ∨ no it ≤ 63 ∧ bmp it < 2 ^ (64 - no it)).

Lemma low_nibble b : 0 ≤ b → b .& 0xF = b mod 16.
Proof. intros Hb. apply (Z.land_ones b 4). lia. Qed.

(** The table gives the lowest bit of a group of four, and 32 for none. *)
Lemma last_bit_spec b :
  0 ≤ b →
  ∃ bit, last_bit !! Z.to_nat (b .& 0xF) = Some bit ∧
    (bit = 32 ∧ b mod 16 = 0 ∨
     0 ≤ bit < 4 ∧ Z.testbit b bit = true ∧ ∀ j, 0 ≤ j < bit → Z.testbit b j = false).
Proof.
  intros Hb. rewrite low_nibble by done. pose proof (Z.mod_pos_bound b 16 ltac:(lia)) as Hr.
  assert (∀ j, 0 ≤ j < 4 → Z.testbit b j = Z.testbit (b mod 16) j) as Hbits.
  { intros j Hj. change 16 with (2 ^ 4). by rewrite Z.mod_pow2_bits_low by lia. }
  assert (∃ n : nat, (n < 16)%nat ∧ b mod 16 = Z.of_nat n) as (n & Hn & En) by (exists (Z.to_nat (b mod 16)); lia).
  rewrite En in *. rewrite Nat2Z.id. clear Hr En.
  do 16 (destruct n as [|n]; [eexists; split; [reflexivity|];
    first [left; split; [reflexivity|reflexivity]
          |right; split; [lia|]; split; [rewrite Hbits by lia; reflexivity|];
           intros j Hj; rewrite Hbits by lia; assert (j = 0 ∨ j = 1 ∨ j = 2) as [->| [->| ->]] by lia; first [reflexivity|lia]]|]).
  lia.
Qed.

Lemma skip_loop_spec fuel : ∀ it,
  it_ok it → bmp it ≠ 0 → (Z.to_nat (64 - no it) < 4 * fuel)%nat →
  ∃ it' bit, skip_loop fuel it = Some (it', Some bit) ∧ it_ok it' ∧ 0 ≤ bit < 4 ∧
    Z.testbit (bmp it') bit = true ∧ (∀ j, 0 ≤ j < bit → Z.testbit (bmp it') j = false) ∧
    no it ≤ no it' ∧ (∀ i, pending it' i ↔ pending it i).
Proof.
  induction fuel as [|fuel IH]; intros it Hok Hne Hf; [lia|]. cbn [skip_loop].
  pose proof Hok as (Hno & Hb & [?|[Hno60 Hlt]]); [done|].
  destruct (last_bit_spec (bmp it) Hb) as (bit & -> & Hcase). cbn [mbind option_bind].
  destruct Hcase as [[-> Hmod]|(Hbit & Ht & Hlow)].
  - rewrite decide_True by done. cbn [bmp no]. rewrite wrapu_small by (unfold in_u; lia).
    assert (bmp it ≫ 4 = bmp it / 16) as Es by (by rewrite Z.shiftr_div_pow2 by lia).
    pose proof (Z.div_mod (bmp it) 16 ltac:(lia)) as Hdm. rewrite Es.
    rewrite decide_False by lia.
    assert (no it < 60) as H60.
    { destruct (decide (no it < 60)); [done|]. assert (2 ^ (64 - no it) ≤ 2 ^ 4) by (apply Z.pow_le_mono_r; lia).
      assert (bmp it / 16 = 0) by (apply Z.div_small; lia). lia. }
    assert (∀ i, pending (Iter (bmp it / 16) (no it + 4)) i ↔ pending it i) as Hpend.
    { intros i. unfold pending. cbn [bmp no]. rewrite <- Es.
      destruct (decide (no it + 4 ≤ i)) as [Hge|Hlt4].
      - rewrite Z.shiftr_spec by lia. replace (i - (no it + 4) + 4) with (i - no it) by lia. intuition lia.
      - split; [lia|]. intros [H1 H2]. exfalso. assert (0 ≤ i - no it < 4) as Hj by lia.
        assert (Z.testbit (bmp it) (i - no it) = Z.testbit (bmp it mod 16) (i - no it)) as Hb4.
        { change 16 with (2 ^ 4). by rewrite Z.mod_pow2_bits_low by lia. }
        rewrite Hb4, Hmod, Z.bits_0 in H2. done. }
    destruct (IH (Iter (bmp it / 16) (no it + 4))) as (it' & bit & -> & Hok' & H1 & H2 & H3 & H4 & H5).
    + split; [cbn [no]; lia|]. split; [cbn [bmp]; lia|]. right. cbn [bmp no]. split; [lia|].
      apply Z.div_lt_upper_bound; [lia|]. change 16 with (2 ^ 4). rewrite <- Z.pow_add_r by lia.
      by replace (4 + (64 - (no it + 4))) with (64 - no it) by lia.
    + cbn [bmp]. lia.
    + cbn [no]. lia.
    + exists it', bit. do 5 (split; [done|]). split; [cbn [no] in H4; lia|].
      intros i. by rewrite H5, Hpend.
  - rewrite decide_False by lia. exists it, bit. do 5 (split; [done|]). split; [lia|done].
Qed.

Lemma skip_loop_zero fuel it :
  bmp it = 0 → skip_loop (S fuel) it = Some (Iter 0 (u32 (no it + 4)), None).
Proof. intros E. cbn [skip_loop]. by rewrite E. Qed.

Lemma next_bit_spec it :
  it_ok it →
  ∃ it' r, next_bit it = Some (it', r) ∧ it_ok it' ∧
    (r = BITMAP_END ∧ (∀ i, ¬ pending it i) ∧ bmp it' = 0 ∨
     0 ≤ r < 64 ∧ pending it r ∧ (∀ i, pending it i → r ≤ i) ∧ (∀ i, pending it' i ↔ pending it i ∧ i ≠ r)).
Proof.
  intros Hok. unfold next_bit. destruct (decide (bmp it = 0)) as [E|E].
  - rewrite (skip_loop_zero 16 it E). cbn [mbind option_bind]. eexists _, _. split; [done|]. split.
    + split; [|split; [done|by left]]. apply wrapu_range. lia.
    + left. split_and!; [done| |done]. intros i [_ H]. by rewrite E, Z.bits_0 in H.
  - destruct (skip_loop_spec 17 it Hok E) as (it' & bit & -> & Hok' & Hbit & Ht & Hlow & Hge & Hpend).
    { destruct Hok as (Hno & _). lia. }
    cbn [mbind option_bind]. pose proof Hok' as (Hno' & Hb' & [Hz|[H60 Hlt]]); [by rewrite Hz, Z.bits_0 in Ht|].
    rewrite (wrapu_small 32 (no it' + bit)) by (unfold in_u; lia).
    assert (∀ j, 0 ≤ j < 64 → Z.testbit (bmp it' .& u64 (Z.lnot (u64 (1 ≪ bit)))) j =
              Z.testbit (bmp it') j && bool_decide (j ≠ bit)) as Hclr.
    { intros j Hj. rewrite Z.land_spec, wrapu_testbit, bool_decide_eq_true_2, Z.lnot_spec, wrapu_testbit by lia.
      rewrite bool_decide_eq_true_2, shl1_bit by lia. cbn [andb]. f_equal.
      destruct (decide (j = bit)); [by rewrite bool_decide_eq_true_2, bool_decide_eq_false_2 by auto|].
      by rewrite bool_decide_eq_false_2, bool_decide_eq_true_2. }
    assert (0 ≤ bmp it' .& u64 (Z.lnot (u64 (1 ≪ bit))) < 2 ^ (64 - no it')) as Hrange.
    { apply (in_u_land (64 - no it')); [lia|unfold in_u; lia|]. apply wrapu_range. lia. }
    eexists _, _. split; [done|]. split.
    { split; [done|]. split; [cbn [bmp]; lia|]. right. cbn [bmp no]. lia. }
    assert (∀ j, 64 ≤ j → Z.testbit (bmp it') j = false) as Hhigh.
    { intros j Hj. apply (in_u_testbit_high (64 - no it')); [lia|unfold in_u; lia|lia]. }
    right. assert (no it' + bit < 64) as Hr.
    { destruct (decide (no it' + bit < 64)); [done|]. 
      rewrite (in_u_testbit_high (64 - no it') ltac:(lia)) in Ht; [done|unfold in_u; lia|lia]. }
    split; [lia|]. split; [|split].
    + rewrite <- Hpend. split; [lia|]. by replace (no it' + bit - no it') with bit by lia.
    + intros i Hi. apply Hpend in Hi as [Hi1 Hi2]. destruct (decide (no it' + bit ≤ i)); [done|].
      rewrite Hlow in Hi2 by lia. done.
    + intros i. rewrite <- Hpend. unfold pending. cbn [bmp no].
      destruct (decide (no it' ≤ i)) as [Hi|Hi]; [|intuition lia].
      destruct (decide (i - no it' < 64)) as [Hj|Hj].
      * rewrite Hclr by lia. rewrite andb_true_iff, bool_decide_eq_true. intuition lia.
      * rewrite Z.land_spec, (Hhigh (i - no it')) by lia. cbn. intuition done.
Qed.

(** All the bits an iterator returns, up to [BITMAP_END]. *)
Fixpoint drain_bits (fuel : nat) (it : Table_map_iterator) : option (list Z) :=
  match fuel with
  | O => None
  | S fuel =>
      '(it, r) ← next_bit it;
      if decide (r = BITMAP_END) then Some [] else rs ← drain_bits fuel it; Some (r :: rs)
  end.

Lemma drain_bits_spec fuel : ∀ it lb,
  it_ok it → (∀ i, pending it i → lb ≤ i) → 0 ≤ lb ≤ 64 → (Z.to_nat (64 - lb) < fuel)%nat →
  ∃ rs, drain_bits fuel it = Some rs ∧ StronglySorted Z.lt rs ∧ ∀ i, i ∈ rs ↔ pending it i.
Proof.
  induction fuel as [|fuel IH]; intros it lb Hok Hlb Hr Hf; [lia|]. cbn [drain_bits].
  destruct (next_bit_spec it Hok) as (it' & r & -> & Hok' & [(-> & Hnone & _)|(Hr64 & Hin & Hmin & Hrest)]);
    cbn [mbind option_bind].
  - rewrite decide_True by done. exists []. split_and!; [done|constructor|]. intros i.
    split; [by intros ?%elem_of_nil|]. intros Hp. by destruct (Hnone i).
  - rewrite decide_False by (unfold BITMAP_END; lia).
    destruct (IH it' (r + 1)) as (rs & -> & Hs & Hrs); [done| |lia|specialize (Hlb r Hin); lia|].
    { intros i Hi. apply Hrest in Hi as [Hi Hne]. specialize (Hmin i Hi). lia. }
    cbn [mbind option_bind]. exists (r :: rs). split_and!; [done| |].
    + constructor; [done|]. apply Forall_forall. intros i Hi. apply Hrs, Hrest in Hi as [Hi Hne].
      specialize (Hmin i Hi). lia.
    + intros i. rewrite elem_of_cons, Hrs, Hrest. destruct (decide (i = r)); naive_solver.
Qed.

Lemma Iterator_ok (map : Z) : in_u 64 map → it_ok (Bitmap64.Iterator map).
Proof. intros [H1 H2]. split; [done|]. split; [done|]. right. split; [done|]. exact H2. Qed.

Lemma Iterator_pending (map i : Z) :
  in_u 64 map → pending (Bitmap64.Iterator map) i ↔ 0 ≤ i < 64 ∧ Z.testbit map i = true.
Proof.
  intros Hm. unfold pending. cbn. rewrite Z.sub_0_r. destruct (decide (i < 64)) as [Hi|Hi]; [intuition lia|].
  rewrite (in_u_testbit_high 64 ltac:(lia) map) by (done || lia). intuition done || lia.
Qed.
End iterator.

(** ** Bitmap<64> *)

Section word.
Import Bitmap64.

Lemma shl1_some n : 0 ≤ n < 64 → shl1 n = Some (1 ≪ n).
Proof.
  intros Hn. unfold shl1. rewrite decide_True by done. f_equal. rewrite Z.shiftl_1_l. apply wrapu_small.
  split; [apply Z.pow_nonneg; lia|]. apply Z.pow_lt_mono_r; lia.
Qed.

Lemma word_is_set map n : 0 ≤ n < 64 → is_set map n = Some (Z.testbit map n).
Proof.
  intros Hn. unfold is_set. rewrite shl1_some by done. cbn. f_equal. apply eq_bool_prop_intro.
  rewrite bool_decide_spec, land_shl1 by lia. by destruct (Z.testbit map n).
Qed.

Lemma lnot_bit z i : 0 ≤ i < 64 → Z.testbit (u64 (Z.lnot z)) i = negb (Z.testbit z i).
Proof. intros Hi. rewrite wrapu_testbit, bool_decide_eq_true_2, Z.lnot_spec by lia. done. Qed.

Lemma prefix_bit n i : 0 ≤ n < 64 → 0 ≤ i < 64 → Z.testbit (u64 ((1 ≪ n) - 1)) i = bool_decide (i < n).
Proof.
  intros Hn Hi. rewrite wrapu_testbit, (bool_decide_eq_true_2 (i < 64)) by lia. cbn [andb].
  replace ((1 ≪ n) - 1) with (Z.ones n) by (rewrite Z.ones_equiv, Z.shiftl_1_l; lia).
  case_bool_decide; [apply Z.ones_spec_low; lia|apply Z.ones_spec_high; lia].
Qed.

Lemma bits_set_loop_spec k : ∀ map i res,
  0 ≤ i → i + Z.of_nat k ≤ 64 → 0 ≤ res ≤ i →
  bits_set_loop k map i res = res + Z.of_nat (Datatypes.length (filter (λ j, Z.testbit map j = true) (seqZ i (Z.of_nat k)))).
Proof.
  induction k as [|k IH]; intros map i res Hi Hk Hr; cbn [bits_set_loop]; [rewrite seqZ_nil by lia; cbn; lia|].
  assert (u64 (1 ≪ i) = 1 ≪ i) as -> by (pose proof (shl1_some i ltac:(lia)) as E; unfold shl1 in E;
    rewrite decide_True in E by lia; by injection E).
  rewrite seqZ_cons by lia. rewrite filter_cons.
  replace (Z.pred (Z.of_nat (S k))) with (Z.of_nat k) by lia. replace (Z.succ i) with (i + 1) by lia.
  pose proof (land_shl1 map i Hi) as Hl. destruct (decide (map .& (1 ≪ i) ≠ 0)) as [E|E].
  - rewrite decide_True by (by apply Hl). rewrite wrapu_small by (unfold in_u; lia).
    rewrite IH by lia. cbn [Datatypes.length]. lia.
  - rewrite decide_False by (intros X; apply E; by apply Hl). rewrite IH by lia. lia.
Qed.

Lemma sorted_bits_length (map : Z) (rs : list Z) :
  StronglySorted Z.lt rs → (∀ i, i ∈ rs ↔ 0 ≤ i < 64 ∧ Z.testbit map i = true) →
  Datatypes.length rs = Datatypes.length (filter (λ j, Z.testbit map j = true) (seqZ 0 64)).
Proof.
  intros Hs Hin. apply Permutation_length, NoDup_Permutation.
  - clear Hin. induction Hs as [|x xs Hs IH Hx]; [constructor|]. constructor; [|done].
    intros X. rewrite Forall_forall in Hx. specialize (Hx x X). lia.
  - apply NoDup_filter, NoDup_seqZ.
  - intros i. rewrite Hin, list_elem_of_filter, elem_of_seqZ. naive_solver.
Qed.

(** The iterator over a 64-bit map returns the set bits in increasing order,
    each once, and then [BITMAP_END]; [bits_set] is their number. *)
Theorem table_map_iterator_enumerates (map : Z) :
  in_u 64 map →
  ∃ rs, drain_bits 65 (Iterator map) = Some rs ∧ StronglySorted Z.lt rs ∧
    (∀ i, i ∈ rs ↔ 0 ≤ i < 64 ∧ Z.testbit map i = true) ∧ bits_set map = Z.of_nat (Datatypes.length rs).
Proof.
  intros Hm. destruct (drain_bits_spec 65 (Iterator map) 0) as (rs & Hrun & Hs & Hin);
    [by apply Iterator_ok|intros i Hi; apply Iterator_pending in Hi; [lia|done]|lia|lia|].
  assert (∀ i, i ∈ rs ↔ 0 ≤ i < 64 ∧ Z.testbit map i = true) as Hin'.
  { intros i. by rewrite Hin, Iterator_pending. }
  exists rs. split_and!; [done..|]. unfold bits_set. rewrite bits_set_loop_spec by lia.
  by rewrite (sorted_bits_length map rs Hs Hin').
Qed.

Lemma table_map_iterator_enumerates_witness :
  ∃ rs, drain_bits 65 (Iterator 0x8000000000000011) = Some rs ∧ rs = [0; 4; 63] ∧
    bits_set 0x8000000000000011 = Z.of_nat (Datatypes.length rs).
Proof.
  destruct (table_map_iterator_enumerates 0x8000000000000011) as (rs & H1 & _ & _ & H2); [unfold in_u; lia|].
  exists rs. split; [exact H1|]. split; [|exact H2]. vm_compute in H1. by injection H1 as <-.
Defined.

(** The operations of [Bitmap<64>] are those of sets of bits below 64: what
    [is_set] says afterwards is what it said before, with the bit added, removed
    or combined; the comparisons are inclusion, overlap and equality. *)
Theorem bitmap64_is_a_set (map map2 n i : Z) :
  in_u 64 map → in_u 64 map2 → 0 ≤ n < 64 → 0 ≤ i < 64 →
  (∃ a, set_bit map n = Some a ∧ is_set a i = Some (bool_decide (i = n) || Z.testbit map i)) ∧
  (∃ a, clear_bit map n = Some a ∧ is_set a i = Some (bool_decide (i ≠ n) && Z.testbit map i)) ∧
  (∃ a, set_prefix map n = Some a ∧ is_set a i = Some (bool_decide (i < n)) ∧ is_prefix a n = Some true) ∧
  is_set (set_all map) i = Some true ∧ is_set (clear_all map) i = Some false ∧
  is_set (intersect map map2) i = Some (Z.testbit map i && Z.testbit map2 i) ∧
  is_set (subtract map map2) i = Some (Z.testbit map i && negb (Z.testbit map2 i)) ∧
  is_set (merge map map2) i = Some (Z.testbit map i || Z.testbit map2 i) ∧
  (is_subset map map2 = true ↔ ∀ j, 0 ≤ j < 64 → Z.testbit map j = true → Z.testbit map2 j = true) ∧
  (is_overlapping map map2 = true ↔ ∃ j, 0 ≤ j < 64 ∧ Z.testbit map j = true ∧ Z.testbit map2 j = true).
Proof.
  intros Hm Hm2 Hn Hi. unfold set_bit, clear_bit, set_prefix, is_prefix.
  rewrite (decide_False (P := length ≤ n)) by (unfold length; lia). rewrite !shl1_some by done. cbn [mbind option_bind].
  assert (∀ x j, in_u 64 x → Z.testbit x j = true → 0 ≤ j < 64) as Hrange.
  { intros x j Hx Hj. split; [destruct (decide (0 ≤ j)); [done|]; rewrite Z.testbit_neg_r in Hj by lia; done|].
    destruct (decide (j < 64)); [done|]. rewrite (in_u_testbit_high 64 ltac:(lia) x) in Hj by (done || lia). done. }
  split_and!.
  - eexists. split; [done|]. rewrite word_is_set, Z.lor_spec, shl1_bit, orb_comm by lia. done.
  - eexists. split; [done|]. rewrite word_is_set, Z.land_spec, lnot_bit, shl1_bit, andb_comm by lia.
    by rewrite <- bool_decide_not.
  - eexists. split; [done|]. rewrite word_is_set, prefix_bit by done. split; [done|]. by rewrite bool_decide_eq_true_2.
  - rewrite word_is_set by done. unfold set_all, ones. by rewrite lnot_bit, Z.bits_0 by done.
  - rewrite word_is_set by done. unfold clear_all. by rewrite Z.bits_0.
  - rewrite word_is_set by done. unfold intersect. by rewrite Z.land_spec.
  - rewrite word_is_set by done. unfold subtract. by rewrite Z.land_spec, lnot_bit.
  - rewrite word_is_set by done. unfold merge. by rewrite Z.lor_spec.
  - unfold is_subset. rewrite bool_decide_eq_true. split.
    + intros E j Hj H1. apply (f_equal (λ z, Z.testbit z j)) in E. rewrite Z.land_spec, lnot_bit, H1, Z.bits_0 in E by done.
      by destruct (Z.testbit map2 j).
    + intros Hsub. zbits j. rewrite Z.land_spec, Z.bits_0. destruct (Z.testbit map j) eqn:E; [|done].
      pose proof (Hrange map j Hm E) as Hj. rewrite lnot_bit, (Hsub j Hj E) by done. done.
  - unfold is_overlapping. rewrite bool_decide_eq_true. split.
    + intros Hne. destruct (decide (Forall (λ j, Z.testbit (map .& map2) j = false) (seqZ 0 64))) as [Hall|Hall].
      * exfalso. apply Hne. zbits j. rewrite Z.bits_0. destruct (Z.testbit (map .& map2) j) eqn:E; [|done].
        rewrite Forall_forall in Hall. rewrite <- E. apply Hall, elem_of_seqZ.
        rewrite Z.land_spec in E. apply andb_prop in E as [E _]. apply (Hrange map j Hm) in E. lia.
      * apply not_Forall_Exists in Hall; [|intros j; apply _]. apply Exists_exists in Hall as (j & Hj & Hb).
        apply elem_of_seqZ in Hj. unfold compose in Hb. rewrite Z.land_spec in Hb. exists j.
        destruct (Z.testbit map j), (Z.testbit map2 j); done || (split_and!; [lia..|done|done]).
    + intros (j & Hj & H1 & H2) E. apply (f_equal (λ z, Z.testbit z j)) in E.
      by rewrite Z.land_spec, H1, H2, Z.bits_0 in E.
Qed.

Lemma bitmap64_is_a_set_witness :
  (∃ a, set_bit 5 1 = Some a ∧ is_set a 2 = Some true) ∧ is_subset 1 5 = true ∧ is_overlapping 5 4 = true.
Proof.
  split; [|split].
  - destruct (bitmap64_is_a_set 5 0 1 2) as [H _]; [unfold in_u; lia..|]. exact H.
  - destruct (bitmap64_is_a_set 1 5 0 0) as (_ & _ & _ & _ & _ & _ & _ & _ & H9 & _); [unfold in_u; lia..|].
    apply H9. intros j Hj H.
    destruct (decide (j = 0)) as [->|]; [reflexivity|]. rewrite Z.bits_above_log2 in H by (cbn; lia). done.
  - destruct (bitmap64_is_a_set 5 4 0 0) as (_ & _ & _ & _ & _ & _ & _ & _ & _ & H10); [unfold in_u; lia..|].
    apply H10. exists 2. split_and!; [lia|lia|reflexivity|reflexivity].
Defined.
End word.
