(* ===== verification/Semisync.v ===== *)
(** * The node allocator of semi-synchronous replication (semisync_master.h)

    [Tranx_node_allocator] hands out the nodes of the list of active
    transactions from blocks of 16 nodes.  The blocks are kept in a singly
    linked table and rotated when their nodes are given back.  A pointer is an
    address; a block is an object at its address that exists from [my_malloc] to
    [my_free].  An access to an object that does not exist has no result, and
    neither has freeing it. *)

From S2P Require Import Prelude.
From Stdlib Require Import ZArith Lia.
From stdpp Require Import base numbers gmap fin_maps option list.
Open Scope Z_scope.
Open Scope cint_scope.

Module Tranx.

Abbreviation NULL := 0%N.

Definition BLOCK_TRANX_NODES : Z := 16.

(** [log_name] is the array of bytes. *)
Record Tranx_node := Node { log_name : list Z; log_pos : Z; node_next : N; hash_next : N }.

Record Block := Blk { next : N; nodes : list Tranx_node }.

(** [sizeof(Tranx_node)] with [FN_REFLEN] of 512, and the address of
    [block->nodes[i]], which follow the 8 bytes of [next]. *)
Definition sizeof_node : N := 536.
Definition node_ptr (block i : N) : N := (block + 8 + sizeof_node * i)%N.

(** The data members and the blocks that exist. *)
Record allocator := Allocator {
  reserved_blocks : Z; first_block : N; last_block : N; current_block : N;
  last_node : Z; block_num : Z; heap : gmap N Block }.

Definition new_allocator (reserved_nodes : Z) : allocator :=
  Allocator (u32 (reserved_nodes / BLOCK_TRANX_NODES +
                  (if decide (1 < reserved_nodes mod BLOCK_TRANX_NODES) then 2 else 1)))
    NULL NULL NULL (-1) 0 ∅.

Definition set_ends (s : allocator) (f l : N) : allocator :=
  Allocator (reserved_blocks s) f l (current_block s) (last_node s) (block_num s) (heap s).
Definition set_current (s : allocator) (c : N) (n : Z) : allocator :=
  Allocator (reserved_blocks s) (first_block s) (last_block s) c n (block_num s) (heap s).
Definition set_heap (s : allocator) (num : Z) (h : gmap N Block) : allocator :=
  Allocator (reserved_blocks s) (first_block s) (last_block s) (current_block s) (last_node s) num h.

(** [block->next= v]. *)
Definition set_next (s : allocator) (block v : N) : option allocator :=
  b ← heap s !! block;
  Some (set_heap s (block_num s) (<[block := Blk v (nodes b)]> (heap s))).

(** [m]: what [my_malloc] returns, an address and the indeterminate contents, or
    null. *)
Definition allocate_block (s : allocator) (m : option (N * list Tranx_node))
    : option (allocator * Z) :=
  match m with
  | Some (block, contents) =>
      let s := set_heap s (block_num s) (<[block := Blk NULL contents]> (heap s)) in
      s ← (if decide (first_block s = NULL) then Some (set_ends s block (last_block s))
           else set_next s (last_block s) block);
      let s := set_ends s (first_block s) block in
      let s := set_current s block (last_node s) in
      Some (set_heap s (u32 (block_num s + 1)) (heap s), 0)
  | None => Some (s, 1)
  end.

Definition free_block (s : allocator) (block : N) : option allocator :=
  _ ← heap s !! block;
  Some (set_heap s (u32 (block_num s - 1)) (delete block (heap s))).

(** The assignments to [*trx_node]. *)
Definition init_node (n : Tranx_node) : Tranx_node := Node (<[0%nat := 0]> (log_name n)) 0 NULL NULL.

(** [trx_node= &(current_block->nodes[++last_node])] and the assignments. *)
Definition take_node (s : allocator) : option (allocator * N) :=
  let s := set_current s (current_block s) (last_node s + 1) in
  c ← heap s !! current_block s;
  n ← (if decide (0 ≤ last_node s) then nodes c !! Z.to_nat (last_node s) else None);
  let c := Blk (next c) (<[Z.to_nat (last_node s) := init_node n]> (nodes c)) in
  Some (set_heap s (block_num s) (<[current_block s := c]> (heap s)),
        node_ptr (current_block s) (Z.to_N (last_node s))).

Definition allocate_node (s : allocator) (m : option (N * list Tranx_node)) : option (allocator * N) :=
  let block := current_block s in
  s ← (if decide (last_node s = BLOCK_TRANX_NODES - 1) then
         c ← heap s !! current_block s; Some (set_current s (next c) (-1))
       else Some s);
  '(s, err) ← (if decide (current_block s = NULL) then allocate_block s m else Some (s, 0));
  if decide (err ≠ 0) then
    let s := set_current s block (last_node s) in
    Some (if decide (current_block s ≠ NULL)
          then set_current s (current_block s) (BLOCK_TRANX_NODES - 1) else s, NULL)
  else take_node s.

(** [while (block_num > reserved_blocks && block != NULL)]; with the block at
    which it stops. *)
Fixpoint free_loop (fuel : nat) (s : allocator) (block : N) : option (allocator * N) :=
  match fuel with
  | O => None
  | S fuel =>
      if decide (reserved_blocks s < block_num s ∧ block ≠ NULL) then
        b ← heap s !! block;
        let nxt := next b in
        s ← free_block s block;
        free_loop fuel s nxt
      else Some (s, block)
  end.

Definition free_blocks (s : allocator) : option allocator :=
  if decide (current_block s = NULL) then Some s else
  c ← heap s !! current_block s;
  if decide (next c = NULL) then Some s else
  n ← heap s !! next c;
  '(s, block) ← free_loop (S (size (heap s))) s (next n);
  c ← heap s !! current_block s;
  s ← set_next s (next c) block;
  Some (if decide (block = NULL) then set_ends s (first_block s) (next c) else s).

Definition free_all_nodes (s : allocator) : option (allocator * Z) :=
  let s := set_current s (first_block s) (-1) in
  s ← free_blocks s; Some (s, 0).

(** The loop of [free_nodes_before]; 1 when the node is in no block. *)
Fixpoint find_loop (fuel : nat) (s : allocator) (node block prev_block : N) : option (allocator * Z) :=
  match fuel with
  | O => None
  | S fuel =>
      c ← heap s !! current_block s;
      if decide (block ≠ next c) then
        b ← heap s !! block;
        if decide ((node_ptr block 0 ≤ node)%N ∧ (node ≤ node_ptr block 16)%N) then
          if decide (first_block s ≠ block) then
            s ← set_next s (last_block s) (first_block s);
            let s := set_ends s block (last_block s) in
            let s := set_ends s (first_block s) prev_block in
            s ← set_next s (last_block s) NULL;
            s ← free_blocks s;
            Some (s, 0)
          else Some (s, 0)
        else find_loop fuel s node (next b) block
      else Some (s, 1)
  end.

Definition free_nodes_before (s : allocator) (node : N) : option (allocator * Z) :=
  find_loop (S (size (heap s))) s node (first_block s) NULL.

(** The loop of the destructor. *)
Fixpoint destroy_loop (fuel : nat) (s : allocator) (block : N) : option allocator :=
  match fuel with
  | O => None
  | S fuel =>
      if decide (block ≠ NULL) then
        b ← heap s !! block;
        let nxt := next b in
        s ← free_block s block;
        destroy_loop fuel s nxt
      else Some s
  end.

Definition destroy (s : allocator) : option allocator :=
  destroy_loop (S (size (heap s))) s (first_block s).

End Tranx.

(** ** Representation *)

Section table.
Import Tranx.

(** The blocks [bs] (address, nodes) are linked in order, the last one to [q]. *)
Fixpoint chain (h : gmap N Block) (bs : list (N * list Tranx_node)) (q : N) : Prop :=
  match bs with
  | [] => True
  | (b, ns) :: bs => h !! b = Some (Blk (hd_addr bs.*1 q) ns) ∧ chain h bs q
  end.

(** Blocks are distinct objects of 16 nodes each that do not overlap. *)
Definition apart (a b : N) : Prop := (node_ptr a 16 ≤ b)%N ∨ (node_ptr b 16 ≤ a)%N.

Definition blocks_ok (bs : list (N * list Tranx_node)) : Prop :=
  NoDup bs.*1 ∧ Forall (λ b, b.1 ≠ NULL ∧ length b.2 = 16%nat) bs ∧
  (∀ a b, a ∈ bs.*1 → b ∈ bs.*1 → a ≠ b → apart a b).

(** The block table: every block that exists is in it. *)
Record table (s : allocator) (bs : list (N * list Tranx_node)) : Prop := {
  tb_dom : ∀ a, is_Some (heap s !! a) → a ∈ bs.*1;
  tb_chain : chain (heap s) bs NULL;
  tb_ok : blocks_ok bs;
  tb_first : first_block s = hd_addr bs.*1 NULL;
  tb_last : last_block s = default NULL (list.last bs.*1);
  tb_num : block_num s = Z.of_nat (length bs);
  tb_small : Z.of_nat (length bs) < 2 ^ 32;
  tb_res : 0 ≤ reserved_blocks s }.

(** The block of [current_block] has the number [k]. *)
Definition rep (s : allocator) (bs : list (N * list Tranx_node)) (k : nat) : Prop :=
  table s bs ∧ -1 ≤ last_node s ≤ 15 ∧
  ((bs = [] ∧ k = O ∧ current_block s = NULL ∧ last_node s = -1) ∨ bs.*1 !! k = Some (current_block s)).

(** The nodes of the table in order, with their addresses; the first
    [16 * k + last_node + 1] of them are allocated. *)
Definition slots (bs : list (N * list Tranx_node)) : list (N * Tranx_node) :=
  bs ≫= λ b, imap (λ i n, (node_ptr b.1 (N.of_nat i), n)) b.2.

Definition live (s : allocator) (bs : list (N * list Tranx_node)) (k : nat) : list (N * Tranx_node) :=
  take (16 * k + Z.to_nat (last_node s + 1)) (slots bs).

Lemma chain_app h bs cs q : chain h (bs ++ cs) q ↔ chain h bs (hd_addr cs.*1 q) ∧ chain h cs q.
Proof.
  induction bs as [|[a x] bs IH]; simpl; [tauto|].
  rewrite IH, fmap_app, hd_addr_app. tauto.
Qed.

Lemma chain_frame h h' bs q :
  (∀ a, a ∈ bs.*1 → h' !! a = h !! a) → chain h bs q → chain h' bs q.
Proof.
  induction bs as [|[a x] bs IH]; simpl; [done|]. intros Hf [Ha Hs]. split.
  - by rewrite Hf by left.
  - apply IH; [|done]. intros b Hb. apply Hf. by right.
Qed.

Lemma chain_insert_ne h bs q a n : a ∉ bs.*1 → chain h bs q → chain (<[a := n]> h) bs q.
Proof. intros Ha. apply chain_frame. intros b Hb. apply lookup_insert_ne. by intros ->. Qed.

Lemma chain_snoc h bs a ns q :
  chain h (bs ++ [(a, ns)]) q ↔ chain h bs a ∧ h !! a = Some (Blk q ns).
Proof. rewrite chain_app. simpl. tauto. Qed.

(** Redirecting the last block of a chain. *)
Lemma chain_retarget h bs a ns q q' :
  a ∉ bs.*1 → chain h (bs ++ [(a, ns)]) q → chain (<[a := Blk q' ns]> h) (bs ++ [(a, ns)]) q'.
Proof.
  rewrite !chain_snoc. intros Ha [Hc _]. split; [by apply chain_insert_ne|]. apply lookup_insert_eq.
Qed.

Lemma chain_lookup h bs q i a ns :
  chain h bs q → bs !! i = Some (a, ns) →
  h !! a = Some (Blk (hd_addr (drop (S i) bs).*1 q) ns).
Proof.
  revert i. induction bs as [|[b x] bs IH]; intros i Hc Hi; [done|]. destruct Hc as [Hb Hc].
  destruct i as [|i]; [by injection Hi as -> ->|]. by apply (IH i).
Qed.

Lemma blocks_ok_perm bs cs : bs ≡ₚ cs → blocks_ok bs → blocks_ok cs.
Proof.
  intros HP (Hn & Hf & Ha). assert (bs.*1 ≡ₚ cs.*1) as HP' by by rewrite HP.
  repeat split; [by rewrite <- HP'|by rewrite <- HP|]. intros a b. rewrite <- HP'. apply Ha.
Qed.

Lemma blocks_ok_sublist bs cs : cs `sublist_of` bs → blocks_ok bs → blocks_ok cs.
Proof.
  intros HS (Hn & Hf & Ha). assert (cs.*1 `sublist_of` bs.*1) as HS' by by apply fmap_sublist.
  repeat split; [by eapply sublist_NoDup| |].
  - rewrite Forall_forall in *. intros b Hb. by eapply Hf, elem_of_sublist.
  - intros a b Hx Hy. by apply Ha; eapply elem_of_sublist.
Qed.

Lemma blocks_ok_snoc bs b ns :
  blocks_ok bs → b ≠ NULL → length ns = 16%nat → (∀ a, a ∈ bs.*1 → a ≠ b ∧ apart a b) →
  blocks_ok (bs ++ [(b, ns)]).
Proof.
  intros (Hn & Hf & Ha) Hb Hl Hap. unfold blocks_ok. rewrite fmap_app. cbn. split_and!.
  - apply NoDup_app. split_and!; [done| |apply NoDup_singleton].
    intros a Hin ->%list_elem_of_singleton. by destruct (Hap b Hin).
  - apply Forall_app. split; [done|]. by apply Forall_singleton.
  - intros a c [Hin| ->%list_elem_of_singleton]%elem_of_app [Hin'| ->%list_elem_of_singleton]%elem_of_app Hne;
      [by apply Ha|by apply Hap| |done].
    destruct (Hap c Hin') as [_ [?|?]]; [by right|by left].
Qed.

Lemma blocks_ok_nonnull bs : blocks_ok bs → NULL ∉ bs.*1.
Proof.
  intros (_ & Hf & _) Hin. apply list_elem_of_fmap in Hin as ([b ns] & E & Hin).
  rewrite Forall_forall in Hf. destruct (Hf _ Hin) as [Hb _]. by apply Hb.
Qed.

Lemma hd_addr_null bs : blocks_ok bs → (hd_addr bs.*1 NULL = NULL ↔ bs = []).
Proof.
  destruct bs as [|[b ns] bs]; [done|]. intros Hn%blocks_ok_nonnull. split; [|done].
  cbn. intros ->. exfalso. apply Hn. by left.
Qed.

Lemma table_size s bs : table s bs → (length bs ≤ size (heap s))%nat.
Proof.
  intros []. destruct tb_ok0 as (Hn & _). rewrite <- (length_fmap fst), <- (size_list_to_set (C:=gset N)) by done.
  rewrite <- (size_dom (D:=gset N)). apply subseteq_size. intros a. rewrite elem_of_list_to_set, elem_of_dom.
  intros ([b ns] & -> & Hin)%list_elem_of_fmap. apply list_elem_of_lookup in Hin as [i Hi].
  cbn [fst]. rewrite (chain_lookup _ _ _ _ _ _ tb_chain0 Hi). by eexists.
Qed.

Lemma table_lookup s bs i a ns :
  table s bs → bs !! i = Some (a, ns) →
  heap s !! a = Some (Blk (hd_addr (drop (S i) bs).*1 NULL) ns) ∧ length ns = 16%nat ∧ a ≠ NULL.
Proof.
  intros [] Hi. destruct tb_ok0 as (_ & Hf & _). split; [by eapply chain_lookup|].
  rewrite Forall_forall in Hf. apply list_elem_of_lookup_2, Hf in Hi as []. done.
Qed.

Lemma lookup_fst (bs : list (N * list Tranx_node)) i a :
  bs.*1 !! i = Some a → ∃ ns, bs !! i = Some (a, ns).
Proof. rewrite list_lookup_fmap. destruct (bs !! i) as [[b ns]|]; [|done]. intros [= ->]. eauto. Qed.

(** *** The nodes of the table *)

Lemma slots_app bs cs : slots (bs ++ cs) = slots bs ++ slots cs.
Proof. apply bind_app. Qed.

Lemma length_slots bs :
  Forall (λ b, b.1 ≠ NULL ∧ length b.2 = 16%nat) bs → length (slots bs) = (16 * length bs)%nat.
Proof.
  induction 1 as [|[b ns] bs [_ Hl] _ IH]; [done|]. cbn [slots mbind list_bind]. cbn in Hl.
  rewrite length_app, length_imap. cbn [snd length]. fold (slots bs). lia.
Qed.

Lemma slots_split bs k b ns :
  blocks_ok bs → bs !! k = Some (b, ns) →
  ∃ pre post, bs = pre ++ (b, ns) :: post ∧ length pre = k ∧ length (slots pre) = (16 * k)%nat ∧
    length ns = 16%nat.
Proof.
  intros (_ & Hf & _) Hk. exists (take k bs), (drop (S k) bs).
  rewrite take_drop_middle by done. pose proof (lookup_lt_Some _ _ _ Hk).
  split_and!; [done|rewrite length_take; lia| |].
  - rewrite length_slots by by apply Forall_take. rewrite length_take. lia.
  - rewrite Forall_forall in Hf. by apply list_elem_of_lookup_2, Hf in Hk as [].
Qed.

Lemma slots_lookup bs k b ns i n :
  blocks_ok bs → bs !! k = Some (b, ns) → ns !! i = Some n →
  slots bs !! (16 * k + i)%nat = Some (node_ptr b (N.of_nat i), n).
Proof.
  intros Hok Hk Hi. destruct (slots_split _ _ _ _ Hok Hk) as (pre & post & -> & _ & Hl & Hn).
  rewrite slots_app, lookup_app_r by lia. replace (16 * k + i - length (slots pre))%nat with i by lia.
  cbn [slots mbind list_bind]. pose proof (lookup_lt_Some _ _ _ Hi).
  rewrite lookup_app_l by (rewrite length_imap; cbn; lia). rewrite list_lookup_imap. cbn. by rewrite Hi.
Qed.

Lemma slots_update bs k b ns i n :
  blocks_ok bs → bs !! k = Some (b, ns) → (i < 16)%nat →
  slots (<[k := (b, <[i := n]> ns)]> bs) = <[(16 * k + i)%nat := (node_ptr b (N.of_nat i), n)]> (slots bs).
Proof.
  intros Hok Hk Hi. destruct (slots_split _ _ _ _ Hok Hk) as (pre & post & -> & Hp & Hl & Hn).
  rewrite insert_app_r_alt by lia. rewrite Hp, Nat.sub_diag. cbn [insert list_insert].
  rewrite !slots_app, insert_app_r_alt by lia. f_equal.
  replace (16 * k + i - length (slots pre))%nat with i by lia.
  cbn [slots mbind list_bind fst snd]. rewrite insert_app_l by (rewrite length_imap; lia). f_equal.
  apply list_eq. intros j. rewrite list_lookup_imap.
  destruct (decide (i = j)) as [->|Hne].
  - rewrite !list_lookup_insert_eq by (rewrite ?length_imap; lia). done.
  - rewrite !list_lookup_insert_ne by done. by rewrite list_lookup_imap.
Qed.

(** A node lies in one block only. *)
Lemma node_ptr_inj bs a b ns ns' i j n n' k k' :
  blocks_ok bs → bs !! k = Some (a, ns) → bs !! k' = Some (b, ns') →
  ns !! i = Some n → ns' !! j = Some n' →
  node_ptr a (N.of_nat i) = node_ptr b (N.of_nat j) → k = k' ∧ i = j.
Proof.
  intros (Hnd & Hf & Hap) Ha Hb Hi Hj E. rewrite Forall_forall in Hf.
  destruct (Hf _ (list_elem_of_lookup_2 _ _ _ Ha)) as [_ La]. destruct (Hf _ (list_elem_of_lookup_2 _ _ _ Hb)) as [_ Lb].
  apply lookup_lt_Some in Hi, Hj. cbn in La, Lb. unfold node_ptr, sizeof_node in *.
  destruct (decide (a = b)) as [->|Hne].
  - split; [|lia]. apply (NoDup_lookup bs.*1 k k' b); [done|..]; rewrite list_lookup_fmap.
    + by rewrite Ha.
    + by rewrite Hb.
  - exfalso. destruct (Hap a b) as [H|H]; try done; unfold node_ptr, sizeof_node in *; try lia.
    + apply (in_fmap fst _ _ (list_elem_of_lookup_2 _ _ _ Ha)).
    + apply (in_fmap fst _ _ (list_elem_of_lookup_2 _ _ _ Hb)).
Qed.

Lemma slots_index bs q p n :
  blocks_ok bs → slots bs !! q = Some (p, n) →
  ∃ k b ns i, bs !! k = Some (b, ns) ∧ ns !! i = Some n ∧ p = node_ptr b (N.of_nat i) ∧ q = (16 * k + i)%nat.
Proof.
  intros Hok Hq. pose proof (lookup_lt_Some _ _ _ Hq) as Hlt. destruct Hok as (Hnd & Hf & Hap).
  rewrite length_slots in Hlt by done.
  destruct (lookup_lt_is_Some_2 bs (q / 16)) as [[b ns] Hk]; [apply Nat.Div0.div_lt_upper_bound; lia|].
  assert (length ns = 16%nat) as Hns.
  { rewrite Forall_forall in Hf. by apply list_elem_of_lookup_2, Hf in Hk as []. }
  destruct (lookup_lt_is_Some_2 ns (q mod 16)) as [n' Hi].
  { rewrite Hns. apply Nat.mod_upper_bound. lia. }
  pose proof (slots_lookup _ _ _ _ _ _ (conj Hnd (conj Hf Hap)) Hk Hi) as E.
  replace (16 * (q / 16) + q mod 16)%nat with q in E by apply (Nat.div_mod_eq q 16).
  rewrite Hq in E. injection E as -> ->. eexists _, _, _, _. split_and!; [done..|apply (Nat.div_mod_eq q 16)].
Qed.

Lemma slots_nodup bs : blocks_ok bs → NoDup (slots bs).*1.
Proof.
  intros Hok. apply NoDup_alt. intros q q' p. rewrite !list_lookup_fmap.
  destruct (slots bs !! q) as [[p1 n]|] eqn:Hq; [|done].
  destruct (slots bs !! q') as [[p2 n']|] eqn:Hq'; [|done]. cbn. intros [= ->] [= ->].
  apply slots_index in Hq as (k & b & ns & i & Hk & Hi & -> & ->); [|done].
  apply slots_index in Hq' as (k' & b' & ns' & i' & Hk' & Hi' & Ep & ->); [|done].
  by destruct (node_ptr_inj _ _ _ _ _ _ _ _ _ _ _ Hok Hk Hk' Hi Hi' Ep) as [-> ->].
Qed.

(** *** Blocks come and go *)

(** What [my_malloc] promises of a block: it does not overlap another one. *)
Definition malloc_ok (bs : list (N * list Tranx_node)) (m : option (N * list Tranx_node)) : Prop :=
  match m with
  | Some (b, ns) => b ≠ NULL ∧ length ns = 16%nat ∧ ∀ a, a ∈ bs.*1 → a ≠ b ∧ apart a b
  | None => True
  end.

Lemma last_fst (bs : list (N * list Tranx_node)) b ns : list.last (bs ++ [(b, ns)]).*1 = Some b.
Proof. rewrite fmap_app. apply last_snoc. Qed.

Lemma allocate_block_table s bs b ns :
  table s bs → malloc_ok bs (Some (b, ns)) → Z.of_nat (length bs) + 1 < 2 ^ 32 →
  ∃ s', allocate_block s (Some (b, ns)) = Some (s', 0) ∧ table s' (bs ++ [(b, ns)]) ∧
    current_block s' = b ∧ last_node s' = last_node s ∧ reserved_blocks s' = reserved_blocks s.
Proof.
  intros [Hd Hc Hok Hf Hl Hnum Hsm Hr] (Hb & Hns & Hap) Hlt.
  assert (b ∉ bs.*1) as Hnb by (intros Hin; by destruct (Hap b Hin)).
  cbn [allocate_block]. cbn [first_block set_heap]. rewrite Hf.
  pose proof (blocks_ok_snoc _ _ _ Hok Hb Hns Hap) as Hok'.
  destruct bs as [|[a as_] bs _] using rev_ind.
  - cbn [hd_addr fmap list_fmap]. rewrite decide_True by done. eexists. split; [done|]. split; [|done].
    constructor; cbn in *; try done; [|by split; [apply lookup_insert_eq|]|by rewrite Hnum].
    intros c. destruct (decide (b = c)) as [->|Hne]; [by left|]. rewrite lookup_insert_ne by done.
    intros Hin%Hd. by apply elem_of_nil in Hin.
  - rewrite decide_False by (rewrite hd_addr_null by done; by destruct bs).
    pose proof Hc as Hc'. apply chain_snoc in Hc' as [Hc1 Hc2].
    rewrite fmap_app in Hnb. apply not_elem_of_app in Hnb as [Hnb1 Hnb2].
    cbn [last_block set_heap heap]. rewrite Hl, last_fst. cbn [from_option id]. unfold set_next. cbn [heap set_heap].
    assert (b ≠ a) as Hba by (intros ->; apply Hnb2; by left).
    rewrite lookup_insert_ne, Hc2 by done. cbn [mbind option_bind].
    eexists. split; [done|]. split; [|done].
    constructor; cbn [heap first_block last_block current_block block_num reserved_blocks set_heap set_ends set_current]; try done.
    + intros c. destruct (decide (a = c)) as [->|Hac]; [intros _; rewrite !fmap_app, !elem_of_app; cbn; set_solver|].
      rewrite lookup_insert_ne by done. destruct (decide (b = c)) as [->|Hbc].
      * intros _. rewrite fmap_app, elem_of_app. right. by left.
      * rewrite lookup_insert_ne by done. intros Hin%Hd. rewrite fmap_app, elem_of_app. by left.
    + apply chain_snoc. split; [|rewrite lookup_insert_ne by done; apply lookup_insert_eq].
      apply (chain_retarget _ _ _ _ NULL); [|apply chain_insert_ne; [|done]].
      * destruct Hok as (Hn & _). rewrite fmap_app in Hn. apply NoDup_app in Hn as (_ & Hn & _).
        intros Hin. apply (Hn _ Hin). by left.
      * rewrite fmap_app. by apply not_elem_of_app.
    + rewrite Hf, !fmap_app, !hd_addr_app. by destruct bs.
    + by rewrite (last_fst (bs ++ [(a, as_)])).
    + rewrite Hnum, !length_app. cbn. rewrite !length_app in *. cbn in *. rewrite wrapu_small; [lia|]. unfold in_u. lia.
    + rewrite !length_app in *. cbn in *. lia.
Qed.

(** The loop of [free_blocks] frees the first [m] blocks of the free ones. *)
Lemma free_loop_chain D : ∀ fuel s,
  chain (heap s) D NULL → NoDup D.*1 → NULL ∉ D.*1 → Z.of_nat (length D) ≤ block_num s < 2 ^ 32 →
  (length D < fuel)%nat →
  let m := Z.to_nat (block_num s - reserved_blocks s) in
  ∃ s', free_loop fuel s (hd_addr D.*1 NULL) = Some (s', hd_addr (drop m D).*1 NULL) ∧
    (∀ a, heap s' !! a = if decide (a ∈ (take m D).*1) then None else heap s !! a) ∧
    block_num s' = block_num s - Z.of_nat (length (take m D)) ∧
    reserved_blocks s' = reserved_blocks s ∧ first_block s' = first_block s ∧
    last_block s' = last_block s ∧ current_block s' = current_block s ∧ last_node s' = last_node s.
Proof.
  induction D as [|[b ns] D IH]; intros fuel s Hc Hn H0 Hlen Hf m; (destruct fuel as [|fuel]; [simpl in Hf; lia|]).
  { cbn [free_loop hd_addr fmap list_fmap]. rewrite decide_False by tauto. rewrite take_nil, drop_nil.
    exists s. split_and!; [done| |cbn; lia|done..]. intros a. by rewrite decide_False by apply not_elem_of_nil. }
  cbn [free_loop hd_addr fmap list_fmap fst]. apply not_elem_of_cons in H0 as [Hb0 H0].
  case_decide as Hd.
  - destruct Hd as [Hgt _]. destruct Hc as [Hb Hc]. rewrite Hb. cbn [mbind option_bind].
    unfold free_block. rewrite Hb. cbn [mbind option_bind next].
    apply NoDup_cons in Hn as [Hnb Hn]. cbn [length] in *.
    edestruct (IH fuel (set_heap s (u32 (block_num s - 1)) (delete b (heap s)))) as (s' & -> & Hh & Hnum & Hrest);
      cbn [heap block_num set_heap]; try done; [|rewrite wrapu_small by (unfold in_u; lia); lia|lia|].
    { apply (chain_frame (heap s)); [|done]. intros c Hin. apply lookup_delete_ne. by intros ->. }
    cbn [heap set_heap block_num reserved_blocks] in *.
    rewrite wrapu_small in * by (unfold in_u; lia).
    assert (m = S (Z.to_nat (block_num s - 1 - reserved_blocks s))) as -> by (unfold m; lia).
    exists s'. cbn [take drop firstn skipn]. split; [done|]. split; [|split; [rewrite Hnum; cbn; lia|done]].
    intros a. rewrite Hh. destruct (decide (a = b)) as [->|Hab].
    + rewrite lookup_delete_eq. cbn [fmap list_fmap fst]. repeat case_decide; set_solver.
    + rewrite lookup_delete_ne by done. cbn [fmap list_fmap fst]. repeat case_decide; set_solver.
  - assert (m = O) as -> by (unfold m; destruct (decide (b = NULL)) as [->|]; [done|]; lia).
    exists s. cbn [take drop firstn skipn]. split_and!; [done| |cbn; lia|done..].
    intros a. by rewrite decide_False by apply not_elem_of_nil.
Qed.

(** The table after [free_blocks]: the blocks up to the one after the current
    one stay, and free ones go while there are more than [r]. *)
Definition trim (k : nat) (r : Z) (bs : list (N * list Tranx_node)) : list (N * list Tranx_node) :=
  take (k + 2) bs ++ drop (k + 2 + Z.to_nat (Z.of_nat (length bs) - r)) bs.

Lemma trim_sublist k r bs : trim k r bs `sublist_of` bs.
Proof.
  unfold trim. rewrite <- drop_drop.
  pose proof (sublist_app _ _ _ _ (reflexivity (take (k + 2) bs))
    (sublist_drop (drop (k + 2) bs) (Z.to_nat (Z.of_nat (length bs) - r)))) as H.
  by rewrite take_drop in H.
Qed.

Lemma chain_pair h A c cn n nn D q :
  chain h (A ++ (c, cn) :: (n, nn) :: D) q ↔
  chain h (A ++ [(c, cn)]) n ∧ h !! n = Some (Blk (hd_addr D.*1 q) nn) ∧ chain h D q.
Proof.
  change (A ++ (c, cn) :: (n, nn) :: D) with (A ++ [(c, cn)] ++ (n, nn) :: D).
  rewrite (app_assoc A), chain_app. cbn. tauto.
Qed.

(** The state after the loop of [free_blocks] and the assignments that follow. *)
Lemma table_trimmed s s1 A c cn n nn D m :
  table s (A ++ (c, cn) :: (n, nn) :: D) →
  (∀ a, heap s1 !! a = if decide (a ∈ (take m D).*1) then None else heap s !! a) →
  block_num s1 = block_num s - Z.of_nat (length (take m D)) →
  reserved_blocks s1 = reserved_blocks s → first_block s1 = first_block s → last_block s1 = last_block s →
  table (set_ends (set_heap s1 (block_num s1) (<[n := Blk (hd_addr (drop m D).*1 NULL) nn]> (heap s1)))
     (first_block s1) (if decide (hd_addr (drop m D).*1 NULL = NULL) then n else last_block s1))
     (A ++ (c, cn) :: (n, nn) :: drop m D).
Proof.
  intros [Hd Hc Hok Hf Hl Hnum Hsm Hr] Hh Hnum1 Hr1 Hf1 Hl1.
  apply chain_pair in Hc as (HcA & Hn & HcD).
  assert (NoDup (A.*1 ++ c :: n :: D.*1)) as Hnd by (destruct Hok as (Hnd & _); by rewrite fmap_app in Hnd).
  assert (NULL ∉ A.*1 ++ c :: n :: D.*1) as H0
    by (pose proof (blocks_ok_nonnull _ Hok) as H; by rewrite fmap_app in H).
  assert (D.*1 = (take m D).*1 ++ (drop m D).*1) as HD by by rewrite <- fmap_app, take_drop.
  assert (length D = length (take m D) + length (drop m D))%nat as Hsplit by by rewrite <- length_app, take_drop.
  rewrite length_app in Hnum, Hsm. cbn [length] in Hnum, Hsm.
  rewrite HD in Hnd. apply NoDup_app in Hnd as (_ & HnA & [Hc1 [Hc2 HndD]%NoDup_cons]%NoDup_cons).
  apply NoDup_app in HndD as (_ & Hdisj & _).
  constructor; cbn [heap first_block last_block current_block block_num reserved_blocks set_heap set_ends].
  - intros a. rewrite fmap_app. cbn [fmap list_fmap fst].
    destruct (decide (n = a)) as [->|Hna]; [set_solver|]. rewrite lookup_insert_ne, Hh by done.
    case_decide as Ht'; [by intros []|]. intros Hin%Hd. rewrite fmap_app in Hin. cbn in Hin. rewrite HD in Hin. set_solver.
  - apply chain_pair. rewrite lookup_insert_eq. split_and!; [|done|].
    + apply (chain_frame (heap s)); [|done]. intros a. rewrite fmap_app. cbn. intros Ha.
      rewrite lookup_insert_ne, Hh, decide_False by set_solver. done.
    + rewrite <- (take_drop m D) in HcD. apply chain_app in HcD as [_ HcD]. revert HcD. apply chain_frame.
      intros a Ha. rewrite lookup_insert_ne, Hh, decide_False by set_solver. done.
  - eapply blocks_ok_sublist; [|done]. apply sublist_app; [done|]. do 2 apply sublist_skip. apply sublist_drop.
  - by rewrite Hf1, Hf, !fmap_app, !hd_addr_app.
  - rewrite Hl1, Hl, !fmap_app. cbn [fmap list_fmap fst]. rewrite !last_app_cons, HD.
    destruct (drop m D) as [|[d dn] E]; [by rewrite decide_True|]. cbn [hd_addr fmap list_fmap fst] in *.
    rewrite decide_False.
    2: { intros ->. apply H0. rewrite HD, !elem_of_app, !elem_of_cons, elem_of_app. do 3 right. right. by left. }
    by rewrite !app_comm_cons, last_app_cons, !last_cons_cons.
  - rewrite Hnum1, Hnum, length_app. cbn [length]. lia.
  - rewrite length_app. cbn [length]. lia.
  - by rewrite Hr1.
Qed.

Lemma free_blocks_step s A c cn n nn D :
  let m := Z.to_nat (block_num s - reserved_blocks s) in
  table s (A ++ (c, cn) :: (n, nn) :: D) → current_block s = c →
  ∃ s', free_blocks s = Some s' ∧ table s' (A ++ (c, cn) :: (n, nn) :: drop m D) ∧
    current_block s' = c ∧ last_node s' = last_node s ∧ reserved_blocks s' = reserved_blocks s.
Proof.
  intros m Ht Hcur. pose proof Ht as [Hd Hc Hok Hf Hl Hnum Hsm Hr].
  apply chain_pair in Hc as (HcA & Hn & HcD). apply chain_snoc in HcA as [_ Hcc].
  assert (NoDup (A.*1 ++ c :: n :: D.*1)) as Hnd by (destruct Hok as (Hnd & _); by rewrite fmap_app in Hnd).
  assert (NULL ∉ A.*1 ++ c :: n :: D.*1) as H0 by (apply blocks_ok_nonnull in Hok; by rewrite fmap_app in Hok).
  rewrite length_app in Hnum, Hsm. cbn [length] in Hnum, Hsm.
  unfold free_blocks. rewrite Hcur, decide_False by set_solver. rewrite Hcc. cbn [mbind option_bind next].
  rewrite decide_False by set_solver. rewrite Hn. cbn [mbind option_bind next].
  apply NoDup_app in Hnd as (HndA & HnA & [Hc1 [Hc2 HndD]%NoDup_cons]%NoDup_cons).
  destruct (free_loop_chain D (S (size (heap s))) s) as (s1 & -> & Hh & Hnum1 & Hr1 & Hf1 & Hl1 & Hcu1 & Hln1);
    [done..|set_solver|lia| |].
  { apply table_size in Ht. rewrite length_app in Ht. cbn in Ht. lia. }
  cbn [mbind option_bind]. fold m in Hh, Hnum1 |- *. rewrite Hcu1, Hcur.
  assert ((take m D).*1 ⊆ D.*1) as Hsub
    by (intros a Ha; eapply elem_of_sublist; [done|]; apply fmap_sublist, sublist_take).
  rewrite Hh, decide_False by set_solver. rewrite Hcc. cbn [mbind option_bind next].
  unfold set_next. rewrite Hh, decide_False by set_solver. rewrite Hn. cbn [mbind option_bind nodes].
  eexists. split; [done|]. pose proof (table_trimmed _ _ _ _ _ _ _ _ _ Ht Hh Hnum1 Hr1 Hf1 Hl1) as HT.
  case_decide; (split; [exact HT|split_and!; cbn; congruence]).
Qed.

Lemma trim_app A x y D r :
  trim (length A) r (A ++ x :: y :: D) =
  A ++ x :: y :: drop (Z.to_nat (Z.of_nat (length (A ++ x :: y :: D)) - r)) D.
Proof.
  unfold trim. rewrite <- drop_drop. change (A ++ x :: y :: D) with (A ++ [x; y] ++ D).
  rewrite app_assoc, take_app_length', drop_app_length' by (rewrite length_app; cbn; lia).
  by rewrite <- app_assoc.
Qed.

Lemma free_blocks_table s bs k :
  table s bs → bs.*1 !! k = Some (current_block s) →
  ∃ s', free_blocks s = Some s' ∧ table s' (trim k (reserved_blocks s) bs) ∧
    current_block s' = current_block s ∧ last_node s' = last_node s ∧ reserved_blocks s' = reserved_blocks s.
Proof.
  intros Ht Hk. apply lookup_fst in Hk as [cn Hk].
  pose proof (table_lookup _ _ _ _ _ Ht Hk) as (Hc & _ & H0). pose proof (lookup_lt_Some _ _ _ Hk) as Hlt.
  pose proof (take_drop_middle bs k _ Hk) as E.
  destruct (drop (S k) bs) as [|[n nn] D] eqn:HD.
  - unfold free_blocks. rewrite decide_False by done. rewrite Hc. cbn. rewrite decide_True by done.
    assert (length bs = S k) as Hl by (apply (f_equal length) in HD; rewrite length_drop in HD; cbn in HD; lia).
    exists s. unfold trim. rewrite take_ge, drop_ge, app_nil_r by lia. done.
  - assert (length (take k bs) = k) as Hl by (rewrite length_take; lia). rewrite <- E in Ht.
    destruct (free_blocks_step s (take k bs) _ cn n nn D Ht eq_refl) as (s' & -> & Ht' & ?). exists s'. split; [done|].
    split; [|done]. rewrite <- E, <- Hl at 1. rewrite trim_app. by rewrite (tb_num _ _ Ht) in Ht'.
Qed.

(** The assignments that put the blocks up to [a] behind those from [b] to [z]. *)
Lemma rotate_table s A a as_ B z zs b :
  hd_addr (B ++ [(z, zs)]).*1 NULL = b → table s ((A ++ [(a, as_)]) ++ B ++ [(z, zs)]) →
  ∃ s1 s2, set_next s (last_block s) (first_block s) = Some s1 ∧
    set_next (set_ends (set_ends s1 b (last_block s1)) b a) a NULL = Some s2 ∧
    table s2 ((B ++ [(z, zs)]) ++ A ++ [(a, as_)]) ∧ current_block s2 = current_block s ∧
    last_node s2 = last_node s ∧ reserved_blocks s2 = reserved_blocks s.
Proof.
  intros Hb [Hd Hc Hok Hf Hl Hnum Hsm Hr].
  rewrite app_assoc, last_fst in Hl. cbn in Hl.
  pose proof Hok as (Hnd & _). rewrite !fmap_app in Hnd. cbn in Hnd. apply NoDup_app in Hnd as (HndA & Hdis & HndB).
  apply NoDup_app in HndA as (_ & Ha & _). apply NoDup_app in HndB as (_ & Hz & _).
  apply chain_app in Hc as [HcA HcB]. pose proof HcB as HcB'. apply chain_snoc in HcB' as [_ Hhz].
  pose proof HcA as HcA'. apply chain_snoc in HcA' as [_ Hha].
  assert (a ≠ z) as Haz by (intros ->; apply (Hdis z); set_solver).
  assert (a ∉ A.*1) as Ha' by (intros Hin; apply (Ha a Hin); by left).
  assert (z ∉ B.*1) as Hz' by (intros Hin; apply (Hz z Hin); by left).
  assert (a ∉ (B ++ [(z, zs)]).*1) as Hab by (rewrite fmap_app; apply (Hdis a); set_solver).
  assert (z ∉ (A ++ [(a, as_)]).*1) as Hza by (rewrite fmap_app; intros Hin; apply (Hdis z Hin); set_solver).
  unfold set_next. rewrite Hl, Hhz. cbn [mbind option_bind nodes]. eexists _, _. split; [done|].
  cbn [heap set_heap set_ends]. rewrite lookup_insert_ne, Hha by done. cbn [mbind option_bind nodes].
  split; [done|]. split; [|done].
  constructor; cbn [heap first_block last_block current_block block_num reserved_blocks set_heap set_ends]; try done.
  - intros c Hin. rewrite !fmap_app, !elem_of_app. cbn.
    destruct (decide (a = c)) as [->|Hac]; [set_solver|]. rewrite lookup_insert_ne in Hin by done.
    destruct (decide (z = c)) as [->|Hzc]; [set_solver|]. rewrite lookup_insert_ne in Hin by done.
    apply Hd in Hin. rewrite !fmap_app, !elem_of_app in Hin. cbn in Hin. tauto.
  - apply chain_app. split.
    + apply chain_insert_ne; [done|].
      apply (chain_retarget _ _ _ _ NULL) with (q' := first_block s) in HcB; [|done].
      rewrite Hf, !fmap_app, !hd_addr_app in *. by destruct A.
    + apply (chain_retarget _ _ _ _ (hd_addr (B ++ [(z, zs)]).*1 NULL)); [done|].
      by apply chain_insert_ne.
  - eapply blocks_ok_perm; [|done]. apply Permutation_app_comm.
  - rewrite fmap_app, hd_addr_app, <- Hb. by destruct B.
  - by rewrite app_assoc, last_fst.
  - by rewrite Hnum, !length_app, Nat.add_comm.
  - by rewrite length_app, Nat.add_comm, <- length_app.
Qed.

(** The address that stops the search is that of no block up to the current one. *)
Lemma current_next s bs k :
  table s bs → bs.*1 !! k = Some (current_block s) →
  ∃ c, heap s !! current_block s = Some c ∧ ∀ j a, bs.*1 !! j = Some a → (j ≤ k)%nat → a ≠ next c.
Proof.
  intros Ht Hk. apply lookup_fst in Hk as [cn Hk].
  destruct (table_lookup _ _ _ _ _ Ht Hk) as (Hc & _). eexists. split; [done|]. cbn [next].
  intros j a Hj Hle ->. pose proof (tb_ok _ _ Ht) as Hok. apply lookup_fst in Hj as [ns Hj].
  destruct (drop (S k) bs) as [|[n nn] D] eqn:HD.
  - apply (blocks_ok_nonnull _ Hok). apply list_elem_of_lookup_2 in Hj. by apply (in_fmap fst) in Hj.
  - destruct Hok as (Hnd & _). cbn in Hj.
    assert (bs !! S k = Some (n, nn)) as Hn.
    { rewrite <- (Nat.add_0_r (S k)), <- lookup_drop, HD. done. }
    enough (j = S k) by lia. apply (NoDup_lookup bs.*1 _ _ n); [done|..]; rewrite list_lookup_fmap.
    + by rewrite Hj.
    + by rewrite Hn.
Qed.

Lemma find_loop_skip s k b ns post p mid : ∀ pre fuel,
  let bs := pre ++ mid ++ (b, ns) :: post in
  table s bs → bs.*1 !! k = Some (current_block s) → (length pre + length mid ≤ k)%nat →
  (node_ptr b 0 ≤ p < node_ptr b 16)%N → (length mid < fuel)%nat →
  find_loop fuel s p (hd_addr (mid ++ (b, ns) :: post).*1 NULL) (default NULL (list.last pre.*1)) =
  find_loop 1 s p b (default NULL (list.last (pre ++ mid).*1)).
Proof.
  induction mid as [|[a as_] mid IH]; intros pre fuel bs Ht Hk Hle Hp Hf;
    (destruct fuel as [|fuel]; [cbn in Hf; lia|]); destruct (current_next _ _ _ Ht Hk) as (c & Hc & Hne).
  { rewrite app_nil_r. cbn [hd_addr app fmap list_fmap fst find_loop]. rewrite Hc. cbn [mbind option_bind].
    assert (b ≠ next c) as Hbc.
    { apply (Hne (length pre)); [|cbn in Hle; lia]. unfold bs. cbn.
      rewrite fmap_app, lookup_app_r; rewrite length_fmap; [by rewrite Nat.sub_diag|lia]. }
    destruct (decide (b ≠ next c)) as [_|[]]; [|done]. destruct (heap s !! b) as [B|]; [|done]. cbn [mbind option_bind].
    destruct (decide (node_ptr b 0 ≤ p ≤ node_ptr b 16)%N) as [_|[]]; [done|lia]. }
  match goal with |- _ = ?R => remember R as rhs eqn:Er end.
  cbn [find_loop]. rewrite Hc. cbn [mbind option_bind hd_addr app fmap list_fmap fst].
  assert (bs !! length pre = Some (a, as_)) as Ha by (unfold bs; rewrite lookup_app_r, Nat.sub_diag; done).
  rewrite decide_True.
  2: { apply (Hne (length pre)); [|cbn in Hle; lia]. by rewrite list_lookup_fmap, Ha. }
  destruct (table_lookup _ _ _ _ _ Ht Ha) as (-> & _ & _). cbn [mbind option_bind].
  assert (a ≠ b ∧ apart a b) as [Hab Hap].
  { destruct (tb_ok _ _ Ht) as (Hnd & _ & Hap). unfold bs in Hnd, Hap. rewrite !fmap_app in Hnd, Hap. cbn in Hnd, Hap.
    apply NoDup_app in Hnd as (_ & _ & [Hn _]%NoDup_cons).
    rewrite ?fmap_app in Hn, Hap. cbn in Hn, Hap.
    assert (a ≠ b) as Hab by (intros ->; apply Hn; set_solver). split; [done|]. apply Hap; set_solver. }
  rewrite decide_False by (unfold apart, node_ptr, sizeof_node in *; lia).
  replace (drop (S (length pre)) bs) with (mid ++ (b, ns) :: post).
  2: { unfold bs. by rewrite skipn_app, drop_ge, Nat.sub_succ_l, Nat.sub_diag by lia. }
  cbn [next]. replace a with (default NULL (list.last (pre ++ [(a, as_)]).*1)) at 1 by by rewrite last_fst.
  subst rhs. change ((a, as_) :: mid) with ([(a, as_)] ++ mid). rewrite (app_assoc pre).
  unfold bs in Ht, Hk. change ((a, as_) :: mid ++ (b, ns) :: post) with ([(a, as_)] ++ mid ++ (b, ns) :: post) in Ht, Hk.
  apply IH; rewrite <- ?app_assoc; try done; [rewrite length_app|]; cbn in *; lia.
Qed.

Lemma last_default_snoc (pre : list (N * list Tranx_node)) :
  pre ≠ [] → ∃ A a as_, pre = A ++ [(a, as_)] ∧ default NULL (list.last pre.*1) = a.
Proof.
  destruct pre as [|[a as_] A _] using rev_ind; [done|]. exists A, a, as_. by rewrite last_fst.
Qed.

(** [free_nodes_before] of a node in the block number [j]. *)
Lemma free_nodes_before_table s bs j k b ns p :
  table s bs → bs.*1 !! k = Some (current_block s) → bs !! j = Some (b, ns) → (j ≤ k)%nat →
  (node_ptr b 0 ≤ p < node_ptr b 16)%N →
  ∃ s', free_nodes_before s p = Some (s', 0) ∧
    table s' (if decide (j = O) then bs else trim (k - j) (reserved_blocks s) (drop j bs ++ take j bs)) ∧
    current_block s' = current_block s ∧ last_node s' = last_node s ∧ reserved_blocks s' = reserved_blocks s.
Proof.
  intros Ht Hk Hj Hle Hp. pose proof (lookup_lt_Some _ _ _ Hj) as Hlt.
  pose proof (take_drop_middle bs j _ Hj) as E. unfold free_nodes_before.
  assert (length (take j bs) = j) as Hlj by (rewrite length_take; lia).
  pose proof (find_loop_skip s k b ns (drop (S j) bs) p (take j bs) [] (S (size (heap s)))) as Hskip.
  rewrite !app_nil_l, E in Hskip. cbn [fmap list_fmap list.last from_option id] in Hskip.
  rewrite (tb_first _ _ Ht), Hskip by (done || (apply table_size in Ht; cbn; lia)). clear Hskip.
  destruct (current_next _ _ _ Ht Hk) as (c & Hc & Hne). cbn [find_loop].
  rewrite Hc. cbn [mbind option_bind]. rewrite decide_True by (apply (Hne j); [by rewrite list_lookup_fmap, Hj|done]).
  destruct (table_lookup _ _ _ _ _ Ht Hj) as (-> & _ & _). cbn [mbind option_bind]. rewrite decide_True by lia.
  assert (first_block s = b ↔ j = O) as Hfb.
  { rewrite (tb_first _ _ Ht). destruct (tb_ok _ _ Ht) as (Hnd & _). split.
    - intros Hf. apply (NoDup_lookup bs.*1 _ _ b); [done|by rewrite list_lookup_fmap, Hj|].
      destruct bs; [done|]. cbn in *. by subst.
    - intros ->. destruct bs; [done|]. by injection Hj as ->. }
  destruct (decide (j = O)) as [->|Hj0].
  { rewrite decide_False by tauto. by exists s. }
  rewrite decide_True by tauto. rewrite <- E in Ht.
  destruct (last_default_snoc (take j bs)) as (A & a & as_ & EA & ->); [intros Hnil; rewrite Hnil in Hlj; cbn in Hlj; lia|].
  destruct (exists_last (l := (b, ns) :: drop (S j) bs)) as (B & [z zs] & EB); [done|].
  rewrite EA, EB in Ht.
  destruct (rotate_table s A a as_ B z zs b) as (s1 & s2 & -> & H2 & Ht2 & Hcu & Hln & Hr); [by rewrite <- EB|done|].
  cbn [mbind option_bind first_block last_block set_ends] in *. rewrite H2. cbn [mbind option_bind].
  rewrite <- EA, <- EB, <- (drop_S bs _ j Hj) in Ht2.
  destruct (free_blocks_table s2 _ (k - j) Ht2) as (s3 & -> & Ht3 & Hcu3 & Hln3 & Hr3).
  { rewrite Hcu, fmap_app, lookup_app_l, fmap_drop, lookup_drop by
      (rewrite length_fmap, length_drop; apply lookup_lt_Some in Hk; rewrite length_fmap in Hk; lia).
    by replace (j + (k - j))%nat with k by lia. }
  exists s3. cbn [mbind option_bind]. rewrite Hr in Ht3. split_and!; [done|done|congruence..].
Qed.

(** *** Allocation *)

Lemma fst_update (bs : list (N * list Tranx_node)) k b ns ns' :
  bs !! k = Some (b, ns) → (<[k := (b, ns')]> bs).*1 = bs.*1.
Proof. intros Hk. rewrite list_fmap_insert. apply list_insert_id. by rewrite list_lookup_fmap, Hk. Qed.

Lemma chain_update h A b ns ns' D q :
  NoDup (A ++ (b, ns) :: D).*1 → chain h (A ++ (b, ns) :: D) q →
  chain (<[b := Blk (hd_addr D.*1 q) ns']> h) (A ++ (b, ns') :: D) q.
Proof.
  rewrite fmap_app. intros (_ & HnA & [Hb _]%NoDup_cons)%NoDup_app [HcA [_ HcD]]%chain_app.
  apply chain_app. split; [apply chain_insert_ne; [|done]; intros Hin; apply (HnA _ Hin); by left|].
  split; [apply lookup_insert_eq|by apply chain_insert_ne].
Qed.

Lemma table_update s bs k b ns ns' n :
  table s bs → bs !! k = Some (b, ns) → length ns' = 16%nat →
  table (set_heap (set_current s (current_block s) n) (block_num s)
    (<[b := Blk (hd_addr (drop (S k) bs).*1 NULL) ns']> (heap s))) (<[k := (b, ns')]> bs).
Proof.
  intros [Hd Hc Hok Hf Hl Hnum Hsm Hr] Hk Hlen. pose proof (fst_update _ _ _ _ ns' Hk) as E.
  pose proof (lookup_lt_Some _ _ _ Hk) as Hlt.
  constructor; cbn [heap first_block last_block block_num reserved_blocks set_heap set_current];
    rewrite ?E, ?length_insert; try done.
  - intros a. destruct (decide (b = a)) as [->|Hne]; [|rewrite lookup_insert_ne by done; apply Hd].
    intros _. apply list_elem_of_lookup_2 in Hk. by apply (in_fmap fst) in Hk.
  - rewrite insert_take_drop by done. apply (chain_update _ _ _ ns).
    + rewrite take_drop_middle by done. apply Hok.
    + by rewrite take_drop_middle by done.
  - destruct Hok as (Hnd & Hf' & Ha). split_and!; rewrite ?E; try done.
    apply Forall_insert; [done|]. rewrite Forall_forall in Hf'.
    apply list_elem_of_lookup_2, Hf' in Hk as [Hb _]. done.
Qed.

Lemma take_node_rep s bs k :
  table s bs → bs.*1 !! k = Some (current_block s) → -1 ≤ last_node s < 15 →
  ∃ s' p n bs', take_node s = Some (s', p) ∧ rep s' bs' k ∧ reserved_blocks s' = reserved_blocks s ∧
    length bs' = length bs ∧ p ≠ NULL ∧ p ∉ (live s bs k).*1 ∧
    live s' bs' k = live s bs k ++ [(p, init_node n)].
Proof.
  intros Ht Hk Hln. apply lookup_fst in Hk as [ns Hk]. pose proof (tb_ok _ _ Ht) as Hok.
  destruct (table_lookup _ _ _ _ _ Ht Hk) as (Hc & Hns & H0). set (i := Z.to_nat (last_node s + 1)).
  destruct (lookup_lt_is_Some_2 ns i) as [n Hi]; [lia|]. pose proof (slots_lookup _ _ _ _ _ _ Hok Hk Hi) as Hs.
  unfold take_node. cbn [heap set_current current_block last_node]. rewrite Hc. cbn [mbind option_bind].
  rewrite decide_True by lia. cbn [nodes next]. fold i. rewrite Hi. cbn [mbind option_bind].
  replace (Z.to_N (last_node s + 1)) with (N.of_nat i) by lia.
  eexists _, _, n, (<[k := (current_block s, <[i := init_node n]> ns)]> bs). split; [done|].
  assert (length (<[i := init_node n]> ns) = 16%nat) as Hlen' by by rewrite length_insert.
  pose proof (table_update _ _ _ _ _ _ (last_node s + 1) Ht Hk Hlen') as Ht'. cbn [block_num set_current] in *.
  split_and!; [|done|by rewrite length_insert|unfold node_ptr; lia| |].
  - split; [exact Ht'|]. cbn. split; [lia|]. right. rewrite (fst_update _ _ _ _ _ Hk), list_lookup_fmap. by rewrite Hk.
  - unfold live. fold i. rewrite fmap_take. intros (q & Hq)%list_elem_of_lookup.
    apply lookup_take_Some in Hq as [Hq Hlt]. pose proof (slots_nodup _ Hok) as Hnd.
    enough (q = (16 * k + i)%nat) by lia. apply (NoDup_lookup _ _ _ _ Hnd Hq). by rewrite list_lookup_fmap, Hs.
  - unfold live. cbn [last_node set_heap set_current]. rewrite (slots_update _ _ _ ns) by (done || lia).
    replace (16 * k + Z.to_nat (last_node s + 1 + 1))%nat with (S (16 * k + i)) by lia. fold i.
    pose proof (lookup_lt_Some _ _ _ Hs).
    rewrite (take_S_r _ _ (node_ptr (current_block s) (N.of_nat i), init_node n)) by by apply list_lookup_insert_eq.
    by rewrite take_insert_ge by lia.
Qed.

(** A state whose current block is the one after [bs], which does not exist. *)
Lemma allocate_past_end s bs m k :
  table s bs → malloc_ok bs m → Z.of_nat (length bs) + 1 < 2 ^ 32 → k = length bs →
  match allocate_block s m with
  | Some (s', err) =>
      if decide (err ≠ 0) then m = None ∧ s' = s else
      ∃ bs', table s' bs' ∧ bs'.*1 !! k = Some (current_block s') ∧ last_node s' = last_node s ∧
        reserved_blocks s' = reserved_blocks s ∧ length bs' = S (length bs) ∧
        take (16 * k) (slots bs') = slots bs
  | None => False
  end.
Proof.
  intros Ht Hm Hlt ->. destruct m as [[b ns]|]; [|cbn; by rewrite decide_True].
  destruct (allocate_block_table _ _ _ _ Ht Hm Hlt) as (s' & -> & Ht' & Hc & Hln & Hr).
  rewrite decide_False by tauto. exists (bs ++ [(b, ns)]). split_and!; try done.
  - rewrite fmap_app, lookup_app_r; rewrite length_fmap; [|done]. rewrite Nat.sub_diag, Hc. done.
  - rewrite length_app. cbn. lia.
  - rewrite slots_app. apply take_app_length'. symmetry. apply length_slots, (tb_ok _ _ Ht).
Qed.

(** What [allocate_node] does to the sequence of nodes. *)
Definition allocated (s s' : allocator) bs bs' (k k' : nat) (m : option (N * list Tranx_node)) (p : N) : Prop :=
  rep s' bs' k' ∧ reserved_blocks s' = reserved_blocks s ∧ (length bs' ≤ S (length bs))%nat ∧
  ((p = NULL ∧ m = None ∧ live s' bs' k' = live s bs k) ∨
   (p ≠ NULL ∧ p ∉ (live s bs k).*1 ∧ ∃ n, live s' bs' k' = live s bs k ++ [(p, init_node n)])).

Lemma take_node_allocated s s1 bs bs1 k k1 m :
  table s1 bs1 → bs1.*1 !! k1 = Some (current_block s1) → -1 ≤ last_node s1 < 15 →
  live s1 bs1 k1 = live s bs k → reserved_blocks s1 = reserved_blocks s → (length bs1 ≤ S (length bs))%nat →
  ∃ s' p bs' k', take_node s1 = Some (s', p) ∧ allocated s s' bs bs' k k' m p.
Proof.
  intros Ht Hk Hln Hlive Hr Hlen.
  destruct (take_node_rep s1 bs1 k1 Ht Hk Hln) as (s' & p & nd & bs2 & -> & Hrep & Hr' & Hl' & Hp & Hnin & Hlive').
  eexists _, _, bs2, k1. split; [done|]. rewrite Hlive in *.
  split_and!; [done|by rewrite Hr', Hr|lia|]. right. eauto.
Qed.

Lemma live_full s bs k : table s bs → length bs = S k → last_node s = 15 → live s bs k = slots bs.
Proof.
  intros Ht Hl Hn. unfold live. apply take_ge. rewrite length_slots by apply (tb_ok _ _ Ht). lia.
Qed.

Lemma table_set_current s bs c n : table s bs → table (set_current s c n) bs.
Proof. by intros []. Qed.

Lemma rep_nonempty s bs k : rep s bs k → bs ≠ [] → bs.*1 !! k = Some (current_block s) ∧ current_block s ≠ NULL.
Proof.
  intros (Ht & _ & [(-> & _)|Hk]) Hne; [done|]. split; [done|].
  apply list_elem_of_lookup_2 in Hk. intros H. rewrite H in Hk. by apply (blocks_ok_nonnull bs (tb_ok _ _ Ht)).
Qed.

Lemma drop_nil_length {A} (l : list A) k : (k < length l)%nat → drop (S k) l = [] → length l = S k.
Proof. intros Hk HD. apply (f_equal length) in HD. rewrite length_drop in HD. cbn in HD. lia. Qed.

Lemma allocate_node_full s bs k m :
  rep s bs k → last_node s = 15 → malloc_ok bs m → Z.of_nat (length bs) + 1 < 2 ^ 32 →
  ∃ s' p bs' k', allocate_node s m = Some (s', p) ∧ allocated s s' bs bs' k k' m p.
Proof.
  intros Hrep H15 Hm Hlt. destruct (rep_nonempty s bs k Hrep) as [Hk H0].
  { intros ->. destruct Hrep as (_ & _ & [(_ & _ & _ & ?)|?]); [lia|done]. }
  destruct Hrep as (Ht & _ & _). pose proof Hk as Hk'. apply lookup_fst in Hk' as [cn Hcn].
  pose proof (lookup_lt_Some _ _ _ Hcn) as Hkl. destruct (table_lookup _ _ _ _ _ Ht Hcn) as (Hc & _).
  unfold allocate_node. rewrite H15. rewrite decide_True by done. rewrite Hc. cbn [mbind option_bind next].
  destruct (drop (S k) bs) as [|[n nn] D] eqn:HD.
  - pose proof (drop_nil_length _ _ Hkl HD) as Hl.
    cbn [hd_addr fmap list_fmap current_block set_current]. rewrite decide_True by done.
    set (s1 := set_current s NULL (-1)).
    pose proof (allocate_past_end s1 bs m (S k) (table_set_current _ _ _ _ Ht) Hm Hlt (eq_sym Hl)) as Ha.
    destruct (allocate_block s1 m) as [[s2 err]|]; [|done]. cbn [mbind option_bind].
    case_decide as He.
    + destruct Ha as [-> ->]. cbn [current_block set_current]. rewrite decide_True by done.
      eexists _, _, bs, k. split; [done|]. split_and!; [|done|lia|].
      * split; [by do 3 apply table_set_current|]. cbn [last_node set_current]. unfold BLOCK_TRANX_NODES. split; [lia|]. by right.
      * left. split_and!; [done..|]. unfold live. cbn [last_node set_current]. by rewrite H15.
    + destruct Ha as (bs' & Ht' & Hk' & Hln & Hr & Hlen & Htake).
      apply (take_node_allocated s s2 bs bs' k (S k)); try done; [rewrite Hln; cbn; lia| |lia].
      rewrite (live_full s bs k Ht Hl H15), <- Htake. unfold live. rewrite Hln. f_equal. cbn. lia.
  - assert (bs !! S k = Some (n, nn)) as Hn by (rewrite <- (Nat.add_0_r (S k)), <- lookup_drop, HD; done).
    cbn [hd_addr fmap list_fmap fst current_block set_current].
    destruct (table_lookup _ _ _ _ _ Ht Hn) as (_ & _ & Hn0). rewrite decide_False by done. cbn [mbind option_bind].
    rewrite decide_False by tauto.
    apply (take_node_allocated s _ bs bs k (S k)); [by apply table_set_current|by rewrite list_lookup_fmap, Hn|done| |done|lia].
    unfold live. rewrite H15. f_equal. cbn. lia.
Qed.

Lemma allocate_node_rep s bs k m :
  rep s bs k → malloc_ok bs m → Z.of_nat (length bs) + 1 < 2 ^ 32 →
  ∃ s' p bs' k', allocate_node s m = Some (s', p) ∧ allocated s s' bs bs' k k' m p.
Proof.
  intros Hrep Hm Hlt. destruct (decide (last_node s = 15)) as [H15|H15]; [by apply allocate_node_full|].
  pose proof Hrep as (Ht & Hln & Hcur).
  unfold allocate_node. rewrite decide_False by done. cbn [mbind option_bind].
  destruct (decide (bs = [])) as [->|Hne].
  - destruct Hcur as [(_ & -> & Hc & Hn)|Hcur]; [|done]. rewrite Hc. rewrite decide_True by done.
    pose proof (allocate_past_end s [] m 0 Ht Hm Hlt eq_refl) as Ha.
    destruct (allocate_block s m) as [[s2 err]|]; [|done]. cbn [mbind option_bind].
    case_decide as He.
    + destruct Ha as [-> ->]. cbn [current_block set_current]. rewrite decide_False by tauto.
      eexists _, _, [], O. split; [done|]. split_and!; [|done|cbn; lia|by left].
      split; [by apply table_set_current|]. cbn. split; [lia|]. by left.
    + destruct Ha as (bs' & Ht' & Hk' & Hln' & Hr & Hlen & Htake).
      apply (take_node_allocated s s2 [] bs' 0 0); try done; [lia| |cbn in *; lia].
      unfold live. by rewrite Hln', Hn.
  - destruct (rep_nonempty s bs k Hrep Hne) as [Hk H0]. rewrite decide_False by done. cbn [mbind option_bind].
    rewrite decide_False by tauto. apply (take_node_allocated s s bs bs k k); try done; lia.
Qed.

(** *** Giving nodes back *)

Lemma trim_lookup k r bs : (k < length bs)%nat → trim k r bs !! k = bs !! k.
Proof.
  intros Hk. unfold trim. rewrite lookup_app_l by (rewrite length_take; lia). apply lookup_take_lt. lia.
Qed.

(** Blocks are kept for reuse: at most the reserved number of them, or those in
    use and one more. *)
Lemma trim_length k r bs :
  (length (trim k r bs) ≤ length bs)%nat ∧
  (0 ≤ r → Z.of_nat (length (trim k r bs)) ≤ Z.max r (Z.of_nat k + 2)).
Proof. unfold trim. rewrite length_app, length_take, length_drop. lia. Qed.

Lemma trim_slots k r bs n :
  Forall (λ b, b.1 ≠ NULL ∧ length b.2 = 16%nat) bs → (k < length bs)%nat → (n ≤ 16 * (k + 1))%nat →
  take n (slots (trim k r bs)) = take n (slots bs).
Proof.
  intros Hf Hk Hn. unfold trim. rewrite <- (take_drop (k + 2) bs) at 4. rewrite !slots_app.
  rewrite !take_app_le; [done|..]; rewrite length_slots by (by apply Forall_take); rewrite length_take; lia.
Qed.

Lemma live_index s bs k p :
  rep s bs k → p ∈ (live s bs k).*1 →
  ∃ j i b ns, bs !! j = Some (b, ns) ∧ (i < 16)%nat ∧ p = node_ptr b (N.of_nat i) ∧ (j ≤ k)%nat ∧
    (live s bs k).*1 !! (16 * j + i)%nat = Some p.
Proof.
  intros (Ht & Hln & _) ([p' n] & -> & Hin)%list_elem_of_fmap. apply list_elem_of_lookup in Hin as [q Hq].
  pose proof Hq as Hq'. unfold live in Hq. apply lookup_take_Some in Hq as [Hq Hlt].
  apply slots_index in Hq as (j & b & ns & i & Hj & Hi & -> & ->); [|apply (tb_ok _ _ Ht)].
  destruct (table_lookup _ _ _ _ _ Ht Hj) as (_ & Hl & _). apply lookup_lt_Some in Hi.
  exists j, i, b, ns. split_and!; try done; [lia|lia|]. by rewrite list_lookup_fmap, Hq'.
Qed.

(** Moving the first [j] blocks behind the others drops their nodes. *)
Lemma live_rotate s s' bs j k r :
  Forall (λ b, b.1 ≠ NULL ∧ length b.2 = 16%nat) bs → (j ≤ k < length bs)%nat →
  last_node s' = last_node s → -1 ≤ last_node s ≤ 15 →
  live s bs k = take (16 * j) (slots bs) ++ live s' (trim (k - j) r (drop j bs ++ take j bs)) (k - j).
Proof.
  intros Hf Hjk Hln' Hln. unfold live. rewrite Hln', trim_slots;
    [|by apply Forall_app; split; [apply Forall_drop|apply Forall_take]|rewrite length_app, length_drop; lia|lia].
  assert (slots bs = slots (take j bs) ++ slots (drop j bs)) as -> by by rewrite <- slots_app, take_drop.
  assert (length (slots (take j bs)) = 16 * j)%nat as Hl16
    by (rewrite length_slots by (by apply Forall_take); rewrite length_take; lia).
  rewrite slots_app, (take_app_length' _ _ (16 * j)) by done.
  rewrite take_app_ge, Hl16 by lia. f_equal.
  rewrite take_app_le by (rewrite length_slots by (by apply Forall_drop); rewrite length_drop; lia).
  f_equal. lia.
Qed.

(** What [free_nodes_before] does to the sequence of nodes. *)
Lemma free_nodes_before_rep s bs k p :
  rep s bs k → p ∈ (live s bs k).*1 →
  ∃ s' bs' k' d, free_nodes_before s p = Some (s', 0) ∧ rep s' bs' k' ∧
    reserved_blocks s' = reserved_blocks s ∧ (length bs' ≤ length bs)%nat ∧
    (d ≠ [] → Z.of_nat (length bs') ≤ Z.max (reserved_blocks s) (Z.of_nat k' + 2)) ∧
    live s bs k = d ++ live s' bs' k' ∧ (16 | length d)%nat ∧ p ∈ take 16 (live s' bs' k').*1.
Proof.
  intros Hrep Hp. destruct (live_index _ _ _ _ Hrep Hp) as (j & i & b & ns & Hj & Hi & Ep & Hjk & Hlk).
  destruct (rep_nonempty _ _ _ Hrep) as [Hk _]; [intros ->; by rewrite lookup_nil in Hj|]. destruct Hrep as (Ht & Hln & _).
  destruct (free_nodes_before_table s bs j k b ns p Ht Hk Hj Hjk) as (s' & -> & Ht' & Hcu & Hln' & Hr);
    [subst p; unfold node_ptr, sizeof_node; lia|].
  case_decide as Hj0.
  - subst j. exists s', bs, k, []. split_and!; try done; [by split_and!; [done|lia..|right; rewrite Hcu]| |by exists 0%nat|].
    + unfold live. by rewrite Hln'.
    + unfold live in *. rewrite Hln'. apply (list_elem_of_lookup_2 _ i), lookup_take_Some. split; [done|lia].
  - set (cs := drop j bs ++ take j bs) in *. pose proof (lookup_lt_Some _ _ _ Hk) as Hkl. rewrite length_fmap in Hkl.
    assert (length cs = length bs) as Hcl by (unfold cs; rewrite length_app, length_drop, length_take; lia).
    assert (Forall (λ b, b.1 ≠ NULL ∧ length b.2 = 16%nat) bs) as Hf by apply (tb_ok _ _ Ht).
    pose proof (live_rotate s s' bs j k (reserved_blocks s) Hf ltac:(lia) Hln' Hln) as E. fold cs in E.
    exists s', (trim (k - j) (reserved_blocks s) cs), (k - j)%nat, (take (16 * j) (slots bs)).
    destruct (trim_length (k - j) (reserved_blocks s) cs) as [Hle Hmax]. rewrite Hcl in Hle.
    split_and!; try done.
    + split_and!; [done|lia..|]. right. rewrite list_lookup_fmap, trim_lookup by lia. unfold cs.
      rewrite lookup_app_l, lookup_drop by (rewrite length_drop; lia).
      replace (j + (k - j))%nat with k by lia. rewrite Hcu. by rewrite <- list_lookup_fmap.
    + intros _. apply Hmax, (tb_res _ _ Ht).
    + exists j. rewrite length_take, length_slots by done. lia.
    + rewrite E, fmap_app, lookup_app_r in Hlk; rewrite length_fmap, length_take, length_slots in * by done; [|lia].
      apply (list_elem_of_lookup_2 _ i), lookup_take_Some. split; [|lia]. rewrite <- Hlk. f_equal. lia.
Qed.

Lemma free_all_nodes_rep s bs k :
  rep s bs k →
  ∃ s' bs', free_all_nodes s = Some (s', 0) ∧ rep s' bs' 0 ∧ reserved_blocks s' = reserved_blocks s ∧
    (length bs' ≤ length bs)%nat ∧ live s' bs' 0 = [].
Proof.
  intros (Ht & _ & _). unfold free_all_nodes.
  pose proof (table_set_current s bs (first_block s) (-1) Ht) as Ht1.
  rewrite (tb_first _ _ Ht) in *. destruct bs as [|[b ns] bs].
  - exists (set_current s NULL (-1)), []. split_and!; [done| |done..]. split_and!; [done..|]. by left.
  - destruct (free_blocks_table _ _ 0 Ht1 eq_refl) as (s' & -> & Ht' & Hc & Hln & Hr). cbn [mbind option_bind].
    eexists s', _. split; [done|]. split_and!; [split_and!; [done|..]|done| |].
    + rewrite Hln. cbn. lia.
    + rewrite Hln. cbn. lia.
    + right. rewrite list_lookup_fmap, trim_lookup by (cbn; lia). by rewrite Hc.
    + apply trim_length.
    + unfold live. by rewrite Hln.
Qed.

(** *** The destructor *)

Lemma destroy_loop_chain bs : ∀ fuel s,
  chain (heap s) bs NULL → NoDup bs.*1 → NULL ∉ bs.*1 → block_num s = Z.of_nat (length bs) →
  Z.of_nat (length bs) < 2 ^ 32 → (length bs < fuel)%nat →
  ∃ s', destroy_loop fuel s (hd_addr bs.*1 NULL) = Some s' ∧ block_num s' = 0 ∧
    ∀ a, heap s' !! a = if decide (a ∈ bs.*1) then None else heap s !! a.
Proof.
  induction bs as [|[b ns] bs IH]; intros fuel s Hc Hnd H0 Hnum Hsm Hf; (destruct fuel as [|fuel]; [cbn in Hf; lia|]).
  { exists s. cbn. split_and!; [done|done|]. intros a. by rewrite decide_False by apply not_elem_of_nil. }
  cbn [destroy_loop hd_addr fmap list_fmap fst]. apply not_elem_of_cons in H0 as [Hb0 H0].
  apply NoDup_cons in Hnd as [Hnb Hnd]. destruct Hc as [Hb Hc].
  rewrite decide_True by done. rewrite Hb. cbn [mbind option_bind]. unfold free_block. rewrite Hb.
  cbn [mbind option_bind next length] in *.
  edestruct (IH fuel (set_heap s (u32 (block_num s - 1)) (delete b (heap s)))) as (s' & -> & Hn & Hh);
    [|done|done| |lia|lia|].
  { apply (chain_frame (heap s)); [|done]. intros c Hin. apply lookup_delete_ne. by intros ->. }
  { cbn [block_num set_heap]. rewrite Hnum, wrapu_small by (unfold in_u; lia). lia. }
  exists s'. split_and!; [done|done|]. intros a. rewrite Hh. cbn [heap set_heap].
  destruct (decide (a = b)) as [->|Hab].
  - rewrite lookup_delete_eq. repeat case_decide; set_solver.
  - rewrite lookup_delete_ne by done. repeat case_decide; set_solver.
Qed.

Lemma destroy_table s bs : table s bs → ∃ s', destroy s = Some s' ∧ block_num s' = 0 ∧ heap s' = ∅.
Proof.
  intros Ht. pose proof (table_size _ _ Ht). pose proof Ht as [Hd Hc Hok Hf Hl Hnum Hsm Hr].
  destruct (destroy_loop_chain bs (S (size (heap s))) s) as (s' & E & Hn & Hh);
    [done|by destruct Hok|by apply blocks_ok_nonnull|done|done|lia|].
  unfold destroy. rewrite Hf. exists s'. split_and!; [done|done|]. apply map_empty. intros a. rewrite Hh.
  case_decide as Hin; [done|]. destruct (heap s !! a) eqn:Ea; [|done]. destruct Hin. apply Hd. by rewrite Ea.
Qed.

End table.

(** ** Histories *)

Section history.
Import Tranx.

(** The blocks of the table and the nodes in use, computed from a state. *)
Fixpoint table_of (fuel : nat) (h : gmap N Block) (b : N) : list (N * list Tranx_node) :=
  match fuel with
  | O => []
  | S fuel => match h !! b with Some B => (b, nodes B) :: table_of fuel h (next B) | None => [] end
  end.

Definition in_use (s : allocator) : list (N * Tranx_node) :=
  let bs := table_of (size (heap s)) (heap s) (first_block s) in
  let k := default O (fst <$> list_find (λ b, b.1 = current_block s) bs) in
  take (16 * k + Z.to_nat (last_node s + 1)) (slots bs).

Inductive op := Alloc (m : option (N * list Tranx_node)) | FreeBefore (p : N) | FreeAll.
Inductive result := Ptr (p : N) | Code (c : Z).

Definition exec (s : allocator) (o : op) : option (allocator * result) :=
  match o with
  | Alloc m => '(s, p) ← allocate_node s m; Some (s, Ptr p)
  | FreeBefore p => '(s, c) ← free_nodes_before s p; Some (s, Code c)
  | FreeAll => '(s, c) ← free_all_nodes s; Some (s, Code c)
  end.

Fixpoint run (s : allocator) (os : list op) : option (allocator * list result) :=
  match os with
  | [] => Some (s, [])
  | o :: os => '(s, r) ← exec s o; '(s, rs) ← run s os; Some (s, r :: rs)
  end.

(** The sequence of nodes a user of the allocator sees.  The nodes before one are
    given back by whole blocks of 16 from the front: those kept start with the
    block of the node. *)
Inductive queue_step : list (N * Tranx_node) → op → result → list (N * Tranx_node) → Prop :=
  | q_fail xs : queue_step xs (Alloc None) (Ptr NULL) xs
  | q_alloc xs m p n : p ≠ NULL → p ∉ xs.*1 → queue_step xs (Alloc m) (Ptr p) (xs ++ [(p, init_node n)])
  | q_before d xs p : (16 | length d)%nat → p ∈ take 16 xs.*1 → queue_step (d ++ xs) (FreeBefore p) (Code 0) xs
  | q_all xs : queue_step xs FreeAll (Code 0) [].

Inductive queue_steps : list (N * Tranx_node) → list op → list result → list (N * Tranx_node) → Prop :=
  | qs_nil xs : queue_steps xs [] [] xs
  | qs_cons xs o r ys os rs zs :
      queue_step xs o r ys → queue_steps ys os rs zs → queue_steps xs (o :: os) (r :: rs) zs.

(** The memory [my_malloc] returns does not overlap a block that exists, and
    nodes are given back up to one that is in use. *)
Definition allowed (s : allocator) (o : op) : Prop :=
  match o with
  | Alloc (Some (b, ns)) =>
      b ≠ NULL ∧ length ns = 16%nat ∧ map_Forall (λ a _, a ≠ b ∧ apart a b) (heap s)
  | Alloc None => True
  | FreeBefore p => p ∈ (in_use s).*1
  | FreeAll => True
  end.

Fixpoint legal (s : allocator) (os : list op) : Prop :=
  match os with
  | [] => True
  | o :: os => allowed s o ∧ match exec s o with Some (s', _) => legal s' os | None => True end
  end.

#[global] Instance allowed_dec s o : Decision (allowed s o).
Proof. destruct o as [[[b ns]|]|p|]; cbn [allowed]; unfold apart; apply _. Defined.

#[global] Instance legal_dec s os : Decision (legal s os).
Proof.
  revert s. induction os as [|o os IH]; intros s; cbn [legal]; [apply _|].
  destruct (exec s o) as [[s' r]|]; apply _.
Defined.

Lemma table_of_chain bs h : ∀ fuel,
  chain h bs NULL → h !! NULL = None → (length bs ≤ fuel)%nat → table_of fuel h (hd_addr bs.*1 NULL) = bs.
Proof.
  induction bs as [|[b ns] bs IH]; intros fuel Hc H0 Hf.
  - cbn [hd_addr fmap list_fmap]. destruct fuel; cbn; [done|]. by rewrite H0.
  - destruct Hc as [Hb Hc]. destruct fuel as [|fuel]; [cbn in Hf; lia|]. cbn [hd_addr fmap list_fmap fst table_of].
    rewrite Hb. cbn [next nodes]. f_equal. apply IH; [done..|cbn in Hf; lia].
Qed.

Lemma rep_in_use s bs k : rep s bs k → in_use s = live s bs k.
Proof.
  intros Hrep. pose proof Hrep as (Ht & _ & Hk). pose proof Ht as [Hd Hc Hok Hf _ _ _ _]. unfold in_use.
  rewrite Hf, table_of_chain; [|done| |by apply table_size].
  2: { apply eq_None_not_Some. intros Hin%Hd. by apply (blocks_ok_nonnull bs). }
  destruct Hk as [(-> & -> & _)|Hk]; [done|]. unfold live. do 2 f_equal.
  apply lookup_fst in Hk as [ns Hk].
  assert (list_find (λ b, b.1 = current_block s) bs = Some (k, (current_block s, ns))) as ->; [|done].
  apply list_find_Some. split_and!; [done|done|]. intros j [a as_] Hj Hlt Ha. cbn in Ha. subst a.
  destruct Hok as (Hnd & _). enough (j = k) by lia.
  apply (NoDup_lookup bs.*1 _ _ (current_block s)); [done|..]; rewrite list_lookup_fmap; [by rewrite Hj|by rewrite Hk].
Qed.

Lemma rep_nodup s bs k : rep s bs k → NoDup (in_use s).*1.
Proof.
  intros Hrep. rewrite (rep_in_use _ _ _ Hrep). unfold live. rewrite fmap_take.
  eapply sublist_NoDup; [|apply sublist_take]. apply slots_nodup. by destruct Hrep as ([] & _).
Qed.

Lemma tranx_exec_rep s bs k o :
  rep s bs k → allowed s o → Z.of_nat (length bs) + 1 < 2 ^ 32 →
  ∃ s' r bs' k', exec s o = Some (s', r) ∧ rep s' bs' k' ∧ (length bs' ≤ S (length bs))%nat ∧
    queue_step (in_use s) o r (in_use s').
Proof.
  intros Hrep Ha Hlt. rewrite (rep_in_use _ _ _ Hrep). destruct o as [m|p|]; cbn [exec].
  - destruct (allocate_node_rep s bs k m Hrep) as (s' & p & bs' & k' & -> & Hrep' & _ & Hl & Hres); [|done|].
    { destruct m as [[b ns]|]; [|done]. destruct Ha as (Hb & Hns & Hap). split_and!; [done..|].
      intros a Hin. apply list_elem_of_lookup in Hin as [i Hi]. apply lookup_fst in Hi as [as_ Hi].
      destruct Hrep as (Ht & _). destruct (table_lookup _ _ _ _ _ Ht Hi) as (Hh & _). apply (Hap _ _ Hh). }
    eexists s', _, bs', k'. split_and!; [done|done|done|]. rewrite (rep_in_use _ _ _ Hrep').
    destruct Hres as [(-> & -> & ->)|(Hp & Hnin & n & ->)]; by constructor.
  - change (p ∈ (in_use s).*1) in Ha. rewrite (rep_in_use _ _ _ Hrep) in Ha.
    destruct (free_nodes_before_rep s bs k p Hrep Ha) as (s' & bs' & k' & d & -> & Hrep' & _ & Hl & _ & -> & Hd & Hp).
    eexists s', _, bs', k'. split_and!; [done|done|lia|]. rewrite (rep_in_use _ _ _ Hrep'). by constructor.
  - destruct (free_all_nodes_rep s bs k Hrep) as (s' & bs' & -> & Hrep' & _ & Hl & Hnil).
    eexists s', _, bs', O. split_and!; [done|done|lia|]. rewrite (rep_in_use _ _ _ Hrep'), Hnil. by constructor.
Qed.

Lemma tranx_run_rep os : ∀ s bs k,
  rep s bs k → legal s os → Z.of_nat (length bs) + Z.of_nat (length os) < 2 ^ 32 →
  ∃ s' rs bs' k', run s os = Some (s', rs) ∧ rep s' bs' k' ∧ queue_steps (in_use s) os rs (in_use s').
Proof.
  induction os as [|o os IH]; intros s bs k Hrep Hlegal Hlt.
  { exists s, [], bs, k. split_and!; [done|done|constructor]. }
  cbn [length] in Hlt. destruct Hlegal as [Ha Hl].
  destruct (tranx_exec_rep s bs k o Hrep Ha) as (s1 & r & bs1 & k1 & He & Hrep1 & Hlen & Hq); [lia|].
  rewrite He in Hl. destruct (IH s1 bs1 k1 Hrep1 Hl) as (s' & rs & bs' & k' & Hrun & Hrep' & Hqs); [lia|].
  exists s', (r :: rs), bs', k'. cbn [run]. rewrite He. cbn [mbind option_bind]. rewrite Hrun.
  split_and!; [done|done|]. by econstructor.
Qed.

Lemma new_allocator_rep n : rep (new_allocator n) [] 0.
Proof.
  split_and!; [constructor; cbn [heap new_allocator]; try done|done..|by left].
  - intros a [x Hx]. by rewrite lookup_empty in Hx.
  - split_and!; [constructor..|]. intros a b Hin. by apply elem_of_nil in Hin.
  - cbn. apply wrapu_range. lia.
Qed.

(** [C22] Every history of a new allocator in which [my_malloc] returns memory of its
    own and nodes are given back up to one in use has a result: no block is
    used after it was freed, and none freed twice.  The nodes in use behave as a
    queue: allocation appends a node that is not in use, with its members reset,
    or returns null when memory is exhausted and changes nothing; nodes keep
    their contents until they are given back; [free_nodes_before] gives back whole
    blocks of 16 nodes from the front and keeps the nodes from the start of the
    block of the one named, so up to 15 nodes before it stay in use.  Nodes in use are
    distinct, and the destructor then frees every block. *)
Theorem tranx_allocator_is_queue reserved_nodes os :
  legal (new_allocator reserved_nodes) os → Z.of_nat (length os) < 2 ^ 32 →
  ∃ s rs, run (new_allocator reserved_nodes) os = Some (s, rs) ∧
    queue_steps [] os rs (in_use s) ∧ NoDup (in_use s).*1 ∧
    ∃ s', destroy s = Some s' ∧ block_num s' = 0 ∧ heap s' = ∅.
Proof.
  intros Hl Hlt. destruct (tranx_run_rep os _ _ _ (new_allocator_rep reserved_nodes) Hl) as (s & rs & bs & k & Hrun & Hrep & Hq).
  { done. }
  exists s, rs. split_and!; [done|exact Hq|by eapply rep_nodup|]. destruct Hrep as (Ht & _). by eapply destroy_table.
Qed.

(** The garbage in a block that was just allocated. *)
Definition garbage : list Tranx_node := replicate 16 (Node [7; 7] 1 1%N 1%N).

(** Sixteen nodes fill a block; the seventeenth needs another one, at 200000. *)
Lemma tranx_allocator_is_queue_witness :
  let os := Alloc (Some (100000%N, garbage)) :: replicate 15 (Alloc None) ++
            [Alloc None; Alloc (Some (200000%N, garbage)); FreeBefore 200008%N; FreeAll] in
  ∃ s rs, run (new_allocator 20) os = Some (s, rs) ∧
    queue_steps [] os rs (in_use s) ∧ NoDup (in_use s).*1 ∧
    ∃ s', destroy s = Some s' ∧ block_num s' = 0 ∧ heap s' = ∅.
Proof.
  intros os. apply tranx_allocator_is_queue; [|done]. apply (bool_decide_unpack (legal (new_allocator 20) os)). vm_compute. exact I.
Defined.

Lemma live_length s bs k : rep s bs k → bs ≠ [] → length (in_use s) = (16 * k + Z.to_nat (last_node s + 1))%nat.
Proof.
  intros Hrep Hne. rewrite (rep_in_use _ _ _ Hrep). destruct (rep_nonempty _ _ _ Hrep Hne) as [Hk _].
  destruct Hrep as (Ht & Hln & _). apply lookup_lt_Some in Hk. rewrite length_fmap in Hk.
  unfold live. rewrite length_take, length_slots by apply (tb_ok _ _ Ht). lia.
Qed.

(** When [free_nodes_before] gives nodes back after any history, the blocks that
    remain are no more than the reserved number, or than the blocks the nodes in
    use need and one free block more. *)
Theorem tranx_free_nodes_bounds reserved_nodes os s rs p :
  legal (new_allocator reserved_nodes) os → Z.of_nat (length os) < 2 ^ 32 →
  run (new_allocator reserved_nodes) os = Some (s, rs) → p ∈ (in_use s).*1 →
  ∃ s', free_nodes_before s p = Some (s', 0) ∧
    (in_use s' = in_use s ∨
     block_num s' ≤ Z.max (reserved_blocks s) (Z.of_nat (length (in_use s')) / 16 + 2)).
Proof.
  intros Hl Hlt Hrun Hp.
  destruct (tranx_run_rep os _ _ _ (new_allocator_rep reserved_nodes) Hl Hlt) as (s0 & rs0 & bs & k & Hrun' & Hrep & _).
  rewrite Hrun in Hrun'. injection Hrun' as <- <-. rewrite (rep_in_use _ _ _ Hrep) in Hp.
  destruct (free_nodes_before_rep s bs k p Hrep Hp) as (s' & bs' & k' & d & -> & Hrep' & _ & _ & Hb & Hlive & _ & Hin).
  exists s'. split; [done|]. rewrite (rep_in_use _ _ _ Hrep), Hlive, <- (rep_in_use _ _ _ Hrep').
  destruct d as [|x d]; [by left|]. right. specialize (Hb ltac:(done)).
  rewrite (live_length s' bs' k' Hrep').
  - destruct Hrep' as (Ht' & Hln' & _). rewrite (tb_num _ _ Ht').
    pose proof (Z.div_le_lower_bound (Z.of_nat (16 * k' + Z.to_nat (last_node s' + 1))) 16 (Z.of_nat k')
      ltac:(lia) ltac:(lia)).
    lia.
  - intros ->. unfold live in Hin. cbn in Hin. rewrite !take_nil in Hin. cbn in Hin. by apply elem_of_nil in Hin.
Qed.

(** After 33 allocations in three blocks, giving back up to the last node leaves
    the third block, the block after it and the reserved ones. *)
Lemma tranx_free_nodes_bounds_witness :
  let os := Alloc (Some (100000%N, garbage)) :: replicate 15 (Alloc None) ++
            Alloc (Some (200000%N, garbage)) :: replicate 15 (Alloc None) ++
            [Alloc (Some (300000%N, garbage))] in
  ∃ s rs s', run (new_allocator 1) os = Some (s, rs) ∧ free_nodes_before s 300008%N = Some (s', 0) ∧
    (in_use s' = in_use s ∨
     block_num s' ≤ Z.max (reserved_blocks s) (Z.of_nat (length (in_use s')) / 16 + 2)).
Proof.
  intros os. destruct (run (new_allocator 1) os) as [[s rs]|] eqn:E; [|by vm_compute in E].
  destruct (tranx_free_nodes_bounds 1 os s rs 300008%N) as (s' & H).
  - apply (bool_decide_unpack (legal (new_allocator 1) os)). vm_compute. exact I.
  - vm_compute. reflexivity.
  - exact E.
  - vm_compute in E. injection E as <- <-. apply (bool_decide_unpack _). vm_compute. exact I.
  - exists s, rs, s'. split; [reflexivity|exact H].
Defined.

End history.
