(* ===== verification/Doubles.v ===== *)
(** * Doubles

    A C [double] is a binary64 value of the Standard Library's specification of
    IEEE 754, with rounding to nearest even.  The file holds the operations the
    components use, and that integers below [2^53] are represented exactly. *)

From S2P Require Import Prelude.
From Stdlib Require Import ZArith Lia SpecFloat.
From stdpp Require Import base numbers option.
Open Scope Z_scope.

Module Double.

Definition mul : spec_float → spec_float → spec_float := SFmul 53 1024.
Definition div : spec_float → spec_float → spec_float := SFdiv 53 1024.

(** The conversion of an integer. *)
Definition of_Z (z : Z) : spec_float := binary_normalize 53 1024 z 0 false.

(** The value without its fraction. *)
Definition trunc (x : spec_float) : option Z :=
  match x with
  | S754_zero _ => Some 0
  | S754_finite s m e => let v := Z.shiftl (Zpos m) e in Some (if s then - v else v)
  | _ => None
  end.

(** The conversion to the unsigned type of width [w]. *)
Definition to_uint (w : Z) (x : spec_float) : option Z :=
  v ← trunc x; if decide (in_u w v) then Some v else None.

Definition add_d : spec_float → spec_float → spec_float := SFadd 53 1024.
Definition sub_d : spec_float → spec_float → spec_float := SFsub 53 1024.
Definition ltb_d : spec_float → spec_float → bool := SFltb.
Definition leb_d : spec_float → spec_float → bool := SFleb.
Definition eqb_d : spec_float → spec_float → bool := SFeqb.

(** The greatest integer not above, and the least not below, a finite value. *)
Definition floor_Z (x : spec_float) : option Z :=
  match x with
  | S754_zero _ => Some 0
  | S754_finite s m e => Some (Z.shiftl (if s then Zneg m else Zpos m) e)
  | _ => None
  end.
Definition ceil_Z (x : spec_float) : option Z := Z.opp <$> floor_Z (SFopp x).

(** [floor] and [ceil]; infinities and NaN are returned as they are. *)
Definition floor_d (x : spec_float) : spec_float := match floor_Z x with Some z => of_Z z | None => x end.
Definition ceil_d (x : spec_float) : spec_float := match ceil_Z x with Some z => of_Z z | None => x end.

End Double.

(** ** Integers as doubles *)

Section integers.
Import Double.

Lemma digits2_size p : digits2_pos p = Pos.size p.
Proof. induction p as [p IH|p IH|]; cbn; congruence. Qed.

(** A canonical value is its own rounding. *)
Lemma round_canonical sx m e :
  fexp 53 1024 (Zpos (digits2_pos m) + e) = e → e ≤ 1024 - 53 →
  binary_round_aux 53 1024 sx (Zpos m) e loc_Exact = S754_finite sx m e.
Proof.
  intros Hf He. unfold binary_round_aux, shr_fexp. cbn [Zdigits2 shr_record_of_loc].
  rewrite Hf, Z.sub_diag. cbn [shr shr_m loc_of_shr_record round_nearest_even Zdigits2 shr_record_of_loc].
  rewrite Hf, Z.sub_diag. cbn [shr shr_m]. by rewrite (proj2 (Z.leb_le _ _) He).
Qed.

Lemma iter_xO p d : Pos.iter xO p d = (p * 2 ^ d)%positive.
Proof.
  rewrite Pos.mul_comm. revert p. induction d as [|d IH] using Pos.peano_ind; intros p; [done|].
  rewrite Pos.iter_succ, IH, Pos.pow_succ_r. lia.
Qed.

Lemma size_shift p d : Zpos (Pos.size (Pos.iter xO p d)) = Zpos (Pos.size p) + Zpos d.
Proof.
  induction d as [|d IH] using Pos.peano_ind; [cbn; lia|]. rewrite Pos.iter_succ. cbn [Pos.size]. lia.
Qed.

(** A positive integer below [2^53] is represented exactly, its mantissa
    shifted to 53 bits. *)
Lemma of_Z_exact p : (p < 2 ^ 53)%positive →
  ∃ m, of_Z (Zpos p) = S754_finite false m (Zpos (Pos.size p) - 53) ∧
    Zpos m = Zpos p * 2 ^ (53 - Zpos (Pos.size p)).
Proof.
  intros Hp. pose proof (Pos.size_le p) as Hs.
  assert ((Pos.size p ≤ 53)%positive) as Hd.
  { destruct (decide (Pos.size p ≤ 53)%positive) as [|Hgt]; [done|].
    pose proof (Z.pow_le_mono_r 2 54 (Zpos (Pos.size p)) ltac:(lia) ltac:(lia)). lia. }
  unfold of_Z, binary_normalize, binary_round. rewrite digits2_size, Z.add_0_r.
  assert (fexp 53 1024 (Zpos (Pos.size p)) = Zpos (Pos.size p) - 53) as -> by (unfold fexp, emin; lia).
  unfold shl_align. rewrite Z.sub_0_r. destruct (Zpos (Pos.size p) - 53) as [|q|q] eqn:E; [|lia|].
  - rewrite round_canonical; [|rewrite digits2_size; unfold fexp, emin; lia|lia].
    exists p. split; [done|]. replace (53 - _) with 0 by lia. lia.
  - rewrite round_canonical; [|rewrite digits2_size, size_shift; unfold fexp, emin; lia|lia].
    eexists. split; [done|]. replace (53 - _) with (Zpos q) by lia. rewrite iter_xO. lia.
Qed.

(** On these integers the comparison of doubles is that of the integers. *)
Lemma eqb_of_Z a b : 0 < a < 2 ^ 53 → 0 < b < 2 ^ 53 → eqb_d (of_Z a) (of_Z b) = bool_decide (a = b).
Proof.
  intros Ha Hb. destruct a as [|a|a], b as [|b|b]; try lia.
  destruct (of_Z_exact a ltac:(lia)) as (ma & -> & Ema), (of_Z_exact b ltac:(lia)) as (mb & -> & Emb).
  unfold eqb_d, SFeqb, SFcompare. destruct (Z.compare_spec (Zpos (Pos.size a) - 53) (Zpos (Pos.size b) - 53)) as [E|E|E].
  - assert (Pos.size a = Pos.size b) as Es by lia. change (Pos.compare_cont Eq ma mb) with (Pos.compare ma mb).
    destruct (Pos.compare_spec ma mb) as [Em|Em|Em].
    + rewrite bool_decide_true; [done|]. rewrite Es in Ema. pose proof (Z.pow_pos_nonneg 2 (53 - Zpos (Pos.size b))). nia.
    + rewrite bool_decide_false; [done|]. intros [= ->]. lia.
    + rewrite bool_decide_false; [done|]. intros [= ->]. lia.
  - rewrite bool_decide_false; [done|]. intros [= ->]. lia.
  - rewrite bool_decide_false; [done|]. intros [= ->]. lia.
Qed.

End integers.

(** There is at most one integer strictly between a value's floor and ceiling. *)
Lemma floor_ceil (x : spec_float) F C :
  Double.floor_Z x = Some F → Double.ceil_Z x = Some C → F ≤ C ≤ F + 1.
Proof.
  unfold Double.ceil_Z. destruct x as [s|s| |s m e]; cbn; intros [= <-] [= <-]; [lia|].
  assert (∀ a b, a + b = 0 → Z.shiftl a e ≤ - Z.shiftl b e ≤ Z.shiftl a e + 1) as H.
  { intros a b Hab. replace b with (- a) by lia. destruct (Z_le_gt_dec 0 e) as [He|He].
    - rewrite !Z.shiftl_mul_pow2 by lia. lia.
    - rewrite !Z.shiftl_div_pow2 by lia. pose proof (Z.pow_pos_nonneg 2 (- e)).
      Z.to_euclidean_division_equations. nia. }
  apply H. destruct s; cbn; lia.
Qed.

(** ** The order of the doubles

    A double other than NaN is mapped to an integer such that the comparisons are
    those of the integers, so that [lia] decides them. *)

Section order.
Import Double.

(** The values binary64 has, NaN excepted. *)
Definition is_num (x : spec_float) : bool :=
  match x with
  | S754_nan => false
  | S754_finite _ m e => bool_decide (Zpos m < 2 ^ 53 ∧ -1074 ≤ e ≤ 971)
  | _ => true
  end.

Definition code (x : spec_float) : Z :=
  match x with
  | S754_nan | S754_zero _ => 0
  | S754_finite s m e => let v := (e + 1075) * 2 ^ 53 + Zpos m in if s then - v else v
  | S754_infinity s => if s then - 2 ^ 64 else 2 ^ 64
  end.

Lemma compare_code x y : is_num x = true → is_num y = true → SFcompare x y = Some (code x ?= code y).
Proof.
  destruct x as [sx|sx| |sx mx ex], y as [sy|sy| |sy my ey]; cbn [is_num]; try done;
    intros Hx Hy; rewrite ?bool_decide_eq_true in *; destruct sx, sy; cbn [SFcompare code]; f_equal;
    try (symmetry; apply Z.compare_lt_iff; lia); try (symmetry; apply Z.compare_gt_iff; lia); try done;
    change (Pos.compare_cont Eq mx my) with (Pos.compare mx my);
    destruct (Z.compare_spec ex ey) as [->|He|He];
    try (destruct (Pos.compare_spec mx my) as [->|Hm|Hm]; cbn [CompOpp]);
    symmetry; first [apply Z.compare_eq_iff; lia|apply Z.compare_lt_iff; lia|apply Z.compare_gt_iff; lia].
Qed.

Lemma ltb_code x y : is_num x = true → is_num y = true → ltb_d x y = bool_decide (code x < code y).
Proof.
  intros Hx Hy. unfold ltb_d, SFltb. rewrite compare_code by done.
  destruct (Z.compare_spec (code x) (code y)); symmetry; by (apply bool_decide_true; lia) || (apply bool_decide_false; lia).
Qed.

Lemma leb_code x y : is_num x = true → is_num y = true → leb_d x y = bool_decide (code x ≤ code y).
Proof.
  intros Hx Hy. unfold leb_d, SFleb. rewrite compare_code by done.
  destruct (Z.compare_spec (code x) (code y)); symmetry; by (apply bool_decide_true; lia) || (apply bool_decide_false; lia).
Qed.

Lemma eqb_code x y : is_num x = true → is_num y = true → eqb_d x y = bool_decide (code x = code y).
Proof.
  intros Hx Hy. unfold eqb_d, SFeqb. rewrite compare_code by done.
  destruct (Z.compare_spec (code x) (code y)); symmetry; by (apply bool_decide_true; lia) || (apply bool_decide_false; lia).
Qed.

End order.
