(* ===== verification/Statistics.v ===== *)
(** * Table statistics (sql_statistics.h)

    The histogram of a column, [Column_statistics] and [Index_statistics].  A
    conversion of a [double] to an integer type that cannot represent the
    truncated value, which C leaves undefined, has no result. *)

From S2P Require Import Prelude ByteOrder Doubles.
From Stdlib Require Import ZArith Lia SpecFloat.
From stdpp Require Import base numbers option list sets sorting.
Open Scope Z_scope.
Open Scope cint_scope.

Module Statistics.
Import Double.

Inductive Histogram_type := SINGLE_PREC_HB | DOUBLE_PREC_HB.

(** [values]: the bytes at the pointer, none for a null pointer. *)
Record Histogram := Hist { type : Histogram_type; size : Z; values : option (list Z) }.

Definition prec_factor (h : Histogram) : Z :=
  match type h with SINGLE_PREC_HB => u32 (1 ≪ 8) - 1 | DOUBLE_PREC_HB => u32 (1 ≪ 16) - 1 end.

Definition get_width (h : Histogram) : Z :=
  match type h with SINGLE_PREC_HB => size h | DOUBLE_PREC_HB => size h / 2 end.

Definition get_value (h : Histogram) (i : Z) : option Z :=
  if decide (i < get_width h) then
  m ← values h;
  match type h with
  | SINGLE_PREC_HB => rd m 0 (Z.to_nat i)
  | DOUBLE_PREC_HB => Generic.uint2korr m (Z.to_nat (u32 (i * 2)))
  end
  else None.

(** The binary search of [find_bucket]. *)
Fixpoint search_loop (fuel : nat) (h : Histogram) (val lp rp d i : Z) : option Z :=
  match fuel with
  | O => None
  | S fuel =>
      if decide (d ≠ 0) then
        v ← get_value h i;
        if decide (val = v) then Some i else
        if decide (val < v) then
          let rp := i in
          let d := Z.quot (rp - lp) 2 in search_loop fuel h val lp rp d (u32 (lp + d))
        else
          v1 ← get_value h (u32 (i + 1));
          if decide (v1 < val) then
            let lp := u32 (i + 1) in
            let d := Z.quot (rp - lp) 2 in search_loop fuel h val lp rp d (u32 (lp + d))
          else Some i
      else Some i
  end.

(** [while(i && val == get_value(i - 1)) i--] *)
Fixpoint down_loop (fuel : nat) (h : Histogram) (val i : Z) : option Z :=
  match fuel with
  | O => None
  | S fuel =>
      if decide (i ≠ 0) then
        v ← get_value h (u32 (i - 1));
        if decide (val = v) then down_loop fuel h val (u32 (i - 1)) else Some i
      else Some i
  end.

(** [while(i + 1 < get_width() && val == get_value(i + 1)) i++] *)
Fixpoint up_loop (fuel : nat) (h : Histogram) (val i : Z) : option Z :=
  match fuel with
  | O => None
  | S fuel =>
      if decide (u32 (i + 1) < get_width h) then
        v ← get_value h (u32 (i + 1));
        if decide (val = v) then up_loop fuel h val (u32 (i + 1)) else Some i
      else Some i
  end.

(** Each loop runs at most once per value. *)
Definition find_bucket (h : Histogram) (pos : spec_float) (first : bool) : option Z :=
  let fuel := S (Z.to_nat (get_width h)) in
  val ← to_uint 32 (mul pos (of_Z (prec_factor h)));
  let lp := 0 in
  let rp := s32 (u32 (get_width h - 1)) in
  let d := get_width h / 2 in
  i ← search_loop fuel h val lp rp d (u32 (lp + d));
  v ← get_value h i;
  let i := if decide (v < val ∧ i < u32 (get_width h - 1)) then u32 (i + 1) else i in
  v ← get_value h i;
  if decide (val = v) then if first then down_loop fuel h val i else up_loop fuel h val i
  else Some i.

Definition get_size (h : Histogram) : Z := size h.
Definition get_type (h : Histogram) : Histogram_type := type h.
Definition get_values (h : Histogram) : option (list Z) := values h.
Definition set_size (h : Histogram) (sz : Z) : Histogram := Hist (type h) (u8 sz) (values h).
Definition set_type (h : Histogram) (t : Histogram_type) : Histogram := Hist t (size h) (values h).
Definition set_values (h : Histogram) (vals : option (list Z)) : Histogram := Hist (type h) (size h) vals.
Definition is_available (h : Histogram) : bool :=
  bool_decide (0 < get_size h) && match get_values h with Some _ => true | None => false end.

(** The portable [int2store] converts the product to [uint]. *)
Definition set_value (h : Histogram) (i : Z) (val : spec_float) : option Histogram :=
  m ← values h;
  let x := mul val (of_Z (prec_factor h)) in
  match type h with
  | SINGLE_PREC_HB => v ← to_uint 8 x; m ← wr 0 (Z.to_nat i) v m; Some (set_values h (Some m))
  | DOUBLE_PREC_HB =>
      v ← to_uint 32 x; m ← Generic.int2store m (Z.to_nat (u32 (i * 2))) v; Some (set_values h (Some m))
  end.

Definition set_prev_value (h : Histogram) (i : Z) : option Histogram :=
  m ← values h;
  match type h with
  | SINGLE_PREC_HB =>
      v ← rd m 0 (Z.to_nat (u32 (i - 1))); m ← wr 0 (Z.to_nat i) v m; Some (set_values h (Some m))
  | DOUBLE_PREC_HB =>
      v ← (if decide (2 ≤ u32 (i * 2)) then Generic.uint2korr m (Z.to_nat (u32 (i * 2) - 2)) else None);
      m ← Generic.int2store m (Z.to_nat (u32 (i * 2))) v; Some (set_values h (Some m))
  end.

Definition range_selectivity (h : Histogram) (min_pos max_pos : spec_float) : option spec_float :=
  let bucket_sel := div (of_Z 1) (of_Z (u32 (get_width h + 1))) in
  min ← find_bucket h min_pos true;
  max ← find_bucket h max_pos false;
  Some (mul bucket_sel (of_Z (u32 (u32 (max - min) + 1)))).

(** *** Column_statistics *)

Definition COLUMN_STAT_DB_NAME : Z := 0.
Definition COLUMN_STAT_TABLE_NAME : Z := 1.
Definition COLUMN_STAT_COLUMN_NAME : Z := 2.
Definition COLUMN_STAT_MIN_VALUE : Z := 3.
Definition COLUMN_STAT_MAX_VALUE : Z := 4.
Definition COLUMN_STAT_NULLS_RATIO : Z := 5.
Definition COLUMN_STAT_AVG_LENGTH : Z := 6.
Definition COLUMN_STAT_AVG_FREQUENCY : Z := 7.
Definition COLUMN_STAT_HIST_SIZE : Z := 8.
Definition COLUMN_STAT_HIST_TYPE : Z := 9.
Definition COLUMN_STAT_HISTOGRAM : Z := 10.

Definition Scale_factor_nulls_ratio : Z := 100000.
Definition Scale_factor_avg_length : Z := 100000.
Definition Scale_factor_avg_frequency : Z := 100000.

(** The members with operations; [min_value] and [max_value] are fields. *)
Record Column_statistics := ColStat {
  column_stat_nulls : Z; nulls_ratio : Z; avg_length : Z; avg_frequency : Z; histogram : Histogram }.

Definition with_nulls (c : Column_statistics) (n : Z) : Column_statistics :=
  ColStat n (nulls_ratio c) (avg_length c) (avg_frequency c) (histogram c).

Definition no_values_provided_bitmap : Z :=
  u32 (((1 ≪ (COLUMN_STAT_HISTOGRAM - COLUMN_STAT_COLUMN_NAME)) - 1) ≪ (COLUMN_STAT_COLUMN_NAME + 1)).

Definition set_all_nulls (c : Column_statistics) : Column_statistics := with_nulls c no_values_provided_bitmap.

(** [1 << stat_field_no] of type [int]: defined for the bits below the sign. *)
Definition field_bit (stat_field_no : Z) : option Z :=
  if decide (0 ≤ stat_field_no < 31) then Some (1 ≪ stat_field_no) else None.

Definition set_not_null (c : Column_statistics) (stat_field_no : Z) : option Column_statistics :=
  b ← field_bit stat_field_no;
  Some (with_nulls c (column_stat_nulls c .& u32 (Z.lnot b))).

Definition is_null (c : Column_statistics) (stat_field_no : Z) : option bool :=
  b ← field_bit stat_field_no;
  Some (bool_decide (column_stat_nulls c .& b ≠ 0)).

Definition get_nulls_ratio (c : Column_statistics) : spec_float :=
  div (of_Z (nulls_ratio c)) (of_Z Scale_factor_nulls_ratio).
Definition get_avg_length (c : Column_statistics) : spec_float :=
  div (of_Z (avg_length c)) (of_Z Scale_factor_avg_length).
Definition get_avg_frequency (c : Column_statistics) : spec_float :=
  div (of_Z (avg_frequency c)) (of_Z Scale_factor_avg_frequency).

(** [ulong] has [lw] bits: 32 on Windows, 64 on the other 64-bit systems. *)
Definition set_nulls_ratio (lw : Z) (c : Column_statistics) (val : spec_float) : option Column_statistics :=
  v ← to_uint lw (mul val (of_Z Scale_factor_nulls_ratio));
  Some (ColStat (column_stat_nulls c) v (avg_length c) (avg_frequency c) (histogram c)).
Definition set_avg_length (lw : Z) (c : Column_statistics) (val : spec_float) : option Column_statistics :=
  v ← to_uint lw (mul val (of_Z Scale_factor_avg_length));
  Some (ColStat (column_stat_nulls c) (nulls_ratio c) v (avg_frequency c) (histogram c)).
Definition set_avg_frequency (lw : Z) (c : Column_statistics) (val : spec_float) : option Column_statistics :=
  v ← to_uint lw (mul val (of_Z Scale_factor_avg_frequency));
  Some (ColStat (column_stat_nulls c) (nulls_ratio c) (avg_length c) v (histogram c)).

Definition min_max_values_are_provided (c : Column_statistics) : option bool :=
  a ← is_null c COLUMN_STAT_MIN_VALUE;
  if a : bool then Some false else b ← is_null c COLUMN_STAT_MAX_VALUE; Some (negb b).

Definition no_stat_values_provided (c : Column_statistics) : bool :=
  bool_decide (column_stat_nulls c = no_values_provided_bitmap).

(** *** Index_statistics: the array [avg_frequency], none for a null pointer. *)

Definition Index_statistics : Type := option (list Z).

Definition init_avg_frequency (ptr : option (list Z)) : Index_statistics := ptr.
Definition avg_frequency_is_inited (x : Index_statistics) : bool :=
  match x with Some _ => true | None => false end.
Definition idx_get_avg_frequency (x : Index_statistics) (i : Z) : option spec_float :=
  a ← x; v ← a !! Z.to_nat i; Some (div (of_Z v) (of_Z Scale_factor_avg_frequency)).
Definition idx_set_avg_frequency (lw : Z) (x : Index_statistics) (i : Z) (val : spec_float) : option Index_statistics :=
  a ← x; _ ← a !! Z.to_nat i;
  v ← to_uint lw (mul val (of_Z Scale_factor_avg_frequency));
  Some (Some (<[Z.to_nat i := v]> a)).

End Statistics.

(** ** The search *)

Section search.
Import Double Statistics.

(** The numbers of values below, and not above, [val]. *)
Definition below (vs : list Z) (val : Z) : Z := Z.of_nat (length (filter (λ v, v < val) vs)).
Definition upto (vs : list Z) (val : Z) : Z := Z.of_nat (length (filter (λ v, v ≤ val) vs)).

(** The values of a histogram, decoded. *)
Definition decode (h : Histogram) : option (list Z) := mapM (get_value h) (seqZ 0 (get_width h)).

Definition decoded (h : Histogram) (vs : list Z) : Prop :=
  Z.of_nat (length vs) = get_width h ∧ ∀ i, 0 ≤ i < get_width h → get_value h i = vs !! Z.to_nat i.

Lemma decode_decoded h vs : 0 ≤ get_width h → decode h = Some vs → decoded h vs.
Proof.
  intros Hw E%mapM_Some_1. split.
  - apply Forall2_length in E. rewrite length_seqZ in E. lia.
  - intros i Hi. destruct (Forall2_lookup_l _ _ _ (Z.to_nat i) i E) as (v & -> & Hv); [|done].
    apply lookup_seqZ. lia.
Qed.

Lemma below_upto vs val : 0 ≤ below vs val ≤ upto vs val ∧ upto vs val ≤ Z.of_nat (length vs).
Proof.
  unfold below, upto. induction vs as [|v vs IH]; [cbn; lia|].
  rewrite !filter_cons. cbn [length]. repeat case_decide; cbn [length]; lia.
Qed.

(** In a sorted list the elements that satisfy a downward closed predicate come
    first. *)
Lemma sorted_count (P : Z → Prop) `{∀ x, Decision (P x)} vs j v :
  (∀ x y, x ≤ y → P y → P x) → StronglySorted Z.le vs → vs !! j = Some v →
  (P v ↔ (j < length (filter P vs))%nat).
Proof.
  intros HP Hs. revert j. induction Hs as [|w vs Hs IH Hw]; intros j Hj; [done|].
  rewrite filter_cons. rewrite Forall_forall in Hw. destruct j as [|j].
  - injection Hj as ->. case_decide as Hv; cbn [length]; [by split; [lia|]|].
    split; [done|]. intros Hlt. destruct (filter P vs) as [|x l] eqn:E; [cbn in Hlt; lia|].
    assert (x ∈ filter P vs) as Hx by (rewrite E; by left). apply list_elem_of_filter in Hx as [Hx Hin].
    destruct Hv. by eapply HP, Hx; apply Hw.
  - cbn in Hj. specialize (IH j Hj). pose proof (Hw v (list_elem_of_lookup_2 _ _ _ Hj)) as Hwv.
    case_decide as Hv; cbn [length]; [rewrite IH; lia|].
    split; [intros Hp; destruct Hv; by eapply HP|]. intros Hlt. apply IH. lia.
Qed.

Lemma width_small h : 0 ≤ size h < 256 → 0 ≤ get_width h < 256.
Proof. intros H. unfold get_width. destruct (type h); Z.to_euclidean_division_equations; lia. Qed.

Context (h : Histogram) (vs : list Z) (val : Z).
Context (Hdec : decoded h vs) (Hsort : StronglySorted Z.le vs) (Hsize : 0 ≤ size h < 256).

Let w := get_width h.
Let lo := below vs val.
Let hi := upto vs val.

(** What the comparisons with a value decide. *)
Lemma value_at i :
  0 ≤ i < w → ∃ v, get_value h i = Some v ∧ (val = v ↔ lo ≤ i < hi) ∧ (val < v ↔ hi ≤ i) ∧ (v < val ↔ i < lo).
Proof using Hdec Hsort Hsize.
  intros Hi. pose proof (width_small h Hsize) as Hw. fold w in Hw. destruct Hdec as [Hlen Hget]. fold w in Hlen.
  destruct (lookup_lt_is_Some_2 vs (Z.to_nat i)) as [v Hv]; [lia|]. exists v. rewrite Hget by lia. split; [done|].
  pose proof (sorted_count (λ v, v < val) vs _ _ ltac:(cbn; lia) Hsort Hv) as H1. cbn in H1.
  pose proof (sorted_count (λ v, v ≤ val) vs _ _ ltac:(cbn; lia) Hsort Hv) as H2. cbn in H2.
  unfold lo, hi, below, upto. lia.
Qed.

(** A state of the binary search in which [i] is the midpoint. *)
Definition search_inv (lp rp d i : Z) : Prop :=
  0 ≤ lp ≤ rp ∧ rp ≤ w - 1 ∧ lp ≤ lo ∧ (hi ≤ rp ∨ rp = w - 1) ∧ 0 ≤ d ∧ i = lp + d ∧
  (d ≠ 0 → i < rp) ∧ (d = 0 → rp ≤ lp + 1).

(** Where the search may stop. *)
Definition search_done (i : Z) : Prop :=
  0 ≤ i < w ∧
  (lo ≤ i < hi ∨ (lo = i + 1 ∧ i < w - 1) ∨
   ∃ rp, i ≤ rp ≤ w - 1 ∧ rp ≤ i + 1 ∧ i ≤ lo ∧ (hi ≤ rp ∨ rp = w - 1)).

Lemma search_loop_done fuel : ∀ lp rp d i,
  search_inv lp rp d i → rp - lp < Z.of_nat fuel → ∃ i', search_loop fuel h val lp rp d i = Some i' ∧ search_done i'.
Proof using Hdec Hsort Hsize.
  pose proof (width_small h Hsize) as Hw. fold w in Hw. induction fuel as [|fuel IH]; intros lp rp d i (H1 & H2 & H3 & H4 & H5 & Hi & H6 & H7) Hf; [lia|].
  cbn [search_loop]. case_decide as Hd.
  2: { exists i. split; [done|]. split; [lia|]. right. right. exists rp. lia. }
  specialize (H6 Hd). destruct (value_at i) as (v & -> & Heq & Hlt & Hgt); [lia|]. cbn [mbind option_bind].
  case_decide as E; [exists i; split; [done|]; split; [lia|]; left; by apply Heq|].
  case_decide as E1.
  - rewrite wrapu_small by (unfold in_u; Z.to_euclidean_division_equations; lia).
    apply IH; [|lia]. unfold search_inv. Z.to_euclidean_division_equations; lia.
  - rewrite (wrapu_small 32 (i + 1)) by (unfold in_u; lia).
    destruct (value_at (i + 1)) as (v1 & -> & Heq1 & Hlt1 & Hgt1); [lia|]. cbn [mbind option_bind].
    case_decide as E2.
    + rewrite wrapu_small by (unfold in_u; Z.to_euclidean_division_equations; lia).
      apply IH; [|lia]. unfold search_inv. Z.to_euclidean_division_equations; lia.
    + exists i. split; [done|]. split; [lia|]. right. left. lia.
Qed.

Lemma down_loop_first fuel : ∀ i,
  lo ≤ i < hi → i < w → i - lo < Z.of_nat fuel → down_loop fuel h val i = Some lo.
Proof using Hdec Hsort Hsize.
  pose proof (width_small h Hsize) as Hw. fold w in Hw. pose proof (below_upto vs val) as Hbu. fold lo hi in Hbu.
  induction fuel as [|fuel IH]; intros i Hi Hiw Hf; [lia|].
  cbn [down_loop]. case_decide as H0; [|f_equal; lia].
  rewrite (wrapu_small 32 (i - 1)) by (unfold in_u; lia).
  destruct (value_at (i - 1)) as (v & -> & Heq & _); [lia|]. cbn [mbind option_bind].
  case_decide as E; [apply IH; lia|]. f_equal. lia.
Qed.

Lemma up_loop_last fuel : ∀ i,
  lo ≤ i < hi → i < w → hi - i ≤ Z.of_nat fuel → up_loop fuel h val i = Some (hi - 1).
Proof using Hdec Hsort Hsize.
  pose proof (width_small h Hsize) as Hw. fold w in Hw. pose proof (below_upto vs val) as Hbu. fold lo hi in Hbu.
  destruct Hdec as [Hlen _]. fold w in Hlen.
  induction fuel as [|fuel IH]; intros i Hi Hiw Hf; [lia|].
  cbn [up_loop]. fold w. rewrite (wrapu_small 32 (i + 1)) by (unfold in_u; lia). case_decide as H0; [|f_equal; lia].
  destruct (value_at (i + 1)) as (v & -> & Heq & _); [lia|]. cbn [mbind option_bind].
  case_decide as E; [apply IH; lia|]. f_equal. lia.
Qed.

(** The bucket [find_bucket] returns: the first or the last of the values equal
    to [val], the first greater value where there is none, and the last bucket
    where there is no greater value either. *)
Definition bucket (first : bool) : Z :=
  if decide (lo < hi) then if first then lo else hi - 1 else Z.min lo (w - 1).

Lemma find_bucket_spec pos first :
  to_uint 32 (mul pos (of_Z (prec_factor h))) = Some val → w ≠ 0 → w ≠ 2 →
  find_bucket h pos first = Some (bucket first).
Proof using Hdec Hsort Hsize.
  intros Hval Hw0 Hw2. pose proof (width_small h Hsize) as Hw. fold w in Hw. pose proof (below_upto vs val) as Hbu. fold lo hi in Hbu.
  pose proof Hdec as [Hlen _]. fold w in Hlen. unfold find_bucket. rewrite Hval. cbn [mbind option_bind]. fold w.
  rewrite (wrapu_small 32 (w - 1)) by (unfold in_u; lia). rewrite wraps_small by (unfold in_s; lia).
  rewrite (wrapu_small 32 (0 + _)) by (unfold in_u; Z.to_euclidean_division_equations; lia).
  destruct (search_loop_done (S (Z.to_nat w)) 0 (w - 1) (w / 2) (0 + w / 2)) as (i & -> & Hi & Hdone);
    [unfold search_inv; Z.to_euclidean_division_equations; lia|lia|]. cbn [mbind option_bind].
  destruct (value_at i Hi) as (v & -> & _ & _ & Hgt). cbn [mbind option_bind].
  set (i' := if decide (v < val ∧ i < w - 1) then u32 (i + 1) else i).
  assert (0 ≤ i' < w ∧ (lo ≤ i' < hi ∨ lo = hi ∧ i' = Z.min lo (w - 1))) as [Hi' Hb].
  { unfold i'. rewrite wrapu_small by (unfold in_u; lia). case_decide; (split; [lia|]).
    all: destruct Hdone as [?|[?|(rp & ?)]]; lia. }
  destruct (value_at i' Hi') as (v' & -> & Heq' & _ & _). cbn [mbind option_bind].
  unfold bucket. destruct Hb as [Hb|[Hb Hmin]].
  - rewrite decide_True by by apply Heq'. rewrite (decide_True (P := lo < hi)) by lia.
    destruct first; [apply down_loop_first; lia|apply up_loop_last; lia].
  - rewrite decide_False by (rewrite Heq'; lia). rewrite (decide_False (P := lo < hi)) by lia. by rewrite Hmin.
Qed.

End search.

(** ** Properties of histograms *)

Section properties.
Import Double Statistics.

(** Without a value the search reads past the values. *)
Lemma find_bucket_width_0 h val pos first : get_width h = 0 →
  to_uint 32 (mul pos (of_Z (prec_factor h))) = Some val → find_bucket h pos first = None.
Proof.
  intros Hw Hval. unfold find_bucket. rewrite Hval, Hw. cbn [mbind option_bind]. change (0 / 2) with 0. cbn [search_loop].
  rewrite (decide_False (P := 0 ≠ 0)) by lia. cbn [mbind option_bind]. unfold get_value. rewrite Hw. by rewrite decide_False by (vm_compute; done).
Qed.

(** With two values it does so exactly when the position exceeds both. *)
Lemma find_bucket_width_2 h vs val pos first : decoded h vs → StronglySorted Z.le vs → get_width h = 2 →
  to_uint 32 (mul pos (of_Z (prec_factor h))) = Some val →
  find_bucket h pos first = if decide (below vs val = 2) then None else Some (bucket h vs val first).
Proof.
  intros [Hlen Hget] Hsort Hw Hval. rewrite Hw in Hlen, Hget. destruct vs as [|a [|b [|]]]; cbn in Hlen; try lia.
  assert (get_value h 0 = Some a) as H0 by exact (Hget 0 ltac:(lia)).
  assert (get_value h 1 = Some b) as H1 by exact (Hget 1 ltac:(lia)).
  assert (get_value h 2 = None) as H2 by (unfold get_value; rewrite Hw; by rewrite decide_False by lia).
  assert (a ≤ b) as Hab by (apply StronglySorted_inv in Hsort as [_ Hf]; by apply Forall_cons in Hf as [? _]).
  unfold find_bucket, bucket, below, upto. rewrite Hval, Hw. cbn [mbind option_bind]. rewrite !filter_cons, filter_nil.
  change (S (Z.to_nat 2)) with 3%nat. change (2 / 2) with 1. change (u32 (0 + 1)) with 1. change (u32 (2 - 1)) with 1. change (s32 1) with 1.
  cbn [search_loop down_loop up_loop].
  change (Z.quot (1 - 0) 2) with 0. change (u32 (0 + 0)) with 0. change (u32 (1 + 1)) with 2.
  rewrite (decide_True (P := 1 ≠ 0)) by lia. rewrite H1, H2. cbn [mbind option_bind].
  destruct (decide (val = b)) as [->|Hb]; [|destruct (decide (val < b)) as [Hb'|Hb']].
  - cbn [mbind option_bind]. rewrite H1. cbn [mbind option_bind]. rewrite (decide_False (P := b < b ∧ 1 < 1)) by lia. rewrite H1. cbn [mbind option_bind].
    rewrite (decide_True (P := b = b)) by done. rewrite Hw. change (u32 (1 - 1)) with 0. change (u32 (1 + 1)) with 2.
    rewrite H0. cbn [mbind option_bind]. repeat case_decide; try lia; destruct first; done.
  - rewrite (decide_False (P := 0 ≠ 0)) by lia. cbn [mbind option_bind]. rewrite H0. cbn [mbind option_bind].
    destruct (decide (a < val)) as [Ha|Ha].
    + rewrite (decide_True (P := a < val ∧ 0 < 1)) by lia. change (u32 (0 + 1)) with 1. rewrite H1. cbn [mbind option_bind].
      repeat case_decide; try lia; done.
    + rewrite (decide_False (P := a < val ∧ 0 < 1)) by lia. rewrite H0, Hw. cbn [mbind option_bind]. change (u32 (0 + 1)) with 1. rewrite H1.
      cbn [mbind option_bind]. repeat case_decide; try lia; destruct first; done.
  - cbn [mbind option_bind]. repeat case_decide; try lia; done.
Qed.

(** [C38] For every histogram with non-decreasing values and every position,
    [find_bucket] terminates and returns the first (or last, as asked) bucket that
    holds the scaled position, the bucket of the next greater value where none
    does, or the last bucket, reading only values of the histogram, but in three
    cases: the scaled position is not a [uint]; the width is 0, as it is of one byte
    of two-byte values, a histogram that is nevertheless available; or the width
    is 2 and the position exceeds both values.  In the latter two it reads past
    the values, where the assertion of [get_value] fails. *)
Theorem histogram_find_bucket h vs pos first :
  0 ≤ size h < 256 → decode h = Some vs → StronglySorted Z.le vs →
  find_bucket h pos first =
    val ← to_uint 32 (mul pos (of_Z (prec_factor h)));
    if decide (get_width h = 0 ∨ get_width h = 2 ∧ below vs val = 2) then None else Some (bucket h vs val first).
Proof.
  intros Hs Hd%decode_decoded Hsort; [|by apply width_small].
  destruct (to_uint 32 _) as [val|] eqn:Hval; cbn [mbind option_bind]; [|unfold find_bucket; by rewrite Hval].
  destruct (decide (get_width h = 0)) as [H0|H0]; [rewrite decide_True by tauto; by eapply find_bucket_width_0|].
  destruct (decide (get_width h = 2)) as [H2|H2]; [|rewrite decide_False by tauto; by apply find_bucket_spec].
  rewrite (find_bucket_width_2 h vs val) by done. repeat case_decide; tauto || done.
Qed.

(** Also the histogram of one byte and values of two, which is available. *)
Lemma histogram_find_bucket_witness :
  let h := Hist SINGLE_PREC_HB 5 (Some [10; 20; 20; 30; 40]) in
  let g := Hist DOUBLE_PREC_HB 1 (Some [7]) in
  find_bucket h (div (of_Z 20) (of_Z 255)) true = Some 1 ∧
  find_bucket h (div (of_Z 20) (of_Z 255)) false = Some 2 ∧
  is_available g = true ∧ find_bucket g (of_Z 0) true = None.
Proof.
  split_and!; [| |reflexivity|].
  - etrans; [apply (histogram_find_bucket _ [10; 20; 20; 30; 40])|]; try reflexivity; try done; repeat constructor; lia.
  - etrans; [apply (histogram_find_bucket _ [10; 20; 20; 30; 40])|]; try reflexivity; try done; repeat constructor; lia.
  - etrans; [apply (histogram_find_bucket _ [])|]; try reflexivity; try done; constructor.
Defined.

(** In a histogram of two values the search compares with the value after the
    last one when the scaled position exceeds both: it reads past the values. *)
Theorem find_bucket_width_2_overruns a b val pos first :
  to_uint 32 (mul pos (of_Z 255)) = Some val → b < val →
  find_bucket (Hist SINGLE_PREC_HB 2 (Some [a; b])) pos first = None.
Proof.
  intros Hval Hb. unfold find_bucket. change (prec_factor _) with 255. rewrite Hval.
  cbn [mbind option_bind get_width type size]. change (u32 (0 + 2 / 2)) with 1. change (2 / 2) with 1.
  cbn [search_loop Z.to_nat Pos.to_nat Pos.iter_op Nat.add]. rewrite decide_True by done.
  change (get_value _ 1) with (Some b). cbn [mbind option_bind].
  rewrite !decide_False by lia. done.
Qed.

Lemma find_bucket_width_2_overruns_witness :
  find_bucket (Hist SINGLE_PREC_HB 2 (Some [10; 20])) (div (of_Z 1) (of_Z 2)) true = None.
Proof. apply (find_bucket_width_2_overruns 10 20 127); [reflexivity|lia]. Defined.

Lemma bucket_range h vs val first :
  0 ≤ size h < 256 → decoded h vs → get_width h ≠ 0 → 0 ≤ bucket h vs val first < get_width h.
Proof.
  intros Hs [Hlen _] Hw0. pose proof (below_upto vs val). pose proof (width_small h Hs).
  unfold bucket. case_decide; [destruct first|]; lia.
Qed.

Lemma filter_length_mono (P Q : Z → Prop) `{∀ x, Decision (P x), ∀ x, Decision (Q x)} (vs : list Z) :
  (∀ x, P x → Q x) → (length (filter P vs) ≤ length (filter Q vs))%nat.
Proof.
  intros HPQ. induction vs as [|v vs IH]; [done|]. rewrite !filter_cons.
  repeat case_decide; cbn [length]; try lia. naive_solver.
Qed.

(** The buckets of an interval of positions: the first bucket of the lower end
    does not follow the last one of the upper end. *)
Lemma bucket_mono h vs a b :
  0 ≤ size h < 256 → decoded h vs → a ≤ b → bucket h vs a true ≤ bucket h vs b false.
Proof.
  intros Hs [Hlen _] Hab. pose proof (width_small h Hs). unfold bucket.
  pose proof (below_upto vs a). pose proof (below_upto vs b).
  assert (below vs a ≤ below vs b) by (apply inj_le, filter_length_mono; lia).
  assert (upto vs a ≤ upto vs b) by (apply inj_le, filter_length_mono; lia).
  destruct (decide (a = b)) as [->|Hne]; [repeat case_decide; lia|].
  assert (upto vs a ≤ below vs b) by (apply inj_le, filter_length_mono; lia).
  repeat case_decide; lia.
Qed.

(** [range_selectivity] of an interval is the number of buckets from the first
    bucket of its lower end to the last one of its upper end, between 1 and the
    width, times the share of a bucket: the unsigned difference does not wrap. *)
Theorem range_selectivity_buckets h vs a b min_pos max_pos :
  0 ≤ size h < 256 → decode h = Some vs → StronglySorted Z.le vs → get_width h ≠ 0 → get_width h ≠ 2 →
  to_uint 32 (mul min_pos (of_Z (prec_factor h))) = Some a →
  to_uint 32 (mul max_pos (of_Z (prec_factor h))) = Some b → a ≤ b →
  ∃ n, 1 ≤ n ≤ get_width h ∧ n = bucket h vs b false - bucket h vs a true + 1 ∧
    range_selectivity h min_pos max_pos =
      Some (mul (div (of_Z 1) (of_Z (get_width h + 1))) (of_Z n)).
Proof.
  intros Hs Hd Hsort Hw0 Hw2 Ha Hb Hab. pose proof (width_small h Hs) as Hw.
  apply decode_decoded in Hd; [|lia].
  pose proof (bucket_range h vs a true Hs Hd Hw0). pose proof (bucket_range h vs b false Hs Hd Hw0).
  pose proof (bucket_mono h vs a b Hs Hd Hab).
  exists (bucket h vs b false - bucket h vs a true + 1). split; [lia|]. split; [done|]. unfold range_selectivity.
  rewrite (find_bucket_spec h vs a Hd Hsort Hs min_pos true Ha Hw0 Hw2). cbn [mbind option_bind].
  rewrite (find_bucket_spec h vs b Hd Hsort Hs max_pos false Hb Hw0 Hw2). cbn [mbind option_bind].
  set (n := bucket h vs b false - bucket h vs a true) in *.
  rewrite (wrapu_small 32 n), (wrapu_small 32 (n + 1)), (wrapu_small 32 (get_width h + 1)) by (unfold in_u; lia).
  done.
Qed.

Lemma range_selectivity_buckets_witness :
  let h := Hist DOUBLE_PREC_HB 6 (Some [0; 16; 0; 32; 0; 48]) in
  ∃ n, 1 ≤ n ≤ 3 ∧ n = 3 ∧
    range_selectivity h (of_Z 0) (of_Z 1) = Some (mul (div (of_Z 1) (of_Z 4)) (of_Z n)).
Proof.
  destruct (range_selectivity_buckets (Hist DOUBLE_PREC_HB 6 (Some [0; 16; 0; 32; 0; 48])) [4096; 8192; 12288] 0 65535
    (of_Z 0) (of_Z 1)) as (n & Hn & E & H); try reflexivity; try done; [repeat constructor; lia|].
  exists n. split; [exact Hn|]. split; [rewrite E; reflexivity|exact H].
Defined.

(** *** Writing values *)

(** The number of bytes of a value. *)
Definition value_size (h : Histogram) : nat :=
  match type h with SINGLE_PREC_HB => 1 | DOUBLE_PREC_HB => 2 end.

(** A histogram whose buffer holds exactly its values. *)
Definition histogram_ok (h : Histogram) (m : list Z) : Prop :=
  values h = Some m ∧ bytes_ok m ∧ 0 ≤ size h < 256 ∧ Z.of_nat (length m) = size h.

Lemma get_value_load h m i :
  histogram_ok h m → 0 ≤ i < get_width h → get_value h i = load_le (value_size h) m (Z.to_nat i * value_size h).
Proof.
  intros (Hv & Hm & Hs & Hl) Hi. pose proof (width_small h Hs). unfold get_value, value_size. rewrite decide_True by lia. rewrite Hv. cbn [mbind option_bind].
  destruct (type h).
  - rewrite rd_load. f_equal. lia.
  - rewrite wrapu_small by (unfold in_u; lia). rewrite uint2korr_load by done. f_equal. lia.
Qed.

Lemma store_load_ne n m p v m' q :
  store_le n m p v = Some m' → (q + n ≤ p ∨ p + n ≤ q)%nat → load_le n m' q = load_le n m q.
Proof.
  unfold store_le. case_decide as Hp; intros [= <-] Hq. unfold load_le.
  rewrite !length_app, length_take, length_le_bytes, length_drop.
  replace (p `min` length m + (n + (length m - (p + n))))%nat with (length m) by lia.
  case_decide; [|done]. do 2 f_equal. apply list_eq. intros i.
  destruct (decide (i < n)%nat); [|by rewrite !lookup_take_ge by lia].
  rewrite !lookup_take_lt, !lookup_drop by lia. destruct Hq.
  - rewrite lookup_app_l by (rewrite length_take; lia). apply lookup_take_lt. lia.
  - rewrite lookup_app_r by (rewrite length_take; lia). rewrite lookup_app_r by (rewrite length_take, length_le_bytes; lia).
    rewrite lookup_drop, length_take, length_le_bytes. f_equal. lia.
Qed.

(** Storing [v] in bucket [i]. *)
Lemma value_store h m i v :
  histogram_ok h m → 0 ≤ i < get_width h →
  ∃ m', store_le (value_size h) m (Z.to_nat i * value_size h) v = Some m' ∧
    histogram_ok (set_values h (Some m')) m' ∧
    get_value (set_values h (Some m')) i = Some (v mod 256 ^ Z.of_nat (value_size h)) ∧
    ∀ j, 0 ≤ j < get_width h → j ≠ i → get_value (set_values h (Some m')) j = get_value h j.
Proof.
  intros Hok Hi. pose proof Hok as (Hv & Hm & Hs & Hl). pose proof (width_small h Hs).
  assert (Z.of_nat (Z.to_nat i * value_size h + value_size h) ≤ size h) as Hfit.
  { unfold get_width, value_size in *. destruct (type h); Z.to_euclidean_division_equations; lia. }
  destruct (store_le _ m _ v) as [m'|] eqn:E; [|unfold store_le in E; rewrite decide_True in E by lia; done].
  assert (length m' = length m) as Hl'.
  { unfold store_le in E. case_decide; [|done]. injection E as <-.
    rewrite !length_app, length_take, length_le_bytes, length_drop. lia. }
  assert (histogram_ok (set_values h (Some m')) m') as Hok'.
  { split_and!; cbn; [done|by eapply store_le_ok|lia..]. }
  exists m'. split; [done|]. split; [done|]. split.
  - rewrite (get_value_load _ m') by (done || lia). by eapply store_load.
  - intros j Hj Hne. rewrite (get_value_load _ m'), (get_value_load h m) by (done || lia).
    eapply store_load_ne; [done|]. unfold value_size. destruct (type h); cbn; lia.
Qed.

Lemma to_uint_narrow n w x v : to_uint n x = Some v → 0 ≤ n ≤ w → to_uint w x = Some v ∧ 0 ≤ v < 2 ^ n.
Proof.
  unfold to_uint, in_u. destruct (trunc x) as [t|]; [|done]. cbn. case_decide as Ht; [|done]. intros [= ->] Hn.
  pose proof (Z.pow_le_mono_r 2 n w). rewrite decide_True by lia. done.
Qed.

Lemma set_value_store h m i x v :
  histogram_ok h m → 0 ≤ i < 256 →
  to_uint (8 * Z.of_nat (value_size h)) (mul x (of_Z (prec_factor h))) = Some v →
  set_value h i x = (λ m', set_values h (Some m')) <$> store_le (value_size h) m (Z.to_nat i * value_size h) v.
Proof.
  intros (Hv & _) Hi Hx. unfold set_value. rewrite Hv. cbn [mbind option_bind]. unfold value_size in *. destruct (type h).
  - change (8 * Z.of_nat 1) with 8 in Hx. rewrite Hx. cbn [mbind option_bind].
    rewrite wr_store. replace (0 + Z.to_nat i)%nat with (Z.to_nat i * 1)%nat by lia. by destruct (store_le _ _ _ _).
  - apply (to_uint_narrow _ 32) in Hx as [-> _]; [|lia]. cbn [mbind option_bind].
    rewrite wrapu_small, int2store_le by (unfold in_u; lia).
    replace (Z.to_nat (i * 2)) with (Z.to_nat i * 2)%nat by lia. by destruct (store_le _ _ _ _).
Qed.

Lemma set_prev_value_store h m i u :
  histogram_ok h m → 0 < i < 256 → get_value h (i - 1) = Some u →
  set_prev_value h i = (λ m', set_values h (Some m')) <$> store_le (value_size h) m (Z.to_nat i * value_size h) u.
Proof.
  intros (Hv & _) Hi Eu. unfold set_prev_value. unfold get_value in Eu.
  case_decide; [|done]. rewrite Hv in *. cbn [mbind option_bind] in *.
  unfold value_size in *. destruct (type h).
  - rewrite wrapu_small by (unfold in_u; lia). rewrite Eu. cbn [mbind option_bind].
    rewrite wr_store. replace (0 + Z.to_nat i)%nat with (Z.to_nat i * 1)%nat by lia. by destruct (store_le _ _ _ _).
  - rewrite wrapu_small in Eu by (unfold in_u; lia). rewrite wrapu_small by (unfold in_u; lia).
    rewrite decide_True by lia. replace (i * 2 - 2) with ((i - 1) * 2) by lia. rewrite Eu. cbn [mbind option_bind].
    rewrite int2store_le. replace (Z.to_nat (i * 2)) with (Z.to_nat i * 2)%nat by lia. by destruct (store_le _ _ _ _).
Qed.

Lemma get_value_some h m i :
  histogram_ok h m → 0 ≤ i < get_width h → ∃ u, get_value h i = Some u ∧ 0 ≤ u < 256 ^ Z.of_nat (value_size h).
Proof.
  intros Hok Hi. pose proof Hok as (Hv & Hm & Hs & Hl). pose proof (width_small h Hs).
  rewrite (get_value_load h m) by (done || lia). destruct (load_le _ m _) as [u|] eqn:E.
  - exists u. split; [done|]. by apply load_le_bound in E.
  - exfalso. unfold load_le in E. rewrite decide_True in E; [done|].
    unfold value_size, get_width in *. destruct (type h); Z.to_euclidean_division_equations; lia.
Qed.

(** A value set in a histogram is the value read back, and a bucket set to the
    previous one has its value; the other buckets keep theirs. *)
Theorem histogram_set_get h m i x v :
  histogram_ok h m → 0 ≤ i < get_width h →
  to_uint (8 * Z.of_nat (value_size h)) (mul x (of_Z (prec_factor h))) = Some v →
  (∃ h', set_value h i x = Some h' ∧ get_value h' i = Some v ∧
     ∀ j, 0 ≤ j < get_width h → j ≠ i → get_value h' j = get_value h j) ∧
  (0 < i → ∃ h', set_prev_value h i = Some h' ∧ get_value h' i = get_value h (i - 1) ∧
     ∀ j, 0 ≤ j < get_width h → j ≠ i → get_value h' j = get_value h j).
Proof.
  intros Hok Hi Hx. pose proof Hok as (_ & _ & Hs & _). pose proof (width_small h Hs). split.
  - rewrite (set_value_store h m i x v) by (done || lia).
    destruct (value_store h m i v Hok Hi) as (m' & -> & _ & Hg & Hfr). eexists. split_and!; [done| |done].
    rewrite Hg. f_equal. apply Z.mod_small. apply (to_uint_narrow _ 32) in Hx as [_ Hv]; [|unfold value_size; destruct (type h); lia].
    by rewrite Z.pow_mul_r in Hv by lia.
  - intros Hi0. destruct (get_value_some h m (i - 1) Hok) as (u & Eu & Hu); [lia|].
    rewrite (set_prev_value_store h m i u) by (done || lia). rewrite Eu.
    destruct (value_store h m i u Hok Hi) as (m' & -> & _ & Hg & Hfr). eexists. split_and!; [done| |done].
    rewrite Hg. f_equal. by apply Z.mod_small.
Qed.

Lemma histogram_set_get_witness :
  let h := Hist DOUBLE_PREC_HB 4 (Some [0; 0; 0; 0]) in
  ∃ h', set_value h 1 (div (of_Z 1) (of_Z 2)) = Some h' ∧ get_value h' 1 = Some 32767.
Proof.
  destruct (histogram_set_get (Hist DOUBLE_PREC_HB 4 (Some [0; 0; 0; 0])) [0; 0; 0; 0] 1
    (div (of_Z 1) (of_Z 2)) 32767) as [(h' & H1 & H2 & _) _].
  - split_and!; [reflexivity|repeat constructor; lia|done..].
  - done.
  - reflexivity.
  - exists h'. split; [exact H1|exact H2].
Defined.

(** *** Which statistics are present *)

Lemma land_lnot_bit a b : 0 ≤ b < 31 → 0 ≤ a < 2 ^ 32 → a .& u32 (Z.lnot (1 ≪ b)) = Z.clearbit a b.
Proof.
  intros Hb Ha. zbits i. rewrite Z.land_spec, wrapu_testbit, Z.clearbit_eqb, Z.lnot_spec, Z.shiftl_spec by lia.
  destruct (decide (i < 32)).
  - rewrite bool_decide_eq_true_2 by done. f_equal. destruct (Z.eqb_spec b i) as [->|Hne].
    + by rewrite Z.sub_diag.
    + destruct (decide (i < b)); [by rewrite Z.testbit_neg_r by lia|].
      replace (Z.testbit 1 (i - b)) with false; [done|]. symmetry. apply Z.bits_above_log2; cbn; lia.
  - rewrite (in_u_testbit_high 32 ltac:(lia) a) by (done || lia). done.
Qed.

Lemma land_bit_ne a b : 0 ≤ b → bool_decide (a .& (1 ≪ b) ≠ 0) = Z.testbit a b.
Proof.
  intros Hb. assert (a .& (1 ≪ b) = if Z.testbit a b then 1 ≪ b else 0) as ->.
  { zbits i. rewrite Z.land_spec, Z.shiftl_spec by lia. destruct (decide (i = b)) as [->|Hne].
    - rewrite Z.sub_diag. destruct (Z.testbit a b); [|by rewrite Z.bits_0].
      by rewrite Z.shiftl_spec, Z.sub_diag by lia.
    - replace (Z.testbit 1 (i - b)) with false.
      2: { symmetry. destruct (decide (i < b)); [by rewrite Z.testbit_neg_r by lia|]. apply Z.bits_above_log2; cbn; lia. }
      rewrite andb_false_r. destruct (Z.testbit a b); [|by rewrite Z.bits_0].
      rewrite Z.shiftl_spec by lia. symmetry. destruct (decide (i < b)); [by rewrite Z.testbit_neg_r by lia|].
      apply Z.bits_above_log2; cbn; lia. }
  destruct (Z.testbit a b); [|done]. apply bool_decide_eq_true_2. rewrite Z.shiftl_1_l. pose proof (Z.pow_pos_nonneg 2 b). lia.
Qed.

Lemma all_nulls_bits i :
  0 ≤ i → Z.testbit no_values_provided_bitmap i = bool_decide (COLUMN_STAT_MIN_VALUE ≤ i ≤ COLUMN_STAT_HISTOGRAM).
Proof.
  intros Hi. change no_values_provided_bitmap with (Z.ones 8 ≪ 3). rewrite Z.shiftl_spec by done.
  rewrite Z.testbit_ones by done. apply eq_bool_prop_intro. rewrite bool_decide_spec.
  unfold COLUMN_STAT_MIN_VALUE, COLUMN_STAT_HISTOGRAM. rewrite Is_true_true, andb_true_iff, Z.leb_le, Z.ltb_lt. lia.
Qed.

Definition set_not_null_all (c : Column_statistics) (fs : list Z) : option Column_statistics :=
  foldl (λ c f, c ← c; set_not_null c f) (Some c) fs.

Lemma set_not_null_bits c fs :
  Forall (λ g, 0 ≤ g < 31) fs →
  ∃ c', set_not_null_all (set_all_nulls c) fs = Some c' ∧ 0 ≤ column_stat_nulls c' < 2 ^ 32 ∧
    ∀ i, 0 ≤ i → Z.testbit (column_stat_nulls c') i =
      bool_decide (COLUMN_STAT_MIN_VALUE ≤ i ≤ COLUMN_STAT_HISTOGRAM ∧ i ∉ fs).
Proof.
  induction fs as [|g fs IH] using rev_ind; intros Hfs.
  - eexists. split; [done|]. cbn [column_stat_nulls set_all_nulls with_nulls]. split; [by vm_compute|]. intros i Hi.
    rewrite all_nulls_bits by done. apply bool_decide_ext. set_solver.
  - apply Forall_app in Hfs as [Hfs Hg]. apply Forall_cons in Hg as [Hg _]. destruct (IH Hfs) as (c1 & E & Hr & Hb).
    unfold set_not_null_all in *. rewrite foldl_app, E. cbn [foldl mbind option_bind].
    unfold set_not_null, field_bit. rewrite decide_True by done. cbn [mbind option_bind].
    eexists. split; [done|]. cbn [column_stat_nulls with_nulls]. rewrite land_lnot_bit by lia. split.
    + rewrite <- land_lnot_bit by lia. apply (in_u_land 32); [lia|done|]. apply (wrapu_range 32). lia.
    + intros i Hi. rewrite Z.clearbit_eqb, Hb by done. destruct (Z.eqb_spec g i) as [->|Hne]; cbn.
      * rewrite andb_false_r. symmetry. apply bool_decide_eq_false_2. set_solver.
      * rewrite andb_true_r. apply bool_decide_ext. set_solver.
Qed.

(** After [set_all_nulls] the statistics from the minimum value to the histogram
    are missing; each [set_not_null] makes one present and no other.
    [no_stat_values_provided] says that none of them was made present. *)
Theorem column_stat_nulls_track c fs f :
  Forall (λ g, 0 ≤ g < 31) fs → 0 ≤ f < 31 →
  ∃ c', set_not_null_all (set_all_nulls c) fs = Some c' ∧
    is_null c' f = Some (bool_decide (COLUMN_STAT_MIN_VALUE ≤ f ≤ COLUMN_STAT_HISTOGRAM ∧ f ∉ fs)) ∧
    (no_stat_values_provided c' = true ↔
       Forall (λ g, ¬ (COLUMN_STAT_MIN_VALUE ≤ g ≤ COLUMN_STAT_HISTOGRAM)) fs).
Proof.
  intros Hfs Hf. destruct (set_not_null_bits c fs Hfs) as (c' & E & Hr & Hb). exists c'. split; [done|]. split.
  - unfold is_null, field_bit. rewrite decide_True by done. cbn [mbind option_bind]. f_equal.
    rewrite land_bit_ne by lia. rewrite Hb by lia. done.
  - unfold no_stat_values_provided. rewrite bool_decide_eq_true, Forall_forall. split.
    + intros Eq g Hin Hg. specialize (Hb g ltac:(unfold COLUMN_STAT_MIN_VALUE in *; lia)).
      rewrite Eq, all_nulls_bits in Hb by (unfold COLUMN_STAT_MIN_VALUE in *; lia).
      rewrite bool_decide_eq_true_2, bool_decide_eq_false_2 in Hb by tauto. done.
    + intros Hn. zbits i. rewrite Hb, all_nulls_bits by lia. apply bool_decide_ext. naive_solver.
Qed.

Lemma column_stat_nulls_track_witness :
  let c := ColStat 0 0 0 0 (Hist SINGLE_PREC_HB 0 None) in
  ∃ c', set_not_null_all (set_all_nulls c) [COLUMN_STAT_MIN_VALUE; COLUMN_STAT_AVG_LENGTH] = Some c' ∧
    is_null c' COLUMN_STAT_MAX_VALUE = Some true.
Proof.
  destruct (column_stat_nulls_track (ColStat 0 0 0 0 (Hist SINGLE_PREC_HB 0 None))
    [COLUMN_STAT_MIN_VALUE; COLUMN_STAT_AVG_LENGTH] COLUMN_STAT_MAX_VALUE) as (c' & H1 & H2 & _).
  - repeat constructor; unfold COLUMN_STAT_MIN_VALUE, COLUMN_STAT_AVG_LENGTH; lia.
  - unfold COLUMN_STAT_MAX_VALUE. lia.
  - exists c'. split; [exact H1|]. rewrite H2. reflexivity.
Defined.

(** With an [ulong] of 32 bits the frequencies from 42950 on do not fit the
    scaled integer; with 64 bits they do. *)
Lemma avg_frequency_32_bits :
  let c := ColStat 0 0 0 0 (Hist SINGLE_PREC_HB 0 None) in
  set_avg_frequency 32 c (of_Z 42950) = None ∧
  set_avg_frequency 32 c (of_Z 42949) = Some (ColStat 0 0 0 4294900000 (Hist SINGLE_PREC_HB 0 None)) ∧
  set_avg_frequency 64 c (of_Z 42950) = Some (ColStat 0 0 0 4295000000 (Hist SINGLE_PREC_HB 0 None)).
Proof. vm_compute. done. Qed.

End properties.
