(* ===== verification/SqlString.v ===== *)
(** * String buffers (sql_string.h)

    A [String] refers to a buffer that it owns ([alloced]) or that belongs to
    someone else.  The state holds the buffers that exist and the [String]
    objects; a pointer is a buffer with an offset.  An access outside of a
    buffer, or to a buffer that was freed, has no result, and neither has
    freeing anything but the start of a buffer that exists.

    [real_alloc] and [realloc_raw] are defined outside of the headers: they are
    the type class [StringExt], and [StringExt_laws] is what their documentation
    says of them. *)

From S2P Require Import Prelude ByteOrder.
From Stdlib Require Import ZArith Lia.
From stdpp Require Import base numbers gmap fin_maps option list.
Open Scope Z_scope.
Open Scope cint_scope.

Module Str.

Definition ptr : Type := option (N * Z).

(** The character set is a number here; 63 is that of [my_charset_bin]. *)
Definition CHARSET : Type := N.
Definition my_charset_bin : CHARSET := 63%N.

Record String := MkString {
  Ptr : ptr; str_length : Z; Alloced_length : Z; extra_alloc : Z;
  alloced : bool; thread_specific : bool; str_charset : CHARSET }.

Record state := St { mem : gmap N (list Z); strs : gmap nat String }.

Definition set_mem (σ : state) (m : gmap N (list Z)) : state := St m (strs σ).
Definition set_str (σ : state) (i : nat) (s : String) : state := St (mem σ) (<[i := s]> (strs σ)).

(** *** Accesses through a pointer *)

Definition peek (σ : state) (p : ptr) (i : Z) : option Z :=
  '(b, off) ← p; l ← mem σ !! b;
  if decide (0 ≤ off + i) then l !! Z.to_nat (off + i) else None.

(** [memcpy(p + i, data, length of data)]; a byte is stored modulo 256, and a
    copy of no bytes accesses nothing. *)
Definition poke (σ : state) (p : ptr) (i : Z) (data : list Z) : option state :=
  if decide (data = []) then Some σ else
  '(b, off) ← p; l ← mem σ !! b;
  if decide (0 ≤ off + i ∧ off + i + Z.of_nat (length data) ≤ Z.of_nat (length l)) then
    let n := Z.to_nat (off + i) in
    Some (set_mem σ (<[b := take n l ++ (u8 <$> data) ++ drop (n + length data) l]> (mem σ)))
  else None.

(** [my_free(p)]. *)
Definition my_free (σ : state) (p : ptr) : option state :=
  match p with
  | None => Some σ
  | Some (b, off) =>
      if decide (off = 0) then _ ← mem σ !! b; Some (set_mem σ (delete b (mem σ))) else None
  end.

(** *** Setters *)

Definition with_ptr (s : String) (p : ptr) (len : Z) : String :=
  MkString p len (Alloced_length s) (extra_alloc s) (alloced s) (thread_specific s) (str_charset s).
Definition with_alloced_length (s : String) (n : Z) : String :=
  MkString (Ptr s) (str_length s) n (extra_alloc s) (alloced s) (thread_specific s) (str_charset s).
Definition with_extra (s : String) (n : Z) : String :=
  MkString (Ptr s) (str_length s) (Alloced_length s) n (alloced s) (thread_specific s) (str_charset s).
Definition with_alloced (s : String) (a : bool) : String :=
  MkString (Ptr s) (str_length s) (Alloced_length s) (extra_alloc s) a (thread_specific s) (str_charset s).
Definition with_charset (s : String) (cs : CHARSET) : String :=
  MkString (Ptr s) (str_length s) (Alloced_length s) (extra_alloc s) (alloced s) (thread_specific s) cs.

(** *** Constructors *)

Definition new_String : String := MkString None 0 0 0 false false my_charset_bin.

(** [String(const char *str, size_t len, CHARSET_INFO *cs)] *)
Definition new_const_String (str : ptr) (len : Z) (cs : CHARSET) : String :=
  MkString str (u32 len) 0 0 false false cs.

(** [String(char *str, size_t len, CHARSET_INFO *cs)] *)
Definition new_buffer_String (str : ptr) (len : Z) (cs : CHARSET) : String :=
  MkString str (u32 len) (u32 len) 0 false false cs.

(** [String(const String &str)] *)
Definition copy_construct (str : String) : String :=
  MkString (Ptr str) (str_length str) (Alloced_length str) 0 false false (str_charset str).

(** *** Plain members *)

Definition set_thread_specific (s : String) : String :=
  if alloced s then s
  else MkString (Ptr s) (str_length s) (Alloced_length s) (extra_alloc s) (alloced s) true (str_charset s).
Definition set_length (s : String) (len : Z) : String := with_ptr s (Ptr s) (u32 len).
Definition set_extra_allocation (s : String) (len : Z) : String := with_extra s (u32 len).
Definition is_empty (s : String) : bool := bool_decide (str_length s = 0).
Definition mark_as_const (s : String) : String := with_alloced_length s 0.
Definition is_alloced (s : String) : bool := alloced s.

(** [end()] *)
Definition end_ (s : String) : ptr := '(b, off) ← Ptr s; Some (b, off + str_length s).

(** *** Ownership *)

Definition free (σ : state) (i : nat) : option state :=
  s ← strs σ !! i;
  σ ← (if alloced s then my_free σ (Ptr s) else Some σ);
  Some (set_str σ i (MkString None 0 0 0 false (thread_specific s) (str_charset s))).

(** The destructor. *)
Definition destroy (σ : state) (i : nat) : option state :=
  σ ← free σ i; Some (St (mem σ) (delete i (strs σ))).

(** [set(String &str, size_t offset, size_t arg_length)] *)
Definition set_substring (σ : state) (i j : nat) (offset arg_length : Z) : option state :=
  if decide (j = i) then None else
  σ ← free σ i;
  str ← strs σ !! j; s ← strs σ !! i;
  let s := with_ptr s ('(b, off) ← Ptr str; Some (b, off + offset)) (u32 arg_length) in
  let s := if decide (Alloced_length str ≠ 0)
           then with_alloced_length s (u32 (Alloced_length str - offset)) else s in
  Some (set_str σ i (with_charset s (str_charset str))).

(** [set(char *str, size_t arg_length, CHARSET_INFO *cs)] *)
Definition set_buffer (σ : state) (i : nat) (str : ptr) (arg_length : Z) (cs : CHARSET) : option state :=
  σ ← free σ i; s ← strs σ !! i;
  Some (set_str σ i (with_charset (with_alloced_length (with_ptr s str (u32 arg_length)) (u32 arg_length)) cs)).

(** [set(const char *str, size_t arg_length, CHARSET_INFO *cs)] *)
Definition set_const (σ : state) (i : nat) (str : ptr) (arg_length : Z) (cs : CHARSET) : option state :=
  σ ← free σ i; s ← strs σ !! i;
  Some (set_str σ i (with_charset (with_ptr s str (u32 arg_length)) cs)).

Definition set_quick (σ : state) (i : nat) (str : ptr) (arg_length : Z) (cs : CHARSET) : option state :=
  s ← strs σ !! i;
  let s := if alloced s then s else with_alloced_length (with_ptr s str (u32 arg_length)) (u32 arg_length) in
  Some (set_str σ i (with_charset s cs)).

Definition reset (σ : state) (i : nat) (ptr_arg : ptr) (length_arg alloced_length_arg : Z) (cs : CHARSET)
    : option state :=
  σ ← free σ i; s ← strs σ !! i;
  let s := with_ptr s ptr_arg (u32 length_arg) in
  let s := with_alloced_length s (u32 alloced_length_arg) in
  let s := with_charset s cs in
  Some (set_str σ i (with_alloced s (bool_decide (ptr_arg ≠ None)))).

Definition release (σ : state) (i : nat) : option (state * ptr) :=
  s ← strs σ !! i;
  Some (set_str σ i (MkString None 0 0 0 false false (str_charset s)), Ptr s).

(** Whether the buffer of [s] is inside the text of [t]. *)
Definition uses_buffer_owned_by (s t : String) : bool :=
  alloced t &&
  match Ptr s, Ptr t with
  | Some (b, off), Some (b', off') =>
      bool_decide (b = b' ∧ off' ≤ off ∧ off < off' + str_length t)
  | _, _ => false
  end.

(** [operator=].  The assertion forbids assigning a string that refers into the
    buffer of the object. *)
Definition assign (σ : state) (i j : nat) : option state :=
  if decide (j ≠ i) then
    s ← strs σ !! j; t ← strs σ !! i;
    if uses_buffer_owned_by s t then None else
    σ ← free σ i;
    s ← strs σ !! j; t ← strs σ !! i;
    let t := with_alloced_length (with_ptr t (Ptr s) (str_length s)) (Alloced_length s) in
    Some (set_str σ i (with_charset t (str_charset s)))
  else Some σ.

(** [i.move(j)], [j] another object. *)
Definition move (σ : state) (i j : nat) : option state :=
  σ ← free σ i;
  s ← strs σ !! j; t ← strs σ !! i;
  let t := MkString (Ptr s) (str_length s) (Alloced_length s) (extra_alloc s) (alloced s)
             (thread_specific s) (str_charset t) in
  let σ := set_str σ i t in
  s ← strs σ !! j;
  Some (set_str σ j (with_alloced s false)).

(** *** Reallocation *)

(** The functions defined elsewhere; the flag is the error.  [my_realloc] gives
    the new pointer, null when memory is exhausted. *)
Class StringExt := {
  real_alloc : state → nat → Z → option (state * bool);
  realloc_raw : state → nat → Z → option (state * bool);
  my_realloc : state → ptr → Z → option (state * ptr);
  _dig_vec_lower : list Z }.

Section operations.
Context `{StringExt}.

Definition alloc (σ : state) (i : nat) (arg_length : Z) : option (state * bool) :=
  s ← strs σ !! i;
  if decide (arg_length < Alloced_length s) then Some (σ, false) else real_alloc σ i arg_length.

Definition realloc (σ : state) (i : nat) (arg_length : Z) : option (state * bool) :=
  '(σ, e) ← realloc_raw σ i arg_length;
  if e : bool then Some (σ, true) else
  s ← strs σ !! i; σ ← poke σ (Ptr s) arg_length [0]; Some (σ, false).

Definition realloc_with_extra (σ : state) (i : nat) (arg_length : Z) : option (state * bool) :=
  s ← strs σ !! i;
  let s := if decide (extra_alloc s < 4096) then with_extra s (u32 (extra_alloc s * 2 + 128)) else s in
  let σ := set_str σ i s in
  '(σ, e) ← realloc_raw σ i (u64 (arg_length + extra_alloc s));
  if e : bool then Some (σ, true) else
  s ← strs σ !! i; σ ← poke σ (Ptr s) arg_length [0]; Some (σ, false).

Definition realloc_with_extra_if_needed (σ : state) (i : nat) (arg_length : Z) : option (state * bool) :=
  s ← strs σ !! i;
  if decide (arg_length < Alloced_length s) then
    σ ← poke σ (Ptr s) arg_length [0]; Some (σ, false)
  else realloc_with_extra σ i arg_length.

Definition ALIGN_SIZE (a : Z) : Z := u64 (a + 8 - 1) .& u64 (Z.lnot (8 - 1)).

Definition shrink (σ : state) (i : nat) (arg_length : Z) : option state :=
  s ← strs σ !! i;
  if alloced s then
    if decide (ALIGN_SIZE (u64 (arg_length + 1)) < Alloced_length s) then
      '(σ, new_ptr) ← my_realloc σ (Ptr s) arg_length;
      match new_ptr with
      | None =>
          let σ := set_str σ i (with_alloced_length s 0) in
          '(σ, _) ← real_alloc σ i arg_length; Some σ
      | Some _ => Some (set_str σ i (with_alloced_length (with_ptr s new_ptr (str_length s)) (u32 arg_length)))
      end
    else Some σ
  else Some σ.

(** *** Terminated strings *)

Definition c_ptr (σ : state) (i : nat) : option (state * ptr) :=
  s ← strs σ !! i;
  z ← match Ptr s with None => Some 1 | Some _ => peek σ (Ptr s) (str_length s) end;
  σ ← (if decide (z ≠ 0) then '(σ, _) ← realloc σ i (str_length s); Some σ else Some σ);
  s ← strs σ !! i; Some (σ, Ptr s).

Definition c_ptr_quick (σ : state) (i : nat) : option (state * ptr) :=
  s ← strs σ !! i;
  σ ← (if decide (Ptr s ≠ None ∧ str_length s < Alloced_length s)
       then poke σ (Ptr s) (str_length s) [0] else Some σ);
  Some (σ, Ptr s).

Definition c_ptr_safe (σ : state) (i : nat) : option (state * ptr) :=
  s ← strs σ !! i;
  σ ← (if decide (Ptr s ≠ None ∧ str_length s < Alloced_length s)
       then poke σ (Ptr s) (str_length s) [0]
       else '(σ, _) ← realloc σ i (str_length s); Some σ);
  s ← strs σ !! i; Some (σ, Ptr s).

Definition chop (σ : state) (i : nat) : option state :=
  s ← strs σ !! i;
  let s := with_ptr s (Ptr s) (u32 (str_length s - 1)) in
  poke (set_str σ i s) (Ptr s) (str_length s) [0].

(** *** Appending *)

(** [Ptr[str_length++]= chr] *)
Definition put (σ : state) (i : nat) (data : list Z) : option state :=
  s ← strs σ !! i;
  σ ← poke σ (Ptr s) (str_length s) data;
  Some (set_str σ i (with_ptr s (Ptr s) (u32 (str_length s + Z.of_nat (length data))))).

Definition append_char (σ : state) (i : nat) (chr : Z) : option (state * bool) :=
  s ← strs σ !! i;
  if decide (str_length s < Alloced_length s) then σ ← put σ i [chr]; Some (σ, false)
  else
    '(σ, e) ← realloc_with_extra σ i (u32 (str_length s + 1));
    if e : bool then Some (σ, true) else σ ← put σ i [chr]; Some (σ, false).

Fixpoint append_hex (σ : state) (i : nat) (src : list Z) : option (state * bool) :=
  match src with
  | [] => Some (σ, false)
  | c :: src =>
      hi ← _dig_vec_lower !! Z.to_nat (u8 c ≫ 4);
      '(σ, e) ← append_char σ i hi;
      if e : bool then Some (σ, true) else
      lo ← _dig_vec_lower !! Z.to_nat (u8 c .& 15);
      '(σ, e) ← append_char σ i lo;
      if e : bool then Some (σ, true) else append_hex σ i src
  end.

(** [reserve(size_t space_needed)] *)
Definition reserve (σ : state) (i : nat) (space_needed : Z) : option (state * bool) :=
  s ← strs σ !! i; realloc σ i (u64 (str_length s + space_needed)).

(** The [q_append] functions do not check the space. *)
Definition q_append_char (σ : state) (i : nat) (c : Z) : option state := put σ i [c].
Definition q_append2b (σ : state) (i : nat) (n : Z) : option state := put σ i (le_bytes 2 n).
Definition q_append4b (σ : state) (i : nat) (n : Z) : option state := put σ i (le_bytes 4 n).
Definition q_append (σ : state) (i : nat) (data : list Z) : option state := put σ i data.
Definition qs_append_char (σ : state) (i : nat) (c : Z) : option state := put σ i [c].

Definition write_at_position (σ : state) (i : nat) (position value : Z) : option state :=
  s ← strs σ !! i; poke σ (Ptr s) position (le_bytes 4 value).

(** The area to use, or null. *)
Definition prep_append (σ : state) (i : nat) (arg_length step_alloc : Z) : option (state * ptr) :=
  s ← strs σ !! i;
  let new_length := u32 (arg_length + str_length s) in
  '(σ, e) ← (if decide (Alloced_length s < new_length)
             then realloc σ i (u32 (new_length + step_alloc)) else Some (σ, false));
  if e : bool then Some (σ, None) else
  s ← strs σ !! i;
  let old_length := str_length s in
  let s := with_ptr s (Ptr s) (u32 (str_length s + arg_length)) in
  Some (set_str σ i s, '(b, off) ← Ptr s; Some (b, off + old_length)).

(** [append(const char *s, uint32 arg_length, uint32 step_alloc)] with the
    [arg_length] bytes of [data]. *)
Definition append_step (σ : state) (i : nat) (data : list Z) (step_alloc : Z) : option (state * bool) :=
  s ← strs σ !! i;
  let arg_length := u32 (Z.of_nat (length data)) in
  let new_length := u32 (arg_length + str_length s) in
  '(σ, e) ← (if decide (Alloced_length s < new_length)
             then realloc σ i (u32 (new_length + step_alloc)) else Some (σ, false));
  if e : bool then Some (σ, true) else σ ← put σ i data; Some (σ, false).

End operations.

(** *** Comparing *)

(** The bytes of the text. *)
Definition text (σ : state) (i : nat) : option (list Z) :=
  s ← strs σ !! i;
  match Ptr s with
  | None => if decide (str_length s = 0) then Some [] else None
  | Some (b, off) =>
      l ← mem σ !! b;
      if decide (0 ≤ off ∧ 0 ≤ str_length s ∧ off + str_length s ≤ Z.of_nat (length l))
      then Some (take (Z.to_nat (str_length s)) (drop (Z.to_nat off) l)) else None
  end.

(** [mbminlen]: the shortest character of a character set; [my_isascii(c)] is
    [!((c) & ~0177)]. *)
Definition is_ascii (mbminlen : CHARSET → Z) (σ : state) (i : nat) : option bool :=
  s ← strs σ !! i;
  if decide (str_length s = 0) then Some true else
  if decide (1 < mbminlen (str_charset s)) then Some false else
  t ← text σ i; Some (forallb (λ c, bool_decide (c .& Z.lnot 127 = 0)) t).

Definition bin_eq (σ : state) (i j : nat) : option bool :=
  s ← strs σ !! i; t ← strs σ !! j;
  if decide (str_length s = str_length t) then
    x ← text σ i; y ← text σ j; Some (bool_decide (x = y))
  else Some false.

(** [StringBuffer()] with the buffer [b] of [buff_sz] bytes. *)
Definition new_StringBuffer (b : N) (buff_sz : Z) (cs : CHARSET) : String :=
  set_length (new_buffer_String (Some (b, 0)) buff_sz cs) 0.

End Str.

(** ** Laws *)

Section laws.
Import Str.

Definition owns (s : String) (b : N) : Prop := alloced s = true ∧ Ptr s = Some (b, 0).

(** The object [i] is [s], and what it refers to exists. *)
Record valid (σ : state) (i : nat) (s : String) : Prop := {
  v_str : strs σ !! i = Some s;
  v_len : in_u 32 (str_length s);
  v_alloced : in_u 32 (Alloced_length s);
  v_extra : in_u 32 (extra_alloc s);
  v_ptr : match Ptr s with
          | None => str_length s = 0 ∧ Alloced_length s = 0 ∧ alloced s = false
          | Some (b, off) => ∃ l, mem σ !! b = Some l ∧ 0 ≤ off ∧
              off + str_length s ≤ Z.of_nat (length l) ∧ off + Alloced_length s ≤ Z.of_nat (length l) ∧
              (alloced s = true → off = 0)
          end }.

(** What a reallocation of [s] to [s'] may do to the buffers. *)
Definition owner_frame (σ σ' : state) (s s' : String) : Prop :=
  (∀ b l, mem σ !! b = Some l → ¬ owns s b → mem σ' !! b = Some l) ∧
  ((Ptr s' = Ptr s ∧ alloced s' = alloced s) ∨ ∃ b, owns s' b ∧ mem σ !! b = None) ∧
  (∀ b, is_Some (mem σ' !! b) → is_Some (mem σ !! b) ∨ owns s' b) ∧
  (∀ b, owns s b → is_Some (mem σ' !! b) → owns s' b).

(** [realloc_raw] to [n] bytes: the error leaves everything as it was; otherwise
    the buffer has room for more than [n] bytes and the same text. *)
Definition reallocated (σ σ' : state) (i : nat) (s : String) (n : Z) : Prop :=
  ∃ s', strs σ' = <[i := s']> (strs σ) ∧ valid σ' i s' ∧ str_length s' = str_length s ∧
    extra_alloc s' = extra_alloc s ∧ str_charset s' = str_charset s ∧ n < Alloced_length s' ∧
    text σ' i = text σ i ∧ owner_frame σ σ' s s'.

Class StringExt_laws `{StringExt} : Prop := {
  realloc_raw_law σ i s n : valid σ i s → str_length s ≤ n < 2 ^ 64 →
    ∃ σ' e, realloc_raw σ i n = Some (σ', e) ∧
      if e : bool then σ' = σ else reallocated σ σ' i s n;
  dig_vec_law : (16 ≤ length _dig_vec_lower)%nat }.

End laws.

(** ** Growing a string *)

Section append.
Import Str.
Context `{StringExt_laws}.

Definition block (s : String) : option N := fst <$> Ptr s.

(** What an operation on [i] leaves alone: the other objects, and the buffers
    [s] does not refer to; the string refers to the same buffer or a new one. *)
Definition kept (σ σ' : state) (i : nat) (s s' : String) : Prop :=
  (∀ j, j ≠ i → strs σ' !! j = strs σ !! j) ∧
  (∀ b l, mem σ !! b = Some l → block s ≠ Some b → mem σ' !! b = Some l) ∧
  (∀ b, block s' = Some b → block s = Some b ∨ mem σ !! b = None) ∧
  str_charset s' = str_charset s.

Lemma kept_refl σ i s : kept σ σ i s s.
Proof. unfold kept. naive_solver. Qed.

Lemma kept_trans σ σ1 σ2 i s s1 s2 : kept σ σ1 i s s1 → kept σ1 σ2 i s1 s2 → kept σ σ2 i s s2.
Proof.
  intros (Hs & Hm & Hb & Hc) (Hs' & Hm' & Hb' & Hc'). split_and!.
  - intros j Hj. by rewrite Hs', Hs.
  - intros b l Hl Hne. apply Hm'; [by apply Hm|]. intros [E|E]%Hb; [done|]. by rewrite Hl in E.
  - intros b [E|E]%Hb'; [by apply Hb|]. destruct (decide (block s = Some b)) as [|Hne]; [by left|]. right.
    destruct (mem σ !! b) as [l|] eqn:El; [|done]. by rewrite (Hm b l El Hne) in E.
  - by rewrite Hc', Hc.
Qed.

Lemma valid_text σ i s : valid σ i s → ∃ xs, text σ i = Some xs ∧ Z.of_nat (length xs) = str_length s.
Proof.
  intros [Hs Hl Ha He Hp]. unfold text. rewrite Hs. cbn [mbind option_bind]. unfold in_u in *.
  destruct (Ptr s) as [[b off]|].
  - destruct Hp as (l & Hb & Ho & H1 & _). rewrite Hb. cbn [mbind option_bind]. rewrite decide_True by lia.
    eexists. split; [done|]. rewrite length_take, length_drop. lia.
  - destruct Hp as (Hz & _). rewrite decide_True by done. exists []. by rewrite Hz.
Qed.

(** Bytes written behind the text. *)
Lemma poke_behind σ i s k data :
  valid σ i s → str_length s ≤ k → k + Z.of_nat (length data) ≤ Alloced_length s → data ≠ [] →
  ∃ b off l, Ptr s = Some (b, off) ∧ mem σ !! b = Some l ∧ 0 ≤ off ∧
    off + Alloced_length s ≤ Z.of_nat (length l) ∧
    poke σ (Ptr s) k data = Some (set_mem σ (<[b := take (Z.to_nat (off + k)) l ++ (u8 <$> data) ++
                                                drop (Z.to_nat (off + k) + length data) l]> (mem σ))).
Proof.
  intros [Hs Hl Ha He Hp] Hk Hd Hne. unfold in_u in *. unfold poke. rewrite decide_False by done.
  destruct (Ptr s) as [[b off]|].
  - destruct Hp as (l & Hb & Ho & H1 & H2 & _). exists b, off, l. split_and!; [done..|].
    cbn [mbind option_bind]. rewrite Hb. cbn [mbind option_bind]. by rewrite decide_True by lia.
  - destruct Hp as (_ & Hz & _). destruct data; [done|]. cbn in Hd. lia.
Qed.

(** The buffer after such a write. *)
Lemma spliced_length (l data : list Z) n :
  (n + length data ≤ length l)%nat → length (take n l ++ (u8 <$> data) ++ drop (n + length data) l) = length l.
Proof. intros Hn. rewrite !length_app, length_fmap, length_take, length_drop. lia. Qed.

Lemma splice_before (l D R : list Z) o L k :
  (L ≤ k)%nat → (o + k ≤ length l)%nat → take L (drop o (take (o + k) l ++ D ++ R)) = take L (drop o l).
Proof.
  intros HL Hk. rewrite drop_app_le by (rewrite length_take; lia).
  rewrite take_app_le by (rewrite length_drop, length_take; lia).
  rewrite skipn_firstn_comm, take_take. f_equal. lia.
Qed.

Lemma splice_text (l D R : list Z) o L d :
  length D = d → (o + L ≤ length l)%nat →
  take (L + d) (drop o (take (o + L) l ++ D ++ R)) = take L (drop o l) ++ D.
Proof.
  intros HD HL. rewrite drop_app_le by (rewrite length_take; lia). rewrite skipn_firstn_comm, app_assoc.
  replace (o + L - o)%nat with L by lia. apply take_app_length'. rewrite length_app, length_take, length_drop. lia.
Qed.

Lemma kept_set_mem σ i s s' b off l' x :
  Ptr s = Some (b, off) → Ptr s' = Some (b, off) → str_charset s' = str_charset s →
  kept σ (set_str (set_mem σ (<[b := l']> (mem σ))) i x) i s s'.
Proof.
  intros Hp Hp' Hc. unfold kept, block. rewrite Hp, Hp'. cbn. split_and!; try done.
  - intros j Hj. by apply lookup_insert_ne.
  - intros c l Hl Hne. rewrite lookup_insert_ne by congruence. done.
  - by left.
Qed.

Lemma put_rep σ i s xs data :
  valid σ i s → text σ i = Some xs → str_length s + Z.of_nat (length data) ≤ Alloced_length s →
  ∃ σ' s', put σ i data = Some σ' ∧ valid σ' i s' ∧ text σ' i = Some (xs ++ (u8 <$> data)) ∧
    str_length s' = str_length s + Z.of_nat (length data) ∧ Alloced_length s' = Alloced_length s ∧ kept σ σ' i s s'.
Proof.
  intros Hv Hx Hfit. pose proof Hv as [Hs Hl Ha He Hp]. unfold in_u in *. unfold put. rewrite Hs. cbn [mbind option_bind].
  set (s' := with_ptr s (Ptr s) (u32 (str_length s + Z.of_nat (length data)))).
  assert (str_length s' = str_length s + Z.of_nat (length data)) as Hl'
    by (cbn; apply wrapu_small; unfold in_u; lia).
  destruct (decide (data = [])) as [->|Hne].
  - unfold poke. rewrite decide_True by done. cbn [mbind option_bind].
    assert (s' = s) as Es. { unfold s'. cbn. rewrite Z.add_0_r, wrapu_small by (unfold in_u; lia). by destruct s. }
    rewrite Es. eexists _, s. split; [done|].
    assert (set_str σ i s = σ) as -> by (destruct σ as [m ss]; unfold set_str; cbn; f_equal; by apply insert_id).
    split_and!; [done|by rewrite app_nil_r|cbn; lia|done|apply kept_refl].
  - destruct (poke_behind σ i s (str_length s) data) as (b & off & l & Ep & Eb & Ho & Hroom & ->); [done|lia|lia|done|].
    cbn [mbind option_bind]. eexists _, s'. split; [done|].
    rewrite Ep in Hp. destruct Hp as (l0 & Eb0 & _ & H1 & H2 & H3). rewrite Eb in Eb0. injection Eb0 as <-.
    assert (length (take (Z.to_nat (off + str_length s)) l ++ (u8 <$> data) ++
              drop (Z.to_nat (off + str_length s) + length data) l) = length l) as Hlen by (apply spliced_length; lia).
    split_and!; [| |done|done|by eapply kept_set_mem].
    + constructor; cbn [strs set_str set_mem mem]; [apply lookup_insert_eq|unfold in_u; lia|unfold in_u; done..|].
      cbn [Ptr s' with_ptr]. rewrite Ep. eexists. rewrite lookup_insert_eq. split; [done|]. rewrite Hlen.
      split_and!; [lia|lia|cbn; lia|done].
    + unfold text in *. rewrite Hs in Hx. cbn [strs set_str set_mem mem]. rewrite lookup_insert_eq. cbn [mbind option_bind] in *.
      cbn [Ptr s' with_ptr]. rewrite Ep in *. rewrite lookup_insert_eq. rewrite Eb in Hx. cbn [mbind option_bind] in *.
      rewrite decide_True in Hx by lia. injection Hx as <-. fold s'. rewrite Hlen.
      rewrite decide_True by lia. f_equal. rewrite Hl'.
      replace (Z.to_nat (off + str_length s)) with (Z.to_nat off + Z.to_nat (str_length s))%nat by lia.
      replace (Z.to_nat (str_length s + Z.of_nat (length data))) with (Z.to_nat (str_length s) + length data)%nat by lia.
      apply splice_text; [by rewrite length_fmap|lia].
Qed.

(** A byte written behind the text does not change it. *)
Lemma terminate_rep σ i s n :
  valid σ i s → str_length s ≤ n < Alloced_length s →
  ∃ σ', poke σ (Ptr s) n [0] = Some σ' ∧ strs σ' = strs σ ∧ valid σ' i s ∧ text σ' i = text σ i ∧
    kept σ σ' i s s ∧ peek σ' (Ptr s) n = Some 0.
Proof.
  intros Hv Hn. pose proof Hv as [Hs Hl Ha He Hp]. unfold in_u in *.
  destruct (poke_behind σ i s n [0]) as (b & off & l & Ep & Eb & Ho & Hroom & ->); [done|lia|cbn; lia|done|].
  eexists. split; [done|]. split; [done|]. rewrite Ep in *.
  destruct Hp as (l0 & Eb0 & _ & H1 & H2 & H3). rewrite Eb in Eb0. injection Eb0 as <-.
  pose proof (spliced_length l [0] (Z.to_nat (off + n)) ltac:(cbn; lia)) as Hlen.
  set (l' := take (Z.to_nat (off + n)) l ++ (u8 <$> [0]) ++ drop (Z.to_nat (off + n) + length [0]) l) in *.
  split_and!.
  - constructor; try done. rewrite Ep. exists l'. cbn [mem set_mem]. rewrite lookup_insert_eq, Hlen. done.
  - unfold text. cbn [strs set_mem mem]. rewrite Hs. cbn [mbind option_bind]. rewrite Ep, lookup_insert_eq, Eb.
    cbn [mbind option_bind]. rewrite Hlen. case_decide; [|done]. f_equal. unfold l'.
    replace (Z.to_nat (off + n)) with (Z.to_nat off + Z.to_nat n)%nat by lia. apply splice_before; lia.
  - unfold kept, block. rewrite Ep. cbn. split_and!; try done; [|by left].
    intros c x Hx Hne. rewrite lookup_insert_ne by congruence. done.
  - unfold peek. cbn [mbind option_bind mem set_mem]. rewrite lookup_insert_eq. cbn [mbind option_bind].
    rewrite decide_True by lia. unfold l'.
    rewrite lookup_app_r by (rewrite length_take; lia).
    by replace (Z.to_nat (off + n) - length (take (Z.to_nat (off + n)) l))%nat with O by (rewrite length_take; lia).
Qed.

Lemma reallocated_kept σ σ' i s n :
  valid σ i s → reallocated σ σ' i s n →
  ∃ s', valid σ' i s' ∧ str_length s' = str_length s ∧ n < Alloced_length s' ∧ text σ' i = text σ i ∧ kept σ σ' i s s'.
Proof.
  intros Hv (s' & Hs & Hv' & Hl & He & Hc & Hn & Ht & Hf & Hp & _). exists s'. split_and!; try done.
  split_and!; [| | |done].
  - intros j Hj. rewrite Hs. by apply lookup_insert_ne.
  - intros b l Hb Hne. apply (Hf b l Hb). intros [_ E]. apply Hne. unfold block. by rewrite E.
  - intros b Eb. destruct Hp as [[Ep _]|(c & [_ Ec] & Hc')].
    + left. unfold block in *. by rewrite <- Ep.
    + right. unfold block in Eb. rewrite Ec in Eb. by injection Eb as ->.
Qed.

(** [realloc]: the error leaves everything as it was. *)
Lemma realloc_rep σ i s n :
  valid σ i s → str_length s ≤ n < 2 ^ 64 →
  ∃ σ' e, realloc σ i n = Some (σ', e) ∧
    if e : bool then σ' = σ else
    ∃ s', valid σ' i s' ∧ str_length s' = str_length s ∧ n < Alloced_length s' ∧ text σ' i = text σ i ∧
      kept σ σ' i s s' ∧ peek σ' (Ptr s') n = Some 0.
Proof.
  intros Hv Hn. unfold realloc. destruct (realloc_raw_law σ i s n Hv Hn) as (σ1 & e & -> & He). cbn [mbind option_bind].
  destruct e; [by exists σ1, true|]. destruct (reallocated_kept _ _ _ _ _ Hv He) as (s1 & Hv1 & Hl & Ha & Ht & Hk).
  rewrite (v_str _ _ _ Hv1). cbn [mbind option_bind].
  destruct (terminate_rep σ1 i s1 n Hv1) as (σ2 & -> & Hs2 & Hv2 & Ht2 & Hk2 & Hz); [lia|]. cbn [mbind option_bind].
  exists σ2, false. split; [done|]. exists s1. split_and!; try done; [by rewrite Ht2|by eapply kept_trans].
Qed.

(** The string [i] has the text [xs] now. *)
Definition grown (σ σ' : state) (i : nat) (s : String) (xs : list Z) : Prop :=
  ∃ s', valid σ' i s' ∧ text σ' i = Some xs ∧ kept σ σ' i s s'.

Lemma grown_refl σ i s xs : valid σ i s → text σ i = Some xs → grown σ σ i s xs.
Proof. intros Hv Ht. exists s. split_and!; [done..|apply kept_refl]. Qed.

Lemma grown_put σ σ1 i s s1 xs data :
  kept σ σ1 i s s1 → valid σ1 i s1 → text σ1 i = Some xs →
  str_length s1 + Z.of_nat (length data) ≤ Alloced_length s1 →
  ∃ σ', put σ1 i data = Some σ' ∧ grown σ σ' i s (xs ++ (u8 <$> data)).
Proof.
  intros Hk Hv Ht Hfit. destruct (put_rep _ _ _ _ _ Hv Ht Hfit) as (σ' & s' & -> & Hv' & Ht' & _ & _ & Hk').
  exists σ'. split; [done|]. exists s'. split_and!; [done..|by eapply kept_trans].
Qed.

Lemma set_extra_valid σ i s x :
  valid σ i s → in_u 32 x →
  valid (set_str σ i (with_extra s x)) i (with_extra s x) ∧
  text (set_str σ i (with_extra s x)) i = text σ i ∧ kept σ (set_str σ i (with_extra s x)) i s (with_extra s x).
Proof.
  intros [Hs Hl Ha He Hp] Hx. split_and!.
  - constructor; try done. apply lookup_insert_eq.
  - unfold text. cbn [strs set_str mem]. rewrite lookup_insert_eq, Hs. done.
  - unfold kept. cbn. split_and!; try done; [|by left]. intros j Hj. by apply lookup_insert_ne.
Qed.

Lemma realloc_with_extra_rep σ i s n :
  valid σ i s → str_length s ≤ n < 2 ^ 32 →
  ∃ σ' e s', realloc_with_extra σ i n = Some (σ', e) ∧ valid σ' i s' ∧ str_length s' = str_length s ∧
    text σ' i = text σ i ∧ kept σ σ' i s s' ∧ (e = false → n < Alloced_length s').
Proof.
  intros Hv Hn. unfold realloc_with_extra. rewrite (v_str _ _ _ Hv). cbn [mbind option_bind].
  set (x := if decide (extra_alloc s < 4096) then u32 (extra_alloc s * 2 + 128) else extra_alloc s).
  assert (in_u 32 x) as Hx by (unfold x; case_decide; [apply wrapu_range; lia|apply Hv]).
  assert ((if decide (extra_alloc s < 4096) then with_extra s (u32 (extra_alloc s * 2 + 128)) else s) = with_extra s x)
    as -> by (unfold x; case_decide; [done|by destruct s]).
  destruct (set_extra_valid σ i s x Hv Hx) as (Hv1 & Ht1 & Hk1). cbn [extra_alloc with_extra].
  pose proof (v_len _ _ _ Hv) as Hl0. unfold in_u in Hx, Hl0. rewrite wrapu_small by (unfold in_u; lia).
  destruct (realloc_raw_law _ i _ (n + x) Hv1) as (σ1 & e & -> & He); [cbn [str_length with_extra]; lia|]. cbn [mbind option_bind].
  destruct e.
  - subst σ1. eexists _, true, _. split_and!; [done..|]. done.
  - destruct (reallocated_kept _ _ _ _ _ Hv1 He) as (s1 & Hv2 & Hl & Ha & Ht & Hk).
    rewrite (v_str _ _ _ Hv2). cbn [mbind option_bind]. cbn in Hl.
    destruct (terminate_rep σ1 i s1 n Hv2) as (σ2 & -> & Hs2 & Hv3 & Ht2 & Hk2 & Hz); [lia|]. cbn [mbind option_bind].
    exists σ2, false, s1. split_and!; try done; [by rewrite Ht2, Ht|by eapply kept_trans, kept_trans|lia].
Qed.

Lemma append_char_rep σ i s xs c :
  valid σ i s → text σ i = Some xs → str_length s + 1 < 2 ^ 32 →
  ∃ σ' e, append_char σ i c = Some (σ', e) ∧ grown σ σ' i s (xs ++ if e : bool then [] else [u8 c]).
Proof.
  intros Hv Ht Hlt. unfold append_char. rewrite (v_str _ _ _ Hv). cbn [mbind option_bind].
  pose proof (v_len _ _ _ Hv) as Hl. unfold in_u in Hl. case_decide as Hfit.
  - destruct (grown_put σ σ i s s xs [c]) as (σ' & -> & Hg); [apply kept_refl|done|done|cbn; lia|].
    exists σ', false. done.
  - rewrite wrapu_small by (unfold in_u; lia).
    destruct (realloc_with_extra_rep σ i s (str_length s + 1) Hv) as (σ1 & e & s1 & -> & Hv1 & Hl1 & Ht1 & Hk1 & Ha1); [lia|].
    cbn [mbind option_bind]. rewrite Ht in Ht1. destruct e.
    + exists σ1, true. split; [done|]. rewrite app_nil_r. by exists s1.
    + specialize (Ha1 eq_refl).
      destruct (grown_put σ σ1 i s s1 xs [c]) as (σ' & -> & Hg); [done|done|done|cbn; lia|]. by exists σ', false.
Qed.

Lemma append_step_rep σ i s xs data step :
  valid σ i s → text σ i = Some xs → 0 ≤ step →
  str_length s + Z.of_nat (length data) + step < 2 ^ 32 →
  ∃ σ' e, append_step σ i data step = Some (σ', e) ∧
    grown σ σ' i s (xs ++ if e : bool then [] else u8 <$> data).
Proof.
  intros Hv Ht Hst Hlt. unfold append_step. rewrite (v_str _ _ _ Hv). cbn [mbind option_bind].
  pose proof (v_len _ _ _ Hv) as Hl. unfold in_u in Hl.
  rewrite (wrapu_small 32 (Z.of_nat (length data))) by (unfold in_u; lia).
  rewrite (wrapu_small 32 (Z.of_nat (length data) + str_length s)) by (unfold in_u; lia).
  rewrite (wrapu_small 32 (Z.of_nat (length data) + str_length s + step)) by (unfold in_u; lia).
  case_decide as Hneed; cbn [mbind option_bind].
  - destruct (realloc_rep σ i s (Z.of_nat (length data) + str_length s + step) Hv) as (σ1 & e & -> & He); [lia|].
    cbn [mbind option_bind]. destruct e.
    + subst σ1. exists σ, true. rewrite app_nil_r. split; [done|]. by apply grown_refl.
    + destruct He as (s1 & Hv1 & Hl1 & Ha1 & Ht1 & Hk1 & _). rewrite Ht in Ht1.
      destruct (grown_put σ σ1 i s s1 xs data) as (σ' & -> & Hg); [done|done|done|lia|]. by exists σ', false.
  - destruct (grown_put σ σ i s s xs data) as (σ' & -> & Hg); [apply kept_refl|done|done|lia|]. by exists σ', false.
Qed.

Lemma grown_trans σ σ1 σ2 i s xs ys :
  grown σ σ1 i s xs → (∀ s1, valid σ1 i s1 → grown σ1 σ2 i s1 ys) → grown σ σ2 i s ys.
Proof.
  intros (s1 & Hv & _ & Hk) Hg. destruct (Hg s1 Hv) as (s2 & Hv2 & Ht2 & Hk2).
  exists s2. split_and!; [done..|by eapply kept_trans].
Qed.

Lemma text_length σ i s xs : valid σ i s → text σ i = Some xs → str_length s = Z.of_nat (length xs).
Proof. intros Hv Ht. destruct (valid_text _ _ _ Hv) as (ys & E & <-). rewrite Ht in E. by injection E as ->. Qed.

Definition dig (k : Z) : Z := u8 (default 0 (_dig_vec_lower !! Z.to_nat k)).
Definition hex (src : list Z) : list Z := src ≫= λ c, [dig (u8 c ≫ 4); dig (u8 c .& 15)].

Lemma dig_lookup k : 0 ≤ k < 16 → ∃ d, _dig_vec_lower !! Z.to_nat k = Some d ∧ u8 d = dig k.
Proof.
  intros Hk. pose proof dig_vec_law. destruct (lookup_lt_is_Some_2 _dig_vec_lower (Z.to_nat k)) as [d Hd]; [lia|].
  exists d. unfold dig. by rewrite Hd.
Qed.

Lemma nibbles c : 0 ≤ u8 c ≫ 4 < 16 ∧ 0 ≤ u8 c .& 15 < 16.
Proof.
  pose proof (wrapu_range 8 ltac:(lia) c) as Hc. unfold in_u in Hc. split.
  - rewrite Z.shiftr_div_pow2 by lia. change (2 ^ 4) with 16. Z.to_euclidean_division_equations; lia.
  - change 15 with (Z.ones 4). rewrite Z.land_ones by lia. apply Z.mod_pos_bound. lia.
Qed.

Lemma append_hex_rep i src : ∀ σ s xs,
  valid σ i s → text σ i = Some xs → Z.of_nat (length xs) + 2 * Z.of_nat (length src) < 2 ^ 32 →
  ∃ σ' e ys, append_hex σ i src = Some (σ', e) ∧ grown σ σ' i s (xs ++ ys) ∧
    ys `prefix_of` hex src ∧ (e = false → ys = hex src).
Proof.
  induction src as [|c src IH]; intros σ s xs Hv Ht Hlt.
  { exists σ, false, []. rewrite app_nil_r. split_and!; [done|by apply grown_refl|done..]. }
  cbn [append_hex length] in *. pose proof (text_length _ _ _ _ Hv Ht) as Hl. destruct (nibbles c) as [N1 N2].
  destruct (dig_lookup _ N1) as (d1 & -> & E1). cbn [mbind option_bind].
  destruct (append_char_rep σ i s xs d1 Hv Ht) as (σ1 & e1 & -> & Hg1); [lia|]. cbn [mbind option_bind].
  destruct e1; [exists σ1, true, []; split_and!; [done|done|by apply prefix_nil|done]|].
  rewrite E1 in Hg1. destruct (dig_lookup _ N2) as (d2 & -> & E2). cbn [mbind option_bind].
  pose proof Hg1 as (s1 & Hv1 & Ht1 & Hk1). pose proof (text_length _ _ _ _ Hv1 Ht1) as Hl1.
  rewrite length_app in Hl1. cbn in Hl1.
  destruct (append_char_rep σ1 i s1 _ d2 Hv1 Ht1) as (σ2 & e2 & -> & (s2 & Hv2 & Ht2 & Hk2)); [lia|]. cbn [mbind option_bind].
  pose proof (kept_trans _ _ _ _ _ _ _ Hk1 Hk2) as Hk. destruct e2.
  { exists σ2, true, [dig (u8 c ≫ 4)]. split_and!; [done| |by eexists|done].
    rewrite app_nil_r in Ht2. by exists s2. }
  rewrite E2, <- app_assoc in Ht2. cbn [app] in Ht2.
  destruct (IH σ2 s2 _ Hv2 Ht2) as (σ' & e & ys & -> & (s' & Hv' & Ht' & Hk') & Hp & Hy).
  { rewrite length_app. cbn. lia. }
  exists σ', e, (dig (u8 c ≫ 4) :: dig (u8 c .& 15) :: ys). split_and!.
  - done.
  - exists s'. rewrite <- app_assoc in Ht'. split_and!; [done..|by eapply kept_trans].
  - by do 2 apply prefix_cons.
  - intros ->. by rewrite Hy.
Qed.

Lemma reserve_rep σ i s xs n :
  valid σ i s → text σ i = Some xs → 0 ≤ n < 2 ^ 63 →
  ∃ σ' e, reserve σ i n = Some (σ', e) ∧ grown σ σ' i s xs.
Proof.
  intros Hv Ht Hn. unfold reserve. rewrite (v_str _ _ _ Hv). cbn [mbind option_bind].
  pose proof (v_len _ _ _ Hv) as Hl. unfold in_u in Hl. rewrite wrapu_small by (unfold in_u; lia).
  destruct (realloc_rep σ i s (str_length s + n) Hv) as (σ1 & e & -> & He); [lia|]. exists σ1, e. split; [done|].
  destruct e; [subst σ1; by apply grown_refl|]. destruct He as (s1 & Hv1 & _ & _ & Ht1 & Hk1 & _).
  exists s1. split_and!; [done|by rewrite Ht1|done].
Qed.

(** [c_ptr_safe] gives a pointer to the text followed by a zero byte, unless
    memory is exhausted. *)
Lemma c_ptr_safe_rep σ i s xs :
  valid σ i s → text σ i = Some xs →
  ∃ σ' p s', c_ptr_safe σ i = Some (σ', p) ∧ p = Ptr s' ∧ valid σ' i s' ∧ text σ' i = Some xs ∧ kept σ σ' i s s' ∧
    (σ' = σ ∧ ¬ str_length s < Alloced_length s ∨ peek σ' p (str_length s) = Some 0).
Proof.
  intros Hv Ht. unfold c_ptr_safe. rewrite (v_str _ _ _ Hv). cbn [mbind option_bind].
  pose proof (v_len _ _ _ Hv) as Hl. unfold in_u in Hl. case_decide as Hc.
  - destruct (terminate_rep σ i s (str_length s) Hv) as (σ' & -> & Hs & Hv' & Ht' & Hk & Hz); [lia|]. cbn [mbind option_bind].
    rewrite (v_str _ _ _ Hv'). cbn [mbind option_bind]. exists σ', (Ptr s), s.
    split_and!; [done..|by rewrite Ht'|done|by right].
  - destruct (realloc_rep σ i s (str_length s) Hv) as (σ1 & e & -> & He); [lia|]. cbn [mbind option_bind].
    destruct e.
    + subst σ1. rewrite (v_str _ _ _ Hv). cbn [mbind option_bind]. exists σ, (Ptr s), s.
      split_and!; [done..|apply kept_refl|]. left. split; [done|]. intros Hlt. apply Hc. split; [|done].
      intros Hp. pose proof (v_ptr _ _ _ Hv) as Hvp. rewrite Hp in Hvp. lia.
    + destruct He as (s1 & Hv1 & Hl1 & _ & Ht1 & Hk1 & Hz). rewrite (v_str _ _ _ Hv1). cbn [mbind option_bind].
      exists σ1, (Ptr s1), s1. split_and!; [done..|by rewrite Ht1|done|by right].
Qed.

(** *** Histories *)

Inductive op :=
  | AppendChar (c : Z) | AppendBytes (data : list Z) (step : Z) | AppendHex (src : list Z)
  | Reserve (n : Z) | CPtrSafe.

Definition exec (σ : state) (i : nat) (o : op) : option (state * bool) :=
  match o with
  | AppendChar c => append_char σ i c
  | AppendBytes data step => append_step σ i data step
  | AppendHex src => append_hex σ i src
  | Reserve n => reserve σ i n
  | CPtrSafe => '(σ, _) ← c_ptr_safe σ i; Some (σ, false)
  end.

Fixpoint run (σ : state) (i : nat) (os : list op) : option (state * list bool) :=
  match os with
  | [] => Some (σ, [])
  | o :: os => '(σ, e) ← exec σ i o; '(σ, es) ← run σ i os; Some (σ, e :: es)
  end.

(** What an operation appends when it succeeds, and the space it asks for. *)
Definition payload (o : op) : list Z :=
  match o with
  | AppendChar c => [u8 c] | AppendBytes data _ => u8 <$> data | AppendHex src => hex src
  | Reserve _ | CPtrSafe => []
  end.

Definition op_ok (o : op) : Prop :=
  match o with AppendBytes _ step => 0 ≤ step | Reserve n => 0 ≤ n < 2 ^ 63 | _ => True end.

Definition space (o : op) : Z :=
  Z.of_nat (length (payload o)) + match o with AppendBytes _ step => step | _ => 0 end.

(** What is appended by an operation that reports [e]: everything or, on an
    error, nothing; [append_hex] may stop in between. *)
Definition piece (o : op) (e : bool) (ys : list Z) : Prop :=
  ys `prefix_of` payload o ∧ (e = false → ys = payload o) ∧
  (e = true → match o with AppendHex _ => True | _ => ys = [] end).

Lemma length_hex src : length (hex src) = (2 * length src)%nat.
Proof. induction src as [|c src IH]; [done|]. cbn [hex mbind list_bind app length]. fold (hex src). lia. Qed.

Lemma space_ge o : op_ok o → Z.of_nat (length (payload o)) ≤ space o.
Proof. unfold space. destruct o; cbn [op_ok]; lia. Qed.

Lemma str_exec_rep σ i s xs o :
  valid σ i s → text σ i = Some xs → op_ok o → Z.of_nat (length xs) + space o < 2 ^ 32 - 1 →
  ∃ σ' e ys, exec σ i o = Some (σ', e) ∧ grown σ σ' i s (xs ++ ys) ∧ piece o e ys.
Proof.
  intros Hv Ht Hok Hsp. pose proof (text_length _ _ _ _ Hv Ht) as Hl. unfold piece, space in *.
  destruct o as [c|data step|src|n|]; cbn [exec payload op_ok length] in *.
  - destruct (append_char_rep σ i s xs c Hv Ht) as (σ' & e & -> & Hg); [lia|]. eexists σ', e, _.
    split_and!; [done|done| |by destruct e..]. destruct e; [by apply prefix_nil|done].
  - rewrite length_fmap in Hsp.
    destruct (append_step_rep σ i s xs data step Hv Ht Hok) as (σ' & e & -> & Hg); [lia|]. eexists σ', e, _.
    split_and!; [done|done| |by destruct e..]. destruct e; [by apply prefix_nil|done].
  - rewrite length_hex in Hsp.
    destruct (append_hex_rep i src σ s xs Hv Ht) as (σ' & e & ys & -> & Hg & Hp & Hy); [lia|]. by exists σ', e, ys.
  - destruct (reserve_rep σ i s xs n Hv Ht Hok) as (σ' & e & -> & Hg). exists σ', e, []. by rewrite app_nil_r.
  - destruct (c_ptr_safe_rep σ i s xs Hv Ht) as (σ' & p & s' & -> & _ & Hv' & Ht' & Hk & _).
    exists σ', false, []. rewrite app_nil_r. split_and!; [done|by exists s'|done..].
Qed.

Lemma str_run_rep i os : ∀ σ s xs,
  valid σ i s → text σ i = Some xs → Forall op_ok os →
  Z.of_nat (length xs) + foldr (λ o n, space o + n) 0 os < 2 ^ 32 - 1 →
  ∃ σ' es ys, run σ i os = Some (σ', es) ∧ Forall3 piece os es ys ∧ grown σ σ' i s (xs ++ concat ys).
Proof.
  induction os as [|o os IH]; intros σ s xs Hv Ht Hok Hsp.
  { exists σ, [], []. rewrite app_nil_r. split_and!; [done|constructor|by apply grown_refl]. }
  apply Forall_cons in Hok as [Ho Hok]. cbn [foldr] in Hsp.
  assert (∀ os, Forall op_ok os → 0 ≤ foldr (λ o n, space o + n) 0 os) as Hnn.
  { induction 1 as [|o' os' Ho' _ IH']; [done|]. cbn [foldr]. pose proof (space_ge o' Ho'). lia. }
  specialize (Hnn os Hok).
  destruct (str_exec_rep σ i s xs o Hv Ht Ho) as (σ1 & e & y & He & Hg & Hpc); [lia|].
  pose proof Hg as (s1 & Hv1 & Ht1 & Hk1).
  destruct (IH σ1 s1 (xs ++ y) Hv1 Ht1 Hok) as (σ2 & es & ys & Hr & H3 & (s2 & Hv2 & Ht2 & Hk2)).
  { destruct Hpc as (Hpre & _). apply prefix_length in Hpre. rewrite length_app. pose proof (space_ge o Ho). lia. }
  exists σ2, (e :: es), (y :: ys). cbn [run concat]. rewrite He. cbn [mbind option_bind]. rewrite Hr.
  split_and!; [done|by constructor|]. rewrite app_assoc. exists s2. split_and!; [done..|by eapply kept_trans].
Qed.

End append.

(** ** Ownership *)

Section ownership.
Import Str.
Context `{StringExt_laws}.

(** An owner refers to the start of a buffer that exists and is large enough. *)
Definition owner_ok (σ : state) (s : String) : Prop :=
  alloced s = true → ∃ b l, Ptr s = Some (b, 0) ∧ mem σ !! b = Some l ∧
    0 ≤ Alloced_length s ≤ Z.of_nat (length l) ∧ 0 ≤ str_length s ≤ Z.of_nat (length l).

(** No two strings own the same buffer. *)
Definition owners_ok (σ : state) : Prop :=
  (∀ i s, strs σ !! i = Some s → owner_ok σ s) ∧
  (∀ i j s t b, strs σ !! i = Some s → strs σ !! j = Some t → owns s b → owns t b → i = j).

Lemma owner_ok_owns σ s : owner_ok σ s → alloced s = true → ∃ b l, owns s b ∧ mem σ !! b = Some l.
Proof. intros Ho Ha. destruct (Ho Ha) as (b & l & Hp & Hb & _). by exists b, l. Qed.

(** Replacing one object keeps the invariant when the buffers of the others stay
    and the new object owns none of them. *)
Lemma owners_update σ σ' i s' :
  owners_ok σ → strs σ' = <[i := s']> (strs σ) →
  (∀ j t b, j ≠ i → strs σ !! j = Some t → owns t b → mem σ' !! b = mem σ !! b ∧ ¬ owns s' b) →
  owner_ok σ' s' → owners_ok σ'.
Proof.
  intros [Hok Huniq] Hs Hother Hnew. split.
  - intros j t. rewrite Hs. destruct (decide (i = j)) as [->|Hne].
    + rewrite lookup_insert_eq. by intros [= <-].
    + rewrite lookup_insert_ne by done. intros Ht Ha. destruct (Hok j t Ht Ha) as (b & l & Hp & Hb & Hl).
      exists b, l. destruct (Hother j t b) as [-> _]; [done..|]. done.
  - intros j k t u b. rewrite Hs.
    destruct (decide (i = j)) as [<-|Hj]; destruct (decide (i = k)) as [<-|Hk];
      rewrite ?lookup_insert_eq, ?lookup_insert_ne by done; [done| | |by apply Huniq].
    + intros [= <-] Hu Ho Ho'. by destruct (Hother k u b) as [_ []].
    + intros Ht [= <-] Ho Ho'. by destruct (Hother j t b) as [_ []].
Qed.

Definition freed (s : String) : String := MkString None 0 0 0 false (thread_specific s) (str_charset s).

Lemma freed_owns s b : ¬ owns (freed s) b.
Proof. by intros []. Qed.

Lemma not_alloced_ok σ s : alloced s = false → owner_ok σ s.
Proof. intros E Ha. by rewrite E in Ha. Qed.

(** [free] releases exactly the buffer the string owns. *)
Lemma free_rep σ i s :
  owners_ok σ → strs σ !! i = Some s →
  ∃ σ', free σ i = Some σ' ∧ strs σ' = <[i := freed s]> (strs σ) ∧ owners_ok σ' ∧
    (∀ b, ¬ owns s b → mem σ' !! b = mem σ !! b) ∧ (∀ b, owns s b → mem σ' !! b = None).
Proof.
  intros Hok Hs. unfold free. rewrite Hs. cbn [mbind option_bind]. fold (freed s).
  destruct (alloced s) eqn:Ha.
  - destruct (proj1 Hok i s Hs Ha) as (b & l & Hp & Hb & _). rewrite Hp. cbn [my_free].
    rewrite decide_True by done. rewrite Hb. cbn [mbind option_bind].
    assert (owns s b) as Hob by done.
    eexists. split; [done|]. split; [done|]. split_and!.
    + eapply (owners_update σ _ i (freed s)); [done|done| |by apply not_alloced_ok].
      intros j t c Hj Ht Hc. split; [|apply freed_owns]. cbn. rewrite lookup_delete_ne; [done|].
      intros ->. apply Hj. by eapply (proj2 Hok j i t s c).
    + intros c Hc. cbn. rewrite lookup_delete_ne; [done|]. by intros ->.
    + intros c [_ Hc]. rewrite Hp in Hc. injection Hc as ->. cbn. apply lookup_delete_eq.
  - eexists. split; [done|]. split; [done|]. split_and!.
    + eapply (owners_update σ _ i (freed s)); [done|done| |by apply not_alloced_ok].
      intros. split; [done|apply freed_owns].
    + done.
    + intros b [Ha' _]. by rewrite Ha in Ha'.
Qed.

(** Changing an object that owns nothing into another that owns nothing. *)
Lemma owners_set_unowned σ i s' :
  owners_ok σ → alloced s' = false → owners_ok (set_str σ i s').
Proof.
  intros Hok Ha. eapply owners_update; [done|done| |by apply not_alloced_ok].
  intros. split; [done|]. intros [Hb _]. by rewrite Ha in Hb.
Qed.

Inductive sop :=
  | Free (i : nat) | Destroy (i : nat) | Move (i j : nat) | Assign (i j : nat)
  | SetSubstring (i j : nat) (offset n : Z) | SetBuffer (i : nat) (p : ptr) (n : Z) (cs : CHARSET)
  | SetConst (i : nat) (p : ptr) (n : Z) (cs : CHARSET) | SetQuick (i : nat) (p : ptr) (n : Z) (cs : CHARSET)
  | Reset (i : nat) (b : N) (n a : Z) (cs : CHARSET) | Release (i : nat) | Realloc (i : nat) (n : Z).

Definition sexec (σ : state) (o : sop) : option state :=
  match o with
  | Free i => free σ i
  | Destroy i => destroy σ i
  | Move i j => move σ i j
  | Assign i j => assign σ i j
  | SetSubstring i j offset n => set_substring σ i j offset n
  | SetBuffer i p n cs => set_buffer σ i p n cs
  | SetConst i p n cs => set_const σ i p n cs
  | SetQuick i p n cs => set_quick σ i p n cs
  | Reset i b n a cs => reset σ i (Some (b, 0)) n a cs
  | Release i => '(σ, _) ← release σ i; Some σ
  | Realloc i n => '(σ, _) ← realloc_raw σ i n; Some σ
  end.

(** The objects exist; [move] and setting to a part of another are between two
    objects; what is assigned does not refer into the buffer of the object; [reset] takes over a
    buffer of at least the size given that no string owns; [realloc_raw] is
    called with a length for the text of a valid string. *)
Definition sallowed (σ : state) (o : sop) : Prop :=
  match o with
  | Free i | Destroy i | Release i | SetBuffer i _ _ _ | SetConst i _ _ _ | SetQuick i _ _ _ => is_Some (strs σ !! i)
  | Move i j => i ≠ j ∧ is_Some (strs σ !! i) ∧ is_Some (strs σ !! j)
  | Assign i j => ∃ s t, strs σ !! i = Some s ∧ strs σ !! j = Some t ∧ (j ≠ i → uses_buffer_owned_by t s = false)
  | SetSubstring i j _ _ => j ≠ i ∧ is_Some (strs σ !! i) ∧ is_Some (strs σ !! j)
  | Reset i b n a _ => is_Some (strs σ !! i) ∧ (∀ j s, strs σ !! j = Some s → ¬ owns s b) ∧
      0 ≤ n < 2 ^ 32 ∧ 0 ≤ a < 2 ^ 32 ∧
      ∃ l, mem σ !! b = Some l ∧ n ≤ Z.of_nat (length l) ∧ a ≤ Z.of_nat (length l)
  | Realloc i n => ∃ s, valid σ i s ∧ str_length s ≤ n < 2 ^ 64
  end.

Definition owned (σ : state) (b : N) : Prop := ∃ i s, strs σ !! i = Some s ∧ owns s b.

(** What a step does: the invariant, the buffers no string owns stay, and a
    buffer that a string owned, or that is new, has an owner or was [given] away. *)
Definition step_ok (σ σ' : state) (given : N → Prop) : Prop :=
  owners_ok σ' ∧
  (∀ b l, mem σ !! b = Some l → ¬ owned σ b → mem σ' !! b = Some l) ∧
  (∀ b, is_Some (mem σ' !! b) → owned σ b → owned σ' b ∨ given b) ∧
  (∀ b, mem σ !! b = None → is_Some (mem σ' !! b) → owned σ' b).

(** Freeing a string and making it refer to something it does not own. *)
Lemma free_set_step σ i s σ1 s' given :
  owners_ok σ → strs σ !! i = Some s → free σ i = Some σ1 → alloced s' = false →
  step_ok σ (set_str σ1 i s') given.
Proof.
  intros Hok Hs Hfree Ha. destruct (free_rep σ i s Hok Hs) as (σ1' & E & Hs1 & Hok1 & Hkeep & Hgone).
  rewrite Hfree in E. injection E as <-. split_and!.
  - by apply owners_set_unowned.
  - intros b l Hb Hno. cbn [mem set_str]. rewrite Hkeep; [done|]. intros Ho. apply Hno. by exists i, s.
  - intros b Hb (j & t & Ht & Ho). left. cbn [mem set_str] in Hb. destruct (decide (i = j)) as [<-|Hne].
    + rewrite Hs in Ht. injection Ht as <-. rewrite Hgone in Hb by done. by destruct Hb.
    + exists j, t. cbn [strs set_str]. rewrite lookup_insert_ne, Hs1, lookup_insert_ne by done. done.
  - intros b Hb Hb'. exfalso. cbn [mem set_str] in Hb'.
    assert (¬ owns s b) as Hno.
    { intros Ho. destruct (proj1 Hok i s Hs (proj1 Ho)) as (c & l & Hp & Hc & _).
      destruct Ho as [_ Ho]. rewrite Hp in Ho. injection Ho as ->. by rewrite Hc in Hb. }
    rewrite Hkeep, Hb in Hb' by done. by destruct Hb'.
Qed.

Lemma free_lookup σ i s :
  owners_ok σ → strs σ !! i = Some s → ∃ σ1, free σ i = Some σ1 ∧ strs σ1 = <[i := freed s]> (strs σ).
Proof. intros Hok Hs. destruct (free_rep σ i s Hok Hs) as (σ1 & E & Hs1 & _). eauto. Qed.

Lemma lookup_freed σ1 (m : gmap nat String) i j s t :
  strs σ1 = <[i := freed s]> m → m !! j = Some t →
  strs σ1 !! j = Some (if decide (i = j) then freed s else t).
Proof.
  intros -> Hj. case_decide as E; [subst j; apply lookup_insert_eq|by rewrite lookup_insert_ne].
Qed.

Lemma step_ok_refl σ given : owners_ok σ → step_ok σ σ given.
Proof. intros Hok. split_and!; [done|done|by left|]. intros b Hb [x Hx]. by rewrite Hb in Hx. Qed.

(** Freeing [i] and letting it take over what nobody but [j] owns. *)
Lemma move_step σ i j s t given :
  owners_ok σ → i ≠ j → strs σ !! i = Some s → strs σ !! j = Some t →
  ∃ σ', move σ i j = Some σ' ∧ step_ok σ σ' given.
Proof.
  intros Hok Hij Hs Ht. destruct (free_rep σ i s Hok Hs) as (σ1 & E & Hs1 & Hok1 & Hkeep & Hgone).
  assert (strs σ1 !! j = Some t) as Ht1 by by rewrite Hs1, lookup_insert_ne.
  unfold move. rewrite E. cbn [mbind option_bind]. rewrite Ht1, Hs1, lookup_insert_eq. cbn [mbind option_bind].
  set (t' := MkString (Ptr t) (str_length t) (Alloced_length t) (extra_alloc t) (alloced t) (thread_specific t)
               (str_charset (freed s))).
  cbn [strs set_str]. rewrite lookup_insert_ne, Ht1 by done. cbn [mbind option_bind]. eexists. split; [done|].
  assert (∀ b, owns t' b ↔ owns t b) as Hot by done.
  assert (∀ b, owns t b → ¬ owns s b) as Hts by (intros b Hb Hb'; apply Hij; by eapply (proj2 Hok i j s t b)).
  assert (step_strs : strs (set_str (set_str σ1 i t') j (with_alloced t false)) =
          <[i := t']> (<[j := with_alloced t false]> (strs σ1))) by (cbn; by rewrite insert_insert_ne).
  split_and!.
  - pose proof (owners_set_unowned σ1 j (with_alloced t false) Hok1 eq_refl) as Hoka.
    eapply (owners_update _ _ i t' Hoka); [exact step_strs| |].
    + intros k u b Hk Hu Hb. split; [done|]. rewrite Hot. intros Hb'. cbn in Hu.
      destruct (decide (j = k)) as [<-|Hjk].
      * rewrite lookup_insert_eq in Hu. injection Hu as <-. by destruct Hb.
      * rewrite lookup_insert_ne in Hu by done. apply Hjk. by eapply (proj2 Hok1 j k t u b).
    + intros Ha. destruct (proj1 Hok j t Ht Ha) as (b & l & Hp & Hb & Hl). exists b, l. cbn.
      rewrite Hkeep by (by apply Hts). done.
  - intros b l Hb Hno. cbn [mem set_str]. rewrite Hkeep; [done|]. intros Ho. apply Hno. by exists i, s.
  - intros b Hb (k & u & Hu & Ho). left. unfold owned. rewrite step_strs. cbn [mem set_str] in Hb.
    destruct (decide (k = i)) as [->|Hki].
    { rewrite Hs in Hu. injection Hu as <-. rewrite Hgone in Hb by done. by destruct Hb. }
    destruct (decide (k = j)) as [->|Hkj].
    + rewrite Ht in Hu. injection Hu as <-. exists i, t'. by rewrite lookup_insert_eq.
    + exists k, u. by rewrite !lookup_insert_ne, Hs1, lookup_insert_ne by done.
  - intros b Hb Hb'. exfalso. cbn [mem set_str] in Hb'. rewrite Hkeep, Hb in Hb'; [by destruct Hb'|].
    intros [Ha Ho]. destruct (proj1 Hok i s Hs Ha) as (c & l & Hp & Hc & _).
    rewrite Hp in Ho. injection Ho as ->. by rewrite Hc in Hb.
Qed.

Lemma reset_step σ i s b n a cs given :
  owners_ok σ → strs σ !! i = Some s → sallowed σ (Reset i b n a cs) →
  ∃ σ', reset σ i (Some (b, 0)) n a cs = Some σ' ∧ step_ok σ σ' given.
Proof.
  intros Hok Hs (_ & Hfresh & Hn & Ha & l & Hb & Hnl & Hal).
  destruct (free_rep σ i s Hok Hs) as (σ1 & E & Hs1 & Hok1 & Hkeep & Hgone).
  unfold reset. rewrite E. cbn [mbind option_bind]. rewrite Hs1, lookup_insert_eq. cbn [mbind option_bind].
  rewrite !wrapu_small by (unfold in_u; lia). eexists. split; [done|].
  match goal with |- step_ok _ (set_str _ _ ?x) _ => set (s' := x) end.
  assert (owns s' b) as Hob by done.
  assert (mem σ1 !! b = Some l) as Hb1 by (rewrite Hkeep; [done|by eapply Hfresh]).
  split_and!.
  - eapply (owners_update σ1 _ i s' Hok1); [done| |].
    + intros j t c Hj Ht Hc. split; [done|]. intros [_ Hc']. cbn in Hc'. injection Hc' as <-.
      rewrite Hs1, lookup_insert_ne in Ht by done. by apply (Hfresh j t).
    + intros _. exists b, l. cbn. split_and!; [done|done|lia..].
  - intros c x Hc Hno. cbn [mem set_str]. rewrite Hkeep; [done|]. intros Ho. apply Hno. by exists i, s.
  - intros c Hc (k & u & Hu & Ho). left. cbn [mem set_str] in Hc. destruct (decide (i = k)) as [<-|Hne].
    + rewrite Hs in Hu. injection Hu as <-. rewrite Hgone in Hc by done. by destruct Hc.
    + exists k, u. cbn [strs set_str]. by rewrite lookup_insert_ne, Hs1, lookup_insert_ne by done.
  - intros c Hc Hc'. exfalso. cbn [mem set_str] in Hc'. rewrite Hkeep, Hc in Hc'; [by destruct Hc'|].
    intros [Ho Ho']. destruct (proj1 Hok i s Hs Ho) as (d & x & Hp & Hd & _).
    rewrite Hp in Ho'. injection Ho' as ->. by rewrite Hd in Hc.
Qed.

Lemma realloc_step σ i s n given :
  owners_ok σ → valid σ i s → str_length s ≤ n < 2 ^ 64 →
  ∃ σ' e, realloc_raw σ i n = Some (σ', e) ∧ step_ok σ σ' given.
Proof.
  intros Hok Hv Hn. destruct (realloc_raw_law σ i s n Hv Hn) as (σ' & e & -> & He). exists σ', e. split; [done|].
  destruct e; [subst σ'; by apply step_ok_refl|].
  destruct He as (s' & Hs' & Hv' & _ & _ & _ & _ & _ & Hkeep & Hptr & Hnew & Hold). pose proof (v_str _ _ _ Hv) as Hs.
  assert (∀ b, owns s' b → owns s b ∨ mem σ !! b = None) as Hown.
  { intros b [Ha Hp]. destruct Hptr as [[E1 E2]|(c & [_ Hc] & Hm)].
    - left. unfold owns. by rewrite <- E1, <- E2.
    - rewrite Hp in Hc. injection Hc as ->. by right. }
  split_and!.
  - eapply (owners_update σ σ' i s' Hok Hs').
    + intros j t b Hj Ht Hb. destruct (proj1 Hok j t Ht (proj1 Hb)) as (c & l & Hp & Hc & _).
      destruct Hb as [Hb1 Hb2]. rewrite Hp in Hb2. injection Hb2 as ->.
      assert (¬ owns s b) as Hno by (intros Ho; apply Hj; by eapply (proj2 Hok j i t s b)).
      split; [by rewrite (Hkeep b l), Hc|]. intros [|E]%Hown; [done|]. by rewrite Hc in E.
    + intros Ha. pose proof Hv' as [_ Hl Hal _ Hp]. unfold in_u in *. destruct (Ptr s') as [[b off]|]; [|destruct Hp as (_ & _ & E); by rewrite E in Ha].
      destruct Hp as (l & Hb & _ & H1 & H2 & H3). exists b, l. rewrite (H3 Ha) in *. split_and!; [done|done|lia..].
  - intros b l Hb Hno. apply Hkeep; [done|]. intros Ho. apply Hno. by exists i, s.
  - intros b Hb (k & u & Hu & Ho). left. destruct (decide (i = k)) as [<-|Hne].
    + rewrite Hs in Hu. injection Hu as <-. exists i, s'. rewrite Hs', lookup_insert_eq. split; [done|]. by apply Hold.
    + exists k, u. by rewrite Hs', lookup_insert_ne by done.
  - intros b Hb Hb'. destruct (Hnew b Hb') as [[x E]|Ho]; [by rewrite Hb in E|].
    exists i, s'. by rewrite Hs', lookup_insert_eq.
Qed.

(** The buffer [release] hands to its caller. *)
Definition given_away (σ : state) (o : sop) (b : N) : Prop :=
  match o with Release i => ∃ s, strs σ !! i = Some s ∧ owns s b | _ => False end.

Lemma set_str_id σ i s : strs σ !! i = Some s → set_str σ i s = σ.
Proof. intros Hs. destruct σ as [m ss]. unfold set_str. cbn in *. f_equal. by apply insert_id. Qed.

Lemma free_step σ i s given :
  owners_ok σ → strs σ !! i = Some s → ∃ σ', free σ i = Some σ' ∧ strs σ' = <[i := freed s]> (strs σ) ∧ step_ok σ σ' given.
Proof.
  intros Hok Hs. destruct (free_lookup σ i s Hok Hs) as (σ1 & E & Hs1). exists σ1. split_and!; [done..|].
  rewrite <- (set_str_id σ1 i (freed s)) by (rewrite Hs1; apply lookup_insert_eq). by eapply free_set_step.
Qed.

(** An object that owns nothing may go away. *)
Lemma delete_step σ σ1 i s given :
  step_ok σ σ1 given → strs σ1 !! i = Some s → alloced s = false →
  step_ok σ (St (mem σ1) (delete i (strs σ1))) given.
Proof.
  intros ([Hok Hun] & Hkeep & Hold & Hnew) Hs Ha.
  assert (∀ b, owned σ1 b → owned (St (mem σ1) (delete i (strs σ1))) b) as Hown.
  { intros b (j & t & Ht & Ho). exists j, t. split; [|done]. cbn. rewrite lookup_delete_ne; [done|].
    intros ->. rewrite Hs in Ht. injection Ht as <-. destruct Ho as [E _]. by rewrite Ha in E. }
  split_and!; cbn [mem]; [|done|intros b Hb Ho; destruct (Hold b Hb Ho); auto|auto].
  split; cbn [strs].
  - intros j t [_ Ht]%lookup_delete_Some. by apply (Hok j t).
  - intros j k t u b [_ Ht]%lookup_delete_Some [_ Hu]%lookup_delete_Some. intros Ho Ho2. by apply (Hun j k t u b).
Qed.

(** An object that refers elsewhere without a change of what it owns. *)
Lemma set_same_owner σ i s (p : ptr) n cs given :
  owners_ok σ → strs σ !! i = Some s →
  step_ok σ (set_str σ i (with_charset (if alloced s then s else
    with_alloced_length (with_ptr s p (u32 n)) (u32 n)) cs)) given.
Proof.
  intros Hok Hs. set (s' := with_charset _ cs).
  assert (∀ b, owns s' b ↔ owns s b) as Ho.
  { intros b. unfold owns, s'. destruct (alloced s) eqn:E; cbn; rewrite ?E; naive_solver. }
  split_and!.
  - eapply (owners_update σ _ i s' Hok); [done| |].
    + intros j t b Hj Ht Hb. split; [done|]. rewrite Ho. intros Hb'. apply Hj. by eapply (proj2 Hok j i t s b).
    + pose proof (proj1 Hok i s Hs) as Hoks. unfold owner_ok, s' in *. destruct (alloced s) eqn:E; cbn; rewrite ?E; [|done].
      intros _. by apply Hoks.
  - done.
  - intros b _ (j & t & Ht & Hb). left. destruct (decide (i = j)) as [<-|Hne].
    + rewrite Hs in Ht. injection Ht as <-. exists i, s'. cbn. rewrite lookup_insert_eq. split; [done|]. by apply Ho.
    + exists j, t. cbn. by rewrite lookup_insert_ne.
  - intros b Hb [x Hx]. cbn in Hx. by rewrite Hb in Hx.
Qed.

Lemma release_step σ i s :
  owners_ok σ → strs σ !! i = Some s →
  step_ok σ (set_str σ i (MkString None 0 0 0 false false (str_charset s))) (given_away σ (Release i)).
Proof.
  intros Hok Hs. split_and!.
  - by apply owners_set_unowned.
  - done.
  - intros b _ (j & t & Ht & Hb). destruct (decide (i = j)) as [<-|Hne]; [right; by exists t|].
    left. exists j, t. cbn. by rewrite lookup_insert_ne.
  - intros b Hb [x Hx]. cbn in Hx. by rewrite Hb in Hx.
Qed.

Lemma sexec_step σ o : owners_ok σ → sallowed σ o → ∃ σ', sexec σ o = Some σ' ∧ step_ok σ σ' (given_away σ o).
Proof.
  intros Hok Hal. destruct o as [i|i|i j|i j|i j o n|i p n cs|i p n cs|i p n cs|i b n a cs|i|i n]; cbn [sexec].
  - destruct Hal as [s Hs]. destruct (free_step σ i s (given_away σ (Free i)) Hok Hs) as (σ' & E & _ & ?). eauto.
  - destruct Hal as [s Hs]. unfold destroy.
    destruct (free_step σ i s (given_away σ (Destroy i)) Hok Hs) as (σ1 & -> & Hs1 & Hst). cbn [mbind option_bind].
    eexists. split; [done|]. eapply delete_step; [done|rewrite Hs1; apply lookup_insert_eq|done].
  - destruct Hal as (Hij & [s Hs] & [t Ht]). by eapply move_step.
  - destruct Hal as (s & t & Hs & Ht & Hu). unfold assign. case_decide as Hji; [|exists σ; split; [done|by apply step_ok_refl]].
    rewrite Ht, Hs. cbn [mbind option_bind]. rewrite (Hu Hji).
    destruct (free_lookup σ i s Hok Hs) as (σ1 & E & Hs1). rewrite E. cbn [mbind option_bind].
    rewrite (lookup_freed _ _ _ j s t Hs1 Ht), (lookup_freed _ _ _ i s s Hs1 Hs), (decide_True (P := i = i)) by done.
    cbn [mbind option_bind]. eexists. split; [done|]. by eapply free_set_step.
  - destruct Hal as (Hji & [s Hs] & [t Ht]). unfold set_substring. rewrite decide_False by done.
    destruct (free_lookup σ i s Hok Hs) as (σ1 & E & Hs1). rewrite E. cbn [mbind option_bind].
    rewrite (lookup_freed _ _ _ j s t Hs1 Ht), (lookup_freed _ _ _ i s s Hs1 Hs), (decide_True (P := i = i)) by done.
    cbn [mbind option_bind]. eexists. split; [done|]. eapply free_set_step; [done..|]. by case_decide.
  - destruct Hal as [s Hs]. unfold set_buffer. destruct (free_lookup σ i s Hok Hs) as (σ1 & E & Hs1).
    rewrite E. cbn [mbind option_bind]. rewrite Hs1, lookup_insert_eq. cbn [mbind option_bind].
    eexists. split; [done|]. by eapply free_set_step.
  - destruct Hal as [s Hs]. unfold set_const. destruct (free_lookup σ i s Hok Hs) as (σ1 & E & Hs1).
    rewrite E. cbn [mbind option_bind]. rewrite Hs1, lookup_insert_eq. cbn [mbind option_bind].
    eexists. split; [done|]. by eapply free_set_step.
  - destruct Hal as [s Hs]. unfold set_quick. rewrite Hs. cbn [mbind option_bind]. eexists. split; [done|].
    by apply (set_same_owner σ i s).
  - destruct Hal as ([s Hs] & Hal). eapply reset_step; [done|done|]. split; [by exists s|exact Hal].
  - destruct Hal as [s Hs]. unfold release. rewrite Hs. cbn [mbind option_bind]. eexists. split; [done|].
    by apply (release_step σ i s).
  - destruct Hal as (s & Hv & Hn). destruct (realloc_step σ i s n (given_away σ (Realloc i n)) Hok Hv Hn) as (σ' & e & -> & ?).
    eauto.
Qed.

Fixpoint srun (σ : state) (os : list sop) : option state :=
  match os with [] => Some σ | o :: os => σ ← sexec σ o; srun σ os end.

Fixpoint slegal (σ : state) (os : list sop) : Prop :=
  match os with
  | [] => True
  | o :: os => sallowed σ o ∧ match sexec σ o with Some σ' => slegal σ' os | None => True end
  end.

Lemma srun_ok os : ∀ σ,
  owners_ok σ → slegal σ os →
  ∃ σ', srun σ os = Some σ' ∧ owners_ok σ' ∧
    ((∀ i, Release i ∉ os) → ∀ b, owned σ b ∨ mem σ !! b = None → is_Some (mem σ' !! b) → owned σ' b).
Proof.
  induction os as [|o os IH]; intros σ Hok Hl.
  { exists σ. split_and!; [done|done|]. intros _ b [Ho|E] [x Hx]; [done|]. by rewrite E in Hx. }
  destruct Hl as [Ha Hl]. destruct (sexec_step σ o Hok Ha) as (σ1 & E & Hok1 & _ & Hold & Hnew). rewrite E in Hl.
  destruct (IH σ1 Hok1 Hl) as (σ' & Hr & Hok' & Hleak). exists σ'. cbn [srun]. rewrite E. split_and!; [done|done|].
  intros Hno b Hb Hex. apply Hleak; [set_solver| |done].
  destruct (mem σ1 !! b) as [x|] eqn:Ex; [left|by right].
  destruct Hb as [Ho|En]; [|by apply Hnew; [|eexists]].
  destruct (Hold b (ex_intro _ x Ex) Ho) as [|Hg]; [done|]. destruct o as [| | | | | | | | |i|]; try done.
  exfalso. apply (Hno i). by left.
Qed.

End ownership.

(** ** An implementation *)

(** The simplest functions with the documented behaviour: a new buffer is
    allocated for every growth. *)
Section instance.
Import Str.

Definition simple_realloc_raw (σ : state) (i : nat) (n : Z) : option (state * bool) :=
  s ← strs σ !! i; xs ← text σ i;
  if decide (n < Alloced_length s) then Some (σ, false) else
  if decide (2 ^ 32 ≤ n + 1) then Some (σ, true) else
  let b := fresh (dom (D := gset N) (mem σ)) in
  let m := match Ptr s with Some (c, _) => if alloced s then delete c (mem σ) else mem σ | None => mem σ end in
  Some (St (<[b := xs ++ replicate (Z.to_nat (n + 1) - length xs) 0]> m)
          (<[i := MkString (Some (b, 0)) (str_length s) (n + 1) (extra_alloc s) true (thread_specific s) (str_charset s)]>
             (strs σ)), false).

Definition simple_real_alloc (σ : state) (i : nat) (n : Z) : option (state * bool) :=
  σ ← free σ i; simple_realloc_raw σ i n.

#[local] Instance simple_ext : StringExt := {|
  real_alloc := simple_real_alloc;
  realloc_raw := simple_realloc_raw;
  my_realloc := λ σ p _, Some (σ, p);
  _dig_vec_lower := [48; 49; 50; 51; 52; 53; 54; 55; 56; 57; 97; 98; 99; 100; 101; 102] |}.

Lemma simple_laws : StringExt_laws.
Proof.
  split; [|done]. intros σ i s n Hv Hn. cbn [realloc_raw simple_ext]. unfold simple_realloc_raw.
  destruct (valid_text σ i s Hv) as (xs & Ht & Hlen). pose proof Hv as [Hs Hl Ha He Hp]. unfold in_u in *.
  rewrite Hs, Ht. cbn [mbind option_bind].
  case_decide as Hfit.
  { exists σ, false. split; [done|]. exists s. split_and!; try done; [by rewrite insert_id|].
    split_and!; [done|by left|by left|done]. }
  case_decide as Hbig; [by exists σ, true|]. eexists _, false. split; [done|].
  set (b := fresh (dom (mem σ))).
  assert (mem σ !! b = None) as Hfresh.
  { apply not_elem_of_dom. apply is_fresh. }
  set (m := match Ptr s with Some (c, _) => if alloced s then delete c (mem σ) else mem σ | None => mem σ end).
  assert (∀ c, m !! c = if decide (owns s c) then None else mem σ !! c) as Hm.
  { intros c. unfold m, owns. destruct (Ptr s) as [[d off]|]; [|by case_decide as E; [destruct E|]].
    destruct (alloced s) eqn:E; [|by case_decide as E'; [destruct E'|]]. destruct Hp as (l & Hd & _ & _ & _ & Ho).
    rewrite (Ho eq_refl). case_decide as E'.
    - destruct E' as [_ [= ->]]. apply lookup_delete_eq.
    - apply lookup_delete_ne. intros ->. by apply E'. }
  eexists. split; [done|]. split.
  { constructor; cbn [strs str_length Alloced_length extra_alloc Ptr mem alloced]; [apply lookup_insert_eq|done|unfold in_u; lia|done|].
    eexists. rewrite lookup_insert_eq. split; [done|]. rewrite length_app, length_replicate. split_and!; [lia..|done]. }
  split_and!; try done; cbn [Alloced_length]; [lia| |].
  - unfold text at 1. cbn [strs mem]. rewrite lookup_insert_eq. cbn [mbind option_bind Ptr str_length].
    rewrite lookup_insert_eq. cbn [mbind option_bind]. rewrite length_app, length_replicate.
    rewrite decide_True by lia. rewrite Ht. f_equal. cbn [drop Z.to_nat skipn]. apply take_app_length'. lia.
  - assert (∀ c, owns (MkString (Some (b, 0)) (str_length s) (n + 1) (extra_alloc s) true (thread_specific s) (str_charset s)) c ↔ b = c)
      as Hown by (intros c; unfold owns; cbn; naive_solver).
    split_and!; cbn [mem].
    + intros c l Hc Hno. rewrite lookup_insert_ne by (intros ->; by rewrite Hfresh in Hc). rewrite Hm, decide_False; done.
    + right. exists b. split; [by apply Hown|done].
    + intros c [x Hx]. destruct (decide (b = c)) as [->|Hne]; [right; by apply Hown|].
      rewrite lookup_insert_ne, Hm in Hx by done. case_decide; [done|]. left. by exists x.
    + intros c Ho [x Hx]. destruct (decide (b = c)) as [->|Hne]; [by apply Hown|].
      rewrite lookup_insert_ne, Hm, decide_True in Hx by done. done.
Qed.

End instance.

(** ** Properties *)

Section properties.
Import Str.

(** [C23] Whatever the implementation of the reallocation, every history of appending
    characters, bytes and hexadecimal digits, reserving space and asking for a
    terminated pointer has a result.  The text is what it was followed by what
    each operation appended: all of its argument where it reports success, and
    nothing where it reports an error, except that [append_hex] may have appended
    a first part.  No other string changes, and no buffer the string did not
    refer to. *)
Theorem string_append_history `{StringExt_laws} σ i s xs os :
  valid σ i s → text σ i = Some xs → Forall op_ok os →
  Z.of_nat (length xs) + foldr (λ o n, space o + n) 0 os < 2 ^ 32 - 1 →
  ∃ σ' es ys s', run σ i os = Some (σ', es) ∧ Forall3 piece os es ys ∧ valid σ' i s' ∧
    text σ' i = Some (xs ++ concat ys) ∧ kept σ σ' i s s'.
Proof.
  intros Hv Ht Hok Hsp. destruct (str_run_rep i os σ s xs Hv Ht Hok Hsp) as (σ' & es & ys & Hr & H3 & s' & Hv' & Ht' & Hk).
  by exists σ', es, ys, s'.
Qed.

Definition one_string : state := St ∅ {[ 0%nat := new_String ]}.

Lemma one_string_valid : valid one_string 0 new_String.
Proof. constructor; cbn; try done. Qed.

(** "a", then the byte 255 in hexadecimal, "ff". *)
Lemma string_append_history_witness :
  ∃ σ' es ys, @run simple_ext one_string 0 [AppendChar 97; AppendHex [255]; CPtrSafe] = Some (σ', es) ∧
    text σ' 0 = Some (concat ys) ∧ concat ys = [97; 102; 102].
Proof.
  destruct (@string_append_history simple_ext simple_laws one_string 0 new_String []
    [AppendChar 97; AppendHex [255]; CPtrSafe]) as (σ' & es & ys & s' & Hr & _ & _ & Ht & _).
  - exact one_string_valid.
  - reflexivity.
  - repeat constructor.
  - vm_compute. reflexivity.
  - exists σ', es, ys. split; [exact Hr|]. split; [exact Ht|].
    vm_compute in Hr. injection Hr as <- <-. vm_compute in Ht. by injection Ht.
Defined.



End properties.
