(* ===== verification/WindowFunc.v ===== *)
(** * Window functions (item_windowfunc.h)

    The window functions whose computation is in the header: [ROW_NUMBER],
    [PERCENT_RANK], [CUME_DIST], [NTILE], [PERCENTILE_DISC], [PERCENTILE_CONT], the
    tracker of group boundaries, and [Item_window_func], which answers for a
    window function in each of its three phases.  The rows of a partition are
    added one after another in the order of the window. *)

From S2P Require Import Prelude Doubles.
From Stdlib Require Import ZArith Lia SpecFloat.
From stdpp Require Import base numbers option list.
Open Scope Z_scope.
Open Scope cint_scope.

Module WindowFunc.
Import Double.

(** ** ROW_NUMBER *)

(** [count], of type [longlong]. *)
Record Item_sum_row_number := RowNumber { count : Z }.
Definition row_number_clear (_ : Item_sum_row_number) : Item_sum_row_number := RowNumber 0.
Definition row_number_add (f : Item_sum_row_number) : Item_sum_row_number * bool := (RowNumber (s64 (count f + 1)), false).
Definition row_number_val_int (f : Item_sum_row_number) : Z := count f.

(** ** RANK and DENSE_RANK: what the header defines of them *)

Record Item_sum_rank := Rank { row_number : Z; cur_rank : Z }.
Definition rank_clear (_ : Item_sum_rank) : Item_sum_rank := Rank 0 1.
Definition rank_val_int (f : Item_sum_rank) : Z := cur_rank f.

Record Item_sum_dense_rank := DenseRank { dense_rank : Z; first_add : bool }.
Definition dense_rank_clear (_ : Item_sum_dense_rank) : Item_sum_dense_rank := DenseRank 0 true.
Definition dense_rank_val_int (f : Item_sum_dense_rank) : Z := dense_rank f.

(** ** The tracker of group boundaries

    A [Cached_item] is of type [Item], and a row is what the items read.
    [test_if_group_changed], [new_Cached_item] and the virtual [cmp_read_only]
    are not in the headers. *)

Section tracker.
Context {ORDER Cached Row : Type}.
Context (new_Cached_item : ORDER → Cached).
(** The cached items after the call, with the number it returns. *)
Context (test_if_group_changed : list Cached → Row → list Cached * Z).
Context (cmp_read_only : Cached → Row → Z).

Record Group_bound_tracker := Tracker { group_fields : list Cached; first_check : bool }.

(** The constructor: the loop over the [ORDER] elements appends an item each;
    [first_check] is left as it was in memory. *)
Definition new_tracker (order : list ORDER) (uninit : bool) : Group_bound_tracker :=
  Tracker (foldl (λ l curr, l ++ [new_Cached_item curr]) [] order) uninit.

Definition tracker_init (t : Group_bound_tracker) : Group_bound_tracker := Tracker (group_fields t) true.
Definition tracker_cleanup (t : Group_bound_tracker) : Group_bound_tracker := Tracker [] (first_check t).

Definition check_if_next_group (t : Group_bound_tracker) (row : Row) : Group_bound_tracker * bool :=
  let '(l, res) := test_if_group_changed (group_fields t) row in
  let t := Tracker l (first_check t) in
  if bool_decide (-1 < res) || first_check t then (Tracker l false, true) else (t, false).

(** [while ((ptr= li++)) if ((res= ptr->cmp_read_only())) return res] *)
Fixpoint compare_loop (l : list Cached) (row : Row) : Z :=
  match l with
  | [] => 0
  | ptr :: l => let res := cmp_read_only ptr row in if decide (res ≠ 0) then res else compare_loop l row
  end.

Definition compare_with_cache (t : Group_bound_tracker) (row : Row) : Z := compare_loop (group_fields t) row.

End tracker.
Arguments Group_bound_tracker : clear implicits.

(** ** Functions that know the number of rows of the partition *)

(** [partition_row_count_] is unsigned, and [get_row_count] converts it. *)
Record With_row_count := RowCount { partition_row_count_ : Z; null_value : bool }.
Definition set_row_count (f : With_row_count) (n : Z) : With_row_count := RowCount (u64 n) (null_value f).
Definition get_row_count (f : With_row_count) : Z := s64 (partition_row_count_ f).
Definition with_null (f : With_row_count) (b : bool) : With_row_count := RowCount (partition_row_count_ f) b.

(** *** PERCENT_RANK *)

Record Item_sum_percent_rank := PercentRank { pr_base : With_row_count; pr_cur_rank : Z; pr_row_number : Z }.
Definition percent_rank_clear (f : Item_sum_percent_rank) : Item_sum_percent_rank := PercentRank (pr_base f) 1 0.
Definition percent_rank_val_real (f : Item_sum_percent_rank) : Item_sum_percent_rank * spec_float :=
  let partition_rows := u64 (get_row_count (pr_base f)) in
  let f := PercentRank (with_null (pr_base f) (if decide (0 < partition_rows) then false else true))
             (pr_cur_rank f) (pr_row_number f) in
  (f, if decide (1 < partition_rows)
      then div (of_Z (s64 (pr_cur_rank f - 1))) (of_Z (u64 (partition_rows - 1))) else of_Z 0).

(** *** CUME_DIST *)

Record Item_sum_cume_dist := CumeDist { cd_base : With_row_count; current_row_count_ : Z }.
Definition cume_dist_val_real (f : Item_sum_cume_dist) : Item_sum_cume_dist * spec_float :=
  if decide (get_row_count (cd_base f) = 0) then
    (CumeDist (with_null (cd_base f) true) (current_row_count_ f), of_Z 0)
  else
    let partition_row_count := u64 (get_row_count (cd_base f)) in
    (CumeDist (with_null (cd_base f) false) (current_row_count_ f),
     div (of_Z (current_row_count_ f)) (of_Z partition_row_count)).
Definition cume_dist_add (f : Item_sum_cume_dist) : Item_sum_cume_dist * bool :=
  (CumeDist (cd_base f) (u64 (current_row_count_ f + 1)), false).
Definition cume_dist_clear (f : Item_sum_cume_dist) : Item_sum_cume_dist := CumeDist (set_row_count (cd_base f) 0) 0.
Definition get_row_number (f : Item_sum_cume_dist) : Z := current_row_count_ f.

(** *** NTILE *)

Inductive my_errno := ER_INVALID_NTILE_ARGUMENT | ER_ARGUMENT_OUT_OF_RANGE | ER_ARGUMENT_NOT_CONSTANT.

(** [current_row_count_] is an [ulong]: [lw] bits, 32 on Windows. *)
Section ntile_defs.
Context (lw : Z).

Record Item_sum_ntile := Ntile { nt_base : With_row_count; nt_current_row_count_ : Z }.

(** An unsigned division by zero has no result. *)
Definition udiv (a b : Z) : option Z := if decide (b ≠ 0) then Some (a / b) else None.

(** The value with the error reported, if any; [num_quantiles] is the value of
    the argument, [get_num_quantiles()]. *)
Definition ntile_val_int (f : Item_sum_ntile) (num_quantiles : Z)
    : option (Item_sum_ntile * Z * option my_errno) :=
  let rows := get_row_count (nt_base f) in
  if decide (rows = 0) then Some (Ntile (with_null (nt_base f) true) (nt_current_row_count_ f), 0, None) else
  if decide (num_quantiles ≤ 0) then Some (f, 1, Some ER_INVALID_NTILE_ARGUMENT) else
  let f := Ntile (with_null (nt_base f) false) (nt_current_row_count_ f) in
  let quantile_size := u64 (Z.quot rows num_quantiles) in
  let extra_rows := u64 (rows - quantile_size * num_quantiles) in
  let cur := nt_current_row_count_ f in
  if decide (cur ≤ u64 (extra_rows * u64 (quantile_size + 1))) then
    q ← udiv (wrapu lw (cur - 1)) (u64 (quantile_size + 1)); Some (f, s64 (q + 1), None)
  else
    q ← udiv (u64 (wrapu lw (cur - 1) - extra_rows)) quantile_size; Some (f, s64 (q + 1), None).

Definition ntile_add (f : Item_sum_ntile) : Item_sum_ntile * bool :=
  (Ntile (nt_base f) (wrapu lw (nt_current_row_count_ f + 1)), false).
Definition ntile_clear (f : Item_sum_ntile) : Item_sum_ntile := Ntile (set_row_count (nt_base f) 0) 0.
Definition ntile_set_row_count (f : Item_sum_ntile) (n : Z) : Item_sum_ntile :=
  Ntile (set_row_count (nt_base f) n) (nt_current_row_count_ f).

Definition ntile_val_real (f : Item_sum_ntile) (num_quantiles : Z)
    : option (Item_sum_ntile * spec_float * option my_errno) :=
  '(f, v, e) ← ntile_val_int f num_quantiles; Some (f, of_Z v, e).

End ntile_defs.

(** *** PERCENTILE_DISC

    An item is its value, none for NULL; an [Item_cache] is the value it holds. *)

Section percentile.
Context {A : Type}.

Record Item_sum_percentile_disc := PDisc {
  pd_base : Item_sum_cume_dist; value : option A; val_calculated : bool; first_call : bool;
  prev_value : spec_float }.

Definition percentile_disc_val (f : Item_sum_percentile_disc) (arg : option spec_float)
    : Item_sum_percentile_disc * option A :=
  let set_null b := PDisc (CumeDist (with_null (cd_base (pd_base f)) b) (current_row_count_ (pd_base f)))
                      (value f) (val_calculated f) (first_call f) (prev_value f) in
  match arg with
  | Some _ => if decide (get_row_count (cd_base (pd_base f)) = 0) then (set_null true, None)
              else (set_null false, value f)
  | None => (set_null true, None)
  end.

Definition percentile_disc_add (f : Item_sum_percentile_disc) (arg : option spec_float) (order_item : option A)
    : Item_sum_percentile_disc * option my_errno :=
  match arg with
  | None => (f, None)
  | Some arg_val =>
      let prev := if first_call f then arg_val else prev_value f in
      let f := PDisc (pd_base f) (value f) (val_calculated f) (first_call f) prev in
      if first_call f && (ltb_d (of_Z 1) prev || ltb_d prev (of_Z 0)) then (f, Some ER_ARGUMENT_OUT_OF_RANGE) else
      let f := PDisc (pd_base f) (value f) (val_calculated f) false prev in
      if negb (eqb_d (prev_value f) arg_val) then (f, Some ER_ARGUMENT_NOT_CONSTANT) else
      if val_calculated f then (f, None) else
      let f := PDisc (pd_base f) order_item (val_calculated f) (first_call f) (prev_value f) in
      match order_item with
      | None => (f, None)
      | Some _ =>
          let '(base, _) := cume_dist_add (pd_base f) in
          let '(base, val) := cume_dist_val_real base in
          let calc := if leb_d (prev_value f) val && negb (val_calculated f) then true else val_calculated f in
          (PDisc base (value f) calc (first_call f) (prev_value f), None)
      end
  end.

Definition percentile_disc_clear (f : Item_sum_percentile_disc) : Item_sum_percentile_disc :=
  PDisc (cume_dist_clear (pd_base f)) None false true (prev_value f).

(** *** PERCENTILE_CONT *)

(** [to_real]: [val_real()] of a cached value. *)
Context (to_real : option A → spec_float).

Record Item_sum_percentile_cont := PCont {
  pc_base : Item_sum_cume_dist; floor_value : option A; ceil_value : option A; pc_first_call : bool;
  pc_prev_value : spec_float; ceil_val_calculated : bool; floor_val_calculated : bool }.

(** [1 + prev_value * (get_row_count()-1)] *)
Definition row_position (f : Item_sum_percentile_cont) : spec_float :=
  add_d (of_Z 1) (mul (pc_prev_value f) (of_Z (s64 (get_row_count (cd_base (pc_base f)) - 1)))).

Definition pc_set_null (f : Item_sum_percentile_cont) (b : bool) : Item_sum_percentile_cont :=
  PCont (CumeDist (with_null (cd_base (pc_base f)) b) (current_row_count_ (pc_base f)))
    (floor_value f) (ceil_value f) (pc_first_call f) (pc_prev_value f) (ceil_val_calculated f) (floor_val_calculated f).

Definition percentile_cont_val_real (f : Item_sum_percentile_cont) (arg : option spec_float)
    : Item_sum_percentile_cont * spec_float :=
  match arg with
  | Some _ =>
      if decide (get_row_count (cd_base (pc_base f)) = 0) then (pc_set_null f true, of_Z 0) else
      let f := pc_set_null f false in
      let val := row_position f in
      if eqb_d (ceil_d val) (floor_d val) then (f, to_real (floor_value f)) else
      (f, add_d (mul (sub_d val (floor_d val)) (to_real (ceil_value f)))
            (mul (sub_d (ceil_d val) val) (to_real (floor_value f))))
  | None => (pc_set_null f true, of_Z 0)
  end.

(** Storing the value of the row: the flag says to go on. *)
Definition pc_store (f : Item_sum_percentile_cont) (order_item : option A) : Item_sum_percentile_cont * bool :=
  let present := match order_item with Some _ => true | None => false end in
  if negb (floor_val_calculated f) then
    (PCont (pc_base f) order_item (ceil_value f) (pc_first_call f) (pc_prev_value f)
       (ceil_val_calculated f) (floor_val_calculated f), present)
  else if negb (ceil_val_calculated f) then
    (PCont (pc_base f) (floor_value f) order_item (pc_first_call f) (pc_prev_value f)
       (ceil_val_calculated f) (floor_val_calculated f), present)
  else (f, true).

Definition percentile_cont_add (f : Item_sum_percentile_cont) (arg : option spec_float) (order_item : option A)
    : Item_sum_percentile_cont * option my_errno :=
  match arg with
  | None => (f, None)
  | Some arg_val =>
      let first := pc_first_call f in
      let f := if first then PCont (pc_base f) (floor_value f) (ceil_value f) false arg_val
                               (ceil_val_calculated f) (floor_val_calculated f) else f in
      if first && (ltb_d (of_Z 1) (pc_prev_value f) || ltb_d (pc_prev_value f) (of_Z 0))
      then (f, Some ER_ARGUMENT_OUT_OF_RANGE) else
      if negb (eqb_d (pc_prev_value f) arg_val) then (f, Some ER_ARGUMENT_NOT_CONSTANT) else
      let '(f, go) := pc_store f order_item in
      if negb go then (f, None) else
      let '(base, _) := cume_dist_add (pc_base f) in
      let f := PCont base (floor_value f) (ceil_value f) (pc_first_call f) (pc_prev_value f)
                 (ceil_val_calculated f) (floor_val_calculated f) in
      let val := row_position f in
      let at_row x := eqb_d (of_Z (get_row_number (pc_base f))) x in
      let fl := if negb (floor_val_calculated f) && at_row (floor_d val) then true else floor_val_calculated f in
      let ce := if negb (ceil_val_calculated f) && at_row (ceil_d val) then true else ceil_val_calculated f in
      (PCont (pc_base f) (floor_value f) (ceil_value f) (pc_first_call f) (pc_prev_value f) ce fl, None)
  end.

Definition percentile_cont_clear (f : Item_sum_percentile_cont) : Item_sum_percentile_cont :=
  PCont (cume_dist_clear (pc_base f)) None None true (pc_prev_value f) false false.

End percentile.

Arguments Item_sum_percentile_disc : clear implicits.
Arguments Item_sum_percentile_cont : clear implicits.

(** ** Item_window_func *)

Inductive Sumfunctype :=
  | COUNT_FUNC | COUNT_DISTINCT_FUNC | SUM_FUNC | SUM_DISTINCT_FUNC | AVG_FUNC
  | AVG_DISTINCT_FUNC | MIN_FUNC | MAX_FUNC | STD_FUNC
  | VARIANCE_FUNC | SUM_BIT_FUNC | UDF_SUM_FUNC | GROUP_CONCAT_FUNC
  | ROW_NUMBER_FUNC | RANK_FUNC | DENSE_RANK_FUNC | PERCENT_RANK_FUNC
  | CUME_DIST_FUNC | NTILE_FUNC | FIRST_VALUE_FUNC | LAST_VALUE_FUNC
  | NTH_VALUE_FUNC | LEAD_FUNC | LAG_FUNC | PERCENTILE_CONT_FUNC
  | PERCENTILE_DISC_FUNC | SP_AGGREGATE_FUNC.

Definition is_frame_prohibited (t : Sumfunctype) : bool :=
  match t with
  | ROW_NUMBER_FUNC | RANK_FUNC | DENSE_RANK_FUNC | PERCENT_RANK_FUNC | CUME_DIST_FUNC | NTILE_FUNC
  | PERCENTILE_CONT_FUNC | PERCENTILE_DISC_FUNC => true
  | _ => false
  end.

Definition requires_special_cursors (t : Sumfunctype) : bool :=
  match t with
  | FIRST_VALUE_FUNC | LAST_VALUE_FUNC | NTH_VALUE_FUNC | LAG_FUNC | LEAD_FUNC => true
  | _ => false
  end.

Definition requires_partition_size (t : Sumfunctype) : bool :=
  match t with
  | PERCENT_RANK_FUNC | CUME_DIST_FUNC | NTILE_FUNC | PERCENTILE_CONT_FUNC | PERCENTILE_DISC_FUNC => true
  | _ => false
  end.

Definition requires_peer_size (t : Sumfunctype) : bool :=
  match t with CUME_DIST_FUNC => true | _ => false end.

Definition is_order_list_mandatory (t : Sumfunctype) : bool :=
  match t with
  | RANK_FUNC | DENSE_RANK_FUNC | PERCENT_RANK_FUNC | CUME_DIST_FUNC | LAG_FUNC | LEAD_FUNC
  | PERCENTILE_CONT_FUNC | PERCENTILE_DISC_FUNC => true
  | _ => false
  end.

Definition only_single_element_order_list (t : Sumfunctype) : bool :=
  match t with PERCENTILE_CONT_FUNC | PERCENTILE_DISC_FUNC => true | _ => false end.

Record Item_window_func := WF {
  force_return_blank : bool; read_value_from_result_field : bool; wf_null_value : bool }.

Definition new_window_func : Item_window_func := WF true false false.
Definition set_phase_to_initial (f : Item_window_func) : Item_window_func := WF true false (wf_null_value f).
Definition set_phase_to_computation (f : Item_window_func) : Item_window_func := WF false false (wf_null_value f).
Definition set_phase_to_retrieval (f : Item_window_func) : Item_window_func := WF false true (wf_null_value f).

(** What the item asks: the field of the temporary table, and the window
    function; a value with whether it is NULL. *)
Section values.
Context {V : Type}.
Record source := Source { src_val : V; src_null : bool }.

Definition wf_is_null (f : Item_window_func) (result_field window_func : source) : bool :=
  if force_return_blank f then true
  else if read_value_from_result_field f then src_null result_field else src_null window_func.

Definition wf_set (f : Item_window_func) (b : bool) : Item_window_func :=
  WF (force_return_blank f) (read_value_from_result_field f) b.

(** [val_int] and [val_real], [zero] the value of a blank. *)
Definition wf_val_num (zero : V) (f : Item_window_func) (result_field window_func : source) : Item_window_func * V :=
  if force_return_blank f then (wf_set f true, zero)
  else if read_value_from_result_field f then (wf_set f (src_null result_field), src_val result_field)
  else (wf_set f (src_null window_func), src_val window_func).

(** [val_str] and [val_decimal]: the pointer, null for NULL. *)
Definition wf_val_ptr (f : Item_window_func) (result_field window_func : source)
    (func_res : option V) : Item_window_func * option V :=
  if force_return_blank f then (wf_set f true, None)
  else if read_value_from_result_field f then
    (wf_set f (src_null result_field), if src_null result_field then None else Some (src_val result_field))
  else (wf_set f (src_null window_func), func_res).

(** [get_date]: the error with the date that was written. *)
Definition wf_get_date (f : Item_window_func) (result_field window_func : source)
    (field_err func_err : bool) : Item_window_func * bool * option V :=
  if force_return_blank f then (wf_set f true, true, None)
  else if read_value_from_result_field f then
    if src_null result_field then (wf_set f true, true, None)
    else (wf_set f false, field_err, Some (src_val result_field))
  else (wf_set f (src_null window_func), func_err, Some (src_val window_func)).

End values.
Arguments source : clear implicits.

End WindowFunc.

(** ** NTILE *)

Section ntile.
Import Double WindowFunc.
Context (lw : Z).

(** The function on a partition of [n] rows: it is cleared, told the number of
    rows, and given [r] of them. *)
Definition ntile_run (f : Item_sum_ntile) (n : Z) (r : nat) : Item_sum_ntile :=
  Nat.iter r (λ f, (ntile_add lw f).1) (ntile_set_row_count (ntile_clear f) n).

(** Its value then, for [q] quantiles; none where an error is reported. *)
Definition tile (f : Item_sum_ntile) (n q : Z) (r : nat) : option Z :=
  match ntile_val_int lw (ntile_run f n r) q with Some (_, v, None) => Some v | _ => None end.

(** The number of rows before quantile [k], the first being 0: the first
    [n mod q] quantiles have one row more than the others. *)
Definition tile_start (n q k : Z) : Z := k * (n / q) + Z.min k (n mod q).

Lemma tile_start_step n q k :
  tile_start n q (k + 1) = tile_start n q k + n / q + (if decide (k < n mod q) then 1 else 0).
Proof. unfold tile_start. case_decide; nia. Qed.

Lemma ntile_run_eq f n r : 0 ≤ lw →
  ntile_run f n r = Ntile (RowCount (u64 n) (null_value (nt_base f))) (wrapu lw (Z.of_nat r)).
Proof.
  intros Hlw. unfold ntile_run. induction r as [|r IH].
  - rewrite (wrapu_small lw (Z.of_nat 0)); [done|].
    unfold in_u. pose proof (Z.pow_pos_nonneg 2 lw ltac:(lia) Hlw). lia.
  - rewrite Nat.iter_succ, IH. unfold ntile_add. cbn [fst nt_base nt_current_row_count_]. f_equal. unfold wrapu. rewrite Zplus_mod_idemp_l. f_equal. lia.
Qed.

(** The quantile of row [r], by the arithmetic of the two cases. *)
Definition quantile_of (n q r : Z) : Z :=
  if decide (r ≤ n mod q * (n / q + 1)) then (r - 1) / (n / q + 1) else (r - 1 - n mod q) / (n / q).

Lemma quantile_of_spec n q r :
  0 < q → 1 ≤ r ≤ n → let k := quantile_of n q r in 0 ≤ k < q ∧ tile_start n q k < r ≤ tile_start n q (k + 1).
Proof.
  intros Hq Hr. unfold quantile_of, tile_start. cbv zeta.
  assert (n = q * (n / q) + n mod q) as En by (apply Z_div_mod_eq_full).
  pose proof (Z.mod_pos_bound n q ltac:(lia)) as He.
  assert (0 ≤ n / q) as Hs by (apply Z.div_pos; lia).
  set (s := n / q) in *. set (e := n mod q) in *. case_decide as Hc.
  - pose proof (Z.div_mod (r - 1) (s + 1) ltac:(lia)). pose proof (Z.mod_pos_bound (r - 1) (s + 1) ltac:(lia)).
    set (k := (r - 1) / (s + 1)) in *. assert (0 ≤ k < e) by nia. rewrite !Z.min_l by lia. nia.
  - assert (0 < s) by nia.
    pose proof (Z.div_mod (r - 1 - e) s ltac:(lia)). pose proof (Z.mod_pos_bound (r - 1 - e) s ltac:(lia)).
    set (k := (r - 1 - e) / s) in *. assert (e ≤ k < q) by nia. rewrite !Z.min_r by lia. nia.
Qed.

Lemma tile_value f n q r :
  0 ≤ lw ≤ 64 → 0 < n < 2 ^ 63 → n < 2 ^ lw → 0 < q < 2 ^ 63 → 1 ≤ Z.of_nat r ≤ n →
  tile f n q r = Some (quantile_of n q (Z.of_nat r) + 1).
Proof.
  intros Hlw Hn Hnl Hq Hr. unfold tile. rewrite ntile_run_eq by lia.
  pose proof (quantile_of_spec n q (Z.of_nat r) ltac:(lia) Hr) as [Hk _]. revert Hk.
  unfold ntile_val_int, get_row_count. cbn [nt_base nt_current_row_count_ with_null partition_row_count_].
  rewrite (wrapu_small 64 n), (wraps_small 64) by (unfold in_u, in_s; lia).
  rewrite !decide_False by lia. rewrite Z.quot_div_nonneg by lia.
  assert (n = q * (n / q) + n mod q) as En by (apply Z_div_mod_eq_full).
  pose proof (Z.mod_pos_bound n q ltac:(lia)) as He.
  assert (0 ≤ n / q) as Hs by (apply Z.div_pos; lia).
  rewrite (wrapu_small lw (Z.of_nat r)), (wrapu_small lw (_ - 1)) by (unfold in_u; lia).
  assert (n / q ≤ n) by nia. unfold quantile_of.
  rewrite (wrapu_small 64 (n / q)) by (unfold in_u; lia).
  replace (n - n / q * q) with (n mod q) by lia.
  rewrite (wrapu_small 64 (n mod q)), (wrapu_small 64 (n / q + 1)) by (unfold in_u; lia).
  rewrite (wrapu_small 64 (_ * _)) by (unfold in_u; nia).
  case_decide as Hc; intros Hk.
  - unfold udiv. rewrite decide_True by lia. cbn. f_equal. apply wraps_small; [lia|]. unfold in_s. lia.
  - assert (0 < n / q) by nia. rewrite (wrapu_small 64 (_ - _ - _)) by (unfold in_u; nia).
    unfold udiv. rewrite decide_True by lia. cbn. f_equal. apply wraps_small; [lia|]. unfold in_s. lia.
Qed.

End ntile.

Lemma filter_ext_elem {X} (P Q : X → Prop) `{∀ x, Decision (P x), ∀ x, Decision (Q x)} (l : list X) :
  (∀ x, x ∈ l → P x ↔ Q x) → filter P l = filter Q l.
Proof.
  induction l as [|x l IH]; [done|]. intros HPQ. rewrite !filter_cons, IH by (intros; apply HPQ; by right).
  specialize (HPQ x (list_elem_of_here x l)). repeat case_decide; naive_solver.
Qed.

(** The number of the integers of an interval among [1..m]. *)
Lemma count_interval (a b : Z) (m : nat) : 0 ≤ a →
  Z.of_nat (length (filter (λ r, a < Z.of_nat r ≤ b) (seq 1 m))) = Z.max 0 (Z.min b (Z.of_nat m) - a).
Proof.
  intros Ha. induction m as [|m IH]; [cbn; lia|].
  rewrite seq_S, filter_app, length_app, Nat2Z.inj_add, IH, filter_cons, filter_nil.
  case_decide; cbn [length]; lia.
Qed.

Section distribution.
Import WindowFunc.

Lemma tile_start_mono n q j k : 0 ≤ n → 0 < q → j ≤ k → tile_start n q j ≤ tile_start n q k.
Proof.
  intros Hn Hq Hjk. unfold tile_start. pose proof (Z.div_pos n q ltac:(lia) Hq).
  pose proof (Z.mul_le_mono_nonneg_r j k (n / q) ltac:(lia) Hjk). lia.
Qed.

(** The quantile is the only one whose rows include [r]. *)
Lemma quantile_of_unique n q r k :
  0 < q → 1 ≤ r ≤ n → quantile_of n q r = k ↔ tile_start n q k < r ≤ tile_start n q (k + 1).
Proof.
  intros Hq Hr. destruct (quantile_of_spec n q r Hq Hr) as [_ Hs]. split; [by intros <-|]. intros Hk.
  destruct (Z.lt_trichotomy (quantile_of n q r) k) as [Hl|[->|Hl]]; [|done|].
  - pose proof (tile_start_mono n q (quantile_of n q r + 1) k ltac:(lia) Hq ltac:(lia)). lia.
  - pose proof (tile_start_mono n q (k + 1) (quantile_of n q r) ltac:(lia) Hq ltac:(lia)). lia.
Qed.

(** [C39] Functional: on a partition of [n] rows, cleared and told [n], [NTILE(q)]
    gives row [r] the quantile [k + 1] whose rows include it, without an error;
    and quantile [k + 1] gets [n / q] rows, one more for the first [n mod q]
    quantiles.  The number of rows has to fit the [ulong] of the row counter. *)
Theorem ntile_distribution lw f n q :
  0 ≤ lw ≤ 64 → 0 < n < 2 ^ 63 → n < 2 ^ lw → 0 < q < 2 ^ 63 →
  (∀ r, 1 ≤ Z.of_nat r ≤ n → ∃ k, tile lw f n q r = Some (k + 1) ∧ 0 ≤ k < q ∧
     tile_start n q k < Z.of_nat r ≤ tile_start n q (k + 1)) ∧
  (∀ k, 0 ≤ k < q →
     Z.of_nat (length (filter (λ r, tile lw f n q r = Some (k + 1)) (seq 1 (Z.to_nat n))))
     = n / q + (if decide (k < n mod q) then 1 else 0)).
Proof.
  intros Hlw Hn Hnl Hq. split.
  - intros r Hr. exists (quantile_of n q (Z.of_nat r)). split; [by apply tile_value|].
    apply quantile_of_spec; lia.
  - intros k Hk.
    assert (filter (λ r, tile lw f n q r = Some (k + 1)) (seq 1 (Z.to_nat n)) =
            filter (λ r, tile_start n q k < Z.of_nat r ≤ tile_start n q (k + 1)) (seq 1 (Z.to_nat n))) as ->.
    { apply filter_ext_elem. intros r Hr%elem_of_seq. rewrite tile_value by lia.
      rewrite <- quantile_of_unique by lia. split; [intros [= ?]; lia|by intros ->]. }
    rewrite count_interval by (unfold tile_start; pose proof (Z.div_pos n q); pose proof (Z.mod_pos_bound n q); nia).
    pose proof (tile_start_step n q k) as Hstep. pose proof (Z.div_pos n q ltac:(lia) ltac:(lia)).
    pose proof (tile_start_mono n q (k + 1) q ltac:(lia) ltac:(lia) ltac:(lia)) as Hle.
    assert (tile_start n q q = n) as E.
    { unfold tile_start. pose proof (Z.mod_pos_bound n q ltac:(lia)). rewrite Z.min_r by lia.
      pose proof (Z_div_mod_eq_full n q). lia. }
    case_decide; lia.
Qed.

Lemma ntile_distribution_witness :
  tile 32 (Ntile (RowCount 0 true) 0) 10 4 7 = Some 3 ∧
  Z.of_nat (length (filter (λ r, tile 32 (Ntile (RowCount 0 true) 0) 10 4 r = Some (1 + 1)) (seq 1 10))) = 3.
Proof.
  split; [vm_compute; reflexivity|].
  refine (proj2 (ntile_distribution 32 (Ntile (RowCount 0 true) 0) 10 4 _ _ _ _) 1 _); lia.
Defined.

(** A row counter of 32 bits starts again after [2^32] rows. *)
Lemma ntile_32_bits_wraps :
  let at_row c := ntile_val_int 32 (Ntile (RowCount (2 ^ 32 + 1) false) c) 2 in
  (ntile_add 32 (Ntile (RowCount (2 ^ 32 + 1) false) 0)).1 = Ntile (RowCount (2 ^ 32 + 1) false) 1 ∧
  wrapu 32 (2 ^ 32 + 1) = 1 ∧
  at_row (wrapu 32 (2 ^ 32 + 1)) = Some (Ntile (RowCount (2 ^ 32 + 1) false) 1, 1, None) ∧
  quantile_of (2 ^ 32 + 1) 2 (2 ^ 32 + 1) + 1 = 2.
Proof. vm_compute. done. Qed.

End distribution.

(** ** PERCENTILE_DISC *)

Section percentile_disc.
Import Double WindowFunc.
Context {A : Type}.

Definition set_rows (b : Item_sum_cume_dist) (n : Z) : Item_sum_cume_dist :=
  CumeDist (set_row_count (cd_base b) n) (current_row_count_ b).

(** The rows of a partition of [n] rows given one after another, to the first error. *)
Fixpoint disc_adds (f : Item_sum_percentile_disc A) (arg : spec_float) (rows : list (option A))
    : Item_sum_percentile_disc A * option my_errno :=
  match rows with
  | [] => (f, None)
  | x :: rows => match percentile_disc_add f (Some arg) x with
                 | (f, None) => disc_adds f arg rows
                 | r => r
                 end
  end.

Definition disc_start (f : Item_sum_percentile_disc A) (n : Z) : Item_sum_percentile_disc A :=
  let f := percentile_disc_clear f in
  PDisc (set_rows (pd_base f) n) (value f) (val_calculated f) (first_call f) (prev_value f).

(** A fraction the functions accept: between 0 and 1, and not NaN. *)
Definition fraction (p : spec_float) : Prop :=
  ltb_d (of_Z 1) p = false ∧ ltb_d p (of_Z 0) = false ∧ eqb_d p p = true.

(** Row [k] of the rows whose value is not NULL has a cumulative distribution not below [p]. *)
Definition reaches (p : spec_float) (n : Z) (k : nat) : Prop :=
  leb_d p (div (of_Z (Z.of_nat k)) (of_Z n)) = true.
#[global] Instance reaches_dec p n k : Decision (reaches p n k).
Proof. unfold reaches. apply _. Defined.

Context (p : spec_float) (n : Z) (Hp : fraction p) (Hn : 0 < n < 2 ^ 63).

(** A state in which [k] rows were counted and the argument was [p]. *)
Definition disc_at (f : Item_sum_percentile_disc A) (k : nat) (calc : bool) (v : option A) : Prop :=
  ∃ nv fc prev, f = PDisc (CumeDist (RowCount n nv) (Z.of_nat k)) v calc fc prev ∧ (fc = false → prev = p).

Lemma add_enters f k calc v x : disc_at f k calc v →
  percentile_disc_add f (Some p) x =
  (let f' := PDisc (CumeDist (RowCount n (null_value (cd_base (pd_base f)))) (Z.of_nat k)) v calc false p in
   if calc then (f', None) else
   match x with
   | None => (PDisc (pd_base f') None false false p, None)
   | Some _ =>
       let '(base, val) := cume_dist_val_real (cume_dist_add (pd_base f')).1 in
       (PDisc base x (leb_d p val) false p, None)
   end).
Proof using Hp.
  destruct Hp as (H1 & H2 & H3). intros (nv & fc & prev & -> & Hprev). unfold percentile_disc_add.
  cbn [first_call prev_value pd_base value val_calculated cd_base null_value].
  destruct fc; cbn [andb]; rewrite ?H1, ?H2; cbn [orb]; [|rewrite (Hprev eq_refl)]; rewrite H3; cbn [negb];
    destruct calc; cbn [andb negb]; try done; destruct x; cbn [negb]; try done;
    unfold cume_dist_add; cbn [fst]; destruct (cume_dist_val_real _) as [b v'];
    rewrite ?andb_true_r; by destruct (leb_d p v').
Qed.

Lemma add_calculated f k v x : disc_at f k true v →
  ∃ f', percentile_disc_add f (Some p) x = (f', None) ∧ disc_at f' k true v.
Proof using Hp. intros H. rewrite (add_enters f k true v x H). eexists. split; [done|]. by eexists _, _, _. Qed.

Lemma add_null f k v : disc_at f k false v →
  ∃ f', percentile_disc_add f (Some p) None = (f', None) ∧ disc_at f' k false None.
Proof using Hp. intros H. rewrite (add_enters f k false v None H). eexists. split; [done|]. by eexists _, _, _. Qed.

Lemma add_value f k v x : disc_at f k false v → Z.of_nat (S k) < 2 ^ 63 →
  ∃ f', percentile_disc_add f (Some p) (Some x) = (f', None) ∧
    disc_at f' (S k) (bool_decide (reaches p n (S k))) (Some x).
Proof using Hp Hn.
  intros H Hk. rewrite (add_enters f k false v (Some x) H). cbn [pd_base].
  unfold cume_dist_val_real, cume_dist_add, get_row_count. cbn [fst cd_base current_row_count_ partition_row_count_ with_null].
  rewrite (wraps_small 64) by (unfold in_s; lia). rewrite decide_False by lia.
  rewrite (wrapu_small 64 n), (wrapu_small 64 (_ + 1)) by (unfold in_u; lia).
  replace (Z.of_nat k + 1) with (Z.of_nat (S k)) by lia.
  eexists. split; [done|]. eexists _, _, _. split; [|done]. f_equal.
  case_bool_decide as Hr; [done|by apply not_true_is_false].
Qed.

Lemma adds_calculated f k v rows : disc_at f k true v →
  ∃ f', disc_adds f p rows = (f', None) ∧ disc_at f' k true v.
Proof using Hp.
  revert f. induction rows as [|x rows IH]; intros f H; [by exists f|]. cbn [disc_adds].
  destruct (add_calculated f k v x H) as (f' & -> & H'). by apply IH.
Qed.

Lemma adds_nulls f k m rows v : disc_at f k false v → v = None →
  ∃ f', disc_adds f p (replicate m None ++ rows) = disc_adds f' p rows ∧ disc_at f' k false None.
Proof using Hp.
  intros H ->. revert f H. induction m as [|m IH]; intros f H; [by exists f|]. cbn [replicate app disc_adds].
  destruct (add_null f k None H) as (f' & -> & H'). by apply IH.
Qed.

(** The first row that reaches the fraction is kept, the last row where none does. *)
Lemma adds_values f k v xs : disc_at f k false v → Z.of_nat (k + length xs) < 2 ^ 63 →
  ∃ f' k' calc w, disc_adds f p (Some <$> xs) = (f', None) ∧ disc_at f' k' calc w ∧
    (∀ i, (i < length xs)%nat → reaches p n (S (k + i)) → (∀ j, (j < i)%nat → ¬ reaches p n (S (k + j))) → w = xs !! i) ∧
    ((∀ j, (j < length xs)%nat → ¬ reaches p n (S (k + j))) → w = if decide (xs = []) then v else last xs).
Proof using Hp Hn.
  revert f k v. induction xs as [|x xs IH]; intros f k v H Hk.
  { exists f, k, false, v. split_and!; [done|done| |done]. intros i Hi. cbn in Hi. lia. }
  cbn [length] in Hk. rewrite fmap_cons. cbn [disc_adds length]. destruct (add_value f k v x H ltac:(lia)) as (f' & -> & H').
  destruct (decide (reaches p n (S k))) as [Hr|Hr].
  - rewrite bool_decide_true in H' by done. destruct (adds_calculated f' _ _ (Some <$> xs) H') as (f2 & E & H2).
    exists f2, (S k), true, (Some x). split_and!; [done|done| |].
    + intros [|i] Hi Hri Hj; [done|]. destruct (Hj 0%nat ltac:(lia)). by rewrite Nat.add_0_r.
    + intros Hj. destruct (Hj 0%nat ltac:(lia)). by rewrite Nat.add_0_r.
  - rewrite bool_decide_false in H' by done.
    destruct (IH f' (S k) (Some x) H' ltac:(lia)) as (f2 & k2 & calc & w & E & H2 & Hw & Hl).
    exists f2, k2, calc, w. split_and!; [done|done| |].
    + intros [|i] Hi Hri Hj; [by rewrite Nat.add_0_r in Hri|]. cbn. apply Hw; [lia|by rewrite Nat.add_succ_l, <- Nat.add_succ_r|].
      intros j Hlt. rewrite Nat.add_succ_l, <- Nat.add_succ_r. apply Hj. lia.
    + intros Hj. rewrite Hl by (intros j Hlt; rewrite Nat.add_succ_l, <- Nat.add_succ_r; apply Hj; lia).
      destruct xs; [done|]. by rewrite !decide_False by done.
Qed.

End percentile_disc.

Section percentile_disc_property.
Import Double WindowFunc.

(** Functional: [PERCENTILE_DISC(p)] over a partition of [n] rows, NULL values
    first, reports no error and returns the value of the first row (of those
    with a value) whose cumulative distribution reaches [p], and that of the
    last row where none does. *)
Theorem percentile_disc_picks {A} (f : Item_sum_percentile_disc A) p n m xs :
  fraction p → 0 < n < 2 ^ 63 → xs ≠ [] → Z.of_nat (length xs) < 2 ^ 63 →
  ∃ f' w, disc_adds (disc_start f n) p (replicate m None ++ (Some <$> xs)) = (f', None) ∧
    (percentile_disc_val f' (Some p)).2 = w ∧
    null_value (cd_base (pd_base (percentile_disc_val f' (Some p)).1)) = false ∧
    (∀ i, (i < length xs)%nat → reaches p n (S i) → (∀ j, (j < i)%nat → ¬ reaches p n (S j)) → w = xs !! i) ∧
    ((∀ j, (j < length xs)%nat → ¬ reaches p n (S j)) → w = last xs).
Proof.
  intros Hp Hn Hxs Hlen.
  assert (disc_at p n (disc_start f n) 0 false None) as H0.
  { unfold disc_start, percentile_disc_clear, set_rows, cume_dist_clear, set_row_count. cbn.
    rewrite (wrapu_small 64 n) by (unfold in_u; lia). by eexists _, _, _. }
  destruct (adds_nulls p n Hp _ 0 m (Some <$> xs) None H0 eq_refl) as (f1 & -> & H1).
  destruct (adds_values p n Hp Hn f1 0 None xs H1 ltac:(lia)) as (f2 & k & calc & w & E & H2 & Hw & Hl).
  exists f2, w. rewrite E. destruct H2 as (nv & fc & prev & -> & _). rewrite decide_False in Hl by done.
  unfold percentile_disc_val, get_row_count. cbn [pd_base cd_base partition_row_count_].
  rewrite (wraps_small 64) by (unfold in_s; lia). rewrite decide_False by lia. by split_and!.
Qed.

Definition disc0 : Item_sum_percentile_disc Z := PDisc (CumeDist (RowCount 0 true) 0) None false true (of_Z 0).

(** The median of 1, 2, 3, 4 is 2. *)
Lemma percentile_disc_picks_witness :
  ∃ f', disc_adds (disc_start disc0 4) (div (of_Z 1) (of_Z 2)) (replicate 1 None ++ (Some <$> [1; 2; 3; 4])) = (f', None) ∧
    (percentile_disc_val f' (Some (div (of_Z 1) (of_Z 2)))).2 = Some 2.
Proof.
  destruct (percentile_disc_picks disc0 (div (of_Z 1) (of_Z 2)) 4 1 [1; 2; 3; 4]) as (f' & w & E & Ew & _ & Hi & _);
    [done|lia|done|cbn; lia|].
  exists f'. split; [done|]. rewrite Ew. apply (Hi 1%nat); [cbn; lia|vm_compute; reflexivity|].
  intros j Hj. replace j with 0%nat by lia. vm_compute. discriminate.
Defined.

(** Error: what [add] reports, for every state and argument.  Only the first
    argument of a partition is checked against the bounds, NaN passes that check
    and is then not equal to itself, and a NULL argument reports nothing. *)
Theorem percentile_disc_errors {A} (f : Item_sum_percentile_disc A) arg x :
  (percentile_disc_add f arg x).2 =
  (a ← arg;
   if decide (first_call f = true ∧ (ltb_d (of_Z 1) a = true ∨ ltb_d a (of_Z 0) = true)) then Some ER_ARGUMENT_OUT_OF_RANGE
   else if decide (eqb_d (if first_call f then a else prev_value f) a = true) then None
   else Some ER_ARGUMENT_NOT_CONSTANT).
Proof.
  destruct arg as [a|]; [|done]. unfold percentile_disc_add. cbn [mbind option_bind first_call prev_value].
  destruct (first_call f); cbn [andb].
  - destruct (ltb_d (of_Z 1) a), (ltb_d a (of_Z 0)); cbn [orb]; try (rewrite decide_True by auto; done).
    rewrite decide_False by naive_solver. destruct (eqb_d a a); cbn [negb]; [|done].
    destruct (val_calculated f), x; try done. cbn [pd_base]. unfold cume_dist_add. by destruct (cume_dist_val_real _).
  - rewrite decide_False by naive_solver. destruct (eqb_d (prev_value f) a); cbn [negb]; [|done].
    destruct (val_calculated f), x; try done. cbn [pd_base]. unfold cume_dist_add. by destruct (cume_dist_val_real _).
Qed.

End percentile_disc_property.

(** ** PERCENTILE_CONT *)

Section percentile_cont.
Import Double WindowFunc.
Context {A : Type}.

Fixpoint cont_adds (f : Item_sum_percentile_cont A) (arg : spec_float) (rows : list A)
    : Item_sum_percentile_cont A * option my_errno :=
  match rows with
  | [] => (f, None)
  | x :: rows => match percentile_cont_add f (Some arg) (Some x) with
                 | (f, None) => cont_adds f arg rows
                 | r => r
                 end
  end.

Definition cont_start (f : Item_sum_percentile_cont A) (n : Z) : Item_sum_percentile_cont A :=
  let f := percentile_cont_clear f in
  PCont (set_rows (pc_base f) n) (floor_value f) (ceil_value f) (pc_first_call f) (pc_prev_value f)
    (ceil_val_calculated f) (floor_val_calculated f).

(** The position of fraction [p] among [n] rows. *)
Definition position (p : spec_float) (n : Z) : spec_float := add_d (of_Z 1) (mul p (of_Z (n - 1))).

Context (p : spec_float) (n F C : Z) (Hp : fraction p) (Hn : 0 < n < 2 ^ 53).
Context (HF : floor_Z (position p n) = Some F) (HC : ceil_Z (position p n) = Some C) (HF1 : 1 ≤ F) (HCn : C ≤ n).

(** The state after the rows [xs] of the partition. *)
Definition cont_at (f : Item_sum_percentile_cont A) (xs : list A) : Prop :=
  ∃ nv fc prev, f = PCont (CumeDist (RowCount n nv) (Z.of_nat (length xs)))
      (if decide (Z.of_nat (length xs) < F) then last xs else xs !! Z.to_nat (F - 1))
      (if decide (C = F) then None else xs !! Z.to_nat F)
      fc prev (bool_decide (C ≤ Z.of_nat (length xs))) (bool_decide (F ≤ Z.of_nat (length xs))) ∧
    (fc = false → prev = p) ∧ (xs ≠ [] → fc = false).

(** One row, whatever was stored before: the comparisons with the position are
    those of the row's number with [F] and [C]. *)
Lemma cont_add_eq nv k fl ce fc prev cc flc (x : A) :
  (fc = false → prev = p) → 0 ≤ k < n →
  percentile_cont_add (PCont (CumeDist (RowCount n nv) k) fl ce fc prev cc flc) (Some p) (Some x) =
  (PCont (CumeDist (RowCount n nv) (k + 1)) (if flc then fl else Some x)
     (if flc && negb cc then Some x else ce) false p
     (cc || bool_decide (k + 1 = C)) (flc || bool_decide (k + 1 = F)), None).
Proof using Hp Hn HF HC HF1 HCn.
  destruct Hp as (H1 & H2 & H3). pose proof (floor_ceil _ _ _ HF HC) as HFC. intros Hprev Hk.
  assert (eqb_d (of_Z (k + 1)) (floor_d (position p n)) = bool_decide (k + 1 = F)) as EF.
  { unfold floor_d. rewrite HF. apply eqb_of_Z; lia. }
  assert (eqb_d (of_Z (k + 1)) (ceil_d (position p n)) = bool_decide (k + 1 = C)) as EC.
  { unfold ceil_d. rewrite HC. apply eqb_of_Z; lia. }
  assert (∀ fl ce cc flc, row_position (A := A) (PCont (CumeDist (RowCount n nv) (k + 1)) fl ce false p cc flc)
                          = position p n) as Hpos.
  { intros. unfold row_position, position, get_row_count. cbn. by rewrite (wraps_small 64 ltac:(lia) n), (wraps_small 64) by (unfold in_s; lia). }
  assert (u64 (k + 1) = k + 1) as Hk1 by (apply wrapu_small; unfold in_u; lia).
  unfold percentile_cont_add, pc_store, cume_dist_add, get_row_number.
  destruct fc; [|rewrite (Hprev eq_refl)];
    cbn [pc_first_call pc_prev_value pc_base floor_value ceil_value ceil_val_calculated floor_val_calculated andb];
    rewrite ?H1, ?H2, H3; destruct flc, cc; cbn; rewrite Hk1, ?Hpos, ?EF, ?EC; repeat case_bool_decide; done.
Qed.

Lemma cont_step f xs x : cont_at f xs → Z.of_nat (length xs) < n →
  ∃ f', percentile_cont_add f (Some p) (Some x) = (f', None) ∧ cont_at f' (xs ++ [x]).
Proof using Hp Hn HF HC HF1 HCn.
  pose proof (floor_ceil _ _ _ HF HC) as HFC. intros (nv & fc & prev & -> & Hprev & _) Hlen.
  rewrite cont_add_eq by (done || lia). eexists. split; [done|]. exists nv, false, p. split; [|done].
  rewrite length_app, Nat2Z.inj_add, last_snoc. cbn [length]. f_equal.
  - case_bool_decide; case_decide; try lia; try (rewrite decide_True by lia).
    + rewrite decide_False by lia. rewrite lookup_app_l by lia. done.
    + done.
    + rewrite lookup_app_r by lia. by replace (Z.to_nat (F - 1) - length xs)%nat with 0%nat by lia.
  - do 2 case_bool_decide; case_decide; cbn; try done; try lia.
    + symmetry. apply lookup_app_l. lia.
    + rewrite lookup_app_r by lia. by replace (Z.to_nat F - length xs)%nat with 0%nat by lia.
    + rewrite !lookup_ge_None_2; [done| |]; rewrite ?length_app; cbn; lia.
  - repeat case_bool_decide; lia || done.
  - repeat case_bool_decide; lia || done.
Qed.

Lemma cont_steps xs : ∀ f pre, cont_at f pre → Z.of_nat (length (pre ++ xs)) ≤ n →
  ∃ f', cont_adds f p xs = (f', None) ∧ cont_at f' (pre ++ xs).
Proof using Hp Hn HF HC HF1 HCn.
  induction xs as [|x xs IH]; intros f pre H Hlen.
  - exists f. by rewrite app_nil_r.
  - rewrite length_app in Hlen. cbn [length] in Hlen. cbn [cont_adds].
    destruct (cont_step f pre x H ltac:(lia)) as (f' & -> & H').
    destruct (IH f' (pre ++ [x]) H') as (f2 & E & H2); [rewrite !length_app; cbn; lia|].
    exists f2. by rewrite <- app_assoc in H2.
Qed.

End percentile_cont.

Section percentile_cont_property.
Import Double WindowFunc.

(** Functional: [PERCENTILE_CONT(p)] over the [n] values of a partition, with
    [RN = 1 + p * (n - 1)] in doubles, reports no error and interpolates between
    the rows at the floor and the ceiling of [RN]: the value of the row where
    they are the same, and otherwise
    [(RN - floor RN) * ceiling row + (ceiling RN - RN) * floor row]. *)
Theorem percentile_cont_interpolates {A} (to_real : option A → spec_float) (f : Item_sum_percentile_cont A) p xs F C :
  let n := Z.of_nat (length xs) in let RN := position p n in
  fraction p → n < 2 ^ 53 → floor_Z RN = Some F → ceil_Z RN = Some C → 1 ≤ F → C ≤ n →
  ∃ f' a b, cont_adds (cont_start f n) p xs = (f', None) ∧
    xs !! Z.to_nat (F - 1) = Some a ∧ xs !! Z.to_nat (C - 1) = Some b ∧
    (percentile_cont_val_real to_real f' (Some p)).2 =
      if decide (C = F) then to_real (Some a)
      else add_d (mul (sub_d RN (floor_d RN)) (to_real (Some b))) (mul (sub_d (ceil_d RN) RN) (to_real (Some a))).
Proof.
  intros n RN Hp Hn HF HC HF1 HCn. pose proof (floor_ceil _ _ _ HF HC) as HFC.
  destruct (lookup_lt_is_Some_2 xs (Z.to_nat (F - 1))) as [a Ha]; [lia|].
  destruct (lookup_lt_is_Some_2 xs (Z.to_nat (C - 1))) as [b Hb]; [lia|].
  assert (cont_at p n F C (cont_start f n) []) as H0.
  { unfold cont_start, percentile_cont_clear, set_rows, cume_dist_clear, set_row_count, cont_at. cbn.
    rewrite (wrapu_small 64 n) by (unfold in_u; lia). eexists _, true, (pc_prev_value f). split; [|by split].
    rewrite decide_True, !bool_decide_false by lia. by case_decide. }
  destruct (cont_steps p n F C Hp ltac:(lia) HF HC HF1 HCn xs _ [] H0 ltac:(cbn; lia)) as (f' & E & H').
  exists f', a, b. split_and!; [done|done|done|]. destruct H' as (nv & fc & prev & -> & Hprev & Hfc).
  change ([] ++ xs) with xs in *. change (Z.of_nat (length xs)) with n.
  assert (prev = p) as -> by (apply Hprev, Hfc; intros E0; subst n; rewrite E0 in *; cbn in *; lia).
  unfold percentile_cont_val_real, row_position, pc_set_null, get_row_count.
  cbn [pc_base cd_base partition_row_count_ with_null pc_prev_value floor_value ceil_value].
  rewrite (wraps_small 64 ltac:(lia) n), (wraps_small 64) by (unfold in_s; lia).
  rewrite decide_False by lia. fold (position p n). fold RN.
  assert (eqb_d (ceil_d RN) (floor_d RN) = bool_decide (C = F)) as ->.
  { unfold ceil_d, floor_d. rewrite HF, HC. apply eqb_of_Z; lia. }
  rewrite (decide_False (P := n < F)) by lia. destruct (decide (C = F)) as [HCF|HCF].
  - rewrite (bool_decide_true (C = F)) by done. cbn [snd]. by rewrite Ha.
  - rewrite (bool_decide_false (C = F)) by done. cbn [snd]. replace (Z.to_nat F) with (Z.to_nat (C - 1)) by lia. by rewrite Ha, Hb.
Qed.

Definition cont0 : Item_sum_percentile_cont Z :=
  PCont (CumeDist (RowCount 0 true) 0) None None true (of_Z 0) false false.
Definition real (v : option Z) : spec_float := match v with Some z => of_Z z | None => of_Z 0 end.

(** The median of 1, 2, 3, 4 is 2.5. *)
Lemma percentile_cont_interpolates_witness :
  ∃ f', cont_adds (cont_start cont0 4) (div (of_Z 1) (of_Z 2)) [1; 2; 3; 4] = (f', None) ∧
    (percentile_cont_val_real real f' (Some (div (of_Z 1) (of_Z 2)))).2 = div (of_Z 5) (of_Z 2).
Proof.
  destruct (percentile_cont_interpolates real cont0 (div (of_Z 1) (of_Z 2)) [1; 2; 3; 4] 2 3)
    as (f' & a & b & E & Ha & Hb & Ev); [done|cbn; lia|vm_compute; reflexivity|vm_compute; reflexivity|lia|cbn; lia|].
  exists f'. split; [done|]. rewrite Ev. injection Ha as <-. injection Hb as <-. vm_compute. reflexivity.
Defined.

End percentile_cont_property.

(** ** ROW_NUMBER and CUME_DIST *)

Section counting.
Import Double WindowFunc.

Lemma row_number_counts f r : Z.of_nat r < 2 ^ 63 →
  row_number_val_int (Nat.iter r (λ f, (row_number_add f).1) (row_number_clear f)) = Z.of_nat r.
Proof.
  unfold row_number_val_int. induction r as [|r IH]; [done|]. intros Hr. rewrite Nat.iter_succ.
  unfold row_number_add at 1. cbn [fst count]. rewrite IH by lia. rewrite wraps_small; [lia|lia|unfold in_s; lia].
Qed.

Lemma cume_dist_adds f n r : Z.of_nat r < 2 ^ 64 → 0 ≤ n < 2 ^ 63 →
  Nat.iter r (λ f, (cume_dist_add f).1) (set_rows (cume_dist_clear f) n)
  = CumeDist (RowCount n (null_value (cd_base f))) (Z.of_nat r).
Proof.
  intros Hr Hn. induction r as [|r IH].
  - cbn. unfold set_rows, cume_dist_clear, set_row_count. cbn. by rewrite (wrapu_small 64 n) by (unfold in_u; lia).
  - rewrite Nat.iter_succ, IH by lia. unfold cume_dist_add. cbn [fst cd_base current_row_count_]. f_equal.
    rewrite wrapu_small; [lia|unfold in_u; lia].
Qed.

(** Row [r] of [n] has the distribution [r / n]; an empty partition is NULL. *)
Lemma cume_dist_value f n r : Z.of_nat r < 2 ^ 64 → 0 ≤ n < 2 ^ 63 →
  let '(f', v) := cume_dist_val_real (Nat.iter r (λ f, (cume_dist_add f).1) (set_rows (cume_dist_clear f) n)) in
  null_value (cd_base f') = bool_decide (n = 0) ∧ v = if decide (n = 0) then of_Z 0 else div (of_Z (Z.of_nat r)) (of_Z n).
Proof.
  intros Hr Hn. rewrite cume_dist_adds by done. unfold cume_dist_val_real, get_row_count.
  cbn [cd_base partition_row_count_ current_row_count_]. rewrite (wraps_small 64) by (unfold in_s; lia).
  case_decide; cbn.
  - by rewrite bool_decide_true.
  - rewrite bool_decide_false by done. change (n mod 18446744073709551616) with (wrapu 64 n).
    by rewrite (wrapu_small 64) by (unfold in_u; lia).
Qed.

End counting.

(** ** Group boundaries *)

(** What the tracker relies on: [test_if_group_changed] answers a number above -1
    where the row is in another group than the cached one, and caches the row's
    group, against which [cmp_read_only] compares. *)
Class GroupTest {Cached Row} (test : list Cached → Row → list Cached * Z) (cmp : Cached → Row → Z)
    (same_group : Row → Row → Prop) : Prop := {
  test_compares l row : -1 < (test l row).2 ↔ WindowFunc.compare_loop cmp l row ≠ 0;
  test_caches l row row' : WindowFunc.compare_loop cmp (test l row).1 row' = 0 ↔ same_group row row' }.

Section groups.
Import WindowFunc.
Context {Cached Row : Type} (test : list Cached → Row → list Cached * Z) (cmp : Cached → Row → Z).
Context (same_group : Row → Row → Prop) `{HT : !GroupTest test cmp same_group} `{Hdec : ∀ a b, Decision (same_group a b)}.

(** The answers of [check_if_next_group] on a sequence of rows. *)
Fixpoint checks (t : Group_bound_tracker Cached) (rows : list Row) : Group_bound_tracker Cached * list bool :=
  match rows with
  | [] => (t, [])
  | row :: rows => let '(t, b) := check_if_next_group test t row in let '(t, bs) := checks t rows in (t, b :: bs)
  end.

(** Whether each row starts a group after the previous one. *)
Fixpoint boundaries (prev : Row) (rows : list Row) : list bool :=
  match rows with
  | [] => []
  | row :: rows => negb (bool_decide (same_group prev row)) :: boundaries row rows
  end.

Lemma check_first t row :
  check_if_next_group test (tracker_init t) row = (Tracker (test (group_fields t) row).1 false, true).
Proof using Type.
  unfold check_if_next_group, tracker_init. cbn. destruct (test _ row) as [l res]. by rewrite orb_true_r.
Qed.

Lemma check_next l prev row :
  check_if_next_group test (Tracker (test l prev).1 false) row
  = (Tracker (test (test l prev).1 row).1 false, negb (bool_decide (same_group prev row))).
Proof using HT.
  unfold check_if_next_group. cbn [group_fields first_check].
  pose proof (test_compares (test l prev).1 row) as Hc. pose proof (test_caches l prev row) as Hs.
  destruct (test (test l prev).1 row) as [l' res]. cbn [fst snd first_check] in *. rewrite orb_false_r.
  destruct (decide (same_group prev row)).
  - rewrite (bool_decide_true (same_group prev row)), (bool_decide_false (-1 < res)) by tauto. done.
  - rewrite (bool_decide_false (same_group prev row)), (bool_decide_true (-1 < res)) by tauto. done.
Qed.

Lemma checks_next rows : ∀ l prev, ∃ l',
  checks (Tracker (test l prev).1 false) rows = (Tracker (test l' (foldl (λ _ r, r) prev rows)).1 false, boundaries prev rows).
Proof using HT.
  induction rows as [|row rows IH]; intros l prev; [by exists l|].
  cbn [checks]. rewrite check_next. destruct (IH (test l prev).1 row) as [l' ->].
  by exists l'.
Qed.

End groups.

(** Rows of integers compared field by field, as an instance. *)
Section rows_of_integers.
Import WindowFunc.

(** A cached item: the number of its field and the value. *)
Definition row_cmp (c : nat * Z) (row : list Z) : Z := row !!! c.1 - c.2.
Definition row_test (fields : list nat) (l : list (nat * Z)) (row : list Z) : list (nat * Z) * Z :=
  ((λ i, (i, row !!! i)) <$> fields, if decide (compare_loop row_cmp l row = 0) then -1 else 0).
Definition same_fields (fields : list nat) (a b : list Z) : Prop := Forall (λ i : nat, a !!! i = b !!! i) fields.
#[global] Instance same_fields_dec fields a b : Decision (same_fields fields a b).
Proof. unfold same_fields. apply _. Defined.

#[global] Instance row_group_test fields : GroupTest (row_test fields) row_cmp (same_fields fields).
Proof.
  split.
  - intros l row. unfold row_test. cbn. case_decide; naive_solver lia.
  - intros l row row'. unfold row_test, same_fields. cbn. induction fields as [|i fields IH]; [by split|].
    cbn. unfold row_cmp at 1. cbn. rewrite Forall_cons, <- IH. case_decide; split; intros; try lia; try (split; [lia|done]).
    by destruct H0.
Qed.

End rows_of_integers.

Section window_properties.
Import WindowFunc.

(** Functional: after [init], [check_if_next_group] answers true for the first row
    and then exactly for the rows that are in another group than the row before;
    [compare_with_cache] then answers 0 exactly for the rows of the last row's
    group. *)
Theorem tracker_marks_groups {Cached Row} (test : list Cached → Row → list Cached * Z) (cmp : Cached → Row → Z)
    (same_group : Row → Row → Prop) `{HT : !GroupTest test cmp same_group} `{Hdec : ∀ a b, Decision (same_group a b)}
    (t : Group_bound_tracker Cached) (row : Row) (rows : list Row) :
  ∃ t', checks test (tracker_init t) (row :: rows) = (t', true :: boundaries same_group row rows) ∧
    ∀ r, compare_with_cache cmp t' r = 0 ↔ same_group (foldl (λ _ r, r) row rows) r.
Proof.
  cbn [checks]. rewrite check_first. destruct (checks_next test cmp same_group rows (group_fields t) row) as [l' ->].
  eexists. split; [done|]. intros r. apply test_caches.
Qed.

Lemma tracker_marks_groups_witness :
  (checks (row_test [0%nat]) (tracker_init (Tracker [] false)) [[1; 5]; [1; 6]; [2; 6]; [2; 7]]).2 = [true; false; true; false].
Proof.
  destruct (tracker_marks_groups (row_test [0%nat]) row_cmp (same_fields [0%nat]) (Tracker [] false)
    [1; 5] [[1; 6]; [2; 6]; [2; 7]]) as (t' & E & _).
  rewrite E. vm_compute. reflexivity.
Defined.

(** ** The phases of Item_window_func *)

Inductive phase := Initial | Computation | Retrieval.
Definition set_phase (f : Item_window_func) (ph : phase) : Item_window_func :=
  match ph with
  | Initial => set_phase_to_initial f
  | Computation => set_phase_to_computation f
  | Retrieval => set_phase_to_retrieval f
  end.

(** Which source answers in a phase, none being the blank. *)
Definition answers {V} (ph : phase) (result_field window_func : source V) : option (source V) :=
  match ph with Initial => None | Computation => Some window_func | Retrieval => Some result_field end.

Definition answer_null {V} (s : option (source V)) : bool := match s with Some s => src_null s | None => true end.

(** Functional: after any sequence of changes of phase, the last one decides the
    source: the blank, the window function or the field of the temporary table.
    [is_null], the value of [val_int] and [val_real], and the [null_value] they,
    [val_str], [val_decimal] and [get_date] leave, are that source's. *)
Theorem window_func_phases {V} (zero : V) phs rf wf res e1 e2 :
  let f := foldl set_phase new_window_func phs in
  let s := answers (default Initial (last phs)) rf wf in
  wf_is_null f rf wf = answer_null s ∧
  (wf_val_num zero f rf wf).2 = from_option src_val zero s ∧
  wf_null_value (wf_val_num zero f rf wf).1 = answer_null s ∧
  wf_null_value (wf_val_ptr f rf wf res).1 = answer_null s ∧
  wf_null_value (wf_get_date f rf wf e1 e2).1.1 = answer_null s ∧
  (∀ f', f' = (wf_val_num zero f rf wf).1 ∨ f' = (wf_val_ptr f rf wf res).1 ∨ f' = (wf_get_date f rf wf e1 e2).1.1 →
     wf_is_null f' rf wf = wf_is_null f rf wf).
Proof.
  intros f s.
  assert (∃ nv, f = set_phase (WF true false nv) (default Initial (last phs))) as [nv Hf].
  { subst f. destruct phs as [|ph phs _] using rev_ind; [by exists false|].
    rewrite foldl_snoc, last_snoc. cbn. eexists. by destruct ph. }
  subst s. rewrite Hf. destruct (default Initial (last phs)), rf as [v1 b1], wf as [v2 b2];
    destruct b1, b2; split_and!; try done; by intros f' [->|[->| ->]].
Qed.

(** The switches over the kind of function agree: the size of the peers is only
    asked for where the size of the partition is, which is only asked for where a
    frame is prohibited; the functions with special cursors may have a frame; a
    single ordering element is required only where an order is. *)
Lemma sum_func_switches t :
  (requires_peer_size t → requires_partition_size t) ∧ (requires_partition_size t → is_frame_prohibited t) ∧
  (requires_special_cursors t → is_frame_prohibited t = false) ∧ (only_single_element_order_list t → is_order_list_mandatory t).
Proof. by destruct t. Qed.

End window_properties.
