(* ===== verification/TypeInt.v ===== *)
(** * Signed and unsigned 64-bit values (sql_type_int.h)

    [Longlong_hybrid] holds the result of [val_int()]: 64 bits with the flag that
    says how to read them.  The operations are compared with the integer the
    pair stands for. *)

From S2P Require Import Prelude.
From Stdlib Require Import ZArith Lia.
From stdpp Require Import base numbers.
Open Scope Z_scope.
Open Scope cint_scope.

Module LonglongHybrid.

Definition LONGLONG_MIN : Z := - 2 ^ 63.
Definition LONGLONG_MAX : Z := 2 ^ 63 - 1.

(** [m_value] is a [longlong]. *)
Record Longlong_hybrid := Hybrid { m_value : Z; m_unsigned : bool }.

Definition cmp_signed (h other : Longlong_hybrid) : Z :=
  if decide (m_value h < m_value other) then -1 else if decide (m_value h = m_value other) then 0 else 1.

Definition cmp_unsigned (h other : Longlong_hybrid) : Z :=
  if decide (u64 (m_value h) < u64 (m_value other)) then -1
  else if decide (m_value h = m_value other) then 0 else 1.

Definition value (h : Longlong_hybrid) : Z := m_value h.
Definition is_unsigned (h : Longlong_hybrid) : bool := m_unsigned h.

Definition is_unsigned_outside_of_signed_range (h : Longlong_hybrid) : bool :=
  m_unsigned h && bool_decide (u64 LONGLONG_MAX < u64 (m_value h)).

Definition neg (h : Longlong_hybrid) : bool := bool_decide (m_value h < 0) && negb (m_unsigned h).

(** Negating the least [longlong] would overflow: no result. *)
Definition negate (v : Z) : option Z := if decide (v = LONGLONG_MIN) then None else Some (- v).

Definition abs (h : Longlong_hybrid) : option Z :=
  if m_unsigned h then Some (u64 (m_value h)) else
  if decide (m_value h = LONGLONG_MIN) then Some (u64 (u64 LONGLONG_MAX + 1)) else
  v ← (if decide (m_value h < 0) then negate (m_value h) else Some (m_value h)); Some (u64 v).

Definition to_ulonglong (h : Longlong_hybrid) (upper_bound : Z) : Z :=
  if neg h then 0 else if decide (upper_bound < u64 (m_value h)) then upper_bound else u64 (m_value h).

Definition to_uint (h : Longlong_hybrid) (upper_bound : Z) : Z := u32 (to_ulonglong h upper_bound).

Definition cmp (h other : Longlong_hybrid) : Z :=
  if bool_decide (m_unsigned h = m_unsigned other) then
    if m_unsigned h then cmp_unsigned h other else cmp_signed h other
  else if is_unsigned_outside_of_signed_range h then 1
  else if is_unsigned_outside_of_signed_range other then -1
  else cmp_signed h other.

End LonglongHybrid.

Section longlong_hybrid.
Import LonglongHybrid.

(** The integer a hybrid stands for. *)
Definition denotes (h : Longlong_hybrid) : Z := if m_unsigned h then u64 (m_value h) else m_value h.

(** Every integer either type can represent is the value of a hybrid. *)
Definition hybrid_of (z : Z) : Longlong_hybrid := Hybrid (s64 z) (bool_decide (0 ≤ z)).

Definition hybrid_ok (h : Longlong_hybrid) : Prop := in_s 64 (m_value h).

Lemma u64_of_s64 v : in_s 64 v → u64 v = if decide (0 ≤ v) then v else v + 2 ^ 64.
Proof.
  unfold in_s. intros Hv. case_decide; [apply wrapu_small; unfold in_u; lia|].
  unfold wrapu. rewrite <- (Z.mod_add v 1) by lia. apply Z.mod_small. lia.
Qed.

Lemma hybrid_of_denotes z : LONGLONG_MIN ≤ z < 2 ^ 64 → hybrid_ok (hybrid_of z) ∧ denotes (hybrid_of z) = z.
Proof.
  intros Hz. unfold hybrid_of, hybrid_ok, denotes. cbn [m_value m_unsigned]. split; [apply wraps_range; lia|].
  case_bool_decide.
  - unfold wrapu. rewrite wraps_mod by lia. apply Z.mod_small. lia.
  - apply wraps_small; [lia|]. unfold in_s, LONGLONG_MIN in *. lia.
Qed.

(** Functional: whatever the signedness of the two sides, [cmp] compares the
    integers they stand for. *)
Theorem longlong_hybrid_cmp h1 h2 :
  hybrid_ok h1 → hybrid_ok h2 →
  cmp h1 h2 = match denotes h1 ?= denotes h2 with Lt => -1 | Eq => 0 | Gt => 1 end.
Proof.
  destruct h1 as [v1 s1], h2 as [v2 s2]. unfold hybrid_ok, cmp, denotes, cmp_signed, cmp_unsigned, is_unsigned_outside_of_signed_range.
  cbn [m_value m_unsigned]. intros H1 H2. change (u64 LONGLONG_MAX) with (2 ^ 63 - 1).
  rewrite (u64_of_s64 v1 H1), (u64_of_s64 v2 H2). unfold in_s in *.
  destruct s1, s2; cbn [andb]; repeat case_bool_decide; try done; repeat case_decide; try lia;
    match goal with |- context [?a ?= ?b] => destruct (Z.compare_spec a b) end; done || lia.
Qed.

(** An unsigned [2^64 - 1] is above the signed -1 with the same bits. *)
Lemma longlong_hybrid_cmp_witness :
  cmp (Hybrid (-1) true) (Hybrid (-1) false) = 1 ∧ cmp (Hybrid (-1) false) (Hybrid 5 true) = -1.
Proof. split; (rewrite longlong_hybrid_cmp; [vm_compute; reflexivity|unfold hybrid_ok, in_s; cbn; lia..]). Defined.

(** Bounds: [abs] is the absolute value and never overflows, and the conversions
    to unsigned types clamp the integer between 0 and the bound. *)
Theorem longlong_hybrid_conversions h b :
  hybrid_ok h → 0 ≤ b < 2 ^ 64 →
  abs h = Some (Z.abs (denotes h)) ∧ neg h = bool_decide (denotes h < 0) ∧
  to_ulonglong h b = Z.max 0 (Z.min (denotes h) b) ∧
  (b < 2 ^ 32 → to_uint h b = Z.max 0 (Z.min (denotes h) b)).
Proof.
  destruct h as [v s]. unfold hybrid_ok, denotes. cbn [m_value m_unsigned]. intros Hv Hb.
  assert (to_ulonglong (Hybrid v s) b = Z.max 0 (Z.min (if s then u64 v else v) b)) as E.
  { unfold to_ulonglong, neg. cbn [m_value m_unsigned]. rewrite (u64_of_s64 v Hv). unfold in_s in *.
    destruct s; cbn [negb]; rewrite ?andb_true_r, ?andb_false_r; repeat case_bool_decide; repeat case_decide; lia. }
  split_and!; [| |done|].
  - unfold abs, negate. cbn [m_value m_unsigned]. change (u64 (u64 LONGLONG_MAX + 1)) with (2 ^ 63).
    pose proof (wrapu_range 64 ltac:(lia) v) as Hu. unfold in_u, in_s, LONGLONG_MIN in *.
    destruct s; [f_equal; lia|]. repeat case_decide; cbn [mbind option_bind]; try lia; f_equal; try lia;
      rewrite wrapu_small by (unfold in_u; lia); lia.
  - unfold neg. cbn [m_value m_unsigned]. pose proof (wrapu_range 64 ltac:(lia) v) as Hu. unfold in_u in Hu.
    destruct s; cbn [negb]; rewrite ?andb_true_r, ?andb_false_r; [by rewrite bool_decide_false by lia|done].
  - intros Hb32. unfold to_uint. rewrite E. apply wrapu_small. unfold in_u. lia.
Qed.

Lemma longlong_hybrid_conversions_witness :
  abs (Hybrid LONGLONG_MIN false) = Some (2 ^ 63) ∧ to_ulonglong (Hybrid (-7) false) 10 = 0 ∧
  to_ulonglong (Hybrid (-7) true) 10 = 10.
Proof.
  split_and!.
  - rewrite (proj1 (longlong_hybrid_conversions (Hybrid LONGLONG_MIN false) 0 ltac:(unfold hybrid_ok, in_s, LONGLONG_MIN; cbn [m_value]; lia) ltac:(lia))).
    reflexivity.
  - destruct (longlong_hybrid_conversions (Hybrid (-7) false) 10) as (_ & _ & -> & _);
      [unfold hybrid_ok, in_s; cbn; lia|lia|reflexivity].
  - destruct (longlong_hybrid_conversions (Hybrid (-7) true) 10) as (_ & _ & -> & _);
      [unfold hybrid_ok, in_s; cbn; lia|lia|reflexivity].
Defined.

End longlong_hybrid.
