(* ===== verification/Spatial.v ===== *)
(** * Bounding rectangles and geometry data (spatial.h)

    [MBR], the minimal bounding rectangle that spatial indexes and predicates
    work with, and the bounds checks of [Geometry] and [Gis_point] on the binary
    form.  An [int] that is 0 or 1 is a [bool]. *)

From S2P Require Import Prelude Doubles.
From Stdlib Require Import ZArith Lia SpecFloat.
From stdpp Require Import base numbers option list.
Open Scope Z_scope.
Open Scope cint_scope.

Module Spatial.
Import Double.

Record st_point_2d := Point { x : spec_float; y : spec_float }.

Record MBR := Mbr { xmin : spec_float; ymin : spec_float; xmax : spec_float; ymax : spec_float }.

(** [DBL_MAX] and its opposite. *)
Definition DBL_MAX : spec_float := S754_finite false 9007199254740991 971.
Definition new_MBR : MBR := Mbr DBL_MAX DBL_MAX (SFopp DBL_MAX) (SFopp DBL_MAX).

(** The operators as the code writes them. *)
Definition lt (a b : spec_float) : bool := ltb_d a b.
Definition gt (a b : spec_float) : bool := ltb_d b a.
Definition le (a b : spec_float) : bool := leb_d a b.
Definition ge (a b : spec_float) : bool := leb_d b a.
Definition eq (a b : spec_float) : bool := eqb_d a b.

Definition add_xy (m : MBR) (px py : spec_float) : MBR :=
  let m := if lt px (xmin m) then Mbr px (ymin m) (xmax m) (ymax m) else m in
  let m := if gt px (xmax m) then Mbr (xmin m) (ymin m) px (ymax m) else m in
  let m := if lt py (ymin m) then Mbr (xmin m) py (xmax m) (ymax m) else m in
  if gt py (ymax m) then Mbr (xmin m) (ymin m) (xmax m) py else m.

Definition add_mbr (m mbr : MBR) : MBR :=
  let m := if lt (xmin mbr) (xmin m) then Mbr (xmin mbr) (ymin m) (xmax m) (ymax m) else m in
  let m := if gt (xmax mbr) (xmax m) then Mbr (xmin m) (ymin m) (xmax mbr) (ymax m) else m in
  let m := if lt (ymin mbr) (ymin m) then Mbr (xmin m) (ymin mbr) (xmax m) (ymax m) else m in
  if gt (ymax mbr) (ymax m) then Mbr (xmin m) (ymin m) (xmax m) (ymax mbr) else m.

(** The constructors from two points and from two rectangles. *)
Definition MBR_of_points (min max : st_point_2d) : MBR := Mbr (x min) (y min) (x max) (y max).
Definition MBR_of_mbrs (mbr1 mbr2 : MBR) : MBR := add_mbr (Mbr (xmin mbr1) (ymin mbr1) (xmax mbr1) (ymax mbr1)) mbr2.

Definition buffer (m : MBR) (d : spec_float) : MBR :=
  Mbr (sub_d (xmin m) d) (sub_d (ymin m) d) (add_d (xmax m) d) (add_d (ymax m) d).

Definition equals (m mbr : MBR) : bool :=
  eq (xmin mbr) (xmin m) && eq (ymin mbr) (ymin m) && eq (xmax mbr) (xmax m) && eq (ymax mbr) (ymax m).

Definition disjoint (m mbr : MBR) : bool :=
  gt (xmin mbr) (xmax m) || gt (ymin mbr) (ymax m) || lt (xmax mbr) (xmin m) || lt (ymax mbr) (ymin m).

Definition intersects (m mbr : MBR) : bool := negb (disjoint m mbr).

Definition touches (m mbr : MBR) : bool :=
  ((eq (xmin mbr) (xmax m) || eq (xmax mbr) (xmin m)) &&
   ((ge (ymin mbr) (ymin m) && le (ymin mbr) (ymax m)) || (ge (ymax mbr) (ymin m) && le (ymax mbr) (ymax m)))) ||
  ((eq (ymin mbr) (ymax m) || eq (ymax mbr) (ymin m)) &&
   ((ge (xmin mbr) (xmin m) && le (xmin mbr) (xmax m)) || (ge (xmax mbr) (xmin m) && le (xmax mbr) (xmax m)))).

Definition within (m mbr : MBR) : bool :=
  le (xmin mbr) (xmin m) && le (ymin mbr) (ymin m) && ge (xmax mbr) (xmax m) && ge (ymax mbr) (ymax m).

Definition contains (m mbr : MBR) : bool :=
  ge (xmin mbr) (xmin m) && ge (ymin mbr) (ymin m) && le (xmax mbr) (xmax m) && le (ymax mbr) (ymax m).

Definition inner_point (m : MBR) (px py : spec_float) : bool :=
  lt (xmin m) px && gt (xmax m) px && lt (ymin m) py && gt (ymax m) py.

Definition dimension (m : MBR) : Z :=
  let d := 0 in
  if gt (xmin m) (xmax m) then -1 else
  let d := if lt (xmin m) (xmax m) then d + 1 else d in
  if gt (ymin m) (ymax m) then -1 else
  if lt (ymin m) (ymax m) then d + 1 else d.

Definition MY_MAX (a b : spec_float) : spec_float := if gt a b then a else b.
Definition MY_MIN (a b : spec_float) : spec_float := if lt a b then a else b.

Definition overlaps (m mbr : MBR) : bool :=
  let d := dimension m in
  if bool_decide (d ≠ dimension mbr) || bool_decide (d ≤ 0) || contains m mbr || within m mbr then false else
  let intersection := Mbr (MY_MAX (xmin m) (xmin mbr)) (MY_MAX (ymin m) (ymin mbr))
                          (MY_MIN (xmax m) (xmax mbr)) (MY_MIN (ymax m) (ymax mbr)) in
  bool_decide (d = dimension intersection).

Definition valid (m : MBR) : bool := le (xmin m) (xmax m) && le (ymin m) (ymax m).

(** ** The binary form

    [m_data] and [m_data_end] are addresses; the bytes between them are [bytes]. *)

Definition SIZEOF_STORED_DOUBLE : Z := 8.
Definition POINT_DATA_SIZE : Z := SIZEOF_STORED_DOUBLE * 2.
Definition WKB_HEADER_SIZE : Z := 1 + 4.
Definition wkb_point : Z := 1.
Definition wkb_last : Z := 7.

Record Geometry := Geom { m_data : Z; m_data_end : Z }.

Definition set_data_ptr (data data_len : Z) : Geometry := Geom data (data + data_len).
Definition shift_wkb_header (g : Geometry) : Geometry := Geom (m_data g + WKB_HEADER_SIZE) (m_data_end g).

Definition find_class {A} (ci_collection : list A) (type_id : Z) : option A :=
  if decide (type_id < wkb_point) then None else if decide (wkb_last < type_id) then None
  else ci_collection !! Z.to_nat type_id.

Definition no_data (g : Geometry) (cur_data data_amount : Z) : bool := bool_decide (m_data_end g < cur_data + data_amount).

(** The sum of the two [uint] operands wraps, and a division by zero has no result. *)
Definition not_enough_points (g : Geometry) (data expected_points extra_point_space : Z) : option bool :=
  if decide (m_data_end g < data) then Some true else
  let size := u32 (POINT_DATA_SIZE + extra_point_space) in
  if decide (size = 0) then None else
  Some (bool_decide (Z.quot (m_data_end g - data) size < expected_points)).

(** [float8get] reads the eight bytes at an address; reading outside of the
    bytes of the geometry has no result. *)
Section point.
Context (float8get : Z → spec_float).
Definition read8 (g : Geometry) (a : Z) : option spec_float :=
  if decide (m_data g ≤ a ∧ a + 8 ≤ m_data_end g) then Some (float8get a) else None.

(** The [int] returned, 1 for missing data, with the coordinates that were set. *)
Definition get_xy (g : Geometry) : option (Z * option (spec_float * spec_float)) :=
  let data := m_data g in
  if no_data g data (SIZEOF_STORED_DOUBLE * 2) then Some (1, None) else
  px ← read8 g data; py ← read8 g (data + SIZEOF_STORED_DOUBLE); Some (0, Some (px, py)).

Definition get_x (g : Geometry) : option (Z * option spec_float) :=
  if no_data g (m_data g) SIZEOF_STORED_DOUBLE then Some (1, None) else
  px ← read8 g (m_data g); Some (0, Some px).

Definition get_y (g : Geometry) : option (Z * option spec_float) :=
  let data := m_data g in
  if no_data g data (SIZEOF_STORED_DOUBLE * 2) then Some (1, None) else
  py ← read8 g (data + SIZEOF_STORED_DOUBLE); Some (0, Some py).
End point.

End Spatial.

(** ** Rectangles as sets of points *)

Section mbr.
Import Double Spatial.

Definition mbr_ok (m : MBR) : Prop :=
  is_num (xmin m) = true ∧ is_num (ymin m) = true ∧ is_num (xmax m) = true ∧ is_num (ymax m) = true.

(** The points of the closed rectangle. *)
Definition covers (m : MBR) (p : st_point_2d) : Prop :=
  le (xmin m) (x p) = true ∧ le (x p) (xmax m) = true ∧ le (ymin m) (y p) = true ∧ le (y p) (ymax m) = true.

Definition point_ok (p : st_point_2d) : Prop := is_num (x p) = true ∧ is_num (y p) = true.

(** A rectangle of integers in the order of the coordinates. *)
Record rect := Rect { rx : Z; ry : Z; rX : Z; rY : Z }.
Definition rect_of (m : MBR) : rect := Rect (code (xmin m)) (code (ymin m)) (code (xmax m)) (code (ymax m)).

End mbr.

(** Comparisons of coordinates become comparisons of integers. *)
Ltac coords :=
  repeat match goal with
  | H : mbr_ok ?m |- _ => destruct H as (? & ? & ? & ?)
  | H : point_ok ?p |- _ => destruct H as (? & ?)
  end;
  cbn [Spatial.xmin Spatial.ymin Spatial.xmax Spatial.ymax Spatial.x Spatial.y] in *;
  unfold Spatial.lt, Spatial.gt, Spatial.le, Spatial.ge, Spatial.eq in *;
  rewrite ?ltb_code, ?leb_code, ?eqb_code in * by done.

(** Propositions for the booleans of a goal about coordinates. *)
Ltac bools :=
  rewrite ?negb_orb, ?andb_true_iff, ?orb_true_iff, ?negb_true_iff, ?bool_decide_eq_true, ?bool_decide_eq_false in *.

Section relations.
Import Double Spatial.

Lemma covers_code m p : mbr_ok m → point_ok p →
  covers m p ↔ code (xmin m) ≤ code (x p) ≤ code (xmax m) ∧ code (ymin m) ≤ code (y p) ≤ code (ymax m).
Proof. intros Hm Hp. unfold covers. coords. bools. tauto. Qed.

Lemma contains_code m n : mbr_ok m → mbr_ok n →
  contains m n = true ↔ code (xmin m) ≤ code (xmin n) ∧ code (ymin m) ≤ code (ymin n) ∧
    code (xmax n) ≤ code (xmax m) ∧ code (ymax n) ≤ code (ymax m).
Proof. intros Hm Hn. unfold contains. coords. bools. tauto. Qed.

Lemma valid_code m : mbr_ok m → valid m = true ↔ code (xmin m) ≤ code (xmax m) ∧ code (ymin m) ≤ code (ymax m).
Proof. intros Hm. unfold valid. coords. bools. tauto. Qed.

Lemma intersects_code m n : mbr_ok m → mbr_ok n →
  intersects m n = true ↔ code (xmin n) ≤ code (xmax m) ∧ code (ymin n) ≤ code (ymax m) ∧
    code (xmin m) ≤ code (xmax n) ∧ code (ymin m) ≤ code (ymax n).
Proof. intros Hm Hn. unfold intersects, disjoint. coords. bools. lia. Qed.

Lemma equals_code m n : mbr_ok m → mbr_ok n → equals m n = true ↔ rect_of m = rect_of n.
Proof.
  intros Hm Hn. unfold equals, rect_of. coords. bools. split; [intros (((-> & ->) & ->) & ->); done|].
  intros [= -> -> -> ->]. done.
Qed.

(** The corners of a rectangle, and the corner of an intersection. *)
Lemma corner_ok m : mbr_ok m → point_ok (Point (xmin m) (ymin m)) ∧ point_ok (Point (xmax m) (ymax m)).
Proof. by intros (? & ? & ? & ?). Qed.

Lemma max_code a b : is_num a = true → is_num b = true →
  is_num (MY_MAX a b) = true ∧ code (MY_MAX a b) = Z.max (code a) (code b).
Proof. intros Ha Hb. unfold MY_MAX. coords. case_bool_decide; split; try done; lia. Qed.

Lemma min_code a b : is_num a = true → is_num b = true →
  is_num (MY_MIN a b) = true ∧ code (MY_MIN a b) = Z.min (code a) (code b).
Proof. intros Ha Hb. unfold MY_MIN. coords. case_bool_decide; split; try done; lia. Qed.

(** Functional: on valid rectangles, [intersects] says whether they have a point
    in common and [disjoint] that they have none, [contains] and [within] that
    the points of one are points of the other, [equals] that they have the same
    points. *)
Theorem mbr_predicates_are_set_relations m n :
  mbr_ok m → mbr_ok n → valid m = true → valid n = true →
  (intersects m n = true ↔ ∃ p, point_ok p ∧ covers m p ∧ covers n p) ∧
  (disjoint m n = true ↔ ∀ p, point_ok p → covers m p → ¬ covers n p) ∧
  (contains m n = true ↔ ∀ p, point_ok p → covers n p → covers m p) ∧
  within n m = contains m n ∧
  (equals m n = true ↔ ∀ p, point_ok p → covers m p ↔ covers n p).
Proof.
  intros Hm Hn Vm%valid_code Vn%valid_code; [|done..].
  assert (intersects m n = true ↔ ∃ p, point_ok p ∧ covers m p ∧ covers n p) as Hi.
  { rewrite intersects_code by done. split.
    - intros Hx. destruct (max_code (xmin m) (xmin n)) as [O1 E1], (max_code (ymin m) (ymin n)) as [O2 E2]; try (by apply Hm); try (by apply Hn).
      exists (Point (MY_MAX (xmin m) (xmin n)) (MY_MAX (ymin m) (ymin n))). split; [done|].
      rewrite !covers_code by done. cbn [x y]. lia.
    - intros (p & Hp & Hx & Hy). rewrite covers_code in Hx, Hy by done. lia. }
  assert (∀ a b, mbr_ok a → mbr_ok b → (code (xmin b) ≤ code (xmax b) ∧ code (ymin b) ≤ code (ymax b)) →
            contains a b = true ↔ ∀ p, point_ok p → covers b p → covers a p) as Hc.
  { intros a b Ha Hb Vb. rewrite contains_code by done. split.
    - intros Hx p Hp. rewrite !covers_code by done. lia.
    - intros Hall. destruct (corner_ok b Hb) as [O1 O2].
      pose proof (Hall _ O1) as H1. pose proof (Hall _ O2) as H2. rewrite !covers_code in H1, H2 by done. cbn [x y] in *. lia. }
  split_and!; [done| |by apply Hc| |].
  - split.
    + intros Hd p Hp H1 H2. assert (intersects m n = true) as E by (apply Hi; eauto). unfold intersects in E. by rewrite Hd in E.
    + intros Hall. destruct (disjoint m n) eqn:E; [done|]. destruct (proj1 Hi) as (p & Hp & H1 & H2); [by unfold intersects; rewrite E|].
      by destruct (Hall p Hp H1).
  - unfold within, contains. by coords.
  - rewrite equals_code by done. split.
    + intros [= E1 E2 E3 E4] p Hp. rewrite !covers_code by done. rewrite E1, E2, E3, E4. done.
    + intros Hall. pose proof (proj2 (Hc m n Hm Hn Vn)) as H1. pose proof (proj2 (Hc n m Hn Hm Vm)) as H2.
      specialize (H1 (λ p Hp, proj2 (Hall p Hp))). specialize (H2 (λ p Hp, proj1 (Hall p Hp))).
      rewrite contains_code in H1, H2 by done. unfold rect_of. f_equal; lia.
Qed.

Definition box (a b c d : Z) : MBR := Mbr (of_Z a) (of_Z b) (of_Z c) (of_Z d).

Lemma mbr_predicates_are_set_relations_witness :
  ∃ p, point_ok p ∧ covers (box 0 0 2 2) p ∧ covers (box 1 1 3 3) p.
Proof. by apply (mbr_predicates_are_set_relations (box 0 0 2 2) (box 1 1 3 3)). Defined.

End relations.

(** ** The smallest rectangle *)

Section joins.
Import Double Spatial.

(** Each side is updated on its own. *)
Lemma add_mbr_sides m n :
  add_mbr m n = Mbr (MY_MIN (xmin n) (xmin m)) (MY_MIN (ymin n) (ymin m)) (MY_MAX (xmax n) (xmax m)) (MY_MAX (ymax n) (ymax m)).
Proof.
  destruct m as [a b c d], n as [a' b' c' d']. unfold add_mbr, MY_MIN, MY_MAX. cbn [xmin ymin xmax ymax].
  destruct (lt a' a); cbn [xmin ymin xmax ymax]; destruct (gt c' c); cbn [xmin ymin xmax ymax];
    destruct (lt b' b); cbn [xmin ymin xmax ymax]; by destruct (gt d' d).
Qed.

Lemma add_mbr_code m n : mbr_ok m → mbr_ok n →
  mbr_ok (add_mbr m n) ∧ rect_of (add_mbr m n) =
    Rect (Z.min (code (xmin m)) (code (xmin n))) (Z.min (code (ymin m)) (code (ymin n)))
         (Z.max (code (xmax m)) (code (xmax n))) (Z.max (code (ymax m)) (code (ymax n))).
Proof.
  intros (?&?&?&?) (?&?&?&?). rewrite add_mbr_sides. unfold rect_of, mbr_ok. cbn [xmin ymin xmax ymax].
  destruct (min_code (xmin n) (xmin m) ltac:(done) ltac:(done)) as [? ->], (min_code (ymin n) (ymin m) ltac:(done) ltac:(done)) as [? ->],
    (max_code (xmax n) (xmax m) ltac:(done) ltac:(done)) as [? ->], (max_code (ymax n) (ymax m) ltac:(done) ltac:(done)) as [? ->]; try done.
  split; [done|]. f_equal; lia.
Qed.

(** Adding a point is adding the rectangle of the point. *)
Lemma add_xy_mbr m px py : add_xy m px py = add_mbr m (Mbr px py px py).
Proof. done. Qed.

Definition add_points (m : MBR) (ps : list st_point_2d) : MBR := foldl (λ m p, add_xy m (x p) (y p)) m ps.

Lemma add_points_code ps : ∀ m, mbr_ok m → Forall point_ok ps →
  mbr_ok (add_points m ps) ∧ rect_of (add_points m ps) =
    foldl (λ r p, Rect (Z.min (rx r) (code (x p))) (Z.min (ry r) (code (y p)))
                       (Z.max (rX r) (code (x p))) (Z.max (rY r) (code (y p)))) (rect_of m) ps.
Proof.
  induction ps as [|p ps IH]; intros m Hm Hps; [done|]. apply Forall_cons in Hps as [Hp Hps].
  destruct (add_mbr_code m (Mbr (x p) (y p) (x p) (y p)) Hm) as [Ho E]; [by destruct Hp|].
  destruct (IH (add_xy m (x p) (y p)) Ho Hps) as [Ho' E']. split; [done|].
  cbn [add_points foldl] in *. unfold add_points in E'. rewrite E'. f_equal. by rewrite add_xy_mbr, E.
Qed.

(** A fold of minima and maxima is the least rectangle around the start and the points. *)
Lemma hull_spec ps : ∀ r,
  let h := foldl (λ r p, Rect (Z.min (rx r) (code (x p))) (Z.min (ry r) (code (y p)))
                              (Z.max (rX r) (code (x p))) (Z.max (rY r) (code (y p)))) r ps in
  rx h ≤ rx r ∧ ry h ≤ ry r ∧ rX r ≤ rX h ∧ rY r ≤ rY h ∧
  (∀ p, p ∈ ps → rx h ≤ code (x p) ≤ rX h ∧ ry h ≤ code (y p) ≤ rY h) ∧
  (∀ a b A B, a ≤ rx r → b ≤ ry r → rX r ≤ A → rY r ≤ B →
     (∀ p, p ∈ ps → a ≤ code (x p) ≤ A ∧ b ≤ code (y p) ≤ B) → a ≤ rx h ∧ b ≤ ry h ∧ rX h ≤ A ∧ rY h ≤ B).
Proof.
  induction ps as [|p ps IH]; intros r; cbn [foldl]; cbv zeta.
  - split_and!; try lia; by intros p Hp%elem_of_nil.
  - destruct (IH (Rect (Z.min (rx r) (code (x p))) (Z.min (ry r) (code (y p)))
                       (Z.max (rX r) (code (x p))) (Z.max (rY r) (code (y p))))) as (H1 & H2 & H3 & H4 & Hin & Hle).
    cbn [rx ry rX rY] in *. split_and!; try lia.
    + intros q [->|Hq]%elem_of_cons; [lia|by apply Hin].
    + intros a b A B Ha Hb HA HB Hall. pose proof (Hall p (list_elem_of_here _ _)).
      apply Hle; try lia. intros q Hq. apply Hall. by right.
Qed.

(** Functional: adding points to an empty [MBR] gives a valid rectangle that
    covers them, the smallest such: every rectangle that covers them contains it. *)
Theorem mbr_of_points_least ps :
  ps ≠ [] → Forall point_ok ps →
  Forall (λ p, covers (Mbr (SFopp DBL_MAX) (SFopp DBL_MAX) DBL_MAX DBL_MAX) p) ps →
  let m := add_points new_MBR ps in
  mbr_ok m ∧ valid m = true ∧ Forall (covers m) ps ∧
  ∀ n, mbr_ok n → Forall (covers n) ps → contains n m = true.
Proof.
  intros Hne Hps Hfin m. rewrite Forall_forall in Hps, Hfin.
  destruct (add_points_code ps new_MBR) as [Hm E]; [done|by apply Forall_forall|]. fold m in Hm, E.
  pose proof (hull_spec ps (rect_of new_MBR)) as Hh. cbv zeta in Hh. rewrite <- E in Hh.
  destruct Hh as (_ & _ & _ & _ & Hin & Hle). cbn [rect_of rx ry rX rY] in *.
  assert (Forall (covers m) ps) as Hcov.
  { apply Forall_forall. intros p Hp. rewrite covers_code by auto. by apply Hin. }
  split_and!; [done| |done|].
  - destruct ps as [|p ps]; [done|]. rewrite valid_code by done. destruct (Hin p (list_elem_of_here _ _)). lia.
  - intros n Hn Hall. rewrite Forall_forall in Hall. rewrite contains_code by done.
    assert (∀ p, p ∈ ps → code (xmin n) ≤ code (x p) ≤ code (xmax n) ∧ code (ymin n) ≤ code (y p) ≤ code (ymax n)) as Hc.
    { intros p Hp. apply covers_code; auto. }
    assert (∀ p, p ∈ ps → code (SFopp DBL_MAX) ≤ code (x p) ≤ code DBL_MAX ∧ code (SFopp DBL_MAX) ≤ code (y p) ≤ code DBL_MAX) as Hf.
    { intros p Hp. apply (covers_code (Mbr (SFopp DBL_MAX) (SFopp DBL_MAX) DBL_MAX DBL_MAX)); auto. done. }
    destruct ps as [|p0 ps]; [done|]. pose proof (Hc p0 (list_elem_of_here _ _)). pose proof (Hf p0 (list_elem_of_here _ _)).
    destruct (Hle (Z.min (code (xmin n)) (code DBL_MAX)) (Z.min (code (ymin n)) (code DBL_MAX))
                  (Z.max (code (xmax n)) (code (SFopp DBL_MAX))) (Z.max (code (ymax n)) (code (SFopp DBL_MAX))))
      as (G1 & G2 & G3 & G4); [cbn [new_MBR xmin ymin xmax ymax]; lia..| |lia].
    intros p Hp. specialize (Hc p Hp). lia.
Qed.

Lemma mbr_of_points_least_witness :
  contains (box 0 0 9 9) (add_points new_MBR [Point (of_Z 3) (of_Z 1); Point (of_Z 2) (of_Z 5)]) = true.
Proof.
  apply (mbr_of_points_least [Point (of_Z 3) (of_Z 1); Point (of_Z 2) (of_Z 5)]);
    try done; repeat constructor; done.
Defined.

(** Functional: [add_mbr] is the least upper bound of two rectangles. *)
Theorem mbr_add_is_join m n k :
  mbr_ok m → mbr_ok n → mbr_ok k →
  contains (add_mbr m n) m = true ∧ contains (add_mbr m n) n = true ∧
  (contains k (add_mbr m n) = true ↔ contains k m = true ∧ contains k n = true).
Proof.
  intros Hm Hn Hk. destruct (add_mbr_code m n Hm Hn) as [Ho [= E1 E2 E3 E4]].
  rewrite !contains_code by done. rewrite E1, E2, E3, E4. lia.
Qed.

Lemma mbr_add_is_join_witness : contains (box 0 0 9 9) (add_mbr (box 1 1 2 2) (box 3 0 4 1)) = true.
Proof. by apply (mbr_add_is_join (box 1 1 2 2) (box 3 0 4 1) (box 0 0 9 9)). Defined.

(** ** Overlapping and touching *)

Lemma dimension_code m : mbr_ok m →
  dimension m = if decide (code (xmax m) < code (xmin m) ∨ code (ymax m) < code (ymin m)) then -1
                else b2z (bool_decide (code (xmin m) < code (xmax m))) + b2z (bool_decide (code (ymin m) < code (ymax m))).
Proof.
  intros Hm. unfold dimension. coords. unfold b2z. repeat case_bool_decide; case_decide; cbn; try lia; try tauto.
Qed.

Definition meet (m n : MBR) : MBR :=
  Mbr (MY_MAX (xmin m) (xmin n)) (MY_MAX (ymin m) (ymin n)) (MY_MIN (xmax m) (xmax n)) (MY_MIN (ymax m) (ymax n)).

Lemma meet_code m n : mbr_ok m → mbr_ok n →
  mbr_ok (meet m n) ∧ rect_of (meet m n) =
    Rect (Z.max (code (xmin m)) (code (xmin n))) (Z.max (code (ymin m)) (code (ymin n)))
         (Z.min (code (xmax m)) (code (xmax n))) (Z.min (code (ymax m)) (code (ymax n))).
Proof.
  intros (?&?&?&?) (?&?&?&?). unfold meet, rect_of, mbr_ok. cbn [xmin ymin xmax ymax].
  destruct (max_code (xmin m) (xmin n) ltac:(done) ltac:(done)) as [? ->], (max_code (ymin m) (ymin n) ltac:(done) ltac:(done)) as [? ->],
    (min_code (xmax m) (xmax n) ltac:(done) ltac:(done)) as [? ->], (min_code (ymax m) (ymax n) ltac:(done) ltac:(done)) as [? ->]; done.
Qed.

(** Functional: rectangles that overlap have a point in common, and neither
    contains the other; the relation is symmetric.  Two rectangles with an area
    overlap exactly if neither contains the other and they have a common inner
    region. *)
Theorem mbr_overlaps_spec m n :
  mbr_ok m → mbr_ok n →
  overlaps m n = overlaps n m ∧
  (overlaps m n = true → intersects m n = true ∧ contains m n = false ∧ within m n = false) ∧
  (dimension m = 2 → dimension n = 2 →
     overlaps m n = true ↔ contains m n = false ∧ contains n m = false ∧ dimension (meet m n) = 2).
Proof.
  intros Hm Hn. destruct (meet_code m n Hm Hn) as [Ho [= E1 E2 E3 E4]], (meet_code n m Hn Hm) as [Ho' [= F1 F2 F3 F4]].
  assert (within m n = contains n m) as Ew by (unfold within, contains; by coords).
  assert (within n m = contains m n) as Ew' by (unfold within, contains; by coords).
  assert (dimension (meet m n) = dimension (meet n m)) as Ed.
  { rewrite !dimension_code by done. cbn [meet xmin ymin xmax ymax]. rewrite E1, E2, E3, E4, F1, F2, F3, F4.
    rewrite (Z.max_comm (code (xmin n))), (Z.max_comm (code (ymin n))), (Z.min_comm (code (xmax n))), (Z.min_comm (code (ymax n))). done. }
  unfold overlaps. fold (meet m n) (meet n m). rewrite Ew, Ew', <- Ed. split_and!.
  - destruct (decide (dimension m = dimension n)) as [->|Hne].
    + rewrite !(bool_decide_false (_ ≠ _)) by (intros H; by apply H). cbn [orb].
      destruct (contains m n), (contains n m); by rewrite ?orb_true_r, ?orb_false_r.
    + rewrite !(bool_decide_true (_ ≠ _)) by congruence. done.
  - destruct (bool_decide (dimension m ≠ dimension n)), (bool_decide (dimension m ≤ 0)) eqn:Hd, (contains m n), (contains n m); try done.
    cbn [orb]. rewrite bool_decide_eq_true. apply bool_decide_eq_false in Hd. intros E. split_and!; try done.
    rewrite intersects_code by done. pose proof (dimension_code (meet m n) Ho) as D.
    cbn [meet xmin ymin xmax ymax] in D. rewrite E1, E2, E3, E4 in D. case_decide; lia.
  - intros -> ->. rewrite (bool_decide_false (2 ≠ 2)) by (intros H; by apply H). rewrite (bool_decide_false (2 ≤ 0)) by lia. cbn [orb].
    destruct (contains m n), (contains n m); cbn [orb]; rewrite ?bool_decide_eq_true; intuition congruence.
Qed.

Lemma mbr_overlaps_spec_witness : overlaps (box 0 0 2 2) (box 1 1 3 3) = true.
Proof. apply (mbr_overlaps_spec (box 0 0 2 2) (box 1 1 3 3)); done. Defined.

(** [touches] is not symmetric: a rectangle next to a taller one does not touch
    it, while the taller one touches the rectangle. *)
Lemma mbr_touches_not_symmetric :
  touches (box 0 1 1 2) (box 1 0 2 3) = false ∧ touches (box 1 0 2 3) (box 0 1 1 2) = true.
Proof. vm_compute. done. Qed.

End joins.

(** ** Bounds checks of the binary form *)

Section geometry.
Import Spatial.

(** Bounds: after the checks no read of [Gis_point] leaves the data: the three
    getters always have a result, an error code exactly where the data is too
    short.  Where [not_enough_points] is false, the points with their extra space
    fit the data, for every 32-bit number of points and no overflow. *)
Theorem geometry_bounds_checked float8get g data n extra :
  m_data g ≤ m_data_end g → in_u 32 n → 0 ≤ extra < 2 ^ 32 - 16 →
  (∃ r, get_xy float8get g = Some r ∧ (r.1 = 1 ↔ m_data_end g < m_data g + 16)) ∧
  (∃ r, get_x float8get g = Some r ∧ (r.1 = 1 ↔ m_data_end g < m_data g + 8)) ∧
  (∃ r, get_y float8get g = Some r ∧ (r.1 = 1 ↔ m_data_end g < m_data g + 16)) ∧
  (∃ b, not_enough_points g data n extra = Some b ∧ (b = false ↔ data ≤ m_data_end g ∧ data + n * (16 + extra) ≤ m_data_end g)).
Proof.
  intros Hg Hn He. unfold get_xy, get_x, get_y, no_data, read8, SIZEOF_STORED_DOUBLE. split_and!.
  - case_bool_decide; [eexists; split; [done|]; cbn; lia|]. rewrite !decide_True by lia. cbn. eexists. split; [done|]. cbn. lia.
  - case_bool_decide; [eexists; split; [done|]; cbn; lia|]. rewrite !decide_True by lia. cbn. eexists. split; [done|]. cbn. lia.
  - case_bool_decide; [eexists; split; [done|]; cbn; lia|]. rewrite !decide_True by lia. cbn. eexists. split; [done|]. cbn. lia.
  - unfold not_enough_points, POINT_DATA_SIZE, SIZEOF_STORED_DOUBLE. unfold in_u in Hn.
    case_decide; [eexists; split; [done|]; split; [done|lia]|].
    rewrite (wrapu_small 32) by (unfold in_u; lia). rewrite decide_False by lia.
    eexists. split; [done|]. rewrite bool_decide_eq_false, Z.quot_div_nonneg by lia.
    pose proof (Z.div_mod (m_data_end g - data) (8 * 2 + extra) ltac:(lia)).
    pose proof (Z.mod_pos_bound (m_data_end g - data) (8 * 2 + extra) ltac:(lia)). nia.
Qed.

Lemma geometry_bounds_checked_witness :
  ∃ b, not_enough_points (set_data_ptr 1000 48) 1000 3 0 = Some b ∧ b = false.
Proof.
  destruct (geometry_bounds_checked (λ _, S754_zero false) (set_data_ptr 1000 48) 1000 3 0) as (_ & _ & _ & b & Hb & Hf).
  - cbn. lia.
  - unfold in_u. lia.
  - lia.
  - exists b. split; [exact Hb|]. apply Hf. cbn. lia.
Defined.

End geometry.
