(* ===== verification/RangeOpt.v ===== *)
(** * Intervals of the range optimizer (opt_range.h)

    [SEL_ARG], an interval of values of a key part, with the operations that cut
    and join intervals and those that write the bounds of a graph of intervals
    into key buffers, and the endpoints of [QUICK_RANGE].  The values a pointer
    refers to are the bytes there.  The comparison of bounds [sel_cmp], the
    virtual [key_cmp] and the constructor are outside of the headers: the
    interface [SelExt] with its laws. *)

From S2P Require Import Prelude.
From Stdlib Require Import ZArith Lia.
From stdpp Require Import base numbers option list gmap.
Open Scope Z_scope.
Open Scope cint_scope.

Module SelArg.

(** ** Flags of a bound (my_base.h) *)

Definition NO_MIN_RANGE : Z := 1.
Definition NO_MAX_RANGE : Z := 2.
Definition NEAR_MIN : Z := 4.
Definition NEAR_MAX : Z := 8.
Definition EQ_RANGE : Z := 32.
Definition GEOM_FLAG : Z := 128.

(** [flag & bits], as a condition. *)
Definition has (flag bits : Z) : bool := bool_decide (flag .& bits ≠ 0).

Inductive leaf_color := BLACK | RED.
Inductive Type_ := IMPOSSIBLE | MAYBE | MAYBE_KEY | KEY_RANGE.
#[global] Instance Type_eq_dec : EqDecision Type_.
Proof. solve_decision. Defined.

(** Links are addresses of other objects, 0 being null. *)
Record SEL_ARG {Field : Type} := Sel {
  min_flag : Z; max_flag : Z; maybe_flag : Z; part : Z; maybe_null : Z; elements : Z; use_count : Z;
  field : Field; min_value : list Z; max_value : list Z;
  left : N; right : N; next : N; prev : N; parent : N; next_key_part : N; color : leaf_color; type : Type_ }.
Arguments SEL_ARG : clear implicits.

Class SelExt := {
  Field : Type;
  (** [sel_cmp(field, a, b, a_flag, b_flag)] *)
  sel_cmp : Field → list Z → list Z → Z → Z → Z;
  (** [field->key_cmp(a, b)] *)
  key_cmp : Field → list Z → list Z → Z;
  (** [SEL_ARG(field, part, min_value, max_value, min_flag, max_flag, maybe_flag)] *)
  new_SEL_ARG : Field → Z → list Z → list Z → Z → Z → Z → SEL_ARG Field }.

Section operations.
Context `{SelExt}.
Abbreviation sel_arg := (SEL_ARG Field).

Definition cmp_min_to_min (s arg : sel_arg) : Z := sel_cmp (field s) (min_value s) (min_value arg) (min_flag s) (min_flag arg).
Definition cmp_min_to_max (s arg : sel_arg) : Z := sel_cmp (field s) (min_value s) (max_value arg) (min_flag s) (max_flag arg).
Definition cmp_max_to_max (s arg : sel_arg) : Z := sel_cmp (field s) (max_value s) (max_value arg) (max_flag s) (max_flag arg).
Definition cmp_max_to_min (s arg : sel_arg) : Z := sel_cmp (field s) (max_value s) (min_value arg) (max_flag s) (min_flag arg).

Definition is_same (s arg : sel_arg) : bool :=
  if bool_decide (type s ≠ type arg) || bool_decide (part s ≠ part arg) then false else
  if decide (type s ≠ KEY_RANGE) then true else
  bool_decide (cmp_min_to_min s arg = 0) && bool_decide (cmp_max_to_max s arg = 0).

(** Assignments to the members the operations change. *)
Definition set_min (s : sel_arg) (v : list Z) (f : Z) : sel_arg :=
  Sel _ f (max_flag s) (maybe_flag s) (part s) (maybe_null s) (elements s) (use_count s) (field s) v (max_value s)
    (left s) (right s) (next s) (prev s) (parent s) (next_key_part s) (color s) (type s).
Definition set_max (s : sel_arg) (v : list Z) (f : Z) : sel_arg :=
  Sel _ (min_flag s) f (maybe_flag s) (part s) (maybe_null s) (elements s) (use_count s) (field s) (min_value s) v
    (left s) (right s) (next s) (prev s) (parent s) (next_key_part s) (color s) (type s).
Definition set_maybe (s : sel_arg) (m : Z) : sel_arg :=
  Sel _ (min_flag s) (max_flag s) m (part s) (maybe_null s) (elements s) (use_count s) (field s) (min_value s) (max_value s)
    (left s) (right s) (next s) (prev s) (parent s) (next_key_part s) (color s) (type s).

Definition merge_flags (s arg : sel_arg) : sel_arg := set_maybe s (maybe_flag s .| maybe_flag arg).
Definition maybe_smaller (s : sel_arg) : sel_arg := set_maybe s 1.

(** Reading the first byte of a value; none where there is no byte. *)
Definition is_null_interval (s : sel_arg) : option bool :=
  if decide (maybe_null s = 0) then Some false else b ← head (max_value s); Some (bool_decide (b = 1)).

Definition clone_and (s arg : sel_arg) : sel_arg :=
  let '(new_min, flag_min) := if decide (0 ≤ cmp_min_to_min s arg) then (min_value s, min_flag s)
                              else (min_value arg, min_flag arg) in
  let '(new_max, flag_max) := if decide (cmp_max_to_max s arg ≤ 0) then (max_value s, max_flag s)
                              else (max_value arg, max_flag arg) in
  new_SEL_ARG (field s) (part s) new_min new_max flag_min flag_max
    (b2z (bool_decide (maybe_flag s ≠ 0) && bool_decide (maybe_flag arg ≠ 0))).

Definition clone_first (s arg : sel_arg) : sel_arg :=
  new_SEL_ARG (field s) (part s) (min_value s) (min_value arg)
    (min_flag s) (if has (min_flag arg) NEAR_MIN then 0 else NEAR_MAX) (maybe_flag s .| maybe_flag arg).

Definition clone_last (s arg : sel_arg) : sel_arg :=
  new_SEL_ARG (field s) (part s) (min_value s) (max_value arg) (min_flag s) (max_flag arg) (maybe_flag s .| maybe_flag arg).

(** The object after the call, with the value returned. *)
Definition copy_min (s arg : sel_arg) : sel_arg * bool :=
  let s' := set_min s (min_value arg) (min_flag arg) in
  if decide (0 < cmp_min_to_min s arg) then
    if bool_decide (max_flag s' .& (NO_MAX_RANGE .| NO_MIN_RANGE) = NO_MAX_RANGE .| NO_MIN_RANGE) then (s', true)
    else (merge_flags s' arg, false)
  else (merge_flags s arg, false).

Definition copy_max (s arg : sel_arg) : sel_arg * bool :=
  let s' := set_max s (max_value arg) (max_flag arg) in
  if decide (cmp_max_to_max s arg ≤ 0) then
    if bool_decide (max_flag s' .& (NO_MAX_RANGE .| NO_MIN_RANGE) = NO_MAX_RANGE .| NO_MIN_RANGE) then (s', true)
    else (merge_flags s' arg, false)
  else (merge_flags s arg, false).

Definition copy_min_to_min (s arg : sel_arg) : sel_arg := set_min s (min_value arg) (min_flag arg).
Definition copy_min_to_max (s arg : sel_arg) : sel_arg :=
  set_max s (min_value arg) (if has (min_flag arg) NEAR_MIN then 0 else NEAR_MAX).
Definition copy_max_to_min (s arg : sel_arg) : sel_arg :=
  set_min s (max_value arg) (if has (max_flag arg) NEAR_MAX then 0 else NEAR_MIN).

Definition simple_key (s : sel_arg) : bool := bool_decide (next_key_part s = 0%N) && bool_decide (elements s = 1).

Definition is_singlepoint (s : sel_arg) : option bool :=
  if bool_decide (min_flag s ≠ 0) || bool_decide (max_flag s ≠ 0) then Some false else
  if decide (maybe_null s ≠ 0) then
    a ← head (min_value s); b ← head (max_value s);
    if decide (a ≠ b) then Some false else
    if decide (a ≠ 0) then Some true else
    Some (bool_decide (key_cmp (field s) (tail (min_value s)) (tail (max_value s)) = 0))
  else Some (bool_decide (key_cmp (field s) (min_value s) (max_value s) = 0)).

(** ** Lists of intervals: [next], over the objects at their addresses *)

Definition graph : Type := gmap N sel_arg.

Fixpoint same_loop (fuel : nat) (g : graph) (cur_arg cmp_arg : N) : option bool :=
  match fuel with
  | O => None
  | S fuel =>
      if decide (cur_arg ≠ 0%N ∧ cmp_arg ≠ 0%N) then
        a ← g !! cur_arg; b ← g !! cmp_arg;
        if is_same a b then same_loop fuel g (next a) (next b) else Some false
      else Some (bool_decide (cur_arg = 0%N ∧ cmp_arg = 0%N))
  end.

(** [first]: the leftmost object of a tree, outside of the headers. *)
Definition all_same (fuel : nat) (first : N → N) (g : graph) (this arg : N) : option bool :=
  s ← g !! this; a ← g !! arg;
  if bool_decide (type s ≠ type a) || bool_decide (part s ≠ part a) then Some false else
  if decide (type s ≠ KEY_RANGE) then Some true else
  if decide (arg = this) then Some true else
  same_loop fuel g (first this) (first arg).

(** ** Key buffers: the bytes, and the position of the pointer in them *)

Definition put (mem : list Z) (pos : nat) (bytes : list Z) : option (list Z) :=
  if decide (pos + length bytes ≤ length mem)%nat
  then Some (take pos mem ++ bytes ++ drop (pos + length bytes) mem) else None.

(** What is written for a value: the NULL mark followed by zeros, or the value's
    bytes; [bzero] of [length - 1] bytes needs a length that is not 0. *)
Definition image (maybe_null : Z) (value : list Z) (len : nat) : option (list Z) :=
  null ← (if decide (maybe_null = 0) then Some false else b ← head value; Some (bool_decide (b ≠ 0)));
  if null : bool then match len with O => None | S n => Some (1 :: replicate n 0) end
  else if decide (len ≤ length value)%nat then Some (take len value) else None.

(** The number returned, with the bytes and the position. *)
Definition store_min (s : sel_arg) (len : nat) (mem : list Z) (pos : nat) (min_key_flag : Z) : option (Z * list Z * nat) :=
  if has (min_flag s) GEOM_FLAG ||
     (negb (has (min_flag s) NO_MIN_RANGE) && negb (has min_key_flag (NO_MIN_RANGE .| NEAR_MIN))) then
    img ← image (maybe_null s) (min_value s) len; mem ← put mem pos img; Some (1, mem, (pos + len)%nat)
  else Some (0, mem, pos).

Definition store_max (s : sel_arg) (len : nat) (mem : list Z) (pos : nat) (max_key_flag : Z) : option (Z * list Z * nat) :=
  if negb (has (max_flag s) NO_MAX_RANGE) && negb (has max_key_flag (NO_MAX_RANGE .| NEAR_MAX)) then
    img ← image (maybe_null s) (max_value s) len; mem ← put mem pos img; Some (1, mem, (pos + len)%nat)
  else Some (0, mem, pos).

(** [store_min_key] and [store_max_key] differ in the end of the interval list
    they take, in [store_min] or [store_max], and in the flags: [key] are the
    store lengths of the key parts, [flag] is what [range_key_flag] refers to. *)
Fixpoint store_min_key (fuel : nat) (first : N → N) (g : graph) (key : list nat) (this : N)
    (mem : list Z) (pos : nat) (flag : Z) (last_part : Z) : option (Z * list Z * nat * Z) :=
  match fuel with
  | O => None
  | S fuel =>
      key_tree ← g !! first this;
      len ← key !! Z.to_nat (part key_tree);
      '(res, mem, pos) ← store_min key_tree len mem pos flag;
      let flag := u32 (flag .| min_flag key_tree) in
      if decide (next_key_part key_tree ≠ 0%N) then
        nkp ← g !! next_key_part key_tree;
        if bool_decide (type nkp = KEY_RANGE) && bool_decide (part key_tree ≠ last_part) &&
           bool_decide (part nkp = part key_tree + 1) && negb (has flag (NO_MIN_RANGE .| NEAR_MIN)) then
          '(r, mem, pos, flag) ← store_min_key fuel first g key (next_key_part key_tree) mem pos flag last_part;
          Some (u32 (res + r), mem, pos, flag)
        else Some (res, mem, pos, flag)
      else Some (res, mem, pos, flag)
  end.

Fixpoint store_max_key (fuel : nat) (last : N → N) (g : graph) (key : list nat) (this : N)
    (mem : list Z) (pos : nat) (flag : Z) (last_part : Z) : option (Z * list Z * nat * Z) :=
  match fuel with
  | O => None
  | S fuel =>
      key_tree ← g !! last this;
      len ← key !! Z.to_nat (part key_tree);
      '(res, mem, pos) ← store_max key_tree len mem pos flag;
      let flag := u32 (flag .| max_flag key_tree) in
      if decide (next_key_part key_tree ≠ 0%N) then
        nkp ← g !! next_key_part key_tree;
        if bool_decide (type nkp = KEY_RANGE) && bool_decide (part key_tree ≠ last_part) &&
           bool_decide (part nkp = part key_tree + 1) && negb (has flag (NO_MAX_RANGE .| NEAR_MAX)) then
          '(r, mem, pos, flag) ← store_max_key fuel last g key (next_key_part key_tree) mem pos flag last_part;
          Some (u32 (res + r), mem, pos, flag)
        else Some (res, mem, pos, flag)
      else Some (res, mem, pos, flag)
  end.

End operations.

(** ** QUICK_RANGE *)

Inductive ha_rkey_function :=
  | HA_READ_KEY_EXACT | HA_READ_KEY_OR_NEXT | HA_READ_KEY_OR_PREV | HA_READ_AFTER_KEY | HA_READ_BEFORE_KEY
  | HA_READ_PREFIX | HA_READ_PREFIX_LAST | HA_READ_PREFIX_LAST_OR_PREV | HA_READ_MBR_CONTAIN
  | HA_READ_MBR_INTERSECT | HA_READ_MBR_WITHIN | HA_READ_MBR_DISJOINT | HA_READ_MBR_EQUAL.

Record QUICK_RANGE := Quick {
  min_key : list Z; max_key : list Z; min_length : Z; max_length : Z; q_flag : Z;
  min_keypart_map : Z; max_keypart_map : Z }.

Record key_range := KeyRange { kr_key : list Z; kr_length : Z; kr_keypart_map : Z; kr_flag : ha_rkey_function }.

(** The constructor copies one byte more than the length of each key. *)
Definition new_QUICK_RANGE (min_key_arg : list Z) (min_length_arg min_keypart_map_arg : Z)
    (max_key_arg : list Z) (max_length_arg max_keypart_map_arg flag_arg : Z) : option QUICK_RANGE :=
  let memdup (p : list Z) (n : Z) :=
    if decide (Z.to_nat n ≤ length p)%nat then Some (take (Z.to_nat n) p) else None in
  a ← memdup min_key_arg (u32 (min_length_arg + 1)); b ← memdup max_key_arg (u32 (max_length_arg + 1));
  Some (Quick a b (u16 min_length_arg) (u16 max_length_arg) (u16 flag_arg) min_keypart_map_arg max_keypart_map_arg).

Definition make_min_endpoint (q : QUICK_RANGE) : key_range :=
  KeyRange (min_key q) (min_length q) (min_keypart_map q)
    (if has (q_flag q) NEAR_MIN then HA_READ_AFTER_KEY
     else if has (q_flag q) EQ_RANGE then HA_READ_KEY_EXACT else HA_READ_KEY_OR_NEXT).

Definition make_max_endpoint (q : QUICK_RANGE) : key_range :=
  KeyRange (max_key q) (max_length q) (max_keypart_map q)
    (if has (q_flag q) NEAR_MAX then HA_READ_BEFORE_KEY else HA_READ_AFTER_KEY).

(** [MY_MIN(kr->length, prefix_length)] and [kr->keypart_map&= keypart_map] *)
Definition restrict (kr : key_range) (prefix_length keypart_map : Z) : key_range :=
  KeyRange (kr_key kr) (if decide (kr_length kr < prefix_length) then kr_length kr else prefix_length)
    (kr_keypart_map kr .& keypart_map) (kr_flag kr).
Definition make_min_endpoint_prefix (q : QUICK_RANGE) (prefix_length keypart_map : Z) : key_range :=
  restrict (make_min_endpoint q) prefix_length keypart_map.
Definition make_max_endpoint_prefix (q : QUICK_RANGE) (prefix_length keypart_map : Z) : key_range :=
  restrict (make_max_endpoint q) prefix_length keypart_map.

End SelArg.

(** ** Bounds as cuts of the ordered keys *)

Section cuts.
Import SelArg.

(** A cut below all keys, above all keys, or at the key of rank [k]: before it
    ([-1]), on it ([0]) or behind it ([1]). *)
Inductive cut := CMin | CAt (k d : Z) | CMax.

Definition cle (a b : cut) : Prop :=
  match a, b with
  | CMin, _ | _, CMax => True
  | CAt k d, CAt k' d' => k < k' ∨ (k = k' ∧ d ≤ d')
  | _, _ => False
  end.
#[global] Instance cle_dec a b : Decision (cle a b).
Proof. destruct a, b; cbn; apply _. Defined.

Lemma cle_total a b : cle a b ∨ cle b a.
Proof. destruct a, b; cbn; try tauto; lia. Qed.
Lemma cle_trans a b c : cle a b → cle b c → cle a c.
Proof. destruct a, b, c; cbn; try tauto; lia. Qed.
#[global] Instance cle_preorder : PreOrder cle.
Proof. split; [intros []; cbn; try tauto; lia|intros a b c; apply cle_trans]. Qed.

(** The cut of a bound: what the flags of the header say. *)
Definition cut_of (keyval : list Z → Z) (v : list Z) (flag : Z) : cut :=
  if has flag NO_MIN_RANGE then CMin else
  if has flag NO_MAX_RANGE then CMax else
  CAt (keyval v) (if has flag NEAR_MIN then 1 else if has flag NEAR_MAX then -1 else 0).

(** A lower bound has none of the flags of an upper one, and vice versa. *)
Definition lower_ok (flag : Z) : bool := negb (has flag NO_MAX_RANGE) && negb (has flag NEAR_MAX).
Definition upper_ok (flag : Z) : bool := negb (has flag NO_MIN_RANGE) && negb (has flag NEAR_MIN).

End cuts.

(** The rank of a value in the order of a field, and whether the field can be
    NULL.  What the operations rely on: [sel_cmp] compares the cuts of two bounds,
    [key_cmp] tells values apart as the ranks do, NULL being one value, and the
    constructor sets its arguments. *)
Class SelOrder `{SelArg.SelExt} := {
  keyval : SelArg.Field → list Z → Z;
  nullable : SelArg.Field → bool }.

Class SelExt_laws `{SelOrder} : Prop := {
  sel_cmp_ge f a b fa fb : 0 ≤ SelArg.sel_cmp f a b fa fb ↔ cle (cut_of (keyval f) b fb) (cut_of (keyval f) a fa);
  sel_cmp_le f a b fa fb : SelArg.sel_cmp f a b fa fb ≤ 0 ↔ cle (cut_of (keyval f) a fa) (cut_of (keyval f) b fb);
  key_cmp_plain f a b : nullable f = false → SelArg.key_cmp f a b = 0 ↔ keyval f a = keyval f b;
  key_cmp_value f a b : nullable f = true → SelArg.key_cmp f a b = 0 ↔ keyval f (0 :: a) = keyval f (0 :: b);
  keyval_null f x y a b : nullable f = true → x ≠ 0 → y ≠ 0 → keyval f (x :: a) = keyval f (y :: b);
  new_SEL_ARG_members f p mn mx fmn fmx m : let s := SelArg.new_SEL_ARG f p mn mx fmn fmx m in
    SelArg.field s = f ∧ SelArg.part s = p ∧ SelArg.min_value s = mn ∧ SelArg.max_value s = mx ∧
    SelArg.min_flag s = fmn ∧ SelArg.max_flag s = fmx ∧ SelArg.maybe_flag s = m ∧ SelArg.type s = SelArg.KEY_RANGE }.

(** Evaluate the tests of constant flags. *)
Ltac flags :=
  repeat match goal with
  | |- context [SelArg.has ?a ?b] =>
      let v := eval vm_compute in (SelArg.has a b) in
      lazymatch v with true => idtac | false => idtac end; change (SelArg.has a b) with v
  end.

Section intervals.
Import SelArg.
Context `{HL : SelExt_laws}.
Abbreviation sel := (SEL_ARG Field).

Definition lower (s : sel) : cut := cut_of (keyval (field s)) (min_value s) (min_flag s).
Definition upper (s : sel) : cut := cut_of (keyval (field s)) (max_value s) (max_flag s).

(** The keys of rank [x] of the interval. *)
Definition above_min (s : sel) (x : Z) : Prop := cle (lower s) (CAt x 0).
Definition below_max (s : sel) (x : Z) : Prop := cle (CAt x 0) (upper s).
Definition holds (s : sel) (x : Z) : Prop := above_min s x ∧ below_max s x.

Definition sel_ok (s : sel) : Prop := lower_ok (min_flag s) = true ∧ upper_ok (max_flag s) = true.

Lemma new_bounds f p mn mx fmn fmx m :
  lower (new_SEL_ARG f p mn mx fmn fmx m) = cut_of (keyval f) mn fmn ∧
  upper (new_SEL_ARG f p mn mx fmn fmx m) = cut_of (keyval f) mx fmx.
Proof using HL.
  destruct (new_SEL_ARG_members f p mn mx fmn fmx m) as (E1 & _ & E2 & E3 & E4 & E5 & _).
  unfold lower, upper. by rewrite E1, E2, E3, E4, E5.
Qed.

(** The greater of two lower cuts is above a key exactly if both are. *)
Lemma lower_max a b x : cle a b → cle b (CAt x 0) ↔ cle a (CAt x 0) ∧ cle b (CAt x 0).
Proof using Type. intros Hab. split; [|tauto]. intros Hb. split; [by etrans|done]. Qed.
Lemma upper_min a b x : cle a b → cle (CAt x 0) a ↔ cle (CAt x 0) a ∧ cle (CAt x 0) b.
Proof using Type. intros Hab. split; [|tauto]. intros Ha. split; [done|by etrans]. Qed.

Lemma cmp_min_to_min_spec s arg : field arg = field s →
  (0 ≤ cmp_min_to_min s arg ↔ cle (lower arg) (lower s)) ∧ (cmp_min_to_min s arg ≤ 0 ↔ cle (lower s) (lower arg)).
Proof using HL. intros Hf. unfold cmp_min_to_min, lower. rewrite Hf. split; [apply sel_cmp_ge|apply sel_cmp_le]. Qed.

Lemma cmp_max_to_max_spec s arg : field arg = field s →
  (0 ≤ cmp_max_to_max s arg ↔ cle (upper arg) (upper s)) ∧ (cmp_max_to_max s arg ≤ 0 ↔ cle (upper s) (upper arg)).
Proof using HL. intros Hf. unfold cmp_max_to_max, upper. rewrite Hf. split; [apply sel_cmp_ge|apply sel_cmp_le]. Qed.

Lemma clone_and_bounds s arg : field arg = field s →
  lower (clone_and s arg) = (if decide (0 ≤ cmp_min_to_min s arg) then lower s else lower arg) ∧
  upper (clone_and s arg) = (if decide (cmp_max_to_max s arg ≤ 0) then upper s else upper arg).
Proof using HL.
  intros Hf. unfold clone_and. case_decide; case_decide;
    match goal with |- context [new_SEL_ARG ?f ?p ?a ?b ?c ?d ?e] => destruct (new_bounds f p a b c d e) as [-> ->] end;
    unfold lower, upper; by rewrite ?Hf.
Qed.

(** The bounds with which an interval ends just before, or starts just behind,
    another one. *)
Lemma cut_complement (kv : list Z → Z) v flag x : lower_ok flag = true → has flag NO_MIN_RANGE = false →
  cle (CAt x 0) (cut_of kv v (if has flag NEAR_MIN then 0 else NEAR_MAX)) ↔ ¬ cle (cut_of kv v flag) (CAt x 0).
Proof using Type.
  unfold lower_ok. intros [H1%negb_true_iff H2%negb_true_iff]%andb_true_iff H3.
  unfold cut_of. rewrite H1, H2, H3. destruct (has flag NEAR_MIN); flags; cbn; lia.
Qed.

Lemma cut_complement_max (kv : list Z → Z) v flag x : upper_ok flag = true → has flag NO_MAX_RANGE = false →
  cle (cut_of kv v (if has flag NEAR_MAX then 0 else NEAR_MIN)) (CAt x 0) ↔ ¬ cle (CAt x 0) (cut_of kv v flag).
Proof using Type.
  unfold upper_ok. intros [H1%negb_true_iff H2%negb_true_iff]%andb_true_iff H3.
  unfold cut_of. rewrite H1, H2, H3. destruct (has flag NEAR_MAX); flags; cbn; lia.
Qed.

End intervals.

Section interval_properties.
Import SelArg.

(** Functional: [clone_and] is the intersection of two intervals of a field. *)
Theorem sel_arg_clone_and_intersection `{HL : SelExt_laws} (s arg : SEL_ARG Field) x :
  field arg = field s → holds (clone_and s arg) x ↔ holds s x ∧ holds arg x.
Proof.
  intros Hf. destruct (clone_and_bounds s arg Hf) as [El Eu]. unfold holds, above_min, below_max. rewrite El, Eu. clear El Eu.
  destruct (cmp_min_to_min_spec s arg Hf) as [Hge _], (cmp_max_to_max_spec s arg Hf) as [_ Hle].
  assert (cle (if decide (0 ≤ cmp_min_to_min s arg) then lower s else lower arg) (CAt x 0) ↔
          cle (lower s) (CAt x 0) ∧ cle (lower arg) (CAt x 0)) as ->.
  { case_decide as Hd.
    - apply Hge in Hd. rewrite (lower_max (lower arg) (lower s)) by done. tauto.
    - destruct (cle_total (lower arg) (lower s)); [tauto|]. rewrite (lower_max (lower s) (lower arg)) by done. tauto. }
  assert (cle (CAt x 0) (if decide (cmp_max_to_max s arg ≤ 0) then upper s else upper arg) ↔
          cle (CAt x 0) (upper s) ∧ cle (CAt x 0) (upper arg)) as ->.
  { case_decide as Hd.
    - apply Hle in Hd. rewrite (upper_min (upper s) (upper arg)) by done. tauto.
    - destruct (cle_total (upper s) (upper arg)); [tauto|]. rewrite (upper_min (upper arg) (upper s)) by done. tauto. }
  tauto.
Qed.

(** Functional: an interval is cut at another one.  [clone_first] and
    [copy_min_to_max] keep the keys before the lower bound of [arg] (which has
    one), [copy_max_to_min] those behind its upper bound, and [clone_last] those
    up to its upper bound. *)
Theorem sel_arg_split `{HL : SelExt_laws} (s arg : SEL_ARG Field) x :
  field arg = field s → sel_ok arg →
  (has (min_flag arg) NO_MIN_RANGE = false →
     (holds (clone_first s arg) x ↔ above_min s x ∧ ¬ above_min arg x) ∧
     (holds (copy_min_to_max s arg) x ↔ above_min s x ∧ ¬ above_min arg x)) ∧
  (has (max_flag arg) NO_MAX_RANGE = false →
     holds (copy_max_to_min s arg) x ↔ ¬ below_max arg x ∧ below_max s x) ∧
  (holds (clone_last s arg) x ↔ above_min s x ∧ below_max arg x).
Proof.
  intros Hf [Hlo Hup]. unfold holds, above_min, below_max. split_and!.
  - intros Hn. pose proof (cut_complement (keyval (field arg)) (min_value arg) (min_flag arg) x Hlo Hn) as E.
    split.
    + unfold clone_first. destruct (new_bounds (field s) (part s) (min_value s) (min_value arg) (min_flag s)
        (if has (min_flag arg) NEAR_MIN then 0 else NEAR_MAX) (maybe_flag s .| maybe_flag arg)) as [-> ->].
      rewrite <- Hf at 2. rewrite E. done.
    + change (upper (copy_min_to_max s arg)) with
        (cut_of (keyval (field s)) (min_value arg) (if has (min_flag arg) NEAR_MIN then 0 else NEAR_MAX)).
      rewrite <- Hf at 1. rewrite E. done.
  - intros Hn. pose proof (cut_complement_max (keyval (field arg)) (max_value arg) (max_flag arg) x Hup Hn) as E.
    change (lower (copy_max_to_min s arg)) with
      (cut_of (keyval (field s)) (max_value arg) (if has (max_flag arg) NEAR_MAX then 0 else NEAR_MIN)).
    rewrite <- Hf at 1. rewrite E. done.
  - unfold clone_last. destruct (new_bounds (field s) (part s) (min_value s) (max_value arg) (min_flag s)
      (max_flag arg) (maybe_flag s .| maybe_flag arg)) as [-> ->]. unfold lower, upper. by rewrite Hf.
Qed.

(** Functional: [copy_min] lowers the lower bound to that of [arg] where this is
    lower, [copy_max] raises the upper one, and the other bound stays; so both
    together give the smallest interval around the two. *)
Theorem sel_arg_copy_hull `{HL : SelExt_laws} (s arg : SEL_ARG Field) x :
  field arg = field s →
  (above_min (copy_min s arg).1 x ↔ above_min s x ∨ above_min arg x) ∧
  (below_max (copy_min s arg).1 x ↔ below_max s x) ∧
  (below_max (copy_max s arg).1 x ↔ below_max s x ∨ below_max arg x) ∧
  (above_min (copy_max s arg).1 x ↔ above_min s x).
Proof.
  intros Hf. unfold above_min, below_max.
  destruct (cmp_min_to_min_spec s arg Hf) as [H1 H2], (cmp_max_to_max_spec s arg Hf) as [H3 H4].
  assert (lower (copy_min s arg).1 = (if decide (0 < cmp_min_to_min s arg) then lower arg else lower s) ∧
          upper (copy_min s arg).1 = upper s) as [-> ->].
  { unfold copy_min. case_decide; [case_bool_decide|]; unfold lower, upper; cbn; by rewrite ?Hf. }
  assert (upper (copy_max s arg).1 = (if decide (cmp_max_to_max s arg ≤ 0) then upper arg else upper s) ∧
          lower (copy_max s arg).1 = lower s) as [-> ->].
  { unfold copy_max. case_decide; [case_bool_decide|]; unfold lower, upper; cbn; by rewrite ?Hf. }
  split_and!; try done.
  - case_decide as Hd.
    + assert (cle (lower arg) (lower s)) as Hle by (apply H1; lia). split; [tauto|]. intros [Hx|Hx]; [by etrans|done].
    + assert (cle (lower s) (lower arg)) as Hle by (apply H2; lia). split; [tauto|]. intros [Hx|Hx]; [done|by etrans].
  - case_decide as Hd.
    + assert (cle (upper s) (upper arg)) as Hle by (apply H4; lia). split; [tauto|]. intros [Hx|Hx]; [by etrans|done].
    + assert (cle (upper arg) (upper s)) as Hle by (apply H3; lia). split; [tauto|]. intros [Hx|Hx]; [done|by etrans].
Qed.

(** The report of a full range looks for the flags of both ends in [max_flag]:
    an interval whose flags are in their places never reports one. *)
Lemma copy_never_reports_full_range `{HL : SelExt_laws} (s arg : SEL_ARG Field) :
  sel_ok s → sel_ok arg → (copy_min s arg).2 = false ∧ (copy_max s arg).2 = false.
Proof.
  assert (∀ f, upper_ok f = true → bool_decide (f .& (NO_MAX_RANGE .| NO_MIN_RANGE) = NO_MAX_RANGE .| NO_MIN_RANGE) = false) as Hno.
  { intros f [Hf%negb_true_iff _]%andb_true_iff. apply bool_decide_false. intros E. unfold has in Hf.
    apply bool_decide_eq_false in Hf. apply Hf. apply (f_equal (λ z, Z.testbit z 0)) in E.
    rewrite Z.land_spec in E. unfold NO_MIN_RANGE. intros E'. apply (f_equal (λ z, Z.testbit z 0)) in E'.
    rewrite Z.land_spec in E'. cbn in E, E'. rewrite andb_true_r in *. change (Z.odd (NO_MAX_RANGE .| NO_MIN_RANGE)) with true in E. congruence. }
  intros [_ Hs] [_ Ha]. split.
  - unfold copy_min. case_decide; [|done]. cbn [max_flag set_min]. by rewrite Hno.
  - unfold copy_max. case_decide; [|done]. cbn [max_flag set_max]. by rewrite Hno.
Qed.

(** Functional: [is_singlepoint] of an interval with closed ends has a result, and
    where it is true the interval holds exactly one key, that of its lower
    bound; for a field without NULL it is true exactly then. *)
Theorem sel_arg_singlepoint `{HL : SelExt_laws} (s : SEL_ARG Field) :
  min_flag s = 0 → max_flag s = 0 → nullable (field s) = bool_decide (maybe_null s ≠ 0) →
  (maybe_null s ≠ 0 → min_value s ≠ [] ∧ max_value s ≠ []) →
  ∃ b, is_singlepoint s = Some b ∧
    (b = true → ∀ x, holds s x ↔ x = keyval (field s) (min_value s)) ∧
    (maybe_null s = 0 → (∀ x, holds s x ↔ x = keyval (field s) (min_value s)) → b = true).
Proof.
  intros Hmin Hmax Hnull Hne. unfold is_singlepoint. rewrite Hmin, Hmax.
  rewrite !(bool_decide_false (0 ≠ 0)) by (intros E; by apply E). cbn [orb].
  assert (keyval (field s) (min_value s) = keyval (field s) (max_value s) →
          ∀ x, holds s x ↔ x = keyval (field s) (min_value s)) as Hone.
  { intros E x. unfold holds, above_min, below_max, lower, upper. rewrite Hmin, Hmax. unfold cut_of. flags. rewrite <- E. cbn. lia. }
  destruct (decide (maybe_null s ≠ 0)) as [Hd|Hd].
  - rewrite (bool_decide_true (maybe_null s ≠ 0)) in Hnull by done. destruct (Hne Hd) as [H1 H2].
    revert Hone. destruct (min_value s) as [|a mn] eqn:E1, (max_value s) as [|b mx] eqn:E2; [done..|]. intros Hone. cbn [head mbind option_bind tail].
    destruct (decide (a ≠ b)) as [Hab|Hab]; [by exists false|]. apply dec_stable in Hab as ->.
    destruct (decide (b ≠ 0)) as [Hb|Hb].
    + exists true. split_and!; [done| |done]. intros _. apply Hone. by apply keyval_null.
    + apply dec_stable in Hb as ->. eexists. split_and!; [done| |done]. rewrite bool_decide_eq_true. intros E. apply Hone.
      by apply key_cmp_value.
  - rewrite (bool_decide_false (maybe_null s ≠ 0)) in Hnull by done. eexists. split_and!; [done| |].
    + rewrite bool_decide_eq_true. intros E. apply Hone. by apply key_cmp_plain.
    + intros _ Hall. apply bool_decide_true, key_cmp_plain; [done|].
      destruct (proj2 (Hall (keyval (field s) (min_value s))) eq_refl) as [_ Hb]. revert Hb.
      unfold below_max, upper. rewrite Hmax. unfold cut_of. flags. cbn. intros Hb.
      symmetry. apply Hall. unfold holds, above_min, below_max, lower, upper. rewrite Hmin, Hmax. unfold cut_of. flags. cbn. lia.
Qed.

End interval_properties.

(** ** Key buffers *)

Section key_buffers.
Import SelArg.
Context `{SelExt}.
Abbreviation sel := (SEL_ARG Field).

(** Both functions at once: [store] writes a bound, [fl] are its flags, and
    [mask] the flags behind which nothing is written. *)
Section store_key.
Context (store : sel → nat → list Z → nat → Z → option (Z * list Z * nat)) (fl : sel → Z) (mask : Z).

Fixpoint store_key (fuel : nat) (pick : N → N) (g : graph) (key : list nat) (this : N)
    (mem : list Z) (pos : nat) (flag : Z) (last_part : Z) : option (Z * list Z * nat * Z) :=
  match fuel with
  | O => None
  | S fuel =>
      key_tree ← g !! pick this;
      len ← key !! Z.to_nat (part key_tree);
      '(res, mem, pos) ← store key_tree len mem pos flag;
      let flag := u32 (flag .| fl key_tree) in
      if decide (next_key_part key_tree ≠ 0%N) then
        nkp ← g !! next_key_part key_tree;
        if bool_decide (type nkp = KEY_RANGE) && bool_decide (part key_tree ≠ last_part) &&
           bool_decide (part nkp = part key_tree + 1) && negb (has flag mask) then
          '(r, mem, pos, flag) ← store_key fuel pick g key (next_key_part key_tree) mem pos flag last_part;
          Some (u32 (res + r), mem, pos, flag)
        else Some (res, mem, pos, flag)
      else Some (res, mem, pos, flag)
  end.

(** One bound written at [pos], or none because of its flags. *)
Definition stores (s : sel) (len : nat) : Prop := ∀ mem pos flag,
  has flag mask = false → in_u 32 flag → (pos + len ≤ length mem)%nat →
  (∃ mem', store s len mem pos flag = Some (1, mem', (pos + len)%nat) ∧ length mem' = length mem ∧
     take pos mem' = take pos mem ∧ drop (pos + len) mem' = drop (pos + len) mem) ∨
  (store s len mem pos flag = Some (0, mem, pos) ∧ has (u32 (flag .| fl s)) mask = true).

(** A graph whose objects the lists [pick] and [next_key_part] refer to, with
    parts of the key and bounds of their lengths. *)
Definition graph_ok (pick : N → N) (g : graph) (key : list nat) : Prop :=
  ∀ a s, g !! a = Some s → 0 ≤ part s < 256 ∧ in_u 32 (fl s) ∧
    (∃ len, key !! Z.to_nat (part s) = Some len ∧ stores s len) ∧
    (∃ s', g !! pick a = Some s' ∧ part s' = part s) ∧
    (next_key_part s = 0%N ∨ is_Some (g !! next_key_part s)).

(** The space of the key parts from [p] on, and of the first [n] of them. *)
Definition space (key : list nat) (p : Z) : nat := sum_list (drop (Z.to_nat p) key).
Definition prefix (key : list nat) (p n : Z) : nat := sum_list (take (Z.to_nat n) (drop (Z.to_nat p) key)).

Lemma prefix_succ key p n len : 0 ≤ p → 0 ≤ n → key !! Z.to_nat p = Some len →
  prefix key p (1 + n) = (len + prefix key (p + 1) n)%nat.
Proof using Type.
  intros Hp Hn Hk. unfold prefix. rewrite (drop_S _ _ _ Hk). replace (Z.to_nat (1 + n)) with (S (Z.to_nat n)) by lia.
  cbn. by replace (Z.to_nat (p + 1)) with (S (Z.to_nat p)) by lia.
Qed.

Lemma space_succ key p len : 0 ≤ p → key !! Z.to_nat p = Some len → space key p = (len + space key (p + 1))%nat.
Proof using Type.
  intros Hp Hk. unfold space. rewrite (drop_S _ _ _ Hk). by replace (Z.to_nat (p + 1)) with (S (Z.to_nat p)) by lia.
Qed.

(** What was not written stays, in two steps. *)
Lemma kept_steps (mem mem1 mem2 : list Z) (pos p1 p2 : nat) :
  (pos ≤ p1 ≤ p2)%nat → take pos mem1 = take pos mem → drop p1 mem1 = drop p1 mem →
  take p1 mem2 = take p1 mem1 → drop p2 mem2 = drop p2 mem1 →
  take pos mem2 = take pos mem ∧ drop p2 mem2 = drop p2 mem.
Proof using Type.
  intros Hp H1 H2 H3 H4. split.
  - rewrite <- H1. apply (f_equal (take pos)) in H3. rewrite !take_take in H3. by rewrite !Nat.min_l in H3 by lia.
  - rewrite H4. apply (f_equal (drop (p2 - p1))) in H2. rewrite !drop_drop in H2. by replace (p1 + (p2 - p1))%nat with p2 in H2 by lia.
Qed.

Lemma store_key_spec fuel : ∀ pick g key this s mem pos flag last_part,
  graph_ok pick g key → g !! this = Some s → (Z.of_nat fuel = 256 - part s) →
  has flag mask = false → in_u 32 flag → (pos + space key (part s) ≤ length mem)%nat →
  ∃ res mem' pos' flag', store_key fuel pick g key this mem pos flag last_part = Some (res, mem', pos', flag') ∧
    0 ≤ res ≤ Z.of_nat fuel ∧ pos' = (pos + prefix key (part s) res)%nat ∧ length mem' = length mem ∧
    take pos mem' = take pos mem ∧ drop pos' mem' = drop pos' mem.
Proof using Type.
  induction fuel as [|fuel IH]; intros pick g key this s mem pos flag last_part Hg Hs Hf Hfl Hu Hsp.
  { destruct (Hg _ _ Hs) as (? & _). lia. }
  destruct (Hg _ _ Hs) as (Hp & _ & _ & (kt & Hkt & Ekt) & _).
  destruct (Hg _ _ Hkt) as (_ & Hfk & (len & Hlen & Hst) & _ & Hn). cbn [store_key]. rewrite Hkt. cbn [mbind option_bind].
  rewrite Hlen. cbn [mbind option_bind]. rewrite Ekt in *.
  rewrite (space_succ key (part s) len) in Hsp by (done || lia).
  assert (in_u 32 (u32 (flag .| fl kt))) as Hu' by (apply wrapu_range; lia).
  destruct (Hst mem pos flag Hfl Hu ltac:(lia)) as [(mem1 & -> & Hl1 & Ht1 & Hd1)|[-> Hstop]]; cbn [mbind option_bind].
  - assert (prefix key (part s) 1 = len) as E1.
    { unfold prefix. rewrite (drop_S _ _ _ Hlen). change (Z.to_nat 1) with 1%nat. cbn [take]. rewrite take_0. cbn. lia. }
    assert (∃ res mem' pos' flag', Some (1, mem1, (pos + len)%nat, u32 (flag .| fl kt)) = Some (res, mem', pos', flag') ∧
      0 ≤ res ≤ Z.of_nat (S fuel) ∧ pos' = (pos + prefix key (part s) res)%nat ∧ length mem' = length mem ∧
      take pos mem' = take pos mem ∧ drop pos' mem' = drop pos' mem) as Hone.
    { eexists _, _, _, _. split; [done|]. rewrite E1. split_and!; lia || done. }
    case_decide as Hnz; [|done]. destruct Hn as [?|[nkp Hnkp]]; [done|]. rewrite Hnkp. cbn [mbind option_bind].
    destruct (bool_decide (type nkp = KEY_RANGE) && _ && _ && _) eqn:Hc; [|done].
    apply andb_true_iff in Hc as [[_ Hpart%bool_decide_eq_true]%andb_true_iff Hclean%negb_true_iff].
    destruct (IH pick g key (next_key_part kt) nkp mem1 (pos + len)%nat (u32 (flag .| fl kt)) last_part Hg Hnkp)
      as (res & mem2 & pos2 & flag2 & -> & Hres & -> & Hl2 & Ht2 & Hd2); try done; try lia.
    { rewrite Hpart, Hl1. lia. }
    cbn [mbind option_bind]. eexists _, _, _, _. split; [done|].
    rewrite (wrapu_small 32) by (unfold in_u; lia).
    rewrite Hpart, (prefix_succ key (part s) res len) by (done || lia).
    destruct (kept_steps mem mem1 mem2 pos (pos + len) (pos + len + prefix key (part s + 1) res)) as [Ht Hd]; try done; try lia.
    { by rewrite Hpart in Hd2. }
    rewrite Nat.add_assoc. split_and!; lia || done.
  - assert (prefix key (part s) 0 = 0%nat) as E0 by (unfold prefix; by rewrite take_0).
    assert (∃ res mem' pos' flag', Some (0, mem, pos, u32 (flag .| fl kt)) = Some (res, mem', pos', flag') ∧
      0 ≤ res ≤ Z.of_nat (S fuel) ∧ pos' = (pos + prefix key (part s) res)%nat ∧ length mem' = length mem ∧
      take pos mem' = take pos mem ∧ drop pos' mem' = drop pos' mem) as Hzero.
    { eexists _, _, _, _. split; [done|]. rewrite E0, Nat.add_0_r. split_and!; lia || done. }
    case_decide as Hnz; [|done]. destruct Hn as [?|[nkp Hnkp]]; [done|]. rewrite Hnkp. cbn [mbind option_bind].
    rewrite Hstop. cbn [negb]. by rewrite andb_false_r.
Qed.

End store_key.

Lemma store_min_key_eq : store_min_key = store_key store_min min_flag (NO_MIN_RANGE .| NEAR_MIN).
Proof using Type. reflexivity. Qed.
Lemma store_max_key_eq : store_max_key = store_key store_max max_flag (NO_MAX_RANGE .| NEAR_MAX).
Proof using Type. reflexivity. Qed.

End key_buffers.

Section writing.
Import SelArg.
Context `{SelExt}.

Lemma has_lor a b m : has (a .| b) m = has a m || has b m.
Proof.
  unfold has. rewrite Z.land_lor_distr_l. destruct (decide (a .& m = 0)) as [Ea|Ea], (decide (b .& m = 0)) as [Eb|Eb].
  - rewrite Ea, Eb. done.
  - rewrite (bool_decide_true (b .& m ≠ 0)), orb_true_r by done. apply bool_decide_true. rewrite Z.lor_eq_0_iff. tauto.
  - rewrite (bool_decide_true (a .& m ≠ 0)) by done. apply bool_decide_true. rewrite Z.lor_eq_0_iff. tauto.
  - rewrite (bool_decide_true (a .& m ≠ 0)) by done. apply bool_decide_true. rewrite Z.lor_eq_0_iff. tauto.
Qed.

Lemma image_length mn v len img : image mn v len = Some img → length img = len.
Proof.
  unfold image. intros [null [_ E]]%bind_Some. destruct null.
  - destruct len; [done|]. injection E as <-. cbn. by rewrite length_replicate.
  - case_decide; [|done]. injection E as <-. rewrite length_take. lia.
Qed.

(** A value long enough for its key part can be written. *)
Definition value_ok (maybe_null : Z) (v : list Z) (len : nat) : Prop := (0 < len ≤ length v)%nat.

Lemma image_some mn v len : value_ok mn v len → is_Some (image mn v len).
Proof.
  unfold value_ok, image. intros Hl. destruct v as [|b v]; [cbn in Hl; lia|].
  destruct (decide (mn = 0)); cbn [mbind option_bind head].
  - rewrite decide_True by lia. eauto.
  - case_bool_decide; [destruct len; [lia|eauto]|rewrite decide_True by lia; eauto].
Qed.

Lemma put_spec mem pos bytes : (pos + length bytes ≤ length mem)%nat →
  ∃ mem', put mem pos bytes = Some mem' ∧ length mem' = length mem ∧ take pos mem' = take pos mem ∧
    drop (pos + length bytes) mem' = drop (pos + length bytes) mem.
Proof.
  intros Hl. unfold put. rewrite decide_True by done. eexists. split; [done|]. split_and!.
  - rewrite !length_app, length_take, length_drop. lia.
  - rewrite take_app_le by (rewrite length_take; lia). rewrite take_take. by rewrite Nat.min_id.
  - rewrite app_assoc, drop_app_ge by (rewrite length_app, length_take; lia).
    rewrite length_app, length_take, Nat.min_l by lia. by rewrite Nat.sub_diag.
Qed.

Lemma write_spec mn v len mem pos : value_ok mn v len → (pos + len ≤ length mem)%nat →
  ∃ img mem', image mn v len = Some img ∧ put mem pos img = Some mem' ∧ length mem' = length mem ∧
    take pos mem' = take pos mem ∧ drop (pos + len) mem' = drop (pos + len) mem.
Proof.
  intros [img Hi]%image_some Hl. pose proof (image_length _ _ _ _ Hi) as <-.
  destruct (put_spec mem pos img Hl) as (mem' & Hp & H1 & H2 & H3). exists img, mem'. by rewrite Hi.
Qed.

Lemma store_min_stores (s : SEL_ARG Field) len : value_ok (maybe_null s) (min_value s) len → in_u 32 (min_flag s) →
  stores store_min min_flag (NO_MIN_RANGE .| NEAR_MIN) s len.
Proof.
  intros Hv Hf mem pos flag Hclean Hu Hl. unfold store_min. rewrite Hclean, andb_true_r.
  destruct (has (min_flag s) GEOM_FLAG || negb (has (min_flag s) NO_MIN_RANGE)) eqn:E.
  - left. destruct (write_spec _ _ _ mem pos Hv Hl) as (img & mem' & -> & Hp & Hr). cbn [mbind option_bind].
    rewrite Hp. cbn [mbind option_bind]. eauto.
  - right. split; [done|]. apply orb_false_iff in E as [_ E%negb_false_iff].
    rewrite (wrapu_small 32) by (apply in_u_lor; done || lia). rewrite has_lor, (orb_comm (has flag _)). apply orb_true_iff. left.
    unfold has in *. rewrite bool_decide_eq_true in *. rewrite Z.land_lor_distr_r, Z.lor_eq_0_iff. tauto.
Qed.

Lemma store_max_stores (s : SEL_ARG Field) len : value_ok (maybe_null s) (max_value s) len → in_u 32 (max_flag s) →
  stores store_max max_flag (NO_MAX_RANGE .| NEAR_MAX) s len.
Proof.
  intros Hv Hf mem pos flag Hclean Hu Hl. unfold store_max. rewrite Hclean, andb_true_r.
  destruct (has (max_flag s) NO_MAX_RANGE) eqn:E; cbn [negb].
  - right. split; [done|].
    rewrite (wrapu_small 32) by (apply in_u_lor; done || lia). rewrite has_lor, (orb_comm (has flag _)). apply orb_true_iff. left.
    unfold has in *. rewrite bool_decide_eq_true in *. rewrite Z.land_lor_distr_r, Z.lor_eq_0_iff. tauto.
  - left. destruct (write_spec _ _ _ mem pos Hv Hl) as (img & mem' & -> & Hp & Hr). cbn [mbind option_bind].
    rewrite Hp. cbn [mbind option_bind]. eauto.
Qed.

(** A graph of intervals over the parts of a key: the lists stay in their part,
    the links refer to objects, the values have the lengths of the parts. *)
Definition key_graph (first last : N → N) (g : graph) (key : list nat) : Prop :=
  ∀ a s, g !! a = Some s → 0 ≤ part s < 256 ∧ in_u 8 (min_flag s) ∧ in_u 8 (max_flag s) ∧
    (∃ len, key !! Z.to_nat (part s) = Some len ∧ value_ok (maybe_null s) (min_value s) len ∧
       value_ok (maybe_null s) (max_value s) len) ∧
    (∃ s', g !! first a = Some s' ∧ part s' = part s) ∧ (∃ s', g !! last a = Some s' ∧ part s' = part s) ∧
    (next_key_part s = 0%N ∨ is_Some (g !! next_key_part s)).

Lemma in_u8_u32 z : in_u 8 z → in_u 32 z.
Proof. unfold in_u. lia. Qed.

Lemma key_graph_ok first last g key : key_graph first last g key →
  graph_ok store_min min_flag (NO_MIN_RANGE .| NEAR_MIN) first g key ∧
  graph_ok store_max max_flag (NO_MAX_RANGE .| NEAR_MAX) last g key.
Proof.
  intros Hg. split; intros a s Hs; destruct (Hg a s Hs) as (Hp & Hmin & Hmax & (len & Hl & Hv1 & Hv2) & Hfst & Hlst & Hn);
    (split; [done|]); (split; [by apply in_u8_u32|]); split_and!; try done; exists len; split; try done.
  - apply store_min_stores; [done|by apply in_u8_u32].
  - apply store_max_stores; [done|by apply in_u8_u32].
Qed.

End writing.

Section key_properties.
Import SelArg.

(** Termination: [store_min_key] and [store_max_key] return after at most one
    call per key part.  The number they return is that of the key parts written:
    the pointer advances by the lengths of this many parts, starting with that
    of the interval list, and no other byte of the buffer changes. *)
Theorem store_keys_write_prefixes `{SelExt} first last g key this s mem pos last_part :
  key_graph first last g key → g !! this = Some s → (pos + space key (part s) ≤ length mem)%nat →
  let fuel := Z.to_nat (256 - part s) in
  (∃ res mem' pos' flag, store_min_key fuel first g key this mem pos 0 last_part = Some (res, mem', pos', flag) ∧
    pos' = (pos + prefix key (part s) res)%nat ∧ length mem' = length mem ∧ take pos mem' = take pos mem ∧ drop pos' mem' = drop pos' mem) ∧
  (∃ res mem' pos' flag, store_max_key fuel last g key this mem pos 0 last_part = Some (res, mem', pos', flag) ∧
    pos' = (pos + prefix key (part s) res)%nat ∧ length mem' = length mem ∧ take pos mem' = take pos mem ∧ drop pos' mem' = drop pos' mem).
Proof.
  intros Hg Hs Hsp fuel. destruct (key_graph_ok first last g key Hg) as [G1 G2]. destruct (Hg _ _ Hs) as [Hp _].
  split.
  - destruct (store_key_spec store_min min_flag (NO_MIN_RANGE .| NEAR_MIN) fuel first g key this s mem pos 0 last_part)
      as (res & mem' & pos' & flag & E & _ & Hr); try done; [lia|].
    exists res, mem', pos', flag. by rewrite store_min_key_eq.
  - destruct (store_key_spec store_max max_flag (NO_MAX_RANGE .| NEAR_MAX) fuel last g key this s mem pos 0 last_part)
      as (res & mem' & pos' & flag & E & _ & Hr); try done; [lia|].
    exists res, mem', pos', flag. by rewrite store_max_key_eq.
Qed.

End key_properties.

(** ** A field of big-endian numbers, as an instance *)

Section big_endian.
Import SelArg.

Definition be_number (l : list Z) : Z := foldl (λ n b, n * 256 + b) 0 l.
Definition be_key (nullable : bool) (v : list Z) : Z :=
  if nullable then match v with b :: r => if decide (b ≠ 0) then -1 else be_number r | [] => -1 end else be_number v.
Definition be_cmp (f : bool) (a b : list Z) (fa fb : Z) : Z :=
  let ca := cut_of (be_key f) a fa in let cb := cut_of (be_key f) b fb in
  if decide (cle ca cb) then if decide (cle cb ca) then 0 else -1 else 1.

#[local] Instance be_ext : SelExt := {|
  Field := bool; sel_cmp := be_cmp; key_cmp := λ _ a b, be_number a - be_number b;
  new_SEL_ARG := λ f p mn mx fmn fmx m, Sel _ fmn fmx m p (b2z f) 1 0 f mn mx 0 0 0 0 0 0 BLACK KEY_RANGE |}.
#[local] Instance be_order : SelOrder := {| keyval := (be_key : Field → _); nullable := (λ f : Field, f) |}.

#[local] Instance be_laws : SelExt_laws.
Proof.
  split; cbn; try done.
  - intros f a b fa fb. unfold be_cmp. destruct (cle_total (cut_of (be_key f) a fa) (cut_of (be_key f) b fb));
      repeat case_decide; split; try done; try lia; tauto.
  - intros f a b fa fb. unfold be_cmp. repeat case_decide; split; try done; lia.
  - intros f a b ->. unfold be_key. lia.
  - intros f a b ->. unfold be_key. destruct (decide (0 ≠ 0)) as [E|_]; [by destruct E|]. lia.
  - intros f x y a b -> Hx Hy. unfold be_key. by rewrite !decide_True.
Qed.

(** The keys from 3 to 9, and those above 5. *)
Definition from_3_to_9 : SEL_ARG Field := new_SEL_ARG false 0 [3] [9] 0 0 0.
Definition above_5 : SEL_ARG Field := new_SEL_ARG false 0 [5] [] NEAR_MIN NO_MAX_RANGE 0.

Lemma sel_arg_clone_and_intersection_witness : holds (clone_and from_3_to_9 above_5) 7 ∧ ¬ holds (clone_and from_3_to_9 above_5) 5.
Proof.
  split.
  - apply (sel_arg_clone_and_intersection from_3_to_9 above_5 7); [done|]. vm_compute. intuition.
  - intros Hh. apply (sel_arg_clone_and_intersection from_3_to_9 above_5 5) in Hh as [_ [Hh _]]; [|done].
    vm_compute in Hh. destruct Hh as [?|[_ Hh]]; [done|by apply Hh].
Defined.

Lemma sel_arg_split_witness : holds (clone_first from_3_to_9 above_5) 5.
Proof.
  apply (proj1 (proj1 (sel_arg_split from_3_to_9 above_5 5 eq_refl (conj eq_refl eq_refl)) eq_refl)).
  split; vm_compute; [by left|]. intros [Hh|[_ Hh]]; [done|by apply Hh].
Defined.

Lemma sel_arg_copy_hull_witness : below_max (copy_max from_3_to_9 above_5).1 1000.
Proof. apply (sel_arg_copy_hull from_3_to_9 above_5 1000); [done|]. right. vm_compute. done. Defined.

Lemma sel_arg_singlepoint_witness :
  ∃ b, is_singlepoint (new_SEL_ARG (false : @Field be_ext) 0 [7] [7] 0 0 0) = Some b ∧ b = true.
Proof.
  destruct (sel_arg_singlepoint (new_SEL_ARG (false : @Field be_ext) 0 [7] [7] 0 0 0)) as (b & Hb & _); try done.
  exists b. split; [exact Hb|]. vm_compute in Hb. by injection Hb.
Defined.

(** Two key parts, of one and of two bytes. *)
Definition two_parts : graph :=
  {[ 1%N := Sel _ 0 0 0 0 0 1 0 (false : @Field be_ext) [7] [7] 0 0 0 0 0 2 BLACK KEY_RANGE;
     2%N := Sel _ 0 0 0 1 0 1 0 (false : @Field be_ext) [1; 2] [1; 2] 0 0 0 0 0 0 BLACK KEY_RANGE ]}.

Lemma two_parts_ok : key_graph id id two_parts [1; 2]%nat.
Proof.
  intros a s Hs. destruct (proj1 (lookup_insert_Some (M := gmap N) (A := SEL_ARG (@Field be_ext)) _ _ _ _ _) Hs)
    as [[<- <-]|[_ Hs2]]; [|destruct (proj1 (lookup_singleton_Some (M := gmap N) (A := SEL_ARG (@Field be_ext)) _ _ _ _) Hs2) as [<- <-]];
    unfold value_ok, in_u; cbn [part min_flag max_flag min_value max_value maybe_null next_key_part]; split_and!; try lia;
    try (eexists; split; [reflexivity|]; (reflexivity || (cbn; lia))); first [by left|by right; eexists].
Qed.

Lemma store_keys_write_prefixes_witness :
  ∃ res mem' pos' flag, store_min_key 256 id two_parts [1; 2]%nat 1 [0; 0; 0; 0; 0] 1 0 63 = Some (res, mem', pos', flag) ∧
    mem' = [0; 7; 1; 2; 0].
Proof.
  destruct (store_keys_write_prefixes id id two_parts [1; 2]%nat 1
     (Sel _ 0 0 0 0 0 1 0 (false : @Field be_ext) [7] [7] 0 0 0 0 0 2 BLACK KEY_RANGE) [0; 0; 0; 0; 0] 1 63
     two_parts_ok eq_refl ltac:(apply Nat.leb_le; reflexivity)) as ((res & mem' & pos' & flag & E & _) & _).
  exists res, mem', pos', flag. split; [exact E|]. vm_compute in E. by injection E.
Defined.

End big_endian.
