(* ===== verification/Mdl.v ===== *)
(** * Metadata lock keys and requests (mdl.h)

    [MDL_key], the byte string that names an object to be locked, [MDL_request],
    and the types of locks.  [strmake] and [my_hash_sort] are outside of the
    headers: the interface [MdlExt] with the documented behaviour of [strmake]. *)

From S2P Require Import Prelude MyIsamPack.
From Stdlib Require Import ZArith Lia.
From stdpp Require Import base numbers option list.
Open Scope Z_scope.
Open Scope cint_scope.

Module Mdl.

(** ** Types of locks *)

Inductive enum_mdl_type :=
  | MDL_INTENTION_EXCLUSIVE | MDL_SHARED | MDL_SHARED_HIGH_PRIO | MDL_SHARED_READ | MDL_SHARED_WRITE
  | MDL_SHARED_UPGRADABLE | MDL_SHARED_READ_ONLY | MDL_SHARED_NO_WRITE | MDL_SHARED_NO_READ_WRITE | MDL_EXCLUSIVE.

(** The order of the enumeration. *)
Definition mdl_type_num (t : enum_mdl_type) : Z :=
  match t with
  | MDL_INTENTION_EXCLUSIVE => 0 | MDL_SHARED => 1 | MDL_SHARED_HIGH_PRIO => 2 | MDL_SHARED_READ => 3
  | MDL_SHARED_WRITE => 4 | MDL_SHARED_UPGRADABLE => 5 | MDL_SHARED_READ_ONLY => 6 | MDL_SHARED_NO_WRITE => 7
  | MDL_SHARED_NO_READ_WRITE => 8 | MDL_EXCLUSIVE => 9
  end.

Inductive enum_mdl_duration := MDL_STATEMENT | MDL_TRANSACTION | MDL_EXPLICIT.

#[global] Instance enum_mdl_type_eq_dec : EqDecision enum_mdl_type.
Proof. solve_decision. Defined.

Inductive enum_mdl_namespace :=
  | GLOBAL | SCHEMA | TABLE | FUNCTION | PROCEDURE | PACKAGE_BODY | TRIGGER | EVENT | COMMIT | USER_LOCK.

Definition namespace_num (n : enum_mdl_namespace) : Z :=
  match n with
  | GLOBAL => 0 | SCHEMA => 1 | TABLE => 2 | FUNCTION => 3 | PROCEDURE => 4 | PACKAGE_BODY => 5
  | TRIGGER => 6 | EVENT => 7 | COMMIT => 8 | USER_LOCK => 9
  end.

(** ** MDL_key *)

Definition NAME_LEN : nat := 64 * 3.
Definition MAX_MDLKEY_LENGTH : nat := 1 + NAME_LEN + 1 + NAME_LEN + 1.

(** [m_ptr] is the array of [MAX_MDLKEY_LENGTH] bytes. *)
Record MDL_key := Key { m_length : Z; m_db_name_length : Z; m_hash_value : Z; m_ptr : list Z }.

(** A C string is the list of its bytes before the terminating zero. *)
Class MdlExt := {
  (** [strmake(buf + off, src, n)]: the buffer, and the offset of the returned pointer. *)
  strmake : list Z → nat → list Z → nat → list Z * nat;
  (** [my_hash_sort(&my_charset_bin, bytes, length)] *)
  my_hash_sort : list Z → Z }.

(** Documented: at most [n] characters are copied, closed with a zero, whose
    address is returned; what comes before the destination is not touched. *)
Class MdlExt_laws `{MdlExt} : Prop := {
  strmake_spec buf off src n :
    (off + Nat.min n (length src) + 1 ≤ length buf)%nat →
    ∃ rest, strmake buf off src n = (take off buf ++ take n src ++ 0 :: rest, (off + Nat.min n (length src))%nat) ∧
      length (take off buf ++ take n src ++ 0 :: rest) = length buf }.

Section operations.
Context `{MdlExt}.

Definition mdl_namespace (k : MDL_key) : option Z := head (m_ptr k).

Definition db_name (k : MDL_key) : list Z := drop 1 (m_ptr k).
Definition db_name_length (k : MDL_key) : Z := m_db_name_length k.
Definition name (k : MDL_key) : list Z := drop (Z.to_nat (m_db_name_length k) + 2) (m_ptr k).
Definition name_length (k : MDL_key) : Z := u32 (m_length k - m_db_name_length k - 3).
Definition ptr (k : MDL_key) : list Z := m_ptr k.
Definition key_length (k : MDL_key) : Z := m_length k.

Definition mdl_key_init (k : MDL_key) (mdl_namespace_arg : enum_mdl_namespace) (db name_arg : list Z) : MDL_key :=
  let m := <[0%nat := namespace_num mdl_namespace_arg]> (m_ptr k) in
  let '(m, e) := strmake m 1 db NAME_LEN in
  let db_len := u16 (Z.of_nat e - 1) in
  let '(m, e) := strmake m (Z.to_nat db_len + 2) name_arg NAME_LEN in
  let len := u16 (Z.of_nat e + 1) in
  Key len db_len (my_hash_sort (take (Z.to_nat (len - 1)) (drop 1 m))) m.

(** [memcpy] of the first [m_length] bytes. *)
Definition mdl_key_init_copy (k rhs : MDL_key) : MDL_key :=
  let n := Z.to_nat (m_length rhs) in
  Key (m_length rhs) (m_db_name_length rhs) (m_hash_value rhs) (take n (m_ptr rhs) ++ drop n (m_ptr k)).

Definition is_equal (k rhs : MDL_key) : bool :=
  bool_decide (m_length k = m_length rhs) &&
  match memcmp (take (Z.to_nat (m_length k)) (m_ptr k)) (take (Z.to_nat (m_length k)) (m_ptr rhs)) with Eq => true | _ => false end.

(** The sign of the result of [memcmp]. *)
Definition cmp (k rhs : MDL_key) : comparison :=
  let n := Z.to_nat (if decide (m_length k < m_length rhs) then m_length k else m_length rhs) in
  memcmp (take n (m_ptr k)) (take n (m_ptr rhs)).

(** [my_hash_value_type] has 32 bits. *)
Definition hash_value (k : MDL_key) : option Z := ns ← mdl_namespace k; Some (u32 (m_hash_value k + ns)).
Definition tc_hash_value (k : MDL_key) : Z := m_hash_value k.

(** ** MDL_request: [ticket] is the address of the ticket, 0 being null *)

Record MDL_request := Request {
  r_type : enum_mdl_type; r_duration : enum_mdl_duration; ticket : N; r_key : MDL_key }.

(** [set_type] asserts that there is no ticket. *)
Definition set_type (r : MDL_request) (t : enum_mdl_type) : option MDL_request :=
  if decide (ticket r = 0%N) then Some (Request t (r_duration r) (ticket r) (r_key r)) else None.
Definition is_write_lock_request (r : MDL_request) : bool :=
  bool_decide (mdl_type_num MDL_SHARED_WRITE ≤ mdl_type_num (r_type r)) && bool_decide (r_type r ≠ MDL_SHARED_READ_ONLY).
Definition request_assign (r _rhs : MDL_request) : MDL_request := Request (r_type r) (r_duration r) 0 (r_key r).
Definition request_copy (uninit : MDL_key) (rhs : MDL_request) : MDL_request :=
  Request (r_type rhs) (r_duration rhs) 0 (mdl_key_init_copy uninit (r_key rhs)).

End operations.

(** ** MDL_ticket *)

Definition is_upgradable_or_exclusive (m_type : enum_mdl_type) : bool :=
  bool_decide (m_type = MDL_SHARED_UPGRADABLE) || bool_decide (m_type = MDL_SHARED_NO_WRITE) ||
  bool_decide (m_type = MDL_SHARED_NO_READ_WRITE) || bool_decide (m_type = MDL_EXCLUSIVE).

End Mdl.

(** ** Keys as triples *)

Section keys.
Import Mdl.
Context `{MdlExt_laws}.

(** A C string: bytes other than zero. *)
Definition cstring (s : list Z) : Prop := Forall (λ b, 0 < b < 256) s.

(** The key that names the object [nm] of the database [db]. *)
Definition names (k : MDL_key) (ns : Z) (db nm : list Z) : Prop :=
  (∃ rest, m_ptr k = ns :: db ++ 0 :: nm ++ 0 :: rest) ∧ length (m_ptr k) = MAX_MDLKEY_LENGTH ∧
  cstring db ∧ cstring nm ∧ (length db ≤ NAME_LEN)%nat ∧ (length nm ≤ NAME_LEN)%nat ∧
  m_db_name_length k = Z.of_nat (length db) ∧ m_length k = Z.of_nat (length db + length nm + 3) ∧
  m_hash_value k = my_hash_sort (db ++ 0 :: nm ++ [0]).

Lemma cstring_take n s : cstring s → cstring (take n s).
Proof using Type. apply Forall_take. Qed.

Lemma mdl_key_init_names k ns db nm :
  length (m_ptr k) = MAX_MDLKEY_LENGTH → cstring db → cstring nm →
  names (mdl_key_init k ns db nm) (namespace_num ns) (take NAME_LEN db) (take NAME_LEN nm).
Proof.
  intros Hl Hdb Hnm. unfold mdl_key_init. set (m0 := <[0%nat := _]> (m_ptr k)).
  assert (length m0 = MAX_MDLKEY_LENGTH) as Hl0 by (unfold m0; by rewrite length_insert).
  assert (take 1 m0 = [namespace_num ns]) as Ht0.
  { unfold m0. destruct (m_ptr k) as [|b m] eqn:E; [done|]. cbn. by rewrite take_0. }
  unfold MAX_MDLKEY_LENGTH, NAME_LEN in *. set (db' := take (64 * 3) db). set (nm' := take (64 * 3) nm).
  assert (length db' = Nat.min 192 (length db)) as Ld by (unfold db'; rewrite length_take; lia).
  assert (length nm' = Nat.min 192 (length nm)) as Ln by (unfold nm'; rewrite length_take; lia).
  destruct (strmake_spec m0 1 db (64 * 3)) as (r1 & E1 & L1); [lia|]. rewrite E1, Ht0 in *. fold db' in L1 |- *.
  set (m1 := [namespace_num ns] ++ db' ++ 0 :: r1) in *.
  replace (u16 (Z.of_nat (1 + (64 * 3) `min` length db) - 1)) with (Z.of_nat (length db'))
    by (rewrite wrapu_small; [lia|unfold in_u; lia]).
  rewrite Nat2Z.id. destruct (strmake_spec m1 (length db' + 2) nm (64 * 3)) as (r2 & E2 & L2); [lia|]. rewrite E2. clear E2.
  assert (take (length db' + 2) m1 = namespace_num ns :: db' ++ [0]) as Ht1.
  { unfold m1. cbn [app]. replace (length db' + 2)%nat with (S (length db' + 1)) by lia. cbn [take]. f_equal.
    rewrite take_app_ge by lia. replace (length db' + 1 - length db')%nat with 1%nat by lia. cbn. by rewrite take_0. }
  rewrite Ht1 in *. fold nm' in L2 |- *.
  replace (u16 (Z.of_nat (length db' + 2 + (64 * 3) `min` length nm) + 1)) with (Z.of_nat (length db' + length nm' + 3))
    by (rewrite wrapu_small; [lia|unfold in_u; lia]).
  assert ((namespace_num ns :: db' ++ [0]) ++ nm' ++ 0 :: r2 = namespace_num ns :: db' ++ 0 :: nm' ++ 0 :: r2) as Em
    by (cbn; by rewrite <- app_assoc).
  rewrite Em in *. split_and!; cbn [m_ptr m_db_name_length m_length m_hash_value].
  - by exists r2.
  - by rewrite L2, L1.
  - by apply cstring_take.
  - by apply cstring_take.
  - unfold NAME_LEN. lia.
  - unfold NAME_LEN. lia.
  - done.
  - done.
  - f_equal. replace (Z.to_nat (Z.of_nat (length db' + length nm' + 3) - 1)) with (length db' + (1 + (length nm' + 1)))%nat by lia.
    cbn [drop]. rewrite drop_0, take_app_add. f_equal. cbn [Nat.add take]. f_equal. rewrite take_app_add.
    cbn [take]. by rewrite take_0.
Qed.

(** Comparing strings closed by zeros compares the strings and then what follows. *)
Lemma memcmp_terminated n s1 s2 r1 r2 : cstring s1 → cstring s2 → (Nat.min (length s1) (length s2) < n)%nat →
  memcmp (take n (s1 ++ 0 :: r1)) (take n (s2 ++ 0 :: r2)) =
  match memcmp s1 s2 with
  | Eq => memcmp (take (n - length s1 - 1) r1) (take (n - length s1 - 1) r2)
  | c => c
  end.
Proof using Type.
  revert n s2. induction s1 as [|a s1 IH]; intros n [|b s2] H1 H2 Hn; destruct n as [|n]; try (cbn in Hn; lia).
  - cbn. by rewrite Nat.sub_0_r.
  - apply Forall_cons in H2 as [Hb _]. cbn [app take memcmp]. by destruct (Z.compare_spec 0 b); try lia.
  - apply Forall_cons in H1 as [Ha _]. cbn [app take memcmp]. by destruct (Z.compare_spec a 0); try lia.
  - apply Forall_cons in H1 as [Ha H1]. apply Forall_cons in H2 as [Hb H2]. cbn [app take memcmp length] in *.
    destruct (a ?= b); [|done..]. rewrite IH by (done || lia). by replace (S n - S (length s1) - 1)%nat with (n - length s1 - 1)%nat by lia.
Qed.

Lemma memcmp_Eq l k : memcmp l k = Eq → l = k.
Proof using Type.
  revert k. induction l as [|a l IH]; intros [|b k]; cbn; try done.
  destruct (Z.compare_spec a b) as [->| |]; try done. intros E. f_equal. by apply IH.
Qed.

(** Lexicographic combination of two comparisons. *)
Definition then_cmp (c d : comparison) : comparison := match c with Eq => d | _ => c end.

Lemma cmp_names k1 k2 ns1 ns2 db1 db2 nm1 nm2 : names k1 ns1 db1 nm1 → names k2 ns2 db2 nm2 →
  cmp k1 k2 = then_cmp (ns1 ?= ns2) (then_cmp (memcmp db1 db2) (memcmp nm1 nm2)).
Proof using Type.
  intros ((r1 & E1) & _ & D1 & N1 & _ & _ & _ & L1 & _) ((r2 & E2) & _ & D2 & N2 & _ & _ & _ & L2 & _).
  unfold cmp. set (n := Z.to_nat _).
  assert (n = 3 + Nat.min (length db1 + length nm1) (length db2 + length nm2))%nat as Hn by (unfold n; case_decide; lia).
  clearbody n. rewrite E1, E2. destruct n as [|n]; [lia|]. cbn [take memcmp]. destruct (ns1 ?= ns2); [|done..]. cbn [then_cmp].
  rewrite memcmp_terminated by (done || lia). destruct (memcmp db1 db2) eqn:Ed; [|done..]. cbn [then_cmp].
  apply memcmp_Eq in Ed as <-. rewrite memcmp_terminated by (done || lia).
  destruct (memcmp nm1 nm2) eqn:En; [|done..]. apply memcmp_Eq in En as <-.
  replace (n - length db1 - 1 - length nm1 - 1)%nat with 0%nat by lia. by rewrite !take_0.
Qed.

End keys.

(** A [strmake] and a hash, as an instance. *)
Section instance.
Import Mdl.

Definition simple_strmake (buf : list Z) (off : nat) (src : list Z) (n : nat) : list Z * nat :=
  let e := (off + Nat.min n (length src))%nat in (take off buf ++ take n src ++ 0 :: drop (e + 1) buf, e).
#[local] Instance simple_mdl : MdlExt := {| strmake := simple_strmake; my_hash_sort := foldr (λ b h, u32 (h * 31 + b)) 7 |}.
#[local] Instance simple_mdl_laws : MdlExt_laws.
Proof.
  split. intros buf off src n Hl. cbn. eexists. split; [done|].
  rewrite !length_app, length_take. cbn [length]. rewrite length_take, length_drop. lia.
Qed.

End instance.

Section mdl_properties.
Import Mdl.

(** Round trip: a key built from a namespace, a database and an object name,
    whatever their lengths, stays within its buffer; the namespace and the two
    names, cut to [NAME_LEN] bytes, are read back from it, each followed by a
    zero. *)
Theorem mdl_key_roundtrip `{MdlExt_laws} k ns db nm :
  length (m_ptr k) = MAX_MDLKEY_LENGTH → cstring db → cstring nm →
  let key := mdl_key_init k ns db nm in
  length (m_ptr key) = MAX_MDLKEY_LENGTH ∧ 0 ≤ key_length key ≤ Z.of_nat MAX_MDLKEY_LENGTH ∧
  mdl_namespace key = Some (namespace_num ns) ∧
  take (Z.to_nat (db_name_length key)) (db_name key) = take NAME_LEN db ∧
  db_name key !! Z.to_nat (db_name_length key) = Some 0 ∧
  take (Z.to_nat (name_length key)) (name key) = take NAME_LEN nm ∧
  name key !! Z.to_nat (name_length key) = Some 0.
Proof.
  intros Hl Hdb Hnm key. destruct (mdl_key_init_names k ns db nm Hl Hdb Hnm) as ((r & E) & L & _ & _ & B1 & B2 & D & N & _).
  fold key in E, L, D, N. unfold key_length, mdl_namespace, db_name, db_name_length, name, name_length.
  assert (u32 (m_length key - m_db_name_length key - 3) = Z.of_nat (length (take NAME_LEN nm))) as ->.
  { rewrite D, N. unfold NAME_LEN in *. rewrite wrapu_small; [lia|unfold in_u; lia]. }
  rewrite D, N, E, !Nat2Z.id. set (db' := take NAME_LEN db) in *. set (nm' := take NAME_LEN nm) in *.
  replace (length db' + 2)%nat with (S (length db' + 1)) by lia. cbn [head drop].
  assert (drop (length db' + 1) (db' ++ 0 :: nm' ++ 0 :: r) = nm' ++ 0 :: r) as ->.
  { rewrite drop_app_ge by lia. replace (length db' + 1 - length db')%nat with 1%nat by lia. done. }
  rewrite drop_0, !take_app_length, !list_lookup_middle by done. rewrite <- E. unfold MAX_MDLKEY_LENGTH, NAME_LEN in *.
  split_and!; done || lia.
Qed.

Definition empty_key : MDL_key := Key 0 0 0 (replicate MAX_MDLKEY_LENGTH 0).

Lemma mdl_key_roundtrip_witness :
  take 2 (name (@mdl_key_init simple_mdl empty_key TABLE [116; 101; 115; 116] [116; 49])) = [116; 49].
Proof.
  destruct (@mdl_key_roundtrip simple_mdl simple_mdl_laws empty_key TABLE [116; 101; 115; 116] [116; 49])
    as (_ & _ & _ & _ & _ & E & _); [vm_compute; reflexivity|repeat constructor..|exact E].
Defined.

(** Functional: [cmp] orders keys by namespace, then database, then object name,
    the names as byte strings; [is_equal] and a zero [cmp] both say that the
    triples are equal, and then the hash values are equal. *)
Theorem mdl_key_order `{MdlExt_laws} k1 k2 ns1 ns2 db1 db2 nm1 nm2 :
  names k1 ns1 db1 nm1 → names k2 ns2 db2 nm2 →
  cmp k1 k2 = then_cmp (ns1 ?= ns2) (then_cmp (memcmp db1 db2) (memcmp nm1 nm2)) ∧
  (cmp k1 k2 = Eq ↔ ns1 = ns2 ∧ db1 = db2 ∧ nm1 = nm2) ∧
  (is_equal k1 k2 = true ↔ ns1 = ns2 ∧ db1 = db2 ∧ nm1 = nm2) ∧
  (is_equal k1 k2 = true → hash_value k1 = hash_value k2 ∧ tc_hash_value k1 = tc_hash_value k2).
Proof.
  intros H1 H2. pose proof (cmp_names _ _ _ _ _ _ _ _ H1 H2) as Hc.
  assert (cmp k1 k2 = Eq ↔ ns1 = ns2 ∧ db1 = db2 ∧ nm1 = nm2) as Hz.
  { rewrite Hc. split.
    - destruct (Z.compare_spec ns1 ns2) as [->| |]; cbn [then_cmp]; try done.
      destruct (memcmp db1 db2) eqn:Ed; cbn [then_cmp]; try done. intros En. by rewrite (memcmp_Eq _ _ Ed), (memcmp_Eq _ _ En).
    - intros (-> & -> & ->). by rewrite Z.compare_refl, !memcmp_refl. }
  assert (is_equal k1 k2 = true ↔ ns1 = ns2 ∧ db1 = db2 ∧ nm1 = nm2) as He.
  { rewrite <- Hz. unfold is_equal, cmp. destruct (decide (m_length k1 = m_length k2)) as [E|E].
    - rewrite bool_decide_true, (decide_False (P := m_length k1 < m_length k2)) by (done || lia). rewrite E.
      cbn [andb]. destruct (memcmp (take _ (m_ptr k1)) _); naive_solver.
    - rewrite bool_decide_false by done. split; [done|]. intros Hmc. destruct E. fold (cmp k1 k2) in Hmc.
      apply Hz in Hmc as (-> & -> & ->). destruct H1 as (_ & _ & _ & _ & _ & _ & _ & -> & _). by destruct H2 as (_ & _ & _ & _ & _ & _ & _ & -> & _). }
  split_and!; [done|done|done|]. intros (-> & -> & ->)%He. unfold hash_value, tc_hash_value, mdl_namespace.
  destruct H1 as ((r1 & ->) & _ & _ & _ & _ & _ & _ & _ & ->), H2 as ((r2 & ->) & _ & _ & _ & _ & _ & _ & _ & ->). done.
Qed.

Lemma mdl_key_order_witness :
  let k1 := @mdl_key_init simple_mdl empty_key TABLE [116] [116; 49] in
  let k2 := @mdl_key_init simple_mdl empty_key TABLE [116; 49] [116] in
  cmp k1 k2 = Lt ∧ is_equal k1 k2 = false.
Proof.
  destruct (@mdl_key_order simple_mdl simple_mdl_laws (@mdl_key_init simple_mdl empty_key TABLE [116] [116; 49])
    (@mdl_key_init simple_mdl empty_key TABLE [116; 49] [116]) 2 2 [116] [116; 49] [116; 49] [116]) as (E & _ & He & _).
  - apply (@mdl_key_init_names simple_mdl simple_mdl_laws empty_key TABLE [116] [116; 49]); [vm_compute; reflexivity|repeat constructor..].
  - apply (@mdl_key_init_names simple_mdl simple_mdl_laws empty_key TABLE [116; 49] [116]); [vm_compute; reflexivity|repeat constructor..].
  - split; [exact E|]. apply not_true_is_false. intros (_ & Hd & _)%He. discriminate Hd.
Defined.

(** A copy of a key is equal to it, whatever the buffer held before. *)
Lemma mdl_key_copy `{MdlExt_laws} k rhs ns db nm : length (m_ptr k) = MAX_MDLKEY_LENGTH → names rhs ns db nm →
  names (mdl_key_init_copy k rhs) ns db nm.
Proof.
  intros Hl ((r & E) & L & D & N & B1 & B2 & D' & N' & Hh). unfold mdl_key_init_copy.
  assert (take (Z.to_nat (m_length rhs)) (m_ptr rhs) = ns :: db ++ 0 :: nm ++ [0]) as Et.
  { rewrite N', Nat2Z.id, E. replace (length db + length nm + 3)%nat with (S (length db + (S (length nm + 1)))) by lia.
    cbn [take]. f_equal. rewrite take_app_add. f_equal. cbn [take]. f_equal. by rewrite take_app_add. }
  rewrite Et. unfold MAX_MDLKEY_LENGTH, NAME_LEN in *.
  split_and!; cbn [m_ptr m_db_name_length m_length m_hash_value]; try done.
  - eexists. cbn. rewrite <- !app_assoc. cbn. by rewrite <- app_assoc.
  - cbn. rewrite !length_app. cbn. rewrite !length_app, length_drop, Hl, N', Nat2Z.id. cbn. lia.
Qed.

(** The types that can be upgraded, and the exclusive one, are types of requests
    to write. *)
Lemma mdl_write_types t : is_upgradable_or_exclusive t = true → mdl_type_num MDL_SHARED_WRITE ≤ mdl_type_num t ∧ t ≠ MDL_SHARED_READ_ONLY.
Proof. by destruct t. Qed.

End mdl_properties.
