(* ===== verification/Diagnostics.v ===== *)
(** * Conditions and the diagnostics area (sql_error.h)

    SQL states and condition identities, the warning areas ([Warning_info]) with
    their lists of conditions, and the diagnostics area with its stack of warning
    areas.  Both the stack and the lists are I_P_Lists (PList.v), the marks for
    removal a base_list (SqlList.v) and the condition items are Strings
    (SqlString.v).  The methods of [Warning_info] that sql_error.h only declares
    are the interface [WarnExt], with the documented effects as laws. *)

From S2P Require Import Prelude SqlList PList SqlString.
From Stdlib Require Import ZArith Lia.
From stdpp Require Import base numbers option list gmap.
Open Scope Z_scope.
Open Scope cint_scope.

Module SqlError.
Import PList(counter, fast_push_back, m_counter).

(** ** Sql_state *)

Definition SQLSTATE_LENGTH : nat := 5.

(** The bytes of [m_sqlstate]; [char] is signed. *)
Definition new_Sql_state : list Z := replicate (SQLSTATE_LENGTH + 1) 0.

(** [sqlstate] holds the bytes that can be read at the source. *)
Definition set_sqlstate (m_sqlstate sqlstate : list Z) : option (list Z) :=
  if decide (SQLSTATE_LENGTH ≤ length sqlstate)%nat
  then Some (<[SQLSTATE_LENGTH := 0]> (take SQLSTATE_LENGTH sqlstate ++ drop SQLSTATE_LENGTH m_sqlstate))
  else None.

Definition new_Sql_state_of (uninit sqlstate : list Z) : option (list Z) := set_sqlstate uninit sqlstate.

Definition set_sqlstate_copy (_ other : list Z) : list Z := other.

(** [strcmp(a, b) == 0]; reading on without a terminating zero has no result. *)
Fixpoint strcmp_eq (a b : list Z) : option bool :=
  match a, b with
  | x :: a, y :: b =>
      if decide (x ≠ y) then Some false else if decide (x = 0) then Some true else strcmp_eq a b
  | _, _ => None
  end.
Definition eq (m_sqlstate other : list Z) : option bool := strcmp_eq m_sqlstate other.

Definition has_sql_state (m : list Z) : option bool := c ← m !! 0%nat; Some (bool_decide (s8 c ≠ 0)).

(** ['0'], ['1'] and ['2'] are 48, 49 and 50. *)
Definition is_warning (m : list Z) : option bool :=
  a ← m !! 0%nat; b ← m !! 1%nat; Some (bool_decide (s8 a = 48) && bool_decide (s8 b = 49)).
Definition is_not_found (m : list Z) : option bool :=
  a ← m !! 0%nat; b ← m !! 1%nat; Some (bool_decide (s8 a = 48) && bool_decide (s8 b = 50)).
Definition is_exception (m : list Z) : option bool :=
  a ← m !! 0%nat; b ← m !! 1%nat; Some (bool_decide (s8 a ≠ 48) || bool_decide (50 < s8 b)).
Definition is_sqlstate_completion (m : list Z) : option bool :=
  a ← m !! 0%nat; b ← m !! 1%nat; Some (bool_decide (s8 a = 48) && bool_decide (s8 b = 48)).

(** ** Identities of conditions *)

Record Sql_state_errno := StateErrno { m_sqlstate : list Z; m_sql_errno : Z }.

Definition new_Sql_state_errno (sql_errno : Z) : Sql_state_errno := StateErrno new_Sql_state sql_errno.
Definition new_Sql_state_errno_of (uninit : list Z) (sql_errno : Z) (sql_state : list Z) : option Sql_state_errno :=
  st ← set_sqlstate uninit sql_state; Some (StateErrno st sql_errno).
Definition get_sql_errno (s : Sql_state_errno) : Z := m_sql_errno s.
Definition set_state_errno (s : Sql_state_errno) (sql_errno : Z) (sqlstate : list Z) : option Sql_state_errno :=
  st ← set_sqlstate (m_sqlstate s) sqlstate; Some (StateErrno st sql_errno).
(** [clear] leaves the SQL state. *)
Definition clear_errno (s : Sql_state_errno) : Sql_state_errno := StateErrno (m_sqlstate s) 0.

Inductive enum_warning_level := WARN_LEVEL_NOTE | WARN_LEVEL_WARN | WARN_LEVEL_ERROR | WARN_LEVEL_END.
#[global] Instance warning_level_eq_dec : EqDecision enum_warning_level.
Proof. solve_decision. Defined.

Definition level_num (l : enum_warning_level) : nat :=
  match l with WARN_LEVEL_NOTE => 0 | WARN_LEVEL_WARN => 1 | WARN_LEVEL_ERROR => 2 | WARN_LEVEL_END => 3 end.

Record Sql_state_errno_level := StateErrnoLevel { l_errno : Sql_state_errno; m_level : enum_warning_level }.

Definition new_Sql_state_errno_level : Sql_state_errno_level :=
  StateErrnoLevel (new_Sql_state_errno 0) WARN_LEVEL_ERROR.
Definition get_level (s : Sql_state_errno_level) : enum_warning_level := m_level s.
Definition clear_level (s : Sql_state_errno_level) : Sql_state_errno_level :=
  StateErrnoLevel (clear_errno (l_errno s)) WARN_LEVEL_ERROR.

(** [Sql_user_condition_identity]: the address of the [sp_condition_value]. *)
Record Sql_condition_identity := Identity { c_level : Sql_state_errno_level; m_user_condition_value : N }.

Definition new_Sql_condition_identity : Sql_condition_identity := Identity new_Sql_state_errno_level 0.
(** The constructor from a state and number, a level and a user condition. *)
Definition identity_of_state (st : Sql_state_errno) (level : enum_warning_level) (ucid : N) : Sql_condition_identity :=
  Identity (StateErrnoLevel st level) ucid.
Definition identity_of (uninit : list Z) (sqlerrno : Z) (sqlstate : list Z) (level : enum_warning_level) (ucid : N)
    : option Sql_condition_identity :=
  st ← new_Sql_state_errno_of uninit sqlerrno sqlstate; Some (identity_of_state st level ucid).
Definition clear_identity (c : Sql_condition_identity) : Sql_condition_identity := Identity (clear_level (c_level c)) 0.

(** ** Sql_condition *)

Record Sql_condition_items := Items {
  m_class_origin : Str.String; m_subclass_origin : Str.String; m_constraint_catalog : Str.String;
  m_constraint_schema : Str.String; m_constraint_name : Str.String; m_catalog_name : Str.String;
  m_schema_name : Str.String; m_table_name : Str.String; m_column_name : Str.String; m_cursor_name : Str.String }.

Definition clear_items (i : Sql_condition_items) : Sql_condition_items :=
  Items (Str.set_length (m_class_origin i) 0) (Str.set_length (m_subclass_origin i) 0)
    (Str.set_length (m_constraint_catalog i) 0) (Str.set_length (m_constraint_schema i) 0)
    (Str.set_length (m_constraint_name i) 0) (Str.set_length (m_catalog_name i) 0)
    (Str.set_length (m_schema_name i) 0) (Str.set_length (m_table_name i) 0)
    (Str.set_length (m_column_name i) 0) (Str.set_length (m_cursor_name i) 0).

(** The constructor: null strings in the character set [utf8_bin]. *)
Definition new_items (utf8_bin : Str.CHARSET) : Sql_condition_items :=
  let s := Str.new_const_String None 0 utf8_bin in Items s s s s s s s s s s.

Record Sql_condition := Condition {
  identity : Sql_condition_identity; items : Sql_condition_items; m_message_text : Str.String; m_mem_root : N }.

(** [MYSQL_TIME_WARN_TRUNCATED | MYSQL_TIME_WARN_OUT_OF_RANGE] *)
Definition MYSQL_TIME_WARN_WARNINGS : Z := 1 .| 2.
Definition time_warn_level (warnings : Z) : enum_warning_level :=
  if decide (warnings .& MYSQL_TIME_WARN_WARNINGS ≠ 0) then WARN_LEVEL_WARN else WARN_LEVEL_NOTE.

(** [init] asserts that the condition has no memory root yet. *)
Definition init (c : Sql_condition) (mem_root : N) : option Sql_condition :=
  if decide (mem_root ≠ 0%N ∧ m_mem_root c = 0%N)
  then Some (Condition (identity c) (items c) (m_message_text c) mem_root) else None.

Definition clear_condition (c : Sql_condition) : Sql_condition :=
  Condition (clear_identity (identity c)) (clear_items (items c)) (Str.set_length (m_message_text c) 0) (m_mem_root c).

(** ** Memory *)

(** The members of a [Warning_info] other than its lists. *)
Record Warning_info := Info {
  m_warn_count : list Z; m_current_statement_warn_count : Z; m_current_row_for_warning : Z; m_warn_id : Z;
  m_error_condition : N; m_allow_unlimited_warnings : bool; initialized : bool; m_read_only : bool }.

Inductive enum_diagnostics_status := DA_EMPTY | DA_OK | DA_EOF | DA_OK_BULK | DA_ERROR | DA_DISABLED.

#[global] Instance status_eq_dec : EqDecision enum_diagnostics_status.
Proof. solve_decision. Defined.

Record Diagnostics_area := DA {
  da_errno : Sql_state_errno; da_ucid : N; m_is_sent : bool; m_can_overwrite_status : bool; m_skip_flush : bool;
  m_message : list Z; m_affected_rows : Z; m_last_insert_id : Z; m_statement_warn_count : Z;
  m_status : enum_diagnostics_status; is_bulk_execution : bool; m_main_wi : N }.

(** Warning areas are at addresses, diagnostics areas have identities.  The list
    [m_warn_list] of the area at [w] is the list [warn_list w] of [conds], its
    [m_marked_sql_conditions] the list [warn_list w] of [marks], and [m_wi_stack]
    of the diagnostics area [d] the list [d] of [stacks]. *)
Record mem := Mem {
  wis : gmap N Warning_info;
  conds : PList.store counter fast_push_back;
  marks : BaseList.store;
  stacks : PList.store counter fast_push_back;
  das : gmap nat Diagnostics_area }.

Definition warn_list (w : N) : nat := N.to_nat w.

Definition set_wi (m : mem) (w : N) (W : Warning_info) : mem :=
  Mem (<[w := W]> (wis m)) (conds m) (marks m) (stacks m) (das m).
Definition set_stacks (m : mem) (s : PList.store counter fast_push_back) : mem :=
  Mem (wis m) (conds m) (marks m) s (das m).
Definition set_marks (m : mem) (s : BaseList.store) : mem := Mem (wis m) (conds m) s (stacks m) (das m).
Definition set_da (m : mem) (d : nat) (D : Diagnostics_area) : mem :=
  Mem (wis m) (conds m) (marks m) (stacks m) (<[d := D]> (das m)).
Definition upd_wi (m : mem) (w : N) (f : Warning_info → Warning_info) : option mem :=
  W ← wis m !! w; Some (set_wi m w (f W)).

(** The methods of [Warning_info] without a body in the header; the thread they
    get is the same for all calls. *)
Class WarnExt := {
  wi_clear : mem → N → Z → option mem;
  wi_push_warning : mem → N → Sql_condition_identity → list Z → option (mem * N);
  wi_push_condition : mem → N → N → option (mem * N);
  wi_append_warning_info : mem → N → N → option mem;
  wi_mark_sql_conditions_for_removal : mem → N → option mem;
  wi_remove_marked_sql_conditions : mem → N → option mem;
  wi_reserve_space : mem → N → Z → option mem;
  wi_has_sql_condition : mem → N → list Z → Z → option bool }.

(** ** Warning_info *)

Section operations.
Context `{WarnExt}.

Definition with_id (id : Z) (W : Warning_info) : Warning_info :=
  Info (m_warn_count W) (m_current_statement_warn_count W) (m_current_row_for_warning W) id (m_error_condition W)
    (m_allow_unlimited_warnings W) (initialized W) (m_read_only W).
Definition with_statement_count (n : Z) (W : Warning_info) : Warning_info :=
  Info (m_warn_count W) n (m_current_row_for_warning W) (m_warn_id W) (m_error_condition W)
    (m_allow_unlimited_warnings W) (initialized W) (m_read_only W).
Definition with_row (n : Z) (W : Warning_info) : Warning_info :=
  Info (m_warn_count W) (m_current_statement_warn_count W) n (m_warn_id W) (m_error_condition W)
    (m_allow_unlimited_warnings W) (initialized W) (m_read_only W).
Definition with_error (c : N) (W : Warning_info) : Warning_info :=
  Info (m_warn_count W) (m_current_statement_warn_count W) (m_current_row_for_warning W) (m_warn_id W) c
    (m_allow_unlimited_warnings W) (initialized W) (m_read_only W).
Definition with_read_only (b : bool) (W : Warning_info) : Warning_info :=
  Info (m_warn_count W) (m_current_statement_warn_count W) (m_current_row_for_warning W) (m_warn_id W)
    (m_error_condition W) (m_allow_unlimited_warnings W) (initialized W) b.

Definition wi_opt_clear (m : mem) (w : N) (query_id : Z) : option mem :=
  W ← wis m !! w; if decide (query_id ≠ m_warn_id W) then wi_clear m w query_id else Some m.
Definition wi_reset_for_next_command (m : mem) (w : N) : option mem := upd_wi m w (with_statement_count 0).
Definition wi_unmark_sql_conditions_from_removal (m : mem) (w : N) : option mem :=
  _ ← wis m !! w; Some (set_marks m (BaseList.empty (marks m) (warn_list w))).
Definition wi_mark_condition_for_removal (m : mem) (w cond : N) (alloc : option N) : option mem :=
  _ ← wis m !! w; r ← BaseList.push_back (marks m) (warn_list w) cond alloc; Some (set_marks m r.1).
(** Sums of [uint]. *)
Definition wi_warn_count (m : mem) (w : N) : option Z :=
  W ← wis m !! w;
  n ← m_warn_count W !! level_num WARN_LEVEL_NOTE;
  e ← m_warn_count W !! level_num WARN_LEVEL_ERROR;
  a ← m_warn_count W !! level_num WARN_LEVEL_WARN;
  Some (u32 (u32 (n + e) + a)).
Definition wi_error_count (m : mem) (w : N) : option Z :=
  W ← wis m !! w; m_warn_count W !! level_num WARN_LEVEL_ERROR.
Definition wi_cond_count (m : mem) (w : N) : option Z :=
  _ ← wis m !! w; L ← PList.lists (conds m) !! warn_list w; Some (m_counter (PList.cnt L)).
Definition wi_id (m : mem) (w : N) : option Z := m_warn_id <$> wis m !! w.
Definition wi_set_id (m : mem) (w : N) (id_arg : Z) : option mem := upd_wi m w (with_id id_arg).
Definition wi_is_empty (m : mem) (w : N) : option bool :=
  _ ← wis m !! w; PList.is_empty (conds m) (warn_list w).
(** [ulong] has [ulong_bits] bits. *)
Definition wi_inc_current_row_for_warning (ulong_bits : Z) (m : mem) (w : N) : option mem :=
  upd_wi m w (λ W, with_row (wrapu ulong_bits (m_current_row_for_warning W + 1)) W).
Definition wi_reset_current_row_for_warning (m : mem) (w : N) : option mem := upd_wi m w (with_row 1).
Definition wi_current_row_for_warning (m : mem) (w : N) : option Z := m_current_row_for_warning <$> wis m !! w.
Definition wi_current_statement_warn_count (m : mem) (w : N) : option Z :=
  m_current_statement_warn_count <$> wis m !! w.
Definition wi_set_read_only (m : mem) (w : N) (read_only_arg : bool) : option mem :=
  upd_wi m w (with_read_only read_only_arg).
Definition wi_is_read_only (m : mem) (w : N) : option bool := m_read_only <$> wis m !! w.
Definition wi_get_error_condition (m : mem) (w : N) : option N := m_error_condition <$> wis m !! w.
Definition wi_set_error_condition (m : mem) (w c : N) : option mem := upd_wi m w (with_error c).
Definition wi_clear_error_condition (m : mem) (w : N) : option mem := upd_wi m w (with_error 0).

(** ** Diagnostics_area: the status *)

Definition set_overwrite_status (D : Diagnostics_area) (b : bool) : Diagnostics_area :=
  DA (da_errno D) (da_ucid D) (m_is_sent D) b (m_skip_flush D) (m_message D) (m_affected_rows D) (m_last_insert_id D)
    (m_statement_warn_count D) (m_status D) (is_bulk_execution D) (m_main_wi D).
Definition is_sent (D : Diagnostics_area) : bool := m_is_sent D.
Definition set_is_sent (D : Diagnostics_area) (b : bool) : Diagnostics_area :=
  DA (da_errno D) (da_ucid D) b (m_can_overwrite_status D) (m_skip_flush D) (m_message D) (m_affected_rows D)
    (m_last_insert_id D) (m_statement_warn_count D) (m_status D) (is_bulk_execution D) (m_main_wi D).
Definition is_set (D : Diagnostics_area) : bool := bool_decide (m_status D ≠ DA_EMPTY).
Definition is_error (D : Diagnostics_area) : bool := bool_decide (m_status D = DA_ERROR).
Definition is_eof (D : Diagnostics_area) : bool := bool_decide (m_status D = DA_EOF).
Definition is_ok (D : Diagnostics_area) : bool := bool_decide (m_status D = DA_OK).
Definition is_disabled (D : Diagnostics_area) : bool := bool_decide (m_status D = DA_DISABLED).
Definition set_bulk_execution (D : Diagnostics_area) (bulk : bool) : Diagnostics_area :=
  DA (da_errno D) (da_ucid D) (m_is_sent D) (m_can_overwrite_status D) (m_skip_flush D) (m_message D)
    (m_affected_rows D) (m_last_insert_id D) (m_statement_warn_count D) (m_status D) bulk (m_main_wi D).
Definition is_bulk_op (D : Diagnostics_area) : bool := is_bulk_execution D.
Definition set_skip_flush (D : Diagnostics_area) : Diagnostics_area :=
  DA (da_errno D) (da_ucid D) (m_is_sent D) (m_can_overwrite_status D) true (m_message D) (m_affected_rows D)
    (m_last_insert_id D) (m_statement_warn_count D) (m_status D) (is_bulk_execution D) (m_main_wi D).

(** The accessors assert the status. *)
Definition asserting {A} (l : list enum_diagnostics_status) (D : Diagnostics_area) (a : A) : option A :=
  if decide (m_status D ∈ l) then Some a else None.
Definition message (D : Diagnostics_area) : option (list Z) := asserting [DA_ERROR; DA_OK; DA_OK_BULK] D (m_message D).
Definition skip_flush (D : Diagnostics_area) : option bool := asserting [DA_OK; DA_OK_BULK] D (m_skip_flush D).
Definition sql_errno (D : Diagnostics_area) : option Z := asserting [DA_ERROR] D (get_sql_errno (da_errno D)).
Definition get_sqlstate (D : Diagnostics_area) : option (list Z) := asserting [DA_ERROR] D (m_sqlstate (da_errno D)).
Definition affected_rows (D : Diagnostics_area) : option Z := asserting [DA_OK; DA_OK_BULK] D (m_affected_rows D).
Definition last_insert_id (D : Diagnostics_area) : option Z := asserting [DA_OK; DA_OK_BULK] D (m_last_insert_id D).
Definition statement_warn_count (D : Diagnostics_area) : option Z :=
  asserting [DA_OK; DA_OK_BULK; DA_EOF] D (m_statement_warn_count D).
Definition get_error_condition_identity (D : Diagnostics_area) : option Sql_condition_identity :=
  asserting [DA_ERROR] D (identity_of_state (da_errno D) WARN_LEVEL_ERROR (da_ucid D)).

Definition increment_warning (m : mem) (d : nat) : option mem :=
  D ← das m !! d;
  if decide (m_status D ≠ DA_EMPTY) then
    Some (set_da m d (DA (da_errno D) (da_ucid D) (m_is_sent D) (m_can_overwrite_status D) (m_skip_flush D)
      (m_message D) (m_affected_rows D) (m_last_insert_id D) (u32 (m_statement_warn_count D + 1)) (m_status D)
      (is_bulk_execution D) (m_main_wi D)))
  else Some m.

(** ** Diagnostics_area: the stack of warning areas *)

(** The null pointer of an empty stack has no area. *)
Definition get_warning_info (m : mem) (d : nat) : option N := PList.front (stacks m) d.

Definition push_warning_info (m : mem) (d : nat) (wi : N) : option mem :=
  s ← PList.push_front (stacks m) d wi; Some (set_stacks m s).
(** [pop_warning_info] asserts that there are elements. *)
Definition pop_warning_info (m : mem) (d : nat) : option mem :=
  L ← PList.lists (stacks m) !! d;
  if decide (0 < m_counter (PList.cnt L)) then
    w ← PList.front (stacks m) d; s ← PList.remove (stacks m) d w; Some (set_stacks m s)
  else None.

(** The methods that go to the current area. *)
Definition set_warning_info_id m d id := w ← get_warning_info m d; wi_set_id m w id.
Definition warning_info_id m d := w ← get_warning_info m d; wi_id m w.
Definition warning_info_changed m d wi : option bool :=
  w ← get_warning_info m d; i ← wi_id m w; j ← wi_id m wi; Some (bool_decide (i ≠ j)).
Definition is_warning_info_empty m d := w ← get_warning_info m d; wi_is_empty m w.
Definition current_statement_warn_count m d := w ← get_warning_info m d; wi_current_statement_warn_count m w.
Definition has_sql_condition m d message_str message_length :=
  w ← get_warning_info m d; wi_has_sql_condition m w message_str message_length.
Definition reset_for_next_command m d := w ← get_warning_info m d; wi_reset_for_next_command m w.
Definition clear_warning_info m d id := w ← get_warning_info m d; wi_clear m w id.
Definition opt_clear_warning_info m d query_id := w ← get_warning_info m d; wi_opt_clear m w query_id.
Definition current_row_for_warning m d := w ← get_warning_info m d; wi_current_row_for_warning m w.
Definition inc_current_row_for_warning ulong_bits m d :=
  w ← get_warning_info m d; wi_inc_current_row_for_warning ulong_bits m w.
Definition reset_current_row_for_warning m d := w ← get_warning_info m d; wi_reset_current_row_for_warning m w.
Definition is_warning_info_read_only m d := w ← get_warning_info m d; wi_is_read_only m w.
Definition set_warning_info_read_only m d b := w ← get_warning_info m d; wi_set_read_only m w b.
Definition error_count m d := w ← get_warning_info m d; wi_error_count m w.
Definition warn_count m d := w ← get_warning_info m d; wi_warn_count m w.
Definition cond_count m d := w ← get_warning_info m d; wi_cond_count m w.
Definition sql_conditions m d : option PList.iterator :=
  w ← get_warning_info m d; _ ← wis m !! w; PList.it_init (conds m) (warn_list w).
Definition reserve_space m d count := w ← get_warning_info m d; wi_reserve_space m w count.
Definition push_condition m d sql_condition := w ← get_warning_info m d; wi_push_condition m w sql_condition.
Definition push_warning_ucid (uninit : list Z) m d sql_errno_arg sqlstate level ucid msg :=
  tmp ← identity_of uninit sql_errno_arg sqlstate level ucid;
  w ← get_warning_info m d; wi_push_warning m w tmp msg.
Definition push_warning (uninit : list Z) m d sqlerrno sqlstate level msg :=
  push_warning_ucid uninit m d sqlerrno sqlstate level 0%N msg.
Definition mark_sql_conditions_for_removal m d := w ← get_warning_info m d; wi_mark_sql_conditions_for_removal m w.
Definition unmark_sql_conditions_from_removal m d :=
  w ← get_warning_info m d; wi_unmark_sql_conditions_from_removal m w.
Definition remove_marked_sql_conditions m d := w ← get_warning_info m d; wi_remove_marked_sql_conditions m w.
Definition get_error_condition m d := w ← get_warning_info m d; wi_get_error_condition m w.
Definition copy_sql_conditions_to_wi m d dst_wi := w ← get_warning_info m d; wi_append_warning_info m dst_wi w.
Definition copy_sql_conditions_from_wi m d src_wi := w ← get_warning_info m d; wi_append_warning_info m w src_wi.

End operations.
End SqlError.

(** ** What the declared methods promise *)

Section laws.
Import SqlError.

(** The area at [w] with the members [W] and the conditions [xs]. *)
Definition area (m : mem) (w : N) (W : Warning_info) (xs : list N) : Prop :=
  wis m !! w = Some W ∧ rep (conds m) (warn_list w) xs.

(** Nothing but the area [w] changes. *)
Definition only_area (m m' : mem) (w : N) : Prop :=
  stacks m' = stacks m ∧ das m' = das m ∧
  ∀ v V xs, v ≠ w → area m v V xs → area m' v V xs.

(** [m'] has an area at [w] again, and the others are as in [m]. *)
Definition acts_on (m m' : mem) (w : N) : Prop := only_area m m' w ∧ ∃ W xs, area m' w W xs.

(** [m'] is [m] with conditions added to the area [w]. *)
Definition adds_to (m m' : mem) (w : N) (W : Warning_info) (xs : list N) : Prop :=
  only_area m m' w ∧ ∃ W' ys, area m' w W' (xs ++ ys) ∧ m_warn_id W' = m_warn_id W.

(** [clear] clears all warnings and takes the new id; [push_warning] adds a
    condition unless there is no memory or the maximum is reached;
    [append_warning_info] concatenates; the methods for marked conditions and
    [reserve_space] are about the conditions of the area. *)
Class WarnExt_laws `{WarnExt} : Prop := {
  clear_spec m w W xs id : area m w W xs →
    ∃ m' W', wi_clear m w id = Some m' ∧ only_area m m' w ∧ area m' w W' [] ∧ m_warn_id W' = id ∧
      m_warn_count W' = [0; 0; 0] ∧ m_current_statement_warn_count W' = 0 ∧ m_current_row_for_warning W' = 1;
  push_warning_spec m w W xs c msg : area m w W xs →
    ∃ m' r, wi_push_warning m w c msg = Some (m', r) ∧ adds_to m m' w W xs;
  push_condition_spec m w W xs c : area m w W xs → c ≠ 0%N →
    ∃ m' r, wi_push_condition m w c = Some (m', r) ∧ adds_to m m' w W xs;
  append_spec m w W xs v V ys : area m w W xs → area m v V ys → v ≠ w →
    ∃ m', wi_append_warning_info m w v = Some m' ∧ adds_to m m' w W xs;
  mark_spec m w W xs : area m w W xs →
    ∃ m', wi_mark_sql_conditions_for_removal m w = Some m' ∧ acts_on m m' w;
  remove_marked_spec m w W xs : area m w W xs →
    ∃ m', wi_remove_marked_sql_conditions m w = Some m' ∧ acts_on m m' w;
  reserve_spec m w W xs n : area m w W xs →
    ∃ m', wi_reserve_space m w n = Some m' ∧ acts_on m m' w }.
End laws.

(** ** Areas and stacks *)

Section areas.
Import SqlError.
Implicit Types (m : mem) (d : nat) (w v : N).

(** An area object that can be in a stack. *)
Definition is_area m v : Prop := v ≠ 0%N ∧ is_Some (PList.elems (stacks m) !! v) ∧ ∃ V xs, area m v V xs.

(** The areas [A] exist, and the stack of [d] is [ws]. *)
Definition stack_ok m d (ws A : list N) : Prop :=
  rep (stacks m) d ws ∧ is_Some (das m !! d) ∧ ∀ v, v ∈ A ++ ws → is_area m v.

(** The areas [base] are the same in both memories. *)
Definition same_areas m m' (base : list N) : Prop :=
  ∀ v V xs, v ∈ base → area m v V xs → area m' v V xs.

Lemma upd_wi_acts m w W xs f : area m w W xs →
  upd_wi m w f = Some (set_wi m w (f W)) ∧ area (set_wi m w (f W)) w (f W) xs ∧ only_area m (set_wi m w (f W)) w.
Proof.
  intros [HW Hr]. unfold upd_wi. rewrite HW. split_and!; [done|..].
  - split; [cbn; apply lookup_insert_eq|done].
  - split_and!; [done..|]. intros v V ys Hv [HV Hy]. split; [cbn; by rewrite lookup_insert_ne|done].
Qed.

Lemma only_area_refl m w : only_area m m w.
Proof. by split_and!. Qed.

(** Every area that exists exists afterwards. *)
Lemma acts_on_is_area m m' w v : acts_on m m' w → is_area m v → is_area m' v.
Proof.
  intros [(Hs & _ & Ho) (W & xs & Hw)] (Hz & He & V & ys & Hv). split_and!; [done|by rewrite Hs|].
  destruct (decide (v = w)) as [->|]; eauto.
Qed.

Lemma acts_on_stack_ok m m' w d ws A : acts_on m m' w → stack_ok m d ws A → stack_ok m' d ws A.
Proof.
  intros Ha (Hr & Hd & Hv). pose proof Ha as [(Hs & Hda & _) _]. split_and!.
  - by rewrite Hs.
  - by rewrite Hda.
  - intros v Hin. eapply acts_on_is_area; eauto.
Qed.

Lemma acts_on_same_areas m m' w base : acts_on m m' w → w ∉ base → same_areas m m' base.
Proof. intros [(_ & _ & Ho) _] Hw v V xs Hv. apply Ho. by intros ->. Qed.

Lemma adds_to_acts_on m m' w W xs : adds_to m m' w W xs → acts_on m m' w.
Proof. intros (Ho & W' & ys & Ha & _). split; eauto. Qed.

Lemma front_rep m d w ws : rep (stacks m) d (w :: ws) → get_warning_info m d = Some w.
Proof. intros (_ & _ & _ & c & i & HL & _). unfold get_warning_info, PList.front. by rewrite HL. Qed.

Lemma upd_step m w W xs f : area m w W xs → ∃ m', upd_wi m w f = Some m' ∧ acts_on m m' w.
Proof. intros Ha. destruct (upd_wi_acts m w W xs f Ha) as (-> & Ha' & Ho). eexists. split; [done|]. split; eauto. Qed.

Lemma unmark_acts m w W xs : area m w W xs →
  ∃ m', wi_unmark_sql_conditions_from_removal m w = Some m' ∧ only_area m m' w ∧ area m' w W xs.
Proof.
  intros [HW Hr]. unfold wi_unmark_sql_conditions_from_removal. rewrite HW. cbn. eexists. by split_and!.
Qed.

Lemma increment_acts m d : is_Some (das m !! d) →
  ∃ m', increment_warning m d = Some m' ∧ wis m' = wis m ∧ conds m' = conds m ∧ stacks m' = stacks m ∧ is_Some (das m' !! d).
Proof.
  intros [D HD]. unfold increment_warning. rewrite HD. cbn. destruct (decide _).
  - eexists. split_and!; [done..|]. cbn. rewrite lookup_insert_eq. by eexists.
  - eexists. split_and!; [done..|]. by eexists.
Qed.

Lemma stack_ok_sub m d ws A B : (∀ v, v ∈ B → v ∈ A) → stack_ok m d ws A → stack_ok m d ws B.
Proof. intros Hs (Hr & Hd & Hv). split_and!; [done..|]. intros v [?|?]%elem_of_app; apply Hv, elem_of_app; auto. Qed.

Lemma push_info_ok m d ws A w :
  stack_ok m d ws A → w ∈ A → w ∉ ws →
  ∃ m', push_warning_info m d w = Some m' ∧ stack_ok m' d (w :: ws) A ∧ same_areas m m' (A ++ ws) .
Proof.
  intros (Hr & Hd & Hv) Hw Hn. destruct (Hv w) as (Hz & He & _); [apply elem_of_app; by left|].
  destruct (pl_push_front_rep (stacks m) d ws w Hr) as (s & Hp & Hr' & Hf); [done|].
  unfold push_warning_info. rewrite Hp. cbn. eexists. split; [done|]. split; [|by intros ????].
  split_and!; [done..|]. intros v Hin. assert (v ∈ A ++ ws) as Hin' by set_solver.
  destruct (Hv v Hin') as (? & ? & V & xs & Ha). split_and!; [done| |by exists V, xs].
  cbn. destruct (decide (v ∈ w :: ws)); [by eapply rep_lookup|]. by rewrite (proj2 Hf).
Qed.

Lemma pop_info_ok m d w ws A :
  stack_ok m d (w :: ws) A → Z.of_nat (length (w :: ws)) < 2 ^ 32 →
  ∃ m', pop_warning_info m d = Some m' ∧ stack_ok m' d ws A ∧ same_areas m m' (A ++ w :: ws).
Proof.
  intros (Hr & Hd & Hv) Hl. destruct (pl_remove_rep (stacks m) d [] w ws Hr) as (s & Hp & Hr' & Hf).
  pose proof Hr as (_ & _ & _ & c & i & HL & Hc & _).
  unfold pop_warning_info, PList.front. rewrite HL. cbn in Hc |- *. cbn [length] in Hl. rewrite Hc, wrapu_small by (split; lia).
  rewrite decide_True by lia. cbn. rewrite Hp. cbn. eexists. split; [done|]. split; [|by intros ????].
  split_and!; [done..|]. intros v Hin. assert (v ∈ A ++ w :: ws) as Hin' by set_solver.
  destruct (Hv v Hin') as (? & ? & V & xs & Ha). split_and!; [done| |by exists V, xs].
  cbn. destruct (decide (v ∈ ws)); [by eapply rep_lookup|]. by rewrite (proj2 Hf).
Qed.
End areas.

(** ** Histories of a diagnostics area *)

Section history.
Import SqlError.
Context `{HE : WarnExt, HLaws : !WarnExt_laws} (ulong_bits : Z).
Implicit Types (m : mem) (d : nat) (w v : N).

Inductive op :=
  | PushInfo (w : N) | PopInfo | SetId (id : Z) | ResetForNextCommand | ClearInfo (id : Z) | OptClear (query_id : Z)
  | IncRow | ResetRow | SetReadOnly (b : bool) | ReserveSpace (n : Z) | PushCondition (c : N)
  | PushWarning (uninit : list Z) (errno : Z) (sqlstate : list Z) (level : enum_warning_level) (ucid : N) (msg : list Z)
  | Mark | Unmark | RemoveMarked | CopyFrom (src : N) | CopyTo (dst : N) | IncrementWarning.

#[global] Instance op_eq_dec : EqDecision op.
Proof using Type. solve_decision. Defined.

Definition exec m d (o : op) : option mem :=
  match o with
  | PushInfo w => push_warning_info m d w
  | PopInfo => pop_warning_info m d
  | SetId id => set_warning_info_id m d id
  | ResetForNextCommand => reset_for_next_command m d
  | ClearInfo id => clear_warning_info m d id
  | OptClear q => opt_clear_warning_info m d q
  | IncRow => inc_current_row_for_warning ulong_bits m d
  | ResetRow => reset_current_row_for_warning m d
  | SetReadOnly b => set_warning_info_read_only m d b
  | ReserveSpace n => reserve_space m d n
  | PushCondition c => fst <$> push_condition m d c
  | PushWarning un e st lv u msg => fst <$> push_warning_ucid un m d e st lv u msg
  | Mark => mark_sql_conditions_for_removal m d
  | Unmark => unmark_sql_conditions_from_removal m d
  | RemoveMarked => remove_marked_sql_conditions m d
  | CopyFrom src => copy_sql_conditions_from_wi m d src
  | CopyTo dst => copy_sql_conditions_to_wi m d dst
  | IncrementWarning => increment_warning m d
  end.

Fixpoint exec_all m d (os : list op) : option mem :=
  match os with
  | [] => Some m
  | o :: os => m ← exec m d o; exec_all m d os
  end.

(** The areas an operation gets. *)
Definition op_infos (o : op) : list N :=
  match o with PushInfo w => [w] | CopyFrom v | CopyTo v => [v] | _ => [] end.

(** The stack of a history that starts above the areas [base] and uses no
    method that would act on them: [top] are the areas above, [None] a history
    that pops an area of [base] or acts on one. *)
Definition spec_stack (base top : list N) (o : op) : option (list N) :=
  match o, top with
  | PushInfo w, _ => if decide (w ∉ top ++ base) then Some (w :: top) else None
  | PopInfo, _ :: top => Some top
  | IncrementWarning, _ => Some top
  | _, [] => None
  | CopyFrom v, w :: _ => if decide (v ≠ w) then Some top else None
  | CopyTo v, w :: _ => if decide (v ≠ w ∧ v ∉ base) then Some top else None
  | PushCondition c, _ => if decide (c ≠ 0%N) then Some top else None
  | PushWarning _ _ st _ _ _, _ => if decide (SQLSTATE_LENGTH ≤ length st)%nat then Some top else None
  | _, _ => Some top
  end.

Fixpoint spec_stack_all (base top : list N) (os : list op) : option (list N) :=
  match os with
  | [] => Some top
  | o :: os => top ← spec_stack base top o; spec_stack_all base top os
  end.

Lemma opt_clear_acts m w W xs q : area m w W xs →
  ∃ m' W', wi_opt_clear m w q = Some m' ∧ only_area m m' w ∧
    area m' w W' (if decide (m_warn_id W = q) then xs else []) ∧ m_warn_id W' = q.
Proof using HLaws.
  intros Ha. pose proof Ha as [HW _]. unfold wi_opt_clear. rewrite HW. cbn [mbind option_bind].
  destruct (decide (m_warn_id W = q)) as [<-|Hne].
  - rewrite decide_False by naive_solver. exists m, W. split_and!; [done|apply only_area_refl|done..].
  - rewrite decide_True by done. destruct (clear_spec m w W xs q Ha) as (m' & W' & -> & ? & ? & ? & _). eauto 10.
Qed.

Lemma push_warning_acts m d w W xs un e st lv u msg :
  get_warning_info m d = Some w → area m w W xs → (SQLSTATE_LENGTH ≤ length st)%nat →
  ∃ m', fst <$> push_warning_ucid un m d e st lv u msg = Some m' ∧ adds_to m m' w W xs.
Proof using HLaws.
  intros Hg Ha Hl. unfold push_warning_ucid, identity_of, new_Sql_state_errno_of, set_sqlstate.
  rewrite decide_True by done. cbn [mbind option_bind]. rewrite Hg. cbn [mbind option_bind].
  match goal with |- context [wi_push_warning m w ?c msg] => destruct (push_warning_spec m w W xs c msg Ha) as (m' & r & -> & ?) end.
  cbn. eauto.
Qed.

(** An operation other than pushing and popping acts on the area on top or on
    the destination of a copy, and never on [base]. *)
Lemma exec_current m d base w top o top' :
  (∀ v, o ≠ PushInfo v) → o ≠ PopInfo → o ≠ IncrementWarning →
  stack_ok m d (w :: top ++ base) (op_infos o) → w ∉ base → spec_stack base (w :: top) o = Some top' →
  top' = w :: top ∧ ∃ m' x, exec m d o = Some m' ∧ acts_on m m' x ∧ x ∉ base.
Proof using All.
  intros Hpush Hpop Hinc (Hr & Hd & Hv) Hwb Hspec.
  pose proof (front_rep _ _ _ _ Hr) as Hg.
  destruct (Hv w) as (_ & _ & W & xs & Ha). { apply elem_of_app. right. by left. }
  assert (∀ f, ∃ m', upd_wi m w f = Some m' ∧ acts_on m m' w) as Hupd by (intros f; by eapply upd_step).
  destruct o; try (by destruct (Hpush w0)); try done; cbn in Hspec; repeat case_decide; try done;
    injection Hspec as <-; (split; [done|]); cbn [exec];
    unfold set_warning_info_id, reset_for_next_command, clear_warning_info, opt_clear_warning_info,
      inc_current_row_for_warning, reset_current_row_for_warning, set_warning_info_read_only, reserve_space,
      push_condition, mark_sql_conditions_for_removal, unmark_sql_conditions_from_removal,
      remove_marked_sql_conditions, copy_sql_conditions_from_wi, copy_sql_conditions_to_wi;
    rewrite ?Hg; cbn [mbind option_bind].
  - edestruct Hupd as (m' & ? & ?). eauto.
  - edestruct Hupd as (m' & ? & ?). eauto.
  - destruct (clear_spec m w W xs id Ha) as (m' & W' & -> & ? & ? & _). exists m', w. split_and!; [done| |done]. split; eauto.
  - destruct (opt_clear_acts m w W xs query_id Ha) as (m' & W' & -> & ? & ? & _). exists m', w. split_and!; [done| |done]. split; eauto.
  - edestruct Hupd as (m' & ? & ?). eauto.
  - edestruct Hupd as (m' & ? & ?). eauto.
  - edestruct Hupd as (m' & ? & ?). eauto.
  - destruct (reserve_spec m w W xs n Ha) as (m' & -> & ?). eauto.
  - destruct (push_condition_spec m w W xs c Ha) as (m' & r & -> & ?); [done|]. cbn.
    exists m', w. split_and!; [done|by eapply adds_to_acts_on|done].
  - destruct (push_warning_acts m d w W xs uninit errno sqlstate level ucid msg Hg Ha) as (m' & -> & ?); [done|].
    exists m', w. split_and!; [done|by eapply adds_to_acts_on|done].
  - destruct (mark_spec m w W xs Ha) as (m' & -> & ?). eauto.
  - destruct (unmark_acts m w W xs Ha) as (m' & -> & ? & ?). exists m', w. split_and!; [done| |done]. split; eauto.
  - destruct (remove_marked_spec m w W xs Ha) as (m' & -> & ?). eauto.
  - destruct (Hv src) as (_ & _ & V & ys & Hs); [by left|].
    destruct (append_spec m w W xs src V ys Ha Hs) as (m' & -> & ?); [done|].
    exists m', w. split_and!; [done|by eapply adds_to_acts_on|done].
  - destruct (Hv dst) as (_ & _ & V & ys & Hs); [by left|]. destruct_and!.
    destruct (append_spec m dst V ys w W xs Hs Ha) as (m' & -> & ?); [by intros ->|].
    exists m', dst. split_and!; [done|by eapply adds_to_acts_on|done].
Qed.

Lemma exec_ok m d base top o top' A :
  stack_ok m d (top ++ base) A → (∀ v, v ∈ op_infos o → v ∈ A) → Z.of_nat (length (top ++ base)) < 2 ^ 32 →
  spec_stack base top o = Some top' →
  ∃ m', exec m d o = Some m' ∧ stack_ok m' d (top' ++ base) A ∧ same_areas m m' base.
Proof using All.
  intros Hok HA Hl Hspec. pose proof Hok as (Hr & Hd & Hv). pose proof Hr as (Hnd & _).
  destruct (decide (o = IncrementWarning)) as [->|Hinc].
  { injection Hspec as <-. destruct (increment_acts m d Hd) as (m' & He & Hw & Hc & Hs & Hd').
    exists m'. split; [done|]. split.
    - split_and!; [by rewrite Hs|done|]. intros v Hin. destruct (Hv v Hin) as (? & ? & V & xs & ? & ?).
      split_and!; [done|by rewrite Hs|]. exists V, xs. split; [by rewrite Hw|by rewrite Hc].
    - intros v V xs _ [??]. split; [by rewrite Hw|by rewrite Hc]. }
  destruct (decide (o = PopInfo)) as [->|Hpop].
  { destruct top as [|w top]; [done|]. injection Hspec as <-.
    destruct (pop_info_ok m d w (top ++ base) A Hok Hl) as (m' & He & Hok' & Hsame).
    exists m'. split_and!; [done..|]. intros v V xs Hin. apply Hsame. set_solver. }
  destruct o; try done; cbn in Hspec.
  { case_decide; [|done]. injection Hspec as <-.
    destruct (push_info_ok m d (top ++ base) A w Hok) as (m' & He & Hok' & Hsame); [apply HA; by left|done|].
    exists m'. split_and!; [done..|]. intros v V xs Hin. apply Hsame. set_solver. }
  all: destruct top as [|x top]; [done|];
    assert (x ∉ base) by (apply NoDup_cons in Hnd as [? _]; set_solver);
    match type of HA with context [op_infos ?o] => destruct (exec_current m d base x top o top') as (-> & m' & y & He & Hact & Hy);
      [done..|by eapply stack_ok_sub|done|exact Hspec|] end;
    exists m'; split; [exact He|]; split; [by eapply acts_on_stack_ok|by eapply acts_on_same_areas].
Qed.

Lemma spec_stack_length base top o top' :
  spec_stack base top o = Some top' → (length top' ≤ S (length top))%nat.
Proof using Type.
  destruct o, top; cbn; repeat case_decide; try done; intros [= <-]; cbn; lia.
Qed.

Lemma exec_all_ok os : ∀ m d base top top' A,
  stack_ok m d (top ++ base) A → (∀ v, v ∈ mjoin (op_infos <$> os) → v ∈ A) →
  Z.of_nat (length (top ++ base) + length os) < 2 ^ 32 →
  spec_stack_all base top os = Some top' →
  ∃ m', exec_all m d os = Some m' ∧ stack_ok m' d (top' ++ base) A ∧ same_areas m m' base.
Proof using All.
  induction os as [|o os IH]; intros m d base top top' A Hok HA Hl Hspec; cbn in Hspec.
  { injection Hspec as <-. exists m. split_and!; [done|done|]. by intros ????. }
  destruct (spec_stack base top o) as [top1|] eqn:Eo; [|done]. cbn in Hspec.
  destruct (exec_ok m d base top o top1 A Hok) as (m1 & He & Hok1 & Hs1); [|cbn in Hl; lia|done|].
  { intros v Hv. apply HA. cbn. apply elem_of_app. by left. }
  destruct (IH m1 d base top1 top' A Hok1) as (m2 & He2 & Hok2 & Hs2); [| |done|].
  { intros v Hv. apply HA. cbn. apply elem_of_app. by right. }
  { apply spec_stack_length in Eo. rewrite length_app in *. cbn in Hl. lia. }
  exists m2. split; [cbn; by rewrite He|]. split; [done|]. intros v V xs Hv Ha. eauto.
Qed.

(** ** Statements *)

(** The operations of a statement on its area, with [query_id] [q]. *)
Definition statement_op (q : Z) (o : op) : Prop :=
  match o with
  | OptClear q' => q' = q
  | ResetForNextCommand | IncRow | ResetRow | SetReadOnly _ | Unmark | IncrementWarning => True
  | PushCondition c => c ≠ 0%N
  | PushWarning _ _ st _ _ _ => (SQLSTATE_LENGTH ≤ length st)%nat
  | _ => False
  end.

(** The current area of [d] is [w], of the query [q], with the conditions [xs]. *)
Definition current m d w q (xs : list N) : Prop :=
  get_warning_info m d = Some w ∧ is_Some (das m !! d) ∧ ∃ W, area m w W xs ∧ m_warn_id W = q.

Lemma current_only m m' d w q xs W' ys :
  current m d w q xs → only_area m m' w → area m' w W' (xs ++ ys) → m_warn_id W' = q → ∃ zs, current m' d w q (xs ++ zs).
Proof using Type.
  intros (Hg & Hd & _) (Hs & Hda & _) Ha Hq. exists ys. split_and!; [|by rewrite Hda|eauto].
  unfold get_warning_info. by rewrite Hs.
Qed.

Lemma current_upd m d w q xs f : current m d w q xs → (∀ W, m_warn_id (f W) = m_warn_id W) →
  ∃ m' zs, upd_wi m w f = Some m' ∧ current m' d w q (xs ++ zs).
Proof using Type.
  intros Hc Hf. pose proof Hc as (_ & _ & W & Ha & Hq).
  destruct (upd_wi_acts m w W xs f Ha) as (-> & Ha' & Ho). eexists.
  destruct (current_only m (set_wi m w (f W)) d w q xs (f W) [] Hc Ho) as [zs ?]; [by rewrite app_nil_r|by rewrite Hf|eauto].
Qed.

Lemma current_adds m m' d w q xs W : current m d w q xs → area m w W xs → m_warn_id W = q → adds_to m m' w W xs →
  ∃ zs, current m' d w q (xs ++ zs).
Proof using Type. intros Hc Ha Hq (Ho & W' & ys & Ha' & Hid). eapply current_only; eauto. congruence. Qed.

Lemma statement_step m d w q xs o :
  current m d w q xs → statement_op q o → ∃ m' zs, exec m d o = Some m' ∧ current m' d w q (xs ++ zs).
Proof using All.
  intros Hc Ho. pose proof Hc as (Hg & Hd & W & Ha & Hq).
  destruct o; try done; cbn [exec statement_op] in *;
    unfold reset_for_next_command, opt_clear_warning_info, inc_current_row_for_warning,
      reset_current_row_for_warning, set_warning_info_read_only, push_condition, unmark_sql_conditions_from_removal;
    rewrite ?Hg; cbn [mbind option_bind]; try (by apply current_upd).
  - destruct (opt_clear_acts m w W xs query_id Ha) as (m' & W' & -> & Hoa & Ha' & Hid). subst.
    rewrite decide_True in Ha' by done. exists m'.
    destruct (current_only m m' d w (m_warn_id W) xs W' [] Hc Hoa) as [zs ?]; [by rewrite app_nil_r|done|eauto].
  - destruct (push_condition_spec m w W xs c Ha Ho) as (m' & r & -> & Hadd). cbn. exists m'.
    destruct (current_adds m m' d w q xs W Hc Ha Hq Hadd) as [zs ?]. eauto.
  - destruct (push_warning_acts m d w W xs uninit errno sqlstate level ucid msg Hg Ha Ho) as (m' & -> & Hadd).
    destruct (current_adds m m' d w q xs W Hc Ha Hq Hadd) as [zs ?]. eauto.
  - destruct (unmark_acts m w W xs Ha) as (m' & -> & Hoa & Ha'). exists m'.
    destruct (current_only m m' d w q xs W [] Hc Hoa) as [zs ?]; [by rewrite app_nil_r|done|eauto].
  - destruct (increment_acts m d Hd) as (m' & -> & Hw & Hcs & Hs & Hd'). exists m', [].
    split; [done|]. rewrite app_nil_r. destruct Ha as [? ?]. split_and!; [unfold get_warning_info; by rewrite Hs|done|].
    exists W. split; [|done]. split; [by rewrite Hw|by rewrite Hcs].
Qed.

Lemma statement_steps os : ∀ m d w q xs,
  current m d w q xs → Forall (statement_op q) os → ∃ m' zs, exec_all m d os = Some m' ∧ current m' d w q (xs ++ zs).
Proof using All.
  induction os as [|o os IH]; intros m d w q xs Hc Hos; [exists m, []; by rewrite app_nil_r|].
  apply Forall_cons in Hos as [Ho Hos].
  destruct (statement_step m d w q xs o Hc Ho) as (m1 & z1 & He & Hc1).
  destruct (IH m1 d w q _ Hc1 Hos) as (m2 & z2 & He2 & Hc2).
  exists m2, (z1 ++ z2). rewrite app_assoc. split; [cbn; by rewrite He|done].
Qed.

(** What the readers of the current area return. *)
Lemma current_readers m d w q xs : current m d w q xs →
  cond_count m d = Some (u32 (Z.of_nat (length xs))) ∧ is_warning_info_empty m d = Some (bool_decide (xs = [])) ∧
  warning_info_id m d = Some q.
Proof using Type.
  intros (Hg & _ & W & [HW Hr] & Hq). pose proof Hr as (_ & Hz & _ & c & i & HL & Hc & _).
  unfold cond_count, is_warning_info_empty, warning_info_id, wi_cond_count, wi_is_empty, wi_id, PList.is_empty, PList.front.
  rewrite Hg. cbn. rewrite HW. cbn. rewrite HL. cbn in *. rewrite Hc, Hq. split_and!; [done| |done].
  f_equal. apply bool_decide_ext. destruct xs as [|x xs]; cbn; [done|]. split; [|done].
  intros ->. destruct Hz. by left.
Qed.

End history.

(** ** An instance of the declared methods

    [clear] and [push_warning] as documented, without a maximum; the other
    methods find nothing to do. *)

Section instance.
Import SqlError.

Definition with_conds (m : mem) (s : PList.store PList.counter PList.fast_push_back) : mem :=
  Mem (wis m) s (marks m) (stacks m) (das m).

Definition cleared (id : Z) (W : Warning_info) : Warning_info :=
  Info [0; 0; 0] 0 1 id 0 (m_allow_unlimited_warnings W) (initialized W) (m_read_only W).
Definition counted (n : nat) (W : Warning_info) : Warning_info :=
  Info (alter (λ c, u32 (c + 1)) n (m_warn_count W)) (u32 (m_current_statement_warn_count W + 1))
    (m_current_row_for_warning W) (m_warn_id W) (m_error_condition W) (m_allow_unlimited_warnings W) (initialized W)
    (m_read_only W).

Definition do_clear (m : mem) (w : N) (id : Z) : option mem :=
  W ← wis m !! w; s ← PList.empty (conds m) (warn_list w); Some (with_conds (set_wi m w (cleared id W)) s).

(** An address where there is no condition. *)
Definition new_cond (m : mem) : N := fresh ({[0%N]} ∪ dom (PList.elems (conds m)) : gset N).

Definition do_push (m : mem) (w : N) (level : nat) : option (mem * N) :=
  W ← wis m !! w;
  let c := new_cond m in
  s ← PList.push_back (PList.set_elem (conds m) c (PList.Elem 0 (PList.FirstOf 0))) (warn_list w) c;
  Some (with_conds (set_wi m w (counted level W)) s, c).

#[export] Instance unlimited_ext : WarnExt := {
  wi_clear := do_clear;
  wi_push_warning m w c _ := do_push m w (level_num (get_level (c_level c)));
  wi_push_condition m w _ := do_push m w (level_num WARN_LEVEL_WARN);
  wi_append_warning_info m _ _ := Some m;
  wi_mark_sql_conditions_for_removal m _ := Some m;
  wi_remove_marked_sql_conditions m _ := Some m;
  wi_reserve_space m _ _ := Some m;
  wi_has_sql_condition _ _ _ _ := Some false }.

(** Changing the list of [w] in [conds], with new elements only, acts on [w]. *)
Lemma with_conds_only m w W W' xs s A :
  area m w W xs → PList.frame (conds m) s (warn_list w) A →
  (∀ a, a ∈ A → a ∈ xs ∨ PList.elems (conds m) !! a = None) →
  only_area m (with_conds (set_wi m w W') s) w.
Proof.
  intros [HW Hr] [Hl He] HA. split_and!; [done..|]. intros v V ys Hv [HV Hy].
  assert (warn_list v ≠ warn_list w) as Hne by (unfold warn_list; lia).
  split; [cbn; by rewrite lookup_insert_ne|]. cbn. eapply pl_rep_frame; [exact Hy|by apply Hl|].
  intros a Ha. apply He. intros HaA. destruct (HA a HaA) as [Hx|Hn].
  - by apply (rep_disjoint _ _ _ _ _ a Hr Hy).
  - destruct (rep_lookup _ _ _ a Hy Ha). congruence.
Qed.

Lemma do_clear_area m w W xs id : area m w W xs →
  ∃ m', do_clear m w id = Some m' ∧ only_area m m' w ∧ area m' w (cleared id W) [].
Proof.
  intros Ha. pose proof Ha as [HW (_ & _ & _ & c & i & HL & _)]. unfold do_clear, PList.empty.
  rewrite HW. cbn [mbind option_bind]. rewrite HL. cbn [mbind option_bind].
  eexists. split; [done|]. split; [|split].
  - apply (with_conds_only m w W _ xs _ [] Ha); [|by intros a ?%elem_of_nil].
    split; [|done]. intros k Hk. cbn. by rewrite lookup_insert_ne.
  - cbn. apply lookup_insert_eq.
  - split_and!; [constructor|by intros ?%elem_of_nil|done|]. cbn. rewrite lookup_insert_eq. by eexists _, _.
Qed.

Lemma do_push_adds m w W xs n : area m w W xs → ∃ m' r, do_push m w n = Some (m', r) ∧ adds_to m m' w W xs.
Proof.
  intros Ha. pose proof Ha as [HW Hr]. unfold do_push. rewrite HW. cbn [mbind option_bind].
  assert (new_cond m ∉ ({[0%N]} ∪ dom (PList.elems (conds m)) : gset N)) as Hf
    by (unfold new_cond; apply is_fresh).
  set (c := new_cond m) in *. apply not_elem_of_union in Hf as [Hz Hd].
  apply not_elem_of_singleton in Hz. apply not_elem_of_dom in Hd.
  set (s0 := PList.set_elem _ c _).
  assert (c ∉ xs) as Hc by (intros Hx; destruct (rep_lookup _ _ _ c Hr Hx); congruence).
  destruct (pl_push_back_rep s0 (warn_list w) xs c) as (s & -> & Hr' & Hfr).
  { eapply pl_rep_frame; [exact Hr|done|]. intros a Hx. cbn. rewrite lookup_insert_ne; [done|by intros ->]. }
  { split_and!; [|done..]. cbn. rewrite lookup_insert_eq. by eexists. }
  { intros i. by eexists. }
  cbn. eexists _, _. split; [done|]. split.
  - apply (with_conds_only m w W _ xs s (c :: xs) Ha).
    + split; [exact (proj1 Hfr)|]. intros a Hx. rewrite (proj2 Hfr) by done. cbn.
      rewrite lookup_insert_ne; [done|]. intros ->. apply Hx. by left.
    + intros a [->|?]%elem_of_cons; [by right|by left].
  - exists (counted n W), [c]. split; [|done]. split; [cbn; apply lookup_insert_eq|done].
Qed.

Lemma adds_nothing m w W xs : area m w W xs → adds_to m m w W xs.
Proof. intros Ha. split; [apply only_area_refl|]. exists W, []. by rewrite app_nil_r. Qed.

#[export] Instance unlimited_laws : WarnExt_laws.
Proof.
  split; intros; cbn.
  - destruct (do_clear_area m w W xs id) as (m' & -> & ? & ?); [done|]. by exists m', (cleared id W).
  - by apply do_push_adds.
  - by apply do_push_adds.
  - exists m. split; [done|]. by apply adds_nothing.
  - exists m. split; [done|]. by eapply adds_to_acts_on, adds_nothing.
  - exists m. split; [done|]. by eapply adds_to_acts_on, adds_nothing.
  - exists m. split; [done|]. by eapply adds_to_acts_on, adds_nothing.
Qed.
End instance.

(** ** SQL states *)

Section states.
Import SqlError.

(** A character of a valid SQL state: a digit or a capital letter. *)
Definition sqlstate_char (c : Z) : Prop := 48 ≤ c ≤ 57 ∨ 65 ≤ c ≤ 90.
Definition valid_sqlstate (s : list Z) : Prop := length s = SQLSTATE_LENGTH ∧ Forall sqlstate_char s.

Lemma s8_char c : sqlstate_char c → s8 c = c.
Proof. intros Hc. unfold sqlstate_char in Hc. unfold wraps. rewrite Z.mod_small by lia. lia. Qed.

Lemma set_sqlstate_valid old s rest : length old = S SQLSTATE_LENGTH → length s = SQLSTATE_LENGTH →
  set_sqlstate old (s ++ rest) = Some (s ++ [0]).
Proof.
  intros Ho Hs. unfold set_sqlstate. rewrite decide_True by (rewrite length_app; lia).
  rewrite take_app_le, take_ge by lia. f_equal. rewrite insert_app_r_alt by lia. rewrite Hs, Nat.sub_diag.
  f_equal. pose proof (length_drop old SQLSTATE_LENGTH) as Hd. rewrite Ho in Hd.
  destruct (drop SQLSTATE_LENGTH old) as [|y [|z l]]; cbn in Hd; [lia|done|lia].
Qed.

Lemma strcmp_eq_terminated s : ∀ t, Forall sqlstate_char s → Forall sqlstate_char t →
  strcmp_eq (s ++ [0]) (t ++ [0]) = Some (bool_decide (s = t)).
Proof.
  unfold sqlstate_char. induction s as [|x s IH]; intros [|y t] Hs Ht; decompose_Forall_hyps.
  - done.
  - rewrite decide_True by lia. done.
  - rewrite decide_True by lia. done.
  - destruct (decide (x = y)) as [->|Hne].
    + rewrite !decide_False by lia. rewrite IH by done. f_equal. apply bool_decide_ext. naive_solver.
    + rewrite decide_True by done. rewrite bool_decide_false by naive_solver. done.
Qed.

Lemma sqlstate_one_class s : valid_sqlstate s →
  let a := s ++ [0] in
  let classes := [is_sqlstate_completion a; is_warning a; is_not_found a; is_exception a] in
  Forall is_Some classes ∧ length (filter (λ c, c = Some true) classes) = 1%nat.
Proof.
  intros [Hl Hc]. destruct s as [|x [|y s]]; [done..|]. decompose_Forall_hyps.
  unfold is_sqlstate_completion, is_warning, is_not_found, is_exception. cbn [lookup list_lookup app mbind option_bind].
  rewrite !s8_char by done. split; [repeat constructor; by eexists|].
  unfold sqlstate_char in *. repeat case_bool_decide; try lia; reflexivity.
Qed.
End states.

(** ** Properties *)

Section properties.
Import SqlError.

(** A diagnostics area with the area 5 on its stack, which has a condition, and
    the area 6 outside. *)
Definition info5 : Warning_info := Info [0; 1; 0] 1 1 7 0 false true false.
Definition mem0 : mem :=
  Mem {[ 5%N := info5; 6%N := Info [0; 0; 0] 0 1 8 0 false true false ]}
    (PList.Store {[ 10%N := PList.Elem 0 (PList.FirstOf 5) ]}
      {[ 5%nat := PList.PL 10 (PList.MkCounter 1) (PList.FastPushBack (PList.NextOf 10));
         6%nat := PList.PL 0 (PList.MkCounter 0) (PList.FastPushBack (PList.FirstOf 6)) ]})
    (BaseList.Store ∅ ∅)
    (PList.Store {[ 5%N := PList.Elem 0 (PList.FirstOf 0); 6%N := PList.Elem 0 (PList.FirstOf 9) ]}
      {[ 0%nat := PList.PL 5 (PList.MkCounter 1) (PList.FastPushBack (PList.NextOf 5)) ]})
    {[ 0%nat := DA (new_Sql_state_errno 0) 0 false false false [] 0 0 0 DA_OK false 5 ]}.

Lemma mem0_area5 : area mem0 5 info5 [10%N].
Proof.
  split; [done|]. split_and!; [by apply (bool_decide_unpack _)|by apply (bool_decide_unpack _)|done|]. by eexists _, _.
Qed.

Lemma mem0_area6 : area mem0 6 (Info [0; 0; 0] 0 1 8 0 false true false) [].
Proof.
  split; [done|]. split_and!; [constructor|by intros ?%elem_of_nil|done|]. by eexists _, _.
Qed.

Lemma mem0_stack : rep (stacks mem0) 0 [5%N].
Proof.
  split_and!; [by apply (bool_decide_unpack _)|by apply (bool_decide_unpack _)|done|]. by eexists _, _.
Qed.

(** [C36] The stack of warning areas shields the areas below: a history that pushes
    areas, works on the current one and pops them again has a result and leaves
    the stack and every area below as they were, their counters, ids and lists
    of conditions included. *)
Theorem warning_info_stack_shields `{WarnExt_laws} (ulong_bits : Z) (m : mem) (d : nat) (base : list N) (os : list op) :
  stack_ok m d base (mjoin (op_infos <$> os)) → Z.of_nat (length base + length os) < 2 ^ 32 →
  spec_stack_all base [] os = Some [] →
  ∃ m', exec_all ulong_bits m d os = Some m' ∧ rep (stacks m') d base ∧ same_areas m m' base.
Proof.
  intros Hok Hl Hspec.
  destruct (exec_all_ok ulong_bits os m d base [] [] _ Hok) as (m' & He & (Hr & _) & Hs); [done..|]. eauto.
Qed.

Lemma warning_info_stack_shields_witness :
  ∃ m', exec_all 32 mem0 0 [PushInfo 6; ClearInfo 3; PushWarning [] 1365 [50; 50; 48; 49; 50] WARN_LEVEL_ERROR 0 [];
          IncRow; IncrementWarning; PopInfo] = Some m' ∧
    rep (stacks m') 0 [5%N] ∧ area m' 5 info5 [10%N].
Proof.
  destruct (warning_info_stack_shields 32 mem0 0 [5%N] [PushInfo 6; ClearInfo 3;
    PushWarning [] 1365 [50; 50; 48; 49; 50] WARN_LEVEL_ERROR 0 []; IncRow; IncrementWarning; PopInfo])
    as (m' & He & Hr & Hs).
  - split_and!; [apply mem0_stack|by eexists|]. intros v Hv. cbn in Hv.
    apply elem_of_cons in Hv as [->|Hv].
    + split_and!; [done|by eexists|]. eexists _, _. apply mem0_area6.
    + apply list_elem_of_singleton in Hv as ->. split_and!; [done|by eexists|]. eexists _, _. apply mem0_area5.
  - cbn. lia.
  - reflexivity.
  - exists m'. split_and!; [exact He|exact Hr|]. apply Hs; [by left|apply mem0_area5].
Defined.

(** Within a query, [opt_clear] clears at most once: after the call that is made
    first, the conditions of the area are those of the query, further calls with
    the same query id lose none of them however they are mixed with the other
    operations of the statement, and the counting, emptiness and id of the
    diagnostics area report this list. *)
Theorem opt_clear_keeps_statement_conditions `{WarnExt_laws} (ulong_bits : Z) (m : mem) (d : nat) (w : N)
    (W : Warning_info) (xs : list N) (q : Z) (os1 os2 : list op) :
  get_warning_info m d = Some w → is_Some (das m !! d) → area m w W xs →
  Forall (statement_op q) os1 → Forall (statement_op q) os2 →
  ∃ m1 m2 ys zs, exec_all ulong_bits m d (OptClear q :: os1) = Some m1 ∧ exec_all ulong_bits m1 d os2 = Some m2 ∧
    let before := (if decide (m_warn_id W = q) then xs else []) ++ ys in
    area m1 w (default W (wis m1 !! w)) before ∧ area m2 w (default W (wis m2 !! w)) (before ++ zs) ∧
    cond_count m2 d = Some (u32 (Z.of_nat (length (before ++ zs)))) ∧
    is_warning_info_empty m2 d = Some (bool_decide (before ++ zs = [])) ∧ warning_info_id m2 d = Some q.
Proof.
  intros Hg Hd Ha H1 H2. destruct (opt_clear_acts m w W xs q Ha) as (m0 & W0 & He & (Hs & Hda & _) & Ha0 & Hid).
  set (x0 := if decide _ then _ else _) in *.
  assert (current m0 d w q x0) as Hc0.
  { split_and!; [unfold get_warning_info; by rewrite Hs|by rewrite Hda|eauto]. }
  destruct (statement_steps ulong_bits os1 m0 d w q x0 Hc0 H1) as (m1 & ys & He1 & Hc1).
  destruct (statement_steps ulong_bits os2 m1 d w q _ Hc1 H2) as (m2 & zs & He2 & Hc2).
  exists m1, m2, ys, zs. split; [|split; [done|]; cbn zeta; split_and!].
  - cbn. unfold opt_clear_warning_info. rewrite Hg. cbn. rewrite He. done.
  - destruct Hc1 as (_ & _ & W1 & Ha1 & _). pose proof Ha1 as [-> _]. done.
  - destruct Hc2 as (_ & _ & W2 & Ha2 & _). pose proof Ha2 as [-> _]. done.
  - apply (current_readers _ _ _ _ _ Hc2).
  - apply (current_readers _ _ _ _ _ Hc2).
  - apply (current_readers _ _ _ _ _ Hc2).
Qed.

(** The conditions of query 9, which opens with [opt_clear]. *)
Lemma opt_clear_keeps_statement_conditions_witness :
  let warn := PushWarning [] 1365 [50; 50; 48; 49; 50] WARN_LEVEL_ERROR 0 [] in
  ∃ m1 m2 ys zs, exec_all 32 mem0 0 [OptClear 9; warn] = Some m1 ∧ exec_all 32 m1 0 [OptClear 9; warn] = Some m2 ∧
    area m2 5 (default info5 (wis m2 !! 5%N)) (ys ++ zs) ∧ warning_info_id m2 0 = Some 9.
Proof.
  intros warn.
  destruct (opt_clear_keeps_statement_conditions 32 mem0 0 5 info5 [10%N] 9 [warn] [OptClear 9; warn])
    as (m1 & m2 & ys & zs & H1 & H2 & _ & H3 & _ & _ & H4).
  - reflexivity.
  - by eexists.
  - apply mem0_area5.
  - repeat constructor.
  - repeat constructor.
  - exists m1, m2, ys, zs. split_and!; [exact H1|exact H2|exact H3|exact H4].
Defined.

(** Every valid SQL state, set from a C string, defines exactly one of a
    completion, a warning, a not found and an exception condition, and [eq] tells
    the states apart. *)
Theorem sqlstate_classes (old1 old2 s t rest : list Z) :
  length old1 = S SQLSTATE_LENGTH → length old2 = S SQLSTATE_LENGTH → valid_sqlstate s → valid_sqlstate t →
  ∃ a b, set_sqlstate old1 (s ++ rest) = Some a ∧ set_sqlstate old2 (t ++ rest) = Some b ∧
    let classes := [is_sqlstate_completion a; is_warning a; is_not_found a; is_exception a] in
    Forall is_Some classes ∧ length (filter (λ c, c = Some true) classes) = 1%nat ∧
    has_sql_state a = Some true ∧ SqlError.eq a b = Some (bool_decide (s = t)).
Proof.
  intros H1 H2 [Hs Hsc] [Ht Htc]. exists (s ++ [0]), (t ++ [0]).
  split; [by apply set_sqlstate_valid|]. split; [by apply set_sqlstate_valid|]. cbn zeta. split_and!.
  - apply sqlstate_one_class; done.
  - apply sqlstate_one_class; done.
  - destruct s as [|x s]; [done|]. apply Forall_cons in Hsc as [Hx _]. unfold has_sql_state. cbn.
    rewrite s8_char by done. unfold sqlstate_char in Hx. by rewrite bool_decide_true by lia.
  - apply strcmp_eq_terminated; done.
Qed.

Lemma sqlstate_classes_witness :
  ∃ a b, set_sqlstate (replicate 6 7) [50; 50; 48; 48; 51; 0] = Some a ∧
    set_sqlstate (replicate 6 7) [48; 49; 48; 48; 48; 0] = Some b ∧ is_exception a = Some true ∧
    SqlError.eq a b = Some false.
Proof.
  destruct (sqlstate_classes (replicate 6 7) (replicate 6 7) [50; 50; 48; 48; 51] [48; 49; 48; 48; 48] [0])
    as (a & b & Ha & Hb & _ & _ & _ & He); [done..| | |].
  - split; [done|]. repeat constructor; unfold sqlstate_char; lia.
  - split; [done|]. repeat constructor; unfold sqlstate_char; lia.
  - exists a, b. split_and!; [exact Ha|exact Hb| |exact He]. vm_compute in Ha. injection Ha as <-. reflexivity.
Defined.
End properties.
