(* ===== verification/BoundedQueue.v ===== *)
(** * The bounded priority queue (bounded_queue.h, queues.h)

    [Bounded_queue] keeps the best keys of a series of elements: a QUEUE of
    pointers into the array of sort keys, with room for one key more than it
    keeps.  The functions queues.h declares are the interface [QueueExt]; its laws
    are those of a priority queue, and a queue kept sorted is an instance. *)

From S2P Require Import Prelude.
From Stdlib Require Import ZArith Lia Sorting.Sorted.
From stdpp Require Import base numbers option list gmap fin_maps sorting.
Open Scope Z_scope.
Open Scope cint_scope.

Module BoundedQueue.

(** ** QUEUE

    An element, the address of an entry of the array of sort keys, is the index
    of the entry.  [root] begins at index 1; [max_at_top] is 1 or -1. *)
Record QUEUE := Queue { root : list nat; elements : Z; max_elements : Z; max_at_top : Z }.

Definition queue_first_element (q : QUEUE) : nat := 1.
Definition queue_last_element (q : QUEUE) : Z := elements q.
Definition queue_empty (q : QUEUE) : bool := bool_decide (elements q = 0).
Definition queue_top (q : QUEUE) : option nat := root q !! 1%nat.
Definition queue_element (q : QUEUE) (index : nat) : option nat := root q !! index.
Definition queue_is_full (q : QUEUE) : bool := bool_decide (elements q = max_elements q).
Definition queue_set_max_at_top (q : QUEUE) (set_arg : bool) : QUEUE :=
  Queue (root q) (elements q) (max_elements q) (if set_arg then -1 else 1).
Definition queue_remove_all (q : QUEUE) : QUEUE := Queue (root q) 0 (max_elements q) (max_at_top q).

(** The compare function of the queue, on the elements, is an argument. *)
Class QueueExt := {
  (** [init_queue(queue, max_elements, .., max_at_top, ..)] when memory is or is not available *)
  init_queue : bool → Z → bool → QUEUE * Z;
  queue_insert : (nat → nat → Z) → QUEUE → nat → option QUEUE;
  queue_remove : (nat → nat → Z) → QUEUE → nat → option (QUEUE * nat);
  downheap : (nat → nat → Z) → QUEUE → nat → nat → option QUEUE }.

Section queue.
Context `{QueueExt}.
Definition queue_replace_top (c : nat → nat → Z) (q : QUEUE) : option QUEUE :=
  t ← root q !! 1%nat; downheap c q 1 t.
Definition queue_remove_top (c : nat → nat → Z) (q : QUEUE) : option (QUEUE * nat) :=
  queue_remove c q (queue_first_element q).
End queue.

(** ** Bounded_queue *)

Section bounded.
Context `{QueueExt} {Element Key : Type}.
(** The function [get_ptr_compare] returns for keys of a length. *)
Context (get_ptr_compare : Z → Key → Key → Z).

(** [m_sort_keys] is an array of addresses of keys; [keys] are the keys.
    [m_compare] is the compare function the queue has got. *)
Record state := St {
  m_sort_keys : list N; m_compare_length : Z; m_keymaker : option (Element → Key); m_compare : option (Key → Key → Z);
  m_queue : QUEUE; keys : gmap N Key }.

Definition UINT_MAX : Z := 2 ^ 32 - 1.

(** The constructor fills the queue with zeros. *)
Definition new_Bounded_queue (ks : gmap N Key) : state := St [] 0 None None (Queue [] 0 0 0) ks.

Definition set_queue (s : state) (q : QUEUE) : state :=
  St (m_sort_keys s) (m_compare_length s) (m_keymaker s) (m_compare s) q (keys s).

(** [mem]: whether there is memory.  A result other than 0 is an error. *)
Definition init (mem : bool) (s : state) (max : Z) (at_top : bool) (compare : option (Key → Key → Z)) (compare_length : Z)
    (keymaker : Element → Key) (sort_keys : list N) : state * Z :=
  let s := St sort_keys compare_length (Some keymaker) (m_compare s) (m_queue s) (keys s) in
  if decide (UINT_MAX - 1 ≤ max) then (s, 1) else
  let compare := match compare with Some f => f | None => get_ptr_compare compare_length end in
  let '(q, r) := init_queue mem (u32 (u32 max + 1)) at_top in
  (St sort_keys compare_length (Some keymaker) (Some compare) q (keys s), r).

(** The key of an entry. *)
Definition key_at (s : state) (i : nat) : option Key := a ← m_sort_keys s !! i; keys s !! a.

(** What the compare function says of two entries. *)
Definition compare_at (s : state) (i j : nat) : Z :=
  match m_compare s, key_at s i, key_at s j with
  | Some f, Some a, Some b => f a b
  | _, _, _ => 0
  end.

(** [( *m_keymaker)(m_sort_param, m_sort_keys[i], element)] *)
Definition make_key (s : state) (i : nat) (e : Element) : option state :=
  f ← m_keymaker s; a ← m_sort_keys s !! i; _ ← keys s !! a;
  Some (St (m_sort_keys s) (m_compare_length s) (m_keymaker s) (m_compare s) (m_queue s) (<[a := f e]> (keys s))).

Definition is_initialized (s : state) : bool := bool_decide (0 < max_elements (m_queue s)).
Definition num_elements (s : state) : Z := elements (m_queue s).

Definition push (s : state) (e : Element) : option state :=
  if negb (is_initialized s) then None else
  if queue_is_full (m_queue s) then
    pq_top ← queue_top (m_queue s);
    s ← make_key s pq_top e;
    q ← queue_replace_top (compare_at s) (m_queue s);
    Some (set_queue s q)
  else
    let i := Z.to_nat (elements (m_queue s)) in
    s ← make_key s i e;
    q ← queue_insert (compare_at s) (m_queue s) i;
    Some (set_queue s q).

(** [pop] removes the element 0; the null pointer, which the code returns for an
    empty queue when assertions are off, is [None] of the result. *)
Definition pop (s : state) : option (state * option nat) :=
  s ← (if queue_is_full (m_queue s) then
         '(q, _) ← queue_remove (compare_at s) (m_queue s) 0; Some (set_queue s q)
       else Some s);
  if decide (elements (m_queue s) = 0) then Some (s, None) else
  '(q, i) ← queue_remove (compare_at s) (m_queue s) 0;
  Some (set_queue s q, Some i).

Fixpoint push_all (s : state) (es : list Element) : option state :=
  match es with
  | [] => Some s
  | e :: es => s ← push s e; push_all s es
  end.

End bounded.
Arguments state : clear implicits.
End BoundedQueue.

(** ** What the queue promises *)

Section laws.
Import BoundedQueue.

(** The elements in the queue. *)
Definition members (q : QUEUE) : list nat := take (Z.to_nat (elements q)) (drop 1 (root q)).

(** Whether [x] may be above [y] in a queue with the sign [sg]. *)
Definition above (c : nat → nat → Z) (sg : Z) (x y : nat) : Prop := c x y * sg ≤ 0.

(** [c] orders the elements [l]. *)
Definition ordered (c : nat → nat → Z) (l : list nat) : Prop :=
  (∀ x y, x ∈ l → y ∈ l → Z.sgn (c x y) = - Z.sgn (c y x)) ∧
  ∀ x y z, x ∈ l → y ∈ l → z ∈ l → c x y ≤ 0 → c y z ≤ 0 → c x z ≤ 0.

(** Same size and direction. *)
Definition same_shape (q q' : QUEUE) : Prop := max_elements q' = max_elements q ∧ max_at_top q' = max_at_top q.

(** A priority queue: [heap] is what its functions keep. *)
Class QueueExt_laws `{QueueExt} := {
  heap : (nat → nat → Z) → QUEUE → Prop;
  heap_top c q : heap c q → 0 < elements q →
    ∃ t r, root q !! 1%nat = Some t ∧ members q = t :: r ∧ ∀ x, x ∈ r → above c (max_at_top q) t x;
  heap_compare c c' q : (∀ x y, x ∈ members q → y ∈ members q → c' x y = c x y) → heap c q → heap c' q;
  init_queue_spec n b c : 0 < n < 2 ^ 32 →
    ∃ q, init_queue true n b = (q, 0) ∧ elements q = 0 ∧ max_elements q = n ∧ max_at_top q = (if b then -1 else 1) ∧ heap c q;
  queue_insert_spec c q x : heap c q → ordered c (x :: members q) → 0 ≤ elements q < max_elements q →
    max_at_top q = 1 ∨ max_at_top q = -1 →
    ∃ q', queue_insert c q x = Some q' ∧ members q' ≡ₚ x :: members q ∧ elements q' = elements q + 1 ∧ same_shape q q' ∧ heap c q';
  replace_top_spec c c' q t r : heap c q → members q = t :: r → NoDup (members q) → ordered c' (members q) →
    max_at_top q = 1 ∨ max_at_top q = -1 →
    (∀ x y, x ∈ r → y ∈ r → c' x y = c x y) →
    ∃ q', downheap c' q 1 t = Some q' ∧ members q' ≡ₚ members q ∧ elements q' = elements q ∧ same_shape q q' ∧ heap c' q' }.
End laws.

(** ** Pushing *)

Section pushing.
Import BoundedQueue.
Context `{HQ : QueueExt, HQL : !QueueExt_laws} {Element Key : Type}.
Context (f : Key → Key → Z) (km : Element → Key) (sg : Z).

(** [f] is the order of the keys. *)
Definition key_order : Prop :=
  (∀ x y, Z.sgn (f x y) = - Z.sgn (f y x)) ∧ ∀ x y z, f x y ≤ 0 → f y z ≤ 0 → f x z ≤ 0.

(** The queue keeps [x] rather than [y]. *)
Definition better (x y : Key) : Prop := f y x * sg ≤ 0.

Context (Hord : key_order) (Hsg : sg = 1 ∨ sg = -1).

Implicit Types s : state Element Key.

Definition keys_of s (l : list nat) : list Key := omap (key_at s) l.

(** The array of keys and the queue fit each other; the entries in the queue are
    the first of the array. *)
Record shape s : Prop := {
  sh_compare : m_compare s = Some f;
  sh_keymaker : m_keymaker s = Some km;
  sh_sign : max_at_top (m_queue s) = sg;
  sh_nodup : NoDup (m_sort_keys s);
  sh_room : max_elements (m_queue s) ≤ Z.of_nat (length (m_sort_keys s));
  sh_keys a : a ∈ m_sort_keys s → is_Some (keys s !! a);
  sh_size : 0 ≤ elements (m_queue s) ≤ max_elements (m_queue s);
  sh_max : 0 < max_elements (m_queue s);
  sh_members : members (m_queue s) ≡ₚ seq 0 (Z.to_nat (elements (m_queue s)));
  sh_heap : heap (compare_at s) (m_queue s) }.

(** Of the keys [seen], a queue that is not full has all; a full one has on top
    a key that is not kept, and the others are the best. *)
Definition holds s (seen : list Key) : Prop :=
  if queue_is_full (m_queue s) then
    ∃ t k kept lost, root (m_queue s) !! 1%nat = Some t ∧ key_at s t = Some k ∧
      keys_of s (members (m_queue s)) ≡ₚ k :: kept ∧ seen ≡ₚ kept ++ k :: lost ∧
      ∀ x y, x ∈ kept → y ∈ k :: lost → better x y
  else keys_of s (members (m_queue s)) ≡ₚ seen.

Lemma better_trans x y z : better x y → better y z → better x z.
Proof using Hord Hsg.
  unfold better. destruct Hord as [Hs Ht]. destruct Hsg as [-> | ->]; rewrite ?Z.mul_1_r.
  - intros. eauto.
  - pose proof (Hs y x) as H1. pose proof (Hs z y) as H2. pose proof (Hs z x) as H3. pose proof (Ht x y z) as H4. lia.
Qed.

Lemma member_lookup s i : shape s → i ∈ members (m_queue s) → ∃ a k, m_sort_keys s !! i = Some a ∧ keys s !! a = Some k ∧ key_at s i = Some k.
Proof using Type.
  intros Hs Hi. rewrite (sh_members s Hs) in Hi. apply elem_of_seq in Hi.
  destruct (lookup_lt_is_Some_2 (m_sort_keys s) i) as [a Ha].
  { pose proof (sh_room s Hs). pose proof (sh_size s Hs). lia. }
  destruct (sh_keys s Hs a) as [k Hk]; [by eapply list_elem_of_lookup_2|].
  exists a, k. split_and!; [done..|]. unfold key_at. by rewrite Ha.
Qed.

Lemma compare_at_ordered s l : m_compare s = Some f → (∀ i, i ∈ l → is_Some (key_at s i)) → ordered (compare_at s) l.
Proof using Hord.
  intros Hc Hl. destruct Hord as [Hs Ht]. split.
  - intros x y [a Ha]%Hl [b Hb]%Hl. unfold compare_at. rewrite Hc, Ha, Hb. apply Hs.
  - intros x y z [a Ha]%Hl [b Hb]%Hl [d Hd]%Hl. unfold compare_at. rewrite Hc, Ha, Hb, Hd. apply Ht.
Qed.

(** The key of an entry is written, and no other. *)
Lemma make_key_spec s i e a k :
  shape s → m_sort_keys s !! i = Some a → keys s !! a = Some k →
  ∃ s', make_key s i e = Some s' ∧ key_at s' i = Some (km e) ∧ (∀ j, j ≠ i → key_at s' j = key_at s j) ∧
    m_queue s' = m_queue s ∧ m_sort_keys s' = m_sort_keys s ∧ m_compare s' = Some f ∧ m_keymaker s' = Some km ∧
    (∀ b, b ∈ m_sort_keys s' → is_Some (keys s' !! b)).
Proof using Type.
  intros Hs Ha Hk. unfold make_key. rewrite (sh_keymaker s Hs), Ha. cbn. rewrite Hk. cbn.
  eexists. split; [done|]. cbn. unfold key_at. cbn. rewrite Ha. cbn. split_and!.
  - apply lookup_insert_eq.
  - intros j Hj. destruct (m_sort_keys s !! j) as [b|] eqn:Eb; [|done]. cbn.
    apply lookup_insert_ne. intros ->. apply Hj. by eapply NoDup_lookup; [apply (sh_nodup s Hs)| |].
  - done.
  - done.
  - apply (sh_compare s Hs).
  - done.
  - intros b Hb. destruct (decide (b = a)) as [->|]; [rewrite lookup_insert_eq; by eexists|].
    rewrite lookup_insert_ne by done. by apply (sh_keys s Hs).
Qed.

(** Elements whose keys are the same compare the same. *)
Lemma compare_at_same s s' x y :
  m_compare s' = m_compare s → key_at s' x = key_at s x → key_at s' y = key_at s y → compare_at s' x y = compare_at s x y.
Proof using Type. intros Hc Hx Hy. unfold compare_at. by rewrite Hc, Hx, Hy. Qed.

Lemma keys_of_same s s' l : (∀ i, i ∈ l → key_at s' i = key_at s i) → keys_of s' l = keys_of s l.
Proof using Type.
  unfold keys_of. induction l as [|i l IH]; intros Hl; [done|]. cbn. rewrite Hl by left. rewrite IH; [done|]. intros j Hj. apply Hl. by right.
Qed.

Lemma keys_of_perm s l l' : l ≡ₚ l' → keys_of s l ≡ₚ keys_of s l'.
Proof using Type. unfold keys_of. by intros ->. Qed.

(** The key on top of a queue is the one the others are better than. *)
Lemma top_key s : shape s → 0 < elements (m_queue s) →
  ∃ t k r, root (m_queue s) !! 1%nat = Some t ∧ members (m_queue s) = t :: r ∧ key_at s t = Some k ∧
    keys_of s (members (m_queue s)) = k :: keys_of s r ∧ ∀ x, x ∈ keys_of s r → better x k.
Proof using Type.
  intros Hs He. destruct (heap_top _ _ (sh_heap s Hs) He) as (t & r & Ht & Hm & Hab).
  destruct (member_lookup s t Hs) as (a & k & _ & _ & Hk); [rewrite Hm; by left|].
  exists t, k, r. split_and!; [done..| |].
  - rewrite Hm. cbn. by rewrite Hk.
  - intros x (i & Hi & Hx)%list_elem_of_omap. specialize (Hab i Hi). unfold above, compare_at in Hab.
    rewrite (sh_compare s Hs), Hk, Hx, (sh_sign s Hs) in Hab. done.
Qed.

(** A queue that just became full or was kept full. *)
Lemma full_holds s k kept' lost seen :
  shape s → 0 < elements (m_queue s) → queue_is_full (m_queue s) = true →
  keys_of s (members (m_queue s)) ≡ₚ k :: kept' → seen ≡ₚ k :: kept' ++ lost →
  (∀ x y, x ∈ kept' → y ∈ lost → better x y) → holds s seen.
Proof using Hord Hsg.
  intros Hs He Hfull Hkeys Hseen Hbest. unfold holds. rewrite Hfull.
  destruct (top_key s Hs He) as (t & kt & r & Ht & Hm & Hkt & Hko & Hbt).
  exists t, kt, (keys_of s r), lost. rewrite Hko in Hkeys |- *. split_and!; [done..| |].
  - rewrite Hseen, <- Permutation_middle, !app_comm_cons. by rewrite Hkeys.
  - intros x y Hx [->|Hy]%elem_of_cons; [by apply Hbt|].
    assert (kt ∈ k :: kept') as [->|Hin]%elem_of_cons by (rewrite <- Hkeys; by left).
    + apply Permutation_cons_inv in Hkeys. apply Hbest; [by rewrite <- Hkeys|done].
    + eapply better_trans; [by apply Hbt|]. by apply Hbest.
Qed.

Lemma seq_snoc_perm (l : list nat) n i : l ≡ₚ i :: seq 0 n → i = n → l ≡ₚ seq 0 (S n).
Proof using Type. intros -> ->. rewrite seq_S. cbn. by rewrite Permutation_cons_append. Qed.

Lemma push_room s e seen :
  shape s → holds s seen → queue_is_full (m_queue s) = false →
  ∃ s', push s e = Some s' ∧ shape s' ∧ holds s' (km e :: seen) ∧ num_elements s' = num_elements s + 1 ∧
    max_elements (m_queue s') = max_elements (m_queue s).
Proof using All.
  intros Hs Hh Hfull. unfold holds in Hh. rewrite Hfull in Hh. apply bool_decide_eq_false in Hfull as Hne.
  pose proof (sh_size s Hs) as Hsz. pose proof (sh_room s Hs) as Hroom. pose proof (sh_max s Hs) as Hmax.
  set (i := Z.to_nat (elements (m_queue s))).
  destruct (lookup_lt_is_Some_2 (m_sort_keys s) i) as [a Ha]; [unfold i; lia|].
  destruct (sh_keys s Hs a) as [k Hk]; [by eapply list_elem_of_lookup_2|].
  destruct (make_key_spec s i e a k Hs Ha Hk) as (s1 & Hmk & Hki & Hkj & Hq & Hsk & Hcmp & Hkm & Hkeys).
  assert (∀ j, j ∈ members (m_queue s) → j ≠ i) as Hni.
  { intros j Hj ->. rewrite (sh_members s Hs) in Hj. apply elem_of_seq in Hj. unfold i in Hj. lia. }
  assert (heap (compare_at s1) (m_queue s)) as Hheap.
  { eapply heap_compare; [|apply (sh_heap s Hs)]. intros x y Hx Hy.
    apply compare_at_same; [by rewrite Hcmp, (sh_compare s Hs)|by apply Hkj, Hni|by apply Hkj, Hni]. }
  destruct (queue_insert_spec (compare_at s1) (m_queue s) i Hheap) as (q & Hins & Hperm & Hel & [Hmx Hmt] & Hheap').
  { apply compare_at_ordered; [done|]. intros j [->|Hj]%elem_of_cons; [by eexists|].
    rewrite Hkj by auto. destruct (member_lookup s j Hs Hj) as (? & ? & _ & _ & ->). by eexists. }
  { lia. } { by rewrite (sh_sign s Hs). }
  assert (shape (set_queue s1 q)) as Hs'.
  { constructor; cbn; rewrite ?Hsk; [done|done|by rewrite Hmt, (sh_sign s Hs)|apply (sh_nodup s Hs)|lia| |lia|lia| |done].
    - rewrite <- Hsk. done.
    - rewrite Hel, Z2Nat.inj_add by lia. rewrite Nat.add_1_r. apply (seq_snoc_perm _ _ i); [|done].
      by rewrite Hperm, (sh_members s Hs). }
  assert (keys_of (set_queue s1 q) (members q) ≡ₚ km e :: seen) as Hko.
  { rewrite (keys_of_perm _ _ _ Hperm). cbn. replace (key_at (set_queue s1 q) i) with (Some (km e)) by done.
    cbn. apply Permutation_cons; [done|]. rewrite <- Hh. fold (keys_of (set_queue s1 q) (members (m_queue s))).
    erewrite keys_of_same; [done|]. intros j Hj. by apply Hkj, Hni. }
  exists (set_queue s1 q). split_and!; [|done| |done|done].
  - unfold push, is_initialized. rewrite bool_decide_true by done. cbn. rewrite Hfull.
    fold i. rewrite Hmk. cbn. rewrite Hq, Hins. done.
  - destruct (queue_is_full q) eqn:Ef; [|unfold holds; cbn; by rewrite Ef].
    eapply (full_holds _ (km e) seen []); [done|cbn; lia|done|done|by rewrite app_nil_r|].
    by intros x y _ ?%elem_of_nil.
Qed.

Lemma push_full s e seen :
  shape s → holds s seen → queue_is_full (m_queue s) = true →
  ∃ s', push s e = Some s' ∧ shape s' ∧ holds s' (km e :: seen) ∧ num_elements s' = num_elements s ∧
    max_elements (m_queue s') = max_elements (m_queue s).
Proof using All.
  intros Hs Hh Hfull. unfold holds in Hh. rewrite Hfull in Hh. pose proof (bool_decide_eq_true_1 _ Hfull) as Heq.
  pose proof (sh_size s Hs) as Hsz. pose proof (sh_room s Hs) as Hroom. pose proof (sh_max s Hs) as Hmax.
  destruct (top_key s Hs) as (t & k & r & Ht & Hm & Hk & Hko & _); [lia|].
  destruct Hh as (t' & k' & kept & lost & Ht' & Hk' & Hkk & Hseen & Hbest).
  rewrite Ht in Ht'. injection Ht' as <-. rewrite Hk in Hk'. injection Hk' as <-.
  rewrite Hko in Hkk. apply Permutation_cons_inv in Hkk.
  destruct (member_lookup s t Hs) as (a & k0 & Ha & Hka & _); [rewrite Hm; by left|].
  destruct (make_key_spec s t e a k0 Hs Ha Hka) as (s1 & Hmk & Hki & Hkj & Hq & Hsk & Hcmp & Hkm & Hkeys).
  assert (NoDup (members (m_queue s))) as Hnd by (rewrite (sh_members s Hs); apply NoDup_seq).
  assert (t ∉ r) as Htr by (rewrite Hm in Hnd; by apply NoDup_cons in Hnd as [? _]).
  assert (∀ j, j ∈ r → key_at s1 j = key_at s j) as Hr by (intros j Hj; apply Hkj; by intros ->).
  destruct (replace_top_spec (compare_at s) (compare_at s1) (m_queue s) t r (sh_heap s Hs) Hm Hnd)
    as (q & Hdown & Hperm & Hel & [Hmx Hmt] & Hheap').
  { apply compare_at_ordered; [done|]. intros j Hj. destruct (decide (j = t)) as [->|]; [by eexists|].
    rewrite Hkj by done. destruct (member_lookup s j Hs Hj) as (? & ? & _ & _ & ->). by eexists. }
  { by rewrite (sh_sign s Hs). }
  { intros x y Hx Hy. apply compare_at_same; [by rewrite Hcmp, (sh_compare s Hs)|by apply Hr..]. }
  assert (shape (set_queue s1 q)) as Hs'.
  { constructor; cbn; rewrite ?Hsk, ?Hel, ?Hmx; [done|done|by rewrite Hmt, (sh_sign s Hs)|apply (sh_nodup s Hs)|lia| |lia|lia| |done].
    - rewrite <- Hsk. done.
    - by rewrite Hperm, (sh_members s Hs). }
  assert (keys_of (set_queue s1 q) (members q) ≡ₚ km e :: kept) as Hko'.
  { rewrite (keys_of_perm _ _ _ Hperm), Hm. cbn. replace (key_at (set_queue s1 q) t) with (Some (km e)) by done.
    cbn. apply Permutation_cons; [done|]. rewrite <- Hkk. fold (keys_of (set_queue s1 q) r).
    erewrite keys_of_same; [done|]. exact Hr. }
  exists (set_queue s1 q). split_and!; [|done| |done|done].
  - unfold push, is_initialized. rewrite bool_decide_true by done. cbn. rewrite Hfull. unfold queue_top. rewrite Ht. cbn.
    rewrite Hmk. cbn. unfold queue_replace_top. rewrite Hq, Ht. cbn. by rewrite Hdown.
  - eapply (full_holds _ (km e) kept (k :: lost)); [done|cbn; lia| |done| |done].
    + apply bool_decide_eq_true. cbn. lia.
    + by rewrite Hseen.
Qed.

Lemma push_step s e seen :
  shape s → holds s seen →
  ∃ s', push s e = Some s' ∧ shape s' ∧ holds s' (km e :: seen) ∧ max_elements (m_queue s') = max_elements (m_queue s) ∧
    num_elements s' = Z.min (num_elements s + 1) (max_elements (m_queue s)).
Proof using All.
  intros Hs Hh. pose proof (sh_size s Hs) as Hsz. unfold num_elements. destruct (queue_is_full (m_queue s)) eqn:Ef.
  - destruct (push_full s e seen Hs Hh Ef) as (s' & ? & ? & ? & Hn & ?). unfold num_elements in Hn.
    exists s'. split_and!; [done..|]. apply bool_decide_eq_true in Ef. lia.
  - destruct (push_room s e seen Hs Hh Ef) as (s' & ? & ? & ? & Hn & ?). unfold num_elements in Hn.
    exists s'. split_and!; [done..|]. apply bool_decide_eq_false in Ef. lia.
Qed.

Lemma push_all_holds es : ∀ s seen,
  shape s → holds s seen →
  ∃ s', push_all s es = Some s' ∧ shape s' ∧ holds s' (reverse (km <$> es) ++ seen) ∧
    max_elements (m_queue s') = max_elements (m_queue s) ∧
    num_elements s' = Z.min (num_elements s + Z.of_nat (length es)) (max_elements (m_queue s)).
Proof using All.
  induction es as [|e es IH]; intros s seen Hs Hh.
  - exists s. pose proof (sh_size s Hs). unfold num_elements. split_and!; [done..|]. cbn. lia.
  - destruct (push_step s e seen Hs Hh) as (s1 & He & Hs1 & Hh1 & Hm1 & Hn1).
    destruct (IH s1 _ Hs1 Hh1) as (s2 & He2 & Hs2 & Hh2 & Hm2 & Hn2). exists s2. split_and!; [|done| |lia|].
    + cbn. by rewrite He.
    + rewrite fmap_cons, reverse_cons, <- app_assoc. done.
    + rewrite Hn2, Hn1, Hm1. cbn [length]. lia.
Qed.

(** The length of what a full queue keeps. *)
Lemma keys_of_length s : shape s → length (keys_of s (members (m_queue s))) = Z.to_nat (elements (m_queue s)).
Proof using Type.
  intros Hs. trans (length (members (m_queue s))); [|by rewrite (sh_members s Hs), length_seq].
  assert (∀ l, (∀ i, i ∈ l → is_Some (key_at s i)) → length (keys_of s l) = length l) as Hl.
  { unfold keys_of. induction l as [|i l IH]; intros Hl; [done|]. cbn.
    destruct (Hl i) as [k ->]; [by left|]. cbn. f_equal. apply IH. intros j Hj. apply Hl. by right. }
  apply Hl. intros i Hi. destruct (member_lookup s i Hs Hi) as (? & ? & _ & _ & ->). by eexists.
Qed.

End pushing.

(** ** An instance: the elements are kept in order *)

Section instance.
Import BoundedQueue.

Fixpoint put (c : nat → nat → Z) (sg : Z) (x : nat) (l : list nat) : list nat :=
  match l with
  | [] => [x]
  | y :: l => if decide (c x y * sg ≤ 0) then x :: y :: l else y :: put c sg x l
  end.

(** Index 0 of [root] is not used. *)
Definition of_members (l : list nat) (q : QUEUE) : QUEUE :=
  Queue (0%nat :: l) (Z.of_nat (length l)) (max_elements q) (max_at_top q).

#[export] Instance sorted_queue : QueueExt := {
  init_queue mem n b := if mem then (Queue [0%nat] 0 n (if b then -1 else 1), 0) else (Queue [] 0 0 0, 1);
  queue_insert c q x := Some (of_members (put c (max_at_top q) x (members q)) q);
  queue_remove c q i :=
    if decide (1 ≤ i ≤ length (members q))%nat then
      x ← members q !! (i - 1)%nat; Some (of_members (delete (i - 1)%nat (members q)) q, x)
    else None;
  downheap c q i x :=
    Some (of_members (put c (max_at_top q) x (delete (i - 1)%nat (members q))) q) }.

Lemma put_perm c sg x l : put c sg x l ≡ₚ x :: l.
Proof. induction l as [|y l IH]; cbn; [done|]. case_decide; [done|]. rewrite IH. constructor. Qed.

Lemma members_of l q : members (of_members l q) = l.
Proof. unfold members. cbn. rewrite drop_0, Nat2Z.id. by apply take_ge. Qed.

(** [x] may be above [y], or [y] above [x]. *)
Lemma above_total c l sg x y : ordered c l → x ∈ l → y ∈ l → sg = 1 ∨ sg = -1 → ~ c x y * sg ≤ 0 → c y x * sg ≤ 0.
Proof. intros [Hs _] Hx Hy Hsg Hn. pose proof (Hs x y Hx Hy) as H. destruct Hsg as [-> | ->]; lia. Qed.

Lemma above_trans c l sg x y z : ordered c l → x ∈ l → y ∈ l → z ∈ l → sg = 1 ∨ sg = -1 →
  c x y * sg ≤ 0 → c y z * sg ≤ 0 → c x z * sg ≤ 0.
Proof.
  intros [Hs Ht] Hx Hy Hz Hsg. pose proof (Hs x y Hx Hy) as H1. pose proof (Hs y z Hy Hz) as H2.
  pose proof (Hs x z Hx Hz) as H3. pose proof (Ht x y z Hx Hy Hz). pose proof (Ht z y x Hz Hy Hx).
  destruct Hsg as [-> | ->]; lia.
Qed.

Lemma put_sorted c sg x l : ordered c (x :: l) → sg = 1 ∨ sg = -1 →
  StronglySorted (above c sg) l → StronglySorted (above c sg) (put c sg x l).
Proof.
  intros Ho Hsg. induction l as [|y l IH]; cbn; intros Hl; [by repeat constructor|].
  apply StronglySorted_inv in Hl as [Hl Hy]. case_decide as Hc.
  - constructor; [by constructor|]. constructor; [done|]. rewrite Forall_forall in Hy |- *. intros z Hz.
    eapply (above_trans c _ sg x y z Ho); [set_solver..|done|done|by apply Hy].
  - constructor.
    + apply IH; [|done]. destruct Ho as [Hs Ht]. split; intros; [apply Hs|eapply Ht]; set_solver.
    + rewrite put_perm. constructor; [|done]. eapply (above_total c _ sg x y Ho); [set_solver..|done|done].
Qed.

Lemma sorted_ext c c' sg l : (∀ x y, x ∈ l → y ∈ l → c' x y = c x y) →
  StronglySorted (above c sg) l → StronglySorted (above c' sg) l.
Proof.
  induction l as [|x l IH]; intros Hc; [constructor|]. intros [Hl Hx]%StronglySorted_inv. constructor.
  - apply IH; [|done]. intros; apply Hc; by right.
  - rewrite Forall_forall in Hx |- *. intros y Hy. unfold above. rewrite Hc by (by left || by right). by apply Hx.
Qed.

#[export] Program Instance sorted_queue_laws : QueueExt_laws := {
  heap c q := (∃ x, root q = x :: members q) ∧ elements q = Z.of_nat (length (members q)) ∧
    StronglySorted (above c (max_at_top q)) (members q) }.
Next Obligation.
  intros c q ([x Hr] & He & Hs) Hpos. destruct (members q) as [|t r] eqn:Em; [cbn in He; lia|].
  apply StronglySorted_inv in Hs as [_ Ht]. rewrite Forall_forall in Ht. exists t, r. rewrite Hr. by split_and!.
Qed.
Next Obligation. intros c c' q Hc (Hr & He & Hs). split_and!; [done..|]. by eapply sorted_ext. Qed.
Next Obligation.
  intros n b c Hn. eexists. split; [done|]. split_and!; [done..| |done|constructor]. by exists 0%nat.
Qed.
Next Obligation.
  intros c q x (Hr & He & Hs) Ho Hsz Hsg. eexists. split; [done|]. rewrite members_of. split_and!.
  - apply put_perm.
  - cbn. rewrite put_perm. cbn. lia.
  - done.
  - by eexists.
  - done.
  - by apply put_sorted.
Qed.
Next Obligation.
  intros c c' q t r (Hr & He & Hs) Hm Hnd Ho Hsg Hc. eexists. split; [done|]. rewrite members_of, Hm in *. cbn.
  apply StronglySorted_inv in Hs as [Hs _]. split_and!.
  - apply put_perm.
  - rewrite put_perm. cbn in *. lia.
  - done.
  - by eexists.
  - done.
  - apply put_sorted; [done..|]. by eapply sorted_ext.
Qed.
End instance.

(** ** Properties *)

Section properties.
Import BoundedQueue.

(** [C37] A bounded queue of [n] keys, initialised for [max_at_top] true or false, takes
    any series of elements without an invalid access.  While there are at most [n],
    it has the keys of all; after more, it has [n + 1] keys, one of which is on top
    and is not kept, and the other [n] are the [n] smallest, respectively largest,
    keys of all elements that were pushed. *)
Theorem bounded_queue_keeps_best `{QueueExt_laws} {Element Key : Type} (gpc : Z → Key → Key → Z) (s0 : state Element Key)
    (n : nat) (at_top : bool) (compare : Key → Key → Z) (len : Z) (km : Element → Key) (sort_keys : list N)
    (es : list Element) :
  key_order compare → Z.of_nat n < UINT_MAX - 1 → NoDup sort_keys → (n < length sort_keys)%nat →
  (∀ a, a ∈ sort_keys → is_Some (keys s0 !! a)) →
  ∃ s1 s2, init gpc true s0 (Z.of_nat n) at_top (Some compare) len km sort_keys = (s1, 0) ∧ push_all s1 es = Some s2 ∧
    num_elements s2 = Z.of_nat (Nat.min (length es) (n + 1)) ∧
    let ks := keys_of s2 (members (m_queue s2)) in
    if decide (length es ≤ n)%nat then ks ≡ₚ km <$> es
    else ∃ t k kept lost, queue_top (m_queue s2) = Some t ∧ key_at s2 t = Some k ∧ ks ≡ₚ k :: kept ∧
      length kept = n ∧ km <$> es ≡ₚ kept ++ k :: lost ∧
      ∀ x y, x ∈ kept → y ∈ k :: lost → better compare (if at_top then -1 else 1) x y.
Proof.
  intros Hord Hn Hnd Hlen Hkeys. unfold UINT_MAX in Hn. set (sg := if at_top then -1 else 1).
  assert (sg = 1 ∨ sg = -1) as Hsg by (unfold sg; destruct at_top; auto).
  assert (u32 (u32 (Z.of_nat n) + 1) = Z.of_nat n + 1) as Hw by (rewrite (wrapu_small 32 (Z.of_nat n)), wrapu_small by (split; lia); lia).
  set (s' := St sort_keys len (Some km) (Some compare) (Queue [] 0 0 0) (keys s0)).
  destruct (init_queue_spec (Z.of_nat n + 1) at_top (compare_at s')) as (q & Hi & He & Hm & Hs & Hh); [lia|].
  unfold init. rewrite decide_False by (unfold UINT_MAX; lia). rewrite Hw, Hi.
  assert (members q = []) as Hmem by (unfold members; rewrite He; done).
  set (s1 := St _ _ _ _ q _).
  assert (shape compare km sg s1) as Hsh.
  { constructor; cbn; [done|done|done|done|lia|done|lia|lia| |].
    - by rewrite Hmem, He.
    - eapply heap_compare; [|exact Hh]. by rewrite Hmem; intros x y ?%elem_of_nil. }
  destruct (push_all_holds compare km sg Hord Hsg es s1 [] Hsh) as (s2 & Hp & Hs2 & Hh2 & Hm2 & Hn2).
  { unfold holds, queue_is_full. rewrite bool_decide_false by (cbn; lia). cbn. by rewrite Hmem. }
  rewrite app_nil_r in Hh2. unfold num_elements in Hn2. change (m_queue s1) with q in Hm2, Hn2. rewrite He, Hm in Hn2. rewrite Hm in Hm2.
  exists s1, s2. split; [done|]. split; [done|]. split; [unfold num_elements; lia|]. cbn zeta.
  unfold holds, queue_is_full in Hh2. pose proof (keys_of_length _ _ _ _ Hs2) as Hkl.
  case_bool_decide as Hf; case_decide; [lia| | |lia].
  2: by rewrite Hh2, reverse_Permutation.
  destruct Hh2 as (t & k & kept & lost & Ht & Hk & Hp1 & Hp2 & Hb).
  exists t, k, kept, lost. rewrite reverse_Permutation in Hp2. split_and!; [done..| |done|done].
  rewrite Hp1 in Hkl. cbn in Hkl. lia.
Qed.

(** The two smallest of four numbers. *)
Lemma bounded_queue_keeps_best_witness :
  let s0 := new_Bounded_queue (Element:=Z) {[ 10%N := 0; 11%N := 0; 12%N := 0 ]} in
  ∃ s2, push_all (init (λ _ a b, a - b) true s0 2 true (Some Z.sub) 8 id [10; 11; 12]%N).1 [5; 1; 7; 3] = Some s2 ∧
    ∃ t k kept lost, queue_top (m_queue s2) = Some t ∧ key_at s2 t = Some k ∧
      [5; 1; 7; 3] ≡ₚ kept ++ k :: lost ∧ length kept = 2%nat ∧ ∀ x y, x ∈ kept → y ∈ k :: lost → x ≤ y.
Proof.
  intros s0.
  destruct (bounded_queue_keeps_best (λ _ a b, a - b) s0 2 true Z.sub 8 id [10; 11; 12]%N [5; 1; 7; 3])
    as (s1 & s2 & Hi & Hp & _ & t & k & kept & lost & H1 & H2 & _ & H3 & H4 & H5).
  - split; [intros x y|intros x y z]; lia.
  - unfold UINT_MAX. lia.
  - by apply (bool_decide_unpack _).
  - cbn. lia.
  - intros a Ha. repeat (apply elem_of_cons in Ha as [->|Ha]; [by eexists|]). by apply elem_of_nil in Ha.
  - exists s2. rewrite <- Hp. change (Z.of_nat 2) with 2 in Hi. rewrite Hi. split; [done|].
    exists t, k, kept, lost. split_and!; [done|done|exact H4|done|].
    intros x y Hx Hy. specialize (H5 x y Hx Hy). unfold better in H5. lia.
Defined.

(** A queue for too many elements is refused and left as it is. *)
Theorem bounded_queue_init_refuses `{QueueExt} {Element Key : Type} (gpc : Z → Key → Key → Z) (s0 : state Element Key)
    (mem : bool) (max : Z) (at_top : bool) (compare : option (Key → Key → Z)) (len : Z) (km : Element → Key) (sort_keys : list N) :
  UINT_MAX - 1 ≤ max →
  ∃ s1, init gpc mem s0 max at_top compare len km sort_keys = (s1, 1) ∧ m_queue s1 = m_queue s0 ∧
        is_initialized s1 = is_initialized s0.
Proof. intros Hm. unfold init. rewrite decide_True by done. eexists. by split_and!. Qed.

(** [pop] asks for the element 0, and the first element of a QUEUE is 1: in a
    queue that refuses an index outside of its elements, [pop] has no result for
    a queue that has elements. *)
Theorem bounded_queue_pop_index_0 {Element Key : Type} (s : state Element Key) :
  elements (m_queue s) ≠ 0 → @pop sorted_queue Element Key s = None.
Proof.
  intros He. unfold pop. destruct (queue_is_full (m_queue s)); cbn; [done|]. by rewrite decide_False by done.
Qed.
End properties.
