(* ===== verification/KeyPack.v ===== *)
(** * Packed keys and records (my_compare.h, field.h)

    The lengths in front of key parts, the bit fields of records, and the
    integers ENUM and SET columns are stored as.  A pointer is an offset in the
    buffer; macros that move a pointer return the new offset. *)

From S2P Require Import Prelude ByteOrder MyIsamPack Bitmap.
From Stdlib Require Import ZArith Lia.
From stdpp Require Import base numbers option list.
Open Scope Z_scope.
Open Scope cint_scope.

Module KeyPack.

(** ** Key lengths *)

Definition get_key_length (m : list Z) (key : nat) : option (Z * nat) :=
  c ← rd m key 0;
  if decide (c ≠ 255) then Some (c, (key + 1)%nat)
  else length ← Mi.mi_uint2korr m (key + 1); Some (length, (key + 3)%nat).

Definition get_key_length_rdonly (m : list Z) (key : nat) : option Z :=
  c ← rd m key 0; if decide (c ≠ 255) then Some c else Mi.mi_uint2korr m (key + 1).

(** The length, its own length and the pointer. *)
Definition get_key_pack_length (m : list Z) (key : nat) : option (Z * Z * nat) :=
  c ← rd m key 0;
  if decide (c ≠ 255) then Some (c, 1, (key + 1)%nat)
  else length ← Mi.mi_uint2korr m (key + 1); Some (length, 3, (key + 3)%nat).

Definition store_key_length_inc (m : list Z) (key : nat) (length : Z) : option (list Z * nat) :=
  if decide (length < 255) then m ← wr key 0 length m; Some (m, (key + 1)%nat)
  else m ← wr key 0 255 m; m ← Mi.mi_int2store m (key + 1) length; Some (m, (key + 3)%nat).

Definition size_to_store_key_length (length : Z) : Z := if decide (length < 255) then 1 else 3.

(** ** Bit fields

    [1 << len] is an [int]: a length of 31 or more is undefined. *)
Definition get_rec_bits (m : list Z) (ptr : nat) (ofs len : Z) : option Z :=
  if decide (31 ≤ len) then None else
  b0 ← rd m ptr 0;
  val ← (if decide (8 < ofs + len) then b1 ← rd m ptr 1; Some (u16 (u16 b0 .| (u16 b1 ≪ 8))) else Some (u16 b0));
  Some (u8 ((val ≫ ofs) .& ((1 ≪ len) - 1))).

Definition set_rec_bits (bits : Z) (m : list Z) (ptr : nat) (ofs len : Z) : option (list Z) :=
  if decide (31 ≤ len) then None else
  b0 ← rd m ptr 0;
  m ← wr ptr 0 ((b0 .& Z.lnot (((1 ≪ len) - 1) ≪ ofs)) .| (bits ≪ ofs)) m;
  if decide (8 < ofs + len) then
    b1 ← rd m ptr 1;
    wr ptr 1 ((b1 .& Z.lnot ((1 ≪ (len - 8 + ofs)) - 1)) .| (bits ≫ (8 - ofs))) m
  else Some m.

Definition clr_rec_bits (m : list Z) (bit_ptr : nat) (bit_ofs bit_len : Z) : option (list Z) :=
  set_rec_bits 0 m bit_ptr bit_ofs bit_len.

(** ** Sizes and big-endian integers of field.h *)

Definition get_enum_pack_length (elements : Z) : Z := if decide (elements < 256) then 1 else 2.
(** [elements] is an [int]; the division truncates. *)
Definition get_set_pack_length (elements : Z) : Z :=
  let len := u32 (Z.quot (elements + 7) 8) in if decide (4 < len) then 8 else len.
Definition number_storage_requirement (n : Z) : Z :=
  if decide (n < 256) then 1 else if decide (n < 65536) then 2 else if decide (n < 16777216) then 3 else 4.

Section bigendian.
Context (lw : Z).

Definition store_bigendian (num : Z) (m : list Z) (to : nat) (bytes : Z) : option (list Z) :=
  match bytes with
  | 1 => Mi.mi_int1store m to num
  | 2 => Mi.mi_int2store m to num
  | 3 => Mi.mi_int3store lw m to num
  | 4 => Mi.mi_int4store lw m to num
  | 5 => Mi.mi_int5store lw m to num
  | 6 => Mi.mi_int6store lw m to num
  | 7 => Mi.mi_int7store lw m to num
  | 8 => Mi.mi_int8store lw m to num
  | _ => None
  end.

(** The result is a [longlong]. *)
Definition read_bigendian (m : list Z) (from : nat) (bytes : Z) : option Z :=
  s64 <$> match bytes with
  | 1 => Mi.mi_uint1korr m from
  | 2 => Mi.mi_uint2korr m from
  | 3 => Mi.mi_uint3korr m from
  | 4 => Mi.mi_uint4korr m from
  | 5 => Mi.mi_uint5korr m from
  | 6 => Mi.mi_uint6korr m from
  | 7 => Mi.mi_uint7korr m from
  | 8 => Mi.mi_sint8korr m from
  | _ => None
  end.
End bigendian.

End KeyPack.

(** ** Bits of a buffer *)

Section bits.
Import KeyPack.

(** The low [n] bits. *)
Lemma ones_bit n i : 0 ≤ n → 0 ≤ i → Z.testbit ((1 ≪ n) - 1) i = bool_decide (i < n).
Proof.
  intros Hn Hi. replace ((1 ≪ n) - 1) with (Z.ones n) by (rewrite Z.ones_equiv, Z.shiftl_1_l; lia).
  case_bool_decide; [apply Z.ones_spec_low; lia|apply Z.ones_spec_high; lia].
Qed.

(** Bits of a buffer after one byte was written. *)
Lemma wr_bits m p i v m' k : 0 ≤ k → wr p i v m = Some m' →
  byte_bit m' k = if decide (k / 8 = Z.of_nat (p + i)) then Z.testbit v (k mod 8) else byte_bit m k.
Proof.
  intros Hk. unfold wr. destruct (m !! (p + i)%nat) eqn:E; intros [= <-]. unfold byte_bit. case_decide as Hd.
  - rewrite Hd, Nat2Z.id, list_lookup_insert_eq by (by eapply lookup_lt_Some).
    rewrite wrapu_testbit by lia. pose proof (Z.mod_pos_bound k 8 ltac:(lia)). by rewrite bool_decide_true by lia.
  - rewrite list_lookup_insert_ne; [done|]. intros He. apply Hd. rewrite He, Z2Nat.id; [done|]. apply Z.div_pos; lia.
Qed.

Lemma rd_bits m p i b k : rd m p i = Some b → 0 ≤ k → k / 8 = Z.of_nat (p + i) → byte_bit m k = Z.testbit b (k mod 8).
Proof. unfold rd, byte_bit. intros Hb Hk ->. by rewrite Nat2Z.id, Hb. Qed.

Lemma rd_bits_at m p i b j : rd m p i = Some b → 0 ≤ j < 8 → byte_bit m (8 * Z.of_nat (p + i) + j) = Z.testbit b j.
Proof.
  intros Hb Hj. rewrite (rd_bits m p i b); [|done|lia|].
  - f_equal. rewrite Z.add_comm, Z.mul_comm, Z.mod_add by lia. apply Z.mod_small. lia.
  - rewrite Z.mul_comm, Z.div_add_l by lia. rewrite Z.div_small by lia. lia.
Qed.

Lemma rd_some m p i : (p + i < length m)%nat → ∃ b, rd m p i = Some b.
Proof. apply lookup_lt_is_Some_2. Qed.

Lemma wr_some m p i v : (p + i < length m)%nat → ∃ m', wr p i v m = Some m'.
Proof. intros Hl. unfold wr. destruct (lookup_lt_is_Some_2 _ _ Hl) as [b ->]. by eexists. Qed.

(** A number is the bits below its width. *)
Lemma small_bit n z i : 0 ≤ z < 2 ^ n → n ≤ i → Z.testbit z i = false.
Proof.
  intros Hz Hi. destruct (decide (z = 0)) as [->|]; [apply Z.bits_0|]. apply Z.bits_above_log2; [lia|].
  apply Z.lt_le_trans with n; [|done]. apply Z.log2_lt_pow2; lia.
Qed.

(** The part of the window in its first byte. *)
Lemma window_low b bits ofs len i :
  0 ≤ ofs → 0 ≤ len → 0 ≤ bits < 2 ^ len → 0 ≤ i →
  Z.testbit ((b .& Z.lnot (((1 ≪ len) - 1) ≪ ofs)) .| (bits ≪ ofs)) i =
    if decide (0 ≤ i - ofs < len) then Z.testbit bits (i - ofs) else Z.testbit b i.
Proof.
  intros Hofs Hlen Hbits Hi. rewrite Z.lor_spec, Z.land_spec, Z.lnot_spec, !Z.shiftl_spec by lia.
  destruct (decide (i < ofs)) as [Hlt|Hge].
  - rewrite !(Z.testbit_neg_r _ (i - ofs)) by lia. rewrite decide_False by lia. cbn. by rewrite orb_false_r, andb_true_r.
  - rewrite ones_bit by lia. case_bool_decide; case_decide; try lia; cbn.
    + by rewrite andb_false_r.
    + rewrite (small_bit len bits) by lia. by rewrite andb_true_r, orb_false_r.
Qed.

(** The part in its second byte. *)
Lemma window_high b bits ofs len i :
  0 ≤ ofs < 8 → 8 < ofs + len → 0 ≤ bits < 2 ^ len → 0 ≤ i →
  Z.testbit ((b .& Z.lnot ((1 ≪ (len - 8 + ofs)) - 1)) .| (bits ≫ (8 - ofs))) i =
    if decide (i + 8 - ofs < len) then Z.testbit bits (i + 8 - ofs) else Z.testbit b i.
Proof.
  intros Hofs Hlen Hbits Hi. rewrite Z.lor_spec, Z.land_spec, Z.lnot_spec, Z.shiftr_spec, ones_bit by lia.
  replace (i + (8 - ofs)) with (i + 8 - ofs) by lia. case_bool_decide; case_decide; try lia; cbn.
  - by rewrite andb_false_r.
  - rewrite (small_bit len bits) by lia. by rewrite andb_true_r, orb_false_r.
Qed.

(** The bits of the window and the others after its first byte was written. *)
Lemma window_first m ptr b bits ofs len m' k :
  0 ≤ ofs < 8 → 0 ≤ len → 0 ≤ bits < 2 ^ len → rd m ptr 0 = Some b →
  wr ptr 0 ((b .& Z.lnot (((1 ≪ len) - 1) ≪ ofs)) .| (bits ≪ ofs)) m = Some m' → 0 ≤ k →
  byte_bit m' k = let j := k - (8 * Z.of_nat ptr + ofs) in
    if decide (0 ≤ j < len ∧ k / 8 = Z.of_nat ptr) then Z.testbit bits j else byte_bit m k.
Proof.
  intros Hofs Hlen Hbits Hb Hm' Hk. cbn zeta. rewrite (wr_bits _ _ _ _ _ _ Hk Hm').
  pose proof (Z.mod_pos_bound k 8 ltac:(lia)) as Hm8. pose proof (Z.div_mod k 8 ltac:(lia)) as Hdm.
  rewrite Nat.add_0_r in *. destruct (decide (k / 8 = Z.of_nat ptr)) as [E|E]; [|by rewrite decide_False by tauto].
  rewrite window_low by lia. rewrite <- (rd_bits m ptr 0 b k Hb Hk) by lia.
  replace (k mod 8 - ofs) with (k - (8 * Z.of_nat ptr + ofs)) by lia. by repeat case_decide; try lia.
Qed.

(** The window of [len] bits at bit [ofs] of the byte [ptr] gets the bits, and no
    other bit changes. *)
Lemma set_rec_bits_spec bits m ptr ofs len :
  0 ≤ ofs < 8 → 0 ≤ len ≤ 8 → 0 ≤ bits < 2 ^ len →
  (8 * Z.of_nat ptr + ofs + len ≤ 8 * Z.of_nat (length m)) → (ptr < length m)%nat →
  ∃ m', set_rec_bits bits m ptr ofs len = Some m' ∧ length m' = length m ∧
    ∀ k, 0 ≤ k → byte_bit m' k =
      (let j := k - (8 * Z.of_nat ptr + ofs) in if decide (0 ≤ j < len) then Z.testbit bits j else byte_bit m k).
Proof.
  intros Hofs Hlen Hbits Hroom Hptr. unfold set_rec_bits. rewrite decide_False by lia.
  destruct (rd_some m ptr 0) as [b0 Hb0]; [lia|]. rewrite Hb0. cbn [mbind option_bind].
  set (v0 := _ .| _). destruct (wr_some m ptr 0 v0) as [m1 Hm1]; [lia|]. rewrite Hm1. cbn [mbind option_bind].
  pose proof (wr_length _ _ _ _ _ Hm1) as Hl1.
  pose proof (λ k, window_first m ptr b0 bits ofs len m1 k Hofs (proj1 Hlen) Hbits Hb0 Hm1) as Hbit1. cbn zeta in Hbit1.
  destruct (decide (8 < ofs + len)) as [Hcross|Hin].
  - destruct (rd_some m1 ptr 1) as [b1 Hb1]; [lia|]. rewrite Hb1. cbn [mbind option_bind].
    set (v1 := _ .| _). destruct (wr_some m1 ptr 1 v1) as [m2 Hm2]; [lia|]. rewrite Hm2. exists m2.
    split; [done|]. split; [rewrite (wr_length _ _ _ _ _ Hm2); lia|]. intros k Hk. cbn zeta.
    rewrite (wr_bits m1 ptr 1 v1 m2 k Hk Hm2).
    pose proof (Z.mod_pos_bound k 8 ltac:(lia)) as Hm8. pose proof (Z.div_mod k 8 ltac:(lia)) as Hdm.
    destruct (decide (k / 8 = Z.of_nat (ptr + 1))) as [E1|E1].
    + unfold v1. rewrite window_high by lia. rewrite <- (rd_bits m1 ptr 1 b1 k Hb1 Hk E1), Hbit1 by done.
      replace (k mod 8 + 8 - ofs) with (k - (8 * Z.of_nat ptr + ofs)) by lia. by repeat case_decide; try lia.
    + rewrite Hbit1 by done. by repeat case_decide; try lia.
  - exists m1. split; [done|]. split; [done|]. intros k Hk. cbn zeta. rewrite Hbit1 by done.
    pose proof (Z.mod_pos_bound k 8 ltac:(lia)) as Hm8. pose proof (Z.div_mod k 8 ltac:(lia)) as Hdm.
    by repeat case_decide; try lia.
Qed.

(** The bits of the window are what is read. *)
Lemma get_rec_bits_spec m ptr ofs len :
  bytes_ok m → 0 ≤ ofs < 8 → 0 ≤ len ≤ 8 →
  (8 * Z.of_nat ptr + ofs + len ≤ 8 * Z.of_nat (length m)) → (ptr < length m)%nat →
  ∃ v, get_rec_bits m ptr ofs len = Some v ∧
    ∀ i, 0 ≤ i → Z.testbit v i = bool_decide (i < len) && byte_bit m (8 * Z.of_nat ptr + ofs + i).
Proof.
  intros Hm Hofs Hlen Hroom Hptr. unfold get_rec_bits. rewrite decide_False by lia.
  destruct (rd_some m ptr 0) as [b0 Hb0]; [lia|]. rewrite Hb0. cbn [mbind option_bind].
  assert (∀ val, (∀ j, 0 ≤ j < ofs + len → Z.testbit val j = byte_bit m (8 * Z.of_nat ptr + j)) →
    ∀ i, 0 ≤ i → Z.testbit (u8 ((val ≫ ofs) .& ((1 ≪ len) - 1))) i = bool_decide (i < len) && byte_bit m (8 * Z.of_nat ptr + ofs + i)) as Hval.
  { intros val Hv i Hi. rewrite wrapu_testbit, Z.land_spec, Z.shiftr_spec, ones_bit by lia.
    destruct (decide (i < len)).
    - rewrite !bool_decide_true, Hv by lia. rewrite andb_true_r. cbn. f_equal. lia.
    - rewrite (bool_decide_false (i < len)) by lia. by rewrite !andb_false_r. }
  assert (∀ j, 0 ≤ j < 8 → Z.testbit b0 j = byte_bit m (8 * Z.of_nat ptr + j)) as H0.
  { intros j Hj. rewrite <- (rd_bits_at m ptr 0 b0 j) by done. f_equal. lia. }
  pose proof (λ i b, Forall_lookup_1 _ m i b Hm) as Hby. unfold rd in *. apply Hby in Hb0 as Hr0.
  destruct (decide (8 < ofs + len)) as [Hcross|Hin].
  - destruct (lookup_lt_is_Some_2 m (ptr + 1)) as [b1 Hb1]; [lia|]. rewrite Hb1. apply Hby in Hb1 as Hr1.
    cbn [mbind option_bind]. eexists. split; [done|]. apply Hval. intros j Hj.
    rewrite (wrapu_small 16 b0), (wrapu_small 16 b1), wrapu_testbit, Z.lor_spec, Z.shiftl_spec by (unfold in_u; lia).
    rewrite bool_decide_true by lia. cbn [andb]. destruct (decide (j < 8)).
    + rewrite (Z.testbit_neg_r b1), orb_false_r by lia. apply H0. lia.
    + rewrite (small_bit 8 b0) by lia. cbn [orb]. rewrite <- (rd_bits_at m ptr 1 b1 (j - 8)) by (done || lia). f_equal. lia.
  - cbn [mbind option_bind]. eexists. split; [done|]. apply Hval. intros j Hj.
    rewrite (wrapu_small 16 b0) by (unfold in_u; lia). apply H0. lia.
Qed.

Lemma wr_bytes_ok m p i v m' : bytes_ok m → wr p i v m = Some m' → bytes_ok m'.
Proof.
  unfold wr. intros Hm. destruct (_ !! _); intros [= <-]. apply Forall_insert; [done|].
  apply (wrapu_range 8). lia.
Qed.

Lemma set_rec_bits_ok bits m ptr ofs len m' : bytes_ok m → set_rec_bits bits m ptr ofs len = Some m' → bytes_ok m'.
Proof.
  unfold set_rec_bits. intros Hm. case_decide; [done|]. destruct (rd m ptr 0); [|done]. cbn.
  destruct (wr _ _ _ _) as [m1|] eqn:E1; [|done]. cbn. apply wr_bytes_ok in E1; [|done]. case_decide; [|naive_solver].
  destruct (rd m1 ptr 1); [|done]. cbn. by apply wr_bytes_ok.
Qed.
End bits.

(** ** Properties *)

Section properties.
Import KeyPack.

(** Bit fields of up to 8 bits at any bit offset, within a byte or across two:
    [get_rec_bits] returns what [set_rec_bits] stored, every bit outside of the
    field keeps its value, and [clr_rec_bits] makes the field zero. *)
Theorem rec_bits_roundtrip bits m ptr ofs len :
  bytes_ok m → 0 ≤ ofs < 8 → 0 < len ≤ 8 → 0 ≤ bits < 2 ^ len →
  8 * Z.of_nat ptr + ofs + len ≤ 8 * Z.of_nat (length m) →
  ∃ m' m0, set_rec_bits bits m ptr ofs len = Some m' ∧ get_rec_bits m' ptr ofs len = Some bits ∧
    clr_rec_bits m' ptr ofs len = Some m0 ∧ get_rec_bits m0 ptr ofs len = Some 0 ∧
    ∀ k, 0 ≤ k → ~ (0 ≤ k - (8 * Z.of_nat ptr + ofs) < len) → byte_bit m' k = byte_bit m k ∧ byte_bit m0 k = byte_bit m k.
Proof.
  intros Hm Hofs Hlen Hbits Hroom.
  assert (∀ bits m, bytes_ok m → 0 ≤ bits < 2 ^ len → 8 * Z.of_nat ptr + ofs + len ≤ 8 * Z.of_nat (length m) →
    ∃ m', set_rec_bits bits m ptr ofs len = Some m' ∧ get_rec_bits m' ptr ofs len = Some bits ∧ bytes_ok m' ∧ length m' = length m ∧
    ∀ k, 0 ≤ k → ~ (0 ≤ k - (8 * Z.of_nat ptr + ofs) < len) → byte_bit m' k = byte_bit m k) as Hset.
  { clear bits m Hm Hbits Hroom. intros bits m Hm Hbits Hroom.
    destruct (set_rec_bits_spec bits m ptr ofs len) as (m' & He & Hl & Hb); [lia..|]. exists m'.
    pose proof (set_rec_bits_ok _ _ _ _ _ _ Hm He) as Hm'. split; [done|].
    destruct (get_rec_bits_spec m' ptr ofs len Hm') as (v & Hg & Hv); [lia..|].
    split; [|split; [done|split; [done|intros k Hk Hn; rewrite Hb by done; cbn zeta; by rewrite decide_False]]].
    rewrite Hg. f_equal. zbits i. rewrite Hv, Hb by lia. cbn zeta.
    replace (8 * Z.of_nat ptr + ofs + i - (8 * Z.of_nat ptr + ofs)) with i by lia.
    case_bool_decide; [by rewrite decide_True by lia|]. by rewrite (small_bit len bits) by lia. }
  destruct (Hset bits m Hm Hbits Hroom) as (m' & H1 & H2 & H3 & H4 & H5).
  destruct (Hset 0 m' H3) as (m0 & H6 & H7 & _ & _ & H8); [lia|lia|].
  exists m', m0. split_and!; [done..|]. intros k Hk Hn. by rewrite H8, H5.
Qed.

Lemma rec_bits_roundtrip_witness :
  ∃ m' m0, set_rec_bits 21 [170; 85; 255] 0 6 5 = Some m' ∧ get_rec_bits m' 0 6 5 = Some 21 ∧
    clr_rec_bits m' 0 6 5 = Some m0 ∧ get_rec_bits m0 0 6 5 = Some 0.
Proof.
  destruct (rec_bits_roundtrip 21 [170; 85; 255] 0 6 5) as (m' & m0 & H1 & H2 & H3 & H4 & _);
    [by apply (bool_decide_unpack _)|lia|lia|lia|cbn; lia|].
  exists m', m0. split_and!; [exact H1|exact H2|exact H3|exact H4].
Defined.

(** The length of a key part below 2^16 takes the bytes [size_to_store_key_length]
    says, and is read back by each of the three reading macros, which leave the
    pointer where the store left it. *)
Theorem key_length_roundtrip m key length m' key' :
  bytes_ok m → 0 ≤ length < 2 ^ 16 → store_key_length_inc m key length = Some (m', key') →
  Z.of_nat key' = Z.of_nat key + size_to_store_key_length length ∧
  get_key_length m' key = Some (length, key') ∧ get_key_length_rdonly m' key = Some length ∧
  get_key_pack_length m' key = Some (length, size_to_store_key_length length, key').
Proof.
  intros Hm Hlen. unfold store_key_length_inc, size_to_store_key_length, get_key_length, get_key_length_rdonly, get_key_pack_length.
  case_decide as Hs.
  - destruct (wr key 0 length m) as [m1|] eqn:E; [|done]. cbn. intros [= <- <-].
    assert (rd m1 key 0 = Some length) as ->.
    { unfold wr in E. destruct (m !! (key + 0)%nat) eqn:El; [|done]. injection E as <-. unfold rd.
      rewrite list_lookup_insert_eq by (by eapply lookup_lt_Some). f_equal. apply wrapu_small. unfold in_u. lia. }
    cbn. rewrite !decide_True by lia. split_and!; [lia|done..].
  - destruct (wr key 0 255 m) as [m1|] eqn:E; [|done]. cbn. rewrite mi_int2store_be.
    destruct (store_be 2 m1 (key + 1) length) as [m2|] eqn:E2; [|done]. cbn. intros [= <- <-].
    assert (bytes_ok m1) as Hm1 by (by eapply wr_bytes_ok).
    assert (rd m2 key 0 = Some 255) as ->.
    { unfold store_be in E2. case_decide; [|done]. injection E2 as <-. unfold rd. rewrite lookup_app_l by (rewrite length_take; lia).
      rewrite lookup_take_lt by lia. unfold wr in E. destruct (m !! (key + 0)%nat) eqn:El; [|done]. injection E as <-.
      by rewrite list_lookup_insert_eq by (by eapply lookup_lt_Some). }
    cbn. rewrite !decide_False by (intros H; by apply H).
    rewrite mi_uint2korr_load by (by eapply store_be_ok). rewrite (store_load_be _ _ _ _ _ E2). cbn.
    rewrite Z.mod_small by lia. split_and!; [lia|done..].
Qed.

Lemma key_length_roundtrip_witness :
  get_key_length [9; 255; 1; 44; 9] 1 = Some (300, 4%nat).
Proof.
  apply (key_length_roundtrip [9; 9; 9; 9; 9] 1 300 [9; 255; 1; 44; 9] 4);
    [by apply (bool_decide_unpack _)|lia|reflexivity].
Defined.

(** [read_bigendian] returns what [store_bigendian] wrote, for every number of
    bytes from 1 to 8 and a value that fits, whatever the width of [ulong]. *)
Theorem bigendian_roundtrip lw num m to bytes m' :
  32 ≤ lw → bytes_ok m → 1 ≤ bytes ≤ 8 → in_u (8 * bytes) num →
  store_bigendian lw num m to bytes = Some m' → read_bigendian m' to bytes = Some (s64 num).
Proof.
  intros Hlw Hm Hb Hn. unfold in_u in Hn.
  assert (∃ n st ld, (n, st, ld) ∈ mi_macros lw ∧ Z.of_nat n = bytes ∧ store_bigendian lw num m to bytes = st m to num ∧
    ∀ m', read_bigendian m' to bytes = s64 <$> ld m' to) as (n & st & ld & Hin & <- & -> & ->).
  { assert (bytes = 1 ∨ bytes = 2 ∨ bytes = 3 ∨ bytes = 4 ∨ bytes = 5 ∨ bytes = 6 ∨ bytes = 7 ∨ bytes = 8) as Hc by lia.
    repeat destruct Hc as [->|Hc]; try subst bytes;
      [exists 1%nat|exists 2%nat|exists 3%nat|exists 4%nat|exists 5%nat|exists 6%nat|exists 7%nat|exists 8%nat];
      eexists _, _; (split; [unfold mi_macros; repeat (first [by left | right])|split; [done|split; [done|]]]); try done.
    intros m1. unfold read_bigendian, Mi.mi_sint8korr. destruct (Mi.mi_uint8korr m1 to); [|done]. cbn. f_equal.
    apply wraps_small; [lia|apply wraps_range; lia]. }
  intros Hst. pose proof (mi_roundtrip lw n st ld m to num Hlw Hin Hm) as Hr. rewrite Hst in Hr. cbn in Hr. rewrite Hr.
  case_decide; [by rewrite wrapu_small by done|].
  destruct (mi_macros_spec lw n st ld Hlw Hin) as [Hs _]. rewrite Hs, store_be_none in Hst by lia. done.
Qed.

Lemma bigendian_roundtrip_witness : read_bigendian [0; 1; 2; 3; 0] 1 3 = Some (s64 66051).
Proof.
  apply (bigendian_roundtrip 32 66051 [0; 0; 0; 0; 0] 1 3);
    [lia|by apply (bool_decide_unpack _)|lia|unfold in_u; lia|reflexivity].
Defined.
End properties.
