(* ===== verification/LexInput.v ===== *)
(** * The character stream of the lexer (Lex_input_stream of sql_lex.h)

    Two buffers are kept in parallel: the raw query, and the pre-processed query,
    to which the characters that are accepted while echo is on are copied.  A
    pointer into a buffer is an offset.  The specification of the stream is a
    zipper: the characters accepted so far, each with the echo mode it was
    accepted in, and the characters to come. *)

From S2P Require Import Prelude.
From Stdlib Require Import ZArith Lia.
From stdpp Require Import base numbers option list.
Open Scope Z_scope.
Open Scope cint_scope.

Module LexInput.

Inductive enum_comment_state := NO_COMMENT | PRESERVE_COMMENT | DISCARD_COMMENT.

(** [raw] is the buffer at [m_buf], [cpp] the one at [m_cpp_buf], [body_utf8] the
    length of the text at [m_body_utf8]. *)
Record Lex_input_stream := LIS {
  raw : list Z; m_ptr : Z; m_tok_start : Z; m_tok_end : Z; m_end_of_query : Z; m_tok_start_prev : Z;
  m_echo : bool; m_echo_saved : bool;
  cpp : list Z; m_cpp_ptr : Z; m_cpp_tok_start : Z; m_cpp_tok_start_prev : Z; m_cpp_tok_end : Z;
  m_body_utf8_ptr : Z; in_comment : enum_comment_state; in_comment_saved : enum_comment_state; lookahead_token : Z }.

(** [*p] and [*p= c]. *)
Definition peek (b : list Z) (p : Z) : option Z := if decide (0 ≤ p) then b !! Z.to_nat p else None.
Definition poke (b : list Z) (p c : Z) : option (list Z) :=
  _ ← peek b p; Some (<[Z.to_nat p := c]> b).

(** [memcpy] of [n] bytes from one buffer to the other. *)
Definition memcpy (to : list Z) (p : Z) (from : list Z) (q n : Z) : option (list Z) :=
  if decide (0 ≤ p ∧ 0 ≤ q ∧ 0 ≤ n ∧ p + n ≤ Z.of_nat (length to) ∧ q + n ≤ Z.of_nat (length from)) then
    Some (take (Z.to_nat p) to ++ take (Z.to_nat n) (drop (Z.to_nat q) from) ++ drop (Z.to_nat (p + n)) to)
  else None.

(** *** Setters *)

Definition with_pos (s : Lex_input_stream) (p : Z) (b : list Z) (c : Z) : Lex_input_stream :=
  LIS (raw s) p (m_tok_start s) (m_tok_end s) (m_end_of_query s) (m_tok_start_prev s) (m_echo s) (m_echo_saved s)
    b c (m_cpp_tok_start s) (m_cpp_tok_start_prev s) (m_cpp_tok_end s) (m_body_utf8_ptr s) (in_comment s)
    (in_comment_saved s) (lookahead_token s).
Definition with_raw (s : Lex_input_stream) (r : list Z) : Lex_input_stream :=
  LIS r (m_ptr s) (m_tok_start s) (m_tok_end s) (m_end_of_query s) (m_tok_start_prev s) (m_echo s) (m_echo_saved s)
    (cpp s) (m_cpp_ptr s) (m_cpp_tok_start s) (m_cpp_tok_start_prev s) (m_cpp_tok_end s) (m_body_utf8_ptr s)
    (in_comment s) (in_comment_saved s) (lookahead_token s).
Definition with_modes (s : Lex_input_stream) (e es : bool) (c cs : enum_comment_state) : Lex_input_stream :=
  LIS (raw s) (m_ptr s) (m_tok_start s) (m_tok_end s) (m_end_of_query s) (m_tok_start_prev s) e es
    (cpp s) (m_cpp_ptr s) (m_cpp_tok_start s) (m_cpp_tok_start_prev s) (m_cpp_tok_end s) (m_body_utf8_ptr s) c cs
    (lookahead_token s).
Definition with_tok (s : Lex_input_stream) (t te tp c ce cp : Z) : Lex_input_stream :=
  LIS (raw s) (m_ptr s) t te (m_end_of_query s) tp (m_echo s) (m_echo_saved s) (cpp s) (m_cpp_ptr s) c cp ce
    (m_body_utf8_ptr s) (in_comment s) (in_comment_saved s) (lookahead_token s).

(** ** Modes *)

Definition set_echo (s : Lex_input_stream) (echo : bool) : Lex_input_stream :=
  with_modes s echo (m_echo_saved s) (in_comment s) (in_comment_saved s).
Definition save_in_comment_state (s : Lex_input_stream) : Lex_input_stream :=
  with_modes s (m_echo s) (m_echo s) (in_comment s) (in_comment s).
Definition restore_in_comment_state (s : Lex_input_stream) : Lex_input_stream :=
  with_modes s (m_echo_saved s) (m_echo_saved s) (in_comment_saved s) (in_comment_saved s).

(** ** Accepting characters *)

Definition skip_binary (s : Lex_input_stream) (n : Z) : option Lex_input_stream :=
  '(b, c) ← (if m_echo s then b ← memcpy (cpp s) (m_cpp_ptr s) (raw s) (m_ptr s) n; Some (b, m_cpp_ptr s + n)
             else Some (cpp s, m_cpp_ptr s));
  Some (with_pos s (m_ptr s + n) b c).

Definition yyGet (s : Lex_input_stream) : option (Lex_input_stream * Z) :=
  ch ← peek (raw s) (m_ptr s);
  '(b, c) ← (if m_echo s then b ← poke (cpp s) (m_cpp_ptr s) ch; Some (b, m_cpp_ptr s + 1)
             else Some (cpp s, m_cpp_ptr s));
  Some (with_pos s (m_ptr s + 1) b c, u8 ch).

Definition yyGetLast (s : Lex_input_stream) : option Z := u8 <$> peek (raw s) (m_ptr s - 1).
Definition yyPeek (s : Lex_input_stream) : option Z := u8 <$> peek (raw s) (m_ptr s).
Definition yyPeekn (s : Lex_input_stream) (n : Z) : option Z := u8 <$> peek (raw s) (m_ptr s + n).

Definition yyUnget (s : Lex_input_stream) : Lex_input_stream :=
  with_pos s (m_ptr s - 1) (cpp s) (if m_echo s then m_cpp_ptr s - 1 else m_cpp_ptr s).

Definition yySkip (s : Lex_input_stream) : option Lex_input_stream :=
  if m_echo s then
    ch ← peek (raw s) (m_ptr s); b ← poke (cpp s) (m_cpp_ptr s) ch;
    Some (with_pos s (m_ptr s + 1) b (m_cpp_ptr s + 1))
  else Some (with_pos s (m_ptr s + 1) (cpp s) (m_cpp_ptr s)).

Definition yySkipn (s : Lex_input_stream) (n : Z) : option Lex_input_stream :=
  '(b, c) ← (if m_echo s then b ← memcpy (cpp s) (m_cpp_ptr s) (raw s) (m_ptr s) n; Some (b, m_cpp_ptr s + n)
             else Some (cpp s, m_cpp_ptr s));
  Some (with_pos s (m_ptr s + n) b c).

(** The result is the new position. *)
Definition yyUnput (s : Lex_input_stream) (ch : Z) : option (Lex_input_stream * Z) :=
  r ← poke (raw s) (m_ptr s - 1) ch;
  let s := with_pos (with_raw s r) (m_ptr s - 1) (cpp s) (if m_echo s then m_cpp_ptr s - 1 else m_cpp_ptr s) in
  Some (s, m_ptr s).

Definition eof_n (s : Lex_input_stream) (n : Z) : bool := bool_decide (m_end_of_query s ≤ m_ptr s + n).
Definition eof (s : Lex_input_stream) : bool := bool_decide (m_end_of_query s ≤ m_ptr s).

(** ** Tokens *)

Definition start_token (s : Lex_input_stream) : Lex_input_stream :=
  with_tok s (m_ptr s) (m_ptr s) (m_tok_start s) (m_cpp_ptr s) (m_cpp_ptr s) (m_cpp_tok_start s).
Definition restart_token (s : Lex_input_stream) : Lex_input_stream :=
  with_tok s (m_ptr s) (m_tok_end s) (m_tok_start_prev s) (m_cpp_ptr s) (m_cpp_tok_end s) (m_cpp_tok_start_prev s).
(** [yyLength] asserts that the position is behind the start of the token. *)
Definition yyLength (s : Lex_input_stream) : option Z :=
  if decide (m_tok_start s < m_ptr s) then Some (u32 (m_ptr s - m_tok_start s - 1)) else None.
Definition has_lookahead (s : Lex_input_stream) : bool := bool_decide (0 ≤ lookahead_token s).
Definition get_tok_start (s : Lex_input_stream) : Z := if has_lookahead s then m_tok_start_prev s else m_tok_start s.
Definition set_cpp_tok_start (s : Lex_input_stream) (pos : Z) : Lex_input_stream :=
  with_tok s (m_tok_start s) (m_tok_end s) (m_tok_start_prev s) pos (m_cpp_tok_end s) (m_cpp_tok_start_prev s).
Definition get_tok_end (s : Lex_input_stream) : Z := m_tok_end s.
Definition get_ptr (s : Lex_input_stream) : Z := m_ptr s.
Definition get_cpp_tok_start (s : Lex_input_stream) : Z :=
  if has_lookahead s then m_cpp_tok_start_prev s else m_cpp_tok_start s.
Definition get_cpp_tok_end (s : Lex_input_stream) : Z := m_cpp_tok_end s.
Definition get_cpp_ptr (s : Lex_input_stream) : Z := m_cpp_ptr s.
Definition get_end_of_query (s : Lex_input_stream) : Z := m_end_of_query s.
Definition get_body_utf8_length (s : Lex_input_stream) : Z := u64 (m_body_utf8_ptr s).

(** The loop that removes trailing spaces; the fuel is the number of characters
    in front of [p]. *)
Fixpoint rtrim_loop (my_isspace : Z → bool) (fuel : nat) (b : list Z) (p : Z) : option Z :=
  if decide (0 < p) then
    c ← peek b (p - 1);
    if my_isspace c then match fuel with O => None | S fuel => rtrim_loop my_isspace fuel b (p - 1) end
    else Some p
  else Some p.
Definition get_cpp_tok_end_rtrim (my_isspace : Z → bool) (s : Lex_input_stream) : option Z :=
  rtrim_loop my_isspace (Z.to_nat (m_cpp_tok_end s)) (cpp s) (m_cpp_tok_end s).
Definition get_cpp_ptr_rtrim (my_isspace : Z → bool) (s : Lex_input_stream) : option Z :=
  rtrim_loop my_isspace (Z.to_nat (m_cpp_ptr s)) (cpp s) (m_cpp_ptr s).

End LexInput.

(** ** The stream as a zipper *)

Section zipper.
Import LexInput.

(** The characters accepted, each with the echo mode, the characters to come, the
    modes, and the start of the token in both buffers. *)
Record zipper := Zip { accepted : list (Z * bool); rest : list Z; echo : bool; saved : bool; tok : nat; cpp_tok : nat }.

(** What was copied to the pre-processed buffer. *)
Definition echoed (l : list (Z * bool)) : list Z := fst <$> filter (λ c, c.2 = true) l.
#[local] Arguments echoed : simpl never.

Inductive op :=
  | Get | GetLast | Peekn (n : nat) | Skip | Skipn (n : nat) | SkipBinary (n : nat) | Unget | Unput (ch : Z)
  | SetEcho (b : bool) | Save | Restore | StartToken | RestartToken | Length.

Definition exec (s : Lex_input_stream) (o : op) : option (Lex_input_stream * option Z) :=
  match o with
  | Get => '(s, c) ← yyGet s; Some (s, Some c)
  | GetLast => c ← yyGetLast s; Some (s, Some c)
  | Peekn n => c ← yyPeekn s (Z.of_nat n); Some (s, Some c)
  | Skip => s ← yySkip s; Some (s, None)
  | Skipn n => s ← yySkipn s (Z.of_nat n); Some (s, None)
  | SkipBinary n => s ← skip_binary s (Z.of_nat n); Some (s, None)
  | Unget => Some (yyUnget s, None)
  | Unput ch => '(s, p) ← yyUnput s ch; Some (s, Some p)
  | SetEcho b => Some (set_echo s b, None)
  | Save => Some (save_in_comment_state s, None)
  | Restore => Some (restore_in_comment_state s, None)
  | StartToken => Some (start_token s, None)
  | RestartToken => Some (restart_token s, None)
  | Length => n ← yyLength s; Some (s, Some n)
  end.

(** Accept the next [n] characters. *)
Definition accept (z : zipper) (n : nat) : option zipper :=
  if decide (n ≤ length (rest z))%nat then
    Some (Zip (accepted z ++ ((λ c, (c, echo z)) <$> take n (rest z))) (drop n (rest z)) (echo z) (saved z) (tok z) (cpp_tok z))
  else None.

(** Take the last character back; the caller has to be in the echo mode it was
    accepted in. *)
Definition take_back (z : zipper) (f : Z → Z) : option zipper :=
  '(c, e) ← last (accepted z);
  if decide (e = echo z)
  then Some (Zip (take (length (accepted z) - 1) (accepted z)) (f c :: rest z) (echo z) (saved z) (tok z) (cpp_tok z)) else None.

Definition modes (z : zipper) (e s : bool) : zipper := Zip (accepted z) (rest z) e s (tok z) (cpp_tok z).

(** What the operations mean for the zipper; [None] for a call that is not allowed. *)
Definition spec (z : zipper) (o : op) : option (zipper * option Z) :=
  match o with
  | Get => z' ← accept z 1; Some (z', head (rest z))
  | GetLast => '(c, _) ← last (accepted z); Some (z, Some c)
  | Peekn n => c ← rest z !! n; Some (z, Some c)
  | Skip => z' ← accept z 1; Some (z', None)
  | Skipn n | SkipBinary n => z' ← accept z n; Some (z', None)
  | Unget => z' ← take_back z id; Some (z', None)
  | Unput ch => if decide (in_u 8 ch) then z' ← take_back z (λ _, ch); Some (z', Some (Z.of_nat (length (accepted z')))) else None
  | SetEcho b => Some (modes z b (saved z), None)
  | Save => Some (modes z (echo z) (echo z), None)
  | Restore => Some (modes z (saved z) (saved z), None)
  | StartToken | RestartToken =>
      Some (Zip (accepted z) (rest z) (echo z) (saved z) (length (accepted z)) (length (echoed (accepted z))), None)
  | Length => if decide (tok z < length (accepted z))%nat then Some (z, Some (Z.of_nat (length (accepted z) - tok z - 1))) else None
  end.

Fixpoint exec_all (s : Lex_input_stream) (os : list op) : option (Lex_input_stream * list (option Z)) :=
  match os with
  | [] => Some (s, [])
  | o :: os => '(s, r) ← exec s o; '(s, rs) ← exec_all s os; Some (s, r :: rs)
  end.

Fixpoint spec_all (z : zipper) (os : list op) : option (zipper * list (option Z)) :=
  match os with
  | [] => Some (z, [])
  | o :: os => '(z, r) ← spec z o; '(z, rs) ← spec_all z os; Some (z, r :: rs)
  end.

(** The stream [s] is the zipper [z]: the raw buffer holds what was accepted and
    what is to come, the pre-processed buffer what was echoed, and it is as large
    as the raw buffer. *)
Record stream (s : Lex_input_stream) (z : zipper) : Prop := {
  st_raw : raw s = (accepted z).*1 ++ rest z;
  st_bytes : Forall (in_u 8) (raw s);
  st_ptr : m_ptr s = Z.of_nat (length (accepted z));
  st_room : (length (raw s) ≤ length (cpp s))%nat;
  st_size : Z.of_nat (length (raw s)) < 2 ^ 32;
  st_cpp_ptr : m_cpp_ptr s = Z.of_nat (length (echoed (accepted z)));
  st_cpp : take (length (echoed (accepted z))) (cpp s) = echoed (accepted z);
  st_echo : m_echo s = echo z;
  st_saved : m_echo_saved s = saved z;
  st_tok : m_tok_start s = Z.of_nat (tok z);
  st_cpp_tok : m_cpp_tok_start s = Z.of_nat (cpp_tok z) }.

Lemma echoed_app l k : echoed (l ++ k) = echoed l ++ echoed k.
Proof. unfold echoed. by rewrite filter_app, fmap_app. Qed.

Lemma echoed_block (e : bool) (l : list Z) : echoed ((λ c, (c, e)) <$> l) = if e then l else [].
Proof.
  unfold echoed. induction l as [|c l IH]; [by destruct e|]. rewrite fmap_cons, filter_cons. cbn [snd].
  destruct e; [rewrite decide_True by done|rewrite decide_False by done]; [|done]. rewrite fmap_cons. by f_equal.
Qed.

Lemma echoed_length l : (length (echoed l) ≤ length l)%nat.
Proof. unfold echoed. rewrite length_fmap. apply length_filter. Qed.

Lemma peek_at b n c : b !! n = Some c → peek b (Z.of_nat n) = Some c.
Proof. intros Hb. unfold peek. rewrite decide_True by lia. by rewrite Nat2Z.id. Qed.

Lemma memcpy_prefix to p from q n :
  (p + n ≤ length to)%nat → (q + n ≤ length from)%nat →
  ∃ b, memcpy to (Z.of_nat p) from (Z.of_nat q) (Z.of_nat n) = Some b ∧ length b = length to ∧
    take (p + n) b = take p to ++ take n (drop q from).
Proof.
  intros Hp Hq. unfold memcpy. rewrite decide_True by lia. rewrite <- Nat2Z.inj_add, !Nat2Z.id. eexists. split; [done|].
  rewrite !length_app, !length_take, !length_drop. split; [lia|].
  rewrite app_assoc, take_app_length'; [done|]. rewrite length_app, !length_take, length_drop. lia.
Qed.

Lemma poke_prefix b p c : (p < length b)%nat →
  ∃ b', poke b (Z.of_nat p) c = Some b' ∧ length b' = length b ∧ take (p + 1) b' = take p b ++ [c].
Proof.
  intros Hp. destruct (lookup_lt_is_Some_2 b p Hp) as [x Hx]. unfold poke. rewrite (peek_at _ _ _ Hx). cbn.
  rewrite Nat2Z.id. eexists. split; [done|]. split; [apply length_insert|]. rewrite Nat.add_1_r.
  erewrite take_S_r by (by apply list_lookup_insert_eq). by rewrite take_insert_ge by lia.
Qed.

(** The stream after [n] characters were accepted and echoed to the buffer [b]. *)
Lemma stream_accept s z n z' b :
  stream s z → accept z n = Some z' → length b = length (cpp s) →
  take (length (echoed (accepted z'))) b = echoed (accepted z') →
  stream (with_pos s (m_ptr s + Z.of_nat n) b (m_cpp_ptr s + (if echo z then Z.of_nat n else 0))) z'.
Proof.
  intros Hs Ha Hl Hb. unfold accept in Ha. case_decide as Hn; [|done]. injection Ha as <-.
  cbn [accepted] in Hb. pose proof (st_raw s z Hs) as Hraw. constructor; cbn.
  - rewrite Hraw, fmap_app, <- list_fmap_compose, <- app_assoc. cbn. by rewrite list_fmap_id, take_drop.
  - apply (st_bytes s z Hs).
  - rewrite (st_ptr s z Hs), length_app, length_fmap, length_take. lia.
  - rewrite Hl. apply (st_room s z Hs).
  - apply (st_size s z Hs).
  - rewrite (st_cpp_ptr s z Hs), echoed_app, echoed_block, length_app. destruct (echo z); [rewrite length_take|cbn]; lia.
  - done.
  - apply (st_echo s z Hs).
  - apply (st_saved s z Hs).
  - apply (st_tok s z Hs).
  - apply (st_cpp_tok s z Hs).
Qed.

(** Room for what is accepted. *)
Lemma accept_room s z n z' : stream s z → accept z n = Some z' →
  (length (accepted z) + n ≤ length (raw s))%nat ∧ (length (echoed (accepted z)) + n ≤ length (cpp s))%nat ∧
  take n (drop (length (accepted z)) (raw s)) = take n (rest z) ∧
  echoed (accepted z') = echoed (accepted z) ++ (if echo z then take n (rest z) else []).
Proof.
  intros Hs Ha. unfold accept in Ha. case_decide as Hn; [|done]. injection Ha as <-. cbn.
  rewrite echoed_app, echoed_block. pose proof (st_room s z Hs). pose proof (echoed_length (accepted z)).
  rewrite (st_raw s z Hs) in *. rewrite length_app, length_fmap in *.
  split_and!; [lia|lia| |done]. by rewrite drop_app_length' by (by rewrite length_fmap).
Qed.

Lemma skip_rep s z n z' : stream s z → accept z n = Some z' →
  ∃ s', yySkipn s (Z.of_nat n) = Some s' ∧ skip_binary s (Z.of_nat n) = Some s' ∧ stream s' z'.
Proof.
  intros Hs Ha. destruct (accept_room s z n z' Hs Ha) as (Hr & Hc & Ht & He).
  unfold yySkipn, skip_binary. rewrite (st_echo s z Hs). destruct (echo z) eqn:Ee.
  - destruct (memcpy_prefix (cpp s) (length (echoed (accepted z))) (raw s) (length (accepted z)) n Hc Hr) as (b & Hm & Hl & Hb).
    rewrite (st_cpp_ptr s z Hs), (st_ptr s z Hs), Hm. cbn [mbind option_bind].
    eexists. split; [done|]. split; [done|]. pose proof (stream_accept s z n z' b Hs Ha Hl) as Hst.
    rewrite Ee, (st_cpp_ptr s z Hs), (st_ptr s z Hs) in Hst.
    apply Hst. rewrite He, length_app, length_take.
    replace (n `min` length (rest z))%nat with n by (unfold accept in Ha; case_decide; [lia|done]).
    by rewrite Hb, (st_cpp s z Hs), Ht.
  - cbn. eexists. split; [done|]. split; [done|]. pose proof (stream_accept s z n z' (cpp s) Hs Ha eq_refl) as Hst.
    rewrite Ee, Z.add_0_r in Hst. apply Hst. rewrite He, app_nil_r. apply (st_cpp s z Hs).
Qed.

(** Accepting one character. *)
Lemma one_rep s z z' : stream s z → accept z 1 = Some z' →
  ∃ s' c, rest z !! 0%nat = Some c ∧ yyGet s = Some (s', c) ∧ yySkip s = Some s' ∧ stream s' z'.
Proof.
  intros Hs Ha. destruct (accept_room s z 1 z' Hs Ha) as (Hr & Hc & Ht & He).
  assert (∃ c r, rest z = c :: r) as (c & r & Er).
  { unfold accept in Ha. case_decide as Hn; [|done]. destruct (rest z) as [|c r]; [cbn in Hn; lia|by eexists _, _]. }
  assert (raw s !! length (accepted z) = Some c) as Hc0.
  { rewrite (st_raw s z Hs), lookup_app_r, length_fmap, Nat.sub_diag by (by rewrite length_fmap). by rewrite Er. }
  assert (u8 c = c) as Hu.
  { apply wrapu_small. exact (Forall_lookup_1 _ _ _ _ (st_bytes s z Hs) Hc0). }
  unfold yyGet, yySkip. rewrite (st_echo s z Hs), (st_ptr s z Hs), (peek_at _ _ _ Hc0). cbn [mbind option_bind].
  rewrite Hu, Er. rewrite Er in He. destruct (echo z) eqn:Ee.
  - destruct (poke_prefix (cpp s) (length (echoed (accepted z))) c) as (b & Hm & Hl & Hb); [lia|].
    rewrite (st_cpp_ptr s z Hs), Hm. cbn [mbind option_bind]. eexists _, c. split_and!; [done..|].
    pose proof (stream_accept s z 1 z' b Hs Ha Hl) as Hst. rewrite Ee, (st_cpp_ptr s z Hs), (st_ptr s z Hs) in Hst.
    apply Hst. rewrite He, length_app. rewrite firstn_cons, take_0. cbn [length]. by rewrite Hb, (st_cpp s z Hs).
  - cbn [mbind option_bind]. eexists _, c. split_and!; [done..|].
    pose proof (stream_accept s z 1 z' (cpp s) Hs Ha eq_refl) as Hst. rewrite Ee, Z.add_0_r, (st_ptr s z Hs) in Hst.
    apply Hst. rewrite He, app_nil_r. apply (st_cpp s z Hs).
Qed.

(** Taking the last character back, with another one in its place. *)
Lemma take_back_rep s z f z' r :
  stream s z → take_back z f = Some z' → r = (accepted z').*1 ++ rest z' → Forall (in_u 8) r →
  stream (with_pos (with_raw s r) (m_ptr s - 1) (cpp s) (if m_echo s then m_cpp_ptr s - 1 else m_cpp_ptr s)) z' ∧
  ∃ l c, accepted z = l ++ [(c, echo z)] ∧ accepted z' = l ∧ rest z' = f c :: rest z.
Proof.
  intros Hs Hz Hr Hb. unfold take_back in Hz. destruct (last (accepted z)) as [[c e]|] eqn:El; [|done]. cbn in Hz.
  case_decide as He; [|done]. apply last_Some in El as [l El]. injection Hz as <-. cbn in *. subst e.
  rewrite El, length_app in *. cbn [length] in *. rewrite Nat.add_sub, take_app_length in *.
  split; [|by exists l, c]. pose proof (st_cpp_ptr s z Hs) as Hcp. pose proof (st_cpp s z Hs) as Hcc.
  pose proof (st_ptr s z Hs) as Hp. pose proof (st_raw s z Hs) as Hraw. pose proof (st_room s z Hs) as Hroom. pose proof (st_size s z Hs) as Hsz.
  rewrite El, ?echoed_app, ?length_app in *. change (echoed [(c, echo z)]) with (echoed ((λ c, (c, echo z)) <$> [c])) in *.
  rewrite echoed_block in *.
  assert (length r = length (raw s)) as Hlr.
  { rewrite Hr, Hraw, !length_app, !length_fmap, length_app. cbn. lia. }
  constructor; cbn; [done|done|cbn in Hp; lia|lia|by rewrite Hlr| | |apply (st_echo s z Hs)|apply (st_saved s z Hs)|apply (st_tok s z Hs)|apply (st_cpp_tok s z Hs)].
  - rewrite (st_echo s z Hs), Hcp. destruct (echo z); cbn; lia.
  - destruct (echo z); cbn in Hcc; [|by rewrite Nat.add_0_r, app_nil_r in Hcc].
    apply (f_equal (take (length (echoed l)))) in Hcc. rewrite take_take, take_app_length in Hcc.
    by replace (length (echoed l) `min` (length (echoed l) + 1))%nat with (length (echoed l)) in Hcc by lia.
Qed.

(** The operations that only change modes and marks. *)
Lemma modes_rep s z e es c cs : stream s z → stream (with_modes s e es c cs) (modes z e es).
Proof. intros []. by constructor. Qed.

Lemma tok_rep s z te tp ce cp : stream s z →
  stream (with_tok s (m_ptr s) te tp (m_cpp_ptr s) ce cp)
    (Zip (accepted z) (rest z) (echo z) (saved z) (length (accepted z)) (length (echoed (accepted z)))).
Proof. intros []. by constructor. Qed.

Lemma raw_lookup s z i : stream s z → raw s !! (length (accepted z) + i)%nat = rest z !! i.
Proof. intros Hs. rewrite (st_raw s z Hs), lookup_app_r; rewrite length_fmap; [f_equal|]; lia. Qed.

Lemma raw_byte s z i c : stream s z → raw s !! i = Some c → u8 <$> peek (raw s) (Z.of_nat i) = Some c.
Proof.
  intros Hs Hc. rewrite (peek_at _ _ _ Hc). cbn. f_equal. apply wrapu_small.
  exact (Forall_lookup_1 _ _ _ _ (st_bytes s z Hs) Hc).
Qed.

Lemma raw_last s z l c e : stream s z → accepted z = l ++ [(c, e)] → raw s !! length l = Some c.
Proof.
  intros Hs El. rewrite (st_raw s z Hs), El, fmap_app, <- app_assoc, lookup_app_r by (by rewrite length_fmap).
  by rewrite length_fmap, Nat.sub_diag.
Qed.

Lemma lex_exec_rep s z o z' r : stream s z → spec z o = Some (z', r) → ∃ s', exec s o = Some (s', r) ∧ stream s' z'.
Proof.
  intros Hs Hsp. destruct o; cbn [spec exec] in *.
  - destruct (accept z 1) as [z1|] eqn:Ea; [|done]. injection Hsp as <- <-.
    destruct (one_rep s z z1 Hs Ea) as (s' & c & Hc & -> & _ & Hst). cbn. exists s'. split; [|done].
    by destruct (rest z); [|injection Hc as ->].
  - destruct (last (accepted z)) as [[c e]|] eqn:El; [|done]. injection Hsp as <- <-. apply last_Some in El as [l El].
    exists s. split; [|done]. unfold yyGetLast. rewrite (st_ptr s z Hs), El, length_app. cbn [length].
    replace (Z.of_nat (length l + 1) - 1) with (Z.of_nat (length l)) by lia.
    by rewrite (raw_byte s z _ c Hs) by (by eapply raw_last).
  - destruct (rest z !! n) as [c|] eqn:Ec; [|done]. injection Hsp as <- <-. exists s. split; [|done].
    unfold yyPeekn. rewrite (st_ptr s z Hs), <- Nat2Z.inj_add.
    by rewrite (raw_byte s z _ c Hs) by (by rewrite (raw_lookup s z)).
  - destruct (accept z 1) as [z1|] eqn:Ea; [|done]. injection Hsp as <- <-.
    destruct (one_rep s z z1 Hs Ea) as (s' & c & _ & _ & -> & Hst). by exists s'.
  - destruct (accept z n) as [z1|] eqn:Ea; [|done]. injection Hsp as <- <-.
    destruct (skip_rep s z n z1 Hs Ea) as (s' & -> & _ & Hst). by exists s'.
  - destruct (accept z n) as [z1|] eqn:Ea; [|done]. injection Hsp as <- <-.
    destruct (skip_rep s z n z1 Hs Ea) as (s' & _ & -> & Hst). by exists s'.
  - destruct (take_back z _) as [z1|] eqn:Et; [|done]. injection Hsp as <- <-. eexists. split; [done|].
    assert (raw s = (accepted z1).*1 ++ rest z1) as Hr.
    { unfold take_back in Et. destruct (last (accepted z)) as [[c e]|] eqn:El; [|done]. cbn in Et. case_decide; [|done].
      injection Et as <-. apply last_Some in El as [l El]. rewrite (st_raw s z Hs), El, length_app. cbn.
      by rewrite Nat.add_sub, take_app_length, fmap_app, <- app_assoc. }
    destruct (take_back_rep s z _ z1 (raw s) Hs Et Hr (st_bytes s z Hs)) as [Hst _]. by destruct s.
  - case_decide as Hch; [|done]. destruct (take_back z _) as [z1|] eqn:Et; [|done]. injection Hsp as <- <-.
    assert (∃ l c e, accepted z = l ++ [(c, e)] ∧ accepted z1 = l ∧ rest z1 = ch :: rest z) as (l & c & e & El & El1 & Er1).
    { unfold take_back in Et. destruct (last (accepted z)) as [[c e]|] eqn:El; [|done]. cbn in Et. case_decide; [|done].
      injection Et as <-. apply last_Some in El as [l El]. exists l, c, e. rewrite El, length_app. cbn.
      by rewrite Nat.add_sub, take_app_length. }
    unfold yyUnput, poke. rewrite (st_ptr s z Hs), El, length_app. cbn [length].
    replace (Z.of_nat (length l + 1) - 1) with (Z.of_nat (length l)) by lia.
    rewrite (peek_at _ _ _ (raw_last s z l c e Hs El)). cbn [mbind option_bind]. rewrite Nat2Z.id.
    eexists. split; [by rewrite El1|].
    destruct (take_back_rep s z _ z1 (<[length l := ch]> (raw s)) Hs Et) as [Hst _].
    + rewrite El1, Er1, (st_raw s z Hs), El, fmap_app, <- app_assoc, insert_app_r_alt by (by rewrite length_fmap).
      by rewrite length_fmap, Nat.sub_diag.
    + apply Forall_insert; [apply (st_bytes s z Hs)|done].
    + rewrite (st_ptr s z Hs), El, length_app in Hst. cbn [length] in Hst.
      by replace (Z.of_nat (length l + 1) - 1) with (Z.of_nat (length l)) in Hst by lia.
  - injection Hsp as <- <-. eexists. split; [done|]. unfold set_echo. rewrite (st_saved s z Hs). by apply modes_rep.
  - injection Hsp as <- <-. eexists. split; [done|]. unfold save_in_comment_state. rewrite (st_echo s z Hs). by apply modes_rep.
  - injection Hsp as <- <-. eexists. split; [done|]. unfold restore_in_comment_state. rewrite (st_saved s z Hs). by apply modes_rep.
  - injection Hsp as <- <-. eexists. split; [done|]. by apply tok_rep.
  - injection Hsp as <- <-. eexists. split; [done|]. by apply tok_rep.
  - case_decide as Ht; [|done]. injection Hsp as <- <-. exists s. split; [|done]. unfold yyLength.
    pose proof (st_ptr s z Hs) as Hp. pose proof (st_size s z Hs) as Hsz. rewrite (st_raw s z Hs), length_app, length_fmap in Hsz.
    rewrite Hp, (st_tok s z Hs), decide_True by lia. cbn. do 3 f_equal. rewrite wrapu_small by (unfold in_u; lia). lia.
Qed.

Lemma lex_exec_all_rep os : ∀ s z z' rs, stream s z → spec_all z os = Some (z', rs) →
  ∃ s', exec_all s os = Some (s', rs) ∧ stream s' z'.
Proof.
  induction os as [|o os IH]; intros s z z' rs Hs Hsp; cbn in Hsp.
  { injection Hsp as <- <-. by exists s. }
  destruct (spec z o) as [[z1 r]|] eqn:Eo; [|done]. cbn in Hsp.
  destruct (spec_all z1 os) as [[z2 rs2]|] eqn:Eos; [|done]. injection Hsp as <- <-.
  destruct (lex_exec_rep s z o z1 r Hs Eo) as (s1 & He & Hs1). destruct (IH s1 z1 z2 rs2 Hs1 Eos) as (s2 & He2 & Hs2).
  exists s2. cbn. rewrite He. cbn. by rewrite He2.
Qed.

(** Trailing spaces. *)
Lemma rtrim_loop_spec isspace b : ∀ n fuel, (n ≤ length b)%nat → (n ≤ fuel)%nat →
  ∃ p, rtrim_loop isspace fuel b (Z.of_nat n) = Some (Z.of_nat p) ∧ (p ≤ n)%nat ∧
    Forall (λ c, isspace c = true) (drop p (take n b)) ∧
    (∀ c, last (take p b) = Some c → isspace c = false).
Proof.
  induction n as [|n IH]; intros fuel Hn Hf.
  - exists 0%nat. split; [by destruct fuel|]. split; [lia|]. by rewrite take_0.
  - destruct (lookup_lt_is_Some_2 b n) as [c Hc]; [lia|].
    assert (rtrim_loop isspace fuel b (Z.of_nat (S n)) = if isspace c
      then match fuel with O => None | S fuel => rtrim_loop isspace fuel b (Z.of_nat n) end else Some (Z.of_nat (S n))) as ->.
    { destruct fuel; cbn [rtrim_loop]; rewrite decide_True by lia;
        replace (Z.of_nat (S n) - 1) with (Z.of_nat n) by lia; by rewrite (peek_at _ _ _ Hc). }
    rewrite (take_S_r b n c Hc). destruct (isspace c) eqn:Ei.
    + destruct fuel as [|fuel]; [lia|]. destruct (IH fuel) as (p & -> & Hp & Hs & Hl); [lia..|].
      exists p. split_and!; [done|lia| |done].
      rewrite drop_app_le by (rewrite length_take; lia). apply Forall_app. by split; [|constructor].
    + exists (S n). split_and!; [done|done| |].
      * rewrite drop_ge; [constructor|]. rewrite length_app, length_take. cbn. lia.
      * rewrite (take_S_r b n c Hc), last_snoc. by intros ? [= <-].
Qed.

End zipper.

(** ** Properties *)

Section properties.
Import LexInput.

(** [C17] Every history of the stream that respects the contract of taking characters
    back runs without an access outside of the two buffers and returns what the
    same history returns for the zipper; the pre-processed buffer, which is as
    large as the raw one, holds exactly the characters that were accepted while
    echo was on. *)
Theorem lex_input_stream_refines (s : Lex_input_stream) (z z' : zipper) (os : list op) (rs : list (option Z)) :
  stream s z → spec_all z os = Some (z', rs) →
  ∃ s', exec_all s os = Some (s', rs) ∧ stream s' z' ∧
    take (Z.to_nat (m_cpp_ptr s')) (cpp s') = (filter (λ c, c.2 = true) (accepted z')).*1 ∧
    m_cpp_ptr s' ≤ m_ptr s'.
Proof.
  intros Hs Hsp. destruct (lex_exec_all_rep os s z z' rs Hs Hsp) as (s' & He & Hs'). exists s'. split_and!; [done..| |].
  - rewrite (st_cpp_ptr s' z' Hs'), Nat2Z.id. apply (st_cpp s' z' Hs').
  - rewrite (st_cpp_ptr s' z' Hs'), (st_ptr s' z' Hs'). pose proof (echoed_length (accepted z')). lia.
Qed.

(** The stream of the query [a/*b]. *)
Definition query : list Z := [97; 47; 42; 98; 0].
Definition stream0 : Lex_input_stream :=
  LIS query 0 0 0 4 0 true false (replicate 5 1) 0 0 0 0 0 NO_COMMENT NO_COMMENT (-1).

Lemma lex_input_stream_refines_witness :
  ∃ s', exec_all stream0 [StartToken; Get; Peekn 0; SetEcho false; Skipn 2; SetEcho true; Get; Unget; Length; Skip]
          = Some (s', [None; Some 97; Some 47; None; None; None; Some 98; None; Some 2; None]) ∧
    take (Z.to_nat (m_cpp_ptr s')) (cpp s') = [97; 98].
Proof.
  destruct (lex_input_stream_refines stream0 (Zip [] query true false 0 0)
    (Zip [(97, true); (47, false); (42, false); (98, true)] [0] true false 0 0)
    [StartToken; Get; Peekn 0; SetEcho false; Skipn 2; SetEcho true; Get; Unget; Length; Skip]
    [None; Some 97; Some 47; None; None; None; Some 98; None; Some 2; None]) as (s' & He & _ & Hc & _).
  - constructor; cbn; try done; try lia; repeat constructor; done.
  - reflexivity.
  - exists s'. split; [exact He|exact Hc].
Defined.

(** [get_cpp_ptr_rtrim] and [get_cpp_tok_end_rtrim] return, for every notion of a
    space, the position behind the last character in the buffer that is not one:
    behind it there are only spaces. *)
Theorem rtrim_removes_trailing_spaces (isspace : Z → bool) (s : Lex_input_stream) :
  0 ≤ m_cpp_ptr s ≤ Z.of_nat (length (cpp s)) → 0 ≤ m_cpp_tok_end s ≤ Z.of_nat (length (cpp s)) →
  (∃ p, get_cpp_ptr_rtrim isspace s = Some (Z.of_nat p) ∧ Z.of_nat p ≤ m_cpp_ptr s ∧
     Forall (λ c, isspace c = true) (drop p (take (Z.to_nat (m_cpp_ptr s)) (cpp s))) ∧
     (∀ c, last (take p (cpp s)) = Some c → isspace c = false)) ∧
  (∃ p, get_cpp_tok_end_rtrim isspace s = Some (Z.of_nat p) ∧ Z.of_nat p ≤ m_cpp_tok_end s ∧
     Forall (λ c, isspace c = true) (drop p (take (Z.to_nat (m_cpp_tok_end s)) (cpp s))) ∧
     (∀ c, last (take p (cpp s)) = Some c → isspace c = false)).
Proof.
  intros H1 H2. assert (∀ q, 0 ≤ q ≤ Z.of_nat (length (cpp s)) →
    ∃ p, rtrim_loop isspace (Z.to_nat q) (cpp s) q = Some (Z.of_nat p) ∧ Z.of_nat p ≤ q ∧
      Forall (λ c, isspace c = true) (drop p (take (Z.to_nat q) (cpp s))) ∧
      (∀ c, last (take p (cpp s)) = Some c → isspace c = false)) as Hq; [|by split; apply Hq].
  intros q Hq. destruct (rtrim_loop_spec isspace (cpp s) (Z.to_nat q) (Z.to_nat q)) as (p & Hp & Hle & Hr); [lia..|].
  rewrite Z2Nat.id in Hp by lia. exists p. split; [done|]. split; [lia|done].
Qed.

Lemma rtrim_removes_trailing_spaces_witness :
  let s := LIS query 4 0 0 4 0 true false [97; 32; 32; 0] 3 0 0 1 0 NO_COMMENT NO_COMMENT (-1) in
  ∃ p, get_cpp_ptr_rtrim (λ c, bool_decide (c = 32)) s = Some (Z.of_nat p) ∧ p = 1%nat.
Proof.
  intros s. destruct (rtrim_removes_trailing_spaces (λ c, bool_decide (c = 32)) s) as [(p & Hp & _) _]; [cbn; lia..|].
  exists p. split; [exact Hp|].
  assert (get_cpp_ptr_rtrim (λ c, bool_decide (c = 32)) s = Some 1) as E by reflexivity.
  rewrite E in Hp. injection Hp as Hp. lia.
Defined.
End properties.
