(* ===== verification/JoinCache.v ===== *)
(** * Join buffers (sql_join_cache.h)

    Records and key entries of a join buffer refer to each other by offsets of
    one, two or four bytes.  A pointer is an offset from [buff]; the offsets of
    the hash table count backwards from [hash_table].  The specification of the
    buffer is a finite map from the places references are kept at to the
    positions they point to. *)

From S2P Require Import Prelude ByteOrder KeyPack.
From Stdlib Require Import ZArith Lia.
From stdpp Require Import base numbers option list sets.
Open Scope Z_scope.
Open Scope cint_scope.

Module JoinCache.

Inductive Join_algorithm := BNL_JOIN_ALG | BNLH_JOIN_ALG | BKA_JOIN_ALG | BKAH_JOIN_ALG.
Inductive Match_flag := MATCH_NOT_FOUND | MATCH_FOUND | MATCH_IMPOSSIBLE.

(** The members the methods of the header use; [curr_rec_link] is null or a
    position, [buff] is null after [free]. *)
Record JOIN_CACHE := JC {
  buff : option (list Z); buff_size : Z; aux_buff_size : Z; end_pos : Z; records : Z;
  size_of_rec_ofs : Z; size_of_rec_len : Z; size_of_fld_ofs : Z; base_prefix_length : Z;
  curr_rec_pos : Z; last_rec_pos : Z; last_rec_blob_data_is_in_rec_buff : bool; curr_rec_link : option Z }.

Record JOIN_CACHE_HASHED := JCH {
  jc : JOIN_CACHE; size_of_key_ofs : Z; key_entry_length : Z; hash_table : Z; curr_key_entry : Z;
  last_key_entry : Z; key_entries : Z; data_fields_offset : Z }.

(** ** Offsets *)

Definition offset_size (len : Z) : Z := if decide (len < 256) then 1 else if decide (len < 256 * 256) then 2 else 4.

(** An access at a position before the buffer or behind it is undefined. *)
Definition get_offset (ofs_sz : Z) (m : list Z) (ptr : Z) : option Z :=
  match ofs_sz with
  | 1 => if decide (0 ≤ ptr) then rd m (Z.to_nat ptr) 0 else None
  | 2 => if decide (0 ≤ ptr) then X86_64.uint2korr m (Z.to_nat ptr) else None
  | 4 => if decide (0 ≤ ptr) then X86_64.uint4korr m (Z.to_nat ptr) else None
  | _ => Some 0
  end.

Definition store_offset (ofs_sz : Z) (m : list Z) (ptr ofs : Z) : option (list Z) :=
  match ofs_sz with
  | 1 => if decide (0 ≤ ptr) then wr (Z.to_nat ptr) 0 (u8 ofs) m else None
  | 2 => if decide (0 ≤ ptr) then X86_64.int2store m (Z.to_nat ptr) (u16 ofs) else None
  | 4 => if decide (0 ≤ ptr) then X86_64.int4store m (Z.to_nat ptr) (u32 ofs) else None
  | _ => Some m
  end.

(** ** JOIN_CACHE *)

Definition set_buff (c : JOIN_CACHE) (m : list Z) : JOIN_CACHE :=
  JC (Some m) (buff_size c) (aux_buff_size c) (end_pos c) (records c) (size_of_rec_ofs c) (size_of_rec_len c)
    (size_of_fld_ofs c) (base_prefix_length c) (curr_rec_pos c) (last_rec_pos c)
    (last_rec_blob_data_is_in_rec_buff c) (curr_rec_link c).

Definition get_size_of_rec_offset (c : JOIN_CACHE) : Z := size_of_rec_ofs c.
Definition get_size_of_rec_length (c : JOIN_CACHE) : Z := size_of_rec_len c.
Definition get_size_of_fld_offset (c : JOIN_CACHE) : Z := size_of_fld_ofs c.

Definition get_rec_ref (c : JOIN_CACHE) (ptr : Z) : option Z :=
  m ← buff c; get_offset (size_of_rec_ofs c) m (ptr - size_of_rec_ofs c).
Definition get_rec_length (c : JOIN_CACHE) (ptr : Z) : option Z :=
  m ← buff c; get_offset (size_of_rec_len c) m ptr.
Definition get_fld_offset (c : JOIN_CACHE) (ptr : Z) : option Z :=
  m ← buff c; get_offset (size_of_fld_ofs c) m ptr.

Definition store_rec_ref (c : JOIN_CACHE) (ptr ref : Z) : option JOIN_CACHE :=
  m ← buff c; set_buff c <$> store_offset (size_of_rec_ofs c) m (ptr - size_of_rec_ofs c) (u64 ref).
Definition store_rec_length (c : JOIN_CACHE) (ptr len : Z) : option JOIN_CACHE :=
  m ← buff c; set_buff c <$> store_offset (size_of_rec_len c) m ptr len.
Definition store_fld_offset (c : JOIN_CACHE) (ptr ofs : Z) : option JOIN_CACHE :=
  m ← buff c; set_buff c <$> store_offset (size_of_fld_ofs c) m ptr ofs.

Definition get_prefix_length (c : JOIN_CACHE) : Z := base_prefix_length c.

(** [MY_MAX(x, 0)] of a [size_t]. *)
Definition MY_MAX (a b : Z) : Z := if decide (b < a) then a else b.
Definition rem_space (c : JOIN_CACHE) : Z := MY_MAX (u64 (u64 (buff_size c - end_pos c) - aux_buff_size c)) 0.

Definition extra_key_length (c : JOIN_CACHE) : Z := 0.
Definition blob_data_is_in_rec_buff (c : JOIN_CACHE) (rec_ptr : Z) : bool :=
  bool_decide (rec_ptr = last_rec_pos c) && last_rec_blob_data_is_in_rec_buff c.

Definition get_join_buffer_size (c : JOIN_CACHE) : Z := buff_size c.
Definition set_join_buffer_size (c : JOIN_CACHE) (sz : Z) : JOIN_CACHE :=
  JC (buff c) sz (aux_buff_size c) (end_pos c) (records c) (size_of_rec_ofs c) (size_of_rec_len c)
    (size_of_fld_ofs c) (base_prefix_length c) (curr_rec_pos c) (last_rec_pos c)
    (last_rec_blob_data_is_in_rec_buff c) (curr_rec_link c).

Definition get_curr_rec (c : JOIN_CACHE) : Z := curr_rec_pos c.
Definition set_curr_rec_link (c : JOIN_CACHE) (link : option Z) : JOIN_CACHE :=
  JC (buff c) (buff_size c) (aux_buff_size c) (end_pos c) (records c) (size_of_rec_ofs c) (size_of_rec_len c)
    (size_of_fld_ofs c) (base_prefix_length c) (curr_rec_pos c) (last_rec_pos c)
    (last_rec_blob_data_is_in_rec_buff c) link.
Definition get_curr_rec_link (c : JOIN_CACHE) : Z :=
  match curr_rec_link c with Some l => l | None => get_curr_rec c end.

(** [my_free] takes a null pointer. *)
Definition free (c : JOIN_CACHE) : JOIN_CACHE :=
  JC None (buff_size c) (aux_buff_size c) (end_pos c) (records c) (size_of_rec_ofs c) (size_of_rec_len c)
    (size_of_fld_ofs c) (base_prefix_length c) (curr_rec_pos c) (last_rec_pos c)
    (last_rec_blob_data_is_in_rec_buff c) (curr_rec_link c).

(** The space between the last record and the end of the buffer, as the pair of
    [aux_buff.buffer] and [aux_buff.buffer_end], and its bounds in a hashed cache. *)
Definition BKA_setup_aux_buffer (c : JOIN_CACHE) : Z * Z := (end_pos c, buff_size c).
Definition BKA_get_number_of_ranges_for_mrr (c : JOIN_CACHE) : Z := u32 (records c).

(** ** JOIN_CACHE_HASHED *)

Definition set_jc (h : JOIN_CACHE_HASHED) (c : JOIN_CACHE) : JOIN_CACHE_HASHED :=
  JCH c (size_of_key_ofs h) (key_entry_length h) (hash_table h) (curr_key_entry h) (last_key_entry h)
    (key_entries h) (data_fields_offset h).

Definition get_size_of_key_offset (h : JOIN_CACHE_HASHED) : Z := size_of_key_ofs h.

Definition get_next_key_ref (h : JOIN_CACHE_HASHED) (key_ref_ptr : Z) : option Z :=
  m ← buff (jc h); o ← get_offset (size_of_key_ofs h) m key_ref_ptr; Some (hash_table h - o).

Definition store_next_key_ref (h : JOIN_CACHE_HASHED) (key_ref_ptr ref : Z) : option JOIN_CACHE_HASHED :=
  m ← buff (jc h);
  (λ m, set_jc h (set_buff (jc h) m)) <$> store_offset (size_of_key_ofs h) m key_ref_ptr (u64 (hash_table h - ref)).

(** [memcmp] with a zero of eight bytes. *)
Definition is_null_key_ref (h : JOIN_CACHE_HASHED) (key_ref_ptr : Z) : option bool :=
  m ← buff (jc h); let sz := Z.to_nat (size_of_key_ofs h) in
  if decide (0 ≤ key_ref_ptr ∧ (Z.to_nat key_ref_ptr + sz ≤ length m)%nat ∧ (sz ≤ 8)%nat)
  then Some (bool_decide (take sz (drop (Z.to_nat key_ref_ptr) m) = replicate sz 0)) else None.

Definition store_null_key_ref (h : JOIN_CACHE_HASHED) (key_ref_ptr : Z) : option JOIN_CACHE_HASHED :=
  m ← buff (jc h); (λ m, set_jc h (set_buff (jc h) m)) <$> store_offset (size_of_key_ofs h) m key_ref_ptr 0.

Definition get_next_rec_ref (h : JOIN_CACHE_HASHED) (ref_ptr : Z) : option Z :=
  m ← buff (jc h); get_offset (get_size_of_rec_offset (jc h)) m ref_ptr.
Definition store_next_rec_ref (h : JOIN_CACHE_HASHED) (ref_ptr ref : Z) : option JOIN_CACHE_HASHED :=
  m ← buff (jc h);
  (λ m, set_jc h (set_buff (jc h) m)) <$> store_offset (get_size_of_rec_offset (jc h)) m ref_ptr (u64 ref).

Definition get_curr_emb_key (h : JOIN_CACHE_HASHED) : Z := get_curr_rec (jc h) + data_fields_offset h.
Definition get_emb_key (h : JOIN_CACHE_HASHED) (ref_ptr : Z) : option Z :=
  m ← buff (jc h); get_offset (get_size_of_rec_offset (jc h)) m ref_ptr.
Definition store_emb_key_ref (h : JOIN_CACHE_HASHED) (ref_ptr ref : Z) : option JOIN_CACHE_HASHED :=
  m ← buff (jc h);
  (λ m, set_jc h (set_buff (jc h) m)) <$> store_offset (get_size_of_rec_offset (jc h)) m ref_ptr (u64 ref).

Definition HASHED_get_prefix_length (h : JOIN_CACHE_HASHED) : Z :=
  u32 (base_prefix_length (jc h) + get_size_of_rec_offset (jc h)).
Definition HASHED_rem_space (h : JOIN_CACHE_HASHED) : Z :=
  MY_MAX (u64 (u64 (last_key_entry h - end_pos (jc h)) - aux_buff_size (jc h))) 0.
Definition HASHED_extra_key_length (h : JOIN_CACHE_HASHED) : Z := key_entry_length h.
Definition get_curr_key_chain (h : JOIN_CACHE_HASHED) : option Z :=
  get_next_rec_ref h (curr_key_entry h + key_entry_length h - get_size_of_rec_offset (jc h)).

Definition BKAH_setup_aux_buffer (h : JOIN_CACHE_HASHED) : Z * Z := (end_pos (jc h), last_key_entry h).
Definition BKAH_get_number_of_ranges_for_mrr (h : JOIN_CACHE_HASHED) : Z := key_entries h.

(** [get_join_alg] and [is_key_access] of the four classes; a BKAH cache inherits
    the second from BNLH. *)
Inductive cache_class := CACHE_BNL | CACHE_BNLH | CACHE_BKA | CACHE_BKAH.
Definition get_join_alg (k : cache_class) : Join_algorithm :=
  match k with CACHE_BNL => BNL_JOIN_ALG | CACHE_BNLH => BNLH_JOIN_ALG | CACHE_BKA => BKA_JOIN_ALG | CACHE_BKAH => BKAH_JOIN_ALG end.
Definition is_key_access (k : cache_class) : bool := match k with CACHE_BNL => false | _ => true end.

End JoinCache.

(** ** Places that hold references *)

Section slots.
Import JoinCache.

(** A place, with the method that reads it and the one that writes it. *)
Inductive slot :=
| RecRef (ptr : Z) | RecLength (ptr : Z) | FldOffset (ptr : Z)
| NextKeyRef (ptr : Z) | NextRecRef (ptr : Z) | EmbKeyRef (ptr : Z).

#[global] Instance slot_eq_dec : EqDecision slot.
Proof. solve_decision. Defined.

Definition fetch (h : JOIN_CACHE_HASHED) (s : slot) : option Z :=
  match s with
  | RecRef p => get_rec_ref (jc h) p
  | RecLength p => get_rec_length (jc h) p
  | FldOffset p => get_fld_offset (jc h) p
  | NextKeyRef p => get_next_key_ref h p
  | NextRecRef p => get_next_rec_ref h p
  | EmbKeyRef p => get_emb_key h p
  end.

Definition put (h : JOIN_CACHE_HASHED) (s : slot) (v : Z) : option JOIN_CACHE_HASHED :=
  match s with
  | RecRef p => set_jc h <$> store_rec_ref (jc h) p v
  | RecLength p => set_jc h <$> store_rec_length (jc h) p v
  | FldOffset p => set_jc h <$> store_fld_offset (jc h) p v
  | NextKeyRef p => store_next_key_ref h p v
  | NextRecRef p => store_next_rec_ref h p v
  | EmbKeyRef p => store_emb_key_ref h p v
  end.

Fixpoint put_all (h : JOIN_CACHE_HASHED) (ws : list (slot * Z)) : option JOIN_CACHE_HASHED :=
  match ws with
  | [] => Some h
  | w :: ws => h ← put h w.1 w.2; put_all h ws
  end.

(** The bytes of a place and the offset that is kept there for a position. *)
Definition slot_size (h : JOIN_CACHE_HASHED) (s : slot) : Z :=
  match s with
  | RecLength _ => size_of_rec_len (jc h) | FldOffset _ => size_of_fld_ofs (jc h)
  | NextKeyRef _ => size_of_key_ofs h | _ => size_of_rec_ofs (jc h)
  end.
Definition slot_addr (h : JOIN_CACHE_HASHED) (s : slot) : Z :=
  match s with
  | RecRef p => p - size_of_rec_ofs (jc h)
  | RecLength p | FldOffset p | NextKeyRef p | NextRecRef p | EmbKeyRef p => p
  end.
Definition kept (h : JOIN_CACHE_HASHED) (s : slot) (v : Z) : Z :=
  match s with NextKeyRef _ => hash_table h - v | _ => v end.

Definition disjoint_slots (h : JOIN_CACHE_HASHED) (s t : slot) : Prop :=
  slot_addr h s + slot_size h s ≤ slot_addr h t ∨ slot_addr h t + slot_size h t ≤ slot_addr h s.

(** The sizes are what [offset_size] gives for some largest value below 2^32: the
    length of the buffer for the three kinds of positions. *)
Record layout (h : JOIN_CACHE_HASHED) (m : list Z) (reclen : Z) : Prop := {
  ly_buff : buff (jc h) = Some m;
  ly_bytes : bytes_ok m;
  ly_len : Z.of_nat (length m) < 2 ^ 32;
  ly_reclen : 0 ≤ reclen < 2 ^ 32;
  ly_rec_ofs : size_of_rec_ofs (jc h) = offset_size (Z.of_nat (length m));
  ly_key_ofs : size_of_key_ofs h = offset_size (Z.of_nat (length m));
  ly_rec_len : size_of_rec_len (jc h) = offset_size reclen;
  ly_fld_ofs : size_of_fld_ofs (jc h) = offset_size reclen }.

(** The place is in the buffer and the value is in reach of it. *)
Definition in_reach (h : JOIN_CACHE_HASHED) (m : list Z) (reclen : Z) (s : slot) (v : Z) : Prop :=
  0 ≤ slot_addr h s ∧ slot_addr h s + slot_size h s ≤ Z.of_nat (length m) ∧
  0 ≤ kept h s v ≤ match s with RecLength _ | FldOffset _ => reclen | _ => Z.of_nat (length m) end.

(** What was written last. *)
Fixpoint last_written (ws : list (slot * Z)) (s : slot) : option Z :=
  match ws with
  | [] => None
  | w :: ws => match last_written ws s with Some v => Some v | None => if decide (w.1 = s) then Some w.2 else None end
  end.

(** ** Lemmas *)

Lemma offset_size_cases len : offset_size len = 1 ∨ offset_size len = 2 ∨ offset_size len = 4.
Proof. unfold offset_size. repeat case_decide; auto. Qed.

Lemma offset_size_fits len ofs : 0 ≤ ofs ≤ len → len < 2 ^ 32 → ofs < 256 ^ offset_size len.
Proof. intros H1 H2. unfold offset_size. repeat case_decide; lia. Qed.

Lemma get_offset_load len m ptr : bytes_ok m → 0 ≤ ptr →
  get_offset (offset_size len) m ptr = load_le (Z.to_nat (offset_size len)) m (Z.to_nat ptr).
Proof.
  intros Hm Hp. destruct (offset_size_cases len) as [-> | [-> | ->]]; cbn; rewrite decide_True by done.
  - by rewrite rd_load, Nat.add_0_r.
  - unfold X86_64.uint2korr. apply load_le_wrap; [done|]. intros v Hv. apply wrapu_small. exact Hv.
  - unfold X86_64.uint4korr. apply load_le_wrap; [done|]. intros v Hv. apply wrapu_small. exact Hv.
Qed.

Lemma store_offset_store len m ptr ofs : 0 ≤ ptr →
  store_offset (offset_size len) m ptr ofs = store_le (Z.to_nat (offset_size len)) m (Z.to_nat ptr) ofs.
Proof.
  intros Hp. destruct (offset_size_cases len) as [-> | [-> | ->]]; cbn; rewrite decide_True by done.
  - rewrite wr_store, Nat.add_0_r. by apply (store_le_mod 1 1).
  - unfold X86_64.int2store. etrans; [by apply (store_le_mod 2 2)|]. by apply (store_le_mod 2 2).
  - unfold X86_64.int4store. etrans; [by apply (store_le_mod 4 4)|]. by apply (store_le_mod 4 4).
Qed.

Lemma store_le_length n m p v m' : store_le n m p v = Some m' → length m' = length m.
Proof.
  unfold store_le. case_decide; intros [= <-]. rewrite !length_app, length_take, length_le_bytes, length_drop. lia.
Qed.

(** A window that does not meet the one written keeps its bytes. *)
Lemma store_le_window n m p v m' k q :
  store_le n m p v = Some m' → (q + k ≤ p ∨ p + n ≤ q)%nat → take k (drop q m') = take k (drop q m).
Proof.
  unfold store_le. case_decide as Hd; intros [= <-] Hq. apply list_eq. intros i. rewrite !lookup_take. case_decide; [|done].
  rewrite !lookup_drop. destruct Hq.
  - rewrite lookup_app_l by (rewrite length_take; lia). by rewrite lookup_take_lt by lia.
  - rewrite lookup_app_r by (rewrite length_take; lia). rewrite length_take, Nat.min_l by lia.
    rewrite lookup_app_r by (rewrite length_le_bytes; lia). rewrite length_le_bytes, lookup_drop. f_equal. lia.
Qed.

Lemma store_le_frame n m p v m' k q :
  store_le n m p v = Some m' → (q + k ≤ p ∨ p + n ≤ q)%nat → load_le k m' q = load_le k m q.
Proof.
  intros Hs Hq. unfold load_le. rewrite (store_le_length _ _ _ _ _ Hs). case_decide; [|done].
  by rewrite (store_le_window _ _ _ _ _ k q Hs Hq).
Qed.

Lemma last_written_in ws s : last_written ws s = None → s ∉ ws.*1.
Proof.
  induction ws as [|w ws IH]; cbn; [set_solver|]. destruct (last_written ws s); [done|]. case_decide; [done|].
  intros _. set_solver.
Qed.

Lemma last_written_reach ws s v (P : slot * Z → Prop) : last_written ws s = Some v → Forall P ws → P (s, v).
Proof.
  intros Hv Hf. induction Hf as [|[s' v'] ws Hw Hf IH]; cbn in *; [done|].
  destruct (last_written ws s); [by apply IH|]. case_decide; [|done]. simplify_eq. done.
Qed.

Lemma u64_sub_l a b : u64 (u64 a - b) = u64 (a - b).
Proof. unfold wrapu. by rewrite Zminus_mod_idemp_l. Qed.

(** Zero bytes. *)
Lemma le_val_zero l : bytes_ok l → le_val l = 0 ↔ l = replicate (length l) 0.
Proof.
  induction l as [|b l IH]; intros Hl; [done|]. apply Forall_cons in Hl as [Hb Hl]. cbn.
  pose proof (le_val_bound l Hl). split.
  - intros H0. assert (b = 0) as -> by lia. f_equal. apply IH; [done|]. lia.
  - intros [= -> Hr]. apply IH in Hr; [|done]. lia.
Qed.

(** What the two methods of a place do, in terms of its bytes. *)
Lemma slot_size_offset h m reclen s : layout h m reclen → ∃ len,
  slot_size h s = offset_size len ∧ 0 ≤ len < 2 ^ 32 ∧
  len = match s with RecLength _ | FldOffset _ => reclen | _ => Z.of_nat (length m) end.
Proof.
  intros [Hb _ Hl Hr H1 H2 H3 H4]. destruct s; cbn; eexists; (split; [eassumption|split; [lia|reflexivity]]).
Qed.

Lemma slot_size_pos h m reclen s : layout h m reclen → 1 ≤ slot_size h s ≤ 4.
Proof. intros Hly. destruct (slot_size_offset h m reclen s Hly) as (len & -> & _). destruct (offset_size_cases len); lia. Qed.

Lemma fetch_load h m reclen s : layout h m reclen → 0 ≤ slot_addr h s →
  fetch h s = kept h s <$> load_le (Z.to_nat (slot_size h s)) m (Z.to_nat (slot_addr h s)).
Proof.
  intros Hly Hp. destruct (slot_size_offset h m reclen s Hly) as (len & Hsz & _).
  rewrite Hsz, <- get_offset_load, <- Hsz by (try done; by eapply ly_bytes).
  pose proof (ly_buff _ _ _ Hly) as Hb.
  destruct s; cbn; unfold get_rec_ref, get_rec_length, get_fld_offset, get_next_key_ref, get_next_rec_ref, get_emb_key;
    rewrite Hb; cbn; unfold get_size_of_rec_offset; by destruct (get_offset _ _ _).
Qed.

Lemma put_store h m reclen s v : layout h m reclen → in_reach h m reclen s v → ∃ m',
  store_le (Z.to_nat (slot_size h s)) m (Z.to_nat (slot_addr h s)) (kept h s v) = Some m' ∧
  put h s v = Some (set_jc h (set_buff (jc h) m')).
Proof.
  intros Hly (Ha & Hin & Hk). destruct (slot_size_offset h m reclen s Hly) as (len & Hsz & Hlen & Elen). rewrite <- Elen in Hk.
  assert (store_offset (slot_size h s) m (slot_addr h s) (kept h s v) =
    store_le (Z.to_nat (slot_size h s)) m (Z.to_nat (slot_addr h s)) (kept h s v)) as Hst
    by (rewrite Hsz; by apply store_offset_store).
  assert (u64 (kept h s v) = kept h s v) as Hu by (apply wrapu_small; unfold in_u; lia).
  destruct (store_le (Z.to_nat (slot_size h s)) m (Z.to_nat (slot_addr h s)) (kept h s v)) as [m'|] eqn:E.
  - exists m'. split; [done|]. pose proof (ly_buff _ _ _ Hly) as Hb.
    destruct s; cbn in *; unfold store_rec_ref, store_rec_length, store_fld_offset, store_next_key_ref, store_next_rec_ref,
      store_emb_key_ref, get_size_of_rec_offset; rewrite Hb; cbn; rewrite ?Hu, Hst; done.
  - unfold store_le in E. rewrite decide_True in E; [done|].
    destruct (offset_size_cases len) as [He|[He|He]]; rewrite Hsz, He in *; lia.
Qed.

(** Reading the written place, and any place that does not meet it. *)
Lemma put_fetch h m reclen s v : layout h m reclen → in_reach h m reclen s v → ∃ h' m',
  put h s v = Some h' ∧ layout h' m' reclen ∧ length m' = length m ∧
  (∀ t, slot_size h' t = slot_size h t ∧ slot_addr h' t = slot_addr h t ∧ ∀ w, kept h' t w = kept h t w) ∧
  hash_table h' = hash_table h ∧ fetch h' s = Some v ∧
  (∀ t, 0 ≤ slot_addr h t → disjoint_slots h s t → fetch h' t = fetch h t).
Proof.
  intros Hly Hr. destruct (put_store h m reclen s v Hly Hr) as (m' & Hm' & Hput).
  pose proof (store_le_length _ _ _ _ _ Hm') as Hlen. destruct (slot_size_offset h m reclen s Hly) as (len & Hsz & Hl32 & Elen).
  set (h' := set_jc h (set_buff (jc h) m')) in *. exists h', m'.
  assert (layout h' m' reclen) as Hly'.
  { destruct Hly as [Hb Hby Hl Hrl H1 H2 H3 H4]. constructor; cbn; rewrite ?Hlen; try done. by eapply store_le_ok. }
  assert (∀ t, slot_size h' t = slot_size h t ∧ slot_addr h' t = slot_addr h t ∧ ∀ w, kept h' t w = kept h t w) as Hsame
    by (intros []; done).
  destruct Hr as (Ha & Hin & Hk). split_and!; try done.
  - rewrite (fetch_load h' m' reclen s Hly') by (destruct (Hsame s) as (_ & -> & _); done).
    destruct (Hsame s) as (-> & -> & _). rewrite (store_load _ _ _ _ _ Hm'). cbn.
    rewrite <- Elen in Hk. pose proof (offset_size_fits len (kept h s v) Hk (proj2 Hl32)).
    rewrite Z.mod_small; [f_equal; destruct s; cbn; lia|].
    rewrite Z2Nat.id by (destruct (offset_size_cases len) as [He|[He|He]]; lia). rewrite Hsz. lia.
  - intros t Ht Hd. rewrite (fetch_load h' m' reclen t Hly') by (destruct (Hsame t) as (_ & -> & _); done).
    rewrite (fetch_load h m reclen t Hly Ht). destruct (Hsame t) as (-> & -> & _).
    rewrite (store_le_frame _ _ _ _ _ _ _ Hm'); [done|]. destruct Hd; [right|left];
      pose proof (slot_size_pos h m reclen s Hly); pose proof (slot_size_pos h m reclen t Hly); lia.
Qed.

(** Many writes: each place holds what was written there last, places that meet
    none of the written ones keep their value. *)
Lemma put_all_fetch ws : ∀ h m reclen, layout h m reclen →
  Forall (λ w, in_reach h m reclen w.1 w.2) ws →
  (∀ s t, s ∈ ws.*1 → t ∈ ws.*1 → s = t ∨ disjoint_slots h s t) →
  ∃ h' m', put_all h ws = Some h' ∧ layout h' m' reclen ∧ length m' = length m ∧ hash_table h' = hash_table h ∧
    (∀ s v, last_written ws s = Some v → fetch h' s = Some v) ∧
    (∀ t, 0 ≤ slot_addr h t → (∀ s, s ∈ ws.*1 → disjoint_slots h s t) → fetch h' t = fetch h t).
Proof.
  induction ws as [|[s0 v0] ws IH]; intros h m reclen Hly Hr Hd; [by exists h, m|].
  apply Forall_cons in Hr as [Hr0 Hr]. cbn in Hr0.
  destruct (put_fetch h m reclen s0 v0 Hly Hr0) as (h1 & m1 & Hp & Hly1 & Hlen1 & Hsame & Ht1 & Hf0 & Hfr).
  assert (∀ s t, disjoint_slots h1 s t ↔ disjoint_slots h s t) as Hdis.
  { intros s t. unfold disjoint_slots. destruct (Hsame s) as (-> & -> & _), (Hsame t) as (-> & -> & _). done. }
  destruct (IH h1 m1 reclen Hly1) as (h2 & m2 & Hp2 & Hly2 & Hlen2 & Ht2 & Hlast & Hfr2).
  { eapply Forall_impl; [exact Hr|]. intros [s v]. unfold in_reach. cbn. destruct (Hsame s) as (-> & -> & Hk).
    rewrite Hk, Hlen1. done. }
  { intros s t Hs Ht. rewrite Hdis. apply Hd; cbn; set_solver. }
  exists h2, m2. cbn. rewrite Hp. cbn. split_and!; [done|done|lia|congruence| |].
  - intros s v. destruct (last_written ws s) as [v'|] eqn:E; [intros [= <-]; by apply Hlast|].
    case_decide; intros [= <-]. subst s. rewrite Hfr2; [done| |].
    { destruct (Hsame s0) as (_ & -> & _). apply Hr0. }
    intros t Ht. apply Hdis. destruct (Hd t s0) as [->|?]; [set_solver..| |done].
    exfalso. by apply (last_written_in ws s0).
  - intros t Ht Hs. rewrite Hfr2, Hfr; [done|done| | |]; [apply Hs; set_solver|by destruct (Hsame t) as (_ & -> & _)|].
    intros s Hin. apply Hdis, Hs. set_solver.
Qed.

(** The nil reference is the one of the hash table itself. *)
Lemma is_null_key_ref_fetch h m reclen p v : layout h m reclen → fetch h (NextKeyRef p) = Some v → 0 ≤ p →
  p + size_of_key_ofs h ≤ Z.of_nat (length m) → is_null_key_ref h p = Some (bool_decide (v = hash_table h)).
Proof.
  intros Hly Hf Hp Hin. rewrite (fetch_load h m reclen (NextKeyRef p) Hly Hp) in Hf. cbn in Hf. unfold is_null_key_ref.
  rewrite (ly_buff _ _ _ Hly). cbn. pose proof (slot_size_pos h m reclen (NextKeyRef p) Hly) as Hsz. cbn in Hsz.
  rewrite decide_True by lia. f_equal. unfold load_le in Hf. rewrite decide_True in Hf by lia.
  set (l := take _ _) in *. cbn in Hf. injection Hf as Hf.
  assert (bytes_ok l) as Hl by (apply Forall_take, Forall_drop, (ly_bytes _ _ _ Hly)).
  assert (length l = Z.to_nat (size_of_key_ofs h)) as Hll by (unfold l; rewrite length_take, length_drop; lia).
  apply bool_decide_ext. rewrite <- Hll, <- (le_val_zero l Hl). lia.
Qed.
End slots.

(** ** Properties *)

Section properties.
Import JoinCache.

(** [C18] A join buffer shorter than 2^32 bytes whose offsets have the size
    [offset_size] gives implements a map from places to positions: any sequence
    of writes of references, lengths and field offsets at places that do not
    overlap succeeds, each place then reads as the last position written there,
    a place that meets no written one keeps its value, and a link of the hash
    table is nil exactly when the position is the hash table itself. *)
Theorem join_cache_refs_map (h : JOIN_CACHE_HASHED) (m : list Z) (reclen : Z) (ws : list (slot * Z)) :
  layout h m reclen → Forall (λ w, in_reach h m reclen w.1 w.2) ws →
  (∀ s t, s ∈ ws.*1 → t ∈ ws.*1 → s = t ∨ disjoint_slots h s t) →
  ∃ h', put_all h ws = Some h' ∧
    (∀ s v, last_written ws s = Some v → fetch h' s = Some v) ∧
    (∀ t, 0 ≤ slot_addr h t → (∀ s, s ∈ ws.*1 → disjoint_slots h s t) → fetch h' t = fetch h t) ∧
    (∀ p v, last_written ws (NextKeyRef p) = Some v → is_null_key_ref h' p = Some (bool_decide (v = hash_table h))).
Proof.
  intros Hly Hr Hd. destruct (put_all_fetch ws h m reclen Hly Hr Hd) as (h' & m' & Hp & Hly' & Hlen & Ht & Hlast & Hfr).
  exists h'. split_and!; try done. intros p v Hv. rewrite <- Ht.
  destruct (last_written_reach _ _ _ (λ w, in_reach h m reclen w.1 w.2) Hv Hr) as (Ha & Hin & _). cbn in Ha, Hin.
  apply (is_null_key_ref_fetch h' m' reclen p v Hly'); [by apply Hlast|done|].
  rewrite (ly_key_ofs _ _ _ Hly'), Hlen, <- (ly_key_ofs _ _ _ Hly). done.
Qed.

(** A buffer of 300 bytes with its hash table at 290: two records linked in a
    circle, one key entry, the next one nil. *)
Definition cache300 : JOIN_CACHE_HASHED :=
  JCH (JC (Some (replicate 300 7)) 300 0 40 2 2 1 1 0 0 0 false None) 2 6 290 280 280 1 0.

Lemma join_cache_refs_map_witness :
  ∃ h', put_all cache300 [(NextRecRef 0, 20); (NextRecRef 20, 20); (NextKeyRef 280, 290); (EmbKeyRef 278, 24); (NextRecRef 20, 0)] = Some h' ∧
    fetch h' (NextRecRef 0) = Some 20 ∧ fetch h' (NextRecRef 20) = Some 0 ∧ is_null_key_ref h' 280 = Some true.
Proof.
  destruct (join_cache_refs_map cache300 (replicate 300 7) 255
    [(NextRecRef 0, 20); (NextRecRef 20, 20); (NextKeyRef 280, 290); (EmbKeyRef 278, 24); (NextRecRef 20, 0)]) as (h' & Hp & Hl & _ & Hn).
  - constructor; try reflexivity; [by apply (bool_decide_unpack _)|lia].
  - repeat constructor; unfold in_reach; cbn; lia.
  - intros s t Hs Ht. cbn in Hs, Ht. rewrite !elem_of_cons in Hs, Ht. unfold disjoint_slots.
    destruct Hs as [->|[->|[->|[->|[->|Hs]]]]]; try (by apply not_elem_of_nil in Hs);
      destruct Ht as [->|[->|[->|[->|[->|Ht]]]]]; try (by apply not_elem_of_nil in Ht); cbn; first [by left|right; lia].
  - exists h'. split_and!; [exact Hp|by apply Hl|by apply Hl|exact (Hn 280 290 eq_refl)].
Defined.

(** The remaining space of the two kinds of buffers is exact as long as the
    records and the auxiliary buffer fit.  When they do not, the maximum with 0
    does not apply, the difference being unsigned: the method returns a number
    close to 2^64. *)
Theorem rem_space_not_clamped (h : JOIN_CACHE_HASHED) (used lim : Z) :
  0 ≤ end_pos (jc h) → 0 ≤ aux_buff_size (jc h) → used = end_pos (jc h) + aux_buff_size (jc h) → used < 2 ^ 63 →
  0 ≤ lim < 2 ^ 63 → (buff_size (jc h) = lim → rem_space (jc h) = if decide (used ≤ lim) then lim - used else 2 ^ 64 - (used - lim)) ∧
  (last_key_entry h = lim → HASHED_rem_space h = if decide (used ≤ lim) then lim - used else 2 ^ 64 - (used - lim)).
Proof.
  intros He Ha -> Hu Hl.
  assert (MY_MAX (u64 (u64 (lim - end_pos (jc h)) - aux_buff_size (jc h))) 0 =
    if decide (end_pos (jc h) + aux_buff_size (jc h) ≤ lim) then lim - (end_pos (jc h) + aux_buff_size (jc h))
    else 2 ^ 64 - (end_pos (jc h) + aux_buff_size (jc h) - lim)) as Hm.
  { unfold MY_MAX. rewrite (u64_sub_l (lim - end_pos (jc h))). set (d := lim - end_pos (jc h) - aux_buff_size (jc h)).
    destruct (decide (_ ≤ lim)).
    - rewrite (wrapu_small 64 d) by (unfold in_u; lia). case_decide; lia.
    - replace (u64 d) with (2 ^ 64 + d); [case_decide; lia|]. unfold wrapu. apply Z.mod_unique with (-1); lia. }
  split; intros <-; exact Hm.
Qed.

Lemma rem_space_not_clamped_witness :
  let h := JCH (JC (Some []) 100 30 80 1 1 1 1 0 0 0 false None) 1 1 0 0 120 0 0 in
  rem_space (jc h) = 2 ^ 64 - 10 ∧ HASHED_rem_space h = 10.
Proof.
  intros h. split.
  - apply (rem_space_not_clamped h 110 100); cbn; lia.
  - apply (rem_space_not_clamped h 110 120); cbn; lia.
Defined.
End properties.
