(* ===== verification/Handler.v ===== *)
(** * The handler of a storage engine (handler.h)

    The public wrappers of class handler around the virtual functions of a
    storage engine: the scans ([ha_index_init] to [ha_index_or_rnd_end] and their
    [pre_] twins), reading from the index only, bulk inserts, the error and
    transaction predicates, and the costs the engines report.

    An engine is a type class: the functions it implements, which are undefined
    when they are called against the protocol, and what it promises about the
    cursor it has open.  The handler is proved against that interface. *)

From S2P Require Import Prelude Doubles.
From Stdlib Require Import ZArith Lia SpecFloat.
From stdpp Require Import base numbers option list.
Open Scope Z_scope.
Open Scope cint_scope.

Module Handler.

Inductive init_stat := NONE | INDEX | RND.
#[global] Instance init_stat_eq_dec : EqDecision init_stat.
Proof. solve_decision. Defined.

Definition MAX_KEY : Z := 64.

(** ** The engine *)

(** Each function returns the engine and the error code, 0 for none; the scan
    functions are undefined in a state they must not be called in.
    [extra_keyread] is [extra_opt(HA_EXTRA_KEYREAD, idx)], [extra_no_keyread] is
    [extra(HA_EXTRA_NO_KEYREAD)]. *)
Class StorageEngine (E : Type) := {
  index_init : E → Z → bool → option (E * Z);
  index_end : E → option (E * Z);
  rnd_init : E → bool → option (E * Z);
  rnd_end : E → option (E * Z);
  pre_index_init : E → Z → bool → option (E * Z);
  pre_index_end : E → option (E * Z);
  pre_rnd_init : E → bool → option (E * Z);
  pre_rnd_end : E → option (E * Z);
  extra_keyread : E → Z → E * Z;
  extra_no_keyread : E → E * Z;
  start_bulk_insert : E → Z → Z → E;
  end_bulk_insert : E → E * Z }.

(** ** The handler *)

Record handler (E : Type) := Ha {
  engine : E; inited : init_stat; pre_inited : init_stat; active_index : Z; keyread : Z; end_range : option Z;
  estimation_rows_to_insert : Z; cached_table_flags : Z; m_lock_type : Z }.
Arguments Ha {E}. Arguments engine {E}. Arguments inited {E}. Arguments pre_inited {E}. Arguments active_index {E}.
Arguments keyread {E}. Arguments end_range {E}. Arguments estimation_rows_to_insert {E}. Arguments cached_table_flags {E}.
Arguments m_lock_type {E}.

(** A call ends with a value, at an assertion, or in a virtual function that must
    not be called. *)
Inductive outcome (A : Type) := Done (a : A) | Assertion | Misuse.
Arguments Done {A}. Arguments Assertion {A}. Arguments Misuse {A}.

Definition assert {A} (b : bool) (k : outcome A) : outcome A := if b then k else Assertion.
Definition virtual {A E} (x : option (E * Z)) (k : E → Z → outcome A) : outcome A :=
  match x with Some (e, r) => k e r | None => Misuse end.

Definition F_UNLCK : Z := 3.

Section handler.
Context {E : Type} `{StorageEngine E}.

Definition new_handler (e : E) : handler E := Ha e NONE NONE MAX_KEY MAX_KEY None 0 0 F_UNLCK.

(** The destructor's assertions on the lock and the scan. *)
Definition destroy (h : handler E) : outcome unit :=
  assert (bool_decide (m_lock_type h = F_UNLCK)) (assert (bool_decide (inited h = NONE)) (Done tt)).

Definition ha_index_init (h : handler E) (idx : Z) (sorted : bool) : outcome (handler E * Z) :=
  assert (bool_decide (inited h = NONE)) $
  virtual (index_init (engine h) idx sorted) $ λ e result,
  if decide (result = 0)
  then Done (Ha e INDEX (pre_inited h) idx (keyread h) None (estimation_rows_to_insert h) (cached_table_flags h) (m_lock_type h), result)
  else Done (Ha e (inited h) (pre_inited h) (active_index h) (keyread h) (end_range h) (estimation_rows_to_insert h)
               (cached_table_flags h) (m_lock_type h), result).

Definition ha_index_end (h : handler E) : outcome (handler E * Z) :=
  assert (bool_decide (inited h = INDEX)) $
  virtual (index_end (engine h)) $ λ e result,
  Done (Ha e NONE (pre_inited h) MAX_KEY (keyread h) None (estimation_rows_to_insert h) (cached_table_flags h) (m_lock_type h), result).

Definition ha_rnd_init (h : handler E) (scan : bool) : outcome (handler E * Z) :=
  assert (bool_decide (inited h = NONE) || (bool_decide (inited h = RND) && scan)) $
  virtual (rnd_init (engine h) scan) $ λ e result,
  Done (Ha e (if decide (result = 0) then RND else NONE) (pre_inited h) (active_index h) (keyread h) None
          (estimation_rows_to_insert h) (cached_table_flags h) (m_lock_type h), result).

Definition ha_rnd_end (h : handler E) : outcome (handler E * Z) :=
  assert (bool_decide (inited h = RND)) $
  virtual (rnd_end (engine h)) $ λ e result,
  Done (Ha e NONE (pre_inited h) (active_index h) (keyread h) None (estimation_rows_to_insert h) (cached_table_flags h) (m_lock_type h), result).

Definition ha_index_or_rnd_end (h : handler E) : outcome (handler E * Z) :=
  match inited h with INDEX => ha_index_end h | RND => ha_rnd_end h | NONE => Done (h, 0) end.

Definition get_index (h : handler E) : Z := if decide (inited h = INDEX) then active_index h else MAX_KEY.

Definition with_pre (h : handler E) (e : E) (s : init_stat) : handler E :=
  Ha e (inited h) s (active_index h) (keyread h) (end_range h) (estimation_rows_to_insert h) (cached_table_flags h) (m_lock_type h).

Definition ha_pre_rnd_init (h : handler E) (scan : bool) : outcome (handler E * Z) :=
  assert (bool_decide (pre_inited h = NONE) || (bool_decide (pre_inited h = RND) && scan)) $
  virtual (pre_rnd_init (engine h) scan) $ λ e result,
  Done (with_pre h e (if decide (result = 0) then RND else NONE), result).

Definition ha_pre_rnd_end (h : handler E) : outcome (handler E * Z) :=
  assert (bool_decide (pre_inited h = RND)) $
  virtual (pre_rnd_end (engine h)) $ λ e result, Done (with_pre h e NONE, result).

Definition ha_pre_index_init (h : handler E) (idx : Z) (sorted : bool) : outcome (handler E * Z) :=
  assert (bool_decide (pre_inited h = NONE)) $
  virtual (pre_index_init (engine h) idx sorted) $ λ e result,
  Done (with_pre h e (if decide (result = 0) then INDEX else pre_inited h), result).

Definition ha_pre_index_end (h : handler E) : outcome (handler E * Z) :=
  assert (bool_decide (pre_inited h = INDEX)) $
  virtual (pre_index_end (engine h)) $ λ e result, Done (with_pre h e NONE, result).

Definition ha_pre_index_or_rnd_end (h : handler E) : outcome (handler E * Z) :=
  match pre_inited h with INDEX => ha_pre_index_end h | RND => ha_pre_rnd_end h | NONE => Done (h, 0) end.

Definition keyread_enabled (h : handler E) : bool := bool_decide (keyread h < MAX_KEY).

Definition with_keyread (h : handler E) (e : E) (k : Z) : handler E :=
  Ha e (inited h) (pre_inited h) (active_index h) k (end_range h) (estimation_rows_to_insert h) (cached_table_flags h) (m_lock_type h).

Definition ha_start_keyread (h : handler E) (idx : Z) : handler E * Z :=
  let '(e, res) := if keyread_enabled h then (engine h, 0) else extra_keyread (engine h) idx in
  (with_keyread h e idx, res).

Definition ha_end_keyread (h : handler E) : handler E * Z :=
  if negb (keyread_enabled h) then (h, 0)
  else let '(e, r) := extra_no_keyread (engine h) in (with_keyread h e MAX_KEY, r).

Definition ha_start_bulk_insert (h : handler E) (rows flags : Z) : handler E :=
  Ha (start_bulk_insert (engine h) rows flags) (inited h) (pre_inited h) (active_index h) (keyread h) (end_range h) rows
    (cached_table_flags h) (m_lock_type h).

Definition ha_end_bulk_insert (h : handler E) : handler E * Z :=
  let '(e, ret) := end_bulk_insert (engine h) in
  (Ha e (inited h) (pre_inited h) (active_index h) (keyread h) (end_range h) 0 (cached_table_flags h) (m_lock_type h), ret).

(** ** Predicates *)

Definition HA_NO_TRANSACTIONS : Z := 1 ≪ 0.
Definition HA_PERSISTENT_TABLE : Z := 1 ≪ 48.
Definition ha_table_flags (h : handler E) : Z := cached_table_flags h.
Definition has_transactions (h : handler E) : bool :=
  bool_decide (ha_table_flags h .& (HA_NO_TRANSACTIONS .| HA_PERSISTENT_TABLE) = 0).
Definition has_transaction_manager (h : handler E) : bool := bool_decide (ha_table_flags h .& HA_NO_TRANSACTIONS = 0).
End handler.

Definition HA_CHECK_DUP_KEY : Z := 1.
Definition HA_CHECK_DUP_UNIQUE : Z := 2.
Definition HA_CHECK_FK_ERROR : Z := 4.
Definition HA_CHECK_DUP : Z := HA_CHECK_DUP_KEY + HA_CHECK_DUP_UNIQUE.
Definition HA_CHECK_ALL : Z := u32 (-1).
Definition HA_ERR_FOUND_DUPP_KEY : Z := 121.
Definition HA_ERR_FOUND_DUPP_UNIQUE : Z := 141.
Definition HA_ERR_NO_REFERENCED_ROW : Z := 151.
Definition HA_ERR_ROW_IS_REFERENCED : Z := 152.
Definition HA_ERR_AUTOINC_ERANGE : Z := 167.

Definition is_fatal_error (error flags : Z) : bool :=
  negb (bool_decide (error = 0) ||
    (bool_decide (flags .& HA_CHECK_DUP_KEY ≠ 0) &&
       (bool_decide (error = HA_ERR_FOUND_DUPP_KEY) || bool_decide (error = HA_ERR_FOUND_DUPP_UNIQUE))) ||
    bool_decide (error = HA_ERR_AUTOINC_ERANGE) ||
    (bool_decide (flags .& HA_CHECK_FK_ERROR ≠ 0) &&
       (bool_decide (error = HA_ERR_ROW_IS_REFERENCED) || bool_decide (error = HA_ERR_NO_REFERENCED_ROW)))).

(** The default [truncate]: the two virtual functions it calls are parameters. *)
Definition truncate (delete_all_rows : Z) (reset_auto_increment : Z → Z) : Z :=
  if decide (delete_all_rows ≠ 0) then delete_all_rows else reset_auto_increment 0.

(** ** Cost_estimate *)

Record Cost_estimate := Cost {
  io_count : spec_float; avg_io_cost : spec_float; cpu_cost : spec_float; import_cost : spec_float; mem_cost : spec_float }.

Definition IO_COEFF : Z := 1.
Definition CPU_COEFF : Z := 1.
Definition MEM_COEFF : Z := 1.
Definition IMPORT_COEFF : Z := 1.

Notation d0 := (S754_zero false).
Definition zero_cost : Cost_estimate := Cost d0 (Double.of_Z 1) d0 d0 d0.

Definition total_cost (c : Cost_estimate) : spec_float :=
  Double.add_d (Double.add_d (Double.add_d
    (Double.mul (Double.mul (Double.of_Z IO_COEFF) (io_count c)) (avg_io_cost c))
    (Double.mul (Double.of_Z CPU_COEFF) (cpu_cost c)))
    (Double.mul (Double.of_Z MEM_COEFF) (mem_cost c)))
    (Double.mul (Double.of_Z IMPORT_COEFF) (import_cost c)).

Definition is_zero (c : Cost_estimate) : bool :=
  Double.eqb_d (io_count c) d0 && Double.eqb_d (cpu_cost c) d0 && Double.eqb_d (import_cost c) d0 && Double.eqb_d (mem_cost c) d0.

Definition reset (c : Cost_estimate) : Cost_estimate := zero_cost.

Definition multiply (c : Cost_estimate) (m : spec_float) : Cost_estimate :=
  Cost (Double.mul (io_count c) m) (avg_io_cost c) (Double.mul (cpu_cost c) m) (Double.mul (import_cost c) m) (mem_cost c).

Definition add_io (c : Cost_estimate) (add_io_cnt add_avg_cost : spec_float) : Cost_estimate :=
  if Double.ltb_d d0 add_io_cnt then
    let io_count_sum := Double.add_d (io_count c) add_io_cnt in
    Cost io_count_sum
      (Double.div (Double.add_d (Double.mul (io_count c) (avg_io_cost c)) (Double.mul add_io_cnt add_avg_cost)) io_count_sum)
      (cpu_cost c) (import_cost c) (mem_cost c)
  else c.

Definition add (c cost : Cost_estimate) : Cost_estimate :=
  let io_count_sum := Double.add_d (io_count c) (io_count cost) in
  let c := add_io c (io_count cost) (avg_io_cost cost) in
  Cost io_count_sum (avg_io_cost c) (Double.add_d (cpu_cost c) (cpu_cost cost)) (import_cost c) (mem_cost c).

Definition add_cpu (c : Cost_estimate) (x : spec_float) : Cost_estimate :=
  Cost (io_count c) (avg_io_cost c) (Double.add_d (cpu_cost c) x) (import_cost c) (mem_cost c).
Definition add_import (c : Cost_estimate) (x : spec_float) : Cost_estimate :=
  Cost (io_count c) (avg_io_cost c) (cpu_cost c) (Double.add_d (import_cost c) x) (mem_cost c).
Definition add_mem (c : Cost_estimate) (x : spec_float) : Cost_estimate :=
  Cost (io_count c) (avg_io_cost c) (cpu_cost c) (import_cost c) (Double.add_d (mem_cost c) x).
Definition convert_from_cost (c : Cost_estimate) (cost : spec_float) : Cost_estimate :=
  let c := reset c in Cost cost (avg_io_cost c) (cpu_cost c) (import_cost c) (mem_cost c).

End Handler.

(** ** What an engine promises *)

Section protocol.
Import Handler.

(** The cursor of an engine. *)
Inductive cursor := NoCursor | IndexCursor (idx : Z) | RndCursor.

Definition stat (c : cursor) : init_stat := match c with NoCursor => NONE | IndexCursor _ => INDEX | RndCursor => RND end.
Definition cursor_index (c : cursor) : Z := match c with IndexCursor idx => idx | _ => MAX_KEY end.

(** The cursor, the cursor of the [pre_] calls, and whether only the index is
    read.  The functions may be called in the states the handler asserts: an index
    scan starts when there is no cursor, a table scan also when there is one of a
    table already, and an end needs a cursor of its kind.  handler.h documents for
    the primitives only that [rnd_init] may be called twice.  That a start that
    reports an error leaves no cursor, and that an end closes the cursor also when
    it reports an error, is what the [ha_] functions assume: they record [NONE] in
    both cases, and no function of the class would end such a cursor later. *)
Class EngineLaws (E : Type) `{StorageEngine E} := {
  phase : E → cursor * cursor * bool;
  index_init_law e idx sorted p k : phase e = (NoCursor, p, k) →
    ∃ e' r, index_init e idx sorted = Some (e', r) ∧ phase e' = (if decide (r = 0) then IndexCursor idx else NoCursor, p, k);
  index_end_law e idx p k : phase e = (IndexCursor idx, p, k) → ∃ e' r, index_end e = Some (e', r) ∧ phase e' = (NoCursor, p, k);
  rnd_init_law e scan c p k : phase e = (c, p, k) → c = NoCursor ∨ c = RndCursor ∧ scan = true →
    ∃ e' r, rnd_init e scan = Some (e', r) ∧ phase e' = (if decide (r = 0) then RndCursor else NoCursor, p, k);
  rnd_end_law e p k : phase e = (RndCursor, p, k) → ∃ e' r, rnd_end e = Some (e', r) ∧ phase e' = (NoCursor, p, k);
  pre_index_init_law e idx sorted c k : phase e = (c, NoCursor, k) →
    ∃ e' r, pre_index_init e idx sorted = Some (e', r) ∧ phase e' = (c, if decide (r = 0) then IndexCursor idx else NoCursor, k);
  pre_index_end_law e idx c k : phase e = (c, IndexCursor idx, k) → ∃ e' r, pre_index_end e = Some (e', r) ∧ phase e' = (c, NoCursor, k);
  pre_rnd_init_law e scan c p k : phase e = (c, p, k) → p = NoCursor ∨ p = RndCursor ∧ scan = true →
    ∃ e' r, pre_rnd_init e scan = Some (e', r) ∧ phase e' = (c, if decide (r = 0) then RndCursor else NoCursor, k);
  pre_rnd_end_law e c k : phase e = (c, RndCursor, k) → ∃ e' r, pre_rnd_end e = Some (e', r) ∧ phase e' = (c, NoCursor, k);
  keyread_law e idx c p : phase e = (c, p, false) → phase (extra_keyread e idx).1 = (c, p, true);
  no_keyread_law e c p : phase e = (c, p, true) → phase (extra_no_keyread e).1 = (c, p, false);
  start_bulk_law e rows flags : phase (start_bulk_insert e rows flags) = phase e;
  end_bulk_law e : phase (end_bulk_insert e).1 = phase e }.

Context {E : Type} `{EngineLaws E}.

Inductive call :=
| IndexInit (idx : Z) (sorted : bool) | IndexEnd | RndInit (scan : bool) | RndEnd | IndexOrRndEnd
| PreIndexInit (idx : Z) (sorted : bool) | PreIndexEnd | PreRndInit (scan : bool) | PreRndEnd | PreIndexOrRndEnd
| StartKeyread (idx : Z) | EndKeyread | StartBulk (rows flags : Z) | EndBulk.

Definition step (h : handler E) (c : call) : outcome (handler E * Z) :=
  match c with
  | IndexInit idx sorted => ha_index_init h idx sorted
  | IndexEnd => ha_index_end h
  | RndInit scan => ha_rnd_init h scan
  | RndEnd => ha_rnd_end h
  | IndexOrRndEnd => ha_index_or_rnd_end h
  | PreIndexInit idx sorted => ha_pre_index_init h idx sorted
  | PreIndexEnd => ha_pre_index_end h
  | PreRndInit scan => ha_pre_rnd_init h scan
  | PreRndEnd => ha_pre_rnd_end h
  | PreIndexOrRndEnd => ha_pre_index_or_rnd_end h
  | StartKeyread idx => Done (ha_start_keyread h idx)
  | EndKeyread => Done (ha_end_keyread h)
  | StartBulk rows flags => Done (ha_start_bulk_insert h rows flags, 0)
  | EndBulk => Done (ha_end_bulk_insert h)
  end.

Fixpoint run (h : handler E) (cs : list call) : outcome (handler E * list Z) :=
  match cs with
  | [] => Done (h, [])
  | c :: cs =>
      match step h c with
      | Done (h1, r) => match run h1 cs with Done (h2, rs) => Done (h2, r :: rs) | Assertion => Assertion | Misuse => Misuse end
      | Assertion => Assertion
      | Misuse => Misuse
      end
  end.

(** The calls that are allowed with these cursors. *)
Definition allowed (c p : init_stat) (o : call) : bool :=
  match o with
  | IndexInit _ _ => bool_decide (c = NONE)
  | IndexEnd => bool_decide (c = INDEX)
  | RndInit scan => bool_decide (c = NONE) || (bool_decide (c = RND) && scan)
  | RndEnd => bool_decide (c = RND)
  | PreIndexInit _ _ => bool_decide (p = NONE)
  | PreIndexEnd => bool_decide (p = INDEX)
  | PreRndInit scan => bool_decide (p = NONE) || (bool_decide (p = RND) && scan)
  | PreRndEnd => bool_decide (p = RND)
  | _ => true
  end.

(** Index numbers are below [MAX_KEY]. *)
Definition call_ok (o : call) : Prop := match o with StartKeyread idx => 0 ≤ idx < MAX_KEY | _ => True end.

(** The handler knows the state of the engine. *)
Definition agrees (h : handler E) : Prop :=
  ∃ c p, phase (engine h) = (c, p, keyread_enabled h) ∧ inited h = stat c ∧ pre_inited h = stat p ∧
    (inited h = INDEX → active_index h = cursor_index c).

Lemma agrees_get_index h : agrees h → get_index h = cursor_index (phase (engine h)).1.1.
Proof.
  intros (c & p & -> & Hi & _ & Ha). unfold get_index. rewrite Hi in *. destruct c; cbn in *; [done| |done].
  by apply Ha.
Qed.

(** Comparisons of the two states of the handler. *)
Ltac stat_bools :=
  repeat first [rewrite bool_decide_true by reflexivity | rewrite bool_decide_false by discriminate]; cbn [orb andb].

Ltac open_calls :=
  unfold ha_index_or_rnd_end, ha_pre_index_or_rnd_end, ha_index_init, ha_index_end, ha_rnd_init, ha_rnd_end,
    ha_pre_index_init, ha_pre_index_end, ha_pre_rnd_init, ha_pre_rnd_end, assert, virtual; cbn; stat_bools.

(** One call: by the law of the engine function it makes. *)
Ltac by_law L :=
  let e' := fresh "e'" in let r := fresh "r" in let He := fresh "He" in let Hph := fresh "Hph" in
  destruct L as (e' & r & He & Hph);
  open_calls; rewrite He; cbn; try case_decide; eexists _, _; (split; [reflexivity|]);
  eexists _, _; cbn; (split; [exact Hph|]); repeat split; try done.

Lemma step_agrees h o : agrees h → call_ok o →
  if allowed (inited h) (pre_inited h) o then ∃ h' r, step h o = Done (h', r) ∧ agrees h' else step h o = Assertion.
Proof.
  destruct h as [e i pi ai kr er est fl]. intros (c & p & Hph & Hi & Hp & Ha) Ho. cbn in Hph, Hi, Hp, Ha. subst i pi.
  destruct o as [idx sorted| |scan| | |idx sorted| |scan| | |idx| |rows flags|]; cbn.
  - destruct c; [|by open_calls..]. by_law (index_init_law e idx sorted p _ Hph).
  - destruct c as [|idx|]; [by open_calls| |by open_calls]. by_law (index_end_law e idx p _ Hph).
  - destruct c; [|by open_calls|destruct scan; [|by open_calls]].
    + by_law (rnd_init_law e scan _ p _ Hph ltac:(auto)).
    + by_law (rnd_init_law e true _ p _ Hph ltac:(auto)).
  - destruct c; [by open_calls..|]. by_law (rnd_end_law e p _ Hph).
  - destruct c as [|idx|].
    + eexists _, _. split; [reflexivity|]. by exists NoCursor, p.
    + by_law (index_end_law e idx p _ Hph).
    + by_law (rnd_end_law e p _ Hph).
  - destruct p; [|by open_calls..]. by_law (pre_index_init_law e idx sorted c _ Hph).
  - destruct p as [|idx|]; [by open_calls| |by open_calls]. by_law (pre_index_end_law e idx c _ Hph).
  - destruct p; [|by open_calls|destruct scan; [|by open_calls]].
    + by_law (pre_rnd_init_law e scan c _ _ Hph ltac:(auto)).
    + by_law (pre_rnd_init_law e true c _ _ Hph ltac:(auto)).
  - destruct p; [by open_calls..|]. by_law (pre_rnd_end_law e c _ Hph).
  - destruct p as [|idx|].
    + eexists _, _. split; [reflexivity|]. by exists c, NoCursor.
    + by_law (pre_index_end_law e idx c _ Hph).
    + by_law (pre_rnd_end_law e c _ Hph).
  - eexists _, _. split; [apply f_equal, surjective_pairing|]. exists c, p. unfold ha_start_keyread, keyread_enabled in *.
    cbn in *. case_bool_decide; cbn in *; [by rewrite bool_decide_true by lia|].
    pose proof (keyread_law e idx c p Hph) as Hk. destruct (extra_keyread e idx) as [e' r]. cbn in *. by rewrite bool_decide_true by lia.
  - eexists _, _. split; [apply f_equal, surjective_pairing|]. exists c, p. unfold ha_end_keyread, keyread_enabled in *.
    cbn in *. case_bool_decide; cbn in *; [|by rewrite bool_decide_false by done].
    pose proof (no_keyread_law e c p Hph) as Hk. destruct (extra_no_keyread e) as [e' r]. done.
  - eexists _, _. split; [reflexivity|]. exists c, p. cbn. by rewrite start_bulk_law.
  - eexists _, _. split; [apply f_equal, surjective_pairing|]. exists c, p. unfold ha_end_bulk_insert. cbn.
    pose proof (end_bulk_law e) as Hk. destruct (end_bulk_insert e) as [e' r]. cbn in *. by rewrite Hk.
Qed.

(** Histories. *)
Lemma run_agrees cs : ∀ h, agrees h → Forall call_ok cs →
  run h cs ≠ Misuse ∧ ∀ h' rs, run h cs = Done (h', rs) → agrees h'.
Proof.
  induction cs as [|c cs IH]; intros h Hh Hok; cbn; [split; [done|by intros h' rs [= <- <-]]|].
  apply Forall_cons in Hok as [Hc Hok]. pose proof (step_agrees h c Hh Hc) as Hs.
  destruct (allowed _ _ c); [|by rewrite Hs]. destruct Hs as (h1 & r & -> & Hh1).
  destruct (IH h1 Hh1 Hok) as [Hm Hd]. destruct (run h1 cs) as [[h2 rs]| |]; [|done..].
  split; [done|]. intros h' rs' [= <- <-]. by eapply Hd.
Qed.

(** No call changes the lock. *)
Lemma step_lock h o h' r : step h o = Done (h', r) → m_lock_type h' = m_lock_type h.
Proof.
  destruct o; cbn [step]; unfold ha_index_or_rnd_end, ha_index_init, ha_index_end, ha_rnd_init, ha_rnd_end, ha_pre_index_or_rnd_end,
    ha_pre_index_init, ha_pre_index_end, ha_pre_rnd_init, ha_pre_rnd_end, ha_start_keyread, ha_end_keyread, ha_end_bulk_insert, assert, virtual;
    intros Hs; repeat (case_bool_decide || case_match); try done; by injection Hs as <- <-.
Qed.
Lemma run_lock cs : ∀ h h' rs, run h cs = Done (h', rs) → m_lock_type h' = m_lock_type h.
Proof.
  induction cs as [|c cs IH]; intros h h' rs; cbn; [by intros [= <- <-]|].
  destruct (step h c) as [[h1 r]| |] eqn:E1; try done. destruct (run h1 cs) as [[h2 rs2]| |] eqn:E2; try done.
  intros [= <- <-]. rewrite (IH _ _ _ E2). by eapply step_lock.
Qed.

Lemma index_or_rnd_end_closes h : agrees h → m_lock_type h = F_UNLCK →
  ∃ h' r, ha_index_or_rnd_end h = Done (h', r) ∧ agrees h' ∧ (phase (engine h')).1.1 = NoCursor ∧ destroy h' = Done tt.
Proof.
  intros Hh Hlock. destruct (step_agrees h IndexOrRndEnd Hh I) as (h' & r & Hs & Hh').
  rewrite <- (step_lock _ _ _ _ Hs) in Hlock. cbn in Hs.
  exists h', r. split; [done|]. split; [done|].
  assert (inited h' = NONE) as Hi.
  { unfold ha_index_or_rnd_end, ha_index_end, ha_rnd_end, assert, virtual in Hs.
    destruct (inited h) eqn:Ei; repeat (case_bool_decide || case_match); try done; by injection Hs as <- <-. }
  unfold destroy. rewrite Hi, Hlock. destruct Hh' as (c & p & -> & Hc & _). split; [|by rewrite bool_decide_true].
  rewrite Hi in Hc. by destruct c.
Qed.
(** Ending the key read, the scans and the bulk insert, whatever the engine reports. *)
Definition release : list call := [EndKeyread; IndexOrRndEnd; PreIndexOrRndEnd; EndBulk].

Lemma end_keyread_disables h : keyread_enabled (ha_end_keyread h).1 = false.
Proof.
  unfold ha_end_keyread. destruct (keyread_enabled h) eqn:Ek; cbn; [|done].
  by destruct (extra_no_keyread (engine h)) as [e r].
Qed.

Lemma index_or_rnd_end_fields h h' r : ha_index_or_rnd_end h = Done (h', r) →
  inited h' = NONE ∧ pre_inited h' = pre_inited h ∧ keyread h' = keyread h.
Proof.
  unfold ha_index_or_rnd_end, ha_index_end, ha_rnd_end, assert, virtual. intros Hs.
  destruct (inited h) eqn:Ei; repeat (case_bool_decide || case_match); try done; by injection Hs as <- <-.
Qed.

Lemma pre_index_or_rnd_end_fields h h' r : ha_pre_index_or_rnd_end h = Done (h', r) →
  pre_inited h' = NONE ∧ inited h' = inited h ∧ keyread h' = keyread h.
Proof.
  unfold ha_pre_index_or_rnd_end, ha_pre_index_end, ha_pre_rnd_end, assert, virtual. intros Hs.
  destruct (pre_inited h) eqn:Ei; repeat (case_bool_decide || case_match); try done; by injection Hs as <- <-.
Qed.

Lemma release_idle h : agrees h →
  ∃ h' rs, run h release = Done (h', rs) ∧ agrees h' ∧ inited h' = NONE ∧ pre_inited h' = NONE ∧
    keyread_enabled h' = false ∧ estimation_rows_to_insert h' = 0.
Proof.
  intros Hh. unfold release. cbn [run step].
  destruct (step_agrees h EndKeyread Hh I) as (h1 & r1 & E1 & A1). cbn in E1.
  destruct (step_agrees h1 IndexOrRndEnd A1 I) as (h2 & r2 & E2 & A2).
  destruct (step_agrees h2 PreIndexOrRndEnd A2 I) as (h3 & r3 & E3 & A3).
  destruct (step_agrees h3 EndBulk A3 I) as (h4 & r4 & E4 & A4).
  cbn [step] in *. injection E1 as E1. rewrite E1, E2, E3. injection E4 as E4. rewrite E4. eexists h4, _. split; [done|]. split; [done|].
  destruct (index_or_rnd_end_fields _ _ _ E2) as (Hi & Hp & Hk).
  destruct (pre_index_or_rnd_end_fields _ _ _ E3) as (Hp' & Hi' & Hk').
  pose proof (end_keyread_disables h) as Hd. rewrite E1 in Hd. cbn in Hd.
  unfold ha_end_bulk_insert in E4. destruct (end_bulk_insert (engine h3)) as [e r]. injection E4 as <- <-.
  unfold keyread_enabled in *. cbn. rewrite Hk', Hk, Hi', Hp'. done.
Qed.
End protocol.

(** ** An engine *)

(** The cursor is all there is; starting an index scan of the index [bad] fails. *)
Module ToyEngine.
Import Handler.
Definition bad : Z := 5.
Definition t : Type := cursor * cursor * bool.
#[global] Instance toy : StorageEngine t := {
  index_init '(c, p, k) idx _ :=
    match c with NoCursor => if decide (idx = bad) then Some ((c, p, k), 1) else Some ((IndexCursor idx, p, k), 0) | _ => None end;
  index_end '(c, p, k) := match c with IndexCursor _ => Some ((NoCursor, p, k), 0) | _ => None end;
  rnd_init '(c, p, k) scan :=
    match c with NoCursor => Some ((RndCursor, p, k), 0) | RndCursor => if scan : bool then Some ((RndCursor, p, k), 0) else None | _ => None end;
  rnd_end '(c, p, k) := match c with RndCursor => Some ((NoCursor, p, k), 0) | _ => None end;
  pre_index_init '(c, p, k) idx _ := match p with NoCursor => Some ((c, IndexCursor idx, k), 0) | _ => None end;
  pre_index_end '(c, p, k) := match p with IndexCursor _ => Some ((c, NoCursor, k), 0) | _ => None end;
  pre_rnd_init '(c, p, k) scan :=
    match p with NoCursor => Some ((c, RndCursor, k), 0) | RndCursor => if scan : bool then Some ((c, RndCursor, k), 0) else None | _ => None end;
  pre_rnd_end '(c, p, k) := match p with RndCursor => Some ((c, NoCursor, k), 0) | _ => None end;
  extra_keyread '(c, p, k) _ := ((c, p, true), 0);
  extra_no_keyread '(c, p, k) := ((c, p, false), 0);
  start_bulk_insert e _ _ := e;
  end_bulk_insert e := (e, 0) }.

#[global] Instance toy_laws : EngineLaws t.
Proof.
  refine {| phase := id |}; unfold id; try (intros; subst; cbn; by eexists _, _); try done.
  - intros [[c p] k] idx sorted p' k' [= -> -> ->]. cbn. case_decide; by eexists _, _.
  - intros [[c p] k] scan c' p' k' [= -> -> ->] [->|[-> ->]]; cbn; by eexists _, _.
  - intros [[c p] k] scan c' p' k' [= -> -> ->] [->|[-> ->]]; cbn; by eexists _, _.
  - by intros [[c p] k] idx c' p' [= -> -> ->].
  - by intros [[c p] k] c' p' [= -> -> ->].
Defined.
End ToyEngine.

(** ** Properties *)

Section properties.
Import Handler.





(** [Cost_estimate::add] adds the I/O and CPU costs of its argument and drops the
    import and memory costs, which are part of [total_cost]. *)
Theorem cost_add_drops_import_and_mem :
  (∀ c cost, import_cost (add c cost) = import_cost c ∧ mem_cost (add c cost) = mem_cost c) ∧
  let remote := add_import (add_mem zero_cost (Double.of_Z 3)) (Double.of_Z 4) in
  total_cost remote = Double.of_Z 7 ∧ total_cost (add zero_cost remote) = Double.of_Z 0.
Proof.
  split; [|by vm_compute]. intros c cost. unfold add, add_io. by destruct (Double.ltb_d _ _).
Qed.
End properties.
