(* ===== verification/Trans.v ===== *)
(** * The engines of a transaction (THD_TRANS and Ha_trx_info of handler.h)

    A session has two transaction contexts, that of the statement and that of the
    whole transaction, and each keeps a list of the storage engines that take
    part, linked through the [Ha_trx_info] objects.  The objects live in a heap
    addressed by numbers, 0 being the null pointer.  The specification of a
    context is a sequence of engines with their read-write marks and five flags. *)

From S2P Require Import Prelude.
From Stdlib Require Import ZArith Lia.
From stdpp Require Import base numbers option list gmap.
Open Scope Z_scope.
Open Scope cint_scope.

Module Trans.

Record Ha_trx_info := Hti { m_next : N; m_ht : N; m_flags : Z }.
Notation heap := (gmap N Ha_trx_info).

Record THD_TRANS := Tt {
  no_2pc : bool; ha_list : N; modified_non_trans_table : bool; m_unsafe_rollback_flags : Z }.

(** ** THD_TRANS *)

Definition CREATED_TEMP_TABLE : Z := 2.
Definition DROPPED_TEMP_TABLE : Z := 4.
Definition DID_WAIT : Z := 8.
Definition DID_DDL : Z := 16.

Definition reset (t : THD_TRANS) : THD_TRANS := Tt false (ha_list t) false 0.
Definition is_empty (t : THD_TRANS) : bool := bool_decide (ha_list t = 0%N).

Definition or_flags (t : THD_TRANS) (f : Z) : THD_TRANS :=
  Tt (no_2pc t) (ha_list t) (modified_non_trans_table t) (u32 (m_unsafe_rollback_flags t .| f)).
Definition mark_created_temp_table (t : THD_TRANS) : THD_TRANS := or_flags t CREATED_TEMP_TABLE.
Definition mark_dropped_temp_table (t : THD_TRANS) : THD_TRANS := or_flags t DROPPED_TEMP_TABLE.
Definition has_created_dropped_temp_table (t : THD_TRANS) : bool :=
  bool_decide (m_unsafe_rollback_flags t .& (CREATED_TEMP_TABLE .| DROPPED_TEMP_TABLE) ≠ 0).
Definition mark_trans_did_wait (t : THD_TRANS) : THD_TRANS := or_flags t DID_WAIT.
Definition trans_did_wait (t : THD_TRANS) : bool := bool_decide (m_unsafe_rollback_flags t .& DID_WAIT ≠ 0).
Definition mark_trans_did_ddl (t : THD_TRANS) : THD_TRANS := or_flags t DID_DDL.
Definition trans_did_ddl (t : THD_TRANS) : bool := bool_decide (m_unsafe_rollback_flags t .& DID_DDL ≠ 0).

(** ** Ha_trx_info

    A failed assertion and an access through a null pointer are [None]. *)

Definition TRX_READ_ONLY : Z := 0.
Definition TRX_READ_WRITE : Z := 1.

Definition info_reset : Ha_trx_info := Hti 0 0 0.
Definition is_started (i : Ha_trx_info) : bool := bool_decide (m_ht i ≠ 0%N).

Definition register_ha (H : heap) (trans : THD_TRANS) (this ht_arg : N) : option (heap * THD_TRANS) :=
  i ← H !! this;
  if bool_decide (m_flags i = 0) && bool_decide (m_ht i = 0%N) && bool_decide (m_next i = 0%N)
  then Some (<[this := Hti (ha_list trans) ht_arg (u8 TRX_READ_ONLY)]> H,
             Tt (no_2pc trans) this (modified_non_trans_table trans) (m_unsafe_rollback_flags trans))
  else None.

Definition set_trx_read_write (H : heap) (this : N) : option heap :=
  i ← H !! this;
  if is_started i then Some (<[this := Hti (m_next i) (m_ht i) (u8 (m_flags i .| TRX_READ_WRITE))]> H) else None.

Definition info_is_trx_read_write (H : heap) (this : N) : option bool :=
  i ← H !! this; if is_started i then Some (bool_decide (m_flags i .& TRX_READ_WRITE ≠ 0)) else None.

Definition coalesce_trx_with (H : heap) (this stmt_trx : N) : option heap :=
  i ← H !! this;
  if is_started i then
    b ← info_is_trx_read_write H stmt_trx; if b : bool then set_trx_read_write H this else Some H
  else None.

Definition next (H : heap) (this : N) : option N := i ← H !! this; if is_started i then Some (m_next i) else None.
Definition ht (H : heap) (this : N) : option N := i ← H !! this; if is_started i then Some (m_ht i) else None.

(** The loop of [THD_TRANS::is_trx_read_write]; [None] too when the fuel ends
    first. *)
Fixpoint rw_loop (fuel : nat) (H : heap) (ha_info : N) : option bool :=
  if decide (ha_info = 0%N) then Some false else
  match fuel with
  | O => None
  | S fuel => b ← info_is_trx_read_write H ha_info; if b : bool then Some true else n ← next H ha_info; rw_loop fuel H n
  end.
Definition is_trx_read_write (H : heap) (t : THD_TRANS) : option bool := rw_loop (size H) H (ha_list t).

(** [trans_need_2pc] of a context, given the number of engines that can. *)
Definition trans_need_2pc (total_ha_2pc : Z) (t : THD_TRANS) : bool := bool_decide (1 < total_ha_2pc) && negb (no_2pc t).

End Trans.

(** ** Sequences of engines *)

Section contexts.
Import Trans.

(** An engine: its object, the engine and whether it changed anything. *)
Definition entry : Type := N * (N * bool).
Record context := Ctx {
  engines : list entry; created : bool; dropped : bool; waited : bool; did_ddl : bool; one_phase : bool; modified : bool }.

(** The contexts of the statement and of the transaction share the heap. *)
Record session := Ses { hp : heap; stmt : THD_TRANS; all : THD_TRANS }.
Record spec_session := Sses { sp_stmt : context; sp_all : context }.

Inductive op :=
| Register (a : bool) (obj eng : N) | SetReadWrite (obj : N) | Coalesce (obj from : N)
| MarkCreated (a : bool) | MarkDropped (a : bool) | MarkWait (a : bool) | MarkDdl (a : bool) | ResetFlags (a : bool)
| IsReadWrite (a : bool) | IsEmpty (a : bool) | HasTemp (a : bool) | DidWait (a : bool) | DidDdl (a : bool).

Definition trans_of (a : bool) (s : session) : THD_TRANS := if a then all s else stmt s.
Definition on_trans (a : bool) (s : session) (t : THD_TRANS) : session :=
  if a then Ses (hp s) (stmt s) t else Ses (hp s) t (all s).

Definition exec (s : session) (o : op) : option (session * option bool) :=
  let upd a f := Some (on_trans a s (f (trans_of a s)), None) in
  let ask (a : bool) (f : THD_TRANS → bool) := Some (s, Some (f (trans_of a s))) in
  match o with
  | Register a obj eng =>
      '(H, t) ← register_ha (hp s) (trans_of a s) obj eng; let s := on_trans a s t in Some (Ses H (stmt s) (all s), None)
  | SetReadWrite obj => H ← set_trx_read_write (hp s) obj; Some (Ses H (stmt s) (all s), None)
  | Coalesce obj from => H ← coalesce_trx_with (hp s) obj from; Some (Ses H (stmt s) (all s), None)
  | MarkCreated a => upd a mark_created_temp_table
  | MarkDropped a => upd a mark_dropped_temp_table
  | MarkWait a => upd a mark_trans_did_wait
  | MarkDdl a => upd a mark_trans_did_ddl
  | ResetFlags a => upd a reset
  | IsReadWrite a => b ← is_trx_read_write (hp s) (trans_of a s); Some (s, Some b)
  | IsEmpty a => ask a is_empty
  | HasTemp a => ask a has_created_dropped_temp_table
  | DidWait a => ask a trans_did_wait
  | DidDdl a => ask a trans_did_ddl
  end.

Fixpoint exec_ops (s : session) (os : list op) : option (session * list (option bool)) :=
  match os with
  | [] => Some (s, [])
  | o :: os => '(s, r) ← exec s o; '(s, rs) ← exec_ops s os; Some (s, r :: rs)
  end.

(** The same on sequences. *)
Definition ctx_of (a : bool) (z : spec_session) : context := if a then sp_all z else sp_stmt z.
Definition on_ctx (a : bool) (z : spec_session) (c : context) : spec_session :=
  if a then Sses (sp_stmt z) c else Sses c (sp_all z).
Definition registered (z : spec_session) : list entry := engines (sp_stmt z) ++ engines (sp_all z).

Definition mark_rw (obj : N) (xs : list entry) : list entry :=
  (λ x, if decide (x.1 = obj) then (x.1, (x.2.1, true)) else x) <$> xs.
Definition with_engines (c : context) (xs : list entry) : context :=
  Ctx xs (created c) (dropped c) (waited c) (did_ddl c) (one_phase c) (modified c).
Definition mark_both (obj : N) (z : spec_session) : spec_session :=
  Sses (with_engines (sp_stmt z) (mark_rw obj (engines (sp_stmt z)))) (with_engines (sp_all z) (mark_rw obj (engines (sp_all z)))).
Definition entry_rw (obj : N) (xs : list entry) : bool := existsb (λ x : entry, bool_decide (x.1 = obj) && x.2.2) xs.

Definition set_created (c : context) : context := Ctx (engines c) true (dropped c) (waited c) (did_ddl c) (one_phase c) (modified c).
Definition set_dropped (c : context) : context := Ctx (engines c) (created c) true (waited c) (did_ddl c) (one_phase c) (modified c).
Definition set_waited (c : context) : context := Ctx (engines c) (created c) (dropped c) true (did_ddl c) (one_phase c) (modified c).
Definition set_ddl (c : context) : context := Ctx (engines c) (created c) (dropped c) (waited c) true (one_phase c) (modified c).
Definition clear (c : context) : context := Ctx (engines c) false false false false false false.

Definition spec (objs : list N) (z : spec_session) (o : op) : option (spec_session * option bool) :=
  let upd a f := Some (on_ctx a z (f (ctx_of a z)), None) in
  let ask (a : bool) (f : context → bool) := Some (z, Some (f (ctx_of a z))) in
  match o with
  | Register a obj eng =>
      if decide (obj ∈ objs ∧ obj ∉ (registered z).*1 ∧ eng ≠ 0%N)
      then upd a (λ c, with_engines c ((obj, (eng, false)) :: engines c)) else None
  | SetReadWrite obj => if decide (obj ∈ (registered z).*1) then Some (mark_both obj z, None) else None
  | Coalesce obj from =>
      if decide (obj ∈ (registered z).*1 ∧ from ∈ (registered z).*1)
      then Some (if entry_rw from (registered z) then mark_both obj z else z, None) else None
  | MarkCreated a => upd a set_created
  | MarkDropped a => upd a set_dropped
  | MarkWait a => upd a set_waited
  | MarkDdl a => upd a set_ddl
  | ResetFlags a => upd a clear
  | IsReadWrite a => ask a (λ c, existsb (λ x : entry, x.2.2) (engines c))
  | IsEmpty a => ask a (λ c, bool_decide (engines c = []))
  | HasTemp a => ask a (λ c, created c || dropped c)
  | DidWait a => ask a waited
  | DidDdl a => ask a did_ddl
  end.

Fixpoint spec_ops (objs : list N) (z : spec_session) (os : list op) : option (spec_session * list (option bool)) :=
  match os with
  | [] => Some (z, [])
  | o :: os => '(z, r) ← spec objs z o; '(z, rs) ← spec_ops objs z os; Some (z, r :: rs)
  end.

(** The list of a context in the heap, its flags, and the objects that take no
    part. *)
Fixpoint linked (H : heap) (p : N) (xs : list entry) : Prop :=
  match xs with
  | [] => p = 0%N
  | x :: xs => p = x.1 ∧ p ≠ 0%N ∧ x.2.1 ≠ 0%N ∧ ∃ q, H !! p = Some (Hti q x.2.1 (b2z x.2.2)) ∧ linked H q xs
  end.

Definition flags_of (c : context) : Z :=
  (b2z (created c) ≪ 1) .| (b2z (dropped c) ≪ 2) .| (b2z (waited c) ≪ 3) .| (b2z (did_ddl c) ≪ 4).
Record represents (H : heap) (t : THD_TRANS) (c : context) : Prop := {
  rp_list : linked H (ha_list t) (engines c);
  rp_flags : m_unsafe_rollback_flags t = flags_of c;
  rp_2pc : no_2pc t = one_phase c;
  rp_mod : modified_non_trans_table t = modified c }.

Record valid (objs : list N) (s : session) (z : spec_session) : Prop := {
  v_stmt : represents (hp s) (stmt s) (sp_stmt z);
  v_all : represents (hp s) (all s) (sp_all z);
  v_nodup : NoDup (registered z).*1;
  v_objs : ∀ a, a ∈ objs → a ≠ 0%N;
  v_idle : ∀ a, a ∈ objs → a ∉ (registered z).*1 → hp s !! a = Some info_reset }.

(** ** Lemmas *)

Lemma linked_frame H a i xs : ∀ p, a ∉ xs.*1 → linked H p xs → linked (<[a := i]> H) p xs.
Proof.
  induction xs as [|x xs IH]; intros p Ha; [done|]. cbn [linked fmap list_fmap] in *. intros (-> & Hp & He & q & Hq & Hl).
  split_and!; [done..|]. exists q. rewrite lookup_insert_ne by set_solver. split; [done|]. apply IH; set_solver.
Qed.

Lemma linked_mark H obj i xs : ∀ p, H !! obj = Some i → linked H p xs →
  linked (<[obj := Hti (m_next i) (m_ht i) (u8 (m_flags i .| TRX_READ_WRITE))]> H) p (mark_rw obj xs).
Proof.
  induction xs as [|x xs IH]; intros p Hi; [done|]. cbn [linked mark_rw fmap list_fmap]. intros (-> & Hp & He & q & Hq & Hl). case_decide as Hx.
  - cbn [linked fst snd]. split_and!; [done..|]. exists q. rewrite Hx in *. rewrite lookup_insert_eq. rewrite Hi in Hq. injection Hq as ->.
    cbn. split; [by destruct (x.2.2)|by apply (IH q)].
  - split_and!; [done..|]. exists q. rewrite lookup_insert_ne by done. split; [done|by apply IH].
Qed.

Lemma entry_rw_cons a (x : entry) xs : entry_rw a (x :: xs) = (bool_decide (x.1 = a) && x.2.2) || entry_rw a xs.
Proof. done. Qed.

Lemma entry_rw_out a xs : a ∉ xs.*1 → entry_rw a xs = false.
Proof.
  induction xs as [|x xs IH]; cbn; [done|]. intros Ha. rewrite bool_decide_false by set_solver. apply IH. set_solver.
Qed.

Lemma linked_lookup H a xs : ∀ p, linked H p xs → a ∈ xs.*1 →
  ∃ i, H !! a = Some i ∧ is_started i = true ∧ entry_rw a xs = bool_decide (m_flags i .& TRX_READ_WRITE ≠ 0).
Proof.
  induction xs as [|x xs IH]; intros p Hl Ha; [set_solver|]. cbn in Hl. destruct Hl as (-> & Hp & He & q & Hq & Hl).
  destruct (decide (x.1 = a)) as [<-|Hn].
  - eexists. split; [exact Hq|]. split; [unfold is_started; cbn; by rewrite bool_decide_true|].
    rewrite entry_rw_cons, (bool_decide_true (x.1 = x.1)) by done. cbn [andb]. destruct (decide (x.1 ∈ xs.*1)) as [Hin|Hnin].
    + destruct (IH q Hl Hin) as (i & Hi & _ & Hrw). rewrite Hq in Hi. injection Hi as <-. rewrite Hrw. cbn. by destruct (x.2.2).
    + rewrite entry_rw_out by done. by destruct (x.2.2).
  - destruct (IH q Hl) as (i & Hi & Hs & Hrw); [set_solver|]. exists i. split_and!; [done..|].
    by rewrite entry_rw_cons, bool_decide_false, Hrw by done.
Qed.

Lemma linked_dom H xs : ∀ p, linked H p xs → list_to_set (xs.*1) ⊆ dom H.
Proof.
  induction xs as [|x xs IH]; intros p; cbn; [set_solver|]. intros (-> & _ & _ & q & Hq & Hl).
  apply elem_of_dom_2 in Hq. apply IH in Hl. set_solver.
Qed.

Lemma linked_size H p xs : linked H p xs → NoDup xs.*1 → (length xs ≤ size H)%nat.
Proof.
  intros Hl Hn. apply linked_dom in Hl. apply subseteq_size in Hl. rewrite size_dom, size_list_to_set in Hl by done.
  by rewrite length_fmap in Hl.
Qed.

Lemma rw_loop_linked H xs : ∀ fuel p, linked H p xs → (length xs ≤ fuel)%nat →
  rw_loop fuel H p = Some (existsb (λ x : entry, x.2.2) xs).
Proof.
  induction xs as [|x xs IH]; intros fuel p; cbn; [intros -> _; by destruct fuel|].
  intros (-> & Hp & He & q & Hq & Hl) Hf. destruct fuel as [|fuel]; [lia|]. cbn. rewrite decide_False by done.
  unfold info_is_trx_read_write, next, is_started. rewrite Hq. cbn. rewrite bool_decide_true by done. cbn.
  destruct (x.2.2); cbn; [done|]. apply IH; [done|lia].
Qed.

Lemma linked_empty H p xs : linked H p xs → bool_decide (p = 0%N) = bool_decide (xs = []).
Proof. destruct xs; cbn; [by intros ->|]. intros (-> & Hp & _). by rewrite !bool_decide_false. Qed.

Lemma mark_rw_keys obj xs : (mark_rw obj xs).*1 = xs.*1.
Proof. unfold mark_rw. rewrite <- list_fmap_compose. apply list_fmap_ext. intros _ x _. cbn. by case_decide. Qed.

Lemma mark_both_keys obj z : (registered (mark_both obj z)).*1 = (registered z).*1.
Proof. unfold registered, mark_both. cbn. by rewrite !fmap_app, !mark_rw_keys. Qed.

Lemma entry_rw_app a xs ys : entry_rw a (xs ++ ys) = entry_rw a xs || entry_rw a ys.
Proof. apply existsb_app. Qed.

(** The flags as bits. *)
Lemma flags_ops c :
  u32 (flags_of c .| CREATED_TEMP_TABLE) = flags_of (set_created c) ∧
  u32 (flags_of c .| DROPPED_TEMP_TABLE) = flags_of (set_dropped c) ∧
  u32 (flags_of c .| DID_WAIT) = flags_of (set_waited c) ∧
  u32 (flags_of c .| DID_DDL) = flags_of (set_ddl c) ∧
  bool_decide (flags_of c .& (CREATED_TEMP_TABLE .| DROPPED_TEMP_TABLE) ≠ 0) = created c || dropped c ∧
  bool_decide (flags_of c .& DID_WAIT ≠ 0) = waited c ∧ bool_decide (flags_of c .& DID_DDL ≠ 0) = did_ddl c.
Proof. destruct c as [es [] [] [] [] o m]; by vm_compute. Qed.

Lemma represents_of objs s z a : valid objs s z → represents (hp s) (trans_of a s) (ctx_of a z).
Proof. intros [Hs Ha _ _ _]. by destruct a. Qed.

(** Only the flags of one context change. *)
Lemma valid_flags objs s z a f g : valid objs s z →
  (∀ t c, represents (hp s) t c → represents (hp s) (f t) (g c)) → (∀ c, engines (g c) = engines c) →
  valid objs (on_trans a s (f (trans_of a s))) (on_ctx a z (g (ctx_of a z))).
Proof.
  intros [Hs Ha Hn Ho Hi] Hf Hg.
  assert (registered (on_ctx a z (g (ctx_of a z))) = registered z) as Hr by (destruct a; unfold registered; cbn; by rewrite Hg).
  constructor; rewrite ?Hr; [by destruct a; cbn; auto|by destruct a; cbn; auto|done|done|]. by destruct a.
Qed.

Lemma represents_or H t c f c' : engines c' = engines c → one_phase c' = one_phase c → modified c' = modified c →
  u32 (flags_of c .| f) = flags_of c' → represents H t c → represents H (or_flags t f) c'.
Proof. intros He Ho Hmo Hu [Hl Hf H2 Hm]. constructor; cbn; [by rewrite He|by rewrite Hf|congruence..]. Qed.

Lemma represents_frame H a i t c : a ∉ (engines c).*1 → represents H t c → represents (<[a := i]> H) t c.
Proof. intros Ha [Hl Hf H2 Hm]. constructor; [by apply linked_frame|done..]. Qed.

Lemma represents_mark H obj i t c : H !! obj = Some i → represents H t c →
  represents (<[obj := Hti (m_next i) (m_ht i) (u8 (m_flags i .| TRX_READ_WRITE))]> H) t (with_engines c (mark_rw obj (engines c))).
Proof. intros Hi [Hl Hf H2 Hm]. constructor; [by apply linked_mark|done..]. Qed.

(** A registered object. *)
Lemma valid_lookup objs s z a : valid objs s z → a ∈ (registered z).*1 →
  ∃ i, hp s !! a = Some i ∧ is_started i = true ∧ entry_rw a (registered z) = bool_decide (m_flags i .& TRX_READ_WRITE ≠ 0).
Proof.
  intros Hv Hin. pose proof (v_nodup _ _ _ Hv) as Hn. unfold registered in *. rewrite fmap_app in *. rewrite entry_rw_app.
  apply NoDup_app in Hn as (_ & Hd & _). apply elem_of_app in Hin as [Hin|Hin].
  - destruct (linked_lookup _ _ _ _ (rp_list _ _ _ (v_stmt _ _ _ Hv)) Hin) as (i & Hi & Hst & ->). exists i.
    rewrite (entry_rw_out a (engines (sp_all z))), orb_false_r by set_solver. done.
  - destruct (linked_lookup _ _ _ _ (rp_list _ _ _ (v_all _ _ _ Hv)) Hin) as (i & Hi & Hst & ->). exists i.
    rewrite (entry_rw_out a (engines (sp_stmt z))) by set_solver. done.
Qed.

(** Marking an object. *)
Lemma mark_valid objs s z obj : valid objs s z → obj ∈ (registered z).*1 →
  ∃ H, set_trx_read_write (hp s) obj = Some H ∧ valid objs (Ses H (stmt s) (all s)) (mark_both obj z).
Proof.
  intros Hv Hin. destruct (valid_lookup objs s z obj Hv Hin) as (i & Hi & Hst & _). unfold set_trx_read_write. rewrite Hi.
  cbn. rewrite Hst. eexists. split; [reflexivity|]. destruct Hv as [Hs Ha Hn Ho Hid].
  constructor; cbn [hp stmt all]; [by apply represents_mark..| | |]; rewrite ?mark_both_keys; [done|done|].
  intros b Hb Hnb. rewrite lookup_insert_ne by set_solver. by apply Hid.
Qed.

(** Registering one. *)
Lemma register_valid objs s z a obj eng : valid objs s z → obj ∈ objs → obj ∉ (registered z).*1 → eng ≠ 0%N →
  ∃ H t, register_ha (hp s) (trans_of a s) obj eng = Some (H, t) ∧
    valid objs (Ses H (stmt (on_trans a s t)) (all (on_trans a s t)))
      (on_ctx a z (with_engines (ctx_of a z) ((obj, (eng, false)) :: engines (ctx_of a z)))).
Proof.
  intros Hv Ho Hn He. pose proof (represents_of objs s z a Hv) as Hrep. destruct Hv as [Hs Ha Hnd Hob Hid].
  unfold register_ha. rewrite (Hid obj Ho Hn). cbn. eexists _, _. split; [reflexivity|].
  set (z' := on_ctx _ _ _). assert ((registered z').*1 ≡ₚ obj :: (registered z).*1) as Hperm.
  { destruct a; unfold registered; cbn; rewrite !fmap_app; cbn; [|done]. by rewrite Permutation_middle. }
  unfold registered in Hn. rewrite fmap_app in Hn.
  assert (represents (<[obj := Hti (ha_list (trans_of a s)) eng (u8 TRX_READ_ONLY)]> (hp s))
    (Tt (no_2pc (trans_of a s)) obj (modified_non_trans_table (trans_of a s)) (m_unsafe_rollback_flags (trans_of a s)))
    (with_engines (ctx_of a z) ((obj, (eng, false)) :: engines (ctx_of a z)))) as Hnew.
  { destruct Hrep as [Hl Hf H2 Hm]. constructor; [|done..]. cbn [engines with_engines linked ha_list fst snd].
    split_and!; [done|by apply Hob|done|]. exists (ha_list (trans_of a s)). rewrite lookup_insert_eq. split; [done|].
    apply linked_frame; [destruct a; set_solver|done]. }
  constructor; cbn [hp stmt all].
  - destruct a; cbn; [apply represents_frame; [set_solver|done]|exact Hnew].
  - destruct a; cbn; [exact Hnew|apply represents_frame; [set_solver|done]].
  - rewrite Hperm. constructor; [|done]. unfold registered. rewrite fmap_app. done.
  - done.
  - intros b Hb Hnb. rewrite Hperm in Hnb. rewrite lookup_insert_ne by set_solver. apply Hid; set_solver.
Qed.

(** One operation, then a history. *)
Lemma op_valid objs s z o z' r : valid objs s z → spec objs z o = Some (z', r) →
  ∃ s', exec s o = Some (s', r) ∧ valid objs s' z'.
Proof.
  intros Hv. pose proof (λ a, represents_of objs s z a Hv) as Hrep. pose proof (λ a, flags_ops (ctx_of a z)) as Hfl.
  destruct o as [a obj eng|obj|obj from|a|a|a|a|a|a|a|a|a|a]; cbn [spec exec].
  - case_decide as Hd; [|done]. intros [= <- <-]. destruct Hd as (H1 & H2 & H3).
    destruct (register_valid objs s z a obj eng Hv H1 H2 H3) as (hp' & t & -> & Hv'). by eexists.
  - case_decide as Hd; [|done]. intros [= <- <-]. destruct (mark_valid objs s z obj Hv Hd) as (hp' & -> & Hv'). by eexists.
  - case_decide as Hd; [|done]. intros [= <- <-]. destruct Hd as [H1 H2].
    destruct (valid_lookup objs s z obj Hv H1) as (i & Hi & Hst & _), (valid_lookup objs s z from Hv H2) as (j & Hj & Hst2 & ->).
    unfold coalesce_trx_with, info_is_trx_read_write. rewrite Hi, Hj. cbn. rewrite Hst, Hst2. cbn. case_bool_decide; cbn.
    + destruct (mark_valid objs s z obj Hv H1) as (hp' & -> & Hv'). by eexists.
    + exists s. split; [by destruct s|done].
  - intros [= <- <-]. eexists. split; [reflexivity|]. apply (valid_flags objs s z a mark_created_temp_table set_created Hv); [|done].
    intros t c. apply represents_or; [done..|]. apply flags_ops.
  - intros [= <- <-]. eexists. split; [reflexivity|]. apply (valid_flags objs s z a mark_dropped_temp_table set_dropped Hv); [|done].
    intros t c. apply represents_or; [done..|]. apply flags_ops.
  - intros [= <- <-]. eexists. split; [reflexivity|]. apply (valid_flags objs s z a mark_trans_did_wait set_waited Hv); [|done].
    intros t c. apply represents_or; [done..|]. apply flags_ops.
  - intros [= <- <-]. eexists. split; [reflexivity|]. apply (valid_flags objs s z a mark_trans_did_ddl set_ddl Hv); [|done].
    intros t c. apply represents_or; [done..|]. apply flags_ops.
  - intros [= <- <-]. eexists. split; [reflexivity|]. apply (valid_flags objs s z a reset clear Hv); [|done].
    intros t c [Hl Hf H2 Hm]. by constructor.
  - intros [= <- <-]. exists s. split; [|done]. unfold is_trx_read_write.
    rewrite (rw_loop_linked _ (engines (ctx_of a z))); [done|apply (Hrep a)|].
    eapply linked_size; [apply (Hrep a)|]. pose proof (v_nodup _ _ _ Hv) as Hn. unfold registered in Hn. rewrite fmap_app in Hn.
    apply NoDup_app in Hn as (? & _ & ?). by destruct a.
  - intros [= <- <-]. exists s. split; [|done]. unfold is_empty. by rewrite (linked_empty _ _ _ (rp_list _ _ _ (Hrep a))).
  - intros [= <- <-]. exists s. split; [|done]. unfold has_created_dropped_temp_table. rewrite (rp_flags _ _ _ (Hrep a)).
    by destruct (Hfl a) as (_ & _ & _ & _ & -> & _).
  - intros [= <- <-]. exists s. split; [|done]. unfold trans_did_wait. rewrite (rp_flags _ _ _ (Hrep a)).
    by destruct (Hfl a) as (_ & _ & _ & _ & _ & -> & _).
  - intros [= <- <-]. exists s. split; [|done]. unfold trans_did_ddl. rewrite (rp_flags _ _ _ (Hrep a)).
    by destruct (Hfl a) as (_ & _ & _ & _ & _ & _ & ->).
Qed.

Lemma ops_valid objs os : ∀ s z z' rs, valid objs s z → spec_ops objs z os = Some (z', rs) →
  ∃ s', exec_ops s os = Some (s', rs) ∧ valid objs s' z'.
Proof.
  induction os as [|o os IH]; intros s z z' rs Hv; cbn; [intros [= <- <-]; by exists s|].
  destruct (spec objs z o) as [[z1 r]|] eqn:Eo; [|done]. cbn.
  destruct (spec_ops objs z1 os) as [[z2 rs2]|] eqn:Eos; [|done]. cbn. intros [= <- <-].
  destruct (op_valid objs s z o z1 r Hv Eo) as (s1 & -> & Hv1). cbn.
  destruct (IH s1 z1 z2 rs2 Hv1 Eos) as (s2 & -> & Hv2). by exists s2.
Qed.
End contexts.

(** ** Properties *)

Section properties.
Import Trans.

(** [C19] Every history of two contexts, over objects that are free or registered in
    one of them, in which only free objects are registered and only registered
    ones are marked, runs without a failed assertion and returns what it returns
    for the sequences of engines; in particular the loop of [is_trx_read_write]
    ends, and finds a context read-write exactly when one of its engines was
    marked, itself or by a statement's engine that was coalesced into it. *)
Theorem transaction_contexts_refine (objs : list N) (s : session) (z z' : spec_session) (os : list op) (rs : list (option bool)) :
  valid objs s z → spec_ops objs z os = Some (z', rs) →
  ∃ s', exec_ops s os = Some (s', rs) ∧ valid objs s' z' ∧
    is_trx_read_write (hp s') (all s') = Some (existsb (λ x : entry, x.2.2) (engines (sp_all z'))).
Proof.
  intros Hv Hs. destruct (ops_valid objs os s z z' rs Hv Hs) as (s' & He & Hv'). exists s'. split_and!; [done..|].
  destruct (op_valid objs s' z' (IsReadWrite true) z' _ Hv' eq_refl) as (s2 & Hx & _). cbn in Hx.
  by destruct (is_trx_read_write _ _); [injection Hx as _ ->|].
Qed.

(** Two engines with an object each for the statement and for the transaction. *)
Definition session0 : session :=
  Ses (list_to_map [(1%N, info_reset); (2%N, info_reset); (3%N, info_reset); (4%N, info_reset)]) (Tt false 0 false 0) (Tt false 0 false 0).
Definition context0 : context := Ctx [] false false false false false false.
Definition history0 : list op :=
  [Register false 1 10; Register true 2 10; Register true 4 11; SetReadWrite 1; IsReadWrite true; Coalesce 2 1; IsReadWrite true;
   MarkWait true; ResetFlags false; DidWait true; HasTemp true; IsEmpty false].

Lemma transaction_contexts_refine_witness :
  ∃ s', exec_ops session0 history0
    = Some (s', [None; None; None; None; Some false; None; Some true; None; None; Some true; Some false; Some false]).
Proof.
  destruct (transaction_contexts_refine [1%N; 2%N; 3%N; 4%N] session0 (Sses context0 context0)
    (Sses (Ctx [(1%N, (10%N, true))] false false false false false false)
       (Ctx [(4%N, (11%N, false)); (2%N, (10%N, true))] false false true false false false)) history0
    [None; None; None; None; Some false; None; Some true; None; None; Some true; Some false; Some false]) as (s' & He & _ & _).
  - constructor; [by constructor..|constructor|set_solver|].
    intros a Ha _. rewrite !elem_of_cons in Ha. destruct Ha as [->|[->|[->|[->|Ha]]]]; try reflexivity. by apply not_elem_of_nil in Ha.
  - reflexivity.
  - exists s'. exact He.
Defined.
End properties.
