(* ===== verification/Temporal.v ===== *)
(** * Temporal values (mysql_time.h, my_time.h, sql_time.h, compat56.h, sql_type.h)

    The structure that holds dates and times, the conversions between its kinds,
    and the classes Time, Date and Datetime, which keep it valid.  An assertion
    that does not hold is [None]. *)

From S2P Require Import Prelude Doubles.
From Stdlib Require Import ZArith Lia SpecFloat.
From stdpp Require Import base numbers option list.
Open Scope Z_scope.
Open Scope cint_scope.

Module Temporal.

Inductive enum_mysql_timestamp_type :=
| MYSQL_TIMESTAMP_NONE | MYSQL_TIMESTAMP_ERROR | MYSQL_TIMESTAMP_DATE | MYSQL_TIMESTAMP_DATETIME | MYSQL_TIMESTAMP_TIME.
#[global] Instance timestamp_type_eq_dec : EqDecision enum_mysql_timestamp_type.
Proof. solve_decision. Defined.

Record MYSQL_TIME := MT {
  year : Z; month : Z; day : Z; hour : Z; minute : Z; second : Z; second_part : Z; neg : bool;
  time_type : enum_mysql_timestamp_type }.

(** ** my_time.h *)

Definition TIMESTAMP_MAX_YEAR : Z := 2038.
Definition YY_PART_YEAR : Z := 70.
Definition TIMESTAMP_MIN_YEAR : Z := 1900 + YY_PART_YEAR - 1.
Definition TIMESTAMP_MAX_VALUE : Z := 2147483647.
Definition TIMESTAMP_MIN_VALUE : Z := 0.
Definition IS_TIME_T_VALID_FOR_TIMESTAMP (x : Z) : bool :=
  bool_decide (x ≤ TIMESTAMP_MAX_VALUE) && bool_decide (TIMESTAMP_MIN_VALUE ≤ x).

Definition TIME_FUZZY_DATES : Z := 1.
Definition TIME_DATETIME_ONLY : Z := 2.
Definition TIME_TIME_ONLY : Z := 4.
Definition TIME_NO_ZERO_IN_DATE : Z := 1 ≪ 23.
Definition TIME_NO_ZERO_DATE : Z := 1 ≪ 24.
Definition TIME_INVALID_DATES : Z := 1 ≪ 25.

Definition MYSQL_TIME_WARN_TRUNCATED : Z := 1.
Definition MYSQL_TIME_WARN_OUT_OF_RANGE : Z := 2.
Definition MYSQL_TIME_NOTE_TRUNCATED : Z := 16.
Definition MYSQL_TIME_WARN_WARNINGS : Z := MYSQL_TIME_WARN_TRUNCATED .| MYSQL_TIME_WARN_OUT_OF_RANGE.
Definition MYSQL_TIME_WARN_NOTES : Z := MYSQL_TIME_NOTE_TRUNCATED.
Definition MYSQL_TIME_WARN_HAVE_WARNINGS (x : Z) : bool := bool_decide (x .& MYSQL_TIME_WARN_WARNINGS ≠ 0).
Definition MYSQL_TIME_WARN_HAVE_NOTES (x : Z) : bool := bool_decide (x .& MYSQL_TIME_WARN_NOTES ≠ 0).

Definition TIME_MAX_HOUR : Z := 838.
Definition TIME_MAX_MINUTE : Z := 59.
Definition TIME_MAX_SECOND : Z := 59.
Definition TIME_MAX_SECOND_PART : Z := 999999.
Definition TIME_SECOND_PART_FACTOR : Z := TIME_MAX_SECOND_PART + 1.
Definition TIME_SECOND_PART_DIGITS : Z := 6.
Definition TIME_MAX_VALUE : Z := TIME_MAX_HOUR * 10000 + TIME_MAX_MINUTE * 100 + TIME_MAX_SECOND.
Definition TIME_MAX_VALUE_SECONDS : Z := TIME_MAX_HOUR * 3600 + TIME_MAX_MINUTE * 60 + TIME_MAX_SECOND.

Record MYSQL_TIME_STATUS := Status { warnings : Z; precision : Z }.
Definition my_time_status_init (status : MYSQL_TIME_STATUS) : MYSQL_TIME_STATUS := Status 0 0.

Definition validate_timestamp_range (t : MYSQL_TIME) : bool :=
  negb (bool_decide (year t > TIMESTAMP_MAX_YEAR) || bool_decide (year t < TIMESTAMP_MIN_YEAR) ||
        (bool_decide (year t = TIMESTAMP_MAX_YEAR) && (bool_decide (month t > 1) || bool_decide (day t > 19))) ||
        (bool_decide (year t = TIMESTAMP_MIN_YEAR) && (bool_decide (month t < 12) || bool_decide (day t < 31)))).

(** A double as a signed integer of [w] bits. *)
Definition to_sint (w : Z) (x : spec_float) : option Z :=
  v ← Double.trunc x; if decide (in_s w v) then Some v else None.

Definition LONGLONG_MAX : Z := 2 ^ 63 - 1.

(** [number_to_datetime] is given the number and the microseconds. *)
Definition double_to_datetime {A} (number_to_datetime : Z → Z → A) (nr : spec_float) : option A :=
  let nr := if Double.ltb_d nr (S754_zero false) || Double.ltb_d (Double.of_Z LONGLONG_MAX) nr
            then Double.of_Z LONGLONG_MAX else nr in
  n ← to_sint 64 (Double.floor_d nr);
  sec_part ← Double.to_uint 64 (Double.mul (Double.sub_d nr (Double.floor_d nr)) (Double.of_Z TIME_SECOND_PART_FACTOR));
  Some (number_to_datetime n sec_part).

(** The table of powers of ten is defined elsewhere.  The index is unsigned. *)
Section fractions.
Context (log_10_int : list Z).

Definition log_10 (i : Z) : option Z := log_10_int !! Z.to_nat (u32 i).

Definition sec_part_shift (second_part digits : Z) : option Z :=
  l ← log_10 (TIME_SECOND_PART_DIGITS - digits); Some (Z.quot second_part l).
Definition sec_part_unshift (second_part digits : Z) : option Z :=
  l ← log_10 (TIME_SECOND_PART_DIGITS - digits); Some (s64 (second_part * l)).
Definition my_time_fraction_remainder (nr decimals : Z) : option Z :=
  if decide (decimals ≤ TIME_SECOND_PART_DIGITS)
  then l ← log_10 (TIME_SECOND_PART_DIGITS - decimals); Some (Z.rem nr l) else None.
Definition my_time_trunc (ltime : MYSQL_TIME) (decimals : Z) : option MYSQL_TIME :=
  r ← my_time_fraction_remainder (second_part ltime) decimals;
  Some (MT (year ltime) (month ltime) (day ltime) (hour ltime) (minute ltime) (second ltime) (u64 (second_part ltime - r))
          (neg ltime) (time_type ltime)).
(** A [timeval] is its seconds and its microseconds. *)
Definition my_timeval_trunc (tv : Z * Z) (decimals : Z) : option (Z * Z) :=
  r ← my_time_fraction_remainder tv.2 decimals; Some (tv.1, tv.2 - r).
End fractions.

(** ** compat56.h *)

Definition MY_PACKED_TIME_GET_INT_PART (x : Z) : Z := x ≫ 24.
Definition MY_PACKED_TIME_GET_FRAC_PART (x : Z) : Z := Z.rem x (1 ≪ 24).
Definition MY_PACKED_TIME_MAKE (i f : Z) : Z := s64 (s64 (i ≪ 24) + f).
Definition MY_PACKED_TIME_MAKE_INT (i : Z) : Z := s64 (i ≪ 24).

(** ** sql_time.h *)

Definition has_date (t : MYSQL_TIME) : bool :=
  bool_decide (time_type t = MYSQL_TIMESTAMP_DATE) || bool_decide (time_type t = MYSQL_TIMESTAMP_DATETIME).

Definition datetime_to_time (t : MYSQL_TIME) : option MYSQL_TIME :=
  if has_date t && negb (neg t)
  then Some (MT 0 0 0 (hour t) (minute t) (second t) (second_part t) (neg t) MYSQL_TIMESTAMP_TIME) else None.
Definition datetime_to_date (t : MYSQL_TIME) : option MYSQL_TIME :=
  if has_date t && negb (neg t)
  then Some (MT (year t) (month t) (day t) 0 0 0 0 (neg t) MYSQL_TIMESTAMP_DATE) else None.
Definition date_to_datetime (t : MYSQL_TIME) : option MYSQL_TIME :=
  if has_date t && negb (neg t)
  then Some (MT (year t) (month t) (day t) (hour t) (minute t) (second t) (second_part t) (neg t) MYSQL_TIMESTAMP_DATETIME)
  else None.

Definition non_zero_hhmmssuu (t : MYSQL_TIME) : bool :=
  bool_decide (hour t ≠ 0) || bool_decide (minute t ≠ 0) || bool_decide (second t ≠ 0) || bool_decide (second_part t ≠ 0).
Definition non_zero_YYMMDD (t : MYSQL_TIME) : bool :=
  bool_decide (year t ≠ 0) || bool_decide (month t ≠ 0) || bool_decide (day t ≠ 0).
Definition non_zero_date (t : MYSQL_TIME) : bool :=
  non_zero_YYMMDD t || (bool_decide (time_type t = MYSQL_TIMESTAMP_DATETIME) && non_zero_hhmmssuu t).

(** ** Time of sql_type.h *)

Inductive datetime_to_time_mode_t :=
| DATETIME_TO_TIME_YYYYMMDD_000000DD_MIX_TO_HOURS | DATETIME_TO_TIME_YYYYMMDD_TRUNCATE.
#[global] Instance dt_mode_eq_dec : EqDecision datetime_to_time_mode_t.
Proof. solve_decision. Defined.

Definition flags_for_get_date : Z := TIME_TIME_ONLY .| TIME_INVALID_DATES.
Definition comparison_flags_for_get_date : Z := TIME_TIME_ONLY .| TIME_INVALID_DATES .| TIME_FUZZY_DATES.

Record Options := Opt { m_get_date_flags : Z; m_datetime_to_time_mode : datetime_to_time_mode_t }.
Definition Options_default : Options := Opt flags_for_get_date DATETIME_TO_TIME_YYYYMMDD_000000DD_MIX_TO_HOURS.
Definition Options_flags (flags : Z) : Options := Opt flags DATETIME_TO_TIME_YYYYMMDD_000000DD_MIX_TO_HOURS.
Definition Options_for_cast : Options := Opt flags_for_get_date DATETIME_TO_TIME_YYYYMMDD_TRUNCATE.

Definition is_valid_time_slow (t : MYSQL_TIME) : bool :=
  bool_decide (time_type t = MYSQL_TIMESTAMP_TIME) && bool_decide (year t = 0) && bool_decide (month t = 0) &&
  bool_decide (day t = 0) && bool_decide (minute t ≤ TIME_MAX_MINUTE) && bool_decide (second t ≤ TIME_MAX_SECOND) &&
  bool_decide (second_part t ≤ TIME_MAX_SECOND_PART).
Definition is_valid_value_slow (t : MYSQL_TIME) : bool :=
  bool_decide (time_type t = MYSQL_TIMESTAMP_NONE) || is_valid_time_slow t.

Definition valid_datetime_to_valid_time (t : MYSQL_TIME) (opt : Options) : option MYSQL_TIME :=
  if has_date t && bool_decide (day t < 32) && bool_decide (hour t < 24) then
    let hour' := if bool_decide (year t = 0) && bool_decide (month t = 0) &&
                    bool_decide (m_datetime_to_time_mode opt = DATETIME_TO_TIME_YYYYMMDD_000000DD_MIX_TO_HOURS)
                 then u32 (hour t + u32 (day t * 24)) else hour t in
    let t := MT 0 0 0 hour' (minute t) (second t) (second_part t) (neg t) MYSQL_TIMESTAMP_TIME in
    if is_valid_time_slow t then Some t else None
  else None.

(** [set_zero_time] and [pack_time] are defined elsewhere. *)
Definition valid_MYSQL_TIME_to_valid_value (set_zero_time : MYSQL_TIME → enum_mysql_timestamp_type → MYSQL_TIME)
    (t : MYSQL_TIME) (opt : Options) : option MYSQL_TIME :=
  match time_type t with
  | MYSQL_TIMESTAMP_DATE | MYSQL_TIMESTAMP_DATETIME => valid_datetime_to_valid_time t opt
  | MYSQL_TIMESTAMP_NONE => Some t
  | MYSQL_TIMESTAMP_ERROR => Some (set_zero_time t MYSQL_TIMESTAMP_TIME)
  | MYSQL_TIMESTAMP_TIME => if is_valid_time_slow t then Some t else None
  end.

Definition is_valid_time (t : MYSQL_TIME) : option bool :=
  if is_valid_value_slow t then Some (bool_decide (time_type t = MYSQL_TIMESTAMP_TIME)) else None.
Definition Time_get_mysql_time (t : MYSQL_TIME) : option MYSQL_TIME := if is_valid_time_slow t then Some t else None.

Definition with_type (t : MYSQL_TIME) (ty : enum_mysql_timestamp_type) : MYSQL_TIME :=
  MT (year t) (month t) (day t) (hour t) (minute t) (second t) (second_part t) (neg t) ty.
Definition Time_copy_to_mysql_time (t ltime : MYSQL_TIME) : option (MYSQL_TIME * bool) :=
  if decide (time_type t = MYSQL_TIMESTAMP_NONE) then Some (with_type ltime MYSQL_TIMESTAMP_NONE, true)
  else if is_valid_time_slow t then Some (t, false) else None.
Definition cmp (pack_time : MYSQL_TIME → Z) (t other : MYSQL_TIME) : option Z :=
  if is_valid_time_slow t && is_valid_time_slow other then
    let p0 := pack_time t in let p1 := pack_time other in
    Some (if decide (p0 < p1) then -1 else if decide (p0 > p1) then 1 else 0)
  else None.
Definition to_seconds_abs (t : MYSQL_TIME) : option Z :=
  if is_valid_time_slow t then Some (s64 (s64 (hour t * 3600) + u32 (minute t * 60) + second t)) else None.
Definition to_seconds (t : MYSQL_TIME) : option Z :=
  s ← to_seconds_abs t; Some (if neg t then s64 (- s) else s).

(** ** Date and Datetime of sql_type.h

    [check_datetime_range] is defined elsewhere; the base class is the value an
    item returned. *)
Section dates.
Context (check_datetime_range : MYSQL_TIME → bool).

Definition is_valid_date_slow (t : MYSQL_TIME) : option bool :=
  if decide (time_type t = MYSQL_TIMESTAMP_DATE) then Some (negb (check_datetime_range t)) else None.
Definition Date_is_valid_value_slow (t : MYSQL_TIME) : option bool :=
  if decide (time_type t = MYSQL_TIMESTAMP_NONE) then Some true else is_valid_date_slow t.

Definition assert_true {A} (b : option bool) (k : option A) : option A :=
  match b with Some true => k | _ => None end.

Definition Date_from_item (base : MYSQL_TIME) : option MYSQL_TIME :=
  t ← (if decide (time_type base = MYSQL_TIMESTAMP_DATETIME) then datetime_to_date base else Some base);
  assert_true (Date_is_valid_value_slow t) (Some t).
Definition Date_from_temporal (d : MYSQL_TIME) : option MYSQL_TIME :=
  t ← datetime_to_date d; assert_true (is_valid_date_slow t) (Some t).
Definition is_valid_date (t : MYSQL_TIME) : option bool :=
  assert_true (Date_is_valid_value_slow t) (Some (bool_decide (time_type t = MYSQL_TIMESTAMP_DATE))).
Definition Date_get_mysql_time (t : MYSQL_TIME) : option MYSQL_TIME := assert_true (is_valid_date_slow t) (Some t).

Definition is_valid_datetime_slow (t : MYSQL_TIME) : option bool :=
  if decide (time_type t = MYSQL_TIMESTAMP_DATETIME) then Some (negb (check_datetime_range t)) else None.
Definition Datetime_is_valid_value_slow (t : MYSQL_TIME) : option bool :=
  if decide (time_type t = MYSQL_TIMESTAMP_NONE) then Some true else is_valid_datetime_slow t.
Definition Datetime_from_item (base : MYSQL_TIME) : option MYSQL_TIME :=
  t ← (if decide (time_type base = MYSQL_TIMESTAMP_DATE) then date_to_datetime base else Some base);
  assert_true (Datetime_is_valid_value_slow t) (Some t).
Definition is_valid_datetime (t : MYSQL_TIME) : option bool :=
  assert_true (Datetime_is_valid_value_slow t) (Some (bool_decide (time_type t = MYSQL_TIMESTAMP_DATETIME))).
Definition hhmmssff_is_zero (t : MYSQL_TIME) : option bool :=
  assert_true (is_valid_datetime_slow t)
    (Some (bool_decide (hour t = 0) && bool_decide (minute t = 0) && bool_decide (second t = 0) && bool_decide (second_part t = 0))).
Definition Datetime_get_mysql_time (t : MYSQL_TIME) : option MYSQL_TIME := assert_true (is_valid_datetime_slow t) (Some t).
Definition Datetime_copy_to_mysql_time (t ltime : MYSQL_TIME) : option (MYSQL_TIME * bool) :=
  if decide (time_type t = MYSQL_TIMESTAMP_NONE) then Some (with_type ltime MYSQL_TIMESTAMP_NONE, true)
  else assert_true (is_valid_datetime_slow t) (Some (t, false)).
(** With a type: a date is only asked for when the time part is zero. *)
Definition Datetime_copy_to_mysql_time_typed (t ltime : MYSQL_TIME) (type : enum_mysql_timestamp_type)
    : option (MYSQL_TIME * bool) :=
  if decide (type = MYSQL_TIMESTAMP_DATE ∨ type = MYSQL_TIMESTAMP_DATETIME) then
    '(l, b) ← Datetime_copy_to_mysql_time t ltime;
    if b : bool then Some (l, true)
    else if decide (type ≠ MYSQL_TIMESTAMP_DATE) then Some (with_type l type, false)
    else assert_true (hhmmssff_is_zero t) (Some (with_type l type, false))
  else None.
End dates.

End Temporal.

(** ** Lemmas *)

(** Comparisons of two given kinds. *)
Ltac types :=
  repeat match goal with
  | |- context [decide (?a = ?b :> Temporal.enum_mysql_timestamp_type)] => destruct (decide (a = b)); [try discriminate|try congruence]
  | |- context [bool_decide (?a = ?b :> Temporal.enum_mysql_timestamp_type)] =>
      first [rewrite (bool_decide_true (a = b)) by reflexivity|rewrite (bool_decide_false (a = b)) by discriminate]
  end; cbn [andb orb negb].

Section lemmas.
Import Temporal.

(** The bounds mysql_time.h states for the members. *)
Definition normalized (t : MYSQL_TIME) : Prop :=
  0 ≤ year t ≤ 9999 ∧ 0 ≤ month t ≤ 12 ∧ 0 ≤ day t ≤ 31 ∧ 0 ≤ hour t ≤ 23 ∧ 0 ≤ minute t ≤ 59 ∧ 0 ≤ second t ≤ 59 ∧
  0 ≤ second_part t ≤ 999999.

Lemma valid_time_iff t : is_valid_time_slow t = true ↔
  time_type t = MYSQL_TIMESTAMP_TIME ∧ year t = 0 ∧ month t = 0 ∧ day t = 0 ∧ minute t ≤ 59 ∧ second t ≤ 59 ∧ second_part t ≤ 999999.
Proof.
  unfold is_valid_time_slow, TIME_MAX_MINUTE, TIME_MAX_SECOND, TIME_MAX_SECOND_PART. rewrite !andb_true_iff, !bool_decide_eq_true. tauto.
Qed.

Lemma valid_time_mk h m s sp n : m ≤ 59 → s ≤ 59 → sp ≤ 999999 → is_valid_time_slow (MT 0 0 0 h m s sp n MYSQL_TIMESTAMP_TIME) = true.
Proof. intros. apply valid_time_iff. cbn. split_and!; done. Qed.

Lemma has_date_iff t : has_date t = true ↔ time_type t = MYSQL_TIMESTAMP_DATE ∨ time_type t = MYSQL_TIMESTAMP_DATETIME.
Proof. unfold has_date. by rewrite orb_true_iff, !bool_decide_eq_true. Qed.

(** The hours of a date that becomes a time. *)
Definition mixed_hours (t : MYSQL_TIME) (opt : Options) : Z :=
  if decide (year t = 0 ∧ month t = 0 ∧ m_datetime_to_time_mode opt = DATETIME_TO_TIME_YYYYMMDD_000000DD_MIX_TO_HOURS)
  then hour t + day t * 24 else hour t.

Lemma valid_datetime_to_valid_time_spec t opt : has_date t = true → normalized t →
  valid_datetime_to_valid_time t opt =
    Some (MT 0 0 0 (mixed_hours t opt) (minute t) (second t) (second_part t) (neg t) MYSQL_TIMESTAMP_TIME).
Proof.
  intros Hd (Hy & Hmo & Hda & Hh & Hmi & Hs & Hsp). unfold valid_datetime_to_valid_time. rewrite Hd.
  rewrite (bool_decide_true (day t < 32)), (bool_decide_true (hour t < 24)) by lia. cbn [andb].
  assert ((if bool_decide (year t = 0) && bool_decide (month t = 0) &&
     bool_decide (m_datetime_to_time_mode opt = DATETIME_TO_TIME_YYYYMMDD_000000DD_MIX_TO_HOURS)
     then u32 (hour t + u32 (day t * 24)) else hour t) = mixed_hours t opt) as ->.
  { unfold mixed_hours. unwrap_small. by repeat case_bool_decide; cbn; case_decide; try tauto. }
  by rewrite valid_time_mk by lia.
Qed.

Lemma mixed_hours_bound t opt : normalized t → 0 ≤ mixed_hours t opt ≤ 767.
Proof. intros (_ & _ & Hda & Hh & _). unfold mixed_hours. case_decide; lia. Qed.

Lemma to_seconds_spec h m s sp n : 0 ≤ h ≤ 838 → 0 ≤ m ≤ 59 → 0 ≤ s ≤ 59 → sp ≤ 999999 →
  to_seconds (MT 0 0 0 h m s sp n MYSQL_TIMESTAMP_TIME) = Some ((if n then -1 else 1) * (h * 3600 + m * 60 + s)).
Proof.
  intros Hh Hm Hs Hsp. unfold to_seconds, to_seconds_abs. rewrite valid_time_mk by lia.
  cbn [mbind option_bind hour minute second neg].
  rewrite (wrapu_small 32 (m * 60)), (wraps_small 64 ltac:(lia) (h * 3600)), (wraps_small 64 ltac:(lia) (_ + _)) by (unfold in_u, in_s; lia).
  destruct n; [rewrite (wraps_small 64 ltac:(lia)) by (unfold in_s; lia)|]; f_equal; lia.
Qed.

Lemma hms_zero t :
  bool_decide (hour t = 0) && bool_decide (minute t = 0) && bool_decide (second t = 0) && bool_decide (second_part t = 0) =
  negb (non_zero_hhmmssuu t).
Proof. unfold non_zero_hhmmssuu. by repeat case_bool_decide; cbn; try done; exfalso; auto. Qed.

(** Values in range are valid. *)
Section in_range.
Context (check_datetime_range : MYSQL_TIME → bool) (t : MYSQL_TIME) (Hck : check_datetime_range t = false).

Lemma date_slow : time_type t = MYSQL_TIMESTAMP_DATE → is_valid_date_slow check_datetime_range t = Some true.
Proof. intros Ht. unfold is_valid_date_slow. by rewrite decide_True, Hck. Qed.
Lemma date_valid : time_type t = MYSQL_TIMESTAMP_DATE → Date_is_valid_value_slow check_datetime_range t = Some true.
Proof. intros Ht. unfold Date_is_valid_value_slow. rewrite decide_False by congruence. by apply date_slow. Qed.
Lemma is_valid_date_date : time_type t = MYSQL_TIMESTAMP_DATE → is_valid_date check_datetime_range t = Some true.
Proof. intros Ht. unfold is_valid_date. rewrite date_valid by done. cbn. by rewrite bool_decide_true. Qed.
Lemma datetime_slow : time_type t = MYSQL_TIMESTAMP_DATETIME → is_valid_datetime_slow check_datetime_range t = Some true.
Proof. intros Ht. unfold is_valid_datetime_slow. by rewrite decide_True, Hck. Qed.
Lemma datetime_valid : time_type t = MYSQL_TIMESTAMP_DATETIME → Datetime_is_valid_value_slow check_datetime_range t = Some true.
Proof. intros Ht. unfold Datetime_is_valid_value_slow. rewrite decide_False by congruence. by apply datetime_slow. Qed.
Lemma is_valid_datetime_datetime : time_type t = MYSQL_TIMESTAMP_DATETIME → is_valid_datetime check_datetime_range t = Some true.
Proof. intros Ht. unfold is_valid_datetime. rewrite datetime_valid by done. cbn. by rewrite bool_decide_true. Qed.
End in_range.

(** The table. *)
Definition powers_of_ten (log_10_int : list Z) : Prop :=
  length log_10_int = 20%nat ∧ ∀ i, (i < 20)%nat → log_10_int !! i = Some (10 ^ Z.of_nat i).

Lemma log_10_spec l digits : powers_of_ten l → 0 ≤ digits ≤ 6 → log_10 l (6 - digits) = Some (10 ^ (6 - digits)).
Proof.
  intros [Hl Ht] Hd. unfold log_10. rewrite wrapu_small by (unfold in_u; lia). rewrite Ht by lia. by rewrite Z2Nat.id by lia.
Qed.

Lemma log_10_out l digits : powers_of_ten l → 6 < digits < 2 ^ 31 → log_10 l (6 - digits) = None.
Proof.
  intros [Hl Ht] Hd. unfold log_10. apply lookup_ge_None. rewrite Hl.
  replace (u32 (6 - digits)) with (2 ^ 32 + (6 - digits)); [lia|]. unfold wrapu. apply Z.mod_unique with (-1); lia.
Qed.
End lemmas.

(** ** Properties *)

Section properties.
Import Temporal.

(** [C20] What [valid_MYSQL_TIME_to_valid_value] makes of a value an item returned is
    valid, and no assertion on the way fails: an undefined value stays undefined,
    an error becomes zero, a time stays as it is, and a date becomes a time within
    the range of the type, of 767 hours at most.  The seconds of that time are the
    seconds of the day, to which the days are added when the year and the month
    are zero and the options ask for it. *)
Theorem time_conversion_valid (set_zero_time : MYSQL_TIME → enum_mysql_timestamp_type → MYSQL_TIME) :
  (∀ t ty, set_zero_time t ty = MT 0 0 0 0 0 0 0 false ty) →
  ∀ t opt, normalized t ∨ time_type t = MYSQL_TIMESTAMP_NONE ∨ time_type t = MYSQL_TIMESTAMP_ERROR ∨ is_valid_time_slow t = true →
    (time_type t = MYSQL_TIMESTAMP_TIME → is_valid_time_slow t = true) →
  ∃ t', valid_MYSQL_TIME_to_valid_value set_zero_time t opt = Some t' ∧ is_valid_value_slow t' = true ∧
    is_valid_time t' = Some (bool_decide (time_type t ≠ MYSQL_TIMESTAMP_NONE)) ∧
    (has_date t = true → hour t' ≤ 767 ∧ to_seconds t' =
       Some ((if neg t then -1 else 1) * (mixed_hours t opt * 3600 + minute t * 60 + second t)) ∧ second_part t' = second_part t).
Proof.
  intros Hz t opt Ht Htime. unfold valid_MYSQL_TIME_to_valid_value, is_valid_time, is_valid_value_slow.
  assert (time_type t ≠ MYSQL_TIMESTAMP_NONE → has_date t = true → ∃ t', valid_datetime_to_valid_time t opt = Some t' ∧
    bool_decide (time_type t' = MYSQL_TIMESTAMP_NONE) || is_valid_time_slow t' = true ∧
    (if bool_decide (time_type t' = MYSQL_TIMESTAMP_NONE) || is_valid_time_slow t'
     then Some (bool_decide (time_type t' = MYSQL_TIMESTAMP_TIME)) else None) = Some (bool_decide (time_type t ≠ MYSQL_TIMESTAMP_NONE)) ∧
    (has_date t = true → hour t' ≤ 767 ∧ to_seconds t' =
       Some ((if neg t then -1 else 1) * (mixed_hours t opt * 3600 + minute t * 60 + second t)) ∧ second_part t' = second_part t)) as Hdate.
  { intros Hnn Hd. assert (normalized t) as Hn.
    { apply has_date_iff in Hd as Hd'. destruct Ht as [Hn|[?|[?|Hv%valid_time_iff]]]; [done|destruct Hd'; congruence..|].
      destruct Hv as [Hv _], Hd'; congruence. }
    rewrite valid_datetime_to_valid_time_spec by done. pose proof (mixed_hours_bound t opt Hn) as Hm. destruct Hn as (_ & _ & _ & _ & Hn).
    eexists. split; [reflexivity|]. rewrite valid_time_mk by lia. rewrite orb_true_r. rewrite (bool_decide_true (time_type t ≠ _)) by done.
    split_and!; [done|done|]. intros _. split; [apply Hm|]. split; [|done]. apply to_seconds_spec; lia. }
  destruct (time_type t) eqn:E.
  - exists t. rewrite E, bool_decide_true by done. cbn. split_and!; try done. unfold has_date. by rewrite E.
  - eexists. split; [reflexivity|]. rewrite Hz. split; [done|]. split; [done|]. unfold has_date. by rewrite E.
  - apply Hdate; [done|apply has_date_iff; auto].
  - apply Hdate; [done|apply has_date_iff; auto].
  - rewrite Htime by done. exists t. rewrite Htime, E, orb_true_r by done. split_and!; try done. unfold has_date. by rewrite E.
Qed.

Lemma time_conversion_valid_witness :
  let t := MT 0 0 3 5 6 7 8 false MYSQL_TIMESTAMP_DATETIME in
  ∃ t', valid_MYSQL_TIME_to_valid_value (λ _ ty, MT 0 0 0 0 0 0 0 false ty) t Options_default = Some t' ∧
    is_valid_value_slow t' = true ∧ to_seconds t' = Some 277567.
Proof.
  intros t. destruct (time_conversion_valid (λ _ ty, MT 0 0 0 0 0 0 0 false ty) (λ _ _, eq_refl) t Options_default)
    as (t' & H1 & H2 & _ & H3); [left; unfold normalized; cbn; lia|done|].
  exists t'. split_and!; [exact H1|exact H2|]. destruct (H3 eq_refl) as (_ & -> & _). reflexivity.
Defined.

(** Dates and datetimes that are within the bounds of mysql_time.h, for a range
    check that means these bounds: a Date made of either has the same date and a
    Datetime made of either the same date and time; both are valid; going from a
    date to a datetime and copying it back as a date gives the date; and a time
    is refused by both constructors. *)
Theorem date_datetime_valid (check_datetime_range : MYSQL_TIME → bool) :
  (∀ t, has_date t = true → check_datetime_range t = false ↔ normalized t) →
  ∀ t, normalized t → neg t = false →
    (has_date t = true →
      (∃ d, Date_from_item check_datetime_range t = Some d ∧ is_valid_date check_datetime_range d = Some true ∧
         (year d, month d, day d) = (year t, month t, day t) ∧
         (time_type t = MYSQL_TIMESTAMP_DATETIME → Date_from_temporal check_datetime_range t = Some d ∧ non_zero_hhmmssuu d = false)) ∧
      (∃ dt, Datetime_from_item check_datetime_range t = Some dt ∧ is_valid_datetime check_datetime_range dt = Some true ∧
         dt = with_type t MYSQL_TIMESTAMP_DATETIME ∧
         (time_type t = MYSQL_TIMESTAMP_DATE → non_zero_hhmmssuu t = false →
            ∀ l, Datetime_copy_to_mysql_time_typed check_datetime_range dt l MYSQL_TIMESTAMP_DATE = Some (t, false)))) ∧
    (time_type t = MYSQL_TIMESTAMP_TIME →
      Date_from_item check_datetime_range t = None ∧ Datetime_from_item check_datetime_range t = None).
Proof.
  intros Hc [y mo d h mi s sp n ty] Hn Hneg. cbn in Hneg. subst n.
  assert (∀ h mi s sp ty', 0 ≤ h ≤ 23 → 0 ≤ mi ≤ 59 → 0 ≤ s ≤ 59 → 0 ≤ sp ≤ 999999 → has_date (MT y mo d h mi s sp false ty') = true →
    check_datetime_range (MT y mo d h mi s sp false ty') = false) as Hck.
  { intros h' mi' s' sp' ty' ? ? ? ? Hd. apply Hc; [done|]. unfold normalized in *. cbn in *. lia. }
  unfold normalized in Hn. cbn in Hn.
  destruct ty; (split; [intros Hd; try done|intros Ht; try done]).
  - split.
    + exists (MT y mo d h mi s sp false MYSQL_TIMESTAMP_DATE). unfold Date_from_item. rewrite decide_False by done. cbn [mbind option_bind].
      rewrite date_valid, is_valid_date_date by first [done|apply Hck; first [lia|reflexivity]]. done.
    + exists (MT y mo d h mi s sp false MYSQL_TIMESTAMP_DATETIME). unfold Datetime_from_item. rewrite decide_True by done. cbn [date_to_datetime has_date mbind option_bind].
      unfold date_to_datetime, has_date. cbn [time_type neg]. types. cbn [mbind option_bind year month day hour minute second second_part neg].
      rewrite datetime_valid, is_valid_datetime_datetime by first [done|apply Hck; first [lia|reflexivity]]. split_and!; [done..|]. intros _ Hz l.
      unfold Datetime_copy_to_mysql_time_typed, Datetime_copy_to_mysql_time, hhmmssff_is_zero. rewrite decide_True, decide_False by auto.
      rewrite datetime_slow by first [done|apply Hck; first [lia|reflexivity]]. cbn [assert_true mbind option_bind]. rewrite decide_False by auto. cbn [assert_true].
      rewrite (hms_zero (MT y mo d h mi s sp false MYSQL_TIMESTAMP_DATETIME)). unfold non_zero_hhmmssuu in *. cbn in *. by rewrite Hz.
  - split.
    + exists (MT y mo d 0 0 0 0 false MYSQL_TIMESTAMP_DATE). unfold Date_from_item, Date_from_temporal. rewrite decide_True by done.
      unfold datetime_to_date, has_date. cbn [time_type neg]. types. cbn [mbind option_bind year month day hour minute second second_part neg].
      rewrite date_valid, is_valid_date_date, date_slow by first [done|apply Hck; first [lia|reflexivity]]. done.
    + exists (MT y mo d h mi s sp false MYSQL_TIMESTAMP_DATETIME). unfold Datetime_from_item. rewrite decide_False by done. cbn [mbind option_bind].
      rewrite datetime_valid, is_valid_datetime_datetime by first [done|apply Hck; first [lia|reflexivity]]. split_and!; done.
Qed.

(** The bounds as a test. *)
Definition in_bounds (t : MYSQL_TIME) : bool :=
  bool_decide (normalized t).

Lemma date_datetime_valid_witness :
  let t := MT 2024 2 29 0 0 0 0 false MYSQL_TIMESTAMP_DATE in let check := λ t, negb (in_bounds t) in
  ∃ dt, Datetime_from_item check t = Some dt ∧ Datetime_copy_to_mysql_time_typed check dt t MYSQL_TIMESTAMP_DATE = Some (t, false).
Proof.
  intros t check. destruct (date_datetime_valid check) with (t := t) as [H _].
  - intros t' _. unfold check, in_bounds. rewrite negb_false_iff. apply bool_decide_eq_true.
  - unfold normalized. cbn. lia.
  - reflexivity.
  - destruct (H eq_refl) as [_ (dt & H1 & _ & _ & H2)]. exists dt. split; [exact H1|]. by apply H2.
Defined.

(** Fractions of a second with [digits] digits, for a table of the powers of ten:
    shifting and unshifting drops the digits behind them, which is what
    [my_time_trunc] does; what is shifted has at most that many digits; nothing is
    lost by unshifting; and a precision above six reads outside of the table. *)
Theorem second_part_truncation (log_10_int : list Z) (t : MYSQL_TIME) (digits : Z) :
  powers_of_ten log_10_int → 0 ≤ second_part t < 10 ^ 6 →
  (0 ≤ digits ≤ 6 → ∃ a b t', sec_part_shift log_10_int (second_part t) digits = Some a ∧ 0 ≤ a < 10 ^ digits ∧
     sec_part_unshift log_10_int a digits = Some b ∧ b = second_part t - second_part t mod 10 ^ (6 - digits) ∧
     my_time_trunc log_10_int t digits = Some t' ∧ second_part t' = b ∧ sec_part_shift log_10_int b digits = Some a ∧
     my_time_trunc log_10_int t' digits = Some t') ∧
  (6 < digits < 2 ^ 31 → sec_part_shift log_10_int (second_part t) digits = None ∧ my_time_trunc log_10_int t digits = None).
Proof.
  intros Hl Hs. split; intros Hd.
  - unfold sec_part_shift, sec_part_unshift, my_time_trunc, my_time_fraction_remainder, TIME_SECOND_PART_DIGITS.
    rewrite (log_10_spec _ _ Hl Hd). rewrite decide_True by lia. cbn [mbind option_bind].
    set (p := 10 ^ (6 - digits)). assert (0 < p) as Hp by (apply Z.pow_pos_nonneg; lia).
    assert (p * 10 ^ digits = 10 ^ 6) as Hpow by (unfold p; rewrite <- Z.pow_add_r by lia; f_equal; lia).
    pose proof (Z.div_mod (second_part t) p ltac:(lia)) as Hdm. pose proof (Z.mod_pos_bound (second_part t) p Hp) as Hmod.
    assert (0 ≤ second_part t / p < 10 ^ digits) as Ha.
    { split; [apply Z.div_pos; lia|]. apply Z.div_lt_upper_bound; lia. }
    rewrite Z.quot_div_nonneg, Z.rem_mod_nonneg by lia.
    set (b := second_part t - second_part t mod p). assert (b = second_part t / p * p) as Eb by (unfold b; lia).
    assert (0 ≤ b ≤ second_part t) as Hb by (unfold b; lia).
    exists (second_part t / p), b. eexists. rewrite <- Eb, (wraps_small 64 ltac:(lia)), (wrapu_small 64) by (unfold in_s, in_u; lia).
    split_and!; try reflexivity; [lia|lia| |].
    + rewrite Z.quot_div_nonneg, Eb, Z.div_mul by lia. done.
    + cbn [second_part year month day hour minute second neg time_type]. rewrite Z.rem_mod_nonneg by lia.
      assert (b mod p = 0) as -> by (rewrite Eb; apply Z.mod_mul; lia). rewrite decide_True by lia. cbn [mbind option_bind]. by rewrite Z.sub_0_r, (wrapu_small 64) by (unfold in_u; lia).
  - unfold sec_part_shift, my_time_trunc, my_time_fraction_remainder, TIME_SECOND_PART_DIGITS.
    rewrite (log_10_out _ _ Hl Hd), decide_False by lia. done.
Qed.

Lemma second_part_truncation_witness :
  let l := (λ i, 10 ^ Z.of_nat i) <$> seq 0 20 in
  ∃ t', my_time_trunc l (MT 2024 1 1 0 0 0 123456 false MYSQL_TIMESTAMP_DATETIME) 2 = Some t' ∧ second_part t' = 120000.
Proof.
  intros l. destruct (second_part_truncation l (MT 2024 1 1 0 0 0 123456 false MYSQL_TIMESTAMP_DATETIME) 2) as [H _].
  - split; [reflexivity|]. intros i Hi. unfold l. rewrite list_lookup_fmap, lookup_seq_lt by lia. done.
  - cbn. lia.
  - destruct H as (a & b & t' & _ & _ & _ & Hb & Ht & Hs & _); [lia|]. exists t'. split; [exact Ht|]. rewrite Hs, Hb. reflexivity.
Defined.

(** [validate_timestamp_range] accepts the dates from the last day of 1969 to the
    19th of January 2038, in the order of dates. *)
Theorem timestamp_range_is_date_interval (t : MYSQL_TIME) :
  1 ≤ month t ≤ 12 → 1 ≤ day t ≤ 31 →
  let date y m d := y * 10000 + m * 100 + d in
  validate_timestamp_range t = true ↔
    date 1969 12 31 ≤ date (year t) (month t) (day t) ≤ date 2038 1 19.
Proof.
  intros Hm Hd date. unfold validate_timestamp_range, TIMESTAMP_MAX_YEAR, TIMESTAMP_MIN_YEAR, YY_PART_YEAR, date.
  rewrite negb_true_iff. repeat case_bool_decide; cbn; split; intros; try done; lia.
Qed.

Lemma timestamp_range_is_date_interval_witness :
  validate_timestamp_range (MT 2038 1 19 3 14 7 0 false MYSQL_TIMESTAMP_DATETIME) = true.
Proof. apply (timestamp_range_is_date_interval _); cbn; lia. Defined.

(** [double_to_datetime] replaces a negative or too large number by the double
    nearest to LONGLONG_MAX, which is 2^63: its conversion to [longlong] is
    undefined.  Other numbers pass as they are. *)
Theorem double_to_datetime_out_of_range {A} (number_to_datetime : Z → Z → A) :
  (∀ nr, Double.ltb_d nr (S754_zero false) = true ∨ Double.ltb_d (Double.of_Z LONGLONG_MAX) nr = true →
     double_to_datetime number_to_datetime nr = None) ∧
  double_to_datetime number_to_datetime (Double.of_Z 20240229) = Some (number_to_datetime 20240229 0).
Proof.
  split; [|reflexivity]. intros nr Hnr. unfold double_to_datetime.
  replace (Double.ltb_d nr (S754_zero false) || Double.ltb_d (Double.of_Z LONGLONG_MAX) nr) with true
    by (symmetry; apply orb_true_iff; tauto).
  reflexivity.
Qed.

(** Packed times: the integer and the fractional part of what
    [MY_PACKED_TIME_MAKE] makes, for a value that is not negative. *)
Theorem packed_time_roundtrip (i f : Z) :
  0 ≤ i < 2 ^ 39 → 0 ≤ f < 2 ^ 24 →
  MY_PACKED_TIME_GET_INT_PART (MY_PACKED_TIME_MAKE i f) = i ∧ MY_PACKED_TIME_GET_FRAC_PART (MY_PACKED_TIME_MAKE i f) = f ∧
  MY_PACKED_TIME_MAKE i 0 = MY_PACKED_TIME_MAKE_INT i.
Proof.
  intros Hi Hf. unfold MY_PACKED_TIME_GET_INT_PART, MY_PACKED_TIME_GET_FRAC_PART, MY_PACKED_TIME_MAKE, MY_PACKED_TIME_MAKE_INT.
  rewrite !Z.shiftl_mul_pow2, Z.mul_1_l by lia.
  assert (0 ≤ i * 2 ^ 24 < 2 ^ 63) as Hb by lia.
  rewrite !(wraps_small 64 ltac:(lia) (i * 2 ^ 24)), !(wraps_small 64 ltac:(lia)) by (unfold in_s; lia).
  rewrite Z.shiftr_div_pow2, Z.rem_mod_nonneg by lia. split_and!; [| |lia].
  - rewrite Z.div_add_l by lia. rewrite Z.div_small; lia.
  - rewrite Z.add_comm, Z.mod_add by lia. apply Z.mod_small. lia.
Qed.

Lemma packed_time_roundtrip_witness : MY_PACKED_TIME_GET_FRAC_PART (MY_PACKED_TIME_MAKE 5 999999) = 999999.
Proof. apply (packed_time_roundtrip 5 999999); lia. Defined.

(** The validity test of Time does not look at the hours. *)
Theorem valid_time_hour_unbounded (h : Z) : is_valid_time_slow (MT 0 0 0 h 0 0 0 false MYSQL_TIMESTAMP_TIME) = true.
Proof. by apply valid_time_mk. Qed.
End properties.
