(* ===== verification/TypeAttr.v ===== *)
(** * Attributes of SQL types (sql_type.h)

    The collation of a type, its lengths and decimals, the widths of the integer
    types, and the numbers INFORMATION_SCHEMA shows.  A character set is a
    parameter: what the code reads of it is its number of bytes per character and
    whether it is pure ASCII. *)

From S2P Require Import Prelude Temporal.
From Stdlib Require Import ZArith Lia.
From stdpp Require Import base numbers option list strings.
Open Scope Z_scope.
Open Scope cint_scope.

Module TypeAttr.

(** The members of a CHARSET_INFO the methods read. *)
Record CHARSET_INFO := Cs { mbmaxlen : Z; state : Z }.
Definition MY_CS_PUREASCII : Z := 4096.
Definition MY_REPERTOIRE_ASCII : Z := 1.
Definition MY_REPERTOIRE_UNICODE30 : Z := 3.
Definition MY_REPERTOIRE_NUMERIC : Z := MY_REPERTOIRE_ASCII.

Inductive Derivation :=
| DERIVATION_EXPLICIT | DERIVATION_NONE | DERIVATION_IMPLICIT | DERIVATION_SYSCONST | DERIVATION_COERCIBLE
| DERIVATION_NUMERIC | DERIVATION_IGNORABLE.

(** ** DTCollation *)

Record DTCollation := Dtc { collation : CHARSET_INFO; derivation : Derivation; repertoire : Z }.

Definition repertoire_from_charset (cs : CHARSET_INFO) : Z :=
  if decide (state cs .& MY_CS_PUREASCII ≠ 0) then MY_REPERTOIRE_ASCII else MY_REPERTOIRE_UNICODE30.
Definition set_repertoire_from_charset (d : DTCollation) (cs : CHARSET_INFO) : DTCollation :=
  Dtc (collation d) (derivation d) (repertoire_from_charset cs).

Definition DTCollation_default (my_charset_bin : CHARSET_INFO) : DTCollation :=
  Dtc my_charset_bin DERIVATION_NONE MY_REPERTOIRE_UNICODE30.
Definition DTCollation_field (my_charset_repertoire : CHARSET_INFO → Z) (cs : CHARSET_INFO) : DTCollation :=
  Dtc cs DERIVATION_IMPLICIT (my_charset_repertoire cs).
Definition DTCollation_derived (cs : CHARSET_INFO) (d : Derivation) : DTCollation :=
  set_repertoire_from_charset (Dtc cs d 0) cs.
Definition set_dt (this dt : DTCollation) : DTCollation := Dtc (collation dt) (derivation dt) (repertoire dt).
Definition set_cs_derivation (this : DTCollation) (cs : CHARSET_INFO) (d : Derivation) : DTCollation :=
  set_repertoire_from_charset (Dtc cs d (repertoire this)) cs.
Definition set_all (this : DTCollation) (cs : CHARSET_INFO) (d : Derivation) (r : Z) : DTCollation := Dtc cs d r.
Definition set_numeric (my_charset_numeric : CHARSET_INFO) (this : DTCollation) : DTCollation :=
  Dtc my_charset_numeric DERIVATION_NUMERIC MY_REPERTOIRE_NUMERIC.
Definition set_cs (this : DTCollation) (cs : CHARSET_INFO) : DTCollation :=
  set_repertoire_from_charset (Dtc cs (derivation this) (repertoire this)) cs.
Definition set_derivation (this : DTCollation) (d : Derivation) : DTCollation := Dtc (collation this) d (repertoire this).
Definition derivation_name (this : DTCollation) : string :=
  match derivation this with
  | DERIVATION_NUMERIC => "NUMERIC"
  | DERIVATION_IGNORABLE => "IGNORABLE"
  | DERIVATION_COERCIBLE => "COERCIBLE"
  | DERIVATION_IMPLICIT => "IMPLICIT"
  | DERIVATION_SYSCONST => "SYSCONST"
  | DERIVATION_EXPLICIT => "EXPLICIT"
  | DERIVATION_NONE => "NONE"
  end.

(** ** Type_std_attributes *)

Definition UINT_MAX32 : Z := 2 ^ 32 - 1.
Definition NOT_FIXED_DEC : Z := 39.
Definition MIN_TIME_WIDTH : Z := 10.
Definition MAX_DATE_WIDTH : Z := 10.
Definition MAX_DATETIME_WIDTH : Z := 19.

Definition char_to_byte_length_safe (char_length_arg mbmaxlen_arg : Z) : Z :=
  let tmp := u64 (char_length_arg * mbmaxlen_arg) in if decide (tmp > UINT_MAX32) then UINT_MAX32 else u32 tmp.

Record Type_std_attributes := Tsa { coll : DTCollation; decimals : Z; max_length : Z; unsigned_flag : bool }.

Definition Type_std_attributes_default (my_charset_bin : CHARSET_INFO) : Type_std_attributes :=
  Tsa (DTCollation_derived my_charset_bin DERIVATION_COERCIBLE) 0 0 false.

Definition max_char_length (a : Type_std_attributes) : Z := max_length a / mbmaxlen (collation (coll a)).

Definition fix_length_and_charset (a : Type_std_attributes) (max_char_length_arg : Z) (cs : CHARSET_INFO) : Type_std_attributes :=
  Tsa (Dtc cs (derivation (coll a)) (repertoire (coll a))) (decimals a) (char_to_byte_length_safe max_char_length_arg (mbmaxlen cs))
    (unsigned_flag a).
Definition fix_char_length (a : Type_std_attributes) (max_char_length_arg : Z) : Type_std_attributes :=
  Tsa (coll a) (decimals a) (char_to_byte_length_safe max_char_length_arg (mbmaxlen (collation (coll a)))) (unsigned_flag a).

Definition fix_char_length_temporal_not_fixed_dec (a : Type_std_attributes) (int_part_length dec : Z) : Type_std_attributes :=
  let char_length := int_part_length in
  let a := Tsa (coll a) dec (max_length a) (unsigned_flag a) in
  if decide (dec ≠ 0) then
    if decide (decimals a = NOT_FIXED_DEC)
    then fix_char_length a (u32 (char_length + (Temporal.TIME_SECOND_PART_DIGITS + 1)))
    else let a := Tsa (coll a) (if decide (decimals a > Temporal.TIME_SECOND_PART_DIGITS) then Temporal.TIME_SECOND_PART_DIGITS else decimals a)
                    (max_length a) (unsigned_flag a) in
         fix_char_length a (u32 (char_length + (decimals a + 1)))
  else fix_char_length a char_length.

Section numeric.
Context (my_charset_numeric : CHARSET_INFO).

Definition fix_attributes_temporal_not_fixed_dec (a : Type_std_attributes) (int_part_length dec : Z) : Type_std_attributes :=
  fix_char_length_temporal_not_fixed_dec
    (Tsa (set_numeric my_charset_numeric (coll a)) (decimals a) (max_length a) false) int_part_length dec.
Definition fix_attributes_time_not_fixed_dec (a : Type_std_attributes) (dec : Z) : Type_std_attributes :=
  fix_attributes_temporal_not_fixed_dec a MIN_TIME_WIDTH dec.
Definition fix_attributes_datetime_not_fixed_dec (a : Type_std_attributes) (dec : Z) : Type_std_attributes :=
  fix_attributes_temporal_not_fixed_dec a MAX_DATETIME_WIDTH dec.

Definition fix_attributes_temporal (a : Type_std_attributes) (int_part_length dec : Z) : Type_std_attributes :=
  let decimals := if decide (dec < Temporal.TIME_SECOND_PART_DIGITS) then dec else Temporal.TIME_SECOND_PART_DIGITS in
  Tsa (set_numeric my_charset_numeric (coll a)) decimals (u32 (decimals + int_part_length + (if decide (dec ≠ 0) then 1 else 0))) false.
Definition fix_attributes_date (a : Type_std_attributes) : Type_std_attributes := fix_attributes_temporal a MAX_DATE_WIDTH 0.
Definition fix_attributes_time (a : Type_std_attributes) (dec : Z) : Type_std_attributes := fix_attributes_temporal a MIN_TIME_WIDTH dec.
Definition fix_attributes_datetime (a : Type_std_attributes) (dec : Z) : Type_std_attributes :=
  fix_attributes_temporal a MAX_DATETIME_WIDTH dec.

(** [count_max_decimals] of the items is a parameter. *)
Definition aggregate_attributes_temporal (count_max_decimals : Z) (a : Type_std_attributes) (int_part_length : Z) : Type_std_attributes :=
  fix_attributes_temporal a int_part_length count_max_decimals.
End numeric.

(** The flags of the three ways arguments are aggregated. *)
Definition MY_COLL_ALLOW_SUPERSET_CONV : Z := 1.
Definition MY_COLL_ALLOW_COERCIBLE_CONV : Z := 2.
Definition MY_COLL_DISALLOW_NONE : Z := 4.
Definition MY_COLL_ALLOW_NUMERIC_CONV : Z := 8.

(** The two steps are functions of the state that holds the items; they report an
    error with [true]. *)
Section charsets.
Context {S : Type} (agg_item_collations agg_item_set_converter : S → Z → S * bool).

Definition agg_arg_charsets (s : S) (flags : Z) : S * bool :=
  let '(s, err) := agg_item_collations s flags in
  if err then (s, true) else agg_item_set_converter s flags.
Definition agg_arg_charsets_for_string_result (s : S) : S * bool :=
  agg_arg_charsets s (MY_COLL_ALLOW_SUPERSET_CONV .| MY_COLL_ALLOW_COERCIBLE_CONV .| MY_COLL_ALLOW_NUMERIC_CONV).
Definition agg_arg_charsets_for_string_result_with_comparison (s : S) : S * bool :=
  agg_arg_charsets s (MY_COLL_ALLOW_SUPERSET_CONV .| MY_COLL_ALLOW_COERCIBLE_CONV .| MY_COLL_ALLOW_NUMERIC_CONV .| MY_COLL_DISALLOW_NONE).
Definition agg_arg_charsets_for_comparison (s : S) : S * bool :=
  agg_arg_charsets s (MY_COLL_ALLOW_SUPERSET_CONV .| MY_COLL_ALLOW_COERCIBLE_CONV .| MY_COLL_DISALLOW_NONE).
End charsets.

(** ** Type_cast_attributes

    [my_strtoll10] is a parameter; a string that is not given is null. *)
Record Type_cast_attributes := Tca {
  m_charset : CHARSET_INFO; m_length : Z; m_decimals : Z; m_length_specified : bool; m_decimals_specified : bool }.

Definition Type_cast_attributes_cs (cs : CHARSET_INFO) : Type_cast_attributes := Tca cs 0 0 false false.
Definition set_length_and_dec (my_strtoll10 : string → Z) (a : Type_cast_attributes) (c_len c_dec : option string) : Type_cast_attributes :=
  let a := match c_len with
           | Some s => Tca (m_charset a) (u64 (my_strtoll10 s)) (m_decimals a) true (m_decimals_specified a)
           | None => Tca (m_charset a) (m_length a) (m_decimals a) false (m_decimals_specified a)
           end in
  match c_dec with
  | Some s => Tca (m_charset a) (m_length a) (u64 (my_strtoll10 s)) (m_length_specified a) true
  | None => Tca (m_charset a) (m_length a) (m_decimals a) (m_length_specified a) false
  end.
Definition Type_cast_attributes_new (my_strtoll10 : string → Z) (c_len c_dec : option string) (cs : CHARSET_INFO) : Type_cast_attributes :=
  set_length_and_dec my_strtoll10 (Type_cast_attributes_cs cs) c_len c_dec.

(** ** Information schema *)

Definition ATTR_NONE : Z := 0.
Definition ATTR_PRECISION : Z := 1.
Definition ATTR_SCALE : Z := 2.
Definition ATTR_PRECISION_AND_SCALE : Z := ATTR_PRECISION .| ATTR_SCALE.

Record Information_schema_numeric_attributes := Isn { m_precision : Z; m_scale : Z; m_available_attributes : Z }.
Definition Isn_none : Information_schema_numeric_attributes := Isn 0 0 ATTR_NONE.
Definition Isn_precision (precision : Z) : Information_schema_numeric_attributes := Isn precision 0 ATTR_PRECISION.
Definition Isn_precision_scale (precision scale : Z) : Information_schema_numeric_attributes := Isn precision scale ATTR_PRECISION_AND_SCALE.
Definition has_precision (a : Information_schema_numeric_attributes) : bool := bool_decide (m_available_attributes a .& ATTR_PRECISION ≠ 0).
Definition has_scale (a : Information_schema_numeric_attributes) : bool := bool_decide (m_available_attributes a .& ATTR_SCALE ≠ 0).
Definition Isn_get_precision (a : Information_schema_numeric_attributes) : option Z := if has_precision a then Some (m_precision a) else None.
Definition Isn_get_scale (a : Information_schema_numeric_attributes) : option Z := if has_scale a then Some (m_scale a) else None.

Record Information_schema_character_attributes := Isc { m_octet_length : Z; m_char_length : Z; m_is_set : bool }.
Definition Isc_none : Information_schema_character_attributes := Isc 0 0 false.
Definition Isc_set (octet_length char_length : Z) : Information_schema_character_attributes := Isc octet_length char_length true.
Definition has_octet_length (a : Information_schema_character_attributes) : bool := m_is_set a.
Definition has_char_length (a : Information_schema_character_attributes) : bool := m_is_set a.
Definition octet_length (a : Information_schema_character_attributes) : option Z := if has_octet_length a then Some (m_octet_length a) else None.
Definition char_length (a : Information_schema_character_attributes) : option Z := if has_char_length a then Some (m_char_length a) else None.

(** ** Integer types *)

Definition MAX_TINYINT_WIDTH : Z := 3.
Definition MAX_SMALLINT_WIDTH : Z := 5.
Definition MAX_MEDIUMINT_WIDTH : Z := 8.
Definition MAX_INT_WIDTH : Z := 10.
Definition MAX_BIGINT_WIDTH : Z := 20.

Record Type_limits_int := Tli { tl_precision : Z; tl_char_length : Z }.
Definition Type_limits_uint8 : Type_limits_int := Tli MAX_TINYINT_WIDTH MAX_TINYINT_WIDTH.
Definition Type_limits_sint8 : Type_limits_int := Tli MAX_TINYINT_WIDTH (MAX_TINYINT_WIDTH + 1).
Definition Type_limits_uint16 : Type_limits_int := Tli MAX_SMALLINT_WIDTH MAX_SMALLINT_WIDTH.
Definition Type_limits_sint16 : Type_limits_int := Tli MAX_SMALLINT_WIDTH (MAX_SMALLINT_WIDTH + 1).
Definition Type_limits_uint24 : Type_limits_int := Tli MAX_MEDIUMINT_WIDTH MAX_MEDIUMINT_WIDTH.
Definition Type_limits_sint24 : Type_limits_int := Tli (MAX_MEDIUMINT_WIDTH - 1) MAX_MEDIUMINT_WIDTH.
Definition Type_limits_uint32 : Type_limits_int := Tli MAX_INT_WIDTH MAX_INT_WIDTH.
Definition Type_limits_sint32 : Type_limits_int := Tli MAX_INT_WIDTH (MAX_INT_WIDTH + 1).
Definition Type_limits_uint64 : Type_limits_int := Tli MAX_BIGINT_WIDTH MAX_BIGINT_WIDTH.
Definition Type_limits_sint64 : Type_limits_int := Tli (MAX_BIGINT_WIDTH - 1) MAX_BIGINT_WIDTH.

End TypeAttr.

(** ** Lemmas *)

Section lemmas.
Import TypeAttr.

(** The digits of a number: the least [n], from 1 on, with [v < 10^n]. *)
Definition has_digits (v n : Z) : Prop := 1 ≤ n ∧ v < 10 ^ n ∧ (1 < n → 10 ^ (n - 1) ≤ v).

(** The characters it prints as, with a sign when it is negative. *)
Definition has_chars (v n : Z) : Prop := if decide (v < 0) then has_digits (- v) (n - 1) else has_digits v n.

(** The limits of a type whose values are from [lo] to [hi]. *)
Definition limits_exact (l : Type_limits_int) (lo hi : Z) : Prop :=
  has_digits hi (tl_precision l) ∧ (has_chars lo (tl_char_length l) ∨ has_chars hi (tl_char_length l)) ∧
  ∀ v n, lo ≤ v ≤ hi → has_chars v n → n ≤ tl_char_length l.

Lemma has_digits_mono v w n m : 0 ≤ v ≤ w → has_digits v n → has_digits w m → n ≤ m.
Proof.
  intros Hv (Hn & _ & Hlo) (Hm & Hhi & _). destruct (decide (n = 1)) as [->|]; [lia|]. specialize (Hlo ltac:(lia)).
  destruct (decide (n ≤ m)); [done|]. assert (10 ^ m ≤ 10 ^ (n - 1)) by (apply Z.pow_le_mono_r; lia). lia.
Qed.

(** It is enough to look at the two ends. *)
Lemma limits_exact_ends l lo hi a b : lo ≤ 0 ≤ hi → has_digits hi a → has_digits (- lo) b → a = tl_precision l →
  tl_char_length l = (if decide (lo < 0) then Z.max a (b + 1) else a) → limits_exact l lo hi.
Proof.
  intros Hr Ha Hb Hp Hc. split; [congruence|]. split.
  - rewrite Hc. unfold has_chars. case_decide as Hlo.
    + destruct (decide (b + 1 ≤ a)).
      * right. rewrite decide_False by lia. by rewrite Z.max_l by lia.
      * left. replace (Z.max a (b + 1) - 1) with b by lia. done.
    + right. by rewrite decide_False by lia.
  - intros v n Hv. unfold has_chars. rewrite Hc. destruct (decide (v < 0)) as [Hneg|Hneg]; intros Hn.
    + pose proof (has_digits_mono (- v) (- lo) (n - 1) b ltac:(lia) Hn Hb). repeat case_decide; lia.
    + pose proof (has_digits_mono v hi n a ltac:(lia) Hn Ha). repeat case_decide; lia.
Qed.

Lemma char_to_byte_length_cap n mb : 0 ≤ n < 2 ^ 32 → 1 ≤ mb < 2 ^ 32 → char_to_byte_length_safe n mb = Z.min (n * mb) UINT_MAX32.
Proof.
  intros Hn Hmb. unfold char_to_byte_length_safe, UINT_MAX32. rewrite (wrapu_small 64) by (unfold in_u; nia).
  case_decide; [lia|]. rewrite wrapu_small by (unfold in_u; nia). lia.
Qed.
End lemmas.

(** ** Properties *)

Section properties.
Import TypeAttr.

(** The length in characters that is read back after [fix_char_length] or
    [fix_length_and_charset] is the one given, except that it is capped at the
    number of characters whose bytes fit in 32 bits; the length in bytes never
    exceeds UINT_MAX32. *)
Theorem char_length_roundtrip (a : Type_std_attributes) (n : Z) (cs : CHARSET_INFO) :
  0 ≤ n < 2 ^ 32 → 1 ≤ mbmaxlen cs < 2 ^ 32 →
  let b := fix_length_and_charset a n cs in
  max_char_length b = Z.min n (UINT_MAX32 / mbmaxlen cs) ∧ 0 ≤ max_length b ≤ UINT_MAX32 ∧ fix_char_length b n = b.
Proof.
  intros Hn Hm b. unfold max_char_length, b, fix_char_length, fix_length_and_charset. cbn [max_length coll collation decimals unsigned_flag].
  rewrite char_to_byte_length_cap by done. split_and!; [|unfold UINT_MAX32; nia..|done].
  destruct (decide (n * mbmaxlen cs ≤ UINT_MAX32)) as [Hle|Hgt].
  - rewrite Z.min_l, Z.div_mul by lia. rewrite Z.min_l; [done|]. apply Z.div_le_lower_bound; lia.
  - rewrite Z.min_r by lia. rewrite Z.min_r; [done|]. apply Z.div_le_upper_bound; lia.
Qed.

Lemma char_length_roundtrip_witness :
  max_char_length (fix_length_and_charset (Type_std_attributes_default (Cs 1 0)) 2000000000 (Cs 4 0)) = 1073741823.
Proof. apply (char_length_roundtrip (Type_std_attributes_default (Cs 1 0)) 2000000000 (Cs 4 0)); cbn; lia. Defined.

(** Both ways of setting the attributes of a temporal type, with a numeric
    character set of one byte per character, give the same length: that of the
    integer part and, for decimals, of the point and of six digits at most.  They
    give the same decimals but for a number of decimals that is not fixed, which
    only one keeps. *)
Theorem temporal_attributes_agree (my_charset_numeric : CHARSET_INFO) (a : Type_std_attributes) (int_part dec : Z) :
  mbmaxlen my_charset_numeric = 1 → 0 ≤ int_part < 2 ^ 31 → 0 ≤ dec < 2 ^ 31 →
  let x := fix_attributes_temporal my_charset_numeric a int_part dec in
  let y := fix_attributes_temporal_not_fixed_dec my_charset_numeric a int_part dec in
  max_length x = int_part + (if decide (dec = 0) then 0 else 1 + Z.min dec 6) ∧ max_length y = max_length x ∧
  decimals x = Z.min dec 6 ∧ decimals y = (if decide (dec = NOT_FIXED_DEC) then NOT_FIXED_DEC else decimals x) ∧
  coll x = coll y ∧ unsigned_flag x = false ∧ unsigned_flag y = false.
Proof.
  intros Hcs Hi Hd x y. unfold x, y, fix_attributes_temporal, fix_attributes_temporal_not_fixed_dec, fix_char_length_temporal_not_fixed_dec,
    fix_char_length, set_numeric, Temporal.TIME_SECOND_PART_DIGITS, NOT_FIXED_DEC.
  repeat (case_decide; cbn in *; try lia); rewrite ?Hcs, ?char_to_byte_length_cap by (unfold wrapu; try apply Z.mod_pos_bound; lia);
    unfold UINT_MAX32; split_and!; try done; try lia; rewrite ?(wrapu_small 32) by (unfold in_u; lia); lia.
Qed.

Lemma temporal_attributes_agree_witness :
  let a := Type_std_attributes_default (Cs 1 0) in
  max_length (fix_attributes_temporal_not_fixed_dec (Cs 1 0) a MAX_DATETIME_WIDTH 9) = 26.
Proof.
  intros a. destruct (temporal_attributes_agree (Cs 1 0) a MAX_DATETIME_WIDTH 9) as (H1 & H2 & _);
    [reflexivity|unfold MAX_DATETIME_WIDTH; lia|lia|]. rewrite H2, H1. reflexivity.
Defined.

(** The precision of each integer type is the number of digits of its largest
    value, and its character length that of the longest of its values, sign
    included. *)
Theorem integer_type_limits :
  limits_exact Type_limits_uint8 0 (2 ^ 8 - 1) ∧ limits_exact Type_limits_sint8 (- 2 ^ 7) (2 ^ 7 - 1) ∧
  limits_exact Type_limits_uint16 0 (2 ^ 16 - 1) ∧ limits_exact Type_limits_sint16 (- 2 ^ 15) (2 ^ 15 - 1) ∧
  limits_exact Type_limits_uint24 0 (2 ^ 24 - 1) ∧ limits_exact Type_limits_sint24 (- 2 ^ 23) (2 ^ 23 - 1) ∧
  limits_exact Type_limits_uint32 0 (2 ^ 32 - 1) ∧ limits_exact Type_limits_sint32 (- 2 ^ 31) (2 ^ 31 - 1) ∧
  limits_exact Type_limits_uint64 0 (2 ^ 64 - 1) ∧ limits_exact Type_limits_sint64 (- 2 ^ 63) (2 ^ 63 - 1).
Proof.
  assert (∀ l lo hi b, lo ≤ 0 ≤ hi → has_digits hi (tl_precision l) → has_digits (- lo) b →
    tl_char_length l = (if decide (lo < 0) then Z.max (tl_precision l) (b + 1) else tl_precision l) → limits_exact l lo hi) as H
    by (intros l lo hi b ? ? ? ?; by apply (limits_exact_ends l lo hi (tl_precision l) b)).
  unfold has_digits in H.
  split_and!; [eapply (H _ _ _ 1)|eapply (H _ _ _ 3)|eapply (H _ _ _ 1)|eapply (H _ _ _ 5)|eapply (H _ _ _ 1)|eapply (H _ _ _ 7)
    |eapply (H _ _ _ 1)|eapply (H _ _ _ 10)|eapply (H _ _ _ 1)|eapply (H _ _ _ 19)]; cbn;
    unfold MAX_TINYINT_WIDTH, MAX_SMALLINT_WIDTH, MAX_MEDIUMINT_WIDTH, MAX_INT_WIDTH, MAX_BIGINT_WIDTH; repeat case_decide; lia.
Qed.
End properties.
