(* ===== verification/Xid.v ===== *)
(** * Transaction identifiers (xid_t of handler.h)

    The identifier of an XA transaction: a format, two lengths and 128 bytes of
    data.  The server makes its own identifiers of a prefix, its id and a number.
    A copy that reads or writes outside of the data is undefined. *)

From S2P Require Import Prelude ByteOrder.
From Stdlib Require Import ZArith Lia.
From stdpp Require Import base numbers option list.
Open Scope Z_scope.
Open Scope cint_scope.

Module Xid.

Definition XIDDATASIZE : Z := 128.
Definition MAXGTRIDSIZE : Z := 64.
Definition MAXBQUALSIZE : Z := 64.
(** "MySQLXid" *)
Definition MYSQL_XID_PREFIX : list Z := [77; 121; 83; 81; 76; 88; 105; 100].
Definition MYSQL_XID_PREFIX_LEN : Z := 8.

Record xid_t := Xid { formatID : Z; gtrid_length : Z; bqual_length : Z; data : list Z }.

(** [memcpy(to + p, from, n)] and the bytes [memcmp] and [memcpy] read. *)
Definition memcpy (to : list Z) (p : Z) (from : list Z) (n : Z) : option (list Z) :=
  if decide (0 ≤ p ∧ 0 ≤ n ∧ p + n ≤ Z.of_nat (length to) ∧ n ≤ Z.of_nat (length from))
  then Some (take (Z.to_nat p) to ++ take (Z.to_nat n) from ++ drop (Z.to_nat (p + n)) to) else None.
Definition bytes (m : list Z) (p n : Z) : option (list Z) :=
  if decide (0 ≤ p ∧ 0 ≤ n ∧ p + n ≤ Z.of_nat (length m)) then Some (take (Z.to_nat n) (drop (Z.to_nat p) m)) else None.
Definition memcmp_eq (a b : list Z) (n : Z) : option bool :=
  x ← bytes a 0 n; y ← bytes b 0 n; Some (bool_decide (x = y)).

Definition is_null (x : xid_t) : bool := bool_decide (formatID x = -1).
Definition null (x : xid_t) : xid_t := Xid (-1) (gtrid_length x) (bqual_length x) (data x).

Definition eq_parts (x : xid_t) (g b : Z) (d : list Z) : option bool :=
  if negb (is_null x) && bool_decide (g = gtrid_length x) && bool_decide (b = bqual_length x)
  then memcmp_eq d (data x) (g + b) else Some false.
Definition eq (x xid : xid_t) : option bool :=
  if negb (is_null xid) then eq_parts x (gtrid_length xid) (bqual_length xid) (data xid) else Some false.

Definition set_parts (x : xid_t) (f : Z) (g : list Z) (gl : Z) (b : list Z) (bl : Z) : option xid_t :=
  d ← memcpy (data x) 0 g gl; d ← memcpy d gl b bl; Some (Xid f gl bl d).
Definition set_gb (x : xid_t) (g b : Z) (d : list Z) : option xid_t :=
  d ← memcpy (data x) 0 d (g + b); Some (Xid 1 g b d).

(** [lw] is the width of [long], of which the three members and [server_id] are. *)
Section widths.
Context (lw : Z).

Definition sizeof_long : Z := lw / 8.
Definition MYSQL_XID_OFFSET : Z := MYSQL_XID_PREFIX_LEN + sizeof_long.
Definition MYSQL_XID_GTRID_LEN : Z := MYSQL_XID_OFFSET + 8.

Definition key_length (x : xid_t) : Z := u32 (2 * sizeof_long + gtrid_length x + bqual_length x).
Definition length (x : xid_t) : Z := u32 (sizeof_long + key_length x).

(** [memcpy(this, xid, xid->length())]: the three members come first. *)
Definition set_xid (x xid : xid_t) : option xid_t :=
  d ← memcpy (data x) 0 (data xid) (length xid - 3 * sizeof_long);
  Some (Xid (formatID xid) (gtrid_length xid) (bqual_length xid) d).

Definition set_my_xid (server_id : Z) (x : xid_t) (xid : Z) : option xid_t :=
  x ← set_gb (Xid 1 (gtrid_length x) (bqual_length x) (data x)) MYSQL_XID_PREFIX_LEN 0 MYSQL_XID_PREFIX;
  d ← memcpy (data x) MYSQL_XID_PREFIX_LEN (le_bytes (Z.to_nat sizeof_long) server_id) sizeof_long;
  let tmp := xid in
  d ← memcpy d MYSQL_XID_OFFSET (le_bytes 8 tmp) 8;
  Some (Xid (formatID x) MYSQL_XID_GTRID_LEN (bqual_length x) d).

Definition quick_get_my_xid (x : xid_t) : option Z := b ← bytes (data x) MYSQL_XID_OFFSET 8; Some (le_val b).
Definition get_my_xid (x : xid_t) : option Z :=
  if bool_decide (gtrid_length x = MYSQL_XID_GTRID_LEN) && bool_decide (bqual_length x = 0) then
    e ← memcmp_eq (data x) MYSQL_XID_PREFIX MYSQL_XID_PREFIX_LEN;
    if e : bool then quick_get_my_xid x else Some 0
  else Some 0.
End widths.

End Xid.

(** ** Lemmas *)

Section lemmas.
Import Xid.

(** An identifier whose lengths fit. *)
Definition xid_ok (x : xid_t) : Prop :=
  List.length (data x) = 128%nat ∧ 0 ≤ gtrid_length x ≤ 64 ∧ 0 ≤ bqual_length x ≤ 64.

Lemma xid_memcpy_spec to p from n : 0 ≤ p → 0 ≤ n → p + n ≤ Z.of_nat (List.length to) → n = Z.of_nat (List.length from) →
  memcpy to p from n = Some (take (Z.to_nat p) to ++ from ++ drop (Z.to_nat (p + n)) to).
Proof.
  intros. unfold memcpy. rewrite decide_True by lia. by rewrite (take_ge from) by lia.
Qed.

Lemma memcpy_length to p from n d : memcpy to p from n = Some d → List.length d = List.length to.
Proof.
  unfold memcpy. case_decide as H; intros [= <-]. rewrite !length_app, !length_take, length_drop. lia.
Qed.

(** What was copied is read back, and what lies before it is left. *)
Lemma memcpy_bytes to p from n d q k : memcpy to p from n = Some d → 0 ≤ q → 0 ≤ k → q + k ≤ p →
  bytes d q k = bytes to q k.
Proof.
  intros Hm Hq Hk Hp. pose proof (memcpy_length _ _ _ _ _ Hm) as Hl. unfold memcpy in Hm. case_decide as H; [|done].
  injection Hm as <-. unfold bytes. rewrite !decide_True by lia. f_equal.
  apply list_eq. intros i. rewrite !lookup_take. case_decide; [|done]. rewrite !lookup_drop.
  rewrite lookup_app_l by (rewrite length_take; lia). by rewrite lookup_take_lt by lia.
Qed.

Lemma memcpy_bytes_same to p from n d : memcpy to p from n = Some d → bytes d p n = Some (take (Z.to_nat n) from).
Proof.
  intros Hm. pose proof (memcpy_length _ _ _ _ _ Hm) as Hl. unfold memcpy in Hm. case_decide as H; [|done].
  injection Hm as <-. unfold bytes. rewrite decide_True by lia. f_equal.
  rewrite drop_app_length' by (rewrite length_take; lia). by rewrite take_app_length' by (rewrite length_take; lia).
Qed.

(** The part of the data that counts. *)
Definition payload (x : xid_t) : list Z := take (Z.to_nat (gtrid_length x + bqual_length x)) (data x).

Lemma memcmp_eq_take a b n : 0 ≤ n → n ≤ Z.of_nat (List.length a) → n ≤ Z.of_nat (List.length b) →
  memcmp_eq a b n = Some (bool_decide (take (Z.to_nat n) a = take (Z.to_nat n) b)).
Proof. intros. unfold memcmp_eq, bytes. rewrite !decide_True by lia. cbn. by rewrite !drop_0. Qed.

(** Two identifiers are equal when neither is null and their lengths and the data
    that counts agree. *)
Lemma eq_spec x y : xid_ok x → xid_ok y → eq x y = Some (bool_decide
  (formatID x ≠ -1 ∧ formatID y ≠ -1 ∧ gtrid_length x = gtrid_length y ∧ bqual_length x = bqual_length y ∧ payload x = payload y)).
Proof.
  intros (Hx & Hxg & Hxb) (Hy & Hyg & Hyb). unfold eq, eq_parts, is_null.
  destruct (decide (formatID y = -1)) as [E1|E1].
  { rewrite (bool_decide_true (formatID y = -1)) by done. cbn. by rewrite bool_decide_false by tauto. }
  rewrite (bool_decide_false (formatID y = -1)) by done. cbn [negb].
  destruct (decide (formatID x = -1)) as [E2|E2].
  { rewrite (bool_decide_true (formatID x = -1)) by done. cbn. by rewrite bool_decide_false by tauto. }
  rewrite (bool_decide_false (formatID x = -1)) by done. cbn [negb andb].
  destruct (decide (gtrid_length y = gtrid_length x)) as [E3|E3].
  2: { rewrite (bool_decide_false (gtrid_length y = _)) by done. cbn. rewrite bool_decide_false; [done|]. intros (_ & _ & ? & _). congruence. }
  rewrite (bool_decide_true (gtrid_length y = _)) by done. cbn [andb].
  destruct (decide (bqual_length y = bqual_length x)) as [E4|E4].
  2: { rewrite (bool_decide_false (bqual_length y = _)) by done. rewrite bool_decide_false; [done|]. intros (_ & _ & _ & ? & _). congruence. }
  rewrite (bool_decide_true (bqual_length y = _)) by done. rewrite memcmp_eq_take by lia. f_equal. unfold payload. rewrite <- E3, <- E4.
  apply bool_decide_ext. split; [intros ->; auto|intros (_ & _ & _ & _ & ->); done].
Qed.
End lemmas.

(** ** Properties *)

Section properties.
Import Xid.

(** The identifier made of a number of 64 bits holds that number: [get_my_xid]
    recognizes the prefix and the lengths and returns it, for both widths of
    [long], and the result is not null. *)
Theorem my_xid_roundtrip (lw server_id : Z) (x : xid_t) (xid : Z) :
  lw = 32 ∨ lw = 64 → List.length (data x) = 128%nat → 0 ≤ xid < 2 ^ 64 →
  ∃ x', set_my_xid lw server_id x xid = Some x' ∧ get_my_xid lw x' = Some xid ∧ quick_get_my_xid lw x' = Some xid ∧
    is_null x' = false ∧ xid_ok x'.
Proof.
  intros Hlw Hd Hx. assert (sizeof_long lw = 4 ∨ sizeof_long lw = 8) as Hs by (destruct Hlw as [-> | ->]; [by left|by right]).
  unfold set_my_xid, set_gb, MYSQL_XID_PREFIX_LEN, MYSQL_XID_GTRID_LEN, MYSQL_XID_OFFSET, MYSQL_XID_PREFIX_LEN. cbn [data].
  rewrite (xid_memcpy_spec (data x) 0) by (try lia; done). cbn [mbind option_bind data formatID bqual_length].
  set (d1 := _ ++ _ ++ _). assert (memcpy (data x) 0 MYSQL_XID_PREFIX (8 + 0) = Some d1) as H1 by (apply xid_memcpy_spec; try lia; done).
  pose proof (memcpy_length _ _ _ _ _ H1) as L1.
  assert (∃ d2, memcpy d1 8 (le_bytes (Z.to_nat (sizeof_long lw)) server_id) (sizeof_long lw) = Some d2) as [d2 H2]
    by (eexists; apply xid_memcpy_spec; rewrite ?length_le_bytes; lia).
  rewrite H2. cbn [mbind option_bind]. pose proof (memcpy_length _ _ _ _ _ H2) as L2.
  assert (∃ d3, memcpy d2 (8 + sizeof_long lw) (le_bytes 8 xid) 8 = Some d3) as [d3 H3]
    by (eexists; apply xid_memcpy_spec; rewrite ?length_le_bytes; lia).
  rewrite H3. cbn [mbind option_bind]. pose proof (memcpy_length _ _ _ _ _ H3) as L3.
  eexists. split; [reflexivity|].
  assert (quick_get_my_xid lw (Xid 1 (8 + sizeof_long lw + 8) 0 d3) = Some xid) as Hq.
  { unfold quick_get_my_xid, MYSQL_XID_OFFSET, MYSQL_XID_PREFIX_LEN. cbn [data]. rewrite (memcpy_bytes_same _ _ _ _ _ H3). cbn [mbind option_bind].
    rewrite take_ge by (rewrite length_le_bytes; done). rewrite le_val_bytes. by rewrite Z.mod_small by (cbn; lia). }
  assert (memcmp_eq d3 MYSQL_XID_PREFIX 8 = Some true) as Hp.
  { unfold memcmp_eq. rewrite (memcpy_bytes _ _ _ _ _ 0 8 H3), (memcpy_bytes _ _ _ _ _ 0 8 H2) by lia.
    change (bytes d1 0 8) with (bytes d1 0 (8 + 0)). rewrite (memcpy_bytes_same _ _ _ _ _ H1). reflexivity. }
  split_and!; [|exact Hq|done|unfold xid_ok; cbn; lia].
  unfold get_my_xid, MYSQL_XID_GTRID_LEN, MYSQL_XID_OFFSET, MYSQL_XID_PREFIX_LEN. cbn [gtrid_length bqual_length data].
  rewrite !bool_decide_true by done. cbn [andb]. rewrite Hp. exact Hq.
Qed.

Lemma my_xid_roundtrip_witness :
  ∃ x', set_my_xid 32 7 (Xid (-1) 0 0 (replicate 128 0)) 123456789012 = Some x' ∧ get_my_xid 32 x' = Some 123456789012.
Proof.
  destruct (my_xid_roundtrip 32 7 (Xid (-1) 0 0 (replicate 128 0)) 123456789012) as (x' & H1 & H2 & _);
    [by left|reflexivity|lia|]. exists x'. split; [exact H1|exact H2].
Defined.

(** A copy of an identifier within the limits is equal to it in both directions
    when it is not null, and to nothing when it is. *)
Theorem xid_copy_equal (lw : Z) (x y : xid_t) :
  lw = 32 ∨ lw = 64 → xid_ok x → xid_ok y →
  ∃ x', set_xid lw x y = Some x' ∧ xid_ok x' ∧
    eq x' y = Some (negb (is_null y)) ∧ eq y x' = Some (negb (is_null y)) ∧ is_null x' = is_null y.
Proof.
  intros Hlw Hx Hy. pose proof Hx as (Hxd & Hxg & Hxb). pose proof Hy as (Hyd & Hyg & Hyb).
  assert (sizeof_long lw = 4 ∨ sizeof_long lw = 8) as Hs by (destruct Hlw as [-> | ->]; [by left|by right]).
  unfold set_xid. assert (length lw y - 3 * sizeof_long lw = gtrid_length y + bqual_length y) as ->.
  { unfold length, key_length. rewrite !(wrapu_small 32) by (rewrite ?(wrapu_small 32); unfold in_u; lia). lia. }
  assert (∃ d, memcpy (data x) 0 (data y) (gtrid_length y + bqual_length y) = Some d) as [d Hm]
    by (unfold memcpy; rewrite decide_True by lia; by eexists).
  rewrite Hm. cbn [mbind option_bind]. eexists. split; [reflexivity|]. set (x' := Xid _ _ _ _).
  assert (xid_ok x') as Hx' by (unfold xid_ok; cbn; rewrite (memcpy_length _ _ _ _ _ Hm); done).
  assert (payload x' = payload y) as Hp.
  { pose proof (memcpy_bytes_same _ _ _ _ _ Hm) as Hb. unfold bytes in Hb. case_decide; [|done]. rewrite drop_0 in Hb.
    injection Hb as Hb. exact Hb. }
  split; [done|]. rewrite !eq_spec by done. unfold is_null. cbn [formatID x'].
  destruct (decide (formatID y = -1)) as [E|E].
  - rewrite !(bool_decide_true (formatID y = -1)) by done. rewrite !bool_decide_false by tauto. done.
  - rewrite !(bool_decide_false (formatID y = -1)) by done. by rewrite !bool_decide_true by done.
Qed.

Lemma xid_copy_equal_witness :
  let y := Xid 7 2 1 ([1; 2; 3] ++ replicate 125 9) in
  ∃ x', set_xid 64 (Xid (-1) 0 0 (replicate 128 0)) y = Some x' ∧ eq x' y = Some true.
Proof.
  intros y. destruct (xid_copy_equal 64 (Xid (-1) 0 0 (replicate 128 0)) y) as (x' & H1 & _ & H2 & _);
    [by right|unfold xid_ok; cbn; lia|unfold xid_ok; cbn; lia|]. exists x'. split; [exact H1|exact H2].
Defined.
End properties.
