(* ===== verification/BinlogFlags.v ===== *)
(** * Statement flags for the binary log (Query_tables_list of sql_lex.h)

    The kinds of unsafeness of a statement, whether it is a row injection, and the
    kinds of tables it accesses, as the bits of two 32-bit members; and whether a
    statement that mixes kinds of tables is unsafe.  The specification is a pair
    of sets and a truth value. *)

From S2P Require Import Prelude.
From Stdlib Require Import ZArith Lia.
From stdpp Require Import base numbers option list sets gmap.
Open Scope Z_scope.
Open Scope cint_scope.

Module BinlogFlags.

(** The kinds of unsafeness by their numbers, of which there are 20. *)
Definition BINLOG_STMT_UNSAFE_LIMIT : Z := 0.
Definition BINLOG_STMT_UNSAFE_INSERT_DELAYED : Z := 1.
Definition BINLOG_STMT_UNSAFE_SYSTEM_TABLE : Z := 2.
Definition BINLOG_STMT_UNSAFE_AUTOINC_COLUMNS : Z := 3.
Definition BINLOG_STMT_UNSAFE_UDF : Z := 4.
Definition BINLOG_STMT_UNSAFE_SYSTEM_VARIABLE : Z := 5.
Definition BINLOG_STMT_UNSAFE_SYSTEM_FUNCTION : Z := 6.
Definition BINLOG_STMT_UNSAFE_NONTRANS_AFTER_TRANS : Z := 7.
Definition BINLOG_STMT_UNSAFE_MULTIPLE_ENGINES_AND_SELF_LOGGING_ENGINE : Z := 8.
Definition BINLOG_STMT_UNSAFE_MIXED_STATEMENT : Z := 9.
Definition BINLOG_STMT_UNSAFE_INSERT_IGNORE_SELECT : Z := 10.
Definition BINLOG_STMT_UNSAFE_INSERT_SELECT_UPDATE : Z := 11.
Definition BINLOG_STMT_UNSAFE_WRITE_AUTOINC_SELECT : Z := 12.
Definition BINLOG_STMT_UNSAFE_REPLACE_SELECT : Z := 13.
Definition BINLOG_STMT_UNSAFE_CREATE_IGNORE_SELECT : Z := 14.
Definition BINLOG_STMT_UNSAFE_CREATE_REPLACE_SELECT : Z := 15.
Definition BINLOG_STMT_UNSAFE_CREATE_SELECT_AUTOINC : Z := 16.
Definition BINLOG_STMT_UNSAFE_UPDATE_IGNORE : Z := 17.
Definition BINLOG_STMT_UNSAFE_INSERT_TWO_KEYS : Z := 18.
Definition BINLOG_STMT_UNSAFE_AUTOINC_NOT_FIRST : Z := 19.
Definition BINLOG_STMT_UNSAFE_COUNT : Z := 20.
Definition BINLOG_STMT_UNSAFE_ALL_FLAGS : Z := u32 ((1 ≪ BINLOG_STMT_UNSAFE_COUNT) - 1).
Definition BINLOG_STMT_TYPE_ROW_INJECTION : Z := 0.

Definition STMT_READS_TRANS_TABLE : Z := 0.
Definition STMT_READS_NON_TRANS_TABLE : Z := 1.
Definition STMT_READS_TEMP_TRANS_TABLE : Z := 2.
Definition STMT_READS_TEMP_NON_TRANS_TABLE : Z := 3.
Definition STMT_WRITES_TRANS_TABLE : Z := 4.
Definition STMT_WRITES_NON_TRANS_TABLE : Z := 5.
Definition STMT_WRITES_TEMP_TRANS_TABLE : Z := 6.
Definition STMT_WRITES_TEMP_NON_TRANS_TABLE : Z := 7.
Definition STMT_ACCESS_TABLE_COUNT : Z := 8.

Record Query_tables_list := Qtl { binlog_stmt_flags : Z; stmt_accessed_table_flag : Z }.

Definition get_stmt_unsafe_flags (q : Query_tables_list) : Z := binlog_stmt_flags q .& BINLOG_STMT_UNSAFE_ALL_FLAGS.
Definition is_stmt_unsafe (q : Query_tables_list) : bool := bool_decide (get_stmt_unsafe_flags q ≠ 0).
Definition is_stmt_unsafe_type (q : Query_tables_list) (unsafe : Z) : bool := bool_decide (binlog_stmt_flags q .& (1 ≪ unsafe) ≠ 0).

Definition with_flags (q : Query_tables_list) (f : Z) : Query_tables_list := Qtl f (stmt_accessed_table_flag q).
Definition set_stmt_unsafe (q : Query_tables_list) (unsafe_type : Z) : option Query_tables_list :=
  if decide (0 ≤ unsafe_type < BINLOG_STMT_UNSAFE_COUNT)
  then Some (with_flags q (binlog_stmt_flags q .| u32 (1 ≪ unsafe_type))) else None.
Definition set_stmt_unsafe_flags (q : Query_tables_list) (flags : Z) : option Query_tables_list :=
  if decide (flags .& u32 (Z.lnot BINLOG_STMT_UNSAFE_ALL_FLAGS) = 0)
  then Some (with_flags q (binlog_stmt_flags q .| flags)) else None.
Definition clear_stmt_unsafe (q : Query_tables_list) : Query_tables_list :=
  with_flags q (binlog_stmt_flags q .& u32 (Z.lnot BINLOG_STMT_UNSAFE_ALL_FLAGS)).

Definition row_injection_bit : Z := u32 (1 ≪ (BINLOG_STMT_UNSAFE_COUNT + BINLOG_STMT_TYPE_ROW_INJECTION)).
Definition is_stmt_row_injection (q : Query_tables_list) : bool := bool_decide (binlog_stmt_flags q .& row_injection_bit ≠ 0).
Definition set_stmt_row_injection (q : Query_tables_list) : Query_tables_list := with_flags q (binlog_stmt_flags q .| row_injection_bit).

Definition set_stmt_accessed_table (q : Query_tables_list) (accessed_table : Z) : option Query_tables_list :=
  if decide (0 ≤ accessed_table < STMT_ACCESS_TABLE_COUNT)
  then Some (Qtl (binlog_stmt_flags q) (stmt_accessed_table_flag q .| u32 (1 ≪ accessed_table))) else None.
Definition stmt_accessed_table (q : Query_tables_list) (accessed_table : Z) : option bool :=
  if decide (0 ≤ accessed_table < STMT_ACCESS_TABLE_COUNT)
  then Some (bool_decide (stmt_accessed_table_flag q .& u32 (1 ≪ accessed_table) ≠ 0)) else None.
Definition stmt_accessed_non_trans_temp_table (q : Query_tables_list) : bool :=
  bool_decide (stmt_accessed_table_flag q .&
    (u32 (1 ≪ STMT_READS_TEMP_NON_TRANS_TABLE) .| u32 (1 ≪ STMT_WRITES_TEMP_NON_TRANS_TABLE)) ≠ 0).

Definition BINLOG_DIRECT_ON : Z := 240.
Definition BINLOG_DIRECT_OFF : Z := 15.
Definition TRX_CACHE_EMPTY : Z := 51.
Definition TRX_CACHE_NOT_EMPTY : Z := 204.
Definition IL_LT_REPEATABLE : Z := 170.
Definition IL_GTE_REPEATABLE : Z := 85.
Definition ISO_REPEATABLE_READ : Z := 2.

Definition condition (binlog_direct trx_cache_is_not_empty : bool) (tx_isolation : Z) : Z :=
  (if binlog_direct then BINLOG_DIRECT_ON else BINLOG_DIRECT_OFF) .&
  (if trx_cache_is_not_empty then TRX_CACHE_NOT_EMPTY else TRX_CACHE_EMPTY) .&
  (if decide (ISO_REPEATABLE_READ ≤ tx_isolation) then IL_GTE_REPEATABLE else IL_LT_REPEATABLE).

(** [binlog_unsafe_map] is a table defined elsewhere, indexed by the kinds of
    tables accessed. *)
Definition is_mixed_stmt_unsafe (binlog_unsafe_map : list Z) (q : Query_tables_list)
    (in_multi_stmt_transaction_mode binlog_direct trx_cache_is_not_empty : bool) (tx_isolation : Z) : option bool :=
  unsafe ← (if in_multi_stmt_transaction_mode then
              m ← binlog_unsafe_map !! Z.to_nat (stmt_accessed_table_flag q);
              Some (bool_decide (m .& condition binlog_direct trx_cache_is_not_empty tx_isolation ≠ 0))
            else Some false);
  wn ← stmt_accessed_table q STMT_WRITES_NON_TRANS_TABLE;
  wt ← stmt_accessed_table q STMT_WRITES_TEMP_NON_TRANS_TABLE;
  rt ← stmt_accessed_table q STMT_READS_TRANS_TABLE;
  Some (if wn && rt && bool_decide (tx_isolation < ISO_REPEATABLE_READ) then true
        else if wt && rt && bool_decide (tx_isolation < ISO_REPEATABLE_READ) then true
        else unsafe).

End BinlogFlags.

(** ** Sets of kinds *)

Section sets.
Import BinlogFlags.

Record kinds := Kinds { unsafe_kinds : gset Z; injection : bool; accessed : gset Z }.

Inductive op :=
| SetUnsafe (k : Z) | SetUnsafeFlags (f : Z) | ClearUnsafe | SetInjection | SetAccessed (k : Z)
| IsUnsafe | IsUnsafeType (k : Z) | IsInjection | Accessed (k : Z) | AccessedTemp.

Definition exec (q : Query_tables_list) (o : op) : option (Query_tables_list * option bool) :=
  match o with
  | SetUnsafe k => q ← set_stmt_unsafe q k; Some (q, None)
  | SetUnsafeFlags f => q ← set_stmt_unsafe_flags q f; Some (q, None)
  | ClearUnsafe => Some (clear_stmt_unsafe q, None)
  | SetInjection => Some (set_stmt_row_injection q, None)
  | SetAccessed k => q ← set_stmt_accessed_table q k; Some (q, None)
  | IsUnsafe => Some (q, Some (is_stmt_unsafe q))
  | IsUnsafeType k => Some (q, Some (is_stmt_unsafe_type q k))
  | IsInjection => Some (q, Some (is_stmt_row_injection q))
  | Accessed k => b ← stmt_accessed_table q k; Some (q, Some b)
  | AccessedTemp => Some (q, Some (stmt_accessed_non_trans_temp_table q))
  end.

Definition kind_numbers : list Z := Z.of_nat <$> seq 0 20.
Definition kinds_of_flags (f : Z) : gset Z := list_to_set (filter (λ k, Z.testbit f k = true) kind_numbers).

Definition spec (z : kinds) (o : op) : option (kinds * option bool) :=
  match o with
  | SetUnsafe k => if decide (0 ≤ k < 20) then Some (Kinds ({[k]} ∪ unsafe_kinds z) (injection z) (accessed z), None) else None
  | SetUnsafeFlags f =>
      if decide (0 ≤ f < 2 ^ 20) then Some (Kinds (kinds_of_flags f ∪ unsafe_kinds z) (injection z) (accessed z), None) else None
  | ClearUnsafe => Some (Kinds ∅ (injection z) (accessed z), None)
  | SetInjection => Some (Kinds (unsafe_kinds z) true (accessed z), None)
  | SetAccessed k => if decide (0 ≤ k < 8) then Some (Kinds (unsafe_kinds z) (injection z) ({[k]} ∪ accessed z), None) else None
  | IsUnsafe => Some (z, Some (bool_decide (unsafe_kinds z ≠ ∅)))
  | IsUnsafeType k => if decide (0 ≤ k < 20) then Some (z, Some (bool_decide (k ∈ unsafe_kinds z))) else None
  | IsInjection => Some (z, Some (injection z))
  | Accessed k => if decide (0 ≤ k < 8) then Some (z, Some (bool_decide (k ∈ accessed z))) else None
  | AccessedTemp => Some (z, Some (bool_decide (3 ∈ accessed z ∨ 7 ∈ accessed z)))
  end.

Definition run {S} (step : S → op → option (S * option bool)) : S → list op → option (S * list (option bool)) :=
  fix go s os := match os with
  | [] => Some (s, [])
  | o :: os => '(s, r) ← step s o; '(s, rs) ← go s os; Some (s, r :: rs)
  end.

(** Bit by bit. *)
Record flags_ok (q : Query_tables_list) (z : kinds) : Prop := {
  fo_unsafe : ∀ k, 0 ≤ k → Z.testbit (binlog_stmt_flags q) k =
    if decide (k = 20) then injection z else bool_decide (k ∈ unsafe_kinds z);
  fo_kinds : ∀ k, k ∈ unsafe_kinds z → 0 ≤ k < 20;
  fo_accessed : ∀ k, 0 ≤ k → Z.testbit (stmt_accessed_table_flag q) k = bool_decide (k ∈ accessed z);
  fo_tables : ∀ k, k ∈ accessed z → 0 ≤ k < 8 }.

Lemma bit_set k i : 0 ≤ k < 32 → 0 ≤ i → Z.testbit (u32 (1 ≪ k)) i = bool_decide (i = k).
Proof.
  intros Hk Hi. rewrite wrapu_testbit, Z.shiftl_1_l, Z.pow2_bits_eqb by lia.
  destruct (decide (i = k)) as [->|Hne]; [by rewrite Z.eqb_refl, !bool_decide_true by lia|].
  by rewrite (bool_decide_false (i = k)), (proj2 (Z.eqb_neq k i)), andb_false_r by lia.
Qed.

Lemma flag_bit_ne f k : 0 ≤ k < 32 → bool_decide (f .& u32 (1 ≪ k) ≠ 0) = Z.testbit f k.
Proof.
  intros Hk. destruct (Z.testbit f k) eqn:E.
  - apply bool_decide_true. intros H0. apply (f_equal (λ z, Z.testbit z k)) in H0. rewrite Z.land_spec, bit_set, E, Z.bits_0 in H0 by lia.
    by rewrite bool_decide_true in H0.
  - apply bool_decide_false. intros Hn. apply Hn. zbits i. rewrite Z.land_spec, bit_set, Z.bits_0 by lia.
    case_bool_decide; [subst; by rewrite E|by rewrite andb_false_r].
Qed.

Lemma all_flags_bit i : 0 ≤ i → Z.testbit BINLOG_STMT_UNSAFE_ALL_FLAGS i = bool_decide (i < 20).
Proof.
  intros Hi. change BINLOG_STMT_UNSAFE_ALL_FLAGS with (Z.ones 20). case_bool_decide; [apply Z.ones_spec_low; lia|apply Z.ones_spec_high; lia].
Qed.

Lemma not_all_flags_bit i : 0 ≤ i → Z.testbit (u32 (Z.lnot BINLOG_STMT_UNSAFE_ALL_FLAGS)) i = bool_decide (20 ≤ i < 32).
Proof.
  intros Hi. rewrite wrapu_testbit, Z.lnot_spec, all_flags_bit by lia. by repeat case_bool_decide; try lia.
Qed.

Lemma shift_small k : 0 ≤ k < 32 → u32 (1 ≪ k) = 1 ≪ k.
Proof.
  intros Hk. apply wrapu_small. rewrite Z.shiftl_1_l. unfold in_u. split; [apply Z.pow_nonneg; lia|]. apply Z.pow_lt_mono_r; lia.
Qed.

Lemma kinds_of_flags_bit f k : 0 ≤ f < 2 ^ 20 → 0 ≤ k → Z.testbit f k = bool_decide (k ∈ kinds_of_flags f).
Proof.
  intros Hf Hk. symmetry. destruct (Z.testbit f k) eqn:E.
  - apply bool_decide_true. unfold kinds_of_flags. rewrite elem_of_list_to_set, list_elem_of_filter. split; [done|].
    unfold kind_numbers. rewrite list_elem_of_fmap. exists (Z.to_nat k). split; [lia|]. apply elem_of_seq.
    destruct (decide (k < 20)); [lia|]. rewrite (Z.bits_above_log2 f k) in E; [done|lia|].
    destruct (decide (f = 0)) as [->|]; [cbn; lia|]. apply Z.lt_le_trans with 20; [|lia]. apply Z.log2_lt_pow2; lia.
  - apply bool_decide_false. unfold kinds_of_flags. rewrite elem_of_list_to_set, list_elem_of_filter. intros [? _]. congruence.
Qed.

Lemma kinds_of_flags_range f k : k ∈ kinds_of_flags f → 0 ≤ k < 20.
Proof.
  unfold kinds_of_flags, kind_numbers. rewrite elem_of_list_to_set, list_elem_of_filter, list_elem_of_fmap.
  intros [_ (n & -> & Hn%elem_of_seq)]. lia.
Qed.

Lemma unsafe_flags_in_range f : 0 ≤ f < 2 ^ 20 → f .& u32 (Z.lnot BINLOG_STMT_UNSAFE_ALL_FLAGS) = 0.
Proof.
  intros Hf. zbits i. rewrite Z.land_spec, not_all_flags_bit, Z.bits_0 by lia. case_bool_decide; [|by rewrite andb_false_r].
  rewrite andb_true_r. rewrite (kinds_of_flags_bit f i) by lia. apply bool_decide_false. intros Hin%kinds_of_flags_range. lia.
Qed.

Lemma union_bit (i : Z) (X Y : gset Z) : bool_decide (i ∈ X ∪ Y) = bool_decide (i ∈ X) || bool_decide (i ∈ Y).
Proof. rewrite <- bool_decide_or. apply bool_decide_ext, elem_of_union. Qed.
Lemma bool_decide_in_singleton (i k : Z) : bool_decide (i ∈@{gset Z} {[k]}) = bool_decide (i = k).
Proof. apply bool_decide_ext, elem_of_singleton. Qed.
Lemma union_range (k n : Z) (X : gset Z) : 0 ≤ k < n → (∀ j, j ∈ X → 0 ≤ j < n) → ∀ j, j ∈@{gset Z} {[k]} ∪ X → 0 ≤ j < n.
Proof. intros Hk HX j [->%elem_of_singleton|Hj]%elem_of_union; [done|by apply HX]. Qed.

Lemma bool_decide_iff (P Q : Prop) `{Decision P, Decision Q} : bool_decide P = bool_decide Q → P ↔ Q.
Proof. intros E. by rewrite <- (bool_decide_eq_true P), E, bool_decide_eq_true. Qed.

(** The three groups of flags. *)
Lemma unsafe_nonzero q z : flags_ok q z → is_stmt_unsafe q = bool_decide (unsafe_kinds z ≠ ∅).
Proof.
  intros Hok. unfold is_stmt_unsafe, get_stmt_unsafe_flags. apply bool_decide_ext. split; intros Hn He; apply Hn.
  - zbits i. rewrite Z.land_spec, all_flags_bit, (fo_unsafe q z Hok), Z.bits_0, He by lia.
    case_decide; [by rewrite (bool_decide_false (i < 20)), andb_false_r by lia|]. by rewrite bool_decide_false by set_solver.
  - apply leibniz_equiv. apply elem_of_equiv_empty. intros k Hk. pose proof (fo_kinds q z Hok k Hk) as Hr.
    apply (f_equal (λ v, Z.testbit v k)) in He. rewrite Z.land_spec, all_flags_bit, (fo_unsafe q z Hok), Z.bits_0 in He by lia.
    rewrite decide_False, !bool_decide_true in He by lia || done. done.
Qed.

Lemma op_flags q z o z' r : flags_ok q z → spec z o = Some (z', r) → ∃ q', exec q o = Some (q', r) ∧ flags_ok q' z'.
Proof.
  intros Hok. pose proof Hok as [Hu Hk Ha Ht]. destruct o as [k|f| | |k| |k| |k|]; cbn [spec exec].
  - case_decide as Hd; [|done]. intros [= <- <-]. unfold set_stmt_unsafe, BINLOG_STMT_UNSAFE_COUNT. rewrite decide_True by done.
    eexists. split; [reflexivity|]. constructor; cbn [binlog_stmt_flags stmt_accessed_table_flag unsafe_kinds injection accessed with_flags
      clear_stmt_unsafe set_stmt_row_injection]; [|by apply union_range|done|done].
    intros i Hi. rewrite Z.lor_spec, Hu, bit_set by lia. case_decide; [subst; by rewrite bool_decide_false, orb_false_r by lia|].
    by rewrite union_bit, orb_comm, bool_decide_in_singleton.
  - case_decide as Hd; [|done]. intros [= <- <-]. unfold set_stmt_unsafe_flags. rewrite decide_True by (by apply unsafe_flags_in_range).
    eexists. split; [reflexivity|]. constructor; cbn [binlog_stmt_flags stmt_accessed_table_flag unsafe_kinds injection accessed with_flags
      clear_stmt_unsafe set_stmt_row_injection]; [|intros j [Hj|Hj]%elem_of_union; [by eapply kinds_of_flags_range|by apply Hk]|done|done].
    intros i Hi. rewrite Z.lor_spec, Hu, (kinds_of_flags_bit f) by lia.
    case_decide; [rewrite (bool_decide_false (i ∈ kinds_of_flags f)), orb_false_r; [done|intros Hin; apply kinds_of_flags_range in Hin; lia]|].
    by rewrite union_bit, orb_comm.
  - intros [= <- <-]. eexists. split; [reflexivity|]. constructor; cbn [binlog_stmt_flags stmt_accessed_table_flag unsafe_kinds injection accessed with_flags
      clear_stmt_unsafe set_stmt_row_injection]; [|set_solver|done|done].
    intros i Hi. rewrite Z.land_spec, Hu, not_all_flags_bit by lia. case_decide; [by rewrite bool_decide_true, andb_true_r by lia|].
    rewrite (bool_decide_false (i ∈ ∅)) by set_solver. destruct (decide (i ∈ unsafe_kinds z)) as [Hin|Hin].
    + apply Hk in Hin. by rewrite (bool_decide_false (20 ≤ i < 32)), andb_false_r by lia.
    + by rewrite (bool_decide_false (i ∈ unsafe_kinds z)) by done.
  - intros [= <- <-]. eexists. split; [reflexivity|]. constructor; cbn [binlog_stmt_flags stmt_accessed_table_flag unsafe_kinds injection accessed with_flags
      clear_stmt_unsafe set_stmt_row_injection]; [|done..].
    intros i Hi. rewrite Z.lor_spec, Hu by lia. unfold row_injection_bit, BINLOG_STMT_UNSAFE_COUNT, BINLOG_STMT_TYPE_ROW_INJECTION.
    rewrite bit_set by lia. case_decide; [by rewrite bool_decide_true, orb_true_r by lia|]. by rewrite (bool_decide_false (i = _)), orb_false_r by lia.
  - case_decide as Hd; [|done]. intros [= <- <-]. unfold set_stmt_accessed_table, STMT_ACCESS_TABLE_COUNT. rewrite decide_True by done.
    eexists. split; [reflexivity|]. constructor; cbn [binlog_stmt_flags stmt_accessed_table_flag unsafe_kinds injection accessed with_flags
      clear_stmt_unsafe set_stmt_row_injection]; [done|done| |by apply union_range].
    intros i Hi. rewrite Z.lor_spec, Ha, bit_set by lia. by rewrite union_bit, orb_comm, bool_decide_in_singleton.
  - intros [= <- <-]. exists q. by rewrite (unsafe_nonzero q z Hok).
  - case_decide as Hd; [|done]. intros [= <- <-]. exists q. unfold is_stmt_unsafe_type. rewrite <- shift_small, flag_bit_ne, Hu by lia.
    by rewrite decide_False by lia.
  - intros [= <- <-]. exists q. unfold is_stmt_row_injection, row_injection_bit, BINLOG_STMT_UNSAFE_COUNT, BINLOG_STMT_TYPE_ROW_INJECTION.
    rewrite flag_bit_ne, Hu by lia. by rewrite decide_True by lia.
  - case_decide as Hd; [|done]. intros [= <- <-]. exists q. unfold stmt_accessed_table, STMT_ACCESS_TABLE_COUNT. rewrite decide_True by done.
    by rewrite flag_bit_ne, Ha by lia.
  - intros [= <- <-]. exists q. split; [|done]. unfold stmt_accessed_non_trans_temp_table, STMT_READS_TEMP_NON_TRANS_TABLE, STMT_WRITES_TEMP_NON_TRANS_TABLE.
    rewrite Z.land_lor_distr_r. do 3 f_equal. pose proof (flag_bit_ne (stmt_accessed_table_flag q) 3 ltac:(lia)) as H3.
    pose proof (flag_bit_ne (stmt_accessed_table_flag q) 7 ltac:(lia)) as H7. rewrite Ha in H3, H7 by lia.
    apply bool_decide_ext. rewrite Z.lor_eq_0_iff. apply bool_decide_iff in H3, H7.
    destruct (decide (stmt_accessed_table_flag q .& u32 (1 ≪ 3) = 0)); tauto.
Qed.

Lemma run_flags os : ∀ q z z' rs, flags_ok q z → run spec z os = Some (z', rs) →
  ∃ q', run exec q os = Some (q', rs) ∧ flags_ok q' z'.
Proof.
  induction os as [|o os IH]; intros q z z' rs Hok; cbn; [intros [= <- <-]; by exists q|].
  destruct (spec z o) as [[z1 r]|] eqn:Eo; [|done]. cbn. fold (run spec) (run exec).
  destruct (run spec z1 os) as [[z2 rs2]|] eqn:Eos; [|done]. cbn. intros [= <- <-].
  destruct (op_flags q z o z1 r Hok Eo) as (q1 & -> & Hok1). cbn.
  destruct (IH q1 z1 z2 rs2 Hok1 Eos) as (q2 & -> & Hok2). by exists q2.
Qed.
End sets.

(** ** Properties *)

Section properties.
Import BinlogFlags.

(** Every history of marks and questions, with kinds in their ranges, returns
    what it returns for two sets and a truth value: the kinds of unsafeness, the
    mark of row injections and the kinds of tables do not disturb each other,
    marking the statement as safe clears the first and nothing else. *)
Theorem binlog_flags_refine_sets (q : Query_tables_list) (z z' : kinds) (os : list op) (rs : list (option bool)) :
  flags_ok q z → run spec z os = Some (z', rs) → ∃ q', run exec q os = Some (q', rs) ∧ flags_ok q' z'.
Proof. apply run_flags. Qed.

Lemma binlog_flags_refine_sets_witness :
  ∃ q', run exec (Qtl 0 0) [SetUnsafe 19; SetInjection; SetAccessed 7; IsUnsafe; ClearUnsafe; IsUnsafe; IsInjection; AccessedTemp; Accessed 5]
    = Some (q', [None; None; None; Some true; None; Some false; Some true; Some true; Some false]).
Proof.
  destruct (binlog_flags_refine_sets (Qtl 0 0) (Kinds ∅ false ∅) (Kinds ∅ true ({[7]} ∪ ∅))
    [SetUnsafe 19; SetInjection; SetAccessed 7; IsUnsafe; ClearUnsafe; IsUnsafe; IsInjection; AccessedTemp; Accessed 5]
    [None; None; None; Some true; None; Some false; Some true; Some true; Some false]) as (q' & H & _).
  - constructor; cbn [unsafe_kinds accessed injection binlog_stmt_flags stmt_accessed_table_flag]; try set_solver.
    + intros k _. rewrite Z.bits_0. case_decide; [done|]. by rewrite bool_decide_false by set_solver.
    + intros k _. rewrite Z.bits_0. by rewrite bool_decide_false by set_solver.
  - vm_compute. reflexivity.
  - exists q'. exact H.
Defined.

(** The three settings select one of the eight bits of an entry of the table, a
    different one for each; a statement is unsafe when, in a transaction of
    several statements, that bit of the entry of the tables it accesses is set, or
    when it writes to a table that is not transactional, temporary or not, after
    reading a transactional one below the isolation level of repeatable reads. *)
Theorem mixed_statement_condition (binlog_unsafe_map : list Z) (q : Query_tables_list) (z : kinds) (multi direct cache : bool) (iso entry : Z) :
  flags_ok q z → binlog_unsafe_map !! Z.to_nat (stmt_accessed_table_flag q) = Some entry →
  is_mixed_stmt_unsafe binlog_unsafe_map q multi direct cache iso =
    Some (multi && Z.testbit entry (4 * b2z direct + 2 * b2z cache + (if decide (iso < ISO_REPEATABLE_READ) then 1 else 0)) ||
          bool_decide ((STMT_WRITES_NON_TRANS_TABLE ∈ accessed z ∨ STMT_WRITES_TEMP_NON_TRANS_TABLE ∈ accessed z) ∧
                       STMT_READS_TRANS_TABLE ∈ accessed z ∧ iso < ISO_REPEATABLE_READ)).
Proof.
  intros Hok Hm. unfold is_mixed_stmt_unsafe. rewrite Hm.
  assert (∀ k, 0 ≤ k < 8 → stmt_accessed_table q k = Some (bool_decide (k ∈ accessed z))) as Hacc.
  { intros k Hk. unfold stmt_accessed_table, STMT_ACCESS_TABLE_COUNT. rewrite decide_True by done.
    by rewrite flag_bit_ne, (fo_accessed q z Hok) by lia. }
  assert (bool_decide (entry .& condition direct cache iso ≠ 0) =
    Z.testbit entry (4 * b2z direct + 2 * b2z cache + (if decide (iso < ISO_REPEATABLE_READ) then 1 else 0))) as Hbit.
  { unfold condition, ISO_REPEATABLE_READ. destruct (decide (2 ≤ iso)), (decide (iso < 2)); try lia; destruct direct, cache;
      match goal with |- bool_decide (_ .& ?c ≠ 0) = Z.testbit _ ?k => rewrite <- (flag_bit_ne entry k) by (cbn; lia) end; reflexivity. }
  rewrite !Hacc by (unfold STMT_WRITES_NON_TRANS_TABLE, STMT_WRITES_TEMP_NON_TRANS_TABLE, STMT_READS_TRANS_TABLE; lia).
  set (t := Z.testbit _ _) in *. destruct multi; cbn [mbind option_bind andb orb]; rewrite ?Hbit; f_equal;
    repeat case_bool_decide; cbn; try tauto; try (by rewrite orb_true_r); try (by rewrite orb_false_r).
Qed.

Lemma mixed_statement_condition_witness :
  is_mixed_stmt_unsafe [0; 16] (Qtl 0 1) true true false 2 = Some true.
Proof.
  rewrite (mixed_statement_condition [0; 16] (Qtl 0 1) (Kinds ∅ false {[0]}) true true false 2 16); [reflexivity| |reflexivity].
  constructor; cbn [unsafe_kinds accessed injection binlog_stmt_flags stmt_accessed_table_flag]; try set_solver.
  - intros k _. rewrite Z.bits_0. case_decide; [done|]. by rewrite bool_decide_false by set_solver.
  - intros k Hk. rewrite bool_decide_in_singleton. destruct k as [|k|k]; [done| |lia]. by destruct k.
Defined.
End properties.
