(* ===== verification/InCompare.v ===== *)
(** * IN and CASE: a predicant and a list of values (item_cmpfunc.h)

    [Predicant_to_list_comparator] compares an expression with a list of values,
    each pair by the handler of its type; pairs of the same type share a
    comparator, in which the value of the predicant is cached when the first of
    them is reached.  The comparators are an interface: what they are asked, and
    what the list comparator relies on.  The integer, real and string comparators
    of the file implement it.

    An evaluation of an item leaves its [null_value] flag, which the code reads
    afterwards; the flags are a part of the state.  An item evaluated again in the
    same type gives the same value and leaves the same flag, but the evaluations
    in different types may leave different ones.  Apart from its flag an
    evaluation has no side effects, and the arguments are different objects. *)

From S2P Require Import Prelude Doubles.
From Stdlib Require Import ZArith Lia SpecFloat.
From stdpp Require Import base numbers option list sets.
Open Scope Z_scope.
Open Scope cint_scope.

Module InCompare.

(** The three results of "the stored value differs from the item's". *)
Definition FALSE : Z := 0.
Definition TRUE : Z := 1.
Definition UNKNOWN : Z := -1.

(** What evaluating an item gives, and the [null_value] it leaves: [val_int] and the
    others set the flag for a null value and reset it otherwise. *)
Record Item := It { val_int : Z * bool; val_real : spec_float * bool; val_str : option (list Z) * bool }.

(** ** The interface of comparators

    [H] are the type handlers, [C] the comparators and [V] saved values.  What
    evaluates an item also returns the flag it leaves. *)
Class CmpItem (H C V : Type) := {
  type_handler_row : H;
  store_value : C → Item → C * bool;
  cmp_item_cmp : C → Item → Z * bool;
  cmp_item_cmp_not_null : C → V → option Z;
  Item_save_in_value : H → Item → option V * bool }.

(** ** Predicant_to_list_comparator *)

Section comparator.
Context {H C V : Type} `{EqDecision H} `{CmpItem H C V}.

Record Predicant_to_value_comparator := Pvc { m_handler : option H; m_cmp_item : option C; m_arg_index : nat; m_handler_index : nat }.

(** [m_comparators] is the allocated array, of which the first
    [m_comparator_count] are in use. *)
Record Predicant_to_list_comparator := Plc {
  m_comparators : list Predicant_to_value_comparator; m_comparator_count : nat; m_predicant_index : nat }.

(** [false] with the index, or [true]. *)
Fixpoint find_handler_loop (cs : list Predicant_to_value_comparator) (handler : H) (i : nat) : option nat :=
  match cs with
  | [] => None
  | c :: cs => if decide (m_handler c = Some handler) then Some i else find_handler_loop cs handler (S i)
  end.
Definition find_handler (p : Predicant_to_list_comparator) (handler : H) (count : nat) : option (option nat) :=
  if decide (count < m_comparator_count p)%nat then Some (find_handler_loop (take count (m_comparators p)) handler 0) else None.

(** The array with the value stored in the comparator [k]. *)
Definition store_at (p : Predicant_to_list_comparator) (k : nat) (c : C) : Predicant_to_list_comparator :=
  Plc (alter (λ x, Pvc (m_handler x) (Some c) (m_arg_index x) (m_handler_index x)) k (m_comparators p)) (m_comparator_count p)
    (m_predicant_index p).

(** [null_values] are the flags of the arguments.  The comparator shared by pair
    [i], after the predicant was evaluated and stored in it when [i] is the first
    of its type. *)
Definition shared_item (args : list Item) (null_values : list bool) (p : Predicant_to_list_comparator) (i : nat)
    : option (Predicant_to_list_comparator * list bool * Predicant_to_value_comparator * C) :=
  ci ← m_comparators p !! i;
  cmp ← m_comparators p !! m_handler_index ci;
  in_item ← m_cmp_item cmp;
  pred ← args !! m_predicant_index p;
  if decide (m_handler_index ci = i) then
    let '(in_item, null_value) := store_value in_item pred in
    Some (store_at p i in_item, <[m_predicant_index p := null_value]> null_values, ci, in_item)
  else Some (p, null_values, ci, in_item).

Definition cmp_arg (args : list Item) (null_values : list bool) (p : Predicant_to_list_comparator) (i : nat)
    : option (Predicant_to_list_comparator * list bool * Z) :=
  '(p, null_values, ci, in_item) ← shared_item args null_values p i;
  null ← null_values !! m_predicant_index p;
  if bool_decide (null = true) && bool_decide (m_handler ci ≠ Some type_handler_row) then Some (p, null_values, UNKNOWN)
  else
    v ← args !! m_arg_index ci;
    let '(rc, null_value) := cmp_item_cmp in_item v in Some (p, <[m_arg_index ci := null_value]> null_values, rc).

Definition cmp_args_nulls_equal (args : list Item) (null_values : list bool) (p : Predicant_to_list_comparator) (i : nat)
    : option (Predicant_to_list_comparator * list bool * Z) :=
  '(p, null_values, ci, in_item) ← shared_item args null_values p i;
  arg ← args !! m_arg_index ci;
  h ← m_handler ci;
  let '(val, null_value) := Item_save_in_value h arg in
  let null_values := <[m_arg_index ci := null_value]> null_values in
  null ← null_values !! m_predicant_index p;
  match null, val with
  | true, None => Some (p, null_values, FALSE)
  | true, Some _ => Some (p, null_values, UNKNOWN)
  | false, None => Some (p, null_values, UNKNOWN)
  | false, Some val => r ← cmp_item_cmp_not_null in_item val; Some (p, null_values, r)
  end.

Definition comparator_count (p : Predicant_to_list_comparator) : nat := m_comparator_count p.
Definition get_comparator_type_handler (p : Predicant_to_list_comparator) (i : nat) : option (option H) :=
  if decide (i < m_comparator_count p)%nat then m_handler <$> m_comparators p !! i else None.
Definition get_comparator_arg_index (p : Predicant_to_list_comparator) (i : nat) : option nat :=
  if decide (i < m_comparator_count p)%nat then m_arg_index <$> m_comparators p !! i else None.
Definition get_comparator_cmp_item (p : Predicant_to_list_comparator) (i : nat) : option (option C) :=
  if decide (i < m_comparator_count p)%nat then m_cmp_item <$> m_comparators p !! i else None.

Definition add_predicant (args : list Item) (p : Predicant_to_list_comparator) (predicant_index : nat) : option Predicant_to_list_comparator :=
  if decide (m_comparator_count p = 0%nat ∧ m_predicant_index p = 0%nat ∧ (predicant_index < length args)%nat)
  then Some (Plc (m_comparators p) (m_comparator_count p) predicant_index) else None.

Definition cleared : Predicant_to_value_comparator := Pvc None None 0 0.
Definition cleanup (p : Predicant_to_list_comparator) : Predicant_to_list_comparator :=
  Plc (replicate (m_comparator_count p) cleared ++ drop (m_comparator_count p) (m_comparators p)) 0 0.
(** The array a clone or a new comparator gets is allocated elsewhere. *)
Definition init_clone (alloc_comparators : nat → option (list Predicant_to_value_comparator)) (nvalues : nat)
    : option Predicant_to_list_comparator := cs ← alloc_comparators nvalues; Some (Plc cs 0 0).

(** The loops run over the pairs [i] to [count - 1]; [idx] is the out parameter,
    [unknown] the flag that is pointed to, if any.  A result is the comparator
    and the flags of the arguments, what is returned, and the two. *)
Fixpoint cmp_loop (n : nat) (args : list Item) (null_values : list bool) (p : Predicant_to_list_comparator) (i : nat) (idx : nat)
    (unknown : option bool) : option (Predicant_to_list_comparator * list bool * bool * nat * option bool) :=
  match n with
  | O => Some (p, null_values, true, idx, unknown)
  | S n =>
      c ← m_comparators p !! i;
      _ ← m_handler c;
      '(p, null_values, rc) ← cmp_arg args null_values p i;
      if decide (rc = FALSE) then c ← m_comparators p !! i; Some (p, null_values, false, m_arg_index c, unknown)
      else if decide (rc = UNKNOWN) then
        match unknown with
        | None => Some (p, null_values, true, idx, unknown)
        | Some _ => cmp_loop n args null_values p (S i) idx (Some true)
        end
      else cmp_loop n args null_values p (S i) idx unknown
  end.
Definition cmp (args : list Item) (null_values : list bool) (p : Predicant_to_list_comparator) (idx : nat) (found_unknown_values : option bool) :=
  cmp_loop (m_comparator_count p) args null_values p 0 idx found_unknown_values.

Fixpoint cmp_nulls_equal_loop (n : nat) (args : list Item) (null_values : list bool) (p : Predicant_to_list_comparator) (i : nat) (idx : nat)
    : option (Predicant_to_list_comparator * list bool * bool * nat) :=
  match n with
  | O => Some (p, null_values, true, idx)
  | S n =>
      c ← m_comparators p !! i;
      _ ← m_handler c;
      '(p, null_values, rc) ← cmp_args_nulls_equal args null_values p i;
      if decide (rc = FALSE) then c ← m_comparators p !! i; Some (p, null_values, false, m_arg_index c)
      else cmp_nulls_equal_loop n args null_values p (S i) idx
  end.
Definition cmp_nulls_equal (args : list Item) (null_values : list bool) (p : Predicant_to_list_comparator) (idx : nat) :=
  cmp_nulls_equal_loop (m_comparator_count p) args null_values p 0 idx.
End comparator.
Arguments Predicant_to_value_comparator : clear implicits.
Arguments Predicant_to_list_comparator : clear implicits.

(** ** The comparators of the file *)

Inductive handler_kind := HInt | HReal | HString | HRow.
#[global] Instance handler_kind_eq_dec : EqDecision handler_kind.
Proof. solve_decision. Defined.

(** [cmp_item_int], [cmp_item_real] and [cmp_item_sort_string], with their cached
    value and [m_null_value]. *)
Inductive cmp_item :=
| cmp_item_int (value : Z) (m_null_value : bool)
| cmp_item_real (value : spec_float) (m_null_value : bool)
| cmp_item_sort_string (value_res : option (list Z)) (m_null_value : bool).

Inductive Value := VLonglong (v : Z) | VDouble (v : spec_float) | VString (v : list Z).

(** [sortcmp] in the comparator's character set; the copy of the string into the
    comparator succeeds. *)
Section scalar.
Context (sortcmp : list Z → list Z → Z).

Definition scalar_store_value (c : cmp_item) (item : Item) : cmp_item * bool :=
  match c with
  | cmp_item_int _ _ => let '(value, null_value) := val_int item in (cmp_item_int value null_value, null_value)
  | cmp_item_real _ _ => let '(value, null_value) := val_real item in (cmp_item_real value null_value, null_value)
  | cmp_item_sort_string _ _ => let '(value, null_value) := val_str item in (cmp_item_sort_string value null_value, null_value)
  end.

Definition scalar_cmp (c : cmp_item) (arg : Item) : Z * bool :=
  match c with
  | cmp_item_int value null =>
      let '(v, null_value) := val_int arg in
      let rc := bool_decide (value ≠ v) in (if null || null_value then UNKNOWN else b2z rc, null_value)
  | cmp_item_real value null =>
      let '(v, null_value) := val_real arg in
      let rc := negb (Double.eqb_d value v) in (if null || null_value then UNKNOWN else b2z rc, null_value)
  | cmp_item_sort_string value_res null =>
      let '(res, null_value) := val_str arg in
      (if null || null_value then UNKNOWN else
       match value_res, res with
       | Some v, Some r => b2z (bool_decide (sortcmp v r ≠ 0))
       | None, None => FALSE
       | _, _ => TRUE
       end, null_value)
  end.

(** A saved value of another type fails an assertion. *)
Definition scalar_cmp_not_null (c : cmp_item) (val : Value) : option Z :=
  match c, val with
  | cmp_item_int value _, VLonglong v => Some (b2z (bool_decide (value ≠ v)))
  | cmp_item_real value _, VDouble v => Some (b2z (negb (Double.eqb_d value v)))
  | cmp_item_sort_string (Some value) _, VString v => Some (b2z (bool_decide (sortcmp value v ≠ 0)))
  | _, _ => None
  end.

(** [compare] of two comparators of the same kind. *)
Definition scalar_compare (c l_cmp : cmp_item) : option Z :=
  match c, l_cmp with
  | cmp_item_int v _, cmp_item_int w _ => Some (if decide (v < w) then -1 else if decide (v = w) then 0 else 1)
  | cmp_item_real v _, cmp_item_real w _ => Some (if Double.ltb_d v w then -1 else if Double.eqb_d v w then 0 else 1)
  | cmp_item_sort_string (Some v) _, cmp_item_sort_string (Some w) _ => Some (sortcmp v w)
  | _, _ => None
  end.

(** The value that is saved for a handler; null when the item is. *)
Definition save_scalar (h : handler_kind) (i : Item) : option Value * bool :=
  match h with
  | HInt => let '(v, null_value) := val_int i in (if null_value then None else Some (VLonglong v), null_value)
  | HReal => let '(v, null_value) := val_real i in (if null_value then None else Some (VDouble v), null_value)
  | HString => let '(v, null_value) := val_str i in (if null_value then None else VString <$> v, null_value)
  | HRow => (None, false)
  end.

#[local] Instance scalar_items : CmpItem handler_kind cmp_item Value := {
  type_handler_row := HRow;
  store_value := scalar_store_value;
  cmp_item_cmp := scalar_cmp;
  cmp_item_cmp_not_null := scalar_cmp_not_null;
  Item_save_in_value := save_scalar }.
End scalar.

End InCompare.

(** ** What a comparator promises *)

Section laws.
Import InCompare.

(** [is_for h c]: [c] compares values of the type [h]; [caches h i c]: it also
    holds the value of [i]; [null_as h i] is the flag that evaluating [i] as [h]
    leaves, [differs h i v] the answer for [i <> v]. *)
Class CmpItemLaws (H C V : Type) `{CmpItem H C V} := {
  is_for : H → C → Prop;
  caches : H → Item → C → Prop;
  null_as : H → Item → bool;
  differs : H → Item → Item → Z;
  store_law h c i : is_for h c → caches h i (store_value c i).1 ∧ (store_value c i).2 = null_as h i;
  caches_is_for h i c : caches h i c → is_for h c;
  cmp_law h i c v : caches h i c → (cmp_item_cmp c v).1 = differs h i v;
  cmp_not_null_law h i c v val : caches h i c → (Item_save_in_value h i).1 ≠ None →
    (Item_save_in_value h v).1 = Some val → cmp_item_cmp_not_null c val = Some (differs h i v) }.

Context {H C V : Type} {Heq : EqDecision H} {Hci : CmpItem H C V} {Hlaws : CmpItemLaws H C V}.
Notation plc := (Predicant_to_list_comparator H C).

(** The parts of the array that do not change while comparing. *)
Definition shape (p : plc) : list (option H * nat * nat) :=
  (λ c, (m_handler c, m_arg_index c, m_handler_index c)) <$> take (m_comparator_count p) (m_comparators p).

(** The answer for a pair, without caching, when the flag of the predicant is
    [null]. *)
Definition verdict (args : list Item) (pred : Item) (null : bool) (x : option H * nat * nat) : Z :=
  match x.1.1, args !! x.1.2 with
  | Some h, Some v => if bool_decide (null = true) && bool_decide (h ≠ type_handler_row) then UNKNOWN else differs h pred v
  | _, _ => TRUE
  end.

(** The flag of the predicant at pair [i]: the first pair of a type evaluates it. *)
Definition null_at (pred : Item) (null : bool) (i : nat) (x : option H * nat * nat) : bool :=
  if decide (x.2 = i) then match x.1.1 with Some h => null_as h pred | None => null end else null.

(** The answers from pair [i] on, each with the position of its value. *)
Fixpoint answers (args : list Item) (pred : Item) (null : bool) (i : nat) (xs : list (option H * nat * nat)) : list (Z * nat) :=
  match xs with
  | [] => []
  | x :: xs => (verdict args pred (null_at pred null i x) x, x.1.2) :: answers args pred (null_at pred null i x) (S i) xs
  end.

(** A pair on its own: the predicant is evaluated in the type of the pair. *)
Definition pair_answer (args : list Item) (pred : Item) (x : option H * nat * nat) : Z * nat :=
  (verdict args pred (default false (h ← x.1.1; Some (null_as h pred))) x, x.1.2).

(** The array as [add_value] and [make_unique_cmp_items] leave it: a pair refers
    to the first pair of its type, which has the comparator, and the predicant is
    not one of the values. *)
Record comparators_ok (args : list Item) (p : plc) : Prop := {
  ok_count : (m_comparator_count p ≤ length (m_comparators p))%nat;
  ok_pair i c : (i < m_comparator_count p)%nat → m_comparators p !! i = Some c →
    (m_handler_index c ≤ i)%nat ∧ (m_arg_index c < length args)%nat ∧ m_arg_index c ≠ m_predicant_index p ∧
    ∃ h c' it, m_handler c = Some h ∧ m_comparators p !! m_handler_index c = Some c' ∧ m_handler_index c' = m_handler_index c ∧
      m_handler c' = Some h ∧ m_cmp_item c' = Some it ∧ is_for h it }.

(** The first pairs of their type before pair [n] hold the predicant. *)
Definition cached (pred : Item) (p : plc) (n : nat) : Prop :=
  ∀ k c, (k < n)%nat → m_comparators p !! k = Some c → m_handler_index c = k →
    ∃ h it, m_handler c = Some h ∧ m_cmp_item c = Some it ∧ caches h pred it.

Lemma store_at_lookup (p : plc) i it k c :
  m_comparators (store_at p i it) !! k = Some c →
  ∃ c0, m_comparators p !! k = Some c0 ∧ m_handler c = m_handler c0 ∧ m_arg_index c = m_arg_index c0 ∧
    m_handler_index c = m_handler_index c0 ∧ m_cmp_item c = if decide (k = i) then Some it else m_cmp_item c0.
Proof.
  cbn. destruct (decide (k = i)) as [->|Hne].
  - rewrite list_lookup_alter_eq. destruct (m_comparators p !! i) as [c0|]; [|done]. cbn. intros [= <-]. by exists c0.
  - rewrite list_lookup_alter_ne by done. intros Hc. by exists c.
Qed.

Lemma shape_store_at (p : plc) i it : shape (store_at p i it) = shape p.
Proof.
  unfold shape, store_at. cbn. generalize (m_comparator_count p) as n. revert i.
  induction (m_comparators p) as [|c cs IH]; intros [|i] [|n]; cbn; try done. f_equal. apply IH.
Qed.

Lemma store_at_ok args (p : plc) i it it0 c h : comparators_ok args p →
  m_comparators p !! i = Some c → m_cmp_item c = Some it0 → m_handler c = Some h → is_for h it →
  comparators_ok args (store_at p i it).
Proof.
  intros [Hc Hp] Hi Hit Hh Hf. constructor; [cbn; by rewrite length_alter|].
  intros j cj Hj Hcj. destruct (store_at_lookup p i it j cj Hcj) as (c0 & H0 & E1 & E2 & E3 & _).
  destruct (Hp j c0 Hj H0) as (H1 & H2 & Hne & h' & c' & it' & H3 & H4 & H5 & H6 & H7 & H8).
  rewrite E1, E2, E3. split; [done|split; [done|split; [done|]]]. exists h'. cbn [m_comparators store_at].
  destruct (decide (m_handler_index c0 = i)) as [E|E].
  - rewrite E in *. rewrite Hi in H4. injection H4 as <-. rewrite list_lookup_alter_eq, Hi. cbn.
    eexists _, it. split_and!; try done. congruence.
  - rewrite list_lookup_alter_ne by done. by exists c', it'.
Qed.

(** One pair: the shared comparator holds the predicant, and its flag is known. *)
Lemma shared_item_spec args nulls (p : plc) pred null i c : comparators_ok args p → args !! m_predicant_index p = Some pred →
  nulls !! m_predicant_index p = Some null → cached pred p i → (i < m_comparator_count p)%nat → m_comparators p !! i = Some c →
  ∃ p' nulls' it h, shared_item args nulls p i = Some (p', nulls', c, it) ∧ m_handler c = Some h ∧ caches h pred it ∧
    comparators_ok args p' ∧ cached pred p' (S i) ∧ shape p' = shape p ∧ m_comparator_count p' = m_comparator_count p ∧
    m_predicant_index p' = m_predicant_index p ∧ (∀ k ck, m_comparators p' !! k = Some ck → ∃ c0, m_comparators p !! k = Some c0 ∧
      m_handler ck = m_handler c0 ∧ m_arg_index ck = m_arg_index c0) ∧ length nulls' = length nulls ∧
    nulls' !! m_predicant_index p = Some (null_at pred null i (m_handler c, m_arg_index c, m_handler_index c)).
Proof.
  intros Hok Hpred Hnull Hcache Hi Hc. destruct (ok_pair args p Hok i c Hi Hc) as (H1 & H2 & _ & h & c' & it & H3 & H4 & H5 & H6 & H7 & H8).
  unfold shared_item, null_at. rewrite Hc. cbn [mbind option_bind]. rewrite H4. cbn [mbind option_bind]. rewrite H7. cbn [mbind option_bind].
  rewrite Hpred. cbn [mbind option_bind fst snd]. rewrite H3. case_decide as E.
  - rewrite E in *. rewrite Hc in H4. injection H4 as <-. destruct (store_law h it pred H8) as [Hcs Hns].
    destruct (store_value it pred) as [it' n'] eqn:Es. cbn in Hcs, Hns. subst n'.
    exists (store_at p i it'), (<[m_predicant_index p:=null_as h pred]> nulls), it', h. split_and!; try done.
    + by eapply store_at_ok; [done..|by eapply caches_is_for].
    + intros k ck Hk Hck Ek. destruct (store_at_lookup p i _ k ck Hck) as (c0 & H0 & E1 & E2 & E3 & E4). rewrite E1, E4.
      case_decide as Eki.
      * rewrite Eki, Hc in H0. injection H0 as <-. by exists h, it'.
      * apply (Hcache k c0); [lia|done|congruence].
    + apply shape_store_at.
    + intros k ck Hck. destruct (store_at_lookup p i _ k ck Hck) as (c0 & H0 & E1 & E2 & _). by exists c0.
    + by rewrite length_insert.
    + apply list_lookup_insert_eq. by eapply lookup_lt_Some.
  - exists p, nulls, it, h. split_and!; try done.
    + destruct (Hcache (m_handler_index c) c') as (h' & it' & E1 & E2 & E3); [lia|done|done|]. congruence.
    + intros k ck Hk Hck Ek. destruct (decide (k = i)) as [->|]; [congruence|]. apply (Hcache k ck); [lia|done|done].
    + intros k ck Hck. by exists ck.
Qed.

(** The loop on the answers: what it returns, where it stops, and the flag. *)
Fixpoint scan (xs : list (Z * nat)) (idx : nat) (unknown : option bool) : bool * nat * option bool :=
  match xs with
  | [] => (true, idx, unknown)
  | (rc, a) :: xs =>
      if decide (rc = FALSE) then (false, a, unknown)
      else if decide (rc = UNKNOWN) then
        match unknown with None => (true, idx, unknown) | Some _ => scan xs idx (Some true) end
      else scan xs idx unknown
  end.

Lemma shape_lookup (p : plc) i c : (i < m_comparator_count p)%nat → m_comparators p !! i = Some c →
  drop i (shape p) = (m_handler c, m_arg_index c, m_handler_index c) :: drop (S i) (shape p).
Proof. intros Hi Hc. apply drop_S. unfold shape. by rewrite list_lookup_fmap, lookup_take_lt, Hc. Qed.

Lemma cmp_arg_spec args nulls (p : plc) pred null i c : comparators_ok args p → args !! m_predicant_index p = Some pred →
  nulls !! m_predicant_index p = Some null → cached pred p i → (i < m_comparator_count p)%nat → m_comparators p !! i = Some c →
  let x := (m_handler c, m_arg_index c, m_handler_index c) in
  ∃ p' nulls', cmp_arg args nulls p i = Some (p', nulls', verdict args pred (null_at pred null i x) x) ∧
    comparators_ok args p' ∧ cached pred p' (S i) ∧ shape p' = shape p ∧ m_comparator_count p' = m_comparator_count p ∧
    m_predicant_index p' = m_predicant_index p ∧ (∃ c', m_comparators p' !! i = Some c' ∧ m_arg_index c' = m_arg_index c) ∧
    length nulls' = length nulls ∧ nulls' !! m_predicant_index p = Some (null_at pred null i x).
Proof.
  intros Hok Hpred Hnull Hcache Hi Hc x.
  destruct (shared_item_spec args nulls p pred null i c Hok Hpred Hnull Hcache Hi Hc)
    as (p' & nulls' & it & h & Hs & Hh & Hca & Hok' & Hcache' & Hsh & Hn & Hpi & Hl & Hlen & Hnull').
  destruct (ok_pair args p Hok i c Hi Hc) as (_ & Ha & Hne & _). destruct (lookup_lt_is_Some_2 args _ Ha) as [v Hv].
  fold x in Hnull'. set (null' := null_at pred null i x) in *.
  assert (∃ c', m_comparators p' !! i = Some c' ∧ m_arg_index c' = m_arg_index c) as Hc'.
  { destruct (lookup_lt_is_Some_2 (m_comparators p') i) as [c' Hc']; [pose proof (ok_count args p' Hok'); lia|].
    destruct (Hl i c' Hc') as (c0 & E0 & _ & E1). exists c'. split; [done|]. congruence. }
  unfold cmp_arg, verdict. rewrite Hs. cbn [mbind option_bind]. rewrite Hpi, Hnull'. cbn [x mbind option_bind fst snd]. rewrite Hh, Hv.
  assert (bool_decide (Some h ≠ Some type_handler_row) = bool_decide (h ≠ type_handler_row)) as ->
    by (apply bool_decide_ext; split; congruence).
  destruct (_ && _); [by exists p', nulls'|]. cbn [mbind option_bind]. pose proof (cmp_law h pred it v Hca) as Hcmp.
  destruct (cmp_item_cmp it v) as [rc n']. cbn in Hcmp. subst rc. exists p', (<[m_arg_index c:=n']> nulls').
  rewrite length_insert, list_lookup_insert_ne by done. done.
Qed.

Lemma cmp_loop_spec args pred : ∀ n nulls null (p : plc) i idx u, comparators_ok args p → args !! m_predicant_index p = Some pred →
  nulls !! m_predicant_index p = Some null → cached pred p i → (i + n = m_comparator_count p)%nat →
  ∃ p' nulls' r, cmp_loop n args nulls p i idx u = Some (p', nulls', r.1.1, r.1.2, r.2) ∧ comparators_ok args p' ∧ shape p' = shape p ∧
    length nulls' = length nulls ∧ r = scan (answers args pred null i (drop i (shape p))) idx u.
Proof.
  induction n as [|n IH]; intros nulls null p i idx u Hok Hpred Hnull Hcache Hin.
  { exists p, nulls, (true, idx, u). split_and!; try done. rewrite drop_ge; [done|]. unfold shape. rewrite length_fmap, length_take. lia. }
  destruct (lookup_lt_is_Some_2 (m_comparators p) i) as [c Hc]; [pose proof (ok_count args p Hok); lia|].
  destruct (ok_pair args p Hok i c ltac:(lia) Hc) as (_ & _ & _ & h & _ & _ & Hh & _).
  destruct (cmp_arg_spec args nulls p pred null i c Hok Hpred Hnull Hcache ltac:(lia) Hc)
    as (p1 & nulls1 & He & Hok1 & Hca1 & Hsh1 & Hn1 & Hp1 & (c1 & Hc1 & Ha1) & Hlen1 & Hnull1).
  cbn [cmp_loop]. rewrite Hc. cbn [mbind option_bind]. rewrite Hh. cbn [mbind option_bind]. rewrite He. cbn [mbind option_bind].
  rewrite (shape_lookup p i c ltac:(lia) Hc). cbn [answers scan fst snd]. set (x := (m_handler c, _, _)) in *. set (rc := verdict _ _ _ _).
  assert (∀ u', ∃ p' nulls' r, cmp_loop n args nulls1 p1 (S i) idx u' = Some (p', nulls', r.1.1, r.1.2, r.2) ∧ comparators_ok args p' ∧
    shape p' = shape p ∧ length nulls' = length nulls ∧
    r = scan (answers args pred (null_at pred null i x) (S i) (drop (S i) (shape p))) idx u') as Hnext.
  { intros u'. destruct (IH nulls1 (null_at pred null i x) p1 (S i) idx u' Hok1) as (p' & nulls' & r & E & ? & ? & ? & Hr); [congruence..|done|lia|].
    exists p', nulls', r. rewrite Hsh1 in Hr. split_and!; congruence. }
  destruct (decide (rc = FALSE)).
  { rewrite Hc1. cbn. exists p1, nulls1, (false, m_arg_index c, u). cbn. rewrite Ha1. split_and!; done. }
  destruct (decide (rc = UNKNOWN)); [|apply Hnext]. destruct u as [b|]; [apply Hnext|].
  exists p1, nulls1, (true, idx, None). split_and!; done.
Qed.

(** The flag left over from before does not matter: the first pair evaluates the
    predicant. *)
Lemma answers_first args pred (p : plc) n1 n2 : comparators_ok args p →
  answers args pred n1 0 (shape p) = answers args pred n2 0 (shape p).
Proof.
  intros Hok. destruct (m_comparators p) as [|c cs] eqn:E; [unfold shape; by rewrite E, take_nil|].
  destruct (m_comparator_count p) as [|n] eqn:En; [unfold shape; by rewrite En|].
  assert (m_comparators p !! 0%nat = Some c) as Hc by by rewrite E.
  destruct (ok_pair args p Hok 0 c ltac:(lia) Hc) as (H0 & _ & _ & h & _ & _ & Hh & _).
  rewrite <- (drop_0 (shape p)), (shape_lookup p 0 c ltac:(lia) Hc). cbn [answers].
  assert (∀ n, null_at pred n 0 (m_handler c, m_arg_index c, m_handler_index c) = null_as h pred) as Hat; [|by rewrite !Hat].
  intros n'. unfold null_at. cbn [fst snd]. rewrite Hh. apply decide_True. lia.
Qed.

(** Where the predicant is null as one of the types only when it is as the others,
    each pair is answered as on its own. *)
Lemma answers_pairs args pred (p : plc) null : comparators_ok args p →
  (∀ h, Some h ∈ (shape p).*1.*1 → null_as h pred = null) → answers args pred null 0 (shape p) = pair_answer args pred <$> shape p.
Proof.
  intros Hok Hs.
  assert (Forall (λ x : option H * nat * nat, ∃ h, x.1.1 = Some h ∧ null_as h pred = null) (shape p)) as Hall.
  { apply Forall_forall. intros x Hx. destruct (list_elem_of_lookup_1 _ _ Hx) as [i Hi].
    unfold shape in Hi. rewrite list_lookup_fmap, fmap_Some in Hi. destruct Hi as (c & Hc & ->). apply lookup_take_Some in Hc as [Hc Hi].
    destruct (ok_pair args p Hok i c Hi Hc) as (_ & _ & _ & h & _ & _ & Hh & _). exists h. split; [done|]. apply Hs.
    rewrite <- Hh. apply list_elem_of_fmap. exists (m_handler c, m_arg_index c). split; [done|]. apply list_elem_of_fmap.
    by exists (m_handler c, m_arg_index c, m_handler_index c). }
  clear Hs. generalize 0%nat as i. induction Hall as [|x xs (h & Hh & Hn) _ IH]; intros i; [done|].
  cbn [answers fmap list_fmap]. unfold pair_answer at 1. rewrite Hh. cbn [mbind option_bind default].
  assert (null_at pred null i x = null) as -> by (unfold null_at; rewrite Hh, Hn; by case_decide).
  rewrite Hn. f_equal. apply IH.
Qed.

Lemma scan_in xs idx b :
  match list_find (λ x : Z * nat, x.1 = FALSE) xs with
  | Some (_, x) => ∃ u, scan xs idx (Some b) = (false, x.2, u)
  | None => scan xs idx (Some b) = (true, idx, Some (b || bool_decide (UNKNOWN ∈ xs.*1)))
  end.
Proof.
  revert b. induction xs as [|[rc a] xs IH]; intros b; cbn [list_find scan fmap list_fmap fst].
  { rewrite bool_decide_false by set_solver. by rewrite orb_false_r. }
  destruct (decide (rc = FALSE)) as [E|E]; [by eexists|].
  destruct (decide (rc = UNKNOWN)) as [E2|E2].
  - specialize (IH true). destruct (list_find _ xs) as [[n y]|]; cbn [fmap option_fmap option_map prod_map fst snd]; [exact IH|]. rewrite IH.
    cbn [orb]. rewrite bool_decide_true by (rewrite E2; set_solver). by rewrite orb_true_r.
  - specialize (IH b). destruct (list_find _ xs) as [[n y]|]; cbn [fmap option_fmap option_map prod_map fst snd]; [exact IH|]. rewrite IH. do 3 f_equal.
    apply bool_decide_ext. set_solver.
Qed.

Lemma scan_case xs idx r : scan xs idx None = r → r.2 = None ∧
  (r.1.1 = false ↔ ∃ n x, xs !! n = Some x ∧ x.1 = FALSE ∧
     ∀ m y, (m < n)%nat → xs !! m = Some y → y.1 ≠ FALSE ∧ y.1 ≠ UNKNOWN).
Proof.
  revert r. induction xs as [|[rc a] xs IH]; intros r; cbn.
  { intros <-. split; [done|]. cbn. split; [done|]. by intros (n & x & Hn & _). }
  case_decide as E; [|case_decide as E2].
  - intros <-. split; [done|]. cbn. split; [|done]. intros _. exists 0%nat, (rc, a). split_and!; [done..|]. intros; lia.
  - intros <-. split; [done|]. cbn. split; [done|]. intros ([|n] & y & Hn & Hy & Hlt); [injection Hn as <-; cbn in *; congruence|].
    destruct (Hlt 0%nat (rc, a)); [lia|done|cbn in *; congruence].
  - intros Hr. destruct (IH r Hr) as [H2 Hiff]. split; [done|]. rewrite Hiff. split.
    + intros (n & y & Hn & Hy & Hlt). exists (S n), y. split_and!; [done..|]. intros [|m] w Hm Hw; [by injection Hw as <-|].
      apply (Hlt m); [lia|done].
    + intros ([|n] & y & Hn & Hy & Hlt); [injection Hn as <-; cbn in *; congruence|]. exists n, y. split_and!; [done..|]. intros m w Hm Hw.
      apply (Hlt (S m)); [lia|done].
Qed.

(** The comparison in which two nulls are equal. *)
Definition null_verdict (args : list Item) (pred : Item) (null : bool) (x : option H * nat * nat) : Z :=
  match x.1.1, args !! x.1.2 with
  | Some h, Some v =>
      match null, (Item_save_in_value h v).1 with
      | true, None => FALSE
      | false, Some _ => differs h pred v
      | _, _ => UNKNOWN
      end
  | _, _ => TRUE
  end.
Fixpoint null_answers (args : list Item) (pred : Item) (null : bool) (i : nat) (xs : list (option H * nat * nat)) : list (Z * nat) :=
  match xs with
  | [] => []
  | x :: xs => (null_verdict args pred (null_at pred null i x) x, x.1.2) :: null_answers args pred (null_at pred null i x) (S i) xs
  end.

(** The predicant can be saved as a value of each type, unless it is null. *)
Definition savable (pred : Item) (p : plc) : Prop :=
  (∃ h, Some h ∈ (shape p).*1.*1 ∧ null_as h pred = false) → ∀ h, Some h ∈ (shape p).*1.*1 → (Item_save_in_value h pred).1 ≠ None.

(** The flag before pair [i] was left by an evaluation for one of the pairs. *)
Definition flag_of_pair (pred : Item) (p : plc) (i : nat) (null : bool) : Prop :=
  i ≠ 0%nat → null = false → ∃ h, Some h ∈ (shape p).*1.*1 ∧ null_as h pred = false.

Lemma shape_handler (p : plc) i c h : (i < m_comparator_count p)%nat → m_comparators p !! i = Some c → m_handler c = Some h →
  Some h ∈ (shape p).*1.*1.
Proof.
  intros Hi Hc Hh. apply list_elem_of_lookup_2 with i. unfold shape.
  rewrite !list_lookup_fmap, lookup_take_lt, Hc by done. cbn. by rewrite Hh.
Qed.

Lemma cmp_args_nulls_equal_spec args nulls (p : plc) pred null i c : comparators_ok args p → args !! m_predicant_index p = Some pred →
  nulls !! m_predicant_index p = Some null → savable pred p → flag_of_pair pred p i null →
  cached pred p i → (i < m_comparator_count p)%nat → m_comparators p !! i = Some c →
  let x := (m_handler c, m_arg_index c, m_handler_index c) in
  ∃ p' nulls', cmp_args_nulls_equal args nulls p i = Some (p', nulls', null_verdict args pred (null_at pred null i x) x) ∧
    comparators_ok args p' ∧ cached pred p' (S i) ∧ shape p' = shape p ∧ m_comparator_count p' = m_comparator_count p ∧
    m_predicant_index p' = m_predicant_index p ∧ (∃ c', m_comparators p' !! i = Some c' ∧ m_arg_index c' = m_arg_index c) ∧
    nulls' !! m_predicant_index p = Some (null_at pred null i x) ∧ flag_of_pair pred p (S i) (null_at pred null i x).
Proof.
  intros Hok Hpred Hnull Hsav Hfl Hcache Hi Hc x.
  destruct (shared_item_spec args nulls p pred null i c Hok Hpred Hnull Hcache Hi Hc)
    as (p' & nulls' & it & h & Hs & Hh & Hca & Hok' & Hcache' & Hsh & Hn & Hpi & Hl & _ & Hnull').
  destruct (ok_pair args p Hok i c Hi Hc) as (Hle & Ha & Hne & _). destruct (lookup_lt_is_Some_2 args _ Ha) as [v Hv].
  pose proof (shape_handler p i c h Hi Hc Hh) as Hin.
  assert (flag_of_pair pred p (S i) (null_at pred null i x)) as Hfl'.
  { intros _. unfold null_at, x. cbn. rewrite Hh. case_decide; [by exists h|]. apply Hfl. lia. }
  fold x in Hnull'. set (null' := null_at pred null i x) in *.
  assert (∃ c', m_comparators p' !! i = Some c' ∧ m_arg_index c' = m_arg_index c) as Hc'.
  { destruct (lookup_lt_is_Some_2 (m_comparators p') i) as [c' Hc']; [pose proof (ok_count args p' Hok'); lia|].
    destruct (Hl i c' Hc') as (c0 & E0 & _ & E1). exists c'. split; [done|]. congruence. }
  unfold cmp_args_nulls_equal, null_verdict. rewrite Hs. cbn [mbind option_bind]. rewrite Hv. cbn [x mbind option_bind fst snd]. rewrite Hh.
  cbn [mbind option_bind]. rewrite Hv, Hpi. pose proof (cmp_not_null_law h pred it v) as Hlaw.
  destruct (Item_save_in_value h v) as [val n']. cbn [fst] in Hlaw |- *. rewrite list_lookup_insert_ne, Hnull' by done. cbn [mbind option_bind].
  exists p', (<[m_arg_index c:=n']> nulls'). rewrite list_lookup_insert_ne by done. split; [|done].
  destruct null' eqn:En, val as [val|]; try done. rewrite (Hlaw val Hca); [done| |done]. apply Hsav; [by apply Hfl'|done].
Qed.

Lemma cmp_nulls_equal_loop_spec args pred : ∀ n nulls null (p : plc) i idx, comparators_ok args p → args !! m_predicant_index p = Some pred →
  nulls !! m_predicant_index p = Some null → savable pred p → flag_of_pair pred p i null → cached pred p i → (i + n = m_comparator_count p)%nat →
  ∃ p' nulls' r, cmp_nulls_equal_loop n args nulls p i idx = Some (p', nulls', r.1, r.2) ∧
    r = match list_find (λ x : Z * nat, x.1 = FALSE) (null_answers args pred null i (drop i (shape p))) with
        | Some (_, x) => (false, x.2) | None => (true, idx) end ∧
    comparators_ok args p' ∧ shape p' = shape p.
Proof.
  induction n as [|n IH]; intros nulls null p i idx Hok Hpred Hnull Hsav Hfl Hcache Hin.
  { exists p, nulls, (true, idx). split_and!; try done. rewrite drop_ge; [done|]. unfold shape. rewrite length_fmap, length_take. lia. }
  destruct (lookup_lt_is_Some_2 (m_comparators p) i) as [c Hc]; [pose proof (ok_count args p Hok); lia|].
  destruct (ok_pair args p Hok i c ltac:(lia) Hc) as (_ & _ & _ & h & _ & _ & Hh & _).
  destruct (cmp_args_nulls_equal_spec args nulls p pred null i c Hok Hpred Hnull Hsav Hfl Hcache ltac:(lia) Hc)
    as (p1 & nulls1 & He & Hok1 & Hca1 & Hsh1 & Hn1 & Hp1 & (c1 & Hc1 & Ha1) & Hnull1 & Hfl1).
  cbn [cmp_nulls_equal_loop]. rewrite Hc. cbn [mbind option_bind]. rewrite Hh. cbn [mbind option_bind]. rewrite He. cbn [mbind option_bind].
  rewrite (shape_lookup p i c ltac:(lia) Hc). cbn [null_answers list_find fst snd]. set (x := (m_handler c, _, _)) in *. case_decide.
  { rewrite Hc1. cbn. rewrite Ha1. by exists p1, nulls1, (false, m_arg_index c). }
  destruct (IH nulls1 (null_at pred null i x) p1 (S i) idx Hok1) as (p2 & nulls2 & r & E & Hr & Hok2 & Hsh2);
    [congruence|congruence|unfold savable; by rewrite Hsh1|unfold flag_of_pair; by rewrite Hsh1|done|lia|].
  exists p2, nulls2, r. rewrite Hsh1 in Hr. split_and!; [done| |done|congruence]. rewrite Hr.
  by match goal with |- context [list_find ?P ?l] => destruct (list_find P l) as [[k y]|] end.
Qed.
End laws.

(** ** The scalar comparators keep the promises *)

Section scalar.
Import InCompare.
Context (sortcmp : list Z → list Z → Z).
#[local] Existing Instance scalar_items.

Definition kind_of (c : cmp_item) : handler_kind :=
  match c with cmp_item_int _ _ => HInt | cmp_item_real _ _ => HReal | cmp_item_sort_string _ _ => HString end.

(** The flag left by evaluating an item in a type, and the answer for two items. *)
Definition scalar_null_as (h : handler_kind) (i : Item) : bool :=
  match h with HInt => (val_int i).2 | HReal => (val_real i).2 | HString => (val_str i).2 | HRow => false end.
Definition scalar_differs (h : handler_kind) (i v : Item) : Z :=
  if scalar_null_as h i || scalar_null_as h v then UNKNOWN else
  match h with
  | HInt => b2z (bool_decide ((val_int i).1 ≠ (val_int v).1))
  | HReal => b2z (negb (Double.eqb_d (val_real i).1 (val_real v).1))
  | HString =>
      match (val_str i).1, (val_str v).1 with
      | Some a, Some b => b2z (bool_decide (sortcmp a b ≠ 0))
      | None, None => FALSE
      | _, _ => TRUE
      end
  | HRow => UNKNOWN
  end.

#[local] Instance scalar_laws : @CmpItemLaws handler_kind cmp_item Value (scalar_items sortcmp).
Proof.
  refine {| is_for h c := kind_of c = h; caches h i c := kind_of c = h ∧ c = (scalar_store_value c i).1;
            null_as := scalar_null_as; differs := scalar_differs |}.
  - intros h [] [[vi ni] [vr nr] [vs ns]] <-; done.
  - by intros h i c [? _].
  - intros h [[vi ni] [vr nr] [vs ns]] [] [[wi mi] [wr mr] [ws ms]] [<- E]; injection E as -> ->; done.
  - intros h [[vi ni] [vr nr] [vs ns]] [] [[wi mi] [wr mr] [ws ms]] val [<- E] Hs Hv; injection E as -> ->; cbn in *; unfold scalar_differs; cbn;
      [destruct ni, mi|destruct nr, mr|destruct ns, ms]; try done; cbn in *; [by injection Hv as <-|by injection Hv as <-|].
    destruct vs, ws; try done. cbn in *. by injection Hv as <-.
Defined.
End scalar.

(** ** Properties *)

Section properties.
Import InCompare.

(** [C10] IN and CASE.  For every family of comparators that keeps its promises and an
    array set up as documented, [cmp] neither fails nor changes the array but for
    the cached values, whatever flags earlier evaluations left, and its result is
    that of the answers for the pairs in order: a pair is unknown when the flag of
    the predicant is set (but for rows), and otherwise compared in its type, where
    the flag is that of the last evaluation of the predicant, for the last pair so
    far that is the first of its type.  With a flag for unknown results (IN): it
    returns false with the position of the first value that is equal, and
    otherwise true, the flag being raised exactly when some answer was unknown.
    Without (CASE): it returns false exactly when a value is equal and the ones
    before it are known to differ.  When the predicant is null as each of the types
    or as none, the answers are those of comparing each pair on its own, although
    the predicant is stored in a comparator once for all the pairs of a type. *)
Theorem in_case_comparison {H C V} `{EqDecision H} `{CmpItemLaws H C V} (args : list Item) (nulls : list bool)
    (p : Predicant_to_list_comparator H C) (pred : Item) (idx : nat) :
  comparators_ok args p → args !! m_predicant_index p = Some pred → length nulls = length args →
  let answer := answers args pred false 0 (shape p) in
  (∀ b, ∃ p' nulls' ret idx' u, cmp args nulls p idx (Some b) = Some (p', nulls', ret, idx', u) ∧
     comparators_ok args p' ∧ shape p' = shape p ∧ length nulls' = length args ∧
     match list_find (λ a, a.1 = FALSE) answer with
     | Some (_, a) => ret = false ∧ idx' = a.2
     | None => ret = true ∧ idx' = idx ∧ u = Some (b || bool_decide (UNKNOWN ∈ answer.*1))
     end) ∧
  (∃ p' nulls' ret idx', cmp args nulls p idx None = Some (p', nulls', ret, idx', None) ∧
     comparators_ok args p' ∧ shape p' = shape p ∧ length nulls' = length args ∧
     (ret = false ↔ ∃ n a, answer !! n = Some a ∧ a.1 = FALSE ∧
        ∀ m a', (m < n)%nat → answer !! m = Some a' → a'.1 ≠ FALSE ∧ a'.1 ≠ UNKNOWN)) ∧
  (∀ null, (∀ h, Some h ∈ (shape p).*1.*1 → null_as h pred = null) → answer = pair_answer args pred <$> shape p).
Proof.
  intros Hok Hpred Hlen answer. assert (cached pred p 0) as Hca by (intros k c Hk; lia).
  destruct (lookup_lt_is_Some_2 nulls (m_predicant_index p)) as [null Hnull]; [rewrite Hlen; by eapply lookup_lt_Some|].
  pose proof (cmp_loop_spec args pred (m_comparator_count p) nulls null p 0 idx) as Hspec. rewrite drop_0 in Hspec.
  rewrite (answers_first args pred p null false Hok) in Hspec. fold answer in Hspec. split_and!.
  - intros b. destruct (Hspec (Some b) Hok Hpred Hnull Hca eq_refl) as (p' & nulls' & r & He & Hok' & Hsh & Hl & Hr).
    exists p', nulls', r.1.1, r.1.2, r.2. split_and!; try done; [by rewrite Hl|]. pose proof (scan_in answer idx b) as Hs.
    destruct (list_find _ _) as [[n x]|]; [destruct Hs as [u Hs]|]; rewrite Hs in Hr; by subst r.
  - destruct (Hspec None Hok Hpred Hnull Hca eq_refl) as (p' & nulls' & r & He & Hok' & Hsh & Hl & Hr).
    destruct (scan_case answer idx r (eq_sym Hr)) as [H2 Hiff].
    exists p', nulls', r.1.1, r.1.2. split_and!; try done; [unfold cmp; by rewrite He, H2|by rewrite Hl].
  - intros n Hn. unfold answer. rewrite (answers_first args pred p false n Hok). by apply answers_pairs.
Qed.

(** [3 IN (1, 2.0, NULL, 3)]: the pairs of integers share the comparator of the
    first. *)
Definition int_item (v : Z) : Item := It (v, false) (Double.of_Z v, false) (None, false).
Definition null_item : Item := It (0, true) (Double.of_Z 0, true) (None, true).
Definition in_args : list Item := [int_item 3; int_item 1; int_item 2; null_item; int_item 3].
Definition in_list : Predicant_to_list_comparator handler_kind cmp_item :=
  Plc [Pvc (Some HInt) (Some (cmp_item_int 0 false)) 1 0; Pvc (Some HReal) (Some (cmp_item_real (Double.of_Z 0) false)) 2 1;
       Pvc (Some HInt) None 3 0; Pvc (Some HInt) None 4 0] 4 0.

Lemma in_list_ok args : length args = 5%nat → @comparators_ok handler_kind cmp_item Value _ (scalar_laws (λ _ _, 0)) args in_list.
Proof.
  intros Hl. constructor; [cbn; lia|]. intros [|[|[|[|i]]]] c Hi Hc; cbn in Hi; try lia; injection Hc as <-; cbn;
    (split; [lia|split; [lia|split; [lia|]]]); eexists _, _, _; done.
Qed.

Lemma in_case_comparison_witness :
  ∃ p' nulls' u, @cmp handler_kind cmp_item Value _ (scalar_items (λ _ _, 0)) in_args (replicate 5 true) in_list 99 (Some false)
    = Some (p', nulls', false, 4%nat, u).
Proof.
  destruct (@in_case_comparison handler_kind cmp_item Value _ _ (scalar_laws (λ _ _, 0)) in_args (replicate 5 true) in_list (int_item 3) 99
    (in_list_ok in_args eq_refl) eq_refl eq_refl) as [HI _].
  destruct (HI false) as (p' & nulls' & ret & idx' & u & He & _ & _ & _ & Hm). exists p', nulls', u. rewrite He.
  vm_compute in Hm. destruct Hm as [-> ->]. reflexivity.
Defined.

(** A predicant that is null as a real number only: after the pair of reals, the
    flag it left makes the pairs of integers unknown, also the one whose value is
    equal; without the pair of reals the value is found. *)
Definition null_real_item (v : Z) : Item := It (v, false) (Double.of_Z 0, true) (None, false).
Theorem other_type_hides_match :
  let args := null_real_item 3 :: tail in_args in
  (∃ p' nulls', @cmp handler_kind cmp_item Value _ (scalar_items (λ _ _, 0)) args (replicate 5 false) in_list 99 (Some false)
     = Some (p', nulls', true, 99%nat, Some true)) ∧
  @pair_answer handler_kind cmp_item Value _ _ (scalar_laws (λ _ _, 0)) args (null_real_item 3) (Some HInt, 4%nat, 0%nat) = (FALSE, 4%nat).
Proof. split; [eexists _, _; vm_compute; reflexivity|vm_compute; reflexivity]. Qed.

(** DECODE: [cmp_nulls_equal] returns false with the position of the first value
    that is equal to the predicant, both being null counting as equal. *)
Theorem nulls_equal_comparison {H C V} `{EqDecision H} `{CmpItemLaws H C V} (args : list Item) (nulls : list bool)
    (p : Predicant_to_list_comparator H C) (pred : Item) (null : bool) (idx : nat) :
  comparators_ok args p → args !! m_predicant_index p = Some pred → nulls !! m_predicant_index p = Some null → savable pred p →
  ∃ p' nulls' r, cmp_nulls_equal args nulls p idx = Some (p', nulls', r.1, r.2) ∧
    r = match list_find (λ x : Z * nat, x.1 = FALSE) (null_answers args pred null 0 (shape p)) with
        | Some (_, x) => (false, x.2) | None => (true, idx) end ∧
    comparators_ok args p' ∧ shape p' = shape p.
Proof.
  intros Hok Hpred Hnull Hsav. assert (cached pred p 0) as Hca by (intros k c Hk; lia).
  destruct (cmp_nulls_equal_loop_spec args pred (m_comparator_count p) nulls null p 0 idx Hok Hpred Hnull Hsav) as (p' & nulls' & r & He);
    [intros []; done|done|done|]. rewrite drop_0 in He. by exists p', nulls', r.
Qed.

Lemma nulls_equal_comparison_witness :
  ∃ p' nulls', @cmp_nulls_equal handler_kind cmp_item Value (scalar_items (λ _ _, 0)) [null_item; int_item 1; int_item 2; null_item; int_item 3]
    (replicate 5 false) in_list 99 = Some (p', nulls', false, 3%nat).
Proof.
  destruct (@nulls_equal_comparison handler_kind cmp_item Value _ _ (scalar_laws (λ _ _, 0))
    [null_item; int_item 1; int_item 2; null_item; int_item 3] (replicate 5 false) in_list null_item false 99) as (p' & nulls' & r & He & Hr & _).
  - by apply in_list_ok.
  - reflexivity.
  - reflexivity.
  - intros (h & Hin & E). vm_compute in Hin. destruct h; try discriminate E. exfalso.
    repeat (apply elem_of_cons in Hin as [Hin|Hin]; [discriminate|]). by apply not_elem_of_nil in Hin.
  - exists p', nulls'. rewrite He, Hr. reflexivity.
Defined.
End properties.
