(* ===== verification/ProfileQueue.v ===== *)
(** * The queue of query profiles

    [Queue] of sql_profile.h, a doubly linked list of items that are allocated one
    by one.  The items are a finite map from addresses, 0 being the null pointer;
    a freed item leaves the map, and an access to an address that is not in the
    map is undefined ([None]).  The allocator is an argument. *)

From Stdlib Require Import ZArith Lia.
From stdpp Require Import base numbers list gmap fin_sets.
From S2P Require Import Prelude.
Open Scope Z_scope.
Open Scope cint_scope.

Module ProfileQueue.

Record queue_item := QI { payload : N; next : N; previous : N }.
Record Queue := Qu { first : N; last : N; elements : Z }.
Abbreviation heap := (gmap N queue_item).

Definition set_next (H : heap) (i n : N) : option heap := x ← H !! i; Some (<[i := QI (payload x) n (previous x)]> H).
Definition set_previous (H : heap) (i p : N) : option heap := x ← H !! i; Some (<[i := QI (payload x) (next x) p]> H).
(** [my_free] of a null pointer does nothing; of an address twice it is undefined. *)
Definition my_free (H : heap) (i : N) : option heap :=
  if decide (i = 0%N) then Some H else _ ← H !! i; Some (delete i H).

Definition new_Queue : Queue := Qu 0 0 0.

(** The loop of [empty]; [None] too when the fuel ends first. *)
Fixpoint empty_loop (fuel : nat) (H : heap) (i : N) : option heap :=
  if decide (i = 0%N) then Some H else
  match fuel with
  | O => None
  | S fuel => x ← H !! i; H ← my_free H i; empty_loop fuel H (next x)
  end.
Definition empty (H : heap) (q : Queue) : option (heap * Queue) :=
  H ← empty_loop (size H) H (first q); Some (H, Qu (first q) (last q) 0).

Section ulong.
(** The width of [ulong]. *)
Context (lw : Z).

(** [my_malloc] of an item returned [new_item]; writing to it is undefined when
    that is the null pointer. *)
Definition push_back (H : heap) (q : Queue) (data new_item : N) : option (heap * Queue) :=
  if decide (new_item = 0%N) then None else
  let H := <[new_item := QI data 0 0]> H in
  let f := if decide (first q = 0%N) then new_item else first q in
  H ← (if decide (last q ≠ 0%N) then
         x ← H !! last q; if decide (next x = 0%N) then set_next H (last q) new_item else None
       else Some H);
  H ← set_previous H new_item (last q);
  H ← set_next H new_item 0;
  Some (H, Qu f new_item (wrapu lw (elements q + 1))).

Definition pop (H : heap) (q : Queue) : option (heap * Queue * N) :=
  if decide (first q = 0%N) then Some (H, q, 0%N) else
  x ← H !! first q;
  '(H, l) ← (if decide (next x ≠ 0%N) then H ← set_previous H (next x) 0; Some (H, last q) else Some (H, 0%N));
  x' ← H !! first q;
  H ← my_free H (first q);
  Some (H, Qu (next x') l (wrapu lw (elements q - 1)), payload x).
End ulong.

(** The assertion is the one of the source. *)
Definition is_empty (q : Queue) : option bool :=
  if (bool_decide (0 < elements q) && bool_decide (first q ≠ 0%N)) || (bool_decide (elements q = 0) || bool_decide (first q = 0%N))
  then Some (bool_decide (elements q = 0)) else None.

Definition new_iterator (q : Queue) : N := first q.
Definition iterator_next (H : heap) (current : N) : option N := x ← H !! current; Some (next x).
Definition iterator_value (H : heap) (current : N) : option N := x ← H !! current; Some (payload x).

End ProfileQueue.

(** ** Sequences of payloads *)

Section queues.
Import ProfileQueue.

(** The items from [p] on, each with the one before it, up to the last one, whose
    [next] is [e]. *)
Fixpoint item_seg (H : heap) (p prev : N) (xs : list (N * N)) (l e : N) : Prop :=
  match xs with
  | [] => p = e ∧ l = prev
  | x :: xs => p = x.1 ∧ x.1 ≠ 0%N ∧ ∃ n, H !! x.1 = Some (QI x.2 n prev) ∧ item_seg H n x.1 xs l e
  end.

Lemma item_seg_frame H H' xs : ∀ p prev l e,
  (∀ a, a ∈ xs.*1 → H' !! a = H !! a) → item_seg H p prev xs l e → item_seg H' p prev xs l e.
Proof.
  induction xs as [|x xs IH]; intros p prev l e Hf; cbn; [done|].
  intros (-> & Hx & n & Hn & Hs). split; [done|]. split; [done|]. exists n. split; [rewrite Hf; [done|left]|].
  apply IH; [|done]. intros a Ha. apply Hf. by right.
Qed.

Lemma item_seg_snoc H xs y : ∀ p prev l e,
  item_seg H p prev (xs ++ [y]) l e ↔
  ∃ m, item_seg H p prev xs m y.1 ∧ l = y.1 ∧ y.1 ≠ 0%N ∧ H !! y.1 = Some (QI y.2 e m).
Proof.
  induction xs as [|x xs IH]; intros p prev l e; cbn.
  - split.
    + intros (-> & Hy & n & Hn & -> & ->). by exists prev.
    + intros (m & [-> ->] & -> & Hy & Hn). split; [done|]. split; [done|]. by exists e.
  - split.
    + intros (-> & Hx & n & Hn & Hs). apply IH in Hs as (m & Hs & ->& Hy & Hm).
      exists m. split; [|done]. split; [done|]. split; [done|]. by exists n.
    + intros (m & (-> & Hx & n & Hn & Hs) & Hrest). split; [done|]. split; [done|].
      exists n. split; [done|]. apply IH. by exists m.
Qed.

Context (lw : Z).

Record queue_ok (H : heap) (q : Queue) (xs : list (N * N)) : Prop := {
  qo_seg : item_seg H (first q) 0 xs (last q) 0;
  qo_nodup : NoDup xs.*1;
  qo_elements : elements q = Z.of_nat (length xs);
  qo_width : Z.of_nat (length xs) < 2 ^ lw }.

(** The first item, and whether there is one. *)
Lemma item_seg_first H x xs p prev l e : item_seg H p prev (x :: xs) l e → p ≠ 0%N.
Proof. by intros (-> & Hx & _). Qed.

Lemma queue_ok_first H q xs : queue_ok H q xs → first q = 0%N ↔ xs = [].
Proof.
  intros [Hs _ _ _]. destruct xs as [|x xs]; [by destruct Hs as [-> _]|].
  apply item_seg_first in Hs. by split.
Qed.

Lemma push_back_spec H q xs data new_item :
  queue_ok H q xs → new_item ≠ 0%N → H !! new_item = None → Z.of_nat (length xs) + 1 < 2 ^ lw →
  ∃ H' q', push_back lw H q data new_item = Some (H', q') ∧ queue_ok H' q' (xs ++ [(new_item, data)]) ∧
    ∀ a, a ∉ new_item :: xs.*1 → H' !! a = H !! a.
Proof.
  intros [Hs Hnd He Hw] Hn0 Hn Hlen. unfold push_back. rewrite decide_False by done.
  assert (Hfr : ∀ a, a ∈ xs.*1 → a ≠ new_item).
  { intros a Ha ->. clear -Ha Hs Hn. revert Hs. generalize (first q), 0%N at 1.
    induction xs as [|x xs IH]; intros p prev; [by apply elem_of_nil in Ha|]. intros (-> & _ & n & Hx & Hs).
    apply elem_of_cons in Ha as [Ha|Ha]; [by rewrite <- Ha, Hn in Hx|by eapply IH]. }
  assert (Hlen' : wrapu lw (elements q + 1) = Z.of_nat (length (xs ++ [(new_item, data)]))).
  { rewrite He, length_app. cbn. rewrite wrapu_small; unfold in_u; lia. }
  assert (Hnd' : NoDup (xs ++ [(new_item, data)]).*1).
  { rewrite fmap_app. apply NoDup_app. split; [done|]. split; [|apply NoDup_singleton].
    intros a Ha Ha'. apply list_elem_of_singleton in Ha'. by eapply Hfr. }
  destruct xs as [|y xs _] using rev_ind.
  - destruct Hs as [-> ->]. rewrite decide_True by done. rewrite decide_False by naive_solver.
    cbn [mbind option_bind]. unfold set_previous, set_next.
    do 2 (rewrite lookup_insert_eq; cbn [mbind option_bind]). rewrite !insert_insert_eq. eexists _, _. split; [done|]. split.
    + split; [|done|exact Hlen'|cbn; lia]. cbn. split; [done|]. split; [done|]. exists 0%N.
      by rewrite lookup_insert_eq.
    + intros a Ha. rewrite lookup_insert_ne; [done|]. intros ->. apply Ha. left.
  - apply item_seg_snoc in Hs as (m & Hs & Hl & Hy & Hym). rewrite Hl.
    assert (first q ≠ 0%N) as Hf.
    { destruct xs as [|x xs]; [by destruct Hs as [-> _]|by eapply item_seg_first]. }
    rewrite (decide_False (P := first q = 0%N)) by done. rewrite decide_True by done.
    assert (y.1 ≠ new_item) as Hyn by (apply Hfr; rewrite fmap_app; apply elem_of_app; right; left).
    rewrite lookup_insert_ne, Hym by done. cbn [mbind option_bind next]. rewrite decide_True by done.
    unfold set_next at 2. rewrite lookup_insert_ne, Hym by done. cbn [mbind option_bind payload previous].
    unfold set_previous. rewrite lookup_insert_ne, lookup_insert_eq by done. cbn [mbind option_bind payload next].
    unfold set_next. rewrite lookup_insert_eq. cbn [mbind option_bind payload previous]. rewrite insert_insert_eq.
    eexists _, _. split; [done|]. split.
    + split; [|done|exact Hlen'|rewrite length_app; cbn in *; lia]. cbn [first last]. apply item_seg_snoc.
      exists y.1. cbn. rewrite lookup_insert_eq. split; [|done]. apply item_seg_snoc. exists m.
      rewrite lookup_insert_ne, lookup_insert_eq by done. split; [|done].
      eapply item_seg_frame; [|exact Hs]. intros a Ha. rewrite fmap_app in Hfr, Hnd.
      assert (a ≠ new_item) by (apply Hfr, elem_of_app; by left).
      assert (a ≠ y.1).
      { intros ->. apply NoDup_app in Hnd as (_ & Hd & _). apply (Hd _ Ha). left. }
      by rewrite !lookup_insert_ne by done.
    + intros a Ha. rewrite fmap_app in Ha. assert (a ≠ new_item) by (intros ->; apply Ha; left).
      assert (a ≠ y.1) by (intros ->; apply Ha; right; apply elem_of_app; right; left).
      by rewrite !lookup_insert_ne by done.
Qed.

Lemma pop_spec H q x xs : queue_ok H q (x :: xs) →
  ∃ H' q', pop lw H q = Some (H', q', x.2) ∧ queue_ok H' q' xs ∧ H' !! x.1 = None ∧
    ∀ a, a ∉ (x :: xs).*1 → H' !! a = H !! a.
Proof.
  intros [Hs Hnd He Hw]. destruct Hs as (Hf & Hx0 & n & Hn & Hs). unfold pop. rewrite Hf.
  rewrite decide_False by done. rewrite Hn. cbn [mbind option_bind next payload].
  apply NoDup_cons in Hnd as [Hx Hnd]. cbn [length] in He, Hw.
  assert (wrapu lw (elements q - 1) = Z.of_nat (length xs)) as Hlen by (rewrite He, wrapu_small; unfold in_u; lia).
  destruct xs as [|y xs].
  - destruct Hs as [-> Hl]. rewrite decide_False by naive_solver. cbn [mbind option_bind]. rewrite Hn. cbn [mbind option_bind next].
    unfold my_free. rewrite decide_False by done. rewrite Hn. cbn [mbind option_bind].
    eexists _, _. split; [done|]. split; [split; [done|constructor|exact Hlen|cbn; lia]|].
    split; [apply lookup_delete_eq|]. intros a Ha. rewrite lookup_delete_ne; [done|]. intros <-. apply Ha. left.
  - destruct Hs as (-> & Hy0 & n2 & Hn2 & Hs). rewrite decide_True by done.
    assert (y.1 ≠ x.1) as Hyx by (intros E; apply Hx; rewrite <- E; left).
    unfold set_previous. rewrite Hn2. cbn [mbind option_bind payload next]. rewrite lookup_insert_ne, Hn by done.
    cbn [mbind option_bind next]. unfold my_free. rewrite decide_False by done. rewrite lookup_insert_ne, Hn by done.
    cbn [mbind option_bind]. eexists _, _. split; [done|]. split; [split; [|done|exact Hlen|lia]|].
    + cbn [first last]. split; [done|]. split; [done|]. exists n2. rewrite lookup_delete_ne, lookup_insert_eq by done. split; [done|].
      eapply item_seg_frame; [|exact Hs]. intros a Ha. apply NoDup_cons in Hnd as [Hy _].
      rewrite lookup_delete_ne, lookup_insert_ne; [done|by intros <-|]. intros <-. apply Hx. by right.
    + split; [apply lookup_delete_eq|]. intros a Ha. rewrite lookup_delete_ne, lookup_insert_ne; [done|..];
        intros <-; apply Ha; [right|]; left.
Qed.

(** The items that [empty] frees. *)
Lemma empty_loop_spec xs : ∀ fuel H p prev l,
  item_seg H p prev xs l 0 → NoDup xs.*1 → (length xs ≤ fuel)%nat →
  ∃ H', empty_loop fuel H p = Some H' ∧ (∀ a, a ∈ xs.*1 → H' !! a = None) ∧ ∀ a, a ∉ xs.*1 → H' !! a = H !! a.
Proof.
  induction xs as [|x xs IH]; intros fuel H p prev l Hs Hnd Hfuel.
  - destruct Hs as [-> _]. exists H. split; [by destruct fuel|]. split; [|done]. by intros a ?%elem_of_nil.
  - destruct Hs as (-> & Hx & n & Hn & Hs). destruct fuel as [|fuel]; [cbn in Hfuel; lia|]. cbn [empty_loop].
    rewrite decide_False by done. rewrite Hn. cbn [mbind option_bind next]. unfold my_free. rewrite decide_False by done.
    rewrite Hn. cbn [mbind option_bind]. apply NoDup_cons in Hnd as [Hxx Hnd].
    destruct (IH fuel (delete x.1 H) n x.1 l) as (H' & -> & Hd & Hk); [|done|cbn in Hfuel; lia|].
    { eapply item_seg_frame; [|exact Hs]. intros a Ha. rewrite lookup_delete_ne; [done|]. by intros <-. }
    exists H'. split; [done|]. split.
    + intros a [->|Ha]%elem_of_cons; [|by apply Hd]. rewrite Hk by done. apply lookup_delete_eq.
    + intros a Ha. apply not_elem_of_cons in Ha as [Ha1 Ha2]. rewrite Hk by done. by rewrite lookup_delete_ne.
Qed.

(** A queue has no more items than the heap. *)
Lemma item_seg_size H xs p prev l e : item_seg H p prev xs l e → NoDup xs.*1 → (length xs ≤ size H)%nat.
Proof.
  intros Hs Hnd. rewrite <- (length_fmap fst), <- (size_list_to_set (C := gset N)) by done. rewrite <- size_dom.
  apply subseteq_size. intros a Ha. apply elem_of_list_to_set in Ha. clear Hnd. revert p prev Hs.
  induction xs as [|x xs IH]; intros p prev; [by apply elem_of_nil in Ha|]. intros (_ & _ & n & Hx & Hs).
  apply elem_of_cons in Ha as [->|Ha]; [by eapply elem_of_dom_2|by eapply IH].
Qed.

Lemma empty_spec H q xs : queue_ok H q xs →
  ∃ H', empty H q = Some (H', Qu (first q) (last q) 0) ∧ (∀ a, a ∈ xs.*1 → H' !! a = None) ∧ ∀ a, a ∉ xs.*1 → H' !! a = H !! a.
Proof.
  intros [Hs Hnd _ _]. unfold empty.
  destruct (empty_loop_spec xs (size H) H (first q) 0 (last q)) as (H' & -> & Hd & Hk); [done..|by eapply item_seg_size|].
  by exists H'.
Qed.

(** Walking through the queue with the iterator. *)
Fixpoint walk (fuel : nat) (H : heap) (p : N) : option (list N) :=
  if decide (p = 0%N) then Some [] else
  match fuel with
  | O => None
  | S fuel => v ← iterator_value H p; n ← iterator_next H p; vs ← walk fuel H n; Some (v :: vs)
  end.

Lemma walk_spec H xs : ∀ fuel p prev l, item_seg H p prev xs l 0 → (length xs ≤ fuel)%nat → walk fuel H p = Some xs.*2.
Proof.
  induction xs as [|x xs IH]; intros fuel p prev l; cbn; [intros [-> _] _; by destruct fuel|].
  intros (-> & Hx & n & Hn & Hs) Hf. destruct fuel as [|fuel]; [lia|]. cbn [walk]. rewrite decide_False by done.
  unfold iterator_value, iterator_next. rewrite Hn. cbn. erewrite IH; [done|done|lia].
Qed.

(** *** Histories *)

(** A push with whether the allocation of its item succeeds. *)
Inductive op := Push (data : N) (allocated : bool) | Pop | IsEmpty | Contents.
Inductive res := RUnit | RItem (p : N) | RBool (b : bool) | RList (l : list N).

(** The address of an item whose allocation succeeds. *)
Context (malloc : heap → N).

Definition exec (H : heap) (q : Queue) (o : op) : option (heap * Queue * res) :=
  match o with
  | Push data allocated => '(H, q) ← push_back lw H q data (if allocated then malloc H else 0%N); Some (H, q, RUnit)
  | Pop => '(H, q, p) ← pop lw H q; Some (H, q, RItem p)
  | IsEmpty => b ← is_empty q; Some (H, q, RBool b)
  | Contents => l ← walk (size H) H (new_iterator q); Some (H, q, RList l)
  end.

(** A push whose allocation fails has no result, and neither has one for which
    the counter is too narrow. *)
Definition spec (l : list N) (o : op) : option (list N * res) :=
  match o with
  | Push data allocated => if decide (allocated = true ∧ Z.of_nat (length l) + 1 < 2 ^ lw) then Some (l ++ [data], RUnit) else None
  | Pop => Some (tail l, RItem (default 0%N (head l)))
  | IsEmpty => Some (l, RBool (bool_decide (l = [])))
  | Contents => Some (l, RList l)
  end.

Fixpoint exec_all (H : heap) (q : Queue) (os : list op) : option (heap * Queue * list res) :=
  match os with
  | [] => Some (H, q, [])
  | o :: os => '(H, q, r) ← exec H q o; '(H, q, rs) ← exec_all H q os; Some (H, q, r :: rs)
  end.
Fixpoint spec_all (l : list N) (os : list op) : option (list N * list res) :=
  match os with
  | [] => Some (l, [])
  | o :: os => '(l, r) ← spec l o; '(l, rs) ← spec_all l os; Some (l, r :: rs)
  end.

Context (malloc_fresh : ∀ H, malloc H ≠ 0%N ∧ H !! malloc H = None).

(** The queue with some items, and the parts of the heap that are not of it. *)
Definition queue_in (H0 H : heap) (q : Queue) (l : list N) : Prop :=
  ∃ xs, queue_ok H q xs ∧ xs.*2 = l ∧ (∀ a, H0 !! a ≠ None → a ∉ xs.*1 ∧ H !! a = H0 !! a) ∧
    ∀ a, H !! a ≠ None → a ∈ xs.*1 ∨ H0 !! a ≠ None.

Lemma exec_refines H0 H q l o l' r : queue_in H0 H q l → spec l o = Some (l', r) →
  ∃ H' q', exec H q o = Some (H', q', r) ∧ queue_in H0 H' q' l'.
Proof using malloc_fresh.
  intros (xs & Hok & <- & Hfr & Hdom) Hsp. destruct o as [data allocated| | |]; cbn in Hsp |- *.
  - case_decide as Hal; [|done]. destruct Hal as [-> Hlen]. injection Hsp as <- <-. rewrite length_fmap in Hlen. destruct (malloc_fresh H) as [Hm0 Hm].
    destruct (push_back_spec H q xs data (malloc H) Hok Hm0 Hm Hlen) as (H' & q' & -> & Hok' & Hk).
    exists H', q'. split; [done|]. exists (xs ++ [(malloc H, data)]). split; [done|]. split; [by rewrite fmap_app|].
    rewrite fmap_app. cbn. split.
    + intros a Ha. destruct (Hfr a Ha) as [Hx Heq]. assert (a ≠ malloc H) as Hne by congruence.
      assert (a ∉ malloc H :: xs.*1) as Ha' by (apply not_elem_of_cons; done).
      split; [|by rewrite Hk]. rewrite elem_of_app, list_elem_of_singleton. by intros [?|?].
    + intros a Ha. destruct (decide (a ∈ malloc H :: xs.*1)) as [Hi|Hi].
      * left. rewrite elem_of_app, list_elem_of_singleton. apply elem_of_cons in Hi as [?|?]; auto.
      * rewrite Hk in Ha by done. destruct (Hdom a Ha) as [?|?]; [|by right]. destruct Hi. by right.
  - injection Hsp as <- <-. destruct xs as [|x xs].
    + unfold pop. rewrite decide_True by (by eapply queue_ok_first). exists H, q. split; [done|]. by exists [].
    + destruct (pop_spec H q x xs Hok) as (H' & q' & -> & Hok' & Hx & Hk). exists H', q'. split; [done|].
      exists xs. split; [done|]. split; [done|]. split.
      * intros a Ha. destruct (Hfr a Ha) as [Hx' Heq]. rewrite Hk by done. split; [|done].
        intros Hi. apply Hx'. by right.
      * intros a Ha. destruct (decide (a ∈ (x :: xs).*1)) as [Hi|Hi].
        -- apply elem_of_cons in Hi as [->|Hi]; [done|by left].
        -- rewrite Hk in Ha by done. destruct (Hdom a Ha) as [?|?]; [done|by right].
  - injection Hsp as <- <-. pose proof (queue_ok_first _ _ _ Hok) as Hf. pose proof (qo_elements _ _ _ Hok) as He.
    assert (is_empty q = Some (bool_decide (xs.*2 = []))) as ->.
    { unfold is_empty. rewrite He. destruct xs as [|x xs]; cbn [length fmap list_fmap].
      - by rewrite (bool_decide_true (Z.of_nat 0 = 0)), orb_true_r.
      - rewrite bool_decide_true by lia. rewrite bool_decide_true by (by rewrite Hf).
        cbn [andb orb]. by rewrite !bool_decide_false by (done || lia). }
    exists H, q. split; [done|]. by exists xs.
  - injection Hsp as <- <-. pose proof (qo_seg _ _ _ Hok) as Hs.
    unfold new_iterator. erewrite walk_spec; [|done|eapply item_seg_size; [done|by apply Hok]].
    exists H, q. split; [done|]. by exists xs.
Qed.
End queues.

(** ** Properties *)

Section properties.
Import ProfileQueue.

(** [C33] For every allocator that returns unused addresses when it succeeds: any
    history of pushes, pops, questions and walks on a queue in which no allocation
    fails behaves as on a sequence of payloads, first in first out, never touches
    a freed item, frees what it pops and changes nothing else in the heap.  The
    allocations must succeed: in any state so reached, a push whose allocation
    fails writes through the null pointer. *)
Theorem profile_queue_fifo (lw : Z) (malloc : heap → N) (H0 H : heap) (q : Queue) (l l' : list N) (os : list op) (rs : list res) :
  (∀ H, malloc H ≠ 0%N ∧ H !! malloc H = None) → queue_in lw H0 H q l → spec_all lw l os = Some (l', rs) →
  ∃ H' q', exec_all lw malloc H q os = Some (H', q', rs) ∧ queue_in lw H0 H' q' l' ∧
    ∀ data, exec lw malloc H' q' (Push data false) = None.
Proof.
  intros Hm. revert H q l rs. induction os as [|o os IH]; intros H q l rs Hq; cbn [exec_all spec_all].
  - intros [= <- <-]. by exists H, q.
  - destruct (spec lw l o) as [[l1 r]|] eqn:Eo; [|done]. cbn. destruct (spec_all lw l1 os) as [[l2 rs2]|] eqn:Eos; [|done].
    intros [= <- <-]. destruct (exec_refines lw malloc Hm H0 H q l o l1 r Hq Eo) as (H1 & q1 & -> & Hq1). cbn [mbind option_bind].
    destruct (IH H1 q1 l1 rs2 Hq1 Eos) as (H2 & q2 & -> & Hq2). cbn [mbind option_bind]. by exists H2, q2.
Qed.

Lemma profile_queue_fifo_witness :
  ∃ H' q', exec_all 32 (λ H, fresh (dom H ∪ {[0%N]})) ∅ new_Queue
      [Push 7 true; Push 8 true; Pop; Push 9 true; Contents; IsEmpty; Pop; Pop; Pop; IsEmpty] =
    Some (H', q', [RUnit; RUnit; RItem 7; RUnit; RList [8%N; 9%N]; RBool false; RItem 8; RItem 9; RItem 0; RBool true]) ∧
    queue_in 32 ∅ H' q' [] ∧ ∀ data, exec 32 (λ H, fresh (dom H ∪ {[0%N]})) H' q' (Push data false) = None.
Proof.
  apply (profile_queue_fifo 32 (λ H, fresh (dom H ∪ {[0%N]})) ∅ ∅ new_Queue []).
  - intros H. pose proof (is_fresh (dom H ∪ {[0%N]})) as Hf. split; [|apply not_elem_of_dom]; set_solver.
  - exists []. split; [|by split_and!]. by split; [| constructor| |].
  - reflexivity.
Defined.

(** [empty] frees every item, but the queue still refers to the first and to the
    last of them: it reports to be empty, while pushing, unless the allocator
    happens to return the address of the last one, and popping access freed
    memory. *)
Theorem profile_queue_empty_dangles (lw : Z) (H : heap) (q : Queue) (x : N * N) (xs : list (N * N)) :
  queue_ok lw H q (x :: xs) →
  ∃ H' q', empty H q = Some (H', q') ∧ is_empty q' = Some true ∧ (∀ a, a ∈ (x :: xs).*1 → H' !! a = None) ∧
    pop lw H' q' = None ∧ ∀ data new_item, new_item ≠ last q → push_back lw H' q' data new_item = None.
Proof.
  intros Hok. destruct (empty_spec lw H q (x :: xs) Hok) as (H' & He & Hd & _). eexists H', _. split; [done|].
  pose proof (qo_seg _ _ _ _ Hok) as Hs. assert (first q = x.1 ∧ first q ≠ 0%N) as [Hf Hf0] by (destruct Hs as (-> & ? & _); done).
  split; [done|]. split; [done|]. split.
  - unfold pop. cbn. rewrite decide_False by done. rewrite Hf, Hd; [done|left].
  - intros data new_item Hne. unfold push_back. cbn [first last elements].
    assert (last q ∈ (x :: xs).*1 ∧ last q ≠ 0%N) as [Hl Hl0].
    { destruct (exists_last (l := x :: xs)) as (ys & y & E); [done|]. rewrite E in *.
      apply item_seg_snoc in Hs as (m & _ & -> & Hy & _). split; [|done]. rewrite fmap_app. apply elem_of_app. right. left. }
    case_decide; [done|]. cbn. rewrite (decide_True (P := last q ≠ 0%N)) by done. by rewrite lookup_insert_ne, Hd by done.
Qed.

Lemma profile_queue_empty_dangles_witness :
  ∃ H' q', empty {[1%N := QI 7 0 0]} (Qu 1 1 1) = Some (H', q') ∧ is_empty q' = Some true ∧ push_back 32 H' q' 8 2 = None.
Proof.
  destruct (profile_queue_empty_dangles 32 {[1%N := QI 7 0 0]} (Qu 1 1 1) (1%N, 7%N) []) as (H' & q' & H1 & H2 & _ & _ & H3).
  - split; [|apply NoDup_singleton|done|done]. cbn. split; [done|]. split; [done|]. exists 0%N. by split; [apply lookup_singleton_eq|].
  - exists H', q'. split; [exact H1|]. split; [exact H2|]. apply H3. done.
Defined.
End properties.
