(* ===== verification/SessionClock.v ===== *)
(** * The clock of a session

    The start times of statements in THD (sql_class.h): [set_system_time],
    [set_start_time], the three forms of [set_time] and the predicates on times.
    The clocks ([my_hrtime], [microsecond_interval_timer]) are arguments, in
    microseconds.  [my_time_t] is a [long], whose width is a parameter; a signed
    increment that overflows is undefined ([None]). *)

From Stdlib Require Import ZArith Lia Sorted.
From stdpp Require Import base numbers list.
From S2P Require Import Prelude.
From S2P Require Import Doubles.
From S2P Require Import Temporal.
Open Scope Z_scope.
Open Scope cint_scope.

Module SessionClock.
Import Temporal.

Definition HRTIME_RESOLUTION : Z := 1000000.

Inductive secure_timestamp := SECTIME_NO | SECTIME_SUPER | SECTIME_REPL | SECTIME_YES.
Definition secure_num (s : secure_timestamp) : Z :=
  match s with SECTIME_NO => 0 | SECTIME_SUPER => 1 | SECTIME_REPL => 2 | SECTIME_YES => 3 end.

(** [system_time.start], [.sec] and [.sec_part] and the times of the statement. *)
Record THD := Thd {
  sys_start : Z; sys_sec : Z; sys_sec_part : Z; user_time : Z; start_time : Z; start_time_sec_part : Z;
  start_utime : Z; utime_after_lock : Z; utime_after_query : Z; query_start_sec_part_used : bool }.

Section long.
Context (lw : Z).

Definition hrtime_to_time (x : Z) : Z := x / HRTIME_RESOLUTION.
Definition hrtime_to_my_time (x : Z) : Z := wraps lw (hrtime_to_time x).
Definition hrtime_sec_part (x : Z) : Z := wrapu lw (x mod HRTIME_RESOLUTION).
Definition hrtime_from_time (x : Z) : Z := u64 (x * HRTIME_RESOLUTION).

Definition with_sys (d : THD) (sec part : Z) : THD :=
  Thd (sys_start d) sec part (user_time d) (start_time d) (start_time_sec_part d) (start_utime d) (utime_after_lock d)
    (utime_after_query d) (query_start_sec_part_used d).
Definition with_start (d : THD) (sec part : Z) : THD :=
  Thd (sys_start d) (sys_sec d) (sys_sec_part d) (user_time d) sec part (start_utime d) (utime_after_lock d)
    (utime_after_query d) (query_start_sec_part_used d).
Definition with_user (d : THD) (t : Z) : THD :=
  Thd (sys_start d) (sys_sec d) (sys_sec_part d) t (start_time d) (start_time_sec_part d) (start_utime d) (utime_after_lock d)
    (utime_after_query d) (query_start_sec_part_used d).
Definition with_utimes (d : THD) (u : Z) : THD :=
  Thd (sys_start d) (sys_sec d) (sys_sec_part d) (user_time d) (start_time d) (start_time_sec_part d) u u
    (utime_after_query d) (query_start_sec_part_used d).

(** [hrtime] is what [my_hrtime] returned. *)
Definition set_system_time (d : THD) (hrtime : Z) : option THD :=
  let sec := hrtime_to_my_time hrtime in
  let sec_part := hrtime_sec_part hrtime in
  if bool_decide (sys_sec d < sec) || (bool_decide (sec = sys_sec d) && bool_decide (sys_sec_part d < sec_part)) ||
     bool_decide (hrtime < sys_start d)
  then Some (with_sys d sec sec_part)
  else if decide (sys_sec_part d < TIME_MAX_SECOND_PART) then Some (with_sys d (sys_sec d) (wrapu lw (sys_sec_part d + 1)))
  else if decide (in_s lw (sys_sec d + 1)) then Some (with_sys d (sys_sec d + 1) 0) else None.

Definition set_start_time (d : THD) (hrtime : Z) : option THD :=
  if decide (user_time d ≠ 0) then Some (with_start d (hrtime_to_my_time (user_time d)) (hrtime_sec_part (user_time d)))
  else d ← set_system_time d hrtime; Some (with_start d (sys_sec d) (sys_sec_part d)).

Definition set_time (d : THD) (hrtime utimer : Z) : option THD :=
  d ← set_start_time d hrtime; Some (with_utimes d utimer).

(** [SET @@timestamp]. *)
Definition set_time_user (d : THD) (t hrtime utimer : Z) : option THD := set_time (with_user d t) hrtime utimer.

(** Replication and the BINLOG command. *)
Definition set_time_binlog (opt_secure_timestamp : Z) (slave_thread : bool) (d : THD) (t sec_part hrtime utimer : Z) : option THD :=
  if decide (secure_num (if slave_thread then SECTIME_REPL else SECTIME_SUPER) < opt_secure_timestamp)
  then set_time d hrtime utimer
  else
    let d :=
      if decide (sec_part ≤ TIME_MAX_SECOND_PART) then with_start (with_sys d t sec_part) t sec_part
      else if decide (t ≠ sys_sec d) then with_start (with_sys d t 0) t 0
      else let p := wrapu lw (sys_sec_part d + 1) in with_start (with_sys d (sys_sec d) p) t p in
    let d := with_user d (u64 (hrtime_from_time (start_time d) + start_time_sec_part d)) in
    Some (with_utimes d utimer).

Definition query_start (d : THD) : Z := start_time d.
Definition query_start_sec_part (d : THD) : THD * Z :=
  (Thd (sys_start d) (sys_sec d) (sys_sec_part d) (user_time d) (start_time d) (start_time_sec_part d) (start_utime d)
     (utime_after_lock d) (utime_after_query d) true, start_time_sec_part d).

Definition set_time_after_lock (d : THD) (utimer : Z) : THD :=
  Thd (sys_start d) (sys_sec d) (sys_sec_part d) (user_time d) (start_time d) (start_time_sec_part d) (start_utime d) utimer
    (utime_after_query d) (query_start_sec_part_used d).
Definition set_time_for_next_stage (d : THD) (utimer : Z) : THD :=
  Thd (sys_start d) (sys_sec d) (sys_sec_part d) (user_time d) (start_time d) (start_time_sec_part d) (start_utime d)
    (utime_after_lock d) utimer (query_start_sec_part_used d).

Definition SERVER_QUERY_WAS_SLOW : Z := 2048.
(** The session and its [server_status]. *)
Definition update_server_status (d : THD) (server_status long_query_time utimer : Z) : THD * Z :=
  let d := set_time_for_next_stage d utimer in
  (d, if decide (u64 (utime_after_lock d + long_query_time) ≤ utime_after_query d)
      then server_status .| SERVER_QUERY_WAS_SLOW else server_status).
End long.

End SessionClock.

(** ** Microseconds *)

Section clock.
Import Temporal SessionClock.
Context (lw : Z) (Hlw : 32 ≤ lw ≤ 64).

Definition micros (sec part : Z) : Z := sec * HRTIME_RESOLUTION + part.
(** The first time that a [long] of seconds cannot hold. *)
Definition horizon : Z := 2 ^ (lw - 1) * HRTIME_RESOLUTION.

Record clock_ok (d : THD) : Prop := {
  ok_sec : 0 ≤ sys_sec d < 2 ^ (lw - 1); ok_part : 0 ≤ sys_sec_part d ≤ TIME_MAX_SECOND_PART }.

Lemma pow_lw : 2 ^ 31 ≤ 2 ^ (lw - 1) < 2 ^ lw.
Proof using Hlw. split; [apply Z.pow_le_mono_r; lia|apply Z.pow_lt_mono_r; lia]. Qed.

(** A reading within the horizon is split exactly. *)
Lemma hrtime_split t : 0 ≤ t < horizon →
  hrtime_to_my_time lw t = t / HRTIME_RESOLUTION ∧ hrtime_sec_part lw t = t mod HRTIME_RESOLUTION ∧
  micros (hrtime_to_my_time lw t) (hrtime_sec_part lw t) = t ∧
  0 ≤ hrtime_to_my_time lw t < 2 ^ (lw - 1) ∧ 0 ≤ hrtime_sec_part lw t ≤ TIME_MAX_SECOND_PART.
Proof using Hlw.
  intros [H0 H1]. pose proof pow_lw as Hp. unfold horizon in H1.
  assert (0 ≤ t / HRTIME_RESOLUTION < 2 ^ (lw - 1)) as Hq.
  { split; [by apply Z.div_pos|]. apply Z.div_lt_upper_bound; [done|]. unfold HRTIME_RESOLUTION in *. lia. }
  assert (0 ≤ t mod HRTIME_RESOLUTION < HRTIME_RESOLUTION) as Hr by (by apply Z.mod_pos_bound).
  unfold hrtime_to_my_time, hrtime_sec_part, hrtime_to_time.
  rewrite wraps_small by (unfold in_s; lia). rewrite wrapu_small by (unfold in_u, HRTIME_RESOLUTION in *; lia).
  unfold micros, TIME_MAX_SECOND_PART. pose proof (Z.div_mod t HRTIME_RESOLUTION). unfold HRTIME_RESOLUTION in *. lia.
Qed.

(** The time goes to the reading, or one microsecond on when that is not later. *)
Lemma set_system_time_micros d hrtime :
  clock_ok d → 0 ≤ hrtime < horizon → micros (sys_sec d) (sys_sec_part d) + 1 < horizon →
  ∃ sec part, set_system_time lw d hrtime = Some (with_sys d sec part) ∧ clock_ok (with_sys d sec part) ∧
    micros sec part = if decide (hrtime < sys_start d) then hrtime else Z.max (micros (sys_sec d) (sys_sec_part d) + 1) hrtime.
Proof using Hlw.
  intros [Hs Hp] Hh Hm. destruct (hrtime_split hrtime Hh) as (_ & _ & Et & Hs' & Hp'). pose proof pow_lw as Hpow.
  unfold set_system_time. revert Et Hs' Hp'. generalize (hrtime_to_my_time lw hrtime), (hrtime_sec_part lw hrtime).
  intros sec part Et Hs' Hp'. unfold micros, horizon, HRTIME_RESOLUTION, TIME_MAX_SECOND_PART in *.
  repeat case_bool_decide; cbn [orb andb]; try (exists sec, part; split; [done|]; split; [by split|]; case_decide; lia).
  all: rewrite (decide_False (P := hrtime < sys_start d)) by lia; case_decide.
  all: try (eexists _, _; split; [done|]; rewrite wrapu_small by (unfold in_u; lia); split; [split; cbn; unfold TIME_MAX_SECOND_PART; lia|lia]).
  all: rewrite decide_True by (unfold in_s; lia); eexists _, _; split; [done|]; split; [split; cbn; unfold TIME_MAX_SECOND_PART; lia|lia].
Qed.

(** The start times of statements, one for each reading of the clock. *)
Fixpoint start_times (d : THD) (hrs : list (Z * Z)) : option (THD * list Z) :=
  match hrs with
  | [] => Some (d, [])
  | (hr, ut) :: hrs =>
      d ← set_time lw d hr ut; '(d', ts) ← start_times d hrs; Some (d', micros (query_start d) (query_start_sec_part d).2 :: ts)
  end.
(** Each is the reading, or one more than the one before. *)
Fixpoint clock_spec (m : Z) (hrs : list (Z * Z)) : list Z :=
  match hrs with [] => [] | (hr, _) :: hrs => let m := Z.max (m + 1) hr in m :: clock_spec m hrs end.

Lemma clock_spec_sorted hrs : ∀ m, StronglySorted Z.lt (m :: clock_spec m hrs).
Proof.
  assert (∀ hrs m b, b ≤ m → Forall (Z.lt b) (clock_spec m hrs)) as Hall.
  { clear hrs. intros hrs. induction hrs as [|[hr ut] hrs IH]; intros m b Hb; cbn; constructor; [lia|]. apply IH. lia. }
  induction hrs as [|[hr ut] hrs IH]; intros m; constructor; cbn; [constructor|constructor|apply IH|].
  constructor; [lia|]. apply Hall. lia.
Qed.

Lemma clock_spec_reading hrs : ∀ m, Forall2 (λ x t, x.1 ≤ t) hrs (clock_spec m hrs).
Proof. induction hrs as [|[hr ut] hrs IH]; intros m; cbn; constructor; [cbn; lia|apply IH]. Qed.

Lemma start_times_spec hrs : ∀ d, clock_ok d → user_time d = 0 →
  Forall (λ x, sys_start d ≤ x.1 ∧ 0 ≤ x.1 ∧ x.1 + Z.of_nat (length hrs) < horizon) hrs →
  micros (sys_sec d) (sys_sec_part d) + Z.of_nat (length hrs) < horizon →
  ∃ d', start_times d hrs = Some (d', clock_spec (micros (sys_sec d) (sys_sec_part d)) hrs) ∧ clock_ok d'.
Proof using Hlw.
  induction hrs as [|[hr ut] hrs IH]; intros d Hd Hu Hr Hm; cbn [start_times clock_spec]; [by exists d|].
  apply Forall_cons in Hr as [(Hst & Hr0 & Hr1) Hr]. cbn [length fst] in *.
  destruct (set_system_time_micros d hr Hd) as (sec & part & Hset & Hok & Hmi); [lia..|].
  rewrite decide_False in Hmi by lia. unfold set_time, set_start_time. rewrite decide_False by (by rewrite Hu; intros []).
  rewrite Hset. cbn [mbind option_bind]. set (d1 := with_utimes _ _).
  destruct (IH d1) as (d' & -> & Hok'); cbn [sys_sec sys_sec_part user_time sys_start d1 with_utimes with_start with_sys].
  - destruct Hok as [H1 H2]. by split.
  - done.
  - eapply Forall_impl; [exact Hr|]. cbn. intros x (? & ? & ?). lia.
  - rewrite Hmi. lia.
  - exists d'. split; [|done]. cbn. unfold query_start. cbn. by rewrite Hmi.
Qed.
End clock.

(** ** Events without microseconds *)

Section binlog.
Import Temporal SessionClock.
Context (lw : Z) (Hlw : 32 ≤ lw ≤ 64).

(** [n] events of the second [t] from a log without fractions. *)
Fixpoint binlog_events (n : nat) (d : THD) (t : Z) : option THD :=
  match n with
  | O => Some d
  | S n => d ← binlog_events n d t; set_time_binlog lw 0 true d t (TIME_MAX_SECOND_PART + 1) 0 0
  end.

Lemma binlog_events_parts d t n : sys_sec d ≠ t → Z.of_nat n < 2 ^ 32 →
  ∃ d', binlog_events (S n) d t = Some d' ∧ start_time d' = t ∧ start_time_sec_part d' = Z.of_nat n ∧
    sys_sec d' = t ∧ sys_sec_part d' = Z.of_nat n.
Proof using Hlw.
  intros Hne. assert (2 ^ 32 ≤ 2 ^ lw) as Hp by (apply Z.pow_le_mono_r; lia).
  induction n as [|n IH]; intros Hn.
  - cbn -[set_time_binlog]. unfold set_time_binlog. cbn [secure_num]. rewrite decide_False by lia.
    rewrite decide_False by lia. rewrite decide_True by congruence. by eexists.
  - destruct IH as (d1 & E1 & H1 & H2 & H3 & H4); [lia|]. change (binlog_events (S (S n)) d t) with
      (x ← binlog_events (S n) d t; set_time_binlog lw 0 true x t (TIME_MAX_SECOND_PART + 1) 0 0).
    rewrite E1. cbn [mbind option_bind]. unfold set_time_binlog. cbn [secure_num]. rewrite decide_False by lia.
    rewrite decide_False by lia. rewrite decide_False by (intros []; congruence). eexists. split; [done|]. cbn.
    rewrite H4, wrapu_small by (unfold in_u; lia). split_and!; [done|lia|done|lia].
Qed.
End binlog.

(** ** Properties *)

Section properties.
Import Temporal SessionClock.

(** [C25] While the user has set no time and the clock does not fall behind
    [system_time.start]: the start times of the statements of a session are the
    readings of the clock, or one microsecond after the statement before when the
    clock has not moved on.  They strictly increase, are never before their
    reading, and no assertion or overflow happens up to the last second a [long]
    can hold. *)
Theorem statement_times_increase (lw : Z) (d : THD) (hrs : list (Z * Z)) :
  32 ≤ lw ≤ 64 → clock_ok lw d → user_time d = 0 →
  Forall (λ x, sys_start d ≤ x.1 ∧ 0 ≤ x.1 ∧ x.1 + Z.of_nat (length hrs) < horizon lw) hrs →
  micros (sys_sec d) (sys_sec_part d) + Z.of_nat (length hrs) < horizon lw →
  ∃ d' ts, start_times lw d hrs = Some (d', ts) ∧ ts = clock_spec (micros (sys_sec d) (sys_sec_part d)) hrs ∧
    StronglySorted Z.lt (micros (sys_sec d) (sys_sec_part d) :: ts) ∧ Forall2 (λ x t, x.1 ≤ t) hrs ts ∧ clock_ok lw d'.
Proof.
  intros Hlw Hd Hu Hr Hm. destruct (start_times_spec lw Hlw hrs d Hd Hu Hr Hm) as (d' & E & Hok).
  eexists d', _. split; [exact E|]. split; [done|]. split; [apply clock_spec_sorted|]. split; [apply clock_spec_reading|done].
Qed.

Lemma statement_times_increase_witness :
  ∃ d' ts, start_times 32 (Thd 0 0 0 0 0 0 0 0 0 false) [(1700000000999999, 1); (1700000000999999, 2); (1700000000500000, 3); (1700000002000000, 4)] =
    Some (d', ts) ∧ ts = [1700000000999999; 1700000001000000; 1700000001000001; 1700000002000000].
Proof.
  destruct (statement_times_increase 32 (Thd 0 0 0 0 0 0 0 0 0 false)
    [(1700000000999999, 1); (1700000000999999, 2); (1700000000500000, 3); (1700000002000000, 4)]) as (d' & ts & H1 & H2 & _);
    [lia|split; cbn; unfold TIME_MAX_SECOND_PART; lia|reflexivity|repeat constructor; cbn; unfold horizon, HRTIME_RESOLUTION; lia|
     cbn; unfold micros, horizon, HRTIME_RESOLUTION; cbn; lia|].
  exists d', ts. split; [exact H1|]. rewrite H2. reflexivity.
Defined.

(** A time set by the user, or by an event of the binary log with microseconds,
    becomes the start time exactly, and stays the start time of every statement
    that follows, whatever the clock says. *)
Theorem set_timestamp_freezes (lw : Z) (d : THD) (t hrtime utimer : Z) :
  32 ≤ lw ≤ 64 → 0 < t < horizon lw → t < 2 ^ 64 →
  ∃ d1 d2, set_time_user lw d t hrtime utimer = Some d1 ∧
    set_time_binlog lw 0 true d (t / HRTIME_RESOLUTION) (t mod HRTIME_RESOLUTION) hrtime utimer = Some d2 ∧
    ∀ d', d' = d1 ∨ d' = d2 → micros (start_time d') (start_time_sec_part d') = t ∧
      ∀ hr ut, ∃ d'', set_time lw d' hr ut = Some d'' ∧ start_time d'' = start_time d' ∧
        start_time_sec_part d'' = start_time_sec_part d' ∧ user_time d'' = t.
Proof.
  intros Hlw Ht Ht64. destruct (hrtime_split lw Hlw t) as (Eq & Er & Em & Hq & Hr); [lia|].
  assert (u64 (hrtime_from_time (hrtime_to_my_time lw t) + hrtime_sec_part lw t) = t) as Eu.
  { unfold hrtime_from_time, wrapu. rewrite Zplus_mod_idemp_l. unfold micros in Em. rewrite Em. apply Z.mod_small. lia. }
  unfold set_time_user, set_time, set_start_time. cbn [user_time with_user]. rewrite (decide_True (P := t ≠ 0)) by lia.
  cbn [mbind option_bind]. unfold set_time_binlog. cbn [secure_num]. rewrite decide_False by lia.
  rewrite <- Eq, <- Er, decide_True by lia. cbn [start_time start_time_sec_part with_start with_sys]. rewrite Eu.
  eexists _, _. split; [done|]. split; [done|]. intros d' Hd'.
  assert (user_time d' = t ∧ start_time d' = hrtime_to_my_time lw t ∧ start_time_sec_part d' = hrtime_sec_part lw t) as (E1 & E2 & E3)
    by (by destruct Hd' as [-> | ->]).
  rewrite E2, E3. split; [done|]. intros hr ut. rewrite E1, decide_True by lia. cbn. by eexists.
Qed.

Lemma set_timestamp_freezes_witness :
  ∃ d1, set_time_user 32 (Thd 0 0 0 0 0 0 0 0 0 false) 1700000000123456 5 6 = Some d1 ∧
    start_time d1 = 1700000000 ∧ start_time_sec_part d1 = 123456.
Proof.
  destruct (set_timestamp_freezes 32 (Thd 0 0 0 0 0 0 0 0 0 false) 1700000000123456 5 6) as (d1 & d2 & H1 & _ & H2);
    [lia|unfold horizon, HRTIME_RESOLUTION; lia|lia|].
  exists d1. split; [exact H1|]. destruct (H2 d1 (or_introl eq_refl)) as [H3 _]. clear H2.
  vm_compute in H1. injection H1 as <-. split; reflexivity.
Defined.

(** Events of a log without microseconds that fall into the same second are told
    apart by counting up the fraction, without a carry into the seconds: the
    event after a million others gets a fraction of a whole second, which is not
    valid. *)
Theorem binlog_time_no_carry (lw : Z) (d : THD) (t : Z) (n : nat) :
  32 ≤ lw ≤ 64 → sys_sec d ≠ t → Z.of_nat n < 2 ^ 32 →
  ∃ d', binlog_events lw (S n) d t = Some d' ∧ start_time d' = t ∧ start_time_sec_part d' = Z.of_nat n ∧
    (start_time_sec_part d' ≤ TIME_MAX_SECOND_PART ↔ Z.of_nat n < 10 ^ 6).
Proof.
  intros Hlw Hne Hn. destruct (binlog_events_parts lw Hlw d t n Hne Hn) as (d' & E & H1 & H2 & _).
  exists d'. split; [done|]. split; [done|]. split; [done|]. rewrite H2. unfold TIME_MAX_SECOND_PART. lia.
Qed.

Lemma binlog_time_no_carry_witness :
  ∃ d', binlog_events 32 (S 3) (Thd 0 0 0 0 0 0 0 0 0 false) 1700000000 = Some d' ∧ start_time_sec_part d' = 3.
Proof.
  destruct (binlog_time_no_carry 32 (Thd 0 0 0 0 0 0 0 0 0 false) 1700000000 3) as (d' & H1 & _ & H2 & _); [lia|discriminate|reflexivity|].
  exists d'. split; [exact H1|exact H2].
Defined.
End properties.
