(* ===== verification/Session.v ===== *)
(** * The session

    Parts of THD of sql_class.h that keep a state of their own: the kill state, the
    insert ids of a statement, the format of the binary log, the removal of doubled
    quotes, the waits of parallel transactions for prior commits, and what the
    session does with the transaction contexts of Trans.v. *)

From Stdlib Require Import ZArith Lia.
From stdpp Require Import base numbers option list gmap.
From S2P Require Import Prelude.
From S2P Require Import Trans.
Open Scope Z_scope.
Open Scope cint_scope.

(** ** Kills *)

Module Kill.

Definition NOT_KILLED : Z := 0.
Definition KILL_HARD_BIT : Z := 1.
Definition KILL_BAD_DATA : Z := 2.
Definition KILL_BAD_DATA_HARD : Z := 3.
Definition KILL_QUERY : Z := 4.
Definition KILL_QUERY_HARD : Z := 5.
Definition ABORT_QUERY : Z := 6.
Definition ABORT_QUERY_HARD : Z := 7.
Definition KILL_TIMEOUT : Z := 8.
Definition KILL_TIMEOUT_HARD : Z := 9.
Definition KILL_SLAVE_SAME_ID : Z := 10.
Definition KILL_CONNECTION : Z := 12.
Definition KILL_CONNECTION_HARD : Z := 13.
Definition KILL_SYSTEM_THREAD : Z := 14.
Definition KILL_SYSTEM_THREAD_HARD : Z := 15.
Definition KILL_SERVER : Z := 16.
Definition KILL_SERVER_HARD : Z := 17.
Definition KILL_WAIT_TIMEOUT : Z := 18.
Definition KILL_WAIT_TIMEOUT_HARD : Z := 19.
Definition killed_mask_hard (killed : Z) : Z := killed .& Z.lnot KILL_HARD_BIT.

Record err_info := Err { no : Z; msg : list Z }.
(** [abort] is that of [mysys_var]. *)
Record THD := Thd { killed : Z; killed_err : option err_info; abort : Z; is_slave_error : bool }.

(** [strmake] into the 256 bytes of the message; [alloc] says whether there is
    memory for it. *)
Definition set_killed_no_mutex (alloc : bool) (d : THD) (killed_arg killed_errno_arg : Z) (killed_err_msg_arg : list Z) : THD :=
  if decide (killed d ≤ killed_arg) then
    Thd killed_arg
      (if decide (killed_errno_arg ≠ 0)
       then if alloc then Some (Err killed_errno_arg (take 255 killed_err_msg_arg)) else None else killed_err d)
      (abort d) (is_slave_error d)
  else d.
(** The same with the mutex held. *)
Definition set_killed := set_killed_no_mutex.

Section elsewhere.
(** [reset_killed], [killed_errno] and the texts of errors are defined elsewhere. *)
Context (reset_killed : THD → THD) (killed_errno : THD → Z) (ER_THD : Z → list Z).

Definition reset_kill_query (d : THD) : THD :=
  if decide (killed d < KILL_CONNECTION) then
    let d := reset_killed d in Thd (killed d) (killed_err d) 0 (is_slave_error d)
  else d.

(** The error that is sent, if any. *)
Definition send_kill_message (d : THD) : option (Z * list Z) :=
  let err := killed_errno d in
  if decide (err ≠ 0) then Some (err, match killed_err d with Some e => msg e | None => ER_THD err end) else None.

(** The requests of other threads are processed when the session goes on. *)
Definition check_killed (d : THD) (dont_send_error_message : bool) : bool * option (Z * list Z) :=
  if decide (killed d ≠ 0) then (true, if dont_send_error_message then None else send_kill_message d) else (false, None).

(** The part of [clear_error] outside of the diagnostics area. *)
Definition clear_error (d : THD) : THD :=
  let d := Thd (killed d) (killed_err d) (abort d) false in
  if decide (killed d = KILL_BAD_DATA) then reset_killed d else d.
End elsewhere.

End Kill.

(** ** Insert ids *)

Module InsertId.

Record THD := Thd {
  first_successful_insert_id_in_cur_stmt : Z; first_successful_insert_id_in_prev_stmt : Z;
  first_successful_insert_id_in_prev_stmt_for_binlog : Z; stmt_depends_on_first_successful_insert_id_in_prev_stmt : bool }.

Definition record_first_successful_insert_id_in_cur_stmt (d : THD) (id_arg : Z) : THD :=
  if decide (first_successful_insert_id_in_cur_stmt d = 0) then
    Thd id_arg (first_successful_insert_id_in_prev_stmt d) (first_successful_insert_id_in_prev_stmt_for_binlog d)
      (stmt_depends_on_first_successful_insert_id_in_prev_stmt d)
  else d.

Definition read_first_successful_insert_id_in_prev_stmt (d : THD) : THD * Z :=
  let d := if negb (stmt_depends_on_first_successful_insert_id_in_prev_stmt d) then
             Thd (first_successful_insert_id_in_cur_stmt d) (first_successful_insert_id_in_prev_stmt d)
               (first_successful_insert_id_in_prev_stmt d) true
           else d in
  (d, first_successful_insert_id_in_prev_stmt d).

End InsertId.

(** ** The format of the binary log *)

Module BinlogFormat.

Inductive enum_binlog_format := BINLOG_FORMAT_MIXED | BINLOG_FORMAT_STMT | BINLOG_FORMAT_ROW | BINLOG_FORMAT_UNSPEC.
#[global] Instance enum_binlog_format_eq_dec : EqDecision enum_binlog_format.
Proof. solve_decision. Defined.

(** [binlog_format] is the variable of the session, [temporary_tables] whether
    there are any. *)
Record THD := Thd {
  binlog_format : enum_binlog_format; current_stmt_binlog_format : enum_binlog_format; in_sub_stmt : Z; temporary_tables : bool }.

(** Without Galera [WSREP_FORMAT] is the identity. *)
Definition wsrep_binlog_format (d : THD) : enum_binlog_format := binlog_format d.
Definition has_thd_temporary_tables (d : THD) : bool := temporary_tables d.

Definition get_binlog_format (d : THD) : enum_binlog_format * enum_binlog_format := (binlog_format d, current_stmt_binlog_format d).
Definition get_current_stmt_binlog_format (d : THD) : enum_binlog_format := current_stmt_binlog_format d.
Definition set_binlog_format (d : THD) (format current_format : enum_binlog_format) : THD :=
  Thd format current_format (in_sub_stmt d) (temporary_tables d).
Definition set_binlog_format_stmt (d : THD) : THD := Thd BINLOG_FORMAT_STMT BINLOG_FORMAT_STMT (in_sub_stmt d) (temporary_tables d).
Definition set_current_stmt_binlog_format (d : THD) (format : enum_binlog_format) : THD :=
  Thd (binlog_format d) format (in_sub_stmt d) (temporary_tables d).
Definition set_current_stmt_binlog_format_row (d : THD) : THD := set_current_stmt_binlog_format d BINLOG_FORMAT_ROW.
Definition set_current_stmt_binlog_format_stmt (d : THD) : THD * enum_binlog_format :=
  let orig_format := current_stmt_binlog_format d in (set_current_stmt_binlog_format d BINLOG_FORMAT_STMT, orig_format).

(** Another format than these two fails the assertion. *)
Definition is_current_stmt_binlog_format_row (d : THD) : option bool :=
  match current_stmt_binlog_format d with
  | BINLOG_FORMAT_STMT => Some false | BINLOG_FORMAT_ROW => Some true | _ => None
  end.

Definition restore_stmt_binlog_format (d : THD) (format : enum_binlog_format) : option THD :=
  r ← is_current_stmt_binlog_format_row d; if r : bool then None else Some (set_current_stmt_binlog_format d format).

Definition set_current_stmt_binlog_format_row_if_mixed (d : THD) : THD :=
  if bool_decide (wsrep_binlog_format d = BINLOG_FORMAT_MIXED) && bool_decide (in_sub_stmt d = 0)
  then set_current_stmt_binlog_format_row d else d.

Definition reset_current_stmt_binlog_format_row (d : THD) : THD :=
  if decide (in_sub_stmt d = 0) then
    if decide (wsrep_binlog_format d = BINLOG_FORMAT_ROW) then set_current_stmt_binlog_format_row d
    else if negb (has_thd_temporary_tables d) then (set_current_stmt_binlog_format_stmt d).1 else d
  else d.

End BinlogFormat.

(** ** Doubled quotes *)

Module Unescape.

(** The loop: [tmp] is the position in the source, [to] that in the new string;
    a write outside of it is undefined. *)
Fixpoint unescape_loop (fuel : nat) (src : list Z) (quote : Z) (tmp : nat) (dst : list Z) (to : nat) : option (list Z * nat) :=
  if decide (tmp < length src)%nat then
    match fuel with
    | O => None
    | S fuel =>
        c ← src !! tmp; _ ← dst !! to;
        unescape_loop fuel src quote (if decide (c = quote) then S (S tmp) else S tmp) (<[to := c]> dst) (S to)
    end
  else Some (dst, to).

(** [dst] is the memory [alloc] returned, of [length src + 1] bytes, or nothing;
    the result is whether there was an error, the string and its length. *)
Definition quote_unescape (dst : option (list Z)) (src : list Z) (quote : Z) : option (bool * list Z * nat) :=
  match dst with
  | None => Some (true, [], O)
  | Some dst =>
      '(dst, to) ← unescape_loop (length src) src quote 0 dst 0;
      _ ← dst !! to;
      Some (false, <[to := 0]> dst, to)
  end.

End Unescape.

(** ** Waiting for prior commits *)

Module WaitForCommit.

Record wait_for_commit := Wfc {
  subsequent_commits_list : N; next_subsequent_commit : N; waitee : N; wakeup_error : Z;
  wakeup_subsequent_commits_running : bool; commit_started : bool }.
Notation heap := (gmap N wait_for_commit).

(** A pointer to a link: to the list of an object or to its link field. *)
Inductive link := ListOf (p : N) | NextOf (p : N).
Definition get_link (H : heap) (r : link) : option N :=
  match r with
  | ListOf p => w ← H !! p; Some (subsequent_commits_list w)
  | NextOf p => w ← H !! p; Some (next_subsequent_commit w)
  end.
Definition set_link (H : heap) (r : link) (v : N) : option heap :=
  match r with
  | ListOf p => w ← H !! p; Some (<[p := Wfc v (next_subsequent_commit w) (waitee w) (wakeup_error w)
                                     (wakeup_subsequent_commits_running w) (commit_started w)]> H)
  | NextOf p => w ← H !! p; Some (<[p := Wfc (subsequent_commits_list w) v (waitee w) (wakeup_error w)
                                     (wakeup_subsequent_commits_running w) (commit_started w)]> H)
  end.
Definition set_waitee (H : heap) (this v : N) : option heap :=
  w ← H !! this; Some (<[this := Wfc (subsequent_commits_list w) (next_subsequent_commit w) v (wakeup_error w)
                                   (wakeup_subsequent_commits_running w) (commit_started w)]> H).

(** The loop; [None] too when the fuel ends first. *)
Fixpoint remove_loop (fuel : nat) (H : heap) (this : N) (next_ptr_ptr : link) : option heap :=
  cur ← get_link H next_ptr_ptr;
  if decide (cur = 0%N) then Some H else
  if decide (cur = this) then n ← get_link H (NextOf this); set_link H next_ptr_ptr n else
  match fuel with O => None | S fuel => remove_loop fuel H this (NextOf cur) end.
Definition remove_from_list (H : heap) (this : N) (next_ptr_ptr : link) : option heap :=
  H ← remove_loop (size H) H this next_ptr_ptr; set_waitee H this 0.

Section elsewhere.
(** The slow paths are defined elsewhere; each returns the heap. *)
Context (wait_for_prior_commit2 : heap → N → option (heap * Z)) (wakeup_subsequent_commits2 : heap → N → Z → option heap)
  (unregister_wait_for_prior_commit2 : heap → N → option heap).

Definition wait_for_prior_commit (H : heap) (this : N) : option (heap * Z) :=
  w ← H !! this; if decide (waitee w ≠ 0%N) then wait_for_prior_commit2 H this else Some (H, wakeup_error w).
Definition wakeup_subsequent_commits (H : heap) (this : N) (wakeup_error_arg : Z) : option heap :=
  w ← H !! this;
  if decide (subsequent_commits_list w ≠ 0%N) then wakeup_subsequent_commits2 H this wakeup_error_arg else Some H.
Definition unregister_wait_for_prior_commit (H : heap) (this : N) : option heap :=
  w ← H !! this;
  if decide (waitee w ≠ 0%N) then unregister_wait_for_prior_commit2 H this
  else Some (<[this := Wfc (subsequent_commits_list w) (next_subsequent_commit w) (waitee w) 0
                         (wakeup_subsequent_commits_running w) (commit_started w)]> H).

(** The session's pointer, and the same calls through it. *)
Definition thd_wait_for_prior_commit (H : heap) (ptr : N) : option (heap * Z) :=
  if decide (ptr ≠ 0%N) then wait_for_prior_commit H ptr else Some (H, 0).
Definition thd_wakeup_subsequent_commits (H : heap) (ptr : N) (wakeup_error_arg : Z) : option heap :=
  if decide (ptr ≠ 0%N) then wakeup_subsequent_commits H ptr wakeup_error_arg else Some H.
Definition suspend_subsequent_commits (ptr : N) : N * N := (0%N, ptr).
(** The pointer must be null. *)
Definition resume_subsequent_commits (ptr suspended : N) : option N := if decide (ptr = 0%N) then Some suspended else None.
End elsewhere.

End WaitForCommit.

(** ** The contexts of a session *)

Module Transactions.
Import Trans.

(** [merge_unsafe_rollback_flags]: the flags of the statement become flags of the
    transaction. *)
Definition merge_unsafe_rollback_flags (stmt all : THD_TRANS) : THD_TRANS :=
  let all := if modified_non_trans_table stmt then Tt (no_2pc all) (ha_list all) true (m_unsafe_rollback_flags all) else all in
  Tt (no_2pc all) (ha_list all) (modified_non_trans_table all)
    (m_unsafe_rollback_flags all .|
     (m_unsafe_rollback_flags stmt .& (DID_WAIT .| CREATED_TEMP_TABLE .| DROPPED_TEMP_TABLE .| DID_DDL))).

Record variables := Vars {
  idle_write_transaction_timeout : Z; idle_readonly_transaction_timeout : Z; idle_transaction_timeout : Z; net_wait_timeout : Z }.

Definition SERVER_STATUS_IN_TRANS : Z := 1.
Definition in_active_multi_stmt_transaction (server_status : Z) : bool := bool_decide (server_status .& SERVER_STATUS_IN_TRANS ≠ 0).

Definition get_net_wait_timeout (H : gmap N Ha_trx_info) (all : THD_TRANS) (server_status : Z) (v : variables) : option Z :=
  if in_active_multi_stmt_transaction server_status then
    rw ← is_trx_read_write H all;
    let t := if rw : bool then idle_write_transaction_timeout v else idle_readonly_transaction_timeout v in
    Some (if decide (0 < t) then t else if decide (0 < idle_transaction_timeout v) then idle_transaction_timeout v
          else net_wait_timeout v)
  else Some (net_wait_timeout v).

End Transactions.

(** ** Histories of kills *)

Section kills.
Import Kill.
Context (reset_killed : THD → THD).

(** A request to kill: the state asked for, error number and text, and whether
    there was memory for them. *)
Record request := Req { r_state : Z; r_errno : Z; r_msg : list Z; r_alloc : bool }.
Inductive event := KillReq (r : request) | ResetQuery | ClearError.

Definition kill (d : THD) (r : request) : THD := set_killed (r_alloc r) d (r_state r) (r_errno r) (r_msg r).
Definition happen (d : THD) (e : event) : THD :=
  match e with
  | KillReq r => kill d r
  | ResetQuery => reset_kill_query reset_killed d
  | ClearError => clear_error reset_killed d
  end.

Lemma kill_state d r : killed (kill d r) = Z.max (killed d) (r_state r).
Proof. unfold kill, set_killed, set_killed_no_mutex. case_decide; cbn; lia. Qed.

Lemma kills_state rs : ∀ d, killed (foldl kill d rs) = foldl Z.max (killed d) (r_state <$> rs).
Proof. induction rs as [|r rs IH]; intros d; cbn; [done|]. by rewrite IH, kill_state. Qed.

(** Requests that are weaker, or come without an error number, keep the text. *)
Lemma kills_keep_err rs : ∀ d, Forall (λ r, r_state r < killed d ∨ r_errno r = 0) rs → killed_err (foldl kill d rs) = killed_err d.
Proof.
  induction rs as [|r rs IH]; intros d Hr; cbn; [done|]. apply Forall_cons in Hr as [Hr Hrs]. rewrite IH.
  - unfold kill, set_killed, set_killed_no_mutex. case_decide; [|done]. cbn. by rewrite decide_False by lia.
  - eapply Forall_impl; [exact Hrs|]. cbn. intros x Hx. rewrite kill_state. lia.
Qed.

Context (reset_law : ∀ d, killed (reset_killed d) = NOT_KILLED).

Lemma happen_connection d e :
  (KILL_CONNECTION ≤ killed (happen d e)) ↔
  (KILL_CONNECTION ≤ killed d ∨ ∃ r, e = KillReq r ∧ KILL_CONNECTION ≤ r_state r).
Proof using reset_law.
  destruct e as [r| |]; cbn.
  - rewrite kill_state. split; [|intros [?|(r' & [= ->] & ?)]; lia].
    intros Hm. destruct (Z.max_spec (killed d) (r_state r)) as [[_ E]|[_ E]]; rewrite E in Hm; [right|by left]. by exists r.
  - unfold reset_kill_query. case_decide; cbn; [rewrite reset_law; unfold NOT_KILLED, KILL_CONNECTION in *|]; split.
    1: lia. 1: intros [?|(r & ? & _)]; [lia|done]. 1: by left. by intros [?|(r & ? & _)].
  - unfold clear_error. cbn. case_decide as Hk; cbn; [rewrite reset_law|]; split; unfold NOT_KILLED, KILL_BAD_DATA, KILL_CONNECTION in *.
    1: lia. 1: intros [?|(r & ? & _)]; [lia|done]. 1: by left. by intros [?|(r & ? & _)].
Qed.
End kills.

(** ** Chains of waiters *)

Section waiters.
Import WaitForCommit.

(** The objects a link leads to. *)
Fixpoint waiters (H : heap) (p : N) (l : list N) : Prop :=
  match l with
  | [] => p = 0%N
  | a :: l => p = a ∧ a ≠ 0%N ∧ ∃ w, H !! a = Some w ∧ waiters H (next_subsequent_commit w) l
  end.

Lemma waiters_frame H H' l : ∀ p,
  (∀ a, a ∈ l → next_subsequent_commit <$> H' !! a = next_subsequent_commit <$> H !! a) → waiters H p l → waiters H' p l.
Proof.
  induction l as [|a l IH]; intros p Hf; cbn; [done|]. intros (-> & Ha & w & Hw & Hl). split; [done|]. split; [done|].
  pose proof (Hf a (list_elem_of_here _ _)) as Hn. rewrite Hw in Hn. cbn in Hn. apply fmap_Some in Hn as (w' & Hw' & E).
  exists w'. split; [done|]. rewrite <- E. apply IH; [|done]. intros b Hb. apply Hf. by right.
Qed.

Lemma waiters_size H p l : waiters H p l → NoDup l → (length l ≤ size H)%nat.
Proof.
  intros Hl Hn. rewrite <- (size_list_to_set (C := gset N)), <- size_dom by done. apply subseteq_size.
  intros a Ha. apply elem_of_list_to_set in Ha. clear Hn. revert p Hl. induction l as [|b l IH]; intros p; [by apply elem_of_nil in Ha|].
  cbn. intros (-> & _ & w & Hw & Hl). apply elem_of_cons in Ha as [->|Ha]; [by eapply elem_of_dom_2|by eapply IH].
Qed.

(** What no link is part of. *)
Definition rest (w : wait_for_commit) : N * Z * bool * bool :=
  (waitee w, wakeup_error w, wakeup_subsequent_commits_running w, commit_started w).

(** Between two heaps only the link [r] and the links of the objects of [l] may
    differ. *)
Record only_links (H H' : heap) (r : link) (l : list N) : Prop := {
  ol_next : ∀ a, a ∉ l → r ≠ NextOf a → next_subsequent_commit <$> H' !! a = next_subsequent_commit <$> H !! a;
  ol_list : ∀ a, r ≠ ListOf a → subsequent_commits_list <$> H' !! a = subsequent_commits_list <$> H !! a;
  ol_rest : ∀ a, rest <$> H' !! a = rest <$> H !! a }.

Lemma only_links_refl H r l : only_links H H r l.
Proof. by split. Qed.

Lemma set_link_spec H r p v : get_link H r = Some p →
  ∃ H', set_link H r v = Some H' ∧ get_link H' r = Some v ∧ only_links H H' r [] ∧
    (∀ a, r ≠ NextOf a → next_subsequent_commit <$> H' !! a = next_subsequent_commit <$> H !! a).
Proof.
  intros Hg. destruct r as [o|o]; cbn in *; (destruct (H !! o) as [w|] eqn:Ho; [|done]); cbn; eexists; (split; [done|]);
    rewrite lookup_insert_eq; (split; [done|]).
  all: assert (∀ a (f : wait_for_commit → wait_for_commit), a = o ∨ (<[o := f w]> H) !! a = H !! a) as Hi
    by (intros a f; destruct (decide (a = o)) as [->|Hne]; [by left|right; by rewrite lookup_insert_ne]).
  all: split; [split|]; intros a; intros; destruct (decide (a = o)) as [->|Hne];
    rewrite ?lookup_insert_eq, ?lookup_insert_ne, ?Ho by done; try done; congruence.
Qed.

Lemma get_link_next H a w : H !! a = Some w → get_link H (NextOf a) = Some (next_subsequent_commit w).
Proof. cbn. by intros ->. Qed.

(** Reading a link that may not differ. *)
Lemma only_links_get H H' a l r p : only_links H H' (NextOf a) l → get_link H r = Some p →
  r ≠ NextOf a → (∀ b, r = NextOf b → b ∉ l) → get_link H' r = Some p.
Proof.
  intros [Hn Hl _] Hg Hr Hb. destruct r as [o|o]; cbn in *.
  - pose proof (Hl o ltac:(done)) as E. destruct (H !! o) as [w|]; [|done]. cbn in *.
    apply fmap_Some in E as (w' & -> & Ew). cbn. congruence.
  - pose proof (Hn o (Hb o eq_refl) ltac:(congruence)) as E. destruct (H !! o) as [w|]; [|done]. cbn in *.
    apply fmap_Some in E as (w' & -> & Ew). cbn. congruence.
Qed.

(** The loop removes the object from the chain behind the link. *)
Lemma remove_loop_spec H this l : ∀ fuel r p,
  get_link H r = Some p → waiters H p l → NoDup l → (∀ a, r = NextOf a → a ∉ l) → (length l ≤ fuel)%nat →
  ∃ H' p', remove_loop fuel H this r = Some H' ∧ get_link H' r = Some p' ∧ waiters H' p' (filter (.≠ this) l) ∧
    only_links H H' r l ∧ (this ∉ l → H' = H).
Proof.
  induction l as [|a l IH]; intros fuel r p Hg Hl Hnd Hr Hf.
  - cbn in Hl. subst p. exists H, 0%N. split; [destruct fuel; cbn [remove_loop]; rewrite Hg; done|].
    split; [done|]. split; [done|]. split; [apply only_links_refl|done].
  - cbn in Hl. destruct Hl as (-> & Ha & w & Hw & Hl). apply NoDup_cons in Hnd as [Hal Hnd].
    destruct fuel as [|fuel]; [cbn in Hf; lia|]. cbn [remove_loop]. rewrite Hg. cbn [mbind option_bind].
    rewrite decide_False by done. pose proof (get_link_next H a w Hw) as Hgn. destruct (decide (a = this)) as [<-|Hne].
    + rewrite Hgn. cbn [mbind option_bind].
      destruct (set_link_spec H r a (next_subsequent_commit w) Hg) as (H' & -> & Hg' & Hol & Hnx).
      exists H', (next_subsequent_commit w). split; [done|]. split; [done|]. rewrite filter_cons_False by naive_solver.
      rewrite filter_ne_id by done. split; [|split].
      * eapply waiters_frame; [|exact Hl]. intros b Hb. apply Hnx. intros ->. eapply Hr; [done|]. by right.
      * destruct Hol as [H1 H2 H3]. split; [|done..]. intros b Hb. apply H1. apply not_elem_of_nil.
      * intros Hn. destruct Hn. left.
    + destruct (IH fuel (NextOf a) (next_subsequent_commit w) Hgn Hl Hnd) as (H' & p' & -> & Hg' & Hl' & Hol & Hsame);
        [by intros b [= ->]|cbn in Hf; lia|].
      exists H', a. split; [done|]. rewrite filter_cons_True by done.
      assert (get_link H' r = Some a) as Hga.
      { eapply only_links_get; [done|done| |]; [intros ->; eapply Hr; [done|left]|]. intros b -> Hb. eapply Hr; [done|by right]. }
      split; [done|]. split; [|split].
      * cbn. split; [done|]. split; [done|]. cbn in Hg'. destruct (H' !! a) as [w'|] eqn:Hw'; [|done]. cbn in Hg'. injection Hg' as Hg'.
        exists w'. split; [done|]. by rewrite Hg'.
      * destruct Hol as [H1 H2 H3]. split; [|intros b Hb; by apply H2|done]. intros b Hb Hrb.
        apply not_elem_of_cons in Hb as [Hba Hbl]. apply H1; [done|congruence].
      * intros Hn. apply Hsame. set_solver.
Qed.
End waiters.

(** ** Quotes *)

Section quotes.
Import Unescape.

(** The byte behind a quote is dropped. *)
Fixpoint unescaped (quote : Z) (l : list Z) : list Z :=
  match l with
  | [] => []
  | c :: l => if decide (c = quote) then c :: match l with [] => [] | _ :: l => unescaped quote l end else c :: unescaped quote l
  end.
(** Text with its quotes doubled. *)
Definition doubled (quote : Z) (l : list Z) : list Z := l ≫= λ c, if decide (c = quote) then [c; c] else [c].

Lemma unescaped_doubled quote l : unescaped quote (doubled quote l) = l.
Proof.
  induction l as [|c l IH]; [done|]. unfold doubled in *. cbn [mbind list_bind].
  case_decide as Hc; cbn [app unescaped]; [rewrite decide_True by done|rewrite decide_False by done]; by rewrite IH.
Qed.

Lemma unescaped_step quote src tmp c : src !! tmp = Some c →
  unescaped quote (drop tmp src) = c :: unescaped quote (drop (if decide (c = quote) then S (S tmp) else S tmp) src).
Proof.
  intros Hc. rewrite (drop_S _ _ _ Hc). cbn [unescaped]. case_decide; [|done]. f_equal.
  destruct (src !! S tmp) as [c'|] eqn:Hc'.
  - by rewrite (drop_S _ _ _ Hc').
  - apply lookup_ge_None in Hc'. by rewrite !drop_ge by lia.
Qed.

Lemma unescape_loop_spec src quote : ∀ fuel tmp dst to,
  (length src - tmp ≤ fuel)%nat → (to ≤ tmp)%nat → (to + (length src - tmp) < length dst)%nat →
  ∃ dst', unescape_loop fuel src quote tmp dst to = Some (dst', (to + length (unescaped quote (drop tmp src)))%nat) ∧
    length dst' = length dst ∧ (to + length (unescaped quote (drop tmp src)) < length dst)%nat ∧
    take (to + length (unescaped quote (drop tmp src))) dst' = take to dst ++ unescaped quote (drop tmp src).
Proof.
  induction fuel as [|fuel IH]; intros tmp dst to Hf Hto Hd.
  - cbn [unescape_loop]. rewrite decide_False by lia. rewrite drop_ge by lia. cbn. rewrite Nat.add_0_r, app_nil_r.
    exists dst. split_and!; [done..|lia|done].
  - cbn [unescape_loop]. case_decide as Ht.
    + destruct (lookup_lt_is_Some_2 src tmp Ht) as [c Hc]. destruct (lookup_lt_is_Some_2 dst to) as [b Hb]; [lia|].
      rewrite Hc, Hb. cbn [mbind option_bind]. rewrite (unescaped_step quote src tmp c Hc).
      set (tmp' := if decide (c = quote) then S (S tmp) else S tmp). assert (S tmp ≤ tmp')%nat as Htmp by (unfold tmp'; case_decide; lia).
      destruct (IH tmp' (<[to := c]> dst) (S to)) as (dst' & -> & Hlen & Hlt & Htk); [lia..|rewrite length_insert; lia|].
      rewrite length_insert in *. cbn [length]. rewrite Nat.add_succ_r. exists dst'. split; [done|]. split; [done|].
      split; [lia|]. cbn [Nat.add] in Htk. rewrite Htk. rewrite take_S_r with (x := c) by (apply list_lookup_insert_eq; lia).
      by rewrite take_insert_ge, <- app_assoc by lia.
    + rewrite drop_ge by lia. cbn. rewrite Nat.add_0_r, app_nil_r. exists dst. split_and!; [done..|lia|done].
Qed.

(** The string that [quote_unescape] leaves. *)
Lemma quote_unescape_spec src quote dst : length dst = S (length src) →
  ∃ dst', quote_unescape (Some dst) src quote = Some (false, dst', length (unescaped quote src)) ∧
    take (length (unescaped quote src)) dst' = unescaped quote src ∧ dst' !! length (unescaped quote src) = Some 0 ∧
    length dst' = length dst.
Proof.
  intros Hd. destruct (unescape_loop_spec src quote (length src) 0 dst 0) as (dst' & E & Hlen & Hlt & Htk); [lia..|].
  rewrite drop_0 in *. cbn [Nat.add] in *. unfold quote_unescape. rewrite E. cbn [mbind option_bind].
  destruct (lookup_lt_is_Some_2 dst' (length (unescaped quote src))) as [b ->]; [lia|]. cbn [mbind option_bind].
  eexists. split; [done|]. split; [by rewrite take_insert_ge by lia|]. split; [apply list_lookup_insert_eq; lia|by rewrite length_insert].
Qed.
End quotes.

(** ** Contexts *)

Section contexts.
Import Trans Transactions.

(** What merging means for the contexts. *)
Definition merged (stmt all : context) : context :=
  Ctx (engines all) (created all || created stmt) (dropped all || dropped stmt) (waited all || waited stmt)
    (did_ddl all || did_ddl stmt) (one_phase all) (modified all || modified stmt).

Lemma merge_flags s a : flags_of a .| (flags_of s .& (DID_WAIT .| CREATED_TEMP_TABLE .| DROPPED_TEMP_TABLE .| DID_DDL)) = flags_of (merged s a).
Proof.
  destruct s as [es c d w l o m], a as [ea c' d' w' l' o' m']. unfold flags_of, merged. cbn [created dropped waited did_ddl].
  by destruct c, d, w, l, c', d', w', l'.
Qed.

Lemma merge_represents H stmt all s a : represents H stmt s → represents H all a →
  represents H (merge_unsafe_rollback_flags stmt all) (merged s a).
Proof.
  intros [_ Hsf _ Hsm] [Hl Hf H2 Hm]. unfold merge_unsafe_rollback_flags. rewrite Hsm.
  destruct (modified s) eqn:Em; split; cbn; rewrite ?Hf, ?Hsf, ?merge_flags, ?Em, ?orb_true_r, ?orb_false_r; done.
Qed.
End contexts.

(** ** Properties *)

Section kill_properties.
Import Kill.

(** [C24] For every [reset_killed] that clears the kill state: after any history of
    requests, resets of query kills and cleared errors, the connection is being
    killed exactly when it was before or one of the requests was to kill it.  No
    later request and no reset takes it back. *)
Theorem connection_kill_survives (reset_killed : THD → THD) (d : THD) (es : list event) :
  (∀ d, killed (reset_killed d) = NOT_KILLED) →
  KILL_CONNECTION ≤ killed (foldl (happen reset_killed) d es) ↔
  KILL_CONNECTION ≤ killed d ∨ ∃ r, KillReq r ∈ es ∧ KILL_CONNECTION ≤ r_state r.
Proof.
  intros Hr. revert d. induction es as [|e es IH]; intros d; cbn [foldl].
  - split; [by left|]. intros [?|(r & Hin & _)]; [done|by apply elem_of_nil in Hin].
  - rewrite IH, (happen_connection reset_killed Hr). split.
    + intros [[?|(r & -> & ?)]|(r & Hin & ?)]; [by left|right; exists r; split; [left|done]|right; exists r; split; [by right|done]].
    + intros [?|(r & Hin & ?)]; [by left; left|]. apply elem_of_cons in Hin as [<-|Hin]; [left; right; by exists r|right; by exists r].
Qed.

Lemma connection_kill_survives_witness :
  KILL_CONNECTION ≤ killed (foldl (happen (λ d, Thd NOT_KILLED None (abort d) (is_slave_error d))) (Thd 0 None 0 false)
    [KillReq (Req KILL_QUERY 0 [] true); ResetQuery; KillReq (Req KILL_CONNECTION 0 [] true); KillReq (Req KILL_QUERY 0 [] true);
     ResetQuery; ClearError]).
Proof.
  apply (connection_kill_survives (λ d, Thd NOT_KILLED None (abort d) (is_slave_error d))); [reflexivity|].
  right. exists (Req KILL_CONNECTION 0 [] true). split; [|cbn; lia]. do 2 right. left.
Defined.

(** Of any series of requests the strongest state is kept, and of those that are
    not weaker than the ones before them the last one that has an error number
    gives the message that is sent, cut to 255 bytes. *)
Theorem kill_message_of_strongest (killed_errno : THD → Z) (ER_THD : Z → list Z) (d : THD) (rs1 rs2 : list request) (r : request) :
  Forall (λ x, x ≤ r_state r) (killed d :: (r_state <$> rs1)) → r_errno r ≠ 0 → r_alloc r = true →
  Forall (λ x, r_state x < r_state r ∨ r_errno x = 0) rs2 →
  let d' := foldl kill d (rs1 ++ r :: rs2) in
  killed d' = foldl Z.max (killed d) (r_state <$> rs1 ++ r :: rs2) ∧
  send_kill_message killed_errno ER_THD d' = (if decide (killed_errno d' ≠ 0) then Some (killed_errno d', take 255 (r_msg r)) else None).
Proof.
  intros H1 Hno Hal H2. cbn zeta. split; [apply kills_state|]. unfold send_kill_message. case_decide; [|done].
  rewrite foldl_app. cbn [foldl]. set (d1 := foldl kill d rs1).
  assert (killed d1 ≤ r_state r) as Hle.
  { unfold d1. rewrite kills_state. apply Forall_cons in H1 as [Hd H1]. revert Hd. generalize (killed d). clear -H1.
    induction (r_state <$> rs1) as [|x xs IH]; intros k Hk; cbn; [done|]. apply Forall_cons in H1 as [Hx H1]. apply IH; [done|lia]. }
  rewrite kills_keep_err.
  - unfold kill, set_killed, set_killed_no_mutex. rewrite decide_True by done. cbn. by rewrite decide_True, Hal by done.
  - eapply Forall_impl; [exact H2|]. cbn. intros x Hx. rewrite kill_state. lia.
Qed.

Lemma kill_message_of_strongest_witness :
  send_kill_message (λ d, 1317) (λ _, []) (foldl kill (Thd 0 None 0 false)
    ([Req KILL_QUERY 1 [65] true] ++ Req KILL_CONNECTION 2 [66; 67] true :: [Req KILL_QUERY 3 [68] true])) = Some (1317, [66; 67]).
Proof.
  destruct (kill_message_of_strongest (λ d, 1317) (λ _, []) (Thd 0 None 0 false) [Req KILL_QUERY 1 [65] true]
    [Req KILL_QUERY 3 [68] true] (Req KILL_CONNECTION 2 [66; 67] true)) as [_ H];
    [apply (bool_decide_unpack _); vm_compute; exact I|discriminate|reflexivity|apply (bool_decide_unpack _); vm_compute; exact I|]. rewrite H. reflexivity.
Defined.
End kill_properties.

Section wait_properties.
Import WaitForCommit.

(** [remove_from_list] of a transaction that waits for another one ends, takes it
    out of the list of the waitee, which keeps the others in their order, and
    marks it as not waiting; no other object and no other member changes but the
    link before it. *)
Theorem remove_from_list_removes (H : heap) (this owner : N) (w o : wait_for_commit) (l : list N) :
  H !! this = Some w → H !! owner = Some o → waiters H (subsequent_commits_list o) l → NoDup l →
  ∃ H' w' o', remove_from_list H this (ListOf owner) = Some H' ∧ H' !! this = Some w' ∧ waitee w' = 0%N ∧
    H' !! owner = Some o' ∧ waiters H' (subsequent_commits_list o') (filter (.≠ this) l) ∧
    (∀ a, a ≠ this → rest <$> H' !! a = rest <$> H !! a) ∧
    (∀ a, a ∉ l → next_subsequent_commit <$> H' !! a = next_subsequent_commit <$> H !! a) ∧
    (∀ a, a ≠ owner → subsequent_commits_list <$> H' !! a = subsequent_commits_list <$> H !! a).
Proof.
  intros Hw Ho Hl Hnd. unfold remove_from_list.
  destruct (remove_loop_spec H this l (size H) (ListOf owner) (subsequent_commits_list o)) as (H1 & p & -> & Hg & Hl1 & [On Ol Or] & _);
    [by cbn; rewrite Ho|done..|by eapply waiters_size|]. cbn [mbind option_bind].
  pose proof (Or this) as Et. rewrite Hw in Et. apply fmap_Some in Et as (w1 & Hw1 & Erest).
  unfold set_waitee. rewrite Hw1. cbn [mbind option_bind]. eexists _, _.
  cbn in Hg. destruct (H1 !! owner) as [o1|] eqn:Ho1; [|done]. injection Hg as Hg.
  set (w2 := Wfc (subsequent_commits_list w1) _ _ _ _ _).
  assert (∀ A (f : wait_for_commit → A) a, f w2 = f w1 → f <$> (<[this := w2]> H1) !! a = f <$> H1 !! a) as Hf.
  { intros A f a Hfw. destruct (decide (a = this)) as [->|]; [rewrite lookup_insert_eq, Hw1; cbn; by rewrite Hfw|by rewrite lookup_insert_ne]. }
  exists (if decide (owner = this) then w2 else o1). split; [done|]. split; [apply lookup_insert_eq|]. split; [done|].
  split; [case_decide as E; [by rewrite E, lookup_insert_eq|by rewrite lookup_insert_ne]|]. split; [|split_and!].
  - assert (subsequent_commits_list (if decide (owner = this) then w2 else o1) = p) as ->.
    { case_decide as E; [|done]. rewrite E, Hw1 in Ho1. injection Ho1 as ->. done. }
    eapply waiters_frame; [|exact Hl1]. intros a _. by apply Hf.
  - intros a Ha. by rewrite lookup_insert_ne, Or by done.
  - intros a Ha. rewrite Hf by done. by apply On.
  - intros a Ha. rewrite Hf by done. apply Ol. congruence.
Qed.

Lemma remove_from_list_removes_witness :
  ∃ H' o', remove_from_list {[1%N := Wfc 2 0 0 0 false false; 2%N := Wfc 0 3 1 0 false false; 3%N := Wfc 0 4 1 0 false false;
      4%N := Wfc 0 0 1 0 false false]} 3 (ListOf 1) = Some H' ∧ H' !! 1%N = Some o' ∧ waiters H' (subsequent_commits_list o') [2%N; 4%N].
Proof.
  destruct (remove_from_list_removes {[1%N := Wfc 2 0 0 0 false false; 2%N := Wfc 0 3 1 0 false false; 3%N := Wfc 0 4 1 0 false false;
      4%N := Wfc 0 0 1 0 false false]} 3 1 (Wfc 0 4 1 0 false false) (Wfc 2 0 0 0 false false) [2%N; 3%N; 4%N])
    as (H' & w' & o' & H1 & _ & _ & H2 & H3 & _).
  - reflexivity.
  - reflexivity.
  - cbn. repeat (split; [done|]; split; [done|]; eexists; split; [reflexivity|]). done.
  - apply (bool_decide_unpack _). vm_compute. exact I.
  - exists H', o'. split; [exact H1|]. split; [exact H2|]. exact H3.
Defined.
End wait_properties.

Section text_properties.
Import Unescape.

(** For memory of the size that is asked for, [quote_unescape] of any string stays
    within it and ends the result with a zero; of a text whose quotes were
    doubled it gives back the text.  Without memory it reports an error and an
    empty string. *)
Theorem quote_unescape_roundtrip (src dst : list Z) (quote : Z) :
  length dst = S (length src) →
  quote_unescape None src quote = Some (true, [], O) ∧
  ∃ dst' n, quote_unescape (Some dst) src quote = Some (false, dst', n) ∧ (n ≤ length src)%nat ∧ dst' !! n = Some 0 ∧
    ∀ text, src = doubled quote text → take n dst' = text.
Proof.
  intros Hd. split; [done|]. destruct (quote_unescape_spec src quote dst Hd) as (dst' & E & Ht & Hz & Hlen).
  exists dst', (length (unescaped quote src)). split; [done|]. split; [|split; [done|]].
  - apply lookup_lt_Some in Hz. lia.
  - intros text ->. by rewrite Ht, unescaped_doubled.
Qed.

Lemma quote_unescape_roundtrip_witness :
  ∃ dst' n, quote_unescape (Some (replicate 6 7)) [97; 34; 34; 98; 34] 34 = Some (false, dst', n) ∧ dst' = [97; 34; 98; 34; 0; 7] ∧ n = 4%nat.
Proof.
  destruct (quote_unescape_roundtrip [97; 34; 34; 98; 34] (replicate 6 7) 34) as [_ (dst' & n & H1 & _)]; [reflexivity|].
  exists dst', n. split; [exact H1|]. vm_compute in H1. injection H1 as <- <-. split; reflexivity.
Defined.
End text_properties.

Section binlog_properties.
Import BinlogFormat.

Inductive format_op := RowIfMixed | ResetRow | SubStmt (n : Z) | TempTables (b : bool).
Definition format_step (d : THD) (o : format_op) : THD :=
  match o with
  | RowIfMixed => set_current_stmt_binlog_format_row_if_mixed d
  | ResetRow => reset_current_stmt_binlog_format_row d
  | SubStmt n => Thd (binlog_format d) (current_stmt_binlog_format d) n (temporary_tables d)
  | TempTables b => Thd (binlog_format d) (current_stmt_binlog_format d) (in_sub_stmt d) b
  end.

(** The logging format of a top statement, reset at its start and made row based
    when the statement is unsafe: row based for the row format, or when mixed and
    unsafe, or when it was row based and temporary tables are left; statement
    based otherwise.  Then, while a sub-statement is executed, nothing changes it;
    and the format is always one of the two the assertion allows. *)
Theorem statement_format_decided (d : THD) (unsafe : bool) (os : list format_op) :
  in_sub_stmt d = 0 → is_current_stmt_binlog_format_row d ≠ None →
  Forall (λ o, match o with SubStmt n => n ≠ 0 | _ => True end) os →
  let d1 := reset_current_stmt_binlog_format_row d in
  let d2 := if unsafe then set_current_stmt_binlog_format_row_if_mixed d1 else d1 in
  let row := bool_decide (binlog_format d = BINLOG_FORMAT_ROW) || (bool_decide (binlog_format d = BINLOG_FORMAT_MIXED) && unsafe) ||
             (temporary_tables d && bool_decide (current_stmt_binlog_format d = BINLOG_FORMAT_ROW)) in
  is_current_stmt_binlog_format_row d2 = Some row ∧
  is_current_stmt_binlog_format_row (foldl format_step (format_step d2 (SubStmt 1)) os) = Some row.
Proof.
  intros Hs Hc Hos. cbn zeta. set (d2 := if unsafe then _ else _). set (row := _ || _).
  assert (is_current_stmt_binlog_format_row d2 = Some row) as Hd2.
  { unfold d2, row, set_current_stmt_binlog_format_row_if_mixed, reset_current_stmt_binlog_format_row, wsrep_binlog_format, has_thd_temporary_tables.
    destruct d as [[] [] n [] ]; cbn in Hs, Hc |- *; subst n; try done; by destruct unsafe. }
  split; [done|]. cbn [format_step]. set (d3 := Thd _ _ _ _).
  assert (is_current_stmt_binlog_format_row d3 = Some row ∧ in_sub_stmt d3 ≠ 0) as [H3 H3s] by done. clearbody d3. clear -Hos H3 H3s.
  revert d3 H3 H3s. induction os as [|o os IH]; intros d3 H3 H3s; [done|]. apply Forall_cons in Hos as [Ho Hos]. cbn [foldl].
  apply IH; [done|..]; destruct o; cbn; unfold set_current_stmt_binlog_format_row_if_mixed, reset_current_stmt_binlog_format_row;
    rewrite ?(bool_decide_false (in_sub_stmt d3 = 0)), ?andb_false_r, ?decide_False by done; done.
Qed.

Lemma statement_format_decided_witness :
  is_current_stmt_binlog_format_row (foldl format_step (format_step (set_current_stmt_binlog_format_row_if_mixed
    (reset_current_stmt_binlog_format_row (Thd BINLOG_FORMAT_MIXED BINLOG_FORMAT_STMT 0 false))) (SubStmt 1)) [ResetRow; RowIfMixed]) = Some true.
Proof.
  destruct (statement_format_decided (Thd BINLOG_FORMAT_MIXED BINLOG_FORMAT_STMT 0 false) true [ResetRow; RowIfMixed]) as [_ H];
    [reflexivity|discriminate|repeat constructor|]. exact H.
Defined.
End binlog_properties.

Section transaction_properties.
Import Trans Transactions.

(** The first of the timeouts that apply which is set. *)
Definition timeout_of (v : variables) (in_trans wrote : bool) : Z :=
  let ts := if in_trans then [if wrote then idle_write_transaction_timeout v else idle_readonly_transaction_timeout v; idle_transaction_timeout v] else [] in
  default (net_wait_timeout v) (head (filter (λ t, 0 < t) ts)).

(** After any history of the transaction contexts: the flags of the statement are
    merged into those of the transaction and nothing else of it changes, and the
    timeout of an idle session is that of a transaction that wrote, or only read,
    as the engines of the transaction say, or a more general one when that is not
    set. *)
Theorem session_transaction_state (objs : list N) (s : session) (z z' : spec_session) (os : list op) (rs : list (option bool))
    (server_status : Z) (v : variables) :
  valid objs s z → spec_ops objs z os = Some (z', rs) →
  ∃ s', exec_ops s os = Some (s', rs) ∧
    represents (hp s') (merge_unsafe_rollback_flags (stmt s') (all s')) (merged (sp_stmt z') (sp_all z')) ∧
    get_net_wait_timeout (hp s') (all s') server_status v =
      Some (timeout_of v (in_active_multi_stmt_transaction server_status) (existsb (λ x : entry, x.2.2) (engines (sp_all z')))).
Proof.
  intros Hv Hs. destruct (ops_valid objs os s z z' rs Hv Hs) as (s' & E & Hv'). exists s'. split; [done|].
  destruct Hv' as [Hst Hal Hnd _ _]. split; [by apply merge_represents|].
  unfold get_net_wait_timeout, timeout_of. destruct (in_active_multi_stmt_transaction server_status); [|done].
  unfold is_trx_read_write. rewrite (rw_loop_linked _ (engines (sp_all z'))).
  - cbn [mbind option_bind]. set (t := if existsb _ _ then _ else _). f_equal.
    rewrite !filter_cons. by repeat case_decide.
  - apply Hal.
  - eapply linked_size; [apply Hal|]. unfold registered in Hnd. rewrite fmap_app in Hnd. by apply NoDup_app in Hnd as (_ & _ & ?).
Qed.

Lemma session_transaction_state_witness :
  ∃ s', exec_ops session0 history0
      = Some (s', [None; None; None; None; Some false; None; Some true; None; None; Some true; Some false; Some false]) ∧
    get_net_wait_timeout (hp s') (all s') 1 (Vars 10 20 30 40) = Some 10.
Proof.
  destruct (session_transaction_state [1%N; 2%N; 3%N; 4%N] session0 (Sses context0 context0)
    (Sses (Ctx [(1%N, (10%N, true))] false false false false false false)
       (Ctx [(4%N, (11%N, false)); (2%N, (10%N, true))] false false true false false false)) history0
    [None; None; None; None; Some false; None; Some true; None; None; Some true; Some false; Some false] 1 (Vars 10 20 30 40)) as (s' & He & _ & Ht).
  - constructor; [by constructor..|constructor|set_solver|].
    intros a Ha _. rewrite !elem_of_cons in Ha. destruct Ha as [->|[->|[->|[->|Ha]]]]; try reflexivity. by apply not_elem_of_nil in Ha.
  - reflexivity.
  - exists s'. split; [exact He|exact Ht].
Defined.
End transaction_properties.
