(* ===== verification/FieldRec.v ===== *)
(** * Fields of a record

    The part of Field, Field_tiny, Field_varstring and Field_bit of field.h that
    works on the bytes of records: null bits, images, packed integers, lengths.
    The memory that holds the records is one list of bytes; pointers are positions
    in it, and an access outside of it is undefined ([None]).  What the virtual
    functions of a field do is an argument. *)

From Stdlib Require Import ZArith Lia.
From stdpp Require Import base numbers option list gmap fin_sets.
From S2P Require Import Prelude.
From S2P Require Import ByteOrder.
From S2P Require Import MyIsamPack.
From S2P Require Import Bitmap.
From S2P Require Import KeyPack.
Open Scope Z_scope.
Open Scope cint_scope.

Module FieldRec.

(** [record[0]], [null_row] and [maybe_null] of the table. *)
Record TABLE := Tab { record0 : nat; null_row : bool; tab_maybe_null : bool }.
Record Field := Fld { ptr : nat; null_ptr : option nat; null_bit : Z; pack_length : nat }.

(** [p[off]], whose address must not be negative. *)
Definition at_offset (p : nat) (off : Z) : option nat :=
  if decide (0 ≤ Z.of_nat p + off) then Some (Z.to_nat (Z.of_nat p + off)) else None.

(** ** Null bits *)

Definition is_null (m : list Z) (t : TABLE) (f : Field) (row_offset : Z) : option bool :=
  match null_ptr f with
  | Some p => a ← at_offset p row_offset; b ← rd m a 0; Some (bool_decide (b .& null_bit f ≠ 0))
  | None => Some (null_row t)
  end.
Definition is_real_null (m : list Z) (f : Field) (row_offset : Z) : option bool :=
  match null_ptr f with
  | Some p => a ← at_offset p row_offset; b ← rd m a 0; Some (bool_decide (b .& null_bit f ≠ 0))
  | None => Some false
  end.
Definition set_null (m : list Z) (f : Field) (row_offset : Z) : option (list Z) :=
  match null_ptr f with
  | Some p => a ← at_offset p row_offset; b ← rd m a 0; wr a 0 (b .| null_bit f) m
  | None => Some m
  end.
Definition set_notnull (m : list Z) (f : Field) (row_offset : Z) : option (list Z) :=
  match null_ptr f with
  | Some p => a ← at_offset p row_offset; b ← rd m a 0; wr a 0 (b .& u8 (Z.lnot (null_bit f))) m
  | None => Some m
  end.
Definition maybe_null (t : TABLE) (f : Field) : bool := bool_decide (null_ptr f ≠ None) || tab_maybe_null t.
Definition real_maybe_null (f : Field) : bool := bool_decide (null_ptr f ≠ None).
(** A null pointer is before every record. *)
Definition maybe_null_in_table (t : TABLE) (f : Field) : bool :=
  match null_ptr f with Some p => bool_decide (record0 t ≤ p)%nat && bool_decide (p ≤ ptr f)%nat | None => false end.
Definition is_null_in_record (m : list Z) (t : TABLE) (f : Field) (record : nat) : option bool :=
  if maybe_null_in_table t f then
    p ← null_ptr f; b ← rd m record (Z.to_nat (u32 (Z.of_nat p - Z.of_nat (record0 t)))); Some (bool_decide (b .& null_bit f ≠ 0))
  else Some false.
Definition set_null_ptr (f : Field) (p_null_ptr : option nat) (p_null_bit : Z) : Field :=
  Fld (ptr f) p_null_ptr (u8 p_null_bit) (pack_length f).

Definition move_field (f : Field) (ptr_arg : nat) (null_ptr_arg : option nat) (null_bit_arg : Z) : Field :=
  Fld ptr_arg null_ptr_arg null_bit_arg (pack_length f).
Definition move_field_ptr (f : Field) (ptr_arg : nat) : Field := Fld ptr_arg (null_ptr f) (null_bit f) (pack_length f).
Definition move_field_offset (f : Field) (ptr_diff : Z) : option Field :=
  p ← at_offset (ptr f) ptr_diff;
  np ← match null_ptr f with Some n => a ← at_offset n ptr_diff; Some (Some a) | None => Some None end;
  Some (Fld p np (null_bit f) (pack_length f)).

(** [val_int] is virtual and reads at [ptr]. *)
Definition val_int_at {A} (val_int : Field → A) (f : Field) (new_ptr : nat) : Field * A :=
  let old_ptr := ptr f in
  let f := move_field_ptr f new_ptr in
  let return_value := val_int f in (move_field_ptr f old_ptr, return_value).

(** ** Images *)

Definition image (m : list Z) (p n : nat) : option (list Z) :=
  if decide (p + n ≤ length m)%nat then Some (take n (drop p m)) else None.
Definition write_image (m : list Z) (p : nat) (b : list Z) : option (list Z) :=
  if decide (p + length b ≤ length m)%nat then Some (take p m ++ b ++ drop (p + length b) m) else None.
(** [memcpy] of areas that overlap is undefined. *)
Definition memcpy (m : list Z) (to from n : nat) : option (list Z) :=
  if decide (n = 0 ∨ to + n ≤ from ∨ from + n ≤ to)%nat then b ← image m from n; write_image m to b else None.

Definition get_image (m : list Z) (f : Field) (buff length : nat) : option (list Z) := memcpy m buff (ptr f) length.
Definition set_image (m : list Z) (f : Field) (buff length : nat) : option (list Z) := memcpy m (ptr f) buff length.

Section cmp.
(** The virtual [cmp], on images of [pack_length] bytes. *)
Context (cmp : list Z → list Z → Z).

Definition update_min (m : list Z) (f min_val : Field) (force_update : bool) : option (list Z * bool) :=
  update_fl ← (if force_update then Some true else
                 a ← image m (ptr f) (pack_length f); b ← image m (ptr min_val) (pack_length f); Some (bool_decide (cmp a b < 0)));
  if update_fl : bool then
    m ← set_notnull m min_val 0; m ← memcpy m (ptr min_val) (ptr f) (pack_length f); Some (m, update_fl)
  else Some (m, update_fl).

Definition update_max (m : list Z) (f max_val : Field) (force_update : bool) : option (list Z * bool) :=
  update_fl ← (if force_update then Some true else
                 a ← image m (ptr f) (pack_length f); b ← image m (ptr max_val) (pack_length f); Some (bool_decide (0 < cmp a b)));
  if update_fl : bool then
    m ← set_notnull m max_val 0; m ← memcpy m (ptr max_val) (ptr f) (pack_length f); Some (m, update_fl)
  else Some (m, update_fl).
End cmp.

(** ** Packed integers *)

Definition pack_int (m : list Z) (to from size : nat) : option (list Z * nat) := m ← memcpy m to from size; Some (m, (to + size)%nat).
(** Nothing is returned at the end of the data. *)
Definition unpack_int (m : list Z) (to from from_end size : nat) : option (list Z * option nat) :=
  if decide (from_end < from + size)%nat then Some (m, None) else m ← memcpy m to from size; Some (m, Some (from + size)%nat).
Definition tiny_pack (m : list Z) (to from : nat) : option (list Z * nat) := b ← rd m from 0; m ← wr to 0 b m; Some (m, S to).
Definition tiny_unpack (m : list Z) (to from from_end : nat) : option (list Z * option nat) :=
  if decide (from = from_end) then Some (m, None) else b ← rd m from 0; m ← wr to 0 b m; Some (m, Some (S from)).

(** ** Lengths *)

(** The loop over the trailing spaces, from [end] down to [str]. *)
Fixpoint space_loop (fuel : nat) (m : list Z) (str end_ : nat) : option nat :=
  match fuel with
  | O => Some end_
  | S fuel =>
      if decide (str < end_)%nat then
        b ← rd m (end_ - 1) 0; if decide (b = 32) then space_loop fuel m str (end_ - 1) else Some end_
      else Some end_
  end.
(** [zero_pack], whether the type is MYSQL_TYPE_STRING and [data_length] are virtual. *)
Definition value_length (m : list Z) (f : Field) (zero_pack is_string : bool) (data_length : Z) : option Z :=
  let len := pack_length f in
  if negb zero_pack && (is_string && bool_decide (4 ≤ len)%nat && bool_decide (len < 256)%nat) then
    e ← space_loop len m (ptr f) (ptr f + len); Some (Z.of_nat (e - ptr f))
  else Some data_length.

Definition varstring_get_data (f : Field) (length_bytes : nat) : nat := (ptr f + length_bytes)%nat.
Definition varstring_get_length (m : list Z) (f : Field) (length_bytes : nat) : option Z :=
  if decide (length_bytes = 1%nat) then rd m (ptr f) 0 else X86_64.uint2korr m (ptr f).
Definition varstring_store_length (m : list Z) (f : Field) (length_bytes : nat) (number : Z) : option (list Z) :=
  if decide (length_bytes = 1%nat) then wr (ptr f) 0 number m else X86_64.int2store m (ptr f) (u16 number).

(** The loop over the last eight bytes of a hexadecimal literal. *)
Fixpoint hex_loop (bytes : list Z) (value : Z) : Z :=
  match bytes with [] => value | b :: bytes => hex_loop bytes (u64 (u64 (value ≪ 8) + b)) end.
Definition longlong_from_hex_hybrid (str : list Z) : Z :=
  s64 (hex_loop (drop (length str - Nat.min (length str) 8) str) 0).

Definition string_pack_length_from_metadata (field_length field_metadata : Z) : Z :=
  if decide (field_metadata = 0) then field_length
  else u32 ((((field_metadata ≫ 4) .& 768) .^ 768) + (field_metadata .& 255)).

(** ** Field_bit *)

Record Field_bit := Fbit { bit_field : Field; bit_ptr : option nat; bit_ofs : Z; bit_len : Z; bytes_in_rec : nat }.

Definition bzero (m : list Z) (p n : nat) : option (list Z) := write_image m p (replicate n 0).
Definition bit_reset (m : list Z) (f : Field_bit) : option (list Z) :=
  m ← bzero m (ptr (bit_field f)) (bytes_in_rec f);
  match bit_ptr f with
  | Some p => if decide (0 < bit_len f) then KeyPack.clr_rec_bits m p (bit_ofs f) (bit_len f) else Some m
  | None => Some m
  end.

(** ** Types *)

Definition MYSQL_TYPE_TIMESTAMP : Z := 7.
Definition MYSQL_TYPE_DATE : Z := 10.
Definition MYSQL_TYPE_TIME : Z := 11.
Definition MYSQL_TYPE_DATETIME : Z := 12.
Definition MYSQL_TYPE_NEWDATE : Z := 14.
Definition MYSQL_TYPE_TIMESTAMP2 : Z := 17.
Definition MYSQL_TYPE_DATETIME2 : Z := 18.
Definition MYSQL_TYPE_TIME2 : Z := 19.

(** A real type of the new kind fails an assertion. *)
Definition is_temporal_type_with_date (type : Z) : option bool :=
  if bool_decide (type = MYSQL_TYPE_DATE) || bool_decide (type = MYSQL_TYPE_DATETIME) || bool_decide (type = MYSQL_TYPE_TIMESTAMP)
  then Some true
  else if bool_decide (type = MYSQL_TYPE_DATETIME2) || bool_decide (type = MYSQL_TYPE_TIMESTAMP2) then None else Some false.
Definition real_type_to_type (real_type : Z) : Z :=
  if decide (real_type = MYSQL_TYPE_TIME2) then MYSQL_TYPE_TIME
  else if decide (real_type = MYSQL_TYPE_DATETIME2) then MYSQL_TYPE_DATETIME
  else if decide (real_type = MYSQL_TYPE_TIMESTAMP2) then MYSQL_TYPE_TIMESTAMP
  else if decide (real_type = MYSQL_TYPE_NEWDATE) then MYSQL_TYPE_DATE else real_type.

End FieldRec.

(** ** The null flags of several fields and records *)

Section nulls.
Import FieldRec.

(** The bit of the memory that is the null flag of a field at an offset. *)
Definition slot (f : Field) (off : Z) : Z := 8 * (Z.of_nat (default 0%nat (null_ptr f)) + off) + Z.log2 (null_bit f).

(** A nullable field whose flag at the offset is in the memory. *)
Record slot_ok (m : list Z) (f : Field) (off : Z) : Prop := {
  so_ptr : null_ptr f ≠ None;
  so_bit : ∃ k, 0 ≤ k < 8 ∧ null_bit f = 2 ^ k;
  so_in : 0 ≤ Z.of_nat (default 0%nat (null_ptr f)) + off < Z.of_nat (length m) }.

Lemma slot_addr m f off : slot_ok m f off →
  ∃ p a k, null_ptr f = Some p ∧ at_offset p off = Some a ∧ (a < length m)%nat ∧ 0 ≤ k < 8 ∧ null_bit f = 2 ^ k ∧ slot f off = 8 * Z.of_nat a + k.
Proof.
  intros [Hp (k & Hk & Hb) Hin]. destruct (null_ptr f) as [p|] eqn:Ep; [|done]. cbn in Hin.
  exists p, (Z.to_nat (Z.of_nat p + off)), k. split; [done|]. unfold at_offset. rewrite decide_True by lia. split; [done|].
  split; [lia|]. split; [done|]. split; [done|]. unfold slot. rewrite Ep, Hb, Z.log2_pow2, Z2Nat.id by lia. done.
Qed.

Lemma pow2_bit k i : 0 ≤ k → 0 ≤ i → Z.testbit (2 ^ k) i = bool_decide (i = k).
Proof.
  intros Hk Hi. case_bool_decide as E; [subst; by apply Z.pow2_bits_true|]. by apply Z.pow2_bits_false.
Qed.

Lemma land_pow2_ne b k : 0 ≤ k → bool_decide (b .& 2 ^ k ≠ 0) = Z.testbit b k.
Proof.
  intros Hk. rewrite <- Z.shiftl_1_l. destruct (Z.testbit b k) eqn:E.
  - apply bool_decide_true. by apply land_shl1.
  - apply bool_decide_false. rewrite land_shl1 by done. by rewrite E.
Qed.

(** The address and the bit of a flag. *)
Lemma slot_div a k : 0 ≤ k < 8 → (8 * Z.of_nat a + k) / 8 = Z.of_nat a ∧ (8 * Z.of_nat a + k) mod 8 = k.
Proof.
  intros Hk. split; symmetry; [apply Z.div_unique with k; lia|apply Z.mod_unique with (Z.of_nat a); lia].
Qed.

Lemma slot_iff a k i : 0 ≤ k < 8 → 0 ≤ i → i = 8 * Z.of_nat a + k ↔ i / 8 = Z.of_nat a ∧ i mod 8 = k.
Proof.
  intros Hk Hi. split; [intros ->; by apply slot_div|]. intros [H1 H2]. rewrite (Z.div_mod i 8) by lia. lia.
Qed.

Lemma set_null_spec m f off : slot_ok m f off →
  ∃ m', set_null m f off = Some m' ∧ length m' = length m ∧
    ∀ i, 0 ≤ i → byte_bit m' i = if decide (i = slot f off) then true else byte_bit m i.
Proof.
  intros Hs. destruct (slot_addr m f off Hs) as (p & a & k & Hp & Ha & Hlt & Hk & Hb & ->). unfold set_null. rewrite Hp, Ha, Hb.
  cbn [mbind option_bind]. destruct (rd_some m a 0) as [b Hrd]; [lia|]. rewrite Hrd. cbn [mbind option_bind].
  destruct (wr_some m a 0 (b .| 2 ^ k)) as [m' Hw]; [lia|]. rewrite Hw. exists m'. split; [done|].
  split; [by eapply wr_length|]. intros i Hi. rewrite (wr_bits _ _ _ _ _ i Hi Hw). rewrite Nat.add_0_r in *.
  pose proof (Z.mod_pos_bound i 8 ltac:(lia)) as Hm8. case_decide as E.
  - rewrite Z.lor_spec, pow2_bit by lia. rewrite <- (rd_bits m a 0 b i Hrd Hi) by (by rewrite Nat.add_0_r).
    case_decide as Es; [|rewrite bool_decide_false, orb_false_r; [done|]; intros Ek; apply Es; by apply slot_iff].
    apply slot_iff in Es as [_ ->]; [|done..]. by rewrite bool_decide_true, orb_true_r.
  - rewrite decide_False; [done|]. intros Es. apply slot_iff in Es as [? _]; done.
Qed.

Lemma set_notnull_spec m f off : slot_ok m f off →
  ∃ m', set_notnull m f off = Some m' ∧ length m' = length m ∧
    ∀ i, 0 ≤ i → byte_bit m' i = if decide (i = slot f off) then false else byte_bit m i.
Proof.
  intros Hs. destruct (slot_addr m f off Hs) as (p & a & k & Hp & Ha & Hlt & Hk & Hb & ->). unfold set_notnull. rewrite Hp, Ha, Hb.
  cbn [mbind option_bind]. destruct (rd_some m a 0) as [b Hrd]; [lia|]. rewrite Hrd. cbn [mbind option_bind].
  destruct (wr_some m a 0 (b .& u8 (Z.lnot (2 ^ k)))) as [m' Hw]; [lia|]. rewrite Hw. exists m'. split; [done|].
  split; [by eapply wr_length|]. intros i Hi. rewrite (wr_bits _ _ _ _ _ i Hi Hw). rewrite Nat.add_0_r in *.
  pose proof (Z.mod_pos_bound i 8 ltac:(lia)) as Hm8. case_decide as E.
  - rewrite Z.land_spec, wrapu_testbit, Z.lnot_spec, pow2_bit by lia. rewrite (bool_decide_true (i mod 8 < 8)) by lia. cbn [andb].
    rewrite <- (rd_bits m a 0 b i Hrd Hi) by (by rewrite Nat.add_0_r).
    case_decide as Es; [|rewrite bool_decide_false, andb_true_r; [done|]; intros Ek; apply Es; by apply slot_iff].
    apply slot_iff in Es as [_ ->]; [|done..]. by rewrite bool_decide_true, andb_false_r.
  - rewrite decide_False; [done|]. intros Es. apply slot_iff in Es as [? _]; done.
Qed.

Lemma is_null_spec m t f off : slot_ok m f off →
  is_null m t f off = Some (byte_bit m (slot f off)) ∧ is_real_null m f off = Some (byte_bit m (slot f off)).
Proof.
  intros Hs. destruct (slot_addr m f off Hs) as (p & a & k & Hp & Ha & Hlt & Hk & Hb & ->). unfold is_null, is_real_null.
  rewrite Hp, Ha, Hb. cbn [mbind option_bind]. destruct (rd_some m a 0) as [b Hrd]; [lia|]. rewrite Hrd. cbn [mbind option_bind].
  rewrite land_pow2_ne by lia. rewrite <- (rd_bits_at m a 0 b k Hrd Hk), Nat.add_0_r. done.
Qed.

(** Writing an image, seen from the bits. *)
Lemma write_image_bits m p b m' i : write_image m p b = Some m' → 0 ≤ i →
  length m' = length m ∧ byte_bit m' i =
    if decide (Z.of_nat p ≤ i / 8 < Z.of_nat (p + length b)) then byte_bit b (i - 8 * Z.of_nat p) else byte_bit m i.
Proof.
  unfold write_image. case_decide as Hle; [|done]. intros [= <-] Hi. split; [rewrite !length_app, length_take, length_drop; lia|].
  unfold byte_bit. replace (i - 8 * Z.of_nat p) with (i + - Z.of_nat p * 8) by lia.
  rewrite Z.div_add, Z.mod_add by lia. assert (0 ≤ i / 8) by (apply Z.div_pos; lia). case_decide as Hd.
  - rewrite lookup_app_r by (rewrite length_take; lia). rewrite lookup_app_l by (rewrite length_take; lia).
    rewrite length_take. by replace (Z.to_nat (i / 8) - p `min` length m)%nat with (Z.to_nat (i / 8 + - Z.of_nat p)) by lia.
  - destruct (decide (i / 8 < Z.of_nat p)).
    + rewrite lookup_app_l by (rewrite length_take; lia). by rewrite lookup_take_lt by lia.
    + rewrite lookup_app_r by (rewrite length_take; lia). rewrite length_take. rewrite lookup_app_r by lia.
      rewrite lookup_drop.
      by replace (p + length b + (Z.to_nat (i / 8) - p `min` length m - length b))%nat with (Z.to_nat (i / 8)) by lia.
Qed.

(** A field of bits within the memory. *)
Record bit_ok (m : list Z) (f : Field_bit) : Prop := {
  bo_room : (ptr (bit_field f) + bytes_in_rec f ≤ length m)%nat;
  bo_ptr : ∃ p, bit_ptr f = Some p ∧ (p < length m)%nat ∧ 8 * Z.of_nat p + bit_ofs f + bit_len f ≤ 8 * Z.of_nat (length m);
  bo_ofs : 0 ≤ bit_ofs f < 8; bo_len : 0 ≤ bit_len f < 8 }.
(** The bits of the memory that belong to it. *)
Definition bit_of (f : Field_bit) (i : Z) : Prop :=
  Z.of_nat (ptr (bit_field f)) ≤ i / 8 < Z.of_nat (ptr (bit_field f) + bytes_in_rec f) ∨
  0 ≤ i - (8 * Z.of_nat (default 0%nat (bit_ptr f)) + bit_ofs f) < bit_len f.
#[global] Instance bit_of_dec f i : Decision (bit_of f i).
Proof. unfold bit_of. apply _. Defined.

Lemma bit_reset_spec m f : bit_ok m f →
  ∃ m', bit_reset m f = Some m' ∧ length m' = length m ∧ ∀ i, 0 ≤ i → byte_bit m' i = if decide (bit_of f i) then false else byte_bit m i.
Proof.
  intros [Hroom (p & Hp & Hlt & Hin) Hofs Hlen]. unfold bit_reset, bzero.
  destruct (write_image m (ptr (bit_field f)) (replicate (bytes_in_rec f) 0)) as [m1|] eqn:E1;
    [|unfold write_image in E1; rewrite length_replicate, decide_True in E1 by lia; done].
  cbn [mbind option_bind]. rewrite Hp. pose proof (λ i, write_image_bits _ _ _ _ i E1) as Hb1. rewrite length_replicate in Hb1.
  assert (length m1 = length m) as Hl1 by (apply (Hb1 0); lia).
  assert (∀ i, byte_bit (replicate (bytes_in_rec f) 0) i = false) as Hz.
  { intros i. unfold byte_bit. destruct (_ !! _) as [b|] eqn:Eb; [|done]. apply lookup_replicate in Eb as [-> _]. apply Z.bits_0. }
  assert (∀ i, bit_of f i ↔ Z.of_nat (ptr (bit_field f)) ≤ i / 8 < Z.of_nat (ptr (bit_field f) + bytes_in_rec f) ∨
    0 ≤ i - (8 * Z.of_nat p + bit_ofs f) < bit_len f) as Hbo by (intros i; unfold bit_of; by rewrite Hp).
  destruct (decide (0 < bit_len f)) as [Hpos|Hnp].
  - unfold KeyPack.clr_rec_bits.
    destruct (set_rec_bits_spec 0 m1 p (bit_ofs f) (bit_len f)) as (m2 & E2 & Hl2 & Hb2); [lia|lia| |lia|lia|].
    { split; [lia|]. apply Z.pow_pos_nonneg; lia. }
    exists m2. split; [done|]. split; [lia|]. intros i Hi. rewrite Hb2 by done. cbn zeta. rewrite Z.bits_0.
    destruct (Hb1 i Hi) as [_ ->]. rewrite Hz. specialize (Hbo i). repeat case_decide; try done; tauto.
  - exists m1. split; [done|]. split; [done|]. intros i Hi. destruct (Hb1 i Hi) as [_ ->]. rewrite Hz.
    assert (bit_of f i ↔ Z.of_nat (ptr (bit_field f)) ≤ i / 8 < Z.of_nat (ptr (bit_field f) + bytes_in_rec f)) as Hb
      by (rewrite Hbo; split; [intros [?|?]; [done|lia]|by left]).
    repeat case_decide; try done; tauto.
Qed.

(** *** Histories *)

Inductive null_op := SetNull (i : nat) (off : Z) | SetNotNull (i : nat) (off : Z) | IsNull (i : nat) (off : Z) | ResetBits (j : nat).

Context (t : TABLE) (fs : list Field) (bs : list Field_bit) (offs : list Z).

Definition null_exec (m : list Z) (o : null_op) : option (list Z * option bool) :=
  match o with
  | SetNull i off => f ← fs !! i; m ← set_null m f off; Some (m, None)
  | SetNotNull i off => f ← fs !! i; m ← set_notnull m f off; Some (m, None)
  | IsNull i off => f ← fs !! i; b ← is_null m t f off; Some (m, Some b)
  | ResetBits j => f ← bs !! j; m ← bit_reset m f; Some (m, None)
  end.

(** The fields that are null, each with the offset of its record. *)
Definition null_spec (z : gset (nat * Z)) (o : null_op) : option (gset (nat * Z) * option bool) :=
  match o with
  | SetNull i off => if decide (is_Some (fs !! i) ∧ off ∈ offs) then Some ({[(i, off)]} ∪ z, None) else None
  | SetNotNull i off => if decide (is_Some (fs !! i) ∧ off ∈ offs) then Some (z ∖ {[(i, off)]}, None) else None
  | IsNull i off => if decide (is_Some (fs !! i) ∧ off ∈ offs) then Some (z, Some (bool_decide ((i, off) ∈ z))) else None
  | ResetBits j => if decide (is_Some (bs !! j)) then Some (z, None) else None
  end.

Fixpoint null_exec_all (m : list Z) (os : list null_op) : option (list Z * list (option bool)) :=
  match os with [] => Some (m, []) | o :: os => '(m, r) ← null_exec m o; '(m, rs) ← null_exec_all m os; Some (m, r :: rs) end.
Fixpoint null_spec_all (z : gset (nat * Z)) (os : list null_op) : option (gset (nat * Z) * list (option bool)) :=
  match os with [] => Some (z, []) | o :: os => '(z, r) ← null_spec z o; '(z, rs) ← null_spec_all z os; Some (z, r :: rs) end.

(** The flags are in the memory, no two are the same bit, and none is a bit of a
    field of bits. *)
Record record_layout (n : nat) : Prop := {
  rl_slot : ∀ i f off, fs !! i = Some f → off ∈ offs → slot_ok (replicate n 0) f off;
  rl_inj : ∀ i f off j g off', fs !! i = Some f → fs !! j = Some g → off ∈ offs → off' ∈ offs →
    slot f off = slot g off' → (i, off) = (j, off');
  rl_bit : ∀ j b, bs !! j = Some b → bit_ok (replicate n 0) b;
  rl_apart : ∀ i f off j b, fs !! i = Some f → off ∈ offs → bs !! j = Some b → ~ bit_of b (slot f off) }.

Record nulls_of (m : list Z) (z : gset (nat * Z)) : Prop := {
  no_layout : record_layout (length m);
  no_bits : ∀ i f off, fs !! i = Some f → off ∈ offs → byte_bit m (slot f off) = bool_decide ((i, off) ∈ z) }.

Lemma slot_ok_length m m' f off : length m' = length m → slot_ok m f off → slot_ok m' f off.
Proof. intros Hl [H1 H2 H3]. split; [done|done|lia]. Qed.
Lemma bit_ok_length m m' f : length m' = length m → bit_ok m f → bit_ok m' f.
Proof. intros Hl [H1 (p & H2 & H3 & H4) H5 H6]. split; [lia|exists p; split; [done|split; lia]|done..]. Qed.
Lemma slot_nonneg m f off : slot_ok m f off → 0 ≤ slot f off.
Proof. intros Hs. destruct (slot_addr m f off Hs) as (p & a & k & _ & _ & _ & ? & _ & ->). lia. Qed.

(** A change of the memory that sets the flag of one field. *)
Lemma nulls_update m m' z z' i f off (b : bool) :
  nulls_of m z → fs !! i = Some f → off ∈ offs → length m' = length m →
  (∀ k, 0 ≤ k → byte_bit m' k = if decide (k = slot f off) then b else byte_bit m k) →
  (∀ x, x ∈ z' ↔ if decide (x = (i, off)) then b = true else x ∈ z) → nulls_of m' z'.
Proof.
  intros [Hl Hb] Hf Ho Hlen Hk Hz. split; [by rewrite Hlen|]. intros j g off' Hg Ho'.
  rewrite Hk by (eapply slot_nonneg, Hl; done). case_decide as E.
  - pose proof (rl_inj _ Hl _ _ _ _ _ _ Hg Hf Ho' Ho E) as ->. destruct b; symmetry.
    + apply bool_decide_true, Hz. by rewrite decide_True.
    + apply bool_decide_false. rewrite Hz, decide_True by done. done.
  - rewrite (Hb j g off' Hg Ho'). apply bool_decide_ext. rewrite Hz.
    rewrite decide_False; [done|]. intros [= -> ->]. apply E. by simplify_eq.
Qed.

Lemma null_step m z o z' r : nulls_of m z → null_spec z o = Some (z', r) →
  ∃ m', null_exec m o = Some (m', r) ∧ nulls_of m' z'.
Proof.
  intros Hn. assert (∀ i f off, fs !! i = Some f → off ∈ offs → slot_ok m f off) as Hs.
  { intros i f off Hf Ho. eapply slot_ok_length; [|by eapply rl_slot; [apply Hn|..]]. by rewrite length_replicate. }
  destruct o as [i off|i off|i off|j]; cbn; (case_decide as Hd; [|done]); intros [= <- <-].
  - destruct Hd as [[f Hf] Ho]. rewrite Hf. cbn [mbind option_bind]. destruct (set_null_spec m f off) as (m' & -> & Hl & Hk); [by eapply Hs|].
    exists m'. split; [done|]. eapply nulls_update; [done..|]. cbn. intros x. rewrite elem_of_union, elem_of_singleton. case_decide; naive_solver.
  - destruct Hd as [[f Hf] Ho]. rewrite Hf. cbn [mbind option_bind]. destruct (set_notnull_spec m f off) as (m' & -> & Hl & Hk); [by eapply Hs|].
    exists m'. split; [done|]. eapply nulls_update; [done..|]. cbn. intros x. rewrite elem_of_difference, elem_of_singleton. case_decide; naive_solver.
  - destruct Hd as [[f Hf] Ho]. rewrite Hf. cbn [mbind option_bind]. destruct (is_null_spec m t f off) as [-> _]; [by eapply Hs|].
    exists m. split; [|done]. cbn. by rewrite (no_bits _ _ Hn i f off Hf Ho).
  - destruct Hd as [f Hf]. rewrite Hf. cbn [mbind option_bind]. destruct (bit_reset_spec m f) as (m' & -> & Hl & Hk).
    { eapply bit_ok_length; [|by eapply rl_bit; [apply Hn|]]. by rewrite length_replicate. }
    exists m'. split; [done|]. destruct Hn as [Hly Hb]. split; [by rewrite Hl|]. intros i g off Hg Ho.
    rewrite Hk by (eapply slot_nonneg, Hs; done). rewrite decide_False by (by eapply rl_apart). by apply Hb.
Qed.
End nulls.

(** ** Areas of the memory *)

Section areas.
Import FieldRec.

Lemma image_ext m m' p n : length m' = length m → (∀ i, (p ≤ i < p + n)%nat → m' !! i = m !! i) → image m' p n = image m p n.
Proof.
  intros Hl He. unfold image. rewrite Hl. case_decide; [|done]. f_equal. apply list_eq. intros i.
  destruct (decide (i < n)%nat).
  - rewrite !lookup_take_lt, !lookup_drop by done. apply He. lia.
  - by rewrite !lookup_take_ge by lia.
Qed.

Lemma area_length m p n b : image m p n = Some b → length b = n.
Proof. unfold image. case_decide; [|done]. intros [= <-]. rewrite length_take, length_drop. lia. Qed.

Lemma area_some m p n : (p + n ≤ length m)%nat → ∃ b, image m p n = Some b.
Proof. intros H. unfold image. rewrite decide_True by done. by eexists. Qed.

Lemma write_image_some m p b : (p + length b ≤ length m)%nat → ∃ m', write_image m p b = Some m'.
Proof. intros H. unfold write_image. rewrite decide_True by done. by eexists. Qed.

Lemma write_image_lookup m p b m' : write_image m p b = Some m' →
  length m' = length m ∧ image m' p (length b) = Some b ∧ ∀ i, (i < p ∨ p + length b ≤ i)%nat → m' !! i = m !! i.
Proof.
  unfold write_image. case_decide as Hle; [|done]. intros [= <-]. split; [rewrite !length_app, length_take, length_drop; lia|]. split.
  - unfold image. rewrite decide_True by (rewrite !length_app, length_take, length_drop; lia).
    rewrite drop_app_length' by (rewrite length_take; lia). by rewrite take_app_length.
  - intros i Hi. destruct (decide (i < p)%nat).
    + rewrite lookup_app_l by (rewrite length_take; lia). by rewrite lookup_take_lt.
    + rewrite lookup_app_r by (rewrite length_take; lia). rewrite length_take, lookup_app_r by lia. rewrite lookup_drop. f_equal. lia.
Qed.

Definition apart (p n q k : nat) : Prop := (p + n ≤ q ∨ q + k ≤ p)%nat.

Lemma area_copy_spec m to from n : apart to n from n → (to + n ≤ length m)%nat → (from + n ≤ length m)%nat →
  ∃ m' b, memcpy m to from n = Some m' ∧ image m from n = Some b ∧ length m' = length m ∧ image m' to n = Some b ∧
    ∀ q k, apart q k to n → image m' q k = image m q k.
Proof.
  intros Ha H1 H2. unfold memcpy. rewrite decide_True by (unfold apart in Ha; lia).
  destruct (area_some m from n H2) as [b Hb]. rewrite Hb. cbn [mbind option_bind]. pose proof (area_length _ _ _ _ Hb) as Hl.
  destruct (write_image_some m to b) as [m' Hw]; [lia|]. rewrite Hw. exists m', b.
  destruct (write_image_lookup _ _ _ _ Hw) as (Hlen & Hi & Hk). rewrite Hl in *. split_and!; [done..|].
  intros q k Hq. apply image_ext; [done|]. intros i Hi'. apply Hk. unfold apart in Hq. lia.
Qed.

Lemma wr_image m a v m' q k : wr a 0 v m = Some m' → apart q k a 1 → image m' q k = image m q k.
Proof.
  unfold wr, apart. rewrite Nat.add_0_r. destruct (m !! a); [|done]. intros [= <-] Ha. apply image_ext; [by rewrite length_insert|].
  intros i Hi. rewrite list_lookup_insert_ne; [done|lia].
Qed.

(** The null byte of a field is apart from an area. *)
Definition null_apart (f : Field) (q k : nat) : Prop := match null_ptr f with Some p => apart q k p 1 | None => True end.

Lemma set_notnull_image m f m' q k : set_notnull m f 0 = Some m' → null_apart f q k → length m' = length m ∧ image m' q k = image m q k.
Proof.
  unfold set_notnull, null_apart. destruct (null_ptr f) as [p|]; [|by intros [= <-]]. unfold at_offset. rewrite decide_True by lia.
  rewrite Z.add_0_r, Nat2Z.id. cbn [mbind option_bind]. destruct (rd m p 0); [|done]. cbn [mbind option_bind]. intros Hw Ha.
  split; [by eapply wr_length|by eapply wr_image].
Qed.

(** ** Least and greatest values *)

Context (cmp : list Z → list Z → Z).

(** Where a field and the field of its least or greatest value are. *)
Record stat_layout (m : list Z) (f v : Field) : Prop := {
  sl_f : (ptr f + pack_length f ≤ length m)%nat;
  sl_v : (ptr v + pack_length f ≤ length m)%nat;
  sl_apart : apart (ptr v) (pack_length f) (ptr f) (pack_length f);
  sl_null_f : null_apart v (ptr f) (pack_length f);
  sl_null_v : null_apart v (ptr v) (pack_length f);
  sl_slot : slot_ok m v 0 }.

Lemma stat_layout_length m m' f v : length m' = length m → stat_layout m f v → stat_layout m' f v.
Proof. intros Hl [H1 H2 H3 H4 H5 H6]. split; [lia|lia|done..|by eapply slot_ok_length]. Qed.

(** The step both functions take when they update. *)
Lemma copy_value m f v : stat_layout m f v →
  ∃ m1 m2 a, set_notnull m v 0 = Some m1 ∧ memcpy m1 (ptr v) (ptr f) (pack_length f) = Some m2 ∧ length m2 = length m ∧
    image m (ptr f) (pack_length f) = Some a ∧ image m2 (ptr f) (pack_length f) = Some a ∧ image m2 (ptr v) (pack_length f) = Some a.
Proof.
  intros [Hf Hv Ha Hnf Hnv Hs]. destruct (set_notnull_spec m v 0 Hs) as (m1 & E1 & Hl1 & _).
  destruct (set_notnull_image m v m1 (ptr f) (pack_length f) E1 Hnf) as [_ Hif].
  destruct (area_copy_spec m1 (ptr v) (ptr f) (pack_length f) Ha) as (m2 & a & E2 & Hb & Hl2 & Hi & Hk); [lia..|].
  exists m1, m2, a. split_and!; [done|done|lia|by rewrite <- Hif| |done]. rewrite Hk; [done|]. unfold apart in *. lia.
Qed.

Lemma update_min_spec m f v a b force : stat_layout m f v →
  image m (ptr f) (pack_length f) = Some a → image m (ptr v) (pack_length f) = Some b →
  let fl := force || bool_decide (cmp a b < 0) in
  ∃ m', update_min cmp m f v force = Some (m', fl) ∧ length m' = length m ∧
    image m' (ptr f) (pack_length f) = Some a ∧ image m' (ptr v) (pack_length f) = Some (if fl then a else b).
Proof.
  intros Hl Ha Hb. cbn zeta. unfold update_min. destruct (copy_value m f v Hl) as (m1 & m2 & a' & E1 & E2 & Hlen & Ha' & Hi1 & Hi2).
  rewrite Ha in Ha'. injection Ha' as <-. rewrite Ha, Hb. destruct force; cbn [orb mbind option_bind].
  - rewrite E1. cbn [mbind option_bind]. rewrite E2. by exists m2.
  - case_bool_decide; cbn [mbind option_bind]; [rewrite E1; cbn [mbind option_bind]; rewrite E2; by exists m2|by exists m].
Qed.

Lemma update_max_spec m f v a b force : stat_layout m f v →
  image m (ptr f) (pack_length f) = Some a → image m (ptr v) (pack_length f) = Some b →
  let fl := force || bool_decide (0 < cmp a b) in
  ∃ m', update_max cmp m f v force = Some (m', fl) ∧ length m' = length m ∧
    image m' (ptr f) (pack_length f) = Some a ∧ image m' (ptr v) (pack_length f) = Some (if fl then a else b).
Proof.
  intros Hl Ha Hb. cbn zeta. unfold update_max. destruct (copy_value m f v Hl) as (m1 & m2 & a' & E1 & E2 & Hlen & Ha' & Hi1 & Hi2).
  rewrite Ha in Ha'. injection Ha' as <-. rewrite Ha, Hb. destruct force; cbn [orb mbind option_bind].
  - rewrite E1. cbn [mbind option_bind]. rewrite E2. by exists m2.
  - case_bool_decide; cbn [mbind option_bind]; [rewrite E1; cbn [mbind option_bind]; rewrite E2; by exists m2|by exists m].
Qed.

(** Rows are read into the field one after the other, and the least value of the
    field is kept, the first row being taken as it is. *)
Fixpoint scan_min (m : list Z) (f v : Field) (rows : list (list Z)) (first : bool) : option (list Z) :=
  match rows with
  | [] => Some m
  | r :: rows => m ← write_image m (ptr f) r; '(m, _) ← update_min cmp m f v first; scan_min m f v rows false
  end.

Record cmp_laws : Prop := {
  cl_sym : ∀ a b, cmp a b < 0 ↔ 0 < cmp b a;
  cl_trans : ∀ a b c, cmp a b ≤ 0 → cmp b c ≤ 0 → cmp a c ≤ 0 }.

Lemma scan_min_spec rows : ∀ m f v (first : bool) b, cmp_laws → stat_layout m f v →
  Forall (λ r, length r = pack_length f) rows → image m (ptr v) (pack_length f) = Some b →
  ∃ m' c, scan_min m f v rows first = Some m' ∧ image m' (ptr v) (pack_length f) = Some c ∧
    (c ∈ rows ∨ c = b ∧ (first = true → rows = [])) ∧ Forall (λ r, cmp c r ≤ 0) rows ∧ (first = false → cmp c b ≤ 0).
Proof.
  induction rows as [|r rows IH]; intros m f v first b Hc Hl Hrows Hb; cbn [scan_min].
  - assert (cmp b b ≤ 0) as Hbb by (pose proof (cl_sym Hc b b); lia). exists m, b. by split_and!; [|done|right| |].
  - apply Forall_cons in Hrows as [Hr Hrows]. destruct (write_image_some m (ptr f) r) as [m1 E1]; [rewrite Hr; apply Hl|].
    rewrite E1. cbn [mbind option_bind]. destruct (write_image_lookup _ _ _ _ E1) as (Hl1 & Hi1 & Hk1). rewrite Hr in *.
    assert (image m1 (ptr v) (pack_length f) = Some b) as Hb1.
    { rewrite <- Hb. apply image_ext; [done|]. intros i Hi. apply Hk1. destruct Hl as [_ _ Ha _ _ _]. unfold apart in Ha. lia. }
    pose proof (stat_layout_length _ _ _ _ Hl1 Hl) as Hly1.
    destruct (update_min_spec m1 f v r b first Hly1 Hi1 Hb1) as (m2 & -> & Hl2 & Hf2 & Hv2). cbn [mbind option_bind].
    destruct (IH m2 f v false _ Hc (stat_layout_length _ _ _ _ Hl2 Hly1) Hrows Hv2) as (m' & c & -> & Hc' & Hin & Hall & Hle).
    specialize (Hle eq_refl). assert (∀ x, cmp x x ≤ 0) as Hrefl by (intros x; pose proof (cl_sym Hc x x); lia).
    exists m', c. split; [done|]. split; [done|].
    assert (cmp c r ≤ 0 ∧ (first = false → cmp c b ≤ 0)) as [Hcr Hcb].
    { destruct first; cbn [orb] in Hle; [done|]. case_bool_decide as Hlt.
      - split; [done|]. intros _. eapply cl_trans; [done|done|lia].
      - split; [|done]. eapply cl_trans; [done..|]. pose proof (cl_sym Hc r b). pose proof (cl_sym Hc b r). lia. }
    split; [|split; [by constructor|done]].
    destruct Hin as [Hin|[-> _]]; [left; by right|]. destruct first; cbn [orb]; [left; left|].
    case_bool_decide; [left; left|right; done].
Qed.
End areas.

(** ** Numbers in the memory *)

Section numbers.
Import FieldRec.

Lemma space_loop_spec m str : ∀ fuel e, (e - str ≤ fuel)%nat → (str ≤ e ≤ length m)%nat →
  ∃ k, space_loop fuel m str e = Some k ∧ (str ≤ k ≤ e)%nat ∧ (∀ i, (k ≤ i < e)%nat → m !! i = Some 32) ∧
    ((str < k)%nat → m !! (k - 1)%nat ≠ Some 32).
Proof.
  induction fuel as [|fuel IH]; intros e Hf He; cbn.
  - exists e. split; [done|]. split; [lia|]. split; [lia|lia].
  - case_decide as Hlt; [|exists e; split; [done|]; split; [lia|]; split; lia].
    unfold rd. rewrite Nat.add_0_r. destruct (lookup_lt_is_Some_2 m (e - 1)) as [b Hb]; [lia|]. rewrite Hb. cbn [mbind option_bind].
    case_decide as Hs; [|exists e; split; [done|]; split; [lia|]; split; [lia|congruence]].
    destruct (IH (e - 1)%nat) as (k & -> & Hk & Hsp & Hlast); [lia..|]. exists k. split; [done|]. split; [lia|]. split; [|done].
    intros i Hi. destruct (decide (i = e - 1)%nat) as [->|]; [by rewrite Hb, Hs|apply Hsp; lia].
Qed.

(** The value of bytes, high byte first. *)
Lemma hex_loop_spec bytes : ∀ v, bytes_ok bytes → 0 ≤ v → (v + 1) * 256 ^ Z.of_nat (length bytes) ≤ 2 ^ 64 →
  hex_loop bytes v = v * 256 ^ Z.of_nat (length bytes) + be_val bytes.
Proof.
  induction bytes as [|b bytes IH]; intros v Hb Hv Hs; [cbn; lia|]. apply Forall_cons in Hb as [Hb Hbs]. cbn [hex_loop length] in *.
  rewrite Nat2Z.inj_succ, Z.pow_succ_r in * by lia. assert (0 < 256 ^ Z.of_nat (length bytes)) as Hp by (apply Z.pow_pos_nonneg; lia).
  rewrite Z.shiftl_mul_pow2 by lia. assert ((v + 1) * 256 ≤ 2 ^ 64) as Hv' by nia.
  rewrite (wrapu_small 64 (v * 2 ^ 8)), wrapu_small by (unfold in_u; lia). rewrite IH; [|done|lia|nia].
  unfold be_val. cbn [rev]. rewrite le_val_app, length_rev. cbn. lia.
Qed.
End numbers.

(** ** Properties *)

Section properties.
Import FieldRec.

(** [C8] The null flags of the fields of several records, among which the odd bits of
    bit fields are stored too, form a set: any history of [set_null],
    [set_notnull] and [is_null] of fields at the offsets of records, and of resets
    of bit fields, stays within the memory and answers as for a set of pairs of a
    field and a record. *)
Theorem null_flags_refine_set (t : TABLE) (fs : list Field) (bs : list Field_bit) (offs : list Z) (m : list Z)
    (z z' : gset (nat * Z)) (os : list null_op) (rs : list (option bool)) :
  nulls_of fs bs offs m z → null_spec_all fs bs offs z os = Some (z', rs) →
  ∃ m', null_exec_all t fs bs m os = Some (m', rs) ∧ nulls_of fs bs offs m' z'.
Proof.
  revert m z rs. induction os as [|o os IH]; intros m z rs Hn; cbn; [intros [= <- <-]; by exists m|].
  destruct (null_spec fs bs offs z o) as [[z1 r]|] eqn:Eo; [|done]. cbn.
  destruct (null_spec_all fs bs offs z1 os) as [[z2 rs2]|] eqn:Eos; [|done]. cbn. intros [= <- <-].
  destruct (null_step t fs bs offs m z o z1 r Hn Eo) as (m1 & -> & Hn1). cbn.
  destruct (IH m1 z1 rs2 Hn1 Eos) as (m2 & -> & Hn2). cbn. by exists m2.
Qed.

(** Two nullable fields and a bit field of 12 bits in two records of four bytes. *)
Definition fields0 : list Field := [Fld 1 (Some 0%nat) 2 1; Fld 2 (Some 0%nat) 4 1].
Definition bits0 : list Field_bit := [Fbit (Fld 3 (Some 0%nat) 1 1) (Some 0%nat) 3 4 1].

Lemma null_flags_refine_set_witness :
  ∃ m', null_exec_all (Tab 0 false false) fields0 bits0 [255; 9; 9; 9; 0; 9; 9; 9]
      [IsNull 0 0; IsNull 0 4; SetNull 1 4; SetNotNull 0 0; ResetBits 0; IsNull 0 0; IsNull 1 0; IsNull 1 4; IsNull 0 4]
    = Some (m', [Some true; Some false; None; None; None; Some false; Some true; Some true; Some false]) ∧
    m' = [133; 9; 9; 0; 4; 9; 9; 9].
Proof.
  destruct (null_flags_refine_set (Tab 0 false false) fields0 bits0 [0; 4] [255; 9; 9; 9; 0; 9; 9; 9]
    {[(0%nat, 0); (1%nat, 0)]} (({[(1%nat, 4)]} ∪ {[(0%nat, 0); (1%nat, 0)]}) ∖ {[(0%nat, 0)]})
    [IsNull 0 0; IsNull 0 4; SetNull 1 4; SetNotNull 0 0; ResetBits 0; IsNull 0 0; IsNull 1 0; IsNull 1 4; IsNull 0 4]
    [Some true; Some false; None; None; None; Some false; Some true; Some true; Some false]) as (m' & H1 & _).
  - assert (∀ (i : nat) f off, fields0 !! i = Some f → off ∈ [0; 4] →
      (i = 0%nat ∧ f = Fld 1 (Some 0%nat) 2 1 ∨ i = 1%nat ∧ f = Fld 2 (Some 0%nat) 4 1) ∧ (off = 0 ∨ off = 4)) as Hcases.
    { intros [|[|i]] f off; cbn; intros [= <-] Ho; rewrite !elem_of_cons, elem_of_nil in Ho; naive_solver. }
    assert (∀ (j : nat) b, bits0 !! j = Some b → b = Fbit (Fld 3 (Some 0%nat) 1 1) (Some 0%nat) 3 4 1) as Hb by (by intros [|j] b; cbn; intros [= <-]).
    split; [split|].
    + intros i f off Hf Ho. destruct (Hcases i f off Hf Ho) as [[[_ ->]|[_ ->]] [->| ->]];
        (split; [discriminate|first [exists 1; cbn; lia|exists 2; cbn; lia]|cbn; lia]).
    + intros i f off j g off' Hf Hg Ho Ho'.
      destruct (Hcases i f off Hf Ho) as [[[-> ->]|[-> ->]] [->| ->]], (Hcases j g off' Hg Ho') as [[[-> ->]|[-> ->]] [->| ->]];
        vm_compute; congruence.
    + intros j b Hj. rewrite (Hb j b Hj). split; [cbn; lia|exists 0%nat; cbn; split; [done|lia]|cbn; lia|cbn; lia].
    + intros i f off j b Hf Ho Hj. rewrite (Hb j b Hj).
      destruct (Hcases i f off Hf Ho) as [[[-> ->]|[-> ->]] [->| ->]]; apply (bool_decide_unpack _); vm_compute; exact I.
    + intros i f off Hf Ho. destruct (Hcases i f off Hf Ho) as [[[-> ->]|[-> ->]] [->| ->]]; vm_compute; reflexivity.
  - vm_compute. reflexivity.
  - exists m'. split; [exact H1|]. vm_compute in H1. congruence.
Defined.

(** Statistics: for every order of values that [cmp] implements, a scan that hands
    each row to [update_min], the first one with force, leaves the least of the
    values of the rows. *)
Theorem scan_keeps_minimum (cmp : list Z → list Z → Z) (m : list Z) (f v : Field) (row : list Z) (rows : list (list Z)) :
  cmp_laws cmp → stat_layout m f v → Forall (λ r, length r = pack_length f) (row :: rows) →
  ∃ m' c, scan_min cmp m f v (row :: rows) true = Some m' ∧ image m' (ptr v) (pack_length f) = Some c ∧
    c ∈ row :: rows ∧ Forall (λ r, cmp c r ≤ 0) (row :: rows).
Proof.
  intros Hc Hl Hr. destruct (area_some m (ptr v) (pack_length f)) as [b Hb]; [apply Hl|].
  destruct (scan_min_spec cmp (row :: rows) m f v true b Hc Hl Hr Hb) as (m' & c & H1 & H2 & H3 & H4 & _).
  exists m', c. split_and!; [done|done| |done]. destruct H3 as [H3|[_ H3]]; [done|by specialize (H3 eq_refl)].
Qed.

Lemma scan_keeps_minimum_witness :
  ∃ m' c, scan_min (λ a b, hd 0 a - hd 0 b) [255; 0; 0] (Fld 1 None 0 1) (Fld 2 (Some 0%nat) 1 1) [[7]; [3]; [5]] true = Some m' ∧
    image m' 2 1 = Some c ∧ c = [3].
Proof.
  destruct (scan_keeps_minimum (λ a b, hd 0 a - hd 0 b) [255; 0; 0] (Fld 1 None 0 1) (Fld 2 (Some 0%nat) 1 1) [7] [[3]; [5]])
    as (m' & c & H1 & H2 & _).
  - split; intros; lia.
  - split; [cbn; lia|cbn; lia|unfold apart; cbn; lia|unfold null_apart, apart; cbn; lia|unfold null_apart, apart; cbn; lia|].
    split; [discriminate|exists 0; cbn; lia|cbn; lia].
  - repeat constructor.
  - exists m', c. split; [exact H1|]. split; [exact H2|]. vm_compute in H1. injection H1 as <-. vm_compute in H2. congruence.
Defined.

(** The length of a VARCHAR below the bound of its length bytes, and a packed
    integer of any size, are read back as stored; unpacking at the end of the data
    reports it and writes nothing. *)
Theorem field_values_roundtrip (m : list Z) (f : Field) (length_bytes : nat) (n : Z) (to from back size : nat) (b : list Z) :
  bytes_ok m → (length_bytes = 1 ∨ length_bytes = 2)%nat → (ptr f + length_bytes ≤ length m)%nat →
  0 ≤ n < 256 ^ Z.of_nat length_bytes →
  image m from size = Some b → (to + size ≤ length m)%nat → (back + size ≤ length m)%nat → apart to size from size → apart back size to size →
  (∃ m', varstring_store_length m f length_bytes n = Some m' ∧ varstring_get_length m' f length_bytes = Some n) ∧
  (∃ m1 m2, pack_int m to from size = Some (m1, (to + size)%nat) ∧
     unpack_int m1 back to (to + size) size = Some (m2, Some (to + size)%nat) ∧ image m2 back size = Some b ∧
     ∀ e, (e < to + size)%nat → unpack_int m1 back to e size = Some (m1, None)).
Proof.
  intros Hm Hlb Hroom Hn Hb Hto Hback Ha1 Ha2. split.
  - unfold varstring_store_length, varstring_get_length, X86_64.int2store, X86_64.uint2korr.
    assert (∃ pre l r, m = pre ++ l ++ r ∧ length pre = ptr f ∧ length l = length_bytes) as (pre & l & r & -> & Hp & Hl).
    { exists (take (ptr f) m), (take length_bytes (drop (ptr f) m)), (drop (ptr f + length_bytes) m).
      rewrite <- drop_drop, !take_drop, !length_take, length_drop. split; [done|lia]. }
    destruct Hlb as [-> | ->]; [rewrite decide_True by done|rewrite decide_False by done].
    + rewrite wr_store, Nat.add_0_r, (store_le_app pre l r) by done. eexists. split; [done|]. rewrite decide_True, rd_load, Nat.add_0_r by done.
      rewrite (load_le_app pre (le_bytes 1 n) r) by (done || apply le_bytes_length). rewrite le_val_bytes, Z.mod_small by done. done.
    + rewrite (store_le_app pre l r) by done. eexists. split; [done|]. rewrite decide_False by done.
      rewrite (load_le_app pre (le_bytes 2 (u16 (u16 n))) r) by (done || apply le_bytes_length).
      cbn in Hn. rewrite !(wrapu_small 16 n), le_val_bytes, Z.mod_small by (unfold in_u; cbn; lia). cbn. rewrite wrapu_small by (unfold in_u; lia). done.
  - assert (from + size ≤ length m)%nat as Hfrom by (unfold image in Hb; by destruct (decide _)).
    destruct (area_copy_spec m to from size Ha1 Hto Hfrom) as (m1 & b1 & E1 & Hb1 & Hl1 & Hi1 & _). rewrite Hb in Hb1. injection Hb1 as <-.
    destruct (area_copy_spec m1 back to size Ha2) as (m2 & b2 & E2 & Hb2 & _ & Hi2 & _); [lia..|]. rewrite Hi1 in Hb2. injection Hb2 as <-.
    exists m1, m2. unfold pack_int, unpack_int. rewrite E1. cbn [mbind option_bind]. split; [done|].
    rewrite decide_False by lia. rewrite E2. cbn [mbind option_bind]. split; [done|]. split; [done|].
    intros e He. by rewrite decide_True by lia.
Qed.

Lemma field_values_roundtrip_witness :
  (∃ m', varstring_store_length [0; 0; 7; 8; 0; 0; 0; 0] (Fld 0 None 0 2) 2 500 = Some m' ∧
     varstring_get_length m' (Fld 0 None 0 2) 2 = Some 500) ∧
  ∃ m1 m2, pack_int [0; 0; 7; 8; 0; 0; 0; 0] 4 2 2 = Some (m1, 6%nat) ∧ unpack_int m1 6 4 6 2 = Some (m2, Some 6%nat) ∧
    image m2 6 2 = Some [7; 8].
Proof.
  destruct (field_values_roundtrip [0; 0; 7; 8; 0; 0; 0; 0] (Fld 0 None 0 2) 2 500 4 2 6 2 [7; 8]) as [H1 (m1 & m2 & H2 & H3 & H4 & _)];
    [by apply (bool_decide_unpack _)|by right|cbn; lia|cbn; lia|reflexivity|cbn; lia|cbn; lia|unfold apart; lia|unfold apart; lia|].
  split; [exact H1|]. exists m1, m2. split; [exact H2|]. split; [exact H3|exact H4].
Defined.

(** [value_length] of a CHAR of 4 to 255 bytes in the memory is the length without
    the trailing spaces. *)
Theorem value_length_trims (m : list Z) (f : Field) (data_length : Z) :
  (4 ≤ pack_length f < 256)%nat → (ptr f + pack_length f ≤ length m)%nat →
  ∃ n, value_length m f false true data_length = Some (Z.of_nat n) ∧ (n ≤ pack_length f)%nat ∧
    (∀ i, (n ≤ i < pack_length f)%nat → m !! (ptr f + i)%nat = Some 32) ∧
    ((0 < n)%nat → m !! (ptr f + n - 1)%nat ≠ Some 32).
Proof.
  intros Hlen Hroom. unfold value_length. rewrite !bool_decide_true by lia. cbn [negb andb].
  destruct (space_loop_spec m (ptr f) (pack_length f) (ptr f + pack_length f)) as (k & -> & Hk & Hs & Hl); [lia..|].
  cbn [mbind option_bind]. exists (k - ptr f)%nat. split; [done|]. split; [lia|]. split; [intros i Hi; apply Hs; lia|].
  intros Hpos. replace (ptr f + (k - ptr f) - 1)%nat with (k - 1)%nat by lia. apply Hl. lia.
Qed.

Lemma value_length_trims_witness :
  ∃ n, value_length [65; 32; 66; 32; 32] (Fld 0 None 0 5) false true 9 = Some (Z.of_nat n) ∧ n = 3%nat.
Proof.
  destruct (value_length_trims [65; 32; 66; 32; 32] (Fld 0 None 0 5) 9) as (n & H1 & _); [cbn; lia|cbn; lia|].
  exists n. split; [exact H1|]. change (value_length _ _ _ _ _) with (Some 3) in H1. injection H1 as H1. lia.
Defined.

(** A hexadecimal literal as a number is the value of its last eight bytes, as a
    signed integer; shorter ones are exact. *)
Theorem hex_hybrid_value (str : list Z) :
  bytes_ok str → longlong_from_hex_hybrid str = s64 (be_val (drop (length str - 8) str)) ∧
  ((length str < 8)%nat → longlong_from_hex_hybrid str = be_val str).
Proof.
  intros Hb. unfold longlong_from_hex_hybrid. replace (length str - Nat.min (length str) 8)%nat with (length str - 8)%nat by lia.
  assert (bytes_ok (drop (length str - 8) str)) as Hd by (by apply Forall_drop).
  assert (256 ^ Z.of_nat (length (drop (length str - 8) str)) ≤ 2 ^ 64) as Hp.
  { change (2 ^ 64) with (256 ^ 8). apply Z.pow_le_mono_r; [lia|]. rewrite length_drop. lia. }
  rewrite hex_loop_spec, Z.mul_0_l, Z.add_0_l by (done || lia). split; [done|]. intros Hs.
  replace (length str - 8)%nat with 0%nat by lia. rewrite drop_0. apply wraps_small; [lia|].
  assert (bytes_ok (rev str)) as Hr by (by apply Forall_rev). pose proof (le_val_bound _ Hr) as Hv. rewrite length_rev in Hv.
  assert (256 ^ Z.of_nat (length str) ≤ 256 ^ 7) by (apply Z.pow_le_mono_r; lia). unfold be_val, in_s. cbn in *. lia.
Qed.

Lemma hex_hybrid_value_witness : longlong_from_hex_hybrid [1; 2] = 258.
Proof. destruct (hex_hybrid_value [1; 2]) as [_ H]; [by apply (bool_decide_unpack _)|]. rewrite H by (cbn; lia). reflexivity. Defined.

(** The metadata of a CHAR: two bits of the length are stored inverted in the type
    byte, 254. *)
Definition string_metadata (len : Z) : Z := (Z.lxor 254 ((len .& 768) ≫ 4) ≪ 8) .| (len .& 255).

(** The length of a CHAR below 1024 bytes is read back from its metadata. *)
Theorem metadata_length_roundtrip (field_length len : Z) :
  0 ≤ len < 1024 → string_pack_length_from_metadata field_length (string_metadata len) = len.
Proof.
  intros Hlen. assert (Forall (λ n, string_metadata (Z.of_nat n) ≠ 0 ∧
    string_pack_length_from_metadata 0 (string_metadata (Z.of_nat n)) = Z.of_nat n) (seq 0 1024)) as Hall
    by (apply (bool_decide_unpack _); vm_compute; exact I).
  destruct (proj1 (Forall_forall _ _) Hall (Z.to_nat len)) as [Hne Heq]; [apply elem_of_seq; lia|].
  rewrite Z2Nat.id in Hne, Heq by lia. unfold string_pack_length_from_metadata in *. by rewrite decide_False in * by done.
Qed.

Lemma metadata_length_roundtrip_witness : string_pack_length_from_metadata 5 (string_metadata 765) = 765.
Proof. apply (metadata_length_roundtrip 5 765). lia. Defined.

(** The type of a field, as it is made of the real type, never fails the assertion
    on temporal types, and a second conversion changes nothing. *)
Theorem real_type_conversion (real_type : Z) :
  is_Some (is_temporal_type_with_date (real_type_to_type real_type)) ∧
  real_type_to_type (real_type_to_type real_type) = real_type_to_type real_type.
Proof.
  unfold real_type_to_type, is_temporal_type_with_date. unfold MYSQL_TYPE_TIMESTAMP, MYSQL_TYPE_DATE, MYSQL_TYPE_TIME, MYSQL_TYPE_DATETIME,
    MYSQL_TYPE_NEWDATE, MYSQL_TYPE_TIMESTAMP2, MYSQL_TYPE_DATETIME2, MYSQL_TYPE_TIME2.
  repeat case_decide; subst; try (by split; [vm_compute; eauto|]); try lia.
Qed.
End properties.
