(* ===== verification/Decimal.v ===== *)
(** * Decimal numbers

    The class my_decimal of my_decimal.h with the macros of decimal.h.  Each object
    has the space for its digits inside, and a pointer to it that copying must
    correct: the objects live in a store, and the digits are reached through the
    pointer.  The functions of the decimal library (decimal_add and the like) are
    arguments. *)

From Stdlib Require Import ZArith Lia.
From stdpp Require Import base numbers option list gmap.
From S2P Require Import Prelude.
Open Scope Z_scope.
Open Scope cint_scope.

Module Decimal.

Definition DECIMAL_BUFF_LENGTH : Z := 9.
Definition DECIMAL_MAX_POSSIBLE_PRECISION : Z := DECIMAL_BUFF_LENGTH * 9.
Definition DECIMAL_MAX_PRECISION : Z := DECIMAL_MAX_POSSIBLE_PRECISION - 8 * 2.
Definition DECIMAL_MAX_SCALE : Z := 38.
Definition DECIMAL_NOT_SPECIFIED : Z := 39.
Definition E_DEC_OK : Z := 0.
Definition E_DEC_TRUNCATED : Z := 1.
Definition E_DEC_OVERFLOW : Z := 2.
Definition E_DEC_DIV_ZERO : Z := 4.
Definition E_DEC_BAD_NUM : Z := 8.
Definition E_DEC_OOM : Z := 16.
Definition E_DEC_ERROR : Z := 31.
Definition E_DEC_FATAL_ERROR : Z := 30.

(** ** Lengths and precisions *)

(** [decimal_size] is defined elsewhere. *)
Definition my_decimal_size (decimal_size : Z → Z → Z) (precision scale : Z) : Z := u32 (decimal_size precision scale + 1).
Definition my_decimal_int_part (precision decimals : Z) : Z :=
  s32 (u32 (precision - (if decide (decimals = DECIMAL_NOT_SPECIFIED) then 0 else decimals))).
(** A failed assertion is [None]. *)
Definition my_decimal_length_to_precision (length scale : Z) (unsigned_flag : bool) : option Z :=
  if bool_decide (length ≠ 0) || bool_decide (scale = 0) then
    Some (u32 (length - (if decide (0 < scale) then 1 else 0) - (if unsigned_flag || bool_decide (length = 0) then 0 else 1)))
  else None.
Definition my_decimal_precision_to_length_no_truncation (precision scale : Z) (unsigned_flag : bool) : option Z :=
  if bool_decide (precision ≠ 0) || bool_decide (scale = 0) then
    Some (u32 (precision + (if decide (0 < scale) then 1 else 0) + (if unsigned_flag || bool_decide (precision = 0) then 0 else 1)))
  else None.
Definition my_decimal_precision_to_length (precision scale : Z) (unsigned_flag : bool) : option Z :=
  if bool_decide (precision ≠ 0) || bool_decide (scale = 0) then
    let precision := if decide (DECIMAL_MAX_PRECISION < precision) then DECIMAL_MAX_PRECISION else precision in
    my_decimal_precision_to_length_no_truncation precision scale unsigned_flag
  else None.
Definition decimal_string_size (intg frac : Z) : Z :=
  (if decide (intg ≠ 0) then intg else 1) + frac + (if decide (0 < frac) then 1 else 0) + 2.
Definition my_decimal_string_length (intg frac : Z) : Z := decimal_string_size intg frac.
Definition my_decimal_max_length (intg frac : Z) : Z := decimal_string_size intg frac - 1.

(** ** Objects *)

(** The fields of [decimal_t] and the space inside the object; [buf] is the object
    whose space holds the digits. *)
Record my_decimal := Dec { intg : Z; frac : Z; len : Z; sign : bool; buf : N; buffer : list Z }.
Notation store := (gmap N my_decimal).

(** The number itself: the digits are those behind the pointer. *)
Definition value : Type := Z * Z * bool * list Z.
Definition digits (σ : store) (d : my_decimal) : option (list Z) := o ← σ !! buf d; Some (buffer o).
Definition value_of (σ : store) (i : N) : option value := d ← σ !! i; b ← digits σ d; Some (intg d, frac d, sign d, b).

Definition set_fields (d : my_decimal) (n f : Z) (s : bool) : my_decimal := Dec n f (len d) s (buf d) (buffer d).
Definition set_buffer (d : my_decimal) (b : list Z) : my_decimal := Dec (intg d) (frac d) (len d) (sign d) (buf d) b.

(** A number is written through the pointer of the object. *)
Definition store_value (σ : store) (i : N) (v : value) : option store :=
  d ← σ !! i; let '(n, f, s, b) := v in
  let σ := <[i := set_fields d n f s]> σ in
  o ← σ !! buf d; Some (<[buf d := set_buffer o b]> σ).

(** [garbage] is what the memory held. *)
Definition init (this : N) (d : my_decimal) : my_decimal := Dec (intg d) (frac d) DECIMAL_BUFF_LENGTH (sign d) this (buffer d).
Definition new_my_decimal (σ : store) (this : N) (garbage : my_decimal) : store := <[this := init this garbage]> σ.
Definition fix_buffer_pointer (this : N) (d : my_decimal) : my_decimal := Dec (intg d) (frac d) (len d) (sign d) this (buffer d).

(** The loop over the space. *)
Fixpoint copy_loop (n : nat) (to from : list Z) : option (list Z) :=
  match n with O => Some to | S n => to ← copy_loop n to from; x ← from !! n; _ ← to !! n; Some (<[n := x]> to) end.

(** The copy constructor; the space of the new object holds [garbage]. *)
Definition copy_my_decimal (σ : store) (this rhs : N) (garbage : list Z) : option store :=
  r ← σ !! rhs;
  let d := init this (Dec (intg r) (frac r) (len r) (sign r) (buf r) garbage) in
  b ← copy_loop 9 (buffer d) (buffer r);
  Some (<[this := set_buffer d b]> σ).

Definition operator_assign (σ : store) (this rhs : N) : option store :=
  if decide (this = rhs) then Some σ else
  d ← σ !! this; r ← σ !! rhs;
  let d := Dec (intg r) (frac r) (len r) (sign r) (buf r) (buffer d) in
  b ← copy_loop 9 (buffer d) (buffer r);
  Some (<[this := fix_buffer_pointer this (set_buffer d b)]> σ).

(** [swap_variables] with the object [dummy], which is gone afterwards. *)
Definition swap (σ : store) (this rhs dummy : N) (garbage : my_decimal) : option store :=
  let σ := new_my_decimal σ dummy garbage in
  σ ← operator_assign σ dummy this;
  σ ← operator_assign σ this rhs;
  σ ← operator_assign σ rhs dummy;
  Some (delete dummy σ).

Definition my_decimal2decimal (σ : store) (from to : N) : option store := operator_assign σ to from.

(** [decimal_make_zero]. *)
Definition my_decimal_set_zero (σ : store) (i : N) : option store :=
  d ← σ !! i; b ← digits σ d; _ ← b !! 0%nat; store_value σ i (1, 0, false, <[0%nat := 0]> b).

(** Conversion from a [decimal_t] with its own digits: [to->len] of them are
    copied. *)
Definition decimal2my_decimal (σ : store) (n f from_len : Z) (s : bool) (from_buf : list Z) (to : N) : option store :=
  d ← σ !! to;
  if decide (from_len ≤ len d) then
    b ← digits σ d;
    if decide (len d ≤ Z.of_nat (length from_buf) ∧ len d ≤ Z.of_nat (length b))
    then store_value σ to (n, f, s, take (Z.to_nat (len d)) from_buf ++ drop (Z.to_nat (len d)) b) else None
  else None.

Section library.
(** [decimal_is_zero] and [max_decimal] of the library. *)
Context (decimal_is_zero : value → bool) (max_decimal : Z → Z → value → value).

Definition my_decimal_is_zero (σ : store) (i : N) : option bool := v ← value_of σ i; Some (decimal_is_zero v).

Definition my_decimal_neg (σ : store) (i : N) : option store :=
  v ← value_of σ i; d ← σ !! i;
  Some (<[i := set_fields d (intg d) (frac d) (if decimal_is_zero v then false else negb (sign d))]> σ).

(** A precision or scale that is too large fails the assertion. *)
Definition max_my_decimal (σ : store) (to : N) (precision f : Z) : option store :=
  if decide (precision ≤ DECIMAL_MAX_PRECISION ∧ f ≤ DECIMAL_MAX_SCALE) then
    v ← value_of σ to; store_value σ to (max_decimal precision f v)
  else None.
Definition max_internal_decimal (σ : store) (to : N) : option store := max_my_decimal σ to DECIMAL_MAX_PRECISION 0.

(** Whether an error is reported, and the result. *)
Definition check_result (mask result : Z) : bool * Z := (bool_decide (result .& mask ≠ 0), result).

Definition check_result_and_overflow (σ : store) (mask result : Z) (val : N) : option (store * bool * Z) :=
  let '(reported, result) := check_result mask result in
  if decide (result .& E_DEC_OVERFLOW ≠ 0) then
    d ← σ !! val;
    let s := sign d in
    let σ := <[val := fix_buffer_pointer val d]> σ in
    σ ← max_internal_decimal σ val;
    d ← σ !! val;
    Some (<[val := set_fields d (intg d) (frac d) s]> σ, reported, result)
  else Some (σ, reported, result).

(** [my_decimal_add], [_sub], [_mul], [_div] and [_mod]: the function of the library
    writes its result into [res]. *)
Definition my_decimal_op (op : value → value → value → Z * value) (σ : store) (mask : Z) (res a b : N) : option (store * bool * Z) :=
  x ← value_of σ a; y ← value_of σ b; r ← value_of σ res;
  let '(result, v) := op x y r in
  σ ← store_value σ res v;
  check_result_and_overflow σ mask result res.

(** ** Histories *)

(** The five operations of the library, with the result the object held before. *)
Inductive binop := Add | Sub | Mul | Div (div_scale_inc : Z) | Mod.
Context (decimal_op : binop → value → value → value → Z * value).

Inductive cmd :=
| New (i : N) (garbage : my_decimal)
| Copy (i rhs : N) (garbage : list Z)
| Assign (i rhs : N)
| Swap (i rhs dummy : N) (garbage : my_decimal)
| Zero (i : N)
| Neg (i : N)
| From (n f from_len : Z) (s : bool) (from_buf : list Z) (to : N)
| Op (o : binop) (mask : Z) (res a b : N).

Definition run (σ : store) (c : cmd) : option store :=
  match c with
  | New i g => Some (new_my_decimal σ i g)
  | Copy i r g => copy_my_decimal σ i r g
  | Assign i r => my_decimal2decimal σ r i
  | Swap i r d g => swap σ i r d g
  | Zero i => my_decimal_set_zero σ i
  | Neg i => my_decimal_neg σ i
  | From n f l s b to => decimal2my_decimal σ n f l s b to
  | Op o mask res a b => '(σ, _, _) ← my_decimal_op (decimal_op o) σ mask res a b; Some σ
  end.

(** The specification: independent numbers. *)
Definition sign_of (v : value) : bool := v.1.2.
Definition digits_of (v : value) : list Z := v.2.
Definition with_sign (v : value) (s : bool) : value := (v.1.1, s, v.2).
Definition saturate (r : Z * value) : value :=
  if decide (r.1 .& E_DEC_OVERFLOW ≠ 0) then with_sign (max_decimal DECIMAL_MAX_PRECISION 0 r.2) (sign_of r.2) else r.2.

Definition spec (V : gmap N value) (c : cmd) : option (gmap N value) :=
  match c with
  | New i g => if decide (length (buffer g) = 9%nat) then Some (<[i := (intg g, frac g, sign g, buffer g)]> V) else None
  | Copy i r g => if decide (length g = 9%nat) then v ← V !! r; Some (<[i := v]> V) else None
  | Assign i r => _ ← V !! i; v ← V !! r; Some (<[i := v]> V)
  | Swap i r d g =>
      if decide (length (buffer g) = 9%nat ∧ V !! d = None) then x ← V !! i; y ← V !! r; Some (<[r := x]> (<[i := y]> V)) else None
  | Zero i => v ← V !! i; Some (<[i := (1, 0, false, <[0%nat := 0]> (digits_of v))]> V)
  | Neg i => v ← V !! i; Some (<[i := with_sign v (if decimal_is_zero v then false else negb (sign_of v))]> V)
  | From n f l s b to => if decide (l ≤ 9 ≤ Z.of_nat (length b)) then _ ← V !! to; Some (<[to := (n, f, s, take 9 b)]> V) else None
  | Op o mask res a b => x ← V !! a; y ← V !! b; r ← V !! res; Some (<[res := saturate (decimal_op o x y r)]> V)
  end.
End library.

(** ** The object behind the pointer *)

Definition wf_dec (i : N) (d : my_decimal) : Prop := buf d = i ∧ len d = 9 ∧ length (buffer d) = 9%nat.
Definition wf (σ : store) : Prop := map_Forall wf_dec σ.
Definition num (d : my_decimal) : value := (intg d, frac d, sign d, buffer d).
Definition abs (σ : store) : gmap N value := num <$> σ.

Lemma wf_insert (σ : store) i d : wf σ → wf_dec i d → wf (<[i := d]> σ).
Proof. intros W D. by apply map_Forall_insert_2. Qed.

Lemma abs_lookup (σ : store) i v : wf σ → abs σ !! i = Some v → ∃ d, σ !! i = Some d ∧ num d = v ∧ wf_dec i d.
Proof. intros W E. apply lookup_fmap_Some in E as (d & <- & E). exists d. split_and!; [done..|by eapply W]. Qed.

Lemma abs_insert (σ : store) i d : abs (<[i := d]> σ) = <[i := num d]> (abs σ).
Proof. apply fmap_insert. Qed.

Lemma copy_loop_spec n to from : (n ≤ length to)%nat → (n ≤ length from)%nat → copy_loop n to from = Some (take n from ++ drop n to).
Proof.
  induction n as [|n IH]; intros A B; simpl; [by rewrite drop_0|].
  rewrite IH by lia. simpl. destruct (lookup_lt_is_Some_2 from n) as [x Hx]; [lia|]. rewrite Hx. simpl.
  destruct (lookup_lt_is_Some_2 to n) as [y Hy]; [lia|].
  assert (L : length (take n from) = n) by (rewrite length_take; lia).
  rewrite lookup_app_r, L, Nat.sub_diag, lookup_drop, Nat.add_0_r, Hy by lia. simpl.
  rewrite insert_app_r_alt, L, Nat.sub_diag by lia. rewrite (drop_S _ _ _ Hy). simpl.
  by rewrite (take_S_r _ _ _ Hx), <- app_assoc.
Qed.

Lemma copy_loop_all to from : length to = 9%nat → length from = 9%nat → copy_loop 9 to from = Some from.
Proof.
  intros A B. rewrite copy_loop_spec by lia. rewrite take_ge, drop_ge by lia. by rewrite app_nil_r.
Qed.

Lemma value_of_own (σ : store) i d : σ !! i = Some d → wf_dec i d → value_of σ i = Some (num d).
Proof. intros E (B & _). unfold value_of, digits. by rewrite E; simpl; rewrite B, E. Qed.

Lemma store_value_own (σ : store) i d n f s b : σ !! i = Some d → wf_dec i d →
  store_value σ i (n, f, s, b) = Some (<[i := Dec n f 9 s i b]> σ).
Proof.
  intros E (B & L & _). unfold store_value. rewrite E. simpl. rewrite B, lookup_insert_eq. simpl.
  rewrite insert_insert_eq. unfold set_buffer, set_fields. simpl. by rewrite B, L.
Qed.
#[local] Hint Resolve wf_insert : core.

Lemma copy_own (σ : store) this rhs r g : σ !! rhs = Some r → wf_dec rhs r → length g = 9%nat →
  copy_my_decimal σ this rhs g = Some (<[this := Dec (intg r) (frac r) 9 (sign r) this (buffer r)]> σ).
Proof.
  intros E (_ & _ & L) G. unfold copy_my_decimal. rewrite E. cbn [mbind option_bind init buffer].
  by rewrite copy_loop_all.
Qed.

Lemma assign_own (σ : store) this rhs d r : σ !! this = Some d → σ !! rhs = Some r → wf_dec this d → wf_dec rhs r →
  operator_assign σ this rhs = Some (<[this := Dec (intg r) (frac r) 9 (sign r) this (buffer r)]> σ).
Proof.
  intros E F (B & L & W) (B' & L' & W'). unfold operator_assign. destruct (decide (this = rhs)) as [<-|].
  - rewrite E in F. injection F as <-. f_equal. symmetry. apply insert_id. rewrite E. f_equal.
    destruct d; simpl in *; congruence.
  - rewrite E, F. cbn [mbind option_bind buffer]. rewrite copy_loop_all by done. simpl.
    unfold fix_buffer_pointer, set_buffer. simpl. by rewrite L'.
Qed.

(** A step that leaves [i] with the number [v] and its own space. *)
Definition sets (σ σ' : store) (i : N) (v : value) : Prop := wf σ' ∧ abs σ' = <[i := v]> (abs σ).

Lemma sets_own (σ : store) i n f s b : wf σ → length b = 9%nat → sets σ (<[i := Dec n f 9 s i b]> σ) i (n, f, s, b).
Proof. intros W L. split; [apply wf_insert; [done|by split_and!]|apply abs_insert]. Qed.

Lemma swap_own (σ : store) i r dummy g d e : wf σ → σ !! i = Some d → σ !! r = Some e → σ !! dummy = None →
  length (buffer g) = 9%nat →
  ∃ σ', swap σ i r dummy g = Some σ' ∧ wf σ' ∧ abs σ' = <[r := num d]> (<[i := num e]> (abs σ)).
Proof.
  intros W Ei Er Ed L. assert (dummy ≠ i) by congruence. assert (dummy ≠ r) by congruence.
  pose proof (W _ _ Ei) as Wi. pose proof (W _ _ Er) as Wr.
  unfold swap, new_my_decimal. set (σ1 := <[dummy := init dummy g]> σ).
  assert (W1 : wf_dec dummy (init dummy g)) by done.
  assert (E1 : σ1 !! dummy = Some (init dummy g)) by apply lookup_insert_eq.
  assert (E2 : σ1 !! i = Some d) by (unfold σ1; by rewrite lookup_insert_ne).
  rewrite (assign_own σ1 dummy i _ _ E1 E2 W1 Wi).
  cbn [mbind option_bind]. unfold σ1. rewrite insert_insert_eq. set (D := Dec _ _ _ _ dummy _).
  assert (WD : wf_dec dummy D) by (destruct Wi as (_ & _ & ?); done).
  rewrite (assign_own _ i r d e) by (rewrite ?lookup_insert_ne; done). cbn [mbind option_bind]. set (E := Dec _ _ _ _ i _).
  assert (WE : wf_dec i E) by (destruct Wr as (_ & _ & ?); done).
  assert (∃ e', <[i := E]> (<[dummy := D]> σ) !! r = Some e' ∧ wf_dec r e') as (e' & Er' & We').
  { destruct (decide (i = r)) as [->|]; [exists E; by rewrite lookup_insert_eq|].
    exists e. by rewrite !lookup_insert_ne. }
  rewrite (assign_own _ r dummy e' D) by first [done | by rewrite lookup_insert_ne, lookup_insert_eq].
  cbn [mbind option_bind]. eexists. split; [done|].
  rewrite !delete_insert_ne, delete_insert_id by done. split.
  - apply wf_insert; [apply wf_insert|]; [done..|]. destruct Wi as (_ & _ & ?). done.
  - by rewrite !abs_insert.
Qed.

Lemma neg_own is_zero (σ : store) i d : σ !! i = Some d → wf_dec i d →
  my_decimal_neg is_zero σ i = Some (<[i := Dec (intg d) (frac d) 9 (if is_zero (num d) then false else negb (sign d)) i (buffer d)]> σ).
Proof.
  intros E W. unfold my_decimal_neg. rewrite (value_of_own σ i d), E by done. destruct W as (B & L & _).
  simpl. unfold set_fields. by rewrite B, L.
Qed.

Section laws.
Context (decimal_is_zero : value → bool) (max_decimal : Z → Z → value → value).
Context (decimal_op : binop → value → value → value → Z * value).
(** The functions of the library write into the space of the result. *)
Hypothesis max_space : ∀ p f v, length (digits_of v) = 9%nat → length (digits_of (max_decimal p f v)) = 9%nat.
Hypothesis op_space : ∀ o x y r, length (digits_of r) = 9%nat → length (digits_of (decimal_op o x y r).2) = 9%nat.

Lemma overflow_own (σ : store) mask result i n f s b : wf σ → length b = 9%nat → σ !! i = Some (Dec n f 9 s i b) →
  ∃ σ' reported, check_result_and_overflow max_decimal σ mask result i = Some (σ', reported, result) ∧
    sets σ σ' i (saturate max_decimal (result, (n, f, s, b))).
Proof.
  intros W L E. unfold check_result_and_overflow, check_result, saturate. simpl.
  destruct (decide (result .& E_DEC_OVERFLOW ≠ 0)) as [_|_].
  2:{ do 2 eexists. split; [done|]. split; [done|]. unfold abs. rewrite insert_id; [done|]. by rewrite lookup_fmap, E. }
  rewrite E. cbn [mbind option_bind]. unfold fix_buffer_pointer; simpl. rewrite (insert_id σ) by done.
  unfold max_internal_decimal, max_my_decimal. rewrite decide_True by done.
  assert (Wd : wf_dec i (Dec n f 9 s i b)) by done.
  rewrite (value_of_own σ i _ E Wd). cbn [mbind option_bind]. unfold num. simpl intg; simpl frac; simpl sign; simpl buffer.
  pose proof (max_space DECIMAL_MAX_PRECISION 0 (n, f, s, b) L) as L'.
  destruct (max_decimal DECIMAL_MAX_PRECISION 0 (n, f, s, b)) as [[[n' f'] s'] b'].
  rewrite (store_value_own σ i _ n' f' s' b' E Wd). cbn [mbind option_bind].
  rewrite lookup_insert_eq. cbn [mbind option_bind]. rewrite insert_insert_eq.
  do 2 eexists. split; [done|]. by apply sets_own.
Qed.

Lemma op_own (σ : store) o mask res a b x y r : wf σ →
  σ !! a = Some x → σ !! b = Some y → σ !! res = Some r →
  ∃ σ' reported result, my_decimal_op max_decimal (decimal_op o) σ mask res a b = Some (σ', reported, result) ∧
    sets σ σ' res (saturate max_decimal (decimal_op o (num x) (num y) (num r))).
Proof.
  intros W Ea Eb Er. unfold my_decimal_op.
  rewrite (value_of_own σ a x), (value_of_own σ b y), (value_of_own σ res r) by (done || by eapply W).
  cbn [mbind option_bind].
  pose proof (op_space o (num x) (num y) (num r)) as L. destruct (W _ _ Er) as (Br & Lr & Hr). specialize (L Hr).
  destruct (decimal_op o (num x) (num y) (num r)) as [result [[[n f] s] v]].
  rewrite (store_value_own σ res r) by (done || by eapply W). cbn [mbind option_bind].
  destruct (sets_own σ res n f s v W L) as [W' A'].
  destruct (overflow_own _ mask result res n f s v W' L) as (σ' & rep & E & W2 & A2); [by rewrite lookup_insert_eq|].
  exists σ', rep, result. split; [done|]. split; [done|]. by rewrite A2, A', insert_insert_eq.
Qed.

Lemma run_spec (σ : store) c V : wf σ → spec decimal_is_zero max_decimal decimal_op (abs σ) c = Some V →
  ∃ σ', run decimal_is_zero max_decimal decimal_op σ c = Some σ' ∧ wf σ' ∧ abs σ' = V.
Proof.
  intros W. destruct c as [i g|i r g|i r|i r d g|i|i|n f l s b i|o mask i a b]; simpl; intros E.
  all: try (case_decide as L; [|done]).
  all: repeat (let d := fresh "d" in let Ed := fresh "Ed" in let Wd := fresh "Wd" in
    apply bind_Some in E as (? & (d & Ed & <- & Wd)%(abs_lookup _ _ _ W) & E)); injection E as <-.
  - eexists. split; [done|]. by apply (sets_own σ i).
  - eexists. split; [by apply copy_own|]. apply sets_own; [done|apply Wd].
  - eexists. split; [by eapply assign_own|]. apply sets_own; [done|apply Wd0].
  - destruct L as [L D]. apply (swap_own σ i r d g); [done..| |done].
    unfold abs in D. rewrite lookup_fmap in D. by destruct (σ !! d).
  - unfold my_decimal_set_zero, digits. destruct Wd as (B & Hl & L). rewrite Ed. cbn [mbind option_bind]. rewrite B, Ed.
    cbn [mbind option_bind]. destruct (lookup_lt_is_Some_2 (buffer d) 0) as [z ->]; [lia|]. cbn [mbind option_bind].
    eexists. split; [by eapply store_value_own|]. apply sets_own; [done|]. by rewrite length_insert.
  - eexists. split; [by apply neg_own|]. apply sets_own; [done|apply Wd].
  - unfold decimal2my_decimal, digits. rewrite Ed. cbn [mbind option_bind]. destruct Wd as (B & Hl & LB).
    rewrite B, Ed, Hl. cbn [mbind option_bind]. rewrite decide_True by lia. rewrite decide_True by lia.
    eexists. split; [by eapply store_value_own|]. change (Z.to_nat 9) with 9%nat.
    rewrite (drop_ge (buffer _)), app_nil_r by lia. apply sets_own; [done|]. rewrite length_take. lia.
  - destruct (op_own σ o mask i a b d d0 d1) as (σ' & rep & res & E & W' & A); [done..|].
    exists σ'. by rewrite E.
Qed.
End laws.

(** A history of commands. *)
Definition run_all {S} (step : S → cmd → option S) (s : S) (cs : list cmd) : option S := foldl (λ o c, s ← o; step s c) (Some s) cs.

Lemma run_all_cons {S} (step : S → cmd → option S) s c cs : run_all step s (c :: cs) = s ← step s c; run_all step s cs.
Proof.
  unfold run_all. simpl. destruct (step s c); simpl; [done|]. by induction cs.
Qed.

(** Converting from a number with less space than the object reads past it: the
    assertion holds, and the copy takes as many groups as the object has. *)
Theorem decimal_convert_overread (σ : store) n f s from_buf to d : wf σ → σ !! to = Some d →
  (length from_buf < 9)%nat →
  (Z.of_nat (length from_buf) ≤ len d) ∧ decimal2my_decimal σ n f (Z.of_nat (length from_buf)) s from_buf to = None.
Proof.
  intros W E L. destruct (W _ _ E) as (B & Ld & Lb). split; [lia|]. unfold decimal2my_decimal, digits.
  rewrite E. simpl. rewrite B, E, Ld. simpl. rewrite decide_True by lia. by rewrite decide_False by lia.
Qed.

(** [C9] Objects that each have their own space behave like independent numbers: every
    history of constructions, copies, assignments, swaps, negations, arithmetic and
    conversions from numbers with space for nine groups of digits runs to its end,
    each object still points into itself with room for nine groups of digits, and
    the numbers are those of the specification, in which an operation that overflows
    yields the largest number with the sign of the result.  The space of a converted
    number is needed: a conversion into an object from one with less passes the
    assertion on the lengths and reads past the end of its digits. *)
Theorem decimal_values_refine decimal_is_zero max_decimal decimal_op cs (σ : store) V
  (max_space : ∀ p f v, length (digits_of v) = 9%nat → length (digits_of (max_decimal p f v)) = 9%nat)
  (op_space : ∀ o x y r, length (digits_of r) = 9%nat → length (digits_of (decimal_op o x y r).2) = 9%nat) :
  wf σ → run_all (spec decimal_is_zero max_decimal decimal_op) (abs σ) cs = Some V →
  ∃ σ', run_all (run decimal_is_zero max_decimal decimal_op) σ cs = Some σ' ∧ wf σ' ∧ abs σ' = V ∧
    (∀ i, value_of σ' i = V !! i) ∧
    ∀ n f s b to d, σ' !! to = Some d → (length b < 9)%nat →
      Z.of_nat (length b) ≤ len d ∧ decimal2my_decimal σ' n f (Z.of_nat (length b)) s b to = None.
Proof.
  revert σ. induction cs as [|c cs IH]; intros σ W E.
  - injection E as <-. exists σ. split_and!; [done..| |intros; by apply decimal_convert_overread].
    intros i. unfold abs. rewrite lookup_fmap.
    destruct (σ !! i) as [d|] eqn:Ed; simpl; [|unfold value_of; by rewrite Ed].
    apply value_of_own; [done|by eapply W].
  - rewrite run_all_cons in E. rewrite run_all_cons. apply bind_Some in E as (V' & E1 & E2).
    destruct (run_spec decimal_is_zero max_decimal decimal_op max_space op_space σ c V' W E1) as (σ' & R & W' & <-).
    rewrite R. simpl. by apply IH.
Qed.

(** A library for the witness: multiplication overflows, the other operations return
    their second operand. *)
Definition demo_op (o : binop) (x y r : value) : Z * value :=
  (match o with Mul => E_DEC_OVERFLOW | _ => E_DEC_OK end, (y.1, digits_of r)).
Definition demo_max (p f : Z) (v : value) : value := (p, f, false, replicate (length (digits_of v)) 999999999).
Definition demo_zero (v : value) : bool := forallb (Z.eqb 0) (digits_of v).
Definition demo_dec (x : Z) : my_decimal := Dec 1 0 0 true 77 (replicate 9 x).
Definition demo_history : list cmd :=
  [New 1 (demo_dec 5); New 2 (demo_dec 7); Swap 1 2 9 (demo_dec 0); Copy 3 1 (replicate 9 4); Neg 3; Zero 1;
   Op Mul 31 1 2 3; Op (Div 4) 31 2 1 3; Assign 3 1; From 2 1 9 true (replicate 10 8) 2].

Lemma decimal_values_refine_witness :
  ∃ σ' V, run_all (spec demo_zero demo_max demo_op) ∅ demo_history = Some V ∧
    run_all (run demo_zero demo_max demo_op) ∅ demo_history = Some σ' ∧
    V !! 1%N = Some (65, 0, false, replicate 9 999999999) ∧ ∀ i, value_of σ' i = V !! i.
Proof.
  destruct (run_all (spec demo_zero demo_max demo_op) ∅ demo_history) as [V|] eqn:E; [|vm_compute in E; discriminate].
  destruct (decimal_values_refine demo_zero demo_max demo_op demo_history ∅ V) as (σ' & R & _ & _ & H & _).
  - intros p f v L. simpl. by rewrite length_replicate.
  - intros o x y r L. exact L.
  - apply map_Forall_empty.
  - exact E.
  - exists σ', V. split_and!; [done|exact R| |exact H]. vm_compute in E. injection E as <-. vm_compute. reflexivity.
Defined.

Lemma bool_decide_or_true (l q : Z) : l ≠ 0 ∨ q = 0 → bool_decide (l ≠ 0) || bool_decide (q = 0) = true.
Proof. intros D. apply orb_true_iff. destruct D; [left|right]; by apply bool_decide_eq_true. Qed.

(** The length of a decimal column determines its precision. *)
Theorem decimal_length_roundtrip p scale u : 0 ≤ p ≤ DECIMAL_MAX_PRECISION → 0 ≤ scale → p ≠ 0 ∨ scale = 0 →
  ∃ l, my_decimal_precision_to_length p scale u = Some l ∧ my_decimal_length_to_precision l scale u = Some p.
Proof.
  intros P S D. unfold DECIMAL_MAX_PRECISION, DECIMAL_MAX_POSSIBLE_PRECISION, DECIMAL_BUFF_LENGTH in P.
  pose proof (bool_decide_or_true p scale D) as A.
  unfold my_decimal_precision_to_length, my_decimal_precision_to_length_no_truncation, my_decimal_length_to_precision.
  rewrite A, decide_False by (unfold DECIMAL_MAX_PRECISION, DECIMAL_MAX_POSSIBLE_PRECISION, DECIMAL_BUFF_LENGTH; lia).
  rewrite A. eexists. split; [done|].
  set (q := if decide (0 < scale) then 1 else 0). assert (0 ≤ q ≤ 1 ∧ (p = 0 → q = 0)) as [Q Q'] by (unfold q; destruct (decide (0 < scale)); split; lia).
  destruct u; simpl; unfold u32.
  - rewrite (Z.mod_small (p + q + 0)) by lia.
    rewrite bool_decide_or_true; [f_equal; rewrite Z.mod_small; lia|lia].
  - destruct (decide (p = 0)) as [->|Np].
    + rewrite Q' by done. simpl. destruct D; [done|subst scale]. done.
    + rewrite (bool_decide_eq_false_2 (p = 0)) by done. rewrite (Z.mod_small (p + q + 1)) by lia.
      rewrite bool_decide_or_true by lia. rewrite (bool_decide_eq_false_2 (p + q + 1 = 0)) by lia.
      f_equal. rewrite Z.mod_small; lia.
Qed.

Lemma decimal_length_roundtrip_witness :
  ∃ l, my_decimal_precision_to_length 10 2 false = Some l ∧ my_decimal_length_to_precision l 2 false = Some 10.
Proof. apply (decimal_length_roundtrip 10 2 false); [by vm_compute|lia|lia]. Defined.

Lemma decimal_convert_overread_witness :
  let σ := new_my_decimal ∅ 1 (demo_dec 5) in
  decimal2my_decimal σ 1 0 2 false [3; 4] 1 = None ∧ decimal2my_decimal σ 1 0 2 false (replicate 9 3) 1 ≠ None.
Proof.
  intros σ. split; [|by vm_compute].
  eapply (decimal_convert_overread σ 1 0 false [3; 4] 1 (init 1 (demo_dec 5))); [|done|simpl; lia].
  apply wf_insert; [apply map_Forall_empty|done].
Defined.

End Decimal.
