(* ===== verification/Items.v ===== *)
(** * Expressions

    The trees of items: the arguments of a function ([Item_args]), the cached tables
    and constness ([Used_tables_and_const_cache], [Item_func]) and the functions that
    go through an expression, from item.h and item_func.h.  Items are objects that
    several functions can share, so they live in a store.  The items that are not
    functions are an interface: the virtual functions of [Item] the code calls. *)

From Stdlib Require Import ZArith Lia.
From stdpp Require Import base numbers option list gmap relations.
From S2P Require Import Prelude FieldRec Decimal.
Open Scope Z_scope.
Open Scope cint_scope.

Module Items.

Definition PARAM_TABLE_BIT : Z := 1 ≪ (8 * 8 - 3).
Definition OUTER_REF_TABLE_BIT : Z := 1 ≪ (8 * 8 - 2).
Definition RAND_TABLE_BIT : Z := 1 ≪ (8 * 8 - 1).
Definition PSEUDO_TABLE_BITS : Z := PARAM_TABLE_BIT .| OUTER_REF_TABLE_BIT .| RAND_TABLE_BIT.

(** The virtual functions of an item that is not a function. *)
Class BasicItem (L : Type) := {
  leaf_used_tables : L → Z;
  leaf_const_item : L → bool;
  leaf_update_used_tables : L → L;
  leaf_excl_dep_on_table : L → Z → bool;
  leaf_no_rows_in_result : L → L;
  leaf_restore : L → L;
  leaf_with_sum_func : L → bool;
  leaf_with_field : L → bool;
  leaf_with_param : L → bool;
  leaf_is_field : L → bool;
  leaf_field_type : L → Z
}.

(** Updating an item that is not a function does not change what it answers: [Item::update_used_tables] (item.h:1415) does nothing, and
    [Item_field::update_used_tables] (item.h:3030) only marks the column and its keys in the table. *)
Class BasicItemLaws (L : Type) `{BasicItem L} := {
  leaf_update_used l : leaf_used_tables (leaf_update_used_tables l) = leaf_used_tables l;
  leaf_update_const l : leaf_const_item (leaf_update_used_tables l) = leaf_const_item l
}.

(** The functions as the class [Item] itself defines them. *)
Record Item_base := Base { base_with_sum_func : bool; base_with_field : bool; base_with_param : bool; base_field_type : Z }.
Definition Item_used_tables (i : Item_base) : Z := 0.
Definition Item_const_item (i : Item_base) : bool := bool_decide (Item_used_tables i = 0).
Definition Item_update_used_tables (i : Item_base) : Item_base := i.
Definition Item_excl_dep_on_table (i : Item_base) (tab_map : Z) : bool := false.
Definition Item_no_rows_in_result (i : Item_base) : Item_base := i.
Definition Item_restore_to_before_no_rows_in_result (i : Item_base) : Item_base := i.
#[global] Instance item_basic : BasicItem Item_base := {
  leaf_used_tables := Item_used_tables; leaf_const_item := Item_const_item;
  leaf_update_used_tables := Item_update_used_tables; leaf_excl_dep_on_table := Item_excl_dep_on_table;
  leaf_no_rows_in_result := Item_no_rows_in_result; leaf_restore := Item_restore_to_before_no_rows_in_result;
  leaf_with_sum_func := base_with_sum_func; leaf_with_field := base_with_field; leaf_with_param := base_with_param;
  leaf_is_field := λ _, false; leaf_field_type := base_field_type
}.
#[global] Instance item_basic_laws : BasicItemLaws Item_base := {| leaf_update_used _ := eq_refl; leaf_update_const _ := eq_refl |}.

(** [args] is the array with its size, [None] for NULL. *)
Record Item_args := Args { args : option (list N); arg_count : nat }.
Record Item_func := Fun {
  fargs : Item_args; used_tables_cache : Z; const_item_cache : bool;
  with_sum_func : bool; with_field : bool; with_param : bool; unsigned_flag : bool
}.

Section items.
Context `{BasicItem L}.

(** The functions are those of the classes that inherit [update_used_tables], [used_tables] and [const_item] from [Item_func].  The classes with an
    own version ([Item_func_isnull], [Item_udf_func], [Item_func_last_value] and those whose version is only declared) are left out. *)
Inductive Item := ILeaf (l : L) | IFunc (f : Item_func).
Notation store := (gmap N Item).

(** ** Arguments *)

Definition Item_args0 : Item_args := Args None 0.
Definition Item_args1 (tmp : N) (a : N) : Item_args := Args (Some [a; tmp]) 1.
Definition Item_args2 (a b : N) : Item_args := Args (Some [a; b]) 2.
(** [ok] tells whether the allocation succeeds. *)
Definition Item_args3 (ok : bool) (a b c : N) : Item_args := if ok then Args (Some [a; b; c]) 3 else Args None 0.
Definition Item_args4 (ok : bool) (a b c d : N) : Item_args := if ok then Args (Some [a; b; c; d]) 4 else Args None 0.
Definition Item_args5 (ok : bool) (a b c d e : N) : Item_args :=
  if ok then Args (Some [a; b; c; d; e]) 5 else Args None 5.
Definition add_argument (x : Item_args) (item : N) : option Item_args :=
  b ← args x; _ ← b !! arg_count x; Some (Args (Some (<[arg_count x := item]> b)) (S (arg_count x))).
Definition argument_count (x : Item_args) : nat := arg_count x.
Definition remove_arguments (x : Item_args) : Item_args := Args (args x) 0.

(** [args[i]]; reading through NULL or past the array is undefined. *)
Definition arg (x : Item_args) (i : nat) : option N := b ← args x; b !! i.

(** ** Construction of functions *)

Definition item_with_sum_func (i : Item) : bool := match i with ILeaf l => leaf_with_sum_func l | IFunc f => with_sum_func f end.
Definition item_with_field (i : Item) : bool := match i with ILeaf l => leaf_with_field l | IFunc f => with_field f end.
Definition item_with_param (i : Item) : bool := match i with ILeaf l => leaf_with_param l | IFunc f => with_param f end.

(** The constructors with up to five arguments: the flags of the arguments, a new
    cache. *)
Definition Item_func_new (x : Item_args) (items : list Item) : Item_func :=
  Fun x 0 true (existsb item_with_sum_func items) (existsb item_with_field items) (existsb item_with_param items) false.
Definition Item_func_ctor (σ : store) (ok : bool) (tmp : N) (js : list N) : option Item_func :=
  x ← match js with
      | [] => Some Item_args0
      | [a] => Some (Item_args1 tmp a)
      | [a; b] => Some (Item_args2 a b)
      | [a; b; c] => Some (Item_args3 ok a b c)
      | [a; b; c; d] => Some (Item_args4 ok a b c d)
      | [a; b; c; d; e] => Some (Item_args5 ok a b c d e)
      | _ => None
      end;
  items ← mapM (σ !!.) js;
  Some (Item_func_new x items).

(** ** Tables used and constness *)

Definition used_tables (i : Item) : Z := match i with ILeaf l => leaf_used_tables l | IFunc f => used_tables_cache f end.
Definition const_item (i : Item) : bool := match i with ILeaf l => leaf_const_item l | IFunc f => const_item_cache f end.
Definition with_cache (f : Item_func) (u : Z) (c : bool) : Item_func :=
  Fun (fargs f) u c (with_sum_func f) (with_field f) (with_param f) (unsigned_flag f).

Definition used_tables_and_const_cache_init (f : Item_func) : Item_func := with_cache f 0 true.
Definition used_tables_and_const_cache_join (σ : store) (this item : N) : option store :=
  i ← σ !! item; n ← σ !! this;
  match n with
  | IFunc f => Some (<[this := IFunc (with_cache f (used_tables_cache f .| used_tables i) (const_item_cache f && const_item i))]> σ)
  | ILeaf _ => None
  end.

(** The loop over the arguments; [update] is the virtual function. *)
Fixpoint used_tables_and_const_cache_update_and_join (update : store → N → option store) (σ : store) (this : N)
  (argv : Item_args) (ks : list nat) : option store :=
  match ks with
  | [] => Some σ
  | k :: ks =>
      j ← arg argv k; σ ← update σ j; σ ← used_tables_and_const_cache_join σ this j;
      used_tables_and_const_cache_update_and_join update σ this argv ks
  end.

(** The calls of virtual functions are recursive; [None] is also the lack of fuel. *)
Fixpoint update_used_tables (fuel : nat) (σ : store) (this : N) : option store :=
  match fuel with O => None | S fuel =>
    n ← σ !! this;
    match n with
    | ILeaf l => Some (<[this := ILeaf (leaf_update_used_tables l)]> σ)
    | IFunc f =>
        used_tables_and_const_cache_update_and_join (update_used_tables fuel)
          (<[this := IFunc (used_tables_and_const_cache_init f)]> σ) this (fargs f) (seq 0 (arg_count (fargs f)))
    end
  end.

(** ** Going through an expression *)

Section walk.
(** [this->*processor] with its argument; it can change the items. *)
Context {A : Type} (processor : store * A → N → store * A * bool).

Fixpoint walk_args (walk : store * A → N → option (store * A * bool)) (s : store * A) (x : Item_args) (ks : list nat) :
  option (store * A * bool) :=
  match ks with
  | [] => Some (s, false)
  | k :: ks =>
      j ← arg x k; '(s, found) ← walk s j;
      if found : bool then Some (s, true) else walk_args walk s x ks
  end.

Fixpoint walk (fuel : nat) (s : store * A) (this : N) : option (store * A * bool) :=
  match fuel with O => None | S fuel =>
    n ← s.1 !! this;
    match n with
    | ILeaf _ => Some (processor s this)
    | IFunc f =>
        '(s, found) ← walk_args (walk fuel) s (fargs f) (seq 0 (arg_count (fargs f)));
        if found : bool then Some (s, true) else Some (processor s this)
    end
  end.
End walk.

(** Whether the expression depends on the tables of [tab_map] only. *)
Fixpoint args_excl_dep_on_table (excl : N → option bool) (σ : store) (x : Item_args) (ks : list nat) : option bool :=
  match ks with
  | [] => Some true
  | k :: ks =>
      j ← arg x k; i ← σ !! j;
      if const_item i then args_excl_dep_on_table excl σ x ks else
      b ← excl j;
      if b : bool then args_excl_dep_on_table excl σ x ks else Some false
  end.
Fixpoint excl_dep_on_table (fuel : nat) (σ : store) (tab_map : Z) (this : N) : option bool :=
  match fuel with O => None | S fuel =>
    n ← σ !! this;
    match n with
    | ILeaf l => Some (leaf_excl_dep_on_table l tab_map)
    | IFunc f =>
        if decide (used_tables n .& OUTER_REF_TABLE_BIT ≠ 0) then Some false
        else if decide (used_tables n .& Z.lnot tab_map = 0) then Some true
        else args_excl_dep_on_table (excl_dep_on_table fuel σ tab_map) σ (fargs f) (seq 0 (arg_count (fargs f)))
    end
  end.

(** The loops of [no_rows_in_result] and [restore_to_before_no_rows_in_result] call
    the same virtual function. *)
Fixpoint call_args (call : store → N → option store) (σ : store) (x : Item_args) (ks : list nat) : option store :=
  match ks with [] => Some σ | k :: ks => j ← arg x k; σ ← call σ j; call_args call σ x ks end.
Fixpoint no_rows_in_result (fuel : nat) (σ : store) (this : N) : option store :=
  match fuel with O => None | S fuel =>
    n ← σ !! this;
    match n with
    | ILeaf l => Some (<[this := ILeaf (leaf_no_rows_in_result l)]> σ)
    | IFunc f => call_args (no_rows_in_result fuel) σ (fargs f) (seq 0 (arg_count (fargs f)))
    end
  end.
Definition restore_to_before_no_rows_in_result (fuel : nat) (σ : store) (this : N) : option store :=
  n ← σ !! this;
  match n with
  | ILeaf l => Some (<[this := ILeaf (leaf_restore l)]> σ)
  | IFunc f => call_args (no_rows_in_result fuel) σ (fargs f) (seq 0 (arg_count (fargs f)))
  end.

(** The loops that look for an argument of a type. *)
Fixpoint has_args (p : Z → bool) (σ : store) (x : Item_args) (ks : list nat) : option bool :=
  match ks with
  | [] => Some false
  | k :: ks =>
      j ← arg x k; i ← σ !! j;
      match i with
      | ILeaf l => if leaf_is_field l && p (leaf_field_type l) then Some true else has_args p σ x ks
      | IFunc _ => has_args p σ x ks
      end
  end.
Definition has_args_of (p : Z → bool) (σ : store) (f : Item_func) : option bool :=
  has_args p σ (fargs f) (seq 0 (arg_count (fargs f))).
Definition has_timestamp_args := has_args_of (λ t, bool_decide (t = FieldRec.MYSQL_TYPE_TIMESTAMP)).
Definition has_date_args := has_args_of (λ t, bool_decide (t = FieldRec.MYSQL_TYPE_DATE) || bool_decide (t = FieldRec.MYSQL_TYPE_DATETIME)).
Definition has_time_args := has_args_of (λ t, bool_decide (t = FieldRec.MYSQL_TYPE_TIME) || bool_decide (t = FieldRec.MYSQL_TYPE_DATETIME)).
Definition has_datetime_args := has_args_of (λ t, bool_decide (t = FieldRec.MYSQL_TYPE_DATETIME)).
Definition check_valid_arguments_processor := has_timestamp_args.

Lemma has_args_mono (p q : Z → bool) σ x ks : (∀ t, p t = true → q t = true) →
  has_args p σ x ks = Some true → has_args q σ x ks = Some true.
Proof.
  intros PQ. induction ks as [|k ks IH]; simpl; [done|]. destruct (arg x k) as [j|]; simpl; [|done].
  destruct (σ !! j) as [[l|f]|]; simpl; [|done..]. destruct (leaf_is_field l); simpl; [|done].
  destruct (p (leaf_field_type l)) eqn:P; [by rewrite (PQ _ P)|]. destruct (q (leaf_field_type l)); [done|done].
Qed.

(** A DATETIME argument counts as a date and as a time. *)
Lemma has_datetime_is_date_and_time σ f : has_datetime_args σ f = Some true →
  has_date_args σ f = Some true ∧ has_time_args σ f = Some true.
Proof. intros E. split; (eapply has_args_mono; [|exact E]); intros t ->; by rewrite orb_true_r. Qed.

(** ** Structure of a store *)

(** The same items up to caches and to the state of the items that are not functions, with the same answers. *)
Definition same_item (i i' : Item) : Prop :=
  match i, i' with
  | ILeaf l, ILeaf l' => leaf_used_tables l = leaf_used_tables l' ∧ leaf_const_item l = leaf_const_item l'
  | IFunc f, IFunc f' => fargs f = fargs f'
  | _, _ => False
  end.
Definition same (σ σ' : store) : Prop := ∀ m, option_relation same_item (λ _, False) (λ _, False) (σ !! m) (σ' !! m).

Definition child (σ : store) (i j : N) : Prop :=
  ∃ f k, σ !! i = Some (IFunc f) ∧ (k < arg_count (fargs f))%nat ∧ arg (fargs f) k = Some j.
Notation reach σ := (rtc (child σ)).

(** Every argument is there, and no function is among its own arguments. *)
Record wf (σ : store) (rk : N → nat) : Prop := {
  wf_args i f k : σ !! i = Some (IFunc f) → (k < arg_count (fargs f))%nat →
    ∃ j, arg (fargs f) k = Some j ∧ is_Some (σ !! j);
  wf_rank i j : child σ i j → (rk j < rk i)%nat
}.

#[global] Instance same_equiv : Equivalence same.
Proof.
  split.
  - intros σ m. by destruct (σ !! m) as [[]|].
  - intros σ σ' S m. specialize (S m). destruct (σ !! m) as [[]|], (σ' !! m) as [[]|]; simpl in *; intuition done.
  - intros σ1 σ2 σ3 S T m. specialize (S m). specialize (T m).
    destruct (σ1 !! m) as [[]|], (σ2 !! m) as [[]|], (σ3 !! m) as [[]|]; simpl in *; try done; intuition congruence.
Qed.

Lemma same_func σ σ' i f : same σ σ' → σ !! i = Some (IFunc f) → ∃ f', σ' !! i = Some (IFunc f') ∧ fargs f' = fargs f.
Proof. intros S E. specialize (S i). rewrite E in S. destruct (σ' !! i) as [[]|]; try done. simpl in S. eauto. Qed.

Lemma same_leaf σ σ' i l : same σ σ' → σ !! i = Some (ILeaf l) →
  ∃ l', σ' !! i = Some (ILeaf l') ∧ leaf_used_tables l = leaf_used_tables l' ∧ leaf_const_item l = leaf_const_item l'.
Proof. intros S E. specialize (S i). rewrite E in S. destruct (σ' !! i) as [[]|]; try done. simpl in S. eauto. Qed.

Lemma same_child σ σ' i j : same σ σ' → child σ i j → child σ' i j.
Proof.
  intros S (f & k & E & Hk & Ha). destruct (same_func _ _ _ _ S E) as (f' & E' & Ef). exists f', k. by rewrite Ef.
Qed.

Lemma same_reach σ σ' i j : same σ σ' → reach σ i j → reach σ' i j.
Proof. intros S R. eapply (rtc_congruence id); [|exact R]. intros. by eapply same_child. Qed.

Lemma same_wf σ σ' rk : same σ σ' → wf σ rk → wf σ' rk.
Proof.
  intros S [W R]. split.
  - intros i f k E Hk. destruct (same_func σ' σ i f) as (f' & E' & Ef); [by symmetry|done|].
    destruct (W i f' k) as (j & Ha & ?); [done|by rewrite Ef|]. exists j. rewrite <- Ef. split; [done|].
    specialize (S j). by destruct (σ !! j), (σ' !! j).
  - intros i j C. apply R. eapply same_child; [by symmetry|done].
Qed.

Lemma same_insert_func σ i f f' : σ !! i = Some (IFunc f) → fargs f' = fargs f → same σ (<[i := IFunc f']> σ).
Proof.
  intros E Ef m. destruct (decide (m = i)) as [->|]; [by rewrite E, lookup_insert_eq|].
  rewrite lookup_insert_ne by done. by destruct (σ !! m) as [[]|].
Qed.

Lemma rank_reach σ rk i j : wf σ rk → reach σ i j → i = j ∨ (rk j < rk i)%nat.
Proof.
  intros W. induction 1 as [|i k j C _ IH]; [by left|]. right. apply (wf_rank _ _ W) in C. destruct IH as [<-|]; lia.
Qed.

(** ** The reference: tables of the leaves of an expression *)

Definition uses (σ : store) (i : N) (t : Z) : Prop :=
  ∃ j l, reach σ i j ∧ σ !! j = Some (ILeaf l) ∧ Z.testbit (leaf_used_tables l) t = true.
Definition constant (σ : store) (i : N) : Prop :=
  ∀ j l, reach σ i j → σ !! j = Some (ILeaf l) → leaf_const_item l = true.

(** An item whose answers are those of the leaves below it. *)
Record good (σ : store) (i : N) (n : Item) : Prop := {
  good_item : σ !! i = Some n;
  good_used t : Z.testbit (used_tables n) t = true ↔ uses σ i t;
  good_const : const_item n = true ↔ constant σ i
}.
Definition is_good (σ : store) (i : N) : Prop := ∃ n, good σ i n.

Lemma same_uses σ σ' i t : same σ σ' → uses σ i t → uses σ' i t.
Proof.
  intros S (j & l & R & E & B). destruct (same_leaf _ _ _ _ S E) as (l' & E' & El & _). exists j, l'.
  split_and!; [by eapply same_reach|done|by rewrite <- El].
Qed.

Lemma same_constant σ σ' i : same σ σ' → constant σ i → constant σ' i.
Proof.
  intros S C j l R E. destruct (same_leaf σ' σ j l) as (l' & E' & _ & El); [by symmetry|done|].
  rewrite El. apply (C j l'); [|done]. eapply same_reach; [by symmetry|done].
Qed.

Lemma good_same σ σ' i : same σ σ' → σ' !! i = σ !! i → is_good σ i → is_good σ' i.
Proof.
  intros S E [n [Gi Gu Gc]]. assert (S' : same σ' σ) by by symmetry. exists n. split; [by rewrite E| |].
  - intros t. rewrite Gu. split; by apply same_uses.
  - rewrite Gc. split; by apply same_constant.
Qed.

Lemma reach_leaf σ i l j : σ !! i = Some (ILeaf l) → reach σ i j → j = i.
Proof. intros E R. inversion R as [|? ? ? C _]; [done|]. destruct C as (f & k & E' & _). congruence. Qed.

Lemma leaf_is_good σ i l : σ !! i = Some (ILeaf l) → is_good σ i.
Proof.
  intros E. exists (ILeaf l). split; [done| |].
  - intros t. simpl. split.
    + intros B. by exists i, l.
    + intros (j & k & R & Ej & B). apply (reach_leaf _ _ _ _ E) in R as ->. rewrite E in Ej. by injection Ej as <-.
  - simpl. split.
    + intros C j k R Ej. apply (reach_leaf _ _ _ _ E) in R as ->. rewrite E in Ej. by injection Ej as <-.
    + intros C. by apply (C i l).
Qed.

Lemma reach_func σ i f j l : σ !! i = Some (IFunc f) → σ !! j = Some (ILeaf l) →
  reach σ i j ↔ ∃ k c, k ∈ seq 0 (arg_count (fargs f)) ∧ arg (fargs f) k = Some c ∧ reach σ c j.
Proof.
  intros E Ej. split.
  - intros R. inversion R as [|? c ? C R']; subst; [congruence|]. destruct C as (f' & k & E' & Hk & Ha).
    rewrite E in E'. injection E' as <-. exists k, c. split_and!; [apply elem_of_seq; lia|done..].
  - intros (k & c & Hk & Ha & R). eapply rtc_l; [|exact R]. exists f, k. apply elem_of_seq in Hk. split_and!; [done|lia|done].
Qed.

(** What updating the item [j] does. *)
Record updates (rk : N → nat) (σ σ' : store) (j : N) : Prop := {
  upd_same : same σ σ';
  upd_frame m : (rk j < rk m)%nat → σ' !! m = σ !! m;
  upd_keeps m : is_good σ m → is_good σ' m;
  upd_good m : reach σ j m → is_good σ' m
}.

Section loop.
Context (rk : N → nat) (update : store → N → option store) (i : N).
Hypothesis update_ok : ∀ σ j, wf σ rk → is_Some (σ !! j) → (rk j < rk i)%nat →
  ∃ σ', update σ j = Some σ' ∧ updates rk σ σ' j.

(** The state of the loop: the arguments [ks] are joined to the cache [f]. *)
Record joined (σ σ' : store) (f f' : Item_func) (ks : list nat) : Prop := {
  j_same : same σ σ';
  j_args : fargs f' = fargs f;
  j_this : σ' !! i = Some (IFunc f');
  j_frame m : (rk i ≤ rk m)%nat → m ≠ i → σ' !! m = σ !! m;
  j_keeps m : m ≠ i → is_good σ m → is_good σ' m;
  j_good k c m : k ∈ ks → arg (fargs f) k = Some c → reach σ c m → is_good σ' m;
  j_used t : Z.testbit (used_tables_cache f') t = true ↔
    Z.testbit (used_tables_cache f) t = true ∨ ∃ k c, k ∈ ks ∧ arg (fargs f) k = Some c ∧ uses σ c t;
  j_const : const_item_cache f' = true ↔
    const_item_cache f = true ∧ ∀ k c, k ∈ ks → arg (fargs f) k = Some c → constant σ c
}.

Lemma join_step σ f k j : wf σ rk → σ !! i = Some (IFunc f) → (k < arg_count (fargs f))%nat → arg (fargs f) k = Some j →
  is_Some (σ !! j) →
  ∃ σ1 σ' f', update σ j = Some σ1 ∧ used_tables_and_const_cache_join σ1 i j = Some σ' ∧ joined σ σ' f f' [k].
Proof.
  intros W E Hk Ha Ej. assert (Rj : (rk j < rk i)%nat) by (apply (wf_rank _ _ W); by exists f, k).
  destruct (update_ok σ j W Ej Rj) as (σ1 & U & [US UF UK UG]).
  destruct (UG j) as [n [Gn Gu Gc]]; [done|].
  assert (E1 : σ1 !! i = Some (IFunc f)) by by rewrite UF.
  exists σ1. unfold used_tables_and_const_cache_join. rewrite Gn, E1. cbn [mbind option_bind].
  set (f' := with_cache f _ _). exists (<[i := IFunc f']> σ1), f'. split; [done|]. split; [done|].
  assert (S2 : same σ1 (<[i := IFunc f']> σ1)) by by eapply same_insert_func.
  assert (Rm : ∀ m, reach σ j m → m ≠ i).
  { intros m R ->. destruct (rank_reach σ rk j i W R) as [->|]; lia. }
  assert (G2 : ∀ m, m ≠ i → is_good σ1 m → is_good (<[i := IFunc f']> σ1) m).
  { intros m N. apply good_same; [done|by rewrite lookup_insert_ne]. }
  assert (S1' : same σ1 σ) by by symmetry.
  split; [by etrans|done|apply lookup_insert_eq| | | | |].
  - intros m Lm N. rewrite lookup_insert_ne by done. apply UF. lia.
  - intros m N G. by apply G2, UK.
  - intros k' c m ->%list_elem_of_singleton Hc R. rewrite Ha in Hc. injection Hc as <-. apply G2; [by apply Rm|by apply UG].
  - intros t. simpl. rewrite Z.lor_spec, orb_true_iff, Gu. apply or_iff_compat_l. split.
    + intros Us. exists k, j. split_and!; [set_solver|done|by eapply same_uses].
    + intros (k' & c & ->%list_elem_of_singleton & Hc & Us). rewrite Ha in Hc. injection Hc as <-. by eapply same_uses.
  - simpl. rewrite andb_true_iff, Gc. apply and_iff_compat_l. split.
    + intros C k' c ->%list_elem_of_singleton Hc. rewrite Ha in Hc. injection Hc as <-. by eapply same_constant.
    + intros C. eapply same_constant; [exact US|]. apply (C k); [set_solver|done].
Qed.

Lemma joined_trans σ σ1 σ2 f f1 f2 k ks : (∀ c m, arg (fargs f) k = Some c → reach σ c m → m ≠ i) →
  joined σ σ1 f f1 [k] → joined σ1 σ2 f1 f2 ks → joined σ σ2 f f2 (k :: ks).
Proof.
  intros N [S1 A1 T1 F1 K1 G1 U1 C1] [S2 A2 T2 F2 K2 G2 U2 C2]. rewrite A1 in *.
  assert (S1' : same σ1 σ) by by symmetry.
  split; [by etrans|done|done| | | | |].
  - intros m Lm Nm. rewrite F2, F1; done.
  - intros m Nm G. auto.
  - intros k' c m [->|I]%elem_of_cons Hc R.
    + apply K2; [by eapply N|]. eapply (G1 k); [set_solver|done..].
    + eapply G2; [done..|]. by eapply same_reach.
  - intros t. rewrite U2, U1. split.
    + intros [[?|(k' & c & ->%list_elem_of_singleton & ? & ?)]|(k' & c & ? & ? & Us)]; [by left|right..].
      * exists k, c. split_and!; [set_solver|done..].
      * exists k', c. split_and!; [set_solver|done|by eapply same_uses].
    + intros [?|(k' & c & [->|?]%elem_of_cons & ? & Us)]; [by left; left|left; right|right].
      * exists k, c. split_and!; [set_solver|done..].
      * exists k', c. split_and!; [done..|by eapply same_uses].
  - rewrite C2, C1. split.
    + intros [[? Ck] Cks]. split; [done|]. intros k' c [->|I]%elem_of_cons Hc; [eapply (Ck k); [set_solver|done]|].
      eapply same_constant; [exact S1'|]. by eapply Cks.
    + intros [? C]. split; [split; [done|]|].
      * intros k' c ->%list_elem_of_singleton Hc. eapply (C k); [set_solver|done].
      * intros k' c I Hc. eapply same_constant; [exact S1|]. eapply (C k'); [set_solver|done].
Qed.

Lemma joined_nil σ f : σ !! i = Some (IFunc f) → joined σ σ f f [].
Proof.
  intros E. split; [done..| | |].
  - intros k c m I. by apply not_elem_of_nil in I.
  - intros t. split; [by left|]. intros [?|(k & c & I & _)]; [done|]. by apply not_elem_of_nil in I.
  - split; [|by intros []]. intros ?. split; [done|]. intros k c I. by apply not_elem_of_nil in I.
Qed.

Lemma join_loop ks σ f : wf σ rk → σ !! i = Some (IFunc f) → (∀ k, k ∈ ks → (k < arg_count (fargs f))%nat) →
  ∃ σ' f', used_tables_and_const_cache_update_and_join update σ i (fargs f) ks = Some σ' ∧ joined σ σ' f f' ks.
Proof.
  revert σ f. induction ks as [|k ks IH]; intros σ f W E Hks; simpl.
  - exists σ, f. split; [done|by apply joined_nil].
  - destruct (wf_args _ _ W i f k E) as (j & Ha & Ej); [apply Hks; set_solver|]. rewrite Ha. simpl.
    destruct (join_step σ f k j W E) as (σ1 & σ2 & f1 & U & J & J1); [apply Hks; set_solver|done..|].
    rewrite U. simpl. rewrite J. simpl. rewrite <- (j_args _ _ _ _ _ J1).
    destruct (IH σ2 f1) as (σ' & f' & HL & J2).
    + eapply same_wf; [apply J1|done].
    + apply J1.
    + intros k' I. rewrite (j_args _ _ _ _ _ J1). apply Hks. set_solver.
    + exists σ', f'. split; [done|]. eapply joined_trans; [|done..].
      intros c m Hc R ->. rewrite Ha in Hc. injection Hc as <-.
      assert (rk j < rk i)%nat by (apply (wf_rank _ _ W); exists f, k; split_and!; [done|apply Hks; set_solver|done]).
      destruct (rank_reach σ rk j i W R) as [->|]; lia.
Qed.
End loop.

Lemma update_spec `{!BasicItemLaws L} fuel σ rk i : wf σ rk → is_Some (σ !! i) → (rk i < fuel)%nat →
  ∃ σ', update_used_tables fuel σ i = Some σ' ∧ updates rk σ σ' i.
Proof.
  revert σ i. induction fuel as [|fuel IH]; intros σ i W [n E] F; [lia|]. simpl. rewrite E. simpl.
  destruct n as [l|f].
  - eexists. split; [done|]. set (σ' := <[i := _]> σ).
    assert (S : same σ σ').
    { intros m. unfold σ'. destruct (decide (m = i)) as [->|]; [rewrite E, lookup_insert_eq; simpl; by rewrite leaf_update_used, leaf_update_const|].
      rewrite lookup_insert_ne by done. by destruct (σ !! m) as [[]|]. }
    assert (G : is_good σ' i) by (eapply leaf_is_good, lookup_insert_eq).
    split; [done| | |].
    + intros m Lm. apply lookup_insert_ne. intros ->. lia.
    + intros m Gm. destruct (decide (m = i)) as [->|]; [done|]. eapply good_same; [exact S|by apply lookup_insert_ne|done].
    + intros m R. by rewrite (reach_leaf _ _ _ _ E R).
  - set (f0 := used_tables_and_const_cache_init f). set (σ0 := <[i := IFunc f0]> σ).
    assert (S0 : same σ σ0) by by eapply same_insert_func.
    destruct (join_loop rk (update_used_tables fuel) i) with (ks := seq 0 (arg_count (fargs f))) (σ := σ0) (f := f0)
      as (σ' & f' & EL & [JS JA JT JF JK JG JU JC]).
    { intros σ1 j W1 Ej Rj. apply IH; [done..|lia]. }
    { by eapply same_wf. }
    { apply lookup_insert_eq. }
    { intros k Hk. apply elem_of_seq in Hk. simpl. lia. }
    change (fargs f) with (fargs f0) at 1. rewrite EL. exists σ'. split; [done|]. change (fargs f0) with (fargs f) in *.
    assert (S : same σ σ') by by etrans.
    assert (Eseq : ∀ j l, σ' !! j = Some (ILeaf l) → reach σ' i j ↔
      ∃ k c, k ∈ seq 0 (arg_count (fargs f)) ∧ arg (fargs f) k = Some c ∧ reach σ' c j).
    { intros j l Ej. rewrite (reach_func σ' i f' j l) by done. by rewrite JA. }
    assert (Gi : is_good σ' i).
    { exists (IFunc f'). split; [done| |].
      - intros t. simpl. rewrite JU. simpl. rewrite Z.testbit_0_l. split.
        + intros [?|(k & c & I & Ha & Us)]; [done|]. apply (same_uses _ _ _ _ JS) in Us as (j & l & R & Ej & B).
          exists j, l. split_and!; [|done..]. apply (Eseq j l Ej). eauto.
        + intros (j & l & R & Ej & B). apply (Eseq j l Ej) in R as (k & c & I & Ha & R). right. exists k, c.
          split_and!; [done..|]. eapply same_uses; [symmetry; exact JS|]. by exists j, l.
      - simpl. rewrite JC. simpl. split.
        + intros [_ C] j l R Ej. apply (Eseq j l Ej) in R as (k & c & I & Ha & R).
          by apply (same_constant _ _ _ JS (C k c I Ha) j l).
        + intros C. split; [done|]. intros k c I Ha. eapply same_constant; [symmetry; exact JS|].
          intros j l R Ej. apply (C j l); [|done]. apply (Eseq j l Ej). eauto. }
    split; [done| | |].
    + intros m Lm. rewrite JF by (lia || by intros ->; lia). apply lookup_insert_ne. intros ->. lia.
    + intros m Gm. destruct (decide (m = i)) as [->|N]; [done|]. apply JK; [done|].
      eapply good_same; [exact S0|by apply lookup_insert_ne|done].
    + intros m R. inversion R as [|? c ? C R']; subst; [done|]. destruct C as (f1 & k & E1 & Hk & Ha).
      rewrite E in E1. injection E1 as <-. eapply (JG k); [apply elem_of_seq; lia|exact Ha|by eapply same_reach].
Qed.

(** ** Walking *)

Section walking.
Context {A : Type} (processor : store * A → N → store * A * bool).
(** Processors do not change the arguments of functions. *)
Hypothesis keeps_args : ∀ s i, same s.1 (processor s i).1.1.

(** The items below [i], arguments first. *)
Fixpoint postorder (fuel : nat) (σ : store) (i : N) : list N :=
  match fuel with O => [] | S fuel =>
    match σ !! i with
    | Some (IFunc f) => (seq 0 (arg_count (fargs f)) ≫= λ k, match arg (fargs f) k with Some j => postorder fuel σ j | None => [] end) ++ [i]
    | Some (ILeaf _) => [i]
    | None => []
    end
  end.

(** Calling the processor for one item after the other, until it returns true. *)
Fixpoint until (s : store * A) (l : list N) : store * A * bool :=
  match l with
  | [] => (s, false)
  | i :: l => let '(s, found) := processor s i in if found then (s, true) else until s l
  end.

Lemma until_app s l1 l2 : until s (l1 ++ l2) = (let '(s, found) := until s l1 in if found then (s, true) else until s l2).
Proof. revert s. induction l1 as [|i l1 IH]; intros s; simpl; [done|]. destruct (processor s i) as [s' []]; [done|apply IH]. Qed.

Lemma until_same s l : same s.1 (until s l).1.1.
Proof.
  revert s. induction l as [|i l IH]; intros s; simpl; [done|]. pose proof (keeps_args s i) as K.
  destruct (processor s i) as [s' []]; simpl in *; [done|]. etrans; [exact K|apply IH].
Qed.

Lemma postorder_same fuel σ σ' i : same σ σ' → postorder fuel σ i = postorder fuel σ' i.
Proof.
  intros S. revert i. induction fuel as [|fuel IH]; intros i; simpl; [done|]. pose proof (S i) as Si.
  destruct (σ !! i) as [[l|f]|], (σ' !! i) as [[l'|f']|]; simpl in Si; try done. rewrite <- Si. f_equal.
  apply list_bind_ext; [|done]. intros k. by destruct (arg (fargs f) k).
Qed.

Lemma walk_args_spec fuel σ0 rk x ks s :
  (∀ s j, same σ0 s.1 → is_Some (s.1 !! j) → (rk j < fuel)%nat → walk processor fuel s j = Some (until s (postorder fuel σ0 j))) →
  (∀ k, k ∈ ks → ∃ j, arg x k = Some j ∧ is_Some (σ0 !! j) ∧ (rk j < fuel)%nat) → same σ0 s.1 →
  walk_args (walk processor fuel) s x ks =
  Some (until s (ks ≫= λ k, match arg x k with Some j => postorder fuel σ0 j | None => [] end)).
Proof.
  intros IH. revert s. induction ks as [|k ks IHk]; intros s Hks S; [done|]. simpl.
  destruct (Hks k) as (j & Ha & [n Ej] & Rj); [set_solver|]. rewrite Ha. simpl.
  rewrite IH; [|done| |done]. 2:{ pose proof (S j) as Sj. rewrite Ej in Sj. destruct (s.1 !! j); [done|by destruct n]. }
  simpl. rewrite until_app. pose proof (until_same s (postorder fuel σ0 j)) as US.
  destruct (until s (postorder fuel σ0 j)) as [s' []]; [done|]. simpl in US.
  apply IHk; [intros; apply Hks; set_solver|by etrans].
Qed.

Lemma walk_is_until fuel σ rk s i : wf σ rk → same σ s.1 → is_Some (s.1 !! i) → (rk i < fuel)%nat →
  walk processor fuel s i = Some (until s (postorder fuel σ i)).
Proof.
  revert s i. induction fuel as [|fuel IH]; intros s i W S [n E] F; [lia|]. simpl. rewrite E. simpl.
  pose proof (S i) as Si. rewrite E in Si. destruct (σ !! i) as [[l|f]|] eqn:Ei, n as [l'|f']; try done; simpl in Si.
  - simpl. by destruct (processor s i) as [s' []].
  - rewrite <- Si. rewrite (walk_args_spec fuel σ rk); [| |intros k Hk|done].
    + simpl. rewrite until_app. destruct (until s _) as [s' []]; [done|]. simpl. by destruct (processor s' i) as [? []].
    + intros s' j S' Ej Rj. by apply IH.
    + apply elem_of_seq in Hk. destruct (wf_args _ _ W i f k Ei) as (j & Ha & Ej); [lia|]. exists j. split_and!; [done..|].
      assert (rk j < rk i)%nat by (apply (wf_rank _ _ W); exists f, k; split_and!; [done|lia|done]). lia.
Qed.

Lemma postorder_reach fuel σ rk i j : wf σ rk → is_Some (σ !! i) → (rk i < fuel)%nat → j ∈ postorder fuel σ i ↔ reach σ i j.
Proof.
  intros W. revert i. induction fuel as [|fuel IH]; intros i [n E] F; [lia|]. simpl. rewrite E. destruct n as [l|f].
  - rewrite list_elem_of_singleton. split; [by intros ->|by eapply reach_leaf].
  - assert (Hk : ∀ k, k ∈ seq 0 (arg_count (fargs f)) → ∃ c, arg (fargs f) k = Some c ∧ is_Some (σ !! c) ∧ child σ i c ∧ (rk c < fuel)%nat).
    { intros k Ik. apply elem_of_seq in Ik. destruct (wf_args _ _ W i f k E) as (c & Ha & Ec); [lia|]. exists c.
      assert (C : child σ i c) by (exists f, k; split_and!; [done|lia|done]). pose proof (wf_rank _ _ W _ _ C).
      split_and!; [done..|lia]. }
    rewrite elem_of_app, list_elem_of_singleton, list_elem_of_bind. split.
    + intros [(k & I & Ik)| ->]; [|done]. destruct (Hk k Ik) as (c & Ha & Ec & C & Rc). rewrite Ha in I.
      eapply rtc_l; [exact C|]. by apply IH.
    + intros R. inversion R as [|? c ? C R']; subst; [by right|]. left. destruct C as (f' & k & E' & Lk & Ha).
      rewrite E in E'. injection E' as <-. assert (Ik : k ∈ seq 0 (arg_count (fargs f))) by (apply elem_of_seq; lia).
      exists k. split; [|done]. destruct (Hk k Ik) as (c' & Ha' & Ec & _ & Rc). rewrite Ha in Ha' |- *. injection Ha' as <-.
      by apply IH.
Qed.
End walking.

(** ** Dependence on tables *)

(** What [excl_dep_on_table] promises of a leaf. *)
Definition confined (tab_map : Z) (n : Item) : Prop :=
  const_item n = true ∨ used_tables n .& Z.lnot tab_map = 0 ∨ ∃ l, n = ILeaf l ∧ leaf_excl_dep_on_table l tab_map = true.

Lemma good_leaf_used σ i j n l t : good σ i n → reach σ i j → σ !! j = Some (ILeaf l) →
  Z.testbit (leaf_used_tables l) t = true → Z.testbit (used_tables n) t = true.
Proof. intros G R Ej B. apply (good_used _ _ _ G). by exists j, l. Qed.

Lemma args_excl_spec excl σ x ks : args_excl_dep_on_table excl σ x ks = Some true →
  ∀ k, k ∈ ks → ∃ j i, arg x k = Some j ∧ σ !! j = Some i ∧ (const_item i = true ∨ excl j = Some true).
Proof.
  induction ks as [|k ks IH]; simpl; intros E k' I; [by apply not_elem_of_nil in I|].
  apply bind_Some in E as (j & Ha & E). apply bind_Some in E as (i & Ei & E).
  apply elem_of_cons in I as [->|I]; destruct (const_item i) eqn:C.
  - eauto 10.
  - apply bind_Some in E as ([] & Ex & E); [|done]. exists j, i. auto.
  - auto.
  - apply bind_Some in E as ([] & Ex & E); [|done]. auto.
Qed.

Lemma excl_dep_sound fuel σ tab_map i : (∀ m, reach σ i m → is_good σ m) →
  excl_dep_on_table fuel σ tab_map i = Some true →
  ∀ j l, reach σ i j → σ !! j = Some (ILeaf l) → confined tab_map (ILeaf l).
Proof.
  revert i. induction fuel as [|fuel IH]; intros i G E j l R Ej; [done|]. simpl in E.
  destruct (G i) as [n Gn]; [done|].
  rewrite (good_item _ _ _ Gn) in E. simpl in E. destruct n as [l'|f].
  - injection E as E. assert (j = i) as -> by (eapply reach_leaf; [apply Gn|done]).
    pose proof (good_item _ _ _ Gn) as E'. rewrite Ej in E'. injection E' as <-. right; right. eauto.
  - case_decide; [done|]. case_decide as U.
    + right; left. apply Z.bits_inj'. intros t Ht. rewrite Z.bits_0, Z.land_spec, Z.lnot_spec by done. simpl.
      destruct (Z.testbit (leaf_used_tables l) t) eqn:B; [|done]. apply (good_leaf_used σ i j _ l t Gn R Ej) in B.
      apply (f_equal (λ z, Z.testbit z t)) in U. rewrite Z.bits_0, Z.land_spec, Z.lnot_spec, B in U by done. done.
    + pose proof (args_excl_spec _ _ _ _ E) as K.
      apply (reach_func σ i f j l) in R as (k & c & Ik & Ha & Rc); [|apply Gn|done].
      destruct (K k Ik) as (c' & n & Ha' & En & D). rewrite Ha in Ha'. injection Ha' as <-.
      assert (C : child σ i c) by (exists f, k; apply elem_of_seq in Ik; split_and!; [apply Gn|lia|done]).
      assert (Gc : ∀ m, reach σ c m → is_good σ m) by (intros m Rm; apply G; by eapply rtc_l).
      destruct D as [Cn|Ex]; [|by eapply IH].
      destruct (Gc c) as [n' Gn']; [done|]. pose proof (good_item _ _ _ Gn') as E'. rewrite En in E'. injection E' as <-.
      left. simpl. by apply (proj1 (good_const _ _ _ Gn') Cn j l).
Qed.
End items.

(** ** Integers *)

Definition MAX_BLOB_WIDTH : Z := 16777216.
(** The lengths of a result: [max_length] and [maybe_null]. *)
Definition fix_char_length_ulonglong (maybe_null : bool) (max_char_length_arg mbmaxlen : Z) : Z * bool :=
  let max_result_length := u64 (max_char_length_arg * mbmaxlen) in
  if decide (MAX_BLOB_WIDTH ≤ max_result_length) then (MAX_BLOB_WIDTH, true) else (u32 max_result_length, maybe_null).

(** A value and whether an error is raised. *)
Definition LONGLONG_MAX : Z := 2 ^ 63 - 1.
Definition raise_integer_overflow : Z * bool := (0, true).
Definition check_integer_overflow (f : Item_func) (value : Z) (val_unsigned : bool) : Z * bool :=
  if (unsigned_flag f && negb val_unsigned && bool_decide (value < 0)) ||
     (negb (unsigned_flag f) && val_unsigned && bool_decide (LONGLONG_MAX < u64 value))
  then raise_integer_overflow else (value, false).
Definition raise_decimal_overflow : Z * bool := (Decimal.E_DEC_OVERFLOW, true).
Definition check_decimal_overflow (error : Z) : Z * bool :=
  if decide (error = Decimal.E_DEC_OVERFLOW) then raise_decimal_overflow else (error, false).

(** The number a value of a signedness stands for. *)
Definition denotes (value : Z) (is_unsigned : bool) : Z := if is_unsigned then u64 value else value.

(** ** Theorems *)

Section theorems.
Context `{BasicItemLaws L}.
Implicit Types σ : gmap N (@Item L).

(** [C5] Updating an expression of functions that inherit [update_used_tables] from
    [Item_func] ends, whatever items it shares, and afterwards each function in it
    caches exactly the tables that the items below it, other than functions, use,
    and is constant exactly when these all are.  Of these items only what the code of
    [Item] and [Item_field] shows is used: that their own update does not change
    their answers. *)
Theorem update_used_tables_exact σ rk i fuel : wf σ rk → is_Some (σ !! i) → (rk i < fuel)%nat →
  ∃ σ', update_used_tables fuel σ i = Some σ' ∧ same σ σ' ∧
    ∀ m, rtc (child σ) i m → ∃ n, σ' !! m = Some n ∧
      (∀ t, Z.testbit (used_tables n) t = true ↔ uses σ m t) ∧ (const_item n = true ↔ constant σ m).
Proof.
  intros W E F. destruct (update_spec fuel σ rk i W E F) as (σ' & U & [S _ _ G]). exists σ'. split_and!; [done..|].
  intros m R. destruct (G m R) as [n [Gi Gu Gc]]. exists n. assert (S' : same σ' σ) by by symmetry. split_and!; [done| |].
  - intros t. rewrite Gu. split; by apply same_uses.
  - rewrite Gc. split; by apply same_constant.
Qed.

(** Walking an expression calls the processor for the arguments first and for each
    item at every place it occurs, until the processor returns true. *)
Theorem walk_visits_postorder {A} (processor : gmap N Item * A → N → gmap N Item * A * bool) σ rk i fuel a
  (keeps_args : ∀ s j, same s.1 (processor s j).1.1) :
  wf σ rk → is_Some (σ !! i) → (rk i < fuel)%nat →
  walk processor fuel (σ, a) i = Some (until processor (σ, a) (postorder fuel σ i)) ∧
  (∀ j, j ∈ postorder fuel σ i ↔ rtc (child σ) i j) ∧ ∃ l, postorder fuel σ i = l ++ [i].
Proof.
  intros W E F. split_and!; [by apply (walk_is_until processor keeps_args fuel σ rk)|intros j; by apply (postorder_reach fuel σ rk)|].
  destruct fuel; [lia|]. simpl. destruct E as [[l|f] ->]; [by exists []|eauto].
Qed.

(** In an updated expression that reports to depend on some tables only, every item
    that is not constant uses only them, or reports so itself. *)
Theorem excl_dep_after_update σ rk i fuel tab_map σ' : wf σ rk → is_Some (σ !! i) → (rk i < fuel)%nat →
  update_used_tables fuel σ i = Some σ' → excl_dep_on_table fuel σ' tab_map i = Some true →
  ∀ j l, rtc (child σ) i j → σ' !! j = Some (ILeaf l) → confined tab_map (ILeaf l).
Proof.
  intros W E F U X j l R. destruct (update_spec fuel σ rk i W E F) as (σ1 & U1 & [S _ _ G]). rewrite U in U1. injection U1 as <-.
  eapply excl_dep_sound; [|exact X|by eapply same_reach]. intros m Rm. apply G. eapply same_reach; [by symmetry|done].
Qed.

(** Restoring a function marks its arguments once more, where it should restore them:
    it does the same as [no_rows_in_result]. *)
Theorem restore_repeats_no_rows σ i f fuel : σ !! i = Some (IFunc f) →
  restore_to_before_no_rows_in_result fuel σ i = no_rows_in_result (S fuel) σ i.
Proof. intros E. unfold restore_to_before_no_rows_in_result. simpl. by rewrite E. Qed.

(** When the array of five arguments cannot be allocated the function claims to have
    them, and the next update reads through NULL; with fewer arguments it has none. *)
Theorem five_arguments_without_array σ tmp js f i fuel : (3 ≤ length js)%nat →
  Item_func_ctor σ false tmp js = Some f →
  if decide (length js = 5%nat)
  then arg_count (fargs f) = 5%nat ∧ update_used_tables fuel (<[i := IFunc f]> σ) i = None
  else arg_count (fargs f) = 0%nat ∧ update_used_tables (S fuel) (<[i := IFunc f]> σ) i = Some (<[i := IFunc f]> σ).
Proof.
  intros Len E. unfold Item_func_ctor in E. apply bind_Some in E as (x & Ex & E). apply bind_Some in E as (items & Em & E).
  injection E as <-. destruct js as [|a [|b [|c [|d [|e [|]]]]]]; simpl in Len; try lia; try done; injection Ex as <-; simpl.
  - split; [done|]. rewrite lookup_insert_eq. simpl. by rewrite insert_insert_eq.
  - split; [done|]. rewrite lookup_insert_eq. simpl. by rewrite insert_insert_eq.
  - split; [done|]. destruct fuel as [|fuel]; [done|]. simpl. by rewrite lookup_insert_eq.
Qed.
End theorems.

(** [C34] The check of a result raises an error exactly when the number does not fit in the
    type of the function; otherwise the value stands for the same number in it. *)
Theorem integer_overflow_exact f value val_unsigned : in_s 64 value →
  let '(r, error) := check_integer_overflow f value val_unsigned in
  let n := denotes value val_unsigned in
  let fits := if unsigned_flag f then in_u 64 n else in_s 64 n in
  (error = false ↔ fits) ∧ (error = false → denotes r (unsigned_flag f) = n).
Proof.
  intros V. unfold check_integer_overflow, denotes, LONGLONG_MAX, in_s, in_u in *. change (64 - 1) with 63 in *.
  pose proof (Z.mod_pos_bound value (2 ^ 64) eq_refl) as B. unfold u64.
  destruct (unsigned_flag f), val_unsigned; simpl; try (case_bool_decide); simpl; (split; [split|]); intros; try done; try lia.
  - rewrite Z.mod_small; lia.
  - destruct (Z.ltb_spec value 0) as [Hneg|]; [|rewrite Z.mod_small; lia].
    exfalso. assert (value mod 2 ^ 64 = value + 2 ^ 64) as Hm.
    { symmetry. apply (Z.mod_unique _ _ (-1)); lia. } lia.
Qed.

(** The length of a result in bytes is exact up to the width of a blob, and longer
    results are cut and may be NULL. *)
Theorem char_length_capped maybe_null n mbmaxlen : 0 ≤ n → 0 ≤ mbmaxlen → n * mbmaxlen < 2 ^ 64 →
  fix_char_length_ulonglong maybe_null n mbmaxlen =
    (Z.min (n * mbmaxlen) MAX_BLOB_WIDTH, bool_decide (MAX_BLOB_WIDTH ≤ n * mbmaxlen) || maybe_null).
Proof.
  intros N M P. unfold fix_char_length_ulonglong, u64, u32. rewrite (Z.mod_small (n * mbmaxlen)) by nia.
  unfold MAX_BLOB_WIDTH. case_decide.
  - rewrite bool_decide_eq_true_2 by lia. f_equal. lia.
  - rewrite bool_decide_eq_false_2 by lia. rewrite Z.mod_small by nia. f_equal. lia.
Qed.

(** ** Witnesses *)

(** A column: the tables it uses, whether it is marked as read in its table, and whether it is
    marked as having no rows. *)
Record column := Col { c_used : Z; c_read : bool; c_no_rows : bool }.
#[global] Instance column_item : BasicItem column := {
  leaf_used_tables := c_used; leaf_const_item l := bool_decide (c_used l = 0);
  leaf_update_used_tables l := Col (c_used l) true (c_no_rows l);
  leaf_excl_dep_on_table l m := bool_decide (c_used l = m);
  leaf_no_rows_in_result l := Col (c_used l) (c_read l) true; leaf_restore l := Col (c_used l) (c_read l) false;
  leaf_with_sum_func _ := false; leaf_with_field _ := true; leaf_with_param _ := false;
  leaf_is_field _ := true; leaf_field_type _ := FieldRec.MYSQL_TYPE_DATETIME
}.
#[global] Instance column_laws : BasicItemLaws column := {| leaf_update_used _ := eq_refl; leaf_update_const _ := eq_refl |}.

(** Two functions that share a column. *)
Definition demo_store : gmap N Item :=
  {[1%N := ILeaf (Col 4 false false); 2%N := ILeaf (Col 0 false false);
    3%N := IFunc (Fun (Item_args2 1 2) 0 true false true false false);
    4%N := IFunc (Fun (Item_args3 true 3 1 2) 0 true false true false true)]}.
Definition demo_rank (i : N) : nat := match i with 4%N => 2%nat | 3%N => 1%nat | _ => 0%nat end.

Lemma demo_lookup i n : demo_store !! i = Some n →
  (i, n) ∈ [(1%N, ILeaf (Col 4 false false)); (2%N, ILeaf (Col 0 false false));
    (3%N, IFunc (Fun (Item_args2 1 2) 0 true false true false false));
    (4%N, IFunc (Fun (Item_args3 true 3 1 2) 0 true false true false true))].
Proof.
  unfold demo_store. intros E. repeat (apply lookup_insert_Some in E as [[<- <-]|[_ E]]; [set_solver|]).
  apply lookup_singleton_Some in E as [<- <-]. set_solver.
Qed.

Lemma demo_func i f : demo_store !! i = Some (IFunc f) →
  (i = 3%N ∧ fargs f = Item_args2 1 2) ∨ (i = 4%N ∧ fargs f = Item_args3 true 3 1 2).
Proof.
  intros E%demo_lookup. repeat (apply elem_of_cons in E as [E|E]; [by simplify_eq; auto|]). by apply not_elem_of_nil in E.
Qed.

Lemma demo_wf : wf demo_store demo_rank.
Proof.
  split.
  - intros i f k [[-> ->]|[-> ->]]%demo_func Hk; simpl in Hk.
    + destruct k as [|[|]]; [eexists; (split; [reflexivity|by eexists])..|lia].
    + destruct k as [|[|[|]]]; [eexists; (split; [reflexivity|by eexists])..|lia].
  - intros i j (f & k & [[-> ->]|[-> ->]]%demo_func & Hk & Ha); simpl in Hk.
    + destruct k as [|[|]]; simpl in Ha; try lia; injection Ha as <-; vm_compute; lia.
    + destruct k as [|[|[|]]]; simpl in Ha; try lia; injection Ha as <-; vm_compute; lia.
Qed.

Lemma update_used_tables_exact_witness : ∃ σ' n, update_used_tables 3 demo_store 4 = Some σ' ∧ σ' !! 4%N = Some n ∧
  used_tables n = 4 ∧ const_item n = false ∧ uses demo_store 4 2 ∧ ¬ constant demo_store 4.
Proof.
  destruct (update_used_tables_exact demo_store demo_rank 4 3 demo_wf ltac:(by eexists) ltac:(vm_compute; lia))
    as (σ' & U & _ & G).
  destruct (G 4%N) as (n & E & Gu & Gc); [done|]. exists σ', n.
  assert (C : update_used_tables 3 demo_store 4 ≫= (λ s, s !! 4%N) =
    Some (IFunc (Fun (Item_args3 true 3 1 2) 4 false false true false true))) by (vm_compute; reflexivity).
  rewrite U in C. simpl in C. rewrite E in C. injection C as ->. split_and!; [done..| |].
  - apply Gu. by vm_compute.
  - intros K. apply Gc in K. by vm_compute in K.
Defined.

(** Counting the visits of the items; the second visit of item 1 ends the walk. *)
Definition count_visits (s : gmap N (@Item column) * list N) (i : N) : gmap N Item * list N * bool :=
  (s.1, i :: s.2, bool_decide (i = 1%N ∧ i ∈ s.2)).

Lemma walk_visits_postorder_witness :
  walk count_visits 3 (demo_store, []) 4 = Some (demo_store, [1%N; 3%N; 2%N; 1%N], true) ∧
  postorder 3 demo_store 4 = [1%N; 2%N; 3%N; 1%N; 2%N; 4%N].
Proof.
  destruct (walk_visits_postorder count_visits demo_store demo_rank 4 3 ([] : list N)) as (-> & _ & _);
    [intros; simpl; reflexivity|apply demo_wf|by eexists|vm_compute; lia|].
  split; vm_compute; reflexivity.
Defined.

Lemma excl_dep_after_update_witness : confined (L := column) 4 (ILeaf (Col 4 true false)).
Proof.
  destruct (update_used_tables 3 demo_store 4) as [σ'|] eqn:U; [|vm_compute in U; discriminate].
  apply (excl_dep_after_update demo_store demo_rank 4 3 4 σ' demo_wf ltac:(by eexists) ltac:(vm_compute; lia) U) with (j := 1%N).
  - vm_compute in U. injection U as <-. vm_compute. reflexivity.
  - apply rtc_once. exists (Fun (Item_args3 true 3 1 2) 0 true false true false true), 1%nat. split_and!; [reflexivity|vm_compute; lia|reflexivity].
  - vm_compute in U. injection U as <-. vm_compute. reflexivity.
Defined.

Lemma restore_repeats_no_rows_witness :
  (σ ← no_rows_in_result 3 demo_store 3; σ ← restore_to_before_no_rows_in_result 2 σ 3; σ !! 1%N) =
  Some (ILeaf (Col 4 false true)).
Proof.
  destruct (no_rows_in_result 3 demo_store 3) as [σ|] eqn:E; [|vm_compute in E; discriminate]. simpl.
  rewrite (restore_repeats_no_rows σ 3 (Fun (Item_args2 1 2) 0 true false true false false) 2).
  - vm_compute in E. injection E as <-. vm_compute. reflexivity.
  - vm_compute in E. injection E as <-. vm_compute. reflexivity.
Defined.

Lemma five_arguments_without_array_witness : ∃ f, Item_func_ctor demo_store false 0 [1%N; 1%N; 2%N; 2%N; 1%N] = Some f ∧
  arg_count (fargs f) = 5%nat ∧ update_used_tables 9 (<[7%N := IFunc f]> demo_store) 7 = None.
Proof.
  eexists. split; [vm_compute; reflexivity|].
  apply (five_arguments_without_array demo_store 0 [1%N; 1%N; 2%N; 2%N; 1%N] _ 7 9); [simpl; lia|vm_compute; reflexivity].
Defined.

Lemma integer_overflow_exact_witness :
  let f := Fun Item_args0 0 true false false false false in
  check_integer_overflow f (-1) true = (0, true) ∧ ¬ in_s 64 (denotes (-1) true).
Proof.
  intros f. split; [by vm_compute|].
  destruct (integer_overflow_exact f (-1) true) as [D _]; [by vm_compute|]. intros K. apply D in K. by vm_compute in K.
Defined.

Lemma char_length_capped_witness : fix_char_length_ulonglong false 10000000 3 = (MAX_BLOB_WIDTH, true).
Proof. rewrite (char_length_capped false 10000000 3) by lia. by vm_compute. Defined.

End Items.
