(* ===== verification/Cte.v ===== *)
(** * Common table expressions

    The inline code of sql_cte.h: the dependency maps of the elements of a WITH clause,
    the maps of the clause that follow a recursive computation, and the ring of
    mutually recursive elements. *)

From Stdlib Require Import ZArith Lia.
From stdpp Require Import base numbers option list gmap fin_sets.
From S2P Require Import Prelude.
Open Scope Z_scope.
Open Scope cint_scope.

Module Cte.

(** The maps of a clause. *)
Record With_clause := WC { unrestricted : Z; with_prepared_anchor : Z; cleaned : Z; stabilized : Z; with_recursive : bool }.

(** An element.  [rec_result] is [None] for NULL, else its table to update, if any;
    [columns_are_renamed] belongs to the specification of the element. *)
Record With_element := WE {
  number : Z; base_dep_map : Z; sq_dep_map : Z; mutually_recursive : Z; top_level_dep_map : Z;
  next_mutually_recursive : N; references : Z; is_recursive : bool; level : Z; rec_result : option (option N);
  columns_are_renamed : bool
}.

Definition max_number_of_elements_in_with_clause : Z := 8 * 8.
Definition new_With_clause (recursive_fl : bool) : With_clause := WC 0 0 0 0 recursive_fl.

(** The clause that owns the elements. *)
Record cte := Cte { owner : With_clause; elems : gmap N With_element }.

(** ** Operations of an element *)

(** Shifting by 64 or more is undefined. *)
Definition get_elem_map (e : With_element) : option Z :=
  if decide (0 ≤ number e < max_number_of_elements_in_with_clause) then Some (u64 (1 ≪ number e)) else None.
(** [~] of a 64-bit map. *)
Definition compl (m : Z) : Z := u64 (Z.lnot m).

Definition set_base_dep (e : With_element) (m : Z) : With_element :=
  WE (number e) m (sq_dep_map e) (mutually_recursive e) (top_level_dep_map e) (next_mutually_recursive e)
     (references e) (is_recursive e) (level e) (rec_result e) (columns_are_renamed e).
Definition set_references (e : With_element) (n : Z) : With_element :=
  WE (number e) (base_dep_map e) (sq_dep_map e) (mutually_recursive e) (top_level_dep_map e) (next_mutually_recursive e)
     n (is_recursive e) (level e) (rec_result e) (columns_are_renamed e).
Definition set_level (e : With_element) (n : Z) (renamed : bool) : With_element :=
  WE (number e) (base_dep_map e) (sq_dep_map e) (mutually_recursive e) (top_level_dep_map e) (next_mutually_recursive e)
     (references e) (is_recursive e) n (rec_result e) renamed.

Definition set_dependency_on (e with_elem : With_element) : option With_element :=
  m ← get_elem_map with_elem; Some (set_base_dep e (base_dep_map e .| m)).
Definition check_dependency_on (e with_elem : With_element) : option bool :=
  m ← get_elem_map with_elem; Some (bool_decide (base_dep_map e .& m ≠ 0)).
Definition is_referenced (e : With_element) : bool := bool_decide (references e ≠ 0).
Definition inc_references (e : With_element) : With_element := set_references e (u32 (references e + 1)).
Definition contains_sq_with_recursive_reference (e : With_element) : bool := bool_decide (sq_dep_map e .& mutually_recursive e ≠ 0).
Definition no_rec_ref_on_top_level (e : With_element) : bool := negb (bool_decide (top_level_dep_map e .& mutually_recursive e ≠ 0)).
Definition get_mutually_recursive (e : With_element) : Z := mutually_recursive e.
Definition get_next_mutually_recursive (e : With_element) : N := next_mutually_recursive e.

(** ** The maps of the clause *)

Definition add_unrestricted (c : With_clause) (map : Z) : With_clause :=
  WC (unrestricted c .| map) (with_prepared_anchor c) (cleaned c) (stabilized c) (with_recursive c).
Definition set_prepared (c : With_clause) (m : Z) : With_clause := WC (unrestricted c) m (cleaned c) (stabilized c) (with_recursive c).
Definition set_cleaned (c : With_clause) (m : Z) : With_clause := WC (unrestricted c) (with_prepared_anchor c) m (stabilized c) (with_recursive c).
Definition set_stabilized (c : With_clause) (m : Z) : With_clause := WC (unrestricted c) (with_prepared_anchor c) (cleaned c) m (with_recursive c).

Definition is_unrestricted (c : With_clause) (e : With_element) : option bool :=
  m ← get_elem_map e; Some (bool_decide (unrestricted c .& m ≠ 0)).
Definition is_with_prepared_anchor (c : With_clause) (e : With_element) : option bool :=
  m ← get_elem_map e; Some (bool_decide (with_prepared_anchor c .& m ≠ 0)).
Definition mark_as_with_prepared_anchor (c : With_clause) (e : With_element) : With_clause :=
  set_prepared c (with_prepared_anchor c .| mutually_recursive e).
Definition is_cleaned (c : With_clause) (e : With_element) : option bool :=
  m ← get_elem_map e; Some (bool_decide (cleaned c .& m ≠ 0)).
Definition mark_as_cleaned (c : With_clause) (e : With_element) : option With_clause :=
  m ← get_elem_map e; Some (set_cleaned c (cleaned c .| m)).
Definition cleanup_stabilized (c : With_clause) (e : With_element) : With_clause :=
  set_stabilized c (stabilized c .& compl (mutually_recursive e)).
Definition set_as_stabilized (c : With_clause) (e : With_element) : option With_clause :=
  m ← get_elem_map e; Some (set_stabilized c (stabilized c .| m)).
Definition is_stabilized (c : With_clause) (e : With_element) : option bool :=
  m ← get_elem_map e; Some (bool_decide (stabilized c .& m ≠ 0)).
Definition all_are_stabilized (c : With_clause) (e : With_element) : bool :=
  bool_decide (stabilized c .& mutually_recursive e = mutually_recursive e).
(** A failed assertion is [None]. *)
Definition reset_recursive_for_exec (c : With_clause) (e : With_element) : option (With_clause * With_element) :=
  if is_recursive e then
    let c := set_prepared c (with_prepared_anchor c .& compl (mutually_recursive e)) in
    m ← get_elem_map e;
    let c := set_cleaned c (cleaned c .& compl m) in
    Some (cleanup_stabilized c e, set_level e 0 false)
  else None.

(** ** The ring of mutually recursive elements *)

(** [tables] holds [preread_init_done] of each table.  The loop ends at [this]. *)
Fixpoint next_iteration_loop (fuel : nat) (E : gmap N With_element) (tables : gmap N bool) (this with_elem : N) : option (gmap N bool) :=
  match fuel with O => None | S fuel =>
    e ← E !! with_elem;
    let with_elem := get_next_mutually_recursive e in
    if decide (with_elem = this) then Some tables else
    e ← E !! with_elem;
    r ← rec_result e;
    tables ← match r with
             | Some t => _ ← tables !! t; Some (<[t := false]> tables)
             | None => Some tables
             end;
    next_iteration_loop fuel E tables this with_elem
  end.
Definition prepare_for_next_iteration (fuel : nat) (E : gmap N With_element) (tables : gmap N bool) (this : N) : option (gmap N bool) :=
  next_iteration_loop fuel E tables this this.

(** ** Histories *)

Inductive op :=
| SetDependency (i j : N) | CheckDependency (i j : N)
| AddUnrestricted (i : N) | IsUnrestricted (i : N)
| MarkPrepared (i : N) | IsPrepared (i : N) | MarkCleaned (i : N) | IsCleaned (i : N)
| SetStabilized (i : N) | IsStabilized (i : N) | AllStabilized (i : N) | CleanupStabilized (i : N) | ResetForExec (i : N).

Definition with_owner (s : cte) (c : With_clause) : cte := Cte c (elems s).
Definition with_elem (s : cte) (i : N) (e : With_element) : cte := Cte (owner s) (<[i := e]> (elems s)).
Definition ask (s : cte) (o : option bool) : option (cte * option bool) := b ← o; Some (s, Some b).
Definition exec (s : cte) (o : op) : option (cte * option bool) :=
  match o with
  | SetDependency i j => e ← elems s !! i; f ← elems s !! j; e ← set_dependency_on e f; Some (with_elem s i e, None)
  | CheckDependency i j => e ← elems s !! i; f ← elems s !! j; ask s (check_dependency_on e f)
  | AddUnrestricted i => e ← elems s !! i; Some (with_owner s (add_unrestricted (owner s) (get_mutually_recursive e)), None)
  | IsUnrestricted i => e ← elems s !! i; ask s (is_unrestricted (owner s) e)
  | MarkPrepared i => e ← elems s !! i; Some (with_owner s (mark_as_with_prepared_anchor (owner s) e), None)
  | IsPrepared i => e ← elems s !! i; ask s (is_with_prepared_anchor (owner s) e)
  | MarkCleaned i => e ← elems s !! i; c ← mark_as_cleaned (owner s) e; Some (with_owner s c, None)
  | IsCleaned i => e ← elems s !! i; ask s (is_cleaned (owner s) e)
  | SetStabilized i => e ← elems s !! i; c ← set_as_stabilized (owner s) e; Some (with_owner s c, None)
  | IsStabilized i => e ← elems s !! i; ask s (is_stabilized (owner s) e)
  | AllStabilized i => e ← elems s !! i; ask s (Some (all_are_stabilized (owner s) e))
  | CleanupStabilized i => e ← elems s !! i; Some (with_owner s (cleanup_stabilized (owner s) e), None)
  | ResetForExec i => e ← elems s !! i; '(c, e) ← reset_recursive_for_exec (owner s) e; Some (with_elem (with_owner s c) i e, None)
  end.

(** The specification: sets of elements. *)
Record sets := Sets {
  s_unrestricted : gset N; s_prepared : gset N; s_cleaned : gset N; s_stabilized : gset N;
  s_depends : gset (N * N)
}.

Section spec.
(** The elements mutually recursive with an element, itself included. *)
Context (group : N → gset N).

Definition spec (s : sets) (o : op) : sets * option bool :=
  let '(Sets U P C T D) := s in
  match o with
  | SetDependency i j => (Sets U P C T (D ∪ {[(i, j)]}), None)
  | CheckDependency i j => (s, Some (bool_decide ((i, j) ∈ D)))
  | AddUnrestricted i => (Sets (U ∪ group i) P C T D, None)
  | IsUnrestricted i => (s, Some (bool_decide (i ∈ U)))
  | MarkPrepared i => (Sets U (P ∪ group i) C T D, None)
  | IsPrepared i => (s, Some (bool_decide (i ∈ P)))
  | MarkCleaned i => (Sets U P (C ∪ {[i]}) T D, None)
  | IsCleaned i => (s, Some (bool_decide (i ∈ C)))
  | SetStabilized i => (Sets U P C (T ∪ {[i]}) D, None)
  | IsStabilized i => (s, Some (bool_decide (i ∈ T)))
  | AllStabilized i => (s, Some (bool_decide (group i ⊆ T)))
  | CleanupStabilized i => (Sets U P C (T ∖ group i) D, None)
  | ResetForExec i => (Sets U (P ∖ group i) (C ∖ {[i]}) (T ∖ group i) D, None)
  end.
End spec.

Fixpoint exec_all (s : cte) (os : list op) : option (cte * list (option bool)) :=
  match os with
  | [] => Some (s, [])
  | o :: os => '(s, r) ← exec s o; '(s, rs) ← exec_all s os; Some (s, r :: rs)
  end.
Fixpoint spec_all (group : N → gset N) (s : sets) (os : list op) : sets * list (option bool) :=
  match os with
  | [] => (s, [])
  | o :: os => let '(s, r) := spec group s o in let '(s, rs) := spec_all group s os in (s, r :: rs)
  end.

(** ** Bits and sets *)

(** What no operation changes. *)
Definition stat (e : With_element) : Z * Z * bool := (number e, mutually_recursive e, is_recursive e).
Definition shape (E : gmap N With_element) : gmap N (Z * Z * bool) := stat <$> E.

(** The map [X] has the bits of the elements of [A]. *)
Definition map_is (Γ : gmap N (Z * Z * bool)) (X : Z) (A : N → Prop) : Prop :=
  ∀ i n m r, Γ !! i = Some (n, m, r) → Z.testbit X n = true ↔ A i.

(** Elements have different numbers below 64, and the map of the mutually recursive
    elements has the bits of its group. *)
Record layout (group : N → gset N) (Γ : gmap N (Z * Z * bool)) : Prop := {
  l_number i n m r : Γ !! i = Some (n, m, r) → 0 ≤ n < 64;
  l_inj i j n m m' r r' : Γ !! i = Some (n, m, r) → Γ !! j = Some (n, m', r') → i = j;
  l_group i n m r t : Γ !! i = Some (n, m, r) →
    Z.testbit m t = true ↔ ∃ j n' m' r', j ∈ group i ∧ Γ !! j = Some (n', m', r') ∧ n' = t;
  l_closed i j : is_Some (Γ !! i) → j ∈ group i → is_Some (Γ !! j)
}.

Lemma cte_shape_lookup E i e : E !! i = Some e → shape E !! i = Some (stat e).
Proof. intros Ei. unfold shape. by rewrite lookup_fmap, Ei. Qed.

Lemma shape_insert E i e e' : E !! i = Some e → stat e' = stat e → shape (<[i := e']> E) = shape E.
Proof. intros Ei S. unfold shape. rewrite fmap_insert, S. apply insert_id. by rewrite lookup_fmap, Ei. Qed.

Section maps.
Context (group : N → gset N) (Γ : gmap N (Z * Z * bool)) (Lay : layout group Γ).
Implicit Types X : Z.

Lemma elem_map e i : Γ !! i = Some (stat e) → get_elem_map e = Some (2 ^ number e).
Proof.
  intros Ei. pose proof (l_number _ _ Lay _ _ _ _ Ei) as B. unfold get_elem_map, max_number_of_elements_in_with_clause.
  rewrite decide_True by lia. unfold u64. rewrite Z.shiftl_1_l, Z.mod_small; [done|].
  split; [apply Z.pow_nonneg; lia|apply Z.pow_lt_mono_r; lia].
Qed.

Lemma pow_bit n t : 0 ≤ n → Z.testbit (2 ^ n) t = bool_decide (n = t).
Proof. intros Hn. rewrite Z.pow2_bits_eqb by done. case_bool_decide; [by apply Z.eqb_eq|by apply Z.eqb_neq]. Qed.

Lemma has_bit X n : 0 ≤ n → bool_decide (X .& 2 ^ n ≠ 0) = Z.testbit X n.
Proof.
  intros Hn. destruct (Z.testbit X n) eqn:B.
  - apply bool_decide_eq_true. intros Eq. apply (f_equal (λ z, Z.testbit z n)) in Eq.
    rewrite Z.land_spec, B, Z.pow2_bits_true, Z.bits_0 in Eq by done. done.
  - apply bool_decide_eq_false. intros Ne. apply Ne. apply Z.bits_inj'. intros t Ht. rewrite Z.land_spec, Z.bits_0, pow_bit by done.
    case_bool_decide as Eq; [subst t; by rewrite B|by rewrite andb_false_r].
Qed.

Lemma compl_bit X m n : 0 ≤ n < 64 → Z.testbit (X .& compl m) n = Z.testbit X n && negb (Z.testbit m n).
Proof.
  intros Hn. rewrite Z.land_spec. f_equal. unfold compl, u64. rewrite Z.mod_pow2_bits_low, Z.lnot_spec by lia. done.
Qed.

Lemma map_is_test X A e i : map_is Γ X A → Γ !! i = Some (stat e) →
  ∃ b, (m ← get_elem_map e; Some (bool_decide (X .& m ≠ 0))) = Some b ∧ (b = true ↔ A i).
Proof.
  intros M Ei. rewrite (elem_map e i Ei). simpl. eexists. split; [done|].
  rewrite has_bit by (pose proof (l_number _ _ Lay _ _ _ _ Ei); lia). by eapply M.
Qed.

Lemma map_is_add X A i e : map_is Γ X A → Γ !! i = Some (stat e) → map_is Γ (X .| 2 ^ number e) (λ j, A j ∨ j = i).
Proof.
  intros M Ei j n m r Ej. pose proof (l_number _ _ Lay _ _ _ _ Ei). rewrite Z.lor_spec, orb_true_iff, pow_bit by lia.
  rewrite (M j n m r Ej), bool_decide_eq_true. split; (intros [?|Eq]; [by left|right]).
  - subst n. by eapply (l_inj _ _ Lay).
  - subst j. rewrite Ei in Ej. by injection Ej.
Qed.

Lemma map_is_del X A i e : map_is Γ X A → Γ !! i = Some (stat e) → map_is Γ (X .& compl (2 ^ number e)) (λ j, A j ∧ j ≠ i).
Proof.
  intros M Ei j n m r Ej. pose proof (l_number _ _ Lay _ _ _ _ Ei). pose proof (l_number _ _ Lay _ _ _ _ Ej).
  rewrite compl_bit, andb_true_iff, negb_true_iff, pow_bit by lia. rewrite (M j n m r Ej), bool_decide_eq_false.
  apply and_iff_compat_l. split; intros Ne Eq; apply Ne.
  - subst j. rewrite Ei in Ej. by injection Ej.
  - subst n. by eapply (l_inj _ _ Lay).
Qed.

Lemma group_bit i e j n m r : Γ !! i = Some (stat e) → Γ !! j = Some (n, m, r) →
  Z.testbit (mutually_recursive e) n = true ↔ j ∈ group i.
Proof.
  intros Ei Ej. rewrite (l_group _ _ Lay i _ _ _ n Ei). split.
  - intros (k & n' & m' & r' & Hk & Ek & ->). assert (k = j) as <- by (by eapply (l_inj _ _ Lay)). done.
  - intros Hj. by exists j, n, m, r.
Qed.

Lemma map_is_add_group X A i e : map_is Γ X A → Γ !! i = Some (stat e) →
  map_is Γ (X .| mutually_recursive e) (λ j, A j ∨ j ∈ group i).
Proof.
  intros M Ei j n m r Ej. by rewrite Z.lor_spec, orb_true_iff, (M j n m r Ej), (group_bit i e j n m r Ei Ej).
Qed.

Lemma map_is_del_group X A i e : map_is Γ X A → Γ !! i = Some (stat e) →
  map_is Γ (X .& compl (mutually_recursive e)) (λ j, A j ∧ j ∉ group i).
Proof.
  intros M Ei j n m r Ej. pose proof (l_number _ _ Lay _ _ _ _ Ej).
  rewrite compl_bit, andb_true_iff, negb_true_iff by done. rewrite (M j n m r Ej). apply and_iff_compat_l.
  rewrite <- (group_bit i e j n m r Ei Ej). by rewrite not_true_iff_false.
Qed.

Lemma map_is_all X A i e : map_is Γ X A → Γ !! i = Some (stat e) →
  X .& mutually_recursive e = mutually_recursive e ↔ ∀ j, j ∈ group i → A j.
Proof.
  intros M Ei. split.
  - intros Eq j Hj. destruct (l_closed _ _ Lay i j) as [[[n m] r] Ej]; [by eexists|done|].
    apply (M j n m r Ej). apply (f_equal (λ z, Z.testbit z n)) in Eq. rewrite Z.land_spec in Eq.
    rewrite (proj2 (group_bit i e j n m r Ei Ej) Hj), andb_true_r in Eq. done.
  - intros HA. apply Z.bits_inj'. intros t Ht. rewrite Z.land_spec.
    destruct (Z.testbit (mutually_recursive e) t) eqn:B; [|by rewrite andb_false_r]. rewrite andb_true_r.
    apply (l_group _ _ Lay i _ _ _ t Ei) in B as (j & n & m & r & Hj & Ej & <-). apply (M j n m r Ej). by apply HA.
Qed.

Lemma map_is_ext X A B : map_is Γ X A → (∀ j, A j ↔ B j) → map_is Γ X B.
Proof. intros M AB j n m r Ej. by rewrite (M j n m r Ej). Qed.
End maps.

(** The state stands for the sets. *)
Record represents (group : N → gset N) (s : cte) (z : sets) : Prop := {
  r_layout : layout group (shape (elems s));
  r_unrestricted : map_is (shape (elems s)) (unrestricted (owner s)) (λ i, i ∈ s_unrestricted z);
  r_prepared : map_is (shape (elems s)) (with_prepared_anchor (owner s)) (λ i, i ∈ s_prepared z);
  r_cleaned : map_is (shape (elems s)) (cleaned (owner s)) (λ i, i ∈ s_cleaned z);
  r_stabilized : map_is (shape (elems s)) (stabilized (owner s)) (λ i, i ∈ s_stabilized z);
  r_depends i e : elems s !! i = Some e → map_is (shape (elems s)) (base_dep_map e) (λ j, (i, j) ∈ s_depends z)
}.

(** The elements of an operation are there, and an element reset for an execution is
    recursive. *)
Definition valid (E : gmap N (Z * Z * bool)) (o : op) : Prop :=
  match o with
  | SetDependency i j | CheckDependency i j => is_Some (E !! i) ∧ is_Some (E !! j)
  | ResetForExec i => ∃ n m, E !! i = Some (n, m, true)
  | AddUnrestricted i | IsUnrestricted i | MarkPrepared i | IsPrepared i | MarkCleaned i | IsCleaned i
  | SetStabilized i | IsStabilized i | AllStabilized i | CleanupStabilized i => is_Some (E !! i)
  end.

Section steps.
Context (group : N → gset N) (s : cte) (z : sets) (R : represents group s z).

Lemma ask_spec X (A : N → Prop) i `{!Decision (A i)} e : map_is (shape (elems s)) X A → elems s !! i = Some e →
  ask s (m ← get_elem_map e; Some (bool_decide (X .& m ≠ 0))) = Some (s, Some (bool_decide (A i))).
Proof.
  intros M E. destruct (map_is_test group _ (r_layout _ _ _ R) X A e i M (cte_shape_lookup _ _ _ E)) as (b & -> & B).
  simpl. do 3 f_equal. apply eq_true_iff_eq. by rewrite B, bool_decide_eq_true.
Qed.

(** One map of the clause changes. *)
Lemma with_owner_spec c U P C T :
  map_is (shape (elems s)) (unrestricted c) (λ i, i ∈ U) → map_is (shape (elems s)) (with_prepared_anchor c) (λ i, i ∈ P) →
  map_is (shape (elems s)) (cleaned c) (λ i, i ∈ C) → map_is (shape (elems s)) (stabilized c) (λ i, i ∈ T) →
  represents group (with_owner s c) (Sets U P C T (s_depends z)).
Proof. intros. split; try done; apply R. Qed.

Lemma with_elem_spec i e e' D : elems s !! i = Some e → stat e' = stat e →
  map_is (shape (elems s)) (base_dep_map e') (λ j, (i, j) ∈ D) → (∀ k j, k ≠ i → (k, j) ∈ D ↔ (k, j) ∈ s_depends z) →
  represents group (with_elem s i e') (Sets (s_unrestricted z) (s_prepared z) (s_cleaned z) (s_stabilized z) D).
Proof.
  intros E S M F. destruct R as [RL RU RP RC RS RD]. split; simpl; rewrite ?(shape_insert _ _ _ _ E S); try done.
  intros k f Ek. destruct (decide (k = i)) as [->|Ne].
  - rewrite lookup_insert_eq in Ek. by injection Ek as <-.
  - rewrite lookup_insert_ne in Ek by done. eapply map_is_ext; [by eapply RD|]. intros j. simpl. by rewrite F.
Qed.
End steps.

Lemma elem_of_shape E i : is_Some (shape E !! i) → ∃ e, E !! i = Some e.
Proof. unfold shape. rewrite lookup_fmap, fmap_is_Some. by intros [e ?]; exists e. Qed.

Ltac map_step lemma := eapply map_is_ext; [eapply lemma; [eassumption|eassumption|by apply cte_shape_lookup]|set_solver].

Lemma cte_exec_spec group s z o : represents group s z → valid (shape (elems s)) o →
  ∃ s', exec s o = Some (s', (spec group z o).2) ∧ represents group s' (spec group z o).1 ∧ shape (elems s') = shape (elems s).
Proof.
  intros R V. pose proof R as [RL RU RP RC RS RD]. destruct z as [U P C T D]; simpl in *.
  destruct o as [i j|i j|i|i|i|i|i|i|i|i|i|i|i]; simpl in *.
  1, 2: destruct V as [[e E]%elem_of_shape [f F]%elem_of_shape].
  13: destruct V as (n & m & En); destruct (elem_of_shape (elems s) i) as [e E]; [by eexists|].
  3-12: apply elem_of_shape in V as [e E].
  all: rewrite E; try rewrite F; cbn [mbind option_bind].
  - unfold set_dependency_on. rewrite (elem_map group _ RL f j (cte_shape_lookup _ _ _ F)). cbn [mbind option_bind].
    eexists. split; [done|]. split; [|by eapply shape_insert].
    apply (with_elem_spec group s (Sets U P C T D) R i e); [done|done| |set_solver]. simpl.
    eapply map_is_ext; [eapply (map_is_add group); [eassumption|by eapply RD|by apply cte_shape_lookup]|set_solver].
  - exists s. split; [|done]. by apply (ask_spec group s (Sets U P C T D) R _ (λ j, (i, j) ∈ D) j); [eapply RD|].
  - eexists. split; [done|]. split; [|done]. apply (with_owner_spec group s (Sets U P C T D) R); try done.
    map_step (map_is_add_group group).
  - exists s. split; [|done]. by apply (ask_spec group s (Sets U P C T D) R _ (λ i, i ∈ U) i).
  - eexists. split; [done|]. split; [|done]. apply (with_owner_spec group s (Sets U P C T D) R); try done.
    map_step (map_is_add_group group).
  - exists s. split; [|done]. by apply (ask_spec group s (Sets U P C T D) R _ (λ i, i ∈ P) i).
  - unfold mark_as_cleaned. rewrite (elem_map group _ RL e i (cte_shape_lookup _ _ _ E)). cbn [mbind option_bind].
    eexists. split; [done|]. split; [|done]. apply (with_owner_spec group s (Sets U P C T D) R); try done.
    map_step (map_is_add group).
  - exists s. split; [|done]. by apply (ask_spec group s (Sets U P C T D) R _ (λ i, i ∈ C) i).
  - unfold set_as_stabilized. rewrite (elem_map group _ RL e i (cte_shape_lookup _ _ _ E)). cbn [mbind option_bind].
    eexists. split; [done|]. split; [|done]. apply (with_owner_spec group s (Sets U P C T D) R); try done.
    map_step (map_is_add group).
  - exists s. split; [|done]. by apply (ask_spec group s (Sets U P C T D) R _ (λ i, i ∈ T) i).
  - exists s. split; [|done]. simpl. do 3 f_equal. unfold all_are_stabilized. apply bool_decide_ext.
    rewrite (map_is_all group _ RL _ _ i e RS (cte_shape_lookup _ _ _ E)). set_solver.
  - eexists. split; [done|]. split; [|done]. apply (with_owner_spec group s (Sets U P C T D) R); try done.
    map_step (map_is_del_group group).
  - pose proof (cte_shape_lookup _ _ _ E) as Es. rewrite En in Es. injection Es as -> -> Hr.
    unfold reset_recursive_for_exec. rewrite <- Hr, (elem_map group _ RL e i (cte_shape_lookup _ _ _ E)). cbn [mbind option_bind].
    eexists. split; [done|]. split; [|by eapply shape_insert]. unfold cleanup_stabilized, set_prepared, set_cleaned, set_stabilized. simpl.
    set (c := WC _ _ _ _ _).
    assert (R' : represents group (with_owner s c) (Sets U (P ∖ group i) (C ∖ {[i]}) (T ∖ group i) D)).
    { apply (with_owner_spec group s (Sets U P C T D) R); simpl; [done|map_step (map_is_del_group group)| |map_step (map_is_del_group group)].
      map_step (map_is_del group). }
    apply (with_elem_spec group (with_owner s c) _ R' i e); [done|done|exact (RD i e E)|done].
Qed.

(** ** Theorems *)

(** [C7] The maps of a WITH clause behave as sets of its elements: for every history of
    operations on existing elements each test answers membership, and the elements of
    a group count as stabilized exactly when each of them has been since the last
    reset. *)
Theorem cte_maps_are_sets group s z os : represents group s z → Forall (valid (shape (elems s))) os →
  ∃ s', exec_all s os = Some (s', (spec_all group z os).2) ∧ represents group s' (spec_all group z os).1.
Proof.
  intros R V. remember (shape (elems s)) as Γ eqn:EΓ. revert s z R EΓ. induction V as [|o os Vo _ IH]; intros s z R EΓ; simpl.
  - by exists s.
  - subst Γ. destruct (cte_exec_spec group s z o R Vo) as (s1 & E & R1 & S1). rewrite E. simpl.
    destruct (spec group z o) as [z1 r]. simpl in *. destruct (IH s1 z1 R1) as (s' & -> & R'); [done|]. simpl.
    exists s'. by destruct (spec_all group z1 os).
Qed.

(** The elements [l] follow [p], and the chain ends at [this]. *)
Fixpoint ring (E : gmap N With_element) (this p : N) (l : list N) : Prop :=
  ∃ e, E !! p = Some e ∧
  match l with [] => next_mutually_recursive e = this | q :: l => next_mutually_recursive e = q ∧ q ≠ this ∧ ring E this q l end.

(** The table of an element of the ring that is updated. *)
Definition rec_table (E : gmap N With_element) (q : N) : list N :=
  match E !! q with Some e => match rec_result e with Some (Some t) => [t] | _ => [] end | None => [] end.

Lemma next_iteration_loop_spec E this l p tables fuel : ring E this p l →
  (∀ q e, q ∈ l → E !! q = Some e → rec_result e ≠ None) → (∀ q t, q ∈ l → t ∈ rec_table E q → is_Some (tables !! t)) →
  (length l < fuel)%nat →
  ∃ tables', next_iteration_loop fuel E tables this p = Some tables' ∧
    ∀ t, tables' !! t = if decide (t ∈ l ≫= rec_table E) then Some false else tables !! t.
Proof.
  revert p tables fuel. induction l as [|q l IH]; intros p tables [|fuel] (e & Ep & N) Hr Ht F; simpl in F; try lia; simpl; rewrite Ep; simpl.
  - unfold get_next_mutually_recursive. rewrite decide_True by done. by exists tables.
  - destruct N as (Nq & Ne & Rq). unfold get_next_mutually_recursive. rewrite Nq, decide_False by done.
    assert (∃ e', E !! q = Some e') as [e' Eq] by (destruct l; destruct Rq as (e' & ? & _); eauto). rewrite Eq. simpl.
    destruct (rec_result e') as [r|] eqn:Er; [|exfalso; eapply (Hr q); [set_solver|done..]]. simpl.
    assert (RT : rec_table E q = match r with Some t => [t] | None => [] end) by (unfold rec_table; by rewrite Eq, Er).
    destruct r as [t|]; simpl.
    + destruct (Ht q t) as [b Hb]; [set_solver|rewrite RT; set_solver|]. rewrite Hb. simpl.
      destruct (IH q (<[t := false]> tables) fuel) as (tables' & L & H'); [done| | |lia|].
      * intros q' e'' Iq. apply Hr. set_solver.
      * intros q' t' Iq It. apply lookup_insert_is_Some'. right. eapply Ht; [|done]. set_solver.
      * exists tables'. split; [done|]. intros t'. rewrite H', RT. destruct (decide (t' ∈ l ≫= rec_table E)).
        { rewrite decide_True by set_solver. done. }
        destruct (decide (t' = t)) as [->|]; [rewrite lookup_insert_eq, decide_True by set_solver; done|].
        rewrite lookup_insert_ne, decide_False by set_solver. done.
    + destruct (IH q tables fuel) as (tables' & L & H'); [done| | |lia|].
      * intros q' e'' Iq. apply Hr. set_solver.
      * intros q' t' Iq It. eapply Ht; [|done]. set_solver.
      * exists tables'. split; [done|]. intros t'. rewrite H', RT. done.
Qed.

(** Preparing the next iteration goes once around the ring of mutually recursive
    elements and ends: the tables of all other elements are to be read again, and no
    other table is. *)
Theorem next_iteration_goes_around E this l tables fuel : ring E this this l →
  (∀ q e, q ∈ l → E !! q = Some e → rec_result e ≠ None) → (∀ q t, q ∈ l → t ∈ rec_table E q → is_Some (tables !! t)) →
  (length l < fuel)%nat →
  ∃ tables', prepare_for_next_iteration fuel E tables this = Some tables' ∧
    ∀ t, tables' !! t = if decide (t ∈ l ≫= rec_table E) then Some false else tables !! t.
Proof. apply next_iteration_loop_spec. Qed.
(** The next reference counts, short of 2^32 of them. *)
Lemma inc_references_counts e : 0 ≤ references e < 2 ^ 32 - 1 →
  is_referenced (inc_references e) = true ∧ references (inc_references e) = references e + 1.
Proof.
  intros B. unfold is_referenced, inc_references. simpl. unfold u32. rewrite Z.mod_small by lia. split; [|done].
  apply bool_decide_eq_true. lia.
Qed.

(** ** Witnesses *)

Definition demo_elem (n mr : Z) (next : N) (r : option (option N)) : With_element :=
  WE n 0 0 mr 0 next 0 (bool_decide (mr ≠ 0)) 7 r true.
(** Two mutually recursive elements and one that is not recursive. *)
Definition demo_elems : gmap N With_element :=
  {[1%N := demo_elem 0 3 2 (Some (Some 10%N)); 2%N := demo_elem 1 3 1 (Some (Some 11%N)); 3%N := demo_elem 5 0 0 None]}.
Definition demo_cte : cte := Cte (new_With_clause true) demo_elems.
Definition demo_group (i : N) : gset N := if decide (i = 3%N) then ∅ else {[1%N; 2%N]}.

Lemma demo_shape i x : shape demo_elems !! i = Some x →
  (i = 1%N ∧ x = (0, 3, true)) ∨ (i = 2%N ∧ x = (1, 3, true)) ∨ (i = 3%N ∧ x = (5, 0, false)).
Proof.
  unfold shape, demo_elems. rewrite lookup_fmap, fmap_Some. intros (e & E & ->).
  repeat (apply lookup_insert_Some in E as [[<- <-]|[_ E]]; [by auto|]). apply lookup_singleton_Some in E as [<- <-]. by auto.
Qed.

Lemma demo_layout : layout demo_group (shape demo_elems).
Proof.
  assert (E1 : shape demo_elems !! 1%N = Some (0, 3, true)) by (vm_compute; reflexivity).
  assert (E2 : shape demo_elems !! 2%N = Some (1, 3, true)) by (vm_compute; reflexivity).
  split.
  - intros i n m r [[-> E]|[[-> E]|[-> E]]]%demo_shape; simplify_eq; lia.
  - intros i j n m m' r r' [[-> E]|[[-> E]|[-> E]]]%demo_shape [[-> F]|[[-> F]|[-> F]]]%demo_shape; simplify_eq; done.
  - assert (B3 : ∀ t, Z.testbit 3 t = true ↔ t = 0 ∨ t = 1).
    { intros t. split; [|by intros [->| ->]]. intros B. destruct (Z.neg_nonneg_cases t); [by rewrite Z.testbit_neg_r in B|].
      destruct (Z.lt_ge_cases t 2); [lia|]. rewrite Z.bits_above_log2 in B; [done|lia|vm_compute Z.log2; lia]. }
    intros i n m r t [[-> E]|[[-> E]|[-> E]]]%demo_shape; simplify_eq.
    1, 2: rewrite B3; unfold demo_group; rewrite decide_False by done; split.
    1, 3: by intros [->| ->]; [exists 1%N, 0, 3, true|exists 2%N, 1, 3, true]; split_and!; [set_solver|done..].
    1, 2: intros (j & n' & m' & r' & Hj & [[-> E]|[[-> E]|[-> E]]]%demo_shape & <-); simplify_eq; [by left|by right|set_solver].
    rewrite Z.bits_0. split; [done|]. intros (j & n' & m' & r' & Hj & _). unfold demo_group in Hj. rewrite decide_True in Hj by done. set_solver.
  - intros i j _ Hj. unfold demo_group in Hj. case_decide; [set_solver|].
    apply elem_of_union in Hj as [->%elem_of_singleton| ->%elem_of_singleton]; by eexists.
Qed.

Lemma demo_represents : represents demo_group demo_cte (Sets ∅ ∅ ∅ ∅ ∅).
Proof.
  assert (M : ∀ A : N → Prop, (∀ i, ¬ A i) → map_is (shape demo_elems) 0 A).
  { intros A NA i n m r _. rewrite Z.bits_0. split; [done|]. intros K. by destruct (NA i). }
  split; [apply demo_layout|apply M; set_solver..|].
  intros i e E. assert (base_dep_map e = 0) as ->.
  { unfold demo_cte, demo_elems in E. simpl in E. repeat (apply lookup_insert_Some in E as [[_ <-]|[_ E]]; [done|]).
    by apply lookup_singleton_Some in E as [_ <-]. }
  apply M. set_solver.
Qed.

Lemma cte_maps_are_sets_witness : ∃ s',
  exec_all demo_cte [SetStabilized 1; AllStabilized 2; SetStabilized 2; AllStabilized 1; MarkPrepared 1; IsPrepared 2;
                     ResetForExec 2; IsStabilized 1; SetDependency 1 3; CheckDependency 1 3] =
  Some (s', [None; Some false; None; Some true; None; Some true; None; Some false; None; Some true]).
Proof.
  edestruct (cte_maps_are_sets demo_group demo_cte (Sets ∅ ∅ ∅ ∅ ∅)) as (s' & E & _); [apply demo_represents| |].
  2:{ exists s'. etrans; [apply E|]. f_equal. }
  repeat (apply Forall_cons; split); try (split; by eexists); try by eexists.
  - by exists 1, 3.
  - apply Forall_nil. done.
Defined.

Lemma next_iteration_goes_around_witness : ∃ tables',
  prepare_for_next_iteration 2 demo_elems {[10%N := true; 11%N := true]} 1 = Some tables' ∧
  tables' !! 10%N = Some true ∧ tables' !! 11%N = Some false.
Proof.
  destruct (next_iteration_goes_around demo_elems 1 [2%N] {[10%N := true; 11%N := true]} 2) as (tables' & E & K).
  - eexists. split; [reflexivity|]. simpl. split; [done|]. split; [done|]. eexists. split; [reflexivity|done].
  - intros q e ->%list_elem_of_singleton Eq. vm_compute in Eq. by injection Eq as <-.
  - intros q t ->%list_elem_of_singleton Ht. vm_compute in Ht. apply list_elem_of_singleton in Ht as ->. by eexists.
  - simpl. lia.
  - exists tables'. split; [done|]. rewrite !K. split; vm_compute; reflexivity.
Defined.

End Cte.
