(* ===== verification/LooseScan.v ===== *)
(** * Loose scan of a semi-join

    The class [Loose_scan_opt] of opt_subselect.h, with which the optimizer looks for
    the cheapest way to read the inner table of a semi-join in the order of an index.
    Costs are doubles; the maps of equalities and of key parts are machine integers.
    The parts of the join, the table and its engine the code reads are records. *)

From Stdlib Require Import ZArith Lia SpecFloat.
From stdpp Require Import base numbers option list sets.
From S2P Require Import Prelude Doubles Spatial.
Open Scope Z_scope.
Open Scope cint_scope.

Module LooseScan.
Import Double.
Notation DBL_MAX := Spatial.DBL_MAX.

Definition UINT_MAX : Z := 2 ^ 32 - 1.
(** [w] is the width of the type; shifting by more is undefined. *)
Definition PREV_BITS (w A : Z) : option Z := if decide (0 ≤ A < w) then Some (wrapu w ((1 ≪ A) - 1)) else None.
Definition rows2double (rows : Z) : spec_float := of_Z rows.

Record sj_nest := Nest { sj_in_exprs : Z; sj_inner_tables : Z; sj_corr_tables : Z; sj_depends_on : Z }.
Record QUICK_SELECT_I := Quick { q_index : Z; q_is_range : bool; q_read_time : spec_float; q_records : Z }.
(** [stat_records] is [file->stats.records]. *)
Record JOIN_TAB := Tab {
  emb_sj_nest : option sj_nest; quick : option QUICK_SELECT_I; covering_keys : Z → bool; key_uses_partial_cols : Z → bool;
  stat_records : Z; keyread_time : Z → Z → spec_float; rec_per_key : Z → Z → Z
}.
(** [loose_scan] is the switch of the optimizer. *)
Record JOIN := Join { emb_sjm_nest : bool; cur_sj_inner_tables : Z; loose_scan : bool; const_tables : Z }.
(** [read_order] is the flag of the index of the key use. *)
Record KEYUSE := Keyuse { sj_pred_no : Z; read_order : bool; used_tables : Z; keypart : Z }.

Record Loose_scan_opt := Opt {
  try_loosescan : bool; bound_sj_equalities : Z; handled_sj_equalities : Z; loose_scan_keyparts : Z;
  max_loose_keypart : Z; part1_conds_met : bool; quick_uses_applicable_index : bool; quick_max_loose_keypart : Z;
  best_loose_scan_key : Z; best_loose_scan_cost : spec_float; best_loose_scan_records : spec_float;
  best_loose_scan_start_key : N; best_max_loose_keypart : Z
}.
Record POSITION := Pos {
  read_time : spec_float; records_read : spec_float; pos_key : N; cond_selectivity : spec_float;
  loosescan_key : Z; loosescan_parts : Z; use_join_buffer : bool; pos_table : N
}.

(** The constructor; the other members hold what the memory held. *)
Definition new_Loose_scan_opt (g : Loose_scan_opt) : Loose_scan_opt :=
  Opt false 0 (handled_sj_equalities g) (loose_scan_keyparts g) (max_loose_keypart g) (part1_conds_met g) false
    (quick_max_loose_keypart g) (best_loose_scan_key g) (best_loose_scan_cost g) (best_loose_scan_records g)
    (best_loose_scan_start_key g) (best_max_loose_keypart g).

Definition set_best (o : Loose_scan_opt) (key : Z) (cost records : spec_float) (start_key : N) (parts : Z) : Loose_scan_opt :=
  Opt (try_loosescan o) (bound_sj_equalities o) (handled_sj_equalities o) (loose_scan_keyparts o) (max_loose_keypart o)
    (part1_conds_met o) (quick_uses_applicable_index o) (quick_max_loose_keypart o) key cost records start_key parts.
Definition set_try (o : Loose_scan_opt) (try : bool) (bound : Z) (cost : spec_float) : Loose_scan_opt :=
  Opt try bound (handled_sj_equalities o) (loose_scan_keyparts o) (max_loose_keypart o)
    (part1_conds_met o) (quick_uses_applicable_index o) (quick_max_loose_keypart o) (best_loose_scan_key o) cost
    (best_loose_scan_records o) (best_loose_scan_start_key o) (best_max_loose_keypart o).
Definition set_ref (o : Loose_scan_opt) (bound handled keyparts max_part : Z) (met : bool) : Loose_scan_opt :=
  Opt (try_loosescan o) bound handled keyparts max_part met (quick_uses_applicable_index o) (quick_max_loose_keypart o)
    (best_loose_scan_key o) (best_loose_scan_cost o) (best_loose_scan_records o) (best_loose_scan_start_key o) (best_max_loose_keypart o).
Definition set_quick (o : Loose_scan_opt) (m : Z) : Loose_scan_opt :=
  Opt (try_loosescan o) (bound_sj_equalities o) (handled_sj_equalities o) (loose_scan_keyparts o) (max_loose_keypart o)
    (part1_conds_met o) true m (best_loose_scan_key o) (best_loose_scan_cost o) (best_loose_scan_records o)
    (best_loose_scan_start_key o) (best_max_loose_keypart o).

Section opt.
(** The width of [ulong], and [get_bound_sj_equalities], which is defined elsewhere. *)
Context (lw : Z) (get_bound_sj_equalities : sj_nest → Z → Z).

(** The condition of [init]. *)
Definition is_candidate (join : JOIN) (s : JOIN_TAB) (remaining_tables : Z) : bool :=
  negb (emb_sjm_nest join) &&
  match emb_sj_nest s with
  | Some nest =>
      bool_decide (sj_in_exprs nest < 64) &&
      bool_decide (remaining_tables .& sj_inner_tables nest = sj_inner_tables nest) &&
      bool_decide (cur_sj_inner_tables join = 0) &&
      negb (bool_decide (remaining_tables .& sj_corr_tables nest ≠ 0)) &&
      bool_decide (remaining_tables .& sj_depends_on nest ≠ 0) && loose_scan join
  | None => false
  end.
Definition init (o : Loose_scan_opt) (join : JOIN) (s : JOIN_TAB) (remaining_tables : Z) : Loose_scan_opt :=
  let o := set_try o (try_loosescan o) (bound_sj_equalities o) DBL_MAX in
  match emb_sj_nest s with
  | Some nest => if is_candidate join s remaining_tables
                 then set_try o true (get_bound_sj_equalities nest remaining_tables) DBL_MAX else o
  | None => o
  end.

Definition next_ref_key (o : Loose_scan_opt) : Loose_scan_opt := set_ref o (bound_sj_equalities o) 0 0 0 false.

Definition bit (w i : Z) : option Z := if decide (0 ≤ i < w) then Some (wrapu w (1 ≪ i)) else None.
Definition add_keyuse (o : Loose_scan_opt) (remaining_tables : Z) (keyuse : KEYUSE) : option Loose_scan_opt :=
  if try_loosescan o && bool_decide (sj_pred_no keyuse ≠ UINT_MAX) && read_order keyuse then
    if decide (remaining_tables .& used_tables keyuse = 0) then
      b ← bit 64 (sj_pred_no keyuse);
      Some (set_ref o (bound_sj_equalities o .| b) (handled_sj_equalities o) (loose_scan_keyparts o) (max_loose_keypart o) (part1_conds_met o))
    else
      b ← bit 64 (sj_pred_no keyuse); k ← bit lw (keypart keyuse);
      Some (set_ref o (bound_sj_equalities o) (handled_sj_equalities o .| b) (loose_scan_keyparts o .| k)
              (if decide (max_loose_keypart o < keypart keyuse) then keypart keyuse else max_loose_keypart o) (part1_conds_met o))
  else Some o.

Definition have_a_case (o : Loose_scan_opt) : bool := bool_decide (handled_sj_equalities o ≠ 0).

(** The conditions (1) to (3) of [check_ref_access_part1]. *)
Definition can_use (o : Loose_scan_opt) (s : JOIN_TAB) (key found_part : Z) : option bool :=
  if try_loosescan o then
    nest ← emb_sj_nest s;
    all ← PREV_BITS 64 (sj_in_exprs nest);
    if decide (handled_sj_equalities o .| bound_sj_equalities o = all) then
      parts ← PREV_BITS lw (max_loose_keypart o + 1);
      Some (bool_decide (parts .& (found_part .| loose_scan_keyparts o) = parts) && negb (key_uses_partial_cols s key))
    else Some false
  else Some false.

Definition check_ref_access_part1 (o : Loose_scan_opt) (s : JOIN_TAB) (key : Z) (start_key : N) (found_part : Z) : option Loose_scan_opt :=
  ok ← can_use o s key found_part;
  if ok : bool then
    let o := match quick s with
             | Some q => if bool_decide (q_index q = key) && q_is_range q then set_quick o (max_loose_keypart o) else o
             | None => o
             end in
    let meet (o : Loose_scan_opt) := set_ref o (bound_sj_equalities o) (handled_sj_equalities o) (loose_scan_keyparts o) (max_loose_keypart o) true in
    let o := if decide (found_part .& 1 ≠ 0) then meet o else o in
    if bool_decide (found_part .& 1 = 0) && covering_keys s key then
      let o := meet o in
      let records := rows2double (stat_records s) in
      rows ← to_uint 64 records;
      let read_time := keyread_time s key rows in
      let rpc := rec_per_key s key (max_loose_keypart o) in
      let records := if decide (rpc ≠ 0) then div records (of_Z rpc) else records in
      Some (if ltb_d read_time (best_loose_scan_cost o)
            then set_best o key read_time records start_key (max_loose_keypart o) else o)
    else Some o
  else Some o.

Definition check_ref_access_part2 (o : Loose_scan_opt) (key : Z) (start_key : N) (records read_time : spec_float) : Loose_scan_opt :=
  if part1_conds_met o && ltb_d read_time (best_loose_scan_cost o)
  then set_best o key read_time records start_key (max_loose_keypart o) else o.

Definition check_range_access (o : Loose_scan_opt) (join : JOIN) (idx : Z) (q : QUICK_SELECT_I) : Loose_scan_opt :=
  if quick_uses_applicable_index o && bool_decide (idx = const_tables join) && ltb_d (q_read_time q) (best_loose_scan_cost o)
  then set_best o (q_index q) (q_read_time q) (rows2double (q_records q)) 0 (quick_max_loose_keypart o) else o.

Definition save_to_position (o : Loose_scan_opt) (tab : N) (pos : POSITION) : POSITION :=
  if eqb_d (best_loose_scan_cost o) DBL_MAX
  then Pos (best_loose_scan_cost o) (records_read pos) (pos_key pos) (cond_selectivity pos) (loosescan_key pos) (loosescan_parts pos)
         (use_join_buffer pos) (pos_table pos)
  else Pos (best_loose_scan_cost o) (best_loose_scan_records o) (best_loose_scan_start_key o) (of_Z 1) (best_loose_scan_key o)
         (u32 (best_max_loose_keypart o + 1)) false tab.

(** ** Histories *)

Inductive op :=
| NextRef
| Use (remaining_tables : Z) (keyuse : KEYUSE)
| Part1 (key : Z) (start_key : N) (found_part : Z)
| Part2 (key : Z) (start_key : N) (records read_time : spec_float)
| Range (idx : Z) (q : QUICK_SELECT_I).
Definition exec (join : JOIN) (s : JOIN_TAB) (o : Loose_scan_opt) (x : op) : option Loose_scan_opt :=
  match x with
  | NextRef => Some (next_ref_key o)
  | Use r k => add_keyuse o r k
  | Part1 key st f => check_ref_access_part1 o s key st f
  | Part2 key st r t => Some (check_ref_access_part2 o key st r t)
  | Range idx q => Some (check_range_access o join idx q)
  end.
Fixpoint exec_all (join : JOIN) (s : JOIN_TAB) (o : Loose_scan_opt) (xs : list op) : option Loose_scan_opt :=
  match xs with [] => Some o | x :: xs => o ← exec join s o x; exec_all join s o xs end.

(** ** The specification *)

(** An access method that was offered. *)
Record cand := Cand { c_key : Z; c_cost : spec_float; c_records : spec_float; c_start : N; c_parts : Z }.
(** The equalities bound, and for the reference under consideration the equalities
    handled, the key parts and whether it can be used, if there is one; the key parts
    of the quick select, if it can be used; the methods offered, oldest first. *)
Record view := View {
  trying : bool; v_bound : list Z; v_ref : option (list Z * list Z * bool); v_quick : option Z; offers : list cand }.

Definition max_part (ps : list Z) : Z := foldr Z.max 0 ps.
(** Each equality is bound or handled, and each key part up to the last one of an
    equality is that of an equality or found. *)
Definition admissible (v : view) (n : Z) (handled parts : list Z) (found_part : Z) : Prop :=
  (∀ e, e ∈ handled ∨ e ∈ v_bound v ↔ 0 ≤ e < n) ∧ ∀ p, 0 ≤ p ≤ max_part parts → Z.testbit found_part p = true ∨ p ∈ parts.

Inductive step (join : JOIN) (s : JOIN_TAB) (v : view) : op → view → Prop :=
| step_next : step join s v NextRef (View (trying v) (v_bound v) (Some ([], [], false)) (v_quick v) (offers v))
| step_ignored r k (Hi : trying v = false ∨ sj_pred_no k = UINT_MAX ∨ read_order k = false) : step join s v (Use r k) v
| step_bound r k (Ht : trying v = true) (Hp : sj_pred_no k ≠ UINT_MAX) (Ho : read_order k = true)
    (Hr : r .& used_tables k = 0) (Hb : 0 ≤ sj_pred_no k < 64) :
    step join s v (Use r k) (View true (sj_pred_no k :: v_bound v) (v_ref v) (v_quick v) (offers v))
| step_handled r k h p m (Ht : trying v = true) (Hp : sj_pred_no k ≠ UINT_MAX) (Ho : read_order k = true)
    (Hr : r .& used_tables k ≠ 0) (Hb : 0 ≤ sj_pred_no k < 64) (Hk : 0 ≤ keypart k < lw) (Ev : v_ref v = Some (h, p, m)) :
    step join s v (Use r k) (View true (v_bound v) (Some (sj_pred_no k :: h, keypart k :: p, m)) (v_quick v) (offers v))
| step_refused key st f h p m (Ev : v_ref v = Some (h, p, m)) (Lw : max_part p + 1 < lw)
    (Na : ¬ (trying v = true ∧ (∀ nest, emb_sj_nest s = Some nest → admissible v (sj_in_exprs nest) h p f) ∧ key_uses_partial_cols s key = false)) :
    step join s v (Part1 key st f) v
| step_part1 key st f h p m nest rows (Ev : v_ref v = Some (h, p, m)) (Lw : max_part p + 1 < lw) (Ht : trying v = true)
    (En : emb_sj_nest s = Some nest) (Ad : admissible v (sj_in_exprs nest) h p f) (Pc : key_uses_partial_cols s key = false)
    (Tr : to_uint 64 (rows2double (stat_records s)) = Some rows) :
    let full := negb (Z.testbit f 0) && covering_keys s key in
    let records := rows2double (stat_records s) in
    let rpc := rec_per_key s key (max_part p) in
    step join s v (Part1 key st f)
      (View true (v_bound v) (Some (h, p, m || Z.testbit f 0 || full))
        (match quick s with Some q => if bool_decide (q_index q = key) && q_is_range q then Some (max_part p) else v_quick v | None => v_quick v end)
        (offers v ++ if full then [Cand key (keyread_time s key rows) (if decide (rpc ≠ 0) then div records (of_Z rpc) else records) st (max_part p)] else []))
| step_part2 key st r t h p m (Ev : v_ref v = Some (h, p, m)) :
    step join s v (Part2 key st r t) (View (trying v) (v_bound v) (v_ref v) (v_quick v) (offers v ++ if m : bool then [Cand key t r st (max_part p)] else []))
| step_range idx q :
    step join s v (Range idx q) (View (trying v) (v_bound v) (v_ref v) (v_quick v)
      (offers v ++ match v_quick v with
                   | Some m => if decide (idx = const_tables join) then [Cand (q_index q) (q_read_time q) (rows2double (q_records q)) 0 m] else []
                   | None => [] end)).

Inductive steps (join : JOIN) (s : JOIN_TAB) : view → list op → view → Prop :=
| steps_nil v : steps join s v [] v
| steps_cons v v1 v2 x xs : step join s v x v1 → steps join s v1 xs v2 → steps join s v (x :: xs) v2.

(** ** Maps and lists *)

Definition bits_are (X : Z) (l : list Z) : Prop := ∀ t, Z.testbit X t = true ↔ t ∈ l.
Definition bits_of (X : Z) : list Z := filter (λ t, Z.testbit X t = true) (seqZ 0 64).

Lemma bits_of_are X : in_u 64 X → bits_are X (bits_of X).
Proof.
  intros B t. unfold bits_of. rewrite list_elem_of_filter, elem_of_seqZ. split; [|by intros []].
  intros Ht. split; [done|]. destruct (Z.neg_nonneg_cases t); [by rewrite Z.testbit_neg_r in Ht|].
  destruct (Z.lt_ge_cases t 64); [lia|]. assert (W : 0 ≤ 64) by lia. by rewrite (in_u_testbit_high 64 W X t) in Ht.
Qed.

Lemma bit_spec w i : 0 ≤ i < w → bit w i = Some (2 ^ i).
Proof.
  intros B. unfold bit. rewrite decide_True by done. rewrite Z.shiftl_1_l. f_equal. apply wrapu_small.
  split; [apply Z.pow_nonneg; lia|apply Z.pow_lt_mono_r; lia].
Qed.

Lemma bits_add X l i : bits_are X l → 0 ≤ i → bits_are (X .| 2 ^ i) (i :: l).
Proof.
  intros B Hi t. rewrite Z.lor_spec, orb_true_iff, Z.pow2_bits_eqb, Z.eqb_eq, elem_of_cons by done. rewrite (B t).
  split; (intros [?|?]; [by auto|by left + right]) || (intros [->|?]; auto).
Qed.

Lemma prev_bits_spec w A : 0 ≤ A < w → ∃ X, PREV_BITS w A = Some X ∧ ∀ t, Z.testbit X t = true ↔ 0 ≤ t < A.
Proof.
  intros B. unfold PREV_BITS. rewrite decide_True by done. eexists. split; [done|]. intros t.
  assert (P : 0 < 2 ^ A < 2 ^ w) by (split; [apply Z.pow_pos_nonneg; lia|apply Z.pow_lt_mono_r; lia]).
  rewrite Z.shiftl_1_l. rewrite wrapu_small by (unfold in_u; lia).
  replace (2 ^ A - 1) with (Z.ones A) by (rewrite Z.ones_equiv; lia).
  rewrite Z.testbit_ones by lia. rewrite andb_true_iff, Z.leb_le, Z.ltb_lt. done.
Qed.

Lemma eq_bits X Y : (∀ t, Z.testbit X t = true ↔ Z.testbit Y t = true) ↔ X = Y.
Proof.
  split; [|by intros ->]. intros B. apply Z.bits_inj'. intros t _. apply eq_true_iff_eq. apply B.
Qed.

(** ** The cheapest method *)

Definition cost_of (b : option cand) : spec_float := match b with Some c => c_cost c | None => DBL_MAX end.
Definition pick (b : option cand) (c : cand) : option cand := if ltb_d (c_cost c) (cost_of b) then Some c else b.
Definition best_of (l : list cand) : option cand := foldl pick None l.

Lemma best_of_snoc l c : best_of (l ++ [c]) = pick (best_of l) c.
Proof. unfold best_of. by rewrite foldl_app. Qed.

Lemma best_of_spec l : Forall (λ c, is_num (c_cost c) = true) l →
  match best_of l with
  | Some c => code (c_cost c) < code DBL_MAX ∧
      ∃ l1 l2, l = l1 ++ c :: l2 ∧ (∀ d, d ∈ l1 → code (c_cost c) < code (c_cost d)) ∧ ∀ d, d ∈ l2 → code (c_cost c) ≤ code (c_cost d)
  | None => ∀ d, d ∈ l → code DBL_MAX ≤ code (c_cost d)
  end.
Proof.
  induction l as [|c l IH] using rev_ind; intros F; [intros d I; by apply not_elem_of_nil in I|].
  apply Forall_app in F as [F [Nc _]%Forall_cons]. specialize (IH F). rewrite best_of_snoc. unfold pick.
  assert (Nb : is_num (cost_of (best_of l)) = true).
  { destruct (best_of l) as [b|]; [|done]. destruct IH as (_ & l1 & l2 & -> & _).
    apply Forall_app in F as [_ [? _]%Forall_cons]. done. }
  rewrite ltb_code by done. destruct (best_of l) as [b|]; simpl in *; case_bool_decide as K.
  - destruct IH as (M & l1 & l2 & -> & B1 & B2). split; [lia|]. exists (l1 ++ b :: l2), []. split_and!; [done| |set_solver].
    intros d [I|[->|I]%elem_of_cons]%elem_of_app; [specialize (B1 d I)|..|specialize (B2 d I)]; lia.
  - destruct IH as (M & l1 & l2 & -> & B1 & B2). split; [done|]. exists l1, (l2 ++ [c]). split_and!; [by rewrite <- app_assoc|done|].
    intros d [I| ->%list_elem_of_singleton]%elem_of_app; [by apply B2|lia].
  - split; [done|]. exists l, []. split_and!; [done| |set_solver]. intros d I. specialize (IH d I). lia.
  - intros d [I| ->%list_elem_of_singleton]%elem_of_app; [by apply IH|lia].
Qed.

(** ** Refinement *)

Record represents (s : JOIN_TAB) (o : Loose_scan_opt) (v : view) : Prop := {
  r_try : try_loosescan o = trying v;
  r_nest : trying v = true → ∃ nest, emb_sj_nest s = Some nest ∧ 0 ≤ sj_in_exprs nest < 64;
  r_bound : trying v = true → bits_are (bound_sj_equalities o) (v_bound v);
  r_ref h p m : v_ref v = Some (h, p, m) →
    bits_are (handled_sj_equalities o) h ∧ bits_are (loose_scan_keyparts o) p ∧ max_loose_keypart o = max_part p ∧
    0 ≤ max_part p ∧ part1_conds_met o = m;
  r_quick : match v_quick v with
            | Some m => quick_uses_applicable_index o = true ∧ quick_max_loose_keypart o = m
            | None => quick_uses_applicable_index o = false
            end;
  r_cost : best_loose_scan_cost o = cost_of (best_of (offers v));
  r_best c : best_of (offers v) = Some c →
    best_loose_scan_key o = c_key c ∧ best_loose_scan_records o = c_records c ∧ best_loose_scan_start_key o = c_start c ∧
    best_max_loose_keypart o = c_parts c
}.

Lemma max_part_nonneg p : 0 ≤ max_part p.
Proof. induction p; simpl; lia. Qed.

(** Offering a method. *)
Definition offer (o : Loose_scan_opt) (c : cand) : Loose_scan_opt :=
  if ltb_d (c_cost c) (best_loose_scan_cost o) then set_best o (c_key c) (c_cost c) (c_records c) (c_start c) (c_parts c) else o.

Lemma offer_spec s o v c : represents s o v →
  represents s (offer o c) (View (trying v) (v_bound v) (v_ref v) (v_quick v) (offers v ++ [c])).
Proof.
  intros [RT RN RB RR RQ RC RE]. unfold offer. rewrite RC.
  assert (B : best_of (offers v ++ [c]) = if ltb_d (c_cost c) (cost_of (best_of (offers v))) then Some c else best_of (offers v)).
  { rewrite best_of_snoc. done. }
  destruct (ltb_d _ _) eqn:L; split; simpl; rewrite ?B; try done. by intros d [= <-].
Qed.

Lemma can_use_spec s o v key f h p m : represents s o v → v_ref v = Some (h, p, m) → max_part p + 1 < lw →
  ∃ b, can_use o s key f = Some b ∧
    (b = true ↔ trying v = true ∧ (∀ nest, emb_sj_nest s = Some nest → admissible v (sj_in_exprs nest) h p f) ∧ key_uses_partial_cols s key = false).
Proof.
  intros [RT RN RB RR _ _ _] Ev Lw. destruct (RR h p m Ev) as (RH & RP & RM & Rm & _). clear RR.
  unfold can_use. rewrite RT. destruct (trying v); [|exists false; split; [done|]; split; [done|by intros []]].
  destruct RN as (nest & En & Bn); [done|]. specialize (RB eq_refl). rewrite En. simpl.
  destruct (prev_bits_spec 64 (sj_in_exprs nest) Bn) as (X & -> & HX). simpl.
  assert (EqX : handled_sj_equalities o .| bound_sj_equalities o = X ↔ ∀ e, e ∈ h ∨ e ∈ v_bound v ↔ 0 ≤ e < sj_in_exprs nest).
  { rewrite <- eq_bits. apply forall_proper. intros e. rewrite Z.lor_spec, orb_true_iff, HX. by rewrite (RH e), (RB e). }
  case_decide as D.
  - destruct (prev_bits_spec lw (max_loose_keypart o + 1)) as (Y & -> & HY); [rewrite RM; lia|]. simpl. eexists. split; [done|].
    assert (EqY : Y .& (f .| loose_scan_keyparts o) = Y ↔ ∀ q, 0 ≤ q ≤ max_part p → Z.testbit f q = true ∨ q ∈ p).
    { rewrite <- eq_bits. split.
      - intros K q Bq. rewrite <- (RP q), <- orb_true_iff, <- Z.lor_spec. specialize (K q). rewrite Z.land_spec, andb_true_iff in K.
        apply K. apply HY. lia.
      - intros K q. rewrite Z.land_spec, andb_true_iff, Z.lor_spec, orb_true_iff, (RP q), HY. split; [by intros []|].
        intros B. split; [done|]. apply K. lia. }
    rewrite andb_true_iff, negb_true_iff, bool_decide_eq_true, EqY. pose proof (proj1 EqX D) as D'. split.
    + intros [K ->]. split; [done|]. split; [|done]. intros n' [= <-]. by split.
    + intros (_ & K & ->). split; [|done]. by apply (K nest eq_refl).
  - exists false. split; [done|]. split; [done|]. intros (_ & K & _). exfalso. apply D, (proj2 EqX). by apply (K nest eq_refl).
Qed.

Lemma odd_bit f : f .& 1 = 0 ↔ Z.testbit f 0 = false.
Proof.
  change 1 with (Z.ones 1). rewrite Z.land_ones by lia. rewrite Z.bit0_odd. change (2 ^ 1) with 2. rewrite Zmod_odd.
  by destruct (Z.odd f).
Qed.

Lemma ref_spec s o v b h p m h' k' p' : represents s o v → v_ref v = Some (h, p, m) → (trying v = true → bits_are b (v_bound v)) →
  bits_are h' h → bits_are k' p → p' = max_part p → ∀ m', represents s (set_ref o b h' k' p' m') (View (trying v) (v_bound v) (Some (h, p, m')) (v_quick v) (offers v)).
Proof.
  intros [RT RN RB RR RQ RC RE] Ev Hb Hh Hk Hp m'. split; simpl; try done.
  intros ? ? ? [= <- <- <-]. split_and!; [done..|apply max_part_nonneg|done].
Qed.

(** Marking the reference as usable. *)
Definition meet (o : Loose_scan_opt) : Loose_scan_opt :=
  set_ref o (bound_sj_equalities o) (handled_sj_equalities o) (loose_scan_keyparts o) (max_loose_keypart o) true.

Lemma meet_spec s o v h p m : represents s o v → v_ref v = Some (h, p, m) →
  represents s (meet o) (View (trying v) (v_bound v) (Some (h, p, true)) (v_quick v) (offers v)).
Proof.
  intros R Ev. destruct (r_ref _ _ _ R h p m Ev) as (RH & RP & RM & _ & _).
  apply (ref_spec s o v _ h p m); [done..|apply (r_bound _ _ _ R)|done|done|done].
Qed.

Lemma quick_spec s o v h p m key : represents s o v → v_ref v = Some (h, p, m) →
  represents s (match quick s with
                | Some q => if bool_decide (q_index q = key) && q_is_range q then set_quick o (max_loose_keypart o) else o
                | None => o end)
    (View (trying v) (v_bound v) (v_ref v)
      (match quick s with Some q => if bool_decide (q_index q = key) && q_is_range q then Some (max_part p) else v_quick v | None => v_quick v end)
      (offers v)).
Proof.
  intros R Ev. destruct (r_ref _ _ _ R h p m Ev) as (_ & _ & RM & _ & _). destruct R as [RT RN RB RR RQ RC RE].
  destruct (quick s) as [q|]; [destruct (_ && _)|]; split; simpl; done.
Qed.

Lemma part1_spec join s o v key st f v' : represents s o v → step join s v (Part1 key st f) v' →
  ∃ o', check_ref_access_part1 o s key st f = Some o' ∧ represents s o' v'.
Proof.
  intros R S. unfold check_ref_access_part1. inversion S; subst; clear S.
  - destruct (can_use_spec s o v' key f h p m R) as (b & -> & B); [done..|]. simpl.
    destruct b; [exfalso; by apply Na, B|]. by exists o.
  - destruct (can_use_spec s o v key f h p m R) as (b & -> & B); [done..|]. simpl.
    assert (b = true) as ->.
    { apply B. split; [done|]. split; [|done]. intros n' En'. rewrite En in En'. by injection En' as <-. }
    pose proof (quick_spec s o v h p m key R Ev) as R1. set (o1 := match quick s with Some _ => _ | None => _ end) in *.
    set (q' := match quick s with Some _ => _ | None => v_quick v end) in *.
    rewrite Ht in *. fold (meet o1).
    assert (OB : bool_decide (f .& 1 = 0) = negb (Z.testbit f 0)).
    { apply eq_true_iff_eq. rewrite bool_decide_eq_true, odd_bit, negb_true_iff. done. }
    assert (R2 : represents s (if decide (f .& 1 ≠ 0) then meet o1 else o1)
              (View true (v_bound v) (Some (h, p, m || Z.testbit f 0)) q' (offers v))).
    { pose proof (odd_bit f) as OD. destruct (decide (f .& 1 ≠ 0)) as [D|D].
      - assert (Z.testbit f 0 = true) as -> by (apply not_false_iff_true; intros K; exact (D (proj2 OD K))). rewrite orb_true_r.
        by apply (meet_spec s o1 _ h p m R1).
      - assert (Z.testbit f 0 = false) as -> by (apply (proj1 OD); by destruct (decide (f .& 1 = 0))). rewrite orb_false_r.
        rewrite Ev in R1. exact R1. }
    set (o2 := if decide (f .& 1 ≠ 0) then meet o1 else o1) in *. fold (meet o2). rewrite OB.
    destruct (negb (Z.testbit f 0) && covering_keys s key).
    + rewrite Tr. simpl. eexists. split; [done|]. rewrite orb_true_r.
      pose proof (meet_spec s o2 _ h p _ R2 eq_refl) as R3. simpl in R3.
      destruct (r_ref _ _ _ R3 _ _ _ eq_refl) as (_ & _ & RM & _ & _).
      change (max_loose_keypart o2) with (max_loose_keypart (meet o2)). rewrite RM.
      apply (offer_spec s (meet o2) _ (Cand key _ _ st _) R3).
    + eexists. split; [done|]. by rewrite orb_false_r, app_nil_r.
Qed.

Lemma opt_exec_spec join s o v x v' : represents s o v → step join s v x v' →
  ∃ o', exec join s o x = Some o' ∧ represents s o' v'.
Proof.
  intros R S. pose proof S as S0. destruct S.
  - eexists. split; [done|]. destruct R as [RT RN RB RR RQ RC RE]. split; simpl; try done.
    intros ? ? ? [= <- <- <-]. split_and!; try done; intros t; rewrite Z.bits_0; split; [done|by intros ?%not_elem_of_nil|done|by intros ?%not_elem_of_nil].
  - exists o. split; [|done]. simpl. unfold add_keyuse. rewrite (r_try _ _ _ R).
    destruct Hi as [->|[->| ->]]; simpl; [done| |by rewrite andb_false_r]. by rewrite andb_false_r.
  - simpl. unfold add_keyuse. rewrite (r_try _ _ _ R), Ht, Ho, bool_decide_eq_true_2 by done. simpl. rewrite decide_True by done.
    rewrite bit_spec by done. simpl. eexists. split; [done|]. destruct R as [RT RN RB RR RQ RC RE].
    split; simpl; try done. by rewrite Ht in RT. intros _. by apply RN. intros _. apply bits_add; [by apply RB|lia].
  - simpl. unfold add_keyuse. rewrite (r_try _ _ _ R), Ht, Ho, bool_decide_eq_true_2 by done. simpl. rewrite decide_False by done.
    rewrite bit_spec by done. simpl. rewrite bit_spec by done. simpl. eexists. split; [done|].
    destruct (r_ref _ _ _ R h p m Ev) as (RH & RP & RM & Rm & Rc). destruct R as [RT RN RB RR RQ RC RE].
    split; simpl; try done. by rewrite Ht in RT. intros _. by apply RN. intros _. by apply RB.
    intros ? ? ? [= <- <- <-]. split_and!; [by apply bits_add; [|lia]|by apply bits_add; [|lia]| |simpl; lia|done].
    rewrite RM. simpl. case_decide; lia.
  - by apply (part1_spec join s o v).
  - by apply (part1_spec join s o v).
  - eexists. split; [done|]. unfold check_ref_access_part2. destruct (r_ref _ _ _ R h p m Ev) as (_ & _ & RM & _ & RC).
    rewrite RC, RM. destruct m; simpl; [exact (offer_spec s o v (Cand key t r st (max_part p)) R)|].
    rewrite app_nil_r. by destruct v.
  - eexists. split; [done|]. unfold check_range_access. pose proof (r_quick _ _ _ R) as RQ. destruct (v_quick v) as [m|] eqn:Eq.
    + destruct RQ as [-> ->]. simpl. destruct (decide (idx = const_tables join)) as [E|E].
      * rewrite bool_decide_eq_true_2 by done. simpl. rewrite <- Eq.
        exact (offer_spec s o v (Cand (q_index q) (q_read_time q) (rows2double (q_records q)) 0 m) R).
      * rewrite bool_decide_eq_false_2 by done. simpl. rewrite app_nil_r, <- Eq. by destruct v.
    + rewrite RQ. simpl. rewrite app_nil_r, <- Eq. by destruct v.
Qed.

Lemma exec_all_spec join s o v xs v' : represents s o v → steps join s v xs v' →
  ∃ o', exec_all join s o xs = Some o' ∧ represents s o' v'.
Proof.
  intros R S. revert o R. induction S as [v|v v1 v2 x xs S1 _ IH]; intros o R; simpl; [by exists o|].
  destruct (opt_exec_spec join s o v x v1 R S1) as (o1 & -> & R1). simpl. by apply IH.
Qed.

(** The view after [init]. *)
Definition start (join : JOIN) (s : JOIN_TAB) (remaining_tables : Z) : view :=
  match emb_sj_nest s with
  | Some nest => if is_candidate join s remaining_tables
                 then View true (bits_of (get_bound_sj_equalities nest remaining_tables)) None None [] else View false [] None None []
  | None => View false [] None None []
  end.

Lemma init_spec g join s remaining_tables :
  (∀ nest, emb_sj_nest s = Some nest → 0 ≤ sj_in_exprs nest ∧ in_u 64 (get_bound_sj_equalities nest remaining_tables)) →
  represents s (init (new_Loose_scan_opt g) join s remaining_tables) (start join s remaining_tables).
Proof.
  intros Hn. unfold init, start. pose proof (λ n, Hn n) as _. unfold is_candidate.
  destruct (emb_sj_nest s) as [nest|] eqn:En; [|by split]. destruct (Hn nest eq_refl) as [Bn Bb].
  destruct (_ && _) eqn:C; [|by split]. split; simpl; try done.
  - intros _. exists nest. split; [done|]. apply andb_true_iff in C as [_ C].
    do 5 apply andb_true_iff in C as [C _]. apply bool_decide_eq_true in C. lia.
  - intros _. by apply bits_of_are.
Qed.
End opt.

(** ** Theorems *)

Lemma some_bit z : z ≠ 0 → ∃ t, Z.testbit z t = true.
Proof.
  intros N. destruct (Z.lt_ge_cases z 0).
  - exists (Z.log2 (Z.pred (- z)) + 1). apply Z.bits_above_log2_neg; lia.
  - exists (Z.log2 z). apply Z.bit_log2. lia.
Qed.

Lemma has_common_bit x y : x .& y ≠ 0 ↔ ∃ t, Z.testbit x t = true ∧ Z.testbit y t = true.
Proof.
  split.
  - intros [t B]%some_bit. exists t. by rewrite Z.land_spec, andb_true_iff in B.
  - intros (t & B1 & B2) K. apply (f_equal (λ z, Z.testbit z t)) in K. by rewrite Z.land_spec, B1, B2, Z.bits_0 in K.
Qed.

(** A table is a candidate exactly when the conditions (1) to (5) of the comment
    hold: its semi-join has not begun and all its tables remain, its correlated
    tables have been read, and some table an equality depends on has not. *)
Theorem candidate_conditions join s remaining_tables :
  is_candidate join s remaining_tables = true ↔
  emb_sjm_nest join = false ∧ loose_scan join = true ∧ cur_sj_inner_tables join = 0 ∧
  ∃ nest, emb_sj_nest s = Some nest ∧ sj_in_exprs nest < 64 ∧
    (∀ t, Z.testbit (sj_inner_tables nest) t = true → Z.testbit remaining_tables t = true) ∧
    (∀ t, ¬ (Z.testbit remaining_tables t = true ∧ Z.testbit (sj_corr_tables nest) t = true)) ∧
    ∃ t, Z.testbit remaining_tables t = true ∧ Z.testbit (sj_depends_on nest) t = true.
Proof.
  assert (Disj : ∀ x y, x .& y = 0 ↔ ∀ t, ¬ (Z.testbit x t = true ∧ Z.testbit y t = true)).
  { intros x y. rewrite <- eq_bits. apply forall_proper. intros t. rewrite Z.land_spec, andb_true_iff, Z.bits_0. naive_solver. }
  assert (Sub : ∀ x y, x .& y = y ↔ ∀ t, Z.testbit y t = true → Z.testbit x t = true).
  { intros x y. rewrite <- eq_bits. apply forall_proper. intros t. rewrite Z.land_spec, andb_true_iff. naive_solver. }
  unfold is_candidate. rewrite andb_true_iff, negb_true_iff. destruct (emb_sj_nest s) as [nest|]; [|naive_solver].
  rewrite !andb_true_iff, negb_true_iff, bool_decide_eq_false, !bool_decide_eq_true, Sub.
  rewrite (has_common_bit remaining_tables (sj_depends_on nest)).
  assert (¬ (remaining_tables .& sj_corr_tables nest ≠ 0) ↔ remaining_tables .& sj_corr_tables nest = 0) as -> by lia.
  rewrite Disj. naive_solver.
Qed.

(** [C6] Whatever the order in which references and ranges are offered, the plan that is
    saved is the first of the cheapest methods that could be used, with its key, its
    records and its key parts; without one the position only gets the greatest cost. *)
Theorem loose_scan_picks_cheapest lw get_bound g join s remaining_tables xs v tab pos :
  (∀ nest, emb_sj_nest s = Some nest → 0 ≤ sj_in_exprs nest ∧ in_u 64 (get_bound nest remaining_tables)) →
  steps lw join s (start get_bound join s remaining_tables) xs v → Forall (λ c, is_num (c_cost c) = true) (offers v) →
  ∃ o, exec_all lw join s (init get_bound (new_Loose_scan_opt g) join s remaining_tables) xs = Some o ∧
  ((∃ c l1 l2, offers v = l1 ++ c :: l2 ∧ (∀ d, d ∈ l1 → code (c_cost c) < code (c_cost d)) ∧
      (∀ d, d ∈ l2 → code (c_cost c) ≤ code (c_cost d)) ∧ code (c_cost c) < code DBL_MAX ∧
      save_to_position o tab pos = Pos (c_cost c) (c_records c) (c_start c) (of_Z 1) (c_key c) (u32 (c_parts c + 1)) false tab) ∨
   ((∀ d, d ∈ offers v → code DBL_MAX ≤ code (c_cost d)) ∧
      save_to_position o tab pos = Pos DBL_MAX (records_read pos) (pos_key pos) (cond_selectivity pos) (loosescan_key pos)
        (loosescan_parts pos) (use_join_buffer pos) (pos_table pos))).
Proof.
  intros Hn S F. destruct (exec_all_spec lw join s _ _ xs v (init_spec get_bound g join s remaining_tables Hn) S) as (o & E & R).
  exists o. split; [done|]. pose proof (best_of_spec (offers v) F) as B. unfold save_to_position. rewrite (r_cost _ _ _ R).
  destruct (best_of (offers v)) as [c|] eqn:Eb; simpl.
  - left. destruct B as (M & l1 & l2 & Eo & B1 & B2). exists c, l1, l2. split_and!; [done..|].
    assert (is_num (c_cost c) = true) by (rewrite Eo in F; apply Forall_app in F as [_ [? _]%Forall_cons]; done).
    rewrite eqb_code, bool_decide_eq_false_2 by (done || lia).
    destruct (r_best _ _ _ R c Eb) as (-> & -> & -> & ->). done.
  - right. split; [done|]. done.
Qed.

(** ** Witnesses *)

Definition demo_nest : sj_nest := Nest 2 6 0 8.
Definition demo_tab : JOIN_TAB :=
  Tab (Some demo_nest) (Some (Quick 1 true (of_Z 9) 40)) (λ k, bool_decide (k = 1)) (λ _, false) 100 (λ _ _, of_Z 30) (λ _ _, 4).
Definition demo_join : JOIN := Join false 0 true 0.
Definition demo_bound (n : sj_nest) (r : Z) : Z := 1.
Definition demo_garbage : Loose_scan_opt := Opt true 7 7 7 7 true true 7 7 (of_Z 1) (of_Z 1) 7 7.
Definition demo_pos : POSITION := Pos (of_Z 1) (of_Z 1) 1 (of_Z 1) 1 1 true 1.
(** Two references on keys 1 and 2, each on equality 1, and a range. *)
Definition demo_history : list op :=
  [NextRef; Use 14 (Keyuse 1 true 8 0); Part1 1 5 0; Part2 1 5 (of_Z 20) (of_Z 12);
   NextRef; Use 14 (Keyuse 1 true 8 1); Part1 2 6 1; Part2 2 6 (of_Z 10) (of_Z 12); Range 0 (Quick 1 true (of_Z 15) 40)].
Definition demo_offers : list cand :=
  [Cand 1 (of_Z 30) (of_Z 25) 5 0; Cand 1 (of_Z 12) (of_Z 20) 5 0; Cand 2 (of_Z 12) (of_Z 10) 6 1; Cand 1 (of_Z 15) (of_Z 40) 0 0].

Lemma candidate_conditions_example : is_candidate demo_join demo_tab 14 = true ∧ is_candidate demo_join demo_tab 6 = false.
Proof. done. Qed.

Lemma demo_part1_admissible b h p f : (∀ e, e ∈ h ∨ e ∈ b ↔ e = 0 ∨ e = 1) →
  (∀ q, 0 ≤ q ≤ max_part p → Z.testbit f q = true ∨ q ∈ p) → ∀ t r q l, admissible (View t b r q l) 2 h p f.
Proof. intros E P t r q l. split; [|done]. intros e. simpl. rewrite E. lia. Qed.

Lemma demo_steps : ∃ v, steps 64 demo_join demo_tab (start demo_bound demo_join demo_tab 14) demo_history v ∧ offers v = demo_offers.
Proof.
  assert (S0 : start demo_bound demo_join demo_tab 14 = View true [0] None None []) by (vm_compute; reflexivity).
  rewrite S0. unfold demo_history. eexists. split.
  - eapply steps_cons; [apply step_next|]. simpl.
    eapply steps_cons; [by eapply step_handled; try done; vm_compute; try lia; try done|]. simpl.
    eapply steps_cons.
    { eapply (step_part1 _ _ _ _ 1 5 0 _ _ _ demo_nest 100); [done|simpl; lia|done|done| |done|vm_compute; reflexivity].
      apply demo_part1_admissible; [set_solver|]. intros q Bq. simpl in Bq. right. assert (q = 0) as -> by lia. set_solver. }
    eapply steps_cons; [by eapply step_part2|].
    eapply steps_cons; [apply step_next|]. simpl.
    eapply steps_cons; [by eapply step_handled; try done; vm_compute; try lia; try done|]. simpl.
    eapply steps_cons.
    { eapply (step_part1 _ _ _ _ 2 6 1 _ _ _ demo_nest 100); [done|simpl; lia|done|done| |done|vm_compute; reflexivity].
      apply demo_part1_admissible; [set_solver|]. intros q Bq. simpl in Bq.
      assert (q = 0 ∨ q = 1) as [->| ->] by lia; [by left|right; set_solver]. }
    eapply steps_cons; [by eapply step_part2|].
    eapply steps_cons; [apply step_range|apply steps_nil].
  - vm_compute. reflexivity.
Qed.

Lemma loose_scan_picks_cheapest_witness :
  ∃ o, exec_all 64 demo_join demo_tab (init demo_bound (new_Loose_scan_opt demo_garbage) demo_join demo_tab 14) demo_history = Some o ∧
  save_to_position o 9 demo_pos = Pos (of_Z 12) (of_Z 20) 5 (of_Z 1) 1 1 false 9.
Proof.
  destruct demo_steps as (v & S & Ev).
  destruct (loose_scan_picks_cheapest 64 demo_bound demo_garbage demo_join demo_tab 14 demo_history v 9 demo_pos) as (o & E & _).
  - intros nest [= <-]. split; [by vm_compute|]. unfold demo_bound. split; lia.
  - exact S.
  - rewrite Ev. unfold demo_offers. repeat (apply Forall_cons; split; [by vm_compute|]). apply Forall_nil. done.
  - exists o. split; [exact E|]. vm_compute in E. injection E as <-. vm_compute. reflexivity.
Defined.

End LooseScan.
