(* ===== verification/AckSockets.v ===== *)
(** * Sockets of the acknowledgment receiver

    The two classes of semisync_master_ack_receiver.h that watch the sockets of the
    semi-synchronous slaves, with poll and with select.  The slaves live in a store,
    since listening writes the index of its entry into each; the system calls are
    arguments. *)

From Stdlib Require Import ZArith Lia.
From stdpp Require Import base numbers option list gmap fin_sets.
From S2P Require Import Prelude.
Open Scope Z_scope.
Open Scope cint_scope.

Module AckSockets.

Record Slave := Sl { sock_fd : Z; m_fds_index : Z }.
Notation store := (gmap N Slave).

(** ** poll *)

Definition POLLIN : Z := 1.
Record pollfd := Pfd { fd : Z; events : Z; revents : Z }.

(** The loop of [init_slave_sockets]; the entries are pushed with the [revents] the
    stack held. *)
Fixpoint poll_init_loop (σ : store) (slaves : list N) (m_fds : list pollfd) (fds_index garbage : Z) : option (store * list pollfd * Z) :=
  match slaves with
  | [] => Some (σ, m_fds, fds_index)
  | i :: slaves =>
      s ← σ !! i;
      poll_init_loop (<[i := Sl (sock_fd s) fds_index]> σ) slaves (m_fds ++ [Pfd (sock_fd s) POLLIN garbage]) (u32 (fds_index + 1)) garbage
  end.
Definition poll_init_slave_sockets (σ : store) (slaves : list N) (garbage : Z) : option (store * list pollfd * Z) :=
  poll_init_loop σ slaves [] 0 garbage.
(** Indexing past the vector is undefined. *)
Definition entry (m_fds : list pollfd) (s : Slave) : option pollfd :=
  if decide (0 ≤ m_fds_index s) then m_fds !! Z.to_nat (m_fds_index s) else None.
Definition poll_is_socket_active (m_fds : list pollfd) (s : Slave) : option bool :=
  e ← entry m_fds s; Some (bool_decide (revents e .& POLLIN ≠ 0)).
Definition poll_clear_socket_info (m_fds : list pollfd) (s : Slave) : option (list pollfd) :=
  e ← entry m_fds s; Some (<[Z.to_nat (m_fds_index s) := Pfd (-1) 0 (revents e)]> m_fds).
Definition poll_listen_on_sockets (poll : list pollfd → list pollfd * Z) (m_fds : list pollfd) : list pollfd * bool :=
  let '(m_fds, r) := poll m_fds in (m_fds, bool_decide (r ≠ 0)).

(** ** select *)

Definition INVALID_SOCKET : Z := -1.
Record Select_socket_listener := Ssl { m_max_fd : Z; m_init_fds : gset Z; m_fds : gset Z }.

Section select.
Context (FD_SETSIZE : Z).

(** A set has the bits below [FD_SETSIZE]; other bits are outside of it. *)
Definition FD_SET (x : Z) (f : gset Z) : option (gset Z) := if decide (0 ≤ x < FD_SETSIZE) then Some (f ∪ {[x]}) else None.
Definition FD_CLR (x : Z) (f : gset Z) : option (gset Z) := if decide (0 ≤ x < FD_SETSIZE) then Some (f ∖ {[x]}) else None.
Definition FD_ISSET (x : Z) (f : gset Z) : option bool := if decide (0 ≤ x < FD_SETSIZE) then Some (bool_decide (x ∈ f)) else None.

Definition new_Select_socket_listener (g1 g2 : gset Z) : Select_socket_listener := Ssl INVALID_SOCKET g1 g2.
Fixpoint select_init_loop (σ : store) (slaves : list N) (l : Select_socket_listener) (fds_index : Z) : option (Select_socket_listener * Z) :=
  match slaves with
  | [] => Some (l, fds_index)
  | i :: slaves =>
      s ← σ !! i;
      let socket_id := sock_fd s in
      let l := Ssl (if decide (m_max_fd l < socket_id) then socket_id else m_max_fd l) (m_init_fds l) (m_fds l) in
      if decide (FD_SETSIZE < socket_id) then Some (l, 0) else
      f ← FD_SET socket_id (m_init_fds l);
      select_init_loop σ slaves (Ssl (m_max_fd l) f (m_fds l)) (u32 (fds_index + 1))
  end.
Definition select_init_slave_sockets (σ : store) (slaves : list N) (l : Select_socket_listener) : option (Select_socket_listener * Z) :=
  select_init_loop σ slaves (Ssl (m_max_fd l) ∅ (m_fds l)) 0.
(** [select] gets the number of bits and the set. *)
Definition select_listen_on_sockets (select : Z → gset Z → gset Z * Z) (l : Select_socket_listener) : Select_socket_listener * bool :=
  let '(f, r) := select (m_max_fd l + 1) (m_init_fds l) in (Ssl (m_max_fd l) (m_init_fds l) f, bool_decide (r ≠ 0)).
Definition select_is_socket_active (l : Select_socket_listener) (s : Slave) : option bool := FD_ISSET (sock_fd s) (m_fds l).
Definition select_clear_socket_info (l : Select_socket_listener) (s : Slave) : option Select_socket_listener :=
  f ← FD_CLR (sock_fd s) (m_init_fds l); Some (Ssl (m_max_fd l) f (m_fds l)).
Definition get_max_fd (l : Select_socket_listener) : Z := m_max_fd l.
End select.

(** ** poll: each slave has its entry *)

Definition sockets (σ : store) (slaves : list N) : list Z := omap (λ i, sock_fd <$> σ !! i) slaves.
Arguments sockets : simpl never.

Lemma sockets_cons (σ : store) i s slaves : σ !! i = Some s → sockets σ (i :: slaves) = sock_fd s :: sockets σ slaves.
Proof. intros E. unfold sockets. cbn [omap list_omap]. by rewrite E. Qed.

(** The slaves from [k] on have their entries in order. *)
Definition indexed (σ : store) (slaves : list N) (k : nat) : Prop :=
  ∀ n i, slaves !! n = Some i → ∃ s, σ !! i = Some s ∧ m_fds_index s = Z.of_nat (k + n).

Lemma poll_init_loop_spec slaves : ∀ σ m_fds garbage, NoDup slaves → Forall (λ i, is_Some (σ !! i)) slaves →
  Z.of_nat (length m_fds + length slaves) < 2 ^ 32 →
  ∃ σ', poll_init_loop σ slaves m_fds (Z.of_nat (length m_fds)) garbage =
      Some (σ', m_fds ++ ((λ x, Pfd x POLLIN garbage) <$> sockets σ slaves), Z.of_nat (length m_fds + length slaves)) ∧
    indexed σ' slaves (length m_fds) ∧ (∀ i, i ∉ slaves → σ' !! i = σ !! i) ∧
    ∀ i, sock_fd <$> σ' !! i = sock_fd <$> σ !! i.
Proof.
  induction slaves as [|i slaves IH]; intros σ m_fds garbage ND F Len; simpl.
  - exists σ. rewrite app_nil_r, Nat.add_0_r. by split_and!.
  - apply NoDup_cons in ND as [Ni ND]. apply Forall_cons in F as [[s Es] F]. rewrite Es. simpl. simpl in Len.
    set (σ1 := <[i := Sl (sock_fd s) (Z.of_nat (length m_fds))]> σ).
    assert (Fd : ∀ j, sock_fd <$> σ1 !! j = sock_fd <$> σ !! j).
    { intros j. unfold σ1. destruct (decide (j = i)) as [->|]; [by rewrite lookup_insert_eq, Es|by rewrite lookup_insert_ne]. }
    destruct (IH σ1 (m_fds ++ [Pfd (sock_fd s) POLLIN garbage]) garbage ND) as (σ' & E & I & O & D).
    { eapply Forall_impl; [exact F|]. intros j [x Ej]. specialize (Fd j). rewrite Ej in Fd. destruct (σ1 !! j); [by eexists|done]. }
    { rewrite length_app. simpl. lia. }
    rewrite length_app in E, I. simpl in E, I. unfold u32. rewrite Z.mod_small by lia.
    replace (Z.of_nat (length m_fds) + 1) with (Z.of_nat (length m_fds + 1)) by lia. rewrite E. exists σ'.
    assert (ES : sockets σ1 slaves = sockets σ slaves).
    { unfold sockets. clear -Fd. induction slaves as [|j l IHl]; csimpl; [done|]. rewrite Fd. destruct (sock_fd <$> σ !! j); by rewrite IHl. }
    split_and!.
    + rewrite <- app_assoc, (sockets_cons σ i s) by done. simpl. rewrite ES. do 2 f_equal. lia.
    + intros [|n] j Ej; simpl in Ej.
      * injection Ej as <-. rewrite (O i Ni). unfold σ1. rewrite lookup_insert_eq. eexists. split; [done|]. simpl. lia.
      * destruct (I n j Ej) as (x & Ex & Hx). exists x. split; [done|]. rewrite Hx. lia.
    + intros j Nj. rewrite O by set_solver. unfold σ1. apply lookup_insert_ne. set_solver.
    + intros j. by rewrite D, Fd.
Qed.

(** After the sockets are set up and polled, each slave is active exactly when poll
    reports input for the entry with its own socket; clearing one slave removes its
    socket from the next call and leaves the others. *)
Theorem poll_watches_each_slave poll σ slaves garbage
  (poll_keeps : ∀ l, (λ p, (fd p, events p)) <$> (poll l).1 = (λ p, (fd p, events p)) <$> l) :
  NoDup slaves → Forall (λ i, is_Some (σ !! i)) slaves → Z.of_nat (length slaves) < 2 ^ 32 →
  ∃ σ' fds, poll_init_slave_sockets σ slaves garbage = Some (σ', fds, Z.of_nat (length slaves)) ∧
    ∀ n i, slaves !! n = Some i → ∃ s e, σ' !! i = Some s ∧ (poll fds).1 !! n = Some e ∧ fd e = sock_fd s ∧ events e = POLLIN ∧
      poll_is_socket_active (poll_listen_on_sockets poll fds).1 s = Some (bool_decide (revents e .& POLLIN ≠ 0)) ∧
      ∃ fds', poll_clear_socket_info (poll fds).1 s = Some fds' ∧ fd <$> (fds' !! n) = Some (-1) ∧
        ∀ m, m ≠ n → fds' !! m = (poll fds).1 !! m.
Proof.
  intros ND F Len. destruct (poll_init_loop_spec slaves σ [] garbage ND F) as (σ' & E & I & _ & D); [simpl; lia|].
  simpl in E, I. unfold poll_init_slave_sockets. change 0 with (Z.of_nat 0) at 1. rewrite E. do 2 eexists. split; [done|]. set (fds := (λ x, _) <$> _).
  intros n i En. destruct (I n i En) as (s & Es & Hs). exists s.
  assert (Ef : fds !! n = Some (Pfd (sock_fd s) POLLIN garbage)).
  { unfold fds. rewrite list_lookup_fmap. assert (sockets σ slaves !! n = Some (sock_fd s)) as ->; [|done].
    assert (Hi : sock_fd <$> σ !! i = Some (sock_fd s)) by (rewrite <- D, Es; done). clear -F En Hi. revert n En.
    induction F as [|j l [x Ej] _ IH]; intros [|n] En; simpl in En; try done; rewrite (sockets_cons σ j x) by done; simpl.
    - injection En as ->. by rewrite Ej in Hi.
    - by apply IH. }
  pose proof (f_equal (.!! n) (poll_keeps fds)) as P. rewrite !list_lookup_fmap, Ef in P. simpl in P.
  destruct ((poll fds).1 !! n) as [e|] eqn:Ee; [|done]. simpl in P. injection P as P1 P2. exists e.
  assert (En' : entry (poll fds).1 s = Some e).
  { unfold entry. rewrite Hs, decide_True by lia. by rewrite Nat2Z.id. }
  split_and!; try done.
  - unfold poll_is_socket_active, poll_listen_on_sockets. destruct (poll fds) as [l r]. simpl in *. by rewrite En'.
  - unfold poll_clear_socket_info. rewrite En'. simpl. eexists. split; [done|]. rewrite Hs. simpl. rewrite Nat2Z.id.
    split; [rewrite list_lookup_insert_eq by (by eapply lookup_lt_Some); done|].
    intros m Nm. by apply list_lookup_insert_ne.
Qed.

(** ** select *)

Lemma select_init_loop_spec FD_SETSIZE σ slaves l k : Forall (λ i, ∃ s, σ !! i = Some s ∧ 0 ≤ sock_fd s < FD_SETSIZE) slaves →
  Z.of_nat (k + length slaves) < 2 ^ 32 →
  ∃ l', select_init_loop FD_SETSIZE σ slaves l (Z.of_nat k) = Some (l', Z.of_nat (k + length slaves)) ∧
    m_init_fds l' = m_init_fds l ∪ list_to_set (sockets σ slaves) ∧ m_max_fd l' = foldl Z.max (m_max_fd l) (sockets σ slaves).
Proof.
  intros F. revert l k. induction F as [|i slaves (s & Es & B) _ IH]; intros l k Len; simpl.
  - exists l. split_and!; [by rewrite Nat.add_0_r|set_solver|done].
  - rewrite Es. simpl. rewrite (decide_False (P := FD_SETSIZE < sock_fd s)) by lia. unfold FD_SET. rewrite (decide_True (P := 0 ≤ sock_fd s < FD_SETSIZE)) by lia. simpl. simpl in Len.
    unfold u32. rewrite Z.mod_small by lia. replace (Z.of_nat k + 1) with (Z.of_nat (S k)) by lia.
    destruct (IH (Ssl (if decide (m_max_fd l < sock_fd s) then sock_fd s else m_max_fd l) (m_init_fds l ∪ {[sock_fd s]}) (m_fds l)) (S k))
      as (l' & E & EF & EM); [lia|]. exists l'. rewrite E, (sockets_cons σ i s) by done. split_and!.
    + do 2 f_equal. lia.
    + rewrite EF. simpl. set_solver.
    + rewrite EM. simpl. f_equal. case_decide; lia.
Qed.

(** With sockets select can handle, each slave is active exactly when select leaves
    its socket in the set, and the greatest socket is within the range it looks at. *)
Theorem select_watches_each_slave FD_SETSIZE select σ slaves l : 0 ≤ FD_SETSIZE →
  Forall (λ i, ∃ s, σ !! i = Some s ∧ 0 ≤ sock_fd s < FD_SETSIZE) slaves → Z.of_nat (length slaves) < 2 ^ 32 →
  ∃ l', select_init_slave_sockets FD_SETSIZE σ slaves l = Some (l', Z.of_nat (length slaves)) ∧
    m_init_fds l' = list_to_set (sockets σ slaves) ∧
    ∀ i s, i ∈ slaves → σ !! i = Some s → sock_fd s < m_max_fd l' + 1 ∧ sock_fd s ∈ m_init_fds l' ∧
      select_is_socket_active FD_SETSIZE (select_listen_on_sockets select l').1 s =
        Some (bool_decide (sock_fd s ∈ (select (m_max_fd l' + 1) (m_init_fds l')).1)).
Proof.
  intros _ F Len. destruct (select_init_loop_spec FD_SETSIZE σ slaves (Ssl (m_max_fd l) ∅ (m_fds l)) 0 F) as (l' & E & EF & EM); [simpl; lia|].
  exists l'. unfold select_init_slave_sockets. simpl in *. split; [done|]. split; [set_solver|]. intros i s Ii Es.
  assert (Is : sock_fd s ∈ sockets σ slaves) by (unfold sockets; apply list_elem_of_omap; exists i; by rewrite Es).
  split_and!; [|set_solver|].
  - rewrite EM. assert (K : ∀ xs m x, (x ∈ xs ∨ x ≤ m) → x ≤ foldl Z.max m xs).
    { induction xs as [|y xs IH]; intros m x H; simpl; [destruct H as [H|]; [by apply not_elem_of_nil in H|done]|].
      apply IH. destruct H as [[->|?]%elem_of_cons|]; [right; lia|by left|right; lia]. }
    specialize (K (sockets σ slaves) (m_max_fd l) (sock_fd s) (or_introl Is)). lia.
  - unfold select_is_socket_active, select_listen_on_sockets, FD_ISSET. destruct (select _ _) as [f r]. simpl.
    rewrite Forall_forall in F. destruct (F i Ii) as (s' & Es' & B). rewrite Es in Es'. injection Es' as <-.
    by rewrite decide_True.
Qed.

(** The check of the socket lets [FD_SETSIZE] itself pass: the bit set for it is
    outside of the set, where greater sockets are refused. *)
Theorem select_fd_setsize_overruns FD_SETSIZE σ i s l : 0 ≤ FD_SETSIZE → σ !! i = Some s →
  (sock_fd s = FD_SETSIZE → select_init_slave_sockets FD_SETSIZE σ [i] l = None) ∧
  (FD_SETSIZE < sock_fd s → ∃ l', select_init_slave_sockets FD_SETSIZE σ [i] l = Some (l', 0)).
Proof.
  intros P Es. unfold select_init_slave_sockets. simpl. rewrite Es. simpl. split; intros E.
  - rewrite (decide_False (P := FD_SETSIZE < sock_fd s)) by lia. unfold FD_SET. by rewrite (decide_False (P := 0 ≤ sock_fd s < FD_SETSIZE)) by lia.
  - rewrite (decide_True (P := FD_SETSIZE < sock_fd s)) by lia. eauto.
Qed.

(** ** Witnesses *)

Definition demo_slaves : store := {[1%N := Sl 7 99; 2%N := Sl 5 99; 3%N := Sl 1024 99]}.
(** Input on every even socket. *)
Definition demo_poll (l : list pollfd) : list pollfd * Z :=
  ((λ p, Pfd (fd p) (events p) (if Z.even (fd p) then POLLIN else 0)) <$> l, 1).

Lemma poll_watches_each_slave_witness : ∃ σ' fds, poll_init_slave_sockets demo_slaves [2%N; 3%N; 1%N] 0 = Some (σ', fds, 3) ∧
  (s ← σ' !! 3%N; poll_is_socket_active (poll_listen_on_sockets demo_poll fds).1 s) = Some true.
Proof.
  destruct (poll_watches_each_slave demo_poll demo_slaves [2%N; 3%N; 1%N] 0) as (σ' & fds & E & K).
  - intros l. simpl. rewrite <- list_fmap_compose. by apply list_fmap_ext.
  - repeat (apply NoDup_cons; split; [set_solver|]). apply NoDup_nil_2.
  - repeat (apply Forall_cons; split; [by eexists|]). by apply Forall_nil.
  - simpl. lia.
  - exists σ', fds. split; [exact E|]. destruct (K 1%nat 3%N eq_refl) as (s & e & Es & Ee & _ & _ & A & _). rewrite Es.
    cbn [mbind option_bind]. rewrite A. vm_compute in E. injection E as <- <-. vm_compute in Ee. injection Ee as <-. by vm_compute.
Defined.

Lemma select_watches_each_slave_witness : ∃ l',
  select_init_slave_sockets 1024 demo_slaves [1%N; 2%N] (new_Select_socket_listener ∅ ∅) = Some (l', 2) ∧ get_max_fd l' = 7.
Proof.
  destruct (select_watches_each_slave 1024 (λ _ f, (f, 1)) demo_slaves [1%N; 2%N] (new_Select_socket_listener ∅ ∅)) as (l' & E & _).
  - lia.
  - repeat (apply Forall_cons; split; [eexists; split; [reflexivity|simpl; lia]|]). by apply Forall_nil.
  - simpl. lia.
  - exists l'. split; [exact E|]. vm_compute in E. injection E as <-. by vm_compute.
Defined.

Lemma select_fd_setsize_overruns_witness :
  select_init_slave_sockets 1024 demo_slaves [3%N] (new_Select_socket_listener ∅ ∅) = None.
Proof.
  apply (select_fd_setsize_overruns 1024 demo_slaves 3 (Sl 1024 99) (new_Select_socket_listener ∅ ∅)); [lia|reflexivity|reflexivity].
Defined.

End AckSockets.
