(* ===== verification/QueryTables.v ===== *)
(** * The list of the tables of a statement

    The class [Query_tables_list] of sql_lex.h and the functions of table.h that enter a
    [TABLE_LIST] in it.  The list is doubly linked through the members of its
    elements: [next_global] points to the next table, [prev_global] to the pointer
    that points to this one, which is either the [query_tables] of a list object or the
    [next_global] of another table.  A statement's own tables come first; the
    tables added for prelocking follow them and can be cut off again.
    The class [st_select_lex_node] has links of the same kind. *)

From Stdlib Require Import ZArith NArith Lia.
From stdpp Require Import base numbers option list gmap fin_maps strings.
From S2P Require Import Prelude Mdl.
Open Scope Z_scope.

Module QueryTables.

(** ** Locks *)

Inductive thr_lock_type :=
  | TL_IGNORE | TL_UNLOCK | TL_READ_DEFAULT | TL_READ | TL_READ_WITH_SHARED_LOCKS | TL_READ_HIGH_PRIORITY
  | TL_READ_NO_INSERT | TL_WRITE_ALLOW_WRITE | TL_WRITE_CONCURRENT_INSERT | TL_WRITE_DELAYED | TL_WRITE_DEFAULT
  | TL_WRITE_LOW_PRIORITY | TL_WRITE | TL_WRITE_ONLY.
#[global] Instance thr_lock_type_eq : EqDecision thr_lock_type.
Proof. solve_decision. Defined.
Definition thr_lock_code (t : thr_lock_type) : Z :=
  match t with
  | TL_IGNORE => -1 | TL_UNLOCK => 0 | TL_READ_DEFAULT => 1 | TL_READ => 2 | TL_READ_WITH_SHARED_LOCKS => 3
  | TL_READ_HIGH_PRIORITY => 4 | TL_READ_NO_INSERT => 5 | TL_WRITE_ALLOW_WRITE => 6 | TL_WRITE_CONCURRENT_INSERT => 7
  | TL_WRITE_DELAYED => 8 | TL_WRITE_DEFAULT => 9 | TL_WRITE_LOW_PRIORITY => 10 | TL_WRITE => 11 | TL_WRITE_ONLY => 12
  end.
(** The type of metadata lock [init_one_table] asks for. *)
Definition mdl_type_of (lock_type_arg : thr_lock_type) : Mdl.enum_mdl_type :=
  if decide (thr_lock_code TL_WRITE_ALLOW_WRITE ≤ thr_lock_code lock_type_arg) then Mdl.MDL_SHARED_WRITE
  else if decide (lock_type_arg = TL_READ_NO_INSERT) then Mdl.MDL_SHARED_NO_WRITE
  else Mdl.MDL_SHARED_READ.

Inductive prelocking_types := PRELOCK_NONE | PRELOCK_ROUTINE | PRELOCK_FK.
#[global] Instance prelocking_types_eq : EqDecision prelocking_types.
Proof. solve_decision. Defined.
Inductive enum_open_type := OT_TEMPORARY_OR_BASE | OT_TEMPORARY_ONLY | OT_BASE_ONLY.

(** ** Tables and lists *)

(** A pointer to a pointer to a table. *)
Inductive link := Head (q : N) | NextOf (t : N).
#[global] Instance link_eq : EqDecision link.
Proof. solve_decision. Defined.

(** The members of [TABLE_LIST] the functions below set; 0 is the null pointer. *)
Record TABLE_LIST := Tab {
  next_global : N; prev_global : option link;
  db : string; table_name : string; alias : string; lock_type : thr_lock_type; mdl_type : Mdl.enum_mdl_type;
  cacheable_table : bool; prelocking_placeholder : prelocking_types; open_type : enum_open_type;
  belong_to_view : N; trg_event_map : Z
}.

Inductive enum_lock_tables_state := LTS_NOT_LOCKED | LTS_LOCKED.
#[global] Instance lts_eq : EqDecision enum_lock_tables_state.
Proof. solve_decision. Defined.
Record Query_tables_list := QTL {
  query_tables : N; query_tables_last : link; query_tables_own_last : option link; lock_tables_state : enum_lock_tables_state
}.

Record store := Store { lists : gmap N Query_tables_list; tabs : gmap N TABLE_LIST }.

Definition with_next (t : TABLE_LIST) (n : N) : TABLE_LIST :=
  Tab n (prev_global t) (db t) (table_name t) (alias t) (lock_type t) (mdl_type t) (cacheable_table t)
    (prelocking_placeholder t) (open_type t) (belong_to_view t) (trg_event_map t).
Definition with_prev (t : TABLE_LIST) (r : option link) : TABLE_LIST :=
  Tab (next_global t) r (db t) (table_name t) (alias t) (lock_type t) (mdl_type t) (cacheable_table t)
    (prelocking_placeholder t) (open_type t) (belong_to_view t) (trg_event_map t).
Definition with_head (Q : Query_tables_list) (n : N) : Query_tables_list :=
  QTL n (query_tables_last Q) (query_tables_own_last Q) (lock_tables_state Q).
Definition set_last (Q : Query_tables_list) (l : link) : Query_tables_list :=
  QTL (query_tables Q) l (query_tables_own_last Q) (lock_tables_state Q).
Definition set_own_last (Q : Query_tables_list) (l : option link) : Query_tables_list :=
  QTL (query_tables Q) (query_tables_last Q) l (lock_tables_state Q).
Definition put_list (σ : store) (q : N) (Q : Query_tables_list) : store := Store (<[q := Q]> (lists σ)) (tabs σ).
Definition put_tab (σ : store) (a : N) (t : TABLE_LIST) : store := Store (lists σ) (<[a := t]> (tabs σ)).

(** [*l] and [*l= n]. *)
Definition read_link (σ : store) (l : link) : option N :=
  match l with Head q => query_tables <$> lists σ !! q | NextOf a => next_global <$> tabs σ !! a end.
Definition write_link (σ : store) (l : link) (n : N) : option store :=
  match l with
  | Head q => Q ← lists σ !! q; Some (put_list σ q (with_head Q n))
  | NextOf a => t ← tabs σ !! a; Some (put_tab σ a (with_next t n))
  end.

(** ** Operations *)

(** [bzero] of the whole object, then the members. *)
Definition init_one_table (db_arg table_name_arg : string) (alias_arg : option string) (lock_type_arg : thr_lock_type) : TABLE_LIST :=
  Tab 0 None db_arg table_name_arg (default table_name_arg alias_arg) lock_type_arg (mdl_type_of lock_type_arg)
    false PRELOCK_NONE OT_TEMPORARY_OR_BASE 0 0.

Record prelock_args := PArgs {
  a_db : string; a_table : string; a_alias : option string; a_lock : thr_lock_type; a_prelocking : prelocking_types;
  a_view : N; a_trg_event_map : Z
}.
Definition placeholder_table (p : prelock_args) : TABLE_LIST :=
  let t := init_one_table (a_db p) (a_table p) (a_alias p) (a_lock p) in
  Tab (next_global t) (prev_global t) (db t) (table_name t) (alias t) (lock_type t) (mdl_type t) true (a_prelocking p)
    (if decide (a_prelocking p = PRELOCK_ROUTINE) then OT_TEMPORARY_OR_BASE else OT_BASE_ONLY) (a_view p) (a_trg_event_map p).
(** [last_ptr] points to a variable of type [TABLE_LIST **]: its value before and after. *)
Definition init_one_table_for_prelocking (σ : store) (this : N) (p : prelock_args) (last_ptr : link) : option (store * link) :=
  _ ← tabs σ !! this;
  σ ← write_link (put_tab σ this (placeholder_table p)) last_ptr this;
  t ← tabs σ !! this;
  Some (put_tab σ this (with_prev t (Some last_ptr)), NextOf this).

Definition is_query_tables_locked (Q : Query_tables_list) : bool := bool_decide (lock_tables_state Q = LTS_LOCKED).
Definition set_query_tables_list (σ : store) (this state : N) : option store :=
  Q ← lists σ !! state; Some (put_list σ this Q).
Definition add_to_query_tables (σ : store) (this table : N) : option store :=
  Q ← lists σ !! this;
  t ← tabs σ !! table;
  σ ← write_link (put_tab σ table (with_prev t (Some (query_tables_last Q)))) (query_tables_last Q) table;
  Q ← lists σ !! this;
  Some (put_list σ this (set_last Q (NextOf table))).
Definition requires_prelocking (Q : Query_tables_list) : bool := bool_decide (query_tables_own_last Q ≠ None).
Definition mark_as_requiring_prelocking (Q : Query_tables_list) (tables_own_last : link) : Query_tables_list :=
  set_own_last Q (Some tables_own_last).
Definition first_not_own_table (σ : store) (Q : Query_tables_list) : option N :=
  match query_tables_own_last Q with Some l => read_link σ l | None => Some 0%N end.
Definition chop_off_not_own_tables (σ : store) (this : N) : option store :=
  Q ← lists σ !! this;
  match query_tables_own_last Q with
  | Some l =>
      σ ← write_link σ l 0%N;
      Q ← lists σ !! this;
      Some (put_list σ this (set_own_last (set_last Q l) None))
  | None => Some σ
  end.
(** The address of [next_global] less the offset of the member: the table, if the
    pointer is the member of a table. *)
Definition last_table (Q : Query_tables_list) : option N :=
  if decide (query_tables Q = 0%N) then Some 0%N
  else match query_tables_last Q with NextOf a => Some a | Head _ => None end.

(** ** Histories of calls *)

Inductive op :=
  | Add (t : N) | Prelock (t : N) (p : prelock_args) | Mark (l : link) | Chop | FirstNotOwn | LastTable | RequiresPrelocking.
Inductive result := RUnit | RPtr (n : N) | RBool (b : bool).
Definition exec (q : N) (σ : store) (o : op) : option (store * result) :=
  Q ← lists σ !! q;
  match o with
  | Add t => σ ← add_to_query_tables σ q t; Some (σ, RUnit)
  | Prelock t p =>
      '(σ, l) ← init_one_table_for_prelocking σ t p (query_tables_last Q);
      Q ← lists σ !! q; Some (put_list σ q (set_last Q l), RUnit)
  | Mark l => Some (put_list σ q (mark_as_requiring_prelocking Q l), RUnit)
  | Chop => σ ← chop_off_not_own_tables σ q; Some (σ, RUnit)
  | FirstNotOwn => n ← first_not_own_table σ Q; Some (σ, RPtr n)
  | LastTable => n ← last_table Q; Some (σ, RPtr n)
  | RequiresPrelocking => Some (σ, RBool (requires_prelocking Q))
  end.
Fixpoint run (q : N) (σ : store) (os : list op) : option (store * list result) :=
  match os with
  | [] => Some (σ, [])
  | o :: os => '(σ, r) ← exec q σ o; '(σ, rs) ← run q σ os; Some (σ, r :: rs)
  end.

(** ** What the list promises

    A sequence of the statement's own tables and, once the statement requires
    prelocking, a sequence of the others.  [clean] are the tables that were never in a list,
    [dropped] the ones that were cut off: these still have their links, so they can be
    entered again only by the function that clears the object. *)
Record spec := Spec { own : list N; not_own : option (list N); clean : gset N; dropped : gset N }.
Definition all (s : spec) : list N := own s ++ default [] (not_own s).
Definition push (s : spec) (t : N) : spec :=
  match not_own s with
  | None => Spec (own s ++ [t]) None (clean s ∖ {[t]}) (dropped s ∖ {[t]})
  | Some L => Spec (own s) (Some (L ++ [t])) (clean s ∖ {[t]}) (dropped s ∖ {[t]})
  end.
(** The pointer behind the tables [L] of the list [q]. *)
Definition end_link (r : link) (L : list N) : link := default r (NextOf <$> last L).
Definition hd_addr (L : list N) : N := default 0%N (head L).
Definition split_at (q : N) (l : link) (L : list N) : option nat :=
  head (filter (λ k, bool_decide (end_link (Head q) (take k L) = l)) (seq 0 (S (length L)))).
Definition spec_step (q : N) (s : spec) (o : op) : option (spec * result) :=
  match o with
  | Add t => if decide (t ∈ clean s) then Some (push s t, RUnit) else None
  | Prelock t _ => if decide (t ∈ clean s ∪ dropped s) then Some (push s t, RUnit) else None
  | Mark l => k ← split_at q l (all s); Some (Spec (take k (all s)) (Some (drop k (all s))) (clean s) (dropped s), RUnit)
  | Chop => Some (Spec (own s) None (clean s) (dropped s ∪ list_to_set (default [] (not_own s))), RUnit)
  | FirstNotOwn => Some (s, RPtr (hd_addr (default [] (not_own s))))
  | LastTable => Some (s, RPtr (default 0%N (last (all s))))
  | RequiresPrelocking => Some (s, RBool (bool_decide (is_Some (not_own s))))
  end.
Fixpoint spec_run (q : N) (s : spec) (os : list op) : option (spec * list result) :=
  match os with
  | [] => Some (s, [])
  | o :: os => '(s, r) ← spec_step q s o; '(s, rs) ← spec_run q s os; Some (s, r :: rs)
  end.

(** ** Segments of the list *)

Definition hd_or (v : N) (L : list N) : N := default v (head L).
Lemma end_link_cons r a L : end_link r (a :: L) = end_link (NextOf a) L.
Proof. unfold end_link. rewrite last_cons. by destruct (last L). Qed.
Lemma end_link_snoc r L a : end_link r (L ++ [a]) = NextOf a.
Proof. unfold end_link. by rewrite last_snoc. Qed.
Lemma hd_or_app v L L' : hd_or v (L ++ L') = hd_or (hd_or v L') L.
Proof. by destruct L. Qed.

Section Nodes.
Context {X : Type} (nextp : X → N) (prevp : X → option link).
(** The objects [L] behind the pointer [r], the last of them pointing to [v]. *)
Fixpoint nodes_of (T : gmap N X) (r : link) (L : list N) (v : N) : Prop :=
  match L with
  | [] => True
  | a :: L => ∃ t, T !! a = Some t ∧ prevp t = Some r ∧ nextp t = hd_or v L ∧ nodes_of T (NextOf a) L v
  end.
Lemma nodes_ext T T' r L v : (∀ a, a ∈ L → T' !! a = T !! a) → nodes_of T r L v → nodes_of T' r L v.
Proof.
  revert r. induction L as [|a L IH]; intros r HT; [done|].
  intros (t & Ha & Hp & Hn & HL). exists t. rewrite HT by set_solver. repeat split; [done..|].
  apply IH; [set_solver|done].
Qed.
Lemma nodes_app T r L L' v : nodes_of T r (L ++ L') v ↔ nodes_of T r L (hd_or v L') ∧ nodes_of T (end_link r L) L' v.
Proof.
  revert r. induction L as [|a L IH]; intros r; [split; [done|intros [_ ?]; done]|].
  cbn [app nodes_of]. rewrite end_link_cons. setoid_rewrite IH. rewrite hd_or_app. naive_solver.
Qed.
End Nodes.
Notation nodes := (nodes_of next_global prev_global).
Definition seg (σ : store) (q : N) (L : list N) (v : N) : Prop :=
  ∃ Q, lists σ !! q = Some Q ∧ query_tables Q = hd_or v L ∧ nodes (tabs σ) (Head q) L v.

Lemma qt_seg_app σ q L L' v : seg σ q (L ++ L') v ↔ seg σ q L (hd_or v L') ∧ nodes (tabs σ) (end_link (Head q) L) L' v.
Proof. unfold seg. setoid_rewrite nodes_app. rewrite hd_or_app. naive_solver. Qed.
Lemma read_end σ q L v : seg σ q L v → read_link σ (end_link (Head q) L) = Some v.
Proof.
  destruct L as [|a L _] using rev_ind.
  - intros (Q & HQ & Hv & _). cbn. rewrite HQ. cbn. by f_equal.
  - rewrite qt_seg_app, end_link_snoc. intros [_ (t & Ht & _ & Hn & _)]. cbn. rewrite Ht. cbn. by f_equal.
Qed.
(** Writing through the pointer behind a segment changes what the segment ends in. *)
Lemma write_end σ q L v n :
  seg σ q L v → NoDup L →
  ∃ σ', write_link σ (end_link (Head q) L) n = Some σ' ∧ seg σ' q L n ∧
    (∀ Q, lists σ !! q = Some Q → ∃ m, lists σ' !! q = Some (with_head Q m)) ∧ (∀ q', q' ≠ q → lists σ' !! q' = lists σ !! q') ∧
    ∀ a, a ∉ L → tabs σ' !! a = tabs σ !! a.
Proof.
  destruct L as [|a L _] using rev_ind.
  - intros (Q & HQ & Hv & _) _. cbn. rewrite HQ. eexists. split; [done|]. cbn. split_and!.
    + exists (with_head Q n). cbn. by rewrite lookup_insert_eq.
    + intros Q' HQ'. simplify_eq. exists n. by rewrite lookup_insert_eq.
    + intros q' ?. by rewrite lookup_insert_ne.
    + done.
  - rewrite qt_seg_app, end_link_snoc, NoDup_app. intros [(Q & HQ & Hv & HL) (t & Ht & Hp & Hn & _)] (_ & Hd & _).
    cbn. rewrite Ht. eexists. split; [done|]. cbn. split_and!; [|intros Q' HQ'; exists (query_tables Q'); rewrite HQ'; by destruct Q'|done|].
    + apply qt_seg_app. split.
      * exists Q. repeat split; [done..|]. eapply nodes_ext; [|done]. intros b Hb. cbn.
        rewrite lookup_insert_ne; [done|]. intros ->. apply (Hd b Hb). set_solver.
      * cbn. exists (with_next t n). by rewrite lookup_insert_eq.
    + intros b Hb. rewrite lookup_insert_ne; [done|set_solver].
Qed.
Lemma seg_put_tab σ q L v a t : a ∉ L → seg σ q L v → seg (put_tab σ a t) q L v.
Proof.
  intros Ha (Q & HQ & Hv & HL). exists Q. repeat split; [done..|]. eapply nodes_ext; [|done].
  intros b Hb. cbn. rewrite lookup_insert_ne; [done|set_solver].
Qed.
Lemma seg_put_list σ q L v Q Q' :
  lists σ !! q = Some Q → query_tables Q' = query_tables Q → seg σ q L v → seg (put_list σ q Q') q L v.
Proof.
  intros HQ Hh (Q0 & HQ0 & Hv & HL). exists Q'. cbn. rewrite lookup_insert_eq. by simplify_eq/=; rewrite Hh.
Qed.

(** ** The list represents its specification *)

Definition rep (σ : store) (q : N) (s : spec) : Prop :=
  seg σ q (all s) 0 ∧ NoDup (all s) ∧ Forall (λ a, a ≠ 0%N) (all s) ∧
  (∃ Q, lists σ !! q = Some Q ∧ query_tables_last Q = end_link (Head q) (all s) ∧
    query_tables_own_last Q = (λ _, end_link (Head q) (own s)) <$> not_own s) ∧
  (∀ a, a ∈ clean s → a ∉ all s ∧ a ≠ 0%N ∧ ∃ t, tabs σ !! a = Some t ∧ next_global t = 0%N) ∧
  (∀ a, a ∈ dropped s → a ∉ all s ∧ a ≠ 0%N ∧ is_Some (tabs σ !! a)).
Definition footprint (s : spec) : gset N := list_to_set (all s) ∪ clean s ∪ dropped s.

Lemma all_push s a : all (push s a) = all s ++ [a].
Proof. unfold all, push. destruct s as [? [L|] ? ?]; cbn; by rewrite ?app_nil_r, ?app_assoc. Qed.
Lemma clean_push s a : clean (push s a) = clean s ∖ {[a]}.
Proof. unfold push. by destruct (not_own s). Qed.
Lemma dropped_push s a : dropped (push s a) = dropped s ∖ {[a]}.
Proof. unfold push. by destruct (not_own s). Qed.
Lemma own_last_push (s : spec) q a :
  (λ _, end_link (Head q) (own s)) <$> not_own s = (λ _, end_link (Head q) (own (push s a))) <$> not_own (push s a).
Proof. unfold push. by destruct (not_own s) eqn:E; cbn; rewrite ?E. Qed.
Lemma footprint_push s a : a ∈ footprint s → footprint (push s a) ⊆ footprint s.
Proof. unfold footprint. rewrite all_push, clean_push, dropped_push, list_to_set_app_L. set_solver. Qed.

(** Entering a table whose links are set behind the last one: the step the two
    functions that add a table share. *)
Lemma rep_push σ σ' q s a t Q :
  rep σ q s → a ∈ clean s ∪ dropped s →
  seg σ' q (all s) a → lists σ' !! q = Some Q → tabs σ' !! a = Some t →
  next_global t = 0%N → prev_global t = Some (end_link (Head q) (all s)) →
  query_tables_own_last Q = (λ _, end_link (Head q) (own s)) <$> not_own s →
  (∀ b, b ∉ all s → b ≠ a → tabs σ' !! b = tabs σ !! b) →
  rep (put_list σ' q (set_last Q (NextOf a))) q (push s a).
Proof.
  intros (Hs & Hnd & H0 & _ & Hc & Hd) Ha Hs' HQ Ht Hn Hp Ho Hfr.
  assert (Hna : a ∉ all s ∧ a ≠ 0%N) by (apply elem_of_union in Ha as [Ha|Ha]; [apply Hc in Ha|apply Hd in Ha]; naive_solver).
  unfold rep. rewrite all_push, clean_push, dropped_push. split_and!.
  - apply (seg_put_list _ _ _ _ Q); [done..|]. apply qt_seg_app. split; [done|]. cbn. by exists t.
  - apply NoDup_app. split_and!; [done| |apply NoDup_singleton]. intros b Hb ->%list_elem_of_singleton. naive_solver.
  - apply Forall_app. naive_solver.
  - eexists. cbn. rewrite lookup_insert_eq, end_link_snoc, <- own_last_push. eauto.
  - intros b [Hb ?]%elem_of_difference. destruct (Hc b Hb) as (Hnb & ? & x & Hx & ?).
    split_and!; [set_solver|done|]. exists x. split; [|done]. cbn. rewrite Hfr; [done..|set_solver].
  - intros b [Hb ?]%elem_of_difference. destruct (Hd b Hb) as (Hnb & ? & x & Hx).
    split_and!; [set_solver|done|]. exists x. cbn. rewrite Hfr; [done..|set_solver].
Qed.

(** A step of the code that the specification allows. *)
Definition simulates (q : N) (σ : store) (s : spec) (o : op) (s' : spec) (r : result) : Prop :=
  ∃ σ', exec q σ o = Some (σ', r) ∧ rep σ' q s' ∧ footprint s' ⊆ footprint s ∧
    (∀ q', q' ≠ q → lists σ' !! q' = lists σ !! q') ∧ ∀ a, a ∉ footprint s → tabs σ' !! a = tabs σ !! a.

Lemma add_simulates q σ s a : rep σ q s → a ∈ clean s → simulates q σ s (Add a) (push s a) RUnit.
Proof.
  intros HR Ha. pose proof HR as (Hs & Hnd & H0 & (Q & HQ & Hl & Ho) & Hc & _).
  destruct (Hc a Ha) as (Hna & ? & t & Ht & Hn).
  destruct (write_end (put_tab σ a (with_prev t (Some (query_tables_last Q)))) q (all s) 0 a) as (σ' & Hw & Hs' & Hh & Hf & Hfr);
    [by apply seg_put_tab|done|].
  destruct (Hh Q HQ) as [m HQ']. pose proof (Hfr a Hna) as Ha'. cbn in Ha'. rewrite lookup_insert_eq in Ha'.
  eexists. split_and!.
  - unfold exec, add_to_query_tables. rewrite HQ. cbn. rewrite Ht. cbn. rewrite Hl in Hw |- *. rewrite Hw. cbn. rewrite HQ'. done.
  - apply (rep_push σ σ' q s a (with_prev t (Some (query_tables_last Q)))); try done; [set_solver|by cbn; rewrite Hl|].
    intros b Hb ?. rewrite Hfr by done. cbn. by rewrite lookup_insert_ne.
  - apply footprint_push. unfold footprint. set_solver.
  - intros q' ?. cbn. rewrite lookup_insert_ne by done. by rewrite Hf.
  - unfold footprint. intros b Hb. cbn. rewrite Hfr by set_solver. cbn. rewrite lookup_insert_ne; [done|set_solver].
Qed.
Lemma prelock_simulates q σ s a p : rep σ q s → a ∈ clean s ∪ dropped s → simulates q σ s (Prelock a p) (push s a) RUnit.
Proof.
  intros HR Ha. pose proof HR as (Hs & Hnd & H0 & (Q & HQ & Hl & Ho) & Hc & Hd).
  assert (Hna : a ∉ all s ∧ is_Some (tabs σ !! a)) by (apply elem_of_union in Ha as [Ha|Ha]; [apply Hc in Ha|apply Hd in Ha]; naive_solver).
  destruct Hna as (Hna & t & Ht).
  destruct (write_end (put_tab σ a (placeholder_table p)) q (all s) 0 a) as (σ' & Hw & Hs' & Hh & Hf & Hfr);
    [by apply seg_put_tab|done|].
  destruct (Hh Q HQ) as [m HQ']. pose proof (Hfr a Hna) as Ha'. cbn in Ha'. rewrite lookup_insert_eq in Ha'.
  eexists. split_and!.
  - unfold exec, init_one_table_for_prelocking. rewrite HQ. cbn. rewrite Ht. cbn. rewrite Hl, Hw. cbn. rewrite Ha'. cbn. rewrite HQ'. done.
  - apply (rep_push σ _ q s a (with_prev (placeholder_table p) (Some (end_link (Head q) (all s))))); try done.
    + by apply seg_put_tab.
    + cbn. by rewrite lookup_insert_eq.
    + intros b Hb ?. cbn. rewrite lookup_insert_ne by done. rewrite Hfr by done. cbn. by rewrite lookup_insert_ne.
  - apply footprint_push. unfold footprint. set_solver.
  - intros q' ?. cbn. rewrite lookup_insert_ne by done. by rewrite Hf.
  - unfold footprint. intros b Hb. cbn. rewrite lookup_insert_ne by set_solver. rewrite Hfr by set_solver. cbn.
    rewrite lookup_insert_ne; [done|set_solver].
Qed.

Lemma split_at_spec q l L k : split_at q l L = Some k → end_link (Head q) (take k L) = l.
Proof.
  unfold split_at. intros H%head_Some_elem_of. apply list_elem_of_filter in H as [H _]. by apply bool_decide_unpack in H.
Qed.
Lemma split_at_end q L : NoDup L → split_at q (end_link (Head q) L) L = Some (length L).
Proof.
  intros Hnd. unfold split_at. rewrite seq_S, filter_app. cbn. rewrite decide_True; [|by rewrite firstn_all; apply bool_decide_pack].
  enough (filter (λ k, bool_decide (end_link (Head q) (take k L) = end_link (Head q) L)) (seq 0 (length L)) = []) as -> by done.
  destruct (filter _ _) as [|k ks] eqn:E; [done|]. assert (Hk : k ∈ k :: ks) by left. rewrite <- E in Hk.
  apply list_elem_of_filter in Hk as [He%bool_decide_unpack Hk%elem_of_seq]. exfalso. clear E.
  destruct L as [|a L _] using rev_ind; [cbn in Hk; lia|]. rewrite length_app in Hk. cbn in Hk.
  rewrite end_link_snoc, take_app_le in He by lia. unfold end_link in He.
  destruct (last (take k L)) as [b|] eqn:Hb; cbn in He; [|done]. simplify_eq.
  apply last_Some_elem_of, elem_of_take in Hb as (i & Hi & _). apply NoDup_app in Hnd as (_ & Hd & _).
  apply (Hd a); [by eapply list_elem_of_lookup_2|set_solver].
Qed.
Lemma mark_simulates q σ s l k :
  rep σ q s → split_at q l (all s) = Some k →
  simulates q σ s (Mark l) (Spec (take k (all s)) (Some (drop k (all s))) (clean s) (dropped s)) RUnit.
Proof.
  intros HR Hk%split_at_spec. pose proof HR as (Hs & Hnd & H0 & (Q & HQ & Hl & Ho) & Hc & Hd).
  assert (Hall : all (Spec (take k (all s)) (Some (drop k (all s))) (clean s) (dropped s)) = all s) by apply take_drop.
  eexists. split_and!.
  - unfold exec. by rewrite HQ.
  - unfold rep. rewrite Hall. split_and!; [|done|done| |done|done].
    + by apply (seg_put_list _ _ _ _ Q).
    + eexists. cbn. rewrite lookup_insert_eq, Hk. eauto.
  - unfold footprint. by rewrite Hall.
  - intros q' ?. cbn. by rewrite lookup_insert_ne.
  - done.
Qed.
Lemma chop_simulates q σ s :
  rep σ q s →
  simulates q σ s Chop (Spec (own s) None (clean s) (dropped s ∪ list_to_set (default [] (not_own s)))) RUnit.
Proof.
  intros HR. pose proof HR as (Hs & Hnd & H0 & (Q & HQ & Hl & Ho) & Hc & Hd).
  unfold simulates, exec, chop_off_not_own_tables. rewrite HQ. cbn. rewrite Ho.
  destruct s as [L [L'|] C D]; cbn [all own not_own clean dropped default fmap option_fmap option_map] in *.
  - change (all _) with (L ++ L') in Hs, Hnd, H0, Hl, Hc, Hd. apply qt_seg_app in Hs as [Hs HL']. apply NoDup_app in Hnd as (Hnd & Hd' & Hnd').
    apply Forall_app in H0 as [H0 H0'].
    destruct (write_end σ q L _ 0 Hs Hnd) as (σ' & Hw & Hs' & Hh & Hf & Hfr). destruct (Hh Q HQ) as [m HQ'].
    cbn. rewrite Hw. cbn. rewrite HQ'. cbn. eexists. split; [done|]. unfold rep, footprint, all. cbn. rewrite !app_nil_r. split_and!.
    + by apply (seg_put_list _ _ _ _ (with_head Q m)).
    + done.
    + done.
    + eexists. cbn. rewrite lookup_insert_eq. eauto.
    + intros a Ha. destruct (Hc a Ha) as (Hna & ? & t & Ht & ?). split_and!; [set_solver|done|]. exists t. by rewrite Hfr by set_solver.
    + intros a [Ha|Ha%elem_of_list_to_set]%elem_of_union.
      * destruct (Hd a Ha) as (Hna & ? & t & Ht). split_and!; [set_solver|done|]. exists t. by rewrite Hfr by set_solver.
      * assert (a ∉ L) by (intros ?; by eapply Hd'). rewrite Forall_forall in H0'. split_and!; [done|by apply H0'|]. rewrite Hfr by done.
        apply list_elem_of_split in Ha as (L1 & L2 & ->). apply nodes_app in HL' as [_ (t & Ht & _)]. by exists t.
    + set_solver.
    + intros q' ?. rewrite lookup_insert_ne by done. by apply Hf.
    + intros a Ha. apply Hfr. set_solver.
  - cbn. eexists. split; [done|]. rewrite (union_empty_r_L D). split_and!; done.
Qed.
Lemma ask_simulates q σ s o s' r :
  rep σ q s → match o with FirstNotOwn | LastTable | RequiresPrelocking => True | _ => False end →
  spec_step q s o = Some (s', r) → simulates q σ s o s' r.
Proof.
  intros HR Ho Hst. pose proof HR as (Hs & Hnd & H0 & (Q & HQ & Hl & Hol) & Hc & Hd). exists σ.
  assert (exec q σ o = Some (σ, r) ∧ s' = s) as [? ->]; [|by split_and!].
  unfold exec. rewrite HQ. cbn. destruct o; try done; cbn in Hst; injection Hst as <- <-; (split; [|done]).
  - unfold first_not_own_table. rewrite Hol. destruct s as [L [L'|] C D]; [|done]. cbn [own not_own fmap option_fmap option_map].
    change (all _) with (L ++ L') in Hs. apply qt_seg_app in Hs as [Hs _]. by rewrite (read_end _ _ _ _ Hs).
  - destruct Hs as (Q' & HQ' & Hh & _). simplify_eq. unfold last_table. rewrite Hh, Hl.
    destruct (all s) as [|a L _] using rev_ind; [done|]. rewrite end_link_snoc, last_snoc, decide_False; [done|].
    rewrite hd_or_app. apply Forall_app in H0 as [H0 Ha]. rewrite Forall_singleton in Ha. destruct H0 as [|b L Hb]; [exact Ha|exact Hb].
  - unfold requires_prelocking. rewrite Hol. by destruct (not_own s).
Qed.
Lemma step_simulates q σ s o s' r : rep σ q s → spec_step q s o = Some (s', r) → simulates q σ s o s' r.
Proof.
  intros HR Hst. destruct o; try by apply ask_simulates.
  all: cbn in Hst; try case_decide; simplify_eq.
  - by apply add_simulates.
  - by apply prelock_simulates.
  - apply bind_Some in Hst as (k & ? & [= <- <-]). by apply mark_simulates.
  - by apply chop_simulates.
Qed.

Lemma run_simulates q os : ∀ σ s s' rs, rep σ q s → spec_run q s os = Some (s', rs) →
  ∃ σ', run q σ os = Some (σ', rs) ∧ rep σ' q s' ∧ footprint s' ⊆ footprint s ∧
    (∀ q', q' ≠ q → lists σ' !! q' = lists σ !! q') ∧ ∀ a, a ∉ footprint s → tabs σ' !! a = tabs σ !! a.
Proof.
  induction os as [|o os IH]; intros σ s s' rs HR; cbn [spec_run run]; [intros [= <- <-]; by exists σ|].
  intros ([s1 r] & Hst & ([s2 rs'] & Hrun & [= <- <-])%bind_Some)%bind_Some.
  destruct (step_simulates _ _ _ _ _ _ HR Hst) as (σ1 & He & HR1 & Hf1 & Hl1 & Ht1).
  destruct (IH _ _ _ _ HR1 Hrun) as (σ2 & Hr & HR2 & Hf2 & Hl2 & Ht2).
  exists σ2. rewrite He. cbn. rewrite Hr. split_and!; [done..|set_solver| |].
  - intros q' ?. by rewrite Hl2, Hl1.
  - intros a Ha. by rewrite Ht2, Ht1 by set_solver.
Qed.
(** A list is not disturbed by a change outside of it. *)
Lemma qt_rep_frame σ σ' q s :
  rep σ q s → lists σ' !! q = lists σ !! q → (∀ a, a ∈ footprint s → tabs σ' !! a = tabs σ !! a) → rep σ' q s.
Proof.
  unfold footprint. intros ((Q0 & HQ0 & Hh & HL) & Hnd & H0 & (Q & HQ & ?) & Hc & Hd) Hq Hf. split_and!; [|done..| | |].
  - exists Q0. rewrite Hq. split_and!; [done..|]. eapply nodes_ext; [|done]. intros a Ha. apply Hf. set_solver.
  - exists Q. by rewrite Hq.
  - intros a Ha. rewrite Hf by set_solver. by apply Hc.
  - intros a Ha. rewrite Hf by set_solver. by apply Hd.
Qed.
Lemma prelock_spec_run q s L : ∀ pl,
  NoDup (pl.*1) → (∀ a, a ∈ pl.*1 → a ∈ clean s ∪ dropped s) → not_own s = Some L →
  ∃ C D, spec_run q s ((λ '(a, p), Prelock a p) <$> pl) = Some (Spec (own s) (Some (L ++ pl.*1)) C D, (λ _, RUnit) <$> pl).
Proof.
  intros pl. revert s L. induction pl as [|[a p] pl IH]; intros s L Hnd Hin Hn.
  - exists (clean s), (dropped s). cbn. rewrite app_nil_r. destruct s; cbn in *; by rewrite Hn.
  - cbn in Hnd. apply NoDup_cons in Hnd as [Ha Hnd].
    destruct (IH (push s a) (L ++ [a]) Hnd) as (C & D & Hr).
    + intros b Hb. specialize (Hin b ltac:(set_solver)). rewrite clean_push, dropped_push.
      assert (b ≠ a) by (intros ->; done). set_solver.
    + unfold push. by rewrite Hn.
    + exists C, D. cbn. rewrite decide_True by (apply Hin; set_solver). cbn. rewrite Hr. cbn.
      rewrite <- app_assoc. unfold push. by rewrite Hn.
Qed.
Lemma spec_run_app q os os' : ∀ s, spec_run q s (os ++ os') =
  '(s1, rs) ← spec_run q s os; '(s2, rs') ← spec_run q s1 os'; Some (s2, rs ++ rs').
Proof.
  induction os as [|o os IH]; intros s; cbn.
  - by destruct (spec_run q s os') as [[]|].
  - destruct (spec_step q s o) as [[s1 r]|]; [|done]. cbn. rewrite IH.
    destruct (spec_run q s1 os) as [[s2 rs]|]; [|done]. cbn. by destruct (spec_run q s2 os') as [[]|].
Qed.
End QueryTables.

(** ** The neighbours of a select *)

Module SelectNodes.
Import QueryTables.

Inductive sub_select_type :=
  | UNSPECIFIED_TYPE | UNION_TYPE | INTERSECT_TYPE | EXCEPT_TYPE | GLOBAL_OPTIONS_TYPE | DERIVED_TABLE_TYPE | OLAP_TYPE.
#[global] Instance sub_select_type_eq : EqDecision sub_select_type.
Proof. solve_decision. Defined.
(** [prev] points to the pointer to this node: the [slave] of its master, here a cell, or the
    [next] of its neighbour. *)
Record st_select_lex_node := SLN {
  next : N; prev : option link; master : N; slave : N; link_next : N; link_prev : option link; linkage : sub_select_type
}.
Definition new_st_select_lex_node : st_select_lex_node := SLN 0 None 0 0 0 None UNSPECIFIED_TYPE.
Definition is_linkage_set (n : st_select_lex_node) : bool :=
  bool_decide (linkage n = UNION_TYPE ∨ linkage n = INTERSECT_TYPE ∨ linkage n = EXCEPT_TYPE).
Definition get_master (n : st_select_lex_node) : N := master n.
Definition set_slave (n : st_select_lex_node) (slave_arg : N) : st_select_lex_node :=
  SLN (next n) (prev n) (master n) slave_arg (link_next n) (link_prev n) (linkage n).
Definition with_next (n : st_select_lex_node) (v : N) : st_select_lex_node :=
  SLN v (prev n) (master n) (slave n) (link_next n) (link_prev n) (linkage n).
Definition with_prev (n : st_select_lex_node) (r : option link) : st_select_lex_node :=
  SLN (next n) r (master n) (slave n) (link_next n) (link_prev n) (linkage n).

Record tree := Tree { cells : gmap N N; sels : gmap N st_select_lex_node }.
Definition put (σ : tree) (a : N) (n : st_select_lex_node) : tree := Tree (cells σ) (<[a := n]> (sels σ)).
Definition write (σ : tree) (l : link) (v : N) : option tree :=
  match l with
  | Head r => _ ← cells σ !! r; Some (Tree (<[r := v]> (cells σ)) (sels σ))
  | NextOf a => n ← sels σ !! a; Some (put σ a (with_next n v))
  end.
Definition move_node (σ : tree) (this where_to_move : N) : option tree :=
  if decide (where_to_move = this) then Some σ
  else
    t ← sels σ !! this;
    σ ← (if decide (next t ≠ 0%N) then n ← sels σ !! next t; Some (put σ (next t) (with_prev n (prev t))) else Some σ);
    t ← sels σ !! this;
    p ← prev t;
    σ ← write σ p (next t);
    w ← sels σ !! where_to_move;
    wp ← prev w;
    σ ← write σ wp this;
    t ← sels σ !! this;
    Some (put σ this (with_next t where_to_move)).

Notation snodes := (nodes_of next prev).
(** The nodes [L] behind the cell [r], with their links in both directions. *)
Definition dll (σ : tree) (r : N) (L : list N) (v : N) : Prop := cells σ !! r = Some (hd_or v L) ∧ snodes (sels σ) (Head r) L v.
(** The nodes that following [next] from the cell meets. *)
Fixpoint chain (M : gmap N st_select_lex_node) (L : list N) (v : N) : Prop :=
  match L with [] => True | a :: L => ∃ n, M !! a = Some n ∧ next n = hd_or v L ∧ chain M L v end.
Definition forward (σ : tree) (r : N) (L : list N) : Prop := cells σ !! r = Some (hd_or 0 L) ∧ chain (sels σ) L 0.

Lemma dll_app σ r L L' v : dll σ r (L ++ L') v ↔ dll σ r L (hd_or v L') ∧ snodes (sels σ) (end_link (Head r) L) L' v.
Proof. unfold dll. rewrite nodes_app, hd_or_app. naive_solver. Qed.
Lemma nodes_chain M r L v : snodes M r L v → chain M L v.
Proof. revert r. induction L as [|a L IH]; intros r; [done|]. intros (n & ? & _ & ? & ?). exists n. naive_solver. Qed.
Lemma sel_chain_app M L L' v : chain M (L ++ L') v ↔ chain M L (hd_or v L') ∧ chain M L' v.
Proof. induction L as [|a L IH]; [naive_solver|]. cbn. setoid_rewrite IH. rewrite hd_or_app. naive_solver. Qed.
Lemma sel_chain_ext M M' L v : (∀ a, a ∈ L → M' !! a = M !! a) → chain M L v → chain M' L v.
Proof.
  induction L as [|a L IH]; intros HM; [done|]. intros (n & ? & ? & ?). exists n. rewrite HM by set_solver.
  split_and!; [done..|]. apply IH; [set_solver|done].
Qed.
Lemma dll_put σ r L v a n : a ∉ L → dll σ r L v → dll (put σ a n) r L v.
Proof.
  intros Ha [Hc Hn]. split; [done|]. eapply nodes_ext; [|done]. intros b Hb. cbn. rewrite lookup_insert_ne; [done|set_solver].
Qed.
(** Writing through the pointer behind a segment of neighbours. *)
Lemma write_seg σ r L v n : dll σ r L v → NoDup L →
  ∃ σ', write σ (end_link (Head r) L) n = Some σ' ∧ dll σ' r L n ∧
    (∀ a, a ∉ L → sels σ' !! a = sels σ !! a) ∧ ∀ a, prev <$> sels σ' !! a = prev <$> sels σ !! a.
Proof.
  destruct L as [|a L _] using rev_ind.
  - intros [Hc _] _. cbn. rewrite Hc. cbn. eexists. split; [done|]. split; [|done]. split; [apply lookup_insert_eq|done].
  - rewrite dll_app, end_link_snoc, NoDup_app. intros [Hd (t & Ht & Hp & Hn & _)] (_ & Hdis & _). cbn. rewrite Ht.
    eexists. split; [done|]. split_and!.
    + apply dll_app. split; [apply dll_put; [|done]; intros ?; apply (Hdis a); set_solver|].
      cbn. exists (with_next t n). by rewrite lookup_insert_eq.
    + intros b Hb. cbn. rewrite lookup_insert_ne; [done|set_solver].
    + intros b. cbn. destruct (decide (b = a)) as [->|]; [by rewrite lookup_insert_eq, Ht|by rewrite lookup_insert_ne].
Qed.
(** The first half of [move_node]: the node is taken out. *)
Definition unlink (σ : tree) (this : N) : option tree :=
  t ← sels σ !! this;
  σ ← (if decide (next t ≠ 0%N) then n ← sels σ !! next t; Some (put σ (next t) (with_prev n (prev t))) else Some σ);
  t ← sels σ !! this; p ← prev t; write σ p (next t).
(** The second half: it is entered in front of another one. *)
Definition enter (σ : tree) (this where_to_move : N) : option tree :=
  w ← sels σ !! where_to_move; wp ← prev w; σ ← write σ wp this;
  t ← sels σ !! this; Some (put σ this (with_next t where_to_move)).
Lemma move_node_eq σ this w : w ≠ this → move_node σ this w = σ ← unlink σ this; enter σ this w.
Proof.
  intros Hw. unfold move_node, unlink. rewrite decide_False by done.
  destruct (sels σ !! this) as [t|]; [|done]. cbn. case_decide; cbn.
  - destruct (sels σ !! next t) as [n|]; [|done]. cbn. destruct (_ !! this) as [t'|]; [|done]. cbn. destruct (prev t'); [|done]. cbn. by destruct (write _ _ _).
  - destruct (sels σ !! this) as [t'|]; [|done]. cbn. destruct (prev t'); [|done]. cbn. by destruct (write _ _ _).
Qed.
Lemma unlink_dll σ r A a B : dll σ r (A ++ a :: B) 0 → NoDup (A ++ a :: B) → Forall (λ b, b ≠ 0%N) B →
  ∃ σ', unlink σ a = Some σ' ∧ dll σ' r (A ++ B) 0 ∧ is_Some (sels σ' !! a).
Proof.
  intros [Hd HB]%dll_app (HA & Hdis & HaB)%NoDup_app H0. apply NoDup_cons in HaB as [Ha HB'].
  destruct HB as (t & Ht & Hp & Hn & HB). assert (a ∉ A) by (intros ?; by apply (Hdis a); set_solver).
  unfold unlink. rewrite Ht. cbn. destruct B as [|b B]; cbn in Hn.
  - rewrite Hn, decide_False by (intros []; done). cbn. rewrite Ht. cbn. rewrite Hp, Hn. cbn.
    destruct (write_seg σ r A a 0 Hd HA) as (σ' & Hw & Hd' & Hf & _). exists σ'. rewrite app_nil_r, Hf by done. eauto.
  - apply Forall_cons in H0 as [Hb H0]. rewrite Hn, decide_True by done. cbn.
    destruct HB as (u & Hu & Hpu & Hnu & HB). rewrite Hu. cbn. assert (b ≠ a) by set_solver.
    rewrite lookup_insert_ne, Ht by done. cbn. rewrite Hp, Hn. cbn.
    assert (b ∉ A) by (intros ?; apply (Hdis b); set_solver). apply NoDup_cons in HB' as [HbB _].
    destruct (write_seg (put σ b (with_prev u (Some (end_link (Head r) A)))) r A a b (dll_put _ _ _ _ _ _ ltac:(done) Hd) HA)
      as (σ' & Hw & Hd' & Hf & _).
    exists σ'. split; [done|]. split; [|rewrite Hf by done; cbn; rewrite lookup_insert_ne; eauto].
    apply dll_app. split; [done|]. exists (with_prev u (Some (end_link (Head r) A))). rewrite Hf by done. cbn.
    rewrite lookup_insert_eq. split_and!; [done..|]. eapply nodes_ext; [|done]. intros c Hc.
    rewrite Hf by (intros ?; apply (Hdis c); set_solver). cbn. rewrite lookup_insert_ne; [done|set_solver].
Qed.
Lemma enter_forward σ r C w D a : dll σ r (C ++ w :: D) 0 → NoDup (C ++ w :: D) → a ∉ C ++ w :: D → is_Some (sels σ !! a) →
  ∃ σ', enter σ a w = Some σ' ∧ forward σ' r (C ++ a :: w :: D).
Proof.
  intros [Hd Hw]%dll_app (HC & Hdis & _)%NoDup_app Ha [t Ht]. unfold enter.
  pose proof Hw as (n & Hn & Hp & _). rewrite Hn. cbn. rewrite Hp. cbn.
  destruct (write_seg σ r C _ a Hd HC) as (σ' & -> & [Hc' Hd'] & Hf & _). cbn. rewrite Hf, Ht by set_solver. cbn.
  eexists. split; [done|]. split; [cbn; rewrite hd_or_app; done|]. apply sel_chain_app. split.
  - eapply sel_chain_ext; [|by eapply nodes_chain]. intros b Hb. cbn. rewrite lookup_insert_ne; [done|set_solver].
  - exists (with_next t w). cbn. rewrite lookup_insert_eq. split_and!; [done..|].
    eapply (sel_chain_ext _ _ (w :: D)); [|by eapply nodes_chain]. intros b Hb. cbn.
    rewrite lookup_insert_ne by set_solver. apply Hf. intros ?. by apply (Hdis b).
Qed.
End SelectNodes.

Import QueryTables.

(** [C11] Every history of calls of a statement's list of tables (entering a table, entering a
    placeholder for prelocking, marking where the own tables end, cutting the others off, asking
    for the first table that is not own, the last one, or whether prelocking is required) that
    the specification with two sequences allows runs without touching an invalid
    pointer, gives the results of the specification and leaves a list that represents its final
    state, with no other list object and no other table changed; so another list that shares no
    table with it still represents what it did. *)
Theorem query_tables_refine q q' σ s s' w os rs :
  rep σ q s → spec_run q s os = Some (s', rs) → rep σ q' w → q' ≠ q → footprint s ## footprint w →
  ∃ σ', run q σ os = Some (σ', rs) ∧ rep σ' q s' ∧ rep σ' q' w ∧
    (∀ p, p ≠ q → lists σ' !! p = lists σ !! p) ∧ ∀ a, a ∉ footprint s → tabs σ' !! a = tabs σ !! a.
Proof.
  intros HR Hrun HW Hq Hdis. destruct (run_simulates _ _ _ _ _ _ HR Hrun) as (σ' & Hr & HR' & _ & Hl & Ht).
  exists σ'. split_and!; [done..| |done|done]. apply (qt_rep_frame σ); [done|by apply Hl|]. intros a Ha. apply Ht. set_solver.
Qed.

(** [C12] The tables added for prelocking leave no trace: marking a list at its last pointer,
    entering any placeholders and cutting off gives back the list with its own tables, in their
    order, ending in a null pointer, and no prelocking is required. *)
Theorem prelocking_roundtrip q σ s Q pl :
  rep σ q s → not_own s = None → lists σ !! q = Some Q → NoDup (pl.*1) → (∀ a, a ∈ pl.*1 → a ∈ clean s ∪ dropped s) →
  ∃ σ' C D, run q σ (Mark (query_tables_last Q) :: ((λ '(a, p), Prelock a p) <$> pl) ++ [FirstNotOwn; Chop; RequiresPrelocking]) =
      Some (σ', RUnit :: ((λ _, RUnit) <$> pl) ++ [RPtr (hd_addr (pl.*1)); RUnit; RBool false]) ∧
    rep σ' q (Spec (own s) None C D) ∧ seg σ' q (own s) 0.
Proof.
  intros HR Hn HQ Hnd Hin. pose proof HR as (_ & Hnd' & _ & (Q' & HQ' & Hl & _) & _). simplify_eq.
  assert (Hall : all s = own s) by (unfold all; rewrite Hn; apply app_nil_r).
  destruct (prelock_spec_run q (Spec (own s) (Some []) (clean s) (dropped s)) [] pl Hnd Hin eq_refl) as (C & D & Hr).
  destruct (run_simulates q (Mark (query_tables_last Q) :: ((λ '(a, p), Prelock a p) <$> pl) ++ [FirstNotOwn; Chop; RequiresPrelocking]) σ s
    (Spec (own s) None C (D ∪ list_to_set (pl.*1))) (RUnit :: ((λ _, RUnit) <$> pl) ++ [RPtr (hd_addr (pl.*1)); RUnit; RBool false]))
    as (σ' & Hrun & HR' & _); [done| |].
  - cbn [spec_run]. unfold spec_step at 1. rewrite Hl, split_at_end by done. cbn [mbind option_bind].
    rewrite firstn_all, drop_all, Hall, spec_run_app, Hr. done.
  - exists σ', C, (D ∪ list_to_set (pl.*1)). split_and!; [done..|].
    destruct HR' as (Hs & _). unfold all in Hs. cbn in Hs. by rewrite app_nil_r in Hs.
Qed.

(** A statement with the tables 10 and 11, and another with the table 20. *)
Definition ex_tab (n : N) (r : option link) : TABLE_LIST := with_prev (with_next (init_one_table "db" "t" None TL_READ) n) r.
Definition ex_store : store :=
  Store (<[1%N := QTL 10 (NextOf 11) None LTS_NOT_LOCKED]> {[2%N := QTL 20 (NextOf 20) None LTS_NOT_LOCKED]})
    (list_to_map [(10%N, ex_tab 11 (Some (Head 1))); (11%N, ex_tab 0 (Some (NextOf 10))); (12%N, ex_tab 0 None); (13%N, ex_tab 0 None);
                  (20%N, ex_tab 0 (Some (Head 2)))]).
Definition ex_spec : spec := Spec [10%N; 11%N] None {[12%N; 13%N]} ∅.
Definition ex_args : prelock_args := PArgs "db" "p" None TL_WRITE PRELOCK_ROUTINE 0 0.

Lemma ex_rep : rep ex_store 1 ex_spec.
Proof.
  split_and!; [| | | | |set_solver].
  - eexists. split; [vm_compute; reflexivity|]. split; [done|]. cbn [nodes_of all ex_spec own not_own default app].
    repeat (eexists; split_and!; [vm_compute; reflexivity|reflexivity|reflexivity|]). done.
  - apply (bool_decide_unpack _). vm_compute. done.
  - apply (bool_decide_unpack _). vm_compute. done.
  - eexists. split; [vm_compute; reflexivity|]. done.
  - intros a Ha. cbn in Ha. apply elem_of_union in Ha as [->%elem_of_singleton| ->%elem_of_singleton].
    all: split_and!; [apply (bool_decide_unpack _); vm_compute; done|done|eexists; split; [vm_compute; reflexivity|done]].
Qed.
Lemma ex_rep2 : rep ex_store 2 (Spec [20%N] None ∅ ∅).
Proof.
  split_and!; [| | | |set_solver|set_solver].
  - eexists. split; [vm_compute; reflexivity|]. split; [done|]. cbn [nodes_of all own not_own default app].
    repeat (eexists; split_and!; [vm_compute; reflexivity|reflexivity|reflexivity|]). done.
  - apply (bool_decide_unpack _). vm_compute. done.
  - apply (bool_decide_unpack _). vm_compute. done.
  - eexists. split; [vm_compute; reflexivity|]. done.
Qed.
Definition ex_ops : list op := [Add 12; Mark (NextOf 12); Prelock 13 ex_args; FirstNotOwn; LastTable; Chop; LastTable; Prelock 13 ex_args].

Lemma query_tables_refine_witness :
  ∃ s' rs σ', run 1 ex_store ex_ops = Some (σ', rs) ∧ rep σ' 1 s' ∧ rep σ' 2 (Spec [20%N] None ∅ ∅) ∧
    own s' = [10; 11; 12; 13]%N ∧ rs = [RUnit; RUnit; RUnit; RPtr 13; RPtr 13; RUnit; RPtr 12; RUnit].
Proof.
  destruct (spec_run 1 ex_spec ex_ops) as [[s' rs]|] eqn:E; [|by vm_compute in E].
  destruct (query_tables_refine 1 2 ex_store ex_spec s' (Spec [20%N] None ∅ ∅) ex_ops rs ex_rep E ex_rep2) as (σ' & Hr & HR & HR2 & _).
  - done.
  - apply (bool_decide_unpack _). vm_compute. done.
  - exists s', rs, σ'. split_and!; [done..| |]; vm_compute in E; by simplify_eq.
Defined.
Lemma prelocking_roundtrip_witness :
  ∃ σ' C D, run 1 ex_store [Mark (NextOf 11); Prelock 13 ex_args; Prelock 12 ex_args; FirstNotOwn; Chop; RequiresPrelocking] =
      Some (σ', [RUnit; RUnit; RUnit; RPtr 13; RUnit; RBool false]) ∧
    rep σ' 1 (Spec [10; 11]%N None C D) ∧ seg σ' 1 [10; 11]%N 0.
Proof.
  apply (prelocking_roundtrip 1 ex_store ex_spec (QTL 10 (NextOf 11) None LTS_NOT_LOCKED) [(13%N, ex_args); (12%N, ex_args)]);
    [exact ex_rep|done|vm_compute; reflexivity|apply (bool_decide_unpack _); vm_compute; done|cbn; set_solver].
Defined.

(** A list object is saved in another one while the statement's object is used for
    other tables, and restored: it represents the tables it did, also when there are none and its last
    pointer points into the object itself. *)
Theorem query_tables_backup q b σ s σ1 Q0 s0 s1 os rs :
  rep σ q s → b ≠ q → set_query_tables_list σ b q = Some σ1 →
  rep (put_list σ1 q Q0) q s0 → footprint s0 ## footprint s → spec_run q s0 os = Some (s1, rs) →
  ∃ σ2 σ3, run q (put_list σ1 q Q0) os = Some (σ2, rs) ∧ set_query_tables_list σ2 q b = Some σ3 ∧ rep σ3 q s.
Proof.
  intros HR Hb Hset HR0 Hdis Hrun. destruct (run_simulates _ _ _ _ _ _ HR0 Hrun) as (σ2 & Hr & _ & _ & Hl & Ht).
  pose proof HR as ((Q & HQ & _) & _). unfold set_query_tables_list in *. rewrite HQ in Hset. cbn in Hset. simplify_eq.
  assert (Hsave : lists σ2 !! b = Some Q) by (rewrite (Hl b Hb); cbn; by rewrite lookup_insert_ne, lookup_insert_eq).
  exists σ2, (put_list σ2 q Q). rewrite Hsave. split_and!; [done..|].
  apply (qt_rep_frame σ); [done|cbn; by rewrite lookup_insert_eq|]. intros a Ha. cbn. apply Ht. set_solver.
Qed.
Lemma query_tables_backup_witness :
  ∃ σ1 σ2 σ3, set_query_tables_list ex_store 3 2 = Some σ1 ∧
    run 2 (put_list σ1 2 (QTL 0 (Head 2) None LTS_NOT_LOCKED)) [Add 12] = Some (σ2, [RUnit]) ∧
    set_query_tables_list σ2 2 3 = Some σ3 ∧ rep σ3 2 (Spec [20%N] None ∅ ∅).
Proof.
  destruct (set_query_tables_list ex_store 3 2) as [σ1|] eqn:E1; [|by vm_compute in E1].
  destruct (spec_run 2 (Spec [] None {[12%N]} ∅) [Add 12]) as [[s1 rs]|] eqn:E; [|by vm_compute in E].
  destruct (query_tables_backup 2 3 ex_store (Spec [20%N] None ∅ ∅) σ1 (QTL 0 (Head 2) None LTS_NOT_LOCKED) (Spec [] None {[12%N]} ∅) s1 [Add 12] rs)
    as (σ2 & σ3 & Hr & Hs & HR); [exact ex_rep2|done|done| |apply (bool_decide_unpack _); vm_compute; done|done|].
  - assert (E2 : tabs σ1 = tabs ex_store) by (unfold set_query_tables_list in E1; apply bind_Some in E1 as (? & _ & [= <-]); done).
    split_and!; [| | | | |set_solver].
    + eexists. split; [apply lookup_insert_eq|]. done.
    + apply NoDup_nil_2.
    + done.
    + eexists. split; [apply lookup_insert_eq|]. done.
    + intros a Ha. cbn in Ha. apply elem_of_singleton in Ha as ->. split_and!; [set_solver|done|]. cbn. rewrite E2. eexists. split; [vm_compute; reflexivity|done].
  - exists σ1, σ2, σ3. split_and!; try done. rewrite Hr. vm_compute in E. by simplify_eq.
Defined.
(** A copy of a list without tables is not a list of its own: its last pointer points into the
    object it was copied from, and a table added through the copy is entered there. *)
Lemma copied_empty_list_aliases q b σ Q σ1 a t :
  lists σ !! q = Some Q → query_tables_last Q = Head q → b ≠ q → tabs σ !! a = Some t → set_query_tables_list σ b q = Some σ1 →
  ∃ σ2, add_to_query_tables σ1 b a = Some σ2 ∧
    query_tables <$> lists σ2 !! q = Some a ∧ query_tables <$> lists σ2 !! b = Some (query_tables Q).
Proof.
  unfold set_query_tables_list, add_to_query_tables. intros HQ Hl Hb Ht. rewrite HQ. intros [= <-]. cbn.
  rewrite lookup_insert_eq. cbn. rewrite Ht. cbn. rewrite Hl. cbn. rewrite lookup_insert_ne, HQ by done. cbn.
  rewrite lookup_insert_ne, lookup_insert_eq by done. cbn. eexists. split; [done|]. cbn.
  rewrite lookup_insert_ne, !lookup_insert_eq by done. done.
Qed.

(** ** Moving a select *)

Import SelectNodes.

(** Moving a select in front of a neighbour, in a list whose links agree in
    both directions, gives a list in which following [next] meets the same selects with the moved
    one directly in front of the other; moving it in front of itself changes nothing. *)
Theorem move_node_forward σ r A a B C w D :
  dll σ r (A ++ a :: B) 0 → NoDup (A ++ a :: B) → Forall (λ b, b ≠ 0%N) (A ++ a :: B) → A ++ B = C ++ w :: D →
  move_node σ a a = Some σ ∧ ∃ σ', move_node σ a w = Some σ' ∧ forward σ' r (C ++ a :: w :: D).
Proof.
  intros Hd Hnd H0 Heq. split; [unfold move_node; by rewrite decide_True|].
  apply Forall_app in H0 as [_ [_ H0]%Forall_cons]. destruct (unlink_dll _ _ _ _ _ Hd Hnd H0) as (σ1 & Hu & Hd1 & Ht).
  rewrite <- Permutation_middle in Hnd. apply NoDup_cons in Hnd as [Ha Hnd]. rewrite Heq in Ha, Hnd, Hd1.
  rewrite move_node_eq, Hu by set_solver. by apply enter_forward.
Qed.

(** The selects 1, 2 and 3 of a union, with their links. *)
Definition ex_sel (n : N) (r : link) : st_select_lex_node := SLN n (Some r) 9 0 0 None UNION_TYPE.
Definition ex_tree : tree := Tree {[0%N := 1%N]} (list_to_map [(1%N, ex_sel 2 (Head 0)); (2%N, ex_sel 3 (NextOf 1)); (3%N, ex_sel 0 (NextOf 2))]).
Lemma ex_dll : dll ex_tree 0 [1; 2; 3]%N 0.
Proof. split; [done|]. repeat (eexists; split_and!; [vm_compute; reflexivity|reflexivity|reflexivity|]). done. Qed.
Lemma move_node_forward_witness :
  move_node ex_tree 2 2 = Some ex_tree ∧ ∃ σ', move_node ex_tree 2 1 = Some σ' ∧ forward σ' 0 ([] ++ [2; 1; 3])%N.
Proof.
  apply (move_node_forward ex_tree 0 [1%N] 2 [3%N] [] 1 [3%N]);
    [exact ex_dll|apply (bool_decide_unpack _); vm_compute; done|apply (bool_decide_unpack _); vm_compute; done|done].
Defined.
(** The links back are not moved: the moved select keeps its old [prev], and so does the one it now
    precedes.  Moving the two last selects of a union in front of the first, one after the other,
    therefore loses the one moved first: the second move writes through the stale [prev] of the
    first select, past it. *)
Theorem move_node_twice_loses_one :
  ∃ σ1 σ2, move_node ex_tree 2 1 = Some σ1 ∧ forward σ1 0 [2; 1; 3]%N ∧
    prev <$> sels σ1 !! 1%N = Some (Some (Head 0)) ∧ prev <$> sels σ1 !! 2%N = Some (Some (NextOf 1)) ∧
    move_node σ1 3 1 = Some σ2 ∧ forward σ2 0 [3; 1]%N.
Proof.
  eexists _, _. split; [vm_compute; reflexivity|]. split_and!; try (vm_compute; reflexivity).
  all: split; [done|]; repeat (eexists; split_and!; [vm_compute; reflexivity|reflexivity|]); done.
Qed.
