(* ===== verification/Tables.v ===== *)
(** * Tables, table references and join tabs

    From table.h: the shared definition of a table ([TABLE_SHARE]: its cache key, its category and the
    version by which a prepared statement recognises it), the column maps of an open table, and a
    table reference of a query ([TABLE_LIST]: its number and bit, the phases of a view or derived table, the
    walks up and down the nesting).  From sql_select.h: the predicates of [JOIN_TAB]. *)

From Stdlib Require Import ZArith NArith Lia.
From stdpp Require Import base numbers option list gmap fin_maps.
From S2P Require Import Prelude.
Open Scope Z_scope.
Open Scope cint_scope.

(** ** The shared definition of a table *)

Module TableShare.

Inductive tmp_table_type := NO_TMP_TABLE | NON_TRANSACTIONAL_TMP_TABLE | TRANSACTIONAL_TMP_TABLE | INTERNAL_TMP_TABLE | SYSTEM_TMP_TABLE.
#[global] Instance tmp_table_type_eq : EqDecision tmp_table_type.
Proof. solve_decision. Defined.
Inductive enum_table_ref_type := TABLE_REF_NULL | TABLE_REF_VIEW | TABLE_REF_BASE_TABLE | TABLE_REF_I_S_TABLE | TABLE_REF_TMP_TABLE.
#[global] Instance enum_table_ref_type_eq : EqDecision enum_table_ref_type.
Proof. solve_decision. Defined.
Inductive enum_table_category :=
  | TABLE_UNKNOWN_CATEGORY | TABLE_CATEGORY_TEMPORARY | TABLE_CATEGORY_USER | TABLE_CATEGORY_SYSTEM | TABLE_CATEGORY_INFORMATION
  | TABLE_CATEGORY_LOG | TABLE_CATEGORY_PERFORMANCE.
#[global] Instance enum_table_category_eq : EqDecision enum_table_category.
Proof. solve_decision. Defined.
Inductive vers_sys_type_t := VERS_UNDEFINED | VERS_TIMESTAMP | VERS_TRX_ID.
#[global] Instance vers_sys_type_t_eq : EqDecision vers_sys_type_t.
Proof. solve_decision. Defined.

(** A string in memory: where it starts and its length. *)
Record LEX_STRING := LexStr { str : nat; len : nat }.
Record TABLE_SHARE := Share {
  table_cache_key : LEX_STRING; db : LEX_STRING; table_name : LEX_STRING;
  table_category : enum_table_category; table_map_id : Z; is_view : bool; tmp_table : tmp_table_type;
  versioned : vers_sys_type_t; row_start_field : nat; row_end_field : nat; use_ext_keys : bool
}.

(** [strlen] of the bytes from [p] on; there must be a zero byte. *)
Fixpoint strlen_from (b : list Z) : option nat :=
  match b with [] => None | c :: b => if decide (c = 0) then Some O else S <$> strlen_from b end.
Definition strlen (mem : list Z) (p : nat) : option nat := strlen_from (drop p mem).
Definition set_table_cache_key (mem : list Z) (s : TABLE_SHARE) (key_buff key_length : nat) : option TABLE_SHARE :=
  let key := LexStr key_buff key_length in
  n ← strlen mem (str key);
  let d := LexStr (str key) n in
  m ← strlen mem (str d + n + 1);
  Some (Share key d (LexStr (str d + n + 1) m) (table_category s) (table_map_id s) (is_view s) (tmp_table s)
          (versioned s) (row_start_field s) (row_end_field s) (use_ext_keys s)).
(** The bytes [key] are copied to [key_buff] first. *)
Definition memcpy (mem : list Z) (dst : nat) (b : list Z) : option (list Z) :=
  if decide (dst + length b ≤ length mem)%nat then Some (take dst mem ++ b ++ drop (dst + length b) mem) else None.
Definition set_table_cache_key_copy (mem : list Z) (s : TABLE_SHARE) (key_buff : nat) (key : list Z) : option (list Z * TABLE_SHARE) :=
  mem ← memcpy mem key_buff key;
  s ← set_table_cache_key mem s key_buff (length key);
  Some (mem, s).
Definition honor_global_locks (s : TABLE_SHARE) : bool :=
  bool_decide (table_category s = TABLE_CATEGORY_USER ∨ table_category s = TABLE_CATEGORY_SYSTEM).
Definition require_write_privileges (s : TABLE_SHARE) : bool := bool_decide (table_category s = TABLE_CATEGORY_LOG).
Definition get_table_def_version (s : TABLE_SHARE) : Z := table_map_id s.
Definition get_table_ref_type (s : TABLE_SHARE) : enum_table_ref_type :=
  if is_view s then TABLE_REF_VIEW
  else match tmp_table s with
  | NO_TMP_TABLE => TABLE_REF_BASE_TABLE
  | SYSTEM_TMP_TABLE => TABLE_REF_I_S_TABLE
  | _ => TABLE_REF_TMP_TABLE
  end.
Definition get_table_ref_version (s : TABLE_SHARE) : Z := if decide (tmp_table s = SYSTEM_TMP_TABLE) then 0 else table_map_id s.

(** The fields of an array by number; a number outside is not a field. *)
Definition vers_start_field (s : TABLE_SHARE) (field : list N) : option N := field !! row_start_field s.
Definition vers_end_field (s : TABLE_SHARE) (field : list N) : option N := field !! row_end_field s.

(** *** Versioned tables: members of [TABLE]; [vers_write] is the table's *)
Definition table_versioned (s : TABLE_SHARE) : bool := bool_decide (versioned s ≠ VERS_UNDEFINED).
Definition table_versioned_as (s : TABLE_SHARE) (type : vers_sys_type_t) : bool := bool_decide (versioned s = type).
Definition versioned_write (s : TABLE_SHARE) (vers_write : bool) (type : vers_sys_type_t) : bool :=
  if table_versioned_as s type then vers_write else false.
(** What the assertions of [versioned_write] and of [versioned(type)] demand. *)
Definition versioned_write_asserts (s : TABLE_SHARE) (vers_write : bool) (type : vers_sys_type_t) : bool :=
  (table_versioned s || negb vers_write) && bool_decide (type ≠ VERS_UNDEFINED).

Lemma strlen_spec b r : Forall (λ c, c ≠ 0) b → strlen_from (b ++ 0 :: r) = Some (length b).
Proof. induction 1 as [|c b Hc _ IH]; [done|]. cbn. rewrite decide_False by done. by rewrite IH. Qed.
End TableShare.

(** ** The column maps of an open table *)

Module ColumnMaps.

(** A [MY_BITMAP] owns a pointer to its words; the words themselves are elsewhere, named by a number. *)
Record table := Table { read_set : N; write_set : N; vcol_set : N; rpl_write_set : N; db_stat : bool; m_needs_reopen : bool;
  map : Z; tablenr : Z; created : bool; null_row : bool; status : Z }.
(** The maps a table has of its own, and the one of the share with every bit set. *)
Record own_maps := Maps { def_read_set : N; def_write_set : N; def_vcol_set : N; all_set : N }.
Definition with_sets (t : table) (r w v l : N) : table :=
  Table r w v l (db_stat t) (m_needs_reopen t) (map t) (tablenr t) (created t) (null_row t) (status t).

(** The second component says whether the engine is told of the change ([column_bitmaps_signal]); [file] says
    whether there is an engine. *)
Definition column_bitmaps_set1 (file : bool) (t : table) (r : N) : table * bool :=
  (with_sets t r (write_set t) (vcol_set t) (rpl_write_set t), file).
Definition column_bitmaps_set2 (file : bool) (t : table) (r w : N) : table * bool :=
  (with_sets t r w (vcol_set t) (rpl_write_set t), file).
Definition column_bitmaps_set3 (file : bool) (t : table) (r w v : N) : table * bool :=
  (with_sets t r w v (rpl_write_set t), file).
Definition column_bitmaps_set_no_signal2 (t : table) (r w : N) : table := with_sets t r w (vcol_set t) (rpl_write_set t).
Definition column_bitmaps_set_no_signal3 (t : table) (r w v : N) : table := with_sets t r w v (rpl_write_set t).
Definition use_all_columns (m : own_maps) (file : bool) (t : table) : table * bool := column_bitmaps_set2 file t (all_set m) (all_set m).
Definition default_column_bitmaps (m : own_maps) (t : table) : table := with_sets t (def_read_set m) (def_write_set m) (def_vcol_set m) 0.
Definition needs_reopen (t : table) : bool := negb (db_stat t) || m_needs_reopen t.
Definition set_table_map (t : table) (map_arg tablenr_arg : Z) : table :=
  Table (read_set t) (write_set t) (vcol_set t) (rpl_write_set t) (db_stat t) (m_needs_reopen t) map_arg tablenr_arg (created t) (null_row t) (status t).
Definition is_created (t : table) : bool := created t.
(** The engine is asked to read keys only, when it was to, at the moment the table comes to exist. *)
Definition set_created (keyread_enabled : bool) (t : table) : table * bool :=
  if created t then (t, false)
  else (Table (read_set t) (write_set t) (vcol_set t) (rpl_write_set t) (db_stat t) (m_needs_reopen t) (map t) (tablenr t) true (null_row t) (status t),
        keyread_enabled).
Definition STATUS_NULL_ROW : Z := 32.
(** The null bits of the record are set; [null_flags] are the bytes from there on. *)
Definition mark_as_null_row (t : table) (null_flags : list Z) (null_bytes : nat) : option (table * list Z) :=
  if decide (null_bytes ≤ length null_flags)%nat
  then Some (Table (read_set t) (write_set t) (vcol_set t) (rpl_write_set t) (db_stat t) (m_needs_reopen t) (map t) (tablenr t) (created t) true
               (status t .| STATUS_NULL_ROW),
             replicate null_bytes 255 ++ drop null_bytes null_flags)
  else None.
Definition set_zone (nr min_zone max_zone : Z) : Z :=
  if decide (nr ≤ min_zone) then min_zone else if decide (max_zone ≤ nr) then max_zone else nr.

(** *** Using all columns for a while

    The [bitmap] pointer of each [MY_BITMAP]; two names may be the same object. *)
Notation bitmaps := (gmap N N).
Definition tmp_use_all_columns (m : own_maps) (B : bitmaps) (bitmap : N) : option (bitmaps * N) :=
  old ← B !! bitmap; a ← B !! all_set m; Some (<[bitmap := a]> B, old).
Definition tmp_restore_column_map (B : bitmaps) (bitmap old : N) : option bitmaps := _ ← B !! bitmap; Some (<[bitmap := old]> B).
(** With assertions compiled in; without them these two do nothing. *)
Definition dbug_tmp_use_all_columns2 (m : own_maps) (B : bitmaps) (r w : N) : option (bitmaps * (N * N)) :=
  s0 ← B !! r; s1 ← B !! w;
  '(B, _) ← tmp_use_all_columns m B r; '(B, _) ← tmp_use_all_columns m B w;
  Some (B, (s0, s1)).
Definition dbug_tmp_restore_column_maps (B : bitmaps) (r w : N) (old : N * N) : option bitmaps :=
  B ← tmp_restore_column_map B r (fst old); tmp_restore_column_map B w (snd old).
End ColumnMaps.

(** ** Table references *)

Module TableRef.
Import TableShare ColumnMaps.

Definition DTYPE_ALGORITHM_UNDEFINED : Z := 0.
Definition DTYPE_VIEW : Z := 1.
Definition DTYPE_TABLE : Z := 2.
Definition DTYPE_MERGE : Z := 4.
Definition DTYPE_MATERIALIZE : Z := 8.
Definition DTYPE_MULTITABLE : Z := 16.
Definition DTYPE_MASK : Z := DTYPE_VIEW .| DTYPE_TABLE .| DTYPE_MULTITABLE.

(** Addresses are numbers and 0 is the null pointer; [jtbm_subselect] says whether there is one. *)
Record TABLE_LIST := TL {
  t_table : N; jtbm_subselect : bool; jtbm_table_no : Z;
  derived : N; view : N; schema_table : N;
  derived_type : Z; belong_to_view : N; merge_underlying_list : N; embedding : N; outer_join : Z;
  m_table_ref_type : enum_table_ref_type; m_table_ref_version : Z;
  join_columns : option (list N); is_join_columns_complete : bool; effective_with_check : Z
}.
Definition with_derived (t : TABLE_LIST) (d : N) (ty : Z) : TABLE_LIST :=
  TL (t_table t) (jtbm_subselect t) (jtbm_table_no t) d (view t) (schema_table t) ty (belong_to_view t) (merge_underlying_list t)
    (embedding t) (outer_join t) (m_table_ref_type t) (m_table_ref_version t) (join_columns t) (is_join_columns_complete t) (effective_with_check t).
Definition with_jtbm_no (t : TABLE_LIST) (n : Z) : TABLE_LIST :=
  TL (t_table t) (jtbm_subselect t) n (derived t) (view t) (schema_table t) (derived_type t) (belong_to_view t) (merge_underlying_list t)
    (embedding t) (outer_join t) (m_table_ref_type t) (m_table_ref_version t) (join_columns t) (is_join_columns_complete t) (effective_with_check t).
Definition with_ref_id (t : TABLE_LIST) (ty : enum_table_ref_type) (v : Z) : TABLE_LIST :=
  TL (t_table t) (jtbm_subselect t) (jtbm_table_no t) (derived t) (view t) (schema_table t) (derived_type t) (belong_to_view t) (merge_underlying_list t)
    (embedding t) (outer_join t) ty v (join_columns t) (is_join_columns_complete t) (effective_with_check t).

(** *** Numbers and bits of tables; shifting a [table_map] by 64 or more is undefined *)
Definition table_bit (n : Z) : option Z := if decide (0 ≤ n < 64) then Some (1 ≪ n) else None.
Lemma table_bit_in n : 0 ≤ n < 64 → table_bit n = Some (2 ^ n).
Proof. intros Hn. unfold table_bit. rewrite decide_True by done. by rewrite Z.shiftl_1_l. Qed.
Definition get_map (T : gmap N table) (t : TABLE_LIST) : option Z :=
  if jtbm_subselect t then table_bit (jtbm_table_no t) else map <$> T !! t_table t.
Definition get_tablenr (T : gmap N table) (t : TABLE_LIST) : option Z :=
  if jtbm_subselect t then Some (jtbm_table_no t) else tablenr <$> T !! t_table t.
Definition set_tablenr (T : gmap N table) (t : TABLE_LIST) (new_tablenr : Z) : option (gmap N table * TABLE_LIST) :=
  let t := if jtbm_subselect t then with_jtbm_no t new_tablenr else t in
  if decide (t_table t ≠ 0%N) then
    x ← T !! t_table t; b ← table_bit new_tablenr;
    Some (<[t_table t := set_table_map x b new_tablenr]> T, t)
  else Some (T, t).

Definition placeholder (t : TABLE_LIST) : bool :=
  bool_decide (derived t ≠ 0%N ∨ view t ≠ 0%N ∨ schema_table t ≠ 0%N ∨ t_table t = 0%N).
Definition top_table (this : N) (t : TABLE_LIST) : N := if decide (belong_to_view t ≠ 0%N) then belong_to_view t else this.
(** [prep_check_option] and [prep_where] are given. *)
Definition prepare_check_option (prep : Z → bool) (t : TABLE_LIST) : bool :=
  if decide (effective_with_check t ≠ 0) then prep (effective_with_check t) else false.
Definition is_table_ref_id_equal (t : TABLE_LIST) (s : TABLE_SHARE) : bool :=
  bool_decide (m_table_ref_type t = get_table_ref_type s) && bool_decide (m_table_ref_version t = get_table_ref_version s).
Definition set_table_ref_id_to (t : TABLE_LIST) (ty : enum_table_ref_type) (v : Z) : TABLE_LIST := with_ref_id t ty v.
Definition set_table_ref_id (t : TABLE_LIST) (s : TABLE_SHARE) : TABLE_LIST := set_table_ref_id_to t (get_table_ref_type s) (get_table_ref_version s).

(** *** Views and derived tables *)
Definition flag (m : Z) (t : TABLE_LIST) : bool := bool_decide (derived_type t .& m ≠ 0).
Definition is_non_derived (t : TABLE_LIST) : bool := bool_decide (derived_type t = 0).
Definition is_view_or_derived (t : TABLE_LIST) : bool := bool_decide (derived_type t ≠ 0).
Definition is_view : TABLE_LIST → bool := flag DTYPE_VIEW.
Definition is_derived : TABLE_LIST → bool := flag DTYPE_TABLE.
Definition is_merged_derived : TABLE_LIST → bool := flag DTYPE_MERGE.
Definition is_materialized_derived : TABLE_LIST → bool := flag DTYPE_MATERIALIZE.
Definition is_multitable : TABLE_LIST → bool := flag DTYPE_MULTITABLE.
Definition set_view (t : TABLE_LIST) : TABLE_LIST := with_derived t (derived t) DTYPE_VIEW.
Definition set_derived (t : TABLE_LIST) : TABLE_LIST := with_derived t (derived t) DTYPE_TABLE.
(** [W] is the rest of the query.  [get_unit], the unit of the derived table or view, and the two functions that set up the
    checks of the unit's selects are declared only; the functions are given the reference too. *)
Section units.
Context {W : Type} (get_unit : W → TABLE_LIST → N) (set_check_merged set_check_materialized : W → TABLE_LIST → W * TABLE_LIST).
Definition set_merged_derived (w : W) (t : TABLE_LIST) : W * TABLE_LIST :=
  let t := with_derived t (derived t) ((derived_type t .& DTYPE_MASK) .| DTYPE_TABLE .| DTYPE_MERGE) in
  set_check_merged w t.
Definition set_materialized_derived (w : W) (t : TABLE_LIST) : W * TABLE_LIST :=
  let t := with_derived t (get_unit w t) (derived_type t) in
  let t := with_derived t (derived t)
    ((derived_type t .& (if decide (derived t ≠ 0%N) then DTYPE_MASK else DTYPE_VIEW)) .| DTYPE_TABLE .| DTYPE_MATERIALIZE) in
  set_check_materialized w t.
End units.
Definition set_multitable (t : TABLE_LIST) : TABLE_LIST := with_derived t (derived t) (derived_type t .| DTYPE_MULTITABLE).
Definition is_anonymous_derived_table (t : TABLE_LIST) : bool := bool_decide (derived t ≠ 0%N ∧ view t = 0%N).
Definition prepare_where (prep : bool) (t : TABLE_LIST) : bool :=
  if decide (view t = 0%N) then prep else if is_merged_derived t then prep else false.
Definition is_jtbm (t : TABLE_LIST) : bool := jtbm_subselect t.
Definition remove_join_columns (t : TABLE_LIST) : TABLE_LIST :=
  match join_columns t with
  | Some _ => TL (t_table t) (jtbm_subselect t) (jtbm_table_no t) (derived t) (view t) (schema_table t) (derived_type t) (belong_to_view t)
                (merge_underlying_list t) (embedding t) (outer_join t) (m_table_ref_type t) (m_table_ref_version t) None false (effective_with_check t)
  | None => t
  end.

(** *** The walks down the views and up the nests

    The references of a query by address.  [single_table_updatable] is given. *)
Notation refs := (gmap N TABLE_LIST).
Fixpoint find_table_loop (single_table_updatable : N → bool) (R : refs) (fuel : nat) (tbl : N) : option N :=
  match fuel with
  | O => None
  | S fuel =>
      t ← R !! tbl;
      if negb (is_multitable t) && single_table_updatable tbl && bool_decide (merge_underlying_list t ≠ 0%N)
      then find_table_loop single_table_updatable R fuel (merge_underlying_list t)
      else Some tbl
  end.
Definition find_table_for_update (upd : N → bool) (R : refs) (fuel : nat) (this : N) : option N := find_table_loop upd R fuel this.
Fixpoint outer_join_loop (R : refs) (fuel : nat) (tbl : N) : option bool :=
  match fuel with
  | O => None
  | S fuel =>
      if decide (tbl = 0%N) then Some false
      else t ← R !! tbl; if decide (outer_join t ≠ 0) then Some true else outer_join_loop R fuel (embedding t)
  end.
Definition is_inner_table_of_outer_join (R : refs) (fuel : nat) (this : N) : option bool := outer_join_loop R fuel this.

(** *** What a reference promises about the kind of its table

    The kind is a set of flags of which the two ways to compute a derived table exclude each other. *)
Inductive algorithm := Undefined | Merge | Materialize.
#[global] Instance algorithm_eq : EqDecision algorithm.
Proof. solve_decision. Defined.
Record kind := Kind { k_view : bool; k_table : bool; k_alg : algorithm; k_multi : bool }.
Definition code (k : kind) : Z :=
  (if k_view k then DTYPE_VIEW else 0) .| (if k_table k then DTYPE_TABLE else 0) .| (if k_multi k then DTYPE_MULTITABLE else 0) .|
  (match k_alg k with Undefined => 0 | Merge => DTYPE_MERGE | Materialize => DTYPE_MATERIALIZE end).
Inductive op := SetView | SetDerived | SetMerged | SetMaterialized | SetMultitable.

Section kinds.
Context {W : Type} (get_unit : W → TABLE_LIST → N) (set_check_merged set_check_materialized : W → TABLE_LIST → W * TABLE_LIST).
Definition exec (s : W * TABLE_LIST) (o : op) : W * TABLE_LIST :=
  let '(w, t) := s in
  match o with
  | SetView => (w, set_view t) | SetDerived => (w, set_derived t) | SetMultitable => (w, set_multitable t)
  | SetMerged => set_merged_derived set_check_merged w t
  | SetMaterialized => set_materialized_derived get_unit set_check_materialized w t
  end.
(** The reference [t0] with a unit and a kind. *)
Definition with_kind (t0 : TABLE_LIST) (u : N) (k : kind) : TABLE_LIST := with_derived t0 u (code k).
(** The specification: the unit and the kind of [t0], with the checks set up for the new kind. *)
Definition spec (t0 : TABLE_LIST) (s : W * N * kind) (o : op) : W * N * kind :=
  let '(w, u, k) := s in
  match o with
  | SetView => (w, u, Kind true false Undefined false)
  | SetDerived => (w, u, Kind false true Undefined false)
  | SetMultitable => (w, u, Kind (k_view k) (k_table k) (k_alg k) true)
  | SetMerged =>
      let k := Kind (k_view k) true Merge (k_multi k) in ((set_check_merged w (with_kind t0 u k)).1, u, k)
  | SetMaterialized =>
      let u := get_unit w (with_kind t0 u k) in
      let k := Kind (k_view k) true Materialize (k_multi k && bool_decide (u ≠ 0%N)) in
      ((set_check_materialized w (with_kind t0 u k)).1, u, k)
  end.

Context (check_merged_keeps : ∀ w t, (set_check_merged w t).2 = t) (check_materialized_keeps : ∀ w t, (set_check_materialized w t).2 = t).

Lemma kind_exec_spec t0 w u k o :
  exec (w, with_kind t0 u k) o = let '(w', u', k') := spec t0 (w, u, k) o in (w', with_kind t0 u' k').
Proof.
  destruct o; [by destruct k as [[] [] [] []]|by destruct k as [[] [] [] []]| | |by destruct k as [[] [] [] []]];
    cbn [exec spec]; unfold set_merged_derived, set_materialized_derived.
  - set (t := with_derived _ _ _). assert (t = with_kind t0 u (Kind (k_view k) true Merge (k_multi k))) as -> by by destruct k as [[] [] [] []].
    destruct (set_check_merged _ _) as [w' t'] eqn:E. pose proof (check_merged_keeps w (with_kind t0 u (Kind (k_view k) true Merge (k_multi k)))) as K. rewrite E in K. by rewrite <- K.
  - set (v := get_unit _ _). set (t := with_derived _ _ _). set (k' := Kind _ _ _ _).
    assert (t = with_kind t0 v k') as ->.
    { subst t k'. clearbody v. cbn [derived derived_type with_derived with_kind]. destruct (decide (v ≠ 0%N)) as [E|E];
        [rewrite (bool_decide_true _ E)|rewrite (bool_decide_false _ E)]; by destruct k as [[] [] [] []]. }
    destruct (set_check_materialized _ _) as [w' t'] eqn:E. pose proof (check_materialized_keeps w (with_kind t0 v k')) as K. rewrite E in K. by rewrite <- K.
Qed.
Lemma kind_run_spec t0 os : ∀ w u k,
  foldl exec (w, with_kind t0 u k) os = let '(w', u', k') := foldl (spec t0) (w, u, k) os in (w', with_kind t0 u' k').
Proof.
  induction os as [|o os IH]; intros w u k; [done|]. cbn [foldl]. rewrite kind_exec_spec.
  destruct (spec t0 (w, u, k) o) as [[w1 u1] k1]. apply IH.
Qed.
End kinds.
Lemma flags_code t k : derived_type t = code k →
  is_view t = k_view k ∧ is_derived t = k_table k ∧ is_multitable t = k_multi k ∧
  is_merged_derived t = bool_decide (k_alg k = Merge) ∧ is_materialized_derived t = bool_decide (k_alg k = Materialize) ∧
  is_view_or_derived t = negb (is_non_derived t).
Proof.
  intros Ht. unfold is_view, is_derived, is_multitable, is_merged_derived, is_materialized_derived, is_view_or_derived, is_non_derived, flag.
  rewrite Ht. by destruct k as [[] [] [] []].
Qed.

(** One step of each walk, and where the first one ends. *)
Definition underlies (upd : N → bool) (R : refs) (a b : N) : Prop :=
  ∃ t, R !! a = Some t ∧ is_multitable t = false ∧ upd a = true ∧ merge_underlying_list t = b ∧ b ≠ 0%N.
Definition bottom (upd : N → bool) (R : refs) (a : N) : Prop :=
  ∃ t, R !! a = Some t ∧ (is_multitable t = true ∨ upd a = false ∨ merge_underlying_list t = 0%N).
Definition embeds (R : refs) (a b : N) : Prop := ∃ t, R !! a = Some t ∧ embedding t = b ∧ b ≠ 0%N.
(** The references a query links are there, and following a link makes the rank smaller. *)
Definition ranked (R : refs) (link : TABLE_LIST → N) (rank : N → nat) : Prop :=
  ∀ a t, R !! a = Some t → link t ≠ 0%N → is_Some (R !! link t) ∧ (rank (link t) < rank a)%nat.

Lemma find_table_loop_spec upd R rank fuel : ∀ a, ranked R merge_underlying_list rank → is_Some (R !! a) → (rank a < fuel)%nat →
  ∃ b, find_table_loop upd R fuel a = Some b ∧ rtc (underlies upd R) a b ∧ bottom upd R b.
Proof.
  induction fuel as [|fuel IH]; intros a Hr [t Ht] Hf; [lia|]. cbn. rewrite Ht. cbn.
  destruct (is_multitable t) eqn:Em; cbn; [exists a; split_and!; [done|apply rtc_refl|exists t; eauto]|].
  destruct (upd a) eqn:Eu; cbn; [|exists a; split_and!; [done|apply rtc_refl|exists t; eauto]].
  case_bool_decide as Hl; [|exists a; split_and!; [done|apply rtc_refl|]; exists t; split; [done|]; destruct (decide (merge_underlying_list t = 0%N)); [eauto|done]].
  destruct (Hr a t Ht Hl) as [Hs Hlt]. destruct (IH _ Hr Hs ltac:(lia)) as (b & Hb & Hp & Hbot). exists b. split_and!; [done| |done].
  eapply rtc_l; [|done]. exists t. eauto.
Qed.
Lemma find_table_loop_mono upd R fuel fuel' : ∀ a b, (fuel ≤ fuel')%nat → find_table_loop upd R fuel a = Some b → find_table_loop upd R fuel' a = Some b.
Proof.
  revert fuel'. induction fuel as [|fuel IH]; intros [|fuel'] a b Hle; cbn; [done..|lia|].
  destruct (R !! a) as [t|]; [|done]. cbn. destruct (_ && _); [apply IH; lia|done].
Qed.
Lemma outer_join_loop_spec R rank fuel : ∀ a, ranked R embedding rank → a ≠ 0%N → is_Some (R !! a) → (S (rank a) < fuel)%nat →
  ∃ r, outer_join_loop R fuel a = Some r ∧ (r = true ↔ ∃ b t, rtc (embeds R) a b ∧ R !! b = Some t ∧ outer_join t ≠ 0).
Proof.
  induction fuel as [|fuel IH]; intros a Hr Ha [t Ht] Hf; [lia|]. cbn. rewrite decide_False by done. rewrite Ht. cbn.
  case_decide as Ho; [exists true; split; [done|]; split; [intros _; exists a, t; split_and!; [apply rtc_refl|done..]|done]|].
  destruct (decide (embedding t = 0%N)) as [He|He].
  - exists false. rewrite He. destruct fuel as [|fuel]; [lia|]. split; [done|]. split; [done|]. intros (b & u & Hp & Hu & Hou).
    inversion Hp as [|? c ? (? & ? & ? & ?)]; simplify_eq.
  - destruct (Hr a t Ht He) as [Hs Hlt]. destruct (IH _ Hr He Hs ltac:(lia)) as (r & Hl & Hiff). exists r. split; [done|]. rewrite Hiff.
    split; intros (b & u & Hp & Hu & Hou); exists b, u; (split; [|done]).
    + eapply rtc_l; [|done]. by exists t.
    + inversion Hp as [|? c ? (? & ? & ? & ?)]; by simplify_eq.
Qed.
End TableRef.

(** ** Join tabs *)

Module JoinTab.

(** Tabs are named by numbers; 0 is the null pointer. *)
Record QUICK := Quick { group_min_max : bool; agg_distinct : bool }.
Record SQL_SELECT := Select { quick : option QUICK; sel_cond : N }.
Record JOIN_TAB := JT {
  first_inner : N; last_inner : N; first_upper : N; first_sj_inner_tab : N; last_sj_inner_tab : N;
  emb_sj_nest : option Z; not_exists_optimize : bool; select_cond : N;
  select : N; filesort_select : option N; used_fieldlength : Z; max_used_fieldlength : Z; bush_children : bool
}.
Notation tabs := (gmap N JOIN_TAB).
Notation selects := (gmap N SQL_SELECT).

(** [filesort_select] is [filesort->select] where there is a filesort. *)
Definition is_using_loose_index_scan (S : selects) (j : JOIN_TAB) : option bool :=
  let sel := default (select j) (filesort_select j) in
  if decide (sel = 0%N) then Some false
  else s ← S !! sel; Some (match quick s with Some q => group_min_max q | None => false end).
(** [select->quick] is read as a quick select of groups: that it is one is what was tested, on [sel]. *)
Definition is_using_agg_loose_index_scan (S : selects) (j : JOIN_TAB) : option bool :=
  b ← is_using_loose_index_scan S j;
  if (b : bool) then s ← S !! select j; q ← quick s; (if group_min_max q then Some (agg_distinct q) else None) else Some false.
Definition is_inner_table_of_semi_join_with_first_match (j : JOIN_TAB) : bool := bool_decide (first_sj_inner_tab j ≠ 0%N).
Definition is_inner_table_of_semijoin (j : JOIN_TAB) : bool := bool_decide (emb_sj_nest j ≠ None).
Definition is_inner_table_of_outer_join (j : JOIN_TAB) : bool := bool_decide (first_inner j ≠ 0%N).
Definition is_single_inner_of_semi_join_with_first_match (this : N) (j : JOIN_TAB) : bool :=
  bool_decide (first_sj_inner_tab j = this) && bool_decide (last_sj_inner_tab j = this).
Definition is_single_inner_of_outer_join (T : tabs) (this : N) (j : JOIN_TAB) : option bool :=
  if decide (first_inner j = this) then f ← T !! first_inner j; Some (bool_decide (last_inner f = this)) else Some false.
Definition is_first_inner_for_outer_join (this : N) (j : JOIN_TAB) : bool :=
  bool_decide (first_inner j ≠ 0%N) && bool_decide (first_inner j = this).
Definition use_match_flag (this : N) (j : JOIN_TAB) : bool := is_first_inner_for_outer_join this j || bool_decide (first_sj_inner_tab j = this).
Definition check_only_first_match (j : JOIN_TAB) : bool :=
  is_inner_table_of_semi_join_with_first_match j || (is_inner_table_of_outer_join j && not_exists_optimize j).
Definition is_last_inner_table (T : tabs) (this : N) (j : JOIN_TAB) : option bool :=
  b ← (if decide (first_inner j ≠ 0%N) then f ← T !! first_inner j; Some (bool_decide (last_inner f = this)) else Some false);
  Some ((b : bool) || bool_decide (last_sj_inner_tab j = this)).
Definition is_nested_inner (T : tabs) (j : JOIN_TAB) : option bool :=
  b ← (if decide (first_inner j ≠ 0%N)
       then f ← T !! first_inner j; Some (bool_decide (first_inner j ≠ last_inner f) || bool_decide (first_upper f ≠ 0%N)) else Some false);
  Some ((b : bool) || (bool_decide (first_sj_inner_tab j ≠ 0%N) && bool_decide (first_sj_inner_tab j ≠ last_sj_inner_tab j))).
Definition get_first_inner_table (j : JOIN_TAB) : N := if decide (first_inner j ≠ 0%N) then first_inner j else first_sj_inner_tab j.
Definition set_select_cond (j : JOIN_TAB) (to : N) : JOIN_TAB :=
  JT (first_inner j) (last_inner j) (first_upper j) (first_sj_inner_tab j) (last_sj_inner_tab j) (emb_sj_nest j) (not_exists_optimize j) to
    (select j) (filesort_select j) (used_fieldlength j) (max_used_fieldlength j) (bush_children j).
Definition set_cond (S : selects) (j : JOIN_TAB) (new_cond : N) : option (selects * JOIN_TAB * N) :=
  let tmp := select_cond j in
  let j := set_select_cond j new_cond in
  if decide (select j ≠ 0%N) then s ← S !! select j; Some (<[select j := Select (quick s) new_cond]> S, j, tmp) else Some (S, j, tmp).
Definition is_sjm_nest (j : JOIN_TAB) : bool := bush_children j.
(** The lengths are computed when they are first asked for; [calc] stands for [calc_used_field_length]. *)
Definition get_used_fieldlength (calc : bool → JOIN_TAB → JOIN_TAB) (j : JOIN_TAB) : JOIN_TAB * Z :=
  let j := if decide (used_fieldlength j = 0) then calc false j else j in (j, used_fieldlength j).
Definition get_max_used_fieldlength (calc : bool → JOIN_TAB → JOIN_TAB) (j : JOIN_TAB) : JOIN_TAB * Z :=
  let j := if decide (max_used_fieldlength j = 0) then calc true j else j in (j, max_used_fieldlength j).
Definition access_from_tables_is_allowed (j : JOIN_TAB) (used_tables sjm_lookup_tables : Z) : bool :=
  let used := used_tables .& sjm_lookup_tables in
  bool_decide (used = 0) || match emb_sj_nest j with Some inner => bool_decide (used .& u64 (Z.lnot inner) = 0) | None => false end.
End JoinTab.

(** ** Theorems about table definitions *)

Section ShareTheorems.
Import TableShare.

(** The cache key of a table is the name of its database, a zero byte, the name of the table, a zero byte, and for a temporary
    table more.  Setting the key from such bytes copies them to the buffer, changes nothing else
    in memory, and finds the two names in the copy. *)
Theorem table_cache_key_roundtrip mem s key_buff d t ext :
  Forall (λ c, c ≠ 0) d → Forall (λ c, c ≠ 0) t → (key_buff + length (d ++ 0%Z :: t ++ 0%Z :: ext) ≤ length mem)%nat →
  ∃ mem' s', set_table_cache_key_copy mem s key_buff (d ++ 0 :: t ++ 0 :: ext) = Some (mem', s') ∧
    mem' = take key_buff mem ++ (d ++ 0 :: t ++ 0 :: ext) ++ drop (key_buff + length (d ++ 0%Z :: t ++ 0%Z :: ext)) mem ∧
    table_cache_key s' = LexStr key_buff (length (d ++ 0 :: t ++ 0 :: ext)) ∧
    take (len (db s')) (drop (str (db s')) mem') = d ∧
    take (len (table_name s')) (drop (str (table_name s')) mem') = t ∧ get_table_def_version s' = get_table_def_version s.
Proof.
  intros Hd Ht Hle. unfold set_table_cache_key_copy, memcpy. rewrite decide_True by done. cbn [mbind option_bind].
  set (rest := drop _ mem). set (mem' := take key_buff mem ++ _).
  assert (Hdb : drop key_buff mem' = d ++ 0 :: (t ++ 0 :: ext) ++ rest).
  { unfold mem'. rewrite drop_app_length' by (rewrite length_take; lia). by rewrite <- app_assoc. }
  assert (Htn : drop (key_buff + length d + 1) mem' = t ++ 0 :: ext ++ rest).
  { rewrite <- Nat.add_assoc, <- drop_drop, Hdb, Nat.add_1_r. replace (S (length d)) with (length (d ++ [0])) by (rewrite length_app; cbn; lia).
    replace (d ++ 0 :: (t ++ 0 :: ext) ++ rest) with ((d ++ [0]) ++ (t ++ 0 :: ext) ++ rest) by (by rewrite <- app_assoc).
    rewrite drop_app_length. by rewrite <- app_assoc. }
  unfold set_table_cache_key, strlen. cbn [str len]. rewrite Hdb, strlen_spec by done. cbn [mbind option_bind str].
  rewrite Htn, strlen_spec by done. cbn [mbind option_bind]. eexists _, _. split; [done|]. cbn [db table_name str len table_cache_key].
  rewrite Hdb, Htn. split_and!; [done..|by rewrite take_app_length|by rewrite take_app_length|done].
Qed.
Definition ex_share : TABLE_SHARE :=
  Share (LexStr 0 0) (LexStr 0 0) (LexStr 0 0) TABLE_CATEGORY_USER 7 false NO_TMP_TABLE VERS_TIMESTAMP 2 3 true.
Lemma table_cache_key_roundtrip_witness :
  ∃ mem' s', set_table_cache_key_copy [9; 9; 9; 9; 9; 9; 9] ex_share 1 ([100] ++ 0 :: [116; 49] ++ 0 :: []) = Some (mem', s') ∧
    mem' = [9] ++ ([100] ++ 0 :: [116; 49] ++ 0 :: []) ++ [9] ∧ table_cache_key s' = LexStr 1 5 ∧
    take (len (db s')) (drop (str (db s')) mem') = [100] ∧
    take (len (table_name s')) (drop (str (table_name s')) mem') = [116; 49] ∧ get_table_def_version s' = get_table_def_version ex_share.
Proof. apply (table_cache_key_roundtrip [9; 9; 9; 9; 9; 9; 9] ex_share 1 [100] [116; 49] []); [repeat constructor; lia..|cbn; lia]. Defined.

(** Asked with the default value of its argument, a table whose rows are versioned never says that versions are to be
    written: the call compares the kind of versioning with [VERS_UNDEFINED], which the inner
    function also asserts against.  Asked with the table's own kind it answers [vers_write]. *)
Theorem versioned_write_default s vers_write :
  table_versioned s = true →
  versioned_write s vers_write VERS_UNDEFINED = false ∧ versioned_write_asserts s vers_write VERS_UNDEFINED = false ∧
  versioned_write s vers_write (versioned s) = vers_write ∧ versioned_write_asserts s vers_write (versioned s) = true.
Proof.
  unfold table_versioned, versioned_write, versioned_write_asserts, table_versioned_as, table_versioned. destruct (versioned s); cbn; by destruct vers_write.
Qed.
Lemma versioned_write_default_witness :
  versioned_write ex_share true VERS_UNDEFINED = false ∧ versioned_write_asserts ex_share true VERS_UNDEFINED = false ∧
  versioned_write ex_share true (versioned ex_share) = true ∧ versioned_write_asserts ex_share true (versioned ex_share) = true.
Proof. apply (versioned_write_default ex_share true). reflexivity. Defined.
End ShareTheorems.

(** ** Theorems about column maps *)

Section ColumnMapTheorems.
Import ColumnMaps.

(** Letting the read and write maps stand for all columns and restoring them gives back every map as it was, also when the
    two are one object: both pointers are saved before either is changed.  In between, the
    maps are the one with all columns and no other is touched. *)
Theorem all_columns_roundtrip m B r w :
  is_Some (B !! r) → is_Some (B !! w) → is_Some (B !! all_set m) →
  ∃ B' old, dbug_tmp_use_all_columns2 m B r w = Some (B', old) ∧
    B' !! r = B !! all_set m ∧ B' !! w = B !! all_set m ∧ (∀ b, b ≠ r → b ≠ w → B' !! b = B !! b) ∧
    dbug_tmp_restore_column_maps B' r w old = Some B.
Proof.
  intros [x Hr] [y Hw] [a Ha]. unfold dbug_tmp_use_all_columns2, tmp_use_all_columns, dbug_tmp_restore_column_maps, tmp_restore_column_map.
  rewrite Hr, Hw. cbn. rewrite Ha. cbn.
  rewrite (lookup_insert _ r w), Hw. destruct (decide (r = w)) as [->|Hrw]; cbn.
  all: rewrite lookup_insert, Ha; destruct (decide (_ = all_set m)) as [->|Hra]; cbn.
  all: eexists _, _; (split; [done|]); cbn; simplify_eq; split_and!; rewrite ?lookup_insert_eq; try done.
  all: try (intros b ? ?; by rewrite !lookup_insert_ne).
  all: repeat (rewrite lookup_insert_ne by done); rewrite ?lookup_insert_eq; cbn; try done.
  all: repeat (rewrite ?lookup_insert_eq, ?lookup_insert_ne by done; cbn); try (f_equal; apply map_eq; intros b; rewrite !lookup_insert; by repeat case_decide; subst).
Qed.
Lemma all_columns_roundtrip_witness :
  let B : bitmaps := <[1%N := 11%N]> {[3%N := 33%N]} in
  ∃ B' old, dbug_tmp_use_all_columns2 (Maps 1 2 0 3) B 1 1 = Some (B', old) ∧
    B' !! 1%N = B !! 3%N ∧ B' !! 1%N = B !! 3%N ∧ (∀ b, b ≠ 1%N → b ≠ 1%N → B' !! b = B !! b) ∧
    dbug_tmp_restore_column_maps B' 1 1 old = Some B.
Proof. intros B. apply (all_columns_roundtrip (Maps 1 2 0 3) B 1 1); eexists; vm_compute; reflexivity. Defined.

(** The engine is asked once: a table that is created twice is asked about reading keys only the first time. *)
Lemma set_created_once k k' t : (set_created k' (fst (set_created k t))).2 = false ∧ is_created (fst (set_created k t)) = true.
Proof. unfold set_created, is_created. by destruct (created t) eqn:E; cbn; rewrite ?E. Qed.
Lemma set_zone_clamps nr lo hi : lo ≤ hi → lo ≤ set_zone nr lo hi ≤ hi ∧ (lo ≤ nr ≤ hi → set_zone nr lo hi = nr).
Proof. unfold set_zone. intros. repeat case_decide; lia. Qed.
End ColumnMapTheorems.

(** ** Theorems about table references *)

Section RefTheorems.
Import TableShare ColumnMaps TableRef.

(** A number given to a table reference is the number it reports afterwards, with the bit of that number as its map, whether the
    reference stands for an open table, for a materialised subquery, or for both; no other table changes. *)
Theorem tablenr_roundtrip T t n :
  0 ≤ n < 64 → is_Some (T !! t_table t) ∧ t_table t ≠ 0%N ∨ t_table t = 0%N ∧ jtbm_subselect t = true →
  ∃ T' t', set_tablenr T t n = Some (T', t') ∧ get_tablenr T' t' = Some n ∧ get_map T' t' = Some (2 ^ n) ∧
    t_table t' = t_table t ∧ ∀ a, a ≠ t_table t → T' !! a = T !! a.
Proof.
  intros Hn%table_bit_in Ht. unfold set_tablenr, get_tablenr, get_map.
  destruct t as [tb j no]; cbn in *. destruct Ht as [[[x Hx] H0]|[-> ->]].
  - destruct j; cbn; rewrite decide_True by done; rewrite Hx, Hn; cbn; eexists _, _; (split; [done|]); cbn;
      rewrite ?lookup_insert_eq; (split_and!; [done..|]); intros a Ha; by rewrite lookup_insert_ne.
  - cbn. eexists _, _. split; [done|]. cbn. by rewrite Hn.
Qed.
Definition ex_ref : TABLE_LIST := TL 0 true 0 0 0 0 0 0 0 0 0 TABLE_REF_NULL 0 None false 0.
Lemma tablenr_roundtrip_witness :
  ∃ T' t', set_tablenr ∅ ex_ref 5 = Some (T', t') ∧ get_tablenr T' t' = Some 5 ∧ get_map T' t' = Some (2 ^ 5) ∧
    t_table t' = t_table ex_ref ∧ ∀ a, a ≠ t_table ex_ref → T' !! a = (∅ : gmap N table) !! a.
Proof. apply (tablenr_roundtrip ∅ ex_ref 5); [lia|right; done]. Defined.

(** A prepared statement finds a table unchanged exactly when its kind and its version are the recorded ones: after
    recording one definition, another is accepted exactly when both are tables of the
    information schema, or they are of the same kind with the same number. *)
Theorem table_ref_id_exact t s s' :
  is_table_ref_id_equal (set_table_ref_id t s) s' = true ↔
  get_table_ref_type s = get_table_ref_type s' ∧ get_table_ref_version s = get_table_ref_version s'.
Proof.
  unfold is_table_ref_id_equal, set_table_ref_id, set_table_ref_id_to. cbn. rewrite andb_true_iff, !bool_decide_eq_true. naive_solver.
Qed.

(** [C27] The kind of a table reference, kept in the bits of one byte, behaves as a record of independent flags with at most one way to
    compute a derived table: from a state that such a record describes, every sequence of the functions that set the kind gives the byte of the
    record the sequence leads to, and the queries answer from that record; in particular a table is never both merged and materialised.
    Of the reference's members only two change: the kind, and [derived], which materialising sets to the unit that [get_unit]
    then returns.  The checks of a merged or materialised table are set up after its kind was set, with the reference of the new kind.
    The functions that set them up, declared only, are taken to leave the reference itself as it is. *)
Theorem derived_kind_refines {W : Type} (get_unit : W → TABLE_LIST → N) (set_check_merged set_check_materialized : W → TABLE_LIST → W * TABLE_LIST)
  (check_merged_keeps : ∀ w t, (set_check_merged w t).2 = t) (check_materialized_keeps : ∀ w t, (set_check_materialized w t).2 = t) w t k os :
  derived_type t = code k →
  let '(w', t') := foldl (exec get_unit set_check_merged set_check_materialized) (w, t) os in
  ∃ u' k', foldl (spec get_unit set_check_merged set_check_materialized t) (w, derived t, k) os = (w', u', k') ∧
    t' = with_derived t u' (code k') ∧
    is_view t' = k_view k' ∧ is_derived t' = k_table k' ∧ is_multitable t' = k_multi k' ∧
    is_merged_derived t' = bool_decide (k_alg k' = Merge) ∧ is_materialized_derived t' = bool_decide (k_alg k' = Materialize) ∧
    is_view_or_derived t' = negb (is_non_derived t').
Proof.
  intros Hk. assert (t = with_kind t (derived t) k) as Ht by (unfold with_kind; rewrite <- Hk; by destruct t).
  pose proof (kind_run_spec get_unit _ _ check_merged_keeps check_materialized_keeps t os w (derived t) k) as R. rewrite <- Ht in R. rewrite R.
  destruct (foldl (spec _ _ _ t) _ os) as [[w' u'] k']. exists u', k'. split; [done|]. split; [done|]. by apply flags_code.
Qed.
(** The world of the witness lists the kinds for which checks were set up. *)
Definition ex_check (w : list Z) (t : TABLE_LIST) : list Z * TABLE_LIST := (w ++ [derived_type t], t).
Lemma derived_kind_refines_witness :
  let s := foldl (exec (λ _ _, 4%N) ex_check ex_check) ([], ex_ref) [SetView; SetMultitable; SetMerged; SetMaterialized] in
  s.1 = [23; 27] ∧ derived_type s.2 = 27 ∧ derived s.2 = 4%N ∧ is_merged_derived s.2 = false.
Proof.
  pose proof (derived_kind_refines (λ _ _, 4%N) ex_check ex_check (λ _ _, eq_refl) (λ _ _, eq_refl) [] ex_ref (Kind false false Undefined false)
    [SetView; SetMultitable; SetMerged; SetMaterialized] eq_refl) as H. cbv beta zeta.
  destruct (foldl _ _ _) as [w' t']. destruct H as (u' & k' & E & -> & _ & _ & _ & Hm & _). vm_compute in E. injection E as <- <- <-.
  split_and!; [done..|]. exact Hm.
Defined.

(** In a query whose views nest without a cycle, the walk to the table an update changes ends, at a reference the chain of
    views reaches and below which it does not go: one over several tables, one that cannot be
    updated, or one without a list below. *)
Theorem find_table_for_update_ends upd R rank a :
  ranked R merge_underlying_list rank → is_Some (R !! a) →
  ∃ b, (∀ fuel, (rank a < fuel)%nat → find_table_for_update upd R fuel a = Some b) ∧ rtc (underlies upd R) a b ∧ bottom upd R b.
Proof.
  intros Hr Ha. destruct (find_table_loop_spec upd R rank (S (rank a)) a Hr Ha ltac:(lia)) as (b & Hb & Hp & Hbot).
  exists b. split_and!; [|done|done]. intros fuel Hf. by apply (find_table_loop_mono _ _ (S (rank a))).
Qed.
(** Two references, the view over the table. *)
Definition ex_refs : refs :=
  list_to_map [(1%N, TL 0 false 0 0 5 0 DTYPE_VIEW 0 2 3 0 TABLE_REF_NULL 0 None false 0); (2%N, TL 9 false 0 0 0 0 0 1 0 0 0 TABLE_REF_NULL 0 None false 0);
               (3%N, TL 0 false 0 0 0 0 0 0 0 0 1 TABLE_REF_NULL 0 None false 0)].
Definition ex_rank (a : N) : nat := if decide (a = 1%N) then 1 else 0.
Lemma ex_ranked : ranked ex_refs merge_underlying_list ex_rank ∧ ranked ex_refs embedding ex_rank.
Proof.
  split; intros a t Ha Hl; apply elem_of_list_to_map in Ha; try (apply (bool_decide_unpack _); vm_compute; done);
    rewrite !elem_of_cons in Ha; destruct Ha as [[= -> ->]|[[= -> ->]|[[= -> ->]|[]%not_elem_of_nil]]]; try done;
    (split; [eexists; vm_compute; reflexivity|vm_compute; lia]).
Qed.
Lemma find_table_for_update_ends_witness :
  ∃ b, (∀ fuel, (1 < fuel)%nat → find_table_for_update (λ _, true) ex_refs fuel 1 = Some b) ∧ rtc (underlies (λ _, true) ex_refs) 1%N b ∧ bottom (λ _, true) ex_refs b.
Proof. apply (find_table_for_update_ends (λ _, true) ex_refs ex_rank 1); [apply ex_ranked|eexists; vm_compute; reflexivity]. Defined.

(** In a query whose nests have no cycle, the walk up the nests ends and says whether the reference or a nest around it is
    the inner side of an outer join. *)
Theorem is_inner_table_of_outer_join_exact R rank a fuel :
  ranked R embedding rank → a ≠ 0%N → is_Some (R !! a) → (S (rank a) < fuel)%nat →
  ∃ r, is_inner_table_of_outer_join R fuel a = Some r ∧ (r = true ↔ ∃ b t, rtc (embeds R) a b ∧ R !! b = Some t ∧ outer_join t ≠ 0).
Proof. apply outer_join_loop_spec. Qed.
Lemma is_inner_table_of_outer_join_exact_witness :
  ∃ r, is_inner_table_of_outer_join ex_refs 3 1 = Some r ∧ (r = true ↔ ∃ b t, rtc (embeds ex_refs) 1%N b ∧ ex_refs !! b = Some t ∧ outer_join t ≠ 0).
Proof.
  apply (is_inner_table_of_outer_join_exact ex_refs ex_rank 1 3); [apply ex_ranked|done|eexists; vm_compute; reflexivity|vm_compute; lia].
Defined.
End RefTheorems.

(** ** Theorems about join tabs *)

Section JoinTabTheorems.
Import JoinTab.

(** A tab may be read with values of the tables in [used_tables] exactly when those of them that belong to a
    materialised lookup are inner tables of the tab's own semi-join. *)
Theorem access_allowed_exact j used lookup :
  (∀ inner, emb_sj_nest j = Some inner → 0 ≤ inner < 2 ^ 64) → 0 ≤ used < 2 ^ 64 →
  access_from_tables_is_allowed j used lookup = true ↔
  (∀ i, 0 ≤ i → Z.testbit used i = true → Z.testbit lookup i = true → ∃ inner, emb_sj_nest j = Some inner ∧ Z.testbit inner i = true).
Proof.
  intros Hin Hu. unfold access_from_tables_is_allowed. rewrite orb_true_iff, bool_decide_eq_true.
  assert (Hz : ∀ x, x = 0 ↔ ∀ i, 0 ≤ i → Z.testbit x i = false) by (intros x; split; [intros -> i _; apply Z.bits_0|intros Hx; zbits i; by rewrite Z.bits_0, Hx]).
  assert (Hhi : ∀ i, 64 ≤ i → Z.testbit used i = false) by (intros i Hi; rewrite <- (Z.mod_small used (2 ^ 64)) by lia; by apply Z.mod_pow2_bits_high; lia).
  rewrite Hz. setoid_rewrite Z.land_spec.
  destruct (emb_sj_nest j) as [inner|].
  - rewrite bool_decide_eq_true, Hz. setoid_rewrite Z.land_spec. unfold wrapu. split.
    + intros [H|H] i Hi Hb Hl; specialize (H i Hi); rewrite ?Z.land_spec, Hb, Hl in H; [done|]. exists inner. split; [done|].
      assert (i < 64) by (destruct (decide (i < 64)); [done|]; rewrite Hhi in Hb by lia; done).
      rewrite Z.mod_pow2_bits_low, Z.lnot_spec in H by lia. by destruct (Z.testbit inner i).
    + intros H. right. intros i Hi. rewrite Z.land_spec. destruct (Z.testbit used i) eqn:Hb; [|done]. destruct (Z.testbit lookup i) eqn:Hl; [|done].
      destruct (H i Hi Hb Hl) as (? & [= <-] & Hbit). cbn. destruct (decide (i < 64)); [|by rewrite Hhi in Hb by lia].
      by rewrite Z.mod_pow2_bits_low, Z.lnot_spec, Hbit by lia.
  - split.
    + intros [H|H] i Hi Hb Hl; [|done]. specialize (H i Hi). by rewrite Hb, Hl in H.
    + intros H. left. intros i Hi. destruct (Z.testbit used i) eqn:Hb; [|done]. destruct (Z.testbit lookup i) eqn:Hl; [|done].
      destruct (H i Hi Hb Hl) as (? & ? & _). done.
Qed.
Definition ex_tab (sel : N) (fs : option N) : JOIN_TAB := JT 0 0 0 0 0 (Some 6) false 0 sel fs 0 0 false.
Lemma access_allowed_exact_witness :
  access_from_tables_is_allowed (ex_tab 0 None) 3 2 = true ↔
  (∀ i, 0 ≤ i → Z.testbit 3 i = true → Z.testbit 2 i = true → ∃ inner, emb_sj_nest (ex_tab 0 None) = Some inner ∧ Z.testbit inner i = true).
Proof. apply (access_allowed_exact (ex_tab 0 None) 3 2); [intros ? [= <-]; lia|lia]. Defined.

(** With a filesort, the test for a loose index scan looks at the select of the filesort, and the question whether the scan
    aggregates distinct values then reads the quick select of the tab's own select: when that is gone, or is a
    range, the code reads through a null pointer or a pointer of another type. *)
Theorem agg_loose_scan_of_filesort j S f s q :
  filesort_select j = Some f → f ≠ 0%N → S !! f = Some s → quick s = Some q → group_min_max q = true →
  is_using_loose_index_scan S j = Some true ∧
  (S !! select j = None ∨ (∃ s', S !! select j = Some s' ∧ ∀ q', quick s' = Some q' → group_min_max q' = false) ↔
   is_using_agg_loose_index_scan S j = None).
Proof.
  intros Hf Hf0 Hs Hq Hg.
  assert (Hl : is_using_loose_index_scan S j = Some true) by (unfold is_using_loose_index_scan; rewrite Hf; cbn; rewrite decide_False, Hs by done; cbn; by rewrite Hq, Hg).
  split; [done|]. unfold is_using_agg_loose_index_scan. rewrite Hl. cbn.
  destruct (S !! select j) as [s'|]; cbn; [|by split; [|left]].
  destruct (quick s') as [q'|] eqn:Hq'; cbn; [|split; [done|intros _; right; exists s'; split; [done|]; congruence]].
  destruct (group_min_max q') eqn:Hg'; split; try done.
  - intros [?|(? & [= <-] & Hn)]; [done|]. by rewrite (Hn q' Hq') in Hg'.
  - intros _. right. exists s'. split; [done|]. intros ? ?. congruence.
Qed.
Lemma agg_loose_scan_of_filesort_witness :
  let S : selects := {[2%N := Select (Some (Quick true true)) 0]} in
  is_using_loose_index_scan S (ex_tab 0 (Some 2%N)) = Some true ∧
  (S !! 0%N = None ∨ (∃ s', S !! 0%N = Some s' ∧ ∀ q', quick s' = Some q' → group_min_max q' = false) ↔
   is_using_agg_loose_index_scan S (ex_tab 0 (Some 2%N)) = None).
Proof.
  intros S. apply (agg_loose_scan_of_filesort (ex_tab 0 (Some 2%N)) S 2 (Select (Some (Quick true true)) 0) (Quick true true)); reflexivity || done.
Defined.
(** Setting the condition of a tab sets the one of its select too, and the condition it returns restores the first. *)
Lemma set_cond_restores S j c S' j' old :
  set_cond S j c = Some (S', j', old) → select_cond j' = c ∧ old = select_cond j ∧ set_select_cond j' old = j.
Proof. unfold set_cond. case_decide; [intros (s & _ & [= <- <- <-])%bind_Some|intros [= <- <- <-]]; by destruct j. Qed.
End JoinTabTheorems.
