(* ===== verification/Equalities.v ===== *)
(** * Multiple equalities and name resolution contexts

    From item_cmpfunc.h: the members [equal_items] and [with_const] of [Item_equal], its iterator over the fields, and
    [COND_EQUAL], which holds the multiple equalities of one level of a condition.  Their lists are
    [base_list]s in the store of the list component.
    From item.h: [Name_resolution_context], where the names of an expression are looked up, and the two
    classes that save it and restore it. *)

From Stdlib Require Import ZArith NArith Lia.
From stdpp Require Import base numbers option list gmap fin_maps.
From S2P Require Import Prelude SqlList.
Open Scope Z_scope.
Open Scope cint_scope.

Module Equalities.
Import BaseList.

(** [equal_items] is the header of a list; items are addresses. *)
Record Item_equal := IE {
  equal_items : nat; with_const : bool; eval_item : N; cond_false : bool; cond_true : bool; context_field : N; link_equal_fields : bool;
  used_tables_cache : Z
}.
(** The first item of the list, if the equality has a constant. *)
Definition get_const (s : store) (e : Item_equal) : option N := if with_const e then head s (equal_items e) else Some NULL.
Definition add (s : store) (e : Item_equal) (f : N) (alloc : option N) : option store := fst <$> push_back s (equal_items e) f alloc.
Definition n_field_items (s : store) (e : Item_equal) : option Z :=
  L ← lists s !! equal_items e; Some (u32 (elements L - (if with_const e then 1 else 0))).
Definition cleanup (e : Item_equal) : Item_equal :=
  IE (equal_items e) (with_const e) NULL (cond_false e) (cond_true e) (context_field e) (link_equal_fields e) (used_tables_cache e).
Definition set_context_field (e : Item_equal) (f : N) : Item_equal :=
  IE (equal_items e) (with_const e) (eval_item e) (cond_false e) (cond_true e) f (link_equal_fields e) (used_tables_cache e).
Definition set_link_equal_fields (e : Item_equal) (b : bool) : Item_equal :=
  IE (equal_items e) (with_const e) (eval_item e) (cond_false e) (cond_true e) (context_field e) b (used_tables_cache e).
Definition excl_dep_on_table (e : Item_equal) (tab_map : Z) : bool := bool_decide (used_tables_cache e .& tab_map ≠ 0).

(** *** The iterator over the fields: it steps over the constant *)
Record Item_equal_iterator := EqIter { list_it : iterator; item_equal : Item_equal; curr_item : N }.
Section Iter.
(** [step] is the [operator++] of the underlying iterator: [it_next] or [it_next_fast]. *)
Context (step : store → iterator → option (iterator * N)).
Definition new_Item_equal_iterator (s : store) (e : Item_equal) : option Item_equal_iterator :=
  let it := it_init (equal_items e) in
  if with_const e then '(it, c) ← step s it; Some (EqIter it e c) else Some (EqIter it e NULL).
Definition eq_next (s : store) (i : Item_equal_iterator) : option (Item_equal_iterator * N) :=
  '(it, c) ← step s (list_it i); Some (EqIter it (item_equal i) c, c).
Definition eq_rewind (s : store) (i : Item_equal_iterator) : option Item_equal_iterator :=
  let it := it_rewind (list_it i) in
  if with_const (item_equal i) then '(it, c) ← step s it; Some (EqIter it (item_equal i) c) else Some (EqIter it (item_equal i) (curr_item i)).
(** The loop the optimizer writes: [while ((item= it++))]. *)
Fixpoint visit (s : store) (fuel : nat) (i : Item_equal_iterator) : option (list N * Item_equal_iterator) :=
  match fuel with
  | O => None
  | S fuel =>
      '(i, x) ← eq_next s i;
      if decide (x = NULL) then Some ([], i) else '(xs, i) ← visit s fuel i; Some (x :: xs, i)
  end.
End Iter.
(** The removal the second class of iterators has. *)
Definition eq_remove (s : store) (i : Item_equal_iterator) : option (store * Item_equal_iterator) :=
  '(s, it) ← it_remove s (list_it i); Some (s, EqIter it (item_equal i) (curr_item i)).

(** *** The equalities of a level *)
Record COND_EQUAL := CE { max_members : Z; upper_levels : N; current_level : nat }.
(** The members of the object of which the list header [l] is one; its constructor leaves [max_members]. *)
Definition new_COND_EQUAL (s : store) (l : nat) (garbage : Z) : store * COND_EQUAL := (empty s l, CE garbage NULL l).
Definition new_COND_EQUAL1 (s : store) (l : nat) (garbage : Z) (item : N) (alloc : option N) : option (store * COND_EQUAL) :=
  '(s, _) ← push_back (empty s l) l item alloc; Some (s, CE garbage NULL l).
Definition copy (s : store) (this cond_equal : COND_EQUAL) : option (store * COND_EQUAL) :=
  e ← is_empty s (current_level cond_equal);
  s ← (if (e : bool) then Some (empty s (current_level this)) else operator_assign s (current_level this) (current_level cond_equal));
  Some (s, CE (max_members cond_equal) (upper_levels cond_equal) (current_level this)).

(** ** The iterator visits the fields *)

(** The items of a list are not null: the iterators end at the first null they meet. *)
Definition items_ok (ps : list (N * N)) : Prop := Forall (λ x, x ≠ NULL) ps.*2.
Definition fields (e : Item_equal) (ps : list (N * N)) : list (N * N) := if with_const e then drop 1 ps else ps.

(** What both underlying iterators do. *)
Definition steps (step : store → iterator → option (iterator * N)) : Prop :=
  ∀ s l ps qs it, rep s l (ps ++ qs) → el it = last_of l ps →
  ∃ it', step s it = Some (it', default NULL (qs.*2 !! 0%nat)) ∧ el it' = NextOf (hd_addr qs.*1 END) ∧ it_list it' = it_list it.
Lemma it_next_steps : steps it_next.
Proof. intros s l ps qs it Hr Hel. eexists. rewrite (it_next_rep _ _ _ _ _ Hr Hel). done. Qed.
Lemma it_next_fast_steps : steps it_next_fast.
Proof.
  intros s l ps qs it Hr Hel. eexists. unfold it_next_fast. rewrite Hel, (load_last_of _ _ _ _ Hr). cbn [mbind option_bind].
  by rewrite (rep_node _ _ _ _ Hr).
Qed.
Lemma visit_rest step s l qs : steps step → ∀ fuel ps i,
  rep s l (ps ++ qs) → items_ok qs → el (list_it i) = last_of l ps → (length qs < fuel)%nat →
  ∃ i', visit step s fuel i = Some (qs.*2, i') ∧ it_list (list_it i') = it_list (list_it i) ∧ item_equal i' = item_equal i ∧ curr_item i' = NULL.
Proof.
  intros Hst. induction qs as [|[a x] qs IH]; intros fuel ps i Hr Hok Hel Hf; (destruct fuel as [|fuel]; [lia|]); cbn [visit].
  - destruct (Hst s l ps [] (list_it i) Hr Hel) as (it' & Hs & _ & Hl). unfold eq_next. rewrite Hs. cbn. rewrite ?decide_True by done.
    eexists. split; [done|]. done.
  - destruct (Hst s l ps ((a, x) :: qs) (list_it i) Hr Hel) as (it' & Hs & He & Hl). unfold eq_next. rewrite Hs. cbn.
    apply Forall_cons in Hok as [Hx Hok]. cbn in Hx. rewrite decide_False by done. cbn in Hf.
    destruct (IH fuel (ps ++ [(a, x)]) (EqIter it' (item_equal i) x)) as (i' & Hv & Hl' & He' & Hc'); [by rewrite <- app_assoc|done| |lia|].
    + cbn. by rewrite last_of_snoc.
    + rewrite Hv. cbn. eexists. split; [done|]. split_and!; [by rewrite Hl'|done..].
Qed.
Lemma start_visit step s e ps it : steps step → rep s (equal_items e) ps → items_ok ps → (with_const e = true → ps ≠ []) →
  el it = FirstOf (equal_items e) → it_list it = equal_items e →
  ∃ i, (if with_const e then '(it, c) ← step s it; Some (EqIter it e c) else Some (EqIter it e NULL)) = Some i ∧
    item_equal i = e ∧ it_list (list_it i) = equal_items e ∧
    ∀ c fuel, (length ps < fuel)%nat →
    ∃ i', visit step s fuel (EqIter (list_it i) e c) = Some ((fields e ps).*2, i') ∧ it_list (list_it i') = equal_items e ∧ item_equal i' = e ∧ curr_item i' = NULL.
Proof.
  intros Hst Hr Hok Hne Hel Hl. unfold fields. destruct (with_const e) eqn:Hc.
  - destruct ps as [|[a x] ps]; [by destruct (Hne eq_refl)|].
    destruct (Hst s (equal_items e) [] ((a, x) :: ps) it Hr Hel) as (it' & Hs & He & Hl'). rewrite Hs. cbn.
    eexists. split; [done|]. cbn. split_and!; [done|by rewrite Hl'|]. intros c fuel Hf. rewrite drop_0.
    apply Forall_cons in Hok as [_ Hok]. cbn in Hf.
    destruct (visit_rest step s (equal_items e) ps Hst fuel [(a, x)] (EqIter it' e c)) as (i' & Hv & Hl'' & ? & ?); [done|done|done|lia|].
    exists i'. split_and!; [done|by rewrite Hl''; cbn; rewrite Hl'|done..].
  - eexists. split; [done|]. cbn. split_and!; [done..|]. intros c fuel Hf.
    destruct (visit_rest step s (equal_items e) ps Hst fuel [] (EqIter it e c)) as (i' & Hv & Hl'' & ? & ?); [done|done|done|done|].
    exists i'. split_and!; [done|by rewrite Hl''|done..].
Qed.
End Equalities.

(** ** Theorems about multiple equalities *)

Section EqualityTheorems.
Import BaseList Equalities.

(** [C28] Iterating over a multiple equality visits exactly its items that are not the constant, in their order, with either of
    the two underlying iterators, ends with no current item, and does so again after a rewind; their
    number is what the equality says it is. *)
Theorem equal_iterator_visits (fast : bool) s e ps fuel :
  let step := if fast then it_next_fast else it_next in
  rep s (equal_items e) ps → items_ok ps → (with_const e = true → ps ≠ []) → Z.of_nat (length ps) < 2 ^ 32 → (length ps < fuel)%nat →
  ∃ i i' j j', new_Item_equal_iterator step s e = Some i ∧ visit step s fuel i = Some ((fields e ps).*2, i') ∧ curr_item i' = NULL ∧
    eq_rewind step s i' = Some j ∧ visit step s fuel j = Some ((fields e ps).*2, j') ∧
    n_field_items s e = Some (Z.of_nat (length (fields e ps))).
Proof.
  intros step Hr Hok Hne Hlen Hf.
  assert (Hst : steps step) by (unfold step; destruct fast; [apply it_next_fast_steps|apply it_next_steps]).
  destruct (start_visit step s e ps (it_init (equal_items e)) Hst Hr Hok Hne eq_refl eq_refl) as (i & Hi & He & Hl & Hv).
  destruct (Hv (curr_item i) fuel Hf) as (i' & Hv' & Hl' & He' & Hc').
  assert (Hi' : EqIter (list_it i) e (curr_item i) = i) by (destruct i; cbn in *; by subst). rewrite Hi' in Hv'.
  destruct (start_visit step s e ps (it_rewind (list_it i')) Hst Hr Hok Hne) as (j & Hj & Hje & Hjl & Hjv); [by cbn; rewrite Hl'|done|].
  destruct (Hjv (curr_item j) fuel Hf) as (j' & Hv'' & _).
  assert (Hj' : EqIter (list_it j) e (curr_item j) = j) by (destruct j; cbn in *; by subst). rewrite Hj' in Hv''.
  exists i, i', j, j'. split_and!; [exact Hi|done|done| |done|].
  - unfold eq_rewind. rewrite He', Hc'. exact Hj.
  - unfold n_field_items. destruct Hr as (_ & _ & _ & HL). rewrite HL. cbn. unfold fields, wrapu. f_equal.
    rewrite (Z.mod_small (Z.of_nat (length ps))) by lia. destruct (with_const e).
    + destruct ps as [|p ps]; [by destruct (Hne eq_refl)|]. cbn in *. rewrite drop_0. rewrite Z.mod_small; lia.
    + rewrite Z.mod_small; lia.
Qed.
Definition ex_equal : Item_equal := IE 0 true NULL false false NULL false 3.
Lemma equal_iterator_visits_witness :
  ∃ i i' j j', new_Item_equal_iterator it_next_fast store1 ex_equal = Some i ∧
    visit it_next_fast store1 4 i = Some ([8; 9]%N, i') ∧ curr_item i' = NULL ∧
    eq_rewind it_next_fast store1 i' = Some j ∧ visit it_next_fast store1 4 j = Some ([8; 9]%N, j') ∧
    n_field_items store1 ex_equal = Some 2.
Proof.
  apply (equal_iterator_visits true store1 ex_equal [(10, 7); (11, 8); (12, 9)]%N 4);
    [exact store1_rep|apply (bool_decide_unpack _); vm_compute; done|done|done|cbn; lia].
Defined.

(** Copying the equalities of a level gives an object with the members of the other, whose list has the same items; the
    other is as it was.  When there are none, the copy's list is one of its own: an item added to it does not
    reach the other.  When there are some, the two lists share their nodes: an item added to
    the copy is linked behind the items of the other, whose count and last pointer stay behind. *)
Theorem cond_equal_copy s this other ps x a :
  rep s (current_level other) ps → current_level this ≠ current_level other → fresh s a → Z.of_nat (length ps) < 2 ^ 32 →
  ∃ s' t s'', copy s this other = Some (s', t) ∧ max_members t = max_members other ∧ upper_levels t = upper_levels other ∧
    rep s' (current_level t) ps ∧ rep s' (current_level other) ps ∧
    push_back s' (current_level t) x (Some a) = Some (s'', false) ∧ rep s'' (current_level t) (ps ++ [(a, x)]) ∧
    lists s'' !! current_level other = lists s !! current_level other ∧
    (if decide (ps = []) then rep s'' (current_level other) ps else seg (nodes s'') (ps ++ [(a, x)]) END).
Proof.
  intros Hr Hne Hfr Hlen. pose proof Hr as (He & Hok & Hs & HL).
  assert (Hc : ∃ s', copy s this other = Some (s', CE (max_members other) (upper_levels other) (current_level this)) ∧
    rep s' (current_level this) ps ∧ rep s' (current_level other) ps ∧ fresh s' a ∧ lists s' !! current_level other = lists s !! current_level other).
  { unfold copy. rewrite (rep_is_empty _ _ _ Hr). cbn [mbind option_bind]. case_bool_decide as Hps.
    - subst ps. eexists. split; [done|]. split_and!; [|split_and!; [done..|]; cbn; by rewrite lookup_insert_ne|done|cbn; by rewrite lookup_insert_ne].
      split_and!; [done|done|done|]. cbn. by rewrite lookup_insert_eq.
    - unfold operator_assign. rewrite HL. cbn [mbind option_bind first last elements].
      assert (0 < length ps)%nat by (destruct ps; [done|cbn; lia]).
      rewrite decide_True by (unfold wrapu; rewrite Z.mod_small; lia). eexists. split; [done|].
      split_and!; [|split_and!; [done..|]; cbn; by rewrite lookup_insert_ne|done|cbn; by rewrite lookup_insert_ne].
      split_and!; [done|done|done|]. cbn. rewrite lookup_insert_eq. by rewrite (last_of_any _ (current_level this)). }
  destruct Hc as (s' & Hcopy & Hrt & Hro & Hfr' & Hlo).
  destruct (push_back_rep s' (current_level this) ps x a Hrt Hfr') as (s'' & Hp & Hrp & Hframe).
  exists s', (CE (max_members other) (upper_levels other) (current_level this)), s''. cbn. pose proof Hframe as [Hfl _].
  split_and!; [done..|by rewrite Hfl|]. case_decide as Hps; [|apply Hrp]. subst ps. destruct (fresh_notin _ _ _ _ Hrt Hfr') as [_ Hend].
  apply (rep_frame s' s'' (current_level this) _ _ [a]); [done|done|done|set_solver|set_solver].
Qed.
Lemma cond_equal_copy_witness :
  ∃ s' t s'', copy store1 (CE 0 0 5) (CE 3 0 0) = Some (s', t) ∧ max_members t = 3 ∧ upper_levels t = 0%N ∧
    rep s' (current_level t) [(10, 7); (11, 8); (12, 9)]%N ∧ rep s' 0%nat [(10, 7); (11, 8); (12, 9)]%N ∧
    push_back s' (current_level t) 4 (Some 20%N) = Some (s'', false) ∧ rep s'' (current_level t) ([(10, 7); (11, 8); (12, 9)] ++ [(20, 4)])%N ∧
    lists s'' !! 0%nat = lists store1 !! 0%nat ∧ seg (nodes s'') ([(10, 7); (11, 8); (12, 9)] ++ [(20, 4)])%N END.
Proof.
  apply (cond_equal_copy store1 (CE 0 0 5) (CE 3 0 0) [(10, 7); (11, 8); (12, 9)]%N 4 20); [exact store1_rep|done|split; [done|vm_compute; reflexivity]|done].
Defined.
End EqualityTheorems.

(** ** Name resolution contexts *)

Module NameContext.

(** Pointers are numbers, 0 the null pointer; [error_processor] is the address of a function. *)
Record Name_resolution_context := NRC {
  outer_context : N; table_list : N; first_name_resolution_table : N; last_name_resolution_table : N; natural_join_first_table : N;
  select_lex : N; error_processor : N; error_processor_data : N; resolve_in_select_list : bool; security_ctx : N
}.
(** The members of a table reference that are saved. *)
Record TABLE_LIST := TRef { next_local : N; next_name_resolution_table : N; map : Z }.
Record store := Store { ctxs : gmap N Name_resolution_context; trefs : gmap N TABLE_LIST }.
(** The address of [dummy_error_processor]. *)
Definition dummy_error_processor : N := 1.

(** The members the constructor does not set have the values of [g]. *)
Definition new_Name_resolution_context (g : Name_resolution_context) : Name_resolution_context :=
  NRC 0 0 (first_name_resolution_table g) (last_name_resolution_table g) (natural_join_first_table g) 0 (error_processor g) 0
    (resolve_in_select_list g) 0.
Definition init (c : Name_resolution_context) : Name_resolution_context :=
  NRC (outer_context c) (table_list c) 0 0 (natural_join_first_table c) (select_lex c) dummy_error_processor (error_processor_data c) false (security_ctx c).
Definition set_lookup (c : Name_resolution_context) (tl first : N) (res : bool) : Name_resolution_context :=
  NRC (outer_context c) tl first (last_name_resolution_table c) (natural_join_first_table c) (select_lex c) (error_processor c)
    (error_processor_data c) res (security_ctx c).
Definition resolve_in_table_list_only (c : Name_resolution_context) (tables : N) : Name_resolution_context := set_lookup c tables tables false.
Definition outer_select (σ : store) (c : Name_resolution_context) : option N :=
  if decide (outer_context c ≠ 0%N) then o ← ctxs σ !! outer_context c; Some (select_lex o) else Some 0%N.

Record Name_resolution_context_state := NState {
  save_table_list : N; save_first_name_resolution_table : N; save_next_name_resolution_table : N; save_resolve_in_select_list : bool; save_next_local : N
}.
Definition save_state (c : Name_resolution_context) (t : TABLE_LIST) : Name_resolution_context_state :=
  NState (table_list c) (first_name_resolution_table c) (next_name_resolution_table t) (resolve_in_select_list c) (next_local t).
Definition restore_table (s : Name_resolution_context_state) (t : TABLE_LIST) : TABLE_LIST :=
  TRef (save_next_local s) (save_next_name_resolution_table s) (map t).
Definition restore_context (s : Name_resolution_context_state) (c : Name_resolution_context) : Name_resolution_context :=
  set_lookup c (save_table_list s) (save_first_name_resolution_table s) (save_resolve_in_select_list s).
Definition restore_state (s : Name_resolution_context_state) (c : Name_resolution_context) (t : TABLE_LIST) : Name_resolution_context * TABLE_LIST :=
  (restore_context s c, restore_table s t).
Definition get_first_name_resolution_table (s : Name_resolution_context_state) : N := save_first_name_resolution_table s.

(** The object of a block that searches names in one table: its constructor and destructor. *)
Record Name_resolution_context_backup := Backup { b_ctx : N; b_table_list : N; save_map : Z; ctx_state : Name_resolution_context_state }.
Definition new_backup (σ : store) (ctx tl : N) : option (store * Name_resolution_context_backup) :=
  c ← ctxs σ !! ctx; t ← trefs σ !! tl;
  let st := save_state c t in
  Some (Store (<[ctx := set_lookup c tl tl (resolve_in_select_list c)]> (ctxs σ)) (trefs σ), Backup ctx tl (map t) st).
Definition delete_backup (σ : store) (b : Name_resolution_context_backup) : option store :=
  c ← ctxs σ !! b_ctx b; t ← trefs σ !! b_table_list b;
  let '(c, t) := restore_state (ctx_state b) c t in
  Some (Store (<[b_ctx b := c]> (ctxs σ)) (<[b_table_list b := TRef (next_local t) (next_name_resolution_table t) (save_map b)]> (trefs σ))).

(** A block inside which [body] runs, and blocks nested in one another. *)
Definition scope (ctx tl : N) (body : store → option store) (σ : store) : option store :=
  '(σ, b) ← new_backup σ ctx tl; σ ← body σ; delete_backup σ b.
Fixpoint scopes (ctx : N) (tls : list N) (body : store → option store) : store → option store :=
  match tls with [] => body | t :: tls => scope ctx t (scopes ctx tls body) end.

Definition same_lookup (c c' : Name_resolution_context) : Prop :=
  table_list c' = table_list c ∧ first_name_resolution_table c' = first_name_resolution_table c ∧ resolve_in_select_list c' = resolve_in_select_list c.
(** The body may do anything, as long as the context and the tables [TS] stay where they are. *)
Definition present (ctx : N) (TS : list N) (σ : store) : Prop := is_Some (ctxs σ !! ctx) ∧ ∀ a, a ∈ TS → is_Some (trefs σ !! a).
Definition keeps (ctx : N) (TS : list N) (body : store → option store) : Prop :=
  ∀ σ, present ctx TS σ → ∃ σ', body σ = Some σ' ∧ present ctx TS σ'.

Lemma scope_restores ctx TS tl body σ c t :
  keeps ctx TS body → tl ∈ TS → present ctx TS σ → ctxs σ !! ctx = Some c → trefs σ !! tl = Some t →
  ∃ σ1 σ2 σ3 c', σ1 = Store (<[ctx := set_lookup c tl tl (resolve_in_select_list c)]> (ctxs σ)) (trefs σ) ∧ body σ1 = Some σ2 ∧
    scope ctx tl body σ = Some σ3 ∧ present ctx TS σ3 ∧
    ctxs σ3 !! ctx = Some c' ∧ same_lookup c c' ∧ trefs σ3 !! tl = Some t ∧
    (∀ a, a ≠ tl → trefs σ3 !! a = trefs σ2 !! a) ∧ (∀ d, d ≠ ctx → ctxs σ3 !! d = ctxs σ2 !! d).
Proof.
  intros Hk Htl [_ Hp] Hc Ht. unfold scope, new_backup. rewrite Hc. cbn. rewrite Ht. cbn.
  destruct (Hk (Store (<[ctx:=set_lookup c tl tl (resolve_in_select_list c)]> (ctxs σ)) (trefs σ))) as (σ2 & Hb & [c2 Hc2] & Hts).
  { split; [cbn; rewrite lookup_insert_eq; eauto|done]. }
  destruct (Hts tl Htl) as [t2 Ht2]. eexists _, σ2, _, _. split; [done|]. split; [done|]. rewrite Hb. cbn. unfold delete_backup. cbn.
  rewrite Hc2. cbn. rewrite Ht2. cbn. split; [done|]. unfold present. cbn. rewrite !lookup_insert_eq. split_and!; [eauto| |done..|by destruct t| |].
  - intros a Ha. destruct (decide (a = tl)) as [->|]; [rewrite lookup_insert_eq; eauto|]. rewrite lookup_insert_ne by done. by apply Hts.
  - intros a ?. by rewrite lookup_insert_ne.
  - intros d ?. by rewrite lookup_insert_ne.
Qed.
Lemma keeps_scopes ctx TS body tls : keeps ctx TS body → (∀ a, a ∈ tls → a ∈ TS) → keeps ctx TS (scopes ctx tls body).
Proof.
  intros Hk. induction tls as [|tl tls IH]; intros Hin; [done|]. intros σ Hp. pose proof Hp as [[c Hc] Hts]. destruct (Hts tl) as [t Ht]; [apply Hin; set_solver|].
  destruct (scope_restores ctx TS tl (scopes ctx tls body) σ c t) as (? & ? & σ3 & c' & _ & _ & Hs & Hp3 & _); [apply IH; set_solver|apply Hin; set_solver|done..|].
  by exists σ3.
Qed.
End NameContext.

Section ContextTheorems.
Import NameContext.

(** [C29] Blocks that search names in one table each, nested in one another around any body that leaves the context and the tables
    in place: inside, names are searched in the table of the innermost block; afterwards the context looks names up
    where it did before the outermost one, and every table of the blocks has its links and its map as before, also when a table is
    used by several blocks; the other tables are as the body left them. *)
Theorem nested_backups_restore ctx tls TS body σ c :
  keeps ctx TS body → (∀ a, a ∈ tls → a ∈ TS) → present ctx TS σ → ctxs σ !! ctx = Some c →
  ∃ σ' c' σb σb' cb, scopes ctx tls body σ = Some σ' ∧ ctxs σ' !! ctx = Some c' ∧ (tls ≠ [] → same_lookup c c') ∧
    (∀ a, a ∈ tls → trefs σ' !! a = trefs σ !! a) ∧
    trefs σb = trefs σ ∧ ctxs σb !! ctx = Some cb ∧
    table_list cb = default (table_list c) (last tls) ∧ first_name_resolution_table cb = default (first_name_resolution_table c) (last tls) ∧
    body σb = Some σb' ∧ ∀ a, a ∉ tls → trefs σ' !! a = trefs σb' !! a.
Proof.
  intros Hk. revert σ c. induction tls as [|tl tls IH]; intros σ c Hin Hp Hc.
  - destruct (Hk σ Hp) as (σ' & Hb & Hp'). pose proof Hp' as [[c' Hc'] _]. exists σ', c', σ, σ', c. split_and!; try done. set_solver.
  - pose proof Hp as [_ Hts]. destruct (Hts tl) as [t Ht]; [apply Hin; set_solver|].
    destruct (scope_restores ctx TS tl (scopes ctx tls body) σ c t) as (σ1 & σ2 & σ3 & c' & Hσ1 & Hb & Hs & Hp3 & Hc' & Hsame & Ht' & Ho & Hd);
      [by apply keeps_scopes; [|set_solver]|apply Hin; set_solver|done..|].
    destruct (IH σ1 (set_lookup c tl tl (resolve_in_select_list c))) as (σ'' & c'' & σb & σb' & cb & Hs' & _ & _ & Hr & Hbt & Hbc & Hl1 & Hl2 & Hbody & Hout);
      [set_solver|subst σ1; split; [cbn; rewrite lookup_insert_eq; eauto|done]|subst σ1; cbn; by rewrite lookup_insert_eq|].
    rewrite Hb in Hs'. simplify_eq. cbn in Hr, Hbt.
    exists σ3, c', σb, σb', cb. split_and!; [done..| |done|done| | |done|].
    + intros a [->|Ha]%elem_of_cons; [by rewrite Ht'|]. destruct (decide (a = tl)) as [->|]; [by rewrite Ht'|]. rewrite Ho by done. by apply Hr.
    + rewrite Hl1, last_cons. by destruct (last tls).
    + rewrite Hl2, last_cons. by destruct (last tls).
    + intros a [Ha1 Ha2]%not_elem_of_cons. by rewrite Ho, Hout.
Qed.
Definition ex_ctxs : store := Store {[1%N := NRC 0 7 7 0 0 0 0 0 true 0]} (<[2%N := TRef 8 9 4]> {[3%N := TRef 0 2 1]}).
(** A body that unlinks the table 2 and moves the context. *)
Definition ex_body (σ : store) : option store :=
  c ← ctxs σ !! 1%N; Some (Store (<[1%N := set_lookup c 5 5 false]> (ctxs σ)) (<[2%N := TRef 0 0 0]> (trefs σ))).
Lemma nested_backups_restore_witness :
  ∃ σ' c' σb σb' cb, scopes 1 [2%N; 3%N; 2%N] ex_body ex_ctxs = Some σ' ∧ ctxs σ' !! 1%N = Some c' ∧
    ([2%N; 3%N; 2%N] ≠ [] → same_lookup (NRC 0 7 7 0 0 0 0 0 true 0) c') ∧
    (∀ a, a ∈ [2%N; 3%N; 2%N] → trefs σ' !! a = trefs ex_ctxs !! a) ∧
    trefs σb = trefs ex_ctxs ∧ ctxs σb !! 1%N = Some cb ∧ table_list cb = 2%N ∧ first_name_resolution_table cb = 2%N ∧
    ex_body σb = Some σb' ∧ ∀ a, a ∉ [2%N; 3%N; 2%N] → trefs σ' !! a = trefs σb' !! a.
Proof.
  apply (nested_backups_restore 1 [2%N; 3%N; 2%N] [2%N; 3%N] ex_body ex_ctxs (NRC 0 7 7 0 0 0 0 0 true 0)).
  - intros σ [[c Hc] Ht]. unfold ex_body. rewrite Hc. cbn. eexists. split; [done|]. split; [cbn; rewrite lookup_insert_eq; eauto|].
    intros a Ha. cbn. destruct (decide (a = 2%N)) as [->|]; [rewrite lookup_insert_eq; eauto|]. rewrite lookup_insert_ne by done. by apply Ht.
  - set_solver.
  - split; [eexists; vm_compute; reflexivity|]. intros a Ha. repeat (apply elem_of_cons in Ha as [->|Ha]; [eexists; vm_compute; reflexivity|]). set_solver.
  - vm_compute. reflexivity.
Defined.
End ContextTheorems.
