(* ===== verification/Gcalc.v ===== *)
(** * Storage and input of the spatial calculations

    From gcalc_slicescan.h: the list of free items of [Gcalc_dyn_list], from which the objects of the slice scan are taken, the
    protocol by which [Gcalc_shape_transporter] is told of shapes, and the walks over a slice; from gcalc_tools.h: the states of the shapes in
    [Gcalc_function]; from gstream.h: the reader of the textual form of a geometry, [Gis_read_stream]. *)

From Stdlib Require Import ZArith NArith Lia.
From stdpp Require Import base numbers option list gmap fin_maps.
From S2P Require Import Prelude.
Open Scope Z_scope.
Open Scope cint_scope.

(** ** The free list *)

Module DynList.

(** The [next] of each item, by address; 0 is the null pointer. *)
Record Gcalc_dyn_list := DL { next : gmap N N; m_free : N }.
(** A pointer to a pointer to an item: the caller's variable, or the [next] of an item. *)
Inductive hook := Var | NextOf (a : N).

Section Ops.
(** [alloc_new_blk]: it returns an item of a new block and may put the others in the free list. *)
Context (alloc_new_blk : Gcalc_dyn_list → option (Gcalc_dyn_list * N)).

Definition new_item (d : Gcalc_dyn_list) : option (Gcalc_dyn_list * N) :=
  if decide (m_free d ≠ 0%N) then n ← next d !! m_free d; Some (DL (next d) n, m_free d) else alloc_new_blk d.
Definition free_item (d : Gcalc_dyn_list) (item : N) : option Gcalc_dyn_list :=
  _ ← next d !! item; Some (DL (<[item := m_free d]> (next d)) item).
(** [list] is the value of the caller's variable, to which [Var] points. *)
Definition free_list_hook (d : Gcalc_dyn_list) (list : N) (h : hook) : option Gcalc_dyn_list :=
  match h with
  | Var => Some (DL (next d) (m_free d))
  | NextOf a => _ ← next d !! a; Some (DL (<[a := m_free d]> (next d)) list)
  end.
Fixpoint hook_loop (fuel : nat) (d : Gcalc_dyn_list) (list : N) (h : hook) : option hook :=
  match fuel with
  | O => None
  | S fuel =>
      v ← (match h with Var => Some list | NextOf a => next d !! a end);
      if decide (v ≠ 0%N) then hook_loop fuel d list (NextOf v) else Some h
  end.
Definition free_list (fuel : nat) (d : Gcalc_dyn_list) (list : N) : option Gcalc_dyn_list :=
  h ← hook_loop fuel d list Var; free_list_hook d list h.
End Ops.

(** *** What it promises: a stack of free items, apart from the items in use *)

Fixpoint chain (M : gmap N N) (L : list N) (v : N) : Prop :=
  match L with [] => True | a :: L => a ≠ 0%N ∧ M !! a = Some (default v (head L)) ∧ chain M L v end.
Definition rep (d : Gcalc_dyn_list) (F : list N) : Prop := m_free d = default 0%N (head F) ∧ chain (next d) F 0 ∧ NoDup F.

Lemma free_chain_ext M M' L v : (∀ a, a ∈ L → M' !! a = M !! a) → chain M L v → chain M' L v.
Proof.
  induction L as [|a L IH]; [done|]. intros HM (? & ? & ?). split; [done|]. rewrite HM by set_solver. split; [done|]. apply IH; [set_solver|done].
Qed.
Lemma free_chain_app M L L' v : chain M (L ++ L') v ↔ chain M L (default v (head L')) ∧ chain M L' v.
Proof. induction L as [|a L IH]; [naive_solver|]. cbn. rewrite IH. destruct L; naive_solver. Qed.
Lemma chain_relink M L a v w : NoDup (L ++ [a]) → chain M (L ++ [a]) v → chain (<[a := w]> M) (L ++ [a]) w.
Proof.
  intros (_ & Hd & _)%NoDup_app (HL & Ha & _)%free_chain_app. cbn in *. apply free_chain_app. split.
  - eapply free_chain_ext; [|done]. intros b Hb. apply lookup_insert_ne. intros ->. apply (Hd b Hb). set_solver.
  - cbn. rewrite lookup_insert_eq. done.
Qed.
Lemma hook_loop_spec d l fuel : ∀ L h,
  (match h with Var => l | NextOf a => default 0%N (next d !! a) end) = default 0%N (head L) →
  (match h with Var => True | NextOf a => is_Some (next d !! a) end) → chain (next d) L 0 → (length L < fuel)%nat →
  hook_loop fuel d l h = Some (default h (NextOf <$> last L)).
Proof.
  induction fuel as [|fuel IH]; intros L h Hv Hs HL Hf; [lia|]. cbn.
  assert (Hr : (match h with Var => Some l | NextOf a => next d !! a end) = Some (default 0%N (head L))).
  { destruct h as [|a]; [by rewrite Hv|]. destruct Hs as [x Hx]. rewrite Hx in Hv |- *. cbn in Hv. by rewrite Hv. }
  rewrite Hr. cbn. destruct L as [|b L]; cbn; [done|]. destruct HL as (Hb & Hnb & HL). rewrite decide_True by done.
  rewrite (IH L); [|by rewrite Hnb|by rewrite Hnb|done|cbn in Hf; lia]. rewrite last_cons. by destruct (last L).
Qed.
Lemma new_item_rep alloc d a F : rep d (a :: F) → new_item alloc d = Some (DL (next d) (default 0%N (head F)), a) ∧ rep (DL (next d) (default 0%N (head F))) F.
Proof.
  intros (Hf & (Ha & Hn & HF) & [_ Hnd]%NoDup_cons). unfold new_item. cbn in Hf. rewrite Hf, decide_True by done. rewrite Hn. done.
Qed.
Lemma free_list_rep d F L fuel : rep d F → chain (next d) L 0 → NoDup (L ++ F) → (length L < fuel)%nat →
  ∃ d', free_list fuel d (default 0%N (head L)) = Some d' ∧ rep d' (L ++ F) ∧ ∀ a, a ∉ L → next d' !! a = next d !! a.
Proof.
  intros (Hf & HF & HnF) HL Hnd Hfuel. unfold free_list. rewrite (hook_loop_spec _ _ _ L) by done. cbn.
  destruct L as [|a L _] using rev_ind; [cbn; eexists; split; [done|]; by destruct d|].
  rewrite last_snoc. cbn. pose proof Hnd as (HnL & Hd & _)%NoDup_app. pose proof HL as (_ & _ & Ha & _)%free_chain_app. rewrite Ha. cbn. eexists. split; [done|].
  split; [|intros b Hb; cbn; rewrite lookup_insert_ne; [done|set_solver]]. split_and!; [by destruct L| |done].
  apply free_chain_app. cbn. rewrite Hf. split; [by eapply chain_relink|]. eapply free_chain_ext; [|done].
  intros b Hb. rewrite lookup_insert_ne; [done|]. intros ->. apply (Hd b); set_solver.
Qed.
Lemma free_item_rep d F a : rep d F → is_Some (next d !! a) → a ≠ 0%N → a ∉ F →
  ∃ d', free_item d a = Some d' ∧ rep d' (a :: F) ∧ ∀ b, b ≠ a → next d' !! b = next d !! b.
Proof.
  intros (Hf & HF & HnF) [x Hx] H0 Ha. unfold free_item. rewrite Hx. cbn. eexists. split; [done|]. split.
  - split_and!; [done| |by apply NoDup_cons]. cbn. rewrite lookup_insert_eq. split_and!; [done|by rewrite Hf|].
    eapply free_chain_ext; [|done]. intros b Hb. apply lookup_insert_ne. set_solver.
  - intros b ?. cbn. by rewrite lookup_insert_ne.
Qed.

(** Histories: an item is taken, where [blk] are the items of the block the allocator would return; one is given back; or the
    items [L], which the caller has chained, are given back together. *)
Inductive op := New (blk : list N) | Free (a : N) | FreeList (L : list N).
(** The caller links the items it gives back. *)
Fixpoint link (M : gmap N N) (L : list N) : gmap N N :=
  match L with [] => M | a :: L => <[a := default 0%N (head L)]> (link M L) end.
Definition exec (alloc : list N → Gcalc_dyn_list → option (Gcalc_dyn_list * N)) (d : Gcalc_dyn_list) (o : op) : option (Gcalc_dyn_list * N) :=
  match o with
  | New blk => new_item (alloc blk) d
  | Free a => d ← free_item d a; Some (d, 0%N)
  | FreeList L => d ← free_list (S (length L)) (DL (link (next d) L) (m_free d)) (default 0%N (head L)); Some (d, 0%N)
  end.
Fixpoint run alloc d (os : list op) : option (Gcalc_dyn_list * list N) :=
  match os with [] => Some (d, []) | o :: os => '(d, r) ← exec alloc d o; '(d, rs) ← run alloc d os; Some (d, r :: rs) end.
(** What is promised of the allocator: it returns the first item of a block none of whose items was known, and leaves the
    others as the free list. *)
Class BlockAllocator (alloc : list N → Gcalc_dyn_list → option (Gcalc_dyn_list * N)) : Prop :=
  alloc_block : ∀ d a F, m_free d = 0%N → NoDup (a :: F) → Forall (λ b, b ≠ 0%N ∧ next d !! b = None) (a :: F) →
    ∃ d', alloc (a :: F) d = Some (d', a) ∧ rep d' F ∧ is_Some (next d' !! a) ∧ ∀ b, b ∉ a :: F → next d' !! b = next d !! b.
(** The items free and the items in use. *)
Record spec := Spec { free : list N; used : gset N }.
Definition spec_step (s : spec) (o : op) : option (spec * N) :=
  match o with
  | New blk =>
      match free s, blk with
      | a :: F, _ => Some (Spec F (used s ∪ {[a]}), a)
      | [], a :: F => if decide (NoDup blk ∧ Forall (λ b, b ≠ 0%N ∧ b ∉ used s) blk) then Some (Spec F (used s ∪ {[a]}), a) else None
      | [], [] => None
      end
  | Free a => if decide (a ∈ used s) then Some (Spec (a :: free s) (used s ∖ {[a]}), 0%N) else None
  | FreeList L => if decide (NoDup L ∧ Forall (λ a, a ∈ used s) L) then Some (Spec (L ++ free s) (used s ∖ list_to_set L), 0%N) else None
  end.
Fixpoint spec_run (s : spec) (os : list op) : option (spec * list N) :=
  match os with [] => Some (s, []) | o :: os => '(s, r) ← spec_step s o; '(s, rs) ← spec_run s os; Some (s, r :: rs) end.
Definition inv (d : Gcalc_dyn_list) (s : spec) : Prop :=
  rep d (free s) ∧ (∀ a, a ∈ used s → a ∉ free s ∧ a ≠ 0%N) ∧ ∀ a, is_Some (next d !! a) ↔ a ∈ used s ∨ a ∈ free s.

Lemma link_chain M L : NoDup L → Forall (λ a, a ≠ 0%N) L → chain (link M L) L 0.
Proof.
  induction L as [|a L IH]; [done|]. intros [Ha Hnd]%NoDup_cons [H0 HL]%Forall_cons. cbn. rewrite lookup_insert_eq. split_and!; [done..|].
  eapply free_chain_ext; [|by apply IH]. intros b Hb. apply lookup_insert_ne. set_solver.
Qed.
Lemma link_other M L b : b ∉ L → link M L !! b = M !! b.
Proof. induction L as [|a L IH]; [done|]. intros [? ?]%not_elem_of_cons. cbn. rewrite lookup_insert_ne by done. by apply IH. Qed.
Lemma link_some M L b : is_Some (M !! b) → is_Some (link M L !! b).
Proof. intros H. induction L as [|a L IH]; [done|]. cbn. rewrite lookup_insert. case_decide; eauto. Qed.
Lemma chain_some M L v a : chain M L v → a ∈ L → is_Some (M !! a).
Proof. induction L as [|b L IH]; [set_solver|]. intros (_ & ? & ?) [->|?]%elem_of_cons; [eauto|by apply IH]. Qed.
Lemma new_inv alloc `{!BlockAllocator alloc} d s blk s' r : inv d s → spec_step s (New blk) = Some (s', r) →
  ∃ d', exec alloc d (New blk) = Some (d', r) ∧ inv d' s'.
Proof.
  intros (HR & Hu & Hall) Hst. cbn in *. destruct s as [[|a F] U]; cbn in *.
  - destruct blk as [|a F]; [done|]. case_decide as Hb; [|done]. simplify_eq. destruct Hb as [Hnd HF]. destruct HR as (Hf & _ & _). cbn in Hf.
    destruct (alloc_block d r F Hf Hnd) as (d' & Ha & HR' & Hr & Hfr).
    { eapply Forall_impl; [exact HF|]. intros b [? Hb]. split; [done|]. apply eq_None_not_Some. rewrite Hall. set_solver. }
    exists d'. unfold new_item. rewrite Hf, decide_False by (intros []; done). split; [done|]. apply NoDup_cons in Hnd as [HrF _].
    assert (HF' : ∀ b, b ∈ r :: F → b ≠ 0%N ∧ b ∉ U) by (by apply Forall_forall). split_and!; [done| |].
    + cbn. intros b [Hb| ->%elem_of_singleton]%elem_of_union; [|split; [done|apply HF'; set_solver]].
      split; [intros ?; apply (HF' b); set_solver|]. by apply Hu.
    + intros b. cbn. destruct (decide (b ∈ r :: F)) as [Hb|Hb].
      * destruct HR' as (_ & Hch & _). split; [set_solver|]. intros _. apply elem_of_cons in Hb as [->|Hb]; [done|].
        by eapply chain_some.
      * rewrite Hfr, Hall by done. set_solver.
  - simplify_eq. destruct (new_item_rep (alloc blk) d r F HR) as [Hn HR']. eexists. split; [done|]. split_and!; [done| |].
    + destruct HR as (_ & (H0 & _) & [Hr _]%NoDup_cons). cbn. intros b [Hb| ->%elem_of_singleton]%elem_of_union; [|done].
      destruct (Hu b Hb). split; [set_solver|done].
    + intros b. cbn. rewrite Hall. set_solver.
Qed.
Lemma free_inv alloc d s o s' r : inv d s → (∀ blk, o ≠ New blk) → spec_step s o = Some (s', r) → ∃ d', exec alloc d o = Some (d', r) ∧ inv d' s'.
Proof.
  intros (HR & Hu & Hall) Ho Hst. destruct o as [blk|a|L]; [by destruct (Ho blk)| |]; cbn [spec_step] in Hst; case_decide as Ha; simplify_eq; cbn [exec].
  - destruct (Hu a Ha) as [Hna H0]. destruct (free_item_rep d (free s) a HR) as (d' & Hf & HR' & Hfr); [by apply Hall; left|done|done|].
    exists d'. rewrite Hf. split; [done|]. split_and!; [done| |].
    + intros b [Hb ?]%elem_of_difference. cbn. destruct (Hu b Hb). set_solver.
    + intros b. cbn. destruct (decide (b = a)) as [->|Hb].
      * split; [set_solver|]. intros _. destruct HR' as (_ & (_ & Hn & _) & _). eauto.
      * rewrite Hfr, Hall by done. set_solver.
  - destruct Ha as [Hnd HL]. rewrite Forall_forall in HL. pose proof HR as (Hf & HF & HnF).
    assert (Hdis : ∀ b, b ∈ L → b ∉ free s ∧ b ≠ 0%N) by (intros b Hb; apply Hu, HL, Hb).
    destruct (free_list_rep (DL (link (next d) L) (m_free d)) (free s) L (S (length L))) as (d' & Hd' & HR' & Hfr).
    + split_and!; [done| |done]. eapply free_chain_ext; [|done]. intros b Hb. cbn. apply link_other. intros HbL. destruct (Hdis b HbL) as [Hb1 _]. by apply Hb1.
    + apply link_chain; [done|]. apply Forall_forall. intros b Hb. by apply Hdis.
    + apply NoDup_app. split_and!; [done| |done]. intros b Hb. by apply Hdis.
    + lia.
    + exists d'. rewrite Hd'. split; [done|]. split_and!; [done| |].
      * intros b [Hb Hn]%elem_of_difference. cbn. destruct (Hu b Hb). rewrite elem_of_list_to_set in Hn. split; [set_solver|done].
      * intros b. cbn. destruct (decide (b ∈ L)) as [Hb|Hb].
        -- split; [set_solver|]. intros _. destruct HR' as (_ & Hch & _). eapply chain_some; [done|set_solver].
        -- rewrite Hfr by done. cbn. rewrite link_other, Hall by done. rewrite elem_of_difference, elem_of_list_to_set. set_solver.
Qed.
End DynList.

(** ** The protocol of shapes *)

Module Transporter.

(** [m_shape_started] is 0 outside of a shape, 1 in a line, 2 in a polygon, 3 in a ring of one; [m_first] and [m_prev] are the first
    point of the line or ring and the one before, 0 for none; the heap has the points.  Each function has a result only
    where its assertion holds. *)
Record transporter (H : Type) := Tr { m_shape_started : Z; m_first : N; m_prev : N; m_heap : H }.
Arguments Tr {_}.
Arguments m_shape_started {_}.
Arguments m_first {_}.
Arguments m_prev {_}.
Arguments m_heap {_}.
Definition new_transporter {H} (garbage : N * N) (heap : H) : transporter H := Tr 0 garbage.1 garbage.2 heap.

Section Ops.
(** [int_complete] links the ends of the line or ring in the heap; its code is not in the header. *)
Context {H : Type} (int_complete : transporter H → transporter H).
Definition set_started (t : transporter H) (m : Z) : transporter H := Tr m (m_first t) (m_prev t) (m_heap t).
Definition int_start_line (t : transporter H) : option (transporter H) :=
  if decide (m_shape_started t = 0) then Some (Tr 1 0 0 (m_heap t)) else None.
Definition int_complete_line (t : transporter H) : option (transporter H) :=
  if decide (m_shape_started t = 1) then Some (set_started (int_complete t) 0) else None.
Definition int_start_ring (t : transporter H) : option (transporter H) :=
  if decide (m_shape_started t = 2) then Some (Tr 3 0 0 (m_heap t)) else None.
Definition int_complete_ring (t : transporter H) : option (transporter H) :=
  if decide (m_shape_started t = 3) then Some (set_started (int_complete t) 2) else None.
Definition int_start_poly (t : transporter H) : option (transporter H) :=
  if decide (m_shape_started t = 0) then Some (set_started t 2) else None.
Definition int_complete_poly (t : transporter H) : option (transporter H) :=
  if decide (m_shape_started t = 2) then Some (set_started t 0) else None.
Definition line_started (t : transporter H) : bool := bool_decide (m_shape_started t = 1).
(** The two calls that stand for two: the second is made only when the first reports no error. *)
Definition start_simple_poly {S} (start_poly start_ring : S → S * bool) (s : S) : S * bool :=
  let '(s, e) := start_poly s in if e then (s, true) else start_ring s.
Definition complete_simple_poly {S} (complete_ring complete_poly : S → S * bool) (s : S) : S * bool :=
  let '(s, e) := complete_ring s in if e then (s, true) else complete_poly s.

Inductive call := StartLine | CompleteLine | StartRing | CompleteRing | StartPoly | CompletePoly.
Definition step (t : transporter H) (c : call) : option (transporter H) :=
  match c with
  | StartLine => int_start_line t | CompleteLine => int_complete_line t | StartRing => int_start_ring t
  | CompleteRing => int_complete_ring t | StartPoly => int_start_poly t | CompletePoly => int_complete_poly t
  end.
Fixpoint run (t : transporter H) (cs : list call) : option (transporter H) := match cs with [] => Some t | c :: cs => t ← step t c; run t cs end.
End Ops.

(** The protocol alone, and that the transporter follows it. *)
Definition move (m : Z) (c : call) : option Z :=
  match c, m with
  | StartLine, 0 => Some 1 | CompleteLine, 1 => Some 0 | StartRing, 2 => Some 3 | CompleteRing, 3 => Some 2
  | StartPoly, 0 => Some 2 | CompletePoly, 2 => Some 0 | _, _ => None
  end.
Fixpoint moves (m : Z) (cs : list call) : option Z := match cs with [] => Some m | c :: cs => m ← move m c; moves m cs end.
Lemma step_move {H} (ic : transporter H → transporter H) t c : m_shape_started <$> step ic t c = move (m_shape_started t) c.
Proof.
  destruct t as [m f p h]. unfold step, int_start_line, int_complete_line, int_start_ring, int_complete_ring, int_start_poly, int_complete_poly. cbn.
  destruct c; case_decide as Hm; try (by subst); destruct m as [|[[]|[]|]|]; done.
Qed.
Lemma run_moves {H} (ic : transporter H → transporter H) cs : ∀ t, m_shape_started <$> run ic t cs = moves (m_shape_started t) cs.
Proof.
  induction cs as [|c cs IH]; intros t; [done|]. cbn. rewrite <- (step_move ic). destruct (step ic t c); cbn; [apply IH|done].
Qed.

(** The shapes the calls describe: lines and polygons of any number of rings. *)
Inductive shape := Line | Poly (rings : nat).
Definition calls (s : shape) : list call :=
  match s with
  | Line => [StartLine; CompleteLine]
  | Poly n => StartPoly :: mjoin (replicate n [StartRing; CompleteRing]) ++ [CompletePoly]
  end.

Lemma moves_app m cs cs' : moves m (cs ++ cs') = m ← moves m cs; moves m cs'.
Proof. revert m. induction cs as [|c cs IH]; intros m; [done|]. cbn. destruct (move m c); cbn; [apply IH|done]. Qed.
Lemma moves_rings n : moves 2 (mjoin (replicate n [StartRing; CompleteRing])) = Some 2.
Proof. induction n as [|n IH]; [done|]. cbn. exact IH. Qed.
Lemma moves_shape s : moves 0 (calls s) = Some 0.
Proof. destruct s as [|n]; [done|]. change (moves 2 (mjoin (replicate n [StartRing; CompleteRing]) ++ [CompletePoly]) = Some 0). by rewrite moves_app, moves_rings. Qed.
(** Calls that finish a polygon whose first rings were already read. *)
Lemma moves_from_poly k : ∀ cs, (length cs ≤ k)%nat → moves 2 cs = Some 0 →
  ∃ n rest, cs = mjoin (replicate n [StartRing; CompleteRing]) ++ CompletePoly :: rest ∧ moves 0 rest = Some 0.
Proof.
  induction k as [|k IH]; intros [|c cs] Hk Hr; cbn in Hk; try lia; try done. destruct c; cbn in Hr; try done.
  - destruct cs as [|c cs]; [done|]. destruct c; cbn in Hr; try done. cbn in Hk.
    destruct (IH cs) as (n & rest & -> & Hrest); [lia|done|]. by exists (S n), rest.
  - by exists 0%nat, cs.
Qed.
Lemma moves_shapes k : ∀ cs, (length cs ≤ k)%nat → moves 0 cs = Some 0 → ∃ ss, cs = mjoin (calls <$> ss).
Proof.
  induction k as [|k IH]; intros [|c cs] Hk Hr; cbn in Hk; try lia; try by exists []. destruct c; cbn in Hr; try done.
  - destruct cs as [|c cs]; [done|]. destruct c; cbn in Hr; try done. cbn in Hk.
    destruct (IH cs) as (ss & ->); [lia|done|]. by exists (Line :: ss).
  - destruct (moves_from_poly (length cs) cs) as (n & rest & -> & Hrest); [done|done|]. rewrite length_app in Hk. cbn in Hk.
    destruct (IH rest) as (ss & ->); [lia|done|]. exists (Poly n :: ss). cbn. by rewrite <- app_assoc.
Qed.
End Transporter.

(** ** The states of shapes *)

Module GcalcFunction.

(** [i_states] and [b_states] of [n_shapes] shapes: arrays of [int]. *)
Record states := States { i_states : list Z; b_states : list Z }.
Definition get_at (l : list Z) (shape : nat) : option Z := l !! shape.
Definition set_at (l : list Z) (shape : nat) (v : Z) : option (list Z) := _ ← l !! shape; Some (<[shape := v]> l).
Definition invert_i_state (s : states) (shape : nat) : option states :=
  v ← i_states s !! shape; l ← set_at (i_states s) shape (v .^ 1); Some (States l (b_states s)).
Definition set_i_state (s : states) (shape : nat) : option states := l ← set_at (i_states s) shape 1; Some (States l (b_states s)).
Definition clear_i_state (s : states) (shape : nat) : option states := l ← set_at (i_states s) shape 0; Some (States l (b_states s)).
Definition set_b_state (s : states) (shape : nat) : option states := l ← set_at (b_states s) shape 1; Some (States (i_states s) l).
Definition clear_b_state (s : states) (shape : nat) : option states := l ← set_at (b_states s) shape 0; Some (States (i_states s) l).
Definition get_state (s : states) (shape : nat) : option Z := i ← i_states s !! shape; b ← b_states s !! shape; Some (i .| b).
Definition get_i_state (s : states) (shape : nat) : option Z := i_states s !! shape.
Definition get_b_state (s : states) (shape : nat) : option Z := b_states s !! shape.

Inductive op := Invert (k : nat) | SetI (k : nat) | ClearI (k : nat) | SetB (k : nat) | ClearB (k : nat).
Definition exec (s : states) (o : op) : option states :=
  match o with
  | Invert k => invert_i_state s k | SetI k => set_i_state s k | ClearI k => clear_i_state s k
  | SetB k => set_b_state s k | ClearB k => clear_b_state s k
  end.
(** What the states stand for: whether a point is inside each shape, and on its border. *)
Definition bit (b : bool) : Z := if b then 1 else 0.
Definition shape_of (o : op) : nat := match o with Invert k | SetI k | ClearI k | SetB k | ClearB k => k end.
Definition spec (I B : list bool) (o : op) : list bool * list bool :=
  match o with
  | Invert k => (alter negb k I, B) | SetI k => (<[k := true]> I, B) | ClearI k => (<[k := false]> I, B)
  | SetB k => (I, <[k := true]> B) | ClearB k => (I, <[k := false]> B)
  end.
Lemma set_at_bit l k b : (k < length l)%nat → set_at (bit <$> l) k (bit b) = Some (bit <$> <[k := b]> l).
Proof.
  intros Hk. unfold set_at. rewrite list_lookup_fmap. destruct (lookup_lt_is_Some_2 l k Hk) as [x ->]. cbn. by rewrite list_fmap_insert.
Qed.
Lemma exec_spec I B o : length B = length I → (shape_of o < length I)%nat →
  exec (States (bit <$> I) (bit <$> B)) o = Some (States (bit <$> (spec I B o).1) (bit <$> (spec I B o).2)) ∧
  length (spec I B o).1 = length I ∧ length (spec I B o).2 = length I.
Proof.
  intros HB Hk. destruct o as [k|k|k|k|k]; cbn in *.
  - unfold invert_i_state. cbn. rewrite list_lookup_fmap. destruct (lookup_lt_is_Some_2 I k Hk) as [x Hx]. rewrite Hx. cbn.
    replace (bit x .^ 1) with (bit (negb x)) by (by destruct x). rewrite set_at_bit by done. cbn. rewrite length_alter. split; [|done].
    do 3 f_equal. apply list_eq. intros j. rewrite list_lookup_insert, list_lookup_alter. case_decide as Hj; [|case_decide; [|done]].
    + destruct Hj as [<- _]. by rewrite decide_True, Hx.
    + subst j. by destruct Hj.
  - unfold set_i_state. cbn. change 1 with (bit true). rewrite set_at_bit by done. cbn. by rewrite length_insert.
  - unfold clear_i_state. cbn. change 0 with (bit false). rewrite set_at_bit by done. cbn. by rewrite length_insert.
  - unfold set_b_state. cbn. change 1 with (bit true). rewrite set_at_bit by lia. cbn. by rewrite length_insert.
  - unfold clear_b_state. cbn. change 0 with (bit false). rewrite set_at_bit by lia. cbn. by rewrite length_insert.
Qed.
End GcalcFunction.

(** ** Walks over a slice *)

Module Slice.

Definition scev_point : Z := 1.
Definition scev_end : Z := 16.
Definition scev_two_ends : Z := 32.

(** Points by address; [pi] and [next_pi] are vertices of the heap; 0 is the null pointer. *)
Record point := Point { p_next : N; pi : N; next_pi : N; ev_next : N; event : Z }.
Notation points := (gmap N point).
Definition is_bottom (p : point) : bool := bool_decide (next_pi p = 0%N).
Definition simple_event (P : points) (p : point) : option bool :=
  if decide (ev_next p = 0%N) then Some (bool_decide (event p .& (scev_point .| scev_end) ≠ 0))
  else q ← P !! ev_next p; Some (bool_decide (ev_next q = 0%N) && bool_decide (event p = scev_two_ends)).
(** The value of [*event_position_hook] and [event_end] of the slice. *)
Definition get_events (bottom_points event_position event_end : N) : N :=
  if decide (event_position = event_end) then bottom_points else event_position.
Definition more_trapezoids (next_of : N → option N) (m_cur_pi : N) : option bool :=
  if decide (m_cur_pi = 0%N) then Some false else n ← next_of m_cur_pi; Some (bool_decide (n ≠ 0%N)).
(** Values computed on demand: the flag and [do_calc]. *)
Definition calc {S} (calculated : bool) (do_calc : S → S) (s : S) : S := if calculated then s else do_calc s.

(** *** The iterator over the points of a slice *)
Definition more (sp : N) : bool := bool_decide (sp ≠ 0%N).
Definition advance (P : points) (sp : N) : option N := p_next <$> P !! sp.
Definition get_pi (P : points) (sp : N) : option N := pi <$> P !! sp.
Definition restart (b_slice : N) : N := b_slice.
(** The loop the callers write: [for (; it.more(); ++it)]. *)
Fixpoint walk (P : points) (fuel : nat) (sp : N) : option (list N) :=
  match fuel with
  | O => None
  | S fuel => if more sp then x ← get_pi P sp; n ← advance P sp; xs ← walk P fuel n; Some (x :: xs) else Some []
  end.
(** The points [L] of a slice. *)
Fixpoint linked (P : points) (L : list N) : Prop :=
  match L with [] => True | a :: L => a ≠ 0%N ∧ (∃ p, P !! a = Some p ∧ p_next p = default 0%N (head L)) ∧ linked P L end.
Lemma walk_linked P L : ∀ fuel, linked P L → (length L < fuel)%nat →
  walk P fuel (default 0%N (head L)) = mapM (λ a, pi <$> P !! a) L.
Proof.
  induction L as [|a L IH]; intros fuel HL Hf; (destruct fuel as [|fuel]; [cbn in Hf; lia|]); [done|].
  destruct HL as (H0 & (p & Hp & Hn) & HL). cbn in Hf. cbn [walk head default]. unfold more. rewrite bool_decide_true by done.
  unfold get_pi, advance. cbn. rewrite Hp. cbn. rewrite Hn, (IH fuel HL) by lia. done.
Qed.
End Slice.

(** ** Reading the text of a geometry *)

Module GisStream.
Section Stream.
(** [my_isspace] of the Latin-1 character set, whose table is not a header. *)
Context (my_isspace : Z → bool).

(** The characters of the buffer; [m_cur] and [m_limit] are positions in it. *)
Record Gis_read_stream := Stream { buffer : list Z; m_cur : nat; m_limit : nat; m_err_msg : option (list Z) }.
Definition new_Gis_read_stream (b : list Z) (size : nat) : Gis_read_stream := Stream b 0 size None.
Definition with_cur (s : Gis_read_stream) (c : nat) : Gis_read_stream := Stream (buffer s) c (m_limit s) (m_err_msg s).
Fixpoint skip_loop (fuel : nat) (s : Gis_read_stream) : option Gis_read_stream :=
  match fuel with
  | O => None
  | S fuel =>
      if decide (m_cur s < m_limit s)%nat then
        c ← buffer s !! m_cur s; if my_isspace c then skip_loop fuel (with_cur s (S (m_cur s))) else Some s
      else Some s
  end.
(** The loop turns at most once for every character left. *)
Definition skip_space (s : Gis_read_stream) : option Gis_read_stream := skip_loop (S (m_limit s - m_cur s)) s.
Definition skip_char (s : Gis_read_stream) (skip : Z) : option (Gis_read_stream * bool) :=
  s ← skip_space s;
  if decide (m_limit s ≤ m_cur s)%nat then Some (s, true)
  else c ← buffer s !! m_cur s; if decide (c = skip) then Some (with_cur s (S (m_cur s)), false) else Some (s, true).
Definition next_symbol (s : Gis_read_stream) : option (Gis_read_stream * Z) :=
  s ← skip_space s; if decide (m_limit s ≤ m_cur s)%nat then Some (s, 0) else c ← buffer s !! m_cur s; Some (s, c).
Definition get_error_msg (s : Gis_read_stream) : Gis_read_stream * option (list Z) :=
  (Stream (buffer s) (m_cur s) (m_limit s) None, m_err_msg s).

(** What is left to read. *)
Definition rest (s : Gis_read_stream) : list Z := drop (m_cur s) (take (m_limit s) (buffer s)).
Definition inv (s : Gis_read_stream) : Prop := (m_cur s ≤ m_limit s ≤ length (buffer s))%nat.
Fixpoint trim (l : list Z) : list Z := match l with [] => [] | c :: r => if my_isspace c then trim r else l end.

Lemma rest_cons s c : inv s → (m_cur s < m_limit s)%nat → buffer s !! m_cur s = Some c → rest s = c :: rest (with_cur s (S (m_cur s))).
Proof. intros Hi Hlt Hc. unfold rest. cbn. apply drop_S. by rewrite lookup_take_lt. Qed.
Lemma rest_nil s : (m_limit s ≤ m_cur s)%nat → rest s = [].
Proof. intros H. unfold rest. apply drop_ge. rewrite length_take. lia. Qed.
Lemma buffer_at s : inv s → (m_cur s < m_limit s)%nat → is_Some (buffer s !! m_cur s).
Proof. intros Hi Hlt. apply lookup_lt_is_Some_2. unfold inv in Hi. lia. Qed.
Definition same (s s' : Gis_read_stream) : Prop := buffer s' = buffer s ∧ m_limit s' = m_limit s ∧ m_err_msg s' = m_err_msg s ∧ (m_cur s ≤ m_cur s')%nat.
Lemma skip_space_loop_spec fuel : ∀ s, inv s → (m_limit s - m_cur s < fuel)%nat →
  ∃ s', skip_loop fuel s = Some s' ∧ inv s' ∧ same s s' ∧ rest s' = trim (rest s).
Proof.
  induction fuel as [|fuel IH]; intros s Hi Hf; [lia|]. cbn. case_decide as Hlt.
  - destruct (buffer_at s Hi Hlt) as [c Hc]. rewrite Hc. cbn. rewrite (rest_cons s c) by done. cbn. destruct (my_isspace c) eqn:Hs.
    + destruct (IH (with_cur s (S (m_cur s)))) as (s' & Hs' & Hi' & Hsame & Hr); [unfold inv in *; cbn; lia|cbn; lia|].
      exists s'. split_and!; [done..| |done]. unfold same in *. cbn in *. naive_solver lia.
    + exists s. unfold same. rewrite (rest_cons s c) by done. done.
  - exists s. unfold same. rewrite rest_nil by lia. done.
Qed.
Lemma skip_space_spec s : inv s → ∃ s', skip_space s = Some s' ∧ inv s' ∧ same s s' ∧ rest s' = trim (rest s).
Proof. intros Hi. apply skip_space_loop_spec; [done|lia]. Qed.
End Stream.
End GisStream.

Section GcalcTheorems.
Import DynList.

(** [C26] Every history in which the calculations take items and give them back, one by one or in chains, and give back only what they hold,
    succeeds with every allocator that keeps its promise: a stack of free items is handed out again first, the free chain and the
    items in use are at every moment apart and together all the items there are, so no item is handed out twice. *)
Theorem dyn_list_refines alloc `{!BlockAllocator alloc} os : ∀ d s s' rs,
  inv d s → spec_run s os = Some (s', rs) → ∃ d', run alloc d os = Some (d', rs) ∧ inv d' s'.
Proof.
  induction os as [|o os IH]; intros d s s' rs Hi; cbn [spec_run run]; [intros [= <- <-]; eauto|].
  intros ([s1 r] & Hst & ([s2 rs'] & Hrun & [= <- <-])%bind_Some)%bind_Some.
  assert (∃ d1, exec alloc d o = Some (d1, r) ∧ inv d1 s1) as (d1 & He & Hi1).
  { destruct o as [blk|a|L]; [by eapply new_inv|eapply free_inv; [done|done|exact Hst]..]. }
  destruct (IH _ _ _ _ Hi1 Hrun) as (d2 & Hr & Hi2). exists d2. rewrite He. cbn. by rewrite Hr.
Qed.
(** An allocator that chains the items of the block. *)
Definition chain_block (blk : list N) (d : Gcalc_dyn_list) : option (Gcalc_dyn_list * N) :=
  match blk with a :: F => Some (DL (<[a := 0%N]> (link (next d) F)) (default 0%N (head F)), a) | [] => None end.
#[local] Instance chain_block_allocator : BlockAllocator chain_block.
Proof.
  intros d a F _ [Ha Hnd]%NoDup_cons [[H0 _] HF]%Forall_cons. eexists. split; [done|]. split_and!; cbn.
  - split_and!; [done| |done]. cbn. eapply free_chain_ext; [|apply (link_chain (next d)); [done|]].
    + intros b Hb. apply lookup_insert_ne. set_solver.
    + eapply Forall_impl; [exact HF|]. naive_solver.
  - rewrite lookup_insert_eq. eauto.
  - intros b [? ?]%not_elem_of_cons. rewrite lookup_insert_ne by done. by apply link_other.
Qed.
Lemma dyn_list_refines_witness :
  ∃ d', run chain_block (DL ∅ 0) [New [1; 2; 3]%N; New []; Free 1; New []; FreeList [2; 1]%N; New []] = Some (d', [1; 2; 0; 1; 0; 2]%N) ∧
    inv d' (Spec [1; 3]%N {[2%N]}).
Proof.
  destruct (dyn_list_refines chain_block [New [1; 2; 3]%N; New []; Free 1; New []; FreeList [2; 1]%N; New []] (DL ∅ 0) (Spec [] ∅)
    (Spec [1; 3]%N {[2%N]}) [1; 2; 0; 1; 0; 2]%N) as (d' & Hr & Hi).
  - split_and!; [split_and!; [done|done|apply NoDup_nil_2]|set_solver|]. intros a. cbn. rewrite lookup_empty. split; [intros []; done|set_solver].
  - vm_compute. reflexivity.
  - exists d'. done.
Defined.

(** [C32] The sequences of calls that pass the assertions of the shape transporter and end outside of a shape are exactly those of a sequence of
    shapes: lines, and polygons of any number of rings; whatever the function does that completes a line or a ring. *)
Theorem transporter_protocol {H} int_complete garbage (heap : H) cs :
  (∃ t, Transporter.run int_complete (Transporter.new_transporter garbage heap) cs = Some t ∧ Transporter.m_shape_started t = 0) ↔
  ∃ ss, cs = mjoin (Transporter.calls <$> ss).
Proof.
  pose proof (Transporter.run_moves int_complete cs (Transporter.new_transporter garbage heap)) as Hm. cbn in Hm.
  transitivity (Transporter.moves 0 cs = Some 0).
  { rewrite <- Hm. split; [by intros (t & -> & <-)|]. intros (t & Hr & Ht)%fmap_Some. by exists t. }
  split; [by apply (Transporter.moves_shapes (length cs))|]. intros [ss ->]. clear Hm. induction ss as [|s ss IH]; [done|]. cbn.
  by rewrite Transporter.moves_app, Transporter.moves_shape.
Qed.

(** The states of the shapes are pairs of bits: every sequence of the functions that set, clear or flip them, on shapes there are, succeeds
    and gives the states of the flags the sequence leads to, and a shape counts as touched when either of its flags is set. *)
Theorem shape_states_refine os : ∀ I B, length B = length I → Forall (λ o, GcalcFunction.shape_of o < length I)%nat os →
  let IB := foldl (λ '(I, B) o, GcalcFunction.spec I B o) (I, B) os in
  foldl (λ s o, s ≫= λ s, GcalcFunction.exec s o) (Some (GcalcFunction.States (GcalcFunction.bit <$> I) (GcalcFunction.bit <$> B))) os =
    Some (GcalcFunction.States (GcalcFunction.bit <$> IB.1) (GcalcFunction.bit <$> IB.2)) ∧
  ∀ k i b, IB.1 !! k = Some i → IB.2 !! k = Some b →
    GcalcFunction.get_state (GcalcFunction.States (GcalcFunction.bit <$> IB.1) (GcalcFunction.bit <$> IB.2)) k = Some (GcalcFunction.bit (i || b)).
Proof.
  induction os as [|o os IH]; intros I B HB Hos.
  - split; [done|]. intros k i b Hi Hb. unfold GcalcFunction.get_state. cbn in *. rewrite !list_lookup_fmap, Hi, Hb. by destruct i, b.
  - apply Forall_cons in Hos as [Ho Hos]. destruct (GcalcFunction.exec_spec I B o HB Ho) as (He & H1 & H2). cbn [foldl mbind option_bind].
    rewrite He. destruct (GcalcFunction.spec I B o) as [I' B']. cbn in H1, H2 |- *. apply IH; [congruence|]. by rewrite H1.
Qed.
Lemma shape_states_refine_witness :
  foldl (λ s o, s ≫= λ s, GcalcFunction.exec s o) (Some (GcalcFunction.States [0; 0] [0; 0])) [GcalcFunction.Invert 1; GcalcFunction.SetB 0; GcalcFunction.Invert 1] =
    Some (GcalcFunction.States [0; 0] [1; 0]).
Proof.
  destruct (shape_states_refine [GcalcFunction.Invert 1; GcalcFunction.SetB 0; GcalcFunction.Invert 1] [false; false] [false; false]) as [H _];
    [done|repeat constructor|exact H].
Defined.

(** Walking over a slice visits its points in order and ends behind the last. *)
Theorem slice_walk_visits P L fuel : Slice.linked P L → (length L < fuel)%nat →
  Slice.walk P fuel (default 0%N (head L)) = mapM (λ a, Slice.pi <$> P !! a) L.
Proof. apply Slice.walk_linked. Qed.
Lemma slice_walk_visits_witness :
  Slice.walk (<[1%N := Slice.Point 2 8 0 0 0]> {[2%N := Slice.Point 0 9 0 0 0]}) 3 1 = Some [8; 9]%N.
Proof.
  etransitivity; [apply (slice_walk_visits (<[1%N := Slice.Point 2 8 0 0 0]> {[2%N := Slice.Point 0 9 0 0 0]}) [1; 2]%N 3); [|cbn; lia]|vm_compute; reflexivity].
  repeat (split; [done|]; split; [eexists; split; [vm_compute; reflexivity|done]|]). done.
Defined.

(** The reader of a geometry's text stays in its buffer: asking for a character skips blanks and no more, takes the character
    exactly when it is the next one, and otherwise leaves it; looking at the next symbol gives the first character that is
    not blank, or 0 at the end; nothing else of the reader changes. *)
Theorem gis_stream_reads my_isspace s c :
  GisStream.inv s →
  (∃ s', GisStream.skip_char my_isspace s c =
      Some (s', match GisStream.trim my_isspace (GisStream.rest s) with d :: _ => bool_decide (d ≠ c) | [] => true end) ∧
    GisStream.inv s' ∧ GisStream.same s s' ∧
    GisStream.rest s' = (match GisStream.trim my_isspace (GisStream.rest s) with
                         | d :: r => if decide (d = c) then r else d :: r | [] => [] end)) ∧
  (∃ s', GisStream.next_symbol my_isspace s = Some (s', default 0 (head (GisStream.trim my_isspace (GisStream.rest s)))) ∧
    GisStream.inv s' ∧ GisStream.same s s' ∧ GisStream.rest s' = GisStream.trim my_isspace (GisStream.rest s)).
Proof.
  intros Hi. destruct (GisStream.skip_space_spec my_isspace s Hi) as (s' & Hs & Hi' & Hsame & Hr). rewrite <- Hr.
  unfold GisStream.skip_char, GisStream.next_symbol. rewrite Hs. cbn [mbind option_bind]. case_decide as Hlt.
  - rewrite GisStream.rest_nil by done. split; exists s'; rewrite GisStream.rest_nil by done; done.
  - destruct (GisStream.buffer_at s' Hi' ltac:(lia)) as [d Hd]. rewrite Hd. cbn [mbind option_bind].
    pose proof (GisStream.rest_cons s' d Hi' ltac:(lia) Hd) as Hrc. split; [|exists s'; rewrite Hrc; done]. rewrite Hrc.
    case_decide as Hdc; eexists; (split; [by rewrite ?bool_decide_true, ?bool_decide_false by naive_solver|]).
    + split_and!; [unfold GisStream.inv in *; cbn; lia| |done]. unfold GisStream.same in *. cbn. naive_solver lia.
    + by split_and!.
Qed.
Lemma gis_stream_reads_witness :
  let sp := λ c, bool_decide (c = 32) in let s := GisStream.new_Gis_read_stream [32; 40; 49] 3 in
  ∃ s', GisStream.skip_char sp s 40 = Some (s', false) ∧ GisStream.rest s' = [49].
Proof.
  intros sp s. destruct (gis_stream_reads sp s 40) as [(s' & H & _ & _ & Hr) _]; [unfold GisStream.inv; cbn; lia|].
  exists s'. split; [exact H|exact Hr].
Defined.
End GcalcTheorems.
