(* ===== verification/LogEvent.v ===== *)
(** * Binary log events

    From log_event.h: the types of events and the predicates on them, the state every event has (flags, cache, buffer, time), and what the
    subclasses say of their size and validity; the flags and the column maps of row events; the options of a LOAD statement
    ([sql_ex_info]); the keywords of transactions.  Functions declared there and defined elsewhere (reading, printing,
    applying an event) are not followed. *)

From Stdlib Require Import ZArith NArith Lia.
From stdpp Require Import base numbers option list.
From S2P Require Import Prelude ByteOrder.
Open Scope Z_scope.
Open Scope cint_scope.

(** ** Types of events *)

Module EventType.

Definition UNKNOWN_EVENT : Z := 0.
Definition START_EVENT_V3 : Z := 1.
Definition QUERY_EVENT : Z := 2.
Definition STOP_EVENT : Z := 3.
Definition ROTATE_EVENT : Z := 4.
Definition INTVAR_EVENT : Z := 5.
Definition LOAD_EVENT : Z := 6.
Definition SLAVE_EVENT : Z := 7.
Definition CREATE_FILE_EVENT : Z := 8.
Definition APPEND_BLOCK_EVENT : Z := 9.
Definition EXEC_LOAD_EVENT : Z := 10.
Definition DELETE_FILE_EVENT : Z := 11.
Definition NEW_LOAD_EVENT : Z := 12.
Definition RAND_EVENT : Z := 13.
Definition USER_VAR_EVENT : Z := 14.
Definition FORMAT_DESCRIPTION_EVENT : Z := 15.
Definition XID_EVENT : Z := 16.
Definition BEGIN_LOAD_QUERY_EVENT : Z := 17.
Definition EXECUTE_LOAD_QUERY_EVENT : Z := 18.
Definition TABLE_MAP_EVENT : Z := 19.
Definition PRE_GA_WRITE_ROWS_EVENT : Z := 20.
Definition PRE_GA_UPDATE_ROWS_EVENT : Z := 21.
Definition PRE_GA_DELETE_ROWS_EVENT : Z := 22.
Definition WRITE_ROWS_EVENT_V1 : Z := 23.
Definition UPDATE_ROWS_EVENT_V1 : Z := 24.
Definition DELETE_ROWS_EVENT_V1 : Z := 25.
Definition INCIDENT_EVENT : Z := 26.
Definition HEARTBEAT_LOG_EVENT : Z := 27.
Definition IGNORABLE_LOG_EVENT : Z := 28.
Definition ROWS_QUERY_LOG_EVENT : Z := 29.
Definition WRITE_ROWS_EVENT : Z := 30.
Definition UPDATE_ROWS_EVENT : Z := 31.
Definition DELETE_ROWS_EVENT : Z := 32.
Definition GTID_LOG_EVENT : Z := 33.
Definition ANONYMOUS_GTID_LOG_EVENT : Z := 34.
Definition PREVIOUS_GTIDS_LOG_EVENT : Z := 35.
Definition TRANSACTION_CONTEXT_EVENT : Z := 36.
Definition VIEW_CHANGE_EVENT : Z := 37.
Definition XA_PREPARE_LOG_EVENT : Z := 38.
Definition MYSQL_EVENTS_END : Z := 39.
Definition MARIA_EVENTS_BEGIN : Z := 160.
Definition ANNOTATE_ROWS_EVENT : Z := 160.
Definition BINLOG_CHECKPOINT_EVENT : Z := 161.
Definition GTID_EVENT : Z := 162.
Definition GTID_LIST_EVENT : Z := 163.
Definition START_ENCRYPTION_EVENT : Z := 164.
Definition QUERY_COMPRESSED_EVENT : Z := 165.
Definition WRITE_ROWS_COMPRESSED_EVENT_V1 : Z := 166.
Definition UPDATE_ROWS_COMPRESSED_EVENT_V1 : Z := 167.
Definition DELETE_ROWS_COMPRESSED_EVENT_V1 : Z := 168.
Definition WRITE_ROWS_COMPRESSED_EVENT : Z := 169.
Definition UPDATE_ROWS_COMPRESSED_EVENT : Z := 170.
Definition DELETE_ROWS_COMPRESSED_EVENT : Z := 171.
Definition ENUM_END_EVENT : Z := 172.
Definition LOG_EVENT_TYPES : Z := ENUM_END_EVENT - 1.

(** [type == a || type == b || ...] *)
Definition among (type : Z) (l : list Z) : bool := existsb (Z.eqb type) l.
Definition LOG_EVENT_IS_QUERY (type : Z) : bool := among type [QUERY_EVENT; QUERY_COMPRESSED_EVENT].
Definition LOG_EVENT_IS_WRITE_ROW (type : Z) : bool :=
  among type [WRITE_ROWS_EVENT; WRITE_ROWS_EVENT_V1; WRITE_ROWS_COMPRESSED_EVENT; WRITE_ROWS_COMPRESSED_EVENT_V1].
Definition LOG_EVENT_IS_UPDATE_ROW (type : Z) : bool :=
  among type [UPDATE_ROWS_EVENT; UPDATE_ROWS_EVENT_V1; UPDATE_ROWS_COMPRESSED_EVENT; UPDATE_ROWS_COMPRESSED_EVENT_V1].
Definition LOG_EVENT_IS_DELETE_ROW (type : Z) : bool :=
  among type [DELETE_ROWS_EVENT; DELETE_ROWS_EVENT_V1; DELETE_ROWS_COMPRESSED_EVENT; DELETE_ROWS_COMPRESSED_EVENT_V1].
Definition LOG_EVENT_IS_ROW_COMPRESSED (type : Z) : bool :=
  among type [WRITE_ROWS_COMPRESSED_EVENT; WRITE_ROWS_COMPRESSED_EVENT_V1; UPDATE_ROWS_COMPRESSED_EVENT; UPDATE_ROWS_COMPRESSED_EVENT_V1;
              DELETE_ROWS_COMPRESSED_EVENT; DELETE_ROWS_COMPRESSED_EVENT_V1].
Definition LOG_EVENT_IS_ROW_V2 (type : Z) : bool :=
  ((WRITE_ROWS_EVENT <=? type) && (type <=? DELETE_ROWS_EVENT)) ||
  ((WRITE_ROWS_COMPRESSED_EVENT <=? type) && (type <=? DELETE_ROWS_COMPRESSED_EVENT)).
(** The static function of [Log_event] on a type. *)
Definition is_part_of_group (ev_type : Z) : bool :=
  among ev_type [GTID_EVENT; INTVAR_EVENT; RAND_EVENT; USER_VAR_EVENT; TABLE_MAP_EVENT; ANNOTATE_ROWS_EVENT].
Definition is_group_event (ev_type : Z) : bool :=
  negb (among ev_type [START_EVENT_V3; STOP_EVENT; ROTATE_EVENT; SLAVE_EVENT; FORMAT_DESCRIPTION_EVENT; INCIDENT_EVENT; HEARTBEAT_LOG_EVENT;
                       BINLOG_CHECKPOINT_EVENT; GTID_LIST_EVENT; START_ENCRYPTION_EVENT]).
(** The conversion the order of the types is said to allow. *)
Definition uncompressed (type : Z) : Z :=
  if LOG_EVENT_IS_ROW_V2 type then type - WRITE_ROWS_COMPRESSED_EVENT + WRITE_ROWS_EVENT
  else type - WRITE_ROWS_COMPRESSED_EVENT_V1 + WRITE_ROWS_EVENT_V1.

Lemma among_spec type l : among type l = true ↔ type ∈ l.
Proof.
  unfold among. rewrite existsb_exists. split.
  - intros (x & Hx & ->%Z.eqb_eq). by apply list_elem_of_In.
  - intros H. exists type. split; [by apply list_elem_of_In|apply Z.eqb_refl].
Qed.
End EventType.

(** ** The state of an event *)

Module LogEvent.

Definition LOG_EVENT_BINLOG_IN_USE_F : Z := 1.
Definition LOG_EVENT_THREAD_SPECIFIC_F : Z := 4.
Definition LOG_EVENT_SUPPRESS_USE_F : Z := 8.
Definition LOG_EVENT_ARTIFICIAL_F : Z := 32.
Definition LOG_EVENT_RELAY_LOG_F : Z := 64.
Definition LOG_EVENT_IGNORABLE_F : Z := 128.
Definition LOG_EVENT_SKIP_REPLICATION_F : Z := 32768.

Inductive enum_event_cache_type := EVENT_INVALID_CACHE | EVENT_STMT_CACHE | EVENT_TRANSACTIONAL_CACHE | EVENT_NO_CACHE.
#[global] Instance cache_type_eq : EqDecision enum_event_cache_type.
Proof. solve_decision. Defined.
Inductive enum_skip_reason := EVENT_SKIP_NOT | EVENT_SKIP_IGNORE | EVENT_SKIP_COUNT.

(** [temp_buf] is an address; [thd] the start time of the event's thread and its fraction, if it has one. *)
Record Log_event := Ev {
  flags : Z; cache_type : enum_event_cache_type; temp_buf : N; event_owns_temp_buf : bool; when : Z; when_sec_part : Z; thd : option (Z * Z);
  server_id : Z
}.
Definition with_flags (e : Log_event) (f : Z) : Log_event :=
  Ev f (cache_type e) (temp_buf e) (event_owns_temp_buf e) (when e) (when_sec_part e) (thd e) (server_id e).
Definition with_cache (e : Log_event) (c : enum_event_cache_type) : Log_event :=
  Ev (flags e) c (temp_buf e) (event_owns_temp_buf e) (when e) (when_sec_part e) (thd e) (server_id e).
Definition with_buf (e : Log_event) (b : N) (owns : bool) : Log_event :=
  Ev (flags e) (cache_type e) b owns (when e) (when_sec_part e) (thd e) (server_id e).
Definition with_when (e : Log_event) (t f : Z) : Log_event :=
  Ev (flags e) (cache_type e) (temp_buf e) (event_owns_temp_buf e) t f (thd e) (server_id e).

Definition set_artificial_event (e : Log_event) : Log_event := with_flags e (flags e .| LOG_EVENT_ARTIFICIAL_F).
Definition set_relay_log_event (e : Log_event) : Log_event := with_flags e (flags e .| LOG_EVENT_RELAY_LOG_F).
Definition is_artificial_event (e : Log_event) : bool := bool_decide (flags e .& LOG_EVENT_ARTIFICIAL_F ≠ 0).
Definition is_relay_log_event (e : Log_event) : bool := bool_decide (flags e .& LOG_EVENT_RELAY_LOG_F ≠ 0).
Definition use_trans_cache (e : Log_event) : bool := bool_decide (cache_type e = EVENT_TRANSACTIONAL_CACHE).
Definition set_direct_logging (e : Log_event) : Log_event := with_cache e EVENT_NO_CACHE.
Definition use_direct_logging (e : Log_event) : bool := bool_decide (cache_type e = EVENT_NO_CACHE).
Definition register_temp_buf (e : Log_event) (buf : N) (must_free : bool) : Log_event := with_buf e buf must_free.
(** The second component is the address given to [my_free], if any. *)
Definition free_temp_buf (e : Log_event) : Log_event * option N :=
  if decide (temp_buf e ≠ 0%N) then (with_buf e 0 (event_owns_temp_buf e), if event_owns_temp_buf e then Some (temp_buf e) else None)
  else (e, None).
(** [current_thd] is the running thread, if there is one, and [hrtime] the clock. *)
Definition get_time (current_thd : option (Z * Z)) (hrtime : Z * Z) (e : Log_event) : Log_event * Z :=
  if decide (when e ≠ 0) then (e, when e)
  else
    let '(t, f) := match thd e with Some p => p | None => match current_thd with Some p => p | None => hrtime end end in
    (with_when e t f, t).
(** An event of the server itself is skipped and the skip counter stays: [do_shall_skip] of the start and stop events. *)
Definition skip_own (e : Log_event) (global_server_id : Z) : enum_skip_reason :=
  if decide (server_id e = global_server_id) then EVENT_SKIP_IGNORE else EVENT_SKIP_NOT.

(** *** Writing: each part is called only when those before it reported no error *)
Section Write.
Context {W : Type}.
Definition orelse (f g : W → W * bool) (w : W) : W * bool := let '(w, e) := f w in if e then (w, true) else g w.
Definition write (write_header write_data_header write_data_body write_footer : W → W * bool) : W → W * bool :=
  orelse write_header (orelse write_data_header (orelse write_data_body write_footer)).
(** [Log_event_writer::write]: the status of the event is added also when it could not be written. *)
Definition writer_write (event_write : W → W * bool) (add_status : Z → W → W) (logged_status : Z) (w : W) : W * bool :=
  let '(w, res) := event_write w in (add_status logged_status w, res).
End Write.

(** *** The constructors with [direct]: the cache type the base class chose is replaced *)
Definition direct_event (direct : bool) (base : Log_event) : Log_event := if direct then with_cache base EVENT_NO_CACHE else base.
(** The incident events: written directly, and replicated whatever the session says. *)
Definition incident_event (base : Log_event) : Log_event :=
  let e := set_direct_logging base in with_flags e (flags e .& (65535 - LOG_EVENT_SKIP_REPLICATION_F)).
Definition INCIDENT_NONE : Z := 0.
Definition INCIDENT_COUNT : Z := 2.
(** With a message; [malloc_ok] says whether there is memory for it.  The number of the incident and the length of the message. *)
Definition incident_event_msg (base : Log_event) (incident : Z) (msg : list Z) (malloc_ok : bool) : Log_event * Z * list Z :=
  if malloc_ok then (incident_event base, incident, msg) else (base, INCIDENT_NONE, []).
End LogEvent.

(** ** Sizes and validity of the events *)

Module EventSize.
Import EventType.

Definition LOG_EVENT_HEADER_LEN : Z := 19.
Definition OLD_HEADER_LEN : Z := 13.
Definition LOG_EVENT_MINIMAL_HEADER_LEN : Z := 19.
Definition ST_SERVER_VER_LEN : Z := 50.
Definition QUERY_HEADER_MINIMAL_LEN : Z := 4 + 4 + 1 + 2.
Definition QUERY_HEADER_LEN : Z := QUERY_HEADER_MINIMAL_LEN + 2.
Definition STOP_HEADER_LEN : Z := 0.
Definition LOAD_HEADER_LEN : Z := 4 + 4 + 4 + 1 + 1 + 4.
Definition SLAVE_HEADER_LEN : Z := 0.
Definition START_V3_HEADER_LEN : Z := 2 + ST_SERVER_VER_LEN + 4.
Definition ROTATE_HEADER_LEN : Z := 8.
Definition INTVAR_HEADER_LEN : Z := 0.
Definition CREATE_FILE_HEADER_LEN : Z := 4.
Definition APPEND_BLOCK_HEADER_LEN : Z := 4.
Definition EXEC_LOAD_HEADER_LEN : Z := 4.
Definition DELETE_FILE_HEADER_LEN : Z := 4.
Definition NEW_LOAD_HEADER_LEN : Z := LOAD_HEADER_LEN.
Definition RAND_HEADER_LEN : Z := 0.
Definition USER_VAR_HEADER_LEN : Z := 0.
Definition FORMAT_DESCRIPTION_HEADER_LEN : Z := START_V3_HEADER_LEN + 1 + LOG_EVENT_TYPES.
Definition XID_HEADER_LEN : Z := 0.
Definition BEGIN_LOAD_QUERY_HEADER_LEN : Z := APPEND_BLOCK_HEADER_LEN.
Definition ROWS_HEADER_LEN_V1 : Z := 8.
Definition TABLE_MAP_HEADER_LEN : Z := 8.
Definition EXECUTE_LOAD_QUERY_EXTRA_HEADER_LEN : Z := 4 + 4 + 4 + 1.
Definition EXECUTE_LOAD_QUERY_HEADER_LEN : Z := QUERY_HEADER_LEN + EXECUTE_LOAD_QUERY_EXTRA_HEADER_LEN.
Definition INCIDENT_HEADER_LEN : Z := 2.
Definition HEARTBEAT_HEADER_LEN : Z := 0.
Definition IGNORABLE_HEADER_LEN : Z := 0.
Definition ROWS_HEADER_LEN_V2 : Z := 10.
Definition ANNOTATE_ROWS_HEADER_LEN : Z := 0.
Definition BINLOG_CHECKPOINT_HEADER_LEN : Z := 4.
Definition GTID_HEADER_LEN : Z := 19.
Definition GTID_LIST_HEADER_LEN : Z := 4.
Definition START_ENCRYPTION_HEADER_LEN : Z := 0.
Definition BINLOG_CRYPTO_SCHEME_LENGTH : Z := 1.
Definition BINLOG_KEY_VERSION_LENGTH : Z := 4.
Definition BINLOG_IV_LENGTH : Z := 16.
Definition BINLOG_IV_OFFS_LENGTH : Z := 4.
Definition BINLOG_NONCE_LENGTH : Z := BINLOG_IV_LENGTH - BINLOG_IV_OFFS_LENGTH.
Definition BIN_LOG_HEADER_SIZE : Z := 4.
Definition NAME_LEN : Z := 64 * 3.
Definition MAX_SIZE_LOG_EVENT_STATUS : Z :=
  1 + 4 + 1 + 8 + 1 + 1 + 255 + 1 + 4 + 1 + 6 + 1 + 1 + 255 + 1 + 2 + 1 + 2 + 1 + 8 + 1 + 4 + 1 + 3 + 1 + 16 + 1 + 60.
Definition MAX_LOG_EVENT_HEADER : Z :=
  LOG_EVENT_HEADER_LEN + QUERY_HEADER_LEN + EXECUTE_LOAD_QUERY_EXTRA_HEADER_LEN + MAX_SIZE_LOG_EVENT_STATUS + NAME_LEN + 1.

(** *** Where the fields of the headers are: offsets, and the codes of the status variables *)

Definition EVENT_TYPE_OFFSET : Z := 4.
Definition SERVER_ID_OFFSET : Z := 5.
Definition EVENT_LEN_OFFSET : Z := 9.
Definition LOG_POS_OFFSET : Z := 13.
Definition FLAGS_OFFSET : Z := 17.
Definition ST_BINLOG_VER_OFFSET : Z := 0.
Definition ST_SERVER_VER_OFFSET : Z := 2.
Definition ST_CREATED_OFFSET : Z := ST_SERVER_VER_OFFSET + ST_SERVER_VER_LEN.
Definition ST_COMMON_HEADER_LEN_OFFSET : Z := ST_CREATED_OFFSET + 4.
Definition SL_MASTER_PORT_OFFSET : Z := 8.
Definition SL_MASTER_POS_OFFSET : Z := 0.
Definition SL_MASTER_HOST_OFFSET : Z := 10.
Definition Q_THREAD_ID_OFFSET : Z := 0.
Definition Q_EXEC_TIME_OFFSET : Z := 4.
Definition Q_DB_LEN_OFFSET : Z := 8.
Definition Q_ERR_CODE_OFFSET : Z := 9.
Definition Q_STATUS_VARS_LEN_OFFSET : Z := 11.
Definition Q_DATA_OFFSET : Z := QUERY_HEADER_LEN.
Definition Q_FLAGS2_CODE : Z := 0.
Definition Q_SQL_MODE_CODE : Z := 1.
Definition Q_CATALOG_CODE : Z := 2.
Definition Q_AUTO_INCREMENT : Z := 3.
Definition Q_CHARSET_CODE : Z := 4.
Definition Q_TIME_ZONE_CODE : Z := 5.
Definition Q_CATALOG_NZ_CODE : Z := 6.
Definition Q_LC_TIME_NAMES_CODE : Z := 7.
Definition Q_CHARSET_DATABASE_CODE : Z := 8.
Definition Q_TABLE_MAP_FOR_UPDATE_CODE : Z := 9.
Definition Q_MASTER_DATA_WRITTEN_CODE : Z := 10.
Definition Q_INVOKER : Z := 11.
Definition Q_HRNOW : Z := 128.
Definition I_TYPE_OFFSET : Z := 0.
Definition I_VAL_OFFSET : Z := 1.
Definition RAND_SEED1_OFFSET : Z := 0.
Definition RAND_SEED2_OFFSET : Z := 8.
Definition UV_VAL_LEN_SIZE : Z := 4.
Definition UV_VAL_IS_NULL : Z := 1.
Definition UV_VAL_TYPE_SIZE : Z := 1.
Definition UV_NAME_LEN_SIZE : Z := 4.
Definition UV_CHARSET_NUMBER_SIZE : Z := 4.
Definition L_THREAD_ID_OFFSET : Z := 0.
Definition L_EXEC_TIME_OFFSET : Z := 4.
Definition L_SKIP_LINES_OFFSET : Z := 8.
Definition L_TBL_LEN_OFFSET : Z := 12.
Definition L_DB_LEN_OFFSET : Z := 13.
Definition L_NUM_FIELDS_OFFSET : Z := 14.
Definition L_SQL_EX_OFFSET : Z := 18.
Definition L_DATA_OFFSET : Z := LOAD_HEADER_LEN.
Definition R_POS_OFFSET : Z := 0.
Definition R_IDENT_OFFSET : Z := 8.
Definition CF_FILE_ID_OFFSET : Z := 0.
Definition CF_DATA_OFFSET : Z := CREATE_FILE_HEADER_LEN.
Definition AB_FILE_ID_OFFSET : Z := 0.
Definition AB_DATA_OFFSET : Z := APPEND_BLOCK_HEADER_LEN.
Definition EL_FILE_ID_OFFSET : Z := 0.
Definition DF_FILE_ID_OFFSET : Z := 0.
Definition TM_MAPID_OFFSET : Z := 0.
Definition TM_FLAGS_OFFSET : Z := 6.
Definition RW_MAPID_OFFSET : Z := 0.
Definition RW_FLAGS_OFFSET : Z := 6.
Definition RW_VHLEN_OFFSET : Z := 8.
Definition RW_V_TAG_LEN : Z := 1.
Definition RW_V_EXTRAINFO_TAG : Z := 0.
Definition ELQ_FILE_ID_OFFSET : Z := QUERY_HEADER_LEN.
Definition ELQ_FN_POS_START_OFFSET : Z := ELQ_FILE_ID_OFFSET + 4.
Definition ELQ_FN_POS_END_OFFSET : Z := ELQ_FILE_ID_OFFSET + 8.
Definition ELQ_DUP_HANDLING_OFFSET : Z := ELQ_FILE_ID_OFFSET + 12.

(** The offsets of consecutive fields of the given lengths, and the offset behind the last. *)
Fixpoint offsets (from : Z) (lens : list Z) : list Z := match lens with [] => [from] | n :: lens => from :: offsets (from + n) lens end.

(** Sums of [uint]s, returned as [int]. *)
Definition rotate_data_size (ident_len : Z) : Z := s32 (u32 (ident_len + ROTATE_HEADER_LEN)).
Definition checkpoint_data_size (binlog_file_len : Z) : Z := s32 (u32 (binlog_file_len + BINLOG_CHECKPOINT_HEADER_LEN)).
Definition append_block_data_size (block_len : Z) : Z := s32 (u32 (block_len + APPEND_BLOCK_HEADER_LEN)).
Definition incident_data_size (message_length : Z) : Z := s32 (u32 (INCIDENT_HEADER_LEN + 1 + u32 message_length)).
Definition FL_GROUP_COMMIT_ID : Z := 2.
Definition gtid_data_size (flags2 : Z) : Z := GTID_HEADER_LEN + (if decide (flags2 .& FL_GROUP_COMMIT_ID ≠ 0) then 2 else 0).
Definition element_size : Z := 4 + 4 + 8.
Definition gtid_list_data_size (count : Z) : Z :=
  if decide (count = 0) then GTID_LIST_HEADER_LEN + 2 else s32 (u32 (GTID_LIST_HEADER_LEN + count * element_size)).
Definition start_encryption_data_size : Z := BINLOG_CRYPTO_SCHEME_LENGTH + BINLOG_KEY_VERSION_LENGTH + BINLOG_NONCE_LENGTH.
Definition intvar_data_size : Z := 9.
Definition rand_data_size : Z := 16.
Definition xid_data_size : Z := 8.
(** The header of the format description and rotate events has its length for ever; the others take what they are given. *)
Definition get_header_len (type len : Z) : Z :=
  if among type [START_EVENT_V3; FORMAT_DESCRIPTION_EVENT; ROTATE_EVENT] then LOG_EVENT_MINIMAL_HEADER_LEN else len.

(** *** The body of the event that starts encryption *)
Record Start_encryption_log_event := SE { crypto_scheme : Z; key_version : Z; nonce : list Z }.
Definition start_encryption_is_valid (e : Start_encryption_log_event) : bool := bool_decide (crypto_scheme e = 1).
(** The writer appends what it is given; [fails] are the writes that report an error. *)
Definition wdata (fails : nat → bool) (b : list Z) (w : nat * list Z) : (nat * list Z) * bool :=
  let '(n, out) := w in if fails n then ((S n, out), true) else ((S n, out ++ b), false).
Definition write_data_body (fails : nat → bool) (e : Start_encryption_log_event) (w : nat * list Z) : option ((nat * list Z) * bool) :=
  b ← Generic.int4store (replicate 4 0) 0 (key_version e);
  Some (LogEvent.orelse (wdata fails [u8 (crypto_scheme e)])
          (LogEvent.orelse (wdata fails b) (wdata fails (take (Z.to_nat BINLOG_NONCE_LENGTH) (nonce e)))) w).

(** *** Validity *)
Definition header_is_valid (binlog_version common_header_len : Z) (post_header_len : bool) : bool :=
  ((if decide (binlog_version = 1) then OLD_HEADER_LEN else LOG_EVENT_MINIMAL_HEADER_LEN) <=? common_header_len) && post_header_len.
Definition version_is_valid (ver : Z * Z * Z) : bool :=
  let '(a, b, c) := ver in negb ((a =? 0) && (b =? 0) && (c =? 0)).
Definition format_description_is_valid (binlog_version common_header_len : Z) (post_header_len : bool) (ver : Z * Z * Z) : bool :=
  header_is_valid binlog_version common_header_len post_header_len && version_is_valid ver.
Definition incident_is_valid (m_incident : Z) : bool := (LogEvent.INCIDENT_NONE <? m_incident) && (m_incident <? LogEvent.INCIDENT_COUNT).
Definition heartbeat_is_valid (log_ident : bool) (log_pos : Z) : bool := log_ident && (BIN_LOG_HEADER_SIZE <=? log_pos).
Definition gtid_is_valid (seq_no : Z) : bool := negb (seq_no =? 0).
(** The fields of the headers follow each other without gaps and fill the lengths the headers are given: the common header after its
    time stamp, and the post-headers of the start, query, load, table map, row, integer, random and load query events. *)
Lemma header_layouts :
  offsets 0 [4; 1; 4; 4; 4; 2] = [0; EVENT_TYPE_OFFSET; SERVER_ID_OFFSET; EVENT_LEN_OFFSET; LOG_POS_OFFSET; FLAGS_OFFSET; LOG_EVENT_HEADER_LEN] ∧
  offsets 0 [2; ST_SERVER_VER_LEN; 4] = [ST_BINLOG_VER_OFFSET; ST_SERVER_VER_OFFSET; ST_CREATED_OFFSET; START_V3_HEADER_LEN] ∧
  ST_COMMON_HEADER_LEN_OFFSET = START_V3_HEADER_LEN ∧
  offsets 0 [4; 4; 1; 2; 2] = [Q_THREAD_ID_OFFSET; Q_EXEC_TIME_OFFSET; Q_DB_LEN_OFFSET; Q_ERR_CODE_OFFSET; Q_STATUS_VARS_LEN_OFFSET; Q_DATA_OFFSET] ∧
  offsets Q_DATA_OFFSET [4; 4; 4; 1] =
    [ELQ_FILE_ID_OFFSET; ELQ_FN_POS_START_OFFSET; ELQ_FN_POS_END_OFFSET; ELQ_DUP_HANDLING_OFFSET; EXECUTE_LOAD_QUERY_HEADER_LEN] ∧
  offsets 0 [4; 4; 4; 1; 1; 4] =
    [L_THREAD_ID_OFFSET; L_EXEC_TIME_OFFSET; L_SKIP_LINES_OFFSET; L_TBL_LEN_OFFSET; L_DB_LEN_OFFSET; L_NUM_FIELDS_OFFSET; L_SQL_EX_OFFSET] ∧
  L_SQL_EX_OFFSET = L_DATA_OFFSET ∧
  offsets 0 [6; 2] = [TM_MAPID_OFFSET; TM_FLAGS_OFFSET; TABLE_MAP_HEADER_LEN] ∧
  offsets 0 [6; 2; 2] = [RW_MAPID_OFFSET; RW_FLAGS_OFFSET; RW_VHLEN_OFFSET; ROWS_HEADER_LEN_V2] ∧ RW_VHLEN_OFFSET = ROWS_HEADER_LEN_V1 ∧
  offsets 0 [1; 8] = [I_TYPE_OFFSET; I_VAL_OFFSET; intvar_data_size] ∧
  offsets 0 [8; 8] = [RAND_SEED1_OFFSET; RAND_SEED2_OFFSET; rand_data_size] ∧ R_IDENT_OFFSET = ROTATE_HEADER_LEN.
Proof. repeat split. Qed.

End EventSize.

(** ** The options of LOAD DATA *)

Module SqlEx.
Import EventType.

Record sql_ex_info := SqlEx {
  cached_new_format : Z; field_term_len : Z; enclosed_len : Z; line_term_len : Z; line_start_len : Z; escaped_len : Z
}.
Definition with_cached (x : sql_ex_info) (c : Z) : sql_ex_info :=
  SqlEx c (field_term_len x) (enclosed_len x) (line_term_len x) (line_start_len x) (escaped_len x).
Definition force_new_format (x : sql_ex_info) : sql_ex_info := with_cached x 1.
Definition needs_new (x : sql_ex_info) : bool :=
  (1 <? field_term_len x) || (1 <? enclosed_len x) || (1 <? line_term_len x) || (1 <? line_start_len x) || (1 <? escaped_len x).
(** The answer is computed once and kept. *)
Definition new_format (x : sql_ex_info) : sql_ex_info * bool :=
  if decide (cached_new_format x ≠ -1) then (x, bool_decide (cached_new_format x ≠ 0))
  else let b := needs_new x in (with_cached x (if b then 1 else 0), b).
Definition data_size (x : sql_ex_info) : sql_ex_info * Z :=
  let '(x, b) := new_format x in
  (x, if b then field_term_len x + enclosed_len x + line_term_len x + line_start_len x + escaped_len x + 6 else 7).
(** *** The event that has them *)
Record Load_log_event := Load { table_name_len : Z; db_len : Z; fname_len : Z; field_block_len : Z; num_fields : Z; sql_ex : sql_ex_info }.
Definition with_ex (l : Load_log_event) (x : sql_ex_info) : Load_log_event :=
  Load (table_name_len l) (db_len l) (fname_len l) (field_block_len l) (num_fields l) x.
Definition get_type_code (l : Load_log_event) : Load_log_event * Z :=
  let '(x, b) := new_format (sql_ex l) in (with_ex l x, if b then NEW_LOAD_EVENT else LOAD_EVENT).
Definition get_data_size (l : Load_log_event) : Load_log_event * Z :=
  let '(x, n) := data_size (sql_ex l) in
  (with_ex l x, s32 (u32 (table_name_len l + db_len l + 2 + fname_len l + EventSize.LOAD_HEADER_LEN + n + field_block_len l + num_fields l))).
(** [Create_file_log_event], which is a load event with a first block of the file unless it poses as its base. *)
Definition create_file_type_code (fake_base : bool) (l : Load_log_event) : Load_log_event * Z :=
  if fake_base then get_type_code l else (l, CREATE_FILE_EVENT).
Definition create_file_data_size (fake_base : bool) (block_len : Z) (l : Load_log_event) : Load_log_event * Z :=
  if fake_base then get_data_size l else let '(l, n) := get_data_size l in (l, s32 (u32 (n + 4 + 1 + block_len))).
Definition create_file_is_valid (inited_from_old block : bool) : bool := inited_from_old || block.
End SqlEx.

(** ** Keywords of transactions *)

Module QueryEvent.

(** C strings: the characters before the zero byte that ends them. *)
Fixpoint strncmp_eq (n : nat) (a b : list Z) : bool :=
  match n, a, b with
  | O, _, _ => true
  | S n, x :: a, y :: b => (x =? y) && strncmp_eq n a b
  | S _, [], [] => true
  | S _, _, _ => false
  end.
Definition strcmp_eq (a b : list Z) : bool := bool_decide (a = b).
(** [strncasecmp] in the C locale. *)
Definition lower (c : Z) : Z := if (65 <=? c) && (c <=? 90) then c + 32 else c.
Definition strncasecmp_eq (n : nat) (a b : list Z) : bool := strncmp_eq n (lower <$> a) (lower <$> b).

Definition BEGIN : list Z := [66; 69; 71; 73; 78].
Definition COMMIT : list Z := [67; 79; 77; 77; 73; 84].
Definition SAVEPOINT : list Z := [83; 65; 86; 69; 80; 79; 73; 78; 84].
Definition ROLLBACK : list Z := [82; 79; 76; 76; 66; 65; 67; 75].
Definition is_trans_keyword (query : list Z) (q_len : nat) : bool :=
  strncmp_eq q_len query BEGIN || strncmp_eq q_len query COMMIT || strncasecmp_eq 9 query SAVEPOINT || strncasecmp_eq 8 query ROLLBACK.
Definition is_begin (query : list Z) : bool := strcmp_eq query BEGIN.
Definition is_commit (query : list Z) : bool := strcmp_eq query COMMIT.
Definition is_rollback (query : list Z) : bool := strcmp_eq query ROLLBACK.

Lemma strncmp_self a b : strncmp_eq (length a) a b = true ↔ a `prefix_of` b.
Proof.
  revert b. induction a as [|x a IH]; intros b; cbn; [split; [intros; apply prefix_nil|done]|].
  destruct b as [|y b]; [split; [done|by intros ?%prefix_nil_inv]|].
  rewrite andb_true_iff, Z.eqb_eq, IH. split; [intros [-> ?]; by apply prefix_cons|]. intros H. split; [by apply prefix_cons_inv_1 in H|by apply prefix_cons_inv_2 in H].
Qed.
Lemma strncmp_lit a b : strncmp_eq (length b) a b = true ↔ b `prefix_of` a.
Proof.
  revert a. induction b as [|y b IH]; intros a; cbn; [split; [intros; apply prefix_nil|done]|].
  destruct a as [|x a]; [split; [done|by intros ?%prefix_nil_inv]|].
  rewrite andb_true_iff, Z.eqb_eq, IH. split; [intros [-> ?]; by apply prefix_cons|]. intros H. split; [by apply prefix_cons_inv_1 in H|by apply prefix_cons_inv_2 in H].
Qed.
End QueryEvent.

(** ** Row events *)

Module RowsEvent.
Import EventType.

Definition STMT_END_F : Z := 1.
Definition NO_FOREIGN_KEY_CHECKS_F : Z := 2.
Definition RELAXED_UNIQUE_CHECKS_F : Z := 4.
Definition COMPLETE_ROWS_F : Z := 8.
Definition NO_CHECK_CONSTRAINT_CHECKS_F : Z := 128.

(** [m_flags] is a [uint16]. *)
Definition set_flags (m_flags flags_arg : Z) : Z := u16 (m_flags .| flags_arg).
Definition clear_flags (m_flags flags_arg : Z) : Z := u16 (m_flags .& Z.lnot flags_arg).
Definition get_flags (m_flags flags_arg : Z) : Z := m_flags .& flags_arg.
Definition update_flags (temp_buf : list Z) (m_flags_pos : nat) (m_flags : Z) : option (list Z) := Generic.int2store temp_buf m_flags_pos m_flags.
(** The virtual function of the object, unlike the static one above. *)
Definition is_part_of_group (m_flags : Z) : bool := bool_decide (get_flags m_flags STMT_END_F ≠ 0).
(** [bitmap_cmp] is given; the maps are the event's and the table's. *)
Definition read_write_bitmaps_cmp {M} (bitmap_cmp : M → M → bool) (general_type_code : Z) (m_cols m_cols_ai read_set rpl_write_set : M) : option bool :=
  if decide (general_type_code = DELETE_ROWS_EVENT) then Some (bitmap_cmp m_cols read_set)
  else if decide (general_type_code = UPDATE_ROWS_EVENT) then Some (bitmap_cmp m_cols read_set && bitmap_cmp m_cols_ai rpl_write_set)
  else if decide (general_type_code = WRITE_ROWS_EVENT) then Some (bitmap_cmp m_cols rpl_write_set)
  else None.
Definition HA_ERR_CORRUPT_EVENT : Z := 171.
(** Without assertions: a row that starts behind the end of the rows is an error. *)
Definition unpack_current_row {S} (unpack_row : S → S * Z) (m_curr_row m_rows_end : nat) (s : S) : S * Z :=
  if decide (m_curr_row ≤ m_rows_end)%nat then unpack_row s else (s, HA_ERR_CORRUPT_EVENT).
Definition is_auto_inc_in_extra_columns (next_number_field_index : option Z) (m_width : Z) : bool :=
  match next_number_field_index with Some i => m_width <=? i | None => false end.
Definition rows_is_valid (rows_buf cols_bitmap : bool) : bool := rows_buf && cols_bitmap.
Definition update_rows_is_valid (rows_buf cols_bitmap cols_ai_bitmap : bool) : bool := rows_is_valid rows_buf cols_bitmap && cols_ai_bitmap.
End RowsEvent.

(** ** Theorems about types of events *)

Section TypeTheorems.
Import EventType.

Definition row_kinds (t : Z) : bool * bool * bool := (LOG_EVENT_IS_WRITE_ROW t, LOG_EVENT_IS_UPDATE_ROW t, LOG_EVENT_IS_DELETE_ROW t).
(** The order of the types of row events allows the conversion the header describes: for every compressed row event the type computed by
    the offset is that of an event of the same kind (write, update or delete) and of the same version that is not compressed; an
    event has at most one kind, and a compressed one has one. *)
Theorem uncompressed_row_type t :
  LOG_EVENT_IS_ROW_COMPRESSED t = true →
  row_kinds (uncompressed t) = row_kinds t ∧ LOG_EVENT_IS_ROW_V2 (uncompressed t) = LOG_EVENT_IS_ROW_V2 t ∧
  LOG_EVENT_IS_ROW_COMPRESSED (uncompressed t) = false ∧ row_kinds t ∈ [(true, false, false); (false, true, false); (false, false, true)] ∧
  is_group_event t = is_group_event (uncompressed t).
Proof.
  intros H%among_spec. repeat (apply elem_of_cons in H as [->|H]; [split_and!; try reflexivity; apply (bool_decide_unpack _); vm_compute; done|]).
  by apply not_elem_of_nil in H.
Qed.
Lemma uncompressed_row_type_witness :
  row_kinds (uncompressed UPDATE_ROWS_COMPRESSED_EVENT) = row_kinds UPDATE_ROWS_COMPRESSED_EVENT ∧
  LOG_EVENT_IS_ROW_V2 (uncompressed UPDATE_ROWS_COMPRESSED_EVENT) = LOG_EVENT_IS_ROW_V2 UPDATE_ROWS_COMPRESSED_EVENT ∧
  LOG_EVENT_IS_ROW_COMPRESSED (uncompressed UPDATE_ROWS_COMPRESSED_EVENT) = false ∧
  row_kinds UPDATE_ROWS_COMPRESSED_EVENT ∈ [(true, false, false); (false, true, false); (false, false, true)] ∧
  is_group_event UPDATE_ROWS_COMPRESSED_EVENT = is_group_event (uncompressed UPDATE_ROWS_COMPRESSED_EVENT).
Proof. apply (uncompressed_row_type UPDATE_ROWS_COMPRESSED_EVENT). reflexivity. Defined.
(** What cannot end a group is an event of groups. *)
Lemma part_of_group_is_group_event t : is_part_of_group t = true → is_group_event t = true.
Proof. intros H%among_spec. repeat (apply elem_of_cons in H as [->|H]; [reflexivity|]). by apply not_elem_of_nil in H. Qed.
End TypeTheorems.

(** ** Theorems about events *)

Section EventTheorems.
Import LogEvent.

(** The buffer an event was given is freed exactly when the event owns it, once, however often it is told to free it; a buffer
    that is registered later is treated alike. *)
Theorem temp_buf_freed_once e buf owns n :
  buf ≠ 0%N →
  let go := λ '(e, freed), let '(e', f) := free_temp_buf e in (e', freed ++ match f with Some a => [a] | None => [] end) in
  Nat.iter (S n) go (register_temp_buf e buf owns, []) = (with_buf e 0 owns, if owns then [buf] else []).
Proof.
  intros Hb go. induction n as [|n IH].
  - destruct buf; [done|]. by destruct owns.
  - rewrite Nat.iter_succ, IH. unfold go. cbn. by destruct owns.
Qed.
Lemma temp_buf_freed_once_witness :
  let go := λ '(e, freed), let '(e', f) := free_temp_buf e in (e', freed ++ match f with Some a => [a] | None => [] end) in
  Nat.iter 3 go (register_temp_buf (Ev 0 EVENT_NO_CACHE 0 false 0 0 None 1) 5 true, []) = (with_buf (Ev 0 EVENT_NO_CACHE 0 false 0 0 None 1) 0 true, [5%N]).
Proof. apply (temp_buf_freed_once (Ev 0 EVENT_NO_CACHE 0 false 0 0 None 1) 5 true 2). done. Defined.

(** An event's time is fixed when it is first asked for: it is the event's own if it has one, else the start of its thread, else of the running
    thread, else the clock; if that is not zero, later questions give the same answer whatever thread runs. *)
Theorem get_time_fixed e cur hr cur' hr' :
  let t := if decide (when e ≠ 0) then when e else (match thd e with Some p => p | None => match cur with Some p => p | None => hr end end).1 in
  let '(e', r) := get_time cur hr e in
  r = t ∧ when e' = t ∧ (t ≠ 0 → get_time cur' hr' e' = (e', t)) ∧ flags e' = flags e ∧ cache_type e' = cache_type e.
Proof.
  unfold get_time. destruct (decide (when e ≠ 0)) as [Hw|Hw]; cbn.
  - split_and!; try done. intros _. by rewrite decide_True.
  - destruct (match thd e with Some p => p | None => match cur with Some p => p | None => hr end end) as [t f]. cbn.
    split_and!; try done. intros Ht. by rewrite decide_True.
Qed.

(** The bytes of an event reach the log in order, header first, and no further than the first part whose writing fails: with each part written by one call,
    the log grows by the parts before the first failing call, and an error is reported exactly when there is one. *)
Theorem event_write_stops fails hd dh db ft n out :
  write (EventSize.wdata fails hd) (EventSize.wdata fails dh) (EventSize.wdata fails db) (EventSize.wdata fails ft) (n, out) =
  (if fails n then ((S n, out), true)
   else if fails (S n) then ((S (S n), out ++ hd), true)
   else if fails (S (S n)) then ((S (S (S n)), out ++ hd ++ dh), true)
   else if fails (S (S (S n))) then ((S (S (S (S n))), out ++ hd ++ dh ++ db), true)
   else ((S (S (S (S n))), out ++ hd ++ dh ++ db ++ ft), false)).
Proof.
  unfold write, orelse, EventSize.wdata. destruct (fails n); [done|]. destruct (fails (S n)); [done|].
  destruct (fails (S (S n))); [by rewrite <- app_assoc|]. destruct (fails (S (S (S n)))); by rewrite <- !app_assoc.
Qed.

(** The event that starts encryption writes exactly the number of bytes it announces, from which its scheme, its key version and its nonce can be read
    back: the first byte, the next four in little-endian order, and the rest. *)
Theorem start_encryption_body e out n :
  length (EventSize.nonce e) = 12%nat → bytes_ok (EventSize.nonce e) → 0 ≤ EventSize.key_version e < 2 ^ 32 → 0 ≤ EventSize.crypto_scheme e < 256 →
  ∃ body, EventSize.write_data_body (λ _, false) e (n, out) = Some ((S (S (S n)), out ++ body), false) ∧
    Z.of_nat (length body) = EventSize.start_encryption_data_size ∧
    head body = Some (EventSize.crypto_scheme e) ∧ Generic.uint4korr body 1 = Some (EventSize.key_version e) ∧ drop 5 body = EventSize.nonce e.
Proof.
  intros Hn Hb Hk Hc. unfold EventSize.write_data_body. destruct e as [cs kv nc]; cbn [EventSize.nonce EventSize.key_version EventSize.crypto_scheme] in *.
  rewrite int4store_le. change (store_le 4 (replicate 4 0) 0 kv) with (Some (le_bytes 4 kv)). cbn [mbind option_bind].
  exists (u8 cs :: le_bytes 4 kv ++ nc). split; [|split_and!].
  - unfold orelse, EventSize.wdata. rewrite firstn_all2 by (rewrite Hn; done). by rewrite <- !app_assoc.
  - cbn [length]. rewrite length_app, length_le_bytes, Hn. done.
  - cbn. unfold wrapu. by rewrite Z.mod_small.
  - rewrite uint4korr_load.
    + unfold load_le. rewrite decide_True by (cbn [length]; rewrite length_app, length_le_bytes; lia). cbn [drop skipn].
      change (skipn 0 ?l) with l. rewrite take_app_length' by (by rewrite length_le_bytes). rewrite le_val_bytes.
      change (256 ^ Z.of_nat 4) with (2 ^ 32). by rewrite Z.mod_small.
    + apply Forall_cons. split; [apply (Z.mod_pos_bound cs 256); lia|]. apply Forall_app. split; [apply bytes_ok_le_bytes|done].
  - cbn [drop skipn]. change (skipn 4 (le_bytes 4 kv ++ nc)) with nc. done.
Qed.
Definition ex_encryption : EventSize.Start_encryption_log_event := EventSize.SE 1 258 [1; 2; 3; 4; 5; 6; 7; 8; 9; 10; 11; 12].
Lemma start_encryption_body_witness :
  ∃ body, EventSize.write_data_body (λ _, false) ex_encryption (0%nat, [7]) = Some ((3%nat, [7] ++ body), false) ∧
    Z.of_nat (length body) = EventSize.start_encryption_data_size ∧
    head body = Some 1 ∧ Generic.uint4korr body 1 = Some 258 ∧ drop 5 body = EventSize.nonce ex_encryption.
Proof.
  apply (start_encryption_body ex_encryption [7] 0); [done|apply (bool_decide_unpack _); vm_compute; done|split; vm_compute; done..].
Defined.

(** The size the list of transaction identifiers announces is at least the six bytes that replacing it with a dummy event needs, and is the size
    of its entries, for every count below 2 to the 27; at that count the sum leaves the range of the result and turns negative. *)
Theorem gtid_list_size_bounds count :
  0 ≤ count < 2 ^ 27 →
  6 ≤ EventSize.gtid_list_data_size count ∧
  (count ≠ 0 → EventSize.gtid_list_data_size count = EventSize.GTID_LIST_HEADER_LEN + count * EventSize.element_size) ∧
  EventSize.gtid_list_data_size (2 ^ 27) < 0.
Proof.
  intros Hc. unfold EventSize.gtid_list_data_size, EventSize.GTID_LIST_HEADER_LEN, EventSize.element_size.
  assert (Hs : count ≠ 0 → s32 (u32 (4 + count * (4 + 4 + 8))) = 4 + count * 16).
  { intros _. unfold wrapu. rewrite (Z.mod_small (4 + count * (4 + 4 + 8))) by lia. unfold wraps. rewrite Z.mod_small by lia. lia. }
  case_decide as H0; (split; [|split; [|vm_compute; done]]); [lia|done|rewrite Hs by done; lia|intros _; by rewrite Hs].
Qed.
Lemma gtid_list_size_bounds_witness :
  6 ≤ EventSize.gtid_list_data_size 3 ∧ (3 ≠ 0 → EventSize.gtid_list_data_size 3 = EventSize.GTID_LIST_HEADER_LEN + 3 * EventSize.element_size) ∧
  EventSize.gtid_list_data_size (2 ^ 27) < 0.
Proof. apply (gtid_list_size_bounds 3). lia. Defined.

(** The type and the size of a load event agree, in whatever order they are asked and however often: the event is a new one exactly when its size is
    computed in the new layout; the first question fixes the answer, and forcing the new format before it makes it new. *)
Theorem load_event_format l :
  let '(l1, t1) := SqlEx.get_type_code l in let '(l2, n2) := SqlEx.get_data_size l in
  l1 = l2 ∧ SqlEx.get_type_code l1 = (l1, t1) ∧ SqlEx.get_data_size l1 = (l1, n2) ∧
  n2 = s32 (u32 (SqlEx.table_name_len l + SqlEx.db_len l + 2 + SqlEx.fname_len l + EventSize.LOAD_HEADER_LEN +
         (if decide (t1 = EventType.NEW_LOAD_EVENT)
          then SqlEx.field_term_len (SqlEx.sql_ex l) + SqlEx.enclosed_len (SqlEx.sql_ex l) + SqlEx.line_term_len (SqlEx.sql_ex l) +
               SqlEx.line_start_len (SqlEx.sql_ex l) + SqlEx.escaped_len (SqlEx.sql_ex l) + 6
          else 7) + SqlEx.field_block_len l + SqlEx.num_fields l)) ∧
  (SqlEx.get_type_code (SqlEx.with_ex l (SqlEx.force_new_format (SqlEx.sql_ex l)))).2 = EventType.NEW_LOAD_EVENT.
Proof.
  destruct l as [a b c d e [f g h i j k]]. unfold SqlEx.get_type_code, SqlEx.get_data_size, SqlEx.data_size, SqlEx.new_format. cbn.
  destruct (decide (f ≠ -1)) as [Hf|Hf]; cbn.
  - rewrite !decide_True by done. case_bool_decide; done.
  - destruct (SqlEx.needs_new _); cbn; done.
Qed.
End EventTheorems.

(** ** Theorems about queries and rows *)

Section RowTheorems.

(** A query counts as a keyword of a transaction exactly when it is a beginning of BEGIN or of COMMIT, possibly an empty one, or begins with SAVEPOINT or ROLLBACK
    in any case of the letters.  In particular the words themselves do; so do the empty query and B. *)
Theorem is_trans_keyword_exact query :
  QueryEvent.is_trans_keyword query (length query) = true ↔
  query `prefix_of` QueryEvent.BEGIN ∨ query `prefix_of` QueryEvent.COMMIT ∨
  (QueryEvent.lower <$> QueryEvent.SAVEPOINT) `prefix_of` (QueryEvent.lower <$> query) ∨
  (QueryEvent.lower <$> QueryEvent.ROLLBACK) `prefix_of` (QueryEvent.lower <$> query).
Proof.
  unfold QueryEvent.is_trans_keyword, QueryEvent.strncasecmp_eq. rewrite !orb_true_iff, !QueryEvent.strncmp_self.
  assert (H9 := QueryEvent.strncmp_lit (QueryEvent.lower <$> query) (QueryEvent.lower <$> QueryEvent.SAVEPOINT)).
  assert (H8 := QueryEvent.strncmp_lit (QueryEvent.lower <$> query) (QueryEvent.lower <$> QueryEvent.ROLLBACK)).
  rewrite length_fmap in H8, H9. change (length QueryEvent.SAVEPOINT) with 9%nat in H9. change (length QueryEvent.ROLLBACK) with 8%nat in H8.
  rewrite H9, H8. tauto.
Qed.

(** The flags of a row event are a set of bits: after setting or clearing some, a flag is set exactly when it was and was not cleared, or is among those set;
    writing them into the event's buffer changes two bytes, from which they are read back. *)
Theorem row_flags_sets m f i buf pos :
  0 ≤ m < 2 ^ 16 → 0 ≤ f < 2 ^ 16 → 0 ≤ i < 16 → bytes_ok buf → (pos + 2 ≤ length buf)%nat →
  Z.testbit (RowsEvent.set_flags m f) i = Z.testbit m i || Z.testbit f i ∧
  Z.testbit (RowsEvent.clear_flags m f) i = Z.testbit m i && negb (Z.testbit f i) ∧
  (b ← RowsEvent.update_flags buf pos m; Generic.uint2korr b pos) = Some m.
Proof.
  intros Hm Hf Hi Hb Hp. unfold RowsEvent.set_flags, RowsEvent.clear_flags, RowsEvent.update_flags, wrapu. split_and!.
  - by rewrite Z.mod_pow2_bits_low, Z.lor_spec by lia.
  - by rewrite Z.mod_pow2_bits_low, Z.land_spec, Z.lnot_spec by lia.
  - rewrite (roundtrip_le 2 buf pos m Generic.int2store Generic.uint2korr) by eauto using int2store_le, uint2korr_load.
    rewrite decide_True by done. change (256 ^ Z.of_nat 2) with (2 ^ 16). by rewrite Z.mod_small.
Qed.
Lemma row_flags_sets_witness :
  Z.testbit (RowsEvent.set_flags 5 2) 1 = Z.testbit 5 1 || Z.testbit 2 1 ∧
  Z.testbit (RowsEvent.clear_flags 5 2) 1 = Z.testbit 5 1 && negb (Z.testbit 2 1) ∧
  (b ← RowsEvent.update_flags [9; 9; 9] 1 5; Generic.uint2korr b 1) = Some 5.
Proof. apply (row_flags_sets 5 2 1 [9; 9; 9] 1); [lia..|apply (bool_decide_unpack _); vm_compute; done|cbn; lia]. Defined.

(** A row event says it is part of a group, one that must not be handled alone, exactly when it is the last of its statement; the
    description of the function says it is so for every row event but the last. *)
Theorem rows_part_of_group_inverted m_flags :
  RowsEvent.is_part_of_group m_flags = Z.testbit m_flags 0 ∧
  RowsEvent.is_part_of_group (RowsEvent.set_flags m_flags RowsEvent.STMT_END_F) = true ∧
  RowsEvent.is_part_of_group (RowsEvent.clear_flags m_flags RowsEvent.STMT_END_F) = false.
Proof.
  assert (H : ∀ m, RowsEvent.is_part_of_group m = Z.testbit m 0).
  { intros m. unfold RowsEvent.is_part_of_group, RowsEvent.get_flags, RowsEvent.STMT_END_F. change 1 with (Z.ones 1). rewrite Z.land_ones by lia.
    change (2 ^ 1) with 2. rewrite Z.bit0_odd, Zmod_odd. by destruct (Z.odd m). }
  rewrite !H. split; [done|]. unfold RowsEvent.set_flags, RowsEvent.clear_flags, wrapu.
  rewrite !Z.mod_pow2_bits_low, Z.lor_spec, Z.land_spec, Z.lnot_spec by lia. by destruct (Z.testbit m_flags 0).
Qed.

(** The comparison of the column maps looks at the map the kind of the event has: what is read for a delete, both for an update, what is written for a write;
    for an update it holds exactly when both agree. *)
Lemma bitmaps_cmp_update {M} (cmp : M → M → bool) a b c d :
  RowsEvent.read_write_bitmaps_cmp cmp EventType.UPDATE_ROWS_EVENT a b c d = Some true ↔ cmp a c = true ∧ cmp b d = true.
Proof. unfold RowsEvent.read_write_bitmaps_cmp. cbn. destruct (cmp a c), (cmp b d); naive_solver. Qed.
End RowTheorems.
