(* ===== verification/StoredProgram.v ===== *)
(** * Stored programs

    From sp_pcontext.h: the parse-time context of a block ([sp_pcontext]: its variables, labels, cursors and CASE expressions).
    From sp_head.h: the attributes of a routine ([sp_head], [sp_package]) and the destinations of its jump
    instructions.  Searching by name, and what adds a variable or a handler, is defined elsewhere: where a function here calls it, it is an argument. *)

From Stdlib Require Import ZArith NArith Lia.
From stdpp Require Import base numbers option list.
From S2P Require Import Prelude BinlogFlags.
Open Scope Z_scope.
Open Scope cint_scope.

(** ** Parse-time contexts *)

Module PContext.

Record sp_label := Label { l_name : N; l_ip : Z }.
(** The members the inline functions use; labels are lists with the innermost first. *)
Record sp_pcontext := Ctx {
  m_max_var_index : Z; m_max_cursor_index : Z; m_var_offset : Z; m_cursor_offset : Z; m_vars : list N; m_cursors : list N;
  m_pboundary : Z; m_num_case_exprs : Z; m_case_expr_ids : list Z; m_labels : list sp_label; m_goto_labels : list sp_label
}.
Definition with_cases (c : sp_pcontext) (n : Z) (ids : list Z) : sp_pcontext :=
  Ctx (m_max_var_index c) (m_max_cursor_index c) (m_var_offset c) (m_cursor_offset c) (m_vars c) (m_cursors c) (m_pboundary c) n ids
    (m_labels c) (m_goto_labels c).
Definition with_labels (c : sp_pcontext) (l : list sp_label) : sp_pcontext :=
  Ctx (m_max_var_index c) (m_max_cursor_index c) (m_var_offset c) (m_cursor_offset c) (m_vars c) (m_cursors c) (m_pboundary c)
    (m_num_case_exprs c) (m_case_expr_ids c) l (m_goto_labels c).

Definition max_var_index (c : sp_pcontext) : Z := m_max_var_index c.
Definition current_var_count (c : sp_pcontext) : Z := u32 (m_var_offset c + u32 (Z.of_nat (length (m_vars c)))).
Definition context_var_count (c : sp_pcontext) : Z := u32 (Z.of_nat (length (m_vars c))).
Definition get_context_variable (c : sp_pcontext) (i : nat) : option N := m_vars c !! i.
(** [i] counts from the last variable; the assertion is that there is one. *)
Definition get_last_context_variable (c : sp_pcontext) (i : nat) : option N :=
  if decide (i < length (m_vars c))%nat then m_vars c !! (length (m_vars c) - i - 1)%nat else None.
Definition declare_var_boundary (c : sp_pcontext) (n : Z) : sp_pcontext :=
  Ctx (m_max_var_index c) (m_max_cursor_index c) (m_var_offset c) (m_cursor_offset c) (m_vars c) (m_cursors c) n (m_num_case_exprs c)
    (m_case_expr_ids c) (m_labels c) (m_goto_labels c).
Definition child_context (children : list N) (i : nat) : N := if decide (i < length children)%nat then default 0%N (children !! i) else 0%N.
Definition cursor_offset (c : sp_pcontext) : Z := m_cursor_offset c.
Definition frame_cursor_count (c : sp_pcontext) : Z := u32 (Z.of_nat (length (m_cursors c))).
Definition max_cursor_index (c : sp_pcontext) : Z := u32 (m_max_cursor_index c + frame_cursor_count c).
Definition current_cursor_count (c : sp_pcontext) : Z := u32 (m_cursor_offset c + frame_cursor_count c).

(** *** CASE expressions: numbers, and a stack of the ones being parsed, the last one at the end *)
Definition register_case_expr (c : sp_pcontext) : sp_pcontext * Z := (with_cases c (s32 (m_num_case_exprs c + 1)) (m_case_expr_ids c), m_num_case_exprs c).
Definition get_num_case_exprs (c : sp_pcontext) : Z := m_num_case_exprs c.
(** [append] reports whether there was no memory. *)
Definition push_case_expr_id (c : sp_pcontext) (id : Z) (oom : bool) : sp_pcontext * bool :=
  if oom then (c, true) else (with_cases c (m_num_case_exprs c) (m_case_expr_ids c ++ [id]), false).
Definition pop_case_expr_id (c : sp_pcontext) : sp_pcontext := with_cases c (m_num_case_exprs c) (take (length (m_case_expr_ids c) - 1) (m_case_expr_ids c)).
Definition get_current_case_expr_id (c : sp_pcontext) : option Z := last (m_case_expr_ids c).

(** *** Labels: a context with the contexts around it, from the inside out *)
Fixpoint last_label (ctxs : list sp_pcontext) : option sp_label :=
  match ctxs with
  | [] => None
  | c :: parents => match head (m_labels c) with Some l => Some l | None => last_label parents end
  end.
Definition last_goto_label (c : sp_pcontext) : option sp_label := head (m_goto_labels c).
Definition pop_label (c : sp_pcontext) : sp_pcontext * option sp_label := (with_labels c (tail (m_labels c)), head (m_labels c)).
(** The errors reported, and the result. *)
Definition ER_SP_LABEL_REDEFINE : Z := 1309.
Definition ER_SP_DUP_COND : Z := 1332.
Definition ER_SP_CURSOR_MISMATCH : Z := 1324.
Definition block_label_declare (find_label : bool) : list Z * bool := if find_label then ([ER_SP_LABEL_REDEFINE], true) else ([], false).
Definition declare_condition (find_condition add_condition : bool) : list Z * bool :=
  if find_condition then ([ER_SP_DUP_COND], true) else ([], add_condition).
Definition find_cursor_with_error (pcursor : option N) : list Z * option N :=
  match pcursor with Some c => ([], Some c) | None => ([ER_SP_CURSOR_MISMATCH], None) end.

(** *** A statement with nested CASE expressions, as the parser goes through it

    [Case inner next]: a CASE whose branches contain [inner], then the statements [next]. *)
Inductive cases := Done | Case (inner next : cases).
Fixpoint count (p : cases) : Z := match p with Done => 0 | Case i n => 1 + count i + count n end.
(** The parser's calls; the result lists the numbers given and, for each CASE, the current number before and after its branches. *)
Fixpoint parse (p : cases) (c : sp_pcontext) : sp_pcontext * list Z * list (option Z) :=
  match p with
  | Done => (c, [], [])
  | Case inner next =>
      let '(c, id) := register_case_expr c in
      let '(c, _) := push_case_expr_id c id false in
      let before := get_current_case_expr_id c in
      let '(c, ids1, seen1) := parse inner c in
      let after := get_current_case_expr_id c in
      let c := pop_case_expr_id c in
      let '(c, ids2, seen2) := parse next c in
      (c, id :: ids1 ++ ids2, before :: seen1 ++ after :: seen2)
  end.
(** Where each number is current: twice for each CASE. *)
Fixpoint expect (p : cases) (n : Z) : list (option Z) :=
  match p with Done => [] | Case i q => Some n :: expect i (n + 1) ++ Some n :: expect q (n + 1 + count i) end.

Lemma count_pos p : 0 ≤ count p.
Proof. induction p; cbn; lia. Qed.
Lemma seqZ_step n k : 0 ≤ k → n :: seqZ (n + 1) k = seqZ n (1 + k).
Proof. intros Hk. rewrite (seqZ_cons n (1 + k)) by lia. f_equal. f_equal; lia. Qed.
Lemma parse_spec p : ∀ c, 0 ≤ m_num_case_exprs c → m_num_case_exprs c + count p < 2 ^ 31 →
  parse p c = (with_cases c (m_num_case_exprs c + count p) (m_case_expr_ids c), seqZ (m_num_case_exprs c) (count p), expect p (m_num_case_exprs c)).
Proof.
  induction p as [|i IHi q IHq]; intros c Hc Hn; cbn [parse count expect].
  - rewrite Z.add_0_r. by destruct c.
  - pose proof (count_pos i). pose proof (count_pos q). cbn [count] in Hn.
    unfold register_case_expr, push_case_expr_id, get_current_case_expr_id, pop_case_expr_id.
    assert (Hs : s32 (m_num_case_exprs c + 1) = m_num_case_exprs c + 1) by (unfold wraps; rewrite Z.mod_small; lia). rewrite Hs.
    rewrite IHi by (cbn; lia). cbn [m_num_case_exprs m_case_expr_ids with_cases]. rewrite last_snoc, length_app. cbn [length].
    rewrite Nat.add_sub, take_app_length. rewrite IHq by (cbn; lia). cbn [m_num_case_exprs m_case_expr_ids with_cases].
    rewrite <- seqZ_app by lia. rewrite seqZ_step by lia. unfold with_cases. cbn.
    replace (m_num_case_exprs c + 1 + count i + count q) with (m_num_case_exprs c + (1 + count i + count q)) by lia.
    by replace (1 + (count i + count q)) with (1 + count i + count q) by lia.
Qed.
End PContext.

(** ** Routines *)

Module Routine.

Definition HAS_RETURN : Z := 1.
Definition MULTI_RESULTS : Z := 8.
Definition CONTAINS_DYNAMIC_SQL : Z := 16.
Definition IS_INVOKED : Z := 32.
Definition HAS_SET_AUTOCOMMIT_STMT : Z := 64.
Definition HAS_COMMIT_OR_ROLLBACK : Z := 128.
Definition HAS_SQLCOM_RESET : Z := 1024.
Definition HAS_SQLCOM_FLUSH : Z := 2048.
Definition MODIFIES_DATA : Z := 4096.
Definition HAS_COLUMN_TYPE_REFS : Z := 8192.
Definition HAS_AGGREGATE_INSTR : Z := 16384.

Definition has (m_flags f : Z) : bool := bool_decide (m_flags .& f ≠ 0).
Definition is_invoked (m_flags : Z) : bool := has m_flags IS_INVOKED.
Definition package_is_invoked (m_flags m_invoked_subroutine_count : Z) : bool := is_invoked m_flags || (0 <? m_invoked_subroutine_count).
Definition modifies_data (m_flags : Z) : bool := has m_flags MODIFIES_DATA.

(** The errors [my_error] is called with. *)
Inductive error := ER_STMT_NOT_ALLOWED (what : Z) | ER_SP_NO_RETSET | ER_SP_CANT_SET_AUTOCOMMIT | ER_COMMIT_NOT_ALLOWED.
Definition forbidden : Z :=
  CONTAINS_DYNAMIC_SQL .| MULTI_RESULTS .| HAS_SET_AUTOCOMMIT_STMT .| HAS_COMMIT_OR_ROLLBACK .| HAS_SQLCOM_RESET .| HAS_SQLCOM_FLUSH.
Definition is_not_allowed_in_function (m_flags : Z) : list error * bool :=
  ((if has m_flags CONTAINS_DYNAMIC_SQL then [ER_STMT_NOT_ALLOWED CONTAINS_DYNAMIC_SQL]
    else if has m_flags MULTI_RESULTS then [ER_SP_NO_RETSET]
    else if has m_flags HAS_SET_AUTOCOMMIT_STMT then [ER_SP_CANT_SET_AUTOCOMMIT]
    else if has m_flags HAS_COMMIT_OR_ROLLBACK then [ER_COMMIT_NOT_ALLOWED]
    else if has m_flags HAS_SQLCOM_RESET then [ER_STMT_NOT_ALLOWED HAS_SQLCOM_RESET]
    else if has m_flags HAS_SQLCOM_FLUSH then [ER_STMT_NOT_ALLOWED HAS_SQLCOM_FLUSH]
    else []),
   has m_flags forbidden).
(** The statement that calls the routine takes its unsafe flags. *)
Definition propagate_attributes (unsafe_flags : Z) (prelocking_ctx : BinlogFlags.Query_tables_list) : option BinlogFlags.Query_tables_list :=
  BinlogFlags.set_stmt_unsafe_flags prelocking_ctx unsafe_flags.

(** *** Instructions *)
Definition instructions (m_instr : list N) : Z := Z.of_nat (length m_instr).
Definition get_instr (m_instr : list N) (i : nat) : N := if decide (i < length m_instr)%nat then default 0%N (m_instr !! i) else 0%N.
(** The index of the last one is computed without a sign; without instructions nothing can be read there. *)
Definition last_instruction (m_instr : list N) : option N := m_instr !! Z.to_nat (u32 (Z.of_nat (length m_instr) - 1)).

(** *** The parameters of a cursor

    A parameter has an item and a list of items to free.  The state is the list of items the session is to free and all else;
    [set_local_variable] builds the instruction that takes over the item and that list, or fails. *)
Record sp_assignment_lex := Prm { item : N; free_list : N }.
Section Params.
Context {S : Type} (set_local_variable : N * S → N → sp_assignment_lex → (N * S) * bool).
(** There is a result where the two assertions hold. *)
Definition add_set_cursor_param_variable (c : PContext.sp_pcontext) (t : N * S) (idx : nat) (prm : sp_assignment_lex) :
    option ((N * S) * sp_assignment_lex * bool) :=
  spvar ← PContext.get_context_variable c idx;
  if decide (fst t = 0%N) then
    let '(t, err) := set_local_variable (free_list prm, snd t) spvar prm in
    Some (if err : bool then (t, prm, true) else (t, Prm 0 0, false))
  else None.
Fixpoint param_loop (c : PContext.sp_pcontext) (t : N * S) (idx : nat) (prms : list sp_assignment_lex) : option ((N * S) * list sp_assignment_lex * bool) :=
  match prms with
  | [] => Some (t, [], false)
  | prm :: rest =>
      '(t, prm, err) ← add_set_cursor_param_variable c t idx prm;
      if err : bool then Some (t, prm :: rest, true) else '(t, rest, err) ← param_loop c t (Nat.succ idx) rest; Some (t, prm :: rest, err)
  end.
Definition add_set_cursor_param_variables (c : PContext.sp_pcontext) (t : N * S) (parameters : list sp_assignment_lex) :
    option ((N * S) * list sp_assignment_lex * bool) :=
  if decide (PContext.context_var_count c = Z.of_nat (length parameters)) then param_loop c t 0 parameters else None.
End Params.

(** *** Definitions of variables: an error of the first stage stops *)
Definition fill_spvar_definition {D} (fill_field_definition : D → D * bool) (set_maybe_null : D → D) (d : D) : D * bool :=
  let '(d, err) := fill_field_definition d in if err then (d, true) else (set_maybe_null d, false).
Fixpoint row_fill_field_definitions {D} (fill : D → D * bool) (row : list D) : list D * bool :=
  match row with
  | [] => ([], false)
  | d :: row => let '(d, err) := fill d in if err then (d :: row, true) else let '(row, err) := row_fill_field_definitions fill row in (d :: row, err)
  end.

(** *** The routines of a package

    Routines by name and type; [find_qualified] searches a list; [oom] is a failed allocation of the list node. *)
Section Package.
Context {K : Type} (find_qualified : list K → K → bool).
Definition check_dup_qualified (l : list K) (k : K) : bool := find_qualified l k.
Definition add_routine (l : list K) (k : K) (oom : bool) : list K * bool :=
  if check_dup_qualified l k then (l, true) else if oom then (l, true) else (l ++ [k], false).
Record sp_package := Package { m_routine_declarations : list K; m_routine_implementations : list K }.
Definition add_routine_declaration (p : sp_package) (k : K) (oom : bool) : sp_package * bool :=
  let '(l, err) := add_routine (m_routine_declarations p) k oom in (Package l (m_routine_implementations p), err).
Definition add_routine_implementation (p : sp_package) (k : K) (oom : bool) : sp_package * bool :=
  let '(l, err) := add_routine (m_routine_implementations p) k oom in (Package (m_routine_declarations p) l, err).
End Package.
End Routine.

(** ** Jumps *)

Module Jump.

(** Destinations of the instructions that have them; 0 is not yet known. *)
Inductive kind := Plain | JumpIfNot | HPush | SetCaseExpr.
#[global] Instance kind_eq : EqDecision kind.
Proof. solve_decision. Defined.
Record sp_instr := Instr { i_kind : kind; m_ip : Z; marked : bool; m_dest : Z; m_cont_dest : Z; m_opt_hpop : Z }.
Definition with_dest (i : sp_instr) (d : Z) : sp_instr := Instr (i_kind i) (m_ip i) (marked i) d (m_cont_dest i) (m_opt_hpop i).
Definition with_cont (i : sp_instr) (d : Z) : sp_instr := Instr (i_kind i) (m_ip i) (marked i) (m_dest i) d (m_opt_hpop i).
Definition jump_backpatch (i : sp_instr) (dest : Z) : option sp_instr := if decide (m_dest i = 0) then Some (with_dest i dest) else None.
(** The first patch is where to jump, the second where the scope of the handler ends. *)
Definition hpush_backpatch (i : sp_instr) (dest : Z) : option sp_instr :=
  if decide (m_dest i = 0 ∨ m_opt_hpop i = 0) then
    Some (if decide (m_dest i = 0) then with_dest i dest else Instr (i_kind i) (m_ip i) (marked i) (m_dest i) (m_cont_dest i) dest)
  else None.
Definition backpatch (i : sp_instr) (dest : Z) : option sp_instr :=
  match i_kind i with HPush => hpush_backpatch i dest | SetCaseExpr => Some i | _ => jump_backpatch i dest end.
Definition jump_set_destination (i : sp_instr) (old_dest new_dest : Z) : sp_instr := if decide (m_dest i = old_dest) then with_dest i new_dest else i.
Definition cont_set_destination (i : sp_instr) (old_dest new_dest : Z) : sp_instr := if decide (m_cont_dest i = old_dest) then with_cont i new_dest else i.
Definition set_destination (i : sp_instr) (old_dest new_dest : Z) : sp_instr :=
  match i_kind i with
  | JumpIfNot => cont_set_destination (jump_set_destination i old_dest new_dest) old_dest new_dest
  | SetCaseExpr => cont_set_destination i old_dest new_dest
  | _ => jump_set_destination i old_dest new_dest
  end.
Definition opt_mark (i : sp_instr) : sp_instr * Z := (Instr (i_kind i) (m_ip i) true (m_dest i) (m_cont_dest i) (m_opt_hpop i), u32 (m_ip i + 1)).
Definition opt_shortcut_jump (i : sp_instr) : Z := m_ip i.
Definition opt_move (i : sp_instr) (dst : Z) : sp_instr := Instr (i_kind i) dst (marked i) (m_dest i) (m_cont_dest i) (m_opt_hpop i).
(** The destinations a kind of instruction has. *)
Definition dests (i : sp_instr) : list Z :=
  match i_kind i with JumpIfNot => [m_dest i; m_cont_dest i] | SetCaseExpr => [m_cont_dest i] | _ => [m_dest i] end.
End Jump.

Section ProgramTheorems.

(** Parsing a statement with CASE expressions nested in any way gives them the numbers from the current count on, in the order they begin, each once; before and after
    the branches of a CASE its number is the current one; and afterwards the stack of current numbers is as it was, as long as there are fewer than 2 to the 31. *)
Theorem case_exprs_nested p c :
  0 ≤ PContext.m_num_case_exprs c → PContext.m_num_case_exprs c + PContext.count p < 2 ^ 31 →
  let '(c', ids, seen) := PContext.parse p c in
  ids = seqZ (PContext.m_num_case_exprs c) (PContext.count p) ∧ NoDup ids ∧ seen = PContext.expect p (PContext.m_num_case_exprs c) ∧
  PContext.get_num_case_exprs c' = PContext.m_num_case_exprs c + PContext.count p ∧ PContext.m_case_expr_ids c' = PContext.m_case_expr_ids c.
Proof. intros Hc Hn. rewrite PContext.parse_spec by done. split_and!; try done. apply NoDup_seqZ. Qed.
Definition ex_ctx : PContext.sp_pcontext := PContext.Ctx 0 0 0 0 [] [] 0 2 [7] [] [].
Definition ex_cases : PContext.cases := PContext.Case (PContext.Case PContext.Done PContext.Done) (PContext.Case PContext.Done PContext.Done).
Lemma case_exprs_nested_witness :
  let '(c', ids, seen) := PContext.parse ex_cases ex_ctx in
  ids = [2; 3; 4] ∧ NoDup ids ∧ seen = [Some 2; Some 3; Some 3; Some 2; Some 4; Some 4] ∧
  PContext.get_num_case_exprs c' = 5 ∧ PContext.m_case_expr_ids c' = [7].
Proof. apply (case_exprs_nested ex_cases ex_ctx); vm_compute; done. Defined.

(** The last label seen from a block is the innermost label of the nearest block around it, itself included, that has one. *)
Theorem last_label_nearest ctxs l :
  PContext.last_label ctxs = Some l ↔
  ∃ inner c outer ls, ctxs = inner ++ c :: outer ∧ Forall (λ d, PContext.m_labels d = []) inner ∧ PContext.m_labels c = l :: ls.
Proof.
  split.
  - induction ctxs as [|c ctxs IH]; [done|]. cbn. destruct (PContext.m_labels c) as [|l' ls] eqn:E; cbn.
    + intros (inner & d & outer & ls & -> & Hi & Hd)%IH. exists (c :: inner), d, outer, ls. split_and!; [done|by apply Forall_cons|done].
    + intros [= ->]. by exists [], c, ctxs, ls.
  - intros (inner & c & outer & ls & -> & Hi & Hc). induction Hi as [|d inner Hd _ IH]; cbn; [by rewrite Hc|by rewrite Hd].
Qed.

(** A routine with a forbidden statement is refused in functions and triggers with exactly one error, and one without is let through silently: an error is reported exactly when
    the function says the routine is not allowed. *)
Theorem not_allowed_iff_error m_flags :
  let '(errs, r) := Routine.is_not_allowed_in_function m_flags in length errs = (if r : bool then 1 else 0)%nat.
Proof.
  unfold Routine.is_not_allowed_in_function, Routine.has, Routine.forbidden.
  assert (Hor : ∀ a b, bool_decide (m_flags .& (a .| b) ≠ 0) = bool_decide (m_flags .& a ≠ 0) || bool_decide (m_flags .& b ≠ 0)).
  { intros a b. rewrite Z.land_lor_distr_r. apply Bool.eq_iff_eq_true. rewrite orb_true_iff, !bool_decide_eq_true.
    destruct (decide (m_flags .& a = 0)) as [Ha|Ha], (decide (m_flags .& b = 0)) as [Hb|Hb]; rewrite ?Ha, ?Hb, ?Z.lor_0_l, ?Z.lor_0_r; try tauto.
    split; [tauto|]. intros _ [? ?]%Z.lor_eq_0_iff. done. }
  rewrite !Hor. by repeat case_match.
Qed.

(** Generating the code for the parameters of a cursor, as many as its context has variables, passes every assertion, goes through
    them in order and stops at the first that fails; the parameters before it have given their items away, it and those behind
    keep theirs; without a failure all have given them away.  The instruction that takes a list of items takes it from the session. *)
Theorem cursor_params_prefix {S} (slv : N * S → N → Routine.sp_assignment_lex → (N * S) * bool) c s prms :
  (∀ t v p, snd (slv t v p) = false → fst (fst (slv t v p)) = 0%N) →
  length (PContext.m_vars c) = length prms → Z.of_nat (length prms) < 2 ^ 32 →
  ∃ t k err, Routine.add_set_cursor_param_variables slv c (0%N, s) prms = Some (t, replicate k (Routine.Prm 0 0) ++ drop k prms, err) ∧
    (k ≤ length prms)%nat ∧ (err = false ↔ k = length prms) ∧ (err = false → fst t = 0%N).
Proof.
  intros Hslv Hlen Hb. unfold Routine.add_set_cursor_param_variables, PContext.context_var_count. rewrite Hlen.
  rewrite decide_True by (apply Z.mod_small; lia).
  assert (H : ∀ idx t, fst t = 0%N → length (PContext.m_vars c) = (idx + length prms)%nat →
    ∃ t' k err, Routine.param_loop slv c t idx prms = Some (t', replicate k (Routine.Prm 0 0) ++ drop k prms, err) ∧
      (k ≤ length prms)%nat ∧ (err = false ↔ k = length prms) ∧ (err = false → fst t' = 0%N)); [|by apply H].
  clear Hlen Hb s. induction prms as [|p prms IH]; intros idx t Ht Hlen; cbn in *; [by exists t, 0%nat, false|].
  unfold Routine.add_set_cursor_param_variable, PContext.get_context_variable.
  destruct (lookup_lt_is_Some_2 (PContext.m_vars c) idx) as [v ->]; [lia|]. cbn. rewrite decide_True by done.
  pose proof (Hslv (Routine.free_list p, snd t) v p) as Hs. destruct (slv _ v p) as [t1 [|]]; cbn in *.
  - exists t1, 0%nat, true. split_and!; [done|lia|done|done].
  - destruct (IH (Nat.succ idx) t1) as (t' & k & err & -> & Hk & He & Hf); [by apply Hs|by rewrite Hlen, Nat.add_succ_r|]. cbn.
    exists t', (Datatypes.S k), err. split_and!; [done|lia|rewrite He; lia|done].
Qed.
Lemma cursor_params_prefix_witness :
  let slv := λ (t : N * list N) v p, if decide (v = 9%N) then (t, true) else ((0%N, fst t :: v :: snd t), false) in
  ∃ t k err, Routine.add_set_cursor_param_variables slv (PContext.Ctx 0 0 0 0 [7; 9; 8]%N [] 0 0 [] [] []) (0%N, [])
      [Routine.Prm 1 2; Routine.Prm 3 4; Routine.Prm 5 6] = Some (t, replicate k (Routine.Prm 0 0) ++ drop k [Routine.Prm 1 2; Routine.Prm 3 4; Routine.Prm 5 6], err) ∧
    (k ≤ 3)%nat ∧ (err = false ↔ k = 3%nat) ∧ (err = false → fst t = 0%N).
Proof.
  apply (cursor_params_prefix (λ (t : N * list N) v p, if decide (v = 9%N) then (t, true) else ((0%N, fst t :: v :: snd t), false))
    (PContext.Ctx 0 0 0 0 [7; 9; 8]%N [] 0 0 [] [] []) [] [Routine.Prm 1 2; Routine.Prm 3 4; Routine.Prm 5 6]); [|done|cbn; lia].
  intros t v p. case_decide; done.
Defined.

(** The declarations of a package never have two routines of the same name and type, and neither have its implementations, whatever is added and whatever allocations fail: a duplicate is
    refused with the package unchanged.  The search by name is given; it must find what is there. *)
Theorem package_routines_unique {K} (find : list K → K → bool) (ops : list (bool * K * bool)) :
  (∀ l k, find l k = true ↔ k ∈ l) →
  let p := foldl (λ p '(decl, k, oom), (if decl : bool then Routine.add_routine_declaration find p k oom else Routine.add_routine_implementation find p k oom).1)
             (Routine.Package [] []) ops in
  NoDup (Routine.m_routine_declarations p) ∧ NoDup (Routine.m_routine_implementations p).
Proof.
  intros Hf p.
  assert (Hadd : ∀ l k oom, NoDup l → NoDup (Routine.add_routine find l k oom).1).
  { intros l k oom Hl. unfold Routine.add_routine, Routine.check_dup_qualified. destruct (find l k) eqn:E; [done|]. destruct oom; [done|]. cbn.
    apply NoDup_app. split_and!; [done| |apply NoDup_singleton]. intros x Hx ->%list_elem_of_singleton. apply Hf in Hx. congruence. }
  assert (H : ∀ q, NoDup (Routine.m_routine_declarations q) → NoDup (Routine.m_routine_implementations q) →
    let p := foldl (λ p '(decl, k, oom), (if decl : bool then Routine.add_routine_declaration find p k oom else Routine.add_routine_implementation find p k oom).1) q ops in
    NoDup (Routine.m_routine_declarations p) ∧ NoDup (Routine.m_routine_implementations p)).
  { clear p. induction ops as [|[[decl k] oom] ops IH]; intros q Hd Hi; [done|]. cbn. apply IH.
    all: destruct decl; unfold Routine.add_routine_declaration, Routine.add_routine_implementation.
    all: pose proof (Hadd (Routine.m_routine_declarations q) k oom Hd) as H1; pose proof (Hadd (Routine.m_routine_implementations q) k oom Hi) as H2.
    all: destruct (Routine.add_routine find (Routine.m_routine_declarations q) k oom) as [? ?], (Routine.add_routine find (Routine.m_routine_implementations q) k oom) as [? ?].
    all: cbn in *; done. }
  apply H; apply NoDup_nil_2.
Qed.
Lemma package_routines_unique_witness :
  let find := λ l k, bool_decide (k ∈ l) in
  let p := foldl (λ p '(decl, k, oom), (if decl : bool then Routine.add_routine_declaration find p k oom else Routine.add_routine_implementation find p k oom).1)
             (Routine.Package [] []) [(true, 1%N, false); (true, 1%N, false); (false, 1%N, true); (true, 2%N, false)] in
  NoDup (Routine.m_routine_declarations p) ∧ NoDup (Routine.m_routine_implementations p).
Proof.
  apply (package_routines_unique (λ l k, bool_decide (k ∈ l)) [(true, 1%N, false); (true, 1%N, false); (false, 1%N, true); (true, 2%N, false)]).
  intros l k. apply bool_decide_eq_true.
Defined.

(** Moving a destination changes every destination of an instruction that was the old one to the new one, and no other; nothing else of the instruction changes. *)
Theorem set_destination_exact i old new :
  Jump.dests (Jump.set_destination i old new) = (λ d, if decide (d = old) then new else d) <$> Jump.dests i ∧
  Jump.i_kind (Jump.set_destination i old new) = Jump.i_kind i ∧ Jump.m_ip (Jump.set_destination i old new) = Jump.m_ip i ∧
  Jump.m_opt_hpop (Jump.set_destination i old new) = Jump.m_opt_hpop i.
Proof.
  destruct i as [k ip m d c h]. unfold Jump.set_destination, Jump.jump_set_destination, Jump.cont_set_destination, Jump.dests. destruct k; cbn;
    repeat case_decide; cbn in *; try done; repeat case_decide; done.
Qed.
(** A jump is patched once and a handler twice, to known places: the first patch of a handler is its destination, the second the end of its scope, and a
    further one is refused. *)
Theorem hpush_backpatch_twice i d h e :
  Jump.i_kind i = Jump.HPush → Jump.m_dest i = 0 → Jump.m_opt_hpop i = 0 → d ≠ 0 → h ≠ 0 →
  ∃ i1 i2, Jump.backpatch i d = Some i1 ∧ Jump.backpatch i1 h = Some i2 ∧ Jump.m_dest i2 = d ∧ Jump.m_opt_hpop i2 = h ∧ Jump.backpatch i2 e = None.
Proof.
  destruct i as [k ip m d0 c h0]. cbn. intros -> -> -> Hd Hh.
  exists (Jump.Instr Jump.HPush ip m d c 0), (Jump.Instr Jump.HPush ip m d c h). split; [done|].
  unfold Jump.backpatch, Jump.hpush_backpatch. cbn. rewrite decide_True by (by right). rewrite !decide_False by naive_solver. done.
Qed.
Lemma hpush_backpatch_twice_witness :
  ∃ i1 i2, Jump.backpatch (Jump.Instr Jump.HPush 3 false 0 0 0) 8 = Some i1 ∧ Jump.backpatch i1 12 = Some i2 ∧ Jump.m_dest i2 = 8 ∧ Jump.m_opt_hpop i2 = 12 ∧
    Jump.backpatch i2 5 = None.
Proof. apply (hpush_backpatch_twice (Jump.Instr Jump.HPush 3 false 0 0 0) 8 12 5); done. Defined.

(** The last of the variables of a context is the one counted by 0, the first the one counted by the number less one. *)
Lemma last_context_variable c i : (i < length (PContext.m_vars c))%nat →
  PContext.get_last_context_variable c i = PContext.get_context_variable c (length (PContext.m_vars c) - S i) ∧
  PContext.get_last_context_variable c i = reverse (PContext.m_vars c) !! i.
Proof.
  intros Hi. unfold PContext.get_last_context_variable, PContext.get_context_variable. rewrite decide_True by done. rewrite reverse_lookup by done.
  replace (length (PContext.m_vars c) - i - 1)%nat with (length (PContext.m_vars c) - S i)%nat by lia. done.
Qed.
End ProgramTheorems.
