(* ===== verification/Trackers.v ===== *)
(** * Trackers of a statement, calls into its thread, and its digest

    From sql_analyze_stmt.h: the counters that ANALYZE prints ([Exec_time_tracker], [Time_and_counter_tracker], [Table_access_tracker],
    [Filesort_tracker]).  From my_apc.h: the target of calls other threads make.  From sql_digest.h: the
    token array of a statement and its copy. *)

From Stdlib Require Import ZArith NArith Lia.
From stdpp Require Import base numbers option list.
From S2P Require Import Prelude.
Open Scope Z_scope.
Open Scope cint_scope.

(** ** Counters of ANALYZE *)

Module Analyze.

Definition ULONGLONG_MAX : Z := 2 ^ 64 - 1.
Record Exec_time_tracker := Time { count : Z; cycles : Z; last_start : Z }.
(** [now] is what [my_timer_cycles] returns. *)
Definition cycles_stop_tracking (now : Z) (t : Exec_time_tracker) : Exec_time_tracker :=
  let c := u64 (cycles t + u64 (now - last_start t)) in
  let c := if decide (now < last_start t) then u64 (c + ULONGLONG_MAX) else c in
  Time (count t) c (last_start t).
Definition new_Exec_time_tracker (garbage : Z) : Exec_time_tracker := Time 0 0 garbage.
Definition start_tracking (now : Z) (t : Exec_time_tracker) : Exec_time_tracker := Time (count t) (cycles t) now.
Definition stop_tracking (now : Z) (t : Exec_time_tracker) : Exec_time_tracker :=
  cycles_stop_tracking now (Time (u64 (count t + 1)) (cycles t) (last_start t)).
Definition get_loops (t : Exec_time_tracker) : Z := count t.

(** [Time_and_counter_tracker] hides [stop_tracking]: its loops are counted at the start. *)
Record Time_and_counter_tracker := Counter { tracker : Exec_time_tracker; timed : bool }.
Definition incr_loops (t : Time_and_counter_tracker) : Time_and_counter_tracker :=
  Counter (Time (u64 (count (tracker t) + 1)) (cycles (tracker t)) (last_start (tracker t))) (timed t).
Definition counter_stop_tracking (now : Z) (t : Time_and_counter_tracker) : Time_and_counter_tracker :=
  Counter (cycles_stop_tracking now (tracker t)) (timed t).
Definition ANALYZE_START_TRACKING (now : Z) (t : Time_and_counter_tracker) : Time_and_counter_tracker :=
  let t := incr_loops t in if timed t then Counter (start_tracking now (tracker t)) (timed t) else t.
Definition ANALYZE_STOP_TRACKING (now : Z) (t : Time_and_counter_tracker) : Time_and_counter_tracker :=
  if timed t then counter_stop_tracking now t else t.

(** *** Reads of a table *)
Record Table_access_tracker := Access { r_scans : Z; r_rows : Z; r_rows_after_where : Z }.
Definition new_Table_access_tracker : Table_access_tracker := Access 0 0 0.
Definition has_scans (t : Table_access_tracker) : bool := bool_decide (r_scans t ≠ 0).
Definition on_scan_init (t : Table_access_tracker) : Table_access_tracker := Access (u64 (r_scans t + 1)) (r_rows t) (r_rows_after_where t).
Definition on_record_read (t : Table_access_tracker) : Table_access_tracker := Access (r_scans t) (u64 (r_rows t + 1)) (r_rows_after_where t).
Definition on_record_after_where (t : Table_access_tracker) : Table_access_tracker := Access (r_scans t) (r_rows t) (u64 (r_rows_after_where t + 1)).

(** *** Sorts *)
Record Filesort_tracker := Filesort {
  time_tracker : Time_and_counter_tracker; r_limit : Z; r_used_pq : Z; r_examined_rows : Z; r_sorted_rows : Z; r_output_rows : Z;
  sort_passes : Z; sort_buffer_size : Z
}.
Definition new_Filesort_tracker (do_timing : bool) (garbage : Z) : Filesort_tracker :=
  Filesort (Counter (new_Exec_time_tracker garbage) do_timing) 0 0 0 0 0 0 0.
Definition report_use (now r_limit_arg : Z) (f : Filesort_tracker) : Filesort_tracker :=
  let l := if decide (get_loops (tracker (time_tracker f)) = 0) then r_limit_arg
           else if decide (r_limit f ≠ r_limit_arg) then 0 else r_limit_arg in
  Filesort (ANALYZE_START_TRACKING now (time_tracker f)) l (r_used_pq f) (r_examined_rows f) (r_sorted_rows f) (r_output_rows f)
    (sort_passes f) (sort_buffer_size f).
Definition incr_pq_used (f : Filesort_tracker) : Filesort_tracker :=
  Filesort (time_tracker f) (r_limit f) (u64 (r_used_pq f + 1)) (r_examined_rows f) (r_sorted_rows f) (r_output_rows f) (sort_passes f) (sort_buffer_size f).
Definition report_row_numbers (examined_rows sorted_rows returned_rows : Z) (f : Filesort_tracker) : Filesort_tracker :=
  Filesort (time_tracker f) (r_limit f) (r_used_pq f) (u64 (r_examined_rows f + examined_rows)) (u64 (r_sorted_rows f + sorted_rows))
    (u64 (r_output_rows f + returned_rows)) (sort_passes f) (sort_buffer_size f).
Definition report_merge_passes_at_start (passes : Z) (f : Filesort_tracker) : Filesort_tracker :=
  Filesort (time_tracker f) (r_limit f) (r_used_pq f) (r_examined_rows f) (r_sorted_rows f) (r_output_rows f) (u64 (sort_passes f - passes)) (sort_buffer_size f).
Definition report_merge_passes_at_end (now passes : Z) (f : Filesort_tracker) : Filesort_tracker :=
  Filesort (ANALYZE_STOP_TRACKING now (time_tracker f)) (r_limit f) (r_used_pq f) (r_examined_rows f) (r_sorted_rows f) (r_output_rows f)
    (u64 (sort_passes f + passes)) (sort_buffer_size f).
Definition report_sort_buffer_size (bufsize : Z) (f : Filesort_tracker) : Filesort_tracker :=
  Filesort (time_tracker f) (r_limit f) (r_used_pq f) (r_examined_rows f) (r_sorted_rows f) (r_output_rows f) (sort_passes f)
    (if decide (sort_buffer_size f ≠ 0) then u64 (-1) else bufsize).

(** *** One sort, as filesort reports it

    The clock at its start and end, the limit, whether a queue was used, the rows, the merge passes of the session before
    and after, and the size of the buffer. *)
Record sort := Sort { t0 : Z; t1 : Z; limit : Z; pq : bool; examined : Z; sorted : Z; output : Z; passes0 : Z; passes1 : Z; bufsize : Z }.
Definition one (f : Filesort_tracker) (s : sort) : Filesort_tracker :=
  let f := report_use (t0 s) (limit s) f in
  let f := report_merge_passes_at_start (passes0 s) f in
  let f := if pq s then incr_pq_used f else f in
  let f := report_sort_buffer_size (bufsize s) f in
  let f := report_merge_passes_at_end (t1 s) (passes1 s) f in
  report_row_numbers (examined s) (sorted s) (output s) f.
Fixpoint sum (g : sort → Z) (l : list sort) : Z := match l with [] => 0 | s :: l => g s + sum g l end.
(** What is told of the limits: the one they share, or 0. *)
Definition common (l : list sort) : Z :=
  match l with [] => 0 | s :: r => if forallb (λ s', limit s' =? limit s) r then limit s else 0 end.
Definition buffers (l : list sort) : Z := match l with [] => 0 | [s] => bufsize s | _ => ULONGLONG_MAX end.

Lemma u64_add a b : u64 (u64 a + b) = u64 (a + b).
Proof. unfold wrapu. apply Zplus_mod_idemp_l. Qed.
Lemma sum_snoc g l s : sum g (l ++ [s]) = sum g l + g s.
Proof. induction l as [|a l IH]; cbn; [lia|]. rewrite IH. lia. Qed.
Lemma common_snoc l s : l ≠ [] → limit s ≠ 0 → Forall (λ s, limit s ≠ 0) l →
  common (l ++ [s]) = if decide (common l ≠ limit s) then 0 else limit s.
Proof.
  destruct l as [|a l]; [done|]. intros _ Hs Hl. apply Forall_cons in Hl as [Ha _]. cbn. rewrite forallb_app. cbn.
  destruct (forallb _ l); cbn; [|by rewrite decide_True by done]. rewrite andb_true_r.
  destruct (Z.eqb_spec (limit s) (limit a)) as [E|E]; [rewrite decide_False by (intros H; by apply H); done|by rewrite decide_True by congruence].
Qed.
Lemma loops_start now t : count (tracker (ANALYZE_START_TRACKING now t)) = u64 (count (tracker t) + 1).
Proof. unfold ANALYZE_START_TRACKING. by destruct t as [[] []]. Qed.
Lemma loops_stop now t : count (tracker (ANALYZE_STOP_TRACKING now t)) = count (tracker t).
Proof. unfold ANALYZE_STOP_TRACKING. by destruct t as [[] []]. Qed.
End Analyze.

(** ** Calls into a thread *)

Module Apc.

(** [apc_calls] are the requests posted and not yet served. *)
Record Apc_target := Target { enabled : Z; apc_calls : list N }.
Definition new_Apc_target : Apc_target := Target 0 [].
Definition enable (t : Apc_target) : Apc_target := Target (s32 (enabled t + 1)) (apc_calls t).
Definition have_apc_requests (t : Apc_target) : bool := bool_decide (apc_calls t ≠ []).
Definition is_enabled (t : Apc_target) : bool := bool_decide (enabled t ≠ 0).
Section Process.
(** [process_apc_requests] serves the requests; it returns those it served. *)
Context (process_apc_requests : Apc_target → Apc_target * list N).
Definition disable (t : Apc_target) : option (Apc_target * list N) :=
  if decide (enabled t ≠ 0) then
    let t := Target (s32 (enabled t - 1)) (apc_calls t) in
    Some (if bool_decide (enabled t = 0) && have_apc_requests t then process_apc_requests t else (t, []))
  else None.
(** The assertions of [destroy] and of the destructor. *)
Definition destroy (t : Apc_target) : option unit := if decide (enabled t = 0) then Some tt else None.
Definition delete_Apc_target (t : Apc_target) : option unit := if decide (enabled t = 0 ∧ apc_calls t = []) then Some tt else None.

(** Histories: a request is accepted only by a target that is enabled, as [make_apc_call] does. *)
Inductive op := Enable | Disable | Post (r : N).
Definition exec (t : Apc_target) (o : op) : option (Apc_target * list N) :=
  match o with
  | Enable => Some (enable t, [])
  | Disable => disable t
  | Post r => Some (if is_enabled t then (Target (enabled t) (apc_calls t ++ [r]), []) else (t, []))
  end.
Fixpoint run (t : Apc_target) (os : list op) : option (Apc_target * list N) :=
  match os with [] => Some (t, []) | o :: os => '(t, s) ← exec t o; '(t, s') ← run t os; Some (t, s ++ s') end.
End Process.
(** The nesting depth, which is never below zero, and the requests accepted. *)
Fixpoint depth (d : nat) (os : list op) : option nat :=
  match os with
  | [] => Some d
  | Enable :: os => depth (S d) os
  | Disable :: os => match d with O => None | S d => depth d os end
  | Post _ :: os => depth d os
  end.
Fixpoint accepted (d : nat) (os : list op) : list N :=
  match os with
  | [] => []
  | Enable :: os => accepted (S d) os
  | Disable :: os => accepted (pred d) os
  | Post r :: os => (if decide (d = O) then [] else [r]) ++ accepted d os
  end.
End Apc.

(** ** Digests *)

Module Digest.

Definition MD5_HASH_SIZE : nat := 16.
(** The token array has the length [m_token_array_length] says; without an array both are empty. *)
Record sql_digest_storage := Storage { m_full : bool; m_byte_count : nat; m_md5 : list Z; m_charset_number : Z; m_token_array : list Z; m_token_array_length : nat }.
Definition reset (s : sql_digest_storage) : sql_digest_storage :=
  Storage false 0 (replicate MD5_HASH_SIZE 0) 0 (m_token_array s) (m_token_array_length s).
Definition reset_to (s : sql_digest_storage) (token_array : list Z) : sql_digest_storage :=
  reset (Storage (m_full s) (m_byte_count s) (m_md5 s) (m_charset_number s) token_array (Z.to_nat (u32 (Z.of_nat (length token_array))))).
Definition is_empty (s : sql_digest_storage) : bool := bool_decide (m_byte_count s = O).
Definition copy (s from : sql_digest_storage) : option sql_digest_storage :=
  let n := if decide (m_token_array_length s < m_byte_count from)%nat then m_token_array_length s else m_byte_count from in
  if decide (0 < n)%nat then
    if decide (n ≤ length (m_token_array from) ∧ n ≤ length (m_token_array s))%nat then
      Some (Storage (m_full from) n (m_md5 from) (m_charset_number from) (take n (m_token_array from) ++ drop n (m_token_array s)) (m_token_array_length s))
    else None
  else Some (Storage false 0 (m_md5 s) 0 (m_token_array s) (m_token_array_length s)).
(** The tokens stored. *)
Definition tokens (s : sql_digest_storage) : list Z := take (m_byte_count s) (m_token_array s).
Definition wf (s : sql_digest_storage) : Prop := m_token_array_length s = length (m_token_array s) ∧ (m_byte_count s ≤ m_token_array_length s)%nat.
End Digest.

Section TrackerTheorems.
Import Analyze.

(** The time between a start and a stop is added to the cycles exactly, as long as the timer does not wrap around in between; when it does, one cycle
    of the time is lost: the difference of the two readings is already right modulo 2^64, and the correction that is added
    subtracts one. *)
Theorem elapsed_cycles t now d :
  0 ≤ now < 2 ^ 64 → 0 ≤ d < 2 ^ 64 →
  cycles (stop_tracking (u64 (now + d)) (start_tracking now t)) = u64 (cycles t + d - (if decide (now + d < 2 ^ 64) then 0 else 1)).
Proof.
  intros Hn Hd. unfold stop_tracking, start_tracking, cycles_stop_tracking, ULONGLONG_MAX, wrapu. cbn [cycles last_start count].
  assert (Hdiff : ((now + d) mod 2 ^ 64 - now) mod 2 ^ 64 = d).
  { rewrite Zminus_mod_idemp_l. replace (now + d - now) with d by lia. by apply Z.mod_small. }
  rewrite Hdiff. destruct (decide (now + d < 2 ^ 64)) as [Hw|Hw].
  - rewrite (Z.mod_small (now + d)), decide_False, Z.sub_0_r by lia. done.
  - assert (Hm : (now + d) mod 2 ^ 64 = now + d - 2 ^ 64).
    { replace (now + d) with (now + d - 2 ^ 64 + 1 * 2 ^ 64) at 1 by lia. rewrite Z_mod_plus_full, Z.mod_small; lia. }
    rewrite Hm, decide_True, Zplus_mod_idemp_l by lia.
    replace (cycles t + d + (2 ^ 64 - 1)) with (cycles t + d - 1 + 1 * 2 ^ 64) by lia. apply Z_mod_plus_full.
Qed.
Lemma elapsed_cycles_witness :
  cycles (stop_tracking (u64 (2 ^ 64 - 3 + 10)) (start_tracking (2 ^ 64 - 3) (Time 0 0 0))) = 9.
Proof. rewrite (elapsed_cycles (Time 0 0 0) (2 ^ 64 - 3) 10) by lia. reflexivity. Defined.

(** After any series of sorts with limits, fewer than 2^64, the tracker reports their number, the limit they share or 0 when they differ, how many used a
    queue, and the sums of the rows and of the merge passes, modulo 2^64; the pass counter is right although it is decreased
    first.  The size of the buffer is that of the one sort, or the mark for several, also when they were equal. *)
Theorem filesort_tracker_sums timing g ss :
  Forall (λ s, limit s ≠ 0 ∧ bufsize s ≠ 0) ss → Z.of_nat (length ss) < 2 ^ 64 →
  let f := foldl one (new_Filesort_tracker timing g) ss in
  get_loops (tracker (time_tracker f)) = Z.of_nat (length ss) ∧ r_limit f = common ss ∧
  r_used_pq f = u64 (sum (λ s, if pq s then 1 else 0) ss) ∧
  r_examined_rows f = u64 (sum examined ss) ∧ r_sorted_rows f = u64 (sum sorted ss) ∧ r_output_rows f = u64 (sum output ss) ∧
  sort_passes f = u64 (sum (λ s, passes1 s - passes0 s) ss) ∧ sort_buffer_size f = buffers ss.
Proof.
  induction ss as [|s ss IH] using rev_ind; intros Hl Hn f; [done|].
  apply Forall_app in Hl as [Hl [[Hs Hb] _]%Forall_cons]. rewrite length_app in Hn. cbn in Hn.
  destruct IH as (H1 & H2 & H3 & H4 & H5 & H6 & H7 & H8); [done|lia|]. subst f. rewrite foldl_app. cbn [foldl].
  set (f := foldl one _ ss) in *. unfold get_loops in *. rewrite length_app, !sum_snoc.
  assert (Hc : r_limit (one f s) = common (ss ++ [s])).
  { transitivity (r_limit (report_use (t0 s) (limit s) f)); [unfold one; by destruct (pq s)|]. unfold report_use, get_loops. cbn [r_limit].
    rewrite H1, H2. destruct ss as [|a ss]; [done|]. rewrite decide_False by (cbn; lia). rewrite common_snoc; [done|done|done|].
    eapply Forall_impl; [exact Hl|]. naive_solver. }
  rewrite Hc. unfold one. split_and!; [| done | | | | | |]; destruct (pq s); cbn; rewrite ?loops_stop, ?loops_start, ?H1, ?H3, ?H4, ?H5, ?H6, ?H7, ?H8.
  all: rewrite ?u64_add; try (f_equal; lia); try done.
  1,2: unfold wrapu; rewrite Z.mod_small; lia.
  1,2: rewrite <- Z.add_sub_swap, <- Z.add_sub_assoc, u64_add; f_equal; lia.
  all: destruct ss as [|a [|a' ss]]; try done; apply Forall_cons in Hl as [[_ Ha] _]; cbn; by rewrite decide_True.
Qed.
Lemma filesort_tracker_sums_witness :
  let ss := [Sort 5 9 10 true 100 50 10 3 4 4096; Sort 20 30 10 false 7 7 7 4 6 4096] in
  let f := foldl one (new_Filesort_tracker true 0) ss in
  get_loops (tracker (time_tracker f)) = 2 ∧ r_limit f = 10 ∧ sort_passes f = 3 ∧ sort_buffer_size f = ULONGLONG_MAX.
Proof.
  intros ss f. destruct (filesort_tracker_sums true 0 ss) as (H1 & H2 & _ & _ & _ & _ & H7 & H8); [repeat constructor; done|cbn; lia|].
  split_and!; [exact H1|exact H2|exact H7|exact H8].
Defined.
End TrackerTheorems.

Section ApcTheorems.
Import Apc.

Lemma run_depth process os : (∀ t, process t = (Target (enabled t) [], apc_calls t)) → ∀ (d d' : nat) calls,
  depth d os = Some d' → Z.of_nat d + Z.of_nat (length os) < 2 ^ 31 → (d = O → calls = []) →
  ∃ t served, run process (Target (Z.of_nat d) calls) os = Some (t, served) ∧ enabled t = Z.of_nat d' ∧
    calls ++ accepted d os = served ++ apc_calls t ∧ (d' = O → apc_calls t = []).
Proof.
  intros Hp. induction os as [|o os IH]; intros d d' calls Hd Hn Hc; cbn [depth] in Hd.
  { simplify_eq. exists (Target (Z.of_nat d') calls), []. by rewrite app_nil_r. }
  cbn [length] in Hn. destruct o as [| |r]; cbn [run exec accepted].
  - assert (Hs : s32 (Z.of_nat d + 1) = Z.of_nat (S d)) by (unfold wraps; rewrite Z.mod_small; lia).
    unfold enable. cbn [enabled apc_calls]. rewrite Hs. destruct (IH (S d) d' calls Hd) as (t & s & Hr & H); [lia|done|].
    cbn. rewrite Hr. cbn. eauto.
  - destruct d as [|d]; [done|]. unfold disable. cbn [enabled apc_calls]. rewrite decide_True by lia.
    assert (Hs : s32 (Z.of_nat (S d) - 1) = Z.of_nat d) by (unfold wraps; rewrite Z.mod_small; lia). rewrite Hs. cbn.
    rewrite Hp. unfold have_apc_requests. cbn. destruct (bool_decide (Z.of_nat d = 0) && bool_decide (calls ≠ [])) eqn:E; cbn.
    + apply andb_true_iff in E as [E%bool_decide_eq_true _]. assert (d = O) as -> by lia.
      destruct (IH O d' [] Hd) as (t & s & Hr & He & Hs' & H); [lia|done|]. cbn in Hr. rewrite Hr. cbn.
      exists t, (calls ++ s). split_and!; [done|done| |done]. rewrite <- app_assoc. by f_equal.
    + destruct (IH d d' calls Hd) as (t & s & Hr & H); [lia| |cbn; rewrite Hr; cbn; eauto].
      intros ->. destruct calls; [done|]. by cbn in E.
  - unfold is_enabled. cbn [enabled apc_calls]. destruct d as [|d].
    + rewrite bool_decide_eq_false_2 by lia. assert (calls = []) as -> by (by apply Hc). cbn [mbind option_bind].
      destruct (IH O d' [] Hd) as (t & s & Hr & H); [lia|done|]. rewrite Hr. cbn. eauto.
    + rewrite bool_decide_eq_true_2 by lia. cbn [mbind option_bind].
      destruct (IH (S d) d' (calls ++ [r]) Hd) as (t & s & Hr & He & Hs & H); [lia|done|]. rewrite Hr. cbn.
      exists t, s. split_and!; [done|done| |done]. by rewrite <- app_assoc in Hs.
Qed.
(** Nested enabling and disabling: in every history in which each disabling matches an earlier enabling, no assertion fails; when
    all are matched at the end, the target is disabled, exactly the requests that came while it was enabled have been served, in
    their order, none is left, and it can be destroyed. *)
Theorem apc_balanced process os :
  (∀ t, process t = (Target (enabled t) [], apc_calls t)) → depth 0 os = Some O → Z.of_nat (length os) < 2 ^ 31 →
  ∃ t, run process new_Apc_target os = Some (t, accepted 0 os) ∧ is_enabled t = false ∧ have_apc_requests t = false ∧
    destroy t = Some tt ∧ delete_Apc_target t = Some tt.
Proof.
  intros Hp Hd Hn. destruct (run_depth process os Hp O O [] Hd) as ([e c] & served & Hr & He & Hs & Hc); [lia|done|]. cbn in *.
  rewrite (Hc eq_refl), app_nil_r in Hs. subst e. exists (Target 0 c). rewrite (Hc eq_refl) in *. split_and!; [by rewrite Hs|done..].
Qed.
Lemma apc_balanced_witness :
  ∃ t, run (λ t, (Target (enabled t) [], apc_calls t)) new_Apc_target [Post 1; Enable; Post 2; Enable; Disable; Post 3; Disable; Post 4] = Some (t, [2; 3]%N) ∧
    is_enabled t = false ∧ have_apc_requests t = false ∧ destroy t = Some tt ∧ delete_Apc_target t = Some tt.
Proof. apply (apc_balanced (λ t, (Target (enabled t) [], apc_calls t)) [Post 1; Enable; Post 2; Enable; Disable; Post 3; Disable; Post 4]); done. Defined.

Import Digest.
(** Copying a digest never writes outside of the token array: the copy has the first tokens of the other that fit, the rest of the array
    stays; with at least one token it takes the other's flag, character set and hash; with none it is marked empty, and keeps
    its old hash. *)
Theorem digest_copy_prefix s from :
  wf s → wf from →
  ∃ s', copy s from = Some s' ∧ wf s' ∧ tokens s' = take (m_token_array_length s) (tokens from) ∧
    drop (m_byte_count s') (m_token_array s') = drop (m_byte_count s') (m_token_array s) ∧
    (if is_empty s' then m_full s' = false ∧ m_charset_number s' = 0 ∧ m_md5 s' = m_md5 s
     else m_full s' = m_full from ∧ m_charset_number s' = m_charset_number from ∧ m_md5 s' = m_md5 from).
Proof.
  intros [Hs1 Hs2] [Hf1 Hf2]. unfold copy, tokens, wf, is_empty.
  remember (if decide (m_token_array_length s < m_byte_count from)%nat then m_token_array_length s else m_byte_count from) as n eqn:En.
  assert (Hn : n = (m_token_array_length s `min` m_byte_count from)%nat) by (rewrite En; case_decide; lia). clear En.
  rewrite take_take, <- Hn. case_decide as H0.
  - rewrite decide_True by lia. eexists. split; [done|]. cbn. rewrite length_app, length_take, length_drop.
    rewrite take_app_le by (rewrite length_take; lia). rewrite take_take, drop_app_ge by (rewrite length_take; lia).
    rewrite length_take, drop_drop. rewrite bool_decide_eq_false_2 by lia. split_and!; try done; try lia; f_equal; lia.
  - eexists. split; [done|]. cbn. assert (n = O) as -> by lia. rewrite take_0. split_and!; [done|lia|done..].
Qed.
Lemma digest_copy_prefix_witness :
  let s := reset_to (Storage false 0 [] 0 [] 0) [0; 0; 0] in let f := Storage true 5 [9] 33 [1; 2; 3; 4; 5; 0; 0; 0] 8 in
  ∃ s', copy s f = Some s' ∧ wf s' ∧ tokens s' = [1; 2; 3].
Proof.
  intros s f. destruct (digest_copy_prefix s f) as (s' & Hc & Hw & Ht & _); [split; vm_compute; lia..|]. exists s'. split_and!; [done|done|exact Ht].
Defined.
End ApcTheorems.
