(* ===== verification/Subselect.v ===== *)
(** * Subqueries: strategies, ordered keys, marks

    From item_subselect.h: the strategy of an IN predicate ([Item_in_subselect]), the guards of the pushed conditions, and the sorted
    row numbers of a partial match ([Ordered_key]), whose NULLs are a bitmap of the bitmap component.  From sql_select.h: copying a
    value into a key ([store_key] and its classes).  From sql_lex.h: marking the selects above a subquery as uncacheable. *)

From Stdlib Require Import ZArith NArith Lia.
From stdpp Require Import base numbers option list gmap fin_maps.
From S2P Require Import Prelude Bitmap.
Open Scope Z_scope.
Open Scope cint_scope.

(** ** The strategy of an IN predicate *)

Module Strategy.

Definition SUBS_NOT_TRANSFORMED : Z := 0.
Definition SUBS_STRATEGY_CHOSEN : Z := 1.
Definition SUBS_SEMI_JOIN : Z := 2.
Definition SUBS_IN_TO_EXISTS : Z := 4.
Definition SUBS_MATERIALIZATION : Z := 8.
Definition SUBS_PARTIAL_MATCH_ROWID_MERGE : Z := 16.
Definition SUBS_PARTIAL_MATCH_TABLE_SCAN : Z := 32.
Definition SUBS_MAXMIN_INJECTED : Z := 64.
Definition SUBS_MAXMIN_ENGINE : Z := 128.
Definition single (strategy : Z) : bool :=
  bool_decide (strategy ∈ [SUBS_SEMI_JOIN; SUBS_IN_TO_EXISTS; SUBS_MATERIALIZATION; SUBS_PARTIAL_MATCH_ROWID_MERGE; SUBS_PARTIAL_MATCH_TABLE_SCAN;
                           SUBS_MAXMIN_INJECTED; SUBS_MAXMIN_ENGINE]).

(** [in_strategy] is an [uchar]; where an assertion fails there is no result. *)
Definition test_strategy (in_strategy strategy : Z) : bool := bool_decide (in_strategy .& strategy ≠ 0).
Definition test_set_strategy (in_strategy strategy : Z) : option bool :=
  if single strategy then Some (bool_decide (in_strategy .& SUBS_STRATEGY_CHOSEN ≠ 0) && bool_decide (in_strategy .& Z.lnot SUBS_STRATEGY_CHOSEN = strategy))
  else None.
Definition is_set_strategy (in_strategy : Z) : bool := bool_decide (in_strategy .& SUBS_STRATEGY_CHOSEN ≠ 0).
Definition has_strategy (in_strategy : Z) : bool := bool_decide (in_strategy ≠ SUBS_NOT_TRANSFORMED).
Definition add_strategy (in_strategy strategy : Z) : option Z :=
  if decide (strategy ≠ SUBS_NOT_TRANSFORMED ∧ strategy .& SUBS_STRATEGY_CHOSEN = 0) then Some (u8 (in_strategy .| strategy)) else None.
Definition reset_strategy (in_strategy strategy : Z) : option Z := if decide (strategy ≠ SUBS_NOT_TRANSFORMED) then Some strategy else None.
Definition set_strategy (in_strategy strategy : Z) : option Z := if single strategy then Some (u8 (SUBS_STRATEGY_CHOSEN .| strategy)) else None.

(** *** Guards of the pushed conditions: an array, or none *)
Definition set_cond_guard_var (guards : option (list bool)) (i : nat) (v : bool) : option (option (list bool)) :=
  match guards with Some g => _ ← g !! i; Some (Some (<[i := v]> g)) | None => Some None end.
Definition have_guarded_conds (guards : option (list bool)) : bool := match guards with Some _ => true | None => false end.
Definition disable_cond_guard_for_const_null_left_expr (const_item is_expensive element_is_null : bool) (guards : option (list bool)) (i : nat) :
    option (option (list bool)) :=
  if const_item && negb is_expensive then (if element_is_null then set_cond_guard_var guards i false else Some guards) else Some guards.

(** *** What the strategies mean: candidates, and whether the choice is made *)
Inductive strategy := SemiJoin | InToExists | Materialization | RowidMerge | TableScan | MaxMinInjected | MaxMinEngine.
#[global] Instance strategy_eq : EqDecision strategy.
Proof. solve_decision. Defined.
Definition bit (s : strategy) : Z :=
  match s with SemiJoin => 1 | InToExists => 2 | Materialization => 3 | RowidMerge => 4 | TableScan => 5 | MaxMinInjected => 6 | MaxMinEngine => 7 end.
Definition flag (s : strategy) : Z := 2 ^ bit s.
Definition flags (l : list strategy) : Z := foldr (λ s a, flag s .| a) 0 l.
Record choice := Choice { chosen : bool; among : list strategy }.
Definition models (z : Z) (c : choice) : Prop :=
  0 ≤ z < 256 ∧ Z.testbit z 0 = chosen c ∧ ∀ s, Z.testbit z (bit s) = bool_decide (s ∈ among c).
Inductive op := Add (l : list strategy) | Reset (l : list strategy) | Set_ (s : strategy).
Definition exec (z : Z) (o : op) : option Z :=
  match o with Add l => add_strategy z (flags l) | Reset l => reset_strategy z (flags l) | Set_ s => set_strategy z (flag s) end.
Definition spec (c : choice) (o : op) : option choice :=
  match o with
  | Add l => if decide (l = []) then None else Some (Choice (chosen c) (among c ++ l))
  | Reset l => if decide (l = []) then None else Some (Choice false l)
  | Set_ s => Some (Choice true [s])
  end.
Fixpoint run {A} (step : A → op → option A) (a : A) (os : list op) : option A := match os with [] => Some a | o :: os => a ← step a o; run step a os end.

Lemma flags_bits l : 0 ≤ flags l < 256 ∧ Z.testbit (flags l) 0 = false ∧ ∀ s, Z.testbit (flags l) (bit s) = bool_decide (s ∈ l).
Proof.
  induction l as [|s l (Hr & H0 & Hb)]; cbn [flags foldr].
  - split; [lia|]. split; [done|]. intros s. rewrite Z.bits_0. by rewrite bool_decide_eq_false_2 by apply not_elem_of_nil.
  - fold (flags l). split.
    + apply (in_u_lor 8 ltac:(lia)); [destruct s; split; by vm_compute|done].
    + split; [rewrite Z.lor_spec, H0; by destruct s|]. intros s'. rewrite Z.lor_spec, Hb.
      replace (Z.testbit (flag s) (bit s')) with (bool_decide (s' = s)) by (by destruct s, s'). apply eq_bool_prop_intro.
      rewrite orb_True, !bool_decide_spec, elem_of_cons. done.
Qed.
End Strategy.

(** ** Ordered keys *)

Module OrderedKey.
Import MyBitmap.

(** [records] is the number of rows of the table, in its engine. *)
Record Ordered_key := Key {
  key_buff : list Z; key_buff_elements : Z; cur_key_idx : Z; null_key : MY_BITMAP; null_count : Z; min_null_row : Z; max_null_row : Z; records : Z
}.
Definition with_cur (k : Ordered_key) (b : list Z) (i : Z) : Ordered_key :=
  Key b (key_buff_elements k) i (null_key k) (null_count k) (min_null_row k) (max_null_row k) (records k).
(** Where an assertion fails, or an index is outside of the buffer, there is no result. *)
Definition add_key (k : Ordered_key) (row_num : Z) : option Ordered_key :=
  if decide (key_buff_elements k ≠ 0 ∧ cur_key_idx k < key_buff_elements k) then
    _ ← key_buff k !! Z.to_nat (cur_key_idx k);
    Some (with_cur k (<[Z.to_nat (cur_key_idx k) := row_num]> (key_buff k)) (u64 (cur_key_idx k + 1)))
  else None.
Definition first (k : Ordered_key) : option Ordered_key := if decide (key_buff_elements k ≠ 0) then Some (with_cur k (key_buff k) 0) else None.
Definition next (k : Ordered_key) : option (Ordered_key * bool) :=
  if decide (key_buff_elements k ≠ 0) then
    Some (if decide (cur_key_idx k < u64 (key_buff_elements k - 1)) then (with_cur k (key_buff k) (u64 (cur_key_idx k + 1)), true) else (k, false))
  else None.
Definition current (k : Ordered_key) : option Z :=
  if decide (key_buff_elements k ≠ 0 ∧ cur_key_idx k < key_buff_elements k) then key_buff k !! Z.to_nat (cur_key_idx k) else None.
(** The bitmap functions of a build with assertions. *)
Definition set_null (k : Ordered_key) (row_num : Z) : option Ordered_key :=
  m ← bitmap_set_bit true (null_key k) (u32 row_num);
  Some (Key (key_buff k) (key_buff_elements k) (cur_key_idx k) m (null_count k) (min_null_row k) (max_null_row k) (records k)).
Definition is_null (k : Ordered_key) (row_num : Z) : option bool :=
  if decide (null_count k = records k) then (if decide (records k = n_bits (null_key k)) then Some true else None)
  else if decide (max_null_row k < row_num ∨ row_num < min_null_row k) then Some false
  else v ← bitmap_is_set true (null_key k) (u32 row_num); Some (bool_decide (v ≠ 0)).

(** The loops its users write: fill, and go through. *)
Fixpoint fill (k : Ordered_key) (rows : list Z) : option Ordered_key := match rows with [] => Some k | r :: rows => k ← add_key k r; fill k rows end.
Fixpoint scan_from (fuel : nat) (k : Ordered_key) : option (list Z) :=
  match fuel with
  | O => None
  | S fuel => r ← current k; '(k, more) ← next k; if (more : bool) then rs ← scan_from fuel k; Some (r :: rs) else Some [r]
  end.
Definition scan (fuel : nat) (k : Ordered_key) : option (list Z) := k ← first k; scan_from fuel k.
Fixpoint set_nulls (k : Ordered_key) (rows : list Z) : option Ordered_key := match rows with [] => Some k | r :: rows => k ← set_null k r; set_nulls k rows end.

Lemma fill_spec rows : ∀ k pre rest, key_buff k = pre ++ rest → cur_key_idx k = Z.of_nat (length pre) → (length rows ≤ length rest)%nat →
  key_buff_elements k = Z.of_nat (length (key_buff k)) → Z.of_nat (length (key_buff k)) < 2 ^ 64 →
  ∃ k', fill k rows = Some k' ∧ key_buff k' = pre ++ rows ++ drop (length rows) rest ∧ key_buff_elements k' = key_buff_elements k ∧
    cur_key_idx k' = Z.of_nat (length pre + length rows).
Proof.
  induction rows as [|r rows IH]; intros k pre rest Hb Hc Hl He H64; cbn in Hl.
  - exists k. rewrite Nat.add_0_r. split_and!; [done|cbn; by rewrite drop_0|done..].
  - destruct rest as [|x rest]; cbn in Hl; [lia|]. rewrite Hb, length_app in He, H64. cbn in He, H64.
    cbn [fill]. unfold add_key. rewrite decide_True by lia. rewrite Hc, Nat2Z.id, Hb, list_lookup_middle by done. cbn [mbind option_bind].
    assert (Hi : <[length pre := r]> (pre ++ x :: rest) = pre ++ r :: rest) by (rewrite insert_app_r_alt, Nat.sub_diag by lia; done). rewrite Hi.
    assert (Hu : u64 (Z.of_nat (length pre) + 1) = Z.of_nat (length (pre ++ [r]))) by (rewrite length_app; unfold wrapu; rewrite Z.mod_small; cbn; lia).
    rewrite Hu. destruct (IH (with_cur k (pre ++ r :: rest) (Z.of_nat (length (pre ++ [r])))) (pre ++ [r]) rest) as (k' & Hf & Hk & Hek & Hck);
      cbn; rewrite ?length_app; cbn; [by rewrite <- app_assoc|done|lia|lia|lia|].
    rewrite length_app in Hf. exists k'. split_and!; [exact Hf|by rewrite Hk, <- app_assoc|done|]. rewrite Hck, length_app. cbn. lia.
Qed.
Lemma scan_spec fuel : ∀ k pre r rest, key_buff k = pre ++ r :: rest → cur_key_idx k = Z.of_nat (length pre) → (length rest < fuel)%nat →
  key_buff_elements k = Z.of_nat (length (key_buff k)) → Z.of_nat (length (key_buff k)) < 2 ^ 64 → scan_from fuel k = Some (r :: rest).
Proof.
  induction fuel as [|fuel IH]; intros k pre r rest Hb Hc Hf He H64; [lia|]. rewrite Hb, length_app in He, H64. cbn in He, H64.
  cbn [scan_from]. unfold current. rewrite decide_True by lia. rewrite Hc, Nat2Z.id, Hb, list_lookup_middle by done. cbn [mbind option_bind].
  unfold next. rewrite decide_True by lia. rewrite Hc.
  assert (Hu : u64 (key_buff_elements k - 1) = Z.of_nat (length pre + length rest)) by (unfold wrapu; rewrite Z.mod_small; lia). rewrite Hu.
  destruct rest as [|x rest]; cbn in *.
  - by rewrite decide_False by lia.
  - rewrite decide_True by lia. assert (Hn : u64 (Z.of_nat (length pre) + 1) = Z.of_nat (length (pre ++ [r]))) by (rewrite length_app; unfold wrapu; rewrite Z.mod_small; cbn; lia).
    rewrite Hn, (IH _ (pre ++ [r]) x rest); cbn; rewrite ?length_app; cbn; try done; try lia.
    all: rewrite <- ?app_assoc; cbn; rewrite ?Hb; rewrite ?length_app; cbn; try done; lia.
Qed.
Lemma set_null_bit k row : 0 ≤ row < n_bits (null_key k) → n_bits (null_key k) < 2 ^ 32 → n_bits (null_key k) ≤ 8 * Z.of_nat (length (bitmap (null_key k))) →
  ∃ k', set_null k row = Some k' ∧ n_bits (null_key k') = n_bits (null_key k) ∧ length (bitmap (null_key k')) = length (bitmap (null_key k)) ∧
    (null_count k', min_null_row k', max_null_row k', records k') = (null_count k, min_null_row k, max_null_row k, records k) ∧
    ∀ i, 0 ≤ i → byte_bit (bitmap (null_key k')) i = bool_decide (i = row) || byte_bit (bitmap (null_key k)) i.
Proof.
  intros Hr H32 Hn. unfold set_null, bitmap_set_bit. replace (u32 row) with row by (unfold wrapu; rewrite Z.mod_small; lia).
  rewrite bool_decide_eq_true_2 by lia. cbn [andb negb]. unfold _bitmap_set_bit.
  pose proof (Z.mod_pos_bound row 8 ltac:(lia)).
  destruct (update_some (null_key k) row (λ b, b .| (1 ≪ (row .& 7)))) as [m Hm]; [lia|]. rewrite Hm. cbn.
  assert (n_bits m = n_bits (null_key k) ∧ length (bitmap m) = length (bitmap (null_key k))) as [H1 H2].
  { unfold update in Hm. apply bind_Some in Hm as (b & Hb & [= <-]). cbn. by rewrite length_insert. }
  eexists. split; [done|]. cbn. split_and!; [done..|]. intros i Hi.
  rewrite (update_bit (null_key k) row (λ b, b .| (1 ≪ (row .& 7))) (λ _, true) m i ltac:(lia) Hi); [case_decide; case_bool_decide; done| |done].
  intros c j Hj. rewrite land7, Z.lor_spec, shl1_bit by lia. case_decide as E.
  - by rewrite (bool_decide_eq_true_2 _ E), orb_true_r.
  - by rewrite (bool_decide_eq_false_2 _ E), orb_false_r.
Qed.
End OrderedKey.

(** ** Copying a value into a key *)

Module StoreKey.

Inductive store_key_result := STORE_KEY_OK | STORE_KEY_FATAL | STORE_KEY_CONV.
#[global] Instance store_key_result_eq : EqDecision store_key_result.
Proof. solve_decision. Defined.
(** The conversion of a number of the range 0 to 2. *)
Definition as_result (z : Z) : store_key_result := if decide (z = 0) then STORE_KEY_OK else if decide (z = 1) then STORE_KEY_FATAL else STORE_KEY_CONV.
Definition MODE_NO_ZERO_IN_DATE : Z := 1 ≪ 23.
Definition MODE_NO_ZERO_DATE : Z := 1 ≪ 24.
Definition MODE_INVALID_DATES : Z := 1 ≪ 25.
Inductive enum_check_fields := CHECK_FIELD_IGNORE | CHECK_FIELD_EXPRESSION | CHECK_FIELD_WARN | CHECK_FIELD_ERROR_FOR_NULL.

(** The members of the key and of the session, and all else, which the field and the item read and write.  The null flag of the
    field can be [err], so saving into the field can change it. *)
Record state (W : Type) := St { null_key : bool; err : Z; inited : bool; count_cuted_fields : enum_check_fields; sql_mode : Z; world : W }.
Arguments St {_}.
Arguments null_key {_}.
Arguments err {_}.
Arguments inited {_}.
Arguments count_cuted_fields {_}.
Arguments sql_mode {_}.
Arguments world {_}.

Section Keys.
Context {W : Type}.
Notation st := (state W).
Definition with_modes (s : st) (c : enum_check_fields) (m : Z) : st := St (null_key s) (err s) (inited s) c m (world s).
Definition with_null (s : st) (n : bool) : st := St n (err s) (inited s) (count_cuted_fields s) (sql_mode s) (world s).
Definition with_err (s : st) (e : Z) : st := St (null_key s) (u8 e) (inited s) (count_cuted_fields s) (sql_mode s) (world s).
Definition with_inited (s : st) (b : bool) : st := St (null_key s) (err s) b (count_cuted_fields s) (sql_mode s) (world s).

Definition copy (copy_inner : st → st * store_key_result) (s : st) : st * store_key_result :=
  let saved := count_cuted_fields s in
  let orig := sql_mode s in
  let m := sql_mode s .& u64 (Z.lnot (MODE_NO_ZERO_IN_DATE .| MODE_NO_ZERO_DATE)) .| MODE_INVALID_DATES in
  let '(s, result) := copy_inner (with_modes s CHECK_FIELD_IGNORE m) in
  (with_modes s saved orig, result).

(** What the field, the item and the session do.  The column map a build with assertions opens for the time of the copy is not followed. *)
Context (bzero_and_do_copy field_reset save_val : st → st) (save_in_field : st → st * Z) (field_is_null : Z → W → bool)
  (is_error item_null_value : W → bool).
Definition field_copy_inner (s : st) : st * store_key_result :=
  let s := bzero_and_do_copy s in
  let s := with_null s (field_is_null (err s) (world s)) in
  (s, if decide (err s ≠ 0) then STORE_KEY_FATAL else STORE_KEY_OK).
Definition item_copy_inner (use_value : bool) (s : st) : st * store_key_result :=
  let s := field_reset s in
  let '(s, res) := if use_value then (save_val s, 0) else save_in_field s in
  let res := if decide (res = 0 ∧ is_error (world s) = true) then 1 else res in
  let s := with_null s (field_is_null (err s) (world s) || item_null_value (world s)) in
  (s, if decide (err s ≠ 0 ∨ res < 0 ∨ 2 < res) then STORE_KEY_FATAL else as_result res).
Definition const_save (s : st) : st :=
  let s := with_inited s true in
  let '(s, res) := save_in_field s in
  let s := if decide (res ≠ 0 ∧ err s = 0) then with_err s (if decide (res < 0) then 1 else res) else s in
  if decide (err s = 0 ∧ is_error (world s) = true) then with_err s 1 else s.
Definition const_copy_inner (s : st) : st * store_key_result :=
  let s := if inited s then s else const_save s in
  let s := with_null s (field_is_null (err s) (world s) || item_null_value (world s)) in
  (s, if decide (2 < err s) then STORE_KEY_FATAL else as_result (err s)).
End Keys.
End StoreKey.

(** ** Uncacheable selects *)

Module Uncacheable.

(** Selects and units by address; the master of a select is its unit.  [outer_select] is declared only. *)
Record SELECT_LEX := Sel { master_unit : N; s_uncacheable : Z }.
Record LEX := Lex { safe_to_cache_query : bool; current_select : N; unit_ : N; select_lex : N; selects : gmap N SELECT_LEX; units : gmap N Z }.
Section Mark.
Context (outer_select : N → N).
Definition or_select (l : LEX) (s : N) (cause : Z) : option LEX :=
  x ← selects l !! s;
  Some (Lex (safe_to_cache_query l) (current_select l) (unit_ l) (select_lex l) (<[s := Sel (master_unit x) (s_uncacheable x .| cause)]> (selects l)) (units l)).
Definition or_unit (l : LEX) (u : N) (cause : Z) : option LEX :=
  x ← units l !! u;
  Some (Lex (safe_to_cache_query l) (current_select l) (unit_ l) (select_lex l) (selects l) (<[u := x .| cause]> (units l))).
Fixpoint mark_loop (fuel : nat) (l : LEX) (sl : N) (cause : Z) : option LEX :=
  match fuel with
  | O => None
  | S fuel =>
      x ← selects l !! sl;
      let un := master_unit x in
      if decide (un = unit_ l) then Some l
      else l ← or_select l sl cause; l ← or_unit l un cause; mark_loop fuel l (outer_select sl) cause
  end.
Definition uncacheable (fuel : nat) (l : LEX) (cause : Z) : option LEX :=
  let l := Lex false (current_select l) (unit_ l) (select_lex l) (selects l) (units l) in
  if decide (current_select l ≠ 0%N) then l ← mark_loop fuel l (current_select l) cause; or_select l (select_lex l) cause
  else Some l.
(** The selects from one up to the outermost, with their units. *)
Fixpoint path (l : LEX) (sl : N) (p : list (N * N)) : Prop :=
  match p with
  | [] => ∃ x, selects l !! sl = Some x ∧ master_unit x = unit_ l
  | (s, u) :: p => s = sl ∧ (∃ x, selects l !! s = Some x ∧ master_unit x = u) ∧ u ≠ unit_ l ∧ is_Some (units l !! u) ∧ path l (outer_select sl) p
  end.
(** The selects of a statement are a tree: one that is not of the statement's own unit has a unit, which is part of a select less
    deep, the outer select. *)
Definition select_tree (l : LEX) (depth : N → nat) : Prop :=
  ∀ s x, selects l !! s = Some x → master_unit x ≠ unit_ l →
    is_Some (units l !! master_unit x) ∧ is_Some (selects l !! outer_select s) ∧ (depth (outer_select s) < depth s)%nat.
(** One step outwards, from a select of a subquery. *)
Definition inner (l : LEX) (a u : N) : Prop := ∃ x, selects l !! a = Some x ∧ master_unit x = u ∧ u ≠ unit_ l.
Definition outwards (l : LEX) (a b : N) : Prop := (∃ u, inner l a u) ∧ b = outer_select a.
(** What is to be marked: with no current select, nothing; otherwise the selects and the units of subqueries from the current one
    outwards, and the first select of the statement. *)
Definition select_to_mark (l : LEX) (a : N) : Prop :=
  current_select l ≠ 0%N ∧ (a = select_lex l ∨ rtc (outwards l) (current_select l) a ∧ ∃ u, inner l a u).
Definition unit_to_mark (l : LEX) (u : N) : Prop :=
  current_select l ≠ 0%N ∧ ∃ a, rtc (outwards l) (current_select l) a ∧ inner l a u.
End Mark.
(** Marking again with the same cause changes nothing. *)
Definition marked (P : list N) (cause : Z) (a : N) (z : Z) : Z := if decide (a ∈ P) then z .| cause else z.
End Uncacheable.

Section StrategyTheorems.
Import Strategy.

Definition all_strategies : list strategy := [SemiJoin; InToExists; Materialization; RowidMerge; TableScan; MaxMinInjected; MaxMinEngine].
Lemma all_strategies_in s : s ∈ all_strategies.
Proof. apply (bool_decide_unpack _). by destruct s. Qed.
(** A byte without its lowest bit is a flag exactly when it has its bit and no other: 256 bytes and 7 strategies. *)
Definition check_byte (z : Z) : bool :=
  forallb (λ s, Bool.eqb (bool_decide (z .& Z.lnot SUBS_STRATEGY_CHOSEN = flag s)) (forallb (λ s', Bool.eqb (Z.testbit z (bit s')) (bool_decide (s' = s))) all_strategies) &&
                Bool.eqb (bool_decide (z .& flag s ≠ 0)) (Z.testbit z (bit s))) all_strategies &&
  Bool.eqb (bool_decide (z .& SUBS_STRATEGY_CHOSEN ≠ 0)) (Z.testbit z 0) &&
  Bool.eqb (bool_decide (z ≠ 0)) (Z.testbit z 0 || existsb (λ s, Z.testbit z (bit s)) all_strategies).
Lemma check_bytes : forallb check_byte (seqZ 0 256) = true.
Proof. vm_compute. reflexivity. Qed.
Lemma check_ok z : 0 ≤ z < 256 → check_byte z = true.
Proof. intros Hz. pose proof check_bytes as H. rewrite forallb_forall in H. apply H. apply list_elem_of_In, elem_of_seqZ. lia. Qed.
Lemma reads z c : models z c →
  (∀ s, test_strategy z (flag s) = bool_decide (s ∈ among c)) ∧ is_set_strategy z = chosen c ∧
  (∀ s, test_set_strategy z (flag s) = Some true ↔ chosen c = true ∧ ∀ s', s' ∈ among c ↔ s' = s) ∧
  (has_strategy z = false ↔ chosen c = false ∧ among c = []).
Proof.
  intros (Hz & H0 & Hb). pose proof (check_ok z Hz) as H. unfold check_byte in H. rewrite !andb_true_iff, forallb_forall in H.
  destruct H as [[Hs Hc] Hh]. apply eqb_prop in Hc, Hh. split_and!.
  - intros s. specialize (Hs s (proj1 (list_elem_of_In _ _) (all_strategies_in s))). apply andb_true_iff in Hs as [_ Hs%eqb_prop].
    unfold test_strategy. by rewrite Hs, Hb.
  - unfold is_set_strategy. by rewrite Hc.
  - intros s. specialize (Hs s (proj1 (list_elem_of_In _ _) (all_strategies_in s))). apply andb_true_iff in Hs as [Hs%eqb_prop _].
    unfold test_set_strategy. replace (single (flag s)) with true by (by destruct s). rewrite Hs, Hc, H0. split.
    + intros Heq. apply (inj Some) in Heq. apply andb_true_iff in Heq as [Hch Hall]. split; [done|]. intros s'. rewrite forallb_forall in Hall.
      specialize (Hall s' (proj1 (list_elem_of_In _ _) (all_strategies_in s'))). apply eqb_prop in Hall. rewrite Hb in Hall.
      case_bool_decide; case_bool_decide; naive_solver.
    + intros [-> Hall]. f_equal. cbn [andb]. apply forallb_forall. intros s' _. rewrite Hb. apply eqb_true_iff. specialize (Hall s').
      apply bool_decide_ext, Hall.
  - unfold has_strategy, SUBS_NOT_TRANSFORMED. rewrite Hh, H0. rewrite orb_false_iff. split; intros [? Hx]; (split; [done|]).
    + destruct (among c) as [|s l] eqn:El; [done|]. exfalso. assert (existsb (λ s, Z.testbit z (bit s)) all_strategies = true); [|congruence].
      apply existsb_exists. exists s. split; [apply list_elem_of_In, all_strategies_in|]. rewrite Hb. apply bool_decide_eq_true_2. rewrite ?El. left.
    + apply not_true_is_false. intros (s & _ & Hs')%existsb_exists. rewrite Hb, Hx in Hs'. by apply bool_decide_eq_true, not_elem_of_nil in Hs'.
Qed.
Lemma exec_models z c o c' : models z c → spec c o = Some c' → ∃ z', exec z o = Some z' ∧ models z' c'.
Proof.
  intros (Hz & H0 & Hb) Ho. destruct o as [l|l|s]; cbn [exec spec] in *; try (case_decide as El; [done|]); simplify_eq.
  all: try destruct (flags_bits l) as (Hl & Hl0 & Hlb).
  all: assert (Hnz : ∀ l, l ≠ [] → flags l ≠ 0) by (intros [|s0 l0] Hne E; [done|]; destruct (flags_bits (s0 :: l0)) as (_ & _ & Hs0); specialize (Hs0 s0);
    rewrite E, Z.bits_0 in Hs0; symmetry in Hs0; apply bool_decide_eq_false in Hs0; apply Hs0; left).
  - unfold add_strategy. rewrite decide_True.
    2:{ split; [by apply Hnz|]. pose proof (check_ok (flags l) Hl) as H. unfold check_byte in H. rewrite !andb_true_iff in H.
        destruct H as [[_ H%eqb_prop] _]. rewrite Hl0 in H. apply bool_decide_eq_false in H. by apply dec_stable in H. }
    assert (Hu : in_u 8 (z .| flags l)) by (apply (in_u_lor 8 ltac:(lia)); done).
    exists (z .| flags l). split; [f_equal; by apply wrapu_small|]. split; [exact Hu|]. cbn [chosen among]. split; [rewrite Z.lor_spec, H0, Hl0; apply orb_false_r|].
    intros s. rewrite Z.lor_spec, Hb, Hlb. apply eq_bool_prop_intro. rewrite orb_True, !bool_decide_spec, elem_of_app. done.
  - unfold reset_strategy. rewrite decide_True by (by apply Hnz). exists (flags l). split_and!; [done|done..|]. done.
  - exists (1 .| flag s). split; [by destruct s|]. split_and!; cbn [chosen among]; [by destruct s..|]. intros s'.
    rewrite Z.lor_spec. replace (Z.testbit 1 (bit s')) with false by (by destruct s'). cbn [orb].
    replace (Z.testbit (flag s) (bit s')) with (bool_decide (s' = s)) by (by destruct s, s'). apply bool_decide_ext. by rewrite list_elem_of_singleton.
Qed.
(** [C30] The strategy byte of an IN predicate stands for a set of candidates and a mark that the choice is made: every history of adding
    candidates, replacing them and choosing one that gives no empty set passes the assertions, and the tests answer from the set:
    whether a strategy is among the candidates, whether one was chosen, whether exactly this one was, and whether there is any. *)
Theorem strategy_refines z c c' os :
  models z c → run spec c os = Some c' →
  ∃ z', run exec z os = Some z' ∧ models z' c' ∧
    (∀ s, test_strategy z' (flag s) = bool_decide (s ∈ among c')) ∧ is_set_strategy z' = chosen c' ∧
    (∀ s, test_set_strategy z' (flag s) = Some true ↔ chosen c' = true ∧ ∀ s', s' ∈ among c' ↔ s' = s) ∧
    (has_strategy z' = false ↔ chosen c' = false ∧ among c' = []).
Proof.
  revert z c. induction os as [|o os IH]; intros z c Hm; cbn.
  - intros [= <-]. exists z. split; [done|]. split; [done|]. by apply reads.
  - intros (c1 & Ho & Hr)%bind_Some. destruct (exec_models _ _ _ _ Hm Ho) as (z1 & -> & Hm1). cbn. by apply (IH z1 c1).
Qed.
Lemma strategy_refines_witness :
  ∃ z', run exec SUBS_NOT_TRANSFORMED [Add [Materialization; InToExists]; Set_ Materialization; Add [TableScan]] = Some z' ∧ z' = 41 ∧
    is_set_strategy z' = true ∧ ¬ test_set_strategy z' (flag Materialization) = Some true.
Proof.
  destruct (strategy_refines SUBS_NOT_TRANSFORMED (Choice false []) (Choice true [Materialization; TableScan])
    [Add [Materialization; InToExists]; Set_ Materialization; Add [TableScan]]) as (z' & Hr & _ & _ & Hc & Ht & _).
  - split; [unfold SUBS_NOT_TRANSFORMED; lia|]. split; [done|]. intros s. rewrite Z.bits_0. by rewrite bool_decide_eq_false_2 by apply not_elem_of_nil.
  - reflexivity.
  - exists z'. split_and!; [done|by vm_compute in Hr; simplify_eq|done|]. rewrite Ht. intros [_ H]. specialize (H TableScan). cbn in H.
    assert (TableScan = Materialization); [|done]. apply H. right. left.
Defined.
End StrategyTheorems.

Section OrderedKeyTheorems.
Import MyBitmap OrderedKey.

(** Filling a fresh key buffer with as many row numbers as it has elements never leaves the buffer, and going through it from the
    first with [current] and [next] gives every row number once, in the order they were added, and then stops. *)
Theorem ordered_key_scan k rows fuel :
  cur_key_idx k = 0 → key_buff_elements k = Z.of_nat (length (key_buff k)) → Z.of_nat (length (key_buff k)) < 2 ^ 64 →
  length rows = length (key_buff k) → rows ≠ [] → (length rows ≤ fuel)%nat →
  ∃ k', fill k rows = Some k' ∧ key_buff k' = rows ∧ scan fuel k' = Some rows ∧ add_key k' 0 = None.
Proof.
  intros Hc He H64 Hl Hne Hf. destruct (fill_spec rows k [] (key_buff k)) as (k' & Hk & Hb & Hek & Hck); [done|done|lia|done|done|].
  cbn in Hb, Hck. rewrite Hl, drop_all, app_nil_r in Hb. exists k'. split_and!; [done|done| |].
  - unfold scan, first. destruct rows as [|r rows]; [done|]. cbn in Hl, Hf. rewrite decide_True by lia. cbn [mbind option_bind].
    apply (scan_spec fuel _ [] r rows); cbn; rewrite ?Hb; cbn; lia || done.
  - unfold add_key. by rewrite decide_False by lia.
Qed.
Definition three : Ordered_key := Key [0; 0; 0] 3 0 (Map [0; 0; 0; 0] 0 0 3) 0 0 0 3.
Lemma ordered_key_scan_witness : ∃ k', fill three [7; 2; 5] = Some k' ∧ scan 3 k' = Some [7; 2; 5] ∧ add_key k' 0 = None.
Proof. destruct (ordered_key_scan three [7; 2; 5] 3) as (k' & ? & _ & ? & ?); [done|done|done|done|done|cbn; lia|]. by exists k'. Defined.

Lemma set_nulls_spec rows : ∀ k, Forall (λ r, 0 ≤ r < n_bits (null_key k)) rows → n_bits (null_key k) < 2 ^ 32 →
  n_bits (null_key k) ≤ 8 * Z.of_nat (length (bitmap (null_key k))) →
  ∃ k', set_nulls k rows = Some k' ∧ n_bits (null_key k') = n_bits (null_key k) ∧
    (null_count k', min_null_row k', max_null_row k', records k') = (null_count k, min_null_row k, max_null_row k, records k) ∧
    (n_bits (null_key k') ≤ 8 * Z.of_nat (length (bitmap (null_key k')))) ∧
    ∀ i, 0 ≤ i → byte_bit (bitmap (null_key k')) i = bool_decide (i ∈ rows) || byte_bit (bitmap (null_key k)) i.
Proof.
  induction rows as [|r rows IH]; intros k Hr H32 Hn.
  - exists k. split_and!; [done..|]. intros i _. by rewrite bool_decide_eq_false_2 by apply not_elem_of_nil.
  - apply Forall_cons in Hr as [Hr Hrs]. destruct (set_null_bit k r Hr H32 Hn) as (k1 & H1 & Hb1 & Hl1 & Hs1 & Hi1).
    destruct (IH k1) as (k2 & H2 & Hb2 & Hs2 & Hl2 & Hi2); [by rewrite Hb1|lia|lia|].
    exists k2. cbn [set_nulls]. rewrite H1. cbn [mbind option_bind]. split_and!; [done|congruence|congruence|done|].
    intros i Hi. rewrite Hi2, Hi1 by done. rewrite orb_assoc. f_equal. apply eq_bool_prop_intro.
    rewrite orb_True, !bool_decide_spec, elem_of_cons. tauto.
Qed.
(** When the rows with a NULL were marked in an empty map, the count is theirs and the bounds enclose them, [is_null] answers for every
    row whether it was marked; in a key of NULLs only it answers yes without the map. *)
Theorem ordered_key_nulls k rows row :
  Forall (λ r, 0 ≤ r < n_bits (null_key k) ∧ min_null_row k ≤ r ≤ max_null_row k) rows → n_bits (null_key k) < 2 ^ 32 →
  n_bits (null_key k) ≤ 8 * Z.of_nat (length (bitmap (null_key k))) → (∀ i, 0 ≤ i → byte_bit (bitmap (null_key k)) i = false) →
  records k = n_bits (null_key k) → 0 ≤ row < records k →
  (null_count k = records k ↔ ∀ r, 0 ≤ r < records k → r ∈ rows) →
  ∃ k', set_nulls k rows = Some k' ∧ is_null k' row = Some (bool_decide (row ∈ rows)).
Proof.
  intros Hr H32 Hn Hz Hrec Hrow Hc. destruct (set_nulls_spec rows k) as (k' & Hk & Hb & Hs & Hl & Hi); [|done|done|].
  { eapply Forall_impl; [exact Hr|]. cbn. tauto. }
  exists k'. split; [done|]. injection Hs as Hs1 Hs2 Hs3 Hs4. unfold is_null. rewrite Hs1, Hs2, Hs3, Hs4, Hb.
  destruct (decide (null_count k = records k)) as [E|E].
  { rewrite decide_True by done. by rewrite bool_decide_eq_true_2 by (apply (proj1 Hc E); lia). }
  case_decide as Ho.
  { rewrite bool_decide_eq_false_2; [done|]. intros Hin. rewrite Forall_forall in Hr. specialize (Hr row Hin). cbn in Hr. lia. }
  unfold bitmap_is_set. replace (u32 row) with row by (unfold wrapu; rewrite Z.mod_small; lia).
  rewrite bool_decide_eq_true_2 by lia. cbn [andb negb]. pose proof (is_set_bit (null_key k') row ltac:(lia)) as Hb'.
  rewrite (Hi row), (Hz row), orb_false_r in Hb' by lia. unfold _bitmap_is_set in *.
  destruct (lookup_lt_is_Some_2 (bitmap (null_key k')) (Z.to_nat (row / 8))) as [b Hbyte].
  { apply Nat2Z.inj_lt. rewrite Z2Nat.id by (apply Z.div_pos; lia). apply Z.div_lt_upper_bound; lia. }
  rewrite Hbyte in *. cbn [mbind option_bind] in *. f_equal. apply eq_bool_prop_intro. rewrite bool_decide_spec.
  rewrite <- Is_true_true in Hb'. rewrite <- Hb'. naive_solver.
Qed.
Lemma ordered_key_nulls_witness :
  ∃ k', set_nulls (Key [] 0 0 (Map [0; 0; 0; 0] 0 0 12) 2 3 9 12) [9; 3] = Some k' ∧ is_null k' 9 = Some true.
Proof.
  destruct (ordered_key_nulls (Key [] 0 0 (Map [0; 0; 0; 0] 0 0 12) 2 3 9 12) [9; 3] 9) as (k' & ? & Hn); cbn.
  - repeat constructor; lia.
  - lia.
  - lia.
  - intros i Hi. unfold byte_bit. destruct (_ !! _) as [b|] eqn:Eb; [|done].
    assert (b = 0) as -> by (apply list_elem_of_lookup_2 in Eb; set_solver). apply Z.bits_0.
  - done.
  - lia.
  - split; [done|]. intros H. specialize (H 0 ltac:(lia)). set_solver.
  - exists k'. split; [done|]. rewrite Hn. f_equal.
Defined.
End OrderedKeyTheorems.

Section StoreKeyTheorems.
Import StoreKey.
Context {W : Type}.
Notation st := (state W).

(** Whatever copying does, [store_key::copy] gives the session back its own mode and its own way of counting cut fields, and the copying
    runs with truncation ignored, invalid dates allowed and the two zero-date modes off, every other mode bit as it was. *)
Theorem store_key_modes (copy_inner : st → st * store_key_result) s s' r :
  copy copy_inner s = (s', r) →
  (count_cuted_fields s', sql_mode s') = (count_cuted_fields s, sql_mode s) ∧
  ∃ s1 s2, copy_inner s1 = (s2, r) ∧ count_cuted_fields s1 = CHECK_FIELD_IGNORE ∧ world s1 = world s ∧ world s2 = world s' ∧
    ∀ i, 0 ≤ i < 64 → Z.testbit (sql_mode s1) i =
      if decide (i = 25) then true else if decide (i = 23 ∨ i = 24) then false else Z.testbit (sql_mode s) i.
Proof.
  unfold copy. set (s1 := with_modes s _ _). destruct (copy_inner s1) as [s2 r'] eqn:E. intros [= <- <-]. split; [done|].
  exists s1, s2. split_and!; [done..|]. intros i Hi. subst s1. cbn [sql_mode with_modes]. unfold wrapu.
  rewrite Z.lor_spec, Z.land_spec, Z.mod_pow2_bits_low, Z.lnot_spec, Z.lor_spec by lia.
  unfold MODE_INVALID_DATES, MODE_NO_ZERO_IN_DATE, MODE_NO_ZERO_DATE. rewrite !shl1_bit by lia.
  repeat case_decide; repeat case_bool_decide; try lia; cbn; by rewrite ?andb_true_r, ?andb_false_r, ?orb_true_r, ?orb_false_r.
Qed.

Section Consts.
Context (save_in_field : st → st * Z) (field_is_null : Z → W → bool) (is_error item_null_value : W → bool).
Notation const_copy := (copy (const_copy_inner save_in_field field_is_null is_error item_null_value)).
(** A constant key is evaluated by the first copy only: where saving keeps the flag that says so, every later copy leaves all but
    the null mark alone and gives the result the first one gave. *)
Theorem const_key_once s s1 r1 :
  (∀ s, inited (fst (save_in_field s)) = inited s) → const_copy s = (s1, r1) → const_copy s1 = (s1, r1).
Proof.
  intros Hkeep. unfold copy. set (s0 := with_modes s _ _). unfold const_copy_inner.
  assert (Hi : inited (if inited s0 then s0 else const_save save_in_field is_error s0) = true).
  { destruct (inited s0) eqn:E; [done|]. unfold const_save. specialize (Hkeep (with_inited s0 true)).
    destruct (save_in_field (with_inited s0 true)) as [s' res]. cbn in Hkeep.
    repeat case_decide; cbn; done. }
  destruct (if inited s0 then s0 else _) as [n e i c m w]. cbn in Hi. subst i. cbn. by intros [= <- <-].
Qed.
End Consts.
End StoreKeyTheorems.

Section UncacheableTheorems.
Import Uncacheable.
Context (outer_select : N → N).

Lemma path_ext l l' p : ∀ sl, (∀ a, master_unit <$> selects l' !! a = master_unit <$> selects l !! a) → unit_ l' = unit_ l →
  (∀ u, is_Some (units l !! u) → is_Some (units l' !! u)) → path outer_select l sl p → path outer_select l' sl p.
Proof.
  intros sl Hs Hu Hun. assert (Hsel : ∀ a u, (∃ x, selects l !! a = Some x ∧ master_unit x = u) → ∃ x, selects l' !! a = Some x ∧ master_unit x = u).
  { intros a u (x & Hx & <-). specialize (Hs a). rewrite Hx in Hs. apply fmap_Some in Hs as (y & Hy & ->). eauto. }
  revert sl. induction p as [|[s u] p IH]; intros sl; cbn; rewrite Hu; naive_solver.
Qed.
Lemma marked_cons s P cause a z : marked (s :: P) cause a z = marked P cause a (if decide (a = s) then z .| cause else z).
Proof.
  unfold marked. repeat case_decide; try done; try set_solver. by rewrite <- Z.lor_assoc, Z.lor_diag.
Qed.
Lemma mark_loop_spec cause p : ∀ l sl fuel, path outer_select l sl p → (length p < fuel)%nat →
  ∃ l', mark_loop outer_select fuel l sl cause = Some l' ∧
    (safe_to_cache_query l', current_select l', unit_ l', select_lex l') = (safe_to_cache_query l, current_select l, unit_ l, select_lex l) ∧
    (∀ a, selects l' !! a = (λ x, Sel (master_unit x) (marked p.*1 cause a (s_uncacheable x))) <$> selects l !! a) ∧
    (∀ u, units l' !! u = marked p.*2 cause u <$> units l !! u).
Proof.
  induction p as [|[s u] p IH]; intros l sl fuel Hp Hf; (destruct fuel as [|fuel]; [cbn in Hf; lia|]); cbn [mark_loop].
  - destruct Hp as (x & -> & Hx). cbn. rewrite decide_True by done. exists l. split_and!; [done..| |].
    + intros a. by destruct (selects l !! a) as [[]|].
    + intros a. by destruct (units l !! a).
  - cbn in Hp. destruct Hp as (-> & (x & Hx & Hu) & Hne & (y & Hy) & Hp). rewrite Hx. cbn [mbind option_bind]. rewrite decide_False by congruence.
    unfold or_select. rewrite Hx. cbn [mbind option_bind]. unfold or_unit. cbn [units]. rewrite Hu, Hy. cbn [mbind option_bind].
    set (l1 := Lex _ _ _ _ _ _). destruct (IH l1 (outer_select sl) fuel) as (l' & -> & Hs & Hsel & Hun); [|cbn in Hf; lia|].
    { apply (path_ext l l1); [|done| |done].
      - intros a. cbn. destruct (decide (a = sl)) as [->|]; [rewrite lookup_insert_eq, Hx; cbn; by rewrite Hu|by rewrite lookup_insert_ne].
      - intros a Ha. cbn. destruct (decide (a = u)) as [->|]; [by rewrite lookup_insert_eq|by rewrite lookup_insert_ne]. }
    exists l'. split_and!; [done|done| |].
    + intros a. rewrite Hsel. cbn. destruct (decide (a = sl)) as [->|Ha].
      * rewrite lookup_insert_eq, Hx. cbn. rewrite marked_cons, decide_True by done. by rewrite ?Hu.
      * rewrite lookup_insert_ne by done. destruct (selects l !! a); cbn; [|done]. by rewrite marked_cons, decide_False.
    + intros a. rewrite Hun. cbn. destruct (decide (a = u)) as [->|Ha].
      * rewrite lookup_insert_eq, Hy. cbn. by rewrite marked_cons, decide_True.
      * rewrite lookup_insert_ne by done. destruct (units l !! a); cbn; [|done]. by rewrite marked_cons, decide_False.
Qed.
(** In a tree every select has its path to the outermost, no longer than it is deep. *)
Lemma path_exists l depth : select_tree outer_select l depth → ∀ sl, is_Some (selects l !! sl) →
  ∃ p, path outer_select l sl p ∧ (length p ≤ depth sl)%nat.
Proof.
  intros Ht sl. remember (depth sl) as n eqn:En. revert sl En.
  induction (lt_wf n) as [n _ IH]; intros sl -> [x Hx]. destruct (decide (master_unit x = unit_ l)) as [E|E].
  { exists []. split; [by exists x|cbn; lia]. }
  destruct (Ht sl x Hx E) as (Hu & Ho & Hd). destruct (IH _ Hd _ eq_refl Ho) as (p & Hp & Hlen).
  exists ((sl, master_unit x) :: p). split; [|cbn; lia]. cbn. split_and!; [done|by exists x|done..].
Qed.
(** The members of the path are the subqueries met on the way outwards. *)
Lemma path_members l p : ∀ sl a u, path outer_select l sl p → (a, u) ∈ p ↔ rtc (outwards outer_select l) sl a ∧ inner l a u.
Proof.
  induction p as [|[s v] p IH]; intros sl a u Hp.
  - destruct Hp as (x & Hx & Hu). split; [by intros ?%not_elem_of_nil|]. intros [Hr Hi].
    destruct Hr as [sl|sl b a [(w & y & Hy & <- & Hne) _] _]; [destruct Hi as (y & Hy & <- & Hne)|]; congruence.
  - cbn in Hp. destruct Hp as (-> & (x & Hx & <-) & Hne & _ & Hp). rewrite elem_of_cons, (IH _ _ _ Hp).
    assert (outwards outer_select l sl (outer_select sl)) as Hstep by (split; [exists (master_unit x), x|]; done).
    split; [intros [[= -> ->]|[Hr Hi]]|intros [Hr Hi]].
    + split; [done|by exists x].
    + split; [by eapply rtc_l|done].
    + destruct Hr as [sl|sl b a [_ ->] Hr]; [left|by right]. destruct Hi as (y & Hy & <- & _). congruence.
Qed.
Lemma path_selects l p sl a : path outer_select l sl p → a ∈ p.*1 ↔ rtc (outwards outer_select l) sl a ∧ ∃ u, inner l a u.
Proof.
  intros Hp. rewrite list_elem_of_fmap. split.
  - intros ([b u] & -> & [Hr Hi]%(path_members l p sl _ _ Hp)). eauto.
  - intros [Hr [u Hi]]. exists (a, u). split; [done|]. by apply (path_members l p sl).
Qed.
Lemma path_units l p sl u : path outer_select l sl p → u ∈ p.*2 ↔ ∃ a, rtc (outwards outer_select l) sl a ∧ inner l a u.
Proof.
  intros Hp. rewrite list_elem_of_fmap. split.
  - intros ([a v] & -> & [Hr Hi]%(path_members l p sl _ _ Hp)). eauto.
  - intros [a [Hr Hi]]. exists (a, u). split; [done|]. by apply (path_members l p sl).
Qed.
Lemma marked_in P cause a z : a ∈ P → marked P cause a z = z .| cause.
Proof. intros. by apply decide_True. Qed.
Lemma marked_not_in P cause a z : a ∉ P → marked P cause a z = z.
Proof. intros. by apply decide_False. Qed.

(** With a current select and its path, what the function marks. *)
Lemma uncacheable_path l p cause fuel :
  current_select l ≠ 0%N → path outer_select l (current_select l) p → (length p < fuel)%nat → is_Some (selects l !! select_lex l) →
  ∃ l', uncacheable outer_select fuel l cause = Some l' ∧
    (safe_to_cache_query l', current_select l', unit_ l', select_lex l') = (false, current_select l, unit_ l, select_lex l) ∧
    (∀ a, selects l' !! a = (λ x, Sel (master_unit x) (marked (p.*1 ++ [select_lex l]) cause a (s_uncacheable x))) <$> selects l !! a) ∧
    (∀ u, units l' !! u = marked p.*2 cause u <$> units l !! u).
Proof.
  intros Hc Hp Hf [x Hx]. unfold uncacheable. set (l0 := Lex false _ _ _ _ _). rewrite decide_True by done.
  destruct (mark_loop_spec cause p l0 (current_select l) fuel) as (l1 & H1 & Hs & Hsel & Hun); [by apply (path_ext l)|done|].
  change (current_select l0) with (current_select l). rewrite H1. cbn [mbind option_bind]. injection Hs as Hsafe Hcur Huni Hlex.
  unfold or_select. rewrite Hlex. change (select_lex l0) with (select_lex l). change (selects l0) with (selects l) in Hsel. rewrite Hsel, Hx.
  cbn [mbind option_bind fmap option_fmap option_map]. eexists. split_and!; [done|cbn; by rewrite Hsafe, Hcur, Huni| |done].
  intros a. cbn. destruct (decide (a = select_lex l)) as [->|Ha].
  - rewrite lookup_insert_eq, Hx. cbn. do 2 f_equal. unfold marked. rewrite (decide_True (P := select_lex l ∈ _ ++ _)) by set_solver.
    case_decide; [|done]. by rewrite <- Z.lor_assoc, Z.lor_diag.
  - rewrite lookup_insert_ne by done. rewrite Hsel. cbn. destruct (selects l !! a); cbn; [|done]. do 2 f_equal. unfold marked.
    repeat case_decide; try done; exfalso; set_solver.
Qed.

End UncacheableTheorems.

(** Two subqueries, one inside of the other: unit 100 is the statement's. *)
Definition nested : Uncacheable.LEX :=
  Uncacheable.Lex true 3%N 100%N 1%N (<[1%N := Uncacheable.Sel 100%N 0]> (<[2%N := Uncacheable.Sel 101%N 4]> (<[3%N := Uncacheable.Sel 102%N 0]> ∅)))
    (<[100%N := 0]> (<[101%N := 0]> (<[102%N := 0]> ∅))).
Lemma nested_tree : Uncacheable.select_tree N.pred nested N.to_nat.
Proof.
  intros s x Hs Hne. cbn in Hs. rewrite !lookup_insert_Some, lookup_empty in Hs.
  destruct Hs as [[<- <-]|[_ [[<- <-]|[_ [[<- <-]|[_ ?]]]]]]; [done| | |done];
    (split; [eexists; vm_compute; reflexivity|]); (split; [eexists; vm_compute; reflexivity|]); cbn; lia.
Qed.
