(* ===== verification/Streams.v ===== *)
(** * Buffered files, the end of the binary log, auto-increment of partitions

    From my_sys.h: reading and writing through an [IO_CACHE].  From log.h: the end position of the binary log and its
    signals.  From rpl_injector.h: the order of calls of an injected transaction.  From ha_partition.h: the auto-increment counter
    that the partitions of a table share.  From sql_class.h: finding a prepared statement, and waiting on a condition. *)

From Stdlib Require Import ZArith NArith Lia.
From stdpp Require Import base numbers option list gmap fin_maps.
From S2P Require Import Prelude.
Open Scope Z_scope.
Open Scope cint_scope.

(** ** Buffered files *)

Module IoCache.

Inductive cache_type := TYPE_NOT_SET | READ_CACHE | WRITE_CACHE | SEQ_READ_APPEND | READ_FIFO | READ_NET.
#[global] Instance cache_type_eq : EqDecision cache_type.
Proof. solve_decision. Defined.
Definition my_b_EOF : Z := - 2 ^ 31.
(** The read and the write buffer hold bytes; the pointers are offsets into them, [request_pos] into the write buffer of a write cache and
    else into the read buffer. *)
Record IO_CACHE := Cache {
  pos_in_file : Z; buffer : option (list Z); read_pos : nat; read_end : nat; request_pos : nat;
  write_buffer : list Z; write_pos : nat; write_end : nat; type_ : cache_type
}.
Definition with_buffer (c : IO_CACHE) (b : option (list Z)) : IO_CACHE :=
  Cache (pos_in_file c) b (read_pos c) (read_end c) (request_pos c) (write_buffer c) (write_pos c) (write_end c) (type_ c).
Definition with_read (c : IO_CACHE) (p : nat) : IO_CACHE :=
  Cache (pos_in_file c) (buffer c) p (read_end c) (request_pos c) (write_buffer c) (write_pos c) (write_end c) (type_ c).
Definition with_write (c : IO_CACHE) (b : list Z) (p : nat) : IO_CACHE :=
  Cache (pos_in_file c) (buffer c) (read_pos c) (read_end c) (request_pos c) b p (write_end c) (type_ c).
(** [memcpy] from and into a buffer: without a result where it would leave it. *)
Definition load (b : list Z) (i n : nat) : option (list Z) := if decide (i + n ≤ length b)%nat then Some (take n (drop i b)) else None.
Definition store (b : list Z) (i : nat) (l : list Z) : option (list Z) :=
  if decide (i + length l ≤ length b)%nat then Some (take i b ++ l ++ drop (i + length l) b) else None.

Definition my_b_clear (c : IO_CACHE) : IO_CACHE := with_buffer c None.
Definition my_b_inited (c : IO_CACHE) : bool := match buffer c with Some _ => true | None => false end.
Definition my_b_tell (c : IO_CACHE) : Z :=
  if decide (type_ c = WRITE_CACHE) then u64 (pos_in_file c + u64 (Z.of_nat (write_pos c) - Z.of_nat (request_pos c)))
  else u64 (pos_in_file c + u64 (Z.of_nat (read_pos c) - Z.of_nat (request_pos c))).
Definition my_b_write_tell (c : IO_CACHE) : Z := u64 (pos_in_file c + Z.of_nat (write_pos c)).
Definition my_b_get_buffer_start (c : IO_CACHE) : nat := request_pos c.
Definition my_b_get_bytes_in_buffer (c : IO_CACHE) : Z := u64 (Z.of_nat (read_end c) - Z.of_nat (request_pos c)).
Definition my_b_get_pos_in_file (c : IO_CACHE) : Z := pos_in_file c.
Definition my_b_bytes_in_cache (c : IO_CACHE) : Z :=
  if decide (type_ c = WRITE_CACHE) then u64 (Z.of_nat (write_end c) - Z.of_nat (write_pos c)) else u64 (Z.of_nat (read_end c) - Z.of_nat (read_pos c)).

Section Calls.
(** What is behind the buffers is [W]; the functions of mysys that fill and flush them are parameters. *)
Context {W : Type} (_my_b_read : IO_CACHE → W → nat → IO_CACHE * W * (Z * list Z)) (_my_b_get : IO_CACHE → W → IO_CACHE * W * Z)
  (_my_b_write : IO_CACHE → W → list Z → IO_CACHE * W * Z) (my_b_flush_io_cache : IO_CACHE → W → IO_CACHE * W * Z).
Definition bytes (c : IO_CACHE) : list Z := match buffer c with Some b => b | None => [] end.
Definition my_b_read (c : IO_CACHE) (w : W) (Count : nat) : option (IO_CACHE * W * (Z * list Z)) :=
  if decide (read_pos c + Count ≤ read_end c)%nat then
    l ← load (bytes c) (read_pos c) Count; Some (with_read c (read_pos c + Count), w, (0, l))
  else Some (_my_b_read c w Count).
Definition my_b_write (c : IO_CACHE) (w : W) (Buffer : list Z) : option (IO_CACHE * W * Z) :=
  if decide (write_pos c + length Buffer ≤ write_end c)%nat then
    b ← store (write_buffer c) (write_pos c) Buffer; Some (with_write c b (write_pos c + length Buffer), w, 0)
  else Some (_my_b_write c w Buffer).
Definition my_b_get (c : IO_CACHE) (w : W) : option (IO_CACHE * W * Z) :=
  if decide (read_pos c ≠ read_end c) then x ← bytes c !! read_pos c; Some (with_read c (S (read_pos c)), w, x) else Some (_my_b_get c w).
Definition put_byte (c : IO_CACHE) (w : W) (chr : Z) : option (IO_CACHE * W * Z) :=
  b ← store (write_buffer c) (write_pos c) [chr]; Some (with_write c b (S (write_pos c)), w, 0).
Definition my_b_write_byte (c : IO_CACHE) (w : W) (chr : Z) : option (IO_CACHE * W * Z) :=
  if decide (write_end c ≤ write_pos c)%nat then
    let '(c, w, e) := my_b_flush_io_cache c w in if decide (e ≠ 0) then Some (c, w, 1) else put_byte c w chr
  else put_byte c w chr.
Definition my_b_fill (c : IO_CACHE) (w : W) : IO_CACHE * W * Z :=
  let '(c, w, (e, _)) := _my_b_read (with_read c (read_end c)) w 0 in
  (c, w, if decide (e ≠ 0) then 0 else u64 (Z.of_nat (read_end c) - Z.of_nat (read_pos c))).

(** *** What the caches stand for

    A cache that is read stands for the bytes still to come: those between the two read pointers, and those behind the buffer. *)
Context (behind written_out : W → list Z).
Definition reads (c : IO_CACHE) (w : W) (rest : list Z) : Prop :=
  (read_pos c ≤ read_end c ≤ length (bytes c))%nat ∧ rest = take (read_end c - read_pos c) (drop (read_pos c) (bytes c)) ++ behind w.
(** A cache that is written stands for the bytes written: those in the file, and those before the write pointer; all of its buffer but
    what was written is free. *)
Definition writes (c : IO_CACHE) (w : W) (done : list Z) : Prop :=
  (write_pos c ≤ write_end c ≤ length (write_buffer c))%nat ∧ done = written_out w ++ take (write_pos c) (write_buffer c) ∧
  type_ c = WRITE_CACHE ∧ request_pos c = O ∧ pos_in_file c = Z.of_nat (length (written_out w)).

Inductive rop := Read (n : nat) | Get.
Inductive wop := Write (l : list Z) | WriteByte (x : Z).
Definition rexec (c : IO_CACHE) (w : W) (o : rop) : option (IO_CACHE * W * (Z * list Z)) :=
  match o with Read n => my_b_read c w n | Get => '(c, w, x) ← my_b_get c w; Some (c, w, (x, [])) end.
Definition wexec (c : IO_CACHE) (w : W) (o : wop) : option (IO_CACHE * W * Z) :=
  match o with Write l => my_b_write c w l | WriteByte x => my_b_write_byte c w x end.
Fixpoint rrun (c : IO_CACHE) (w : W) (os : list rop) : option (IO_CACHE * W * list (Z * list Z)) :=
  match os with [] => Some (c, w, []) | o :: os => '(c, w, r) ← rexec c w o; '(c, w, rs) ← rrun c w os; Some (c, w, r :: rs) end.
(** A writer stops at the first error. *)
Fixpoint wrun (c : IO_CACHE) (w : W) (os : list wop) : option (IO_CACHE * W * bool) :=
  match os with
  | [] => Some (c, w, true)
  | o :: os => '(c, w, e) ← wexec c w o; if decide (e = 0) then wrun c w os else Some (c, w, false)
  end.
(** On a sequence of bytes, as long as it lasts. *)
Fixpoint rspec (rest : list Z) (os : list rop) : option (list Z * list (Z * list Z)) :=
  match os with
  | [] => Some (rest, [])
  | Read n :: os => if decide (n ≤ length rest)%nat then '(r, rs) ← rspec (drop n rest) os; Some (r, (0, take n rest) :: rs) else None
  | Get :: os => match rest with x :: rest => '(r, rs) ← rspec rest os; Some (r, (x, []) :: rs) | [] => '(r, rs) ← rspec [] os; Some (r, (my_b_EOF, []) :: rs) end
  end.
Definition wbytes (o : wop) : list Z := match o with Write l => l | WriteByte x => [x] end.
End Calls.
End IoCache.

(** ** The end of the binary log *)

Module BinlogEnd.

Definition FN_REFLEN : nat := 512.
(** The two mutexes by whether this thread holds them, and the broadcasts it has made.  Where an assertion fails, a mutex that is
    held is locked again, or a name does not fit, there is no result. *)
Record MYSQL_BIN_LOG := Log {
  is_relay_log : bool; relay_signal_cnt : Z; bytes_written : Z; binlog_end_pos : Z; binlog_end_pos_file : list Z;
  LOCK_log : bool; LOCK_binlog_end_pos : bool; relay_broadcasts : nat; bin_broadcasts : nat
}.
Definition with_lock (l : MYSQL_BIN_LOG) (b : bool) : MYSQL_BIN_LOG :=
  Log (is_relay_log l) (relay_signal_cnt l) (bytes_written l) (binlog_end_pos l) (binlog_end_pos_file l) (LOCK_log l) b (relay_broadcasts l) (bin_broadcasts l).
Definition with_pos (l : MYSQL_BIN_LOG) (p : Z) (f : list Z) : MYSQL_BIN_LOG :=
  Log (is_relay_log l) (relay_signal_cnt l) (bytes_written l) p f (LOCK_log l) (LOCK_binlog_end_pos l) (relay_broadcasts l) (bin_broadcasts l).
Definition with_bytes (l : MYSQL_BIN_LOG) (n : Z) : MYSQL_BIN_LOG :=
  Log (is_relay_log l) (relay_signal_cnt l) n (binlog_end_pos l) (binlog_end_pos_file l) (LOCK_log l) (LOCK_binlog_end_pos l) (relay_broadcasts l) (bin_broadcasts l).
Definition lock_binlog_end_pos (l : MYSQL_BIN_LOG) : option MYSQL_BIN_LOG := if LOCK_binlog_end_pos l then None else Some (with_lock l true).
Definition unlock_binlog_end_pos (l : MYSQL_BIN_LOG) : option MYSQL_BIN_LOG := if LOCK_binlog_end_pos l then Some (with_lock l false) else None.
Definition reset_bytes_written (l : MYSQL_BIN_LOG) : MYSQL_BIN_LOG := with_bytes l 0.
Definition harvest_bytes_written (l : MYSQL_BIN_LOG) (counter : Z) : MYSQL_BIN_LOG * Z := (with_bytes l 0, u64 (counter + bytes_written l)).
(** [lw] is the width of [ulong]. *)
Definition signal_relay_log_update (lw : Z) (l : MYSQL_BIN_LOG) : option MYSQL_BIN_LOG :=
  if LOCK_log l && is_relay_log l then
    Some (Log (is_relay_log l) (wrapu lw (relay_signal_cnt l + 1)) (bytes_written l) (binlog_end_pos l) (binlog_end_pos_file l) (LOCK_log l)
            (LOCK_binlog_end_pos l) (S (relay_broadcasts l)) (bin_broadcasts l))
  else None.
Definition signal_bin_log_update (l : MYSQL_BIN_LOG) : option MYSQL_BIN_LOG :=
  if LOCK_binlog_end_pos l && negb (is_relay_log l) then
    Some (Log (is_relay_log l) (relay_signal_cnt l) (bytes_written l) (binlog_end_pos l) (binlog_end_pos_file l) (LOCK_log l)
            (LOCK_binlog_end_pos l) (relay_broadcasts l) (S (bin_broadcasts l)))
  else None.
(** [tell] is what [my_b_safe_tell] returns for the file of the log. *)
Definition update_binlog_end_pos (lw tell : Z) (l : MYSQL_BIN_LOG) : option MYSQL_BIN_LOG :=
  if is_relay_log l then signal_relay_log_update lw l
  else
    l ← lock_binlog_end_pos l;
    l ← signal_bin_log_update (with_pos l tell (binlog_end_pos_file l));
    unlock_binlog_end_pos l.
Definition update_binlog_end_pos_to (pos : Z) (l : MYSQL_BIN_LOG) : option MYSQL_BIN_LOG :=
  if LOCK_log l && negb (LOCK_binlog_end_pos l) then
    l ← lock_binlog_end_pos l;
    if decide (binlog_end_pos l ≤ pos) then
      l ← signal_bin_log_update (with_pos l pos (binlog_end_pos_file l));
      unlock_binlog_end_pos l
    else None
  else None.
Definition reset_binlog_end_pos (file_name : list Z) (pos : Z) (l : MYSQL_BIN_LOG) : option MYSQL_BIN_LOG :=
  if LOCK_log l && negb (LOCK_binlog_end_pos l) then
    l ← lock_binlog_end_pos l;
    if decide (length file_name < FN_REFLEN)%nat then
      l ← signal_bin_log_update (with_pos l pos file_name);
      unlock_binlog_end_pos l
    else None
  else None.
Definition get_binlog_end_pos (l : MYSQL_BIN_LOG) : option (list Z * Z) :=
  if negb (LOCK_log l) && LOCK_binlog_end_pos l then Some (binlog_end_pos_file l, binlog_end_pos l) else None.

(** A writer moves the end or opens another file; a reader sees one place. *)
Inductive op := Tell (t : Z) | Update (pos : Z) | Reset (file : list Z) (pos : Z).
Definition exec (lw : Z) (l : MYSQL_BIN_LOG) (o : op) : option MYSQL_BIN_LOG :=
  match o with Tell t => update_binlog_end_pos lw t l | Update p => update_binlog_end_pos_to p l | Reset f p => reset_binlog_end_pos f p l end.
Fixpoint run (lw : Z) (l : MYSQL_BIN_LOG) (os : list op) : option MYSQL_BIN_LOG := match os with [] => Some l | o :: os => l ← exec lw l o; run lw l os end.
Fixpoint spec (p : list Z * Z) (os : list op) : option (list Z * Z) :=
  match os with
  | [] => Some p
  | Tell t :: os => spec (p.1, t) os
  | Update t :: os => if decide (p.2 ≤ t) then spec (p.1, t) os else None
  | Reset f t :: os => if decide (length f < FN_REFLEN)%nat then spec (f, t) os else None
  end.
(** The reader takes the mutex, with the other one given back. *)
Definition read_end (l : MYSQL_BIN_LOG) : option (list Z * Z) :=
  l ← lock_binlog_end_pos (Log (is_relay_log l) (relay_signal_cnt l) (bytes_written l) (binlog_end_pos l) (binlog_end_pos_file l) false
        (LOCK_binlog_end_pos l) (relay_broadcasts l) (bin_broadcasts l));
  get_binlog_end_pos l.
End BinlogEnd.

(** ** Injected transactions *)

Module Injector.

Inductive enum_state := START_STATE | TABLE_STATE | ROW_STATE | STATE_COUNT.
#[global] Instance enum_state_eq : EqDecision enum_state.
Proof. solve_decision. Defined.
Definition num (s : enum_state) : Z := match s with START_STATE => 0 | TABLE_STATE => 1 | ROW_STATE => 2 | STATE_COUNT => 3 end.
Definition check_state (m_state target_state : enum_state) : enum_state * Z :=
  let m := if decide (num m_state ≤ num target_state ≤ num m_state + 1 ∧ num m_state < num STATE_COUNT) then target_state else STATE_COUNT in
  (m, if decide (m = STATE_COUNT) then 1 else 0).
Record transaction := Trans { m_state : enum_state; m_start_pos : N * Z; m_thd : N }.
Definition new_transaction (state : enum_state) (pos : N * Z) : transaction := Trans state pos 0%N.
Definition clear (t : transaction) : transaction := Trans (m_state t) (m_start_pos t) 0%N.
Definition good (t : transaction) : bool := bool_decide (m_thd t ≠ 0%N).
Definition swap (t o : transaction) : transaction * transaction := (Trans (m_state o) (m_start_pos o) (m_thd o), Trans (m_state t) (m_start_pos t) (m_thd t)).
Definition assign (t o : transaction) : transaction := fst (swap t o).
Fixpoint calls (s : enum_state) (ts : list enum_state) : list Z := match ts with [] => [] | t :: ts => let '(s, r) := check_state s t in r :: calls s ts end.
End Injector.

(** ** Auto-increment of a partitioned table *)

Module PartAutoInc.

(** The mutex of the share by whether this thread holds it. *)
Record ha_partition := Part {
  auto_increment_lock : bool; auto_increment_safe_stmt_log_lock : bool; tmp_table : bool; auto_inc_mutex : bool; auto_inc_initialized : bool;
  next_auto_inc_val : Z; can_use_for_auto_inc_init : bool
}.
Definition with_locks (h : ha_partition) (l m : bool) : ha_partition :=
  Part l (auto_increment_safe_stmt_log_lock h) (tmp_table h) m (auto_inc_initialized h) (next_auto_inc_val h) (can_use_for_auto_inc_init h).
Definition with_next (h : ha_partition) (n : Z) : ha_partition :=
  Part (auto_increment_lock h) (auto_increment_safe_stmt_log_lock h) (tmp_table h) (auto_inc_mutex h) (auto_inc_initialized h) n (can_use_for_auto_inc_init h).
Definition lock_auto_inc (h : ha_partition) : option ha_partition := if auto_inc_mutex h then None else Some (with_locks h (auto_increment_lock h) true).
Definition unlock_auto_inc (h : ha_partition) : option ha_partition := if auto_inc_mutex h then Some (with_locks h (auto_increment_lock h) false) else None.
Definition lock_auto_increment (h : ha_partition) : option ha_partition :=
  if auto_increment_safe_stmt_log_lock h then Some h
  else if tmp_table h then Some h
  else h ← lock_auto_inc h; if auto_increment_lock h then None else Some (with_locks h true (auto_inc_mutex h)).
Definition unlock_auto_increment (h : ha_partition) : option ha_partition :=
  if auto_increment_lock h && negb (auto_increment_safe_stmt_log_lock h) then unlock_auto_inc (with_locks h false (auto_inc_mutex h)) else Some h.
Definition value (unsigned_flag : bool) (val_int : Z) : Z := if unsigned_flag || bool_decide (0 < val_int) then u64 val_int else 0.
Definition set_auto_increment_if_higher (h : ha_partition) (unsigned_flag : bool) (val_int : Z) : option ha_partition :=
  let nr := value unsigned_flag val_int in
  h ← lock_auto_increment h;
  if auto_inc_initialized h || negb (can_use_for_auto_inc_init h) then
    unlock_auto_increment (if decide (next_auto_inc_val h ≤ nr) then with_next h (u64 (nr + 1)) else h)
  else None.
Fixpoint run (h : ha_partition) (vs : list (bool * Z)) : option ha_partition :=
  match vs with [] => Some h | (u, v) :: vs => h ← set_auto_increment_if_higher h u v; run h vs end.
(** The mutex is held exactly when the handler says so, and when it is not free it is kept for the statement. *)
Definition wf (h : ha_partition) : Prop :=
  auto_increment_lock h = auto_inc_mutex h ∧ (auto_inc_mutex h = true → auto_increment_safe_stmt_log_lock h = true) ∧
  (auto_inc_initialized h = true ∨ can_use_for_auto_inc_init h = false).
End PartAutoInc.

(** ** Prepared statements of a connection *)

Module StatementMap.

Section Find.
(** The statements by address, [0] is none; the hash table finds by the number. *)
Context (id : N → Z) (name : N → bool) (my_hash_search : Z → N).
Definition find (last_found_statement : N) (i : Z) : N * N :=
  if decide (last_found_statement = 0%N ∨ i ≠ id last_found_statement) then
    let stmt := my_hash_search i in
    if decide (stmt ≠ 0%N ∧ name stmt = true) then (last_found_statement, 0%N) else (stmt, stmt)
  else (last_found_statement, last_found_statement).
Fixpoint finds (last : N) (l : list Z) : list N := match l with [] => [] | i :: l => let '(last, s) := find last i in s :: finds last l end.
(** Without the cache: the statement of this number, unless it has a name. *)
Definition unnamed (i : Z) : N := if decide (my_hash_search i ≠ 0%N ∧ name (my_hash_search i) = true) then 0%N else my_hash_search i.
End Find.
End StatementMap.

(** ** Waiting on a condition *)

Module Waits.

Inductive event := Lock (m : N) | Unlock (m : N).
Record PSI_stage_info := Stage { m_key : Z; m_name : N }.
(** [held] are the mutexes this thread holds, [trace] what it did with them, the latest last. *)
Record THD := Thd { current_mutex : N; current_cond : N; m_current_stage_key : Z; proc_info : N; held : list N; trace : list event }.
Definition lock (t : THD) (m : N) : option THD :=
  if decide (m ∈ held t) then None
  else Some (Thd (current_mutex t) (current_cond t) (m_current_stage_key t) (proc_info t) (m :: held t) (trace t ++ [Lock m])).
Definition unlock (t : THD) (m : N) : option THD :=
  if decide (m ∈ held t) then
    Some (Thd (current_mutex t) (current_cond t) (m_current_stage_key t) (proc_info t) (filter (λ m', m' ≠ m) (held t)) (trace t ++ [Unlock m]))
  else None.
Definition with_current (t : THD) (m c : N) : THD := Thd m c (m_current_stage_key t) (proc_info t) (held t) (trace t).
Definition enter_stage (t : THD) (s : PSI_stage_info) : THD := Thd (current_mutex t) (current_cond t) (m_key s) (m_name s) (held t) (trace t).
Definition backup_stage (t : THD) : PSI_stage_info := Stage (m_current_stage_key t) (proc_info t).
(** [old_stage] says whether the caller wants the stage before; [own] is the mutex of [mysys_var]. *)
Definition enter_cond (t : THD) (cond mutex : N) (stage : option PSI_stage_info) (old_stage : bool) : option (THD * option PSI_stage_info) :=
  if decide (mutex ∈ held t) then
    let t := with_current t mutex cond in
    let old := if old_stage then Some (backup_stage t) else None in
    Some (match stage with Some s => enter_stage t s | None => t end, old)
  else None.
Definition exit_cond (own : N) (t : THD) (stage : option PSI_stage_info) : option THD :=
  t ← unlock t (current_mutex t);
  t ← lock t own;
  let t := with_current t 0%N 0%N in
  let t := match stage with Some s => enter_stage t s | None => t end in
  unlock t own.
(** Waits as they are written: lock, enter, exit with the stage that was there before. *)
Fixpoint waits (own : N) (t : THD) (ws : list (N * N * PSI_stage_info)) : option THD :=
  match ws with
  | [] => Some t
  | (m, c, s) :: ws => t ← lock t m; '(t, old) ← enter_cond t c m (Some s) true; t ← exit_cond own t old; waits own t ws
  end.
(** How many mutexes are held along a trace, at most. *)
Fixpoint depth (n : nat) (tr : list event) : nat :=
  match tr with [] => n | Lock _ :: tr => n `max` depth (S n) tr | Unlock _ :: tr => n `max` depth (pred n) tr end.
End Waits.

Section IoCacheTheorems.
Import IoCache.

Section Reading.
Context {W : Type} (behind : W → list Z) (_my_b_read : IO_CACHE → W → nat → IO_CACHE * W * (Z * list Z)) (_my_b_get : IO_CACHE → W → IO_CACHE * W * Z).
(** What the functions behind the buffer promise: what does not fit in the buffer is read on, and a byte at its end, or the mark for
    the end of the file. *)
Definition refills : Prop :=
  (∀ c w n rest, reads behind c w rest → (read_end c - read_pos c < n ≤ length rest)%nat →
    ∃ c' w', _my_b_read c w n = (c', w', (0, take n rest)) ∧ reads behind c' w' (drop n rest)) ∧
  (∀ c w rest, reads behind c w rest → read_pos c = read_end c →
    ∃ c' w', _my_b_get c w = (c', w', match rest with x :: _ => x | [] => my_b_EOF end) ∧ reads behind c' w' (tail rest)).

Lemma take_drop_suffix (b : list Z) i e n : (i + n ≤ e ≤ length b)%nat → drop n (take (e - i) (drop i b)) = take (e - (i + n)) (drop (i + n) b).
Proof. intros H. rewrite skipn_firstn_comm, drop_drop. f_equal. lia. Qed.
Lemma read_one c w n rest : refills → reads behind c w rest → (n ≤ length rest)%nat →
  ∃ c' w', my_b_read _my_b_read c w n = Some (c', w', (0, take n rest)) ∧ reads behind c' w' (drop n rest).
Proof.
  intros [Hr _] [Hp Hrest] Hn. unfold my_b_read. case_decide as Hin; [|].
  - unfold load. rewrite decide_True by lia. cbn [mbind option_bind]. eexists _, w. split.
    + do 3 f_equal. rewrite Hrest, take_app_le, take_take by (rewrite length_take, length_drop; lia). f_equal. lia.
    + unfold reads. change (bytes (with_read c (read_pos c + n))) with (bytes c). cbn. split; [lia|].
      rewrite Hrest, drop_app_le by (rewrite length_take, length_drop; lia). f_equal. apply take_drop_suffix. lia.
  - destruct (Hr c w n rest) as (c' & w' & -> & Hc); [done|lia|]. eauto.
Qed.
Lemma get_one c w rest : refills → reads behind c w rest →
  ∃ c' w', my_b_get _my_b_get c w = Some (c', w', match rest with x :: _ => x | [] => my_b_EOF end) ∧ reads behind c' w' (tail rest).
Proof.
  intros [_ Hg] [Hp Hrest]. unfold my_b_get. case_decide as Hne.
  - destruct (lookup_lt_is_Some_2 (bytes c) (read_pos c)) as [x Hx]; [lia|]. rewrite Hx. cbn [mbind option_bind].
    apply drop_S in Hx as Hd. rewrite Hd in Hrest. destruct (read_end c - read_pos c)%nat as [|k] eqn:Ek; [lia|]. cbn in Hrest. subst rest.
    eexists _, w. split; [done|]. unfold reads. change (bytes (with_read c (S (read_pos c)))) with (bytes c). cbn. split; [lia|].
    do 2 f_equal. lia.
  - destruct (Hg c w rest) as (c' & w' & -> & Hc); [done|done|]. eauto.
Qed.
(** [C13] Whatever the buffer holds, reading blocks and single bytes through the cache gives the bytes of the file one after the other, as
    reading from a sequence does, and stays inside of the buffer; at the end of the file [my_b_get] says so. *)
Theorem io_cache_reads c w rest os r rs :
  refills → reads behind c w rest → rspec rest os = Some (r, rs) →
  ∃ c' w', rrun _my_b_read _my_b_get c w os = Some (c', w', rs) ∧ reads behind c' w' r.
Proof.
  intros Hf. revert c w rest r rs. induction os as [|o os IH]; intros c w rest r rs Hc Hs; cbn [rspec] in Hs; [simplify_eq; by exists c, w|].
  cbn [rrun]. destruct o as [n|]; cbn [rexec].
  - case_decide; [|done]. apply bind_Some in Hs as ([r1 rs1] & Hs & [= <- <-]). destruct (read_one c w n rest) as (c1 & w1 & -> & Hc1); [done..|].
    cbn [mbind option_bind]. destruct (IH c1 w1 _ _ _ Hc1 Hs) as (c' & w' & -> & H'). cbn. eauto.
  - destruct (get_one c w rest Hf Hc) as (c1 & w1 & -> & Hc1). cbn [mbind option_bind].
    destruct rest as [|x rest]; apply bind_Some in Hs as ([r1 rs1] & Hs & [= <- <-]);
      destruct (IH c1 w1 _ _ _ Hc1 Hs) as (c' & w' & -> & H'); cbn; eauto.
Qed.
End Reading.

Section Writing.
Context {W : Type} (written_out : W → list Z) (_my_b_write : IO_CACHE → W → list Z → IO_CACHE * W * Z) (my_b_flush_io_cache : IO_CACHE → W → IO_CACHE * W * Z).
(** What the functions behind the buffer promise: without an error, what was to be written is; and a flushed buffer has room. *)
Definition flushes : Prop :=
  (∀ c w done l c' w', writes written_out c w done → (write_end c - write_pos c < length l)%nat → _my_b_write c w l = (c', w', 0) →
    writes written_out c' w' (done ++ l)) ∧
  (∀ c w done c' w', writes written_out c w done → my_b_flush_io_cache c w = (c', w', 0) → writes written_out c' w' done ∧ (write_pos c' < write_end c')%nat).

Lemma store_some c w done l : writes written_out c w done → (write_pos c + length l ≤ write_end c)%nat →
  ∃ b, store (write_buffer c) (write_pos c) l = Some b ∧ writes written_out (with_write c b (write_pos c + length l)) w (done ++ l).
Proof.
  intros (Hp & Hd & Ht & Hq & Hf) Hl. unfold store. rewrite decide_True by lia. eexists. split; [done|]. unfold writes. cbn. split_and!; try done; try lia.
  - rewrite !length_app, length_take, length_drop. lia.
  - rewrite Hd, <- app_assoc. f_equal. symmetry. rewrite app_assoc. apply take_app_length'. rewrite length_app, length_take. lia.
Qed.
Lemma write_one c w done o : flushes → writes written_out c w done →
  ∃ c' w' e, wexec _my_b_write my_b_flush_io_cache c w o = Some (c', w', e) ∧ (e = 0 → writes written_out c' w' (done ++ wbytes o)).
Proof.
  intros [Hw Hf] Hc. destruct o as [l|x]; cbn [wexec wbytes].
  - unfold my_b_write. case_decide as Hl.
    + destruct (store_some c w done l Hc Hl) as (b & -> & Hb). cbn. eauto.
    + destruct (_my_b_write c w l) as [[c' w'] e] eqn:E. eexists _, _, _. split; [done|]. intros ->. eapply Hw; [done| |done]. destruct Hc as [Hp _]. lia.
  - unfold my_b_write_byte. case_decide as Hl.
    + destruct (my_b_flush_io_cache c w) as [[c' w'] e] eqn:E. case_decide as He; [eexists _, _, _; split; [done|lia]|].
      subst e. destruct (Hf _ _ _ _ _ Hc E) as [Hc' Hroom].
      destruct (store_some c' w' done [x] Hc') as (b & Hb & Hb'); [cbn; lia|]. unfold put_byte. rewrite Hb. cbn. rewrite Nat.add_1_r in Hb'. eauto.
    + destruct (store_some c w done [x] Hc) as (b & Hb & Hb'); [cbn; lia|]. unfold put_byte. rewrite Hb. cbn. rewrite Nat.add_1_r in Hb'. eauto.
Qed.
(** [C14] Writing blocks and single bytes never leaves the buffer; when no call fails, the file and the buffer together hold
    what was there and all that was written, in order, and [my_b_tell] is the length of it. *)
Theorem io_cache_writes c w done os :
  flushes → writes written_out c w done →
  ∃ c' w' ok, wrun _my_b_write my_b_flush_io_cache c w os = Some (c', w', ok) ∧
    (ok = true → writes written_out c' w' (done ++ concat (wbytes <$> os)) ∧
      (Z.of_nat (length (done ++ concat (wbytes <$> os))) < 2 ^ 64 → my_b_tell c' = Z.of_nat (length (done ++ concat (wbytes <$> os))))).
Proof.
  intros Hf. revert c w done. induction os as [|o os IH]; intros c w done Hc; cbn [wrun].
  - exists c, w, true. split; [done|]. intros _. cbn. rewrite app_nil_r. split; [done|]. intros Hn.
    destruct Hc as (Hp & Hd & Ht & Hq & Hpos). assert (length done = length (written_out w) + write_pos c)%nat as Hl.
    { rewrite Hd, length_app, length_take. lia. }
    unfold my_b_tell. rewrite decide_True by done. rewrite Hpos, Hq, !wrapu_small by (unfold in_u; rewrite ?wrapu_small; unfold in_u; lia). lia.
  - destruct (write_one c w done o Hf Hc) as (c1 & w1 & e & -> & H1). cbn [mbind option_bind]. case_decide as He; [|by eexists _, _, _].
    destruct (IH c1 w1 _ (H1 He)) as (c' & w' & ok & -> & H'). eexists _, _, _. split; [done|]. cbn. by rewrite app_assoc.
Qed.
End Writing.

(** A file as the list of bytes behind a buffer of four. *)
Definition refill (c : IO_CACHE) (l : list Z) : IO_CACHE := Cache 0 (Some (take 4 l)) 0 (length (take 4 l)) 0 [] 0 0 READ_CACHE.
Definition unread (c : IO_CACHE) (w : list Z) : list Z := take (read_end c - read_pos c) (drop (read_pos c) (bytes c)) ++ w.
Definition file_read (c : IO_CACHE) (w : list Z) (n : nat) : IO_CACHE * list Z * (Z * list Z) :=
  (refill c (drop n (unread c w)), drop 4 (drop n (unread c w)), (0, take n (unread c w))).
Definition file_get (c : IO_CACHE) (w : list Z) : IO_CACHE * list Z * Z :=
  match unread c w with x :: r => (refill c r, drop 4 r, x) | [] => (refill c [], [], my_b_EOF) end.
Lemma refill_reads c l : reads id (refill c l) (drop 4 l) l.
Proof. unfold reads, bytes. cbn [refill read_pos read_end buffer]. split; [lia|]. rewrite drop_0, Nat.sub_0_r, firstn_all. symmetry. apply firstn_skipn. Qed.
Lemma file_refills : refills id file_read file_get.
Proof.
  split.
  - intros c w n rest [_ ->] _. eexists _, _. split; [done|]. apply refill_reads.
  - intros c w rest [_ ->] _. unfold file_get. change (take (read_end c - read_pos c) (drop (read_pos c) (bytes c)) ++ id w) with (unread c w).
    destruct (unread c w) as [|x r]; (eexists _, _; split; [done|]); [apply (refill_reads c [])|apply refill_reads].
Qed.
Lemma io_cache_reads_witness :
  ∃ c' w', rrun file_read file_get (refill (Cache 0 None 0 0 0 [] 0 0 READ_CACHE) [1; 2; 3; 4; 5; 6; 7]) [5; 6; 7] [Read 3; Get; Read 2; Get; Get] =
    Some (c', w', [(0, [1; 2; 3]); (4, []); (0, [5; 6]); (7, []); (my_b_EOF, [])]).
Proof.
  destruct (io_cache_reads id file_read file_get (refill (Cache 0 None 0 0 0 [] 0 0 READ_CACHE) [1; 2; 3; 4; 5; 6; 7]) [5; 6; 7] [1; 2; 3; 4; 5; 6; 7]
    [Read 3; Get; Read 2; Get; Get] [] [(0, [1; 2; 3]); (4, []); (0, [5; 6]); (7, []); (my_b_EOF, [])]) as (c' & w' & H & _).
  - apply file_refills.
  - apply refill_reads.
  - reflexivity.
  - eauto.
Defined.
Definition emptied (n : nat) : IO_CACHE := Cache (Z.of_nat n) None 0 0 0 [0; 0; 0] 0 3 WRITE_CACHE.
Definition file_write (c : IO_CACHE) (w l : list Z) : IO_CACHE * list Z * Z :=
  let w := w ++ take (write_pos c) (write_buffer c) ++ l in (emptied (length w), w, 0).
Definition file_flush (c : IO_CACHE) (w : list Z) : IO_CACHE * list Z * Z := file_write c w [].
Lemma emptied_writes w : writes id (emptied (length w)) w w.
Proof. unfold writes. cbn. rewrite app_nil_r. split_and!; done || lia. Qed.
Lemma file_flushes : flushes id file_write file_flush.
Proof.
  split.
  - intros c w done l c' w' (_ & -> & _) _ [= <- <-]. rewrite <- app_assoc. apply emptied_writes.
  - intros c w done c' w' (_ & -> & _) [= <- <-]. rewrite app_nil_r. split; [apply emptied_writes|cbn; lia].
Qed.
Lemma io_cache_writes_witness :
  ∃ c' w', wrun file_write file_flush (emptied 1) [9] [Write [1; 2]; WriteByte 3; WriteByte 4; Write [5; 6; 7; 8]; WriteByte 9] = Some (c', w', true) ∧
    my_b_tell c' = 10.
Proof.
  destruct (io_cache_writes id file_write file_flush (emptied 1) [9] [9] [Write [1; 2]; WriteByte 3; WriteByte 4; Write [5; 6; 7; 8]; WriteByte 9])
    as (c' & w' & ok & H & Ht); [apply file_flushes|apply (emptied_writes [9])|].
  assert (ok = true) as -> by (vm_compute in H; by simplify_eq). exists c', w'. split; [done|]. apply Ht; [done|]. cbn. lia.
Defined.
End IoCacheTheorems.

Section BinlogEndTheorems.
Import BinlogEnd.

(** A thread that holds the mutex of a binary log, not of a relay log, and not the one of the end position, can move the end forward, take it from
    the file and open another file in any order: no assertion fails, each step wakes the readers once while it holds the mutex, both
    mutexes are afterwards as before, and a reader that then takes the mutex sees the file and the position of the last step together. *)
Theorem binlog_end_refines lw l os p :
  LOCK_log l = true → LOCK_binlog_end_pos l = false → is_relay_log l = false → spec (binlog_end_pos_file l, binlog_end_pos l) os = Some p →
  ∃ l', run lw l os = Some l' ∧ (LOCK_log l', LOCK_binlog_end_pos l', is_relay_log l') = (true, false, false) ∧
    bin_broadcasts l' = (bin_broadcasts l + length os)%nat ∧ relay_broadcasts l' = relay_broadcasts l ∧ read_end l' = Some p.
Proof.
  revert l. induction os as [|o os IH]; intros [rl cnt bw pos file ll le rb bb]; cbn [LOCK_log LOCK_binlog_end_pos is_relay_log]; intros -> -> -> Hs.
  - cbn in Hs. simplify_eq. eexists. split; [done|]. cbn. split_and!; [done|lia|done|done].
  - cbn [run]. assert (∃ q, spec q os = Some p ∧ exec lw (Log false cnt bw pos file true false rb bb) o = Some (Log false cnt bw q.2 q.1 true false rb (S bb))) as ([f t] & Hq & ->).
    { destruct o as [t|t|f t]; cbn in Hs |- *; [by exists (file, t)|case_decide; [by exists (file, t)|done]|].
      case_decide; [by exists (f, t)|done]. }
    cbn [mbind option_bind]. destruct (IH (Log false cnt bw t f true false rb (S bb))) as (l' & Hr & Hk & Hb & Hrb & He); [done..|].
    exists l'. split_and!; [done|done| |done|done]. cbn in Hb. rewrite Hb. cbn. lia.
Qed.
Lemma binlog_end_refines_witness :
  ∃ l', run 64 (Log false 0 0 4 [97] true false 0 0) [Update 4; Tell 90; Reset [98] 4; Update 100] = Some l' ∧ read_end l' = Some ([98], 100).
Proof.
  destruct (binlog_end_refines 64 (Log false 0 0 4 [97] true false 0 0) [Update 4; Tell 90; Reset [98] 4; Update 100] ([98], 100)) as (l' & ? & _ & _ & _ & ?); [done..|].
  by exists l'.
Defined.
End BinlogEndTheorems.

Section InjectorTheorems.
Import Injector.

Definition moves (ts : list enum_state) : Prop := Forall (λ t, t = TABLE_STATE ∨ t = ROW_STATE) ts.
Lemma sink ts : calls STATE_COUNT ts = replicate (length ts) 1.
Proof.
  induction ts as [|t ts IH]; [done|]. cbn [calls length replicate]. replace (check_state STATE_COUNT t) with (STATE_COUNT, 1) by (by destruct t).
  by rewrite IH.
Qed.
Lemma row_calls ts : moves ts → (∀ r, r ∈ calls ROW_STATE ts → r = 0) ↔ ts = replicate (length ts) ROW_STATE.
Proof.
  induction 1 as [|t ts [-> | ->] Hts IH]; cbn; [set_solver| |].
  - split; [intros H; by specialize (H 1 ltac:(left))|done].
  - split; [intros H; f_equal; apply IH; set_solver|]. intros [= H]. pose proof (proj2 IH H). set_solver.
Qed.
Lemma table_calls ts : moves ts → (∀ r, r ∈ calls TABLE_STATE ts → r = 0) ↔ ∃ a b, ts = replicate a TABLE_STATE ++ replicate b ROW_STATE.
Proof.
  induction 1 as [|t ts [-> | ->] Hts IH]; cbn.
  - split; [by exists O, O|set_solver].
  - split.
    + intros H. destruct (proj1 IH) as (a & b & ->); [set_solver|]. by exists (S a), b.
    + intros ([|a] & b & E); [by destruct b|]. cbn in E. injection E as E. assert (∃ a b, ts = replicate a TABLE_STATE ++ replicate b ROW_STATE) as H by eauto. pose proof (proj2 IH H). set_solver.
  - split.
    + intros H. exists O, (S (length ts)). cbn. f_equal. apply row_calls; [done|]. set_solver.
    + intros ([|a] & [|b] & E); try done. cbn in E. injection E as E. intros r [->|Hr]%elem_of_cons; [done|].
      revert r Hr. apply row_calls; [done|]. by rewrite E, length_replicate.
Qed.
(** The calls that register tables and rows in a new transaction all succeed exactly when there are only tables, then only rows, and at
    least one table before a row; after the first failure every call fails. *)
Theorem injector_order ts :
  moves ts →
  ((∀ r, r ∈ calls START_STATE ts → r = 0) ↔ ts = [] ∨ ∃ a b, ts = TABLE_STATE :: replicate a TABLE_STATE ++ replicate b ROW_STATE) ∧
  (∀ t s, (check_state s t).2 ≠ 0 → calls (check_state s t).1 ts = replicate (length ts) 1).
Proof.
  intros Hm. split.
  - destruct Hm as [|t ts [-> | ->] Hts]; cbn.
    + split; [by left|set_solver].
    + split.
      * intros H. right. destruct (proj1 (table_calls ts Hts)) as (a & b & ->); [set_solver|]. by exists a, b.
      * intros [?|(a & b & [= ->])]; [done|]. intros r [->|Hr]%elem_of_cons; [done|]. revert r Hr. apply table_calls; [done|]. eauto.
    + split; [intros H; by specialize (H 1 ltac:(left))|]. by intros [?|(a & b & ?)].
  - intros t s. unfold check_state. cbn. repeat case_decide; try done; subst; intros _; apply sink.
Qed.
Lemma injector_order_witness : (∀ r, r ∈ calls START_STATE [TABLE_STATE; TABLE_STATE; ROW_STATE] → r = 0).
Proof.
  assert (Hm : moves [TABLE_STATE; TABLE_STATE; ROW_STATE]) by (unfold moves; repeat constructor; auto).
  apply (proj1 (injector_order [TABLE_STATE; TABLE_STATE; ROW_STATE] Hm)). right. by exists 1%nat, 1%nat.
Defined.
End InjectorTheorems.

Section PartAutoIncTheorems.
Import PartAutoInc.

Lemma set_if_higher h u v : wf h →
  ∃ h', set_auto_increment_if_higher h u v = Some h' ∧ wf h' ∧ auto_inc_mutex h' = auto_inc_mutex h ∧
    next_auto_inc_val h' = if decide (next_auto_inc_val h ≤ value u v) then u64 (value u v + 1) else next_auto_inc_val h.
Proof.
  destruct h as [l s t m i n c]. unfold wf. cbn. intros (-> & Hs & Hi). unfold set_auto_increment_if_higher, lock_auto_increment. cbn.
  assert (Hi' : i || negb c = true) by (destruct Hi as [-> | ->]; [done|apply orb_true_r]).
  destruct s, t, m; cbn; try (specialize (Hs eq_refl); discriminate); rewrite Hi'; case_decide; cbn; eexists; split_and!; done.
Qed.
(** The counter the partitions share follows the values of a series of rows: it stays free, or locked for the statement, as it was,
    and becomes the largest of itself and the successors of the values; negative values of signed columns count as 0.  The one value whose successor does not fit,
    2^64 - 1, sets it back to 0. *)
Theorem partition_auto_increment h vs :
  wf h → 0 ≤ next_auto_inc_val h < 2 ^ 64 →
  ∃ h', run h vs = Some h' ∧ wf h' ∧ auto_inc_mutex h' = auto_inc_mutex h ∧
    (Forall (λ x, value x.1 x.2 ≠ 2 ^ 64 - 1) vs → next_auto_inc_val h' = foldr (λ x a, Z.max (value x.1 x.2 + 1) a) (next_auto_inc_val h) vs) ∧
    ∃ h1, set_auto_increment_if_higher h' true (-1) = Some h1 ∧ next_auto_inc_val h1 = 0.
Proof.
  assert (Hv : ∀ u v, 0 ≤ value u v < 2 ^ 64) by (intros u v; unfold value, wrapu; destruct (_ || _); [apply Z.mod_pos_bound|]; lia).
  intros Hw Hn. revert h Hw Hn. induction vs as [|[u v] vs IH]; intros h Hw Hn; cbn [run].
  - exists h. split_and!; [done..|]. destruct (set_if_higher h true (-1) Hw) as (h1 & H1 & _ & _ & Hx). exists h1. split; [done|]. rewrite Hx.
    change (value true (-1)) with (2 ^ 64 - 1). rewrite decide_True by lia. done.
  - destruct (set_if_higher h u v Hw) as (h1 & -> & Hw1 & Hm1 & Hn1). cbn [mbind option_bind]. pose proof (Hv u v).
    assert (0 ≤ next_auto_inc_val h1 < 2 ^ 64) by (rewrite Hn1; case_decide; [unfold wrapu; apply Z.mod_pos_bound; lia|lia]).
    destruct (IH h1) as (h' & Hr & Hw' & Hm' & Hx & Hl); [done|done|]. exists h'. split_and!; [done|done|congruence| |done].
    intros [Hne Hall]%Forall_cons. cbn in Hne. rewrite (Hx Hall), Hn1. cbn [foldr fst snd].
    assert (Hs : (if decide (next_auto_inc_val h ≤ value u v) then u64 (value u v + 1) else next_auto_inc_val h) = Z.max (value u v + 1) (next_auto_inc_val h))
      by (case_decide; [unfold wrapu; rewrite Z.mod_small; lia|lia]).
    rewrite Hs. clear. induction vs as [|x vs IH]; cbn; [done|]. rewrite IH. lia.
Qed.
Lemma partition_auto_increment_witness :
  ∃ h', run (Part false false false false true 1 true) [(false, 5); (false, -3); (true, 2)] = Some h' ∧ next_auto_inc_val h' = 6 ∧ auto_inc_mutex h' = false.
Proof.
  destruct (partition_auto_increment (Part false false false false true 1 true) [(false, 5); (false, -3); (true, 2)]) as (h' & Hr & _ & Hm & Hn & _);
    [repeat split; try done; by left|cbn; lia|]. exists h'. split_and!; [done|rewrite Hn by (repeat constructor; done); reflexivity|done].
Defined.
End PartAutoIncTheorems.

Section StatementMapTheorems.
Import StatementMap.

(** Finding statements by number with the last one found kept aside gives what the hash table gives, for any series of numbers, as long as the
    table finds statements by their number: statements with a name are not found, and do not disturb the one kept. *)
Theorem statement_cache_transparent id name my_hash_search l :
  (∀ i, my_hash_search i ≠ 0%N → id (my_hash_search i) = i) →
  finds id name my_hash_search 0%N l = unnamed name my_hash_search <$> l.
Proof.
  intros Hh. cut (∀ last, last = 0%N ∨ unnamed name my_hash_search (id last) = last → finds id name my_hash_search last l = unnamed name my_hash_search <$> l).
  { intros H. apply H. by left. }
  induction l as [|i l IH]; intros last Hl; [done|]. cbn [finds fmap list_fmap]. unfold find.
  destruct (decide (last = 0%N ∨ i ≠ id last)) as [Ho|Ho].
  - assert (Hu : unnamed name my_hash_search i = if decide (my_hash_search i ≠ 0%N ∧ name (my_hash_search i) = true) then 0%N else my_hash_search i) by done.
    case_decide as Hn; rewrite Hu; f_equal; apply IH; [done|]. destruct (decide (my_hash_search i = 0%N)) as [E|E]; [by left|]. right.
    rewrite (Hh i E). exact Hu.
  - destruct Hl as [->|Hl]; [by destruct Ho; left|]. assert (i = id last) as -> by (destruct (decide (i = id last)); [done|by destruct Ho; right]).
    f_equal; [done|]. apply IH. by right.
Qed.
Lemma statement_cache_transparent_witness :
  finds Z.of_N (λ s, bool_decide (s = 7%N)) (λ i, if decide (0 < i < 10) then Z.to_N i else 0%N) 0%N [3; 3; 7; 3; 12; 3] = [3; 3; 0; 3; 0; 3]%N.
Proof.
  rewrite (statement_cache_transparent Z.of_N (λ s, bool_decide (s = 7%N)) (λ i, if decide (0 < i < 10) then Z.to_N i else 0%N) [3; 3; 7; 3; 12; 3]); [reflexivity|].
  intros i. cbn. case_decide; [intros _; by rewrite Z2N.id by lia|done].
Defined.
End StatementMapTheorems.

Section WaitTheorems.
Import Waits.

Lemma depth_round m own tr : depth 0 (Lock m :: Unlock m :: Lock own :: Unlock own :: tr) = (1 `max` depth 0 tr)%nat.
Proof. cbn. lia. Qed.
Lemma lock_free cm cc k p tr m : lock (Thd cm cc k p [] tr) m = Some (Thd cm cc k p [m] (tr ++ [Lock m])).
Proof. unfold lock. cbn [held]. rewrite decide_False by apply not_elem_of_nil. done. Qed.
Lemma unlock_one cm cc k p tr m : unlock (Thd cm cc k p [m] tr) m = Some (Thd cm cc k p [] (tr ++ [Unlock m])).
Proof. unfold unlock. cbn [held]. rewrite decide_True by left. rewrite filter_cons_False by (intros H; by apply H). done. Qed.
Lemma wait_round own t m c s : held t = [] →
  ∃ t', (t ← lock t m; '(t, old) ← enter_cond t c m (Some s) true; exit_cond own t old) = Some t' ∧ held t' = [] ∧ current_mutex t' = 0%N ∧ current_cond t' = 0%N ∧
    backup_stage t' = backup_stage t ∧ trace t' = trace t ++ [Lock m; Unlock m; Lock own; Unlock own].
Proof.
  destruct t as [cm cc k p h tr]. cbn [held]. intros ->. rewrite lock_free. cbn -[lock unlock]. unfold enter_cond. cbn -[lock unlock].
  rewrite decide_True by left. cbn -[lock unlock]. unfold exit_cond, with_current, enter_stage, backup_stage.
  cbn -[lock unlock]. rewrite unlock_one. cbn -[lock unlock]. rewrite lock_free. cbn -[lock unlock].
  rewrite unlock_one. eexists. split; [done|]. cbn. rewrite <- !app_assoc. done.
Qed.
(** A thread that waits on conditions one after the other never holds two mutexes: [exit_cond] gives the mutex of the condition back before it takes the
    one of the thread.  At the end it holds none, waits for nothing, and has the stage it had. *)
Theorem waits_hold_one own t ws :
  held t = [] → current_mutex t = 0%N → current_cond t = 0%N →
  ∃ t' tr, waits own t ws = Some t' ∧ held t' = [] ∧ current_mutex t' = 0%N ∧ current_cond t' = 0%N ∧ backup_stage t' = backup_stage t ∧
    trace t' = trace t ++ tr ∧ length tr = (4 * length ws)%nat ∧ (depth 0 tr ≤ 1)%nat.
Proof.
  revert t. induction ws as [|[[m c] s] ws IH]; intros t Hh Hm Hc.
  - exists t, []. cbn. rewrite app_nil_r. split_and!; done || lia.
  - destruct (wait_round own t m c s Hh) as (t1 & H1 & Hh1 & Hm1 & Hc1 & Hs1 & Ht1).
    destruct (IH t1 Hh1 Hm1 Hc1) as (t' & tr & H2 & ? & ? & ? & Hs & Ht & Hl & Hd). exists t', (Lock m :: Unlock m :: Lock own :: Unlock own :: tr).
    split_and!; [|done|done|done|congruence| | |].
    + cbn [waits]. destruct (lock t m) as [ta|]; [|done]. cbn [mbind option_bind] in *. destruct (enter_cond ta c m (Some s) true) as [[tb old]|]; [|done].
      cbn [mbind option_bind] in *. by rewrite H1.
    + rewrite Ht, Ht1, <- app_assoc. done.
    + cbn [length]. rewrite Hl. lia.
    + rewrite depth_round. lia.
Qed.
Lemma waits_hold_one_witness :
  ∃ t', waits 9 (Thd 0 0 4 6 [] []) [(1, 2, Stage 5 8); (3, 4, Stage 7 2)]%N = Some t' ∧ held t' = [] ∧ backup_stage t' = Stage 4 6.
Proof.
  destruct (waits_hold_one 9 (Thd 0 0 4 6 [] []) [(1, 2, Stage 5 8); (3, 4, Stage 7 2)]%N) as (t' & tr & ? & ? & _ & _ & ? & _); [done..|].
  by exists t'.
Defined.
End WaitTheorems.
