(* ===== verification/Statements.v ===== *)
(** * Checks of statements, system variables, tables entering a statement

    From sql_lex.h: the order of the declarations of a block, the options of CREATE, the parameters of a unit.  From set_var.h: where a system
    variable is an option, and what may be assigned to it.  From table_cache.h: the key of a table.  From sql_base.h: giving a table its number.
    From rpl_utility.h: the types of a table map.  From partition_element.h: the engines of partitions. *)

From Stdlib Require Import ZArith NArith Lia Sorted.
From stdpp Require Import base numbers option list gmap fin_maps sorting.
From S2P Require Import Prelude Structs Tables.
Open Scope Z_scope.
Open Scope cint_scope.

(** ** Declarations of a block *)

Module Declarations.
Import LexStructs.

Inductive error := ER_SP_VARCOND_AFTER_CURSHNDLR | ER_SP_CURSOR_AFTER_HANDLER.
#[global] Instance error_eq : EqDecision error.
Proof. solve_decision. Defined.
Definition some_of (n : Z) : bool := bool_decide (n ≠ 0).
Definition sp_declarations_join (b1 b2 : Lex_spblock_st) : Lex_spblock_st + error :=
  if (some_of (vars b2) || some_of (conds b2)) && (some_of (curs b1) || some_of (hndlrs b1)) then inr ER_SP_VARCOND_AFTER_CURSHNDLR
  else if some_of (curs b2) && some_of (hndlrs b1) then inr ER_SP_CURSOR_AFTER_HANDLER
  else inl (join b1 b2).

(** The declarations one by one, as the parser joins them. *)
Inductive decl := Var | Cond | Cursor | Handler.
#[global] Instance decl_eq : EqDecision decl.
Proof. solve_decision. Defined.
Definition block (d : decl) : Lex_spblock_st :=
  match d with Var => Spblock 0 1 0 0 | Cond => Spblock 0 0 1 0 | Cursor => Spblock 0 0 0 1 | Handler => Spblock 1 0 0 0 end.
Fixpoint declare (b : Lex_spblock_st) (ds : list decl) : Lex_spblock_st + error :=
  match ds with
  | [] => inl b
  | d :: ds => match sp_declarations_join b (block d) with inl b => declare b ds | inr e => inr e end
  end.
Definition rank (d : decl) : nat := match d with Var | Cond => 0 | Cursor => 1 | Handler => 2 end.
Definition ordered (ds : list decl) : Prop := StronglySorted (λ a b, (rank a ≤ rank b)%nat) ds.
Definition count (d : decl) (ds : list decl) : Z := Z.of_nat (length (filter (λ d', d' = d) ds)).
Definition counted (ds : list decl) : Lex_spblock_st := Spblock (count Handler ds) (count Var ds) (count Cond ds) (count Cursor ds).
End Declarations.

(** ** Options of CREATE, and units *)

Module LexChecks.
Import Ddl.

Definition check_create_options (options : DDL_options_st) : bool := or_replace options && if_not_exists options.
(** The options of the statement afterwards, and whether there is an error. *)
Definition set_create_options_with_check (create_info options : DDL_options_st) : DDL_options_st * bool :=
  let c := set_from create_info options in (c, check_create_options c).
Definition add_create_options_with_check (create_info options : DDL_options_st) : DDL_options_st * bool :=
  let c := add_from create_info options in (c, check_create_options c).
Definition check_add_key (alter_table : bool) (ddl : DDL_options_st) : bool := if_not_exists ddl && negb alter_table.
(** The new key, whose allocation can fail, becomes [last_key] and is put in the list. *)
Definition add_key {K} (alter_table : bool) (key last_key : option K) (ddl : DDL_options_st) (key_list : list K) : option K * list K * bool :=
  if check_add_key alter_table ddl then (last_key, key_list, true) else match key with Some k => (Some k, key_list ++ [k], false) | None => (None, key_list, true) end.
Definition add_create_index {K} (key last_key : option K) (ddl : DDL_options_st) (key_list : list K) : option K * list K * bool :=
  if check_create_options ddl then (last_key, key_list, true) else match key with Some k => (Some k, key_list ++ [k], false) | None => (None, key_list, true) end.
Definition global_parameters (fake_select_lex saved_fake_select_lex first_select : N) : N :=
  if decide (fake_select_lex ≠ 0%N) then fake_select_lex else if decide (saved_fake_select_lex ≠ 0%N) then saved_fake_select_lex else first_select.
Inductive sub_select_type := UNSPECIFIED_TYPE | UNION_TYPE | INTERSECT_TYPE | EXCEPT_TYPE | GLOBAL_OPTIONS_TYPE | DERIVED_TABLE_TYPE | OLAP_TYPE.
#[global] Instance sub_select_type_eq : EqDecision sub_select_type.
Proof. solve_decision. Defined.
(** Whether the first select has a table of values, and the linkage of the one after it, if there is one. *)
Definition is_unit_op (tvc : bool) (next : option sub_select_type) : bool :=
  match next with None => tvc | Some l => bool_decide (l = UNION_TYPE ∨ l = INTERSECT_TYPE ∨ l = EXCEPT_TYPE) end.
End LexChecks.

(** ** System variables *)

Module SysVar.

Definition GLOBAL : Z := 0.
Definition SESSION : Z := 1.
Definition ONLY_SESSION : Z := 2.
Definition SCOPE_MASK : Z := 1023.
Definition READONLY : Z := 1024.
Definition PARSE_EARLY : Z := 4096.
Definition NO_SET_STATEMENT : Z := 8192.
Definition NO_GETOPT : Z := -1.
Definition GETOPT_ONLY_HELP : Z := -2.
Definition GET_TYPE_MASK : Z := 63.
Inductive Item_result := STRING_RESULT | REAL_RESULT | INT_RESULT | ROW_RESULT | DECIMAL_RESULT | TIME_RESULT.
#[global] Instance Item_result_eq : EqDecision Item_result.
Proof. solve_decision. Defined.
Inductive enum_var_type := OPT_DEFAULT | OPT_SESSION | OPT_GLOBAL.
#[global] Instance enum_var_type_eq : EqDecision enum_var_type.
Proof. solve_decision. Defined.
Record sys_var := Var { flags : Z; option_id : Z; option_var_type : Z; in_binlog : bool }.
Definition scope (v : sys_var) : Z := flags v .& SCOPE_MASK.
Definition is_readonly (v : sys_var) : bool := bool_decide (flags v .& READONLY ≠ 0).
Definition is_set_stmt_ok (v : sys_var) : bool := negb (bool_decide (flags v .& NO_SET_STATEMENT ≠ 0)).
Definition is_written_to_binlog (v : sys_var) (type : enum_var_type) : bool := bool_decide (type ≠ OPT_GLOBAL) && in_binlog v.
(** The kinds of values by their numbers: integers 3 to 8, strings 9 and 10, enumerations 2, 12, 13, 15 and 16, and 14 for floating point. *)
Definition check_update_type (v : sys_var) (type : Item_result) (decimals : Z) : bool :=
  let k := option_var_type v .& GET_TYPE_MASK in
  if decide (k ∈ [3; 4; 5; 6; 7; 8]) then bool_decide (type ≠ INT_RESULT) && (bool_decide (type ≠ DECIMAL_RESULT) || bool_decide (decimals ≠ 0))
  else if decide (k ∈ [9; 10]) then bool_decide (type ≠ STRING_RESULT)
  else if decide (k ∈ [12; 2; 13; 15; 16]) then bool_decide (type ≠ STRING_RESULT) && bool_decide (type ≠ INT_RESULT)
  else if decide (k = 14) then bool_decide (type ≠ INT_RESULT) && bool_decide (type ≠ REAL_RESULT) && bool_decide (type ≠ DECIMAL_RESULT)
  else true.
Definition check_type (v : sys_var) (type : enum_var_type) : bool :=
  if decide (scope v = GLOBAL) then bool_decide (type ≠ OPT_GLOBAL)
  else if decide (scope v = SESSION) then false
  else if decide (scope v = ONLY_SESSION) then bool_decide (type = OPT_GLOBAL)
  else true.
(** The array of options afterwards; [insert_dynamic] can fail.  Without a result where the assertion fails. *)
Definition register_option {A} (insert_dynamic : list A → A → list A * bool) (array : list A) (v : sys_var) (option : A) (parse_flags : Z) : Datatypes.option (list A * bool) :=
  if decide (parse_flags = GETOPT_ONLY_HELP ∨ parse_flags = PARSE_EARLY ∨ parse_flags = 0) then
    Some (if decide (option_id v = NO_GETOPT) then (array, false)
          else if decide (parse_flags = GETOPT_ONLY_HELP) then
            if decide (option_id v ≠ GETOPT_ONLY_HELP) then (array, false) else insert_dynamic array option
          else if decide (option_id v = GETOPT_ONLY_HELP) then (array, false)
          else if decide (flags v .& PARSE_EARLY ≠ parse_flags) then (array, false)
          else insert_dynamic array option)
  else None.
(** One pass over all variables. *)
Fixpoint pass {A} (array : list A) (vs : list (sys_var * A)) (parse_flags : Z) : Datatypes.option (list A) :=
  match vs with
  | [] => Some array
  | (v, o) :: vs => '(array, _) ← register_option (λ l a, (l ++ [a], false)) array v o parse_flags; pass array vs parse_flags
  end.
End SysVar.

(** ** The key of a table *)

Module TableKey.

Definition NAME_LEN : nat := 192.
Section Key.
(** [strmake] by the bytes it puts before the zero byte. *)
Context (strmake : list Z → nat → list Z).
(** The bytes written to [key], and the length returned. *)
Definition tdc_create_key (db table_name : list Z) : list Z * Z :=
  let key := strmake db NAME_LEN ++ [0] ++ strmake table_name NAME_LEN ++ [0] in (key, u32 (Z.of_nat (length key))).
End Key.
End TableKey.

(** ** A table enters a statement *)

Module TableSetup.

Definition STATUS_NO_RECORD : Z := 3.
Record TABLE := Table {
  used_fields : Z; null_row : bool; status : Z; maybe_null : Z; tablenr : Z; map : Z; force_index : bool; force_index_order : bool;
  force_index_group : bool; covering_keys : Z; keys_for_keyread : Z
}.
(** A reference: the kind of its outer join, the reference it is nested in, and whether an index is forced. *)
Record TABLE_LIST := TList { outer_join : Z; embedding : N; tl_force_index : bool }.
Fixpoint embedding_loop (fuel : nat) (h : gmap N TABLE_LIST) (maybe_null : Z) (e : N) : option Z :=
  match fuel with
  | O => None
  | S fuel => if decide (maybe_null = 0 ∧ e ≠ 0%N) then t ← h !! e; embedding_loop fuel h (outer_join t) (embedding t) else Some maybe_null
  end.
(** [orig] is the derived table the reference comes from, by whether it is merged.  Resetting the reference is done by [reset_const_table]. *)
Definition setup_table_map {W} (reset_const_table : W → W) (fuel : nat) (h : gmap N TABLE_LIST) (w : W) (table : TABLE) (tl : TABLE_LIST) (orig : option bool)
    (tablenr : Z) : option (TABLE * W) :=
  m ← embedding_loop fuel h (outer_join tl) (embedding tl);
  let c := keys_for_keyread table in
  let c := match orig with Some true => c | _ => keys_for_keyread table end in
  bit ← (if decide (tablenr < 64) then Some (u64 (1 ≪ tablenr)) else None);
  Some (Table 0 false STATUS_NO_RECORD m tablenr bit (tl_force_index tl) false false c (keys_for_keyread table), reset_const_table w).
Definition is_temporary_table (view schema_table : bool) (table : option (option TableShare.tmp_table_type)) : bool :=
  if view || schema_table then false
  else match table with None => false | Some None => false | Some (Some t) => bool_decide (t ≠ TableShare.NO_TMP_TABLE) end.
(** The references a reference is nested in, from the inside. *)
Fixpoint nested_in (h : gmap N TABLE_LIST) (e : N) (l : list TABLE_LIST) : Prop :=
  match l with [] => e = 0%N | t :: l => e ≠ 0%N ∧ h !! e = Some t ∧ nested_in h (embedding t) l end.
End TableSetup.

(** ** Types of a table map *)

Module TableDef.

Definition MYSQL_TYPE_DATE : Z := 10.
Definition MYSQL_TYPE_NEWDATE : Z := 14.
Definition MYSQL_TYPE_ENUM : Z := 247.
Definition MYSQL_TYPE_SET : Z := 248.
Definition MYSQL_TYPE_STRING : Z := 254.
Record table_def := Def { m_type : list Z; m_field_metadata : list Z; m_field_metadata_size : Z }.
Definition binlog_type (d : table_def) (index : nat) : option Z := m_type d !! index.
Definition type (d : table_def) (index : nat) : option Z :=
  source_type ← binlog_type d index;
  source_metadata ← m_field_metadata d !! index;
  Some (if decide (source_type = MYSQL_TYPE_STRING) then
          let real_type := source_metadata ≫ 8 in
          if decide (real_type = MYSQL_TYPE_ENUM ∨ real_type = MYSQL_TYPE_SET) then real_type else source_type
        else if decide (source_type = MYSQL_TYPE_DATE) then MYSQL_TYPE_NEWDATE
        else source_type).
Definition field_metadata (d : table_def) (index : nat) : option Z :=
  if decide (index < length (m_type d))%nat then (if decide (m_field_metadata_size d ≠ 0) then m_field_metadata d !! index else Some 0) else None.
End TableDef.

(** ** Engines of partitions *)

Module PartitionElement.

#[warnings="-register-all"]
Inductive partition_element := Elem (engine_type : N) (subpartitions : list partition_element).
Section Flag.
Context (ha_check_storage_engine_flag : N → bool).
Fixpoint find_engine_flag (e : partition_element) : bool :=
  match e with
  | Elem t subs => if ha_check_storage_engine_flag t then true else (fix loop (l : list partition_element) : bool :=
      match l with [] => false | element :: l => if find_engine_flag element then true else loop l end) subs
  end.
(** The engines of an element and of all below it. *)
Fixpoint engines (e : partition_element) : list N := match e with Elem t subs => t :: concat (List.map engines subs) end.
End Flag.
End PartitionElement.

Section DeclarationTheorems.
Import Declarations LexStructs.

Lemma some_count d ds : some_of (count d ds) = bool_decide (d ∈ ds).
Proof.
  unfold some_of, count. apply bool_decide_ext. split.
  - intros H. destruct (filter _ ds) as [|x l] eqn:E; [done|]. assert (Hx : x ∈ filter (λ d', d' = d) ds) by (rewrite E; left).
    apply list_elem_of_filter in Hx as [-> Hx]. done.
  - intros H. assert (Hd : d ∈ filter (λ d', d' = d) ds) by (by apply list_elem_of_filter). destruct (filter _ ds); [by apply not_elem_of_nil in Hd|]. cbn. lia.
Qed.
Lemma count_snoc d ds d' : count d (ds ++ [d']) = count d ds + (if decide (d' = d) then 1 else 0).
Proof.
  unfold count. rewrite filter_app, length_app. case_decide as E; [rewrite filter_cons_True by done|rewrite filter_cons_False by done]; rewrite filter_nil; cbn; lia.
Qed.
Lemma count_le d ds : 0 ≤ count d ds ≤ Z.of_nat (length ds).
Proof. unfold count. pose proof (length_filter (λ d', d' = d) ds). lia. Qed.
Lemma ordered_snoc ds d : ordered (ds ++ [d]) ↔ ordered ds ∧ ∀ a, a ∈ ds → (rank a ≤ rank d)%nat.
Proof.
  unfold ordered. induction ds as [|a ds IH]; cbn.
  - split; [intros _; split; [constructor|]; intros ? []%not_elem_of_nil|]. intros _. by repeat constructor.
  - rewrite !StronglySorted_cons, IH, Forall_app, Forall_singleton, !Forall_forall. setoid_rewrite elem_of_cons. naive_solver.
Qed.
Lemma join_decl ds d : Z.of_nat (length ds) < 2 ^ 30 - 1 → ordered ds →
  (ordered (ds ++ [d]) → sp_declarations_join (counted ds) (block d) = inl (counted (ds ++ [d]))) ∧
  (¬ ordered (ds ++ [d]) → ∃ e, sp_declarations_join (counted ds) (block d) = inr e).
Proof.
  intros Hl Ho. rewrite ordered_snoc. unfold sp_declarations_join. cbn [counted curs hndlrs vars conds].
  rewrite !some_count. pose proof (count_le Var ds). pose proof (count_le Cond ds). pose proof (count_le Cursor ds). pose proof (count_le Handler ds).
  assert (Hj : join (counted ds) (block d) = counted (ds ++ [d])).
  { unfold join, counted. rewrite !count_snoc.
    destruct d; cbn [block hndlrs vars conds curs]; f_equal; rewrite ?decide_True, ?decide_False by done; apply wraps_small; unfold in_s; lia. }
  destruct (decide (Cursor ∈ ds)) as [Hc|Hc], (decide (Handler ∈ ds)) as [Hh|Hh];
    rewrite ?(bool_decide_eq_true_2 _ Hc), ?(bool_decide_eq_false_2 _ Hc), ?(bool_decide_eq_true_2 _ Hh), ?(bool_decide_eq_false_2 _ Hh);
    destruct d; cbn; split; try (intros _; f_equal; exact Hj); try (intros _; by eexists).
  all: try (intros [_ H']; (specialize (H' _ Hc) || specialize (H' _ Hh)); cbn in H'; lia).
  all: try (intros [_ H']; specialize (H' _ Hh); cbn in H'; lia).
  all: intros Hn; exfalso; apply Hn; split; [done|]; intros a Ha; destruct a; cbn; try lia; by (destruct (Hc Ha) || destruct (Hh Ha)).
Qed.
(** The declarations of a block are accepted exactly when no variable or condition comes after a cursor or a handler, and no cursor
    after a handler; then the block counts each kind. *)
Theorem declarations_in_order ds b :
  Z.of_nat (length ds) < 2 ^ 30 → declare spblock_init ds = inl b ↔ ordered ds ∧ b = counted ds.
Proof.
  intros Hl. assert (Hg : ∀ ds ps, Z.of_nat (length (ps ++ ds)) < 2 ^ 30 → ordered ps → declare (counted ps) ds = inl b ↔ ordered (ps ++ ds) ∧ b = counted (ps ++ ds)).
  { clear. intros ds. induction ds as [|d ds IH]; intros ps Hl Ho; cbn [declare].
    - rewrite app_nil_r. split; [intros [= <-]; done|]. by intros [_ ->].
    - rewrite length_app in Hl. cbn in Hl. destruct (join_decl ps d) as [H1 H2]; [lia|done|].
      replace (ps ++ d :: ds) with ((ps ++ [d]) ++ ds) by (by rewrite <- app_assoc).
      destruct (decide (Forall (λ a, rank a ≤ rank d)%nat ps)) as [Hd|Hd]; rewrite Forall_forall in Hd.
      + assert (Hs : ordered (ps ++ [d])) by (apply ordered_snoc; split; done). rewrite (H1 Hs). apply IH; [|done]. rewrite !length_app. cbn. lia.
      + destruct H2 as [e ->]; [rewrite ordered_snoc; tauto|]. split; [done|]. intros [Hs _]. exfalso. apply Hd. intros a Ha.
        unfold ordered in Hs. rewrite <- app_assoc in Hs. apply (StronglySorted_app_1_elem_of _ ps ([d] ++ ds) a d Hs Ha). left. }
  change spblock_init with (counted []). apply (Hg ds []); [done|constructor].
Qed.
Lemma declarations_in_order_witness : declare spblock_init [Cond; Var; Cursor; Handler; Handler] = inl (Spblock 2 1 1 1).
Proof.
  apply (declarations_in_order [Cond; Var; Cursor; Handler; Handler] (Spblock 2 1 1 1)); [cbn; lia|]. split; [|reflexivity].
  unfold ordered. repeat (constructor || (cbn; lia)).
Defined.
End DeclarationTheorems.

Section SysVarTheorems.
Import SysVar.

Lemma pass_filter {A} (P : sys_var → Prop) `{!∀ v, Decision (P v)} f (vs : list (sys_var * A)) :
  (∀ (array : list A) v o, register_option (λ l a, (l ++ [a], false)) array v o f = Some (if decide (P v) then array ++ [o] else array, false)) →
  ∀ array, pass array vs f = Some (array ++ (filter (λ x, P x.1) vs).*2).
Proof.
  intros Hr. induction vs as [|[v o] vs IH]; intros array; cbn [pass]; [by rewrite app_nil_r|]. rewrite Hr. cbn [mbind option_bind]. rewrite IH. f_equal.
  case_decide as E; [rewrite filter_cons_True by done; cbn; by rewrite <- app_assoc|by rewrite filter_cons_False by done].
Qed.
(** The three passes over the system variables, for the help, for the options parsed early and for the rest, together register the option of
    every variable that has one exactly once; a variable for the help only is in the first. *)
Theorem options_registered_once {A} (vs : list (sys_var * A)) :
  ∃ help early rest, pass [] vs GETOPT_ONLY_HELP = Some help ∧ pass [] vs PARSE_EARLY = Some early ∧ pass [] vs 0 = Some rest ∧
    help ++ early ++ rest ≡ₚ (filter (λ x, option_id x.1 ≠ NO_GETOPT) vs).*2 ∧
    help = (filter (λ x, option_id x.1 = GETOPT_ONLY_HELP) vs).*2.
Proof.
  set (early := λ v, option_id v ≠ NO_GETOPT ∧ option_id v ≠ GETOPT_ONLY_HELP ∧ flags v .& PARSE_EARLY = PARSE_EARLY).
  set (rest := λ v, option_id v ≠ NO_GETOPT ∧ option_id v ≠ GETOPT_ONLY_HELP ∧ flags v .& PARSE_EARLY = 0).
  assert (Hor : ∀ v, flags v .& PARSE_EARLY = 0 ∨ flags v .& PARSE_EARLY = PARSE_EARLY).
  { intros v. change PARSE_EARLY with (2 ^ 12). destruct (Z.testbit (flags v) 12) eqn:E; [right|left]; apply Z.bits_inj'; intros i Hi;
      rewrite Z.land_spec, ?Z.bits_0; destruct (decide (i = 12)) as [->|Hne]; rewrite ?E; try done; rewrite Z.pow2_bits_false by lia; apply andb_false_r. }
  eexists _, _, _. split_and!.
  - apply (pass_filter (λ v, option_id v = GETOPT_ONLY_HELP)). intros array v o. unfold register_option. rewrite decide_True by auto.
    do 2 f_equal. unfold NO_GETOPT, GETOPT_ONLY_HELP. repeat case_decide; done || lia.
  - apply (pass_filter early). intros array v o. unfold register_option, early. rewrite decide_True by auto.
    do 2 f_equal. rewrite (decide_False (P := PARSE_EARLY = GETOPT_ONLY_HELP)) by done. repeat case_decide; try done; tauto.
  - apply (pass_filter rest). intros array v o. unfold register_option, rest. rewrite decide_True by auto.
    do 2 f_equal. rewrite (decide_False (P := 0 = GETOPT_ONLY_HELP)) by done. repeat case_decide; try done; tauto.
  - rewrite !app_nil_l, <- !fmap_app. apply fmap_Permutation. induction vs as [|[v o] vs IH]; [done|].
    rewrite !filter_cons. cbn [fst]. unfold early, rest in *. destruct (decide (option_id v = NO_GETOPT)) as [E|E].
    + rewrite E. repeat (rewrite decide_False by (unfold NO_GETOPT, GETOPT_ONLY_HELP; naive_solver)). exact IH.
    + rewrite (decide_True (P := option_id v ≠ NO_GETOPT)) by done. destruct (decide (option_id v = GETOPT_ONLY_HELP)) as [E'|E'].
      * rewrite 2!decide_False by tauto. cbn. by rewrite IH.
      * destruct (Hor v) as [Hf|Hf].
        -- rewrite decide_False by (rewrite Hf; unfold PARSE_EARLY; lia). rewrite decide_True by done. rewrite <- IH. by rewrite !app_assoc, <- Permutation_middle.
        -- rewrite decide_True by done. rewrite decide_False by (rewrite Hf; unfold PARSE_EARLY; lia). rewrite <- IH. symmetry. apply Permutation_middle.
  - done.
Qed.
End SysVarTheorems.

Section TableKeyTheorems.
Import TableKey TableShare.

(** For names of the allowed length, the key of a table fits in the buffer its comment asks for, and a share that is given this key finds the two names
    in it, so that different tables have different keys. *)
Theorem tdc_key_roundtrip strmake d t mem s key_buff :
  (∀ b n, strmake b n = take n b) → Forall (λ c, c ≠ 0) d → Forall (λ c, c ≠ 0) t → (length d ≤ NAME_LEN)%nat → (length t ≤ NAME_LEN)%nat →
  (key_buff + (2 * NAME_LEN + 2) ≤ length mem)%nat →
  let '(key, n) := tdc_create_key strmake d t in
  n = Z.of_nat (length key) ∧ (length key ≤ 2 * NAME_LEN + 2)%nat ∧
  ∃ mem' s', set_table_cache_key_copy mem s key_buff key = Some (mem', s') ∧
    take (len (db s')) (drop (str (db s')) mem') = d ∧ take (len (table_name s')) (drop (str (table_name s')) mem') = t.
Proof.
  intros Hs Hd Ht Hld Hlt Hm. unfold tdc_create_key. rewrite !Hs, !take_ge by lia. unfold NAME_LEN in *.
  assert (Hl : length (d ++ [0] ++ t ++ [0]) = (length d + length t + 2)%nat) by (rewrite !length_app; cbn; lia).
  rewrite Hl. split_and!; [unfold wrapu; rewrite Z.mod_small; lia|lia|].
  destruct (table_cache_key_roundtrip mem s key_buff d t [] Hd Ht) as (mem' & s' & H & _ & _ & H1 & H2 & _).
  { change (d ++ 0 :: t ++ 0 :: []) with (d ++ [0] ++ t ++ [0]). rewrite Hl. lia. }
  exists mem', s'. done.
Qed.
Lemma tdc_key_roundtrip_witness :
  (tdc_create_key (λ b n, take n b) [116] [97; 98]).2 = 5.
Proof.
  pose proof (tdc_key_roundtrip (λ b n, take n b) [116] [97; 98] (replicate 400 0) ex_share 0 ltac:(done) ltac:(repeat constructor; done) ltac:(repeat constructor; done)
    ltac:(by apply Nat.leb_le) ltac:(by apply Nat.leb_le) ltac:(by apply Nat.leb_le)) as H.
  destruct (tdc_create_key (λ b n, take n b) [116] [97; 98]) as [key n] eqn:E. destruct H as [Hn _]. injection E as <- <-. exact Hn.
Defined.
End TableKeyTheorems.

Section TableSetupTheorems.
Import TableSetup.

Lemma embedding_spec h l : ∀ e m fuel, nested_in h e l → (length l < fuel)%nat →
  ∃ r, embedding_loop fuel h m e = Some r ∧ (r ≠ 0 ↔ m ≠ 0 ∨ ∃ t, t ∈ l ∧ outer_join t ≠ 0).
Proof.
  induction l as [|t l IH]; intros e m fuel Hn Hf; (destruct fuel as [|fuel]; [cbn in Hf; lia|]); cbn [embedding_loop]; cbn in Hn.
  - subst e. rewrite decide_False by naive_solver. exists m. split; [done|]. setoid_rewrite elem_of_nil. naive_solver.
  - destruct Hn as (He & Ht & Hn). destruct (decide (m = 0)) as [->|Hm].
    + rewrite decide_True by done. rewrite Ht. cbn [mbind option_bind]. destruct (IH (embedding t) (outer_join t) fuel) as (r & -> & Hr); [done|cbn in Hf; lia|].
      exists r. split; [done|]. rewrite Hr. setoid_rewrite elem_of_cons. naive_solver.
    + rewrite decide_False by naive_solver. exists m. naive_solver.
Qed.
(** Giving a table its number ends: it can be NULL-complemented exactly when it, or a reference it is nested in, is the inner side of an outer join,
    its map is the bit of its number, and its covering keys are those of the share, whether or not it comes from a merged derived table. *)
Theorem setup_table_map_spec {W} (reset : W → W) h w table tl orig nr l fuel :
  nested_in h (embedding tl) l → (length l < fuel)%nat → 0 ≤ nr < 64 →
  ∃ t, setup_table_map reset fuel h w table tl orig nr = Some (t, reset w) ∧
    (maybe_null t ≠ 0 ↔ outer_join tl ≠ 0 ∨ ∃ e, e ∈ l ∧ outer_join e ≠ 0) ∧ map t = 2 ^ nr ∧ tablenr t = nr ∧ covering_keys t = keys_for_keyread table.
Proof.
  intros Hn Hf Hr. unfold setup_table_map. destruct (embedding_spec h l (embedding tl) (outer_join tl) fuel Hn Hf) as (r & -> & Hm). cbn [mbind option_bind].
  rewrite decide_True by lia. cbn [mbind option_bind]. eexists. split; [done|]. cbn. split_and!; [done| |done|by destruct orig as [[]|]].
  rewrite Z.shiftl_1_l. apply wrapu_small. split; [apply Z.pow_nonneg; lia|apply Z.pow_lt_mono_r; lia].
Qed.
Lemma setup_table_map_spec_witness :
  ∃ t, setup_table_map (λ _ : unit, tt) 3 (<[1%N := TList 0 2 false]> (<[2%N := TList 1 0 false]> ∅)) tt (Table 9 true 0 0 0 0 true true true 0 5) (TList 0 1 true) (Some true) 3 =
    Some (t, tt) ∧ maybe_null t ≠ 0 ∧ map t = 8.
Proof.
  destruct (setup_table_map_spec (λ _ : unit, tt) (<[1%N := TList 0 2 false]> (<[2%N := TList 1 0 false]> ∅)) tt (Table 9 true 0 0 0 0 true true true 0 5) (TList 0 1 true) (Some true) 3
    [TList 0 2 false; TList 1 0 false] 3) as (t & Ht & Hm & Hp & _); [done|cbn; lia|lia|].
  exists t. split_and!; [done| |done]. rewrite Hm. right. exists (TList 1 0 false). split; [right; left|done].
Defined.

Import PartitionElement.
(** An engine flag is found in an element of a partition exactly when the engine of the element or of some subpartition below has it. *)
Theorem engine_flag_found f e : find_engine_flag f e = existsb f (engines e).
Proof.
  revert e. fix IH 1. intros [t subs]. cbn. destruct (f t); [done|]. cbn. induction subs as [|s subs IHs]; [done|]. cbn. rewrite existsb_app, <- (IH s), <- IHs.
  by destruct (find_engine_flag f s).
Qed.
End TableSetupTheorems.

Section LexCheckTheorems.
Import Ddl LexChecks.

Lemma nonzero_lor a b f : nonzero ((a .| b) .& f) = nonzero (a .& f) || nonzero (b .& f).
Proof.
  unfold nonzero. apply eq_bool_prop_intro. rewrite orb_True, !bool_decide_spec, Z.land_lor_distr_l, Z.lor_eq_0_iff.
  destruct (decide (a .& f = 0)), (decide (b .& f = 0)); tauto.
Qed.
(** However the options of a CREATE statement come together, set first and then added, the check fails exactly when OR REPLACE is among them and IF NOT
    EXISTS is. *)
Theorem create_options_conflict c o os :
  Forall (λ o, in_u 32 (m_options o)) (o :: os) →
  let c' := foldl (λ c o, fst (add_create_options_with_check c o)) (fst (set_create_options_with_check c o)) os in
  check_create_options c' = existsb or_replace (o :: os) && existsb if_not_exists (o :: os).
Proof.
  intros [Ho Hos]%Forall_cons c'.
  cut (or_replace c' = existsb or_replace (o :: os) ∧ if_not_exists c' = existsb if_not_exists (o :: os)).
  { intros [H1 H2]. unfold check_create_options. by rewrite H1, H2. }
  subst c'. unfold set_create_options_with_check, set_from. cbn [fst]. destruct o as [o]. cbn [m_options] in *. revert o Ho.
  induction os as [|[x] os IH]; intros o Ho; cbn [foldl existsb]; [by rewrite !orb_false_r|]. apply Forall_cons in Hos as [Hx Hos]. cbn [m_options] in Hx.
  unfold add_create_options_with_check at 2 4. cbn [fst]. unfold add_from, add. cbn [m_options]. rewrite !(wrapu_small 32) by done.
  destruct (IH Hos (o .| x)) as [H1 H2]; [apply (in_u_lor 32 ltac:(lia)); done|]. rewrite H1, H2. cbn [existsb]. unfold or_replace, if_not_exists. cbn [m_options].
  rewrite !nonzero_lor, !orb_assoc. done.
Qed.
Lemma create_options_conflict_witness :
  check_create_options (foldl (λ c o, fst (add_create_options_with_check c o)) (fst (set_create_options_with_check init (Ddl 16))) [Ddl 4; Ddl 2]) = true.
Proof. rewrite (create_options_conflict init (Ddl 16) [Ddl 4; Ddl 2]); [reflexivity|repeat constructor; cbn; lia]. Defined.
End LexCheckTheorems.
