(* ===== verification/AuditEvents.v ===== *)
(** * Notifications of the audit plugins

    From sql_audit.h and plugin_audit.h: the events the server builds for the plugins, of the classes GENERAL, CONNECTION and TABLE.  What
    [mysql_audit_notify] does with them is not in the headers: the events are the list of its calls. *)

From Stdlib Require Import ZArith NArith Lia.
From stdpp Require Import base numbers option list.
From S2P Require Import Prelude.
Open Scope Z_scope.
Open Scope cint_scope.

Module Audit.

Definition MYSQL_AUDIT_GENERAL_CLASS : Z := 0.
Definition MYSQL_AUDIT_GENERAL_CLASSMASK : Z := 1 ≪ MYSQL_AUDIT_GENERAL_CLASS.
Definition MYSQL_AUDIT_GENERAL_LOG : Z := 0.
Definition MYSQL_AUDIT_CONNECTION_CLASS : Z := 1.
Definition MYSQL_AUDIT_CONNECTION_CLASSMASK : Z := 1 ≪ MYSQL_AUDIT_CONNECTION_CLASS.
Definition MYSQL_AUDIT_CONNECTION_CONNECT : Z := 0.
Definition MYSQL_AUDIT_CONNECTION_DISCONNECT : Z := 1.
Definition MYSQL_AUDIT_CONNECTION_CHANGE_USER : Z := 2.
Definition MYSQL_AUDIT_TABLE_CLASS : Z := 15.
Definition MYSQL_AUDIT_TABLE_CLASSMASK : Z := 1 ≪ MYSQL_AUDIT_TABLE_CLASS.
Definition MYSQL_AUDIT_TABLE_LOCK : Z := 0.
Definition MYSQL_AUDIT_TABLE_CREATE : Z := 1.
Definition MYSQL_AUDIT_TABLE_DROP : Z := 2.
Definition MYSQL_AUDIT_TABLE_RENAME : Z := 3.
Definition MYSQL_AUDIT_TABLE_ALTER : Z := 4.
Definition MAX_USER_HOST_SIZE : nat := 512.
Definition F_RDLCK : Z := 1.
Definition F_UNLCK : Z := 3.

(** A C string is its bytes before the zero byte; a pointer to one can be null.  A [LEX_CSTRING] has its own length. *)
Abbreviation cstr := (list Z).
Record LEX_CSTRING := Lex { str : option cstr; length_ : Z }.
Definition null_clex_str : LEX_CSTRING := Lex None 0.
Definition strlen_uint (s : cstr) : Z := u32 (Z.of_nat (length s)).
Definition safe_strlen_uint (s : option cstr) : Z := u32 (match s with Some s => Z.of_nat (length s) | None => 0 end).

Record Security_context := Sctx {
  s_user : option cstr; s_host : option cstr; s_ip : option cstr; s_external_user : option cstr; s_priv_user : cstr; s_proxy_user : cstr; s_priv_host : cstr
}.
Record THD := Thd {
  thread_id : Z; character_set_client : N; db : LEX_CSTRING; query_id : Z; da_error : option Z; query_string : LEX_CSTRING; query_charset : N;
  current_row_for_warning : Z; security_ctx : Security_context
}.

Record mysql_event_general := General {
  g_subclass : Z; general_error_code : Z; general_thread_id : Z; general_user : option cstr; general_user_length : Z; general_command : option cstr;
  general_command_length : Z; general_query : option cstr; general_query_length : Z; general_charset : N; general_time : Z; general_rows : Z;
  g_query_id : Z; g_database : LEX_CSTRING
}.
Record mysql_event_connection := Connection {
  c_subclass : Z; status : Z; c_thread_id : Z; c_user : option cstr; user_length : Z; c_priv_user : cstr; priv_user_length : Z; c_external_user : option cstr;
  external_user_length : Z; c_proxy_user : cstr; proxy_user_length : Z; c_host : option cstr; host_length : Z; c_ip : option cstr; ip_length : Z; c_database : LEX_CSTRING
}.
Record mysql_event_table := Table {
  t_subclass : Z; read_only : bool; t_thread_id : Z; t_user : option cstr; t_priv_user : cstr; t_priv_host : cstr; t_external_user : option cstr; t_proxy_user : cstr;
  t_host : option cstr; t_ip : option cstr; t_database : LEX_CSTRING; t_table : LEX_CSTRING; new_database : LEX_CSTRING; new_table : LEX_CSTRING; t_query_id : Z
}.
Inductive event := EGeneral (e : mysql_event_general) | EConnection (e : mysql_event_connection) | ETable (e : mysql_event_table).

Section Notify.
(** [mask] is [mysql_global_audit_mask[0]], [lw] the width of [unsigned long]; the binary character set and that of the server are addresses.
    [strxnmov] puts together strings, up to a number of bytes. *)
Context (mask lw : Z) (my_charset_bin global_charset : N) (strxnmov : nat → list cstr → cstr).
Definition mysql_audit_general_enabled : bool := bool_decide (mask .& MYSQL_AUDIT_GENERAL_CLASSMASK ≠ 0).
Definition mysql_audit_connection_enabled : bool := bool_decide (mask .& MYSQL_AUDIT_CONNECTION_CLASSMASK ≠ 0).
Definition mysql_audit_table_enabled : bool := bool_decide (mask .& MYSQL_AUDIT_TABLE_CLASSMASK ≠ 0).
(** Each function returns the calls of [mysql_audit_notify] it makes: the class and the event. *)
Definition or_empty (s : option cstr) : cstr := match s with Some s => s | None => [] end.
Definition make_user_name (thd : THD) : cstr * Z :=
  let sctx := security_ctx thd in
  let buf := strxnmov MAX_USER_HOST_SIZE
    [s_priv_user sctx; [91]; or_empty (s_user sctx); [93; 32; 64; 32]; or_empty (s_host sctx); [32; 91]; or_empty (s_ip sctx); [93]] in
  (buf, u32 (Z.of_nat (length buf))).
Definition mysql_audit_general_log (thd : option THD) (time : Z) (user : option cstr) (userlen : Z) (cmd : option cstr) (cmdlen : Z) (query : option cstr) (querylen : Z) :
    list (Z * event) :=
  if mysql_audit_general_enabled then
    let '(id, cs, database, qid) :=
      match thd with
      | Some thd => (wrapu lw (thread_id thd), character_set_client thd, db thd, query_id thd)
      | None => (0, global_charset, null_clex_str, 0)
      end in
    [(MYSQL_AUDIT_GENERAL_CLASS, EGeneral (General MYSQL_AUDIT_GENERAL_LOG 0 id user userlen cmd cmdlen query querylen cs (u64 time) 0 qid database))]
  else [].
Definition mysql_audit_general (thd : option THD) (now event_subtype error_code : Z) (msg : option cstr) : list (Z * event) :=
  if mysql_audit_general_enabled then
    [(MYSQL_AUDIT_GENERAL_CLASS, EGeneral
       match thd with
       | Some thd =>
           let '(user_buff, n) := make_user_name thd in
           General event_subtype error_code (wrapu lw (thread_id thd)) (Some user_buff) n msg (safe_strlen_uint msg) (str (query_string thd)) (u32 (length_ (query_string thd)))
             (query_charset thd) (u64 now) (current_row_for_warning thd) (query_id thd) (db thd)
       | None => General event_subtype error_code 0 None 0 msg (safe_strlen_uint msg) None 0 my_charset_bin (u64 now) 0 0 null_clex_str
       end)]
  else [].
(** The members every connection event gets. *)
Definition connection_event (thd : THD) (subclass status : Z) : mysql_event_connection :=
  let sctx := security_ctx thd in
  Connection subclass status (wrapu lw (thread_id thd)) (s_user sctx) (safe_strlen_uint (s_user sctx)) (s_priv_user sctx) (strlen_uint (s_priv_user sctx))
    (s_external_user sctx) (safe_strlen_uint (s_external_user sctx)) (s_proxy_user sctx) (strlen_uint (s_proxy_user sctx)) (s_host sctx)
    (safe_strlen_uint (s_host sctx)) (s_ip sctx) (safe_strlen_uint (s_ip sctx)) (db thd).
Definition error_or_0 (thd : THD) : Z := match da_error thd with Some n => s32 n | None => 0 end.
Definition mysql_audit_notify_connection_connect (thd : THD) : list (Z * event) :=
  if mysql_audit_connection_enabled then [(MYSQL_AUDIT_CONNECTION_CLASS, EConnection (connection_event thd MYSQL_AUDIT_CONNECTION_CONNECT (error_or_0 thd)))] else [].
Definition mysql_audit_notify_connection_disconnect (thd : THD) (errcode : Z) : list (Z * event) :=
  if mysql_audit_connection_enabled then [(MYSQL_AUDIT_CONNECTION_CLASS, EConnection (connection_event thd MYSQL_AUDIT_CONNECTION_DISCONNECT errcode))] else [].
Definition mysql_audit_notify_connection_change_user (thd : THD) : list (Z * event) :=
  if mysql_audit_connection_enabled then [(MYSQL_AUDIT_CONNECTION_CLASS, EConnection (connection_event thd MYSQL_AUDIT_CONNECTION_CHANGE_USER (error_or_0 thd)))] else [].
(** The members every table event gets. *)
Definition table_event (thd : THD) (subclass : Z) (ro : bool) (database table new_db new_tb : LEX_CSTRING) : mysql_event_table :=
  let sctx := security_ctx thd in
  Table subclass ro (wrapu lw (thread_id thd)) (s_user sctx) (s_priv_user sctx) (s_priv_host sctx) (s_external_user sctx) (s_proxy_user sctx) (s_host sctx) (s_ip sctx)
    database table new_db new_tb (query_id thd).
Definition mysql_audit_external_lock (thd : THD) (share_db share_table_name : LEX_CSTRING) (lock : Z) : list (Z * event) :=
  if bool_decide (lock ≠ F_UNLCK) && mysql_audit_table_enabled then
    [(MYSQL_AUDIT_TABLE_CLASS, ETable (table_event thd MYSQL_AUDIT_TABLE_LOCK (bool_decide (lock = F_RDLCK)) share_db share_table_name null_clex_str null_clex_str))]
  else [].
(** [thd] is the session that uses the table. *)
Definition mysql_audit_create_table (thd : THD) (share_db share_table_name : LEX_CSTRING) : list (Z * event) :=
  if mysql_audit_table_enabled then
    [(MYSQL_AUDIT_TABLE_CLASS, ETable (table_event thd MYSQL_AUDIT_TABLE_CREATE false share_db share_table_name null_clex_str null_clex_str))]
  else [].
Definition mysql_audit_drop_table (thd : THD) (table_db table_name : LEX_CSTRING) : list (Z * event) :=
  if mysql_audit_table_enabled then
    [(MYSQL_AUDIT_TABLE_CLASS, ETable (table_event thd MYSQL_AUDIT_TABLE_DROP false table_db table_name null_clex_str null_clex_str))]
  else [].
Definition mysql_audit_rename_table (thd : THD) (old_db old_tb new_db new_tb : LEX_CSTRING) : list (Z * event) :=
  if mysql_audit_table_enabled then
    [(MYSQL_AUDIT_TABLE_CLASS, ETable (table_event thd MYSQL_AUDIT_TABLE_RENAME false old_db old_tb new_db new_tb))]
  else [].
Definition mysql_audit_alter_table (thd : THD) (table_db table_name : LEX_CSTRING) : list (Z * event) :=
  if mysql_audit_table_enabled then
    [(MYSQL_AUDIT_TABLE_CLASS, ETable (table_event thd MYSQL_AUDIT_TABLE_ALTER false table_db table_name null_clex_str null_clex_str))]
  else [].

(** What happens in a server, and what its plugins are told. *)
Inductive happening :=
  | Query (thd : option THD) (time : Z) (user : cstr) (cmd : cstr) (query : cstr)
  | Status (thd : option THD) (now subtype code : Z) (msg : option cstr)
  | Connect (thd : THD) | Disconnect (thd : THD) (code : Z) | ChangeUser (thd : THD)
  | TableLock (thd : THD) (d t : LEX_CSTRING) (lock : Z) | Create (thd : THD) (d t : LEX_CSTRING) | DropTable (thd : THD) (d t : LEX_CSTRING)
  | Rename (thd : THD) (d t d' t' : LEX_CSTRING) | Alter (thd : THD) (d t : LEX_CSTRING).
Definition tell (h : happening) : list (Z * event) :=
  match h with
  | Query thd time u c q => mysql_audit_general_log thd time (Some u) (strlen_uint u) (Some c) (strlen_uint c) (Some q) (strlen_uint q)
  | Status thd now s c m => mysql_audit_general thd now s c m
  | Connect thd => mysql_audit_notify_connection_connect thd
  | Disconnect thd c => mysql_audit_notify_connection_disconnect thd c
  | ChangeUser thd => mysql_audit_notify_connection_change_user thd
  | TableLock thd d t l => mysql_audit_external_lock thd d t l
  | Create thd d t => mysql_audit_create_table thd d t
  | DropTable thd d t => mysql_audit_drop_table thd d t
  | Rename thd d t d' t' => mysql_audit_rename_table thd d t d' t'
  | Alter thd d t => mysql_audit_alter_table thd d t
  end.
Definition class_of (h : happening) : Z :=
  match h with
  | Query _ _ _ _ _ | Status _ _ _ _ _ => MYSQL_AUDIT_GENERAL_CLASS
  | Connect _ | Disconnect _ _ | ChangeUser _ => MYSQL_AUDIT_CONNECTION_CLASS
  | _ => MYSQL_AUDIT_TABLE_CLASS
  end.
Definition is_unlock (h : happening) : bool := match h with TableLock _ _ _ l => bool_decide (l = F_UNLCK) | _ => false end.
(** The lengths an event carries are those of its strings, up to the width of [unsigned int]; only a renaming has new names. *)
Definition lengths_right (e : event) : Prop :=
  match e with
  | EGeneral e => general_user_length e = safe_strlen_uint (general_user e) ∧ general_command_length e = safe_strlen_uint (general_command e)
  | EConnection e =>
      user_length e = safe_strlen_uint (c_user e) ∧ priv_user_length e = strlen_uint (c_priv_user e) ∧ external_user_length e = safe_strlen_uint (c_external_user e) ∧
      proxy_user_length e = strlen_uint (c_proxy_user e) ∧ host_length e = safe_strlen_uint (c_host e) ∧ ip_length e = safe_strlen_uint (c_ip e)
  | ETable e => t_subclass e = MYSQL_AUDIT_TABLE_RENAME ∨ (new_database e = null_clex_str ∧ new_table e = null_clex_str)
  end.
End Notify.

Lemma mask_bit mask k : 0 ≤ k → bool_decide (mask .& (1 ≪ k) ≠ 0) = Z.testbit mask k.
Proof.
  intros Hk. rewrite Z.shiftl_1_l. destruct (Z.testbit mask k) eqn:E.
  - apply bool_decide_eq_true_2. intros H. assert (Z.testbit (mask .& 2 ^ k) k = true) as H' by (by rewrite Z.land_spec, E, Z.pow2_bits_true). by rewrite H, Z.bits_0 in H'.
  - apply bool_decide_eq_false_2. intros H. apply H. apply Z.bits_inj'. intros i Hi. rewrite Z.land_spec, Z.bits_0.
    destruct (decide (i = k)) as [->|Hne]; [by rewrite E|]. rewrite Z.pow2_bits_false by lia. apply andb_false_r.
Qed.

Lemma tell_class mask lw cb cg sx h :
  ((Z.testbit mask (class_of h) && negb (is_unlock h) = true → ∃ e, tell mask lw cb cg sx h = [(class_of h, e)] ∧ lengths_right e) ∧
   (Z.testbit mask (class_of h) && negb (is_unlock h) = false → tell mask lw cb cg sx h = [])).
Proof.
  destruct h; cbn [tell class_of is_unlock negb]; rewrite ?andb_true_r.
  all: unfold mysql_audit_general_log, mysql_audit_general, mysql_audit_notify_connection_connect, mysql_audit_notify_connection_disconnect,
    mysql_audit_notify_connection_change_user, mysql_audit_external_lock, mysql_audit_create_table, mysql_audit_drop_table, mysql_audit_rename_table, mysql_audit_alter_table,
    mysql_audit_general_enabled, mysql_audit_connection_enabled, mysql_audit_table_enabled.
  all: unfold MYSQL_AUDIT_GENERAL_CLASSMASK, MYSQL_AUDIT_CONNECTION_CLASSMASK, MYSQL_AUDIT_TABLE_CLASSMASK; rewrite mask_bit by (by vm_compute).
  all: destruct (Z.testbit mask _); cbn [andb]; rewrite ?andb_true_r, ?andb_false_r; try (split; [discriminate|done]); try (split; [|discriminate]).
  1,2: intros _; destruct thd as [t|]; (eexists; split; [done|]); cbn; split; done.
  1-3: intros _; eexists; split; [done|]; cbn; split_and!; done.
  1: destruct (decide (lock = F_UNLCK)) as [->|Hn];
    [split; [done|done]|rewrite (bool_decide_eq_true_2 (lock ≠ F_UNLCK)), (bool_decide_eq_false_2 (lock = F_UNLCK)) by done; split; [|done]].
  all: intros _; eexists; split; [done|]; cbn; auto.
Qed.

(** For any history of a server and any mask, the plugins are told of each happening whose class has its bit in the mask exactly once, in order and under
    its class, except of unlocking a table, and of nothing else; the lengths in the events are those of their strings, and only the event of a renaming has new names. *)
Theorem audit_events_exact mask lw cb cg sx hs :
  let told := concat (tell mask lw cb cg sx <$> hs) in
  told.*1 = class_of <$> filter (λ h, Z.testbit mask (class_of h) && negb (is_unlock h) = true) hs ∧ Forall lengths_right told.*2.
Proof.
  induction hs as [|h hs [IH1 IH2]]; [by split; constructor|]. cbn [fmap list_fmap concat]. destruct (tell_class mask lw cb cg sx h) as [H1 H2]. rewrite filter_cons.
  destruct (Z.testbit mask (class_of h) && negb (is_unlock h)) eqn:E.
  - destruct (H1 eq_refl) as (e & -> & He). rewrite decide_True by done. cbn. split; [by f_equal|]. by constructor.
  - rewrite (H2 eq_refl). rewrite decide_False by done. done.
Qed.
End Audit.
